(* ===== verification/_CoqProject ===== *)
-Q . S2P
Prelude.v
Bytes.v
Weighted.v
Paths.v
TokenBucket.v
Kv.v
Ssrf.v
RateLimit.v
Quota.v
HostApi.v
Chain.v
Headers.v
Hash.v
Rng.v
Maglev.v
Manifest.v
Upstream.v
Balancer.v
Registry.v
Route.v
RouteTable.v
ContentHash.v
Control.v
Forward.v
Pool.v
ProxyProtocol.v
ConnLimit.v
Compression.v
Body.v
Respond.v
Transaction.v
Proxy.v
Live.v
Contract.v
Filter.v
Stek.v
Tls.v
Stdio.v
Observe.v
Supervise.v
OutboundTcp.v
TcpSockets.v
OutboundHttp.v
Otlp.v
OtlpPump.v
Filesystem.v
Oci.v
Provenance.v
LoadOptions.v
Load.v
Loader.v
UpstreamClients.v
Tunnel.v
H3.v
Listener.v
F64.v
Metrics.v
Admin.v
H3Serve.v
DevSign.v
DevKit.v
Preflight.v
Cli.v
Scaffold.v
AccessLog.v
Process.v
