(* ===== verification/Prelude.v ===== *)
(** * PlectoProxy: a verification development

    A model of the Rust crates under src/plecto/crates and the theorems that make them correct.
    PlectoProxy is a reverse proxy whose per-route policy is a chain of WebAssembly filters.  A
    manifest declares listeners, certificates, upstreams, routes and filters; the control plane
    builds an immutable configuration from it and swaps it in on reload; the server forwards
    requests through the configuration it finds; the host runs the filters in instances with
    capped state, time, memory and network.

    ** How to read it

    Definitions keep the source's names and its order of tests.  Fixed-width integers are [Z] with
    their wrapping, saturating or checked operations written out ([wrap64], [saturating_add64],
    [checked_add_signed]); bytes and texts are [bytes], a list of [ascii]; hash maps are [gmap];
    fallible code returns [option] or [result]; code that mutates returns its new state; what runs
    concurrently is an inductive step relation, and a theorem about it speaks of every state
    reachable by [rtc].  What the code takes from elsewhere (cryptography, TLS, HTTP and QUIC
    libraries, the WebAssembly engine, JSON and TOML parsers, clocks, sockets, the database) is a
    class of operations; what is relied on of it is a class of laws, and every theorem that uses
    one has a witness at a concrete instance.  Texts of log lines and errors are not represented
    unless a client or an operator's tool reads them.

    ** The parts (C is control/src, H is host/src, S is server/src, P is plecto/src)

    Ground: [Prelude] (integers, results, lists, tactics), [Bytes] (texts, UTF-8, splitting),
    [F64] (binary64 and its shortest decimal text, for metrics), [Filesystem] (paths, symbolic
    links and files as a tree that may change between two calls).

    Traffic decisions: [Weighted] is C/weighted.rs, the apportioned schedule of a split; [Paths],
    [Route] and [RouteTable] are C/route.rs with C/manifest/route.rs (normalisation, matching and
    the most specific route, compilation); [Hash], [Rng], [Maglev] are C/hash.rs, rng.rs, maglev.rs;
    [Upstream], [Balancer], [Registry] are C/upstream/ (health, breaker, outliers, the three
    balancers, reconciliation on reload); [RateLimit] is C/ratelimit.rs over the bucket
    arithmetic of H/backend.rs, [TokenBucket]; [Supervise] is S/health.rs and S/dns.rs.

    Control plane: [Manifest] and [ContentHash] are C/manifest/ (schema, validation, the streams
    behind the config version and the reload fingerprint); [Control] is C/lib.rs, control_reload.rs,
    reload.rs, snapshot.rs; [Oci], [Provenance], [LoadOptions], [Load], [Loader] are C/oci.rs,
    C/artifact.rs, H/trust.rs, H/contract_target.rs, H/options.rs, H/host.rs: from a digest pin to
    a filter held to its grants; [Stek] and [Tls] are C/stek.rs and C/tls.rs.

    Host: [Kv], [Quota], [HostApi] are H/backend.rs, quota.rs, state.rs (backends and group
    commit, tallies and caps, the calls a guest makes); [Contract] is H/contract.rs (the four
    contract versions and the gate on what a guest returns); [Pool] and [Filter] are H/pool.rs,
    runtime.rs, filter.rs (instances, breakers, hooks); [Chain] is C/chain.rs; [Ssrf],
    [OutboundTcp], [TcpSockets], [OutboundHttp] are H/outbound.rs, outbound_tcp.rs,
    outbound_http.rs; [Stdio], [Observe], [Otlp], [OtlpPump] are H/stdio.rs, observe.rs, otlp.rs
    and S/otlp.rs.

    Server: [Headers] is S/headers.rs; [Transaction], [Proxy], [Live] are S/proxy.rs and
    dispatch.rs, the whole of a request in a monad over an interface to the shared state, where an
    action is its run to the end and the states it can be dropped in ([Transaction]), the theorems
    ([Proxy]) and the interface implemented by the other components ([Live]); [Forward] is
    S/forward.rs and retry.rs; [Body], [Respond], [Compression] the files of those names;
    [ProxyProtocol], [ConnLimit], [Listener], [Tunnel], [H3], [H3Serve] are
    S/proxy_protocol.rs, conn_limit.rs, listener.rs, tunnel.rs and h3/; [UpstreamClients],
    [Metrics], [Admin] are S/upstream_client.rs, metrics.rs, admin.rs.

    Starting, recording and the developer's tools: [Preflight] is the construction of C/lib.rs (the
    pre-flight check and the start, for which [validate_decides_startup] shows that one accepts
    exactly what the other can start from), C/manifest/observability.rs and what a reload leaves
    alone; [Process] is S/lib.rs's arena cap and descriptor limit; [AccessLog] adds to [Transaction]
    the access-log event and the request span of S/proxy.rs and S/access_log.rs ([journal_agrees]:
    they change no transaction and name its status, route, client and trace); [Cli] is P/cli.rs and
    P/main.rs (argument handling, and the health probe that reads [Admin]'s readiness as reported);
    [DevSign] is H/dev_signer.rs and P/dev_key.rs; [DevKit] is H/conformance.rs and P/dev_cmd.rs (the
    battery, packaging, and the rebuild that replaces an artifact only by one that passed);
    [Scaffold] is P/new_filter.rs (a scaffold left whole or not at all).

    ** How they meet

    [Chain] is proved over the class [FilterHost]; [Filter.loaded_host] implements it with pooled
    instances.  [Transaction] is written against the class [Server], and [Forward] against its own
    [Env] of upstream client, clock and picks; [Live] implements [Server] from the registry, the
    balancer, the breaker, the limiter, the chain and the forwarder, and the witnesses of [Proxy]'s
    theorems run there.  [HostApi] is proved for any lawful [KvBackend], [Kv] shows both
    backends to be one.  [Control.build_active] is generic in the artifact store, the loader and
    the TLS builder; [Loader] and [Tls] instantiate it.  [Route]'s
    split reads the health of its groups through the class [Eligible].  [Headers] states the laws of a
    header map once for every file that edits one.

    ** What is shown

    Requests: no attempt at an upstream without every gate before it, in order (Proxy); each
    refusal with its status and counters; permits and picks released exactly once whether a
    transaction runs to its end or its future is dropped at an await; inspection enforced; retries
    bounded, within the deadline and only of safe failures; HTTP/3 bodies as long as
    declared; forwarding headers unspoofable and one authority per request; paths normalised; the most specific route.
    Guests: a chain fails closed and resumes exactly; what a guest returns passes one gate and
    reaches the wire as accepted; pools exclusive and within their cap; quotas exact under any
    interleaving, up to what a failing backend leaves behind; state isolated; group commit
    linearisable; outbound connections vetted, with descriptors accounted for; every loaded filter pinned and vouched for.
    Configuration: a reload is all or nothing, sees every change and keeps the health of what
    did not change; validation accepts exactly the valid; ticket keys fail closed and rotate.
    Life of the server: a start that the pre-flight decides, connections, permits and tunnels
    accounted for (the admin listener's own included), a shutdown that ends,
    probing that neither starves nor floods, idle tunnels closed exactly; spans and samples that
    read back as written and are counted when dropped.
    The properties of the manifest carry a claim number in their comment; the other theorems
    support them or state lesser contracts of the same code.

    ** Bounds and fuel

    A recursion that is not structural takes fuel, and a theorem or lemma says that what its
    callers pass is enough: the gcd and the trial divisions of a primality test (their argument),
    the Maglev fill (one turn per slot, [maglev_weighted_shares]), Lemire's rejection loop ([n + 1]
    words, [below_terminates_unbiased]), the retry loop ([max_retries + 1], [forward_retry_safe]),
    varints (ten groups of seven bits), the PROXY header's and the guest stdio's reads (one per
    byte held), the compressed body (one round per frame and one to finish), trimming (one round
    per byte), the decimal exponent of a double (the range of binary64).
    [Filesystem.MAX_LINKS] is the kernel's limit of forty links.

    ** Not modelled

    Delegation to a library with no decision of its own (the socket and stream methods that call
    wasmtime, hyper's and quinn's drivers, rustls' handshake), generated bindings, the engine's
    configuration and its epoch ticker, Debug output, the texts of logs, the rendering of the access
    log's line, the installation of signal handlers, the experimental streaming body runtime
    (H/streaming.rs, off by default: engine set-up around one guest call), Redis, WebAssembly guests and their
    fixtures, benchmarks, fuzz targets, examples and the test support they share.  Allocation
    failure, which aborts, and a poisoned lock are not states here: the host's locks do not poison,
    and those of the control plane would only after a panic under one, where the code has none.
    Relaxed atomics are read as interleavings of the operations the code performs on each of them. *)

From Stdlib Require Export ZArith Lia.
From stdpp Require Export base tactics list numbers option gmap sets strings.

#[global] Open Scope Z_scope.
#[global] Open Scope list_scope.

(** ** Notations, hint databases and tactics *)

Declare Scope plecto_scope.
Delimit Scope plecto_scope with plecto.
#[global] Open Scope plecto_scope.

(** Lemmas that automate the arithmetic side conditions of the components. *)
Create HintDb plecto.

(** Split every [match] and [if] of the goal, keeping the equations. *)
Ltac case_match_all := repeat (case_match; try done).

(** Turn boolean comparisons into propositions. *)
Ltac bools :=
  repeat match goal with
  | H : (_ && _)%bool = true |- _ => apply andb_true_iff in H as [? ?]
  | H : (_ || _)%bool = false |- _ => apply orb_false_iff in H as [? ?]
  | H : negb _ = true |- _ => apply negb_true_iff in H
  | H : negb _ = false |- _ => apply negb_false_iff in H
  | H : (_ <? _) = true |- _ => apply Z.ltb_lt in H
  | H : (_ <? _) = false |- _ => apply Z.ltb_ge in H
  | H : (_ <=? _) = true |- _ => apply Z.leb_le in H
  | H : (_ <=? _) = false |- _ => apply Z.leb_gt in H
  | H : (_ =? _) = true |- _ => apply Z.eqb_eq in H
  | H : (_ =? _) = false |- _ => apply Z.eqb_neq in H
  end.

(** ** Machine integers

    Rust's fixed-width integers are [Z] with the width's range written out:
    wrapping operations reduce modulo the width, saturating operations clamp,
    checked operations return an option. *)

Definition u64_max : Z := 2 ^ 64 - 1.
Definition u32_max : Z := 2 ^ 32 - 1.
Definition isize_max : Z := 2 ^ 63 - 1.

Definition is_u64 (x : Z) : Prop := 0 <= x <= u64_max.
Definition is_u32 (x : Z) : Prop := 0 <= x <= u32_max.

Definition wrap32 (x : Z) : Z := x mod 2 ^ 32.
Definition wrap64 (x : Z) : Z := x mod 2 ^ 64.
Definition wrapping_add (a b : Z) : Z := wrap64 (a + b).
Definition wrapping_mul (a b : Z) : Z := wrap64 (a * b).

Definition saturating_add64 (a b : Z) : Z := Z.min (a + b) u64_max.
Definition saturating_sub (a b : Z) : Z := Z.max (a - b) 0.
Definition saturating_mul64 (a b : Z) : Z := Z.min (a * b) u64_max.
Definition saturating_add32 (a b : Z) : Z := Z.min (a + b) u32_max.
Definition usize_max : Z := u64_max.

(** [checked_add_signed] on [usize]. *)
Definition checked_add_signed (a d : Z) : option Z :=
  if (0 <=? a + d) && (a + d <=? usize_max) then Some (a + d) else None.
(** [checked_add] on [usize], kept only up to [isize::MAX]. *)
Definition checked_add_isize (a b : Z) : option Z :=
  if a + b <=? isize_max then Some (a + b) else None.
(** [saturating_sub] on [isize]. *)
Definition saturating_sub_isize (a b : Z) : Z :=
  Z.max (- 2 ^ 63) (Z.min (a - b) isize_max).
Definition div_ceil (a b : Z) : Z := (a + b - 1) / b.

(** ** Sums of lists *)

Fixpoint sumZ (l : list Z) : Z :=
  match l with
  | [] => 0
  | x :: l' => x + sumZ l'
  end.

Lemma sumZ_app l1 l2 : sumZ (l1 ++ l2) = sumZ l1 + sumZ l2.
Proof. induction l1; simpl; lia. Qed.

Lemma sumZ_nonneg l : Forall (fun x => 0 <= x) l -> 0 <= sumZ l.
Proof. induction 1; simpl; lia. Qed.

Lemma sumZ_insert l i x y :
  l !! i = Some x -> sumZ (<[i := y]> l) = sumZ l - x + y.
Proof.
  revert i. induction l as [|z l IH]; intros [|i] H; simplify_eq/=; [lia|].
  rewrite (IH _ H). lia.
Qed.

Lemma sumZ_perm l1 l2 : l1 ≡ₚ l2 -> sumZ l1 = sumZ l2.
Proof. induction 1; simpl; lia. Qed.

#[export] Instance sumZ_proper : Proper ((≡ₚ) ==> eq) sumZ.
Proof. intros l1 l2. apply sumZ_perm. Qed.

(** Positions of [x] in [l], counted. *)
Definition count_eq (x : nat) (l : list nat) : Z :=
  Z.of_nat (length (filter (fun y => y = x) l)).

Lemma count_eq_nil x : count_eq x [] = 0.
Proof. done. Qed.

Lemma count_eq_snoc x l y :
  count_eq x (l ++ [y]) = count_eq x l + (if decide (y = x) then 1 else 0).
Proof.
  unfold count_eq. rewrite filter_app, length_app, filter_cons, filter_nil.
  case_decide; simpl; lia.
Qed.

(** ** Results, panics and reductions *)

(** Rust's [Result<A, E>]. *)
Inductive result (A E : Type) : Type :=
| Ok (a : A)
| Err (e : E).
Arguments Ok {A E} a.
Arguments Err {A E} e.

Lemma Ok_inj {A E} (a b : A) : @Ok A E a = Ok b -> a = b.
Proof. congruence. Qed.

(** The outcome of code that can index out of range: [Panic] is Rust's unwinding panic. *)
Inductive outcome (A : Type) : Type :=
| Done (a : A)
| Panic.
Arguments Done {A} a.
Arguments Panic {A}.

(** [Iterator::reduce]. *)
Definition reduce {A} (f : A -> A -> A) (l : list A) : option A :=
  match l with
  | [] => None
  | x :: l' => Some (fold_left f l' x)
  end.

(** The indices [0 .. n-1] of a [for i in 0..n] loop. *)
Definition range (n : nat) : list nat := seq 0 n.

Lemma elem_of_range i n : i ∈ range n <-> (i < n)%nat.
Proof. unfold range. rewrite elem_of_seq. lia. Qed.

(** A test on a bounded number holds for all of them when it holds for each. *)
Lemma forallb_below (f : Z -> bool) n :
  forallb (fun k => f (Z.of_nat k)) (range n) = true ->
  forall x, 0 <= x < Z.of_nat n -> f x = true.
Proof.
  intros Hall x Hx. rewrite forallb_forall in Hall.
  specialize (Hall (Z.to_nat x)). rewrite Z2Nat.id in Hall by lia. apply Hall.
  apply in_seq. lia.
Qed.

(** ** Class of eligibility probes

    The load balancer promises its client a probe that says whether a group can serve a
    request now; the traffic split is proved against this interface. *)
Class Eligible (G : Type) := has_eligible : G -> bool.

(** ** Sums over finite maps *)

Section map_sum.
Context {K A : Type} `{Countable K} (f : K -> A -> Z).

Definition map_sum (m : gmap K A) : Z := sumZ (map (fun kv => f kv.1 kv.2) (map_to_list m)).

Lemma map_sum_empty : map_sum ∅ = 0.
Proof. unfold map_sum. by rewrite map_to_list_empty. Qed.

Lemma map_sum_insert_new m k x : m !! k = None -> map_sum (<[k := x]> m) = map_sum m + f k x.
Proof.
  intros Hk. unfold map_sum. rewrite map_to_list_insert by done. cbn [map sumZ fst snd]. lia.
Qed.

Lemma map_sum_delete m k x : m !! k = Some x -> map_sum (delete k m) = map_sum m - f k x.
Proof.
  intros Hk. rewrite <- (insert_delete_id m k x Hk) at 2.
  rewrite map_sum_insert_new by apply lookup_delete_eq. lia.
Qed.

(** Writing [k] changes the sum by what [k] contributes after minus before. *)
Lemma map_sum_insert m k x :
  map_sum (<[k := x]> m) = map_sum m + f k x - from_option (f k) 0 (m !! k).
Proof.
  destruct (m !! k) as [y|] eqn:Hk; cbn [from_option].
  - rewrite <- insert_delete_eq, map_sum_insert_new, (map_sum_delete m k y) by
      (done || apply lookup_delete_eq). lia.
  - rewrite map_sum_insert_new by done. lia.
Qed.

Lemma map_sum_delete_any m k :
  map_sum (delete k m) = map_sum m - from_option (f k) 0 (m !! k).
Proof.
  destruct (m !! k) as [y|] eqn:Hk; cbn [from_option].
  - by apply map_sum_delete.
  - rewrite delete_id by done. lia.
Qed.
End map_sum.

(** ** Bit operations within a width *)

Lemma lxor_bound n a b : 0 <= n -> 0 <= a < 2 ^ n -> 0 <= b < 2 ^ n -> 0 <= Z.lxor a b < 2 ^ n.
Proof.
  intros Hn Ha Hb. assert (0 <= Z.lxor a b) by (apply Z.lxor_nonneg; lia). split; [done|].
  destruct (Z.eq_dec (Z.lxor a b) 0) as [->|Hz]; [lia|].
  apply Z.log2_lt_pow2; [lia|]. pose proof (Z.log2_lxor a b ltac:(lia) ltac:(lia)) as Hl.
  destruct (Z.eq_dec n 0) as [->|]; [replace a with 0 in * by lia; replace b with 0 in * by lia; done|].
  assert (Hlog : forall x, 0 <= x < 2 ^ n -> Z.log2 x < n).
  { intros x Hx. destruct (Z.eq_dec x 0) as [->|]; [cbn; lia|]. apply Z.log2_lt_pow2; lia. }
  pose proof (Hlog a Ha). pose proof (Hlog b Hb). lia.
Qed.

Lemma wrap64_u64 x : is_u64 (wrap64 x).
Proof. unfold is_u64, u64_max, wrap64. pose proof (Z.mod_pos_bound x (2 ^ 64)). lia. Qed.

Lemma is_u64_lt x : is_u64 x <-> 0 <= x < 2 ^ 64.
Proof. unfold is_u64, u64_max. lia. Qed.

Lemma lxor_u64 a b : is_u64 a -> is_u64 b -> is_u64 (Z.lxor a b).
Proof. rewrite !is_u64_lt. apply lxor_bound. lia. Qed.

Lemma shiftr_u64 a s : 0 <= s -> is_u64 a -> is_u64 (Z.shiftr a s).
Proof.
  rewrite !is_u64_lt. intros Hs Ha. rewrite Z.shiftr_div_pow2 by done.
  pose proof (Z.pow_pos_nonneg 2 s ltac:(lia) Hs).
  split; [apply Z.div_pos; lia|]. apply Z.div_lt_upper_bound; nia.
Qed.

#[export] Hint Resolve wrap64_u64 lxor_u64 shiftr_u64 : plecto.

(** ** Validation

    Build-time checks return at the first failure; [let?] is the question-mark operator. *)

Definition res_bind {A B E} (m : result A E) (f : A -> result B E) : result B E :=
  match m with Ok a => f a | Err e => Err e end.
Notation "'let?' x := m 'in' k" := (res_bind m (fun x => k))
  (at level 200, x pattern, m at level 100, k at level 200) : plecto_scope.

Lemma res_bind_ok {A B E} (m : result A E) (f : A -> result B E) b :
  res_bind m f = Ok b <-> exists a, m = Ok a /\ f a = Ok b.
Proof. destruct m as [a|e]; cbn; split; [eauto|intros (? & [= <-] & ?)|done|intros (? & ? & ?)]; done. Qed.

Lemma res_bind_unit {B E} (m : result unit E) (k : result B E) b :
  res_bind m (fun _ => k) = Ok b <-> m = Ok tt /\ k = Ok b.
Proof. rewrite res_bind_ok. split; [intros ([] & ? & ?)|intros []; exists tt]; done. Qed.

(** A list of guarded rejections, in order: [if c1 { return Err(e1) } if c2 ...; Ok(())]. *)
Fixpoint first_failure {E} (checks : list (bool * E)) : result unit E :=
  match checks with
  | [] => Ok tt
  | (bad, e) :: rest => if bad then Err e else first_failure rest
  end.

Lemma first_failure_ok {E} (checks : list (bool * E)) :
  first_failure checks = Ok tt <-> Forall (fun c => fst c = false) checks.
Proof.
  induction checks as [|[b e] l IH]; cbn [first_failure]; [by split; [constructor|]|].
  rewrite Forall_cons, <- IH. destruct b; cbn [fst]; split; (done || tauto || intros [[=] _]).
Qed.

Lemma first_failure_app_ok {E} (l1 l2 : list (bool * E)) :
  first_failure (l1 ++ l2) = Ok tt <-> first_failure l1 = Ok tt /\ first_failure l2 = Ok tt.
Proof. by rewrite !first_failure_ok, Forall_app. Qed.

Lemma first_failure_map_ok {A E} (bad : A -> bool) (e : A -> E) l :
  first_failure (map (fun x => (bad x, e x)) l) = Ok tt <-> Forall (fun x => bad x = false) l.
Proof. rewrite first_failure_ok, Forall_map. done. Qed.

Lemma first_failure_flat_map_ok {A E} (f : A -> list (bool * E)) l :
  first_failure (flat_map f l) = Ok tt <-> Forall (fun x => first_failure (f x) = Ok tt) l.
Proof.
  induction l as [|x l IH]; cbn [flat_map]; [by split; [constructor|]|].
  by rewrite first_failure_app_ok, Forall_cons, IH.
Qed.

Lemma first_failure_cons_ok {E} b (e : E) l :
  first_failure ((b, e) :: l) = Ok tt <-> b = false /\ first_failure l = Ok tt.
Proof. cbn. destruct b; split; (done || tauto || intros [[=] _]). Qed.

Lemma first_failure_nil_ok {E} : @first_failure E [] = Ok tt <-> True.
Proof. done. Qed.

#[export] Hint Rewrite @first_failure_app_ok @first_failure_flat_map_ok @first_failure_cons_ok
  @first_failure_nil_ok @res_bind_unit : plecto_checks.
