(* ===== verification/Bytes.v ===== *)
(** * Byte strings

    Rust's [&str] and [&[u8]] as lists of bytes, with the standard-library operations the
    proxy uses on them.  Delimiters are single bytes, so byte-wise and char-wise splitting of
    UTF-8 text agree. *)

From Stdlib Require Export Ascii.
From Stdlib Require String.
From stdpp Require Import sorting.
From S2P Require Import Prelude.

Abbreviation bytes := (list ascii).

Definition bs (s : string) : bytes := String.list_ascii_of_string s.

Definition byte_of (n : nat) : ascii := ascii_of_nat n.
Definition byte_val (c : ascii) : Z := Z.of_N (N_of_ascii c).

Definition ascii_eqb (a b : ascii) : bool := bool_decide (a = b).
Definition bytes_eqb (a b : bytes) : bool := bool_decide (a = b).

Definition SLASH : ascii := "/"%char.
Definition QMARK : ascii := "?"%char.
Definition DOT : ascii := "."%char.

(** ** Splitting and joining *)

(** [str::split] on one byte: never empty. *)
Fixpoint split_on (c : ascii) (s : bytes) : list bytes :=
  match s with
  | [] => [[]]
  | x :: s' =>
    if ascii_eqb x c then [] :: split_on c s'
    else match split_on c s' with
         | [] => [[x]]
         | seg :: rest => (x :: seg) :: rest
         end
  end.

(** [str::split_once] on one byte. *)
Fixpoint split_once (c : ascii) (s : bytes) : option (bytes * bytes) :=
  match s with
  | [] => None
  | x :: s' =>
    if ascii_eqb x c then Some ([], s')
    else match split_once c s' with
         | None => None
         | Some (p, q) => Some (x :: p, q)
         end
  end.

(** [[&str]::join] with a one-byte separator. *)
Fixpoint join (c : ascii) (segs : list bytes) : bytes :=
  match segs with
  | [] => []
  | [s] => s
  | s :: rest => s ++ c :: join c rest
  end.

Fixpoint strip_prefix (p s : bytes) : option bytes :=
  match p, s with
  | [], _ => Some s
  | _ :: _, [] => None
  | x :: p', y :: s' => if ascii_eqb x y then strip_prefix p' s' else None
  end.

Definition starts_with (p s : bytes) : bool := bool_decide (is_Some (strip_prefix p s)).
Definition starts_with_byte (c : ascii) (s : bytes) : bool :=
  match s with x :: _ => ascii_eqb x c | [] => false end.
Definition ends_with_byte (c : ascii) (s : bytes) : bool :=
  match last s with Some x => ascii_eqb x c | None => false end.
Definition contains_byte (c : ascii) (s : bytes) : bool := existsb (fun x => ascii_eqb x c) s.

(** ** Case and whitespace *)

Definition to_lower_byte (c : ascii) : ascii :=
  let n := nat_of_ascii c in
  if ((65 <=? n) && (n <=? 90))%nat then ascii_of_nat (n + 32) else c.
Definition to_upper_byte (c : ascii) : ascii :=
  let n := nat_of_ascii c in
  if ((97 <=? n) && (n <=? 122))%nat then ascii_of_nat (n - 32) else c.
Definition to_ascii_lowercase (s : bytes) : bytes := map to_lower_byte s.
Definition to_ascii_uppercase (s : bytes) : bytes := map to_upper_byte s.
Definition eq_ignore_ascii_case (a b : bytes) : bool :=
  bytes_eqb (to_ascii_lowercase a) (to_ascii_lowercase b).

(** The UTF-8 encodings of the code points [char::is_whitespace] accepts. *)
Definition whitespace_codes : list (list nat) :=
  [[9]; [10]; [11]; [12]; [13]; [32]; [194; 133]; [194; 160]; [225; 154; 128];
   [226; 128; 128]; [226; 128; 129]; [226; 128; 130]; [226; 128; 131]; [226; 128; 132];
   [226; 128; 133]; [226; 128; 134]; [226; 128; 135]; [226; 128; 136]; [226; 128; 137];
   [226; 128; 138]; [226; 128; 168]; [226; 128; 169]; [226; 128; 175]; [226; 129; 159];
   [227; 128; 128]]%nat.
Definition whitespace : list bytes := map (map ascii_of_nat) whitespace_codes.

Definition strip_any (ws : list bytes) (s : bytes) : option bytes :=
  fold_right (fun w acc => match strip_prefix w s with Some r => Some r | None => acc end)
    None ws.

Fixpoint trim_start_fuel (ws : list bytes) (fuel : nat) (s : bytes) : bytes :=
  match fuel with
  | O => s
  | S fuel' => match strip_any ws s with
               | Some r => trim_start_fuel ws fuel' r
               | None => s
               end
  end.

(** [str::trim]; each round drops at least one byte, so [length s] rounds are enough. *)
Definition trim (s : bytes) : bytes :=
  let t := trim_start_fuel whitespace (length s) s in
  reverse (trim_start_fuel (map reverse whitespace) (length t) (reverse t)).

(** [str::from_utf8]: well-formed UTF-8 (no overlong forms, no surrogates, at most U+10FFFF). *)
Definition in_range (lo hi : Z) (c : ascii) : bool := (lo <=? byte_val c) && (byte_val c <=? hi).
Definition utf8_cont (c : ascii) : bool := in_range 128 191 c.

Fixpoint utf8_valid (s : bytes) : bool :=
  match s with
  | [] => true
  | a :: s1 =>
    if in_range 0 127 a then utf8_valid s1
    else
      match s1 with
      | [] => false
      | b :: s2 =>
        if in_range 194 223 a && utf8_cont b then utf8_valid s2
        else
          match s2 with
          | [] => false
          | c :: s3 =>
            if ((in_range 224 224 a && in_range 160 191 b)
                || (in_range 225 236 a && utf8_cont b)
                || (in_range 237 237 a && in_range 128 159 b)
                || (in_range 238 239 a && utf8_cont b)) && utf8_cont c
            then utf8_valid s3
            else
              match s3 with
              | [] => false
              | d :: s4 =>
                if ((in_range 240 240 a && in_range 144 191 b)
                    || (in_range 241 243 a && utf8_cont b)
                    || (in_range 244 244 a && in_range 128 143 b)) && utf8_cont c && utf8_cont d
                then utf8_valid s4
                else false
              end
          end
      end
  end.

(** The UTF-8 encoding of U+FFFD, the replacement character. *)
Definition REPLACEMENT : bytes := map ascii_of_nat [239; 191; 189]%nat.

(** The byte order of [String] and [Vec<u8>]. *)
Fixpoint bytes_leb (a b : bytes) : bool :=
  match a, b with
  | [], _ => true
  | _, [] => false
  | x :: a', y :: b' =>
    (byte_val x <? byte_val y) || ((byte_val x =? byte_val y) && bytes_leb a' b')
  end.
Definition bytes_le (a b : bytes) : Prop := bytes_leb a b = true.
#[export] Instance bytes_le_dec : RelDecision bytes_le.
Proof. intros a b. unfold bytes_le. apply _. Defined.

(** [Vec::dedup]: runs of equal elements. *)
Fixpoint dedup (l : list bytes) : list bytes :=
  match l with
  | [] => []
  | x :: rest =>
    match dedup rest with
    | y :: rest' => if bytes_eqb x y then y :: rest' else x :: y :: rest'
    | [] => [x]
    end
  end.

(** ** Lemmas *)

Lemma ascii_eqb_eq a c : ascii_eqb a c = true <-> a = c.
Proof. unfold ascii_eqb. by rewrite bool_decide_eq_true. Qed.

Lemma ascii_eqb_neq a c : ascii_eqb a c = false <-> a <> c.
Proof. unfold ascii_eqb. by rewrite bool_decide_eq_false. Qed.

Lemma ascii_eqb_refl a : ascii_eqb a a = true.
Proof. by apply ascii_eqb_eq. Qed.

Lemma bytes_eqb_eq a c : bytes_eqb a c = true <-> a = c.
Proof. unfold bytes_eqb. by rewrite bool_decide_eq_true. Qed.

Lemma bytes_eqb_neq a c : bytes_eqb a c = false <-> a <> c.
Proof. apply bool_decide_eq_false. Qed.

Lemma split_on_nonempty c s : split_on c s <> [].
Proof. destruct s as [|x s]; simpl; [done|]. case_match; [done|]. by case_match. Qed.

Lemma join_cons c s rest : rest <> [] -> join c (s :: rest) = s ++ c :: join c rest.
Proof. by destruct rest. Qed.

Lemma join_split c s : join c (split_on c s) = s.
Proof.
  induction s as [|x s IH]; [done|]. cbn [split_on].
  pose proof (split_on_nonempty c s).
  destruct (ascii_eqb x c) eqn:E.
  - apply ascii_eqb_eq in E as ->. rewrite join_cons by done. by rewrite IH.
  - destruct (split_on c s) as [|seg rest]; [done|]. rewrite <- IH.
    by destruct rest.
Qed.

Lemma split_on_no_sep c s : c ∉ s -> split_on c s = [s].
Proof.
  induction s as [|x s IH]; intros Hn; [done|]. cbn [split_on].
  apply not_elem_of_cons in Hn as [Hx Hs].
  rewrite (proj2 (ascii_eqb_neq x c)) by done. by rewrite IH.
Qed.

Lemma split_on_app c s t :
  c ∉ s -> split_on c (s ++ c :: t) = s :: split_on c t.
Proof.
  induction s as [|x s IH]; intros Hn; cbn [app split_on].
  { by rewrite ascii_eqb_refl. }
  apply not_elem_of_cons in Hn as [Hx Hs].
  rewrite (proj2 (ascii_eqb_neq x c)) by done. by rewrite IH.
Qed.

Lemma split_join c segs :
  segs <> [] -> Forall (fun s => c ∉ s) segs -> split_on c (join c segs) = segs.
Proof.
  intros Hne Hall. induction Hall as [|s rest Hs _ IH]; [done|].
  destruct rest as [|s' rest]; [by apply split_on_no_sep|].
  rewrite join_cons, split_on_app by done. by rewrite IH.
Qed.

Lemma split_on_segs_no_sep c s : Forall (fun seg => c ∉ seg) (split_on c s).
Proof.
  induction s as [|x s IH]; cbn [split_on].
  { constructor; [apply not_elem_of_nil|constructor]. }
  destruct (ascii_eqb x c) eqn:E.
  { constructor; [apply not_elem_of_nil|done]. }
  apply ascii_eqb_neq in E. destruct (split_on c s) as [|seg rest].
  - constructor; [|constructor]. set_solver.
  - apply Forall_cons in IH as [? ?]. constructor; [set_solver|done].
Qed.

Lemma split_once_Some c s p q : split_once c s = Some (p, q) -> s = p ++ c :: q /\ c ∉ p.
Proof.
  revert p q. induction s as [|x s IH]; intros p q; cbn [split_once]; [done|].
  destruct (ascii_eqb x c) eqn:E.
  - apply ascii_eqb_eq in E as ->. intros [= <- <-]. split; [done|apply not_elem_of_nil].
  - apply ascii_eqb_neq in E. destruct (split_once c s) as [[p' q']|]; [|done].
    intros [= <- <-]. destruct (IH p' q' eq_refl) as [-> ?]. split; [done|set_solver].
Qed.

Lemma split_once_None c s : split_once c s = None -> c ∉ s.
Proof.
  induction s as [|x s IH]; cbn [split_once]; [intros _; apply not_elem_of_nil|].
  destruct (ascii_eqb x c) eqn:E; [done|]. apply ascii_eqb_neq in E.
  destruct (split_once c s) as [[p' q']|]; [done|]. intros _. set_solver.
Qed.

Lemma split_once_app c p q : c ∉ p -> split_once c (p ++ c :: q) = Some (p, q).
Proof.
  induction p as [|x p IH]; intros Hn; cbn [app split_once].
  { by rewrite ascii_eqb_refl. }
  apply not_elem_of_cons in Hn as [Hx Hp].
  rewrite (proj2 (ascii_eqb_neq x c)) by done. by rewrite IH.
Qed.

Lemma split_once_none c p : c ∉ p -> split_once c p = None.
Proof.
  intros Hn. destruct (split_once c p) as [[p' q]|] eqn:E; [|done].
  apply split_once_Some in E as [-> _]. set_solver.
Qed.

Lemma strip_prefix_Some p s r : strip_prefix p s = Some r <-> s = p ++ r.
Proof.
  revert s. induction p as [|x p IH]; intros s; cbn [strip_prefix app].
  { split; [by intros [= ->]|by intros ->]. }
  destruct s as [|y s]; [done|]. destruct (ascii_eqb x y) eqn:E.
  - apply ascii_eqb_eq in E as ->. rewrite IH. split; [by intros ->|by intros [= ->]].
  - apply ascii_eqb_neq in E. split; [done|]. by intros [= ->].
Qed.

Lemma starts_with_spec p s : starts_with p s = true <-> exists r, s = p ++ r.
Proof.
  unfold starts_with. rewrite bool_decide_eq_true. unfold is_Some.
  by setoid_rewrite strip_prefix_Some.
Qed.

Lemma contains_byte_spec c s : contains_byte c s = true <-> c ∈ s.
Proof.
  unfold contains_byte. rewrite existsb_exists. split.
  - intros (x & Hx & E). apply ascii_eqb_eq in E as ->. by apply list_elem_of_In.
  - intros Hc. exists c. split; [by apply list_elem_of_In|apply ascii_eqb_refl].
Qed.

Lemma to_lower_byte_idemp c : to_lower_byte (to_lower_byte c) = to_lower_byte c.
Proof. destruct c as [[] [] [] [] [] [] [] []]; reflexivity. Qed.

Lemma to_ascii_lowercase_idemp s :
  to_ascii_lowercase (to_ascii_lowercase s) = to_ascii_lowercase s.
Proof.
  unfold to_ascii_lowercase. rewrite map_map. apply map_ext. apply to_lower_byte_idemp.
Qed.

Lemma eq_ignore_case_lower a c :
  eq_ignore_ascii_case (to_ascii_lowercase a) c = eq_ignore_ascii_case a c.
Proof. unfold eq_ignore_ascii_case. by rewrite to_ascii_lowercase_idemp. Qed.

#[export] Instance ignore_case_equiv : Equivalence (fun a c => eq_ignore_ascii_case a c = true).
Proof.
  unfold eq_ignore_ascii_case. split; intros ?; setoid_rewrite bytes_eqb_eq; congruence.
Qed.

(** ** The byte order *)

Lemma bytes_leb_total a b : bytes_leb a b = true \/ bytes_leb b a = true.
Proof.
  revert b. induction a as [|x a IH]; intros [|y b]; cbn; [auto|auto|auto|].
  rewrite !orb_true_iff, !andb_true_iff, !Z.ltb_lt, !Z.eqb_eq.
  destruct (Z.lt_total (byte_val x) (byte_val y)) as [|[|]]; destruct (IH b); auto.
Qed.

Lemma byte_val_range c : 0 <= byte_val c < 256.
Proof. unfold byte_val. pose proof (N_ascii_bounded c). lia. Qed.

Lemma byte_val_inj x y : byte_val x = byte_val y -> x = y.
Proof.
  unfold byte_val. intros E%N2Z.inj. rewrite <- (ascii_N_embedding x), E. apply ascii_N_embedding.
Qed.

#[export] Instance bytes_le_trans : Transitive bytes_le.
Proof.
  unfold bytes_le. intros a. induction a as [|x a IH]; intros [|y b] [|z c]; cbn; try done.
  rewrite !orb_true_iff, !andb_true_iff, !Z.ltb_lt, !Z.eqb_eq.
  intros [?|[E1 ?]] [?|[E2 ?]]; [left; lia|left; lia|left; lia|right].
  split; [lia|by apply (IH b)].
Qed.
#[export] Instance bytes_le_total : Total bytes_le.
Proof. intros a b. apply bytes_leb_total. Qed.
#[export] Instance bytes_le_antisymm : AntiSymm (=) bytes_le.
Proof.
  unfold bytes_le. intros a. induction a as [|x a IH]; intros [|y b]; cbn; try done.
  rewrite !orb_true_iff, !andb_true_iff, !Z.ltb_lt, !Z.eqb_eq.
  intros [?|[E1 H1]] [?|[E2 H2]]; try lia. apply byte_val_inj in E1 as ->. f_equal. by apply IH.
Qed.

Lemma dedup_in x l : x ∈ dedup l <-> x ∈ l.
Proof.
  revert x. induction l as [|y l IH]; intros x; [done|]. cbn [dedup].
  rewrite elem_of_cons, <- (IH x). destruct (dedup l) as [|z l']; [set_solver|].
  destruct (bytes_eqb y z) eqn:E; [apply bytes_eqb_eq in E as ->|]; set_solver.
Qed.

Lemma dedup_sorted l : StronglySorted bytes_le l -> StronglySorted bytes_le (dedup l) /\ NoDup (dedup l).
Proof.
  induction 1 as [|x l Hs IH Hx]; [split; constructor|]. destruct IH as [IHs IHn].
  assert (Hx' : Forall (bytes_le x) (dedup l)).
  { rewrite Forall_forall in *. intros y Hy. by apply Hx, dedup_in. }
  cbn [dedup]. destruct (dedup l) as [|z l'] eqn:Ed; [split; [repeat constructor|apply NoDup_singleton]|].
  destruct (bytes_eqb x z) eqn:E; [done|]. split; [by constructor|].
  apply NoDup_cons. split; [|done]. intros Hin. apply elem_of_cons in Hin as [->|Hin].
  - rewrite (proj2 (bytes_eqb_eq z z)) in E by done. done.
  - inversion IHs as [|? ? _ Hz]; subst. rewrite Forall_forall in Hz. specialize (Hz x Hin).
    inversion Hx' as [|? ? Hxz _]; subst. assert (x = z) as -> by (by apply (anti_symm bytes_le)).
    rewrite (proj2 (bytes_eqb_eq z z)) in E by done. done.
Qed.

(** Sorting and deduplicating depends on the set of elements only. *)
Lemma dedup_sort_ext l l' :
  (forall x, x ∈ l <-> x ∈ l') -> dedup (merge_sort bytes_le l) = dedup (merge_sort bytes_le l').
Proof.
  intros Hl. destruct (dedup_sorted _ (StronglySorted_merge_sort bytes_le l)) as [Sa Na].
  destruct (dedup_sorted _ (StronglySorted_merge_sort bytes_le l')) as [Sb Nb].
  apply (Sorted_unique bytes_le); [by apply StronglySorted_Sorted..|].
  apply NoDup_Permutation; [done|done|]. intros x. by rewrite !dedup_in, !merge_sort_Permutation.
Qed.
