(* ===== verification/Weighted.v ===== *)
(** * Weighted traffic split (control/src/weighted.rs)

    The apportionment schedule of a route's weighted backends, its validation, and the pick
    that walks the schedule and skips groups with no eligible instance.  A backend group is
    any type with the [Eligible] probe of the prelude. *)

From S2P Require Import Prelude.

Definition MAX_TABLE_LEN : Z := 65536.
Definition MAX_BACKEND_WEIGHT : Z := 1000000.

(** ** Definitions *)

(** Euclid's loop [while b != 0 { (a, b) = (b, a % b) }].  Two rounds halve [b], so 65 rounds
    of fuel are enough for 32-bit operands ([gcd_spec]). *)
Fixpoint gcd_loop (fuel : nat) (a b : Z) : Z :=
  match fuel with
  | O => a
  | S fuel' => if b =? 0 then a else gcd_loop fuel' b (a mod b)
  end.

Definition gcd (a b : Z) : Z := gcd_loop 65 a b.

Inductive split_error :=
| NoBackends
| WeightTooLarge (w : Z)
| AllDrained
| TableTooLong (total : Z).

Definition nonzero (weights : list Z) : list Z := filter (fun w => 0 < w) weights.

Definition validate_split (weights : list Z) : result Z split_error :=
  match weights with
  | [] => Err NoBackends
  | _ =>
    match list_find (fun w => MAX_BACKEND_WEIGHT < w) weights with
    | Some (_, w) => Err (WeightTooLarge w)
    | None =>
      match reduce gcd (nonzero weights) with
      | None => Err AllDrained
      | Some divisor =>
        let total := sumZ (map (fun w => w / divisor) weights) in
        if MAX_TABLE_LEN <? total then Err (TableTooLong total) else Ok total
      end
    end
  end.

(** One iteration of the inner loop: credit index [i], keep the first largest deficit. *)
Definition credit (weights : list Z) (st : list Z * nat) (i : nat) : list Z * nat :=
  let '(deficit, best) := st in
  let deficit := <[i := deficit !!! i + weights !!! i]> deficit in
  (deficit, if deficit !!! best <? deficit !!! i then i else best).

(** One step: credit every backend, serve the largest deficit, debit the total. *)
Definition schedule_step (weights : list Z) (total : Z) (deficit : list Z) : list Z * nat :=
  let '(deficit, best) :=
    fold_left (credit weights) (range (length weights)) (deficit, O) in
  (<[best := deficit !!! best - total]> deficit, best).

Fixpoint schedule_run (weights : list Z) (total : Z) (n : nat) (deficit : list Z)
    : list nat * list Z :=
  match n with
  | O => ([], deficit)
  | S n' =>
    let '(deficit, best) := schedule_step weights total deficit in
    let '(rest, final) := schedule_run weights total n' deficit in
    (best :: rest, final)
  end.

Definition as_u16 (n : nat) : nat := Z.to_nat (Z.of_nat n mod 65536).

Definition weighted_schedule (weights : list Z) : list nat :=
  let total := sumZ weights in
  map as_u16
    (fst (schedule_run weights total (Z.to_nat total) (replicate (length weights) 0))).

Record WeightedBackends (G : Type) := mkWeighted {
  wb_groups : list G;
  wb_table : list nat;
  wb_cursor : Z;
}.
Arguments mkWeighted {G}.
Arguments wb_groups {G}.
Arguments wb_table {G}.
Arguments wb_cursor {G}.

Definition wb_new {G} (targets : list (G * Z)) : result (WeightedBackends G) split_error :=
  let weights := map snd targets in
  match validate_split weights with
  | Err e => Err e
  | Ok _ =>
    let groups := map fst (filter (fun t => 0 < snd t) targets) in
    let nz := nonzero weights in
    let divisor := Z.max (default 1 (reduce gcd nz)) 1 in
    let reduced := map (fun w => w / divisor) nz in
    Ok (mkWeighted groups (weighted_schedule reduced) 0)
  end.

(** The scan [for off in 0..len]; an index outside [table] or [groups] panics. *)
Fixpoint pick_scan {G} `{Eligible G} (groups : list G) (table : list nat) (start : nat)
    (offs : list nat) : outcome (option G) :=
  match offs with
  | [] => Done None
  | off :: offs' =>
    match table !! ((start + off) mod length table)%nat with
    | None => Panic
    | Some backend =>
      match groups !! backend with
      | None => Panic
      | Some g =>
        if has_eligible g then Done (Some g) else pick_scan groups table start offs'
      end
    end
  end.

Definition wb_pick {G} `{Eligible G} (s : WeightedBackends G)
    : outcome (option G) * WeightedBackends G :=
  if negb (existsb has_eligible (wb_groups s)) then (Done None, s)
  else
    let len := length (wb_table s) in
    if (len =? 0)%nat then (Done None, s)
    else
      let start := Z.to_nat (wb_cursor s mod Z.of_nat len) in
      (pick_scan (wb_groups s) (wb_table s) start (range len),
       mkWeighted (wb_groups s) (wb_table s) (wrapping_add (wb_cursor s) 1)).

(** ** Euclid's loop *)

Lemma gcd_loop_spec n : forall a b,
  0 <= a -> 0 <= b < 2 ^ Z.of_nat n -> gcd_loop (S (2 * n)) a b = Z.gcd a b.
Proof.
  induction n as [|n IH]; intros a b Ha Hb.
  - assert (b = 0) as -> by (simpl in Hb; lia). simpl. rewrite Z.gcd_0_r. lia.
  - replace (S (2 * S n)) with (S (S (S (2 * n)))) by lia. cbn [gcd_loop].
    destruct (Z.eqb_spec b 0) as [->|Hb0]; [rewrite Z.gcd_0_r; lia|].
    rewrite (Z.gcd_comm a b), <- (Z.gcd_mod a b), (Z.gcd_comm (a mod b) b) by done.
    pose proof (Z.mod_pos_bound a b ltac:(lia)) as Hr.
    destruct (Z.eqb_spec (a mod b) 0) as [->|Hr0]; [rewrite Z.gcd_0_r; lia|].
    rewrite (Z.gcd_comm b), <- (Z.gcd_mod b (a mod b)), Z.gcd_comm by done.
    apply IH; [lia|].
    pose proof (Z.mod_pos_bound b (a mod b) ltac:(lia)) as Hs.
    replace (Z.of_nat (S n)) with (Z.of_nat n + 1) in Hb by lia.
    rewrite Z.pow_add_r in Hb by lia.
    pose proof (Z.div_mod b (a mod b) ltac:(lia)) as Hd.
    assert (1 <= b `div` (a mod b)) by (apply Z.div_le_lower_bound; lia).
    nia.
Qed.

Lemma gcd_spec a b : 0 <= a -> is_u32 b -> gcd a b = Z.gcd a b.
Proof.
  intros Ha Hb. apply (gcd_loop_spec 32); [done|].
  unfold is_u32, u32_max in Hb. simpl in *. lia.
Qed.

Lemma gcd_common x y : 0 < x -> 0 < y /\ is_u32 y ->
  0 < gcd x y /\ (gcd x y | x) /\ (gcd x y | y).
Proof.
  intros Hx [Hy Hu]. rewrite (gcd_spec x y) by (lia || exact Hu).
  split; [|split; [apply Z.gcd_divide_l|apply Z.gcd_divide_r]].
  pose proof (Z.gcd_nonneg x y). assert (Z.gcd x y <> 0); [|lia].
  intros ?%Z.gcd_eq_0_l. lia.
Qed.

(** A common-divisor operation folds to a common divisor of the whole list. *)
Lemma fold_common_divisor (f : Z -> Z -> Z) (P : Z -> Prop) l x :
  (forall x y, 0 < x -> P y -> 0 < f x y /\ (f x y | x) /\ (f x y | y)) ->
  Forall P l -> 0 < x ->
  0 < fold_left f l x /\ (fold_left f l x | x) /\ Forall (fun w => (fold_left f l x | w)) l.
Proof.
  intros Hf Hl. revert x. induction Hl as [|y l Hy _ IH]; intros x Hx.
  { split; [done|]. split; [apply Z.divide_refl|constructor]. }
  cbn [fold_left]. destruct (Hf x y Hx Hy) as (Hg & Hgx & Hgy).
  destruct (IH (f x y) Hg) as (Hpos & Hd & Hall). split; [done|]. split.
  - by apply (Z.divide_trans _ (f x y)).
  - constructor; [by apply (Z.divide_trans _ (f x y))|done].
Qed.

Lemma reduce_gcd_positive l d :
  Forall (fun w => 0 < w /\ is_u32 w) l -> reduce gcd l = Some d ->
  0 < d /\ Forall (fun w => (d | w)) l.
Proof.
  destruct l as [|x l]; [done|]. intros [[Hx _] Hl]%Forall_cons Hr.
  injection Hr as <-.
  destruct (fold_common_divisor gcd _ l x gcd_common Hl Hx) as (? & ? & ?).
  split; [done|]. constructor; assumption.
Qed.

(** ** The apportionment invariant *)

Lemma sumZ_zip_add (l1 l2 : list Z) :
  length l1 = length l2 -> sumZ (zip_with Z.add l1 l2) = sumZ l1 + sumZ l2.
Proof.
  revert l2. induction l1; intros [|] ?; simplify_eq/=; [done|].
  rewrite IHl1 by lia. lia.
Qed.

Lemma sumZ_le_max l m : Forall (fun x => x <= m) l -> sumZ l <= Z.of_nat (length l) * m.
Proof. induction 1; cbn [sumZ length]; lia. Qed.

Section schedule.
Context (w : list Z).
Abbreviation n := (length w).
Abbreviation T := (sumZ w).

Lemma credit_fold d k :
  length d = n -> (k <= n)%nat ->
  let '(d', b) := fold_left (credit w) (range k) (d, O) in
  length d' = n /\ (b < Nat.max 1 k)%nat /\
  (forall i, (i < k)%nat -> d' !!! i = d !!! i + w !!! i /\ d' !!! i <= d' !!! b) /\
  (forall i, (k <= i)%nat -> d' !!! i = d !!! i).
Proof.
  intros Hd. induction k as [|k IH]; intros Hk.
  { simpl. repeat split; auto with lia. }
  unfold range. rewrite seq_S, fold_left_app.
  specialize (IH ltac:(lia)). unfold range in IH.
  destruct (fold_left (credit w) (seq 0 k) (d, O)) as [d' b].
  destruct IH as (Hl & Hb & Hlt & Hge). cbn [fold_left credit].
  replace (0 + k)%nat with k by lia.
  set (D := <[k := _]> d').
  assert (HDk : D !!! k = d !!! k + w !!! k).
  { unfold D. rewrite list_lookup_total_insert, decide_True, Hge by lia. done. }
  assert (HDne : forall j, j <> k -> D !!! j = d' !!! j).
  { intros j Hj. unfold D. rewrite list_lookup_total_insert, decide_False by (intros [? _]; congruence).
    done. }
  assert (Hbk : (b = k /\ k = O) \/ (b < k)%nat) by lia.
  assert (Hlen : length D = n) by (unfold D; by rewrite length_insert).
  destruct (Z.ltb_spec (D !!! b) (D !!! k)) as [Hc|Hc]; (split; [done|]);
    (split; [lia|]); (split; [|intros i Hi; rewrite HDne by lia; apply Hge; lia]);
    intros i Hi; (destruct (decide (i = k)) as [->|Hik];
      [split; [done|lia]|]); rewrite HDne by done; destruct (Hlt i) as [-> Hle]; try lia;
    (split; [done|]); assert (D !!! b = d' !!! b) by (apply HDne; lia); lia.
Qed.

(** After [t] steps with serve counts [c]: deficits sum to zero, are affine in the counts
    and stay strictly above [-T]. *)
Definition sched_inv (t : Z) (picks : list nat) (d : list Z) : Prop :=
  length d = n /\ sumZ d = 0 /\
  forall i, (i < n)%nat ->
    d !!! i = t * w !!! i - T * count_eq i picks /\ - T < d !!! i.

Lemma sched_inv_init : 0 < T -> sched_inv 0 [] (replicate n 0).
Proof.
  intros HT. split; [by rewrite length_replicate|]. split.
  - induction n; simpl; lia.
  - intros i Hi. rewrite lookup_total_replicate_2 by done. rewrite count_eq_nil. lia.
Qed.

Lemma sched_step_inv t picks d :
  0 < T -> Forall (fun x => 0 <= x) w -> sched_inv t picks d ->
  let '(d', b) := schedule_step w T d in
  (b < n)%nat /\ sched_inv (t + 1) (picks ++ [b]) d'.
Proof.
  intros HT Hw (Hlen & Hsum & Hd). unfold schedule_step.
  pose proof (credit_fold d n Hlen (le_n _)) as Hfold.
  destruct (fold_left (credit w) (range n) (d, O)) as [d' b].
  destruct Hfold as (Hl' & Hb & Hlt & _).
  assert (Hn : (0 < n)%nat) by (destruct w; simpl in *; lia).
  assert (Hbn : (b < n)%nat) by lia. split; [done|].
  assert (Hsum' : sumZ d' = T).
  { replace d' with (zip_with Z.add d w).
    - rewrite sumZ_zip_add by done. lia.
    - apply list_eq_same_length with n; [done|rewrite length_zip_with; lia|].
      intros i x y Hi Hx Hy. apply list_lookup_total_correct in Hy.
      rewrite lookup_zip_with in Hx.
      rewrite (list_lookup_lookup_total_lt d), (list_lookup_lookup_total_lt w) in Hx by lia.
      simplify_eq/=. by destruct (Hlt i Hi) as [-> _]. }
  assert (Hpos : 0 < d' !!! b).
  { assert (Forall (fun x => x <= d' !!! b) d') as Hall.
    { apply Forall_lookup_2. intros i x Hx. pose proof (lookup_lt_Some _ _ _ Hx).
      apply list_lookup_total_correct in Hx as <-. apply Hlt. lia. }
    apply sumZ_le_max in Hall. nia. }
  assert (Hb' : d' !! b = Some (d' !!! b)) by (apply list_lookup_lookup_total_lt; lia).
  split; [by rewrite length_insert|]. split.
  { rewrite (sumZ_insert _ _ _ _ Hb'). lia. }
  intros i Hi. rewrite list_lookup_total_insert, count_eq_snoc.
  destruct (Hlt i Hi) as [Heq _]. destruct (Hd i Hi) as [Hdi Hgt].
  pose proof (Forall_lookup_1 _ _ i _ Hw (list_lookup_lookup_total_lt _ _ Hi)).
  simpl in *. repeat case_decide; simplify_eq; try lia.
Qed.

Lemma schedule_run_inv k : forall t picks d,
  0 < T -> Forall (fun x => 0 <= x) w -> sched_inv t picks d ->
  let '(rest, d') := schedule_run w T k d in
  length rest = k /\ Forall (fun b => (b < n)%nat) rest /\
  sched_inv (t + Z.of_nat k) (picks ++ rest) d'.
Proof.
  induction k as [|k IH]; intros t picks d HT Hw Hinv; cbn [schedule_run].
  { rewrite app_nil_r, Z.add_0_r. split; [done|]. split; [apply Forall_nil|]; done. }
  pose proof (sched_step_inv t picks d HT Hw Hinv) as Hstep.
  destruct (schedule_step w T d) as [d1 b]. destruct Hstep as [Hb Hinv1].
  specialize (IH _ _ _ HT Hw Hinv1).
  destruct (schedule_run w T k d1) as [rest d']. destruct IH as (Hl & Hall & Hinv').
  split; [simpl; lia|]. split; [by constructor|].
  rewrite <- app_assoc in Hinv'.
  replace (t + Z.of_nat (S k)) with (t + 1 + Z.of_nat k) by lia. exact Hinv'.
Qed.

Lemma schedule_run_app k1 k2 d :
  schedule_run w T (k1 + k2) d =
  let '(p1, d1) := schedule_run w T k1 d in
  let '(p2, d2) := schedule_run w T k2 d1 in (p1 ++ p2, d2).
Proof.
  revert d. induction k1 as [|k1 IH]; intros d; cbn [Nat.add schedule_run].
  { by destruct (schedule_run w T k2 d). }
  destruct (schedule_step w T d) as [d1 b]. rewrite IH.
  destruct (schedule_run w T k1 d1) as [p1 d2].
  by destruct (schedule_run w T k2 d2).
Qed.

End schedule.

Lemma count_eq_cons x y l :
  count_eq x (y :: l) = (if decide (y = x) then 1 else 0) + count_eq x l.
Proof. unfold count_eq. rewrite filter_cons. case_decide; simpl; lia. Qed.

Lemma count_eq_app x l1 l2 : count_eq x (l1 ++ l2) = count_eq x l1 + count_eq x l2.
Proof. unfold count_eq. rewrite filter_app, length_app. lia. Qed.

Lemma count_eq_nonneg x l : 0 <= count_eq x l.
Proof. unfold count_eq. lia. Qed.

Lemma count_eq_bounded l n x :
  Forall (fun b => (b < n)%nat) l -> (n <= x)%nat -> count_eq x l = 0.
Proof.
  intros Hl Hx. induction Hl; [done|]. rewrite count_eq_cons, IHHl.
  rewrite decide_False by lia. done.
Qed.

(** The counts of a list over [0 .. n-1] add up to its length. *)
Lemma sumZ_counts n l :
  Forall (fun b => (b < n)%nat) l ->
  sumZ (map (fun i => count_eq i l) (range n)) = Z.of_nat (length l).
Proof.
  intros Hl. induction Hl as [|b l Hb _ IH].
  { unfold range. generalize O. induction n; intros; [done|]. cbn [seq map sumZ].
    rewrite IHn, count_eq_nil. done. }
  rewrite (map_ext _ (fun i => (if decide (b = i) then 1 else 0) + count_eq i l)) by
    (intros; apply count_eq_cons).
  transitivity (sumZ (map (fun i => if decide (b = i) then 1 else 0) (range n))
    + sumZ (map (fun i => count_eq i l) (range n))).
  { clear. induction (range n); cbn [map sumZ]; lia. }
  rewrite IH. cbn [length]. enough (sumZ (map (fun i => if decide (b = i) then 1 else 0)
    (range n)) = 1) by lia.
  clear -Hb. unfold range. induction n as [|n IHn]; [lia|].
  rewrite seq_S, map_app, sumZ_app. cbn [map sumZ Nat.add].
  destruct (decide (b = n)) as [->|].
  - rewrite (map_ext_in _ (fun _ => 0)).
    + clear. generalize O. induction n as [|n IH]; intros m; cbn [seq map sumZ]; [done|].
      specialize (IH (S m)). lia.
    + intros i Hi%in_seq. case_decide; [lia|done].
  - rewrite IHn by lia. lia.
Qed.

(** Lists bounded above pointwise with the same sum are equal pointwise. *)
Lemma sumZ_le_eq (l1 l2 : list Z) :
  Forall2 Z.le l1 l2 -> sumZ l1 = sumZ l2 -> l1 = l2.
Proof.
  intros H. assert (sumZ l1 <= sumZ l2 /\ (sumZ l1 = sumZ l2 -> l1 = l2)) as [_ ?]; [|done].
  induction H as [|x y l1 l2 Hxy _ [IH1 IH2]]; cbn [sumZ]; [done|].
  split; [lia|]. intros Heq. assert (x = y) as -> by lia. f_equal. apply IH2. lia.
Qed.

(** ** The schedule of one period *)

Definition valid_weights (w : list Z) : Prop :=
  Forall (fun x => 0 < x) w /\ 0 < sumZ w <= MAX_TABLE_LEN.

Lemma valid_weights_nonneg w : valid_weights w -> Forall (fun x => 0 <= x) w.
Proof. intros [H _]. eapply Forall_impl; [exact H|]. simpl. lia. Qed.

Lemma length_le_sumZ w : Forall (fun x => 0 < x) w -> Z.of_nat (length w) <= sumZ w.
Proof. induction 1; cbn [length sumZ]; lia. Qed.

Lemma map_as_u16 l n :
  Forall (fun b => (b < n)%nat) l -> Z.of_nat n <= 65536 -> map as_u16 l = l.
Proof.
  intros Hl Hn. induction Hl as [|b l Hb _ IH]; [done|]. cbn [map]. rewrite IH. f_equal.
  unfold as_u16. rewrite Z.mod_small by lia. lia.
Qed.

(** The rule run for one period from zero deficits. *)
Definition period (w : list Z) : list nat * list Z :=
  schedule_run w (sumZ w) (Z.to_nat (sumZ w)) (replicate (length w) 0).

Lemma period_inv w t picks d :
  valid_weights w -> (t <= Z.to_nat (sumZ w))%nat ->
  schedule_run w (sumZ w) t (replicate (length w) 0) = (picks, d) ->
  length picks = t /\ Forall (fun b => (b < length w)%nat) picks
  /\ sched_inv w (Z.of_nat t) picks d.
Proof.
  intros Hv Ht Hrun. destruct Hv as [Hpos [HT HT']].
  pose proof (schedule_run_inv w t 0 [] (replicate (length w) 0) HT
    (valid_weights_nonneg w (conj Hpos (conj HT HT'))) (sched_inv_init w HT)) as H.
  rewrite Hrun in H. exact H.
Qed.

Lemma weighted_schedule_period w : valid_weights w -> weighted_schedule w = fst (period w).
Proof.
  intros Hv. unfold weighted_schedule. fold (period w).
  destruct (period w) as [picks d] eqn:Hp.
  destruct (period_inv w _ picks d Hv (le_n _) Hp) as (_ & Hall & _).
  destruct Hv as [Hpos [_ HT]]. apply map_as_u16 with (length w); [done|].
  pose proof (length_le_sumZ w Hpos). unfold MAX_TABLE_LEN in HT. lia.
Qed.

Lemma lookup_total_map_range {A} `{Inhabited A} (f : nat -> A) n i :
  (i < n)%nat -> map f (range n) !! i = Some (f i).
Proof.
  intros Hi. unfold range. rewrite list_lookup_fmap, lookup_seq_lt by done. done.
Qed.

Lemma period_counts w picks d i :
  valid_weights w -> period w = (picks, d) -> (i < length w)%nat ->
  count_eq i picks = w !!! i.
Proof.
  intros Hv Hp Hi.
  destruct (period_inv w _ picks d Hv (le_n _) Hp) as (Hlen & Hall & Hdl & Hsum & Hinv).
  assert (HT : 0 < sumZ w) by apply Hv.
  assert (Heq : map (fun i => count_eq i picks) (range (length w)) = w).
  { apply sumZ_le_eq.
    - apply Forall2_same_length_lookup_2.
      { rewrite length_map. unfold range. by rewrite length_seq. }
      intros j x y Hx Hy. pose proof (lookup_lt_Some _ _ _ Hy) as Hj.
      rewrite lookup_total_map_range in Hx by done. simplify_eq.
      apply list_lookup_total_correct in Hy as <-.
      destruct (Hinv j Hj) as [H1 H2]. rewrite Z2Nat.id in H1 by lia. nia.
    - rewrite sumZ_counts by done. rewrite Hlen. lia. }
  pose proof (lookup_total_map_range (fun i => count_eq i picks) _ i Hi) as Hli.
  rewrite Heq in Hli. symmetry. by apply list_lookup_total_correct.
Qed.

Lemma period_deficits_zero w : valid_weights w -> snd (period w) = replicate (length w) 0.
Proof.
  intros Hv. destruct (period w) as [picks d] eqn:Hp. simpl.
  destruct (period_inv w _ picks d Hv (le_n _) Hp) as (_ & _ & Hl & _ & Hinv).
  assert (HT : 0 < sumZ w) by apply Hv.
  apply list_eq_same_length with (length w); [by rewrite length_replicate|done|].
  intros i x y Hi Hx Hy. apply lookup_replicate in Hy as [-> _].
  apply list_lookup_total_correct in Hx as <-.
  destruct (Hinv i Hi) as [-> _]. rewrite (period_counts w picks d i Hv Hp Hi).
  rewrite Z2Nat.id by lia. lia.
Qed.

(** Every prefix of a period serves a backend strictly less than one pick ahead of its
    ideal share. *)
Lemma period_prefix w t i :
  valid_weights w -> (t <= Z.to_nat (sumZ w))%nat -> (i < length w)%nat ->
  sumZ w * count_eq i (take t (fst (period w))) < Z.of_nat t * w !!! i + sumZ w.
Proof.
  intros Hv Ht Hi. unfold period.
  replace (Z.to_nat (sumZ w)) with (t + (Z.to_nat (sumZ w) - t))%nat by lia.
  rewrite schedule_run_app.
  destruct (schedule_run w (sumZ w) t (replicate (length w) 0)) as [p1 d1] eqn:H1.
  destruct (schedule_run w (sumZ w) _ d1) as [p2 d2]. cbn [fst].
  destruct (period_inv w t p1 d1 Hv Ht H1) as (Hl & _ & _ & _ & Hinv).
  rewrite take_app_le, take_ge by lia. destruct (Hinv i Hi). lia.
Qed.

Lemma length_weighted_schedule w :
  valid_weights w -> length (weighted_schedule w) = Z.to_nat (sumZ w).
Proof.
  intros Hv. rewrite weighted_schedule_period by done.
  destruct (period w) as [picks d] eqn:Hp. by eapply period_inv.
Qed.

Lemma weighted_schedule_bounded w :
  valid_weights w -> Forall (fun b => (b < length w)%nat) (weighted_schedule w).
Proof.
  intros Hv. rewrite weighted_schedule_period by done.
  destruct (period w) as [picks d] eqn:Hp. by eapply period_inv.
Qed.

Lemma weighted_schedule_counts w i :
  valid_weights w -> (i < length w)%nat -> count_eq i (weighted_schedule w) = w !!! i.
Proof.
  intros Hv Hi. rewrite weighted_schedule_period by done.
  destruct (period w) as [picks d] eqn:Hp. by eapply period_counts.
Qed.

(** The schedule as a multiset: each index as often as its weight. *)
Lemma weighted_schedule_permutation w :
  valid_weights w ->
  weighted_schedule w ≡ₚ concat (map (fun i => replicate (Z.to_nat (w !!! i)) i)
    (range (length w))).
Proof.
  intros Hv. set (R := concat _).
  assert (Hcount : forall x, count_eq x R = if decide (x < length w)%nat then
      Z.max 0 (w !!! x) else 0).
  { intros x. unfold R. unfold range. generalize (length w). intros n.
    induction n as [|n IH]; [by rewrite decide_False by lia|].
    rewrite seq_S, map_app, concat_app, count_eq_app, IH. cbn [map concat Nat.add].
    rewrite app_nil_r.
    assert (Hr : forall k y, count_eq x (replicate k y) =
      if decide (y = x) then Z.of_nat k else 0).
    { intros k y. destruct (decide (y = x)); (induction k; cbn [replicate]; [done|]);
        rewrite count_eq_cons, IHk; destruct (decide (y = x)); (done || lia). }
    rewrite Hr. repeat case_decide; subst; lia. }
  assert (Hc : forall x, count_eq x (weighted_schedule w) = count_eq x R).
  { intros x. rewrite Hcount. case_decide as Hx.
    - rewrite weighted_schedule_counts by done.
      destruct Hv as [Hpos _]. pose proof (Forall_lookup_1 _ _ _ _ Hpos
        (list_lookup_lookup_total_lt _ _ Hx)). simpl in *. lia.
    - apply (count_eq_bounded _ (length w)); [by apply weighted_schedule_bounded|lia]. }
  revert Hc. generalize (weighted_schedule w) R. clear. intros l R Hc.
  apply (Permutation_count_occ Nat.eq_dec). intros x. specialize (Hc x).
  assert (Ho : forall k, Z.of_nat (count_occ Nat.eq_dec k x) = count_eq x k).
  { induction k as [|y k IH]; [done|]. rewrite count_eq_cons. cbn [count_occ].
    destruct (Nat.eq_dec y x), (decide (y = x)); lia. }
  apply Nat2Z.inj. by rewrite !Ho.
Qed.

(** ** Picking *)

Section pick.
Context {G : Type} `{Eligible G}.

(** Every entry of the table indexes a group, and every group is in the table. *)
Definition wb_inv (s : WeightedBackends G) : Prop :=
  wb_table s <> [] /\
  Forall (fun b => (b < length (wb_groups s))%nat) (wb_table s) /\
  forall i, (i < length (wb_groups s))%nat -> i ∈ wb_table s.

Lemma pick_scan_spec groups table start offs :
  table <> [] -> Forall (fun b => (b < length groups)%nat) table ->
  exists r, pick_scan groups table start offs = Done r /\
    match r with
    | Some g => has_eligible g = true /\ g ∈ groups
    | None => forall off b g, off ∈ offs -> table !! ((start + off) mod length table)%nat = Some b ->
        groups !! b = Some g -> has_eligible g = false
    end.
Proof.
  intros Hne Hall. induction offs as [|off offs IH]; cbn [pick_scan].
  { exists None. split; [done|]. set_solver. }
  destruct (lookup_lt_is_Some_2 table ((start + off) mod length table)) as [b Hb].
  { apply Nat.mod_upper_bound. by destruct table. }
  pose proof (Forall_lookup_1 _ _ _ _ Hall Hb) as Hlt.
  destruct (lookup_lt_is_Some_2 groups b Hlt) as [g Hg]. rewrite Hb, Hg.
  destruct (has_eligible g) eqn:He.
  { exists (Some g). split; [done|]. split; [done|]. by eapply list_elem_of_lookup_2. }
  destruct IH as (r & -> & Hr). exists r. split; [done|]. destruct r; [done|].
  intros off' b' g' [->|Hin]%elem_of_cons Hb' Hg'; [congruence|eauto].
Qed.

Lemma rotation_covers start len i :
  (i < len)%nat -> exists off, (off < len)%nat /\ ((start + off) mod len = i)%nat.
Proof.
  intros Hi. exists ((i + (len - start mod len)) mod len)%nat.
  split; [apply Nat.mod_upper_bound; lia|].
  rewrite Nat.Div0.add_mod_idemp_r, <- Nat.Div0.add_mod_idemp_l.
  pose proof (Nat.mod_upper_bound start len ltac:(lia)).
  replace (start mod len + (i + (len - start mod len)))%nat with (i + 1 * len)%nat by lia.
  rewrite Nat.Div0.mod_add. by apply Nat.mod_small.
Qed.

Lemma wb_pick_spec s :
  wb_inv s ->
  exists r, fst (wb_pick s) = Done r /\ wb_inv (snd (wb_pick s)) /\
    match r with
    | Some g => has_eligible g = true /\ g ∈ wb_groups s
    | None => Forall (fun g => has_eligible g = false) (wb_groups s)
    end.
Proof.
  intros (Hne & Hall & Hcov). unfold wb_pick.
  destruct (existsb has_eligible (wb_groups s)) eqn:Hex; cbn [negb].
  2:{ exists None. split; [done|]. split; [done|]. apply Forall_forall. intros g Hg.
      destruct (has_eligible g) eqn:He; [|done]. exfalso.
      assert (existsb has_eligible (wb_groups s) = true); [|congruence].
      apply existsb_exists. exists g. by rewrite <- list_elem_of_In. }
  destruct (Nat.eqb_spec (length (wb_table s)) 0) as [Hz|Hz].
  { by destruct (wb_table s). }
  cbn [fst snd].
  destruct (pick_scan_spec (wb_groups s) (wb_table s)
    (Z.to_nat (wb_cursor s mod Z.of_nat (length (wb_table s))))
    (range (length (wb_table s))) Hne Hall) as (r & -> & Hr).
  exists r. split; [done|]. split; [done|]. destruct r as [g|]; [done|].
  exfalso. apply existsb_exists in Hex as (g & Hg & He).
  apply list_elem_of_In, list_elem_of_lookup_1 in Hg as [i Hi].
  pose proof (Hcov i (lookup_lt_Some _ _ _ Hi)) as [j Hj]%list_elem_of_lookup_1.
  destruct (rotation_covers (Z.to_nat (wb_cursor s mod Z.of_nat (length (wb_table s))))
    _ j (lookup_lt_Some _ _ _ Hj)) as (off & Hoff & Hmod).
  rewrite (Hr off i g) in He; [done|by apply elem_of_range|by rewrite Hmod|done].
Qed.

(** [k] consecutive picks. *)
Fixpoint wb_picks (k : nat) (s : WeightedBackends G) : list (outcome (option G)) :=
  match k with
  | O => []
  | S k' => let '(r, s') := wb_pick s in r :: wb_picks k' s'
  end.

Lemma wb_picks_all_eligible k : forall s,
  wb_inv s -> Forall (fun g => has_eligible g = true) (wb_groups s) ->
  0 <= wb_cursor s -> wb_cursor s + Z.of_nat k <= 2 ^ 64 ->
  wb_picks k s = map (fun j => Done (wb_groups s !!
      (wb_table s !!! ((Z.to_nat (wb_cursor s) + j) mod length (wb_table s))%nat))) (range k).
Proof.
  induction k as [|k IH]; intros s Hinv Hel Hc Hw; [done|].
  destruct s as [groups table c]. cbn [wb_groups wb_table wb_cursor] in *.
  destruct Hinv as (Hne & Hall & Hcov). cbn [wb_groups wb_table wb_cursor] in *.
  assert (Hlen : (0 < length table)%nat) by (destruct table; simpl; [done|lia]).
  assert (Hr : range (S k) = O :: map S (range k)).
  { unfold range. simpl. f_equal. symmetry. apply seq_shift. }
  rewrite Hr. cbn [map wb_picks]. unfold wb_pick. cbn [wb_groups wb_table wb_cursor].
  destruct (lookup_lt_is_Some_2 table (Z.to_nat c mod length table)) as [b Hb].
  { apply Nat.mod_upper_bound. lia. }
  pose proof (Forall_lookup_1 _ _ _ _ Hall Hb) as Hlt.
  destruct (lookup_lt_is_Some_2 groups b Hlt) as [g Hg].
  pose proof (Forall_lookup_1 _ _ _ _ Hel Hg) as Heg. simpl in Heg.
  assert (existsb has_eligible groups = true) as ->.
  { apply existsb_exists. exists g. split; [|done].
    apply list_elem_of_In. by eapply list_elem_of_lookup_2. }
  cbn [negb]. destruct (Nat.eqb_spec (length table) 0) as [?|_]; [lia|].
  assert (Hrl : exists n, range (length table) = O :: n).
  { destruct table; [done|]. by eexists. }
  destruct Hrl as [offs ->]. cbn [pick_scan].
  assert (Hst : ((Z.to_nat (c mod Z.of_nat (length table)) + 0) mod length table
    = Z.to_nat c mod length table)%nat).
  { rewrite Nat.add_0_r, Z2Nat.inj_mod, Nat2Z.id by lia. apply Nat.Div0.mod_mod. }
  rewrite Hst, Hb, Hg, Heg, Nat.add_0_r.
  rewrite (list_lookup_total_correct _ _ _ Hb), Hg. f_equal.
  unfold wrapping_add, wrap64. destruct k as [|k]; [done|].
  rewrite Z.mod_small by lia. rewrite IH; cbn [wb_groups wb_table wb_cursor]; [|done|done|lia|lia].
  rewrite map_map. apply map_ext. intros j. do 4 f_equal. lia.
Qed.

(** A full turn of the cursor is a rotation of the table. *)
Lemma full_turn {A} `{Inhabited A} (l : list A) c :
  map (fun j => l !!! ((c + j) mod length l)%nat) (range (length l)) ≡ₚ l.
Proof.
  destruct (decide (length l = O)) as [Hz|Hz]; [by destruct l|].
  trans (rotate c l).
  2:{ unfold rotate. rewrite Permutation_app_comm. by rewrite take_drop. }
  apply reflexive_eq, list_eq_same_length with (length l).
  { apply length_rotate. }
  { rewrite length_map. unfold range. by rewrite length_seq. }
  intros i x y Hi Hx Hy. rewrite lookup_total_map_range in Hx by done.
  rewrite lookup_rotate_r in Hy by done. unfold rotate_nat_add in Hy.
  apply list_lookup_total_correct in Hy. simplify_eq. f_equal.
  rewrite <- Nat2Z.inj_add, <- Nat2Z.inj_mod. lia.
Qed.

(** Validated, positive, gcd-reduced weights. *)
Definition reduced_weights (weights : list Z) : list Z :=
  map (fun w => w / Z.max (default 1 (reduce gcd (nonzero weights))) 1) (nonzero weights).

Lemma nonzero_u32 ws : Forall is_u32 ws -> Forall (fun w => 0 < w /\ is_u32 w) (nonzero ws).
Proof.
  intros Hu. apply Forall_forall. intros w [Hw Hin]%list_elem_of_filter.
  split; [done|]. by eapply (proj1 (Forall_forall _ _) Hu).
Qed.

Lemma sumZ_div_nonzero ws d :
  Forall is_u32 ws -> 0 < d ->
  sumZ (map (fun w => w / d) ws) = sumZ (map (fun w => w / d) (nonzero ws)).
Proof.
  intros Hu Hd. induction Hu as [|w ws Hw _ IH]; [done|]. cbn [map sumZ].
  unfold nonzero. rewrite filter_cons. case_decide; cbn [map sumZ]; [by rewrite IH|].
  unfold is_u32 in Hw. assert (w = 0) as -> by lia. rewrite Z.div_0_l by lia. exact IH.
Qed.

Lemma validate_split_reduced ws total :
  Forall is_u32 ws -> validate_split ws = Ok total ->
  valid_weights (reduced_weights ws) /\ total = sumZ (reduced_weights ws)
  /\ exists d, 0 < d /\ nonzero ws = map (Z.mul d) (reduced_weights ws).
Proof.
  intros Hu Hv. unfold reduced_weights. destruct ws as [|w0 ws']; [done|].
  cbv beta iota zeta delta [validate_split] in Hv. revert Hu Hv. generalize (w0 :: ws').
  intros ws Hu Hv. clear w0 ws'. destruct (list_find _ ws) as [[? ?]|]; [done|].
  destruct (reduce gcd (nonzero ws)) as [d|] eqn:Hr; [|done]. cbn [default from_option id].
  destruct (reduce_gcd_positive _ _ (nonzero_u32 ws Hu) Hr) as [Hd Hdiv].
  rewrite Z.max_l by lia. rewrite (sumZ_div_nonzero ws d Hu Hd) in Hv.
  destruct (Z.ltb_spec MAX_TABLE_LEN (sumZ (map (fun w => w / d) (nonzero ws)))); [done|].
  injection Hv as <-.
  assert (Hall : Forall (fun x => 0 < x) (map (fun w => w / d) (nonzero ws))).
  { apply Forall_map. pose proof (nonzero_u32 ws Hu) as Hnz.
    rewrite Forall_forall in Hnz, Hdiv |- *. intros w Hin. simpl.
    destruct (Hnz w Hin) as [Hw _]. destruct (Hdiv w Hin) as [q ->].
    rewrite Z.div_mul by lia. nia. }
  split; [split; [done|]|].
  - split; [|lia]. destruct (nonzero ws) as [|w nz]; [done|]. cbn [map sumZ] in *.
    apply Forall_cons in Hall as [? Hall].
    pose proof (length_le_sumZ _ Hall). lia.
  - split; [done|]. exists d. split; [done|]. rewrite map_map.
    clear -Hdiv Hd. induction Hdiv as [|w l [q ->] _ IH]; [done|]. cbn [map].
    rewrite <- IH, Z.div_mul by lia. f_equal. lia.
Qed.

(** What a split must satisfy, stated with the mathematical divisor. *)
Definition split_gcd (ws : list Z) : Z := foldr Z.gcd 0 ws.

Definition split_ok (ws : list Z) : Prop :=
  Forall (fun w => w <= MAX_BACKEND_WEIGHT) ws /\ Exists (fun w => 0 < w) ws /\
  sumZ ws <= MAX_TABLE_LEN * split_gcd ws.

Lemma split_gcd_nonneg ws : 0 <= split_gcd ws.
Proof. destruct ws; cbn; [done|apply Z.gcd_nonneg]. Qed.

Lemma fold_left_gcd (f : Z -> Z -> Z) (P : Z -> Prop) l x :
  (forall x y, 0 < x -> P y -> 0 < f x y /\ f x y = Z.gcd x y) ->
  Forall P l -> 0 < x -> fold_left f l x = Z.gcd x (split_gcd l).
Proof.
  intros Hf Hl. revert x. induction Hl as [|w l Hw _ IH]; intros x Hx; cbn [fold_left].
  { cbn. rewrite Z.gcd_0_r. lia. }
  destruct (Hf x w Hx Hw) as [Hg E]. rewrite (IH _ Hg), E. symmetry. apply Z.gcd_assoc.
Qed.

Lemma gcd_is_gcd x y : 0 < x -> 0 < y /\ is_u32 y -> 0 < gcd x y /\ gcd x y = Z.gcd x y.
Proof.
  intros Hx Hy. split; [by apply (gcd_common x y Hx Hy)|]. destruct Hy. apply gcd_spec; [lia|done].
Qed.

Lemma split_gcd_nonzero ws : Forall is_u32 ws -> split_gcd (nonzero ws) = split_gcd ws.
Proof.
  induction 1 as [|w ws Hw _ IH]; [done|]. unfold nonzero in *. rewrite filter_cons.
  case_decide as Hc; cbn [split_gcd foldr]; fold (split_gcd (filter (fun w => 0 < w) ws));
    fold (split_gcd ws); rewrite IH; [done|].
  unfold is_u32 in Hw. assert (w = 0) as -> by lia. rewrite Z.gcd_0_l, Z.abs_eq; [done|].
  apply split_gcd_nonneg.
Qed.

Lemma reduce_split_gcd ws :
  Forall is_u32 ws ->
  reduce gcd (nonzero ws) = if bool_decide (Exists (fun w => 0 < w) ws) then Some (split_gcd ws) else None.
Proof.
  intros Hu. rewrite <- (split_gcd_nonzero ws Hu). pose proof (nonzero_u32 ws Hu) as Hnz.
  destruct (nonzero ws) as [|x l] eqn:E.
  - rewrite bool_decide_false; [done|]. rewrite Exists_exists. intros (w & Hin & Hw).
    assert (Hx : w ∈ nonzero ws) by by apply list_elem_of_filter.
    rewrite E in Hx. by apply not_elem_of_nil in Hx.
  - apply Forall_cons in Hnz as [[Hx Hxu] Hl]. rewrite bool_decide_true.
    + cbn [reduce]. f_equal. exact (fold_left_gcd gcd _ l x gcd_is_gcd Hl Hx).
    + rewrite Exists_exists. assert (Hin : x ∈ nonzero ws) by (rewrite E; by left).
      apply list_elem_of_filter in Hin as [? ?]. by exists x.
Qed.

Lemma sumZ_div_all ws d : 0 < d -> Forall (fun w => (d | w)) ws ->
  sumZ ws = sumZ (map (fun w => w / d) ws) * d.
Proof.
  intros Hd. induction 1 as [|w ws [q ->] _ IH]; [done|]. cbn [map sumZ].
  rewrite Z.div_mul by lia. lia.
Qed.

Lemma split_gcd_divides ws : Forall (fun w => (split_gcd ws | w)) ws.
Proof.
  induction ws as [|w ws IH]; [by constructor|]. cbn [split_gcd foldr]. fold (split_gcd ws).
  constructor; [apply Z.gcd_divide_l|].
  eapply Forall_impl; [exact IH|]. intros x Hx. etransitivity; [apply Z.gcd_divide_r|done].
Qed.

Lemma validate_split_ok ws :
  Forall is_u32 ws -> (exists total, validate_split ws = Ok total) <-> split_ok ws.
Proof.
  intros Hu. destruct ws as [|w0 ws'].
  { split; [by intros []|]. intros (_ & Hex & _). by apply Exists_nil in Hex. }
  cbv beta iota zeta delta [validate_split]. revert Hu. generalize (w0 :: ws').
  clear w0 ws'. intros ws Hu. unfold split_ok.
  destruct (list_find _ ws) as [[i w]|] eqn:Ef.
  - split; [by intros []|]. intros [Hmax _]. apply list_find_Some in Ef as (Hi & Hw & _).
    apply (Forall_lookup_1 _ _ _ _ Hmax) in Hi. lia.
  - apply list_find_None in Ef. rewrite (reduce_split_gcd ws Hu).
    destruct (bool_decide_reflect (Exists (fun w => 0 < w) ws)) as [Hex|Hex].
    2:{ split; [by intros []|by intros (_ & ? & _)]. }
    assert (Hg : 0 < split_gcd ws).
    { pose proof (split_gcd_nonneg ws). pose proof (split_gcd_divides ws) as Hd.
      assert (split_gcd ws <> 0); [|lia]. intros E. rewrite E in Hd.
      apply Exists_exists in Hex as (w & Hin & Hw). rewrite Forall_forall in Hd.
      destruct (Hd w Hin) as [q ->]. lia. }
    rewrite (sumZ_div_all ws _ Hg (split_gcd_divides ws)).
    destruct (Z.ltb_spec MAX_TABLE_LEN (sumZ (map (fun w => w / split_gcd ws) ws))) as [Hlt|Hle].
    + split; [by intros []|]. intros (_ & _ & ?). nia.
    + split; [|by eexists]. intros _. split_and!; [|done|nia].
      eapply Forall_impl; [exact Ef|]. cbn. intros. lia.
Qed.

Definition live_targets (targets : list (G * Z)) : list (G * Z) :=
  filter (fun t => 0 < snd t) targets.

Lemma live_targets_weights targets :
  map snd (live_targets targets) = nonzero (map snd targets).
Proof.
  induction targets as [|[g w] l IH]; [done|]. unfold live_targets, nonzero in *.
  cbn [map snd]. rewrite !filter_cons. simpl. case_decide; [|done].
  cbn [map snd]. by rewrite IH.
Qed.

Lemma wb_new_spec (targets : list (G * Z)) s :
  Forall is_u32 (map snd targets) -> wb_new targets = Ok s ->
  exists ws, valid_weights ws /\ s = mkWeighted (map fst (live_targets targets))
      (weighted_schedule ws) 0
    /\ ws = reduced_weights (map snd targets)
    /\ length ws = length (live_targets targets).
Proof.
  intros Hu Hnew. unfold wb_new in Hnew.
  destruct (validate_split (map snd targets)) as [total|] eqn:Hv; [|done].
  destruct (validate_split_reduced _ _ Hu Hv) as (Hvalid & _).
  exists (reduced_weights (map snd targets)). injection Hnew as <-.
  split; [done|]. split; [done|]. split; [done|].
  unfold reduced_weights. by rewrite length_map, <- live_targets_weights, length_map.
Qed.

Lemma wb_schedule_inv (groups : list G) ws c :
  valid_weights ws -> length ws = length groups ->
  wb_inv (mkWeighted groups (weighted_schedule ws) c).
Proof.
  intros Hv Hl. split; cbn [wb_table wb_groups].
  - intros Hnil. pose proof (length_weighted_schedule ws Hv) as Hlen.
    rewrite Hnil in Hlen. destruct Hv as [_ ?]. simpl in Hlen. lia.
  - rewrite <- Hl. split; [by apply weighted_schedule_bounded|].
    intros i Hi. destruct (decide (i ∈ weighted_schedule ws)) as [|Hn]; [done|].
    pose proof (weighted_schedule_counts ws i Hv Hi) as Hc.
    destruct Hv as [Hpos _].
    pose proof (Forall_lookup_1 _ _ _ _ Hpos (list_lookup_lookup_total_lt _ _ Hi)) as Hp.
    simpl in Hp. assert (count_eq i (weighted_schedule ws) = 0); [|lia].
    clear -Hn. induction (weighted_schedule ws) as [|y l IH]; [done|].
    apply not_elem_of_cons in Hn as [? ?]. rewrite count_eq_cons, IH by done.
    by rewrite decide_False by done.
Qed.

End pick.

(** ** Properties *)

(** For validated weights, one period of the apportionment schedule has length [sum w],
    serves every backend exactly its weight, never runs a backend a full pick ahead of its
    ideal share at any prefix, and the rule run for any number [k] of periods is the
    table repeated [k] times (the deficits return to zero). *)
Theorem weighted_schedule_apportions (w : list Z) (k : nat) (Hw : valid_weights w) :
  length (weighted_schedule w) = Z.to_nat (sumZ w) /\
  (forall i, (i < length w)%nat -> count_eq i (weighted_schedule w) = w !!! i) /\
  (forall i t, (t <= length (weighted_schedule w))%nat -> (i < length w)%nat ->
     sumZ w * count_eq i (take t (weighted_schedule w)) < Z.of_nat t * w !!! i + sumZ w) /\
  schedule_run w (sumZ w) (k * Z.to_nat (sumZ w)) (replicate (length w) 0)
    = (concat (replicate k (weighted_schedule w)), replicate (length w) 0).
Proof.
  split; [by apply length_weighted_schedule|].
  split; [intros i; by apply weighted_schedule_counts|]. split.
  - intros i t Ht Hi. rewrite weighted_schedule_period by done.
    apply period_prefix; [done| |done]. by rewrite length_weighted_schedule in Ht.
  - induction k as [|k IH]; [done|]. cbn [Nat.mul]. rewrite schedule_run_app.
    pose proof (period_deficits_zero w Hw) as Hz.
    rewrite weighted_schedule_period in IH |- * by done. unfold period in *.
    destruct (schedule_run w (sumZ w) (Z.to_nat (sumZ w)) _) as [p d].
    cbn [fst snd] in *. rewrite Hz, IH. done.
Qed.

Lemma weighted_schedule_apportions_witness :
  weighted_schedule [1; 5] = [1; 1; 0; 1; 1; 1]%nat /\
  count_eq 0 (weighted_schedule [1; 5]) = 1.
Proof.
  split; [by vm_compute|].
  apply (proj1 (proj2 (weighted_schedule_apportions [1; 5] 1
    ltac:(split; [repeat constructor|split]; vm_compute; congruence))) O).
  simpl. lia.
Defined.

(** A compiled split never panics on a pick, whatever the cursor: it returns an eligible
    backend of positive weight, and no backend only when no positive-weight one is eligible. *)
Theorem wb_pick_eligible {G} `{Eligible G} (targets : list (G * Z)) (s : WeightedBackends G)
    (c : Z) (Hu : Forall is_u32 (map snd targets)) (Hnew : wb_new targets = Ok s) :
  exists r, fst (wb_pick (mkWeighted (wb_groups s) (wb_table s) c)) = Done r /\
    match r with
    | Some g => has_eligible g = true /\ exists w, (g, w) ∈ targets /\ 0 < w
    | None => forall g w, (g, w) ∈ targets -> 0 < w -> has_eligible g = false
    end.
Proof.
  destruct (wb_new_spec targets s Hu Hnew) as (ws & Hv & -> & _ & Hlen).
  cbn [wb_groups wb_table].
  destruct (wb_pick_spec (mkWeighted (map fst (live_targets targets)) (weighted_schedule ws) c))
    as (r & Hr & _ & Hspec).
  { apply wb_schedule_inv; [done|]. by rewrite length_map. }
  exists r. split; [exact Hr|]. cbn [wb_groups] in Hspec. destruct r as [g|].
  - destruct Hspec as [He Hin]. split; [done|].
    apply list_elem_of_In, in_map_iff in Hin as ([g' w] & <- & Hin).
    apply list_elem_of_In, list_elem_of_filter in Hin as [Hw Hin]. exists w. done.
  - intros g w Hin Hw. apply (proj1 (Forall_forall _ _) Hspec).
    apply list_elem_of_In, in_map_iff. exists (g, w). split; [done|].
    apply list_elem_of_In, list_elem_of_filter. done.
Qed.

Lemma wb_pick_eligible_witness :
  exists s, wb_new [(true, 5); (false, 95); (true, 0)] = Ok s /\
  exists r, fst (@wb_pick bool (fun b => b)
    (mkWeighted (wb_groups s) (wb_table s) 7)) = Done r /\ r = Some true.
Proof.
  eexists. split; [vm_compute; reflexivity|].
  edestruct (@wb_pick_eligible bool (fun b => b) [(true, 5); (false, 95); (true, 0)])
    with (c := 7) as (r & Hr & Hspec).
  - repeat constructor; vm_compute; congruence.
  - vm_compute. reflexivity.
  - exists r. split; [exact Hr|]. destruct r as [[]|]; [done| |].
    + by destruct Hspec.
    + discriminate (Hspec true 5 ltac:(set_solver) ltac:(lia)).
Defined.

(** With every live backend eligible, one table length of consecutive picks, from any
    cursor that does not wrap meanwhile, serves each target exactly its gcd-reduced weight. *)
Theorem wb_split_exact {G} `{Eligible G} (targets : list (G * Z)) (s : WeightedBackends G)
    (c : Z) (Hu : Forall is_u32 (map snd targets)) (Hnew : wb_new targets = Ok s)
    (Hel : Forall (fun g => has_eligible g = true) (wb_groups s))
    (Hc : 0 <= c) (Hwrap : c + Z.of_nat (length (wb_table s)) <= 2 ^ 64) :
  wb_picks (length (wb_table s)) (mkWeighted (wb_groups s) (wb_table s) c) ≡ₚ
  concat (zip_with (fun g w => replicate (Z.to_nat w) (Done (Some g))) (wb_groups s)
    (reduced_weights (map snd targets))).
Proof.
  destruct (wb_new_spec targets s Hu Hnew) as (ws & Hv & -> & <- & Hlen).
  cbn [wb_groups wb_table] in *. set (gs := map fst (live_targets targets)) in *.
  assert (Hgl : length ws = length gs) by (unfold gs; by rewrite length_map).
  rewrite wb_picks_all_eligible; cbn [wb_groups wb_table wb_cursor];
    [|by apply wb_schedule_inv|done|done|done].
  rewrite <- (map_map (fun j => weighted_schedule ws !!! _) (fun b => Done (gs !! b))).
  rewrite full_turn, weighted_schedule_permutation, concat_map, map_map by done.
  apply reflexive_eq. f_equal. rewrite Hgl. clear -Hgl.
  rewrite (map_ext _ (fun i => replicate (Z.to_nat (ws !!! i)) (Done (gs !! i)))) by
    (intros i; apply (fmap_replicate (fun b => Done (gs !! b)))).
  apply list_eq_same_length with (length gs).
  { rewrite length_zip_with. lia. }
  { rewrite length_map. unfold range. by rewrite length_seq. }
  intros i x y Hi Hx Hy. rewrite lookup_total_map_range in Hx by done. simplify_eq.
  rewrite lookup_zip_with in Hy. destruct (lookup_lt_is_Some_2 gs i Hi) as [g Hg].
  rewrite Hg, (list_lookup_lookup_total_lt ws i) in Hy by lia. rewrite Hg. by simplify_eq/=.
Qed.

Lemma wb_split_exact_witness :
  exists s, wb_new [(0%nat, 10); (1%nat, 20)] = Ok s /\
  @wb_picks nat (fun _ => true) (length (wb_table s))
    (mkWeighted (wb_groups s) (wb_table s) 7) ≡ₚ
  [Done (Some 0%nat); Done (Some 1%nat); Done (Some 1%nat)].
Proof.
  exists (mkWeighted [0%nat; 1%nat] [1; 0; 1]%nat 0). split; [vm_compute; reflexivity|].
  pose proof (@wb_split_exact nat (fun _ => true) [(0%nat, 10); (1%nat, 20)]
    (mkWeighted [0%nat; 1%nat] [1; 0; 1]%nat 0) 7
    ltac:(repeat constructor; vm_compute; congruence) ltac:(vm_compute; reflexivity)
    ltac:(repeat constructor) ltac:(lia) ltac:(vm_compute; congruence)) as H.
  vm_compute in H. exact H.
Defined.
