(* ===== verification/Paths.v ===== *)
(** * Request paths and hosts (control/src/route.rs, the pure path functions)

    Ingress path normalisation, the segment-boundary prefix predicate, the forwarded-path
    rewrite, authority normalisation and query-parameter matching. *)

From S2P Require Import Prelude Bytes.

(** ** Definitions *)

Definition seg_dot : bytes := bs ".".
Definition seg_dotdot : bytes := bs "..".
Definition is_dot_seg (seg : bytes) : bool :=
  bytes_eqb seg seg_dot || bytes_eqb seg seg_dotdot.

Definition control_byte (c : ascii) : bool := (byte_val c <? 32) || (byte_val c =? 127).
Definition BACKSLASH : ascii := "\"%char.

(** [matches!((w[1], w[2]), ...)] on a window that starts with a percent sign. *)
Definition encoded_window (a b c : ascii) : bool :=
  ascii_eqb a "%" &&
  ((ascii_eqb b "2" && (ascii_eqb c "e" || ascii_eqb c "E"))
   || (ascii_eqb b "2" && (ascii_eqb c "f" || ascii_eqb c "F"))
   || (ascii_eqb b "5" && (ascii_eqb c "c" || ascii_eqb c "C"))).

(** [windows(3).any(..)]. *)
Fixpoint contains_encoded_separator (s : bytes) : bool :=
  match s with
  | a :: ((b :: c :: _) as t) => encoded_window a b c || contains_encoded_separator t
  | _ => false
  end.

(** The resolution loop; [out] is the vector, last pushed segment last. *)
Fixpoint resolve_segs (segs out : list bytes) : option (list bytes) :=
  match segs with
  | [] => Some out
  | seg :: rest =>
    if bytes_eqb seg seg_dot then resolve_segs rest out
    else if bytes_eqb seg seg_dotdot then
      if (length out <=? 1)%nat then None else resolve_segs rest (removelast out)
    else resolve_segs rest (out ++ [seg])
  end.

Definition normalize_path (target : bytes) : option bytes :=
  let '(raw, query) := match split_once QMARK target with
                       | Some (p, q) => (p, Some q)
                       | None => (target, None)
                       end in
  if negb (starts_with_byte SLASH raw) then Some target
  else if existsb control_byte raw || contains_byte BACKSLASH raw then None
  else if contains_encoded_separator raw then None
  else if negb (existsb is_dot_seg (split_on SLASH raw)) then Some target
  else match resolve_segs (split_on SLASH raw) [] with
       | None => None
       | Some out =>
         let norm := join SLASH out in
         let norm := match norm with [] => [SLASH] | _ => norm end in
         Some (match query with Some q => norm ++ QMARK :: q | None => norm end)
       end.

Definition path_under_prefix (prefix path : bytes) : bool :=
  if negb (starts_with prefix path) then false
  else if (length path =? length prefix)%nat || ends_with_byte SLASH prefix then true
  else bool_decide (path !! length prefix = Some SLASH).

Definition rewrite_path (path : bytes) (strip : option bytes) : bytes :=
  match strip with
  | None => path
  | Some strip =>
    match strip_prefix strip path with
    | None => path
    | Some rest =>
      match rest with
      | [] => [SLASH]
      | _ =>
        if starts_with_byte SLASH rest then rest
        else if ends_with_byte SLASH strip then SLASH :: rest
        else path
      end
    end
  end.

Definition normalize_host (authority : bytes) : bytes :=
  let host :=
    match strip_prefix (bs "[") authority with
    | Some rest =>
      match split_once "]" rest with
      | Some (inner, _) => take (length inner + 2) authority
      | None => authority
      end
    | None => default authority (head (split_on ":" authority))
    end in
  match last host with
  | Some c => if ascii_eqb c DOT && negb (starts_with_byte "[" host) then removelast host
              else host
  | None => host
  end.

Fixpoint query_pairs_match (pairs : list bytes) (name value : bytes) : bool :=
  match pairs with
  | [] => false
  | kv :: rest =>
    match split_once "=" kv with
    | Some (k, v) => if bytes_eqb k name then bytes_eqb v value
                     else query_pairs_match rest name value
    | None => query_pairs_match rest name value
    end
  end.

Definition query_param_matches (query name value : bytes) : bool :=
  query_pairs_match (split_on "&" query) name value.

(** The bare path [select] routes on: up to the first [?] or [#]. *)
Fixpoint bare_path (s : bytes) : bytes :=
  match s with
  | [] => []
  | x :: s' => if ascii_eqb x QMARK || ascii_eqb x "#" then [] else x :: bare_path s'
  end.

(** The path component of a request target: up to the first [?]. *)
Definition path_of (target : bytes) : bytes :=
  match split_once QMARK target with Some (p, _) => p | None => target end.
Definition query_of (target : bytes) : option bytes :=
  match split_once QMARK target with Some (_, q) => Some q | None => None end.

Example normalize_examples :
  normalize_path (bs "/a/../b?x=/../y") = Some (bs "/b?x=/../y")
  /\ normalize_path (bs "/a/%2E./b") = None
  /\ normalize_path (bs "/..") = None
  /\ normalize_path (bs "/a/./..") = Some (bs "/")
  /\ normalize_path (bs "*") = Some (bs "*").
Proof. by vm_compute. Qed.

(** ** Encoded separators and joins *)

Lemma encoded_window_slash a b c :
  a = SLASH \/ b = SLASH \/ c = SLASH -> encoded_window a b c = false.
Proof.
  intros [-> | [-> | ->]]; unfold encoded_window; cbn.
  - done.
  - by rewrite andb_false_r.
  - destruct (ascii_eqb a _), (ascii_eqb b "2"), (ascii_eqb b "5"); done.
Qed.

Lemma contains_encoded_app l1 l2 :
  contains_encoded_separator (l1 ++ SLASH :: l2)
  = contains_encoded_separator l1 || contains_encoded_separator l2.
Proof.
  induction l1 as [|a l1 IH].
  { by destruct l2 as [|x [|y l2]]. }
  destruct l1 as [|x1 [|x2 l1]].
  - destruct l2 as [|x l2]; [done|].
    cbn -[encoded_window contains_encoded_separator] in *.
    cbn [contains_encoded_separator]. rewrite (encoded_window_slash a) by auto. exact IH.
  - cbn [app contains_encoded_separator] in *. rewrite encoded_window_slash by auto.
    exact IH.
  - cbn [app] in *. cbn [contains_encoded_separator].
    cbn [contains_encoded_separator] in IH. rewrite IH. by rewrite orb_assoc.
Qed.

Lemma contains_encoded_join segs :
  contains_encoded_separator (join SLASH segs) = existsb contains_encoded_separator segs.
Proof.
  induction segs as [|s rest IH]; [done|]. destruct rest as [|s' rest].
  { simpl. by rewrite orb_false_r. }
  rewrite join_cons, contains_encoded_app, IH by done. done.
Qed.

Lemma existsb_join (f : ascii -> bool) segs :
  f SLASH = false -> existsb f (join SLASH segs) = existsb (existsb f) segs.
Proof.
  intros Hf. induction segs as [|s rest IH]; [done|]. destruct rest as [|s' rest].
  { simpl. by rewrite orb_false_r. }
  rewrite join_cons, existsb_app by done. cbn [existsb] in *. by rewrite Hf, IH.
Qed.

(** ** The resolution loop *)

Lemma is_dot_seg_false seg :
  is_dot_seg seg = false <-> bytes_eqb seg seg_dot = false /\ bytes_eqb seg seg_dotdot = false.
Proof. unfold is_dot_seg. apply orb_false_iff. Qed.

Lemma removelast_cons {A} (h : A) o : o <> [] -> removelast (h :: o) = h :: removelast o.
Proof. by destruct o. Qed.

Lemma Forall_removelast {A} (P : A -> Prop) o : Forall P o -> Forall P (removelast o).
Proof.
  induction 1 as [|x o Hx Ho IH]; [constructor|].
  destruct o; [constructor|]. rewrite removelast_cons by done. by constructor.
Qed.

Lemma length_removelast {A} (o : list A) : length (removelast o) = (length o - 1)%nat.
Proof.
  induction o as [|x o IH]; [done|]. destruct o; [done|].
  rewrite removelast_cons by done. cbn [length] in *. lia.
Qed.

(** The root segment stays at the bottom; what is above it is a non-dot input segment. *)
Lemma resolve_segs_Forall (P : bytes -> Prop) segs : forall h o out,
  resolve_segs segs (h :: o) = Some out ->
  Forall P o -> (forall s, s ∈ segs -> is_dot_seg s = false -> P s) ->
  exists o', out = h :: o' /\ Forall P o'.
Proof.
  induction segs as [|seg segs IH]; intros h o out; cbn [resolve_segs].
  { intros [= <-] Ho _. eauto. }
  destruct (bytes_eqb seg seg_dot) eqn:E1.
  { intros H Ho Hs. apply (IH h o out H Ho). set_solver. }
  destruct (bytes_eqb seg seg_dotdot) eqn:E2.
  - destruct (Nat.leb_spec (length (h :: o)) 1) as [|Hl]; [done|].
    rewrite removelast_cons by (intros ->; simpl in Hl; lia). intros H Ho Hs.
    apply (IH _ _ _ H); [by apply Forall_removelast|]. set_solver.
  - intros H Ho Hs. apply (IH h (o ++ [seg]) out H); [|set_solver].
    apply Forall_app. split; [done|]. constructor; [|constructor].
    apply Hs; [set_solver|]. by apply is_dot_seg_false.
Qed.

(** Segments that go down, and segments that go up. *)
Definition count_plain (segs : list bytes) : nat :=
  length (filter (fun s => is_dot_seg s = false) segs).
Definition count_up (segs : list bytes) : nat :=
  length (filter (fun s => s = seg_dotdot) segs).

(** Some prefix of the segments climbs above the root. *)
Definition escapes (depth : nat) (segs : list bytes) : Prop :=
  exists k, (depth + count_plain (take k segs) < count_up (take k segs))%nat.

Lemma escapes_cons depth s segs :
  escapes depth (s :: segs) <->
  (if bytes_eqb s seg_dot then escapes depth segs
   else if bytes_eqb s seg_dotdot then depth = O \/ escapes (depth - 1) segs
   else escapes (S depth) segs).
Proof.
  assert (Hcons : forall k, count_plain (take (S k) (s :: segs)) =
      ((if is_dot_seg s then 0 else 1) + count_plain (take k segs))%nat
    /\ count_up (take (S k) (s :: segs)) =
      ((if bytes_eqb s seg_dotdot then 1 else 0) + count_up (take k segs))%nat).
  { intros k. unfold count_plain, count_up. cbn [take]. rewrite !filter_cons. split.
    - destruct (is_dot_seg s) eqn:E; [by rewrite decide_False by congruence|].
      by rewrite decide_True.
    - destruct (bytes_eqb s seg_dotdot) eqn:E.
      + apply bytes_eqb_eq in E. by rewrite decide_True.
      + rewrite decide_False; [done|]. intros Hs. apply bytes_eqb_eq in Hs. congruence. }
  assert (Hsplit : escapes depth (s :: segs) <-> exists k, (depth +
      count_plain (take (S k) (s :: segs)) < count_up (take (S k) (s :: segs)))%nat).
  { split.
    - intros [[|k] Hk]; [unfold count_plain, count_up in Hk; simpl in Hk; lia|]. by exists k.
    - intros [k Hk]. by exists (S k). }
  rewrite Hsplit. unfold escapes. unfold is_dot_seg in Hcons.
  destruct (bytes_eqb s seg_dot) eqn:E1; destruct (bytes_eqb s seg_dotdot) eqn:E2;
    cbn [orb] in Hcons.
  - apply bytes_eqb_eq in E1, E2. subst. done.
  - split; intros [k Hk]; exists k; destruct (Hcons k); lia.
  - split.
    + intros [k Hk]. destruct (decide (depth = O)); [by left|right].
      exists k. destruct (Hcons k); lia.
    + intros [-> | [k Hk]].
      * exists O. destruct (Hcons O). simpl take in *. unfold count_plain, count_up in *.
        simpl in *. lia.
      * destruct depth.
        { exists k. destruct (Hcons k); lia. }
        exists k. destruct (Hcons k); lia.
  - split; intros [k Hk]; exists k; destruct (Hcons k); lia.
Qed.

Lemma escapes_nil depth : ~ escapes depth [].
Proof. intros [k Hk]. rewrite take_nil in Hk. unfold count_plain, count_up in Hk. simpl in Hk. lia. Qed.

Lemma resolve_segs_None segs : forall h o,
  resolve_segs segs (h :: o) = None <-> escapes (length o) segs.
Proof.
  induction segs as [|seg segs IH]; intros h o; cbn [resolve_segs].
  { split; [done|]. intros []%escapes_nil. }
  rewrite escapes_cons. destruct (bytes_eqb seg seg_dot); [apply IH|].
  destruct (bytes_eqb seg seg_dotdot).
  - destruct (Nat.leb_spec (length (h :: o)) 1) as [Hl|Hl]; cbn [length] in Hl.
    + split; [|done]. left. lia.
    + rewrite removelast_cons by (intros ->; simpl in Hl; lia). rewrite IH, length_removelast.
      split; [by right|]. intros [?|?]; [lia|done].
  - cbn [app]. rewrite IH, length_app. cbn [length]. by rewrite Nat.add_1_r.
Qed.

(** ** Safe paths *)

(** What routing and the origin must agree on: rooted, no dot segment, no control byte,
    no backslash and no percent-encoded separator or dot. *)
Definition safe_path (p : bytes) : Prop :=
  starts_with_byte SLASH p = true /\
  Forall (fun s => is_dot_seg s = false) (split_on SLASH p) /\
  existsb control_byte p = false /\ contains_byte BACKSLASH p = false /\
  contains_encoded_separator p = false.

(** Byte tests that a separator fails and a join therefore inherits from its segments. *)
Lemma split_segs_clean (f : ascii -> bool) raw :
  existsb f raw = false -> f SLASH = false ->
  forall s, s ∈ split_on SLASH raw -> existsb f s = false.
Proof.
  intros Hr Hf s Hs. rewrite <- (join_split SLASH raw), existsb_join in Hr by done.
  destruct (existsb f s) eqn:E; [|done]. exfalso.
  assert (existsb (existsb f) (split_on SLASH raw) = true); [|congruence].
  apply existsb_exists. exists s. by rewrite <- list_elem_of_In.
Qed.

Lemma split_segs_unencoded raw :
  contains_encoded_separator raw = false ->
  forall s, s ∈ split_on SLASH raw -> contains_encoded_separator s = false.
Proof.
  intros Hr s Hs. rewrite <- (join_split SLASH raw), contains_encoded_join in Hr.
  destruct (contains_encoded_separator s) eqn:E; [|done]. exfalso.
  assert (existsb contains_encoded_separator (split_on SLASH raw) = true); [|congruence].
  apply existsb_exists. exists s. by rewrite <- list_elem_of_In.
Qed.

Lemma existsb_false_Forall {A} (f : A -> bool) l :
  existsb f l = false <-> Forall (fun x => f x = false) l.
Proof.
  induction l as [|x l IH]; cbn [existsb]; [split; [constructor|done]|].
  by rewrite orb_false_iff, Forall_cons, IH.
Qed.

Definition clean_seg (s : bytes) : Prop :=
  is_dot_seg s = false /\ SLASH ∉ s /\ QMARK ∉ s /\ existsb control_byte s = false
  /\ contains_byte BACKSLASH s = false /\ contains_encoded_separator s = false.

Lemma clean_seg_nil : clean_seg [].
Proof. repeat split; apply not_elem_of_nil. Qed.

Lemma join_clean_safe o :
  Forall clean_seg o -> o <> [] -> safe_path (join SLASH ([] :: o)) /\ QMARK ∉ join SLASH ([] :: o).
Proof.
  intros Ho Hne.
  assert (Hall : Forall clean_seg ([] :: o)) by (constructor; [apply clean_seg_nil|done]).
  revert Hall. assert (Hs : starts_with_byte SLASH (join SLASH ([] :: o)) = true)
    by (by rewrite join_cons by done). revert Hs. generalize ([] :: o) as segs.
  intros segs Hs Hall. split; [split; [done|split]|].
  - rewrite split_join; [|by intros ->|].
    + eapply Forall_impl; [exact Hall|]. by intros ? [? ?].
    + eapply Forall_impl; [exact Hall|]. intros s Hc. apply Hc.
  - rewrite contains_encoded_join. unfold contains_byte. rewrite !existsb_join by done.
    repeat split; apply existsb_false_Forall; (eapply Forall_impl; [exact Hall|]);
      intros s (?&?&?&?&?&?); done.
  - intros Hq. apply contains_byte_spec in Hq. unfold contains_byte in Hq.
    rewrite existsb_join in Hq by done. apply existsb_exists in Hq as (s & Hin & Hx).
    apply list_elem_of_In in Hin. apply (contains_byte_spec QMARK s) in Hx.
    destruct (proj1 (Forall_forall _ _) Hall s Hin) as (_ & _ & ? & _). done.
Qed.

Lemma target_split target :
  (target = path_of target /\ query_of target = None /\ QMARK ∉ path_of target) \/
  exists q, query_of target = Some q /\ target = path_of target ++ QMARK :: q
    /\ QMARK ∉ path_of target.
Proof.
  unfold path_of, query_of. destruct (split_once QMARK target) as [[p q]|] eqn:E.
  - apply split_once_Some in E as [-> ?]. right. eauto.
  - left. by apply split_once_None in E.
Qed.

Lemma path_query_of p q : QMARK ∉ p ->
  path_of (match q with Some q => p ++ QMARK :: q | None => p end) = p /\
  query_of (match q with Some q => p ++ QMARK :: q | None => p end) = q.
Proof.
  intros Hp. unfold path_of, query_of. destruct q as [q|].
  - by rewrite split_once_app.
  - by rewrite split_once_none.
Qed.

(** [normalize_path] read off its path and query components. *)
Lemma normalize_path_eq target :
  normalize_path target =
  let raw := path_of target in
  if negb (starts_with_byte SLASH raw) then Some target
  else if existsb control_byte raw || contains_byte BACKSLASH raw then None
  else if contains_encoded_separator raw then None
  else if negb (existsb is_dot_seg (split_on SLASH raw)) then Some target
  else match resolve_segs (split_on SLASH raw) [] with
       | None => None
       | Some out =>
         let norm := match join SLASH out with [] => [SLASH] | n => n end in
         Some (match query_of target with Some q => norm ++ QMARK :: q | None => norm end)
       end.
Proof.
  unfold normalize_path, path_of, query_of.
  destruct (split_once QMARK target) as [[p q]|]; cbv zeta;
    repeat (case_match; try done).
Qed.

Lemma rooted_split raw :
  starts_with_byte SLASH raw = true -> exists r, raw = SLASH :: r /\
    split_on SLASH raw = [] :: split_on SLASH r.
Proof.
  destruct raw as [|x r]; cbn [starts_with_byte]; [done|]. intros ->%ascii_eqb_eq.
  exists r. split; [done|]. cbn [split_on]. by rewrite ascii_eqb_refl.
Qed.

Lemma resolve_rooted raw out :
  starts_with_byte SLASH raw = true -> QMARK ∉ raw ->
  existsb control_byte raw = false -> contains_byte BACKSLASH raw = false ->
  contains_encoded_separator raw = false ->
  resolve_segs (split_on SLASH raw) [] = Some out ->
  exists o, out = [] :: o /\ Forall clean_seg o.
Proof.
  intros Hs Hq Hc Hb He Hres. destruct (rooted_split raw Hs) as (r & Hr & Hsp).
  rewrite Hsp in Hres. cbn [resolve_segs app] in Hres.
  destruct (resolve_segs_Forall clean_seg _ _ _ _ Hres) as (o & -> & Ho); [constructor| |eauto].
  intros s Hin Hd.
  assert (Hin' : s ∈ split_on SLASH raw) by (rewrite Hsp; by apply list_elem_of_further).
  split; [done|]. split; [|split; [|split; [|split]]].
  - by apply (proj1 (Forall_forall _ _) (split_on_segs_no_sep SLASH raw)).
  - intros Hx. apply contains_byte_spec in Hx. unfold contains_byte in Hx.
    rewrite (split_segs_clean (fun x => ascii_eqb x QMARK) raw) in Hx; [done| |done|done].
    apply not_true_iff_false. intros Hy. by apply (contains_byte_spec QMARK) in Hy.
  - by apply (split_segs_clean _ raw).
  - by apply (split_segs_clean _ raw Hb).
  - by apply (split_segs_unencoded raw).
Qed.

Lemma normalize_path_safe_aux target r :
  starts_with_byte SLASH (path_of target) = true -> normalize_path target = Some r ->
  safe_path (path_of r) /\ query_of r = query_of target.
Proof.
  intros Hs. rewrite normalize_path_eq. cbv zeta. rewrite Hs. cbn [negb].
  assert (Hq : QMARK ∉ path_of target) by (destruct (target_split target) as [?|[q ?]]; naive_solver).
  destruct (existsb control_byte (path_of target) || contains_byte BACKSLASH (path_of target))
    eqn:Hcb; [done|]. apply orb_false_iff in Hcb as [Hc Hb].
  destruct (contains_encoded_separator (path_of target)) eqn:He; [done|].
  destruct (existsb is_dot_seg (split_on SLASH (path_of target))) eqn:Hd; cbn [negb].
  2:{ intros [= <-]. split; [|done]. split; [done|]. split; [|done].
      by apply existsb_false_Forall. }
  destruct (resolve_segs (split_on SLASH (path_of target)) []) as [out|] eqn:Hres; [|done].
  destruct (resolve_rooted _ _ Hs Hq Hc Hb He Hres) as (o & -> & Ho).
  intros Hr. apply (inj Some) in Hr as <-. set (norm := match join SLASH ([] :: o) with [] => [SLASH] | n => n end).
  assert (Hn : safe_path norm /\ QMARK ∉ norm).
  { unfold norm. destruct (decide (o = [])) as [->|Hne]; [|].
    - split; [|by vm_compute; set_solver]. repeat split; try by vm_compute.
      repeat constructor.
    - destruct (join_clean_safe o Ho Hne) as [? ?].
      destruct (join SLASH ([] :: o)) eqn:Ej; [|done].
      by rewrite join_cons in Ej. }
  destruct Hn as [Hsafe Hnq]. pose proof (path_query_of norm (query_of target) Hnq) as [Hp Hq'].
  split; [|exact Hq']. refine (eq_ind_r safe_path _ Hp). exact Hsafe.
Qed.

Lemma normalize_path_of_safe r : safe_path (path_of r) -> normalize_path r = Some r.
Proof.
  intros (Hs & Hd & Hc & Hb & He). rewrite normalize_path_eq. cbv zeta.
  rewrite Hs, Hc, Hb, He. cbn [negb orb].
  by rewrite (proj2 (existsb_false_Forall _ _) Hd).
Qed.

Lemma dot_free_not_escapes n segs :
  Forall (fun s => is_dot_seg s = false) segs -> ~ escapes n segs.
Proof.
  intros Hall. revert n. induction Hall as [|s segs Hs _ IH]; intros n.
  { apply escapes_nil. }
  rewrite escapes_cons. apply is_dot_seg_false in Hs as [-> ->]. apply IH.
Qed.

(** C1: for an origin-form target, a normalised request target has a safe path (rooted, no [.]
    or [..] segment, no control byte, backslash or percent-encoded separator), keeps its
    query unchanged, and normalising it again is the identity. *)
Theorem normalize_path_safe (target r : bytes)
    (Hs : starts_with_byte SLASH (path_of target) = true)
    (Hn : normalize_path target = Some r) :
  safe_path (path_of r) /\ query_of r = query_of target /\ normalize_path r = Some r.
Proof.
  destruct (normalize_path_safe_aux target r Hs Hn) as [Hsafe Hq].
  split; [done|]. split; [done|]. by apply normalize_path_of_safe.
Qed.

Lemma normalize_path_safe_witness :
  normalize_path (bs "/a/./../b//c?d=/..") = Some (bs "/b//c?d=/..") /\
  safe_path (path_of (bs "/b//c?d=/..")).
Proof.
  split; [by vm_compute|].
  apply (normalize_path_safe (bs "/a/./../b//c?d=/..") (bs "/b//c?d=/..")); by vm_compute.
Defined.

(** An origin-form target is rejected exactly when its path holds a control byte, a
    backslash or a percent-encoded separator, or when some prefix of its segments has more
    [..] than ordinary segments, that is, climbs above the root. *)
Theorem normalize_path_rejects (target r : bytes)
    (Hs : path_of target = SLASH :: r) :
  normalize_path target = None <->
  (exists c, c ∈ path_of target /\ control_byte c = true) \/ BACKSLASH ∈ path_of target \/
  contains_encoded_separator (path_of target) = true \/ escapes 0 (split_on SLASH r).
Proof.
  rewrite normalize_path_eq. cbv zeta. rewrite Hs. cbn [starts_with_byte].
  rewrite ascii_eqb_refl. cbn [negb].
  assert (Hcb : existsb control_byte (SLASH :: r) || contains_byte BACKSLASH (SLASH :: r) = true
    <-> (exists c, c ∈ SLASH :: r /\ control_byte c = true) \/ BACKSLASH ∈ SLASH :: r).
  { rewrite orb_true_iff, contains_byte_spec, existsb_exists.
    by setoid_rewrite list_elem_of_In. }
  destruct (existsb control_byte (SLASH :: r) || contains_byte BACKSLASH (SLASH :: r)).
  { split; [|done]. destruct Hcb as [Hcb _]. naive_solver. }
  destruct (contains_encoded_separator (SLASH :: r)).
  { split; [|done]. naive_solver. }
  assert (Hsp : split_on SLASH (SLASH :: r) = [] :: split_on SLASH r) by
    (cbn [split_on]; by rewrite ascii_eqb_refl).
  assert (Hiff : resolve_segs (split_on SLASH (SLASH :: r)) [] = None
    <-> escapes 0 (split_on SLASH r)) by (rewrite Hsp; apply resolve_segs_None).
  destruct (existsb is_dot_seg _) eqn:Hd; cbn [negb].
  - destruct (resolve_segs _ []); naive_solver.
  - assert (~ escapes 0 (split_on SLASH r)); [|naive_solver].
    apply dot_free_not_escapes. rewrite Hsp in Hd. cbn [existsb] in Hd.
    by apply existsb_false_Forall.
Qed.

Lemma normalize_path_rejects_witness :
  normalize_path (bs "/a/../../b") = None.
Proof.
  apply (normalize_path_rejects (bs "/a/../../b") (bs "a/../../b")); [by vm_compute|].
  right. right. right. exists 3%nat. vm_compute. lia.
Defined.

(** ** Prefix strip *)

Lemma split_on_app_sep c s t : split_on c (s ++ c :: t) = split_on c s ++ split_on c t.
Proof.
  induction s as [|x s IH]; cbn [app split_on].
  { by rewrite ascii_eqb_refl. }
  destruct (ascii_eqb x c); [by rewrite IH|]. rewrite IH.
  pose proof (split_on_nonempty c s). by destruct (split_on c s).
Qed.

Lemma safe_path_suffix s t : safe_path (s ++ SLASH :: t) -> safe_path (SLASH :: t).
Proof.
  intros (_ & Hd & Hc & Hb & He). split; [by cbn|].
  rewrite split_on_app_sep, Forall_app in Hd. destruct Hd as [_ Hd].
  unfold contains_byte in *. rewrite existsb_app, orb_false_iff in Hc, Hb.
  rewrite contains_encoded_app, orb_false_iff in He. split; [|split; [apply Hc|split; [apply Hb|]]].
  - cbn [split_on]. rewrite ascii_eqb_refl. by constructor.
  - change (SLASH :: t) with ([] ++ SLASH :: t). rewrite contains_encoded_app. apply He.
Qed.

Lemma path_query_app s t : QMARK ∉ s ->
  path_of (s ++ t) = s ++ path_of t /\ query_of (s ++ t) = query_of t.
Proof.
  intros Hs. unfold path_of, query_of. induction s as [|x s IH]; [done|].
  apply not_elem_of_cons in Hs as [Hx Hs]. destruct (IH Hs) as [IH1 IH2].
  cbn [app split_once]. rewrite (proj2 (ascii_eqb_neq x QMARK)) by done.
  destruct (split_once QMARK (s ++ t)) as [[p q]|], (split_once QMARK t) as [[p' q']|];
    simplify_eq/=; done.
Qed.

Lemma path_query_slash t :
  path_of (SLASH :: t) = SLASH :: path_of t /\ query_of (SLASH :: t) = query_of t.
Proof. apply (path_query_app [SLASH]). unfold QMARK, SLASH. set_solver. Qed.

Lemma ends_with_byte_snoc c s : ends_with_byte c s = true -> exists s', s = s' ++ [c].
Proof.
  unfold ends_with_byte. destruct (last s) as [x|] eqn:E; [|done].
  intros ->%ascii_eqb_eq. by apply last_Some.
Qed.

(** The suffix a strip leaves, cut at a segment boundary. *)
Lemma rewrite_path_cases p strip :
  rewrite_path p (Some strip) = p \/ (p = strip /\ rewrite_path p (Some strip) = [SLASH]) \/
  exists s t, p = s ++ SLASH :: t /\ rewrite_path p (Some strip) = SLASH :: t
    /\ (s = strip \/ strip = s ++ [SLASH]).
Proof.
  unfold rewrite_path. destruct (strip_prefix strip p) as [rest|] eqn:E; [|by left].
  apply strip_prefix_Some in E as ->. destruct rest as [|x rest].
  { right. left. by rewrite app_nil_r. }
  cbn [starts_with_byte]. destruct (ascii_eqb x SLASH) eqn:Ex.
  { apply ascii_eqb_eq in Ex as ->. right. right. exists strip, rest. auto. }
  destruct (ends_with_byte SLASH strip) eqn:Ee; [|by left].
  apply ends_with_byte_snoc in Ee as [s ->]. right. right. exists s, (x :: rest).
  rewrite <- app_assoc. auto.
Qed.

(** The target forwarded upstream, the normalised target with the route's prefix strip
    applied, still has a safe path, and its query is the client's query. *)
Theorem forwarded_path_safe (target p strip : bytes)
    (Hs : starts_with_byte SLASH (path_of target) = true)
    (Hn : normalize_path target = Some p) (Hq : QMARK ∉ strip) :
  safe_path (path_of (rewrite_path p (Some strip))) /\
  query_of (rewrite_path p (Some strip)) = query_of target.
Proof.
  destruct (normalize_path_safe_aux target p Hs Hn) as [Hsafe <-].
  destruct (rewrite_path_cases p strip) as [-> | [[-> ->] | (s & t & -> & -> & Hst)]].
  - done.
  - split; [|unfold query_of; by rewrite (split_once_none QMARK strip)].
    repeat split; try by vm_compute. repeat constructor.
  - assert (QMARK ∉ s) as Hqs by (destruct Hst; subst; set_solver).
    destruct (path_query_app s (SLASH :: t) Hqs) as [Hp ->]. rewrite Hp in Hsafe.
    destruct (path_query_slash t) as [Hp' Hq']. rewrite Hp' in *.
    split; [by eapply safe_path_suffix|done].
Qed.

Lemma forwarded_path_safe_witness :
  rewrite_path (bs "/api/b?q") (Some (bs "/api")) = bs "/b?q" /\
  query_of (bs "/b?q") = Some (bs "q").
Proof.
  split; [by vm_compute|].
  apply (forwarded_path_safe (bs "/api/x/../b?q") (bs "/api/b?q") (bs "/api"));
    [by vm_compute..|].
  intros H. repeat (apply elem_of_cons in H as [H|H]; [discriminate H|]).
  by apply elem_of_nil in H.
Defined.

(** The strip is applied to the target with its query: the bare [/api] is stripped to the
    root, [/api?x=1], which routes like it, is forwarded unstripped. *)
Lemma rewrite_path_query_boundary :
  path_under_prefix (bs "/api") (bare_path (bs "/api?x=1")) = true /\
  rewrite_path (bs "/api") (Some (bs "/api")) = bs "/" /\
  rewrite_path (bs "/api?x=1") (Some (bs "/api")) = bs "/api?x=1".
Proof. by vm_compute. Qed.

(** [path_under_prefix] is prefix-of on a segment boundary. *)
Lemma path_under_prefix_spec prefix path :
  path_under_prefix prefix path = true <->
  exists rest, path = prefix ++ rest /\
    (rest = [] \/ starts_with_byte SLASH rest = true \/ ends_with_byte SLASH prefix = true).
Proof.
  unfold path_under_prefix. destruct (starts_with prefix path) eqn:E; cbn [negb].
  - apply starts_with_spec in E as [rest ->]. rewrite length_app.
    assert (Hl0 : (prefix ++ rest) !! length prefix = rest !! O)
      by (rewrite lookup_app_r, Nat.sub_diag by lia; done).
    destruct (Nat.eqb_spec (length prefix + length rest) (length prefix)) as [Hl|Hl];
      cbn [orb].
    { split; [|done]. exists rest. split; [done|]. left. apply length_zero_iff_nil. lia. }
    destruct (ends_with_byte SLASH prefix).
    { split; [|done]. eauto. }
    rewrite bool_decide_eq_true, Hl0. split.
    + intros Hx. exists rest. split; [done|]. right. left. destruct rest; [done|].
      simplify_eq/=. apply ascii_eqb_refl.
    + intros (rest' & ->%app_inv_head & [-> | [Hx|Hx]]); [simpl in Hl; lia| |done].
      destruct rest'; [done|]. by apply ascii_eqb_eq in Hx as ->.
  - split; [done|]. intros (rest & -> & _).
    assert (starts_with prefix (prefix ++ rest) = true); [|congruence].
    apply starts_with_spec. eauto.
Qed.
