(* ===== verification/TokenBucket.v ===== *)
(** * Token buckets (host/src/backend.rs, [apply_bucket])

    The storage-agnostic bucket arithmetic both limiters share, on 64-bit saturating
    integers; its rate bound, and the exactness of the retry hint. *)

From S2P Require Import Prelude.

(** ** Definitions *)

Record Bucket := mkBucket {
  capacity : Z;
  refill_tokens : Z;
  refill_interval_ms : Z;
}.

Record Acquire := mkAcquire {
  allowed : bool;
  remaining : Z;
  retry_after_ms : Z;
}.

#[export] Instance Bucket_eq_dec : EqDecision Bucket.
Proof. solve_decision. Defined.
#[export] Instance Acquire_eq_dec : EqDecision Acquire.
Proof. solve_decision. Defined.

Definition no_refill (spec : Bucket) : bool :=
  (refill_interval_ms spec =? 0) || (refill_tokens spec =? 0).

(** Tokens and refill time before the request is served. *)
Definition refill (state : option (Z * Z)) (spec : Bucket) (now_ms : Z) : Z * Z :=
  match state with
  | None => (capacity spec, now_ms)
  | Some (tokens, last) =>
    if no_refill spec then (Z.min tokens (capacity spec), last)
    else
      let intervals := saturating_sub now_ms last / refill_interval_ms spec in
      let refilled := Z.min (saturating_add64 tokens
        (saturating_mul64 intervals (refill_tokens spec))) (capacity spec) in
      let advanced := saturating_add64 last
        (saturating_mul64 intervals (refill_interval_ms spec)) in
      (refilled, advanced)
  end.

Definition apply_bucket (state : option (Z * Z)) (cost : Z) (spec : Bucket) (now_ms : Z)
    : (Z * Z) * Acquire :=
  let '(tokens, last_refill) := refill state spec now_ms in
  if cost <=? tokens then
    let rem := tokens - cost in
    ((rem, last_refill), mkAcquire true rem 0)
  else
    let retry :=
      if no_refill spec then u64_max
      else saturating_mul64 (div_ceil (cost - tokens) (refill_tokens spec))
             (refill_interval_ms spec) in
    ((tokens, last_refill), mkAcquire false tokens retry).

(** ** Well-formedness *)

Definition wf_bucket (spec : Bucket) : Prop :=
  is_u64 (capacity spec) /\ is_u64 (refill_tokens spec) /\ is_u64 (refill_interval_ms spec).

Definition wf_state (st : Z * Z) : Prop := is_u64 (fst st) /\ is_u64 (snd st).

Lemma no_refill_false spec :
  wf_bucket spec -> no_refill spec = false ->
  0 < refill_interval_ms spec /\ 0 < refill_tokens spec.
Proof.
  intros (_ & [Hr _] & [Hi _]). unfold no_refill. rewrite orb_false_iff, !Z.eqb_neq. lia.
Qed.

(** The refill in unbounded arithmetic: saturation never bites below the capacity. *)
Lemma refill_exact t l spec now :
  wf_bucket spec -> wf_state (t, l) -> is_u64 now -> no_refill spec = false ->
  refill (Some (t, l)) spec now =
  let k := Z.max (now - l) 0 / refill_interval_ms spec in
  (Z.min (t + k * refill_tokens spec) (capacity spec), l + k * refill_interval_ms spec).
Proof.
  intros Hw [[Ht Ht'] [Hl Hl']] [Hn Hn'] Hnr. cbn [fst snd] in *.
  destruct (no_refill_false spec Hw Hnr) as [Hi Hr].
  destruct Hw as ([Hc Hc'] & [_ Hr'] & [_ Hi']). unfold refill. rewrite Hnr. cbv zeta.
  unfold saturating_sub, saturating_add64, saturating_mul64.
  set (k := Z.max (now - l) 0 / refill_interval_ms spec).
  assert (Hk : 0 <= k) by (apply Z.div_pos; lia).
  assert (Hki : k * refill_interval_ms spec <= Z.max (now - l) 0).
  { rewrite Z.mul_comm. apply Z.mul_div_le. lia. }
  f_equal; [|lia].
  assert (0 <= k * refill_tokens spec) by nia. lia.
Qed.

Lemma wf_refill st spec now :
  wf_bucket spec -> match st with Some s => wf_state s | None => True end -> is_u64 now ->
  wf_state (refill st spec now) /\ fst (refill st spec now) <= capacity spec.
Proof.
  intros Hw Hst Hn. pose proof Hw as ([Hc Hc'] & _ & _). destruct st as [[t l]|].
  - destruct (no_refill spec) eqn:Hnr.
    + unfold refill. rewrite Hnr. destruct Hst as [[Ht Ht'] [Hl Hl']].
      unfold wf_state, is_u64. cbn [fst snd] in *. lia.
    + rewrite refill_exact by done. cbv zeta. cbn [fst snd].
      destruct (no_refill_false spec Hw Hnr) as [Hi Hr].
      destruct Hst as [[Ht Ht'] [Hl Hl']], Hn as [Hn Hn']. cbn [fst snd] in *.
      pose proof (Z.mul_div_le (Z.max (now - l) 0) (refill_interval_ms spec) Hi).
      assert (0 <= Z.max (now - l) 0 / refill_interval_ms spec) by (apply Z.div_pos; lia).
      unfold wf_state, is_u64. cbn [fst snd]. nia.
  - unfold refill, wf_state, is_u64. cbn [fst snd]. destruct Hn. lia.
Qed.

Lemma wf_apply_bucket st cost spec now :
  wf_bucket spec -> match st with Some s => wf_state s | None => True end -> is_u64 now ->
  0 <= cost ->
  wf_state (fst (apply_bucket st cost spec now)) /\
  fst (fst (apply_bucket st cost spec now)) <= capacity spec.
Proof.
  intros Hw Hst Hn Hc. unfold apply_bucket.
  pose proof (wf_refill st spec now Hw Hst Hn) as [Hwf Hcap].
  destruct (refill st spec now) as [t l]. destruct Hwf as [[? ?] [? ?]].
  destruct (Z.leb_spec cost t); unfold wf_state, is_u64 in *; cbn [fst snd] in *; lia.
Qed.

(** ** The rate bound *)

(** A run of requests [(cost, now_ms)] on one bucket: the cost granted, and the state. *)
Fixpoint run_bucket (spec : Bucket) (reqs : list (Z * Z)) (st : Z * Z) : Z * (Z * Z) :=
  match reqs with
  | [] => (0, st)
  | (cost, now) :: rest =>
    let '(st', acq) := apply_bucket (Some st) cost spec now in
    let '(granted, final) := run_bucket spec rest st' in
    ((if allowed acq then cost else 0) + granted, final)
  end.

Definition wf_req (H : Z) (req : Z * Z) : Prop :=
  0 <= fst req /\ 0 <= snd req <= H.

Lemma apply_bucket_conserves st cost spec now :
  let '((t', l'), acq) := apply_bucket st cost spec now in
  (if allowed acq then cost else 0) + t' = fst (refill st spec now)
  /\ l' = snd (refill st spec now).
Proof.
  unfold apply_bucket. destruct (refill st spec now) as [t l].
  destruct (Z.leb_spec cost t); cbn [allowed fst snd]; lia.
Qed.

Lemma refill_growth t l spec now H :
  wf_bucket spec -> wf_state (t, l) -> 0 <= now <= H -> H <= u64_max ->
  let '(t1, l1) := refill (Some (t, l)) spec now in
  exists m, 0 <= m /\ t1 <= t + m * refill_tokens spec /\ l1 = l + m * refill_interval_ms spec
    /\ (m = 0 \/ l1 <= H) /\ (no_refill spec = true -> m = 0).
Proof.
  intros Hw Hst Hn HH. destruct (no_refill spec) eqn:Hnr.
  - unfold refill. rewrite Hnr. exists 0. split_and!; (done || lia).
  - rewrite refill_exact by (unfold is_u64; done || lia). cbv zeta.
    destruct (no_refill_false spec Hw Hnr) as [Hi Hr].
    pose proof (Z.mul_div_le (Z.max (now - l) 0) (refill_interval_ms spec) Hi).
    exists (Z.max (now - l) 0 / refill_interval_ms spec).
    assert (0 <= Z.max (now - l) 0 / refill_interval_ms spec) by (apply Z.div_pos; lia).
    split; [done|]. split; [lia|]. split; [done|]. split; [|done].
    destruct (Z.le_gt_cases (now - l) 0); [left|right; nia].
    rewrite Z.max_r by lia. apply Z.div_0_l. lia.
Qed.

(** Granted plus remaining tokens grow by whole refills only, bounded by the latest clock. *)
Lemma run_bucket_growth spec H reqs : forall t l,
  wf_bucket spec -> wf_state (t, l) -> Forall (wf_req H) reqs -> H <= u64_max ->
  let '(granted, (t', l')) := run_bucket spec reqs (t, l) in
  exists m, 0 <= m /\ granted + t' <= t + m * refill_tokens spec /\ 0 <= t'
    /\ l' = l + m * refill_interval_ms spec /\ (m = 0 \/ l' <= H)
    /\ (no_refill spec = true -> m = 0).
Proof.
  induction reqs as [|[cost now] reqs IH]; intros t l Hw Hst Hreqs HH; cbn [run_bucket].
  { exists 0. destruct Hst as [[? ?] ?]. cbn in *. split_and!; (done || lia). }
  apply Forall_cons in Hreqs as [[Hc Hn] Hreqs]. cbn [fst snd] in Hc, Hn.
  pose proof (apply_bucket_conserves (Some (t, l)) cost spec now) as Hcons.
  pose proof (wf_apply_bucket (Some (t, l)) cost spec now Hw Hst ltac:(unfold is_u64; lia) Hc)
    as [Hwf _].
  pose proof (refill_growth t l spec now H Hw Hst Hn HH) as Hgrow.
  destruct (apply_bucket (Some (t, l)) cost spec now) as [[t1 l1] acq]. cbn [fst] in Hwf.
  destruct (refill (Some (t, l)) spec now) as [t0 l0]. cbn [fst snd] in Hcons.
  destruct Hcons as [Hg ->]. destruct Hgrow as (m0 & Hm0 & Ht0 & Hl0 & Hor & Hz).
  specialize (IH t1 l0 Hw Hwf Hreqs HH).
  destruct (run_bucket spec reqs (t1, l0)) as [granted [t' l']].
  destruct IH as (m & Hm & Hgr & Ht' & Hl' & Hor' & Hz').
  exists (m0 + m). split; [lia|]. split; [lia|]. split; [done|]. split; [lia|].
  split; [|intros Hnr; rewrite (Hz Hnr), (Hz' Hnr); done]. destruct Hor' as [-> | ?]; [|by right].
  destruct Hor as [-> | ?]; [by left|]. right. lia.
Qed.

Lemma refill_recent st spec now :
  wf_bucket spec -> match st with Some s => wf_state s | None => True end -> is_u64 now ->
  no_refill spec = false -> now - refill_interval_ms spec < snd (refill st spec now).
Proof.
  intros Hw Hst Hn Hnr. destruct (no_refill_false spec Hw Hnr) as [Hi Hr].
  destruct st as [[t l]|]; [|cbn; lia].
  rewrite refill_exact by done. cbv zeta. cbn [snd].
  pose proof (Z.mul_succ_div_gt (Z.max (now - l) 0) (refill_interval_ms spec) Hi). lia.
Qed.

Lemma bucket_window_bound (spec : Bucket) (st : option (Z * Z)) (c1 t1 H : Z)
    (reqs : list (Z * Z)) (Hw : wf_bucket spec)
    (Hst : match st with Some s => wf_state s | None => True end)
    (H1 : wf_req H (c1, t1)) (Hreqs : Forall (wf_req H) reqs) (HH : H <= u64_max) :
  let '(st1, acq1) := apply_bucket st c1 spec t1 in
  (if allowed acq1 then c1 else 0) + fst (run_bucket spec reqs st1)
  <= capacity spec + (if no_refill spec then 0
       else refill_tokens spec * div_ceil (H - t1) (refill_interval_ms spec)).
Proof.
  destruct H1 as [Hc1 Ht1]. cbn [fst snd] in *.
  assert (Hn : is_u64 t1) by (unfold is_u64; lia).
  pose proof (apply_bucket_conserves st c1 spec t1) as Hcons.
  pose proof (wf_apply_bucket st c1 spec t1 Hw Hst Hn Hc1) as [Hwf _].
  pose proof (wf_refill st spec t1 Hw Hst Hn) as [_ Hcap].
  pose proof (refill_recent st spec t1 Hw Hst Hn) as Hrec.
  destruct (apply_bucket st c1 spec t1) as [[t l] acq]. cbn [fst] in Hwf.
  destruct Hcons as [Hg Hl].
  pose proof (run_bucket_growth spec H reqs t l Hw Hwf Hreqs HH) as Hrun.
  destruct (run_bucket spec reqs (t, l)) as [granted [t' l']]. cbn [fst].
  destruct Hrun as (m & Hm & Hgr & Ht' & Hl' & Hor & Hz).
  destruct (no_refill spec) eqn:Hnr; [rewrite Hz in Hgr by done; lia|].
  destruct (no_refill_false spec Hw Hnr) as [Hi Hr]. specialize (Hrec eq_refl).
  assert (m <= div_ceil (H - t1) (refill_interval_ms spec)); [|nia].
  unfold div_ceil. destruct Hor as [-> | Hor]; [apply Z.div_pos; lia|].
  apply Z.div_le_lower_bound; nia.
Qed.

(** Whatever the state of a bucket, the clock readings (they may even step back) and the
    costs, the cost granted from a request at [t1] on, with no clock reading past [H], is at
    most the capacity plus one refill per started interval of [H - t1]. *)
Theorem bucket_rate_bound (spec : Bucket) (st : option (Z * Z)) (c1 t1 H : Z)
    (reqs : list (Z * Z)) (Hw : wf_bucket spec)
    (Hst : match st with Some s => wf_state s | None => True end)
    (H1 : wf_req H (c1, t1)) (Hreqs : Forall (wf_req H) reqs) (HH : H <= u64_max) :
  let '(st1, acq1) := apply_bucket st c1 spec t1 in
  (if allowed acq1 then c1 else 0) + fst (run_bucket spec reqs st1)
  <= capacity spec + (if no_refill spec then 0
       else refill_tokens spec * div_ceil (H - t1) (refill_interval_ms spec)).
Proof. by apply bucket_window_bound. Qed.

Lemma bucket_rate_bound_witness :
  3 + fst (run_bucket (mkBucket 3 2 1000) [(3, 2500); (1, 1200)] (0, 1000)) <= 7.
Proof.
  pose proof (bucket_rate_bound (mkBucket 3 2 1000) None 3 1000 2500 [(3, 2500); (1, 1200)]
    ltac:(vm_compute; intuition congruence) I ltac:(vm_compute; intuition congruence)
    ltac:(repeat constructor; vm_compute; congruence) ltac:(vm_compute; congruence)) as H.
  exact H.
Defined.

(** ** The retry hint *)

Lemma div_ceil_spec a b : 0 < b -> a <= div_ceil a b * b /\ (div_ceil a b - 1) * b < a.
Proof.
  intros Hb. unfold div_ceil.
  pose proof (Z.mul_div_le (a + b - 1) b Hb). pose proof (Z.mul_succ_div_gt (a + b - 1) b Hb).
  lia.
Qed.

(** A request denied with a clock at or after the bucket's refill time, for a cost within
    the capacity, is told a [retry_after_ms] that is exact up to the phase of the current
    interval: a repeat at [now'] on the stored state is allowed if and only if
    [now'] is at least the stored refill time plus the hint, that time lies less than one
    interval before [now + retry_after_ms], and so a retry after the hint is served. *)
Theorem retry_after_exact (spec : Bucket) (t l cost now now' : Z) (st' : Z * Z) (acq : Acquire)
    (Hw : wf_bucket spec) (Hst : wf_state (t, l)) (Hn : is_u64 now) (Hln : l <= now)
    (Hc : 0 <= cost <= capacity spec) (Hr : no_refill spec = false)
    (Hd : apply_bucket (Some (t, l)) cost spec now = (st', acq))
    (Hden : allowed acq = false) (Hsat : retry_after_ms acq < u64_max)
    (Hn' : is_u64 now') (Hlater : snd st' <= now') :
  (allowed (snd (apply_bucket (Some st') cost spec now')) = true
   <-> snd st' + retry_after_ms acq <= now') /\
  now - refill_interval_ms spec < snd st' <= now.
Proof.
  destruct (no_refill_false spec Hw Hr) as [Hi Hrf].
  pose proof (refill_recent (Some (t, l)) spec now Hw Hst Hn Hr) as Hrec.
  pose proof (wf_refill (Some (t, l)) spec now Hw Hst Hn) as [Hwf' Hcap].
  assert (Hle : snd (refill (Some (t, l)) spec now) <= now).
  { rewrite refill_exact by done. cbv zeta. cbn [snd].
    pose proof (Z.mul_div_le (Z.max (now - l) 0) (refill_interval_ms spec) Hi). lia. }
  unfold apply_bucket in Hd. destruct (refill (Some (t, l)) spec now) as [t1 l1].
  cbn [fst snd] in *. destruct (Z.leb_spec cost t1) as [|Hlt]; [by simplify_eq/=|].
  rewrite Hr in Hd. injection Hd as <- <-. cbn [retry_after_ms snd allowed] in *.
  split; [|lia]. unfold saturating_mul64 in *. rewrite Z.min_l by lia.
  destruct (div_ceil_spec (cost - t1) (refill_tokens spec) Hrf) as [Hup Hlo].
  unfold apply_bucket. rewrite refill_exact by done. cbv zeta.
  set (k := Z.max (now' - l1) 0 / refill_interval_ms spec).
  set (r := div_ceil (cost - t1) (refill_tokens spec)) in *.
  assert (Hk : r <= k <-> l1 + r * refill_interval_ms spec <= now').
  { unfold k. rewrite Z.max_l by lia. split.
    - intros H. pose proof (Z.mul_div_le (now' - l1) (refill_interval_ms spec) Hi). nia.
    - intros H. apply Z.div_le_lower_bound; lia. }
  rewrite <- Hk. destruct (Z.leb_spec cost
    (Z.min (t1 + k * refill_tokens spec) (capacity spec))) as [Hle'|Hgt]; cbn [allowed snd].
  - split; [|done]. intros _. nia.
  - split; [done|]. intros H. nia.
Qed.

Lemma retry_after_exact_witness :
  allowed (snd (apply_bucket (Some (1, 1000)) 5 (mkBucket 10 2 1000) 1300)) = false /\
  allowed (snd (apply_bucket (Some (1, 1000)) 5 (mkBucket 10 2 1000) 3000)) = true.
Proof.
  split; [by vm_compute|].
  pose proof (retry_after_exact (mkBucket 10 2 1000) 1 1000 5 1300 3000 (1, 1000)
    (mkAcquire false 1 2000) ltac:(vm_compute; intuition congruence)
    ltac:(vm_compute; intuition congruence) ltac:(vm_compute; intuition congruence)
    ltac:(lia) ltac:(vm_compute; intuition congruence) eq_refl eq_refl eq_refl
    ltac:(vm_compute; reflexivity) ltac:(vm_compute; intuition congruence)
    ltac:(vm_compute; congruence)) as [H _].
  apply H. vm_compute. congruence.
Defined.

Lemma oversized_cost_denied spec st cost now :
  wf_bucket spec -> match st with Some s => wf_state s | None => True end -> is_u64 now ->
  capacity spec < cost -> allowed (snd (apply_bucket st cost spec now)) = false.
Proof.
  intros Hw Hst Hn Hc. destruct (wf_refill st spec now Hw Hst Hn) as [_ Hcap].
  unfold apply_bucket. destruct (refill st spec now) as [t l]. cbn [fst] in Hcap.
  destruct (Z.leb_spec cost t); [lia|done].
Qed.

(** A cost above the capacity is still told a finite hint. *)
Lemma oversized_cost_hint :
  apply_bucket None 7 (mkBucket 5 1 1000) 0 = ((5, 0), mkAcquire false 5 2000).
Proof. by vm_compute. Qed.
