(* ===== verification/Kv.v ===== *)
(** * Key-value backends (host/src/backend.rs)

    The backend interface the host API calls, with its laws as a specification over the map
    of stored bytes; the value codecs; the in-memory backend; and the redb backend with its
    group commit, its durability cadence and its fail-closed error paths.  The redb engine
    itself is represented by what the code relies on: a write transaction is atomic, and a
    crash keeps the last [Immediate] commit. *)

From S2P Require Import Prelude Bytes TokenBucket.

(** ** Codecs *)

Fixpoint to_le_bytes (n : nat) (x : Z) : bytes :=
  match n with
  | O => []
  | S n' => ascii_of_N (Z.to_N (x mod 256)) :: to_le_bytes n' (x / 256)
  end.

Fixpoint from_le_bytes (s : bytes) : Z :=
  match s with
  | [] => 0
  | c :: s' => byte_val c + 256 * from_le_bytes s'
  end.

Definition i64_min : Z := - 2 ^ 63.
Definition i64_max : Z := 2 ^ 63 - 1.
Definition is_i64 (x : Z) : Prop := i64_min <= x <= i64_max.
Definition i64_of_u64 (u : Z) : Z := if u <? 2 ^ 63 then u else u - 2 ^ 64.
Definition saturating_add_i64 (a d : Z) : Z := Z.max i64_min (Z.min (a + d) i64_max).

Definition encode_i64 (x : Z) : bytes := to_le_bytes 8 (x mod 2 ^ 64).
Definition decode_i64 (s : bytes) : Z := i64_of_u64 (from_le_bytes (take 8 s)).

Definition decode_bucket (s : bytes) : option (Z * Z) :=
  if negb (length s =? 16)%nat then None
  else Some (from_le_bytes (take 8 s), from_le_bytes (take 8 (drop 8 s))).

Definition encode_bucket (state : Z * Z) : bytes :=
  to_le_bytes 8 (fst state) ++ to_le_bytes 8 (snd state).

Definition bucket_input (raw : option bytes) (now_ms : Z) : option (Z * Z) :=
  match raw with
  | None => None
  | Some s => Some (default (0, now_ms) (decode_bucket s))
  end.

(** ** The backend interface *)

Class KvBackend (B : Type) := {
  kv_may_block : bool;
  kv_get : B -> bytes -> option bytes;
  kv_set : B -> bytes -> bytes -> B;
  kv_delete : B -> bytes -> B;
  kv_increment : B -> bytes -> Z -> Z * B;
  kv_try_acquire : B -> bytes -> Z -> Bucket -> Z -> Acquire * B;
  (** [visit_entries]: the startup inventory of keys and value lengths. *)
  kv_entries : B -> option (list (bytes * nat));
}.

(** The reference semantics of the two read-modify-write operations on a map of bytes. *)
Definition map_increment (m : gmap bytes bytes) (key : bytes) (delta : Z)
    : Z * gmap bytes bytes :=
  let cur := decode_i64 (default [] (m !! key)) in
  if delta =? 0 then (cur, m)
  else let next := saturating_add_i64 cur delta in (next, <[key := encode_i64 next]> m).

Definition map_try_acquire (m : gmap bytes bytes) (key : bytes) (cost : Z) (spec : Bucket)
    (now_ms : Z) : Acquire * gmap bytes bytes :=
  let '(next, res) := apply_bucket (bucket_input (m !! key) now_ms) cost spec now_ms in
  (res, <[key := encode_bucket next]> m).

(** What a backend promises the host API: it behaves like a map. *)
Class KvBackendLaws (B : Type) `{KvBackend B} := {
  kv_view : B -> gmap bytes bytes;
  kv_get_view : forall s k, kv_get s k = kv_view s !! k;
  kv_set_view : forall s k v, kv_view (kv_set s k v) = <[k := v]> (kv_view s);
  kv_delete_view : forall s k, kv_view (kv_delete s k) = delete k (kv_view s);
  kv_increment_view : forall s k d,
    (fst (kv_increment s k d), kv_view (snd (kv_increment s k d)))
    = map_increment (kv_view s) k d;
  kv_try_acquire_view : forall s k c spec now,
    (fst (kv_try_acquire s k c spec now), kv_view (snd (kv_try_acquire s k c spec now)))
    = map_try_acquire (kv_view s) k c spec now;
  kv_entries_view : forall s, exists l, kv_entries s = Some l /\
    l ≡ₚ map (fun kv => (fst kv, length (snd kv))) (map_to_list (kv_view s));
}.

(** ** The in-memory backend *)

Record MemoryBackend := mkMemory { mb_map : gmap bytes bytes }.

Definition memory_increment (s : MemoryBackend) (key : bytes) (delta : Z)
    : Z * MemoryBackend :=
  let cur := decode_i64 (default [] (mb_map s !! key)) in
  if delta =? 0 then (cur, s)
  else
    let next := saturating_add_i64 cur delta in
    (next, mkMemory (<[key := encode_i64 next]> (mb_map s))).

Definition memory_try_acquire (s : MemoryBackend) (key : bytes) (cost : Z) (spec : Bucket)
    (now_ms : Z) : Acquire * MemoryBackend :=
  let prev := bucket_input (mb_map s !! key) now_ms in
  let '(next, res) := apply_bucket prev cost spec now_ms in
  (res, mkMemory (<[key := encode_bucket next]> (mb_map s))).

#[export] Instance MemoryBackend_kv : KvBackend MemoryBackend := {|
  kv_may_block := false;
  kv_get s k := mb_map s !! k;
  kv_set s k v := mkMemory (<[k := v]> (mb_map s));
  kv_delete s k := mkMemory (delete k (mb_map s));
  kv_increment := memory_increment;
  kv_try_acquire := memory_try_acquire;
  kv_entries s := Some (map (fun kv => (fst kv, length (snd kv))) (map_to_list (mb_map s)));
|}.

(** ** The redb backend: write operations and batches *)

Inductive WriteOp :=
| OpSet (key value : bytes)
| OpDelete (key : bytes)
| OpIncrement (key : bytes) (delta : Z)
| OpTryAcquire (key : bytes) (cost : Z) (spec : Bucket) (now_ms : Z).

Inductive WriteOutcome :=
| OutDone
| OutCounter (n : Z)
| OutAcquired (a : Acquire).

Definition needs_durable_commit (op : WriteOp) : bool :=
  match op with OpSet _ _ | OpDelete _ => true | _ => false end.

Definition apply_op (table : gmap bytes bytes) (op : WriteOp)
    : WriteOutcome * gmap bytes bytes :=
  match op with
  | OpSet key value => (OutDone, <[key := value]> table)
  | OpDelete key => (OutDone, delete key table)
  | OpIncrement key delta =>
    let cur := from_option decode_i64 0 (table !! key) in
    let next := saturating_add_i64 cur delta in
    (OutCounter next, <[key := encode_i64 next]> table)
  | OpTryAcquire key cost spec now_ms =>
    let prev := bucket_input (table !! key) now_ms in
    let '(next, res) := apply_bucket prev cost spec now_ms in
    (OutAcquired res, <[key := encode_bucket next]> table)
  end.

Fixpoint apply_ops (table : gmap bytes bytes) (ops : list WriteOp)
    : list WriteOutcome * gmap bytes bytes :=
  match ops with
  | [] => ([], table)
  | op :: rest =>
    let '(out, table) := apply_op table op in
    let '(outs, table) := apply_ops table rest in
    (out :: outs, table)
  end.

Definition MAX_COMBINE_ROUNDS : nat := 16.
Definition MAX_BATCH_OPS : nat := 64.
Definition DURABLE_FLUSH_EVERY : Z := 1024.

Inductive Durability := Immediate | NoneDurable.

(** [rb_durable] is what a crash would leave: the table at the last [Immediate] commit. *)
Record RedbBackend := mkRedb {
  rb_table : gmap bytes bytes;
  rb_durable : gmap bytes bytes;
  rb_flush_every : Z;
  rb_non_durable_run : Z;
  rb_forced_flushes : Z;
}.

Definition durability_for_batch (s : RedbBackend) (batch : list WriteOp) : Durability :=
  if existsb needs_durable_commit batch then Immediate
  else
    let run := rb_non_durable_run s + Z.of_nat (length batch) in
    if rb_flush_every s <=? run then Immediate else NoneDurable.

(** The cadence counters after a successful commit: [(non_durable_run, forced_flushes)]. *)
Definition record_successful_commit (s : RedbBackend) (batch : list WriteOp)
    (durability : Durability) : Z * Z :=
  if existsb needs_durable_commit batch then (0, rb_forced_flushes s)
  else
    match durability with
    | Immediate => (0, wrapping_add (rb_forced_flushes s) 1)
    | NoneDurable => (wrapping_add (rb_non_durable_run s) (Z.of_nat (length batch)),
                      rb_forced_flushes s)
    end.

(** One write transaction; [fault] says that the engine failed anywhere in it, which drops
    the transaction whole. *)
Definition apply_batch (fault : bool) (s : RedbBackend) (batch : list WriteOp)
    : result (list WriteOutcome) unit * RedbBackend :=
  let durability := durability_for_batch s batch in
  if fault then (Err tt, s)
  else
    let '(outs, table) := apply_ops (rb_table s) batch in
    let durable := match durability with Immediate => table | NoneDurable => rb_durable s end in
    let '(run, forced) := record_successful_commit s batch durability in
    (Ok outs, mkRedb table durable (rb_flush_every s) run forced).

(** [submit] by an uncontended caller: it wins the election and drains its own write. *)
Definition redb_submit (fault : bool) (s : RedbBackend) (op : WriteOp)
    : result WriteOutcome unit * RedbBackend :=
  match apply_batch fault s [op] with
  | (Ok (out :: _), s') => (Ok out, s')
  | (_, s') => (Err tt, s')
  end.

Definition redb_get (fault : bool) (s : RedbBackend) (key : bytes) : option bytes :=
  if fault then None else rb_table s !! key.

Definition redb_set (fault : bool) (s : RedbBackend) (key value : bytes) : RedbBackend :=
  snd (redb_submit fault s (OpSet key value)).

Definition redb_delete (fault : bool) (s : RedbBackend) (key : bytes) : RedbBackend :=
  snd (redb_submit fault s (OpDelete key)).

Definition redb_increment (fault : bool) (s : RedbBackend) (key : bytes) (delta : Z)
    : Z * RedbBackend :=
  if delta =? 0 then
    ((if fault then 0 else decode_i64 (default [] (rb_table s !! key))), s)
  else
    match redb_submit fault s (OpIncrement key delta) with
    | (Ok (OutCounter v), s') => (v, s')
    | (_, s') => (0, s')
    end.

Definition redb_try_acquire (fault : bool) (s : RedbBackend) (key : bytes) (cost : Z)
    (spec : Bucket) (now_ms : Z) : Acquire * RedbBackend :=
  let denied := mkAcquire false 0 (refill_interval_ms spec) in
  match redb_submit fault s (OpTryAcquire key cost spec now_ms) with
  | (Ok (OutAcquired r), s') => (r, s')
  | (_, s') => (denied, s')
  end.

Definition redb_entries (fault : bool) (s : RedbBackend) : option (list (bytes * nat)) :=
  if fault then None
  else Some (map (fun kv => (fst kv, length (snd kv))) (map_to_list (rb_table s))).

(** The backend while its engine works, and while it fails. *)
Definition redb_backend (fault : bool) : KvBackend RedbBackend := {|
  kv_may_block := true;
  kv_get := redb_get fault;
  kv_set := redb_set fault;
  kv_delete := redb_delete fault;
  kv_increment := redb_increment fault;
  kv_try_acquire := redb_try_acquire fault;
  kv_entries := redb_entries fault;
|}.

#[export] Instance RedbBackend_kv : KvBackend RedbBackend := redb_backend false.

(** ** The combiner under contention *)

Abbreviation WriteJob := (nat * WriteOp)%type.
Abbreviation Reply := (nat * result WriteOutcome unit)%type.

Record Combiner := mkCombiner {
  cb_store : RedbBackend;
  cb_queue : list WriteJob;
  cb_replies : list Reply;
}.

(** Apply one drained batch and answer its callers, in drain order. *)
Definition reply_batch (batch : list WriteJob) (res : result (list WriteOutcome) unit)
    : list Reply :=
  match res with
  | Ok outs => zip_with (fun job out => (fst job, Ok out)) batch outs
  | Err e => map (fun job => (fst job, Err e)) batch
  end.

Definition combine_batch (fault : bool) (n : nat) (c : Combiner) : Combiner :=
  let batch := take n (cb_queue c) in
  let '(res, store) := apply_batch fault (cb_store c) (map snd batch) in
  mkCombiner store (drop n (cb_queue c)) (cb_replies c ++ reply_batch batch res).

(** The combining loop of [submit]: at most [rounds] drains, stopping on an empty drain or
    on a storage failure; [faults] is the engine's fate in each round. *)
Fixpoint combine_rounds (rounds : nat) (faults : list bool) (c : Combiner) : Combiner :=
  match rounds with
  | O => c
  | S rounds' =>
    match take MAX_BATCH_OPS (cb_queue c) with
    | [] => c
    | _ =>
      let fault := default false (head faults) in
      let c' := combine_batch fault MAX_BATCH_OPS c in
      if fault then c' else combine_rounds rounds' (tail faults) c'
    end
  end.

Definition combiner_init (s : RedbBackend) : Combiner := mkCombiner s [] [].

(** ** Codec lemmas *)

Lemma byte_val_of x : 0 <= x < 256 -> byte_val (ascii_of_N (Z.to_N x)) = x.
Proof. intros Hx. unfold byte_val. rewrite N_ascii_embedding by lia. lia. Qed.

Lemma length_to_le n x : length (to_le_bytes n x) = n.
Proof. revert x. induction n; intros; cbn [to_le_bytes length]; auto. Qed.

Lemma from_to_le n : forall x, 0 <= x -> from_le_bytes (to_le_bytes n x) = x mod 256 ^ Z.of_nat n.
Proof.
  induction n as [|n IH]; intros x Hx; cbn [to_le_bytes from_le_bytes].
  { by rewrite Z.mod_1_r. }
  rewrite byte_val_of by (apply Z.mod_pos_bound; lia).
  rewrite IH by (apply Z.div_pos; lia).
  replace (Z.of_nat (S n)) with (Z.succ (Z.of_nat n)) by lia.
  rewrite Z.pow_succ_r, Z.rem_mul_r by lia. lia.
Qed.

Lemma from_to_le64 x : is_u64 x -> from_le_bytes (to_le_bytes 8 x) = x.
Proof.
  intros [H1 H2]. rewrite from_to_le by done. apply Z.mod_small. unfold u64_max in H2. lia.
Qed.

Lemma decode_encode_i64 x : is_i64 x -> decode_i64 (encode_i64 x) = x.
Proof.
  intros [H1 H2]. unfold decode_i64, encode_i64, i64_min, i64_max in *.
  rewrite take_ge by (by rewrite length_to_le).
  rewrite from_to_le64.
  2:{ unfold is_u64, u64_max. pose proof (Z.mod_pos_bound x (2 ^ 64) ltac:(lia)). lia. }
  unfold i64_of_u64. destruct (Z.le_gt_cases 0 x).
  - rewrite Z.mod_small by lia. destruct (Z.ltb_spec x (2 ^ 63)); lia.
  - rewrite <- (Z.mod_add x 1), Z.mod_small by lia.
    destruct (Z.ltb_spec (x + 1 * 2 ^ 64) (2 ^ 63)); lia.
Qed.

Lemma decode_encode_bucket st : wf_state st -> decode_bucket (encode_bucket st) = Some st.
Proof.
  intros [H1 H2]. unfold decode_bucket, encode_bucket.
  rewrite length_app, !length_to_le. cbn [Nat.add Nat.eqb negb].
  rewrite take_app_le, take_ge, drop_app_ge, length_to_le by (rewrite length_to_le; lia).
  rewrite Nat.sub_diag, drop_0, take_ge by (rewrite length_to_le; lia).
  rewrite !from_to_le64 by done. by destruct st.
Qed.

(** ** Both backends implement the interface *)

#[export] Program Instance MemoryBackend_laws : KvBackendLaws MemoryBackend := {|
  kv_view := mb_map;
|}.
Next Obligation. done. Qed.
Next Obligation. done. Qed.
Next Obligation. done. Qed.
Next Obligation.
  intros s k d. cbn. unfold memory_increment, map_increment. by destruct (d =? 0).
Qed.
Next Obligation.
  intros s k c spec now. cbn. unfold memory_try_acquire, map_try_acquire.
  by destruct (apply_bucket _ _ _ _).
Qed.
Next Obligation. intros s. by eexists. Qed.

Lemma apply_batch_ok s ops :
  fst (apply_batch false s ops) = Ok (fst (apply_ops (rb_table s) ops)) /\
  rb_table (snd (apply_batch false s ops)) = snd (apply_ops (rb_table s) ops).
Proof.
  unfold apply_batch. destruct (apply_ops (rb_table s) ops) as [outs table].
  by destruct (record_successful_commit s ops _).
Qed.

Lemma redb_submit_ok s op :
  fst (redb_submit false s op) = Ok (fst (apply_op (rb_table s) op)) /\
  rb_table (snd (redb_submit false s op)) = snd (apply_op (rb_table s) op).
Proof.
  unfold redb_submit. destruct (apply_batch_ok s [op]) as [H1 H2].
  destruct (apply_batch false s [op]) as [r s']. cbn [fst snd apply_ops] in *.
  destruct (apply_op (rb_table s) op) as [out t]. cbn [fst snd] in *. by subst r.
Qed.

#[export] Program Instance RedbBackend_laws : KvBackendLaws RedbBackend := {|
  kv_view := rb_table;
|}.
Next Obligation. done. Qed.
Next Obligation. intros s k v. apply (redb_submit_ok s (OpSet k v)). Qed.
Next Obligation. intros s k. apply (redb_submit_ok s (OpDelete k)). Qed.
Next Obligation.
  intros s k d. cbn. unfold redb_increment, map_increment. destruct (d =? 0); [done|].
  destruct (redb_submit_ok s (OpIncrement k d)) as [H1 H2].
  destruct (redb_submit false s (OpIncrement k d)) as [r s']. cbn in *. subst r. cbn.
  rewrite H2. by destruct (rb_table s !! k).
Qed.
Next Obligation.
  intros s k c spec now. cbn. unfold redb_try_acquire, map_try_acquire.
  destruct (redb_submit_ok s (OpTryAcquire k c spec now)) as [H1 H2].
  destruct (redb_submit false s (OpTryAcquire k c spec now)) as [r s']. cbn in *. subst r.
  destruct (apply_bucket _ _ _ _) as [next res]. cbn in *. by rewrite H2.
Qed.
Next Obligation. intros s. by eexists. Qed.

(** ** Group commit *)

Lemma apply_ops_app table ops1 ops2 :
  apply_ops table (ops1 ++ ops2) =
  let '(o1, t1) := apply_ops table ops1 in
  let '(o2, t2) := apply_ops t1 ops2 in (o1 ++ o2, t2).
Proof.
  revert table. induction ops1 as [|op ops1 IH]; intros table; cbn [app apply_ops].
  { by destruct (apply_ops table ops2). }
  destruct (apply_op table op) as [o t]. rewrite IH.
  destruct (apply_ops t ops1) as [o1 t1]. by destruct (apply_ops t1 ops2).
Qed.

Lemma length_apply_ops table ops : length (fst (apply_ops table ops)) = length ops.
Proof.
  revert table. induction ops as [|op ops IH]; intros table; cbn [apply_ops]; [done|].
  destruct (apply_op table op) as [o t]. specialize (IH t).
  destruct (apply_ops t ops). cbn in *. by rewrite IH.
Qed.

(** All callers and the lock holder together, with the writes submitted so far.  A caller
    enqueues its write at any time; the holder of the combine lock drains some non-empty
    prefix of at most [MAX_BATCH_OPS] writes (a write enqueued while it drains may or may
    not be taken) and commits it. *)
Inductive combiner_reach (s0 : RedbBackend) : list WriteOp -> Combiner -> Prop :=
| ReachInit : combiner_reach s0 [] (combiner_init s0)
| ReachEnqueue subs c op :
    combiner_reach s0 subs c ->
    combiner_reach s0 (subs ++ [op])
      (mkCombiner (cb_store c) (cb_queue c ++ [(length subs, op)]) (cb_replies c))
| ReachCombine subs c n fault :
    combiner_reach s0 subs c ->
    (0 < n <= MAX_BATCH_OPS)%nat -> (n <= length (cb_queue c))%nat ->
    combiner_reach s0 subs (combine_batch fault n c).

Definition fresh_store (s : RedbBackend) : Prop :=
  rb_durable s = rb_table s /\ rb_non_durable_run s = 0 /\ 1 <= rb_flush_every s <= u64_max.

Definition ok_replies (rs : list Reply) : list (nat * WriteOutcome) :=
  omap (fun r => match snd r with Ok out => Some (fst r, out) | Err _ => None end) rs.

(** What the combiner guarantees of submitted writes [subs]: the committed jobs [log] are the
    answered ones, in submission order, that did not fail; the store and the successful
    replies are those of the sequential run of [log]; a crash loses at most the last
    [non_durable_run < flush_every] of them, none of which is a [set] or [delete]. *)
Definition linearized (s0 : RedbBackend) (subs : list WriteOp) (c : Combiner)
    (log lost : list WriteJob) : Prop :=
  let jobs := imap pair subs in
  map fst (cb_replies c) ++ map fst (cb_queue c) = range (length subs) /\
  cb_queue c = drop (length (cb_replies c)) jobs /\
  sublist (log ++ lost) (take (length (cb_replies c)) jobs) /\
  rb_table (cb_store c) = snd (apply_ops (rb_table s0) (map snd (log ++ lost))) /\
  ok_replies (cb_replies c) =
    zip (map fst (log ++ lost)) (fst (apply_ops (rb_table s0) (map snd (log ++ lost)))) /\
  rb_durable (cb_store c) = snd (apply_ops (rb_table s0) (map snd log)) /\
  Z.of_nat (length lost) = rb_non_durable_run (cb_store c) /\
  rb_non_durable_run (cb_store c) < rb_flush_every s0 /\
  Forall (fun job => needs_durable_commit (snd job) = false) lost /\
  rb_flush_every (cb_store c) = rb_flush_every s0.

Lemma imap_pair_snoc {A} (l : list A) x : imap pair (l ++ [x]) = imap pair l ++ [(length l, x)].
Proof. rewrite imap_app. cbn. by rewrite Nat.add_0_r. Qed.

Lemma ok_replies_err batch :
  ok_replies (reply_batch batch (Err tt)) = [].
Proof. unfold ok_replies, reply_batch. induction batch; simpl; auto. Qed.

Lemma ok_replies_ok batch outs :
  length batch = length outs ->
  ok_replies (reply_batch batch (Ok outs)) = zip (map fst batch) outs.
Proof.
  unfold ok_replies, reply_batch. revert outs. induction batch; intros [|o outs] Hl;
    simplify_eq/=; [done|]. f_equal. apply IHbatch. lia.
Qed.

Lemma reply_batch_ids batch res :
  match res with Ok outs => length outs = length batch | Err _ => True end ->
  map fst (reply_batch batch res) = map fst batch.
Proof.
  destruct res as [outs|e]; cbn.
  - revert outs. induction batch; intros [|o outs] Hl; simplify_eq/=; [done|].
    f_equal. apply IHbatch. lia.
  - intros _. rewrite map_map. done.
Qed.

Lemma take_drop_take {A} (l : list A) k n : take k l ++ take n (drop k l) = take (k + n) l.
Proof. by rewrite take_take_drop. Qed.

Lemma imap_pair_fst {A} (l : list A) : map fst (imap pair l) = range (length l).
Proof.
  induction l as [|x l IH] using rev_ind; [done|].
  rewrite imap_pair_snoc, map_app, IH, length_app. unfold range. cbn [length map].
  by rewrite Nat.add_1_r, seq_S.
Qed.

Lemma fst_imap_pair_snd {A} (l : list A) : map snd (imap pair l) = l.
Proof.
  induction l as [|x l IH] using rev_ind; [done|].
  by rewrite imap_pair_snoc, map_app, IH.
Qed.

Lemma combine_batch_ids s0 subs c log lost n fault :
  linearized s0 subs c log lost -> (n <= length (cb_queue c))%nat ->
  let c' := combine_batch fault n c in
  map fst (cb_replies c') ++ map fst (cb_queue c') = range (length subs) /\
  cb_queue c' = drop (length (cb_replies c')) (imap pair subs) /\
  length (cb_replies c') = (length (cb_replies c) + n)%nat.
Proof.
  intros (Hids & Hq & _) Hn. unfold combine_batch.
  set (batch := take n (cb_queue c)).
  assert (Hbl : length batch = n) by (unfold batch; rewrite length_take; lia).
  pose proof (apply_batch_ok (cb_store c) (map snd batch)) as [Hok _].
  destruct (apply_batch fault (cb_store c) (map snd batch)) as [res store] eqn:Hb.
  assert (Hri : map fst (reply_batch batch res) = map fst batch).
  { apply reply_batch_ids. unfold apply_batch in Hb. destruct fault; [by simplify_eq|].
    pose proof (length_apply_ops (rb_table (cb_store c)) (map snd batch)) as Hl.
    destruct (apply_ops _ _) as [outs t]. destruct (record_successful_commit _ _ _).
    simplify_eq/=. by rewrite Hl, length_map. }
  pose proof (f_equal length Hri) as Hrl. rewrite !length_map, Hbl in Hrl.
  cbn [cb_replies cb_queue]. rewrite map_app, Hri.
  split; [|split].
  - rewrite <- Hids, <- app_assoc. f_equal. rewrite <- map_app. unfold batch.
    by rewrite take_drop.
  - rewrite length_app, Hrl, Hq, drop_drop. done.
  - rewrite length_app, Hrl. done.
Qed.

Lemma linearized_enqueue s0 subs c log lost op :
  linearized s0 subs c log lost ->
  linearized s0 (subs ++ [op])
    (mkCombiner (cb_store c) (cb_queue c ++ [(length subs, op)]) (cb_replies c)) log lost.
Proof.
  intros (Hids & Hq & Hsub & Hrest). unfold linearized. cbn [cb_replies cb_queue cb_store].
  assert (Hle : (length (cb_replies c) <= length subs)%nat).
  { pose proof (f_equal length Hids) as Hl. unfold range in Hl.
    rewrite length_app, !length_map, length_seq in Hl. lia. }
  split; [|split; [|split; [|exact Hrest]]].
  - rewrite map_app, app_assoc, Hids, length_app. cbn [map length]. unfold range.
    by rewrite Nat.add_1_r, seq_S.
  - rewrite imap_pair_snoc, drop_app_le, <- Hq by (rewrite length_imap; lia). done.
  - rewrite imap_pair_snoc, take_app_le by (rewrite length_imap; lia). done.
Qed.

Lemma durable_cadence s batch :
  is_u64 (rb_flush_every s) -> 0 <= rb_non_durable_run s < rb_flush_every s ->
  let d := durability_for_batch s batch in
  (d = Immediate /\ fst (record_successful_commit s batch d) = 0) \/
  (d = NoneDurable /\ existsb needs_durable_commit batch = false /\
   fst (record_successful_commit s batch d)
     = rb_non_durable_run s + Z.of_nat (length batch) /\
   rb_non_durable_run s + Z.of_nat (length batch) < rb_flush_every s).
Proof.
  intros [_ Hu] Hrun. unfold durability_for_batch, record_successful_commit.
  destruct (existsb needs_durable_commit batch); [by left|].
  destruct (Z.leb_spec (rb_flush_every s) (rb_non_durable_run s + Z.of_nat (length batch)));
    [by left|]. right. cbn [fst]. unfold wrapping_add, wrap64, u64_max in *.
  rewrite Z.mod_small by lia. repeat split; lia.
Qed.

Lemma linearized_combine s0 subs c log lost n fault :
  fresh_store s0 -> linearized s0 subs c log lost -> (n <= length (cb_queue c))%nat ->
  exists log' lost', linearized s0 subs (combine_batch fault n c) log' lost'.
Proof.
  intros (_ & _ & Hfl) Hlin Hn.
  destruct (combine_batch_ids s0 subs c log lost n fault Hlin Hn) as (Hids & Hq & Hlen).
  destruct Hlin as (Hids0 & Hq0 & Hsub & Ht & Hr & Hd & Hll & Hlt & Hhot & Hfe).
  assert (Hb : take n (cb_queue c) = take n (drop (length (cb_replies c)) (imap pair subs)))
    by by rewrite Hq0.
  unfold linearized. rewrite Hids, <- Hq, Hlen. revert Hids Hq Hlen.
  unfold combine_batch. set (batch := take n (cb_queue c)) in *.
  unfold apply_batch. destruct fault.
  { cbn [cb_store cb_queue cb_replies]. intros _ _ _. exists log, lost.
    split_and!; try done.
    - rewrite <- take_drop_take, <- Hb. by apply sublist_inserts_r.
    - unfold ok_replies in *. rewrite omap_app, Hr. fold (ok_replies (reply_batch batch (Err tt))).
      by rewrite ok_replies_err, app_nil_r. }
  destruct (apply_ops (rb_table (cb_store c)) (map snd batch)) as [outs table] eqn:Hap.
  pose proof (length_apply_ops (rb_table (cb_store c)) (map snd batch)) as Hol.
  rewrite Hap, length_map in Hol. cbn [fst] in Hol.
  pose proof (durable_cadence (cb_store c) (map snd batch)
    ltac:(unfold is_u64; lia) ltac:(lia)) as Hcad. cbv zeta in Hcad.
  destruct (record_successful_commit _ _ _) as [run forced].
  cbn [cb_store cb_queue cb_replies rb_table rb_durable rb_non_durable_run rb_flush_every fst] in *.
  intros _ _ _.
  assert (Htab : apply_ops (rb_table s0) (map snd ((log ++ lost) ++ batch)) =
    (fst (apply_ops (rb_table s0) (map snd (log ++ lost))) ++ outs, table)).
  { rewrite map_app, apply_ops_app. destruct (apply_ops (rb_table s0) (map snd (log ++ lost))).
    cbn [snd fst] in *. subst. by rewrite Hap. }
  assert (Hsub' : sublist ((log ++ lost) ++ batch)
      (take (length (cb_replies c) + n) (imap pair subs))).
  { rewrite <- take_drop_take, <- Hb. by apply sublist_app. }
  assert (Hoks : ok_replies (cb_replies c ++ reply_batch batch (Ok outs)) =
    zip (map fst ((log ++ lost) ++ batch))
      (fst (apply_ops (rb_table s0) (map snd ((log ++ lost) ++ batch))))).
  { unfold ok_replies in *. rewrite omap_app, Hr, Htab, (map_app fst (log ++ lost)). cbn [fst].
    rewrite zip_with_app by (rewrite length_apply_ops, !length_map; done).
    f_equal. by apply (ok_replies_ok batch outs). }
  destruct Hcad as [[-> ->] | (-> & Hhotb & -> & Hltb)].
  - exists ((log ++ lost) ++ batch), []. rewrite app_nil_r. rewrite Htab in *.
    split_and!; try done. cbn. lia.
  - exists log, (lost ++ batch). rewrite app_assoc. rewrite Htab in *.
    split_and!; try done.
    + rewrite length_app, length_map. lia.
    + lia.
    + apply Forall_app. split; [done|]. clear -Hhotb. induction batch; [constructor|].
      cbn in Hhotb. apply orb_false_iff in Hhotb as [? ?]. constructor; auto.
Qed.

Lemma combine_rounds_reach s0 subs rounds : forall faults c,
  combiner_reach s0 subs c -> combiner_reach s0 subs (combine_rounds rounds faults c).
Proof.
  induction rounds as [|rounds IH]; intros faults c Hc; cbn [combine_rounds]; [done|].
  destruct (take MAX_BATCH_OPS (cb_queue c)) as [|job batch] eqn:Hb; [done|].
  assert (Hstep : forall fault, combiner_reach s0 subs (combine_batch fault MAX_BATCH_OPS c)).
  { intros fault.
    assert (Hq : exists n, (0 < n <= MAX_BATCH_OPS)%nat /\ (n <= length (cb_queue c))%nat /\
      combine_batch fault MAX_BATCH_OPS c = combine_batch fault n c).
    { destruct (decide (MAX_BATCH_OPS <= length (cb_queue c))%nat).
      - exists MAX_BATCH_OPS. split; [unfold MAX_BATCH_OPS; lia|done].
      - exists (length (cb_queue c)). split; [destruct (cb_queue c); simpl in *; [done|lia]|].
        split; [done|]. unfold combine_batch. rewrite !take_ge, !drop_ge by lia. done. }
    destruct Hq as (n & Hn & Hn' & ->). by constructor. }
  destruct (default false (head faults)); [apply Hstep|]. apply IH, Hstep.
Qed.

Lemma linearized_reach s0 subs c :
  fresh_store s0 -> combiner_reach s0 subs c -> exists log lost, linearized s0 subs c log lost.
Proof.
  intros Hf Hreach. induction Hreach as [|subs c op _ (log & lost & IH)
    |subs c n fault _ (log & lost & IH) Hn Hq].
  - exists [], []. destruct Hf as (Hd & Hr & Hfl). unfold linearized. cbn.
    split_and!; try done. lia.
  - exists log, lost. by apply linearized_enqueue.
  - by eapply linearized_combine.
Qed.

(** ** Properties *)

(** C16: group commit is linearizable and loses boundedly little: in every reachable state of
    callers and combiner (any interleaving of submissions, drains and storage failures), the
    successful replies and the stored table are those of running the committed writes one
    by one in submission order; a failed batch leaves no trace; and a crash loses only
    fewer than [flush_every] trailing writes, never a [set] or [delete]. *)
Theorem group_commit_linearizable (s0 : RedbBackend) (subs : list WriteOp) (c : Combiner)
    (rounds : nat) (faults : list bool)
    (Hf : fresh_store s0) (Hreach : combiner_reach s0 subs c) :
  exists log lost, linearized s0 subs (combine_rounds rounds faults c) log lost.
Proof. apply linearized_reach; [done|]. by apply combine_rounds_reach. Qed.

Definition demo_store : RedbBackend := mkRedb ∅ ∅ DURABLE_FLUSH_EVERY 0 0.

Lemma group_commit_linearizable_witness :
  let subs := [OpIncrement (bs "k") 2; OpIncrement (bs "k") 3] in
  cb_replies (combine_rounds MAX_COMBINE_ROUNDS [] (mkCombiner demo_store (imap pair subs) []))
    = [(0%nat, Ok (OutCounter 2)); (1%nat, Ok (OutCounter 5))] /\
  exists log lost, linearized demo_store subs
    (combine_rounds MAX_COMBINE_ROUNDS [] (mkCombiner demo_store (imap pair subs) [])) log lost.
Proof.
  split; [by vm_compute|]. apply group_commit_linearizable.
  - repeat split; vm_compute; congruence.
  - apply (ReachEnqueue _ [OpIncrement (bs "k") 2] (mkCombiner demo_store
      [(0%nat, OpIncrement (bs "k") 2)] [])).
    apply (ReachEnqueue _ [] (combiner_init demo_store)). constructor.
Defined.

(** The calls of the host API on a backend, and their answers. *)
Inductive KvCall :=
| CallGet (k : bytes)
| CallSet (k v : bytes)
| CallDelete (k : bytes)
| CallIncrement (k : bytes) (d : Z)
| CallAcquire (k : bytes) (cost : Z) (spec : Bucket) (now : Z).

Inductive KvAnswer :=
| AnsGet (v : option bytes)
| AnsUnit
| AnsCounter (n : Z)
| AnsAcquire (a : Acquire).

Section calls.
Context {B : Type} `{KvBackendLaws B}.

Definition kv_call (s : B) (c : KvCall) : KvAnswer * B :=
  match c with
  | CallGet k => (AnsGet (kv_get s k), s)
  | CallSet k v => (AnsUnit, kv_set s k v)
  | CallDelete k => (AnsUnit, kv_delete s k)
  | CallIncrement k d => let '(n, s') := kv_increment s k d in (AnsCounter n, s')
  | CallAcquire k cost spec now =>
    let '(a, s') := kv_try_acquire s k cost spec now in (AnsAcquire a, s')
  end.

Fixpoint kv_calls (s : B) (cs : list KvCall) : list KvAnswer * B :=
  match cs with
  | [] => ([], s)
  | c :: rest =>
    let '(a, s') := kv_call s c in
    let '(out, final) := kv_calls s' rest in
    (a :: out, final)
  end.

(** The abstract store: the same calls on a plain map. *)
Definition map_call (m : gmap bytes bytes) (c : KvCall) : KvAnswer * gmap bytes bytes :=
  match c with
  | CallGet k => (AnsGet (m !! k), m)
  | CallSet k v => (AnsUnit, <[k := v]> m)
  | CallDelete k => (AnsUnit, delete k m)
  | CallIncrement k d => let '(n, m') := map_increment m k d in (AnsCounter n, m')
  | CallAcquire k cost spec now =>
    let '(a, m') := map_try_acquire m k cost spec now in (AnsAcquire a, m')
  end.

Lemma kv_call_refines s c :
  fst (kv_call s c) = fst (map_call (kv_view s) c) /\
  kv_view (snd (kv_call s c)) = snd (map_call (kv_view s) c).
Proof.
  destruct c as [k|k v|k|k d|k cost spec now]; cbn [kv_call map_call].
  - by rewrite kv_get_view.
  - by rewrite <- kv_set_view.
  - by rewrite <- kv_delete_view.
  - pose proof (kv_increment_view s k d) as Hi.
    destruct (kv_increment s k d), (map_increment (kv_view s) k d). by simplify_eq/=.
  - pose proof (kv_try_acquire_view s k cost spec now) as Hi.
    destruct (kv_try_acquire s k cost spec now), (map_try_acquire (kv_view s) k cost spec now).
    by simplify_eq/=.
Qed.

End calls.

(** The in-memory and the redb backends are interchangeable: from equal contents, any
    sequence of host-API calls gets the same answers and leaves equal contents. *)
Theorem backends_agree (m : MemoryBackend) (r : RedbBackend) (cs : list KvCall)
    (Hview : mb_map m = rb_table r) :
  fst (kv_calls m cs) = fst (kv_calls r cs) /\
  mb_map (snd (kv_calls m cs)) = rb_table (snd (kv_calls r cs)).
Proof.
  revert m r Hview. induction cs as [|c cs IH]; intros m r Hview; cbn [kv_calls]; [done|].
  destruct (kv_call_refines m c) as [Hm1 Hm2], (kv_call_refines r c) as [Hr1 Hr2].
  cbn [kv_view MemoryBackend_laws RedbBackend_laws] in *. rewrite Hview in Hm1, Hm2.
  destruct (kv_call m c) as [a1 m1], (kv_call r c) as [a2 r1]. cbn [fst snd] in *.
  destruct (IH m1 r1) as [IH1 IH2]; [congruence|].
  destruct (kv_calls m1 cs), (kv_calls r1 cs). cbn [fst snd] in *. split; congruence.
Qed.

Lemma backends_agree_witness :
  fst (kv_calls demo_store [CallIncrement (bs "c") 5; CallGet (bs "x")])
  = [AnsCounter 5; AnsGet None].
Proof.
  transitivity (fst (kv_calls (mkMemory ∅) [CallIncrement (bs "c") 5; CallGet (bs "x")]));
    [|by vm_compute].
  symmetry. apply backends_agree. reflexivity.
Defined.

(** Limiter and counter state survives storage: encoding then decoding is the identity on
    64-bit values, while a malformed stored bucket reads as empty, so that a positive cost is
    denied (fail closed), and a storage failure denies and changes nothing. *)
Theorem stored_state_fail_closed (st : Z * Z) (n : Z) (raw : bytes) (cost now : Z)
    (spec : Bucket) (s : RedbBackend) (key : bytes)
    (Hst : wf_state st) (Hn : is_i64 n) (Hraw : length raw <> 16%nat) (Hw : wf_bucket spec)
    (Hnow : is_u64 now) (Hcost : 0 < cost) :
  decode_bucket (encode_bucket st) = Some st /\ decode_i64 (encode_i64 n) = n /\
  allowed (snd (apply_bucket (bucket_input (Some raw) now) cost spec now)) = false /\
  allowed (fst (redb_try_acquire true s key cost spec now)) = false /\
  snd (redb_try_acquire true s key cost spec now) = s.
Proof.
  split; [by apply decode_encode_bucket|]. split; [by apply decode_encode_i64|].
  split; [|done]. unfold bucket_input, decode_bucket.
  destruct (Nat.eqb_spec (length raw) 16) as [|_]; [done|]. cbn [negb default from_option].
  pose proof (apply_bucket_conserves (Some (0, now)) cost spec now) as Hc.
  pose proof Hw as ([Hcap _] & _ & _).
  assert (Hz : fst (refill (Some (0, now)) spec now) <= 0).
  { destruct (no_refill spec) eqn:Hnr; [unfold refill; rewrite Hnr; cbn; lia|].
    rewrite refill_exact by (done || (unfold wf_state, is_u64, u64_max; cbn; split; [lia|done])).
    cbv zeta. cbn [fst]. rewrite Z.sub_diag, Z.div_0_l by (destruct (no_refill_false spec Hw Hnr); lia).
    lia. }
  unfold apply_bucket in *. destruct (refill (Some (0, now)) spec now) as [t l].
  cbn [fst] in Hz. destruct (Z.leb_spec cost t); [lia|done].
Qed.

Lemma stored_state_fail_closed_witness :
  decode_bucket (encode_bucket (7, 2 ^ 63)) = Some (7, 2 ^ 63) /\
  allowed (snd (apply_bucket (bucket_input (Some (bs "junk")) 5) 1 (mkBucket 10 1 1) 5)) = false.
Proof.
  pose proof (stored_state_fail_closed (7, 2 ^ 63) (-1) (bs "junk") 1 5 (mkBucket 10 1 1)
    demo_store (bs "k") ltac:(vm_compute; intuition congruence)
    ltac:(vm_compute; intuition congruence) ltac:(vm_compute; congruence)
    ltac:(vm_compute; intuition congruence) ltac:(vm_compute; intuition congruence)
    ltac:(lia)) as (H1 & _ & H2 & _).
  exact (conj H1 H2).
Defined.
