(* ===== verification/Ssrf.v ===== *)
(** * IP addresses and the outbound SSRF guard (host/src/outbound.rs)

    Addresses are octets (v4) or 16-bit segments (v6), as the code reads them.  The guard's
    octet and mask tests are proved equal to a table of CIDR blocks on the numeric address. *)

From S2P Require Import Prelude Bytes.

(** ** Addresses (std::net) *)

Inductive IpAddr :=
| V4 (o0 o1 o2 o3 : Z)
| V6 (s0 s1 s2 s3 s4 s5 s6 s7 : Z).

#[export] Instance IpAddr_eq_dec : EqDecision IpAddr.
Proof. solve_decision. Defined.

#[export] Instance IpAddr_countable : Countable IpAddr.
Proof.
  refine (inj_countable' (fun ip => match ip with
    | V4 a b c d => inl (a, b, c, d)
    | V6 a b c d e f g h => inr (a, b, c, d, e, f, g, h)
    end) (fun x => match x with
    | inl (a, b, c, d) => V4 a b c d
    | inr (a, b, c, d, e, f, g, h) => V6 a b c d e f g h
    end) _).
  by intros [].
Defined.

Definition is_u8 (x : Z) : Prop := 0 <= x < 256.
Definition is_u16 (x : Z) : Prop := 0 <= x < 65536.

Definition wf_ip (ip : IpAddr) : Prop :=
  match ip with
  | V4 a b c d => is_u8 a /\ is_u8 b /\ is_u8 c /\ is_u8 d
  | V6 a b c d e f g h =>
    is_u16 a /\ is_u16 b /\ is_u16 c /\ is_u16 d /\ is_u16 e /\ is_u16 f /\ is_u16 g /\ is_u16 h
  end.

(** [Ipv6Addr::to_ipv4_mapped]: [::ffff:a.b.c.d]. *)
Definition to_ipv4_mapped (ip : IpAddr) : option IpAddr :=
  match ip with
  | V6 a b c d e f g h =>
    if forallb (Z.eqb 0) [a; b; c; d; e] && (f =? 65535)
    then Some (V4 (g / 256) (g mod 256) (h / 256) (h mod 256)) else None
  | V4 _ _ _ _ => None
  end.

(** [IpAddr::to_canonical]. *)
Definition to_canonical (ip : IpAddr) : IpAddr := default ip (to_ipv4_mapped ip).

Definition v6_is_loopback (ip : IpAddr) : bool := bool_decide (ip = V6 0 0 0 0 0 0 0 1).
Definition v6_is_unspecified (ip : IpAddr) : bool := bool_decide (ip = V6 0 0 0 0 0 0 0 0).

(** ** The guard *)

Inductive AddrVerdict := Allowed | BlockedReserved | BlockedPrivate.
#[export] Instance AddrVerdict_eq_dec : EqDecision AddrVerdict.
Proof. solve_decision. Defined.

Definition canonicalize (ip : IpAddr) : IpAddr :=
  match ip with
  | V6 s0 s1 s2 s3 s4 s5 s6 s7 =>
    match to_ipv4_mapped ip with
    | Some v4 => v4
    | None =>
      if forallb (Z.eqb 0) [s0; s1; s2; s3; s4; s5]
         && negb (v6_is_loopback ip) && negb (v6_is_unspecified ip)
      then V4 (s6 / 256) (s6 mod 256) (s7 / 256) (s7 mod 256)
      else ip
    end
  | v4 => v4
  end.

Definition v4_always_blocked (a b c d : Z) : bool :=
  (a =? 127)
  || ((a =? 169) && (b =? 254))
  || ((a =? 255) && (b =? 255) && (c =? 255) && (d =? 255))
  || ((224 <=? a) && (a <=? 239))
  || ((a =? 192) && (b =? 0) && (c =? 2))
  || ((a =? 198) && (b =? 51) && (c =? 100))
  || ((a =? 203) && (b =? 0) && (c =? 113))
  || (a =? 0)
  || ((a =? 100) && (Z.land b 192 =? 64))
  || ((a =? 192) && (b =? 0) && (c =? 0))
  || ((a =? 198) && (Z.land b 254 =? 18))
  || (Z.land a 240 =? 240).

Definition v6_always_blocked (ip : IpAddr) : bool :=
  match ip with
  | V6 s0 s1 s2 s3 _ _ _ _ =>
    v6_is_loopback ip
    || v6_is_unspecified ip
    || (Z.land s0 65280 =? 65280)
    || (Z.land s0 65472 =? 65152)
    || (Z.land s0 65472 =? 65216)
    || ((s0 =? 8193) && (s1 =? 3512))
    || ((s0 =? 8193) && (s1 =? 0))
    || ((s0 =? 100) && (s1 =? 65435))
    || ((s0 =? 256) && forallb (Z.eqb 0) [s1; s2; s3])
  | V4 _ _ _ _ => false
  end.

Definition is_always_blocked (ip : IpAddr) : bool :=
  match ip with
  | V4 a b c d => v4_always_blocked a b c d
  | V6 _ _ _ _ _ _ _ _ => v6_always_blocked ip
  end.

Definition is_private (ip : IpAddr) : bool :=
  match ip with
  | V4 a b _ _ =>
    (a =? 10) || ((a =? 172) && (16 <=? b) && (b <=? 31)) || ((a =? 192) && (b =? 168))
  | V6 s0 _ _ _ _ _ _ _ => Z.land s0 65024 =? 64512
  end.

Section guard.
(** The [ipnet] crate: a network and its membership test. *)
Context {IpNet : Type} (contains : IpNet -> IpAddr -> bool).

Definition classify (ip : IpAddr) (allow_private : list IpNet) : AddrVerdict :=
  let canonical := canonicalize ip in
  if is_always_blocked canonical then BlockedReserved
  else if is_private canonical then
    if existsb (fun net => contains net canonical) allow_private then Allowed
    else BlockedPrivate
  else Allowed.
End guard.

(** ** The HTTP allowlist *)

Inductive Scheme := Http | Https.
#[export] Instance Scheme_eq_dec : EqDecision Scheme.
Proof. solve_decision. Defined.

Record AllowEntry := mkAllow { ae_scheme : Scheme; ae_host : bytes; ae_port : Z }.

Definition allows (allow : list AllowEntry) (scheme : Scheme) (host : bytes) (port : Z) : bool :=
  existsb (fun e => bool_decide (ae_scheme e = scheme) && (ae_port e =? port)
                    && eq_ignore_ascii_case (ae_host e) host) allow.

Record TcpAllowEntry := mkTcpAllow { te_host : bytes; te_port : Z }.

Definition allows_name (allow : list TcpAllowEntry) (host : bytes) : bool :=
  existsb (fun e => eq_ignore_ascii_case (te_host e) host) allow.

(** ** CIDR blocks on numeric addresses *)

Definition v4_num (a b c d : Z) : Z := ((a * 256 + b) * 256 + c) * 256 + d.
Definition v6_num (s : list Z) : Z := fold_left (fun acc x => acc * 65536 + x) s 0.

(** [addr] lies in [base/len] for addresses of [width] bits. *)
Definition in_cidr (width : Z) (addr : Z) (block : Z * Z) : bool :=
  let '(base, len) := block in addr / 2 ^ (width - len) =? base / 2 ^ (width - len).

Definition reserved_v4 : list (Z * Z) :=
  [ (v4_num 127 0 0 0, 8); (v4_num 169 254 0 0, 16); (v4_num 255 255 255 255, 32);
    (v4_num 224 0 0 0, 4); (v4_num 192 0 2 0, 24); (v4_num 198 51 100 0, 24);
    (v4_num 203 0 113 0, 24); (v4_num 0 0 0 0, 8); (v4_num 100 64 0 0, 10);
    (v4_num 192 0 0 0, 24); (v4_num 198 18 0 0, 15); (v4_num 240 0 0 0, 4) ].

Definition private_v4 : list (Z * Z) :=
  [ (v4_num 10 0 0 0, 8); (v4_num 172 16 0 0, 12); (v4_num 192 168 0 0, 16) ].

Definition reserved_v6 : list (Z * Z) :=
  [ (1, 128); (0, 128); (v6_num [65280; 0; 0; 0; 0; 0; 0; 0], 8);
    (v6_num [65152; 0; 0; 0; 0; 0; 0; 0], 10); (v6_num [65216; 0; 0; 0; 0; 0; 0; 0], 10);
    (v6_num [8193; 3512; 0; 0; 0; 0; 0; 0], 32); (v6_num [8193; 0; 0; 0; 0; 0; 0; 0], 32);
    (v6_num [100; 65435; 0; 0; 0; 0; 0; 0], 32); (v6_num [256; 0; 0; 0; 0; 0; 0; 0], 64) ].

Definition private_v6 : list (Z * Z) := [ (v6_num [64512; 0; 0; 0; 0; 0; 0; 0], 7) ].

(** The blocks the comments beside the tests name.  They differ from the tests in NAT64 only: the comment
    says [64:ff9b::/96], the test reads two segments, which is [64:ff9b::/32]. *)
Definition documented_v6 : list (Z * Z) :=
  [ (1, 128); (0, 128); (v6_num [65280; 0; 0; 0; 0; 0; 0; 0], 8);
    (v6_num [65152; 0; 0; 0; 0; 0; 0; 0], 10); (v6_num [65216; 0; 0; 0; 0; 0; 0; 0], 10);
    (v6_num [8193; 3512; 0; 0; 0; 0; 0; 0], 32); (v6_num [8193; 0; 0; 0; 0; 0; 0; 0], 32);
    (v6_num [100; 65435; 0; 0; 0; 0; 0; 0], 96); (v6_num [256; 0; 0; 0; 0; 0; 0; 0], 64) ].

(** Membership of an address in a table for its family. *)
Definition in_blocks (v4 v6 : list (Z * Z)) (ip : IpAddr) : bool :=
  match ip with
  | V4 a b c d => existsb (in_cidr 32 (v4_num a b c d)) v4
  | V6 s0 s1 s2 s3 s4 s5 s6 s7 =>
    existsb (in_cidr 128 (v6_num [s0; s1; s2; s3; s4; s5; s6; s7])) v6
  end.

(** ** The octet tests are the CIDR tables *)

Lemma land_192 b : is_u8 b -> (Z.land b 192 =? 64) = (b / 64 =? 1).
Proof.
  intros Hb. apply Bool.eqb_prop.
  by apply (forallb_below (fun b => Bool.eqb (Z.land b 192 =? 64) (b / 64 =? 1)) 256).
Qed.

Lemma land_254 b : is_u8 b -> (Z.land b 254 =? 18) = (b / 2 =? 9).
Proof.
  intros Hb. apply Bool.eqb_prop.
  by apply (forallb_below (fun b => Bool.eqb (Z.land b 254 =? 18) (b / 2 =? 9)) 256).
Qed.

Lemma land_240 a : is_u8 a -> (Z.land a 240 =? 240) = (a / 16 =? 15).
Proof.
  intros Hb. apply Bool.eqb_prop.
  by apply (forallb_below (fun b => Bool.eqb (Z.land b 240 =? 240) (b / 16 =? 15)) 256).
Qed.

(** Masking a 16-bit segment with its top [k] bits. *)
Lemma land_top k s :
  0 <= k <= 16 -> is_u16 s ->
  Z.land s (65536 - 2 ^ (16 - k)) = s / 2 ^ (16 - k) * 2 ^ (16 - k).
Proof.
  intros Hk Hs. set (m := 16 - k). assert (Hm : 0 <= m <= 16) by lia.
  replace (65536 - 2 ^ m) with (Z.shiftl (Z.ones (16 - m)) m).
  2:{ rewrite Z.shiftl_mul_pow2, Z.ones_equiv by lia. rewrite <- Z.sub_1_r.
      rewrite Z.mul_sub_distr_r, <- Z.pow_add_r by lia.
      replace (16 - m + m) with 16 by lia. lia. }
  rewrite <- Z.shiftr_div_pow2, <- Z.shiftl_mul_pow2 by lia.
  apply Z.bits_inj'. intros n Hn.
  rewrite Z.land_spec, !Z.shiftl_spec by done.
  destruct (Z.le_gt_cases m n).
  - rewrite Z.shiftr_spec by lia. replace (n - m + m) with n by lia.
    destruct (Z.le_gt_cases 16 n) as [Hbig|].
    + rewrite (Z.bits_above_log2 s n); [done|unfold is_u16 in Hs; lia|].
      destruct (decide (s = 0)) as [->|]; [simpl; lia|].
      apply Z.log2_lt_pow2; [unfold is_u16 in Hs; lia|].
      apply Z.lt_le_trans with (2 ^ 16); [unfold is_u16 in Hs; lia|].
      apply Z.pow_le_mono_r; lia.
    + rewrite Z.ones_spec_low by lia. by rewrite andb_true_r.
  - rewrite (Z.testbit_neg_r (Z.ones _)), (Z.testbit_neg_r (Z.shiftr _ _)) by lia.
    by rewrite andb_false_r.
Qed.

Ltac split_orb := repeat match goal with |- (_ || _)%bool = (_ || _)%bool => f_equal end.

Ltac reflect_bool :=
  apply Bool.eq_iff_eq_true; rewrite ?orb_true_iff, ?andb_true_iff, ?Z.eqb_eq, ?Z.leb_le;
  Z.to_euclidean_division_equations; lia.

Lemma v4_num_div a b c d :
  is_u8 b -> is_u8 c -> is_u8 d ->
  v4_num a b c d / 2 ^ (32 - 8) = a /\ v4_num a b c d / 2 ^ (32 - 16) = a * 256 + b /\
  v4_num a b c d / 2 ^ (32 - 24) = (a * 256 + b) * 256 + c /\
  v4_num a b c d / 2 ^ (32 - 32) = v4_num a b c d /\
  v4_num a b c d / 2 ^ (32 - 4) = a / 16 /\ v4_num a b c d / 2 ^ (32 - 10) = (a * 256 + b) / 64 /\
  v4_num a b c d / 2 ^ (32 - 15) = (a * 256 + b) / 2 /\
  v4_num a b c d / 2 ^ (32 - 12) = (a * 256 + b) / 16.
Proof.
  unfold is_u8, v4_num. intros Hb Hc Hd. cbn -[Z.div Z.mul Z.add].
  repeat split; Z.to_euclidean_division_equations; lia.
Qed.

Lemma v4_blocked_cidr a b c d :
  wf_ip (V4 a b c d) ->
  v4_always_blocked a b c d = existsb (in_cidr 32 (v4_num a b c d)) reserved_v4.
Proof.
  intros (Ha & Hb & Hc & Hd). unfold v4_always_blocked.
  rewrite land_192, land_254, land_240 by done. cbn [existsb reserved_v4].
  unfold in_cidr. destruct (v4_num_div a b c d Hb Hc Hd)
    as (-> & -> & -> & -> & -> & -> & -> & _).
  rewrite <- !orb_assoc, orb_false_r. unfold v4_num, is_u8 in *.
  split_orb; cbn -[Z.div Z.mul Z.add Z.eqb]; reflect_bool.
Qed.

Lemma v4_private_cidr a b c d :
  wf_ip (V4 a b c d) ->
  is_private (V4 a b c d) = existsb (in_cidr 32 (v4_num a b c d)) private_v4.
Proof.
  intros (Ha & Hb & Hc & Hd). cbn [existsb private_v4 is_private].
  unfold in_cidr. destruct (v4_num_div a b c d Hb Hc Hd)
    as (-> & -> & _ & _ & _ & _ & _ & ->).
  rewrite <- !orb_assoc, orb_false_r. unfold v4_num, is_u8 in *.
  split_orb; cbn -[Z.div Z.mul Z.add Z.eqb]; reflect_bool.
Qed.

Lemma div_split hi lo p q :
  0 <= q <= p -> 0 <= lo < 2 ^ q -> (hi * 2 ^ q + lo) / 2 ^ p = hi / 2 ^ (p - q).
Proof.
  intros Hq Hlo. pose proof (Z.pow_pos_nonneg 2 q ltac:(lia) ltac:(lia)).
  pose proof (Z.pow_pos_nonneg 2 (p - q) ltac:(lia) ltac:(lia)).
  replace (2 ^ p) with (2 ^ q * 2 ^ (p - q)).
  2:{ rewrite <- Z.pow_add_r by lia. f_equal. lia. }
  rewrite <- Z.div_div by lia. rewrite Z.add_comm, Z.div_add by lia.
  rewrite (Z.div_small lo) by lia. done.
Qed.

Lemma v6_num_split s0 s1 s2 s3 s4 s5 s6 s7 :
  wf_ip (V6 s0 s1 s2 s3 s4 s5 s6 s7) ->
  exists r0 r1 r3, 0 <= r0 < 2 ^ 112 /\ 0 <= r1 < 2 ^ 96 /\ 0 <= r3 < 2 ^ 64 /\
  v6_num [s0; s1; s2; s3; s4; s5; s6; s7] = s0 * 2 ^ 112 + r0 /\
  v6_num [s0; s1; s2; s3; s4; s5; s6; s7] = (s0 * 65536 + s1) * 2 ^ 96 + r1 /\
  v6_num [s0; s1; s2; s3; s4; s5; s6; s7]
    = (((s0 * 65536 + s1) * 65536 + s2) * 65536 + s3) * 2 ^ 64 + r3.
Proof.
  unfold wf_ip, is_u16. intros (? & ? & ? & ? & ? & ? & ? & ?).
  exists (((((((s1 * 65536 + s2) * 65536 + s3) * 65536) + s4) * 65536 + s5) * 65536 + s6)
    * 65536 + s7).
  exists ((((((s2 * 65536 + s3) * 65536) + s4) * 65536 + s5) * 65536 + s6) * 65536 + s7).
  exists (((s4 * 65536 + s5) * 65536 + s6) * 65536 + s7).
  unfold v6_num. cbn [fold_left]. split_and!; lia.
Qed.

Lemma v6_num_div s0 s1 s2 s3 s4 s5 s6 s7 :
  wf_ip (V6 s0 s1 s2 s3 s4 s5 s6 s7) ->
  let n := v6_num [s0; s1; s2; s3; s4; s5; s6; s7] in
  n / 2 ^ (128 - 8) = s0 / 256 /\ n / 2 ^ (128 - 10) = s0 / 64 /\
  n / 2 ^ (128 - 32) = s0 * 65536 + s1 /\
  n / 2 ^ (128 - 64) = ((s0 * 65536 + s1) * 65536 + s2) * 65536 + s3 /\
  n / 2 ^ (128 - 7) = s0 / 512.
Proof.
  intros Hwf n. destruct (v6_num_split _ _ _ _ _ _ _ _ Hwf)
    as (r0 & r1 & r3 & H0 & H1 & H3 & E0 & E1 & E3). fold n in E0, E1, E3.
  split_and!.
  - rewrite E0, div_split by lia. done.
  - rewrite E0, div_split by lia. done.
  - rewrite E1, div_split by lia. apply Z.div_1_r.
  - rewrite E3, div_split by lia. apply Z.div_1_r.
  - rewrite E0, div_split by lia. done.
Qed.

Lemma v6_eq_num s0 s1 s2 s3 s4 s5 s6 s7 k :
  wf_ip (V6 s0 s1 s2 s3 s4 s5 s6 s7) -> is_u16 k ->
  bool_decide (V6 s0 s1 s2 s3 s4 s5 s6 s7 = V6 0 0 0 0 0 0 0 k)
  = (v6_num [s0; s1; s2; s3; s4; s5; s6; s7] / 2 ^ (128 - 128) =? k / 2 ^ (128 - 128)).
Proof.
  unfold wf_ip, is_u16. intros (? & ? & ? & ? & ? & ? & ? & ?) Hk.
  apply Bool.eq_iff_eq_true. rewrite bool_decide_eq_true, Z.eqb_eq.
  rewrite !Z.div_1_r. unfold v6_num. cbn [fold_left]. split.
  - intros [= -> -> -> -> -> -> -> ->]. lia.
  - intros E. f_equal; lia.
Qed.

Lemma v6_blocked_cidr s0 s1 s2 s3 s4 s5 s6 s7 :
  wf_ip (V6 s0 s1 s2 s3 s4 s5 s6 s7) ->
  v6_always_blocked (V6 s0 s1 s2 s3 s4 s5 s6 s7)
  = existsb (in_cidr 128 (v6_num [s0; s1; s2; s3; s4; s5; s6; s7])) reserved_v6.
Proof.
  intros Hwf. pose proof Hwf as (H0 & H1 & H2 & H3 & _). unfold v6_always_blocked.
  unfold v6_is_loopback, v6_is_unspecified.
  rewrite !(v6_eq_num _ _ _ _ _ _ _ _ _ Hwf) by (unfold is_u16; lia).
  pose proof (land_top 8 s0 ltac:(lia) H0) as L8. pose proof (land_top 10 s0 ltac:(lia) H0) as L10.
  change (65536 - 2 ^ (16 - 8)) with 65280 in L8. change (65536 - 2 ^ (16 - 10)) with 65472 in L10.
  change (2 ^ (16 - 8)) with 256 in L8. change (2 ^ (16 - 10)) with 64 in L10.
  rewrite L8, L10. cbn [existsb reserved_v6]. unfold in_cidr.
  destruct (v6_num_div _ _ _ _ _ _ _ _ Hwf) as (-> & -> & -> & -> & _).
  rewrite <- !orb_assoc, orb_false_r. unfold is_u16 in *.
  split_orb; cbn -[Z.div Z.mul Z.add Z.eqb];
    rewrite ?(Z.eqb_sym 0); reflect_bool.
Qed.

Lemma v6_private_cidr s0 s1 s2 s3 s4 s5 s6 s7 :
  wf_ip (V6 s0 s1 s2 s3 s4 s5 s6 s7) ->
  is_private (V6 s0 s1 s2 s3 s4 s5 s6 s7)
  = existsb (in_cidr 128 (v6_num [s0; s1; s2; s3; s4; s5; s6; s7])) private_v6.
Proof.
  intros Hwf. pose proof Hwf as (H0 & _). unfold is_private.
  pose proof (land_top 7 s0 ltac:(lia) H0) as L7.
  change (65536 - 2 ^ (16 - 7)) with 65024 in L7. change (2 ^ (16 - 7)) with 512 in L7.
  rewrite L7. cbn [existsb private_v6]. unfold in_cidr.
  destruct (v6_num_div _ _ _ _ _ _ _ _ Hwf) as (_ & _ & _ & _ & ->).
  rewrite orb_false_r. cbn -[Z.div Z.mul Z.add Z.eqb]. unfold is_u16 in *. reflect_bool.
Qed.

Lemma octets_wf s : is_u16 s -> is_u8 (s / 256) /\ is_u8 (s mod 256).
Proof. unfold is_u16, is_u8. intros H. Z.to_euclidean_division_equations. lia. Qed.

Lemma wf_canonicalize ip : wf_ip ip -> wf_ip (canonicalize ip).
Proof.
  destruct ip as [a b c d|s0 s1 s2 s3 s4 s5 s6 s7]; [done|].
  intros Hwf. pose proof Hwf as (_ & _ & _ & _ & _ & _ & H6 & H7).
  destruct (octets_wf s6 H6), (octets_wf s7 H7).
  unfold canonicalize, to_ipv4_mapped.
  destruct (forallb _ _ && (s5 =? 65535)); [by cbn -[Z.div Z.modulo]|].
  destruct (forallb _ _ && _ && _); [by cbn -[Z.div Z.modulo]|done].
Qed.

Lemma blocked_in_blocks ip :
  wf_ip ip -> is_always_blocked ip = in_blocks reserved_v4 reserved_v6 ip.
Proof. destruct ip; [apply v4_blocked_cidr|apply v6_blocked_cidr]. Qed.

Lemma private_in_blocks ip : wf_ip ip -> is_private ip = in_blocks private_v4 private_v6 ip.
Proof. destruct ip; [apply v4_private_cidr|apply v6_private_cidr]. Qed.

Lemma canonicalize_mapped a b c d :
  wf_ip (V4 a b c d) ->
  canonicalize (V6 0 0 0 0 0 65535 (a * 256 + b) (c * 256 + d)) = V4 a b c d.
Proof.
  unfold wf_ip, is_u8. intros (? & ? & ? & ?). cbn -[Z.div Z.modulo Z.mul Z.add].
  f_equal; Z.to_euclidean_division_equations; lia.
Qed.

(** What the NAT64 test covers beyond its comment. *)
Definition nat64_excess (ip : IpAddr) : bool :=
  match ip with
  | V4 _ _ _ _ => false
  | V6 s0 s1 s2 s3 s4 s5 _ _ => (s0 =? 100) && (s1 =? 65435) && negb (forallb (Z.eqb 0) [s2; s3; s4; s5])
  end.

Lemma nat64_block s0 s1 s2 s3 s4 s5 s6 s7 : wf_ip (V6 s0 s1 s2 s3 s4 s5 s6 s7) ->
  in_cidr 128 (v6_num [s0; s1; s2; s3; s4; s5; s6; s7]) (v6_num [100; 65435; 0; 0; 0; 0; 0; 0], 32) =
  in_cidr 128 (v6_num [s0; s1; s2; s3; s4; s5; s6; s7]) (v6_num [100; 65435; 0; 0; 0; 0; 0; 0], 96)
  || nat64_excess (V6 s0 s1 s2 s3 s4 s5 s6 s7).
Proof.
  unfold wf_ip, is_u16. intros (H0 & H1 & H2 & H3 & H4 & H5 & H6 & H7). unfold in_cidr, nat64_excess, v6_num.
  cbn -[Z.div Z.mul Z.add Z.eqb Z.pow]. apply eq_true_iff_eq.
  rewrite orb_true_iff, !andb_true_iff, negb_true_iff, !Z.eqb_eq, !andb_false_iff, !Z.eqb_neq.
  match goal with |- context [?n / 2 ^ (128 - 32) = _ / 2 ^ (128 - 32)] => set (addr := n) end.
  set (high := s0 * 65536 + s1). set (mid := ((s2 * 65536 + s3) * 65536 + s4) * 65536 + s5).
  assert (Ehigh : addr / 2 ^ (128 - 32) = high).
  { symmetry. apply (Z.div_unique_pos _ _ _ (mid * 2 ^ 32 + (s6 * 65536 + s7))); subst addr high mid; lia. }
  assert (Emid : addr / 2 ^ (128 - 96) = high * 2 ^ 64 + mid).
  { symmetry. apply (Z.div_unique_pos _ _ _ (s6 * 65536 + s7)); subst addr high mid; lia. }
  rewrite Ehigh, Emid. subst high mid. clear addr Ehigh Emid.
  match goal with |- _ = ?x <-> _ => change x with 6619035 end.
  match goal with |- _ <-> _ = ?x \/ _ => change x with (6619035 * 2 ^ 64) end. lia.
Qed.

Lemma reserved_documented ip : wf_ip ip ->
  in_blocks reserved_v4 reserved_v6 ip = in_blocks reserved_v4 documented_v6 ip || nat64_excess ip.
Proof.
  destruct ip as [a b c d|s0 s1 s2 s3 s4 s5 s6 s7]; intros Hwf; [cbn [in_blocks nat64_excess]; by rewrite orb_false_r|].
  unfold in_blocks, reserved_v6, documented_v6. cbn [existsb]. rewrite (nat64_block _ _ _ _ _ _ _ _ Hwf).
  set (n := v6_num [s0; s1; s2; s3; s4; s5; s6; s7]). destruct (nat64_excess _); by rewrite ?orb_true_r, ?orb_false_r.
Qed.


(** Outside the documented block, and refused. *)
Example nat64_beyond_comment :
  let ip := V6 100 65435 1 0 0 0 0 1 in
  in_blocks reserved_v4 documented_v6 ip = false /\ classify (fun (_ : unit) _ => true) ip [tt] = BlockedReserved.
Proof. split; reflexivity. Qed.

