(* ===== verification/RateLimit.v ===== *)
(** * Native per-route rate limiting (control/src/ratelimit.rs)

    One shared bucket per route, or a fixed table of per-client buckets indexed by a seeded
    hash of the peer's key bytes.  The hasher ([RandomState]) is a parameter. *)

From S2P Require Import Prelude Bytes TokenBucket Ssrf.

(** ** Definitions *)

Definition IP_SLOTS : Z := 2 ^ 16.

Inductive RateLimitKeyKind := KeyRoute | KeyClientIp.

Record RouteRateLimit := mkRouteRateLimit {
  rl_rate : Z;
  rl_burst : Z;
  rl_key : RateLimitKeyKind;
}.

Inductive RateLimitDecision := RlAllow | RlLimit (retry_after_ms : Z).

Inductive LimiterState :=
| LimRoute (cell : Z * Z)
| LimClientIp (slots : list (Z * Z)).

Record NativeRateLimit := mkLimiter { nl_spec : Bucket; nl_state : LimiterState }.

Definition rl_new (cfg : RouteRateLimit) : NativeRateLimit :=
  let spec := mkBucket (rl_burst cfg) (rl_rate cfg) 1000 in
  let state := match rl_key cfg with
               | KeyRoute => LimRoute (0, 0)
               | KeyClientIp => LimClientIp (replicate (Z.to_nat IP_SLOTS) (0, 0))
               end in
  mkLimiter spec state.

(** The key a peer hashes on: the four v4 octets, or the top eight v6 octets. *)
Definition ip_key_bytes (peer : IpAddr) : list Z :=
  let peer := match to_ipv4_mapped peer with Some v4 => v4 | None => peer end in
  match peer with
  | V4 a b c d => [a; b; c; d; 0; 0; 0; 0]
  | V6 s0 s1 s2 s3 _ _ _ _ =>
    [s0 / 256; s0 mod 256; s1 / 256; s1 mod 256; s2 / 256; s2 mod 256; s3 / 256; s3 mod 256]
  end.

Section hasher.
(** The seeded hash of one limiter instance; its result is a [u64]. *)
Context (hash : list Z -> Z).

Definition slot_for_ip (peer : IpAddr) (len : Z) : nat :=
  Z.to_nat (Z.land (wrap64 (hash (ip_key_bytes peer))) (len - 1)).

Definition decide_request (spec : Bucket) (cell : Z * Z) (now_ms : Z)
    : RateLimitDecision * (Z * Z) :=
  let '(next, acq) := apply_bucket (Some cell) 1 spec now_ms in
  (if allowed acq then RlAllow else RlLimit (retry_after_ms acq), next).

(** [check_at]; indexing the table out of range would panic. *)
Definition check_at (s : NativeRateLimit) (peer : IpAddr) (now_ms : Z)
    : outcome RateLimitDecision * NativeRateLimit :=
  match nl_state s with
  | LimRoute cell =>
    let '(d, next) := decide_request (nl_spec s) cell now_ms in
    (Done d, mkLimiter (nl_spec s) (LimRoute next))
  | LimClientIp slots =>
    let slot := slot_for_ip peer (Z.of_nat (length slots)) in
    match slots !! slot with
    | None => (Panic, s)
    | Some cell =>
      let '(d, next) := decide_request (nl_spec s) cell now_ms in
      (Done d, mkLimiter (nl_spec s) (LimClientIp (<[slot := next]> slots)))
    end
  end.

(** [RouteInfo::check_rate_limit]: a route without a limiter allows. *)
Definition check_rate_limit (s : option NativeRateLimit) (peer : IpAddr) (now_ms : Z)
    : outcome RateLimitDecision * option NativeRateLimit :=
  match s with
  | None => (Done RlAllow, None)
  | Some s => let '(d, s') := check_at s peer now_ms in (d, Some s')
  end.

Fixpoint run_checks (s : NativeRateLimit) (reqs : list (IpAddr * Z))
    : list (outcome RateLimitDecision) * NativeRateLimit :=
  match reqs with
  | [] => ([], s)
  | (peer, now) :: rest =>
    let '(d, s') := check_at s peer now in
    let '(ds, final) := run_checks s' rest in
    (d :: ds, final)
  end.

(** ** The cells of a limiter *)

Definition cells (s : NativeRateLimit) : list (Z * Z) :=
  match nl_state s with LimRoute cell => [cell] | LimClientIp slots => slots end.

Definition slot_of (s : NativeRateLimit) (peer : IpAddr) : nat :=
  match nl_state s with
  | LimRoute _ => O
  | LimClientIp slots => slot_for_ip peer (Z.of_nat (length slots))
  end.

(** A limiter as [rl_new] builds it: one cell, or a power-of-two table; valid cells. *)
Definition wf_limiter (s : NativeRateLimit) : Prop :=
  wf_bucket (nl_spec s) /\ Forall wf_state (cells s) /\
  match nl_state s with
  | LimRoute _ => True
  | LimClientIp slots => exists k, 0 <= k /\ Z.of_nat (length slots) = 2 ^ k
  end.

Lemma slot_for_ip_bound peer k :
  0 <= k -> (slot_for_ip peer (2 ^ k) < Z.to_nat (2 ^ k))%nat.
Proof.
  intros Hk. unfold slot_for_ip. rewrite Z.sub_1_r, <- Z.ones_equiv, Z.land_ones by done.
  pose proof (Z.pow_pos_nonneg 2 k ltac:(lia) Hk).
  pose proof (Z.mod_pos_bound (wrap64 (hash (ip_key_bytes peer))) (2 ^ k) ltac:(lia)). lia.
Qed.

Lemma slot_of_lookup s peer : wf_limiter s -> is_Some (cells s !! slot_of s peer).
Proof.
  intros (_ & _ & Hs). unfold cells, slot_of. destruct (nl_state s) as [cell|slots].
  { by eexists. }
  destruct Hs as (k & Hk & Hl). apply lookup_lt_is_Some. rewrite Hl.
  pose proof (slot_for_ip_bound peer k Hk). lia.
Qed.

(** A check reads and writes exactly the peer's cell. *)
Lemma check_at_cells s peer now cell :
  cells s !! slot_of s peer = Some cell ->
  let '(d, next) := decide_request (nl_spec s) cell now in
  fst (check_at s peer now) = Done d /\
  cells (snd (check_at s peer now)) = <[slot_of s peer := next]> (cells s) /\
  nl_spec (snd (check_at s peer now)) = nl_spec s /\
  (forall p, slot_of (snd (check_at s peer now)) p = slot_of s p).
Proof.
  unfold cells, slot_of, check_at. destruct s as [spec [c|slots]]; cbn [nl_spec nl_state].
  - intros [= ->]. by destruct (decide_request spec cell now).
  - intros Hc. rewrite Hc. destruct (decide_request spec cell now) as [d next].
    cbn. split_and!; try done. intros p. by rewrite length_insert.
Qed.

Lemma wf_decide_request spec cell now :
  wf_bucket spec -> wf_state cell -> is_u64 now ->
  wf_state (snd (decide_request spec cell now)).
Proof.
  intros Hw Hc Hn. unfold decide_request.
  pose proof (wf_apply_bucket (Some cell) 1 spec now Hw Hc Hn ltac:(lia)) as [H _].
  by destruct (apply_bucket (Some cell) 1 spec now).
Qed.

Lemma wf_check_at s peer now :
  wf_limiter s -> is_u64 now -> wf_limiter (snd (check_at s peer now)).
Proof.
  intros Hwf Hn. destruct (slot_of_lookup s peer Hwf) as [cell Hc].
  destruct Hwf as (Hb & Hcells & Hk).
  pose proof (wf_decide_request _ _ _ Hb (Forall_lookup_1 _ _ _ _ Hcells Hc) Hn) as Hnext.
  pose proof (check_at_cells s peer now cell Hc) as Hch.
  destruct (decide_request (nl_spec s) cell now) as [d next].
  destruct Hch as (_ & Hcs & Hsp & _). unfold wf_limiter. rewrite Hcs, Hsp.
  split; [done|]. split; [by apply Forall_insert|].
  unfold cells, slot_of in *. unfold check_at. unfold cells in Hcs.
  destruct s as [spec [c|slots]]; cbn [nl_spec nl_state] in *.
  - by destruct (decide_request spec c now).
  - rewrite Hc. destruct (decide_request spec cell now). cbn. by rewrite length_insert.
Qed.

(** The requests of one cell, and how many of them were allowed. *)
Definition allowed_in (s : NativeRateLimit) (k : nat) (reqs : list (IpAddr * Z))
    (ds : list (outcome RateLimitDecision)) : Z :=
  sumZ (zip_with (fun r d => if bool_decide (slot_of s (fst r) = k) then
    match d with Done RlAllow => 1 | _ => 0 end else 0) reqs ds).

Definition requests_of (s : NativeRateLimit) (k : nat) (reqs : list (IpAddr * Z))
    : list (Z * Z) :=
  map (fun r => (1, snd r)) (filter (fun r => slot_of s (fst r) = k) reqs).

Lemma decide_request_bucket spec cell now :
  match fst (decide_request spec cell now) with RlAllow => 1 | _ => 0 end
  = (if allowed (snd (apply_bucket (Some cell) 1 spec now)) then 1 else 0) /\
  snd (decide_request spec cell now) = fst (apply_bucket (Some cell) 1 spec now).
Proof.
  unfold decide_request. destruct (apply_bucket (Some cell) 1 spec now) as [st acq].
  cbn [fst snd]. by destruct (allowed acq).
Qed.

Lemma run_bucket_cons spec cost now rest st :
  fst (run_bucket spec ((cost, now) :: rest) st) =
  (if allowed (snd (apply_bucket (Some st) cost spec now)) then cost else 0)
  + fst (run_bucket spec rest (fst (apply_bucket (Some st) cost spec now))).
Proof.
  cbn [run_bucket]. destruct (apply_bucket (Some st) cost spec now) as [st' acq].
  cbn [fst snd]. by destruct (run_bucket spec rest st').
Qed.

Lemma slot_of_ext s s' k reqs ds :
  (forall p, slot_of s' p = slot_of s p) ->
  allowed_in s' k reqs ds = allowed_in s k reqs ds /\
  requests_of s' k reqs = requests_of s k reqs.
Proof.
  intros Hs. unfold allowed_in, requests_of. split.
  - f_equal. revert ds. induction reqs; intros [|d ds]; cbn; [done..|].
    by rewrite Hs, IHreqs.
  - f_equal. induction reqs as [|r reqs IH]; [done|]. rewrite !filter_cons, Hs, IH. done.
Qed.

Lemma run_checks_project k reqs : forall s cell,
  wf_limiter s -> Forall (fun r => is_u64 (snd r)) reqs -> cells s !! k = Some cell ->
  Forall (fun d => d <> Panic) (fst (run_checks s reqs)) /\
  allowed_in s k reqs (fst (run_checks s reqs))
  = fst (run_bucket (nl_spec s) (requests_of s k reqs) cell).
Proof.
  induction reqs as [|[peer now] reqs IH]; intros s cell Hwf Hnow Hk; cbn [run_checks].
  { split; [constructor|done]. }
  apply Forall_cons in Hnow as [Hn Hnow]. cbn [snd] in Hn.
  destruct (slot_of_lookup s peer Hwf) as [c Hc].
  pose proof (check_at_cells s peer now c Hc) as Hch.
  pose proof (wf_check_at s peer now Hwf Hn) as Hwf'.
  pose proof (decide_request_bucket (nl_spec s) c now) as [Hd Hnx].
  destruct (check_at s peer now) as [d s']. cbn [fst snd] in *.
  destruct (decide_request (nl_spec s) c now) as [dd next]. cbn [fst snd] in *.
  destruct Hch as (-> & Hcs & Hsp & Hslot).
  set (cell' := if bool_decide (slot_of s peer = k) then next else cell).
  assert (Hk' : cells s' !! k = Some cell').
  { unfold cell'. rewrite Hcs. case_bool_decide as Hs.
    - subst k. rewrite list_lookup_insert. rewrite decide_True; [done|].
      split; [done|]. by eapply lookup_lt_Some.
    - by rewrite list_lookup_insert_ne. }
  destruct (IH s' cell' Hwf' Hnow Hk') as [IH1 IH2].
  destruct (slot_of_ext s s' k reqs (fst (run_checks s' reqs)) Hslot) as [E1 E2].
  rewrite E1, E2, Hsp in IH2. destruct (run_checks s' reqs) as [ds final]. cbn [fst] in *.
  split; [by constructor|].
  assert (Hal : allowed_in s k ((peer, now) :: reqs) (Done dd :: ds) =
    (if bool_decide (slot_of s peer = k) then match dd with RlAllow => 1 | _ => 0 end else 0)
    + allowed_in s k reqs ds) by done.
  rewrite Hal, IH2. unfold requests_of. rewrite filter_cons. cbn [fst].
  unfold cell'. case_bool_decide as Hs.
  - rewrite decide_True by done. cbn [map snd]. rewrite run_bucket_cons. subst k.
    rewrite Hk in Hc. injection Hc as <-. rewrite Hd, Hnx. done.
  - rewrite decide_False by done. lia.
Qed.

Lemma div_ceil_mono a a' b : 0 < b -> a <= a' -> div_ceil a b <= div_ceil a' b.
Proof. intros Hb Ha. unfold div_ceil. apply Z.div_le_mono; lia. Qed.

Lemma requests_bound spec cell reqs t1 H :
  wf_bucket spec -> wf_state cell -> no_refill spec = false -> 0 <= t1 <= H -> H <= u64_max ->
  Forall (fun r => fst r = 1 /\ t1 <= snd r <= H) reqs ->
  fst (run_bucket spec reqs cell)
  <= capacity spec + refill_tokens spec * div_ceil (H - t1) (refill_interval_ms spec).
Proof.
  intros Hw Hc Hnr Ht HH Hreqs. destruct (no_refill_false spec Hw Hnr) as [Hi Hr].
  destruct reqs as [|[cost t] reqs].
  { cbn. destruct Hw as ([? _] & _). assert (0 <= div_ceil (H - t1) (refill_interval_ms spec)).
    { unfold div_ceil. apply Z.div_pos; lia. } nia. }
  apply Forall_cons in Hreqs as [[Hcost Ht'] Hreqs]. cbn [fst snd] in *. subst cost.
  pose proof (bucket_window_bound spec (Some cell) 1 t H reqs Hw Hc
    ltac:(split; cbn; lia)
    ltac:(eapply Forall_impl; [exact Hreqs|]; intros [? ?] [? ?]; split; cbn in *; lia) HH) as Hb.
  rewrite run_bucket_cons. destruct (apply_bucket (Some cell) 1 spec t) as [st acq].
  cbn [fst snd]. rewrite Hnr in Hb.
  pose proof (div_ceil_mono (H - t) (H - t1) (refill_interval_ms spec) Hi ltac:(lia)). nia.
Qed.
End hasher.

(** ** Clients and keys *)

(** The v6 address that wraps a v4 one. *)
Definition v6_wrap (ip : IpAddr) : IpAddr :=
  match ip with
  | V4 a b c d => V6 0 0 0 0 0 65535 (a * 256 + b) (c * 256 + d)
  | v6 => v6
  end.

Lemma ip_key_mapped ip : wf_ip ip -> ip_key_bytes (v6_wrap ip) = ip_key_bytes ip.
Proof.
  destruct ip as [a b c d|]; [|done]. unfold wf_ip, is_u8. intros (? & ? & ? & ?).
  cbn -[Z.div Z.modulo Z.mul Z.add].
  assert (forall x y, 0 <= y < 256 -> (x * 256 + y) / 256 = x /\ (x * 256 + y) mod 256 = y)
    as Hxy by (intros x y Hy; split; Z.to_euclidean_division_equations; lia).
  destruct (Hxy a b), (Hxy c d); [done..|]. congruence.
Qed.

Lemma ip_key_v6_subnet s0 s1 s2 s3 s4 s5 s6 s7 t0 t1 t2 t3 t4 t5 t6 t7 :
  to_ipv4_mapped (V6 s0 s1 s2 s3 s4 s5 s6 s7) = None ->
  to_ipv4_mapped (V6 t0 t1 t2 t3 t4 t5 t6 t7) = None ->
  ip_key_bytes (V6 s0 s1 s2 s3 s4 s5 s6 s7) = ip_key_bytes (V6 t0 t1 t2 t3 t4 t5 t6 t7) <->
  s0 = t0 /\ s1 = t1 /\ s2 = t2 /\ s3 = t3.
Proof.
  intros Hs Ht. unfold ip_key_bytes. rewrite Hs, Ht. split; [|by intros (-> & -> & -> & ->)].
  intros [= A0 B0 A1 B1 A2 B2 A3 B3].
  rewrite (Z.div_mod s0 256), (Z.div_mod s1 256), (Z.div_mod s2 256), (Z.div_mod s3 256),
    A0, B0, A1, B1, A2, B2, A3, B3, <- !Z.div_mod by done. done.
Qed.

(** ** Properties *)

Lemma wf_rl_new cfg : is_u64 (rl_rate cfg) -> is_u64 (rl_burst cfg) -> wf_limiter (rl_new cfg).
Proof.
  intros Hr Hb.
  assert (Hw : wf_bucket (mkBucket (rl_burst cfg) (rl_rate cfg) 1000)).
  { unfold wf_bucket. cbn. unfold is_u64, u64_max in *. lia. }
  assert (H0 : wf_state (0, 0)) by (unfold wf_state, is_u64, u64_max; cbn; lia).
  unfold rl_new, wf_limiter, cells. destruct (rl_key cfg); cbn [nl_spec nl_state].
  - split_and!; [done|by repeat constructor|done].
  - split_and!; [done|by apply Forall_replicate|]. exists 16. split; [lia|].
    rewrite length_replicate. by rewrite Z2Nat.id.
Qed.

Lemma cells_rl_new cfg hash p :
  cells (rl_new cfg) !! slot_of hash (rl_new cfg) p = Some (0, 0).
Proof.
  unfold rl_new, cells, slot_of. destruct (rl_key cfg); cbn [nl_state]; [done|].
  rewrite length_replicate. apply lookup_replicate_2.
  unfold IP_SLOTS. rewrite Z2Nat.id by done. by apply slot_for_ip_bound.
Qed.

(** C14: a native limiter never panics, decides each request of a client from that client's own
    bucket history only, and, whatever the sequence of peers and clock readings in
    [t1, H], allows the requests that share a client's slot at most [burst] plus [rate] per
    started second of the window. *)
Theorem limiter_bounds_client (hash : list Z -> Z) (cfg : RouteRateLimit) (client : IpAddr)
    (reqs : list (IpAddr * Z)) (t1 H : Z)
    (Hr : 1 <= rl_rate cfg <= u64_max) (Hb : 1 <= rl_burst cfg <= u64_max)
    (Ht : 0 <= t1 <= H) (HH : H <= u64_max)
    (Hreqs : Forall (fun r => t1 <= snd r <= H) reqs) :
  let s := rl_new cfg in
  let k := slot_of hash s client in
  let ds := fst (run_checks hash s reqs) in
  Forall (fun d => d <> Panic) ds /\
  allowed_in hash s k reqs ds
  = fst (run_bucket (nl_spec s) (requests_of hash s k reqs) (0, 0)) /\
  allowed_in hash s k reqs ds <= rl_burst cfg + rl_rate cfg * div_ceil (H - t1) 1000.
Proof.
  intros s k ds.
  assert (Hwf : wf_limiter s) by (apply wf_rl_new; unfold is_u64; lia).
  assert (Hu : Forall (fun r => is_u64 (snd r)) reqs).
  { eapply Forall_impl; [exact Hreqs|]. intros [p n]. unfold is_u64. cbn. lia. }
  destruct (run_checks_project hash k reqs s (0, 0) Hwf Hu (cells_rl_new cfg hash client))
    as [Hp Hal]. fold ds in Hp, Hal. split; [done|]. split; [done|]. rewrite Hal.
  assert (Hs : nl_spec s = mkBucket (rl_burst cfg) (rl_rate cfg) 1000) by done.
  pose proof (requests_bound (nl_spec s) (0, 0) (requests_of hash s k reqs) t1 H
    (proj1 Hwf)) as Hbd. rewrite Hs in *. cbn in Hbd. apply Hbd; try lia.
  - unfold wf_state, is_u64, u64_max. cbn. lia.
  - unfold requests_of. apply Forall_map, Forall_forall. intros r Hin%list_elem_of_filter.
    split; [done|]. destruct Hin as [_ Hin].
    apply (proj1 (Forall_forall _ _) Hreqs _ Hin).
Qed.

Lemma limiter_bounds_client_witness :
  let s := rl_new (mkRouteRateLimit 2 3 KeyRoute) in
  let reqs := map (fun n => (V4 10 0 0 1, 5000 + Z.of_nat n)) (range 8) in
  fst (run_checks (fun _ => 0) s reqs) =
    [Done RlAllow; Done RlAllow; Done RlAllow; Done (RlLimit 1000); Done (RlLimit 1000);
     Done (RlLimit 1000); Done (RlLimit 1000); Done (RlLimit 1000)] /\
  allowed_in (fun _ => 0) s 0 reqs (fst (run_checks (fun _ => 0) s reqs)) <= 3 + 2 * 1.
Proof.
  split; [by vm_compute|].
  pose proof (limiter_bounds_client (fun _ => 0) (mkRouteRateLimit 2 3 KeyRoute) (V4 10 0 0 1)
    (map (fun n => (V4 10 0 0 1, 5000 + Z.of_nat n)) (range 8)) 5000 5007
    ltac:(vm_compute; intuition congruence) ltac:(vm_compute; intuition congruence)
    ltac:(lia) ltac:(vm_compute; congruence)
    ltac:(repeat constructor; vm_compute; congruence)) as (_ & _ & H). exact H.
Defined.

(** A never-touched cell reads [min (now / 1000 * rate) burst] tokens, which is below a
    large burst. *)
Lemma untouched_cell_tokens :
  fst (refill (Some (0, 0)) (mkBucket (10 ^ 13) 1 1000) (1700000000 * 1000)) = 1700000000.
Proof. by vm_compute. Qed.
