(* ===== verification/Quota.v ===== *)
(** * Host-state quotas (host/src/quota.rs)

    Per-namespace and host-wide tallies of the state filters store, their caps, and the
    reconstruction of the tallies from a backend's startup inventory. *)

From S2P Require Import Prelude Bytes TokenBucket Kv.

(** ** Definitions *)

Definition MAX_NS_ENTRIES : Z := 100000.
Definition MAX_NS_BYTES : Z := Z.shiftl 64 20.
Definition MAX_TOTAL_ENTRIES : Z := 5000000.
Definition MAX_TOTAL_BYTES : Z := Z.shiftl 1 30.

Definition KV_NS_DELIM : ascii := ascii_of_nat 31.

Record NsUsage := mkUsage { nu_entries : Z; nu_bytes : Z }.
Definition usage_default : NsUsage := mkUsage 0 0.

Record QuotaInner := mkQuota {
  q_ns : gmap bytes NsUsage;
  q_total_entries : Z;
  q_total_bytes : Z;
}.

Definition quota_new : QuotaInner := mkQuota ∅ 0 0.

Definition usage_of (q : QuotaInner) (ns : bytes) : NsUsage := default usage_default (q_ns q !! ns).

Inductive KvQuotaRestoreError := RestoreInventory | RestoreInvalidKey | RestoreOverflow.

(** Charge one more entry of [bytes] bytes to a tally, within [isize::MAX]. *)
Definition bump_usage (u : NsUsage) (bytes_ : Z) : option NsUsage :=
  match checked_add_isize (nu_entries u) 1, checked_add_isize (nu_bytes u) bytes_ with
  | Some e, Some b => Some (mkUsage e b)
  | _, _ => None
  end.

(** Split a stored key into its quota namespace (delimiter kept) and its guest key. *)
Definition parse_stored_key (stored_key : bytes) : option (bytes * bytes) :=
  match split_once KV_NS_DELIM stored_key with
  | None => None
  | Some ([], _) => None
  | Some (filter_id, tail) =>
    if negb (utf8_valid filter_id) then None
    else match tail with
         | tag :: d :: guest_key =>
           if ascii_eqb d KV_NS_DELIM
              && (ascii_eqb tag "k" || ascii_eqb tag "c" || ascii_eqb tag "r")
           then Some (filter_id ++ [KV_NS_DELIM], guest_key) else None
         | _ => None
         end
  end.

Definition record_restored_entry (q : QuotaInner) (stored_key : bytes) (value_len : Z)
    : result QuotaInner KvQuotaRestoreError :=
  match parse_stored_key stored_key with
  | None => Err RestoreInvalidKey
  | Some (namespace, guest_key) =>
    match checked_add_isize (Z.of_nat (length guest_key)) value_len with
    | None => Err RestoreOverflow
    | Some n =>
      match bump_usage (usage_of q namespace) n,
            checked_add_isize (q_total_entries q) 1, checked_add_isize (q_total_bytes q) n with
      | Some u, Some te, Some tb => Ok (mkQuota (<[namespace := u]> (q_ns q)) te tb)
      | _, _, _ => Err RestoreOverflow
      end
    end
  end.

Fixpoint restore_entries (q : QuotaInner) (entries : list (bytes * nat))
    : result QuotaInner KvQuotaRestoreError :=
  match entries with
  | [] => Ok q
  | (key, value_len) :: rest =>
    match record_restored_entry q key (Z.of_nat value_len) with
    | Err e => Err e
    | Ok q' => restore_entries q' rest
    end
  end.

Definition restore {B} `{KvBackend B} (backend : B) : result QuotaInner KvQuotaRestoreError :=
  match kv_entries backend with
  | None => Err RestoreInventory
  | Some entries => restore_entries quota_new entries
  end.

Definition over_cap_summary (q : QuotaInner) : option (Z * Z * Z) :=
  let namespaces := Z.of_nat (length (filter
    (fun kv => MAX_NS_ENTRIES < nu_entries kv.2 \/ MAX_NS_BYTES < nu_bytes kv.2)
    (map_to_list (q_ns q)))) in
  if (0 <? namespaces) || (MAX_TOTAL_ENTRIES <? q_total_entries q)
     || (MAX_TOTAL_BYTES <? q_total_bytes q)
  then Some (namespaces, q_total_entries q, q_total_bytes q) else None.

(** The tally half of [charge_and_apply]: decide and commit the charge, or reject. *)
Definition quota_charge (q : QuotaInner) (ns : bytes) (entries_delta bytes_delta : Z)
    : option QuotaInner :=
  let cur := usage_of q ns in
  match checked_add_signed (nu_entries cur) entries_delta,
        checked_add_signed (nu_bytes cur) bytes_delta,
        checked_add_signed (q_total_entries q) entries_delta,
        checked_add_signed (q_total_bytes q) bytes_delta with
  | Some ne, Some nb, Some te, Some tb =>
    if ((0 <? entries_delta) || (0 <? bytes_delta))
       && ((MAX_NS_ENTRIES <? ne) || (MAX_TOTAL_ENTRIES <? te)
           || (MAX_NS_BYTES <? nb) || (MAX_TOTAL_BYTES <? tb))
    then None
    else Some (mkQuota (<[ns := mkUsage ne nb]> (q_ns q)) te tb)
  | _, _, _, _ => None
  end.

(** ** The tally of a store *)

(** The namespace a stored key is charged to, and the bytes it costs with its value. *)
Definition key_ns (key : bytes) : bytes :=
  match split_once KV_NS_DELIM key with Some (f, _) => f ++ [KV_NS_DELIM] | None => key end.
Definition key_cost (key value : bytes) : Z :=
  match split_once KV_NS_DELIM key with
  | Some (_, tail) => Z.of_nat (length tail) - 2 + Z.of_nat (length value)
  | None => Z.of_nat (length value)
  end.

Definition in_ns (ns key : bytes) : bool := bytes_eqb (key_ns key) ns.

Definition store_entries (ns : bytes) (m : gmap bytes bytes) : Z :=
  map_sum (fun k _ => if in_ns ns k then 1 else 0) m.
Definition store_bytes (ns : bytes) (m : gmap bytes bytes) : Z :=
  map_sum (fun k v => if in_ns ns k then key_cost k v else 0) m.
Definition store_total_entries (m : gmap bytes bytes) : Z := map_sum (fun _ _ => 1) m.
Definition store_total_bytes (m : gmap bytes bytes) : Z :=
  map_sum (fun k v => key_cost k v) m.

(** The quota's tallies are the store's contents. *)
Definition tally_exact (q : QuotaInner) (m : gmap bytes bytes) : Prop :=
  (forall ns, nu_entries (usage_of q ns) = store_entries ns m /\
              nu_bytes (usage_of q ns) = store_bytes ns m) /\
  q_total_entries q = store_total_entries m /\ q_total_bytes q = store_total_bytes m.

Lemma tally_exact_new : tally_exact quota_new ∅.
Proof.
  split; [|split; symmetry; apply map_sum_empty]. intros ns.
  unfold usage_of, quota_new. cbn [q_ns]. rewrite lookup_empty. cbn.
  split; symmetry; apply map_sum_empty.
Qed.

Lemma checked_add_signed_Some a d x :
  checked_add_signed a d = Some x -> x = a + d /\ 0 <= a + d <= usize_max.
Proof.
  unfold checked_add_signed. destruct (Z.leb_spec 0 (a + d)), (Z.leb_spec (a + d) usize_max);
    cbn; intros ?; simplify_eq. lia.
Qed.

Lemma checked_add_isize_Some a b x : checked_add_isize a b = Some x -> x = a + b.
Proof. unfold checked_add_isize. case_match; intros ?; by simplify_eq. Qed.

(** A successful charge adds its deltas to the namespace and to the totals, and keeps every
    dimension within its cap when it grows one. *)
Lemma quota_charge_Some q ns de db q' :
  quota_charge q ns de db = Some q' ->
  (forall ns', usage_of q' ns' = if bool_decide (ns' = ns)
     then mkUsage (nu_entries (usage_of q ns) + de) (nu_bytes (usage_of q ns) + db)
     else usage_of q ns') /\
  q_total_entries q' = q_total_entries q + de /\ q_total_bytes q' = q_total_bytes q + db /\
  (0 < de \/ 0 < db ->
     nu_entries (usage_of q' ns) <= MAX_NS_ENTRIES /\ nu_bytes (usage_of q' ns) <= MAX_NS_BYTES /\
     q_total_entries q' <= MAX_TOTAL_ENTRIES /\ q_total_bytes q' <= MAX_TOTAL_BYTES).
Proof.
  unfold quota_charge.
  destruct (checked_add_signed (nu_entries _) _) as [ne|] eqn:E1; [|done].
  destruct (checked_add_signed (nu_bytes _) _) as [nb|] eqn:E2; [|done].
  destruct (checked_add_signed (q_total_entries q) _) as [te|] eqn:E3; [|done].
  destruct (checked_add_signed (q_total_bytes q) _) as [tb|] eqn:E4; [|done].
  apply checked_add_signed_Some in E1 as [-> _], E2 as [-> _], E3 as [-> _], E4 as [-> _].
  destruct (_ && _) eqn:Hcap; [done|]. intros [= <-].
  assert (Hu : forall ns', usage_of (mkQuota (<[ns := mkUsage (nu_entries (usage_of q ns) + de)
      (nu_bytes (usage_of q ns) + db)]> (q_ns q)) (q_total_entries q + de)
      (q_total_bytes q + db)) ns' = if bool_decide (ns' = ns)
     then mkUsage (nu_entries (usage_of q ns) + de) (nu_bytes (usage_of q ns) + db)
     else usage_of q ns').
  { intros ns'. unfold usage_of. cbn [q_ns]. case_bool_decide as Hns.
    - subst. by rewrite lookup_insert_eq.
    - by rewrite lookup_insert_ne by congruence. }
  split; [exact Hu|]. split; [done|]. split; [done|]. intros Hgrow.
  rewrite Hu, bool_decide_true by done. cbn [nu_entries nu_bytes q_total_entries q_total_bytes].
  apply andb_false_iff in Hcap as [Hg|Hcap].
  { apply orb_false_iff in Hg as [?%Z.ltb_ge ?%Z.ltb_ge]. lia. }
  rewrite !orb_false_iff, !Z.ltb_ge in Hcap. lia.
Qed.

(** ** Restoring the tallies at startup *)

(** The same tallies over an inventory of keys and value lengths. *)
Definition inv_entries (sel : bytes -> bool) (l : list (bytes * nat)) : Z :=
  sumZ (map (fun kn => if sel kn.1 then 1 else 0) l).
Definition inv_cost (key : bytes) (n : nat) : Z :=
  match split_once KV_NS_DELIM key with
  | Some (_, tail) => Z.of_nat (length tail) - 2 + Z.of_nat n
  | None => Z.of_nat n
  end.
Definition inv_bytes (sel : bytes -> bool) (l : list (bytes * nat)) : Z :=
  sumZ (map (fun kn => if sel kn.1 then inv_cost kn.1 kn.2 else 0) l).

Lemma parse_stored_key_spec key ns g n :
  parse_stored_key key = Some (ns, g) ->
  key_ns key = ns /\ inv_cost key n = Z.of_nat (length g) + Z.of_nat n.
Proof.
  unfold parse_stored_key, key_ns, inv_cost.
  destruct (split_once KV_NS_DELIM key) as [[f tail]|]; [|done].
  destruct f as [|x f]; [done|]. destruct (negb _); [done|].
  destruct tail as [|tag [|d guest]]; [done|done|]. destruct (_ && _); [|done].
  intros [= <- <-]. cbn [length]. split; [done|lia].
Qed.

Lemma record_restored_entry_Ok q key n q' :
  record_restored_entry q key (Z.of_nat n) = Ok q' ->
  (forall ns, nu_entries (usage_of q' ns) = nu_entries (usage_of q ns) + inv_entries (in_ns ns) [(key, n)] /\
     nu_bytes (usage_of q' ns) = nu_bytes (usage_of q ns) + inv_bytes (in_ns ns) [(key, n)]) /\
  q_total_entries q' = q_total_entries q + 1 /\
  q_total_bytes q' = q_total_bytes q + inv_cost key n.
Proof.
  unfold record_restored_entry, bump_usage.
  destruct (parse_stored_key key) as [[ns g]|] eqn:Hp; [|done].
  apply (parse_stored_key_spec _ _ _ n) in Hp as [Hns Hcost].
  destruct (checked_add_isize (Z.of_nat (length g)) _) as [b|] eqn:E; [|done].
  apply checked_add_isize_Some in E as ->.
  destruct (checked_add_isize (nu_entries _) _) as [e|] eqn:E1; [|done].
  destruct (checked_add_isize (nu_bytes _) _) as [bb|] eqn:E2; [|done].
  destruct (checked_add_isize (q_total_entries q) _) as [te|] eqn:E3; [|done].
  destruct (checked_add_isize (q_total_bytes q) _) as [tb|] eqn:E4; [|done].
  apply checked_add_isize_Some in E1 as ->, E2 as ->, E3 as ->, E4 as ->.
  intros [= <-]. cbn [q_total_entries q_total_bytes]. rewrite Hcost. split; [|done].
  intros ns'. unfold usage_of, inv_entries, inv_bytes, in_ns. cbn [q_ns map sumZ fst snd].
  rewrite Hns, Hcost. destruct (decide (ns = ns')) as [->|Hne].
  - rewrite lookup_insert_eq. unfold bytes_eqb. rewrite bool_decide_true by done. cbn. lia.
  - rewrite lookup_insert_ne by done. unfold bytes_eqb. rewrite bool_decide_false by done. lia.
Qed.

Lemma restore_entries_Ok l : forall q q',
  restore_entries q l = Ok q' ->
  (forall ns, nu_entries (usage_of q' ns) = nu_entries (usage_of q ns) + inv_entries (in_ns ns) l /\
     nu_bytes (usage_of q' ns) = nu_bytes (usage_of q ns) + inv_bytes (in_ns ns) l) /\
  q_total_entries q' = q_total_entries q + inv_entries (fun _ => true) l /\
  q_total_bytes q' = q_total_bytes q + inv_bytes (fun _ => true) l.
Proof.
  unfold inv_entries, inv_bytes.
  induction l as [|[key n] l IH]; intros q q'; cbn [restore_entries map sumZ fst snd].
  { intros [= <-]. split; [intros ns|]; lia. }
  destruct (record_restored_entry q key (Z.of_nat n)) as [q1|e] eqn:Hr; [|done].
  intros Hq'. apply record_restored_entry_Ok in Hr as (H1 & H2 & H3).
  destruct (IH q1 q' Hq') as (I1 & I2 & I3).
  unfold inv_entries, inv_bytes in H1. cbn [map sumZ fst snd] in H1.
  split; [|lia]. intros ns. specialize (H1 ns). specialize (I1 ns). lia.
Qed.

Lemma inv_of_store sel m l :
  l ≡ₚ map (fun kv => (fst kv, length (snd kv))) (map_to_list m) ->
  inv_entries sel l = map_sum (fun k _ => if sel k then 1 else 0) m /\
  inv_bytes sel l = map_sum (fun k v => if sel k then key_cost k v else 0) m.
Proof.
  intros Hl. unfold inv_entries, inv_bytes, map_sum. by rewrite Hl, !map_map.
Qed.

(** Every key of the store has the shape the host writes, and the counts fit. *)
Definition restorable (m : gmap bytes bytes) : Prop :=
  map_Forall (fun k _ => is_Some (parse_stored_key k)) m /\
  store_total_entries m <= isize_max /\ store_total_bytes m <= isize_max.

(** The tally grows monotonically towards its total, so no step overflows below it. *)
Lemma restore_entries_total l : forall q,
  Forall (fun kn => is_Some (parse_stored_key kn.1)) l ->
  (forall ns, 0 <= nu_entries (usage_of q ns) <= q_total_entries q /\
              0 <= nu_bytes (usage_of q ns) <= q_total_bytes q) ->
  q_total_entries q + inv_entries (fun _ => true) l <= isize_max ->
  q_total_bytes q + inv_bytes (fun _ => true) l <= isize_max ->
  exists q', restore_entries q l = Ok q'.
Proof.
  induction l as [|[key n] l IH]; intros q Hall Hq He Hb; cbn [restore_entries].
  { by eexists. }
  apply Forall_cons in Hall as [[[ns g] Hp] Hall]. cbn [fst] in Hp.
  unfold inv_entries, inv_bytes in He, Hb. cbn [map sumZ fst snd] in He, Hb.
  fold (inv_entries (fun _ => true) l) in He. fold (inv_bytes (fun _ => true) l) in Hb.
  assert (Hnn : 0 <= inv_entries (fun _ => true) l /\ 0 <= inv_bytes (fun _ => true) l).
  { clear -Hall. unfold inv_entries, inv_bytes.
    induction Hall as [|[k m] l [[ns g] Hk] _ IH]; cbn [map sumZ fst snd]; [lia|].
    cbn [fst] in Hk. apply (parse_stored_key_spec _ _ _ m) in Hk as [_ ->]. lia. }
  pose proof (parse_stored_key_spec _ _ _ n Hp) as [_ Hcost]. rewrite Hcost in Hb.
  destruct (record_restored_entry q key (Z.of_nat n)) as [q1|e] eqn:Hr.
  - apply record_restored_entry_Ok in Hr as (H1 & H2 & H3). apply IH; [done| |lia|].
    + intros ns'. specialize (H1 ns'). specialize (Hq ns').
      unfold inv_entries, inv_bytes in H1. cbn [map sumZ fst snd] in H1.
      rewrite H2, H3, Hcost. destruct (in_ns ns' key); lia.
    + rewrite H3, Hcost. lia.
  - exfalso. revert Hr. unfold record_restored_entry. rewrite Hp.
    unfold bump_usage, checked_add_isize. destruct (Hq ns) as [? ?].
    repeat match goal with
    | |- context [(?x <=? isize_max)] => destruct (Z.leb_spec x isize_max); [|lia]
    end. done.
Qed.

(** Restoring the quota from any lawful backend gives exactly the tally of its contents
    when it succeeds; it succeeds on every store whose keys have the host's shape and
    whose size fits, and fails closed on a store with a malformed key. *)
Theorem restore_exact {B} `{KvBackendLaws B} (kv : B) :
  (forall q, restore kv = Ok q -> tally_exact q (kv_view kv)) /\
  (restorable (kv_view kv) -> exists q, restore kv = Ok q) /\
  (forall key v, kv_view kv !! key = Some v -> parse_stored_key key = None ->
     exists e, restore kv = Err e).
Proof.
  unfold restore. destruct (kv_entries_view kv) as (l & -> & Hl).
  assert (Hinv := fun sel => inv_of_store sel _ _ Hl).
  assert (Hz : forall ns, usage_of quota_new ns = usage_default) by
    (intros ns; unfold usage_of; cbn; by rewrite lookup_empty).
  split; [|split].
  - intros q Hq. apply restore_entries_Ok in Hq as (Hns & Hte & Htb). split; [|split].
    + intros ns. destruct (Hns ns) as [-> ->]. rewrite Hz. cbn [nu_entries nu_bytes].
      by destruct (Hinv (in_ns ns)) as [-> ->].
    + rewrite Hte. apply (Hinv (fun _ => true)).
    + rewrite Htb. apply (Hinv (fun _ => true)).
  - intros (Hall & He & Hb). apply restore_entries_total.
    + rewrite Hl. apply Forall_map, Forall_forall. intros [k v] Hin%elem_of_map_to_list.
      exact (Hall _ _ Hin).
    + intros ns. rewrite Hz. cbn. lia.
    + cbn. destruct (Hinv (fun _ => true)) as [-> _]. exact He.
    + cbn. destruct (Hinv (fun _ => true)) as [_ ->]. exact Hb.
  - intros key v Hkey Hbad.
    assert (Hin : (key, length v) ∈ l).
    { rewrite Hl. apply (list_elem_of_fmap_2 (fun kv => (fst kv, length (snd kv))) _ (key, v)).
      by apply elem_of_map_to_list. }
    clear -Hin Hbad. generalize quota_new. induction l as [|[k n] l IH]; intros q;
      cbn [restore_entries]; [by apply elem_of_nil in Hin|].
    apply elem_of_cons in Hin as [Heq|Hin].
    + simplify_eq. unfold record_restored_entry. rewrite Hbad. by eexists.
    + destruct (record_restored_entry q k (Z.of_nat n)); [|by eexists]. by apply IH.
Qed.
