(* ===== verification/HostApi.v ===== *)
(** * Host API state capabilities (host/src/state.rs)

    The deny-by-default capabilities a filter calls for its state: key-value, counter, rate
    limiter, configuration, clock and log.  They run on any lawful key-value backend, under
    the quota; the closures of [charge_and_apply] are the values of [Mutation]. *)

From S2P Require Import Prelude Bytes TokenBucket Kv Quota.

(** ** Definitions *)

Definition TAG_KV : ascii := "k".
Definition TAG_COUNTER : ascii := "c".
Definition TAG_RATELIMIT : ascii := "r".
Definition MAX_KV_VALUE_BYTES : Z := 256 * 1024.
Definition MAX_KV_KEY_BYTES : Z := 1024.
Definition MAX_LOG_LINES_PER_REQUEST : Z := 256.
Definition MAX_LOG_MSG_BYTES : nat := Z.to_nat (8 * 1024).

(** What a filter's host state holds besides the shared store and quota. *)
Record HostCtx := mkCtx {
  hc_kv_prefix : bytes;
  hc_ratelimit_bucket : option Bucket;
  hc_now_ms : Z;
  hc_config : gmap bytes bytes;
}.

Record Shared (B : Type) := mkShared { sh_kv : B; sh_quota : QuotaInner }.
Arguments mkShared {B}.
Arguments sh_kv {B}.
Arguments sh_quota {B}.

Definition ns_key (prefix : bytes) (tag : ascii) (key : bytes) : bytes :=
  prefix ++ tag :: KV_NS_DELIM :: key.

(** A state-changing call past its guards. *)
Inductive Mutation :=
| MutSet (key value : bytes)
| MutDelete (key : bytes)
| MutIncrement (key : bytes) (delta : Z)
| MutAcquire (key : bytes) (cost : Z) (spec : Bucket) (now_ms : Z).

Definition mut_key (prefix : bytes) (m : Mutation) : bytes :=
  match m with
  | MutSet key _ | MutDelete key => ns_key prefix TAG_KV key
  | MutIncrement key _ => ns_key prefix TAG_COUNTER key
  | MutAcquire key _ _ _ => ns_key prefix TAG_RATELIMIT key
  end.

Definition zlen (s : bytes) : Z := Z.of_nat (length s).

(** [read_and_delta]: what the mutation costs given the stored value. *)
Definition mut_delta (m : Mutation) (old : option bytes) : Z * Z :=
  match m, old with
  | MutSet key value, None => (1, zlen key + zlen value)
  | MutSet _ value, Some old => (0, zlen value - zlen old)
  | MutDelete key, Some old => (-1, - (zlen key + zlen old))
  | MutDelete _, None => (0, 0)
  | MutIncrement key _, None => (1, zlen key + 8)
  | MutIncrement _ _, Some old => (0, saturating_sub_isize 8 (Z.min (zlen old) isize_max))
  | MutAcquire key _ _ _, None => (1, zlen key + 16)
  | MutAcquire _ _ _ _, Some old => (0, saturating_sub_isize 16 (Z.min (zlen old) isize_max))
  end.

Section host.
Context {B : Type} `{KvBackend B}.

(** [apply]: the backend write and its answer. *)
Definition mut_apply (prefix : bytes) (m : Mutation) (kv : B) : KvAnswer * B :=
  let nskey := mut_key prefix m in
  match m with
  | MutSet _ value => (AnsUnit, kv_set kv nskey value)
  | MutDelete _ => (AnsUnit, kv_delete kv nskey)
  | MutIncrement _ delta =>
    let '(n, kv') := kv_increment kv nskey delta in (AnsCounter n, kv')
  | MutAcquire _ cost spec now_ms =>
    let '(a, kv') := kv_try_acquire kv nskey cost spec now_ms in (AnsAcquire a, kv')
  end.

Definition charge_and_apply (prefix : bytes) (m : Mutation) (s : Shared B)
    : option KvAnswer * Shared B :=
  let '(de, db) := mut_delta m (kv_get (sh_kv s) (mut_key prefix m)) in
  match quota_charge (sh_quota s) prefix de db with
  | None => (None, s)
  | Some q' =>
    let '(ans, kv') := mut_apply prefix m (sh_kv s) in (Some ans, mkShared kv' q')
  end.

Definition host_kv_get (c : HostCtx) (key : bytes) (s : Shared B) : option bytes :=
  if MAX_KV_KEY_BYTES <? zlen key then None
  else kv_get (sh_kv s) (ns_key (hc_kv_prefix c) TAG_KV key).

Definition host_kv_set (c : HostCtx) (key value : bytes) (s : Shared B) : Shared B :=
  if (MAX_KV_KEY_BYTES <? zlen key) || (MAX_KV_VALUE_BYTES <? zlen value) then s
  else snd (charge_and_apply (hc_kv_prefix c) (MutSet key value) s).

Definition host_kv_delete (c : HostCtx) (key : bytes) (s : Shared B) : Shared B :=
  if MAX_KV_KEY_BYTES <? zlen key then s
  else snd (charge_and_apply (hc_kv_prefix c) (MutDelete key) s).

Definition host_counter_increment (c : HostCtx) (key : bytes) (delta : Z) (s : Shared B)
    : Z * Shared B :=
  if MAX_KV_KEY_BYTES <? zlen key then (0, s)
  else
    let nskey := ns_key (hc_kv_prefix c) TAG_COUNTER key in
    if delta =? 0 then
      let '(n, kv') := kv_increment (sh_kv s) nskey 0 in (n, mkShared kv' (sh_quota s))
    else
      let '(r, s') := charge_and_apply (hc_kv_prefix c) (MutIncrement key delta) s in
      (match r with Some (AnsCounter n) => n | _ => 0 end, s').

Definition host_counter_get (c : HostCtx) (key : bytes) (s : Shared B) : Z * Shared B :=
  if MAX_KV_KEY_BYTES <? zlen key then (0, s)
  else
    let nskey := ns_key (hc_kv_prefix c) TAG_COUNTER key in
    let '(n, kv') := kv_increment (sh_kv s) nskey 0 in (n, mkShared kv' (sh_quota s)).

Definition denied : Acquire := mkAcquire false 0 0.

Definition host_try_acquire (c : HostCtx) (key : bytes) (cost : Z) (s : Shared B)
    : Acquire * Shared B :=
  match hc_ratelimit_bucket c with
  | None => (denied, s)
  | Some spec =>
    if MAX_KV_KEY_BYTES <? zlen key then (denied, s)
    else
      let '(r, s') := charge_and_apply (hc_kv_prefix c)
        (MutAcquire key cost spec (hc_now_ms c)) s in
      (match r with Some (AnsAcquire a) => a | _ => denied end, s')
  end.

Definition host_config_get (c : HostCtx) (key : bytes) : option bytes := hc_config c !! key.
Definition host_now_ms (c : HostCtx) : Z := hc_now_ms c.

(** Every call a filter can make on its state. *)
Inductive HostCall :=
| HcKvGet (key : bytes)
| HcKvSet (key value : bytes)
| HcKvDelete (key : bytes)
| HcIncrement (key : bytes) (delta : Z)
| HcCounterGet (key : bytes)
| HcTryAcquire (key : bytes) (cost : Z).

Definition host_call (c : HostCtx) (call : HostCall) (s : Shared B) : KvAnswer * Shared B :=
  match call with
  | HcKvGet key => (AnsGet (host_kv_get c key s), s)
  | HcKvSet key value => (AnsUnit, host_kv_set c key value s)
  | HcKvDelete key => (AnsUnit, host_kv_delete c key s)
  | HcIncrement key delta =>
    let '(n, s') := host_counter_increment c key delta s in (AnsCounter n, s')
  | HcCounterGet key => let '(n, s') := host_counter_get c key s in (AnsCounter n, s')
  | HcTryAcquire key cost =>
    let '(a, s') := host_try_acquire c key cost s in (AnsAcquire a, s')
  end.
End host.

(** ** Host log *)

Inductive LogLevel := LogTrace | LogDebug | LogInfo | LogWarn | LogError.
Record LogLine := mkLogLine { ll_level : LogLevel; ll_message : bytes }.

(** [is_char_boundary] below the length: not a continuation byte. *)
Definition is_char_boundary (s : bytes) (i : nat) : bool :=
  match s !! i with Some c => negb (utf8_cont c) | None => (i =? length s)%nat end.

Fixpoint floor_boundary (s : bytes) (e : nat) : nat :=
  if is_char_boundary s e then e
  else match e with O => O | S e' => floor_boundary s e' end.

(** [chars().map(..)] on valid UTF-8: C0, DEL and C1 controls become U+FFFD. *)
Fixpoint replace_controls (s : bytes) : bytes :=
  match s with
  | [] => []
  | a :: s1 =>
    if in_range 0 31 a || in_range 127 127 a then REPLACEMENT ++ replace_controls s1
    else match s1 with
         | b :: s2 =>
           if in_range 194 194 a && in_range 128 159 b then REPLACEMENT ++ replace_controls s2
           else a :: replace_controls s1
         | [] => [a]
         end
  end.

Definition has_c0 (s : bytes) : bool := existsb (fun c => in_range 0 31 c || in_range 127 127 c) s.

Definition sanitize_log_message (message : bytes) (max_bytes : nat) : bytes :=
  let message := if (max_bytes <? length message)%nat
                 then take (floor_boundary message max_bytes) message else message in
  if has_c0 message then replace_controls message else message.

Record LineCountBudget := mkBudget { lb_max_lines : Z; lb_count : Z }.

Definition truncation_marker : bytes :=
  map ascii_of_nat [226; 128; 166]%nat ++ bs " host-log truncated (per-request line cap reached)".

Definition budget_admit (b : LineCountBudget) (level : LogLevel) (message : bytes)
    : option (LogLevel * bytes) * LineCountBudget :=
  let last_slot := saturating_sub (lb_max_lines b) 1 in
  if lb_count b <? last_slot then
    (Some (level, sanitize_log_message message MAX_LOG_MSG_BYTES),
     mkBudget (lb_max_lines b) (lb_count b + 1))
  else if lb_count b =? last_slot then
    (Some (LogWarn, truncation_marker), mkBudget (lb_max_lines b) (lb_count b + 1))
  else (None, b).

Definition host_log (budget : LineCountBudget) (logs : list LogLine) (level : LogLevel)
    (message : bytes) : LineCountBudget * list LogLine :=
  match budget_admit budget level message with
  | (Some (level, message), budget') => (budget', logs ++ [mkLogLine level message])
  | (None, budget') => (budget', logs)
  end.

(** ** Namespaces *)

(** A host-owned prefix: a filter id (which [Host::load] keeps free of the delimiter)
    followed by the delimiter. *)
Definition wf_prefix (prefix : bytes) : Prop :=
  exists filter_id, prefix = filter_id ++ [KV_NS_DELIM] /\ KV_NS_DELIM ∉ filter_id.

Lemma split_ns_key prefix tag key filter_id :
  prefix = filter_id ++ [KV_NS_DELIM] -> KV_NS_DELIM ∉ filter_id ->
  split_once KV_NS_DELIM (ns_key prefix tag key) = Some (filter_id, tag :: KV_NS_DELIM :: key).
Proof.
  intros -> Hf. unfold ns_key. rewrite <- app_assoc. cbn [app]. by apply split_once_app.
Qed.

Lemma key_ns_ns_key prefix tag key : wf_prefix prefix -> key_ns (ns_key prefix tag key) = prefix.
Proof.
  intros (f & Hp & Hf). unfold key_ns. by rewrite (split_ns_key _ _ _ f Hp Hf).
Qed.

Lemma key_cost_ns_key prefix tag key v :
  wf_prefix prefix -> key_cost (ns_key prefix tag key) v = zlen key + zlen v.
Proof.
  intros (f & Hp & Hf). unfold key_cost. rewrite (split_ns_key _ _ _ f Hp Hf).
  cbn [length]. unfold zlen. lia.
Qed.

Lemma ns_key_inj p1 p2 t1 t2 k1 k2 :
  wf_prefix p1 -> wf_prefix p2 -> ns_key p1 t1 k1 = ns_key p2 t2 k2 ->
  p1 = p2 /\ t1 = t2 /\ k1 = k2.
Proof.
  intros (f1 & -> & H1) (f2 & -> & H2) E.
  assert (Hs := split_ns_key _ t1 k1 f1 eq_refl H1). rewrite E in Hs.
  rewrite (split_ns_key _ t2 k2 f2 eq_refl H2) in Hs. by simplify_eq.
Qed.

(** ** Mutations on the abstract store *)

Definition mut_map (prefix : bytes) (m : Mutation) (mp : gmap bytes bytes) : gmap bytes bytes :=
  let key := mut_key prefix m in
  match m with
  | MutSet _ value => <[key := value]> mp
  | MutDelete _ => delete key mp
  | MutIncrement _ delta => snd (map_increment mp key delta)
  | MutAcquire _ cost spec now => snd (map_try_acquire mp key cost spec now)
  end.

Lemma mut_apply_view {B} `{KvBackendLaws B} prefix m (kv : B) :
  kv_view (snd (mut_apply prefix m kv)) = mut_map prefix m (kv_view kv).
Proof.
  destruct m as [key value|key|key delta|key cost spec now]; cbn [mut_apply mut_map].
  - apply kv_set_view.
  - apply kv_delete_view.
  - pose proof (kv_increment_view kv (mut_key prefix (MutIncrement key delta)) delta) as Hi.
    destruct (kv_increment _ _ _), (map_increment _ _ _). by simplify_eq/=.
  - pose proof (kv_try_acquire_view kv (mut_key prefix (MutAcquire key cost spec now))
      cost spec now) as Hi.
    destruct (kv_try_acquire _ _ _ _ _), (map_try_acquire _ _ _ _ _). by simplify_eq/=.
Qed.

(** What the guards of the API leave: values within the cap, and real increments. *)
Definition wf_mut (m : Mutation) : Prop :=
  match m with
  | MutSet _ value => zlen value <= MAX_KV_VALUE_BYTES
  | MutIncrement _ delta => delta <> 0
  | _ => True
  end.

Definition values_bounded (mp : gmap bytes bytes) : Prop :=
  map_Forall (fun _ v => zlen v <= isize_max) mp.

(** A mutation writes a value of known length at its key, or deletes the key. *)
Lemma mut_map_cases prefix m mp :
  wf_mut m ->
  (exists v, mut_map prefix m mp = <[mut_key prefix m := v]> mp /\ zlen v <= isize_max /\
     match m with
     | MutSet _ value => v = value
     | MutDelete _ => False
     | MutIncrement _ _ => zlen v = 8
     | MutAcquire _ _ _ _ => zlen v = 16
     end) \/
  (mut_map prefix m mp = delete (mut_key prefix m) mp /\ exists key, m = MutDelete key).
Proof.
  destruct m as [key value|key|key delta|key cost spec now]; cbn [mut_map wf_mut]; intros Hw.
  - left. exists value. unfold MAX_KV_VALUE_BYTES, isize_max in *. split_and!; (done || lia).
  - right. eauto.
  - left. unfold map_increment. destruct (Z.eqb_spec delta 0) as [|_]; [done|].
    eexists. split; [reflexivity|].
    unfold zlen, encode_i64. rewrite length_to_le. unfold isize_max. lia.
  - left. unfold map_try_acquire. destruct (apply_bucket _ _ _ _) as [next res].
    eexists. split; [reflexivity|].
    unfold zlen, encode_bucket. rewrite length_app, !length_to_le. unfold isize_max. lia.
Qed.

Lemma mut_map_other prefix m mp k :
  wf_mut m -> k <> mut_key prefix m -> mut_map prefix m mp !! k = mp !! k.
Proof.
  intros Hw Hk. destruct (mut_map_cases prefix m mp Hw) as [(v & -> & _) | [-> _]].
  - by rewrite lookup_insert_ne by congruence.
  - by rewrite lookup_delete_ne by congruence.
Qed.

Lemma values_bounded_mut prefix m mp :
  wf_mut m -> values_bounded mp -> values_bounded (mut_map prefix m mp).
Proof.
  intros Hw Hb. destruct (mut_map_cases prefix m mp Hw) as [(v & -> & Hv & _) | [-> _]].
  - by apply map_Forall_insert_2.
  - by apply map_Forall_delete.
Qed.

Definition guest_key (m : Mutation) : bytes :=
  match m with
  | MutSet key _ | MutDelete key | MutIncrement key _ | MutAcquire key _ _ _ => key
  end.

Lemma mut_key_ns prefix m : wf_prefix prefix -> key_ns (mut_key prefix m) = prefix.
Proof. intros Hp. destruct m; by apply key_ns_ns_key. Qed.

Lemma mut_key_cost prefix m v :
  wf_prefix prefix -> key_cost (mut_key prefix m) v = zlen (guest_key m) + zlen v.
Proof. intros Hp. destruct m; by apply key_cost_ns_key. Qed.

(** The delta read before a mutation is exactly its effect on any count of keys [e] and any
    sum of costs over keys, for the keys a test selects. *)
Lemma mut_delta_exact prefix m mp (sel : bytes -> bool) :
  wf_prefix prefix -> wf_mut m -> values_bounded mp ->
  let key := mut_key prefix m in
  let d := mut_delta m (mp !! key) in
  map_sum (fun k _ => if sel k then 1 else 0) (mut_map prefix m mp)
  = map_sum (fun k _ => if sel k then 1 else 0) mp + (if sel key then d.1 else 0) /\
  map_sum (fun k v => if sel k then key_cost k v else 0) (mut_map prefix m mp)
  = map_sum (fun k v => if sel k then key_cost k v else 0) mp + (if sel key then d.2 else 0).
Proof.
  intros Hp Hw Hb key d. fold key.
  assert (Hold : forall old, mp !! key = Some old -> 0 <= zlen old <= isize_max).
  { intros old Ho. split; [unfold zlen; lia|]. exact (Hb _ _ Ho). }
  assert (Hc := mut_key_cost prefix m). fold key in Hc.
  destruct (mut_map_cases prefix m mp Hw) as [(v & -> & Hv & Hm) | [-> [k' ->]]]; fold key.
  - rewrite !map_sum_insert. subst d. unfold saturating_sub_isize in *.
    destruct (mp !! key) as [old|] eqn:Ho; cbn [from_option];
      [specialize (Hold old eq_refl); rewrite !Hc by done|rewrite !Hc by done];
      (destruct m; cbn [mut_delta fst snd guest_key]; [subst v|done|..];
       unfold saturating_sub_isize, isize_max in *; destruct (sel key); split; lia).
  - rewrite !map_sum_delete_any. subst d.
    destruct (mp !! key) as [old|] eqn:Ho; cbn [from_option mut_delta fst snd].
    + rewrite Hc by done. cbn [guest_key]. destruct (sel key); split; lia.
    + destruct (sel key); split; lia.
Qed.

(** ** Concurrent calls under the stripe locks

    Every call holds its key's stripe lock from reading the stored value to writing the new
    one; the tally lock is taken only to charge.  [StepBegin] takes the stripe and reads,
    [StepCharge] / [StepReject] is the tally's critical section, [StepApply] writes the
    backend and releases the stripe.  Calls of any filters interleave at these points.  A
    backend that [may_fail] can fail either access: a failed read counts as an absent key, a
    failed write is dropped with only a log line, and neither undoes the charge. *)

Inductive Phase := PhRead (d : Z * Z) | PhCharged (d : Z * Z).

(** [pe_read] says that the read of the stored value succeeded. *)
Record Pending := mkPending { pe_prefix : bytes; pe_mut : Mutation; pe_read : bool; pe_phase : Phase }.

(** [qs_drift] is kept for the properties, nothing reads it: for each completed call whose storage
    access failed, its namespace and what it charged beyond its effect. *)
Record QState (B : Type) := mkQState {
  qs_kv : B;
  qs_quota : QuotaInner;
  qs_pending : list Pending;
  qs_drift : list (bytes * (Z * Z));
}.
Arguments mkQState {B}.
Arguments qs_kv {B}.
Arguments qs_quota {B}.
Arguments qs_pending {B}.
Arguments qs_drift {B}.

Definition pe_key (p : Pending) : bytes := mut_key (pe_prefix p) (pe_mut p).

Section concurrent.
Context {B : Type} `{KvBackendLaws B} (stripe : bytes -> nat) (may_fail : bool).

Inductive quota_step : QState B -> QState B -> Prop :=
| StepBegin kv q pend dr prefix m ok :
    wf_prefix prefix -> wf_mut m ->
    Forall (fun p => stripe (pe_key p) <> stripe (mut_key prefix m)) pend ->
    (ok = false -> may_fail = true) ->
    quota_step (mkQState kv q pend dr)
      (mkQState kv q (mkPending prefix m ok
         (PhRead (mut_delta m (if ok then kv_get kv (mut_key prefix m) else None))) :: pend) dr)
| StepCharge kv q l1 l2 dr prefix m ok de db q' :
    quota_charge q prefix de db = Some q' ->
    quota_step (mkQState kv q (l1 ++ mkPending prefix m ok (PhRead (de, db)) :: l2) dr)
      (mkQState kv q' (l1 ++ mkPending prefix m ok (PhCharged (de, db)) :: l2) dr)
| StepReject kv q l1 l2 dr prefix m ok de db :
    quota_charge q prefix de db = None ->
    quota_step (mkQState kv q (l1 ++ mkPending prefix m ok (PhRead (de, db)) :: l2) dr)
      (mkQState kv q (l1 ++ l2) dr)
| StepApply kv q l1 l2 dr prefix m ok d :
    quota_step (mkQState kv q (l1 ++ mkPending prefix m ok (PhCharged d) :: l2) dr)
      (mkQState (snd (mut_apply prefix m kv)) q (l1 ++ l2)
         (if ok then dr
          else let e := mut_delta m (kv_get kv (mut_key prefix m)) in (prefix, (d.1 - e.1, d.2 - e.2)) :: dr))
| StepLost kv q l1 l2 dr prefix m ok d :
    may_fail = true ->
    quota_step (mkQState kv q (l1 ++ mkPending prefix m ok (PhCharged d) :: l2) dr)
      (mkQState kv q (l1 ++ l2) ((prefix, d) :: dr)).

Definition quota_reach := rtc quota_step.

Definition pending_delta (p : Pending) : Z * Z :=
  match pe_phase p with PhRead d | PhCharged d => d end.

(** What the charged, not yet applied calls owe a namespace (or everyone). *)
Definition charged (sel : bytes -> bool) (proj : Z * Z -> Z) (p : Pending) : Z :=
  match pe_phase p with
  | PhCharged d => if sel (pe_prefix p) then proj d else 0
  | PhRead _ => 0
  end.
Definition owed (sel : bytes -> bool) (proj : Z * Z -> Z) (pend : list Pending) : Z :=
  sumZ (map (charged sel proj) pend).

(** What the failed calls of a namespace (or of everyone) left in the tallies. *)
Definition drift (sel : bytes -> bool) (proj : Z * Z -> Z) (dr : list (bytes * (Z * Z))) : Z :=
  sumZ (map (fun e => if sel e.1 then proj e.2 else 0) dr).

Definition is_ns (ns prefix : bytes) : bool := bool_decide (ns = prefix).

(** The tallies are the stored entries and bytes and [extra] more. *)
Definition tally_off (extra : (bytes -> bool) -> (Z * Z -> Z) -> Z) (q : QuotaInner) (m : gmap bytes bytes) : Prop :=
  (forall ns, nu_entries (usage_of q ns) = store_entries ns m + extra (is_ns ns) fst /\
              nu_bytes (usage_of q ns) = store_bytes ns m + extra (is_ns ns) snd) /\
  q_total_entries q = store_total_entries m + extra (fun _ => true) fst /\
  q_total_bytes q = store_total_bytes m + extra (fun _ => true) snd.

Definition quota_inv (s : QState B) : Prop :=
  let m := kv_view (qs_kv s) in
  values_bounded m /\
  NoDup (map pe_key (qs_pending s)) /\
  Forall (fun p => wf_prefix (pe_prefix p) /\ wf_mut (pe_mut p) /\
            (pe_read p = true -> pending_delta p = mut_delta (pe_mut p) (m !! pe_key p)) /\
            (pe_read p = false -> may_fail = true)) (qs_pending s) /\
  tally_off (fun sel proj => owed sel proj (qs_pending s) + drift sel proj (qs_drift s)) (qs_quota s) m /\
  (may_fail = false -> qs_drift s = []).

Lemma owed_middle sel proj l1 p l2 :
  owed sel proj (l1 ++ p :: l2) = owed sel proj (l1 ++ l2) + charged sel proj p.
Proof. unfold owed. rewrite !map_app, !sumZ_app. cbn [map sumZ]. lia. Qed.

Lemma drift_cons sel proj ns d dr :
  drift sel proj ((ns, d) :: dr) = (if sel ns then proj d else 0) + drift sel proj dr.
Proof. done. Qed.

Lemma tally_off_ext extra1 extra2 q m : (forall sel proj, extra1 sel proj = extra2 sel proj) ->
  tally_off extra1 q m -> tally_off extra2 q m.
Proof. intros He (Hns & Ht). unfold tally_off. setoid_rewrite <- He. by split. Qed.

Lemma in_ns_mut_key ns prefix m :
  wf_prefix prefix -> in_ns ns (mut_key prefix m) = is_ns ns prefix.
Proof.
  intros Hp. unfold in_ns, is_ns, bytes_eqb. rewrite mut_key_ns by done.
  apply bool_decide_ext. split; congruence.
Qed.

(** A mutation moves the store by its exact delta. *)
Lemma tally_off_mut extra1 extra2 q prefix m mp : wf_prefix prefix -> wf_mut m -> values_bounded mp ->
  (forall (sel : bytes -> bool) (proj : Z * Z -> Z), proj = fst \/ proj = snd ->
     extra1 sel proj = extra2 sel proj + (if sel prefix then proj (mut_delta m (mp !! mut_key prefix m)) else 0)) ->
  tally_off extra1 q mp -> tally_off extra2 q (mut_map prefix m mp).
Proof.
  intros Hp Hm Hb He (Hns & Hte & Htb). unfold tally_off. rewrite (He _ fst) in Hte by auto. rewrite (He _ snd) in Htb by auto.
  split; [intros ns; destruct (Hns ns) as [H1 H2]; rewrite (He _ fst) in H1 by auto; rewrite (He _ snd) in H2 by auto|].
  - destruct (mut_delta_exact prefix m mp (in_ns ns) Hp Hm Hb) as [H3 H4].
    rewrite (in_ns_mut_key ns prefix m Hp) in H3, H4. unfold store_entries, store_bytes in *. lia.
  - destruct (mut_delta_exact prefix m mp (fun _ => true) Hp Hm Hb) as [H3 H4].
    unfold store_total_entries, store_total_bytes in *. cbn in *. lia.
Qed.

Lemma quota_inv_begin kv q pend dr prefix m ok :
  wf_prefix prefix -> wf_mut m ->
  Forall (fun p => stripe (pe_key p) <> stripe (mut_key prefix m)) pend ->
  (ok = false -> may_fail = true) ->
  quota_inv (mkQState kv q pend dr) ->
  quota_inv (mkQState kv q (mkPending prefix m ok
    (PhRead (mut_delta m (if ok then kv_get kv (mut_key prefix m) else None))) :: pend) dr).
Proof.
  intros Hp Hm Hst Hok (Hb & Hnd & Hall & Ht & Hd). unfold quota_inv in *. cbn [qs_kv qs_pending qs_drift qs_quota] in *.
  split_and!; [done| | |exact Ht|done].
  - cbn [map]. constructor; [|done]. intros Hin.
    apply list_elem_of_fmap in Hin as (p & Heq & Hin).
    pose proof (proj1 (Forall_forall _ _) Hst p Hin) as Hne. simpl in Hne.
    rewrite <- Heq in Hne. done.
  - constructor; [|done]. split_and!; [done|done| |done].
    unfold pending_delta, pe_key. cbn. intros ->. by rewrite kv_get_view.
Qed.

Lemma NoDup_middle {A} (l1 l2 : list A) x : NoDup (l1 ++ x :: l2) -> NoDup (l1 ++ l2) /\ x ∉ l1 ++ l2.
Proof. intros Hn. rewrite <- Permutation_middle in Hn. apply NoDup_cons in Hn. tauto. Qed.

Lemma quota_inv_charge kv q l1 l2 dr prefix m ok de db q' :
  quota_charge q prefix de db = Some q' ->
  quota_inv (mkQState kv q (l1 ++ mkPending prefix m ok (PhRead (de, db)) :: l2) dr) ->
  quota_inv (mkQState kv q' (l1 ++ mkPending prefix m ok (PhCharged (de, db)) :: l2) dr).
Proof.
  intros Hq (Hb & Hnd & Hall & (Hns & Hte & Htb) & Hd). unfold quota_inv in *. cbn [qs_kv qs_pending qs_drift qs_quota] in *.
  pose proof (quota_charge_Some _ _ _ _ _ Hq) as (Hu & Hte' & Htb' & _).
  split_and!; [done|by rewrite map_app in *| | |done].
  { rewrite Forall_app, Forall_cons in *. exact Hall. }
  unfold tally_off in *. rewrite !owed_middle in *. setoid_rewrite owed_middle in Hns. setoid_rewrite owed_middle.
  unfold charged in *. cbn [pe_phase pe_prefix] in *.
  split; [|cbn in *; lia]. intros ns. specialize (Hns ns). rewrite Hu. unfold is_ns in *.
  case_bool_decide; subst; cbn [nu_entries nu_bytes fst snd]; lia.
Qed.

(** A call that leaves the pending list without an effect on the store. *)
Lemma quota_inv_remove kv q l1 l2 dr p dr' :
  quota_inv (mkQState kv q (l1 ++ p :: l2) dr) ->
  (forall sel proj, charged sel proj p + drift sel proj dr = drift sel proj dr') ->
  (may_fail = false -> dr' = []) ->
  quota_inv (mkQState kv q (l1 ++ l2) dr').
Proof.
  intros (Hb & Hnd & Hall & Ht & Hd) He Hd'. unfold quota_inv in *. cbn [qs_kv qs_pending qs_drift qs_quota] in *.
  split_and!; [done| | | |done].
  - rewrite map_app in *. cbn [map] in Hnd. by apply NoDup_middle in Hnd as [? _].
  - rewrite Forall_app, Forall_cons in Hall. rewrite Forall_app. tauto.
  - eapply tally_off_ext; [|exact Ht]. intros sel proj. cbn beta. rewrite owed_middle, <- He. lia.
Qed.

Lemma quota_inv_apply kv q l1 l2 dr prefix m ok d :
  quota_inv (mkQState kv q (l1 ++ mkPending prefix m ok (PhCharged d) :: l2) dr) ->
  quota_inv (mkQState (snd (mut_apply prefix m kv)) q (l1 ++ l2)
    (if ok then dr
     else let e := mut_delta m (kv_get kv (mut_key prefix m)) in (prefix, (d.1 - e.1, d.2 - e.2)) :: dr)).
Proof.
  intros (Hb & Hnd & Hall & Ht & Hdr). unfold quota_inv in *. cbn [qs_kv qs_pending qs_drift qs_quota] in *.
  rewrite mut_apply_view. set (p := mkPending prefix m ok (PhCharged d)) in *.
  rewrite map_app in Hnd. cbn [map] in Hnd. apply NoDup_middle in Hnd as [Hnd Hnot].
  rewrite Forall_app, Forall_cons in Hall. destruct Hall as (Ha1 & (Hp & Hm & Hd & Hf) & Ha2).
  cbn [pe_prefix pe_mut pe_read p pending_delta pe_phase] in Hp, Hm, Hd, Hf. change (pe_key p) with (mut_key prefix m) in Hd, Hnot.
  split_and!; [by apply values_bounded_mut|by rewrite map_app| | |].
  - pose proof (proj2 (Forall_app _ _ _) (conj Ha1 Ha2)) as Ha.
    apply Forall_forall. intros x Hin. destruct (proj1 (Forall_forall _ _) Ha x Hin) as (Hxp & Hxm & Hxd & Hxf).
    split_and!; [done|done| |done]. rewrite mut_map_other; [done|done|].
    intros Heq. apply Hnot. rewrite <- Heq, <- map_app. by apply (list_elem_of_fmap_2 pe_key).
  - eapply tally_off_mut; [done..| |exact Ht]. intros sel proj Hproj. cbn beta. rewrite owed_middle, kv_get_view.
    unfold charged. cbn [pe_phase pe_prefix p]. destruct ok.
    + rewrite <- (Hd eq_refl). unfold pending_delta. cbn. lia.
    + cbv zeta. rewrite drift_cons. destruct (sel prefix), Hproj as [-> | ->]; cbn [fst snd]; lia.
  - intros E. destruct ok; [auto|]. by rewrite Hf in E.
Qed.

Lemma quota_inv_step s s' : quota_step s s' -> quota_inv s -> quota_inv s'.
Proof.
  intros Hstep Hinv. destruct Hstep as [| |kv q l1 l2 dr prefix m ok de db Hq| |kv q l1 l2 dr prefix m ok d Hf].
  - by apply quota_inv_begin.
  - by eapply quota_inv_charge.
  - eapply quota_inv_remove; [exact Hinv|done|apply Hinv].
  - by apply quota_inv_apply.
  - eapply quota_inv_remove; [exact Hinv|done|]. intros E. by rewrite E in Hf.
Qed.

Lemma quota_inv_reach s s' : quota_reach s s' -> quota_inv s -> quota_inv s'.
Proof. induction 1; eauto using quota_inv_step. Qed.

(** No tally exceeds both its cap and where it started. *)
Definition within_caps (q0 q : QuotaInner) : Prop :=
  (forall ns, nu_entries (usage_of q ns) <= Z.max MAX_NS_ENTRIES (nu_entries (usage_of q0 ns)) /\
              nu_bytes (usage_of q ns) <= Z.max MAX_NS_BYTES (nu_bytes (usage_of q0 ns))) /\
  q_total_entries q <= Z.max MAX_TOTAL_ENTRIES (q_total_entries q0) /\
  q_total_bytes q <= Z.max MAX_TOTAL_BYTES (q_total_bytes q0).

Lemma within_caps_refl q : within_caps q q.
Proof. split; [intros ns|]; lia. Qed.

Lemma within_caps_charge q0 q ns de db q' :
  quota_charge q ns de db = Some q' -> within_caps q0 q -> within_caps q0 q'.
Proof.
  intros Hq (Hns & Hte & Htb). apply quota_charge_Some in Hq as (Hu & Et & Eb & Hgrow).
  destruct (decide (0 < de \/ 0 < db)) as [Hg|Hg].
  - destruct (Hgrow Hg) as (H1 & H2 & H3 & H4). split; [|lia]. intros ns'. specialize (Hns ns').
    destruct (decide (ns' = ns)) as [->|Hne]; [lia|].
    rewrite Hu, bool_decide_false by done. lia.
  - split; [|lia]. intros ns'. rewrite Hu. specialize (Hns ns').
    case_bool_decide; subst; cbn [nu_entries nu_bytes]; lia.
Qed.

Lemma within_caps_reach q0 s s' :
  quota_reach s s' -> within_caps q0 (qs_quota s) -> within_caps q0 (qs_quota s').
Proof.
  induction 1 as [|s s1 s2 Hstep _ IH]; [done|]. intros Hc. apply IH.
  destruct Hstep; cbn [qs_quota] in *; eauto using within_caps_charge.
Qed.

End concurrent.

(** ** Log lines *)

Definition c0_byte (c : ascii) : bool := in_range 0 31 c || in_range 127 127 c.

Lemma replace_controls_no_c0 s : has_c0 (replace_controls s) = false.
Proof.
  remember (length s) as n eqn:Hn. revert s Hn.
  induction n as [n IH] using lt_wf_ind. intros s Hn. subst n.
  destruct s as [|a s]; [done|]. cbn [replace_controls].
  destruct (in_range 0 31 a || in_range 127 127 a) eqn:Ha.
  { unfold has_c0 in *. rewrite existsb_app. apply orb_false_iff. split; [by vm_compute|].
    by apply (IH (length s)); [simpl; lia|]. }
  destruct s as [|c s].
  { unfold has_c0. cbn [existsb]. by rewrite Ha. }
  destruct (in_range 194 194 a && in_range 128 159 c).
  { unfold has_c0 in *. rewrite existsb_app. apply orb_false_iff. split; [by vm_compute|].
    by apply (IH (length s)); [simpl; lia|]. }
  unfold has_c0 in *. cbn [existsb]. rewrite Ha. cbn [orb].
  apply (IH (length (c :: s))); [simpl; lia|done].
Qed.

Lemma sanitize_no_c0 s n : has_c0 (sanitize_log_message s n) = false.
Proof.
  unfold sanitize_log_message. cbv zeta.
  match goal with |- has_c0 (if has_c0 ?m then _ else _) = false => destruct (has_c0 m) eqn:E end;
    [apply replace_controls_no_c0|done].
Qed.

(** A message whose only controls are C1 (here U+009B, the one-byte CSI) is kept as it is. *)
Lemma sanitize_keeps_lone_c1 :
  let csi := map ascii_of_nat [194; 155; 51; 49; 109]%nat in
  sanitize_log_message csi MAX_LOG_MSG_BYTES = csi /\
  sanitize_log_message (ascii_of_nat 10 :: csi) MAX_LOG_MSG_BYTES
    = REPLACEMENT ++ REPLACEMENT ++ bs "31m".
Proof. by vm_compute. Qed.

Fixpoint host_logs (b : LineCountBudget) (logs : list LogLine)
    (calls : list (LogLevel * bytes)) : LineCountBudget * list LogLine :=
  match calls with
  | [] => (b, logs)
  | (level, message) :: rest =>
    let '(b', logs') := host_log b logs level message in host_logs b' logs' rest
  end.

Definition log_inv (b : LineCountBudget) (logs : list LogLine) : Prop :=
  0 < lb_max_lines b /\ lb_count b = Z.of_nat (length logs) /\ lb_count b <= lb_max_lines b /\
  Forall (fun l => has_c0 (ll_message l) = false) logs.

Lemma host_log_inv b logs level message :
  log_inv b logs ->
  let '(b', logs') := host_log b logs level message in
  log_inv b' logs' /\ lb_max_lines b' = lb_max_lines b /\ exists more, logs' = logs ++ more.
Proof.
  intros (Hm & Hc & Hle & Hall). unfold host_log, budget_admit, saturating_sub.
  assert (Hmk : has_c0 truncation_marker = false) by by vm_compute.
  pose proof (sanitize_no_c0 message MAX_LOG_MSG_BYTES) as Hs.
  destruct (Z.ltb_spec (lb_count b) (Z.max (lb_max_lines b - 1) 0));
    [|destruct (Z.eqb_spec (lb_count b) (Z.max (lb_max_lines b - 1) 0))];
    unfold log_inv; cbn [lb_max_lines lb_count].
  - rewrite length_app, Forall_app. cbn [length].
    split_and!; [lia..|done|by constructor|done|by eexists].
  - rewrite length_app, Forall_app. cbn [length].
    split_and!; [lia..|done|by constructor|done|by eexists].
  - split_and!; [lia..|done|done|]. exists []. by rewrite app_nil_r.
Qed.

Lemma host_logs_inv calls : forall b logs,
  log_inv b logs ->
  let '(b', logs') := host_logs b logs calls in
  log_inv b' logs' /\ lb_max_lines b' = lb_max_lines b /\ exists more, logs' = logs ++ more.
Proof.
  induction calls as [|[level message] calls IH]; intros b logs Hinv; cbn [host_logs].
  { split; [done|]. split; [done|]. exists []. by rewrite app_nil_r. }
  pose proof (host_log_inv b logs level message Hinv) as Hl.
  destruct (host_log b logs level message) as [b1 logs1]. destruct Hl as (Hi & Hm & more & ->).
  specialize (IH b1 _ Hi). destruct (host_logs b1 _ calls) as [b2 logs2].
  destruct IH as (Hi2 & Hm2 & more2 & ->). split; [done|]. split; [congruence|].
  exists (more ++ more2). by rewrite app_assoc.
Qed.

(** ** The sequential calls *)

Section sequential.
Context {B : Type} `{KvBackendLaws B}.

(** A call with no other in flight is its begin, charge (or reject) and apply steps. *)
Lemma charge_and_apply_reach stripe may_fail prefix m (s : Shared B) dr :
  wf_prefix prefix -> wf_mut m ->
  let s' := snd (charge_and_apply prefix m s) in
  quota_reach stripe may_fail (mkQState (sh_kv s) (sh_quota s) [] dr)
    (mkQState (sh_kv s') (sh_quota s') [] dr).
Proof.
  intros Hp Hm. unfold charge_and_apply.
  destruct (mut_delta m (kv_get (sh_kv s) (mut_key prefix m))) as [de db] eqn:Hd.
  eapply rtc_l; [by apply (StepBegin stripe may_fail _ _ [] dr prefix m true Hp Hm)|].
  rewrite Hd. destruct (quota_charge (sh_quota s) prefix de db) as [q'|] eqn:Hq.
  - destruct (mut_apply prefix m (sh_kv s)) as [ans kv'] eqn:Ha. cbn [snd sh_kv sh_quota].
    eapply rtc_l; [apply (StepCharge stripe may_fail _ _ [] [] dr prefix m true de db q' Hq)|].
    eapply rtc_l; [apply (StepApply stripe may_fail _ _ [] [])|]. rewrite Ha. apply rtc_refl.
  - eapply rtc_l; [apply (StepReject stripe may_fail _ _ [] [] dr prefix m true de db Hq)|]. apply rtc_refl.
Qed.

Lemma charge_and_apply_view prefix m (s : Shared B) k :
  wf_mut m -> k <> mut_key prefix m ->
  kv_view (sh_kv (snd (charge_and_apply prefix m s))) !! k = kv_view (sh_kv s) !! k.
Proof.
  intros Hm Hk. unfold charge_and_apply.
  destruct (mut_delta _ _) as [de db]. destruct (quota_charge _ _ _ _); [|done].
  pose proof (mut_apply_view prefix m (sh_kv s)) as Hv.
  destruct (mut_apply prefix m (sh_kv s)). cbn [snd sh_kv] in *. rewrite Hv.
  by apply mut_map_other.
Qed.

Lemma charge_and_apply_usage prefix m (s : Shared B) ns :
  ns <> prefix ->
  usage_of (sh_quota (snd (charge_and_apply prefix m s))) ns = usage_of (sh_quota s) ns.
Proof.
  intros Hns. unfold charge_and_apply.
  destruct (mut_delta _ _) as [de db]. destruct (quota_charge _ _ _ _) as [q'|] eqn:Hq; [|done].
  apply quota_charge_Some in Hq as (Hu & _).
  destruct (mut_apply prefix m (sh_kv s)). cbn [snd sh_quota]. rewrite Hu.
  by rewrite bool_decide_false.
Qed.

Lemma kv_increment_zero (kv : B) k :
  kv_view (snd (kv_increment kv k 0)) = kv_view kv /\
  fst (kv_increment kv k 0) = decode_i64 (default [] (kv_view kv !! k)).
Proof.
  pose proof (kv_increment_view kv k 0) as Hi. unfold map_increment in Hi. cbn in Hi.
  by simplify_eq/=.
Qed.

(** Every host call is a read, or one quota-checked mutation in the caller's namespace. *)
Lemma host_call_cases (c : HostCtx) call (s : Shared B) :
  let s' := snd (host_call c call s) in
  (kv_view (sh_kv s') = kv_view (sh_kv s) /\ sh_quota s' = sh_quota s) \/
  exists m, wf_mut m /\ s' = snd (charge_and_apply (hc_kv_prefix c) m s).
Proof.
  destruct call as [key|key value|key|key delta|key|key cost]; cbn [host_call].
  - by left.
  - unfold host_kv_set. cbn [snd].
    destruct (Z.ltb_spec MAX_KV_KEY_BYTES (zlen key)); cbn [orb]; [by left|].
    destruct (Z.ltb_spec MAX_KV_VALUE_BYTES (zlen value)); [by left|].
    right. exists (MutSet key value). split; [done|done].
  - unfold host_kv_delete. cbn [snd]. destruct (Z.ltb_spec MAX_KV_KEY_BYTES (zlen key)); [by left|].
    right. by exists (MutDelete key).
  - unfold host_counter_increment. destruct (Z.ltb_spec MAX_KV_KEY_BYTES (zlen key)); [by left|].
    destruct (Z.eqb_spec delta 0) as [->|Hd].
    + left. destruct (kv_increment_zero (sh_kv s) (ns_key (hc_kv_prefix c) TAG_COUNTER key))
        as [Hv _]. destruct (kv_increment _ _ _). done.
    + right. exists (MutIncrement key delta). split; [done|].
      by destruct (charge_and_apply _ _ _).
  - unfold host_counter_get. destruct (Z.ltb_spec MAX_KV_KEY_BYTES (zlen key)); [by left|]. left.
    destruct (kv_increment_zero (sh_kv s) (ns_key (hc_kv_prefix c) TAG_COUNTER key)) as [Hv _].
    by destruct (kv_increment _ _ _).
  - unfold host_try_acquire. destruct (hc_ratelimit_bucket c) as [spec|]; [|by left].
    destruct (Z.ltb_spec MAX_KV_KEY_BYTES (zlen key)); [by left|]. right. exists (MutAcquire key cost spec (hc_now_ms c)).
    split; [done|]. by destruct (charge_and_apply _ _ _).
Qed.

Lemma host_call_isolated (c : HostCtx) call (s : Shared B) prefix tag key :
  wf_prefix (hc_kv_prefix c) -> wf_prefix prefix -> prefix <> hc_kv_prefix c ->
  let s' := snd (host_call c call s) in
  kv_view (sh_kv s') !! ns_key prefix tag key = kv_view (sh_kv s) !! ns_key prefix tag key /\
  usage_of (sh_quota s') prefix = usage_of (sh_quota s) prefix.
Proof.
  intros Hc Hp Hne. destruct (host_call_cases c call s) as [[Hv Hq] | (m & Hm & Hs)].
  - cbv zeta. by rewrite Hv, Hq.
  - cbv zeta. rewrite Hs. split; [|by apply charge_and_apply_usage].
    apply charge_and_apply_view; [done|]. intros Heq. apply Hne.
    destruct m; by eapply ns_key_inj in Heq as [? _].
Qed.
End sequential.

(** ** Properties *)

(** C17: quota accounting is exact under concurrency, up to the backend's own failures: from an exact
    tally, after any interleaving of concurrent host calls of any filters (each read, charge and
    write a separate step, calls exclusive per key stripe), whenever no call is in flight each
    tally is the stored entries and bytes plus what the failed calls charged beyond their effect;
    on a backend that does not fail the tallies are therefore exact; and no namespace or
    host-wide tally ever exceeds its cap unless it started above it. *)
Theorem quota_exact_under_concurrency {B} `{KvBackendLaws B} (stripe : bytes -> nat) (may_fail : bool)
    (kv : B) (q : QuotaInner) (s : QState B)
    (Hb : values_bounded (kv_view kv)) (Ht : tally_exact q (kv_view kv))
    (Hreach : quota_reach stripe may_fail (mkQState kv q [] []) s) :
  (qs_pending s = [] ->
     tally_off (fun sel proj => drift sel proj (qs_drift s)) (qs_quota s) (kv_view (qs_kv s)) /\
     (may_fail = false -> tally_exact (qs_quota s) (kv_view (qs_kv s)))) /\
  within_caps q (qs_quota s).
Proof.
  split; [|exact (within_caps_reach stripe may_fail q _ _ Hreach (within_caps_refl q))].
  intros Hpend. assert (Hinv : quota_inv may_fail s).
  { eapply quota_inv_reach; [exact Hreach|]. unfold quota_inv. cbn.
    split_and!; [done|constructor|constructor| |done].
    destruct Ht as (Hns & Hte & Htb). unfold tally_off, owed, drift. cbn.
    split; [intros ns; specialize (Hns ns)|]; lia. }
  destruct Hinv as (_ & _ & _ & Hoff & Hdr). rewrite Hpend in Hoff. split; [done|].
  intros E. rewrite (Hdr E) in Hoff. destruct Hoff as (Hns & Hte & Htb). unfold owed, drift in *. cbn in *.
  split; [intros ns; specialize (Hns ns)|]; lia.
Qed.

Definition demo_prefix : bytes := bs "f" ++ [KV_NS_DELIM].
Definition demo_mut : Mutation := MutSet (bs "k") (bs "vv").
Definition demo_charged : QuotaInner := mkQuota {[ demo_prefix := mkUsage 1 3 ]} 1 3.

Lemma demo_wf : wf_prefix demo_prefix.
Proof. exists (bs "f"). split; [done|]. intros H. apply contains_byte_spec in H. discriminate H. Qed.

(** The same set on a backend that takes the write, and on one that loses it. *)
Definition demo_final (lost : bool) : QState MemoryBackend :=
  mkQState (if lost then mkMemory ∅ else snd (mut_apply demo_prefix demo_mut (mkMemory ∅))) demo_charged []
    (if lost then [(demo_prefix, (1, 3))] else []).

Lemma demo_reach lost : quota_reach (fun _ => O) lost (mkQState (mkMemory ∅) quota_new [] []) (demo_final lost).
Proof.
  eapply rtc_l.
  { apply (StepBegin _ _ _ _ [] [] demo_prefix demo_mut true demo_wf); [vm_compute; congruence|constructor|done]. }
  eapply rtc_l.
  { apply (StepCharge _ _ _ _ [] [] [] demo_prefix demo_mut true 1 3 demo_charged). by vm_compute. }
  destruct lost.
  - eapply rtc_l; [by apply (StepLost _ _ _ _ [] [])|]. apply rtc_refl.
  - eapply rtc_l; [apply (StepApply _ _ _ _ [] [])|]. apply rtc_refl.
Qed.

Lemma quota_exact_under_concurrency_witness :
  tally_exact (qs_quota (demo_final false)) (kv_view (qs_kv (demo_final false))) /\
  q_total_bytes (qs_quota (demo_final false)) = 3 /\
  q_total_bytes (qs_quota (demo_final true)) = store_total_bytes (kv_view (qs_kv (demo_final true))) + 3.
Proof.
  assert (Hv : values_bounded (kv_view (mkMemory ∅))).
  { intros k v Hv. cbn in Hv. rewrite lookup_empty in Hv. discriminate Hv. }
  pose proof (fun lost => proj1 (quota_exact_under_concurrency (fun _ => O) lost (mkMemory ∅) quota_new (demo_final lost)
    Hv tally_exact_new (demo_reach lost)) eq_refl) as H.
  split; [exact (proj2 (H false) eq_refl)|]. split; [reflexivity|]. exact (proj2 (proj2 (proj1 (H true)))).
Defined.

(** A call on a redb backend whose engine fails is one of those steps: its read finds no key, its write
    is dropped, and what it charged stays in the tally until a restart restores it from the store. *)
Lemma redb_failure_drifts (stripe : bytes -> nat) prefix m (s : Shared RedbBackend) dr :
  wf_prefix prefix -> wf_mut m ->
  let s' := (charge_and_apply (H := redb_backend true) prefix m s).2 in
  sh_kv s' = sh_kv s /\
  exists dr', quota_reach stripe true (mkQState (sh_kv s) (sh_quota s) [] dr) (mkQState (sh_kv s') (sh_quota s') [] dr').
Proof.
  intros Hp Hm. unfold charge_and_apply. change (kv_get (sh_kv s) (mut_key prefix m)) with (@None bytes).
  assert (Hkv : forall (kv : RedbBackend), (mut_apply (H := redb_backend true) prefix m kv).2 = kv).
  { intros kv. destruct m as [| |key delta|]; [done|done| |done]. cbn. unfold redb_increment. by destruct (delta =? 0). }
  destruct (mut_delta m None) as [de db] eqn:Hd.
  destruct (quota_charge (sh_quota s) prefix de db) as [q'|] eqn:Hq; cbn [snd sh_kv sh_quota].
  - specialize (Hkv (sh_kv s)). destruct (mut_apply prefix m (sh_kv s)) as [ans kv']. cbn [snd sh_kv sh_quota] in *. subst kv'.
    split; [done|]. eexists.
    eapply rtc_l; [by apply (StepBegin stripe true _ _ [] dr prefix m false Hp Hm)|]. rewrite Hd.
    eapply rtc_l; [by apply (StepCharge stripe true _ _ [] [])|].
    eapply rtc_l; [by apply (StepLost stripe true _ _ [] [])|]. apply rtc_refl.
  - split; [done|]. exists dr.
    eapply rtc_l; [by apply (StepBegin stripe true _ _ [] dr prefix m false Hp Hm)|]. rewrite Hd.
    eapply rtc_l; [by apply (StepReject stripe true _ _ [] [])|]. apply rtc_refl.
Qed.

(** C18: filters are isolated: whatever one filter calls on the host state, every key another
    filter can name, its counter reads, its key-value reads and its quota usage are
    unchanged. *)
Theorem host_state_isolated {B} `{KvBackendLaws B} (c1 c2 : HostCtx) (call : HostCall)
    (s : Shared B) (key : bytes)
    (H1 : wf_prefix (hc_kv_prefix c1)) (H2 : wf_prefix (hc_kv_prefix c2))
    (Hne : hc_kv_prefix c1 <> hc_kv_prefix c2) :
  let s' := snd (host_call c1 call s) in
  host_kv_get c2 key s' = host_kv_get c2 key s /\
  fst (host_counter_get c2 key s') = fst (host_counter_get c2 key s) /\
  (forall tag, kv_view (sh_kv s') !! ns_key (hc_kv_prefix c2) tag key
               = kv_view (sh_kv s) !! ns_key (hc_kv_prefix c2) tag key) /\
  usage_of (sh_quota s') (hc_kv_prefix c2) = usage_of (sh_quota s) (hc_kv_prefix c2).
Proof.
  intros s'.
  assert (Hiso := fun tag => host_call_isolated c1 call s (hc_kv_prefix c2) tag key H1 H2
    (not_eq_sym Hne)). fold s' in Hiso. split; [|split; [|split]].
  - unfold host_kv_get. destruct (Z.ltb_spec MAX_KV_KEY_BYTES (zlen key)); [done|]. rewrite !kv_get_view. apply Hiso.
  - unfold host_counter_get. destruct (Z.ltb_spec MAX_KV_KEY_BYTES (zlen key)); [done|].
    destruct (kv_increment_zero (sh_kv s') (ns_key (hc_kv_prefix c2) TAG_COUNTER key)) as [_ E'].
    destruct (kv_increment_zero (sh_kv s) (ns_key (hc_kv_prefix c2) TAG_COUNTER key)) as [_ E].
    destruct (kv_increment (sh_kv s') _ _), (kv_increment (sh_kv s) _ _). cbn [fst snd] in *.
    rewrite E, E'. by rewrite (proj1 (Hiso TAG_COUNTER)).
  - intros tag. apply Hiso.
  - apply (Hiso TAG_KV).
Qed.

Definition demo_ctx (id : bytes) : HostCtx := mkCtx (id ++ [KV_NS_DELIM]) None 0 ∅.

Lemma host_state_isolated_witness :
  let s := mkShared (mkMemory ∅) quota_new in
  let s1 := snd (host_call (demo_ctx (bs "a")) (HcKvSet (bs "k") (bs "v")) s) in
  host_kv_get (demo_ctx (bs "a")) (bs "k") s1 = Some (bs "v") /\
  host_kv_get (demo_ctx (bs "b")) (bs "k") s1 = host_kv_get (demo_ctx (bs "b")) (bs "k") s.
Proof.
  split; [by vm_compute|].
  refine (proj1 (host_state_isolated (demo_ctx (bs "a")) (demo_ctx (bs "b"))
    (HcKvSet (bs "k") (bs "v")) (mkShared (mkMemory ∅) quota_new) (bs "k") _ _ _)).
  - exists (bs "a"). split; [done|]. intros H. apply contains_byte_spec in H. discriminate H.
  - exists (bs "b"). split; [done|]. intros H. apply contains_byte_spec in H. discriminate H.
  - discriminate.
Defined.

(** a request's log volume and content are bounded by the host: whatever a filter logs, at
    most the budget's lines are kept, in order, and no kept message holds a C0 control or
    DEL byte, so it cannot forge a log line. *)
Theorem host_log_bounded (max_lines : Z) (calls : list (LogLevel * bytes))
    (Hm : 0 < max_lines) :
  let logs := snd (host_logs (mkBudget max_lines 0) [] calls) in
  Z.of_nat (length logs) <= max_lines /\
  Forall (fun l => has_c0 (ll_message l) = false) logs.
Proof.
  assert (Hinv : log_inv (mkBudget max_lines 0) []) by
    (unfold log_inv; cbn; split_and!; [lia..|constructor]).
  pose proof (host_logs_inv calls _ _ Hinv) as H.
  destruct (host_logs _ [] calls) as [b logs]. destruct H as ((_ & Hc & Hle & Hall) & Hmx & _).
  cbn [snd lb_max_lines] in *. split; [lia|done].
Qed.

Lemma host_log_bounded_witness :
  length (snd (host_logs (mkBudget 2 0) [] (replicate 5 (LogInfo, bs "x")))) = 2%nat /\
  Z.of_nat (length (snd (host_logs (mkBudget 2 0) [] (replicate 5 (LogInfo, bs "x"))))) <= 2.
Proof.
  split; [by vm_compute|]. apply (host_log_bounded 2 (replicate 5 (LogInfo, bs "x"))). lia.
Defined.
