(* ===== verification/Chain.v ===== *)
(** * The filter chain (control/src/chain.rs, host/src/errors.rs, the hooks of host/src/filter.rs)

    Requests run through a route's filters in order, responses in reverse; decisions edit or
    answer, faults answer fail-closed.  A filter's guest code is a parameter: its hooks are
    the operations of [FilterHost], threading an abstract state of the host and guests. *)

From S2P Require Import Prelude Bytes.

(** ** Messages and decisions (the guest contract) *)

Record Header := mkHeader { h_name : bytes; h_value : bytes }.

Record HttpRequest := mkRequest {
  rq_method : bytes;
  rq_path_with_query : bytes;
  rq_authority : bytes;
  rq_scheme : bytes;
  rq_headers : list Header;
}.

Record HttpResponse := mkResponse {
  rs_status : Z;
  rs_headers : list Header;
  rs_body : bytes;
}.

Record RequestEdit := mkRequestEdit {
  re_set_headers : list Header;
  re_remove_headers : list bytes;
}.

Record ResponseEdit := mkResponseEdit {
  se_set_status : option Z;
  se_set_headers : list Header;
  se_remove_headers : list bytes;
}.

Record BodyEdit := mkBodyEdit {
  be_body : bytes;
  be_set_headers : list Header;
  be_remove_headers : list bytes;
}.

Inductive RequestDecision :=
| RqContinue
| RqModified (edit : RequestEdit)
| RqShortCircuit (response : HttpResponse).

Inductive ResponseDecision :=
| RsContinue
| RsModified (edit : ResponseEdit)
| RsReplace (response : HttpResponse).

Inductive RequestBodyDecision :=
| RbContinue
| RbModified (edit : BodyEdit)
| RbShortCircuit (response : HttpResponse).

Inductive ResponseBodyDecision :=
| SbContinue
| SbModified (edit : BodyEdit)
| SbReplace (response : HttpResponse).

(** ** Faults *)

Inductive RunError := Deadline | Trap | Instantiate | Unavailable | InvalidOutput.

Definition fault_header : bytes := bs "x-plecto-fault".

Definition fail_closed_response (e : RunError) : HttpResponse :=
  let '(status, fault, msg) :=
    match e with
    | Deadline => (504, "deadline", "filter deadline exceeded")
    | Trap => (502, "trap", "filter trapped")
    | Instantiate => (502, "instantiate", "filter instantiation failed")
    | Unavailable => (503, "unavailable", "filter temporarily unavailable")
    | InvalidOutput => (502, "invalid-output", "filter returned invalid output")
    end%string in
  mkResponse status [mkHeader fault_header (bs fault)] (bs msg).

Inductive TryHookOutcome (A : Type) := WouldBlock | Executed (r : A).
Arguments WouldBlock {A}.
Arguments Executed {A} r.

(** ** Header edits *)

Definition same_name (a b : bytes) : bool := eq_ignore_ascii_case a b.

Definition remove_headers (headers : list Header) (names : list bytes) : list Header :=
  fold_left (fun hs name => List.filter (fun h => negb (same_name (h_name h) name)) hs)
    names headers.

Definition is_repeatable (name : bytes) : bool := same_name name (bs "set-cookie").

Definition set_header (headers : list Header) (header : Header) : list Header :=
  (if is_repeatable (h_name header) then headers
   else List.filter (fun existing => negb (same_name (h_name existing) (h_name header))) headers)
  ++ [header].

Definition set_headers (headers set : list Header) : list Header := fold_left set_header set headers.

Definition edit_headers (headers set : list Header) (remove : list bytes) : list Header :=
  set_headers (remove_headers headers remove) set.

Definition apply_request_edit (request : HttpRequest) (edit : RequestEdit) : HttpRequest :=
  mkRequest (rq_method request) (rq_path_with_query request) (rq_authority request)
    (rq_scheme request)
    (edit_headers (rq_headers request) (re_set_headers edit) (re_remove_headers edit)).

Definition apply_response_edit (response : HttpResponse) (edit : ResponseEdit) : HttpResponse :=
  mkResponse (default (rs_status response) (se_set_status edit))
    (edit_headers (rs_headers response) (se_set_headers edit) (se_remove_headers edit))
    (rs_body response).

(** The new body, with the headers edited. *)
Definition apply_body_edit (headers : list Header) (edit : BodyEdit) : list Header * bytes :=
  (edit_headers headers (be_set_headers edit) (be_remove_headers edit), be_body edit).

(** ** Dispatch *)

Definition MAX_REQUEST_BODY_BUFFER : Z := Z.shiftl 16 20.

Inductive ChainOutcome :=
| CoRespond (response : HttpResponse)
| CoForward (request : HttpRequest).

Inductive RequestBodyOutcome :=
| RboRespond (response : HttpResponse)
| RboForward (body : bytes) (headers : list Header).

Inductive ResponseBodyOutcome :=
| SboForward (body : bytes) (headers : list Header) (transformed : bool)
| SboRespond (response : HttpResponse).

Inductive ResponseOutcome :=
| RoForward (response : HttpResponse)
| RoRespond (response : HttpResponse).

Inductive InlineRequestOutcome :=
| IrqComplete (outcome : ChainOutcome)
| IrqPending (filter_index : nat) (request : HttpRequest).

Inductive InlineResponseOutcome :=
| IrsComplete (outcome : ResponseOutcome)
| IrsPending (filter_index : nat) (response : HttpResponse).

Inductive StepOutcome (M T : Type) := StepContinue (m : M) | StepTerminal (t : T).
Arguments StepContinue {M T} m.
Arguments StepTerminal {M T} t.

Definition handle_request_step (request : HttpRequest) (r : result RequestDecision RunError)
    : StepOutcome HttpRequest ChainOutcome :=
  match r with
  | Ok RqContinue => StepContinue request
  | Ok (RqModified edit) => StepContinue (apply_request_edit request edit)
  | Ok (RqShortCircuit response) => StepTerminal (CoRespond response)
  | Err err => StepTerminal (CoRespond (fail_closed_response err))
  end.

Definition handle_response_step (response : HttpResponse) (r : result ResponseDecision RunError)
    : StepOutcome HttpResponse ResponseOutcome :=
  match r with
  | Ok RsContinue => StepContinue response
  | Ok (RsModified edit) => StepContinue (apply_response_edit response edit)
  | Ok (RsReplace replacement) => StepTerminal (RoRespond replacement)
  | Err err => StepTerminal (RoRespond (fail_closed_response err))
  end.

Definition oversize_guest_request_body_response : HttpResponse :=
  mkResponse 502 [mkHeader fault_header (bs "request-body-guest-oversize")]
    (bs "filter returned an oversized request body").

Definition oversize_guest_body_response : HttpResponse :=
  mkResponse 502 [mkHeader fault_header (bs "response-body-guest-oversize")]
    (bs "filter returned an oversized response body").

Definition blen (s : bytes) : Z := Z.of_nat (length s).

(** The hooks of a loaded filter, on a state [W] of everything a guest call can change. *)
Class FilterHost (F W : Type) := {
  on_request : F -> HttpRequest -> W -> result RequestDecision RunError * W;
  try_on_request : F -> HttpRequest -> W -> TryHookOutcome (result RequestDecision RunError) * W;
  on_request_body : F -> bytes -> W -> result RequestBodyDecision RunError * W;
  on_response : F -> HttpRequest -> HttpResponse -> W -> result ResponseDecision RunError * W;
  try_on_response : F -> HttpRequest -> HttpResponse -> W ->
    TryHookOutcome (result ResponseDecision RunError) * W;
  on_response_body : F -> HttpRequest -> HttpResponse -> bytes -> W ->
    result ResponseBodyDecision RunError * W;
}.

Section dispatch.
Context {F W : Type} `{FilterHost F W}.

Fixpoint request_inline (k : nat) (chain : list F) (request : HttpRequest) (w : W)
    : InlineRequestOutcome * W :=
  match chain with
  | [] => (IrqComplete (CoForward request), w)
  | filter :: rest =>
    match try_on_request filter request w with
    | (WouldBlock, w') => (IrqPending k request, w')
    | (Executed res, w') =>
      match handle_request_step request res with
      | StepContinue request' => request_inline (S k) rest request' w'
      | StepTerminal outcome => (IrqComplete outcome, w')
      end
    end
  end.

Definition dispatch_request_inline (chain : list F) (request : HttpRequest) (w : W)
    : InlineRequestOutcome * W := request_inline 0 chain request w.

Fixpoint request_loop (chain : list F) (request : HttpRequest) (w : W) : ChainOutcome * W :=
  match chain with
  | [] => (CoForward request, w)
  | filter :: rest =>
    let '(res, w') := on_request filter request w in
    match handle_request_step request res with
    | StepContinue request' => request_loop rest request' w'
    | StepTerminal outcome => (outcome, w')
    end
  end.

Definition dispatch_request_from (chain : list F) (start : nat) (request : HttpRequest) (w : W)
    : ChainOutcome * W := request_loop (drop start chain) request w.

Definition dispatch_request (chain : list F) (request : HttpRequest) (w : W)
    : ChainOutcome * W := dispatch_request_from chain 0 request w.

Fixpoint dispatch_request_body (chain : list F) (body : bytes) (headers : list Header) (w : W)
    : RequestBodyOutcome * W :=
  match chain with
  | [] => (RboForward body headers, w)
  | filter :: rest =>
    match on_request_body filter body w with
    | (Ok RbContinue, w') => dispatch_request_body rest body headers w'
    | (Ok (RbModified edit), w') =>
      if MAX_REQUEST_BODY_BUFFER <? blen (be_body edit)
      then (RboRespond oversize_guest_request_body_response, w')
      else
        let '(headers', body') := apply_body_edit headers edit in
        dispatch_request_body rest body' headers' w'
    | (Ok (RbShortCircuit response), w') => (RboRespond response, w')
    | (Err err, w') => (RboRespond (fail_closed_response err), w')
    end
  end.

(** The loops of the response side run over filters already reversed, with their indices. *)
Fixpoint response_inline (chain : list (nat * F)) (request : HttpRequest)
    (response : HttpResponse) (w : W) : InlineResponseOutcome * W :=
  match chain with
  | [] => (IrsComplete (RoForward response), w)
  | (k, filter) :: rest =>
    match try_on_response filter request response w with
    | (WouldBlock, w') => (IrsPending k response, w')
    | (Executed res, w') =>
      match handle_response_step response res with
      | StepContinue response' => response_inline rest request response' w'
      | StepTerminal outcome => (IrsComplete outcome, w')
      end
    end
  end.

Definition dispatch_response_inline (chain : list F) (request : HttpRequest)
    (response : HttpResponse) (w : W) : InlineResponseOutcome * W :=
  response_inline (rev (imap pair chain)) request response w.

Fixpoint response_loop (chain : list F) (request : HttpRequest) (response : HttpResponse)
    (w : W) : ResponseOutcome * W :=
  match chain with
  | [] => (RoForward response, w)
  | filter :: rest =>
    let '(res, w') := on_response filter request response w in
    match handle_response_step response res with
    | StepContinue response' => response_loop rest request response' w'
    | StepTerminal outcome => (outcome, w')
    end
  end.

Definition dispatch_response_from (chain : list F) (start : nat) (request : HttpRequest)
    (response : HttpResponse) (w : W) : ResponseOutcome * W :=
  match length chain with
  | O => (RoForward response, w)
  | S last =>
    let bound := Nat.min start last in
    response_loop (rev (take (S bound) chain)) request response w
  end.

Definition dispatch_response (chain : list F) (request : HttpRequest)
    (response : HttpResponse) (w : W) : ResponseOutcome * W :=
  dispatch_response_from chain (length chain - 1) request response w.

Fixpoint response_body_loop (chain : list F) (request : HttpRequest) (response : HttpResponse)
    (body : bytes) (max_bytes : Z) (transformed : bool) (w : W) : ResponseBodyOutcome * W :=
  match chain with
  | [] => (SboForward body (rs_headers response) transformed, w)
  | filter :: rest =>
    match on_response_body filter request response body w with
    | (Ok SbContinue, w') =>
      response_body_loop rest request response body max_bytes transformed w'
    | (Ok (SbModified edit), w') =>
      if max_bytes <? blen (be_body edit) then (SboRespond oversize_guest_body_response, w')
      else
        let '(headers', body') := apply_body_edit (rs_headers response) edit in
        response_body_loop rest request
          (mkResponse (rs_status response) headers' (rs_body response)) body' max_bytes true w'
    | (Ok (SbReplace replacement), w') =>
      if max_bytes <? blen (rs_body replacement)
      then (SboRespond oversize_guest_body_response, w')
      else (SboRespond replacement, w')
    | (Err err, w') => (SboRespond (fail_closed_response err), w')
    end
  end.

Definition dispatch_response_body (chain : list F) (request : HttpRequest)
    (response : HttpResponse) (body : bytes) (max_bytes : Z) (w : W)
    : ResponseBodyOutcome * W :=
  response_body_loop (rev chain) request response body max_bytes false w.
End dispatch.

(** ** The chain's contract

    [passes chain r w r' w']: every filter of [chain] ran in order, decided to continue or to
    modify, and left request [r'].  [stops] adds the filter that ended the chain. *)

Section contract.
Context {F W : Type} `{FilterHost F W}.

Inductive passes : list F -> HttpRequest -> W -> HttpRequest -> W -> Prop :=
| PassNil r w : passes [] r w r w
| PassContinue f rest r w w' r2 w2 :
    on_request f r w = (Ok RqContinue, w') -> passes rest r w' r2 w2 ->
    passes (f :: rest) r w r2 w2
| PassModified f rest r w w' edit r2 w2 :
    on_request f r w = (Ok (RqModified edit), w') ->
    passes rest (apply_request_edit r edit) w' r2 w2 ->
    passes (f :: rest) r w r2 w2.

Inductive stops : list F -> HttpRequest -> W -> HttpResponse -> W -> Prop :=
| StopShort l f rest r w r1 w1 response w2 :
    passes l r w r1 w1 -> on_request f r1 w1 = (Ok (RqShortCircuit response), w2) ->
    stops (l ++ f :: rest) r w response w2
| StopFault l f rest r w r1 w1 err w2 :
    passes l r w r1 w1 -> on_request f r1 w1 = (Err err, w2) ->
    stops (l ++ f :: rest) r w (fail_closed_response err) w2.

Lemma request_loop_spec chain : forall r w,
  match request_loop chain r w with
  | (CoForward r', w') => passes chain r w r' w'
  | (CoRespond p, w') => stops chain r w p w'
  end.
Proof.
  induction chain as [|f rest IH]; intros r w; cbn [request_loop]; [constructor|].
  destruct (on_request f r w) as [res w1] eqn:E.
  destruct res as [[|edit|p]|err]; cbn [handle_request_step].
  - specialize (IH r w1). destruct (request_loop rest r w1) as [[p|r'] w']; [|by eapply PassContinue].
    inversion IH as [l f0 rest0 ? ? r1 w2 ? ? Hp Hf|l f0 rest0 ? ? r1 w2 ? ? Hp Hf]; subst.
    + eapply (StopShort (f :: l)); [by eapply PassContinue|exact Hf].
    + eapply (StopFault (f :: l)); [by eapply PassContinue|exact Hf].
  - specialize (IH (apply_request_edit r edit) w1).
    destruct (request_loop rest _ w1) as [[p|r'] w']; [|by eapply PassModified].
    inversion IH as [l f0 rest0 ? ? r1 w2 ? ? Hp Hf|l f0 rest0 ? ? r1 w2 ? ? Hp Hf]; subst.
    + eapply (StopShort (f :: l)); [by eapply PassModified|exact Hf].
    + eapply (StopFault (f :: l)); [by eapply PassModified|exact Hf].
  - apply (StopShort [] f rest r w r w p w1); [constructor|exact E].
  - apply (StopFault [] f rest r w r w err w1); [constructor|exact E].
Qed.

Lemma request_loop_passes chain r w r' w' :
  passes chain r w r' w' -> request_loop chain r w = (CoForward r', w').
Proof.
  induction 1 as [|f rest r w w1 r2 w2 E _ IH|f rest r w w1 edit r2 w2 E _ IH];
    cbn [request_loop]; [done|..]; rewrite E; cbn [handle_request_step]; exact IH.
Qed.

Lemma request_loop_app l1 l2 r w :
  request_loop (l1 ++ l2) r w =
  match request_loop l1 r w with
  | (CoForward r1, w1) => request_loop l2 r1 w1
  | stop => stop
  end.
Proof.
  revert r w. induction l1 as [|f l1 IH]; intros r w; cbn [app request_loop]; [done|].
  destruct (on_request f r w) as [res w1].
  destruct (handle_request_step r res) as [r1|o] eqn:E; [apply IH|].
  destruct res as [[|edit|p]|err]; simplify_eq/=; done.
Qed.

Lemma request_loop_stops chain r w p w' :
  stops chain r w p w' -> request_loop chain r w = (CoRespond p, w').
Proof.
  destruct 1 as [l f rest r w r1 w1 p w2 Hp E|l f rest r w r1 w1 err w2 Hp E];
    rewrite request_loop_app, (request_loop_passes _ _ _ _ _ Hp); cbn [request_loop];
    by rewrite E.
Qed.
End contract.

(** ** Inline dispatch and resumption *)

(** A non-blocking attempt either runs the hook, with the same answer as the blocking call,
    or refuses without calling the guest. *)
Class TryAgrees (F W : Type) `{FilterHost F W} : Prop := {
  try_request_agrees : forall f r w,
    match try_on_request f r w with
    | (Executed res, w') => on_request f r w = (res, w')
    | (WouldBlock, w') => w' = w
    end;
  try_response_agrees : forall f r p w,
    match try_on_response f r p w with
    | (Executed res, w') => on_response f r p w = (res, w')
    | (WouldBlock, w') => w' = w
    end;
}.

Section inline.
Context {F W : Type} `{TryAgrees F W}.

(** What the server does with an inline attempt: resume a pending chain on a blocking
    worker, at the filter that would have blocked. *)
Definition inline_then_resume (chain : list F) (r : HttpRequest) (w : W) : ChainOutcome * W :=
  match dispatch_request_inline chain r w with
  | (IrqComplete o, w') => (o, w')
  | (IrqPending k r', w') => dispatch_request_from chain k r' w'
  end.

Definition response_inline_then_resume (chain : list F) (r : HttpRequest) (p : HttpResponse)
    (w : W) : ResponseOutcome * W :=
  match dispatch_response_inline chain r p w with
  | (IrsComplete o, w') => (o, w')
  | (IrsPending k p', w') => dispatch_response_from chain k r p' w'
  end.

Lemma request_inline_resume pre rest : forall r w,
  match request_inline (length pre) rest r w with
  | (IrqComplete o, w') => (o, w')
  | (IrqPending k r', w') => dispatch_request_from (pre ++ rest) k r' w'
  end = request_loop rest r w.
Proof.
  revert pre. induction rest as [|f rest IH]; intros pre r w;
    cbn [request_inline request_loop]; [done|].
  pose proof (try_request_agrees f r w) as Ht.
  destruct (try_on_request f r w) as [[|res] w1].
  - subst w1. unfold dispatch_request_from. by rewrite drop_app_length.
  - rewrite Ht. destruct (handle_request_step r res) as [r1|o]; [|done].
    specialize (IH (pre ++ [f]) r1 w1).
    rewrite length_app, Nat.add_1_r, <- app_assoc in IH. exact IH.
Qed.

Lemma dispatch_response_from_eq (chain : list F) k r p (w : W) :
  (k < length chain)%nat ->
  dispatch_response_from chain k r p w = response_loop (rev (take (S k) chain)) r p w.
Proof.
  intros Hk. unfold dispatch_response_from. destruct (length chain) as [|last]; [lia|].
  by rewrite Nat.min_l by lia.
Qed.

Lemma take_S_lookup {A} (l : list A) n x : l !! n = Some x -> take (S n) l = take n l ++ [x].
Proof. intros Hx. by apply take_S_r. Qed.

Lemma response_inline_resume chain r n : forall p w,
  (n <= length chain)%nat ->
  match response_inline (rev (imap pair (take n chain))) r p w with
  | (IrsComplete o, w') => (o, w')
  | (IrsPending k p', w') => dispatch_response_from chain k r p' w'
  end = response_loop (rev (take n chain)) r p w.
Proof.
  induction n as [|n IH]; intros p w Hn; [done|].
  destruct (lookup_lt_is_Some_2 chain n ltac:(lia)) as [f Hf].
  rewrite (take_S_lookup _ _ _ Hf), imap_app, !rev_app_distr.
  cbn [imap rev app]. rewrite Nat.add_0_r, length_take, Nat.min_l by lia.
  cbn [response_inline response_loop].
  pose proof (try_response_agrees f r p w) as Ht.
  destruct (try_on_response f r p w) as [[|res] w1].
  - subst w1. rewrite dispatch_response_from_eq by lia.
    rewrite (take_S_lookup _ _ _ Hf), rev_app_distr. done.
  - rewrite Ht. destruct (handle_response_step p res) as [p1|o]; [|done].
    apply IH. lia.
Qed.
End inline.

Lemma dispatch_response_rev {F W} `{FilterHost F W} (chain : list F) r p (w : W) :
  dispatch_response chain r p w = response_loop (rev chain) r p w.
Proof.
  unfold dispatch_response, dispatch_response_from.
  destruct (length chain) as [|last] eqn:E; [by destruct chain|].
  rewrite Nat.min_l by lia. by rewrite take_ge by lia.
Qed.

(** ** Header edits by name *)

(** The headers with a name, in order. *)
Definition named (n : bytes) (hs : list Header) : list Header :=
  List.filter (fun h => same_name (h_name h) n) hs.

Lemma same_name_sym a c : same_name a c = same_name c a.
Proof.
  unfold same_name, eq_ignore_ascii_case, bytes_eqb. apply bool_decide_ext. split; congruence.
Qed.

Lemma same_name_trans a c d : same_name a c = true -> same_name a d = same_name c d.
Proof.
  unfold same_name, eq_ignore_ascii_case. intros Hac%bytes_eqb_eq. by rewrite Hac.
Qed.

Lemma named_app n l1 l2 : named n (l1 ++ l2) = named n l1 ++ named n l2.
Proof. apply List.filter_app. Qed.

(** Dropping a name empties that name and keeps every other. *)
Lemma named_drop n m hs :
  named n (List.filter (fun h => negb (same_name (h_name h) m)) hs)
  = if same_name n m then [] else named n hs.
Proof.
  unfold named. induction hs as [|h hs IH]; cbn [List.filter]; [by destruct (same_name n m)|].
  destruct (same_name (h_name h) m) eqn:E1; cbn [negb List.filter].
  - rewrite IH. destruct (same_name (h_name h) n) eqn:E2; [|done].
    assert (same_name n m = true) as ->; [|done].
    rewrite <- (same_name_trans _ _ m E2). exact E1.
  - rewrite IH. destruct (same_name (h_name h) n) eqn:E2; [|done].
    assert (same_name n m = false) as ->; [|done].
    rewrite <- (same_name_trans _ _ m E2). exact E1.
Qed.

Lemma named_remove n names : forall hs,
  named n (remove_headers hs names)
  = if existsb (same_name n) names then [] else named n hs.
Proof.
  unfold remove_headers. induction names as [|m names IH]; intros hs; cbn [fold_left existsb];
    [done|].
  rewrite IH, named_drop. destruct (same_name n m); cbn [orb]; [|done].
  by destruct (existsb _ names).
Qed.

Lemma named_set_header n hs h :
  named n (set_header hs h) =
  if same_name (h_name h) n
  then (if is_repeatable n then named n hs else []) ++ [h]
  else named n hs.
Proof.
  unfold set_header. rewrite named_app.
  assert (Hs : named n [h] = if same_name (h_name h) n then [h] else []) by done.
  rewrite Hs. destruct (same_name (h_name h) n) eqn:E.
  - assert (is_repeatable (h_name h) = is_repeatable n) as Hr
      by (unfold is_repeatable; by apply same_name_trans).
    rewrite Hr. destruct (is_repeatable n); [done|].
    rewrite named_drop, same_name_sym, E. done.
  - rewrite app_nil_r. destruct (is_repeatable (h_name h)); [done|].
    rewrite named_drop, same_name_sym, E. done.
Qed.

Lemma named_set_headers n set : forall hs,
  named n (set_headers hs set) =
  if is_repeatable n then named n hs ++ named n set
  else match last (named n set) with Some h => [h] | None => named n hs end.
Proof.
  unfold set_headers. induction set as [|h set IH] using rev_ind; intros hs.
  { cbn. destruct (is_repeatable n); [by rewrite app_nil_r|done]. }
  rewrite fold_left_app. cbn [fold_left]. rewrite named_set_header, IH, named_app.
  assert (Hs : named n [h] = if same_name (h_name h) n then [h] else []) by done.
  rewrite Hs. destruct (same_name (h_name h) n).
  - destruct (is_repeatable n); [by rewrite app_assoc|]. by rewrite last_snoc.
  - rewrite app_nil_r. done.
Qed.

(** ** Body dispatch *)

Section bodies.
Context {F W : Type} `{FilterHost F W}.

Definition is_fault (p : HttpResponse) : Prop :=
  (exists err, p = fail_closed_response err) \/ p = oversize_guest_body_response.

Lemma request_body_bounded chain : forall body headers w,
  blen body <= MAX_REQUEST_BODY_BUFFER ->
  match fst (dispatch_request_body chain body headers w) with
  | RboForward body' _ => blen body' <= MAX_REQUEST_BODY_BUFFER
  | RboRespond _ => True
  end.
Proof.
  induction chain as [|f rest IH]; intros body headers w Hb; cbn [dispatch_request_body]; [done|].
  destruct (on_request_body f body w) as [[[|edit|p]|err] w1]; [by apply IH| |done|done].
  destruct (Z.ltb_spec MAX_REQUEST_BODY_BUFFER (blen (be_body edit))); [done|].
  unfold apply_body_edit. by apply IH.
Qed.

Lemma response_body_bounded max chain r : forall p body t w,
  blen body <= max ->
  match fst (response_body_loop chain r p body max t w) with
  | SboForward body' headers' t' => blen body' <= max /\
      (t' = false -> t = false /\ body' = body /\ headers' = rs_headers p)
  | SboRespond q => blen (rs_body q) <= max \/ is_fault q
  end.
Proof.
  induction chain as [|f rest IH]; intros p body t w Hb; cbn [response_body_loop]; [done|].
  destruct (on_response_body f r p body w) as [[[|edit|q]|err] w1].
  - by apply IH.
  - destruct (Z.ltb_spec max (blen (be_body edit))); [by right; right|].
    unfold apply_body_edit. cbn [fst].
    specialize (IH (mkResponse (rs_status p) (edit_headers (rs_headers p) (be_set_headers edit)
      (be_remove_headers edit)) (rs_body p)) (be_body edit) true w1 ltac:(lia)).
    destruct (fst (response_body_loop rest r _ (be_body edit) max true w1)); [|done].
    destruct IH as [? Ht]. split; [done|]. intros Hf. by destruct (Ht Hf).
  - destruct (Z.ltb_spec max (blen (rs_body q))); [by right; right|]. cbn [fst]. left. lia.
  - right. left. by eexists.
Qed.
End bodies.

(** ** Observations the hooks leave alone *)

(** [obs] reads a part of the world no filter hook changes. *)
Class HooksKeep {F W : Type} `{FilterHost F W} {O : Type} (obs : W -> O) : Prop := {
  keep_request : forall f r w, obs (on_request f r w).2 = obs w;
  keep_try_request : forall f r w, obs (try_on_request f r w).2 = obs w;
  keep_request_body : forall f b w, obs (on_request_body f b w).2 = obs w;
  keep_response : forall f r p w, obs (on_response f r p w).2 = obs w;
  keep_try_response : forall f r p w, obs (try_on_response f r p w).2 = obs w;
  keep_response_body : forall f r p b w, obs (on_response_body f r p b w).2 = obs w;
}.

Section keep.
Context {F W O : Type} `{FilterHost F W} (obs : W -> O) `{!HooksKeep obs}.

(** One hook call of a loop: what it leaves is what the loop's rest starts from. *)
Ltac hook law E :=
  match goal with
  | |- context [match ?call with pair _ _ => _ end] =>
    let K := fresh in pose proof law as K; destruct call as [? ?] eqn:E; cbn [snd] in K; rewrite <- K
  end.

Lemma request_inline_keeps chain : forall k r w, obs (request_inline k chain r w).2 = obs w.
Proof.
  induction chain as [|f chain IH]; intros k r w; [done|]. cbn [request_inline].
  hook (keep_try_request f r w) E. destruct t; [done|]. destruct handle_request_step; [apply IH|done].
Qed.
Lemma request_loop_keeps chain : forall r w, obs (request_loop chain r w).2 = obs w.
Proof.
  induction chain as [|f chain IH]; intros r w; [done|]. cbn [request_loop].
  hook (keep_request f r w) E. destruct handle_request_step; [apply IH|done].
Qed.
Lemma request_body_keeps chain : forall b hs w, obs (dispatch_request_body chain b hs w).2 = obs w.
Proof.
  induction chain as [|f chain IH]; intros b hs w; [done|]. cbn [dispatch_request_body].
  hook (keep_request_body f b w) E. destruct r as [[|edit|resp]|e]; try done.
  destruct (_ <? _); [done|]. destruct apply_body_edit. apply IH.
Qed.
Lemma response_inline_keeps chain r : forall p w, obs (response_inline chain r p w).2 = obs w.
Proof.
  induction chain as [|[k f] chain IH]; intros p w; [done|]. cbn [response_inline].
  hook (keep_try_response f r p w) E. destruct t; [done|]. destruct handle_response_step; [apply IH|done].
Qed.
Lemma response_loop_keeps chain r : forall p w, obs (response_loop chain r p w).2 = obs w.
Proof.
  induction chain as [|f chain IH]; intros p w; [done|]. cbn [response_loop].
  hook (keep_response f r p w) E. destruct handle_response_step; [apply IH|done].
Qed.
Lemma response_body_keeps chain r max : forall p b t w, obs (response_body_loop chain r p b max t w).2 = obs w.
Proof.
  induction chain as [|f chain IH]; intros p b t w; [done|]. cbn [response_body_loop].
  hook (keep_response_body f r p b w) E. destruct r0 as [[|edit|resp]|e]; try done; destruct (_ <? _); try done.
  destruct apply_body_edit. apply IH.
Qed.
End keep.

(** An inspection that no hook turned into a rewrite leaves the bytes and headers as they were. *)
Lemma response_body_untransformed {F W} `{FilterHost F W} (chain : list F) r max : forall p b t w b' hs' w',
  response_body_loop chain r p b max t w = (SboForward b' hs' false, w') ->
  t = false /\ b' = b /\ hs' = rs_headers p.
Proof.
  induction chain as [|f chain IH]; intros p b t w b' hs' w'; cbn [response_body_loop].
  - by intros [= -> -> -> _].
  - destruct (on_response_body f r p b w) as [[[|edit|resp]|e] w1]; try done.
    + apply IH.
    + destruct (_ <? _); [done|]. destruct apply_body_edit. intros E. by apply IH in E as (? & _).
    + by destruct (_ <? _).
Qed.

(** ** Properties *)

(** C19: the request chain fails closed: it forwards a request exactly when every filter, run in
    order, decided to continue or modify, with the edits applied; and it answers exactly
    when some filter, all before it having passed, short-circuited or faulted, with that
    filter's response or the fault's own 502, 503 or 504, the filters after it never run. *)
Theorem chain_fail_closed {F W} `{FilterHost F W} (chain : list F) (r : HttpRequest) (w w' : W)
    (out : ChainOutcome) :
  (dispatch_request chain r w = (out, w') <->
   match out with
   | CoForward r' => passes chain r w r' w'
   | CoRespond p => stops chain r w p w'
   end) /\
  (forall err, rs_status (fail_closed_response err) ∈ [502; 503; 504]).
Proof.
  split; [|intros []; set_solver].
  unfold dispatch_request, dispatch_request_from. rewrite drop_0. split.
  - intros E. pose proof (request_loop_spec chain r w) as Hs. rewrite E in Hs. exact Hs.
  - destruct out; [apply request_loop_stops|apply request_loop_passes].
Qed.

(** C20: running the chain inline and resuming where it would have blocked is running it whole,
    on both sides, and the response side is the reverse chain: no filter is skipped or run
    twice across the handover to a blocking worker. *)
Theorem inline_resume_equiv {F W} `{TryAgrees F W} (chain : list F) (r : HttpRequest)
    (p : HttpResponse) (w : W) :
  inline_then_resume chain r w = dispatch_request chain r w /\
  response_inline_then_resume chain r p w = dispatch_response chain r p w /\
  dispatch_response chain r p w = response_loop (rev chain) r p w.
Proof.
  split; [|split].
  - unfold inline_then_resume, dispatch_request_inline.
    rewrite (request_inline_resume [] chain). unfold dispatch_request, dispatch_request_from.
    by rewrite drop_0.
  - rewrite dispatch_response_rev. unfold response_inline_then_resume, dispatch_response_inline.
    pose proof (response_inline_resume chain r (length chain) p w (le_n _)) as Hr.
    by rewrite take_ge in Hr by done.
  - apply dispatch_response_rev.
Qed.

(** A filter that tags requests and may refuse to run inline. *)
Definition demo_hook (f : bool) (r : HttpRequest) (w : nat)
    : result RequestDecision RunError * nat :=
  (Ok (RqModified (mkRequestEdit [mkHeader (bs "x") (bs "1")] [])), S w).

#[local] Instance demo_filter : FilterHost bool nat := {|
  on_request := demo_hook;
  try_on_request f r w := if f then (Executed (fst (demo_hook f r w)), S w) else (WouldBlock, w);
  on_request_body f b w := (Ok RbContinue, w);
  on_response f r p w := (Ok RsContinue, S w);
  try_on_response f r p w := if f then (Executed (Ok RsContinue), S w) else (WouldBlock, w);
  on_response_body f r p b w := (Ok SbContinue, w);
|}.

#[local] Instance demo_agrees : TryAgrees bool nat.
Proof. split; [intros [] r w|intros [] r p w]; reflexivity. Qed.

Definition demo_request : HttpRequest :=
  mkRequest (bs "GET") (bs "/") (bs "h") (bs "https") [mkHeader (bs "X") (bs "0")].

Lemma inline_resume_equiv_witness :
  fst (dispatch_request_inline [true; false; true] demo_request O)
    = IrqPending 1 (mkRequest (bs "GET") (bs "/") (bs "h") (bs "https")
        [mkHeader (bs "x") (bs "1")]) /\
  inline_then_resume [true; false; true] demo_request O
    = dispatch_request [true; false; true] demo_request O.
Proof.
  split; [by vm_compute|].
  apply (inline_resume_equiv [true; false; true] demo_request (mkResponse 200 [] []) O).
Defined.

(** Header edits are decided per case-insensitive name: after an edit, a single-valued
    name that was set has exactly the last value set, a name only removed is absent, any
    other keeps its values in order; [set-cookie] keeps what was not removed and appends. *)
Theorem edit_headers_by_name (hs set : list Header) (remove : list bytes) (n : bytes) :
  named n (edit_headers hs set remove) =
  let kept := if existsb (same_name n) remove then [] else named n hs in
  if is_repeatable n then kept ++ named n set
  else match last (named n set) with Some h => [h] | None => kept end.
Proof. unfold edit_headers. by rewrite named_set_headers, named_remove. Qed.

(** Body hooks cannot grow a body past what the host reserved: a forwarded request body
    fits the request cap and a forwarded response body fits the route's cap, every
    synthesised response is within the cap or is the host's own fault answer, and a response
    reported as untransformed has its body and headers unchanged. *)
Theorem body_hooks_bounded {F W} `{FilterHost F W} (chain : list F) (r : HttpRequest)
    (p : HttpResponse) (body : bytes) (headers : list Header) (max : Z) (w : W)
    (Hreq : blen body <= MAX_REQUEST_BODY_BUFFER) (Hmax : blen body <= max) :
  match fst (dispatch_request_body chain body headers w) with
  | RboForward body' _ => blen body' <= MAX_REQUEST_BODY_BUFFER
  | RboRespond _ => True
  end /\
  match fst (dispatch_response_body chain r p body max w) with
  | SboForward body' headers' t => blen body' <= max /\
      (t = false -> body' = body /\ headers' = rs_headers p)
  | SboRespond q => blen (rs_body q) <= max \/ is_fault q
  end.
Proof.
  split; [by apply request_body_bounded|].
  pose proof (response_body_bounded max (rev chain) r p body false w Hmax) as Hb.
  unfold dispatch_response_body. destruct (fst (response_body_loop _ _ _ _ _ _ _)); [|done].
  destruct Hb as [? Ht]. split; [done|]. intros Hf. by destruct (Ht Hf).
Qed.

Lemma body_hooks_bounded_witness :
  fst (dispatch_response_body [true] demo_request (mkResponse 200 [] []) (bs "abc") 3 O)
    = SboForward (bs "abc") [] false /\
  match fst (dispatch_response_body [true] demo_request (mkResponse 200 [] []) (bs "abc") 3 O) with
  | SboForward body' headers' t => blen body' <= 3 /\ (t = false -> body' = bs "abc" /\ headers' = [])
  | SboRespond q => blen (rs_body q) <= 3 \/ is_fault q
  end.
Proof.
  split; [by vm_compute|].
  exact (proj2 (body_hooks_bounded [true] demo_request (mkResponse 200 [] []) (bs "abc") [] 3 O
    ltac:(vm_compute; congruence) ltac:(vm_compute; congruence))).
Defined.
