(* ===== verification/Headers.v ===== *)
(** * Header handling on the fast path (server/src/headers.rs)

    Hop-by-hop stripping, the forwarding-header overwrite at the edge, the authority check,
    and the conversions between the contract's header list and the HTTP library's header
    map.  The [http] crate is a parameter: a header multimap with the documented laws, the
    header name and value parsers, and the authority parser. *)

From S2P Require Import Prelude Bytes Ssrf Chain.

(** ** The HTTP library *)

Class HeaderMap (M : Type) := {
  hm_iter : M -> list (bytes * bytes);
  hm_append : M -> bytes -> bytes -> M;
  hm_insert : M -> bytes -> bytes -> M;
  hm_remove : M -> bytes -> M;
  (** [HeaderName::from_bytes], [HeaderValue::from_bytes] and [HeaderValue::to_str]. *)
  parse_name : bytes -> option bytes;
  parse_value : bytes -> option bytes;
  to_str : bytes -> option bytes;
}.

Definition hm_get_all {M} `{HeaderMap M} (m : M) (n : bytes) : list bytes :=
  map snd (filter (fun e => fst e = n) (hm_iter m)).
Definition hm_get {M} `{HeaderMap M} (m : M) (n : bytes) : option bytes := head (hm_get_all m n).

Class HeaderMapLaws (M : Type) `{HeaderMap M} : Prop := {
  hm_append_all : forall m n v k,
    hm_get_all (hm_append m n v) k = hm_get_all m k ++ (if bool_decide (k = n) then [v] else []);
  hm_insert_all : forall m n v k,
    hm_get_all (hm_insert m n v) k = if bool_decide (k = n) then [v] else hm_get_all m k;
  hm_remove_all : forall m n k,
    hm_get_all (hm_remove m n) k = if bool_decide (k = n) then [] else hm_get_all m k;
  parse_value_same : forall s v, parse_value s = Some v -> v = s;
  to_str_same : forall v s, to_str v = Some s -> s = v;
}.

(** A map of names and values the parsers produced and accept again, as every map of the
    library is: [HeaderName] and [HeaderValue] have no other constructors. *)
Definition parsed_map {M} `{HeaderMap M} (m : M) : Prop :=
  Forall (fun e => parse_name e.1 = Some e.1 /\ parse_value e.2 = Some e.2) (hm_iter m).

(** Two maps with the same values for every name. *)
#[export] Instance headermap_equiv {M} `{HeaderMap M} : Equiv M :=
  fun m1 m2 => forall n, hm_get_all m1 n = hm_get_all m2 n.

#[export] Instance headermap_equivalence {M} `{HeaderMap M} : Equivalence (≡@{M}).
Proof.
  split.
  - by intros m n.
  - intros m1 m2 E n. by rewrite E.
  - intros m1 m2 m3 E1 E2 n. by rewrite E1, E2.
Qed.

Section maps.
Context {M : Type} `{HeaderMapLaws M}.

#[export] Instance hm_append_proper : Proper ((≡) ==> (=) ==> (=) ==> (≡@{M})) hm_append.
Proof. intros m1 m2 E n ? <- v ? <- k. by rewrite !hm_append_all, E. Qed.
#[export] Instance hm_insert_proper : Proper ((≡) ==> (=) ==> (=) ==> (≡@{M})) hm_insert.
Proof. intros m1 m2 E n ? <- v ? <- k. by rewrite !hm_insert_all, E. Qed.
#[export] Instance hm_remove_proper : Proper ((≡) ==> (=) ==> (≡@{M})) hm_remove.
Proof. intros m1 m2 E n ? <- k. by rewrite !hm_remove_all, E. Qed.
End maps.

(** ** Hop-by-hop *)

Definition HOP_BY_HOP : list bytes := map bs
  ["connection"; "keep-alive"; "proxy-connection"; "transfer-encoding"; "te"; "trailer";
   "upgrade"; "proxy-authorization"; "proxy-authenticate"]%string.

Definition is_hop_by_hop (name : bytes) : bool := existsb (eq_ignore_ascii_case name) HOP_BY_HOP.

Definition H_CONNECTION : bytes := bs "connection".
Definition H_UPGRADE : bytes := bs "upgrade".
Definition H_TE : bytes := bs "te".
Definition H_HOST : bytes := bs "host".
Definition H_XFF : bytes := bs "x-forwarded-for".
Definition H_XREALIP : bytes := bs "x-real-ip".
Definition H_XFP : bytes := bs "x-forwarded-proto".

Definition FORWARDED_HEADERS : list bytes := map bs
  ["forwarded"; "x-forwarded-for"; "x-forwarded-proto"; "x-forwarded-host"; "x-real-ip";
   "true-client-ip"; "cf-connecting-ip"; "fastly-client-ip"; "x-client-ip";
   "x-cluster-client-ip"]%string.

Definition MAX_FORWARDED_ELEMENTS : nat := 32.

(** The names one [Connection] value designates. *)
Definition connection_tokens (s : bytes) : list bytes :=
  omap (fun token =>
    let token := trim token in
    if negb (bool_decide (token = [])) && negb (eq_ignore_ascii_case token (bs "close"))
       && negb (eq_ignore_ascii_case token (bs "keep-alive"))
    then Some (to_ascii_lowercase token) else None) (split_on "," s).

Section headers.
Context {M : Type} `{HeaderMap M}.

Definition connection_named (m : M) : gset bytes :=
  list_to_set (concat (map (fun v => match to_str v with
                                     | Some s => connection_tokens s | None => [] end)
    (hm_get_all m H_CONNECTION))).

Definition upgrade_request_header (m : M) : option bytes :=
  if negb (bool_decide (bs "upgrade" ∈ connection_named m)) then None
  else match hm_get m H_UPGRADE with Some v => to_str v | None => None end.

Definition te_requests_trailers (m : M) : bool :=
  existsb (fun v => match to_str v with
    | Some s => existsb (fun token =>
        match split_on ";" token with
        | name :: _ => eq_ignore_ascii_case (trim name) (bs "trailers")
        | [] => false
        end) (split_on "," s)
    | None => false
    end) (hm_get_all m H_TE).

Definition headers_to_vec (m : M) : list Header :=
  let named := connection_named m in
  map (fun e => mkHeader (fst e) (snd e))
    (filter (fun e => is_hop_by_hop (fst e) = false /\ (named = ∅ \/ fst e ∉ named)) (hm_iter m)).

Definition copy_headers_filtered (dst : M) (headers : list Header) (strip_content_length : bool)
    : M :=
  fold_left (fun dst h =>
    if is_hop_by_hop (h_name h) then dst
    else if strip_content_length && eq_ignore_ascii_case (h_name h) (bs "content-length") then dst
    else match parse_name (h_name h), parse_value (h_value h) with
         | Some name, Some value => hm_append dst name value
         | _, _ => dst
         end) headers dst.

Definition copy_headers (dst : M) (headers : list Header) : M :=
  copy_headers_filtered dst headers false.
Definition copy_headers_synth (dst : M) (headers : list Header) : M :=
  copy_headers_filtered dst headers true.

Definition copy_headers_direct (dst src : M) : M :=
  let named := connection_named src in
  fold_left (fun dst e =>
    if is_hop_by_hop (fst e)
       || (negb (bool_decide (named = ∅)) && bool_decide (fst e ∈ named)) then dst
    else hm_append dst (fst e) (snd e)) (hm_iter src) dst.

(** ** Client address *)

(** [TrustedProxyTrust::contains] over the declared networks of the [ipnet] crate. *)
Context {IpNet : Type} (contains : IpNet -> IpAddr -> bool).
(** [IpAddr::from_str] and its [Display]. *)
Context (parse_ip : bytes -> option IpAddr) (show_ip : IpAddr -> bytes).

Definition nets_contain (nets : list IpNet) (ip : IpAddr) : bool :=
  existsb (fun net => contains net (to_canonical ip)) nets.

(** The right-to-left scan: [None] stops it without a client, [Some (inl ip)] names one,
    [Some (inr budget)] goes on. *)
Fixpoint scan_elements (trusted : list IpNet) (elements : list bytes) (budget : nat)
    : option (IpAddr + nat) :=
  match elements with
  | [] => Some (inr budget)
  | element :: rest =>
    match budget with
    | O => None
    | S budget' =>
      match parse_ip (trim element) with
      | None => None
      | Some ip =>
        if nets_contain trusted ip then scan_elements trusted rest budget'
        else Some (inl (to_canonical ip))
      end
    end
  end.

Fixpoint scan_values (trusted : list IpNet) (values : list bytes) (budget : nat)
    : option IpAddr :=
  match values with
  | [] => None
  | value :: rest =>
    match to_str value with
    | None => None
    | Some s =>
      match scan_elements trusted (rev (split_on "," s)) budget with
      | None => None
      | Some (inl ip) => Some ip
      | Some (inr budget') => scan_values trusted rest budget'
      end
    end
  end.

Definition forwarded_client (m : M) (trusted : list IpNet) : option IpAddr :=
  scan_values trusted (rev (hm_get_all m H_XFF)) MAX_FORWARDED_ELEMENTS.

Definition set_forwarded (m : M) (peer : IpAddr) (scheme : bytes) (trusted : option (list IpNet))
    : IpAddr * M :=
  let client :=
    match trusted with
    | Some nets =>
      if nets_contain nets peer then default (to_canonical peer) (forwarded_client m nets)
      else to_canonical peer
    | None => to_canonical peer
    end in
  let m := fold_left hm_remove FORWARDED_HEADERS m in
  let m := match parse_value (show_ip client) with
           | Some v => hm_insert (hm_insert m H_XFF v) H_XREALIP v
           | None => m
           end in
  let m := match parse_value scheme with Some v => hm_insert m H_XFP v | None => m end in
  (client, m).
End headers.

(** ** The ingress authority *)

Inductive HttpVersion := Http09 | Http10 | Http11 | Http2 | Http3.

Record Parts (M : Type) := mkParts {
  pt_version : HttpVersion;
  pt_uri_scheme : option bytes;
  pt_uri_authority : option bytes;
  pt_headers : M;
}.
Arguments mkParts {M}.
Arguments pt_version {M}.
Arguments pt_uri_scheme {M}.
Arguments pt_uri_authority {M}.
Arguments pt_headers {M}.

(** The [Authority] type of the HTTP library. *)
Class AuthorityLib (A : Type) := {
  auth_parse : bytes -> option A;
  auth_show : A -> bytes;
  auth_host : A -> bytes;
  auth_has_port : A -> bool;
  auth_port_u16 : A -> option Z;
  scheme_parse : bytes -> option bytes;
  (** [Uri::from_parts] accepts this scheme and authority. *)
  uri_from_parts : bytes -> bytes -> bool;
}.

(** An [Authority] keeps the bytes it was parsed from. *)
Class AuthorityLaws (A : Type) `{AuthorityLib A} : Prop := {
  auth_show_parse : forall s a, auth_parse s = Some a -> auth_show a = s;
}.

Definition rsplit_once (c : ascii) (s : bytes) : option (bytes * bytes) :=
  match split_once c (rev s) with Some (a, p) => Some (rev p, rev a) | None => None end.

Definition digit_val (c : ascii) : option Z :=
  if in_range 48 57 c then Some (byte_val c - 48) else None.

(** [str::parse::<u16>]: an optional plus sign and decimal digits, below 2^16. *)
Fixpoint parse_digits (acc : Z) (s : bytes) : option Z :=
  match s with
  | [] => Some acc
  | c :: s' =>
    match digit_val c with
    | Some d => let acc := acc * 10 + d in if acc <? 65536 then parse_digits acc s' else None
    | None => None
    end
  end.
Definition parse_u16 (s : bytes) : option Z :=
  let s := match s with c :: s' => if ascii_eqb c "+" then s' else s | [] => s end in
  match s with [] => None | _ => parse_digits 0 s end.

Definition has_valid_port_syntax (authority : bytes) : bool :=
  let port_ok port := negb (bool_decide (port = [])) && bool_decide (is_Some (parse_u16 port)) in
  match strip_prefix (bs "[") authority with
  | Some bracketed =>
    match split_once "]" bracketed with
    | None => false
    | Some (_, suffix) =>
      match strip_prefix (bs ":") suffix with
      | Some port => port_ok port
      | None => bool_decide (suffix = [])
      end
    end
  | None =>
    match rsplit_once ":" authority with
    | Some (_, port) => port_ok port
    | None => true
    end
  end.

Definition strip_dot (host : bytes) : bytes :=
  match last host with
  | Some c => if ascii_eqb c DOT then removelast host else host
  | None => host
  end.

Section authority.
Context {M : Type} `{HeaderMap M} {A : Type} `{AuthorityLib A}.

Definition parse_authority (value : bytes) : option bytes :=
  if bool_decide (value = []) || contains_byte "@" value then None
  else
    match auth_parse value with
    | None => None
    | Some a =>
      if negb (has_valid_port_syntax value)
         || (auth_has_port a && bool_decide (auth_port_u16 a = None))
      then None else Some (auth_show a)
    end.

Definition authorities_match (left right scheme : bytes) : bool :=
  match auth_parse left, auth_parse right with
  | Some l, Some r =>
    if negb (eq_ignore_ascii_case (strip_dot (auth_host l)) (strip_dot (auth_host r))) then false
    else
      let default_port port :=
        (eq_ignore_ascii_case scheme (bs "http") && (port =? 80))
        || (eq_ignore_ascii_case scheme (bs "https") && (port =? 443)) in
      match auth_port_u16 l, auth_port_u16 r with
      | Some pl, Some pr => pl =? pr
      | None, None => true
      | Some p, None | None, Some p => default_port p
      end
  | _, _ => false
  end.

(** Which authority the request names, by protocol version; [None] rejects. *)
Definition select_authority (version : HttpVersion) (uri host : option bytes) (scheme : bytes)
    : option (option bytes) :=
  match version with
  | Http10 =>
    match uri, host with
    | Some u, Some h => if authorities_match u h scheme then Some (Some u) else None
    | Some u, None => Some (Some u)
    | None, Some h => Some (Some h)
    | None, None => Some None
    end
  | Http11 =>
    match host with
    | None => None
    | Some h =>
      match uri with
      | Some u => if authorities_match u h scheme then Some (Some u) else None
      | None => Some (Some h)
      end
    end
  | _ =>
    match uri, host with
    | Some u, Some h => if authorities_match u h scheme then Some (Some u) else None
    | Some u, None => Some (Some u)
    | None, Some h => Some (Some h)
    | None, None => None
    end
  end.

(** The checks: parse both fields, refuse a repeated [Host], select; with the parsed pair. *)
Definition ingress_authority (p : Parts M) (wire_scheme : bytes)
    : option (option bytes * option bytes * option bytes) :=
  let parse_opt (o : option bytes) :=
    match o with
    | None => Some None
    | Some v => match parse_authority v with Some a => Some (Some a) | None => None end
    end in
  match parse_opt (pt_uri_authority p) with
  | None => None
  | Some uri =>
    let hosts := hm_get_all (pt_headers p) H_HOST in
    let host_str := match hosts with
                    | [] => Some None
                    | v :: _ => match to_str v with Some s => Some (Some s) | None => None end
                    end in
    match host_str with
    | None => None
    | Some hs =>
      match parse_opt hs with
      | None => None
      | Some host =>
        if (1 <? length hosts)%nat then None
        else
          let scheme := default wire_scheme (pt_uri_scheme p) in
          match select_authority (pt_version p) uri host scheme with
          | None => None
          | Some selected => Some (uri, host, selected)
          end
      end
    end
  end.

Definition normalize_ingress_authority (p : Parts M) (wire_scheme : bytes) : option (Parts M) :=
  match ingress_authority p wire_scheme with
  | None => None
  | Some (uri, host, selected) =>
    match selected with
    | Some authority =>
      match parse_value authority with
      | None => None
      | Some value =>
        let headers := hm_insert (pt_headers p) H_HOST value in
        let fallback := match pt_version p, uri, host with
                        | (Http10 | Http11), _, _ => false
                        | _, None, Some _ => true
                        | _, _, _ => false
                        end in
        if fallback then
          match scheme_parse wire_scheme, auth_parse authority with
          | Some s, Some a =>
            if uri_from_parts s (auth_show a)
            then Some (mkParts (pt_version p) (Some s) (Some (auth_show a)) headers) else None
          | _, _ => None
          end
        else Some (mkParts (pt_version p) (pt_uri_scheme p) (pt_uri_authority p) headers)
      end
    | None => Some (mkParts (pt_version p) (pt_uri_scheme p) (pt_uri_authority p)
                      (hm_remove (pt_headers p) H_HOST))
    end
  end.

Definition request_authority (p : Parts M) : bytes :=
  match pt_uri_authority p with
  | Some a => a
  | None => default [] (match hm_get (pt_headers p) H_HOST with
                        | Some v => to_str v | None => None end)
  end.
End authority.

(** ** The strip lemmas *)

Section strip.
Context {M : Type} `{HeaderMapLaws M}.

Lemma headers_to_vec_spec (m : M) n v :
  mkHeader n v ∈ headers_to_vec m <->
  (n, v) ∈ hm_iter m /\ is_hop_by_hop n = false /\ n ∉ connection_named m.
Proof.
  unfold headers_to_vec. rewrite list_elem_of_fmap. split.
  - intros ([n' v'] & Heq & Hin). simplify_eq/=. apply list_elem_of_filter in Hin as [[Hh Hc] Hin].
    cbn in *. split; [done|]. split; [done|]. destruct Hc as [->|?]; [set_solver|done].
  - intros (Hin & Hh & Hc). exists (n, v). split; [done|]. apply list_elem_of_filter. cbn. auto.
Qed.

Lemma copy_direct_compose (dst src : M) :
  parsed_map src -> copy_headers dst (headers_to_vec src) = copy_headers_direct dst src.
Proof.
  unfold parsed_map, copy_headers, copy_headers_filtered, headers_to_vec, copy_headers_direct.
  set (named := connection_named src). intros Hp.
  revert dst. induction Hp as [|[n v] l [Hn Hv] _ IH]; intros dst; [done|].
  rewrite filter_cons. cbn [fst snd fold_left] in *.
  destruct (decide (is_hop_by_hop n = false /\ (named = ∅ \/ n ∉ named))) as [Hd|Hd].
  - destruct Hd as [Hh Hc]. cbn [map fold_left h_name h_value fst snd].
    rewrite Hh, Hn, Hv. cbn [andb orb].
    assert (negb (bool_decide (named = ∅)) && bool_decide (n ∈ named) = false) as ->.
    { apply andb_false_iff. destruct Hc as [Hc|Hc].
      - left. apply negb_false_iff, bool_decide_eq_true. exact Hc.
      - right. by apply bool_decide_eq_false. }
    apply IH.
  - assert (is_hop_by_hop n || (negb (bool_decide (named = ∅)) && bool_decide (n ∈ named)) = true)
      as ->; [|apply IH].
    apply orb_true_iff. destruct (is_hop_by_hop n); [by left|right].
    apply andb_true_iff. split.
    + apply negb_true_iff, bool_decide_eq_false. intros He. apply Hd. auto.
    + apply bool_decide_eq_true. destruct (decide (n ∈ named)); [done|]. exfalso. auto.
Qed.

Lemma copy_direct_all (dst src : M) (n : bytes) :
  hm_get_all (copy_headers_direct dst src) n =
    hm_get_all dst n ++
    (if is_hop_by_hop n || bool_decide (n ∈ connection_named src) then []
     else hm_get_all src n).
Proof.
  unfold copy_headers_direct.
  set (named := connection_named src).
  assert (Hg : hm_get_all src n = map snd (filter (fun e => fst e = n) (hm_iter src))) by done.
  rewrite Hg. clear Hg. revert dst. induction (hm_iter src) as [|[k v] l IH]; intros dst.
  { rewrite filter_nil. cbn [fold_left map].
    destruct (is_hop_by_hop n || bool_decide (n ∈ named)); symmetry; apply app_nil_r. }
  cbn [fold_left]. rewrite IH, filter_cons. cbn [fst snd].
  assert (Hk : is_hop_by_hop k || negb (bool_decide (named = ∅)) && bool_decide (k ∈ named)
    = is_hop_by_hop k || bool_decide (k ∈ named)).
  { destruct (decide (named = ∅)) as [->|He].
    - rewrite (bool_decide_false (k ∈ ∅)) by set_solver. by rewrite andb_false_r.
    - rewrite (bool_decide_false (named = ∅)) by done. done. }
  rewrite Hk. destruct (decide (k = n)) as [->|Hne].
  - destruct (is_hop_by_hop n || bool_decide (n ∈ named)) eqn:Eh; [done|].
    rewrite hm_append_all, bool_decide_true, <- app_assoc by done. done.
  - destruct (is_hop_by_hop k || bool_decide (k ∈ named)); [done|].
    rewrite hm_append_all, bool_decide_false by congruence. by rewrite app_nil_r.
Qed.

(** The value a header contributes to name [n] of the copy. *)
Definition contributes (strip : bool) (n : bytes) (h : Header) : option bytes :=
  if is_hop_by_hop (h_name h) || strip && eq_ignore_ascii_case (h_name h) (bs "content-length")
  then None
  else match parse_name (h_name h), parse_value (h_value h) with
       | Some name, Some value => if bool_decide (n = name) then Some value else None
       | _, _ => None
       end.

Lemma copy_filtered_all (headers : list Header) (strip : bool) (n : bytes) : forall dst : M,
  hm_get_all (copy_headers_filtered dst headers strip) n
  = hm_get_all dst n ++ omap (contributes strip n) headers.
Proof.
  unfold copy_headers_filtered.
  induction headers as [|h headers IH]; intros dst; [by rewrite app_nil_r|].
  cbn [fold_left omap list_omap]. rewrite IH. unfold contributes at 2.
  destruct (is_hop_by_hop (h_name h)); [done|]. cbn [orb].
  destruct (strip && _); [done|].
  destruct (parse_name (h_name h)) as [name|]; [|done]. destruct (parse_value (h_value h)); [|done].
  rewrite hm_append_all. case_bool_decide; [by rewrite <- app_assoc|by rewrite app_nil_r].
Qed.

Lemma eq_ignore_trans_l a b c :
  eq_ignore_ascii_case a b = true -> eq_ignore_ascii_case a c = eq_ignore_ascii_case b c.
Proof.
  unfold eq_ignore_ascii_case. intros E. apply bytes_eqb_eq in E. by rewrite E.
Qed.

Lemma hop_by_hop_case a b : eq_ignore_ascii_case a b = true -> is_hop_by_hop a = is_hop_by_hop b.
Proof.
  intros E. unfold is_hop_by_hop. induction HOP_BY_HOP as [|x names IH]; [done|].
  cbn [existsb]. by rewrite IH, (eq_ignore_trans_l _ _ _ E).
Qed.

(** Names the copy leaves to the destination, when the parser of names only lowers letters. *)
Lemma copy_filtered_skips (headers : list Header) (strip : bool) (n : bytes) (dst : M) :
  (forall s name, parse_name s = Some name -> eq_ignore_ascii_case s name = true) ->
  is_hop_by_hop n || strip && eq_ignore_ascii_case n (bs "content-length") = true ->
  hm_get_all (copy_headers_filtered dst headers strip) n = hm_get_all dst n.
Proof.
  intros Hcase Hn. rewrite copy_filtered_all.
  enough (omap (contributes strip n) headers = []) as -> by apply app_nil_r.
  induction headers as [|h headers IH]; [done|]. cbn [omap list_omap]. 
  enough (contributes strip n h = None) as -> by done. unfold contributes.
  destruct (parse_name (h_name h)) as [name|] eqn:Ep; [|by case_match].
  destruct (decide (n = name)) as [->|Hne]; [|rewrite bool_decide_false by done; by repeat case_match].
  apply Hcase in Ep. by rewrite (hop_by_hop_case _ _ Ep), (eq_ignore_trans_l _ _ _ Ep), Hn.
Qed.

(** Dropping a set of names, then reading a name. *)
Lemma remove_all names : forall (m : M) k,
  hm_get_all (fold_left hm_remove names m) k
  = if bool_decide (k ∈ names) then [] else hm_get_all m k.
Proof.
  induction names as [|n names IH]; intros m k; cbn [fold_left].
  { by rewrite bool_decide_false by apply not_elem_of_nil. }
  rewrite IH, hm_remove_all. repeat case_bool_decide; set_solver.
Qed.
End strip.

(** ** The forwarding overwrite *)

Section forwarded.
Context {M : Type} `{HeaderMapLaws M} {IpNet : Type} (contains : IpNet -> IpAddr -> bool).
Context (parse_ip : bytes -> option IpAddr) (show_ip : IpAddr -> bytes).

Lemma to_canonical_idemp ip : to_canonical (to_canonical ip) = to_canonical ip.
Proof.
  unfold to_canonical. destruct (to_ipv4_mapped ip) as [v4|] eqn:E; cbn [default from_option id].
  - destruct ip as [|]; [done|]. unfold to_ipv4_mapped in E. case_match; [|done].
    by injection E as <-.
  - by rewrite E.
Qed.

Lemma nets_contain_canonical nets ip :
  nets_contain contains nets (to_canonical ip) = nets_contain contains nets ip.
Proof. unfold nets_contain. by rewrite to_canonical_idemp. Qed.

(** The list [X-Forwarded-For] stands for, oldest hop first: the field lines in order, each split at its
    commas; [None] stands for a line that is not text. *)
Definition forwarded_list (m : M) : list (option bytes) :=
  concat (map (fun v => match to_str v with Some s => map Some (split_on "," s) | None => [None] end)
    (hm_get_all m H_XFF)).

(** A declared network covers the address, unwrapped. *)
Definition declared (nets : list IpNet) (ip : IpAddr) : Prop := Exists (fun net => contains net (to_canonical ip) = true) nets.

Definition names_address (element : option bytes) (ip : IpAddr) : Prop :=
  exists s, element = Some s /\ parse_ip (trim s) = Some ip.

(** The client a list names: the newest element that no declared network covers, every newer one being
    a declared hop, within the number of elements that are read. *)
Definition names_client (nets : list IpNet) (l : list (option bytes)) (client : IpAddr) : Prop :=
  exists older element newer ip, l = older ++ element :: newer /\
    Forall (fun e => exists hop, names_address e hop /\ declared nets hop) newer /\ (length newer < 32)%nat /\
    names_address element ip /\ ~ declared nets ip /\ client = to_canonical ip.

Lemma nets_contain_declared nets ip : nets_contain contains nets ip = true <-> declared nets ip.
Proof.
  unfold nets_contain, declared. rewrite existsb_exists, Exists_exists. setoid_rewrite list_elem_of_In. done.
Qed.

Lemma nets_contain_undeclared nets ip : nets_contain contains nets ip = false <-> ~ declared nets ip.
Proof. by rewrite <- nets_contain_declared, not_true_iff_false. Qed.

(** The scan over the whole list, newest hop first. *)
Fixpoint scan_list (nets : list IpNet) (l : list (option bytes)) (budget : nat) : option IpAddr :=
  match l, budget with
  | [], _ | None :: _, _ | _, O => None
  | Some s :: l, S budget =>
    match parse_ip (trim s) with
    | None => None
    | Some ip => if nets_contain contains nets ip then scan_list nets l budget else Some (to_canonical ip)
    end
  end.

Lemma scan_elements_list nets els rest : forall budget,
  match scan_elements contains parse_ip nets els budget with
  | None => scan_list nets (map Some els ++ rest) budget = None
  | Some (inl ip) => scan_list nets (map Some els ++ rest) budget = Some ip
  | Some (inr budget') => scan_list nets (map Some els ++ rest) budget = scan_list nets rest budget'
  end.
Proof.
  induction els as [|el els IH]; intros budget; [done|]. cbn [scan_elements map app scan_list].
  destruct budget as [|budget]; [done|]. destruct (parse_ip (trim el)) as [ip|]; [|done].
  destruct (nets_contain contains nets ip); [apply IH|done].
Qed.

Lemma scan_values_list nets vs : forall budget,
  scan_values contains parse_ip nets vs budget =
  scan_list nets (concat (map (fun v => rev (match to_str v with Some s => map Some (split_on "," s) | None => [None] end)) vs))
    budget.
Proof.
  induction vs as [|v vs IH]; intros budget; [done|]. cbn [scan_values map concat].
  destruct (to_str v) as [s|]; [|done]. rewrite <- map_rev.
  pose proof (scan_elements_list nets (rev (split_on "," s)) (concat (map (fun v => rev (match to_str v with
    Some s => map Some (split_on "," s) | None => [None] end)) vs)) budget) as Hs.
  destruct (scan_elements _ _ _ _ _) as [[ip|b]|]; rewrite Hs; [done|apply IH|done].
Qed.

Lemma scan_list_spec nets client : forall l budget, scan_list nets l budget = Some client <->
  exists newer element older ip, l = newer ++ element :: older /\
    Forall (fun e => exists hop, names_address e hop /\ declared nets hop) newer /\ (length newer < budget)%nat /\
    names_address element ip /\ ~ declared nets ip /\ client = to_canonical ip.
Proof.
  induction l as [|e l IH]; intros budget; cbn [scan_list].
  { split; [done|]. intros ([|? ?] & ? & ? & ? & ? & _); done. }
  destruct e as [s|]; [|split; [done|]; intros ([|? ?] & ? & ? & ? & E & H1 & _ & H2 & _); injection E as <- ->].
  2: { by destruct H2 as (? & ? & _). }
  2: { apply Forall_cons in H1 as [(? & (? & ? & _) & _) _]. done. }
  destruct budget as [|budget]; [split; [done|]; intros (? & ? & ? & ? & _ & _ & ? & _); lia|].
  destruct (parse_ip (trim s)) as [ip|] eqn:Ep.
  2: { split; [done|]. intros ([|x newer] & ? & ? & ip & E & H1 & _ & H2 & _); injection E as <- ->.
    - destruct H2 as (? & [= <-] & ?). congruence.
    - apply Forall_cons in H1 as [(? & (? & [= <-] & ?) & _) _]. congruence. }
  destruct (nets_contain contains nets ip) eqn:En.
  - apply nets_contain_declared in En. rewrite IH. split.
    + intros (newer & el & older & ip' & -> & H1 & H2 & H3). exists (Some s :: newer), el, older, ip'. split; [done|].
      split; [constructor; [|done]; exists ip; split; [by exists s|done]|]. split; [cbn; lia|done].
    + intros ([|x newer] & el & older & ip' & E & H1 & H2 & H3); injection E as <- ->.
      * destruct H3 as ((? & [= <-] & ?) & Hn & _). congruence.
      * apply Forall_cons in H1 as [_ H1]. exists newer, el, older, ip'. cbn in H2. split_and!; [done|done|lia|apply H3..].
  - apply nets_contain_undeclared in En. split.
    + intros [= <-]. exists [], (Some s), l, ip. split_and!; [done|constructor|cbn; lia|by exists s|done|done].
    + intros ([|x newer] & el & older & ip' & E & H1 & H2 & H3); injection E as <- ->.
      * destruct H3 as ((? & [= <-] & ?) & _ & ->). congruence.
      * apply Forall_cons in H1 as [(? & (? & [= <-] & ?) & ?) _]. congruence.
Qed.

Lemma forwarded_client_spec (m : M) nets client :
  forwarded_client contains parse_ip m nets = Some client <-> names_client nets (forwarded_list m) client.
Proof.
  unfold forwarded_client. rewrite scan_values_list, scan_list_spec.
  assert (El : concat (map (fun v => rev (match to_str v with Some s => map Some (split_on "," s) | None => [None] end))
    (rev (hm_get_all m H_XFF))) = rev (forwarded_list m)).
  { unfold forwarded_list. induction (hm_get_all m H_XFF) as [|v vs IH]; [done|]. cbn [rev map concat].
    rewrite map_app, concat_app, IH, rev_app_distr. cbn [map concat]. by rewrite app_nil_r. }
  rewrite El. unfold names_client. split.
  - intros (newer & el & older & ip & E & H1 & H2 & H3). exists (rev older), el, (rev newer), ip.
    split; [rewrite <- (rev_involutive (forwarded_list m)), E, rev_app_distr; cbn [rev]; by rewrite <- app_assoc|].
    split; [by apply Forall_rev|]. split; [by rewrite length_rev|done].
  - intros (older & el & newer & ip & E & H1 & H2 & H3). exists (rev newer), el, (rev older), ip.
    split; [rewrite E, rev_app_distr; cbn [rev]; by rewrite <- app_assoc|].
    split; [by apply Forall_rev|]. split; [by rewrite length_rev|done].
Qed.
End forwarded.

(** ** The authority lemmas *)

Section authority_lemmas.
Context {M : Type} `{HeaderMapLaws M} {A : Type} `{AuthorityLaws A}.

Lemma parse_authority_ok (v a : bytes) :
  parse_authority v = Some a ->
  a = v /\ v <> [] /\ contains_byte "@" v = false /\ has_valid_port_syntax v = true.
Proof.
  unfold parse_authority. destruct (decide (v = [])) as [->|Hv]; [done|].
  rewrite (bool_decide_false (v = [])) by done. cbn [orb].
  destruct (contains_byte "@" v) eqn:Ea; [done|].
  destruct (auth_parse v) as [x|] eqn:Ex; [|done].
  destruct (has_valid_port_syntax v); cbn [negb orb]; [|done].
  case_match; [done|]. intros [= <-]. by rewrite (auth_show_parse _ _ Ex).
Qed.

(** What the checks establish about the pair of fields and the selected authority. *)
Lemma ingress_authority_ok (p : Parts M) ws uri host selected :
  ingress_authority p ws = Some (uri, host, selected) ->
  uri = pt_uri_authority p /\ hm_get_all (pt_headers p) H_HOST = option_list host /\
  select_authority (pt_version p) uri host (default ws (pt_uri_scheme p)) = Some selected /\
  (forall a, uri = Some a \/ host = Some a -> parse_authority a = Some a) /\
  (forall a, host = Some a -> to_str a = Some a).
Proof.
  unfold ingress_authority. intros Hin.
  destruct (pt_uri_authority p) as [u|] eqn:Eu;
    [destruct (parse_authority u) as [u'|] eqn:Epu; [|done];
     destruct (parse_authority_ok _ _ Epu) as [-> _]|];
  (destruct (hm_get_all (pt_headers p) H_HOST) as [|h [|h' hs]] eqn:Eh;
    [|destruct (to_str h) as [s|] eqn:Es; [|done];
      pose proof (to_str_same _ _ Es); subst s;
      destruct (parse_authority h) as [h1|] eqn:Eph; [|done];
      destruct (parse_authority_ok _ _ Eph) as [-> _]
     |destruct (to_str h) as [s|]; [|done]; by destruct (parse_authority s)]);
  cbn [length Nat.ltb Nat.leb] in Hin;
  destruct (select_authority _ _ _ _) as [sel|] eqn:Esel; try done;
  injection Hin as <- <- <-; (split_and!; [done|done|done|naive_solver|naive_solver]).
Qed.

(** The selection rejects a mismatched pair and prefers the URI's authority. *)
Lemma select_authority_ok version uri host scheme selected :
  select_authority version uri host scheme = Some selected ->
  selected = (match uri with Some u => Some u | None => host end) /\
  (selected = None -> version = Http10) /\
  (version = Http11 -> host <> None) /\
  (forall u h, uri = Some u -> host = Some h -> authorities_match u h scheme = true).
Proof.
  unfold select_authority. intros Hs.
  destruct version, uri as [u|], host as [h|]; try done;
    try (destruct (authorities_match u h scheme) eqn:Em; [|done]);
    injection Hs as <-; (split_and!; [done|done|done|naive_solver]).
Qed.

Lemma upstream_host_set (m : M) (a value : bytes) :
  parse_value a = Some value -> hm_get_all (hm_insert m H_HOST value) H_HOST = [a] /\
  (forall n, n <> H_HOST -> hm_get_all (hm_insert m H_HOST value) n = hm_get_all m n).
Proof.
  intros Hv. rewrite (parse_value_same _ _ Hv). split.
  - by rewrite hm_insert_all, bool_decide_true.
  - intros n Hn. by rewrite hm_insert_all, bool_decide_false.
Qed.
End authority_lemmas.

(** ** Properties *)

(** Both forwarding paths drop exactly the hop-by-hop headers: copying a message through
    the contract's header list or directly gives the same map, which holds, for every name,
    the source's values unless the name is statically hop-by-hop or named by [Connection]. *)
Theorem hop_by_hop_stripped {M} `{HeaderMapLaws M} (dst src : M) (n : bytes) :
  parsed_map src ->
  copy_headers dst (headers_to_vec src) = copy_headers_direct dst src /\
  hm_get_all (copy_headers_direct dst src) n =
    hm_get_all dst n ++
    (if is_hop_by_hop n || bool_decide (n ∈ connection_named src) then []
     else hm_get_all src n).
Proof. intros Hp. split; [by apply copy_direct_compose|apply copy_direct_all]. Qed.

(** C21: the forwarding headers a client sends never survive the edge: afterwards each name of
    the family holds only what the proxy issued (the attributed client, the wire scheme, or
    nothing) and every other header is unchanged.  The attributed client is the connection peer
    unless the peer is a declared proxy; then it is the one the list names, read from its newest
    hop, past declared hops only, and the peer when the list names none, so nothing a client put
    in front of what the declared hops appended is ever attributed. *)
Theorem set_forwarded_unspoofable {M} `{HeaderMapLaws M} {IpNet}
    (contains : IpNet -> IpAddr -> bool) (parse_ip : bytes -> option IpAddr)
    (show_ip : IpAddr -> bytes) (m : M) (peer : IpAddr) (scheme : bytes)
    (trusted : option (list IpNet)) (n : bytes) :
  let '(client, m') := set_forwarded contains parse_ip show_ip m peer scheme trusted in
  hm_get_all m' n =
    (if bool_decide (n = H_XFF \/ n = H_XREALIP) then option_list (parse_value (show_ip client))
     else if bool_decide (n = H_XFP) then option_list (parse_value scheme)
     else if bool_decide (n ∈ FORWARDED_HEADERS) then [] else hm_get_all m n) /\
  ((forall nets, trusted = Some nets -> ~ declared contains nets peer) -> client = to_canonical peer) /\
  (forall nets, trusted = Some nets -> declared contains nets peer ->
     let named := names_client contains parse_ip nets (forwarded_list m) in
     (forall ip, named ip -> client = ip) /\ (client = to_canonical peer \/ named client)).
Proof.
  unfold set_forwarded.
  set (client := match trusted with Some nets => _ | None => _ end).
  set (m0 := fold_left hm_remove FORWARDED_HEADERS m). split.
  - assert (Hm0 : forall k, hm_get_all m0 k
      = if bool_decide (k ∈ FORWARDED_HEADERS) then [] else hm_get_all m k)
      by (intros; apply remove_all).
    assert (Hx : H_XFF ∈ FORWARDED_HEADERS /\ H_XREALIP ∈ FORWARDED_HEADERS
      /\ H_XFP ∈ FORWARDED_HEADERS) by (split_and!; apply list_elem_of_In; cbn; tauto).
    destruct Hx as (Hx1 & Hx2 & Hx3).
    assert (Hd : H_XFF <> H_XREALIP /\ H_XFF <> H_XFP /\ H_XREALIP <> H_XFP)
      by (split_and!; vm_compute; congruence). destruct Hd as (Hd1 & Hd2 & Hd3).
    destruct (parse_value (show_ip client)) as [v|], (parse_value scheme) as [v'|];
      cbn [option_list]; rewrite ?hm_insert_all, Hm0;
      destruct (decide (n = H_XFF)) as [->|]; [..|destruct (decide (n = H_XREALIP)) as [->|]];
      repeat case_bool_decide; try done; naive_solver.
  - unfold client. split.
    + intros Hn. destruct trusted as [nets|]; [|done].
      by rewrite (proj2 (nets_contain_undeclared contains nets peer)) by auto.
    + intros nets -> Hp. apply nets_contain_declared in Hp. rewrite Hp.
      assert (Hspec : forall ip, forwarded_client contains parse_ip m nets = Some ip <->
        names_client contains parse_ip nets (forwarded_list m) ip)
        by (intros ip; apply forwarded_client_spec).
      split; [intros ip Hip; by rewrite (proj2 (Hspec ip) Hip)|].
      destruct (forwarded_client contains parse_ip m nets) as [ip|]; [right; by apply Hspec|by left].
Qed.

(** Two authorities name the same origin under a scheme: their hosts are equal but for case and one final
    dot each, and their ports, an absent one standing for the scheme's own. *)
Definition without_dot (host host' : bytes) : Prop :=
  host = host' ++ [DOT] \/ host = host' /\ ~ exists front, host = front ++ [DOT].

Definition scheme_port (scheme : bytes) : option Z :=
  if decide (to_ascii_lowercase scheme = bs "http") then Some 80
  else if decide (to_ascii_lowercase scheme = bs "https") then Some 443 else None.

Definition same_origin {A} `{AuthorityLib A} (scheme u h : bytes) : Prop :=
  exists l r host_l host_r, auth_parse u = Some l /\ auth_parse h = Some r /\
    without_dot (auth_host l) host_l /\ without_dot (auth_host r) host_r /\
    to_ascii_lowercase host_l = to_ascii_lowercase host_r /\
    match auth_port_u16 l, auth_port_u16 r with
    | None, None => True
    | pl, pr => exists p, (pl = Some p \/ pl = None /\ scheme_port scheme = Some p) /\
                          (pr = Some p \/ pr = None /\ scheme_port scheme = Some p)
    end.

Lemma strip_dot_spec host : without_dot host (strip_dot host).
Proof.
  unfold strip_dot, without_dot. destruct (last host) as [c|] eqn:El.
  - pose proof El as (front & ->)%last_Some. destruct (ascii_eqb c DOT) eqn:Ec.
    + apply ascii_eqb_eq in Ec. subst c. left. by rewrite removelast_last.
    + right. split; [done|]. intros [front' [_ [= ->]]%app_inj_tail_iff]. by rewrite (proj2 (ascii_eqb_eq _ _) eq_refl) in Ec.
  - apply last_None in El as ->. right. split; [done|]. intros [front E]. by destruct front.
Qed.

Lemma scheme_port_spec scheme p :
  (eq_ignore_ascii_case scheme (bs "http") && (p =? 80)) || (eq_ignore_ascii_case scheme (bs "https") && (p =? 443)) = true ->
  scheme_port scheme = Some p.
Proof.
  unfold scheme_port, eq_ignore_ascii_case, bytes_eqb.
  change (to_ascii_lowercase (bs "http")) with (bs "http"). change (to_ascii_lowercase (bs "https")) with (bs "https").
  rewrite orb_true_iff, !andb_true_iff, !bool_decide_eq_true, !Z.eqb_eq.
  intros [[-> ->]|[-> ->]]; [by rewrite decide_True|]. by rewrite decide_False, decide_True.
Qed.

Lemma authorities_match_sound {A} `{AuthorityLib A} u h scheme :
  authorities_match u h scheme = true -> same_origin scheme u h.
Proof.
  unfold authorities_match, same_origin. destruct (auth_parse u) as [l|]; [|done]. destruct (auth_parse h) as [r|]; [|done].
  destruct (eq_ignore_ascii_case (strip_dot (auth_host l)) (strip_dot (auth_host r))) eqn:Eh; cbn [negb]; [|done].
  apply bytes_eqb_eq in Eh. intros Hp. exists l, r, (strip_dot (auth_host l)), (strip_dot (auth_host r)).
  split_and!; [done|done|apply strip_dot_spec..|done|].
  destruct (auth_port_u16 l) as [pl|], (auth_port_u16 r) as [pr|]; [|apply scheme_port_spec in Hp..|done].
  - apply Z.eqb_eq in Hp as ->. exists pr. by split; left.
  - exists pl. split; [by left|by right].
  - exists pr. split; [by right|by left].
Qed.

(** C22: an accepted request names one authority, or none under HTTP/1.0 only: at most one
    [Host] came in (exactly one under HTTP/1.1), it named the same origin as the request target
    when both were present (the same host, but for case and a final dot, and the same port, the
    scheme's own when absent), the authority has no user information and a decimal port, and
    what the later stages read, from the URI or from the single canonical [Host], is that
    authority; every other header is unchanged. *)
Theorem ingress_authority_unambiguous {M} `{HeaderMapLaws M} {A} `{AuthorityLaws A}
    (p p' : Parts M) (wire_scheme : bytes) :
  normalize_ingress_authority p wire_scheme = Some p' ->
  let hosts := hm_get_all (pt_headers p) H_HOST in
  pt_version p' = pt_version p /\ (length hosts <= 1)%nat /\
  (pt_version p = Http11 -> length hosts = 1%nat) /\
  (forall n, n <> H_HOST -> hm_get_all (pt_headers p') n = hm_get_all (pt_headers p) n) /\
  ((pt_version p = Http10 /\ pt_uri_authority p = None /\ hosts = [] /\
    hm_get_all (pt_headers p') H_HOST = []) \/
   exists a, hm_get_all (pt_headers p') H_HOST = [a] /\ request_authority p' = a /\
     a <> [] /\ contains_byte "@" a = false /\ has_valid_port_syntax a = true /\
     match pt_uri_authority p with
     | Some u => a = u /\
         (forall h, h ∈ hosts ->
            same_origin (A := A) (default wire_scheme (pt_uri_scheme p)) u h)
     | None => hosts = [a]
     end).
Proof.
  unfold normalize_ingress_authority.
  destruct (ingress_authority p wire_scheme) as [[[uri host] selected]|] eqn:Ei; [|done].
  apply ingress_authority_ok in Ei. destruct Ei as (Eu & Eh & Es & Hparse & Hstr).
  apply select_authority_ok in Es. destruct Es as (Esel & Hnone & H11 & Hmatch).
  intros Hn. cbv zeta. rewrite Eh.
  assert (Hlen : (length (option_list host) <= 1)%nat /\
    (pt_version p = Http11 -> length (option_list host) = 1%nat)).
  { split; [destruct host; cbn; lia|]. intros E. destruct host; [done|]. by destruct (H11 E). }
  destruct Hlen as [Hl1 Hl2]. destruct selected as [a|].
  - destruct (parse_value a) as [value|] eqn:Ev; [|done].
    destruct (upstream_host_set (pt_headers p) a value Ev) as [Hh Hk].
    assert (Hpa : parse_authority a = Some a).
    { apply Hparse. destruct uri; [left|right]; congruence. }
    destruct (parse_authority_ok _ _ Hpa) as (_ & Hne & Hat & Hport).
    assert (Hp' : pt_version p' = pt_version p /\ pt_headers p' = hm_insert (pt_headers p) H_HOST value
      /\ request_authority p' = a).
    { destruct (match pt_version p with Http10 | Http11 => false | _ => _ end).
      - destruct (scheme_parse wire_scheme), (auth_parse a) as [x|] eqn:Ex; try done.
        destruct (uri_from_parts _ _); [|done]. injection Hn as <-. split_and!; [done|done|].
        apply (auth_show_parse _ _ Ex).
      - injection Hn as <-. split_and!; [done|done|]. unfold request_authority.
        cbn [pt_uri_authority pt_headers].
        rewrite <- Eu. destruct uri as [u|]; [by injection Esel as ->|].
        unfold hm_get. rewrite Hh. cbn [head]. by rewrite (Hstr _ (eq_sym Esel)). }
    destruct Hp' as (Hver & Hhd & Hreq). rewrite Hver, Hhd.
    split_and!; [done|done|done|done|]. right. exists a. split_and!; try done.
    rewrite <- Eu. destruct uri as [u|].
    + injection Esel as ->. split; [done|]. intros h Hin. destruct host as [h'|]; [|by apply elem_of_nil in Hin].
      apply list_elem_of_singleton in Hin. subst h'. by apply authorities_match_sound, Hmatch.
    + by rewrite <- Esel.
  - injection Hn as <-. cbn. assert (uri = None /\ host = None) as [-> ->]
      by (destruct uri, host; naive_solver).
    split_and!; [done|done|done| |].
    + intros n Hn. by rewrite hm_remove_all, bool_decide_false.
    + left. split_and!; [auto|done|done|]. by rewrite hm_remove_all, bool_decide_true.
Qed.

(** ** Witnesses: an association list as the header map. *)

#[local] Instance alist_headers : HeaderMap (list (bytes * bytes)) := {|
  hm_iter m := m;
  hm_append m n v := m ++ [(n, v)];
  hm_insert m n v := filter (fun e => fst e <> n) m ++ [(n, v)];
  hm_remove m n := filter (fun e => fst e <> n) m;
  parse_name := Some; parse_value := Some; to_str := Some |}.

Lemma alist_filter (m : list (bytes * bytes)) n k :
  map snd (filter (fun e => fst e = k) (filter (fun e => fst e <> n) m))
  = if bool_decide (k = n) then [] else map snd (filter (fun e => fst e = k) m).
Proof.
  induction m as [|[x v] m IH]; [by case_bool_decide|]. rewrite !filter_cons. cbn [fst].
  destruct (decide (x <> n)) as [Hx|Hx]; [rewrite filter_cons; cbn [fst]|];
    destruct (decide (x = k)); cbn [map]; rewrite IH; case_bool_decide; congruence || naive_solver.
Qed.

#[local] Instance alist_laws : HeaderMapLaws (list (bytes * bytes)).
Proof.
  split; unfold hm_get_all; cbn.
  - intros m n v k. rewrite filter_app, map_app, filter_cons, filter_nil. cbn [fst].
    case_decide; case_bool_decide; try done; congruence.
  - intros m n v k. rewrite filter_app, map_app, alist_filter, filter_cons, filter_nil.
    cbn [fst]. case_decide; case_bool_decide; try done; try congruence. apply app_nil_r.
  - intros m n k. apply alist_filter.
  - by intros s v [= ->].
  - by intros s v [= ->].
Qed.

#[local] Instance raw_authority : AuthorityLib bytes := {|
  auth_parse s := Some s; auth_show a := a;
  auth_host a := match split_once ":" a with Some (h, _) => h | None => a end;
  auth_has_port a := contains_byte ":" a;
  auth_port_u16 a := match split_once ":" a with Some (_, p) => parse_u16 p | None => None end;
  scheme_parse := Some; uri_from_parts _ _ := true |}.
#[local] Instance raw_authority_laws : AuthorityLaws bytes.
Proof. split. by intros s a [= ->]. Qed.

Definition sample_headers : list (bytes * bytes) :=
  [(bs "connection", bs "X-Secret, close"); (bs "x-secret", bs "1"); (bs "te", bs "gzip");
   (bs "host", bs "a.example:80"); (bs "x-forwarded-for", bs "6.6.6.6")].

Lemma hop_by_hop_stripped_witness :
  copy_headers [] (headers_to_vec sample_headers)
  = [(bs "host", bs "a.example:80"); (bs "x-forwarded-for", bs "6.6.6.6")] /\
  hm_get_all (copy_headers_direct [] sample_headers) (bs "x-secret") = [].
Proof.
  split; [vm_compute; reflexivity|].
  destruct (hop_by_hop_stripped [] sample_headers (bs "x-secret")) as [_ E];
    [by apply Forall_forall|].
  rewrite E. vm_compute. reflexivity.
Defined.

(** A client that names [6.6.6.6] itself before the declared hop [10.0.0.1] appended where it came from. *)
Lemma set_forwarded_unspoofable_witness :
  let contains := fun (_ : unit) ip => bool_decide (ip = V4 10 0 0 1) in
  let parse_ip := fun s => if bytes_eqb s (bs "9.9.9.9") then Some (V4 9 9 9 9)
                           else if bytes_eqb s (bs "6.6.6.6") then Some (V4 6 6 6 6) else None in
  let m := [(H_XFF, bs "6.6.6.6"); (H_XFF, bs "9.9.9.9")] in
  let r := set_forwarded contains parse_ip (fun _ => bs "9.9.9.9") m (V4 10 0 0 1) (bs "https") (Some [tt]) in
  r.1 = V4 9 9 9 9 /\ hm_get_all r.2 H_XFF = [bs "9.9.9.9"].
Proof.
  cbv zeta. set (contains := fun (_ : unit) ip => _). set (parse_ip := fun s => _). set (m := [_; _]).
  pose proof (set_forwarded_unspoofable contains parse_ip (fun _ => bs "9.9.9.9") m (V4 10 0 0 1) (bs "https")
    (Some [tt]) H_XFF) as E.
  destruct (set_forwarded _ _ _ _ _ _ _) as [c m']. destruct E as (E & _ & Hc). cbn [fst snd]. split.
  - destruct (Hc [tt] eq_refl) as [Hn _]; [by repeat constructor|]. apply Hn.
    exists [Some (bs "6.6.6.6")], (Some (bs "9.9.9.9")), [], (V4 9 9 9 9).
    split_and!; [reflexivity|constructor|cbn; lia|by exists (bs "9.9.9.9")| |reflexivity].
    intros Hd. by inversion Hd as [? ? Hx|? ? Hx]; [vm_compute in Hx|inversion Hx].
  - rewrite E. vm_compute. reflexivity.
Defined.

Lemma ingress_authority_unambiguous_witness :
  let p := mkParts Http11 None (Some (bs "A.example")) sample_headers in
  exists p', normalize_ingress_authority p (bs "http") = Some p' /\
    exists a, hm_get_all (pt_headers p') H_HOST = [a] /\ a = bs "A.example".
Proof.
  cbv zeta.
  destruct (normalize_ingress_authority
    (mkParts Http11 None (Some (bs "A.example")) sample_headers) (bs "http")) as [p'|] eqn:E;
    [|vm_compute in E; discriminate E].
  exists p'. split; [reflexivity|].
  destruct (ingress_authority_unambiguous _ _ _ E)
    as (_ & _ & _ & _ & [(Hv & _)|(a & Ha & _ & _ & _ & _ & Hu & _)]); [discriminate Hv|].
  exists a. split; [exact Ha|exact Hu].
Defined.
