(* ===== verification/Hash.v ===== *)
(** * The stable hash (control/src/hash.rs)

    MurmurHash3 x64/128 as the Maglev table and the request keys use it, on [u64] words with
    the wrapping operations written out. *)

From S2P Require Import Prelude Bytes.

Definition C1 : Z := 0x87c37b91114253d5.
Definition C2 : Z := 0x4cf5ad432745937f.

Definition rotate_left (x r : Z) : Z :=
  Z.lor (wrap64 (Z.shiftl x r)) (Z.shiftr x (64 - r)).

Definition fmix64 (k : Z) : Z :=
  let k := Z.lxor k (Z.shiftr k 33) in
  let k := wrapping_mul k 0xff51afd7ed558ccd in
  let k := Z.lxor k (Z.shiftr k 33) in
  let k := wrapping_mul k 0xc4ceb9fe1a85ec53 in
  Z.lxor k (Z.shiftr k 33).

(** [u64::from_le_bytes], of a buffer padded with zeros. *)
Definition from_le_bytes (l : bytes) : Z :=
  fold_right (fun c acc => byte_val c + 256 * acc) 0 l.

Definition read_u64_le (data : bytes) (base : nat) : Z :=
  let stop := Nat.min (base + 8) (length data) in
  if (base <=? stop)%nat then from_le_bytes (take (stop - base) (drop base data)) else 0.

Definition mix_k1 (k1 : Z) : Z := wrapping_mul (rotate_left (wrapping_mul k1 C1) 31) C2.
Definition mix_k2 (k2 : Z) : Z := wrapping_mul (rotate_left (wrapping_mul k2 C2) 33) C1.

(** One 16-byte block. *)
Definition mix_block (h : Z * Z) (k : Z * Z) : Z * Z :=
  let '(h1, h2) := h in
  let h1 := Z.lxor h1 (mix_k1 (fst k)) in
  let h1 := wrapping_add (wrapping_mul (wrapping_add (rotate_left h1 27) h2) 5) 0x52dce729 in
  let h2 := Z.lxor h2 (mix_k2 (snd k)) in
  let h2 := wrapping_add (wrapping_mul (wrapping_add (rotate_left h2 31) h1) 5) 0x38495ab5 in
  (h1, h2).

Definition byte_at (tail : bytes) (i : nat) : Z :=
  match tail !! i with Some c => byte_val c | None => 0 end.

(** [for i in (lo..hi).rev() { k ^= (tail[i] as u64) << (8 * (i - lo)); }] *)
Definition tail_word (tail : bytes) (lo hi : nat) : Z :=
  fold_left (fun k i => Z.lxor k (Z.shiftl (byte_at tail i) (8 * Z.of_nat (i - lo))))
    (rev (seq lo (hi - lo))) 0.

Definition finalize (h : Z * Z) (len : Z) : Z * Z :=
  let '(h1, h2) := h in
  let h1 := Z.lxor h1 len in
  let h2 := Z.lxor h2 len in
  let h1 := wrapping_add h1 h2 in
  let h2 := wrapping_add h2 h1 in
  let h1 := fmix64 h1 in
  let h2 := fmix64 h2 in
  let h1 := wrapping_add h1 h2 in
  let h2 := wrapping_add h2 h1 in
  (h1, h2).

Definition murmur3_x64_128 (data : bytes) (seed : Z) : Z * Z :=
  let nblocks := (length data / 16)%nat in
  let h := fold_left (fun h i =>
             let base := (i * 16)%nat in
             mix_block h (read_u64_le data base, read_u64_le data (base + 8)))
           (range nblocks) (seed, seed) in
  let tail := drop (nblocks * 16) data in
  let tlen := length tail in
  let '(h1, h2) := h in
  let h2 := if (9 <=? tlen)%nat then Z.lxor h2 (mix_k2 (tail_word tail 8 tlen)) else h2 in
  let h1 := if (1 <=? tlen)%nat then Z.lxor h1 (mix_k1 (tail_word tail 0 (Nat.min tlen 8)))
            else h1 in
  finalize (h1, h2) (wrap64 (Z.of_nat (length data))).

Definition hash64 (data : bytes) : Z := fst (murmur3_x64_128 data 0).

(** The published vectors of the algorithm. *)
Example murmur_empty : murmur3_x64_128 [] 0 = (0, 0).
Proof. vm_compute. reflexivity. Qed.
Example murmur_hello :
  murmur3_x64_128 (bs "hello") 0 = (0xcbd8a7b341bd9b02, 0x5b1e906a48ae1d19).
Proof. vm_compute. reflexivity. Qed.

(** ** A reference definition

    The input as little-endian words: the whole blocks, then one zero-padded block that is
    mixed without the block rounds. *)

Definition le_words (block : bytes) : Z * Z :=
  (from_le_bytes (take 8 block), from_le_bytes (take 8 (drop 8 block))).

Definition block (data : bytes) (i : nat) : bytes := take 16 (drop (i * 16) data).

Definition murmur_reference (data : bytes) (seed : Z) : Z * Z :=
  let n := (length data / 16)%nat in
  let '(h1, h2) := fold_left mix_block (map (fun i => le_words (block data i)) (range n))
                     (seed, seed) in
  let '(k1, k2) := le_words (block data n) in
  finalize (Z.lxor h1 (mix_k1 k1), Z.lxor h2 (mix_k2 k2)) (wrap64 (Z.of_nat (length data))).

(** ** Lemmas *)

Lemma from_le_bytes_bound l : 0 <= from_le_bytes l < 256 ^ Z.of_nat (length l).
Proof.
  induction l as [|c l IH]; [cbn; lia|]. cbn [from_le_bytes fold_right length].
  fold (from_le_bytes l). rewrite Nat2Z.inj_succ, Z.pow_succ_r by lia.
  pose proof (byte_val_range c). lia.
Qed.

(** A byte and a word shifted past it do not overlap. *)
Lemma lxor_byte c x : 0 <= x -> Z.lxor (byte_val c) (Z.shiftl x 8) = byte_val c + 256 * x.
Proof.
  intros Hx. rewrite Z.shiftl_mul_pow2 by lia. change (2 ^ 8) with 256.
  replace (256 * x) with (x * 256) by lia. symmetry. apply Z.add_nocarry_lxor.
  apply Z.bits_inj'. intros i Hi. rewrite Z.land_spec, Z.bits_0.
  destruct (Z.lt_ge_cases i 8).
  - change 256 with (2 ^ 8). rewrite (Z.mul_pow2_bits_low x 8 i) by lia. apply andb_false_r.
  - pose proof (byte_val_range c). rewrite (Z.bits_above_log2 (byte_val c) i); [done|lia|].
    destruct (Z.eq_dec (byte_val c) 0) as [->|]; [cbn; lia|].
    apply Z.log2_lt_pow2; [lia|]. assert (2 ^ 8 <= 2 ^ i) by (apply Z.pow_le_mono_r; lia). lia.
Qed.

Lemma tail_word_shift tail lo hi :
  tail_word tail lo hi = tail_word (drop lo tail) 0 (hi - lo).
Proof.
  unfold tail_word. rewrite Nat.sub_0_r. set (n := (hi - lo)%nat). clearbody n.
  replace (seq lo n) with (map (fun i => (lo + i)%nat) (seq 0 n))
    by (change (map (fun i => (lo + i)%nat) (seq 0 n)) with (Nat.add lo <$> seq 0 n);
        by rewrite fmap_add_seq, Nat.add_0_r).
  rewrite <- map_rev. generalize (rev (seq 0 n)), 0. intros l.
  induction l as [|i l IH]; intros acc; cbn [map fold_left]; [done|].
  rewrite IH. f_equal. unfold byte_at. rewrite lookup_drop. do 4 f_equal. lia.
Qed.

(** The xor loop reads the little-endian word. *)
Lemma tail_word_le n : forall tail, (n <= length tail)%nat ->
  tail_word tail 0 n = from_le_bytes (take n tail).
Proof.
  unfold tail_word. intros tail Hn. rewrite Nat.sub_0_r. revert tail Hn.
  assert (Hfr : forall (g : nat -> Z) l, fold_left (fun k i => Z.lxor k (g i)) (rev l) 0
    = fold_right (fun i k => Z.lxor (g i) k) 0 l).
  { intros g l. rewrite <- fold_left_rev_right, rev_involutive.
    induction l as [|i l IH]; cbn; [done|]. by rewrite IH, Z.lxor_comm. }
  induction n as [|n IH]; intros tail Hn; [done|].
  destruct tail as [|c tail]; [cbn in Hn; lia|]. cbn [length] in Hn.
  rewrite Hfr. cbn [seq fold_right take]. rewrite <- fmap_S_seq.
  specialize (IH tail ltac:(lia)). rewrite Hfr in IH.
  cbn [from_le_bytes fold_right]. fold (from_le_bytes (take n tail)). rewrite <- IH.
  change (byte_at (c :: tail) 0) with (byte_val c). rewrite Z.shiftl_0_r.
  assert (Hshift : forall l,
    fold_right (fun i k => Z.lxor (Z.shiftl (byte_at (c :: tail) i) (8 * Z.of_nat (i - 0))) k) 0
      (S <$> l)
    = Z.shiftl (fold_right (fun i k => Z.lxor (Z.shiftl (byte_at tail i) (8 * Z.of_nat (i - 0))) k)
        0 l) 8).
  { induction l as [|i l IHl]; [done|]. cbn [fmap list_fmap fold_right].
    rewrite IHl, Z.shiftl_lxor, Z.shiftl_shiftl by lia. f_equal.
    change (byte_at (c :: tail) (S i)) with (byte_at tail i). f_equal. lia. }
  rewrite Hshift. apply lxor_byte. rewrite IH. apply from_le_bytes_bound.
Qed.

Lemma read_u64_le_block data i k :
  (i < length data / 16)%nat -> (k = 0 \/ k = 8)%nat ->
  read_u64_le data (i * 16 + k) = from_le_bytes (take 8 (drop k (block data i))).
Proof.
  intros Hi Hk. unfold read_u64_le, block.
  assert (Hl : (i * 16 + 16 <= length data)%nat).
  { pose proof (Nat.Div0.mul_div_le (length data) 16). nia. }
  rewrite Nat.min_l by lia. replace (_ <=? _)%nat with true by (symmetry; apply Nat.leb_le; lia).
  replace (i * 16 + k + 8 - (i * 16 + k))%nat with 8%nat by lia.
  rewrite skipn_firstn_comm, drop_drop, firstn_firstn.
  rewrite Nat.min_l by (destruct Hk; subst; cbn; lia). reflexivity.
Qed.

Lemma fold_left_ext_in {A B} (f g : A -> B -> A) l :
  (forall a b, b ∈ l -> f a b = g a b) -> forall a, fold_left f l a = fold_left g l a.
Proof.
  induction l as [|b l IH]; intros Hfg a; cbn [fold_left]; [done|].
  rewrite Hfg by left. apply IH. intros. apply Hfg. by right.
Qed.

Lemma fold_left_map {A B C} (f : A -> B -> A) (g : C -> B) l : forall a,
  fold_left f (map g l) a = fold_left (fun a c => f a (g c)) l a.
Proof. induction l as [|c l IH]; intros a; cbn [map fold_left]; auto. Qed.

Lemma rotate_left_u64 x r : 0 <= r <= 64 -> is_u64 x -> is_u64 (rotate_left x r).
Proof.
  intros Hr Hx. unfold rotate_left. apply is_u64_lt.
  pose proof (proj1 (is_u64_lt _) (wrap64_u64 (Z.shiftl x r))) as Ha.
  pose proof (proj1 (is_u64_lt _) (shiftr_u64 x (64 - r) ltac:(lia) Hx)) as Hb.
  split; [apply Z.lor_nonneg; lia|].
  destruct (Z.eq_dec (Z.lor (wrap64 (Z.shiftl x r)) (Z.shiftr x (64 - r))) 0) as [->|Hz]; [lia|].
  assert (Hlog : forall y, 0 <= y < 2 ^ 64 -> Z.log2 y < 64).
  { intros y Hy. destruct (Z.eq_dec y 0) as [->|]; [cbn; lia|]. apply Z.log2_lt_pow2; lia. }
  apply Z.log2_lt_pow2; [pose proof (Z.lor_nonneg (wrap64 (Z.shiftl x r)) (Z.shiftr x (64 - r))); lia|].
  rewrite Z.log2_lor by lia. pose proof (Hlog _ Ha). pose proof (Hlog _ Hb). lia.
Qed.

Lemma finalize_u64 h len : is_u64 (fst (finalize h len)) /\ is_u64 (snd (finalize h len)).
Proof. destruct h. cbn [finalize fst snd]. unfold wrapping_add. auto with plecto. Qed.

Lemma mix_zero : mix_k1 0 = 0 /\ mix_k2 0 = 0.
Proof. by vm_compute. Qed.

(** The tail branches, whatever the tail's length, mix the zero-padded words. *)
Lemma tail_branches (tail : bytes) h1 h2 : (length tail < 16)%nat ->
  (if (9 <=? length tail)%nat then Z.lxor h2 (mix_k2 (tail_word tail 8 (length tail))) else h2)
    = Z.lxor h2 (mix_k2 (from_le_bytes (take 8 (drop 8 tail)))) /\
  (if (1 <=? length tail)%nat
   then Z.lxor h1 (mix_k1 (tail_word tail 0 (Nat.min (length tail) 8))) else h1)
    = Z.lxor h1 (mix_k1 (from_le_bytes (take 8 tail))).
Proof.
  intros Hl. destruct mix_zero as [Z1 Z2]. split.
  - destruct (Nat.leb_spec 9 (length tail)).
    + rewrite tail_word_shift, tail_word_le by (rewrite length_drop; lia).
      do 3 f_equal. rewrite !take_ge; [done|rewrite length_drop; lia..].
    + rewrite drop_ge by lia. cbn [take from_le_bytes fold_right].
      by rewrite Z2, Z.lxor_0_r.
  - destruct (Nat.leb_spec 1 (length tail)).
    + rewrite tail_word_le by lia. do 3 f_equal.
      destruct (Nat.le_ge_cases (length tail) 8).
      * by rewrite Nat.min_l, !take_ge by lia.
      * by rewrite Nat.min_r by lia.
    + destruct tail; [|cbn in *; lia]. cbn [take from_le_bytes fold_right].
      by rewrite Z1, Z.lxor_0_r.
Qed.

(** ** Properties *)

(** The block loop and the two descending tail loops compute the reference definition on
    little-endian words, the last block zero-padded, for every input length; both halves are
    64-bit words, so the table position taken from them is in range. *)
Theorem murmur3_is_reference (data : bytes) (seed : Z) :
  murmur3_x64_128 data seed = murmur_reference data seed /\
  is_u64 (fst (murmur3_x64_128 data seed)) /\ is_u64 (snd (murmur3_x64_128 data seed)).
Proof.
  assert (E : murmur3_x64_128 data seed = murmur_reference data seed).
  { unfold murmur3_x64_128, murmur_reference. cbv zeta. set (n := (length data / 16)%nat).
    assert (Hloop : fold_left mix_block (map (fun i => le_words (block data i)) (range n)) (seed, seed)
      = fold_left (fun h i => mix_block h (read_u64_le data (i * 16), read_u64_le data (i * 16 + 8)))
          (range n) (seed, seed)).
    { rewrite fold_left_map. apply fold_left_ext_in. intros h i Hi%elem_of_range.
      unfold le_words. f_equal. f_equal; symmetry.
      - rewrite <- (Nat.add_0_r (i * 16)) at 1. rewrite (read_u64_le_block data i 0) by auto. done.
      - by apply read_u64_le_block; auto. }
    rewrite Hloop. clear Hloop. destruct (fold_left _ _ _) as [h1 h2].
    assert (Hb : block data n = drop (n * 16) data).
    { unfold block. apply take_ge. rewrite length_drop. subst n.
      pose proof (Nat.Div0.div_mod (length data) 16). pose proof (Nat.mod_upper_bound (length data) 16).
      lia. }
    unfold le_words. rewrite Hb.
    assert (Hlt : (length (drop (n * 16) data) < 16)%nat).
    { rewrite length_drop. subst n. pose proof (Nat.Div0.div_mod (length data) 16).
      pose proof (Nat.mod_upper_bound (length data) 16). lia. }
    destruct (tail_branches (drop (n * 16) data) h1 h2 Hlt) as [-> ->]. done. }
  rewrite E. split; [done|]. unfold murmur_reference. cbv zeta.
  destruct (fold_left _ _ _), (le_words _). apply finalize_u64.
Qed.
