(* ===== verification/Rng.v ===== *)
(** * The pseudo-random indices (control/src/rng.rs)

    SplitMix64 and Lemire's bounded draw, for the two samples of a least-request pick.  The
    thread-local state is passed explicitly; its seed (wall clock and a counter) is any word. *)

From S2P Require Import Prelude.

Definition GOLDEN_GAMMA : Z := 0x9E3779B97F4A7C15.

Definition mix (z : Z) : Z :=
  let z := wrapping_mul (Z.lxor z (Z.shiftr z 30)) 0xBF58476D1CE4E5B9 in
  let z := wrapping_mul (Z.lxor z (Z.shiftr z 27)) 0x94D049BB133111EB in
  Z.lxor z (Z.shiftr z 31).

(** [seed]: the clock's nanoseconds and the per-thread counter. *)
Definition seed (nanos counter : Z) : Z :=
  mix (Z.lxor nanos (wrapping_mul counter GOLDEN_GAMMA)).

(** One draw and the next state. *)
Definition next_u64 (st : Z) : Z * Z :=
  let z := wrapping_add st GOLDEN_GAMMA in (mix z, z).

Definition threshold (n : Z) : Z := wrap64 (- n) mod n.
Definition low64 (m : Z) : Z := m mod 2 ^ 64.
Definition high32 (m : Z) : Z := Z.shiftr m 64 mod 2 ^ 32.

(** The rejection loop, on the 128-bit product. *)
Fixpoint reject_loop (fuel : nat) (n t m st : Z) : option (Z * Z) :=
  if low64 m <? t then
    match fuel with
    | O => None
    | S fuel =>
      let '(x, st) := next_u64 st in
      reject_loop fuel n t (x * n) st
    end
  else Some (high32 m, st).

Definition below (fuel : nat) (n st : Z) : option (Z * Z) :=
  let '(x, st) := next_u64 st in
  let m := x * n in
  if low64 m <? n then reject_loop fuel n (threshold n) m st
  else Some (high32 m, st).

Definition two_distinct_below (fuel : nat) (n st : Z) : option ((Z * Z) * Z) :=
  match below fuel n st with
  | None => None
  | Some (i, st) =>
    match below fuel (n - 1) st with
    | None => None
    | Some (j, st) => Some ((i, if i <=? j then j + 1 else j), st)
    end
  end.

(** ** Lemire's interval *)

Definition accepted (n x : Z) : bool := negb (low64 (x * n) <? threshold n).

Lemma threshold_mod n : 0 < n <= u32_max -> threshold n = 2 ^ 64 mod n.
Proof.
  unfold threshold, wrap64, u32_max. intros Hn.
  assert (E : (- n) mod 2 ^ 64 = 2 ^ 64 - n).
  { symmetry. apply (Z.mod_unique _ _ (-1)); lia. }
  rewrite E. replace (2 ^ 64 - n) with (2 ^ 64 + (-1) * n) by lia. apply Z.mod_add. lia.
Qed.

Lemma high32_div n x : 0 < n <= u32_max -> is_u64 x -> high32 (x * n) = x * n / 2 ^ 64.
Proof.
  unfold high32, u32_max. rewrite is_u64_lt. intros Hn Hx. rewrite Z.shiftr_div_pow2 by lia.
  apply Z.mod_small. split; [apply Z.div_pos; nia|]. apply Z.div_lt_upper_bound; nia.
Qed.

Lemma high32_range n x : 0 < n <= u32_max -> is_u64 x -> 0 <= high32 (x * n) < n.
Proof.
  intros Hn Hx. rewrite high32_div by done. rewrite is_u64_lt in Hx.
  split; [apply Z.div_pos; nia|]. apply Z.div_lt_upper_bound; nia.
Qed.

(** The accepted draws of one value are an interval of [2^64 / n] words. *)
Lemma accepted_interval n v : 0 < n <= u32_max -> 0 <= v < n ->
  exists a, 0 <= a /\ a + 2 ^ 64 / n <= 2 ^ 64 /\
    forall x, is_u64 x ->
      (accepted n x = true /\ high32 (x * n) = v <-> a <= x < a + 2 ^ 64 / n).
Proof.
  intros Hn Hv. set (q := 2 ^ 64 / n). set (t := 2 ^ 64 mod n).
  assert (E : 2 ^ 64 = n * q + t) by (apply Z.div_mod; lia).
  assert (Ht : 0 <= t < n) by (apply Z.mod_pos_bound; lia).
  assert (Hq : 0 <= q) by (apply Z.div_pos; lia).
  set (c := ((v + 1) * t + n - 1) / n).
  assert (Hc : (v + 1) * t <= n * c < (v + 1) * t + n).
  { pose proof (Z.div_mod ((v + 1) * t + n - 1) n ltac:(lia)) as Hd. fold c in Hd.
    pose proof (Z.mod_pos_bound ((v + 1) * t + n - 1) n ltac:(lia)). lia. }
  exists (v * q + c). split; [nia|]. split; [rewrite E; nia|].
  intros x Hx. rewrite high32_div by done. unfold accepted, low64. rewrite threshold_mod by done.
  fold t. rewrite negb_true_iff, Z.ltb_ge.
  pose proof (Z.div_mod (x * n) (2 ^ 64) ltac:(lia)) as Hd.
  pose proof (Z.mod_pos_bound (x * n) (2 ^ 64) ltac:(lia)) as Hm.
  set (w := x * n / 2 ^ 64) in *. set (r := (x * n) mod 2 ^ 64) in *.
  rewrite E in Hd, Hm. clearbody w r. clear E Hx. clearbody q t. split.
  - intros [Hr ->]. split; nia.
  - intros [H1 H2]. assert (Hlo : v * (n * q + t) + t <= x * n) by nia.
    assert (Hhi : x * n < (v + 1) * (n * q + t)) by nia.
    assert (w = v) as -> by nia. split; [nia|done].
Qed.

(** Two rejected draws of the same value are the same draw. *)
Lemma rejected_inj n x y : 0 < n <= u32_max -> is_u64 x -> is_u64 y ->
  accepted n x = false -> accepted n y = false -> high32 (x * n) = high32 (y * n) -> x = y.
Proof.
  intros Hn Hx Hy. rewrite !high32_div by done. unfold accepted, low64.
  rewrite !threshold_mod by done. rewrite !negb_false_iff, !Z.ltb_lt. intros Rx Ry E.
  pose proof (Z.div_mod (x * n) (2 ^ 64) ltac:(lia)).
  pose proof (Z.div_mod (y * n) (2 ^ 64) ltac:(lia)).
  pose proof (Z.mod_pos_bound (x * n) (2 ^ 64) ltac:(lia)).
  pose proof (Z.mod_pos_bound (y * n) (2 ^ 64) ltac:(lia)).
  pose proof (Z.mod_pos_bound (2 ^ 64) n ltac:(lia)). nia.
Qed.

(** ** SplitMix64 has full period *)

(** A xor-shift step can be undone. *)
Lemma xorshift_inj s x y : 0 < s -> is_u64 x -> is_u64 y ->
  Z.lxor x (Z.shiftr x s) = Z.lxor y (Z.shiftr y s) -> x = y.
Proof.
  intros Hs Hx Hy E. rewrite is_u64_lt in Hx, Hy. apply Z.bits_inj'.
  assert (Hhigh : forall z i, 0 <= z < 2 ^ 64 -> 64 <= i -> Z.testbit z i = false).
  { intros z i Hz Hi. destruct (Z.eq_dec z 0) as [->|]; [apply Z.bits_0|].
    apply Z.bits_above_log2; [lia|]. apply Z.lt_le_trans with 64; [|lia]. apply Z.log2_lt_pow2; lia. }
  assert (Hk : forall k, (k <= 64)%nat -> forall i, 64 - Z.of_nat k <= i -> 0 <= i ->
    Z.testbit x i = Z.testbit y i).
  { induction k as [|k IH]; intros Hk i Hi Hi0.
    - by rewrite !Hhigh by lia.
    - destruct (Z.eq_dec i (64 - Z.of_nat (S k))) as [->|]; [|apply IH; lia].
      set (i := 64 - Z.of_nat (S k)) in *. apply (f_equal (fun z => Z.testbit z i)) in E.
      rewrite !Z.lxor_spec, !Z.shiftr_spec, (IH ltac:(lia) (i + s)) in E by lia.
      by destruct (Z.testbit x i), (Z.testbit y i), (Z.testbit y (i + s)). }
  intros i Hi. apply (Hk 64%nat); lia.
Qed.

(** Multiplication by a word with an inverse modulo [2^64]. *)
Lemma wrapping_mul_inj c d x y : (c * d) mod 2 ^ 64 = 1 -> is_u64 x -> is_u64 y ->
  wrapping_mul x c = wrapping_mul y c -> x = y.
Proof.
  unfold wrapping_mul, wrap64. intros Hd Hx Hy E. rewrite is_u64_lt in Hx, Hy.
  apply (f_equal (fun z => (z * d) mod 2 ^ 64)) in E.
  rewrite !Z.mul_mod_idemp_l in E by lia. rewrite <- !Z.mul_assoc in E.
  rewrite <- (Z.mul_mod_idemp_r x), <- (Z.mul_mod_idemp_r y), Hd, !Z.mul_1_r in E by lia.
  by rewrite !Z.mod_small in E by lia.
Qed.

Lemma mix_u64 z : is_u64 z -> is_u64 (mix z).
Proof. intros Hz. unfold mix. apply lxor_u64; [|apply shiftr_u64; [lia|]]; apply wrap64_u64. Qed.

Lemma mix_inj x y : is_u64 x -> is_u64 y -> mix x = mix y -> x = y.
Proof.
  intros Hx Hy E. unfold mix in E.
  assert (Hs : forall z s, 0 <= s -> is_u64 z -> is_u64 (Z.lxor z (Z.shiftr z s)))
    by (auto with plecto).
  apply xorshift_inj in E; [|lia|apply wrap64_u64..].
  apply (wrapping_mul_inj _ 0x319642b2d24d8ec3) in E; [|reflexivity|apply Hs; [lia|apply wrap64_u64]..].
  apply xorshift_inj in E; [|lia|apply wrap64_u64..].
  apply (wrapping_mul_inj _ 0x96de1b173f119089) in E; [|reflexivity|apply Hs; [lia|done]..].
  by apply xorshift_inj in E; [|lia|..].
Qed.

(** The state after [k] draws. *)
Definition state_at (st : Z) (k : nat) : Z := wrap64 (st + Z.of_nat k * GOLDEN_GAMMA).

Lemma state_at_next st k : snd (next_u64 (state_at st k)) = state_at st (S k).
Proof.
  unfold next_u64, state_at, wrapping_add, wrap64. cbn [snd].
  rewrite Z.add_mod_idemp_l by lia. f_equal. lia.
Qed.

Lemma state_at_inj st j k : Z.of_nat j < 2 ^ 64 -> Z.of_nat k < 2 ^ 64 ->
  state_at st j = state_at st k -> j = k.
Proof.
  unfold state_at, wrap64. intros Hj Hk E.
  apply (f_equal (fun z => ((z - st) * 0xf1de83e19937733d) mod 2 ^ 64)) in E.
  rewrite <- !(Z.mul_mod_idemp_l (_ - st)) in E by lia.
  rewrite !Zminus_mod_idemp_l, !Z.mul_mod_idemp_l in E by lia.
  replace (st + Z.of_nat j * GOLDEN_GAMMA - st) with (Z.of_nat j * GOLDEN_GAMMA) in E by lia.
  replace (st + Z.of_nat k * GOLDEN_GAMMA - st) with (Z.of_nat k * GOLDEN_GAMMA) in E by lia.
  rewrite <- !Z.mul_assoc in E.
  assert (Hg : forall z, (z * (GOLDEN_GAMMA * 0xf1de83e19937733d)) mod 2 ^ 64 = z mod 2 ^ 64).
  { intros z. rewrite <- Z.mul_mod_idemp_r by lia.
    change ((GOLDEN_GAMMA * 0xf1de83e19937733d) mod 2 ^ 64) with 1. by rewrite Z.mul_1_r. }
  rewrite !Hg, !Z.mod_small in E by lia. lia.
Qed.

(** ** Termination of the rejection loop *)

Definition draw (st : Z) (k : nat) : Z := mix (state_at st (S k)).

Lemma draw_u64 st k : is_u64 (draw st k).
Proof. apply mix_u64, wrap64_u64. Qed.

Lemma draw_inj st j k : Z.of_nat (S j) < 2 ^ 64 -> Z.of_nat (S k) < 2 ^ 64 ->
  draw st j = draw st k -> j = k.
Proof.
  intros Hj Hk E. apply mix_inj in E; [|apply wrap64_u64..].
  apply state_at_inj in E; lia.
Qed.

Lemma next_u64_draw st k : next_u64 (state_at st k) = (draw st k, state_at st (S k)).
Proof.
  unfold draw. rewrite <- state_at_next. by destruct (next_u64 (state_at st k)) eqn:E;
    unfold next_u64 in E; injection E as <- <-.
Qed.

(** The loop returns the value of the first accepted draw, within its fuel. *)
Lemma reject_loop_first n st fuel : forall k,
  match reject_loop fuel n (threshold n) (draw st k * n) (state_at st (S k)) with
  | Some (v, st') => exists j, (j <= fuel)%nat /\ accepted n (draw st (k + j)) = true /\
      (forall i, (i < j)%nat -> accepted n (draw st (k + i)) = false) /\
      v = high32 (draw st (k + j) * n) /\ st' = state_at st (S (k + j))
  | None => forall j, (j <= fuel)%nat -> accepted n (draw st (k + j)) = false
  end.
Proof.
  induction fuel as [|fuel IH]; intros k; cbn [reject_loop];
    destruct (low64 (draw st k * n) <? threshold n) eqn:El.
  - intros j Hj. replace (k + j)%nat with k by lia. unfold accepted. by rewrite El.
  - exists 0%nat. rewrite Nat.add_0_r. unfold accepted. rewrite El. split_and!; [lia|done|lia|done|done].
  - rewrite next_u64_draw. specialize (IH (S k)).
    assert (Hk : accepted n (draw st (k + 0)) = false)
      by (rewrite Nat.add_0_r; unfold accepted; by rewrite El).
    destruct (reject_loop fuel n (threshold n) (draw st (S k) * n) (state_at st (S (S k))))
      as [[v st']|].
    + destruct IH as (j & Hj & Ha & Hr & -> & ->). exists (S j).
      rewrite <- Nat.add_succ_comm. split_and!; [lia|done| |done|done].
      intros [|i] Hi; [done|]. rewrite <- Nat.add_succ_comm. apply Hr. lia.
    + intros [|j] Hj; [done|]. rewrite <- Nat.add_succ_comm. apply IH. lia.
  - exists 0%nat. rewrite Nat.add_0_r. unfold accepted. rewrite El. split_and!; [lia|done|lia|done|done].
Qed.

(** [n + 1] consecutive draws cannot all be rejected: they are distinct and a value has at
    most one rejected draw. *)
Lemma some_accepted n st : 0 < n <= u32_max ->
  ~ (forall j, (j <= Z.to_nat n)%nat -> accepted n (draw st j) = false).
Proof.
  intros Hn Hall. set (N := Z.to_nat n) in *.
  assert (HN : Z.of_nat N = n) by (subst N; lia). unfold u32_max in Hn.
  set (val := fun j => Z.to_nat (high32 (draw st j * n))).
  assert (Hr : forall j, 0 <= high32 (draw st j * n) < n)
    by (intros; apply high32_range; [unfold u32_max; lia|apply draw_u64]).
  assert (Hnd : NoDup (val <$> seq 0 (S N))).
  { apply NoDup_fmap_2_strong; [|apply NoDup_seq]. intros i j Hi%elem_of_seq Hj%elem_of_seq E.
    apply (draw_inj st); [lia..|].
    apply (rejected_inj n); [unfold u32_max; lia|apply draw_u64..|apply Hall; lia|apply Hall; lia|].
    unfold val in E. pose proof (Hr i). pose proof (Hr j). lia. }
  assert (Hsub : val <$> seq 0 (S N) ⊆+ seq 0 N).
  { apply NoDup_submseteq; [done|]. intros x [j [-> _]]%list_elem_of_fmap.
    apply elem_of_seq. unfold val. pose proof (Hr j). lia. }
  apply submseteq_length in Hsub. rewrite length_fmap, !length_seq in Hsub. lia.
Qed.

Lemma state_at_0 st : is_u64 st -> state_at st 0 = st.
Proof. rewrite is_u64_lt. intros Hs. unfold state_at, wrap64. rewrite Z.mod_small; lia. Qed.

Lemma below_first n st fuel : 0 < n <= u32_max -> is_u64 st -> (Z.to_nat n <= fuel)%nat ->
  exists k, (k <= Z.to_nat n)%nat /\
    below fuel n st = Some (high32 (draw st k * n), state_at st (S k)) /\
    accepted n (draw st k) = true /\
    (forall i, (i < k)%nat -> accepted n (draw st i) = false).
Proof.
  intros Hn Hst Hf.
  assert (E : below fuel n st = reject_loop fuel n (threshold n) (draw st 0 * n) (state_at st 1)).
  { unfold below. rewrite <- (state_at_0 st Hst) at 1. rewrite next_u64_draw.
    destruct (Z.ltb_spec (low64 (draw st 0 * n)) n) as [|Hge]; [done|].
    assert (Hlt : low64 (draw st 0 * n) <? threshold n = false).
    { apply Z.ltb_ge. rewrite threshold_mod by done.
      pose proof (Z.mod_pos_bound (2 ^ 64) n ltac:(lia)). lia. }
    destruct fuel; cbn [reject_loop]; by rewrite Hlt. }
  rewrite E. pose proof (reject_loop_first n st fuel 0) as Hl. cbn [Nat.add] in Hl.
  destruct (reject_loop fuel n (threshold n) (draw st 0 * n) (state_at st 1)) as [[v st']|].
  - destruct Hl as (j & _ & Ha & Hr & -> & ->). exists j. split_and!; try done.
    destruct (Nat.le_gt_cases j (Z.to_nat n)) as [|Hgt]; [done|exfalso].
    apply (some_accepted n st Hn). intros i Hi. apply Hr. lia.
  - exfalso. apply (some_accepted n st Hn). intros i Hi. apply Hl. lia.
Qed.

Lemma two_distinct_total n st fuel : 2 <= n <= u32_max -> is_u64 st -> (Z.to_nat n <= fuel)%nat ->
  exists i j st', two_distinct_below fuel n st = Some ((i, j), st') /\ is_u64 st' /\
    0 <= i < n /\ 0 <= j < n /\ i <> j.
Proof.
  intros Hn Hst Hf. destruct (below_first n st fuel) as (k & _ & Hb & _); [lia|done|done|].
  pose proof (high32_range n (draw st k) ltac:(lia) (draw_u64 st k)) as Hi.
  destruct (below_first (n - 1) (state_at st (S k)) fuel) as (k' & _ & Hb' & _);
    [lia|apply wrap64_u64|lia|].
  pose proof (high32_range (n - 1) (draw (state_at st (S k)) k') ltac:(lia) (draw_u64 _ _)) as Hj.
  unfold two_distinct_below. rewrite Hb, Hb'. do 3 eexists. split; [done|].
  split; [apply wrap64_u64|]. destruct (Z.leb_spec (high32 (draw st k * n))
    (high32 (draw (state_at st (S k)) k' * (n - 1)))); lia.
Qed.

(** ** Properties *)

(** A bounded draw terminates and is unbiased: it returns the value of the first accepted
    word of the stream, found within [n + 1] words, the value is below [n], and for every
    value exactly [2^64 / n] words of the 64-bit range, an interval, are accepted with it. *)
Theorem below_terminates_unbiased (n st : Z) (fuel : nat) :
  0 < n <= u32_max -> is_u64 st -> (Z.to_nat n <= fuel)%nat ->
  (exists k, (k <= Z.to_nat n)%nat /\
    below fuel n st = Some (high32 (draw st k * n), state_at st (S k)) /\
    accepted n (draw st k) = true /\
    (forall i, (i < k)%nat -> accepted n (draw st i) = false) /\
    0 <= high32 (draw st k * n) < n) /\
  (forall v, 0 <= v < n ->
    exists a, 0 <= a /\ a + 2 ^ 64 / n <= 2 ^ 64 /\
      forall x, is_u64 x ->
        (accepted n x = true /\ high32 (x * n) = v <-> a <= x < a + 2 ^ 64 / n)).
Proof.
  intros Hn Hst Hf. split; [|intros v; by apply accepted_interval].
  destruct (below_first n st fuel Hn Hst Hf) as (k & Hk & Hb & Ha & Hr).
  exists k. split_and!; try done; apply high32_range; auto using draw_u64.
Qed.

Lemma below_terminates_unbiased_witness :
  exists k, (k <= 3)%nat /\
    below 3 3 7 = Some (high32 (draw 7 k * 3), state_at 7 (S k)) /\ 0 <= high32 (draw 7 k * 3) < 3.
Proof.
  destruct (below_terminates_unbiased 3 7 3) as [(k & Hk & Hb & _ & _ & Hr) _];
    [vm_compute; split; congruence|vm_compute; split; congruence|vm_compute; lia|].
  exists k. split; [exact Hk|]. split; [exact Hb|exact Hr].
Defined.

(** the two samples of a pick always exist, are distinct indices below [n], and every
    ordered pair of distinct indices comes from exactly one pair of bounded draws. *)
Theorem two_distinct_below_total (n st : Z) (fuel : nat) :
  2 <= n <= u32_max -> is_u64 st -> (Z.to_nat n <= fuel)%nat ->
  (exists i j st', two_distinct_below fuel n st = Some ((i, j), st') /\ is_u64 st' /\
    0 <= i < n /\ 0 <= j < n /\ i <> j) /\
  (forall i j, 0 <= i < n -> 0 <= j < n -> i <> j ->
    exists j0, 0 <= j0 < n - 1 /\ (if i <=? j0 then j0 + 1 else j0) = j /\
      forall j1, 0 <= j1 < n - 1 -> (if i <=? j1 then j1 + 1 else j1) = j -> j1 = j0).
Proof.
  intros Hn Hst Hf. split; [by apply two_distinct_total|].
  intros i j Hi Hj Hne. exists (if i <? j then j - 1 else j).
    destruct (Z.ltb_spec i j); split_and!; try lia;
      [destruct (Z.leb_spec i (j - 1)); lia|intros j1 Hj1; destruct (Z.leb_spec i j1); lia
      |destruct (Z.leb_spec i j); lia|intros j1 Hj1; destruct (Z.leb_spec i j1); lia].
Qed.

Lemma two_distinct_below_total_witness :
  exists i j st', two_distinct_below 4 4 42 = Some ((i, j), st') /\ i <> j.
Proof.
  destruct (two_distinct_below_total 4 42 4) as [(i & j & st' & E & _ & _ & _ & Hne) _];
    [vm_compute; split; congruence|vm_compute; split; congruence|vm_compute; lia|].
  exists i, j, st'. split; [exact E|exact Hne].
Defined.
