(* ===== verification/Maglev.v ===== *)
(** * The Maglev table (control/src/maglev.rs)

    The weighted-frequency populate of the consistent-hashing table and its lookup.  The two
    nested [while] loops take fuel; [build] gives them the table size, which is enough. *)

From Stdlib Require Import Znumtheory.
From S2P Require Import Prelude Bytes Hash.

(** The loop's variables: per-backend targets and cursors, the slots ([-1] is empty), the
    number of filled slots and the round. *)
Record Fill := mkFill {
  fl_target : list Z;
  fl_next : list Z;
  fl_entry : list Z;
  fl_filled : Z;
  fl_round : Z;
}.

(** A backend's permutation of the slots. *)
Definition position (m offset skip next : Z) : Z := (offset + wrapping_mul next skip) mod m.

(** Advance the cursor to the backend's most preferred empty slot. *)
Fixpoint probe (fuel : nat) (m offset skip : Z) (entry : list Z) (next : Z) : option (Z * nat) :=
  let c := Z.to_nat (position m offset skip next) in
  if 0 <=? entry !!! c then
    match fuel with
    | O => None
    | S fuel => probe fuel m offset skip entry (next + 1)
    end
  else Some (next, c).

Section populate.
Context (m : Z) (offset skip weights : list Z) (max_w : Z).

(** Backend [i] takes its turn. *)
Definition place (i : nat) (s : Fill) : option Fill :=
  match probe (Z.to_nat m) m (offset !!! i) (skip !!! i) (fl_entry s) (fl_next s !!! i) with
  | None => None
  | Some (next, c) =>
    Some (mkFill (<[i := fl_target s !!! i + max_w]> (fl_target s))
                 (<[i := next + 1]> (fl_next s))
                 (<[c := Z.of_nat i]> (fl_entry s)) (fl_filled s + 1) (fl_round s))
  end.

Fixpoint round_loop (todo : list nat) (s : Fill) : option Fill :=
  match todo with
  | [] => Some s
  | i :: todo =>
    if weights !!! i =? 0 then round_loop todo s
    else if fl_round s * weights !!! i <? fl_target s !!! i then round_loop todo s
    else
      match place i s with
      | None => None
      | Some s => if fl_filled s =? m then Some s else round_loop todo s
      end
  end.

Fixpoint fill_loop (fuel : nat) (s : Fill) : option Fill :=
  if fl_filled s <? m then
    match fuel with
    | O => None
    | S fuel =>
      let s := mkFill (fl_target s) (fl_next s) (fl_entry s) (fl_filled s) (fl_round s + 1) in
      match round_loop (range (length weights)) s with
      | None => None
      | Some s => fill_loop fuel s
      end
    end
  else Some s.
End populate.

Definition list_max (l : list Z) : Z := fold_right Z.max 1 l.

Definition build (entries : list (bytes * Z)) (m : Z) : option (list Z) :=
  if bool_decide (entries = []) || forallb (fun e => snd e =? 0) entries || (m <? 2)
  then Some []
  else
    let offset := map (fun e => fst (murmur3_x64_128 (fst e) 0) mod m) entries in
    let skip := map (fun e => snd (murmur3_x64_128 (fst e) 0) mod (m - 1) + 1) entries in
    let weights := map snd entries in
    let max_w := list_max weights in
    let s := mkFill weights (replicate (length entries) 0) (replicate (Z.to_nat m) (-1)) 0 0 in
    match fill_loop m offset skip weights max_w (Z.to_nat m) s with
    | None => None
    | Some s => Some (map (fun e => e mod 2 ^ 16) (fl_entry s))
    end.

Definition lookup_slot (table : list Z) (key_hash : Z) : option Z :=
  let m := Z.of_nat (length table) in
  if m =? 0 then None else table !! Z.to_nat (key_hash mod m).

Example build_small : option_map (@length Z) (build [(bs "a:1", 1); (bs "b:1", 2)] 7) = Some 7%nat.
Proof. vm_compute. reflexivity. Qed.

(** ** Lemmas on slots *)

(** The slots that hold [i], counted; the filled slots, counted. *)
Definition slots_of (i : Z) (entry : list Z) : Z :=
  sumZ (map (fun e => if e =? i then 1 else 0) entry).
Definition slots_filled (entry : list Z) : Z :=
  sumZ (map (fun e => if 0 <=? e then 1 else 0) entry).

Lemma slots_filled_bound entry : 0 <= slots_filled entry <= Z.of_nat (length entry).
Proof.
  unfold slots_filled. induction entry as [|e l IH]; cbn [map sumZ length]; [lia|].
  destruct (0 <=? e); lia.
Qed.

Lemma slots_of_le i entry : 0 <= i -> slots_of i entry <= slots_filled entry.
Proof.
  intros Hi. unfold slots_of, slots_filled.
  induction entry as [|e l IH]; cbn [map sumZ]; [lia|].
  destruct (Z.eqb_spec e i), (Z.leb_spec 0 e); lia.
Qed.

(** A table that is not full has an empty slot; a full one has none. *)
Lemma slots_empty entry : slots_filled entry < Z.of_nat (length entry) ->
  exists c, (c < length entry)%nat /\ entry !!! c < 0.
Proof.
  unfold slots_filled. induction entry as [|e l IH]; cbn [map sumZ length]; [lia|].
  intros H. destruct (Z.leb_spec 0 e).
  - destruct IH as (c & Hc & He); [lia|]. exists (S c). split; [lia|done].
  - exists 0%nat. split; [lia|done].
Qed.

Lemma slots_full entry : slots_filled entry = Z.of_nat (length entry) ->
  Forall (fun e => 0 <= e) entry.
Proof.
  induction entry as [|e l IH]; [by constructor|].
  pose proof (slots_filled_bound l) as Hb. unfold slots_filled in *.
  cbn [map sumZ length]. intros H. destruct (Z.leb_spec 0 e); [|lia].
  constructor; [done|]. apply IH. lia.
Qed.

Lemma sum_indicator_insert (f : Z -> bool) entry c e : (c < length entry)%nat ->
  sumZ (map (fun x => if f x then 1 else 0) (<[c := e]> entry))
  = sumZ (map (fun x => if f x then 1 else 0) entry) - (if f (entry !!! c) then 1 else 0)
    + (if f e then 1 else 0).
Proof.
  intros Hc. destruct (lookup_lt_is_Some_2 _ _ Hc) as [x Hx].
  rewrite (list_lookup_total_correct _ _ _ Hx).
  change (map ?g (<[c := e]> entry)) with (g <$> <[c := e]> entry).
  rewrite list_fmap_insert. rewrite (sumZ_insert _ c (if f x then 1 else 0)); [done|].
  by rewrite list_lookup_fmap, Hx.
Qed.

(** ** The permutation *)

(** For a prime table size, the cursor values below it reach every slot. *)
Lemma position_onto m offset skip c : prime m -> m < 2 ^ 31 -> 1 <= skip < m -> 0 <= c < m ->
  exists j, 0 <= j < m /\ position m offset skip j = c.
Proof.
  intros Hp Hm Hs Hc. pose proof (prime_ge_2 m Hp).
  assert (Hrp : rel_prime skip m).
  { apply rel_prime_sym, prime_rel_prime; [done|]. intros Hd.
    apply Z.divide_pos_le in Hd; lia. }
  destruct (rel_prime_bezout _ _ Hrp) as [u v E].
  exists (((c - offset) * u) mod m).
  pose proof (Z.mod_pos_bound ((c - offset) * u) m ltac:(lia)) as Hj. split; [done|].
  unfold position, wrapping_mul, wrap64. rewrite (Z.mod_small (_ * skip)) by nia.
  rewrite <- Z.add_mod_idemp_r, Z.mul_mod_idemp_l, Z.add_mod_idemp_r by lia.
  replace (offset + (c - offset) * u * skip) with (c + (- ((c - offset) * v)) * m).
  - rewrite Z.mod_add by lia. apply Z.mod_small. lia.
  - replace ((c - offset) * u * skip) with ((c - offset) * (u * skip)) by lia.
    replace (u * skip) with (1 - v * m) by lia. lia.
Qed.

Lemma position_range m offset skip j : 2 <= m -> 0 <= position m offset skip j < m.
Proof. intros. apply Z.mod_pos_bound. lia. Qed.

(** Probing from [next] finds an empty slot within the given distance; the positions it
    passed are filled. *)
Lemma probe_finds m offset skip entry : forall fuel next j,
  next <= j -> j - next <= Z.of_nat fuel ->
  entry !!! Z.to_nat (position m offset skip j) < 0 ->
  exists k, next <= k <= j /\
    probe fuel m offset skip entry next = Some (k, Z.to_nat (position m offset skip k)) /\
    entry !!! Z.to_nat (position m offset skip k) < 0 /\
    (forall i, next <= i < k -> 0 <= entry !!! Z.to_nat (position m offset skip i)).
Proof.
  induction fuel as [|fuel IH]; intros next j Hj Hf He; cbn [probe].
  - assert (next = j) as -> by lia.
    destruct (Z.leb_spec 0 (entry !!! Z.to_nat (position m offset skip j))); [lia|].
    exists j. split_and!; [lia|lia|done|done|lia].
  - destruct (Z.leb_spec 0 (entry !!! Z.to_nat (position m offset skip next))) as [Hn|Hn].
    + assert (next <> j) by (intros ->; lia).
      destruct (IH (next + 1) j) as (k & Hk & Hp & Hke & Hi); [lia..|done|].
      exists k. split_and!; [lia|lia|done|done|]. intros i Hir.
      destruct (Z.eq_dec i next) as [->|]; [done|]. apply Hi. lia.
    + exists next. split_and!; [lia|lia|done|done|lia].
Qed.

(** ** The populate invariant *)

(** The turns a backend of weight [w] has taken after [r] full rounds. *)
Definition turns (r w max_w : Z) : Z := if r <=? 0 then 0 else ((r - 1) * w) / max_w + 1.

(** One round adds a turn exactly when the loop's comparison says so. *)
Lemma turns_step r w W : 1 <= r -> 1 <= w <= W ->
  turns r w W = turns (r - 1) w W +
    (if r * w <? w + turns (r - 1) w W * W then 0 else 1).
Proof.
  intros Hr Hw. unfold turns. rewrite (proj2 (Z.leb_gt r 0)) by lia.
  destruct (Z.leb_spec (r - 1) 0).
  - replace r with 1 by lia. rewrite Z.div_small by lia. destruct (Z.ltb_spec (1 * w) (w + 0 * W)); lia.
  - replace (r - 1 - 1) with (r - 2) by lia.
    pose proof (Z.div_mod ((r - 2) * w) W ltac:(lia)).
    pose proof (Z.mod_pos_bound ((r - 2) * w) W ltac:(lia)).
    pose proof (Z.div_mod ((r - 1) * w) W ltac:(lia)).
    pose proof (Z.mod_pos_bound ((r - 1) * w) W ltac:(lia)).
    set (q := (r - 2) * w / W) in *. set (q' := (r - 1) * w / W) in *.
    destruct (Z.ltb_spec (r * w) (w + (q + 1) * W)); nia.
Qed.

Lemma turns_max r W : 1 <= W -> 0 <= r -> turns r W W = r.
Proof.
  intros HW Hr. unfold turns. destruct (Z.leb_spec r 0); [lia|]. rewrite Z.div_mul; lia.
Qed.

Section invariant.
Context (m : Z) (offset skip weights : list Z) (W : Z).
Let n := length weights.
Hypothesis Hprime : prime m.
Hypothesis Hm : m < 2 ^ 31.
Hypothesis Hskip : forall i, (i < n)%nat -> 1 <= skip !!! i < m.
Hypothesis Hweights : forall i, (i < n)%nat -> 1 <= weights !!! i <= W.

Record inv (s : Fill) (T : list Z) : Prop := {
  inv_turns_len : length T = n;
  inv_target_len : length (fl_target s) = n;
  inv_next_len : length (fl_next s) = n;
  inv_entry_len : length (fl_entry s) = Z.to_nat m;
  inv_target : forall i, (i < n)%nat -> fl_target s !!! i = weights !!! i + T !!! i * W;
  inv_count : forall i, (i < n)%nat -> slots_of (Z.of_nat i) (fl_entry s) = T !!! i;
  inv_next : forall i, (i < n)%nat -> 0 <= fl_next s !!! i;
  inv_passed : forall i j, (i < n)%nat -> 0 <= j < fl_next s !!! i ->
    0 <= fl_entry s !!! Z.to_nat (position m (offset !!! i) (skip !!! i) j);
  inv_entry : Forall (fun e => e = -1 \/ 0 <= e < Z.of_nat n) (fl_entry s);
  inv_filled : fl_filled s = slots_filled (fl_entry s);
  inv_total : fl_filled s = sumZ T;
}.

Lemma m_pos : 2 <= m.
Proof. by apply prime_ge_2. Qed.

Lemma position_lt i j : (Z.to_nat (position m (offset !!! i) (skip !!! i) j) < Z.to_nat m)%nat.
Proof.
  pose proof m_pos. pose proof (position_range m (offset !!! i) (skip !!! i) j m_pos). lia.
Qed.

(** An empty slot is at a cursor value the backend has not passed. *)
Lemma place_slot s T i : inv s T -> (i < n)%nat -> fl_filled s < m ->
  exists k, fl_next s !!! i <= k < m /\
    probe (Z.to_nat m) m (offset !!! i) (skip !!! i) (fl_entry s) (fl_next s !!! i)
      = Some (k, Z.to_nat (position m (offset !!! i) (skip !!! i) k)) /\
    fl_entry s !!! Z.to_nat (position m (offset !!! i) (skip !!! i) k) < 0 /\
    (forall j, fl_next s !!! i <= j < k ->
      0 <= fl_entry s !!! Z.to_nat (position m (offset !!! i) (skip !!! i) j)).
Proof.
  intros I Hi Hf. pose proof m_pos.
  destruct (slots_empty (fl_entry s)) as (c & Hc & He).
  { rewrite <- (inv_filled _ _ I), (inv_entry_len _ _ I). lia. }
  rewrite (inv_entry_len _ _ I) in Hc.
  destruct (position_onto m (offset !!! i) (skip !!! i) (Z.of_nat c)) as (j & Hj & Hpos);
    [done|done|by apply Hskip|lia|].
  assert (Hnext : fl_next s !!! i <= j).
  { destruct (Z.le_gt_cases (fl_next s !!! i) j) as [|Hgt]; [done|].
    pose proof (inv_passed _ _ I i j Hi ltac:(lia)) as Hp. rewrite Hpos, Nat2Z.id in Hp. lia. }
  pose proof (inv_next _ _ I i Hi).
  destruct (probe_finds m (offset !!! i) (skip !!! i) (fl_entry s) (Z.to_nat m)
    (fl_next s !!! i) j) as (k & Hk & Hp & Hke & Hpass); [lia|lia|by rewrite Hpos, Nat2Z.id|].
  exists k. split_and!; [lia|lia|done|done|done].
Qed.

Lemma place_inv s T i : inv s T -> (i < n)%nat -> fl_filled s < m ->
  exists s', place m offset skip W i s = Some s' /\ inv s' (<[i := T !!! i + 1]> T) /\
    fl_filled s' = fl_filled s + 1 /\ fl_round s' = fl_round s.
Proof.
  intros I Hi Hf. destruct (place_slot s T i I Hi Hf) as (k & Hk & Hp & He & Hpass).
  unfold place. rewrite Hp. eexists. split; [done|]. cbn [fl_filled fl_round].
  pose proof (position_lt i k) as Hc.
  set (c := Z.to_nat (position m (offset !!! i) (skip !!! i) k)) in *.
  pose proof (inv_entry_len _ _ I) as Hle.
  split; [|done]. destruct I. split; cbn [fl_target fl_next fl_entry fl_filled fl_round].
  - by rewrite length_insert.
  - by rewrite length_insert.
  - by rewrite length_insert.
  - by rewrite length_insert.
  - intros j Hj. destruct (decide (i = j)) as [<-|Hne].
    + rewrite !list_lookup_total_insert_eq by lia. rewrite inv_target0 by done. lia.
    + rewrite !list_lookup_total_insert_ne by done. by apply inv_target0.
  - intros j Hj. unfold slots_of. rewrite (sum_indicator_insert (fun e => e =? Z.of_nat j)) by lia.
    fold (slots_of (Z.of_nat j) (fl_entry s)). rewrite inv_count0 by done.
    destruct (Z.eqb_spec (fl_entry s !!! c) (Z.of_nat j)); [lia|].
    destruct (decide (i = j)) as [<-|Hne].
    + rewrite list_lookup_total_insert_eq by lia. rewrite Z.eqb_refl. lia.
    + rewrite list_lookup_total_insert_ne by done.
      destruct (Z.eqb_spec (Z.of_nat i) (Z.of_nat j)); lia.
  - intros j Hj. destruct (decide (i = j)) as [<-|Hne].
    + rewrite list_lookup_total_insert_eq by lia. pose proof (inv_next0 i Hi). lia.
    + rewrite list_lookup_total_insert_ne by done. by apply inv_next0.
  - intros j x Hj Hx.
    set (d := Z.to_nat (position m (offset !!! j) (skip !!! j) x)).
    destruct (decide (c = d)) as [Hcd|Hcd].
    { rewrite <- Hcd, list_lookup_total_insert_eq by lia. lia. }
    rewrite list_lookup_total_insert_ne by done.
    destruct (decide (i = j)) as [<-|Hne].
    + rewrite list_lookup_total_insert_eq in Hx by lia.
      destruct (Z.lt_ge_cases x (fl_next s !!! i)); [apply inv_passed0; [done|lia]|].
      destruct (Z.eq_dec x k) as [->|]; [done|]. apply Hpass. lia.
    + rewrite list_lookup_total_insert_ne in Hx by done. by apply inv_passed0.
  - apply Forall_insert; [done|]. right. lia.
  - unfold slots_filled. rewrite (sum_indicator_insert (fun e => 0 <=? e)) by lia.
    fold (slots_filled (fl_entry s)). destruct (Z.leb_spec 0 (fl_entry s !!! c)); [lia|].
    destruct (Z.leb_spec 0 (Z.of_nat i)); lia.
  - destruct (lookup_lt_is_Some_2 T i ltac:(lia)) as [x Hx].
    rewrite (sumZ_insert T i x), (list_lookup_total_correct _ _ _ Hx) by done. lia.
Qed.

(** The expected turns in round [r] with the first [p] backends done. *)
Definition expected (r : Z) (p : nat) (T : list Z) : Prop :=
  forall i, (i < n)%nat ->
    T !!! i = if (i <? p)%nat then turns r (weights !!! i) W else turns (r - 1) (weights !!! i) W.

Lemma round_loop_inv k : forall p s T,
  (p + k = n)%nat -> inv s T -> expected (fl_round s) p T -> 1 <= fl_round s -> fl_filled s < m ->
  exists s' T' p', round_loop m offset skip weights W (seq p k) s = Some s' /\ inv s' T' /\
    expected (fl_round s) p' T' /\ fl_round s' = fl_round s /\ (p' <= n)%nat /\
    fl_filled s' <= m /\ (fl_filled s' < m -> p' = n).
Proof.
  induction k as [|k IH]; intros p s T Hp I Hexp Hr Hf; cbn [seq round_loop].
  { exists s, T, p. split_and!; try done; lia. }
  assert (Hpn : (p < n)%nat) by lia. pose proof (Hweights p Hpn) as Hw.
  destruct (Z.eqb_spec (weights !!! p) 0); [lia|].
  rewrite (inv_target _ _ I p Hpn).
  assert (HT : T !!! p = turns (fl_round s - 1) (weights !!! p) W)
    by (rewrite Hexp, Nat.ltb_irrefl by done; done).
  pose proof (turns_step (fl_round s) (weights !!! p) W Hr Hw) as Hstep. rewrite <- HT in Hstep.
  destruct (fl_round s * weights !!! p <? weights !!! p + T !!! p * W) eqn:Et.
  - apply (IH (S p) s T); [lia|done| |done|done].
    intros i Hi. rewrite (Hexp i Hi). destruct (Nat.ltb_spec i p), (Nat.ltb_spec i (S p)); try lia.
    assert (i = p) as -> by lia. lia.
  - destruct (place_inv s T p I Hpn Hf) as (s' & Hs' & I' & Hf' & Hr'). rewrite Hs'.
    assert (Hexp' : expected (fl_round s) (S p) (<[p := T !!! p + 1]> T)).
    { intros i Hi. destruct (decide (p = i)) as [<-|Hne].
      - rewrite list_lookup_total_insert_eq by (rewrite (inv_turns_len _ _ I); lia).
        destruct (Nat.ltb_spec p (S p)); lia.
      - rewrite list_lookup_total_insert_ne, (Hexp i Hi) by done.
        destruct (Nat.ltb_spec i p), (Nat.ltb_spec i (S p)); try lia; done. }
    destruct (Z.eqb_spec (fl_filled s') m).
    + exists s', (<[p := T !!! p + 1]> T), (S p). split_and!; try done; lia.
    + rewrite <- Hr'. apply (IH (S p) s' (<[p := T !!! p + 1]> T)); [lia|done| |lia|lia].
      by rewrite Hr'.
Qed.

(** Some backend has the largest weight, so a round fills at least one slot. *)
Hypothesis Hmax : exists i, (i < n)%nat /\ weights !!! i = W.

Lemma fill_loop_inv fuel : forall s T, inv s T -> 0 <= fl_round s ->
  expected (fl_round s) n T -> fl_filled s <= m -> m <= Z.of_nat fuel + fl_round s ->
  exists s' T' p r, fill_loop m offset skip weights W fuel s = Some s' /\ inv s' T' /\
    fl_filled s' = m /\ expected r p T' /\ 0 <= r <= m /\ (p <= n)%nat.
Proof.
  induction fuel as [|fuel IH]; intros s T I Hr Hexp Hf Hfuel; cbn [fill_loop];
    pose proof m_pos.
  all: assert (Hround : fl_round s <= fl_filled s) by
    (destruct Hmax as (i & Hi & Hw); rewrite (inv_filled _ _ I);
     pose proof (slots_of_le (Z.of_nat i) (fl_entry s) ltac:(lia)) as Hle;
     rewrite (inv_count _ _ I i Hi), (Hexp i Hi), Hw in Hle;
     pose proof (Hweights i Hi);
     destruct (Nat.ltb_spec i n); [|lia]; rewrite turns_max in Hle by lia; lia).
  all: destruct (Z.ltb_spec (fl_filled s) m) as [Hlt|Hge];
    [|exists s, T, n, (fl_round s); split_and!; try done; lia].
  - lia.
  - set (s1 := mkFill _ _ _ _ _).
    assert (I1 : inv s1 T) by (destruct I; by split).
    destruct (round_loop_inv n 0 s1 T) as (s' & T' & p' & Hs' & I' & Hexp' & Hr' & Hp' & Hf' & Hd);
      [done|done| |cbn; lia|cbn; lia|].
    { intros i Hi. rewrite (Hexp i Hi). cbn [fl_round s1].
      destruct (Nat.ltb_spec i n), (Nat.ltb_spec i 0); try lia. f_equal. lia. }
    unfold range. fold n. rewrite Hs'. cbn [fl_round s1] in *.
    destruct (Z.lt_ge_cases (fl_filled s') m) as [Hlt'|Hge'].
    + rewrite (Hd Hlt') in Hexp'. apply (IH s' T'); [done|lia| |lia|lia].
      by rewrite Hr'.
    + exists s', T', p', (fl_round s + 1).
      assert (Hdone : fill_loop m offset skip weights W fuel s' = Some s').
      { destruct fuel; cbn [fill_loop]; destruct (Z.ltb_spec (fl_filled s') m); done || lia. }
      split_and!; try done; lia.
Qed.
End invariant.

(** ** The built table *)

Lemma list_max_ge l x : x ∈ l -> x <= list_max l.
Proof. induction 1; cbn; unfold list_max in *; lia. Qed.

Lemma list_max_attained l : l <> [] -> Forall (fun x => 1 <= x) l ->
  exists i, (i < length l)%nat /\ l !!! i = list_max l.
Proof.
  intros Hl Hf. induction Hf as [|x l Hx Hf IH]; [done|]. cbn [list_max fold_right length].
  fold (list_max l). destruct l as [|y l].
  - exists 0%nat. split; [cbn; lia|]. cbn. lia.
  - destruct IH as (i & Hi & E); [done|].
    destruct (Z.le_gt_cases x (list_max (y :: l))).
    + exists (S i). split; [lia|]. change ((x :: y :: l) !!! S i) with ((y :: l) !!! i).
      rewrite E. lia.
    + exists 0%nat. split; [lia|]. change (_ !!! 0%nat) with x. lia.
Qed.

Lemma sum_first (T : list Z) : forall p, (p <= length T)%nat ->
  (forall i, (i < length T)%nat -> T !!! i = if (i <? p)%nat then 1 else 0) -> sumZ T = Z.of_nat p.
Proof.
  induction T as [|x T IH]; intros p Hp HT; [cbn in *; lia|]. cbn [length] in *.
  pose proof (HT 0%nat ltac:(lia)) as H0. change ((x :: T) !!! 0%nat) with x in H0.
  cbn [sumZ]. rewrite (IH (p - 1)%nat), H0; [|lia|].
  - destruct (Nat.ltb_spec 0 p); lia.
  - intros i Hi. pose proof (HT (S i) ltac:(lia)) as HS.
    change ((x :: T) !!! S i) with (T !!! i) in HS. rewrite HS.
    destruct (Nat.ltb_spec (S i) p), (Nat.ltb_spec i (p - 1)); lia || done.
Qed.

(** What the loop leaves for a list of positive weights. *)
Lemma build_fill entries m : prime m -> m < 2 ^ 31 -> entries <> [] ->
  Forall (fun e => 1 <= snd e) entries ->
  let weights := map snd entries in
  exists s T p r, build entries m = Some (map (fun e => e mod 2 ^ 16) (fl_entry s)) /\
    inv m (map (fun e => fst (murmur3_x64_128 (fst e) 0) mod m) entries)
      (map (fun e => snd (murmur3_x64_128 (fst e) 0) mod (m - 1) + 1) entries)
      weights (list_max weights) s T /\
    fl_filled s = m /\ expected weights (list_max weights) r p T /\ 0 <= r <= m /\
    (p <= length weights)%nat.
Proof.
  intros Hp Hm He Hw weights. pose proof (prime_ge_2 m Hp) as H2.
  assert (Hw' : Forall (fun x => 1 <= x) weights) by (subst weights; by apply Forall_map).
  assert (Hlook : forall i, (i < length weights)%nat -> weights !!! i ∈ weights)
    by (intros i Hi; by apply list_elem_of_lookup_total_2).
  unfold build. rewrite bool_decide_false by done.
  assert (Hz : forallb (fun e => snd e =? 0) entries = false).
  { destruct entries as [|e l]; [done|]. cbn [forallb]. apply Forall_cons in Hw as [Hw _].
    destruct (Z.eqb_spec (snd e) 0); [lia|done]. }
  rewrite Hz. destruct (Z.ltb_spec m 2); [lia|]. cbn [orb]. fold weights.
  set (offset := map _ entries). set (skip := map (fun e => snd _ mod _ + 1) entries).
  set (s0 := mkFill _ _ _ _ _).
  assert (Hlen : length weights = length entries) by apply length_map.
  assert (Hskip : forall i, (i < length weights)%nat -> 1 <= skip !!! i < m).
  { intros i Hi. rewrite Hlen in Hi. destruct (lookup_lt_is_Some_2 _ _ Hi) as [e Hei].
    unfold skip. rewrite (list_lookup_total_correct _ _ (snd (murmur3_x64_128 (fst e) 0) mod (m - 1) + 1)).
    - pose proof (Z.mod_pos_bound (snd (murmur3_x64_128 (fst e) 0)) (m - 1)). lia.
    - by rewrite list_lookup_fmap, Hei. }
  assert (Hwt : forall i, (i < length weights)%nat -> 1 <= weights !!! i <= list_max weights).
  { intros i Hi. split; [|by apply list_max_ge, Hlook].
    rewrite Forall_forall in Hw'. by apply Hw', Hlook. }
  assert (Hrep : forall i, replicate (length entries) 0 !!! i = 0 \/ (length entries <= i)%nat).
  { intros i. destruct (Nat.lt_ge_cases i (length entries)); [left|by right].
    apply list_lookup_total_correct, lookup_replicate. auto. }
  destruct (fill_loop_inv m offset skip weights (list_max weights) Hp Hm Hskip Hwt
    (list_max_attained weights ltac:(subst weights; by destruct entries) Hw')
    (Z.to_nat m) s0 (replicate (length entries) 0)) as (s & T & p & r & Hs & I & Hf & Hx & Hr & Hpn).
  - split; cbn [s0 fl_target fl_next fl_entry fl_filled]; rewrite ?length_replicate; try done.
    + intros i Hi. destruct (Hrep i) as [->|]; lia.
    + intros i Hi. destruct (Hrep i) as [->|]; [|lia]. unfold slots_of.
      generalize (Z.to_nat m). induction n as [|n IH]; cbn [replicate map sumZ]; [done|].
      rewrite IH. destruct (Z.eqb_spec (-1) (Z.of_nat i)); lia.
    + intros i Hi. destruct (Hrep i) as [->|]; lia.
    + intros i j Hi Hj. destruct (Hrep i) as [E|]; [rewrite E in Hj|]; lia.
    + apply Forall_replicate. by left.
    + unfold slots_filled. generalize (Z.to_nat m).
      induction n as [|n IH]; cbn [replicate map sumZ]; [done|]. by rewrite <- IH.
    + generalize (length entries). induction n as [|n IH]; cbn [replicate sumZ]; [done|]. lia.
  - done.
  - intros i Hi. destruct (Hrep i) as [->|]; [|lia]. cbn [s0 fl_round]. by destruct (_ <? _)%nat.
  - cbn [s0 fl_filled]. lia.
  - cbn [s0 fl_round]. lia.
  - exists s, T, p, r. rewrite Hs. split_and!; try done; lia.
Qed.

Lemma lookup_slot_in table h : table <> [] -> exists i, lookup_slot table h = Some i /\ i ∈ table.
Proof.
  intros Ht. unfold lookup_slot.
  assert (Hl : 0 < Z.of_nat (length table)) by (destruct table; [done|cbn [length]; lia]).
  destruct (Z.eqb_spec (Z.of_nat (length table)) 0); [lia|].
  pose proof (Z.mod_pos_bound h (Z.of_nat (length table)) Hl).
  destruct (lookup_lt_is_Some_2 table (Z.to_nat (h mod Z.of_nat (length table)))) as [i Hi]; [lia|].
  exists i. split; [done|]. by eapply list_elem_of_lookup_2.
Qed.

(** A populate that stopped within its first round gave every entry its one turn. *)
Lemma first_round_complete (entries : list (bytes * Z)) m weights W r p T offset skip s :
  inv m offset skip weights W s T -> fl_filled s = m -> 2 <= m -> expected weights W r p T ->
  0 <= r -> (p <= length weights)%nat -> length weights = length entries -> Z.of_nat (length entries) <= m -> r <= 1 ->
  r = 1 /\ p = length entries.
Proof.
  intros I Hf H2 Hx Hr Hpn Hlen Hn Hr1. pose proof (inv_turns_len _ _ _ _ _ _ _ I) as HTl.
  assert (HT : sumZ T = Z.of_nat (if r =? 1 then p else 0)).
  { apply sum_first; [destruct (r =? 1); lia|]. intros i Hi. rewrite (Hx i) by lia. unfold turns.
    destruct (Z.eqb_spec r 1) as [->|]; [cbn; by destruct (i <? p)%nat|].
    assert (r = 0) as -> by lia. destruct (Nat.ltb_spec i 0); [lia|]. by destruct (i <? p)%nat. }
  rewrite <- (inv_total _ _ _ _ _ _ _ I), Hf in HT. destruct (Z.eqb_spec r 1); lia.
Qed.

(** A full table holds indices of the entries only. *)
Lemma full_table_entries m offset skip weights W s T :
  inv m offset skip weights W s T -> fl_filled s = m -> 0 <= m ->
  Forall (fun i => 0 <= i < Z.of_nat (length weights)) (fl_entry s).
Proof.
  intros I Hf Hm. assert (Hfull : Forall (fun e => 0 <= e) (fl_entry s)).
  { apply slots_full. rewrite <- (inv_filled _ _ _ _ _ _ _ I), Hf, (inv_entry_len _ _ _ _ _ _ _ I). lia. }
  pose proof (inv_entry _ _ _ _ _ _ _ I) as Hin. rewrite Forall_forall in *. intros e Hine.
  specialize (Hfull e Hine). specialize (Hin e Hine). lia.
Qed.

(** ** Properties *)

(** C23: for a prime table size and positive weights, the populate loop terminates within its
    fuel and fills the whole table with backend indices, every request key maps to one, and
    the shares follow the weights: for one round count [r], each backend holds between
    [(r-1)*w/W + 1] and [r*w/W + 1] slots, [W] the largest weight; so every backend has a
    slot and, among equal weights, slot counts differ by at most one. *)
Theorem maglev_weighted_shares (entries : list (bytes * Z)) (m : Z) :
  prime m -> m < 2 ^ 31 -> entries <> [] -> Z.of_nat (length entries) <= Z.min m (2 ^ 16 - 1) ->
  Forall (fun e => 1 <= snd e) entries ->
  exists table, build entries m = Some table /\ length table = Z.to_nat m /\
    Forall (fun i => 0 <= i < Z.of_nat (length entries)) table /\
    (forall h, exists i, lookup_slot table h = Some i /\ 0 <= i < Z.of_nat (length entries)) /\
    exists r, 1 <= r <= m /\
      forall i e, entries !! i = Some e ->
        let W := list_max (map snd entries) in
        ((r - 1) * snd e) / W + 1 <= slots_of (Z.of_nat i) table <= (r * snd e) / W + 1.
Proof.
  intros Hp Hm He Hn Hw. pose proof (prime_ge_2 m Hp) as H2.
  destruct (build_fill entries m Hp Hm He Hw) as (s & T & p & r & Hb & I & Hf & Hx & Hr & Hpn).
  rewrite length_map in Hpn.
  pose proof (inv_entry_len _ _ _ _ _ _ _ I) as Hle. pose proof (inv_turns_len _ _ _ _ _ _ _ I) as HTl.
  rewrite length_map in HTl.
  pose proof (full_table_entries _ _ _ _ _ _ _ I Hf ltac:(lia)) as Hent. rewrite length_map in Hent.
  assert (Hid : map (fun e => e mod 2 ^ 16) (fl_entry s) = fl_entry s).
  { rewrite <- (map_id (fl_entry s)) at 2. apply map_ext_in. intros e Hine%list_elem_of_In.
    rewrite Forall_forall in Hent. specialize (Hent e Hine). apply Z.mod_small. lia. }
  rewrite Hid in Hb. exists (fl_entry s). split_and!; [done|done|done| |].
  { intros h. destruct (lookup_slot_in (fl_entry s) h) as (i & Hl & Hi).
    - intros E. rewrite E in Hle. cbn in Hle. lia.
    - exists i. split; [done|]. rewrite Forall_forall in Hent. by apply Hent. }
  set (W := list_max (map snd entries)) in *.
  assert (Hcount : forall i e, entries !! i = Some e ->
    slots_of (Z.of_nat i) (fl_entry s) = (if (i <? p)%nat then turns r (snd e) W
      else turns (r - 1) (snd e) W) /\ 1 <= snd e <= W).
  { intros i e Hi. pose proof (lookup_lt_Some _ _ _ Hi) as Hlt.
    rewrite (inv_count _ _ _ _ _ _ _ I i), (Hx i) by (rewrite length_map; done).
    assert (map snd entries !!! i = snd e) as ->
      by (apply list_lookup_total_correct; by rewrite list_lookup_fmap, Hi).
    split; [done|]. rewrite Forall_forall in Hw. split; [eapply Hw, list_elem_of_lookup_2, Hi|].
    apply list_max_ge. apply list_elem_of_fmap. exists e. split; [done|].
    by eapply list_elem_of_lookup_2. }
  assert (Hone : r <= 1 -> r = 1 /\ p = length entries).
  { apply (first_round_complete entries m _ _ _ _ _ _ _ _ I Hf H2 Hx); rewrite ?length_map; lia. }
  exists (Z.max (r - 1) 1). split; [lia|]. intros i e Hi. cbv zeta.
  destruct (Hcount i e Hi) as [-> Hwe]. pose proof (lookup_lt_Some _ _ _ Hi).
  destruct (Z.le_gt_cases r 1) as [Hr1|Hr1].
  - destruct (Hone Hr1) as [-> ->]. destruct (Nat.ltb_spec i (length entries)); [|lia].
    unfold turns. rewrite (proj2 (Z.leb_gt 1 0)) by lia.
    replace (Z.max (1 - 1) 1) with 1 by lia. replace (1 - 1) with 0 by lia.
    rewrite Z.mul_0_l, Z.div_0_l by lia.
    pose proof (Z.div_pos (1 * snd e) W ltac:(lia) ltac:(lia)). lia.
  - rewrite Z.max_l by lia. unfold turns. replace (r - 1 - 1) with (r - 2) by lia.
    rewrite (proj2 (Z.leb_gt r 0)), (proj2 (Z.leb_gt (r - 1) 0)) by lia.
    assert ((r - 2) * snd e / W <= (r - 1) * snd e / W) by (apply Z.div_le_mono; nia).
    destruct (i <? p)%nat; lia.
Qed.

Lemma maglev_weighted_shares_witness :
  exists table, build [(bs "a:1", 1); (bs "b:1", 2); (bs "c:1", 1)] 13 = Some table /\
    length table = 13%nat.
Proof.
  destruct (maglev_weighted_shares [(bs "a:1", 1); (bs "b:1", 2); (bs "c:1", 1)] 13)
    as (table & Hb & Hl & _); [|lia|discriminate|cbn; lia|repeat constructor; cbn; lia|].
  - apply prime_intro; [lia|]. intros k Hk.
    assert (Hc : k = 1 \/ k = 2 \/ k = 3 \/ k = 4 \/ k = 5 \/ k = 6 \/ k = 7 \/ k = 8 \/ k = 9
      \/ k = 10 \/ k = 11 \/ k = 12) by lia.
    apply Zgcd_1_rel_prime.
    decompose [or] Hc; subst; reflexivity.
  - exists table. split; [exact Hb|exact Hl].
Defined.
