(* ===== verification/Manifest.v ===== *)
(** * The manifest schema and its validation (control/src/manifest/)

    The sections the control plane compiles: upstreams, filters, routes, listener trust and
    state, with the build-time checks.  Parsing TOML is [serde]'s; a manifest is its parsed
    value.  Error messages are named by the check that raises them. *)

From Stdlib Require Import Znumtheory.
From S2P Require Import Prelude Bytes.

(** ** Upstreams (manifest/upstream.rs) *)

Record UpstreamTls := mkTls {
  tls_ca_path : option bytes;
  tls_sni_name : option bytes;
  tls_client_cert_path : option bytes;
  tls_client_key_path : option bytes;
}.
#[export] Instance UpstreamTls_eq_dec : EqDecision UpstreamTls.
Proof. solve_decision. Defined.

Inductive LbAlgorithm := RoundRobin | LeastRequest | Maglev.
#[export] Instance LbAlgorithm_eq_dec : EqDecision LbAlgorithm.
Proof. solve_decision. Defined.

Inductive AddressSpec :=
| Bare (address : bytes)
| Weighted (address : bytes) (weight : Z).

Definition default_instance_weight : Z := 1.

Definition spec_address (s : AddressSpec) : bytes :=
  match s with Bare a => a | Weighted a _ => a end.
Definition spec_weight (s : AddressSpec) : Z :=
  match s with Bare _ => default_instance_weight | Weighted _ w => w end.

(** The serialised form: a default weight is written as the bare string. *)
Definition spec_serialize (s : AddressSpec) : AddressSpec :=
  match s with
  | Bare a => Bare a
  | Weighted a w => if w =? default_instance_weight then Bare a else Weighted a w
  end.

Definition MAX_INSTANCE_WEIGHT : Z := 1000.
Definition MAX_HASH_TABLE_SIZE : Z := 5000011.
Definition default_hash_table_size : Z := 65537.

Inductive HashKeyKind := KeyHeader | KeySourceIp.

Record HashConfig := mkHash {
  hc_key : HashKeyKind;
  hc_header : option bytes;
  hc_table_size : Z;
}.

Record OutlierDetection := mkOutlier {
  od_consecutive_gateway_failures : Z;
  od_base_ejection_time_ms : Z;
  od_max_ejection_percent : Z;
}.

Record HealthConfig := mkHealth {
  hl_path : bytes;
  hl_interval_ms : Z;
  hl_timeout_ms : Z;
  hl_healthy_threshold : Z;
  hl_unhealthy_threshold : Z;
  hl_port : option Z;
}.
#[export] Instance HealthConfig_eq_dec : EqDecision HealthConfig.
Proof. solve_decision. Defined.

(** [up_max_requests] is the one field of the source's [CircuitBreaker]. *)
Record Upstream := mkUpstream {
  up_name : bytes;
  up_addresses : list AddressSpec;
  up_tls : option UpstreamTls;
  up_lb_algorithm : LbAlgorithm;
  up_hash : option HashConfig;
  up_health : HealthConfig;
  up_resolve_interval_ms : Z;
  up_request_timeout_ms : Z;
  up_max_retries : Z;
  up_overall_timeout_ms : Z;
  up_max_requests : Z;
  up_outlier : OutlierDetection;
}.

(** ** Load-balancing validation (manifest/validate.rs) *)

Fixpoint trial_loop (fuel : nat) (n d : Z) : option bool :=
  if d * d <=? n then
    match fuel with
    | O => None
    | S fuel => if n mod d =? 0 then Some false else trial_loop fuel n (d + 2)
    end
  else Some true.

Definition is_prime (n : Z) : option bool :=
  if n <? 2 then Some false
  else if n mod 2 =? 0 then Some (n =? 2)
  else trial_loop (Z.to_nat (Z.sqrt n)) n 3.

Inductive LbReason :=
| ZeroInterval | ZeroTimeout | ZeroWeight (address : bytes) | WeightTooLarge (address : bytes)
| MaglevNeedsHash | HashNeedsMaglev | EmptyHashHeader | TableTooLarge | TableNotPrime
| TableTooSmall | TooManyInstances.

Fixpoint check_weights (specs : list AddressSpec) : result unit LbReason :=
  match specs with
  | [] => Ok tt
  | spec :: rest =>
    let w := spec_weight spec in
    if w =? 0 then Err (ZeroWeight (spec_address spec))
    else if MAX_INSTANCE_WEIGHT <? w then Err (WeightTooLarge (spec_address spec))
    else check_weights rest
  end.

Definition check_hash (addresses : list AddressSpec) (hash : HashConfig) : result unit LbReason :=
  if match hc_key hash with
     | KeyHeader => bool_decide (trim (default [] (hc_header hash)) = [])
     | KeySourceIp => false
     end then Err EmptyHashHeader
  else
    let m := hc_table_size hash in
    if MAX_HASH_TABLE_SIZE <? m then Err TableTooLarge
    else if negb (bool_decide (is_prime m = Some true)) then Err TableNotPrime
    else
      let n := Z.of_nat (length addresses) in
      if m <? n then Err TableTooSmall
      else if 65535 <? n then Err TooManyInstances
      else Ok tt.

Definition validate_lb (up : Upstream) : result unit LbReason :=
  if hl_interval_ms (up_health up) =? 0 then Err ZeroInterval
  else if hl_timeout_ms (up_health up) =? 0 then Err ZeroTimeout
  else
    match check_weights (up_addresses up) with
    | Err e => Err e
    | Ok _ =>
      match up_lb_algorithm up, up_hash up with
      | Maglev, None => Err MaglevNeedsHash
      | (RoundRobin | LeastRequest), Some _ => Err HashNeedsMaglev
      | _, None => Ok tt
      | _, Some hash => check_hash (up_addresses up) hash
      end
    end.

(** ** Filters (manifest/filter_entry.rs) *)

Record RateLimitConfig := mkRateLimit {
  rl_capacity : Z; rl_refill_tokens : Z; rl_refill_interval_ms : Z }.

Inductive SchemeKind := SchemeHttps | SchemeHttp.
Definition default_port (s : SchemeKind) : Z :=
  match s with SchemeHttps => 443 | SchemeHttp => 80 end.

Record AllowDest := mkAllowDest { ad_host : bytes; ad_port : option Z; ad_scheme : SchemeKind }.

Record OutboundHttpConfig := mkOutboundHttp {
  oh_allow : list AllowDest;
  oh_allow_private : list bytes;
  oh_connect_timeout_ms : option Z;
  oh_total_timeout_ms : option Z;
  oh_max_response_bytes : option Z;
  oh_max_concurrent : option Z;
}.

Record TcpAllowDest := mkTcpDest { td_host : bytes; td_port : Z }.

Record OutboundTcpConfig := mkOutboundTcp {
  ot_allow : list TcpAllowDest;
  ot_allow_private : list bytes;
  ot_max_connections : option Z;
  ot_io_deadline_ms : option Z;
}.

Inductive IsolationKind := Untrusted | Trusted.
Inductive DispatchKind := DispatchAuto | DispatchBlocking.
Inductive WasiKind := WasiNone | WasiMinimal.
#[export] Instance IsolationKind_eq_dec : EqDecision IsolationKind.
Proof. solve_decision. Defined.
#[export] Instance DispatchKind_eq_dec : EqDecision DispatchKind.
Proof. solve_decision. Defined.
#[export] Instance WasiKind_eq_dec : EqDecision WasiKind.
Proof. solve_decision. Defined.

Record FilterEntry := mkFilterEntry {
  fe_id : bytes;
  fe_source : bytes;
  fe_digest : bytes;
  fe_isolation : IsolationKind;
  fe_init_deadline_ms : option Z;
  fe_request_deadline_ms : option Z;
  fe_max_memory_bytes : option Z;
  fe_dispatch : DispatchKind;
  fe_pool_size : option Z;
  fe_checkout_timeout_ms : option Z;
  fe_max_requests_per_instance : option Z;
  fe_ratelimit : option RateLimitConfig;
  fe_outbound_http : option OutboundHttpConfig;
  fe_outbound_tcp : option OutboundTcpConfig;
  fe_wasi : WasiKind;
  fe_config : option (gmap bytes bytes);
  fe_config_files : option (list (bytes * bytes));
}.

(** The build's cargo features. *)
Record Features := mkFeatures { ft_outbound_http : bool; ft_outbound_tcp : bool; ft_fat_guest : bool }.

Inductive FilterReason :=
| BadInitDeadline | BadRequestDeadline | BadMemory | BadPoolSize | BadMaxRequests
| PoolKnobUntrusted | BlockingUntrusted | BadCapacity | BadRefillInterval
| NoOutboundHttp | NoOutboundTcp | NoFatGuest | EmptyHost | ZeroPort | BadCidr | EmptyAllow
| ZeroConnectTimeout | ZeroTotalTimeout | ZeroResponseBytes | ZeroConcurrent
| ZeroConnections | ZeroIoDeadline.

Definition is_zero (o : option Z) : bool := bool_decide (o = Some 0).
Definition blank (s : bytes) : bool := bool_decide (trim s = []).

Section validate.
Context (features : Features) (cidr_ok : bytes -> bool).

Definition http_dest_checks (d : AllowDest) : list (bool * FilterReason) :=
  [(blank (ad_host d), EmptyHost); (is_zero (ad_port d), ZeroPort)].

Definition validate_outbound_http (ob : OutboundHttpConfig) : list (bool * FilterReason) :=
  if negb (ft_outbound_http features) then [(true, NoOutboundHttp)]
  else
    flat_map http_dest_checks (oh_allow ob) ++
    map (fun c => (negb (cidr_ok c), BadCidr)) (oh_allow_private ob) ++
    [(is_zero (oh_connect_timeout_ms ob), ZeroConnectTimeout);
     (is_zero (oh_total_timeout_ms ob), ZeroTotalTimeout);
     (is_zero (oh_max_response_bytes ob), ZeroResponseBytes);
     (is_zero (oh_max_concurrent ob), ZeroConcurrent)].

Definition tcp_dest_checks (d : TcpAllowDest) : list (bool * FilterReason) :=
  [(blank (td_host d), EmptyHost); (td_port d =? 0, ZeroPort)].

Definition validate_outbound_tcp (ob : OutboundTcpConfig) : list (bool * FilterReason) :=
  if negb (ft_outbound_tcp features) then [(true, NoOutboundTcp)]
  else
    [(bool_decide (ot_allow ob = []), EmptyAllow)] ++
    flat_map tcp_dest_checks (ot_allow ob) ++
    map (fun c => (negb (cidr_ok c), BadCidr)) (ot_allow_private ob) ++
    [(is_zero (ot_max_connections ob), ZeroConnections);
     (is_zero (ot_io_deadline_ms ob), ZeroIoDeadline)].

Definition validate_wasi_minimal : list (bool * FilterReason) :=
  [(negb (ft_fat_guest features), NoFatGuest)].

Definition validate_filter (f : FilterEntry) : result unit FilterReason :=
  let untrusted := bool_decide (fe_isolation f = Untrusted) in
  first_failure (
    [(is_zero (fe_init_deadline_ms f), BadInitDeadline);
     (is_zero (fe_request_deadline_ms f), BadRequestDeadline);
     (is_zero (fe_max_memory_bytes f), BadMemory);
     (is_zero (fe_pool_size f), BadPoolSize);
     (is_zero (fe_max_requests_per_instance f), BadMaxRequests);
     (untrusted && (bool_decide (is_Some (fe_pool_size f))
        || bool_decide (is_Some (fe_checkout_timeout_ms f))
        || bool_decide (is_Some (fe_max_requests_per_instance f))), PoolKnobUntrusted);
     (untrusted && bool_decide (fe_dispatch f = DispatchBlocking), BlockingUntrusted)] ++
    match fe_ratelimit f with
    | Some rl =>
      [(rl_capacity rl =? 0, BadCapacity);
       ((0 <? rl_refill_tokens rl) && (rl_refill_interval_ms rl =? 0), BadRefillInterval)]
    | None => []
    end ++
    match fe_outbound_http f with Some ob => validate_outbound_http ob | None => [] end ++
    match fe_outbound_tcp f with Some ob => validate_outbound_tcp ob | None => [] end ++
    (if bool_decide (fe_wasi f = WasiMinimal) then validate_wasi_minimal else [])).
End validate.

(** ** File-indirected filter config (manifest/filter_entry.rs) *)

Definition MAX_CONFIG_FILE_BYTES : Z := 1024 * 1024.

Inductive ConfigError :=
| KeyInBoth (key : bytes) | FileUnreadable (path : bytes) | FileTooLarge (key : bytes)
| FileNotUtf8 (key : bytes).

(** [Path::join] on unix: an absolute path replaces the base. *)
Definition join_path (base path : bytes) : bytes :=
  if starts_with_byte "/" path then path
  else
    match base with
    | [] => path
    | _ => if ends_with_byte "/" base then base ++ path else base ++ "/"%char :: path
    end.

Section resolved_config.
(** The file system: the bytes of a readable file. *)
Context (read_file : bytes -> option bytes) (base_dir : bytes).

Fixpoint resolve_files (files : list (bytes * bytes)) (merged : gmap bytes bytes)
    : result (gmap bytes bytes) ConfigError :=
  match files with
  | [] => Ok merged
  | (key, path) :: rest =>
    if bool_decide (is_Some (merged !! key)) then Err (KeyInBoth key)
    else
      let full := join_path base_dir path in
      match read_file full with
      | None => Err (FileUnreadable full)
      | Some content =>
        let buf := take (Z.to_nat (MAX_CONFIG_FILE_BYTES + 1)) content in
        if MAX_CONFIG_FILE_BYTES <? Z.of_nat (length buf) then Err (FileTooLarge key)
        else if negb (utf8_valid buf) then Err (FileNotUtf8 key)
        else resolve_files rest (<[key := trim buf]> merged)
      end
  end.

Definition resolved_config (f : FilterEntry) : result (option (gmap bytes bytes)) ConfigError :=
  match fe_config_files f with
  | None => Ok None
  | Some files =>
    match resolve_files files (default ∅ (fe_config f)) with
    | Ok m => Ok (Some m)
    | Err e => Err e
    end
  end.
End resolved_config.

(** ** Listener trust and state (manifest/listen.rs, manifest/state.rs) *)

Section listen.
Context {IpNet : Type} (parse_cidr : bytes -> option IpNet).

(** [parse_trusted_cidrs]: [None] rejects an empty list or the first bad CIDR. *)
Definition parse_trusted_cidrs (trusted : list bytes) : option (list IpNet) :=
  if bool_decide (trusted = []) then None else mapM parse_cidr trusted.

(** [proxy_protocol_trust] and [trusted_proxy_trust]: the section's list, when declared. *)
Definition section_trust (section : option (list bytes)) : option (option (list IpNet)) :=
  match section with
  | None => Some None
  | Some trusted =>
    match parse_trusted_cidrs trusted with Some nets => Some (Some nets) | None => None end
  end.

Definition listen_validate (proxy_protocol trusted_proxy : option (list bytes)) : bool :=
  bool_decide (is_Some (section_trust proxy_protocol))
  && bool_decide (is_Some (section_trust trusted_proxy)).
End listen.

Inductive StateBackendKind := BackendMemory | BackendRedb.
Record State := mkState { st_backend : StateBackendKind; st_path : option bytes }.

Definition state_validate (s : State) : bool :=
  let path := trim (default [] (st_path s)) in
  match st_backend s with
  | BackendRedb => negb (bool_decide (path = []))
  | BackendMemory => bool_decide (st_path s = None)
  end.

(** ** Lemmas *)

Lemma trial_loop_spec n fuel : forall d, 3 <= d -> Z.odd d = true ->
  Z.sqrt n < d + 2 * Z.of_nat fuel ->
  exists b, trial_loop fuel n d = Some b /\
    (b = true <-> forall k, d <= k -> Z.odd k = true -> k * k <= n -> n mod k <> 0).
Proof.
  induction fuel as [|fuel IH]; intros d Hd Ho Hf; cbn [trial_loop];
    destruct (Z.leb_spec (d * d) n) as [Hle|Hgt].
  - pose proof (Z.sqrt_le_square n d ltac:(nia) ltac:(lia)). lia.
  - exists true. split; [done|]. split; [|done]. intros _ k Hk _ Hkk. nia.
  - destruct (Z.eqb_spec (n mod d) 0) as [Hm|Hm].
    + exists false. split; [done|]. split; [done|]. intros Hall. by destruct (Hall d ltac:(lia) Ho Hle).
    + destruct (IH (d + 2)) as (b & E & Hb); [lia| |lia|].
      { rewrite Z.odd_add, Ho. done. }
      exists b. split; [done|]. rewrite Hb. split; intros Hall k Hk Hko Hkk.
      * destruct (Z.eq_dec k d) as [->|]; [done|]. apply Hall; [|done|done].
        destruct (Z.eq_dec k (d + 1)) as [->|]; [|lia].
        rewrite Z.odd_add, Ho in Hko. done.
      * apply Hall; [lia|done|done].
  - exists true. split; [done|]. split; [|done]. intros _ k Hk _ Hkk. nia.
Qed.

(** A composite number has a divisor up to its square root. *)
Lemma composite_small_divisor n : 2 <= n -> ~ prime n ->
  exists k, 2 <= k /\ k * k <= n /\ (k | n).
Proof.
  intros Hn Hc. destruct (not_prime_divide n ltac:(lia) Hc) as (k & Hk & [q ->]).
  destruct (Z.le_gt_cases k q); [exists k|exists q]; split_and!; try nia.
  - by exists q.
  - exists k. lia.
Qed.

Lemma is_prime_spec n : exists b, is_prime n = Some b /\ (b = true <-> prime n).
Proof.
  unfold is_prime. destruct (Z.ltb_spec n 2).
  { exists false. split; [done|]. split; [done|]. intros Hp. pose proof (prime_ge_2 n Hp). lia. }
  destruct (Z.eqb_spec (n mod 2) 0) as [He|He].
  - exists (n =? 2). split; [done|]. destruct (Z.eqb_spec n 2) as [->|Hn2].
    + split; [intros _; apply prime_2|done].
    + split; [done|]. intros Hp. apply Z.mod_divide in He; [|lia].
      destruct (prime_divisors n Hp 2 He) as [|[|[|]]]; lia.
  - destruct (trial_loop_spec n (Z.to_nat (Z.sqrt n)) 3) as (b & E & Hb); [lia|done| |].
    { pose proof (Z.sqrt_nonneg n). lia. }
    exists b. split; [done|]. rewrite Hb. split.
    + intros Hall. destruct (prime_dec n) as [|Hc]; [done|exfalso].
      destruct (composite_small_divisor n ltac:(lia) Hc) as (k & Hk & Hkk & Hd).
      assert (Hko : Z.odd k = true).
      { destruct (Z.odd k) eqn:Eo; [done|]. exfalso. apply He. apply Z.mod_divide; [lia|].
        apply (Z.divide_trans _ k); [|done]. rewrite <- Z.negb_even in Eo.
        apply negb_false_iff, Z.even_spec in Eo. destruct Eo as [q ->]. exists q. lia. }
      assert (3 <= k) by (destruct (Z.eq_dec k 2) as [->|]; [done|lia]).
      apply (Hall k); [done..|]. by apply Z.mod_divide; [lia|].
    + intros Hp k Hk Hko Hkk Hm. apply Z.mod_divide in Hm; [|lia].
      destruct (prime_divisors n Hp k Hm) as [|[|[|]]]; nia.
Qed.

Lemma check_weights_ok specs : check_weights specs = Ok tt <->
  Forall (fun s => spec_weight s <> 0 /\ spec_weight s <= MAX_INSTANCE_WEIGHT) specs.
Proof.
  induction specs as [|s l IH]; cbn [check_weights]; [by split; [constructor|]|].
  rewrite Forall_cons, <- IH.
  destruct (Z.eqb_spec (spec_weight s) 0), (Z.ltb_spec MAX_INSTANCE_WEIGHT (spec_weight s));
    split; (done || lia || tauto).
Qed.

(** What an accepted hash section guarantees the table builder. *)
Definition table_ok (n m : Z) : Prop :=
  prime m /\ m <= MAX_HASH_TABLE_SIZE /\ n <= m /\ n <= 65535.

Lemma check_hash_ok specs h : check_hash specs h = Ok tt <->
  (hc_key h = KeyHeader -> trim (default [] (hc_header h)) <> []) /\
  table_ok (Z.of_nat (length specs)) (hc_table_size h).
Proof.
  unfold check_hash, table_ok. destruct (is_prime_spec (hc_table_size h)) as (b & E & Hb).
  rewrite E, <- Hb.
  assert (Hkey : (if match hc_key h with
     | KeyHeader => bool_decide (trim (default [] (hc_header h)) = []) | KeySourceIp => false end
     then False else True) <-> (hc_key h = KeyHeader -> trim (default [] (hc_header h)) <> [])).
  { destruct (hc_key h); [|done]. case_bool_decide; tauto. }
  rewrite <- Hkey.
  destruct (match hc_key h with KeyHeader => _ | KeySourceIp => _ end); [split; [discriminate|intros [[] _]]|].
  destruct (Z.ltb_spec MAX_HASH_TABLE_SIZE (hc_table_size h)), b,
    (Z.ltb_spec (hc_table_size h) (Z.of_nat (length specs))),
    (Z.ltb_spec 65535 (Z.of_nat (length specs)));
    rewrite ?(bool_decide_true (Some true = Some true)) by done;
    rewrite ?(bool_decide_false (Some false = Some true)) by done; cbn [negb];
    split; (done || lia || intuition lia).
Qed.

(** ** Properties *)

(** Upstream validation accepts exactly the configurations the balancer can run: probe
    timings non-zero, every weight between 1 and the maximum, a hash section exactly for
    Maglev, with a usable key and a table size that is prime (the trial division terminates
    and decides primality), within its cap, and large enough for the instances. *)
Theorem upstream_validation_exact (up : Upstream) :
  Forall (fun s => 0 <= spec_weight s) (up_addresses up) ->
  (validate_lb up = Ok tt <->
   hl_interval_ms (up_health up) <> 0 /\ hl_timeout_ms (up_health up) <> 0 /\
   Forall (fun s => 1 <= spec_weight s <= MAX_INSTANCE_WEIGHT) (up_addresses up) /\
   match up_hash up with
   | None => up_lb_algorithm up <> Maglev
   | Some h => up_lb_algorithm up = Maglev /\
       (hc_key h = KeyHeader -> trim (default [] (hc_header h)) <> []) /\
       table_ok (Z.of_nat (length (up_addresses up))) (hc_table_size h)
   end).
Proof.
  intros Hpos. unfold validate_lb.
  assert (Hw : check_weights (up_addresses up) = Ok tt <->
    Forall (fun s => 1 <= spec_weight s <= MAX_INSTANCE_WEIGHT) (up_addresses up)).
  { rewrite check_weights_ok, !Forall_forall. rewrite Forall_forall in Hpos.
    split; intros Hall s Hs; specialize (Hall s Hs); specialize (Hpos s Hs); lia. }
  rewrite <- Hw.
  destruct (Z.eqb_spec (hl_interval_ms (up_health up)) 0); [by split; [|tauto]|].
  destruct (Z.eqb_spec (hl_timeout_ms (up_health up)) 0); [by split; [|tauto]|].
  destruct (check_weights (up_addresses up)) as [[]|e]; [|by split; [|intros (_ & _ & [=] & _)]].
  destruct (up_lb_algorithm up), (up_hash up) as [h|]; rewrite ?check_hash_ok; intuition discriminate.
Qed.

Definition sample_upstream : Upstream :=
  mkUpstream (bs "api") [Bare (bs "a:1"); Weighted (bs "b:1") 3] None Maglev
    (Some (mkHash KeySourceIp None 65537)) (mkHealth (bs "/h") 2000 1000 2 3 None) 0 30000 1 0 0
    (mkOutlier 0 30000 10).

Lemma upstream_validation_exact_witness : validate_lb sample_upstream = Ok tt /\ prime 65537.
Proof.
  assert (E : validate_lb sample_upstream = Ok tt) by (vm_compute; reflexivity).
  split; [exact E|].
  assert (Hpos : Forall (fun s => 0 <= spec_weight s) (up_addresses sample_upstream))
    by (cbn; rewrite !Forall_cons, Forall_nil; cbn; unfold default_instance_weight; lia).
  destruct (proj1 (upstream_validation_exact sample_upstream Hpos) E)
    as (_ & _ & _ & _ & _ & Hp & _).
  exact Hp.
Defined.

Lemma is_zero_false o : is_zero o = false <-> o <> Some 0.
Proof. unfold is_zero. by rewrite bool_decide_eq_false. Qed.
Lemma blank_false s : blank s = false <-> trim s <> [].
Proof. unfold blank. by rewrite bool_decide_eq_false. Qed.

Definition http_section_ok ft (cidr_ok : bytes -> bool) (ob : OutboundHttpConfig) : Prop :=
  ft_outbound_http ft = true /\
  Forall (fun d => trim (ad_host d) <> [] /\ ad_port d <> Some 0) (oh_allow ob) /\
  Forall (fun c => cidr_ok c = true) (oh_allow_private ob) /\
  oh_connect_timeout_ms ob <> Some 0 /\ oh_total_timeout_ms ob <> Some 0 /\
  oh_max_response_bytes ob <> Some 0 /\ oh_max_concurrent ob <> Some 0.

Definition tcp_section_ok ft (cidr_ok : bytes -> bool) (ob : OutboundTcpConfig) : Prop :=
  ft_outbound_tcp ft = true /\ ot_allow ob <> [] /\
  Forall (fun d => trim (td_host d) <> [] /\ td_port d <> 0) (ot_allow ob) /\
  Forall (fun c => cidr_ok c = true) (ot_allow_private ob) /\
  ot_max_connections ob <> Some 0 /\ ot_io_deadline_ms ob <> Some 0.

Lemma validate_outbound_http_ok ft cidr_ok ob :
  first_failure (validate_outbound_http ft cidr_ok ob) = Ok tt <-> http_section_ok ft cidr_ok ob.
Proof.
  unfold validate_outbound_http, http_section_ok. destruct (ft_outbound_http ft); cbn [negb];
    [|split; [done|intros [[=] _]]].
  rewrite !first_failure_app_ok, first_failure_flat_map_ok, first_failure_map_ok.
  rewrite !first_failure_cons_ok, first_failure_nil_ok, !is_zero_false.
  assert (Hd : Forall (fun d => first_failure (http_dest_checks d) = Ok tt) (oh_allow ob) <->
    Forall (fun d => trim (ad_host d) <> [] /\ ad_port d <> Some 0) (oh_allow ob)).
  { apply Forall_proper; [|done]. intros d. unfold http_dest_checks.
    rewrite !first_failure_cons_ok, is_zero_false, blank_false. cbn. tauto. }
  assert (Hc : Forall (fun c => negb (cidr_ok c) = false) (oh_allow_private ob) <->
    Forall (fun c => cidr_ok c = true) (oh_allow_private ob))
    by (apply Forall_proper; [intros c; apply negb_false_iff|done]).
  rewrite Hd, Hc. tauto.
Qed.

Lemma validate_outbound_tcp_ok ft cidr_ok ob :
  first_failure (validate_outbound_tcp ft cidr_ok ob) = Ok tt <-> tcp_section_ok ft cidr_ok ob.
Proof.
  unfold validate_outbound_tcp, tcp_section_ok. destruct (ft_outbound_tcp ft); cbn [negb];
    [|split; [done|intros [[=] _]]].
  rewrite !first_failure_app_ok, first_failure_flat_map_ok, first_failure_map_ok.
  rewrite !first_failure_cons_ok, first_failure_nil_ok, !is_zero_false, bool_decide_eq_false.
  assert (Hd : Forall (fun d => first_failure (tcp_dest_checks d) = Ok tt) (ot_allow ob) <->
    Forall (fun d => trim (td_host d) <> [] /\ td_port d <> 0) (ot_allow ob)).
  { apply Forall_proper; [|done]. intros d. unfold tcp_dest_checks.
    rewrite !first_failure_cons_ok, blank_false, Z.eqb_neq. cbn. tauto. }
  assert (Hc : Forall (fun c => negb (cidr_ok c) = false) (ot_allow_private ob) <->
    Forall (fun c => cidr_ok c = true) (ot_allow_private ob))
    by (apply Forall_proper; [intros c; apply negb_false_iff|done]).
  rewrite Hd, Hc. tauto.
Qed.

(** filter validation accepts exactly the entries the host can run as declared: no zero
    metering knob, pool and dispatch knobs on trusted filters only, a bucket that can serve,
    and outbound or WASI grants only in a build that has them, with named destinations,
    non-zero ports and bounds, and CIDRs that parse. *)
Theorem filter_validation_exact (ft : Features) (cidr_ok : bytes -> bool) (f : FilterEntry) :
  validate_filter ft cidr_ok f = Ok tt <->
  fe_init_deadline_ms f <> Some 0 /\ fe_request_deadline_ms f <> Some 0 /\
  fe_max_memory_bytes f <> Some 0 /\ fe_pool_size f <> Some 0 /\
  fe_max_requests_per_instance f <> Some 0 /\
  (fe_isolation f = Untrusted ->
     fe_pool_size f = None /\ fe_checkout_timeout_ms f = None /\
     fe_max_requests_per_instance f = None /\ fe_dispatch f = DispatchAuto) /\
  (forall rl, fe_ratelimit f = Some rl ->
     rl_capacity rl <> 0 /\ (0 < rl_refill_tokens rl -> rl_refill_interval_ms rl <> 0)) /\
  (forall ob, fe_outbound_http f = Some ob -> http_section_ok ft cidr_ok ob) /\
  (forall ob, fe_outbound_tcp f = Some ob -> tcp_section_ok ft cidr_ok ob) /\
  (fe_wasi f = WasiMinimal -> ft_fat_guest ft = true).
Proof.
  unfold validate_filter. rewrite !first_failure_app_ok, !first_failure_cons_ok, first_failure_nil_ok.
  rewrite !is_zero_false.
  set (rl_ok := first_failure (match fe_ratelimit f with Some _ => _ | None => _ end) = Ok tt).
  assert (Hrl : rl_ok <-> (forall rl, fe_ratelimit f = Some rl ->
     rl_capacity rl <> 0 /\ (0 < rl_refill_tokens rl -> rl_refill_interval_ms rl <> 0))).
  { unfold rl_ok. destruct (fe_ratelimit f) as [rl|]; [|split; [by intros _ rl|done]].
    rewrite !first_failure_cons_ok, first_failure_nil_ok, andb_false_iff, Z.ltb_ge, !Z.eqb_neq.
    split; [intros H rl' [= <-]; intuition lia|]. intros H. specialize (H rl eq_refl).
    split; [tauto|]. split; [|done]. destruct (Z.lt_ge_cases 0 (rl_refill_tokens rl)); tauto. }
  assert (Hh : first_failure (match fe_outbound_http f with
      Some ob => validate_outbound_http ft cidr_ok ob | None => [] end) = Ok tt <->
    (forall ob, fe_outbound_http f = Some ob -> http_section_ok ft cidr_ok ob)).
  { destruct (fe_outbound_http f) as [ob|]; [|split; [by intros _ ob|done]].
    rewrite validate_outbound_http_ok. split; [by intros H ob' [= <-]|auto]. }
  assert (Ht : first_failure (match fe_outbound_tcp f with
      Some ob => validate_outbound_tcp ft cidr_ok ob | None => [] end) = Ok tt <->
    (forall ob, fe_outbound_tcp f = Some ob -> tcp_section_ok ft cidr_ok ob)).
  { destruct (fe_outbound_tcp f) as [ob|]; [|split; [by intros _ ob|done]].
    rewrite validate_outbound_tcp_ok. split; [by intros H ob' [= <-]|auto]. }
  rewrite Hrl, Hh, Ht. clear rl_ok Hrl Hh Ht.
  assert (Hw : first_failure (if bool_decide (fe_wasi f = WasiMinimal)
      then validate_wasi_minimal ft else []) = Ok tt <->
    (fe_wasi f = WasiMinimal -> ft_fat_guest ft = true)).
  { unfold validate_wasi_minimal. destruct (fe_wasi f), (ft_fat_guest ft); cbn; naive_solver. }
  rewrite Hw. clear Hw.
  set (b1 := bool_decide (fe_isolation f = Untrusted) && (_ || _)).
  set (b2 := bool_decide (fe_isolation f = Untrusted) && bool_decide (fe_dispatch f = _)).
  assert (Hpool : b1 = false /\ b2 = false <-> (fe_isolation f = Untrusted ->
     fe_pool_size f = None /\ fe_checkout_timeout_ms f = None /\
     fe_max_requests_per_instance f = None /\ fe_dispatch f = DispatchAuto)).
  { subst b1 b2. rewrite !andb_false_iff, !orb_false_iff, !bool_decide_eq_false.
    rewrite <- !eq_None_not_Some. destruct (fe_isolation f); [|intuition discriminate].
    destruct (fe_dispatch f); intuition congruence. }
  tauto.
Qed.
