(* ===== verification/Upstream.v ===== *)
(** * Upstream instances, circuit breaker and outlier ejection
      (control/src/upstream/instance.rs, circuit_breaker.rs, outlier.rs, mod.rs)

    Instances are shared by reference ([Arc]) between groups and reloads, so they live in a
    store and groups hold their identities.  The mutexes serialise each operation modelled
    here as one function; their poisoned branches are unreachable, no critical section
    panicking.  The circuit breaker's counter has no lock and is a step relation. *)

From S2P Require Import Prelude Bytes Manifest.

(** ** Instances *)

Record Inst := mkInst {
  i_address : bytes;
  i_weight : Z;
  i_healthy : bool;
  i_in_flight : Z;
  i_consecutive_ok : Z;
  i_consecutive_fail : Z;
  i_ever_healthy : bool;
  i_consecutive_gw_fail : Z;
  i_outlier_eject_count : Z;
  i_healthy_threshold : Z;
  i_unhealthy_threshold : Z;
  i_outlier_ejected_until_ms : Z;
}.

Definition inst_new (address : bytes) (weight : Z) (health : HealthConfig) : Inst :=
  mkInst address (Z.max weight 1) false 0 0 0 false 0 0
    (Z.max (hl_healthy_threshold health) 1) (Z.max (hl_unhealthy_threshold health) 1) 0.

(** Record updates, one per group of fields an operation writes. *)
Definition set_health (i : Inst) (healthy ever : bool) (ok fail : Z) : Inst :=
  mkInst (i_address i) (i_weight i) healthy (i_in_flight i) ok fail ever
    (i_consecutive_gw_fail i) (i_outlier_eject_count i) (i_healthy_threshold i)
    (i_unhealthy_threshold i) (i_outlier_ejected_until_ms i).
Definition set_outlier (i : Inst) (gw_fail eject_count until : Z) : Inst :=
  mkInst (i_address i) (i_weight i) (i_healthy i) (i_in_flight i) (i_consecutive_ok i)
    (i_consecutive_fail i) (i_ever_healthy i) gw_fail eject_count (i_healthy_threshold i)
    (i_unhealthy_threshold i) until.
Definition set_in_flight (i : Inst) (n : Z) : Inst :=
  mkInst (i_address i) (i_weight i) (i_healthy i) n (i_consecutive_ok i)
    (i_consecutive_fail i) (i_ever_healthy i) (i_consecutive_gw_fail i)
    (i_outlier_eject_count i) (i_healthy_threshold i) (i_unhealthy_threshold i)
    (i_outlier_ejected_until_ms i).

Definition is_outlier_ejected (i : Inst) (now_ms : Z) : bool :=
  now_ms <? i_outlier_ejected_until_ms i.

Definition record_probe_success (i : Inst) : Inst :=
  if i_healthy i then set_health i true (i_ever_healthy i) (i_consecutive_ok i) 0
  else
    let ok := saturating_add32 (i_consecutive_ok i) 1 in
    let need := if i_ever_healthy i then i_healthy_threshold i else 1 in
    if need <=? ok then set_health i true true 0 0
    else set_health i false (i_ever_healthy i) ok 0.

Definition record_failure (i : Inst) : Inst :=
  let fail := saturating_add32 (i_consecutive_fail i) 1 in
  if i_healthy i && (i_unhealthy_threshold i <=? fail)
  then set_health i false (i_ever_healthy i) 0 0
  else set_health i (i_healthy i) (i_ever_healthy i) 0 fail.

Definition record_probe_failure (i : Inst) : Inst := record_failure i.
Definition record_passive_failure (i : Inst) : Inst := record_failure i.

(** ** The circuit breaker *)

(** A request thread: idle, past the increment that found the cap full, or holding a permit
    that counts. *)
Inductive Phase := Idle | BackingOut | Holding.
#[export] Instance Phase_eq_dec : EqDecision Phase.
Proof. solve_decision. Defined.

Record Breaker := mkBreaker { br_in_flight : Z; br_threads : list Phase }.

Definition wrapping_dec (n : Z) : Z := wrap64 (n - 1).
Definition wrapping_inc (n : Z) : Z := wrapping_add n 1.

Inductive breaker_step (max_requests : Z) : Breaker -> Breaker -> Prop :=
(** [fetch_add] returns the prior value. *)
| StepAdmit s t :
    max_requests <> 0 -> br_threads s !! t = Some Idle -> br_in_flight s < max_requests ->
    breaker_step max_requests s
      (mkBreaker (wrapping_inc (br_in_flight s)) (<[t := Holding]> (br_threads s)))
| StepFull s t :
    max_requests <> 0 -> br_threads s !! t = Some Idle -> max_requests <= br_in_flight s ->
    breaker_step max_requests s
      (mkBreaker (wrapping_inc (br_in_flight s)) (<[t := BackingOut]> (br_threads s)))
| StepBackOut s t :
    br_threads s !! t = Some BackingOut ->
    breaker_step max_requests s
      (mkBreaker (wrapping_dec (br_in_flight s)) (<[t := Idle]> (br_threads s)))
| StepDrop s t :
    br_threads s !! t = Some Holding ->
    breaker_step max_requests s
      (mkBreaker (wrapping_dec (br_in_flight s)) (<[t := Idle]> (br_threads s))).

(** The whole call without interleaving: the permit (with whether it counts) or [None]. *)
Definition try_acquire (max_requests in_flight : Z) : option bool * Z :=
  if max_requests =? 0 then (Some false, in_flight)
  else
    let prev := in_flight in
    let in_flight := wrapping_inc in_flight in
    if max_requests <=? prev then (None, wrapping_dec in_flight)
    else (Some true, in_flight).

(** [Drop] of a permit. *)
Definition release (permit : bool) (in_flight : Z) : Z :=
  if permit then wrapping_dec in_flight else in_flight.

Definition breaker_init (threads : nat) : Breaker := mkBreaker 0 (replicate threads Idle).

(** ** Outlier ejection *)

Notation Heap := (gmap nat Inst).

Record OutlierPolicy := mkPolicy {
  op_consecutive : Z;
  op_base_ejection_ms : Z;
  op_max_ejection_percent : Z;
}.

Definition OUTLIER_BACKOFF_SHIFT_CAP : Z := 6.

Definition outlier_enabled (p : OutlierPolicy) : bool := 0 <? op_consecutive p.

Definition ejected_count (ids : list nat) (heap : Heap) (now_ms : Z) : Z :=
  Z.of_nat (length (filter (fun id =>
    from_option (fun i => is_outlier_ejected i now_ms) false (heap !! id) = true) ids)).

(** [as_millis() as u64] of the scaled window. *)
Definition ejection_window (p : OutlierPolicy) (eject_count : Z) : Z :=
  wrap64 (op_base_ejection_ms p * Z.shiftl 1 (Z.min eject_count OUTLIER_BACKOFF_SHIFT_CAP)).

Definition record_outcome (p : OutlierPolicy) (ids : list nat) (heap : Heap) (now_ms : Z)
    (id : nat) (gateway_failure : bool) : bool * Heap :=
  if negb (outlier_enabled p) then (false, heap)
  else
    match heap !! id with
    | None => (false, heap)
    | Some c =>
      let until := i_outlier_ejected_until_ms c in
      if negb gateway_failure then (false, <[id := set_outlier c 0 0 until]> heap)
      else
        let gw := saturating_add32 (i_consecutive_gw_fail c) 1 in
        if gw <? op_consecutive p
        then (false, <[id := set_outlier c gw (i_outlier_eject_count c) until]> heap)
        else
          let already_ejected := ejected_count ids heap now_ms in
          if op_max_ejection_percent p * Z.of_nat (length ids) <? (already_ejected + 1) * 100
          then (false, <[id := set_outlier c 0 (i_outlier_eject_count c) until]> heap)
          else
            let until := saturating_add64 now_ms (ejection_window p (i_outlier_eject_count c)) in
            (true, <[id := set_outlier c 0 (saturating_add32 (i_outlier_eject_count c) 1) until]>
               heap)
    end.

(** ** Health: lemmas *)

(** The number of consecutive [b]s that end a history. *)
Fixpoint leading (b : bool) (l : list bool) : Z :=
  match l with
  | x :: l => if Bool.eqb x b then 1 + leading b l else 0
  | [] => 0
  end.
Definition streak (b : bool) (history : list bool) : Z := leading b (rev history).

Definition probe (i : Inst) (ok : bool) : Inst :=
  if ok then record_probe_success i else record_failure i.
Definition after (i : Inst) (history : list bool) : Inst := fold_left probe history i.

Lemma streak_snoc b history e :
  streak b (history ++ [e]) = if Bool.eqb e b then 1 + streak b history else 0.
Proof. unfold streak. by rewrite rev_app_distr. Qed.

Lemma streak_nonneg b history : 0 <= streak b history.
Proof.
  unfold streak. induction (rev history) as [|x l IH]; cbn [leading]; [lia|].
  destruct (Bool.eqb x b); lia.
Qed.

(** The counters agree with the history. *)
Record agrees (i : Inst) (h : HealthConfig) (history : list bool) : Prop := {
  ag_ht : i_healthy_threshold i = Z.max (hl_healthy_threshold h) 1;
  ag_ut : i_unhealthy_threshold i = Z.max (hl_unhealthy_threshold h) 1;
  ag_ever : i_ever_healthy i = existsb id history;
  ag_up : i_healthy i = true -> i_ever_healthy i = true /\
    i_consecutive_fail i = streak false history /\ streak false history < i_unhealthy_threshold i;
  ag_down : i_healthy i = false -> i_consecutive_ok i = streak true history /\
    (i_ever_healthy i = true -> streak true history < i_healthy_threshold i) /\
    (i_ever_healthy i = false -> streak true history = 0);
}.

Definition next_healthy (i : Inst) (h : HealthConfig) (history : list bool) (e : bool) : bool :=
  let seen := history ++ [e] in
  if i_healthy i
  then negb (Z.max (hl_unhealthy_threshold h) 1 <=? streak false seen)
  else (if existsb id history then Z.max (hl_healthy_threshold h) 1 else 1) <=? streak true seen.

Lemma agrees_step i h history e :
  0 <= hl_healthy_threshold h <= u32_max -> 0 <= hl_unhealthy_threshold h <= u32_max ->
  agrees i h history ->
  agrees (probe i e) h (history ++ [e]) /\
  i_healthy (probe i e) = next_healthy i h history e.
Proof.
  intros Hh Hu [Ht Ut Ev Up Dn]. unfold next_healthy.
  pose proof (streak_nonneg true history). pose proof (streak_nonneg false history).
  assert (Hex : existsb id (history ++ [e]) = existsb id history || e)
    by (rewrite existsb_app; cbn; by rewrite orb_false_r).
  unfold probe, record_probe_success, record_failure, saturating_add32 in *.
  rewrite !streak_snoc.
  destruct e; cbn [Bool.eqb]; destruct (i_healthy i) eqn:Eh.
  - destruct (Up eq_refl) as (E1 & E2 & E3). cbn [i_healthy set_health].
    split; [|symmetry; apply negb_true_iff, Z.leb_gt; lia].
    split; cbn; try done; rewrite ?streak_snoc, ?Hex, ?orb_true_r; cbn [Bool.eqb]; try done.
    intros _. split_and!; [done|done|lia].
  - destruct (Dn eq_refl) as (E1 & E2 & E3).
    assert (Hs : Z.min (i_consecutive_ok i + 1) u32_max = 1 + streak true history).
    { rewrite E1. destruct (i_ever_healthy i); [specialize (E2 eq_refl)|specialize (E3 eq_refl)];
        unfold u32_max in *; lia. }
    rewrite Hs, <- Ev, Ht.
    destruct (Z.leb_spec (if i_ever_healthy i then Z.max (hl_healthy_threshold h) 1 else 1)
      (1 + streak true history)) as [Hle|Hgt]; cbn [i_healthy set_health]; (split; [|done]).
    + split; cbn; try done; rewrite ?streak_snoc, ?Hex, ?orb_true_r; cbn [Bool.eqb]; try done.
      intros _. split_and!; [done|done|lia].
    + destruct (i_ever_healthy i) eqn:Ee; [|lia].
      split; cbn; try done; rewrite ?streak_snoc, ?Hex, ?orb_true_r; cbn [Bool.eqb]; try done.
      intros _. split_and!; [done|lia|congruence].
  - destruct (Up eq_refl) as (E1 & E2 & E3).
    assert (Hs : Z.min (i_consecutive_fail i + 1) u32_max = 1 + streak false history)
      by (unfold u32_max in *; lia).
    rewrite Hs, Ut. cbn [andb].
    destruct (Z.leb_spec (Z.max (hl_unhealthy_threshold h) 1) (1 + streak false history));
      cbn [i_healthy set_health]; (split; [|done]).
    + split; cbn; try done; rewrite ?streak_snoc, ?Hex, ?orb_false_r; cbn [Bool.eqb]; try done.
      intros _. split_and!; [done|lia|congruence].
    + split; cbn; try done; rewrite ?streak_snoc, ?Hex, ?orb_false_r; cbn [Bool.eqb]; try done.
      intros _. split_and!; [done|done|lia].
  - destruct (Dn eq_refl) as (E1 & E2 & E3). cbn [andb i_healthy set_health].
    split; [|symmetry; apply Z.leb_gt; destruct (existsb id history); lia].
    split; cbn; try done; rewrite ?streak_snoc, ?Hex, ?orb_false_r; cbn [Bool.eqb]; try done.
    intros _. split_and!; [done|lia|done].
Qed.

Lemma agrees_after address weight h history :
  0 <= hl_healthy_threshold h <= u32_max -> 0 <= hl_unhealthy_threshold h <= u32_max ->
  agrees (after (inst_new address weight h) history) h history.
Proof.
  intros Hh Hu. induction history as [|e history IH] using rev_ind.
  - by split; cbn; try done.
  - unfold after. rewrite fold_left_app. cbn [fold_left]. by apply agrees_step.
Qed.

(** ** The breaker's invariant *)

Definition same_phase (y x : Phase) : bool :=
  match y, x with
  | Idle, Idle | BackingOut, BackingOut | Holding, Holding => true
  | _, _ => false
  end.

Definition phase_count (x : Phase) (l : list Phase) : Z :=
  sumZ (map (fun y => if same_phase y x then 1 else 0) l).

Lemma phase_count_insert x l t y z : l !! t = Some y ->
  phase_count x (<[t := z]> l) = phase_count x l - (if same_phase y x then 1 else 0)
    + (if same_phase z x then 1 else 0).
Proof.
  intros Ht. unfold phase_count.
  change (map ?g (<[t := z]> l)) with (g <$> <[t := z]> l). rewrite list_fmap_insert.
  rewrite (sumZ_insert _ t (if same_phase y x then 1 else 0)); [done|].
  by rewrite list_lookup_fmap, Ht.
Qed.

Lemma phase_count_bound l :
  0 <= phase_count Holding l /\ 0 <= phase_count BackingOut l /\
  phase_count Holding l + phase_count BackingOut l <= Z.of_nat (length l).
Proof.
  unfold phase_count. induction l as [|x l IH]; cbn [map sumZ length]; [lia|].
  destruct x; cbn [same_phase]; lia.
Qed.

Record breaker_ok (max : Z) (s : Breaker) : Prop := {
  bk_small : Z.of_nat (length (br_threads s)) < 2 ^ 64;
  bk_count : br_in_flight s
    = phase_count Holding (br_threads s) + phase_count BackingOut (br_threads s);
  bk_cap : phase_count Holding (br_threads s) <= Z.max max 0;
}.

Lemma phase_idle_room l t : l !! t = Some Idle ->
  phase_count Holding l + phase_count BackingOut l < Z.of_nat (length l).
Proof.
  intros Ht. pose proof (phase_count_bound (<[t := Holding]> l)) as Hb.
  rewrite length_insert, !(phase_count_insert _ _ _ _ _ Ht) in Hb. cbn [same_phase] in Hb. lia.
Qed.

Lemma breaker_step_ok max s s' : breaker_ok max s -> breaker_step max s s' -> breaker_ok max s'.
Proof.
  intros [Hs Hc Hcap] Hst.
  inversion Hst as [? t Hm Ht Hlt|? t Hm Ht Hge|? t Ht|? t Ht]; subst;
    (split; cbn [br_threads br_in_flight]; [by rewrite length_insert| |]);
    rewrite ?(phase_count_insert _ _ _ _ _ Ht); cbn [same_phase];
    pose proof (phase_count_bound (br_threads s));
    try (pose proof (phase_idle_room _ _ Ht)); try lia.
  1,2: unfold wrapping_inc, wrapping_add, wrap64; rewrite Z.mod_small; lia.
  all: pose proof (phase_count_bound (<[t := Idle]> (br_threads s))) as Hb;
    rewrite length_insert, !(phase_count_insert _ _ _ _ _ Ht) in Hb; cbn [same_phase] in Hb;
    unfold wrapping_dec, wrap64; rewrite Z.mod_small; lia.
Qed.

Lemma breaker_init_ok max n : Z.of_nat n < 2 ^ 64 -> breaker_ok max (breaker_init n).
Proof.
  intros Hn. assert (Hz : forall x, x <> Idle -> phase_count x (replicate n Idle) = 0).
  { intros x Hx. unfold phase_count. clear Hn. induction n as [|n IH]; [done|].
    cbn [replicate map sumZ]. rewrite IH. by destruct x. }
  split; cbn [breaker_init br_threads br_in_flight]; rewrite ?length_replicate, ?Hz by done; lia.
Qed.

(** ** Outlier ejection: lemmas *)

Section outlier.
Context (p : OutlierPolicy) (ids : list nat).

Lemma ejected_count_mono heap now now' : now <= now' ->
  ejected_count ids heap now' <= ejected_count ids heap now.
Proof.
  intros Hn. unfold ejected_count. induction ids as [|id l IH]; [done|].
  rewrite !filter_cons. destruct (heap !! id) as [i|]; cbn [from_option];
    unfold is_outlier_ejected in *; repeat case_decide; cbn [length]; bools; try done; lia.
Qed.

(** Writing one instance changes the count by that instance at most. *)
Lemma ejected_count_insert heap id i j now : NoDup ids -> heap !! id = Some i ->
  ejected_count ids (<[id := j]> heap) now <= ejected_count ids heap now + 1 /\
  (i_outlier_ejected_until_ms j = i_outlier_ejected_until_ms i ->
   ejected_count ids (<[id := j]> heap) now = ejected_count ids heap now).
Proof.
  intros Hnd Hi. unfold ejected_count. induction Hnd as [|x l Hx Hnd IH]; [done|].
  rewrite !filter_cons. destruct (decide (x = id)) as [->|Hne].
  - rewrite lookup_insert_eq, Hi. cbn [from_option].
    assert (Hl : filter (fun x => from_option (fun i => is_outlier_ejected i now) false
        (<[id := j]> heap !! x) = true) l
      = filter (fun x => from_option (fun i => is_outlier_ejected i now) false (heap !! x) = true) l).
    { clear IH Hnd. induction l as [|y l IH]; [done|].
      rewrite !filter_cons, lookup_insert_ne by (intros ->; apply Hx; left).
      rewrite IH by (intros H; apply Hx; by right). done. }
    rewrite Hl. split.
    + repeat case_decide; cbn [length]; lia.
    + unfold is_outlier_ejected. by intros ->.
  - rewrite !lookup_insert_ne by done. destruct IH as [IH1 IH2].
    destruct (decide _); cbn [length]; split; try lia; intros E; specialize (IH2 E); lia.
Qed.

(** The cap as it holds at [now] and, ejections only expiring, later. *)
Definition cap_holds (heap : Heap) (now : Z) : Prop :=
  ejected_count ids heap now = 0 \/
  ejected_count ids heap now * 100 <= op_max_ejection_percent p * Z.of_nat (length ids).

Lemma cap_holds_later heap now now' : 0 <= op_max_ejection_percent p -> now <= now' ->
  cap_holds heap now -> cap_holds heap now'.
Proof.
  intros Hp Hn [H|H]; pose proof (ejected_count_mono heap now now' Hn); unfold cap_holds;
    assert (0 <= ejected_count ids heap now') by (unfold ejected_count; lia); [left|right]; lia.
Qed.

Lemma record_outcome_cap heap now id gwf : NoDup ids -> cap_holds heap now ->
  cap_holds (snd (record_outcome p ids heap now id gwf)) now.
Proof.
  intros Hnd Hcap. unfold record_outcome. destruct (negb (outlier_enabled p)); [done|].
  destruct (heap !! id) as [c|] eqn:Hc; [|done].
  assert (Hsame : forall g k, cap_holds (<[id := set_outlier c g k (i_outlier_ejected_until_ms c)]> heap) now).
  { intros g k. unfold cap_holds.
    by rewrite (proj2 (ejected_count_insert heap id c
      (set_outlier c g k (i_outlier_ejected_until_ms c)) now Hnd Hc) eq_refl). }
  destruct gwf; cbn [negb]; [|apply Hsame].
  destruct (_ <? op_consecutive p); [apply Hsame|].
  destruct (Z.ltb_spec (op_max_ejection_percent p * Z.of_nat (length ids))
    ((ejected_count ids heap now + 1) * 100)); [apply Hsame|].
  cbn [snd]. right.
  pose proof (proj1 (ejected_count_insert heap id c (set_outlier c 0
    (saturating_add32 (i_outlier_eject_count c) 1)
    (saturating_add64 now (ejection_window p (i_outlier_eject_count c)))) now Hnd Hc)). lia.
Qed.

(** A run of outcomes, each at its clock reading. *)
Fixpoint outcomes (heap : Heap) (trace : list (Z * nat * bool)) : Heap :=
  match trace with
  | [] => heap
  | (now, id, gwf) :: rest => outcomes (snd (record_outcome p ids heap now id gwf)) rest
  end.

Fixpoint clock_from (now : Z) (trace : list (Z * nat * bool)) : Prop :=
  match trace with
  | [] => True
  | (t, _, _) :: rest => now <= t /\ clock_from t rest
  end.

Definition last_now (now : Z) (trace : list (Z * nat * bool)) : Z :=
  match last trace with Some (t, _, _) => t | None => now end.

Lemma last_now_cons now t id g rest :
  last_now now ((t, id, g) :: rest) = last_now t rest.
Proof.
  unfold last_now. destruct rest as [|x rest]; [done|]. rewrite last_cons_cons.
  destruct (last (x :: rest)) eqn:E; [done|]. by apply last_None in E.
Qed.

Lemma outcomes_cap trace : forall heap now, NoDup ids -> 0 <= op_max_ejection_percent p ->
  clock_from now trace -> cap_holds heap now -> cap_holds (outcomes heap trace) (last_now now trace).
Proof.
  induction trace as [|[[t id] g] rest IH]; intros heap now Hnd Hp Hck Hcap; [done|].
  destruct Hck as [Hle Hck]. cbn [outcomes]. rewrite last_now_cons.
  apply IH; [done|done|done|]. apply record_outcome_cap; [done|].
  by apply (cap_holds_later heap now).
Qed.
End outlier.

(** ** Properties *)

(** An instance enters and leaves rotation exactly as the health policy says, for every
    history of probes and passive failures: a healthy one leaves when the history ends with
    the unhealthy threshold of consecutive failures; another enters at its first success
    ever, and afterwards when the history ends with the healthy threshold of successes. *)
Theorem health_follows_policy (address : bytes) (weight : Z) (h : HealthConfig)
    (history : list bool) (e : bool) :
  0 <= hl_healthy_threshold h <= u32_max -> 0 <= hl_unhealthy_threshold h <= u32_max ->
  let i := after (inst_new address weight h) history in
  i_healthy (probe i e) =
  (if i_healthy i
   then negb (Z.max (hl_unhealthy_threshold h) 1 <=? streak false (history ++ [e]))
   else (if existsb id history then Z.max (hl_healthy_threshold h) 1 else 1)
        <=? streak true (history ++ [e])).
Proof.
  intros Hh Hu i. apply (agrees_step i h history e Hh Hu). by apply agrees_after.
Qed.

Lemma health_follows_policy_witness :
  let h := mkHealth (bs "/") 2000 1000 2 3 None in
  map (fun n => i_healthy (after (inst_new (bs "a") 1 h) (take n
    [false; true; false; false; false; true; true]))) (range 8)
    = [false; false; true; true; true; false; false; true] /\
  i_healthy (probe (after (inst_new (bs "a") 1 h) [true; false; false]) false) = false.
Proof.
  cbv zeta. split; [vm_compute; reflexivity|].
  rewrite (health_follows_policy (bs "a") 1 (mkHealth (bs "/") 2000 1000 2 3 None)
    [true; false; false] false); [vm_compute; reflexivity|cbn; unfold u32_max; lia..].
Defined.

(** Under any interleaving of acquisitions, back-outs and releases, the breaker's counter
    is the permits held plus the threads backing out, never wrapping; at most [max_requests]
    permits are held; once no thread is backing out the counter is exactly the permits; and
    an undisturbed call admits exactly below the cap, leaving a refused counter unchanged. *)
Theorem breaker_caps_in_flight (max : Z) (threads : nat) (s : Breaker) :
  0 < max < 2 ^ 32 -> Z.of_nat threads < 2 ^ 64 ->
  rtc (breaker_step max) (breaker_init threads) s ->
  br_in_flight s = phase_count Holding (br_threads s) + phase_count BackingOut (br_threads s) /\
  phase_count Holding (br_threads s) <= max /\
  (Forall (fun x => x <> BackingOut) (br_threads s) ->
   br_in_flight s = phase_count Holding (br_threads s) /\
   (br_in_flight s < max -> fst (try_acquire max (br_in_flight s)) = Some true) /\
   (br_in_flight s = max -> try_acquire max (br_in_flight s) = (None, br_in_flight s))).
Proof.
  intros Hmax Hn Hr.
  assert (Hok : breaker_ok max s).
  { remember (breaker_init threads) as s0 eqn:E0. assert (H0 : breaker_ok max s0)
      by (subst; by apply breaker_init_ok). clear E0.
    induction Hr as [|x y z Hxy _ IH]; [done|]. apply IH. by apply (breaker_step_ok max x). }
  destruct Hok as [Hs Hc Hcap]. rewrite Z.max_l in Hcap by lia. split_and!; [done|done|].
  intros Hq. assert (Hb : phase_count BackingOut (br_threads s) = 0).
  { clear -Hq. unfold phase_count. induction Hq as [|x l Hx Hl IH]; [done|].
    cbn [map sumZ]. rewrite IH. by destruct x. }
  pose proof (phase_count_bound (br_threads s)).
  split; [lia|]. unfold try_acquire. destruct (Z.eqb_spec max 0); [lia|]. split.
  - intros Hlt. by destruct (Z.leb_spec max (br_in_flight s)); [lia|].
  - intros ->. destruct (Z.leb_spec max max); [|lia].
    unfold wrapping_dec, wrapping_inc, wrapping_add, wrap64. f_equal.
    rewrite Zminus_mod_idemp_l. rewrite Z.mod_small; lia.
Qed.

Lemma breaker_caps_in_flight_witness :
  exists s, rtc (breaker_step 1) (breaker_init 2) s /\
    br_threads s = [Holding; BackingOut] /\ br_in_flight s = 2 /\
    phase_count Holding (br_threads s) <= 1.
Proof.
  assert (Hr : rtc (breaker_step 1) (breaker_init 2) (mkBreaker 2 [Holding; BackingOut])).
  { eapply rtc_l; [exact (StepAdmit 1 (breaker_init 2) 0 ltac:(lia) eq_refl ltac:(cbn; lia))|].
    eapply rtc_l; [|apply rtc_refl].
    exact (StepFull 1 (mkBreaker 1 [Holding; Idle]) 1 ltac:(lia) eq_refl ltac:(cbn; lia)). }
  exists (mkBreaker 2 [Holding; BackingOut]). split; [exact Hr|]. split; [reflexivity|].
  split; [reflexivity|].
  exact (proj1 (proj2 (breaker_caps_in_flight 1 2 _ ltac:(lia) ltac:(lia) Hr))).
Defined.

(** Outlier ejection never takes more of the pool than the policy allows: starting from a
    pool with no ejections, after any sequence of outcomes under a clock that does not go
    back, either nothing is ejected or the ejected share is within the percentage. *)
Theorem ejection_within_cap (p : OutlierPolicy) (ids : list nat) (heap : Heap) (now : Z)
    (trace : list (Z * nat * bool)) :
  NoDup ids -> 0 <= op_max_ejection_percent p -> clock_from now trace ->
  ejected_count ids heap now = 0 ->
  let n := ejected_count ids (outcomes p ids heap trace) (last_now now trace) in
  n = 0 \/ n * 100 <= op_max_ejection_percent p * Z.of_nat (length ids).
Proof. intros Hnd Hp Hck H0. apply (outcomes_cap p ids trace heap now Hnd Hp Hck). by left. Qed.

Lemma ejection_within_cap_witness :
  let p := mkPolicy 1 1000 50 in
  let i := inst_new (bs "a") 1 (mkHealth (bs "/") 2000 1000 2 3 None) in
  let heap : Heap := <[0%nat := i]> (<[1%nat := i]> ∅) in
  let trace := [(10, 0%nat, true); (20, 1%nat, true)] in
  ejected_count [0; 1]%nat (outcomes p [0; 1]%nat heap trace) 20 = 1 /\
  (let n := ejected_count [0; 1]%nat (outcomes p [0; 1]%nat heap trace) 20 in
   n = 0 \/ n * 100 <= 50 * 2).
Proof.
  cbv zeta. split; [vm_compute; reflexivity|].
  apply (ejection_within_cap (mkPolicy 1 1000 50) [0; 1]%nat _ 0
    [(10, 0%nat, true); (20, 1%nat, true)]).
  - apply (bool_decide_unpack _). vm_compute. exact I.
  - cbn. lia.
  - cbn. lia.
  - vm_compute. reflexivity.
Defined.
