(* ===== verification/Balancer.v ===== *)
(** * Instance selection (control/src/upstream/lb.rs)

    Round-robin, least-request by power of two choices, and Maglev affinity.  Each pass over
    the instance list evaluates eligibility once per instance, and another thread may change
    it between passes, so every pass has its own eligibility predicate; the quiescent case is
    the one predicate for all.  A pick's load guard is the [metered] flag and its release. *)

From S2P Require Import Prelude Bytes Weighted Ssrf Hash Rng Maglev Manifest Upstream.

(** ** Hash keys *)

Inductive HashKeySource := SourceHeader (name : bytes) | SourceIp.

Inductive HashInput := HashBytes (b : bytes) | HashIp (ip : IpAddr).

Definition hash_input (octets : IpAddr -> bytes) (k : HashInput) : Z :=
  match k with
  | HashBytes b => hash64 b
  | HashIp ip => hash64 (octets ip)
  end.

(** ** Endpoints *)

Inductive LbState := LbRoundRobin | LbLeastRequest | LbMaglev (table : list Z).

Record Endpoints := mkEndpoints { ep_instances : list nat; ep_lb : LbState }.

Definition inst_entry (heap : Heap) (id : nat) : bytes * Z :=
  match heap !! id with Some i => (i_address i, i_weight i) | None => ([], 0) end.

(** The fuel inside [Maglev.build] is enough for every validated size. *)
Definition endpoints_build (heap : Heap) (instances : list nat) (algorithm : LbAlgorithm)
    (maglev_table_size : Z) : Endpoints :=
  mkEndpoints instances
    match algorithm with
    | RoundRobin => LbRoundRobin
    | LeastRequest => LbLeastRequest
    | Manifest.Maglev =>
      LbMaglev (default [] (build (map (inst_entry heap) instances) maglev_table_size))
    end.

(** ** Eligibility *)

(** [is_eligible], with the outlier clock read only when the policy is on. *)
Definition is_eligible (check_outlier : bool) (now_ms : Z) (exclude : option nat) (heap : Heap)
    (id : nat) : bool :=
  match heap !! id with
  | Some i =>
    i_healthy i && (negb check_outlier || negb (is_outlier_ejected i now_ms))
    && match exclude with Some ex => negb (id =? ex)%nat | None => true end
  | None => false
  end.

Definition eligibility_ctx (p : OutlierPolicy) (clock : Z) : bool * Z :=
  let check_outlier := outlier_enabled p in
  (check_outlier, if check_outlier then clock else 0).

Definition has_eligible_now (p : OutlierPolicy) (clock : Z) (heap : Heap) (ids : list nat) : bool :=
  let '(check, now) := eligibility_ctx p clock in
  existsb (is_eligible check now None heap) ids.

(** ** Round-robin *)

Record Pick := mkPick { pk_instance : nat; pk_metered : bool }.

Definition eligible_count (e : nat -> bool) (ids : list nat) : nat := length (List.filter e ids).

Fixpoint rr_scan (e : nat -> bool) (ids : list nat) (target : Z) (seen : Z) (last : option nat)
    : option nat :=
  match ids with
  | [] => last
  | inst :: rest =>
    if e inst then
      if seen =? target then Some inst else rr_scan e rest target (seen + 1) (Some inst)
    else rr_scan e rest target seen last
  end.

Definition unmetered (inst : nat) : Pick := mkPick inst false.

(** The count pass and the index pass; the cursor advances by one wrapping step. *)
Definition round_robin_pick (e1 e2 : nat -> bool) (ids : list nat) (rr : Z)
    : option Pick * Z :=
  let eligible := Z.of_nat (eligible_count e1 ids) in
  if eligible =? 0 then (None, rr)
  else
    let target := rr mod eligible in
    (option_map unmetered (rr_scan e2 ids target 0 None), wrapping_inc rr).

(** ** Least-request *)

(** [(in_flight + 1) / weight], compared by cross product; a tie keeps the first. *)
Definition lower_load (heap : Heap) (a b : nat) : bool :=
  match heap !! a, heap !! b with
  | Some ia, Some ib =>
    (i_in_flight ia + 1) * i_weight ib <=? (i_in_flight ib + 1) * i_weight ia
  | _, _ => true
  end.

(** The single pass capturing the [lo]-th and [hi]-th eligible instances. *)
Fixpoint capture (e : nat -> bool) (ids : list nat) (lo hi seen : Z)
    (cand : option nat * option nat) : option nat * option nat :=
  match ids with
  | [] => cand
  | inst :: rest =>
    if e inst then
      let cand := (if seen =? lo then Some inst else fst cand,
                   if seen =? hi then Some inst else snd cand) in
      capture e rest lo hi (seen + 1) cand
    else capture e rest lo hi seen cand
  end.

Definition metered (inst : nat) : Pick := mkPick inst true.

(** The outcome of a least-request pick: the pick, the cursor and the generator; [None] only
    when the rejection loop runs out of fuel. *)
Definition least_request_pick (fuel : nat) (e1 e2 e3 e4 : nat -> bool) (ids : list nat)
    (heap : Heap) (rr rng : Z) : option (option Pick * Z * Z) :=
  let n := eligible_count e1 ids in
  if (n =? 0)%nat then Some (None, rr, rng)
  else if (n =? 1)%nat then
    match List.find e2 ids with
    | Some only => Some (Some (metered only), rr, rng)
    | None => let '(pick, rr) := round_robin_pick e3 e4 ids rr in Some (pick, rr, rng)
    end
  else
    match two_distinct_below fuel (Z.of_nat n mod 2 ^ 32) rng with
    | None => None
    | Some ((a, b), rng) =>
      let '(lo, hi) := if a <=? b then (a, b) else (b, a) in
      match capture e2 ids lo hi 0 (None, None) with
      | (Some cand_lo, Some cand_hi) =>
        let '(x, y) := if a <=? b then (cand_lo, cand_hi) else (cand_hi, cand_lo) in
        let chosen := if lower_load heap x y then x else y in
        Some (Some (metered chosen), rr, rng)
      | _ => let '(pick, rr) := round_robin_pick e3 e4 ids rr in Some (pick, rr, rng)
      end
    end.

(** ** Maglev *)

Definition maglev_pick (table : list Z) (e0 e1 e2 : nat -> bool) (ids : list nat)
    (key_hash : option Z) (rr : Z) : option Pick * Z :=
  let affinity :=
    match key_hash with
    | None => None
    | Some h =>
      match lookup_slot table h with
      | None => None
      | Some idx =>
        match ids !! Z.to_nat idx with
        | Some inst => if e0 inst then Some inst else None
        | None => None
        end
      end
    end in
  match affinity with
  | Some inst => (Some (unmetered inst), rr)
  | None => round_robin_pick e1 e2 ids rr
  end.

(** [pick_dispatch]; [passes k] is eligibility as the [k]-th pass finds it. *)
Definition pick_dispatch_passes (fuel : nat) (ep : Endpoints) (passes : nat -> nat -> bool) (heap : Heap)
    (key_hash : option Z) (rr rng : Z) : option (option Pick * Z * Z) :=
  match ep_lb ep with
  | LbRoundRobin =>
    let '(pick, rr) := round_robin_pick (passes 0%nat) (passes 1%nat) (ep_instances ep) rr in Some (pick, rr, rng)
  | LbLeastRequest =>
    least_request_pick fuel (passes 0%nat) (passes 1%nat) (passes 2%nat) (passes 3%nat) (ep_instances ep) heap rr rng
  | LbMaglev table =>
    let '(pick, rr) := maglev_pick table (passes 0%nat) (passes 1%nat) (passes 2%nat) (ep_instances ep) key_hash rr in
    Some (pick, rr, rng)
  end.

(** While nothing changes between the passes. *)
Definition pick_dispatch (fuel : nat) (ep : Endpoints) (e : nat -> bool) (heap : Heap)
    (key_hash : option Z) (rr rng : Z) : option (option Pick * Z * Z) :=
  pick_dispatch_passes fuel ep (fun _ => e) heap key_hash rr rng.

(** ** Load metering *)

Definition add_in_flight (heap : Heap) (id : nat) (d : Z) : Heap :=
  match heap !! id with
  | Some i => <[id := set_in_flight i (wrap64 (i_in_flight i + d))]> heap
  | None => heap
  end.

Definition take_pick (heap : Heap) (p : Pick) : Heap :=
  if pk_metered p then add_in_flight heap (pk_instance p) 1 else heap.
Definition drop_pick (heap : Heap) (p : Pick) : Heap :=
  if pk_metered p then add_in_flight heap (pk_instance p) (-1) else heap.

(** ** Scan lemmas *)

Lemma rr_scan_spec e ids : forall target seen last, seen <= target ->
  rr_scan e ids target seen last =
  match List.filter e ids !! Z.to_nat (target - seen) with
  | Some x => Some x
  | None => match list.last (List.filter e ids) with Some x => Some x | None => last end
  end.
Proof.
  induction ids as [|x ids IH]; intros target seen last Hs; cbn [rr_scan List.filter]; [done|].
  destruct (e x); [|by apply IH].
  destruct (Z.eqb_spec seen target) as [->|Hne]; [by rewrite Z.sub_diag|].
  rewrite IH by lia. replace (Z.to_nat (target - seen)) with (S (Z.to_nat (target - (seen + 1)))) by lia.
  cbn [lookup list_lookup]. destruct (List.filter e ids !! _); [done|].
  destruct (List.filter e ids) as [|y l]; [done|]. rewrite last_cons_cons.
  destruct (list.last (y :: l)) eqn:E; [done|]. by apply last_None in E.
Qed.

Lemma capture_spec e ids : forall lo hi seen c, 0 <= seen ->
  capture e ids lo hi seen c =
  ((if seen <=? lo then match List.filter e ids !! Z.to_nat (lo - seen) with
      Some x => Some x | None => fst c end else fst c),
   (if seen <=? hi then match List.filter e ids !! Z.to_nat (hi - seen) with
      Some x => Some x | None => snd c end else snd c)).
Proof.
  induction ids as [|x ids IH]; intros lo hi seen c Hs; cbn [capture List.filter].
  { destruct c. cbn. by destruct (seen <=? lo), (seen <=? hi). }
  destruct (e x); [|by apply IH]. rewrite IH by lia. cbn [fst snd].
  assert (Hone : forall k o, (if seen + 1 <=? k
      then match List.filter e ids !! Z.to_nat (k - (seen + 1)) with
           Some y => Some y | None => if seen =? k then Some x else o end
      else if seen =? k then Some x else o)
    = (if seen <=? k then match (x :: List.filter e ids) !! Z.to_nat (k - seen) with
         Some y => Some y | None => o end else o)).
  { intros k o. destruct (Z.leb_spec (seen + 1) k), (Z.leb_spec seen k), (Z.eqb_spec seen k);
      try lia; try done.
    - replace (Z.to_nat (k - seen)) with (S (Z.to_nat (k - (seen + 1)))) by lia. done.
    - subst. by rewrite Z.sub_diag. }
  by rewrite !Hone.
Qed.

Lemma filter_in (e : nat -> bool) ids k x : List.filter e ids !! k = Some x -> x ∈ ids /\ e x = true.
Proof.
  intros Hx%list_elem_of_lookup_2. apply list_elem_of_In, filter_In in Hx.
  destruct Hx as [Hx He]. split; [by apply list_elem_of_In|done].
Qed.

Lemma eligible_none e ids : eligible_count e ids = 0%nat <-> forall x, x ∈ ids -> e x = false.
Proof.
  unfold eligible_count. split.
  - intros Hn x Hx. destruct (e x) eqn:E; [|done]. exfalso.
    apply nil_length_inv in Hn. assert (Hin : In x (List.filter e ids))
      by (apply filter_In; split; [by apply list_elem_of_In|done]).
    by rewrite Hn in Hin.
  - intros Hall. destruct (List.filter e ids) as [|x l] eqn:E; [done|]. exfalso.
    destruct (filter_in e ids 0 x) as [Hx He]; [by rewrite E|]. by rewrite Hall in He.
Qed.

(** ** Each algorithm's pick *)

(** Whatever changes between the passes, a pick is an instance of the list that the second
    pass saw eligible, and there is none only if a pass saw nobody eligible. *)
Lemma round_robin_sound e1 e2 ids rr :
  match fst (round_robin_pick e1 e2 ids rr) with
  | Some p => pk_instance p ∈ ids /\ e2 (pk_instance p) = true /\ pk_metered p = false
  | None => eligible_count e1 ids = 0%nat \/ eligible_count e2 ids = 0%nat
  end.
Proof.
  unfold round_robin_pick. destruct (Z.eqb_spec (Z.of_nat (eligible_count e1 ids)) 0) as [Hz|Hz];
    cbn [fst]; [left; lia|].
  set (target := rr mod _). assert (Ht : 0 <= target) by (apply Z.mod_pos_bound; lia).
  rewrite rr_scan_spec by done. destruct (List.filter e2 ids !! _) as [x|] eqn:Ex; cbn [option_map].
  - destruct (filter_in _ _ _ _ Ex). done.
  - destruct (list.last (List.filter e2 ids)) as [x|] eqn:El; cbn [option_map].
    + rewrite last_lookup in El. destruct (filter_in _ _ _ _ El). done.
    + right. unfold eligible_count. apply last_None in El. by rewrite El.
Qed.

(** With one predicate the pick is the cursor's position in the eligible list. *)
Lemma round_robin_quiescent e ids rr : 0 <= rr -> eligible_count e ids <> 0%nat ->
  exists x, List.filter e ids !! (Z.to_nat rr mod eligible_count e ids)%nat = Some x /\
    round_robin_pick e e ids rr = (Some (unmetered x), wrapping_inc rr).
Proof.
  intros Hr Hn. unfold round_robin_pick.
  destruct (Z.eqb_spec (Z.of_nat (eligible_count e ids)) 0); [lia|].
  pose proof (Z.mod_pos_bound rr (Z.of_nat (eligible_count e ids)) ltac:(lia)).
  rewrite rr_scan_spec, Z.sub_0_r by lia.
  rewrite Z2Nat.inj_mod, Nat2Z.id by lia.
  destruct (lookup_lt_is_Some_2 (List.filter e ids) (Z.to_nat rr mod eligible_count e ids)) as [x Hx].
  { fold (eligible_count e ids). by apply Nat.mod_upper_bound. }
  exists x. split; [done|]. by rewrite Hx.
Qed.

Lemma round_robin_none e ids rr : eligible_count e ids = 0%nat ->
  round_robin_pick e e ids rr = (None, rr).
Proof. intros Hz. unfold round_robin_pick. by rewrite Hz. Qed.

(** The least-request pick, with what its choice beat. *)
Lemma least_request_quiescent fuel e ids heap rr rng :
  0 <= rr -> is_u64 rng -> Z.of_nat (length ids) < 2 ^ 32 -> (length ids <= fuel)%nat ->
  exists pick rng', least_request_pick fuel e e e e ids heap rr rng = Some (pick, rr, rng') /\
    match pick with
    | None => eligible_count e ids = 0%nat
    | Some p => pk_instance p ∈ ids /\ e (pk_instance p) = true /\ pk_metered p = true /\
        ((2 <= eligible_count e ids)%nat ->
         exists j k x, j <> k /\ List.filter e ids !! j = Some (pk_instance p) /\
           List.filter e ids !! k = Some x /\
           (lower_load heap (pk_instance p) x = true \/ lower_load heap x (pk_instance p) = false))
    end.
Proof.
  intros Hr Hrng Hl Hf. unfold least_request_pick.
  destruct (Nat.eqb_spec (eligible_count e ids) 0) as [Hz|Hz]; [by exists None, rng|].
  destruct (Nat.eqb_spec (eligible_count e ids) 1) as [Ho|Ho].
  { destruct (List.find e ids) as [x|] eqn:Ex.
    - apply find_some in Ex. destruct Ex as [Hx He]. exists (Some (metered x)), rng.
      split; [done|]. cbn. split_and!; [by apply list_elem_of_In|done|done|lia].
    - exfalso. apply Hz, eligible_none. intros x Hx. by eapply find_none, list_elem_of_In. }
  assert (Hle : (eligible_count e ids <= length ids)%nat) by apply filter_length_le.
  rewrite Z.mod_small by lia.
  destruct (two_distinct_total (Z.of_nat (eligible_count e ids)) rng fuel)
    as (a & b & rng' & -> & _ & Ha & Hb & Hab); [unfold u32_max; lia|done|lia|].
  set (fl := List.filter e ids). assert (Hfl : length fl = eligible_count e ids) by done.
  destruct (lookup_lt_is_Some_2 fl (Z.to_nat a) ltac:(lia)) as [xa Hxa].
  destruct (lookup_lt_is_Some_2 fl (Z.to_nat b) ltac:(lia)) as [xb Hxb].
  assert (Hcap : forall lo hi, 0 <= lo -> 0 <= hi -> capture e ids lo hi 0 (None, None)
    = (fl !! Z.to_nat lo, fl !! Z.to_nat hi)).
  { intros lo hi Hlo Hhi. rewrite capture_spec by lia. cbn [fst snd]. rewrite !Z.sub_0_r.
    destruct (Z.leb_spec 0 lo), (Z.leb_spec 0 hi); try lia. fold fl.
    by destruct (fl !! Z.to_nat lo), (fl !! Z.to_nat hi). }
  assert (Hend : forall x y, x = xa -> y = xb ->
    exists pick rng'', Some (Some (metered (if lower_load heap x y then x else y)), rr, rng')
      = Some (pick, rr, rng'') /\
    match pick with
    | None => eligible_count e ids = 0%nat
    | Some p => pk_instance p ∈ ids /\ e (pk_instance p) = true /\ pk_metered p = true /\
        ((2 <= eligible_count e ids)%nat ->
         exists j k x, j <> k /\ fl !! j = Some (pk_instance p) /\ fl !! k = Some x /\
           (lower_load heap (pk_instance p) x = true \/ lower_load heap x (pk_instance p) = false))
    end).
  { intros x y -> ->. do 2 eexists. split; [done|]. cbn [metered pk_instance pk_metered].
    destruct (filter_in _ _ _ _ Hxa), (filter_in _ _ _ _ Hxb).
    destruct (lower_load heap xa xb) eqn:El; (split_and!; [done|done|done|intros _]).
    - exists (Z.to_nat a), (Z.to_nat b), xb. split_and!; [lia|done|done|by left].
    - exists (Z.to_nat b), (Z.to_nat a), xa. split_and!; [lia|done|done|by right]. }
  destruct (a <=? b); rewrite Hcap by lia; rewrite Hxa, Hxb; by apply Hend.
Qed.

(** Maglev serves the table's instance when it can, and falls back to the rotation. *)
Lemma maglev_sound table e0 e1 e2 ids key rr :
  match fst (maglev_pick table e0 e1 e2 ids key rr) with
  | Some p => pk_instance p ∈ ids /\ pk_metered p = false /\
      (e0 (pk_instance p) = true \/ e2 (pk_instance p) = true)
  | None => eligible_count e1 ids = 0%nat \/ eligible_count e2 ids = 0%nat
  end.
Proof.
  unfold maglev_pick. pose proof (round_robin_sound e1 e2 ids rr) as Hrr.
  assert (Hback : match fst (round_robin_pick e1 e2 ids rr) with
    | Some p => pk_instance p ∈ ids /\ pk_metered p = false /\
        (e0 (pk_instance p) = true \/ e2 (pk_instance p) = true)
    | None => eligible_count e1 ids = 0%nat \/ eligible_count e2 ids = 0%nat end).
  { destruct (fst (round_robin_pick e1 e2 ids rr)); [|done]. destruct Hrr as (? & ? & ?). auto. }
  destruct key as [h|]; [|done]. destruct (lookup_slot table h) as [idx|]; [|done].
  destruct (ids !! Z.to_nat idx) as [x|] eqn:Ex; [|done]. destruct (e0 x) eqn:E0; [|done].
  cbn. split_and!; [by eapply list_elem_of_lookup_2|done|by left].
Qed.

Lemma maglev_affinity table e ids h idx x rr :
  lookup_slot table h = Some idx -> ids !! Z.to_nat idx = Some x -> e x = true ->
  maglev_pick table e e e ids (Some h) rr = (Some (unmetered x), rr).
Proof. intros Hl Hx He. unfold maglev_pick. by rewrite Hl, Hx, He. Qed.

(** [n] consecutive rotation picks. *)
Fixpoint rr_run (n : nat) (e : nat -> bool) (ids : list nat) (rr : Z) : list (option Pick) :=
  match n with
  | O => []
  | S n => let '(p, rr) := round_robin_pick e e ids rr in p :: rr_run n e ids rr
  end.

Lemma rr_run_app n k e ids : forall rr, 0 <= rr -> rr + Z.of_nat (n + k) < 2 ^ 64 ->
  eligible_count e ids <> 0%nat ->
  rr_run (n + k) e ids rr = rr_run n e ids rr ++ rr_run k e ids (rr + Z.of_nat n).
Proof.
  induction n as [|n IH]; intros rr Hr Hw Hn; cbn [rr_run Nat.add app].
  { by rewrite Z.add_0_r. }
  destruct (round_robin_quiescent e ids rr Hr Hn) as (x & _ & ->).
  unfold wrapping_inc, wrapping_add, wrap64. rewrite Z.mod_small by lia.
  rewrite IH by lia. by replace (rr + Z.of_nat (S n)) with (rr + 1 + Z.of_nat n) by lia.
Qed.

Lemma rr_run_map n e ids : forall rr, 0 <= rr -> rr + Z.of_nat n < 2 ^ 64 ->
  eligible_count e ids <> 0%nat ->
  rr_run n e ids rr = map (fun j => Some (unmetered
    (List.filter e ids !!! ((Z.to_nat rr + j) mod eligible_count e ids)%nat))) (range n).
Proof.
  induction n as [|n IH]; intros rr Hr Hw Hn; [done|].
  unfold range. cbn [rr_run seq map].
  destruct (round_robin_quiescent e ids rr Hr Hn) as (x & Hx & ->).
  rewrite Nat.add_0_r, (list_lookup_total_correct _ _ _ Hx). f_equal.
  unfold wrapping_inc, wrapping_add, wrap64. rewrite Z.mod_small by lia.
  rewrite IH by lia. rewrite <- seq_shift, map_map. apply map_ext. intros j. do 4 f_equal. lia.
Qed.

Lemma rr_run_turn e ids rr : 0 <= rr -> rr + Z.of_nat (eligible_count e ids) < 2 ^ 64 ->
  rr_run (eligible_count e ids) e ids rr ≡ₚ map (fun x => Some (unmetered x)) (List.filter e ids).
Proof.
  intros Hr Hw. destruct (decide (eligible_count e ids = 0%nat)) as [Hz|Hz].
  { rewrite Hz. unfold eligible_count in Hz. by rewrite (nil_length_inv _ Hz). }
  rewrite rr_run_map by done.
  rewrite <- (map_map (fun j => List.filter e ids !!! _) (fun x => Some (unmetered x))).
  apply Permutation_map. unfold eligible_count. apply full_turn.
Qed.

(** ** Load metering: lemmas *)

Definition metered_on (id : nat) (p : Pick) : bool := pk_metered p && (pk_instance p =? id)%nat.
Definition live_on (id : nat) (live : list Pick) : Z :=
  sumZ (map (fun p => if metered_on id p then 1 else 0) live).

(** Requests take picks and drop them, in any order. *)
Inductive load_step : Heap * list Pick -> Heap * list Pick -> Prop :=
| LoadTake heap live p : load_step (heap, live) (take_pick heap p, live ++ [p])
| LoadDrop heap live p l1 l2 :
    live = l1 ++ p :: l2 -> load_step (heap, live) (drop_pick heap p, l1 ++ l2).

Definition load_ok (s : Heap * list Pick) : Prop :=
  forall id i, fst s !! id = Some i -> i_in_flight i = wrap64 (live_on id (snd s)).

Lemma add_in_flight_lookup heap id d id' i' :
  add_in_flight heap id d !! id' = Some i' ->
  exists i, heap !! id' = Some i /\
    i_in_flight i' = (if (id =? id')%nat then wrap64 (i_in_flight i + d) else i_in_flight i).
Proof.
  unfold add_in_flight. destruct (heap !! id) as [i|] eqn:Ei.
  - destruct (Nat.eqb_spec id id') as [<-|Hne].
    + rewrite lookup_insert_eq. intros [= <-]. by exists i.
    + rewrite lookup_insert_ne by done. intros H. by exists i'.
  - intros H. exists i'. destruct (Nat.eqb_spec id id') as [->|]; [congruence|done].
Qed.

Lemma load_step_ok s s' : load_ok s -> load_step s s' -> load_ok s'.
Proof.
  intros Hok Hst id i Hi. destruct Hst as [heap live p|heap live p l1 l2 ->]; cbn [fst snd] in *;
    unfold take_pick, drop_pick, live_on in *.
  - rewrite map_app, sumZ_app. cbn [map sumZ]. unfold metered_on at 2.
    destruct (pk_metered p); cbn [andb].
    + apply add_in_flight_lookup in Hi as (i0 & Hi0 & ->). specialize (Hok _ _ Hi0). cbn [fst snd] in Hok.
      destruct (pk_instance p =? id)%nat; rewrite Hok; unfold wrap64.
      * rewrite Z.add_mod_idemp_l by lia. f_equal; lia.
      * f_equal; unfold live_on; lia.
    + specialize (Hok _ _ Hi). cbn [fst snd] in Hok. rewrite Hok. f_equal; unfold live_on; lia.
  - assert (Hl : forall f : Pick -> Z, sumZ (map f (l1 ++ p :: l2)) = sumZ (map f (l1 ++ l2)) + f p).
    { intros f. rewrite !map_app, !sumZ_app. cbn [map sumZ]. lia. }
    destruct (pk_metered p) eqn:Em.
    + apply add_in_flight_lookup in Hi as (i0 & Hi0 & ->). specialize (Hok _ _ Hi0).
      cbn [fst snd] in Hok. unfold live_on in Hok. rewrite Hl in Hok.
      unfold metered_on in Hok at 2. rewrite Em in Hok. cbn [andb] in Hok.
      destruct (pk_instance p =? id)%nat; rewrite Hok; unfold wrap64.
      * rewrite Z.add_mod_idemp_l by lia. f_equal; lia.
      * f_equal; lia.
    + specialize (Hok _ _ Hi). cbn [fst snd] in Hok. unfold live_on in Hok. rewrite Hl in Hok.
      unfold metered_on in Hok at 2. rewrite Em in Hok. cbn [andb] in Hok. rewrite Hok. f_equal; lia.
Qed.

(** Without any assumption on the cursor or the generator, a pick is eligible. *)
Lemma capture_eligible (e : nat -> bool) (ids : list nat) : forall lo hi seen c,
  (forall x, fst c = Some x -> e x = true) -> (forall x, snd c = Some x -> e x = true) ->
  (forall x, fst (capture e ids lo hi seen c) = Some x -> e x = true) /\
  (forall x, snd (capture e ids lo hi seen c) = Some x -> e x = true).
Proof.
  induction ids as [|id ids IH]; intros lo hi seen c H1 H2; [done|]. cbn [capture].
  destruct (e id) eqn:He; [|by apply IH]. apply IH; cbn [fst snd]; case_match; naive_solver.
Qed.

Lemma pick_dispatch_eligible fuel ep (e : nat -> bool) heap key_hash rr rng p rr' rng' :
  pick_dispatch fuel ep e heap key_hash rr rng = Some (Some p, rr', rng') ->
  e (pk_instance p) = true.
Proof.
  assert (Hrr : forall q r, round_robin_pick e e (ep_instances ep) rr = (Some q, r) ->
    e (pk_instance q) = true).
  { intros q r E. pose proof (round_robin_sound e e (ep_instances ep) rr) as Hs.
    rewrite E in Hs. cbn [fst] in Hs. tauto. }
  unfold pick_dispatch, pick_dispatch_passes. destruct (ep_lb ep) as [| |table].
  - destruct round_robin_pick as [pick r] eqn:E. intros [= -> _ _]. by eapply Hrr.
  - unfold least_request_pick. destruct (_ =? 0)%nat; [done|]. destruct (_ =? 1)%nat.
    { destruct (List.find e _) as [x|] eqn:Ef; [intros [= <- _ _]; by eapply find_some|].
      destruct round_robin_pick as [pick r] eqn:E. intros [= -> _ _]. by eapply Hrr. }
    destruct two_distinct_below as [[[a b] rng'']|]; [|done].
    destruct (if a <=? b then (a, b) else (b, a)) as [lo hi].
    destruct (capture_eligible e (ep_instances ep) lo hi 0 (None, None)) as [Hc1 Hc2]; [done..|].
    destruct capture as [[x|] [y|]]; cbn [fst snd] in *;
      try (destruct round_robin_pick as [pick r] eqn:E; intros [= -> _ _]; by eapply Hrr).
    destruct (a <=? b); intros [= <- _ _]; unfold metered; cbn [pk_instance];
      destruct lower_load; auto.
  - destruct maglev_pick as [pick r] eqn:E. intros [= -> _ _].
    pose proof (maglev_sound table e e e (ep_instances ep) key_hash rr) as Hs.
    rewrite E in Hs. cbn [fst] in Hs. tauto.
Qed.

(** ** Properties *)

(** An instance that can serve: known to the view, healthy, not ejected where that is checked, and not
    the one a retry leaves out. *)
Definition can_serve (check_outlier : bool) (now_ms : Z) (exclude : option nat) (view : Heap) (id : nat) : Prop :=
  exists i, view !! id = Some i /\ i_healthy i = true /\
    (check_outlier = true -> i_outlier_ejected_until_ms i <= now_ms) /\ exclude <> Some id.

Lemma is_eligible_spec check now ex view id : is_eligible check now ex view id = true <-> can_serve check now ex view id.
Proof.
  unfold is_eligible, can_serve, is_outlier_ejected. destruct (view !! id) as [i|]; [|split; [done|by intros (? & ? & _)]].
  rewrite !andb_true_iff, orb_true_iff, !negb_true_iff, Z.ltb_ge. split.
  - intros [[Hh Ho] He]. exists i. split_and!; [done|done|intros ->; by destruct Ho|].
    intros ->. by rewrite Nat.eqb_refl in He.
  - intros (i' & [= <-] & Hh & Ho & He). split_and!; [done|destruct check; auto|].
    destruct ex as [x|]; [|done]. apply negb_true_iff, Nat.eqb_neq. congruence.
Qed.

Lemma eligible_exists e ids : eligible_count e ids <> 0%nat <-> exists x, x ∈ ids /\ e x = true.
Proof.
  unfold eligible_count. split.
  - intros Hn. destruct (List.filter e ids) as [|x l] eqn:E; [done|]. exists x.
    apply (filter_in e ids 0). by rewrite E.
  - intros (x & Hx & He) Hz. rewrite (proj1 (eligible_none e ids) Hz x Hx) in He. done.
Qed.

(** Whatever changes between its passes, a least-request pick is one its choosing pass saw eligible, and
    there is none only when the first count, or one of the rotation's two passes, saw nobody. *)
Lemma least_request_sound fuel (e1 e2 e3 e4 : nat -> bool) ids heap rr rng :
  is_u64 rng -> Z.of_nat (length ids) < 2 ^ 32 -> (length ids <= fuel)%nat ->
  exists pick rr' rng', least_request_pick fuel e1 e2 e3 e4 ids heap rr rng = Some (pick, rr', rng') /\
    match pick with
    | Some p => pk_instance p ∈ ids /\ (if pk_metered p then e2 (pk_instance p) else e4 (pk_instance p)) = true
    | None => eligible_count e1 ids = 0%nat \/ eligible_count e3 ids = 0%nat \/ eligible_count e4 ids = 0%nat
    end.
Proof.
  intros Hrng Hl Hf. unfold least_request_pick.
  assert (Hback : forall rng', exists (pick : option Pick) (rr' rng'' : Z),
    (let '(pick, rr) := round_robin_pick e3 e4 ids rr in Some (pick, rr, rng')) = Some (pick, rr', rng'') /\
    match pick with
    | Some p => pk_instance p ∈ ids /\ (if pk_metered p then e2 (pk_instance p) else e4 (pk_instance p)) = true
    | None => eligible_count e1 ids = 0%nat \/ eligible_count e3 ids = 0%nat \/ eligible_count e4 ids = 0%nat
    end).
  { intros rng'. pose proof (round_robin_sound e3 e4 ids rr) as Hs. destruct round_robin_pick as [pick rr'].
    exists pick, rr', rng'. split; [done|]. destruct pick as [p|]; cbn [fst] in Hs; [|by right].
    destruct Hs as (? & ? & ->). done. }
  destruct (Nat.eqb_spec (eligible_count e1 ids) 0) as [Hz|Hz]; [exists None, rr, rng; auto|].
  destruct (Nat.eqb_spec (eligible_count e1 ids) 1) as [Ho|Ho].
  { destruct (List.find e2 ids) as [x|] eqn:Ex; [|apply Hback]. apply find_some in Ex as [Hx He].
    exists (Some (metered x)), rr, rng. split; [done|]. by split; [apply list_elem_of_In|]. }
  assert (Hle : (eligible_count e1 ids <= length ids)%nat) by apply filter_length_le.
  rewrite Z.mod_small by lia.
  destruct (two_distinct_total (Z.of_nat (eligible_count e1 ids)) rng fuel)
    as (a & b & rng' & -> & _ & Ha & Hb & Hab); [unfold u32_max; lia|done|lia|].
  set (lo := if a <=? b then a else b). set (hi := if a <=? b then b else a).
  replace (if a <=? b then (a, b) else (b, a)) with (lo, hi) by (subst lo hi; by destruct (a <=? b)).
  assert (Hlo : 0 <= lo) by (subst lo; destruct (a <=? b); lia).
  assert (Hhi : 0 <= hi) by (subst hi; destruct (a <=? b); lia).
  rewrite capture_spec by done. cbn [fst snd].
  rewrite (proj2 (Z.leb_le 0 lo) Hlo), (proj2 (Z.leb_le 0 hi) Hhi), !Z.sub_0_r.
  destruct (List.filter e2 ids !! Z.to_nat lo) as [x|] eqn:Ex, (List.filter e2 ids !! Z.to_nat hi) as [y|] eqn:Ey;
    try apply Hback.
  apply filter_in in Ex, Ey. destruct (a <=? b); do 3 eexists; (split; [done|]); cbn; by destruct lower_load.
Qed.

(** The passes that may conclude that nobody can serve: the rotation's count and its choice, on their own
    or as a fallback, and the least-request count. *)
Definition deciding_passes (lb : LbState) : list nat :=
  match lb with LbRoundRobin => [0; 1] | LbLeastRequest => [0; 2; 3] | LbMaglev _ => [1; 2] end%nat.

(** The passes that choose the instance served. *)
Definition choosing_passes (lb : LbState) : list nat :=
  match lb with LbRoundRobin => [1] | LbLeastRequest => [1; 3] | LbMaglev _ => [0; 2] end%nat.

Lemma pick_passes_sound fuel ep (passes : nat -> nat -> bool) heap key_hash rr rng :
  is_u64 rng -> Z.of_nat (length (ep_instances ep)) < 2 ^ 32 -> (length (ep_instances ep) <= fuel)%nat ->
  exists pick rr' rng', pick_dispatch_passes fuel ep passes heap key_hash rr rng = Some (pick, rr', rng') /\
    match pick with
    | Some p => pk_instance p ∈ ep_instances ep /\ (exists k, k ∈ choosing_passes (ep_lb ep) /\ passes k (pk_instance p) = true) /\
        (pk_metered p = true -> ep_lb ep = LbLeastRequest)
    | None => exists k, k ∈ deciding_passes (ep_lb ep) /\ eligible_count (passes k) (ep_instances ep) = 0%nat
    end.
Proof.
  intros Hrng Hl Hf. unfold pick_dispatch_passes, deciding_passes, choosing_passes. destruct (ep_lb ep) as [| |table].
  - pose proof (round_robin_sound (passes 0%nat) (passes 1%nat) (ep_instances ep) rr) as Hs.
    destruct round_robin_pick as [pick rr']. do 3 eexists. split; [done|]. destruct pick as [p|]; cbn [fst] in Hs.
    + destruct Hs as (? & ? & ->). split_and!; [done| |done]. eexists. split; [|eassumption]. set_solver.
    + destruct Hs as [Hs|Hs]; eexists; (split; [|exact Hs]); set_solver.
  - destruct (least_request_sound fuel (passes 0%nat) (passes 1%nat) (passes 2%nat) (passes 3%nat) (ep_instances ep) heap rr rng)
      as (pick & rr' & rng' & -> & Hs); [done..|]. do 3 eexists. split; [done|]. destruct pick as [p|].
    + destruct Hs as [Hin He]. split_and!; [done| |done]. destruct (pk_metered p); (eexists; split; [|exact He]); set_solver.
    + destruct Hs as [Hs|[Hs|Hs]]; eexists; (split; [|exact Hs]); set_solver.
  - pose proof (maglev_sound table (passes 0%nat) (passes 1%nat) (passes 2%nat) (ep_instances ep) key_hash rr) as Hs.
    destruct maglev_pick as [pick rr']. do 3 eexists. split; [done|]. destruct pick as [p|]; cbn [fst] in Hs.
    + destruct Hs as (? & -> & He). split_and!; [done| |done]. destruct He as [He|He]; (eexists; split; [|exact He]); set_solver.
    + destruct Hs as [Hs|Hs]; eexists; (split; [|exact Hs]); set_solver.
Qed.

(** C24: a pick never fails while an instance can serve and never serves one that cannot.  An instance
    can serve when it is healthy, not ejected as an outlier and not the one a retry leaves out;
    another thread may change that between the passes of one pick.  For every algorithm the pick
    then is an instance of the set that could serve in the pass that chose it, and there is none only when one
    of the passes entitled to say so saw nobody that could: a candidate lost between the
    least-request count and its capture, or an affinity target that cannot serve, is not enough.
    While nothing changes there is none exactly when nobody can serve, load is metered exactly
    under least-request, and Maglev serves its affinity target whenever that can serve. *)
Theorem pick_serves_eligible (fuel : nat) (ep : Endpoints) (check_outlier : bool) (exclude : option nat)
    (now : nat -> Z) (view : nat -> Heap) (heap : Heap) (key_hash : option Z) (rr rng : Z) :
  0 <= rr -> is_u64 rng -> Z.of_nat (length (ep_instances ep)) < 2 ^ 32 ->
  (length (ep_instances ep) <= fuel)%nat ->
  let serves k := can_serve check_outlier (now k) exclude (view k) in
  exists pick rr' rng',
    pick_dispatch_passes fuel ep (fun k => is_eligible check_outlier (now k) exclude (view k)) heap key_hash rr rng
      = Some (pick, rr', rng') /\
    match pick with
    | Some p => pk_instance p ∈ ep_instances ep /\ exists k, k ∈ choosing_passes (ep_lb ep) /\ serves k (pk_instance p)
    | None => exists k, k ∈ deciding_passes (ep_lb ep) /\ forall x, x ∈ ep_instances ep -> ~ serves k x
    end /\
    ((forall k, now k = now 0%nat /\ view k = view 0%nat) ->
       (pick = None <-> forall x, x ∈ ep_instances ep -> ~ serves 0%nat x) /\
       forall p, pick = Some p -> serves 0%nat (pk_instance p) /\ (pk_metered p = true <-> ep_lb ep = LbLeastRequest) /\
         forall table h idx x, ep_lb ep = LbMaglev table -> key_hash = Some h ->
           lookup_slot table h = Some idx -> ep_instances ep !! Z.to_nat idx = Some x ->
           serves 0%nat x -> pk_instance p = x).
Proof.
  intros Hr Hrng Hl Hf serves. set (passes := fun k => is_eligible check_outlier (now k) exclude (view k)).
  assert (Hnone : forall k, eligible_count (passes k) (ep_instances ep) = 0%nat <->
    forall x, x ∈ ep_instances ep -> ~ serves k x).
  { intros k. rewrite eligible_none. apply forall_proper. intros x. split; intros Hx Hin; specialize (Hx Hin).
    - intros Hs%is_eligible_spec. subst passes. cbv beta in Hx. congruence.
    - apply not_true_iff_false. intros He. by apply Hx, is_eligible_spec. }
  destruct (pick_passes_sound fuel ep passes heap key_hash rr rng) as (pick & rr' & rng' & E & Hp); [done..|].
  exists pick, rr', rng'. split; [exact E|]. split.
  { destruct pick as [p|].
    - destruct Hp as (Hin & (k & Hc & Hk) & _). split; [done|]. exists k. split; [done|]. by apply is_eligible_spec.
    - destruct Hp as (k & Hk & Hz). exists k. split; [done|]. by apply Hnone. }
  intros Hsame.
  assert (Hpass : forall k, passes k = passes 0%nat) by (intros k; subst passes; cbv beta; by destruct (Hsame k) as [-> ->]).
  assert (Hsome : forall p, pick = Some p -> serves 0%nat (pk_instance p)).
  { intros p ->. destruct Hp as (_ & (k & _ & Hk) & _). rewrite Hpass in Hk. by apply is_eligible_spec. }
  split.
  { split; [intros ->; destruct Hp as (k & _ & Hz); rewrite Hpass in Hz; by apply Hnone|].
    intros Hall. destruct pick as [p|]; [|done]. destruct Hp as (Hin & _). by destruct (Hall _ Hin); apply Hsome. }
  intros p Hpe. split; [by apply Hsome|]. subst pick. destruct Hp as (Hin & _ & Hm). split.
  - split; [done|]. intros Elb. unfold pick_dispatch_passes in E.
    rewrite Elb, (Hpass 1%nat), (Hpass 2%nat), (Hpass 3%nat) in E.
    destruct (least_request_quiescent fuel (passes 0%nat) (ep_instances ep) heap rr rng) as (pick' & rng'' & E' & Hq); [done..|].
    rewrite E' in E. injection E as -> _ _. by destruct Hq as (_ & _ & ? & _).
  - intros table h idx x Elb -> Hlk Hx Hs%is_eligible_spec. unfold pick_dispatch_passes in E.
    rewrite Elb, (Hpass 1%nat), (Hpass 2%nat) in E.
    rewrite (maglev_affinity table (passes 0%nat) _ h idx x rr Hlk Hx Hs) in E. by injection E as <-.
Qed.

Definition demo_health : HealthConfig := mkHealth (bs "/") 2000 1000 2 3 None.
Definition demo_heap : Heap :=
  <[0%nat := set_in_flight (probe (inst_new (bs "a") 1 demo_health) true) 5]>
  (<[1%nat := probe (inst_new (bs "b") 1 demo_health) true]>
  (<[2%nat := inst_new (bs "c") 1 demo_health]> ∅)).

(** The two healthy instances swap their health between the count and the capture: the least-request
    capture misses, and the rotation serves the one that recovered. *)
Definition demo_flipped : Heap := <[0%nat := inst_new (bs "a") 1 demo_health]> demo_heap.

Lemma pick_serves_eligible_witness :
  let view := fun k => match k with O => demo_heap | _ => demo_flipped end in
  exists p rr' rng',
    pick_dispatch_passes 3 (mkEndpoints [0; 1; 2]%nat LbLeastRequest) (fun k => is_eligible false 0 None (view k))
      demo_heap None 0 1 = Some (Some p, rr', rng') /\ pk_instance p = 1%nat /\
    exists k, k ∈ [1; 3]%nat /\ can_serve false 0 None (view k) (pk_instance p).
Proof.
  cbv zeta.
  destruct (pick_serves_eligible 3 (mkEndpoints [0; 1; 2]%nat LbLeastRequest) false None (fun _ => 0)
    (fun k => match k with O => demo_heap | _ => demo_flipped end) demo_heap None 0 1) as (pick & rr' & rng' & E & Hp & _);
    [lia|vm_compute; split; congruence|cbn; lia|cbn; lia|].
  destruct pick as [p|].
  - exists p, rr', rng'. split; [exact E|]. split; [|exact (proj2 Hp)]. vm_compute in E. by injection E as <- _ _.
  - vm_compute in E. discriminate E.
Defined.

(** While eligibility and the cursor's word stand still, the rotation is exactly fair: any
    [k] turns of as many picks as there are eligible instances serve each of them [k] times,
    whatever ineligible instances sit between them. *)
Theorem round_robin_fair (e : nat -> bool) (ids : list nat) (rr : Z) (k : nat) :
  0 <= rr -> rr + Z.of_nat (k * eligible_count e ids) < 2 ^ 64 ->
  rr_run (k * eligible_count e ids) e ids rr ≡ₚ
  concat (replicate k (map (fun x => Some (unmetered x)) (List.filter e ids))).
Proof.
  intros Hr. revert rr Hr. induction k as [|k IH]; intros rr Hr Hw; [done|].
  cbn [Nat.mul replicate concat] in *.
  destruct (decide (eligible_count e ids = 0%nat)) as [Hz|Hz].
  { rewrite Hz, Nat.mul_0_r in *. cbn [rr_run Nat.add].
    unfold eligible_count in Hz. rewrite (nil_length_inv _ Hz). cbn [map app].
    rewrite (nil_length_inv _ Hz) in IH. apply (IH rr Hr). lia. }
  rewrite rr_run_app by lia. rewrite rr_run_turn by lia. apply Permutation_app_head.
  apply IH; lia.
Qed.

Lemma round_robin_fair_witness :
  rr_run 4 (is_eligible false 0 None demo_heap) [0; 1; 2]%nat 7 ≡ₚ
  map Some (map unmetered [0; 1; 0; 1]%nat).
Proof.
  exact (round_robin_fair (is_eligible false 0 None demo_heap) [0; 1; 2]%nat 7 2
    ltac:(lia) ltac:(vm_compute; reflexivity)).
Defined.

(** With two or more eligible instances the least-request pick never chooses the one whose
    load per weight is above every other's: some other eligible instance was no less loaded. *)
Theorem least_request_avoids_most_loaded (fuel : nat) (e : nat -> bool) (ids : list nat)
    (heap : Heap) (rr rng : Z) :
  0 <= rr -> is_u64 rng -> Z.of_nat (length ids) < 2 ^ 32 -> (length ids <= fuel)%nat ->
  NoDup ids -> (forall x, x ∈ ids -> is_Some (heap !! x)) -> (2 <= eligible_count e ids)%nat ->
  exists p rng' x ip ix,
    least_request_pick fuel e e e e ids heap rr rng = Some (Some p, rr, rng') /\
    x ∈ ids /\ e x = true /\ x <> pk_instance p /\
    heap !! pk_instance p = Some ip /\ heap !! x = Some ix /\
    (i_in_flight ip + 1) * i_weight ix <= (i_in_flight ix + 1) * i_weight ip.
Proof.
  intros Hr Hrng Hl Hf Hnd Hheap Hn.
  destruct (least_request_quiescent fuel e ids heap rr rng Hr Hrng Hl Hf) as (pick & rng' & E & Hp).
  destruct pick as [p|]; [|lia]. destruct Hp as (Hin & He & _ & Hother).
  destruct (Hother Hn) as (j & k & x & Hjk & Hj & Hk & Hload).
  destruct (filter_in _ _ _ _ Hk) as [Hxin Hxe].
  destruct (Hheap _ Hin) as [ip Hip], (Hheap _ Hxin) as [ix Hix].
  exists p, rng', x, ip, ix. split_and!; try done.
  - intros ->. apply Hjk. assert (Hndf : List.NoDup (List.filter e ids))
      by (apply List.NoDup_filter; by apply NoDup_ListNoDup).
    apply NoDup_ListNoDup in Hndf. by eapply NoDup_lookup.
  - unfold lower_load in Hload. rewrite Hip, Hix in Hload.
    rewrite Z.leb_le, Z.leb_gt in Hload. lia.
Qed.

Lemma least_request_avoids_most_loaded_witness :
  exists p rng', least_request_pick 3 (is_eligible false 0 None demo_heap)
    (is_eligible false 0 None demo_heap) (is_eligible false 0 None demo_heap)
    (is_eligible false 0 None demo_heap) [0; 1; 2]%nat demo_heap 0 1 = Some (Some p, 0, rng').
Proof.
  destruct (least_request_avoids_most_loaded 3 (is_eligible false 0 None demo_heap) [0; 1; 2]%nat
    demo_heap 0 1) as (p & rng' & x & ip & ix & E & _).
  - lia.
  - vm_compute. split; congruence.
  - cbn. lia.
  - cbn. lia.
  - apply (bool_decide_unpack _). vm_compute. exact I.
  - intros x Hx. apply list_elem_of_In in Hx. cbn in Hx.
    decompose [or] Hx; subst; try contradiction; (eexists; vm_compute; reflexivity).
  - vm_compute. lia.
  - exists p, rng'. exact E.
Defined.

(** The load a least-request pick reads is real: with requests taking and dropping picks in
    any order, over retries and early exits, each instance's counter is the number of live
    metered picks on it. *)
Theorem load_is_live_picks (heap heap' : Heap) (live : list Pick) :
  (forall id i, heap !! id = Some i -> i_in_flight i = 0) ->
  rtc load_step (heap, []) (heap', live) -> Z.of_nat (length live) < 2 ^ 64 ->
  forall id i, heap' !! id = Some i -> i_in_flight i = live_on id live.
Proof.
  intros H0 Hr Hlen id i Hi.
  assert (Hok : load_ok (heap', live)).
  { remember (heap, []) as s0 eqn:E0. remember (heap', live) as s1 eqn:E1.
    assert (Hs0 : load_ok s0) by (subst; intros x ix Hx; cbn in *; by apply H0 in Hx).
    clear E0 E1. induction Hr as [|x y z Hxy _ IH]; [done|].
    apply IH. by apply (load_step_ok x). }
  rewrite (Hok id i Hi). cbn [snd]. apply Z.mod_small. unfold live_on.
  assert (Hb : 0 <= sumZ (map (fun p => if metered_on id p then 1 else 0) live)
    <= Z.of_nat (length live)).
  { clear. induction live as [|p l IH]; cbn [map sumZ length]; [lia|].
    destruct (metered_on id p); lia. }
  lia.
Qed.

(** One metered pick taken on a fresh instance. *)
Definition demo_load_heap : Heap := {[ 0%nat := inst_new (bs "a") 1 demo_health ]}.

Lemma load_is_live_picks_witness :
  i_in_flight <$> take_pick demo_load_heap (metered 0) !! 0%nat = Some 1.
Proof.
  destruct (take_pick demo_load_heap (metered 0) !! 0%nat) as [i|] eqn:E; [|discriminate E].
  cbn [fmap option_fmap option_map]. f_equal.
  refine (load_is_live_picks demo_load_heap _ [metered 0] _ _ _ 0%nat i E).
  - intros id j Hj. unfold demo_load_heap in Hj. apply lookup_singleton_Some in Hj.
    destruct Hj as [_ <-]. reflexivity.
  - apply rtc_once. exact (LoadTake demo_load_heap [] (metered 0)).
  - cbn. lia.
Defined.
