(* ===== verification/Registry.v ===== *)
(** * The upstream registry (control/src/upstream/registry.rs, mod.rs)

    The live set of upstream groups, reconciled to a manifest on every reload, and the
    endpoint swap of periodic DNS resolution.  Building a TLS client from its files and
    parsing a server name are the TLS library's and are parameters. *)

From S2P Require Import Prelude Bytes Manifest Upstream Balancer.

(** [ClientConfig] and [ServerName] of the TLS library. *)
Record Group (C SN : Type) := mkGroup {
  g_name : bytes;
  g_health : HealthConfig;
  g_endpoints : Endpoints;
  g_configured : list (bytes * Z);
  g_resolve_interval : Z;
  g_lb_algorithm : LbAlgorithm;
  g_maglev_table_size : Z;
  g_request_timeout : Z;
  g_overall_timeout : Z;
  g_max_retries : Z;
  g_rr : Z;
  g_max_requests : Z;
  g_in_flight : Z;
  g_outlier : OutlierPolicy;
  g_hash_key : option HashKeySource;
  g_tls_manifest : option UpstreamTls;
  g_tls_client : option C;
  g_tls_sni : option SN;
}.
Arguments mkGroup {C SN}.
Arguments g_name {C SN}.
Arguments g_health {C SN}.
Arguments g_endpoints {C SN}.
Arguments g_configured {C SN}.
Arguments g_resolve_interval {C SN}.
Arguments g_lb_algorithm {C SN}.
Arguments g_maglev_table_size {C SN}.
Arguments g_request_timeout {C SN}.
Arguments g_overall_timeout {C SN}.
Arguments g_max_retries {C SN}.
Arguments g_rr {C SN}.
Arguments g_max_requests {C SN}.
Arguments g_in_flight {C SN}.
Arguments g_outlier {C SN}.
Arguments g_hash_key {C SN}.
Arguments g_tls_manifest {C SN}.
Arguments g_tls_client {C SN}.
Arguments g_tls_sni {C SN}.

(** The store of instances, with the next identity to allocate. *)
Record Store := mkStore { sto_heap : Heap; sto_next : nat }.

Definition matches (heap : Heap) (address : bytes) (weight : Z) (id : nat) : bool :=
  match heap !! id with
  | Some i => bytes_eqb (i_address i) address && (i_weight i =? weight)
  | None => false
  end.

(** Reuse the identity of an unchanged pair, or allocate a pessimistic instance. *)
Fixpoint reuse_or_new (health : HealthConfig) (current : list nat) (pairs : list (bytes * Z))
    (s : Store) : list nat * Store :=
  match pairs with
  | [] => ([], s)
  | (address, weight) :: rest =>
    match List.find (matches (sto_heap s) address weight) current with
    | Some id => let '(ids, s) := reuse_or_new health current rest s in (id :: ids, s)
    | None =>
      let id := sto_next s in
      let s := mkStore (<[id := inst_new address weight health]> (sto_heap s)) (S id) in
      let '(ids, s) := reuse_or_new health current rest s in (id :: ids, s)
    end
  end.

Inductive ReconcileError :=
| EmptyUpstreamAddresses (name : bytes)
| DuplicateUpstream (name : bytes)
| InvalidUpstreamLb (name : bytes) (reason : LbReason)
| TlsBuildFailed (name : bytes)
| SniInvalid (name : bytes).

Section registry.
Context {C SN : Type} (build_client : bytes -> UpstreamTls -> option C)
  (parse_sni : bytes -> bytes -> option SN).

Abbreviation Groups := (gmap bytes (Group C SN)).

(** ** Group operations *)

Definition scheme (g : Group C SN) : bytes :=
  match g_tls_client g with Some _ => bs "https" | None => bs "http" end.

Definition resolve_interval (g : Group C SN) : option Z :=
  if g_resolve_interval g =? 0 then None else Some (g_resolve_interval g).

Definition set_endpoints (g : Group C SN) (ep : Endpoints) : Group C SN :=
  mkGroup (g_name g) (g_health g) ep (g_configured g) (g_resolve_interval g)
    (g_lb_algorithm g) (g_maglev_table_size g) (g_request_timeout g) (g_overall_timeout g)
    (g_max_retries g) (g_rr g) (g_max_requests g) (g_in_flight g) (g_outlier g) (g_hash_key g)
    (g_tls_manifest g) (g_tls_client g) (g_tls_sni g).

Definition unchanged (heap : Heap) (ids : list nat) (resolved : list (bytes * Z)) : bool :=
  (length ids =? length resolved)%nat
  && forallb (fun x => matches heap (fst (snd x)) (snd (snd x)) (fst x)) (zip ids resolved).

Definition update_endpoints (g : Group C SN) (resolved : list (bytes * Z)) (s : Store)
    : bool * Group C SN * Store :=
  if bool_decide (resolved = []) then (false, g, s)
  else
    let current := ep_instances (g_endpoints g) in
    if unchanged (sto_heap s) current resolved then (false, g, s)
    else
      let '(instances, s) := reuse_or_new (g_health g) current resolved s in
      (true, set_endpoints g (endpoints_build (sto_heap s) instances (g_lb_algorithm g)
               (g_maglev_table_size g)), s).

(** ** Reconcile *)

Fixpoint validate_all (seen : gset bytes) (upstreams : list Upstream) : result unit ReconcileError :=
  match upstreams with
  | [] => Ok tt
  | up :: rest =>
    if bool_decide (up_addresses up = []) then Err (EmptyUpstreamAddresses (up_name up))
    else if bool_decide (up_name up ∈ seen) then Err (DuplicateUpstream (up_name up))
    else
      match validate_lb up with
      | Err reason => Err (InvalidUpstreamLb (up_name up) reason)
      | Ok _ => validate_all ({[ up_name up ]} ∪ seen) rest
      end
  end.

Definition tls_for (groups : Groups) (up : Upstream)
    : result (option C * option SN) ReconcileError :=
  let client :=
    match up_tls up with
    | None => Ok None
    | Some tls =>
      let reusable :=
        match groups !! up_name up with
        | Some g => if bool_decide (g_tls_manifest g = Some tls) then g_tls_client g else None
        | None => None
        end in
      match reusable with
      | Some cfg => Ok (Some cfg)
      | None =>
        match build_client (up_name up) tls with
        | Some cfg => Ok (Some cfg)
        | None => Err (TlsBuildFailed (up_name up))
        end
      end
    end in
  match client with
  | Err e => Err e
  | Ok client =>
    match match up_tls up with Some tls => tls_sni_name tls | None => None end with
    | None => Ok (client, None)
    | Some sni =>
      match parse_sni (up_name up) sni with
      | Some name => Ok (client, Some name)
      | None => Err (SniInvalid (up_name up))
      end
    end
  end.

Fixpoint tls_all (groups : Groups) (upstreams : list Upstream)
    : result (list (option C * option SN)) ReconcileError :=
  match upstreams with
  | [] => Ok []
  | up :: rest =>
    match tls_for groups up with
    | Err e => Err e
    | Ok t => match tls_all groups rest with Err e => Err e | Ok ts => Ok (t :: ts) end
    end
  end.

Definition configured_of (up : Upstream) : list (bytes * Z) :=
  map (fun spec => (spec_address spec, spec_weight spec)) (up_addresses up).

Definition table_size_of (up : Upstream) : Z :=
  match up_hash up with Some h => hc_table_size h | None => default_hash_table_size end.

Definition hash_key_of (up : Upstream) : option HashKeySource :=
  match up_hash up with
  | None => None
  | Some h =>
    Some match hc_key h with
         | KeyHeader => SourceHeader (to_ascii_lowercase (default [] (hc_header h)))
         | KeySourceIp => SourceIp
         end
  end.

(** The prior group whose instances may be reused. *)
Definition reusable_group (groups : Groups) (up : Upstream) : option (Group C SN) :=
  match groups !! up_name up with
  | Some g =>
    if bool_decide (g_health g = up_health up) && bool_decide (g_tls_manifest g = up_tls up)
    then Some g else None
  | None => None
  end.

(** A resolving group whose declaration is unchanged keeps its current endpoints. *)
Definition carries (up : Upstream) (g : Group C SN) : bool :=
  negb (up_resolve_interval_ms up =? 0) && negb (g_resolve_interval g =? 0)
  && bool_decide (g_configured g = configured_of up)
  && bool_decide (g_lb_algorithm g = up_lb_algorithm up)
  && (g_maglev_table_size g =? table_size_of up).

Definition build_endpoints (prev : option (Group C SN)) (up : Upstream) (s : Store)
    : Endpoints * Store :=
  match match prev with Some g => if carries up g then Some (g_endpoints g) else None
        | None => None end with
  | Some current => (current, s)
  | None =>
    let current := match prev with Some g => ep_instances (g_endpoints g) | None => [] end in
    let '(instances, s) := reuse_or_new (up_health up) current (configured_of up) s in
    (endpoints_build (sto_heap s) instances (up_lb_algorithm up) (table_size_of up), s)
  end.

Definition build_group (groups : Groups) (up : Upstream) (tls : option C * option SN) (s : Store)
    : Group C SN * Store :=
  let prev := reusable_group groups up in
  let '(endpoints, s) := build_endpoints prev up s in
  let rr := match groups !! up_name up with Some g => g_rr g | None => 0 end in
  (mkGroup (up_name up) (up_health up) endpoints (configured_of up)
     (up_resolve_interval_ms up) (up_lb_algorithm up) (table_size_of up)
     (up_request_timeout_ms up) (up_overall_timeout_ms up) (up_max_retries up) rr
     (up_max_requests up) 0
     (mkPolicy (od_consecutive_gateway_failures (up_outlier up))
        (od_base_ejection_time_ms (up_outlier up)) (od_max_ejection_percent (up_outlier up)))
     (hash_key_of up) (up_tls up) (fst tls) (snd tls), s).

Fixpoint build_all (groups : Groups) (ups : list (Upstream * (option C * option SN)))
    (next : Groups) (s : Store) : Groups * Store :=
  match ups with
  | [] => (next, s)
  | (up, tls) :: rest =>
    let '(g, s) := build_group groups up tls s in
    build_all groups rest (<[up_name up := g]> next) s
  end.

Definition reconcile (upstreams : list Upstream) (groups : Groups) (s : Store)
    : result unit ReconcileError * Groups * Store :=
  match validate_all ∅ upstreams with
  | Err e => (Err e, groups, s)
  | Ok _ =>
    match tls_all groups upstreams with
    | Err e => (Err e, groups, s)
    | Ok tls =>
      let '(next, s) := build_all groups (zip upstreams tls) ∅ s in (Ok tt, next, s)
    end
  end.
End registry.

(** ** Lemmas: the store *)

Definition store_wf (s : Store) : Prop := forall id, (sto_next s <= id)%nat -> sto_heap s !! id = None.

(** An instance serves an address and weight. *)
Definition serves_pair (i : Inst) (pair : bytes * Z) : Prop :=
  i_address i = fst pair /\ i_weight i = snd pair.

(** Of a list of identities, none serves the pair. *)
Definition none_serves (heap : Heap) (pair : bytes * Z) (ids : list nat) : Prop :=
  forall id i, id ∈ ids -> heap !! id = Some i -> ~ serves_pair i pair.

(** A new instance: not healthy, never seen healthy, no load, no ejection, the thresholds of the
    declared policy. *)
Definition pessimistic (health : HealthConfig) (i : Inst) : Prop :=
  i_healthy i = false /\ i_ever_healthy i = false /\ i_in_flight i = 0 /\
  i_consecutive_ok i = 0 /\ i_consecutive_fail i = 0 /\ i_consecutive_gw_fail i = 0 /\
  i_outlier_eject_count i = 0 /\ i_outlier_ejected_until_ms i = 0 /\
  i_healthy_threshold i = Z.max (hl_healthy_threshold health) 1 /\
  i_unhealthy_threshold i = Z.max (hl_unhealthy_threshold health) 1.

(** What one pair's identity stands for after the reuse: the first instance of [current] with
    that address and weight, untouched, or, where none has them, a pessimistic instance the
    old store did not have. *)
Definition kept_or_fresh (health : HealthConfig) (heap heap' : Heap) (current : list nat)
    (pair : bytes * Z) (id : nat) : Prop :=
  exists i, heap' !! id = Some i /\ serves_pair i pair /\
    ((exists before after, current = before ++ id :: after /\ heap !! id = Some i /\
        none_serves heap pair before) \/
     (none_serves heap pair current /\ heap !! id = None /\ pessimistic health i)).

Lemma matches_true heap a w id :
  matches heap a w id = true <-> exists i, heap !! id = Some i /\ serves_pair i (a, w).
Proof.
  unfold matches, serves_pair, bytes_eqb. cbn [fst snd]. split.
  - destruct (heap !! id) as [i|]; [|done]. intros [Ha Hw]%andb_true_iff.
    apply bool_decide_eq_true in Ha. apply Z.eqb_eq in Hw. eauto.
  - intros (i & -> & -> & ->). by rewrite bool_decide_true, Z.eqb_refl by done.
Qed.

Lemma matches_false heap a w ids :
  (forall id, id ∈ ids -> matches heap a w id = false) -> none_serves heap (a, w) ids.
Proof.
  intros H id i Hin Hi Hs. enough (matches heap a w id = true) by (rewrite H in *; done).
  apply matches_true. eauto.
Qed.

Lemma find_none_serves heap a w ids :
  List.find (matches heap a w) ids = None -> none_serves heap (a, w) ids.
Proof.
  intros H. apply matches_false. intros id Hin. eapply find_none; [exact H|]. by apply list_elem_of_In.
Qed.

Lemma find_first_serves heap a w ids id : List.find (matches heap a w) ids = Some id ->
  exists before after i, ids = before ++ id :: after /\ heap !! id = Some i /\ serves_pair i (a, w) /\
    none_serves heap (a, w) before.
Proof.
  induction ids as [|x ids IH]; cbn [List.find]; [done|].
  destruct (matches heap a w x) eqn:Em.
  - intros [= ->]. apply matches_true in Em as (i & Hi & Hs). exists [], ids, i. split_and!; try done.
    intros y j Hy. by apply elem_of_nil in Hy.
  - intros (before & after & i & -> & Hi & Hs & Hn)%IH. exists (x :: before), after, i.
    split_and!; try done. intros y j [->|Hy]%elem_of_cons; [|by eapply Hn].
    intros Hj Hs'. enough (matches heap a w x = true) by congruence. apply matches_true. eauto.
Qed.

Lemma none_serves_grow heap heap' pair ids : heap ⊆ heap' ->
  none_serves heap' pair ids -> none_serves heap pair ids.
Proof. intros Hsub H id i Hin Hi. eapply H; [done|by eapply lookup_weaken]. Qed.

Lemma store_alloc s i : store_wf s ->
  store_wf (mkStore (<[sto_next s := i]> (sto_heap s)) (S (sto_next s))) /\
  sto_heap s ⊆ <[sto_next s := i]> (sto_heap s).
Proof.
  intros Hw. split.
  - intros id Hid. cbn [sto_heap sto_next] in *. rewrite lookup_insert_ne by lia. apply Hw. lia.
  - apply insert_subseteq, Hw. lia.
Qed.

Lemma kept_or_fresh_grow health heap1 heap heap2 heap3 current pair id :
  heap1 ⊆ heap -> heap2 ⊆ heap3 -> (forall x, x ∈ current -> is_Some (heap1 !! x)) ->
  kept_or_fresh health heap heap2 current pair id ->
  kept_or_fresh health heap1 heap3 current pair id.
Proof.
  intros H1 H2 Hin (i & Hi & Hs & Hm). exists i.
  split_and!; [by eapply lookup_weaken|done|].
  destruct Hm as [(before & after & -> & Hid & Hn)|(Hn & Hid & Hp)].
  - left. exists before, after. split_and!; [done| |by eapply none_serves_grow].
    destruct (Hin id) as [j Hj]; [set_solver|].
    pose proof (lookup_weaken _ _ _ _ Hj H1). congruence.
  - right. split_and!; [by eapply none_serves_grow| |done].
    destruct (heap1 !! id) as [j|] eqn:Ej; [|done].
    pose proof (lookup_weaken _ _ _ _ Ej H1). congruence.
Qed.

Lemma inst_new_pessimistic address weight health : pessimistic health (inst_new address weight health).
Proof. done. Qed.

Lemma reuse_or_new_spec health current pairs : forall s ids s',
  store_wf s -> (forall x, x ∈ current -> is_Some (sto_heap s !! x)) ->
  Forall (fun p => 1 <= snd p) pairs ->
  reuse_or_new health current pairs s = (ids, s') ->
  store_wf s' /\ sto_heap s ⊆ sto_heap s' /\
  Forall2 (kept_or_fresh health (sto_heap s) (sto_heap s') current) pairs ids.
Proof.
  induction pairs as [|[a w] pairs IH]; intros s ids s' Hw Hin Hp; cbn [reuse_or_new].
  { intros [= <- <-]. done. }
  apply Forall_cons in Hp as [Hw1 Hp]. cbn [snd] in Hw1.
  destruct (List.find (matches (sto_heap s) a w) current) as [id0|] eqn:Ef.
  - destruct (reuse_or_new health current pairs s) as [ids1 s1] eqn:Er. intros [= <- <-].
    destruct (IH s ids1 s1 Hw Hin Hp Er) as (Hw' & Hsub & Hall). split_and!; [done|done|].
    constructor; [|done]. destruct (find_first_serves _ _ _ _ _ Ef) as (before & after & i & -> & Hi & Hs & Hn).
    exists i. split_and!; [by eapply lookup_weaken|done|]. left. by exists before, after.
  - set (s0 := mkStore _ _). destruct (reuse_or_new health current pairs s0) as [ids1 s1] eqn:Er.
    intros [= <- <-]. destruct (store_alloc s (inst_new a w health) Hw) as [Hw0 Hsub0].
    assert (Hin0 : forall x, x ∈ current -> is_Some (sto_heap s0 !! x)).
    { intros x Hx. destruct (Hin x Hx) as [i Hi]. exists i. by eapply lookup_weaken. }
    destruct (IH s0 ids1 s1 Hw0 Hin0 Hp Er) as (Hw' & Hsub & Hall).
    split_and!; [done|by trans (sto_heap s0)|]. constructor.
    + exists (inst_new a w health). split_and!.
      * eapply lookup_weaken; [|exact Hsub]. cbn [s0 sto_heap]. apply lookup_insert_eq.
      * split; [done|]. cbn [inst_new i_weight snd]. lia.
      * right. split_and!; [by apply find_none_serves|apply Hw; lia|apply inst_new_pessimistic].
    + eapply Forall2_impl; [exact Hall|]. intros pair id.
      by apply kept_or_fresh_grow.
Qed.

(** ** Lemmas: reconcile *)

Section reconcile_lemmas.
Context {C SN : Type}.

Definition groups_wf (groups : gmap bytes (Group C SN)) (s : Store) : Prop :=
  forall name g id, groups !! name = Some g -> id ∈ ep_instances (g_endpoints g) ->
    is_Some (sto_heap s !! id).

Lemma groups_wf_grow groups s s' : groups_wf groups s -> sto_heap s ⊆ sto_heap s' ->
  groups_wf groups s'.
Proof.
  intros Hg Hsub name g id Hn Hid. destruct (Hg name g id Hn Hid) as [i Hi]. exists i.
  by eapply lookup_weaken.
Qed.

(** A group of the same name probed under the same policy and TLS configuration: its probe
    results still mean something for the declaration. *)
Definition same_context (up : Upstream) (old : Group C SN) : Prop :=
  g_health old = up_health up /\ g_tls_manifest old = up_tls up.

(** A group resolved by DNS, before and after, from the same declaration. *)
Definition same_resolution (up : Upstream) (old : Group C SN) : Prop :=
  up_resolve_interval_ms up <> 0 /\ g_resolve_interval old <> 0 /\
  g_configured old = map (fun spec => (spec_address spec, spec_weight spec)) (up_addresses up) /\
  g_lb_algorithm old = up_lb_algorithm up /\
  g_maglev_table_size old = match up_hash up with Some h => hc_table_size h | None => 65537 end.

(** The endpoints built from the declared addresses, reusing what [current] offers. *)
Definition declared_endpoints (up : Upstream) (heap heap' : Heap) (current : list nat)
    (endpoints : Endpoints) : Prop :=
  Forall2 (kept_or_fresh (up_health up) heap heap' current)
    (map (fun spec => (spec_address spec, spec_weight spec)) (up_addresses up))
    (ep_instances endpoints) /\
  endpoints = endpoints_build heap' (ep_instances endpoints) (up_lb_algorithm up)
    match up_hash up with Some h => hc_table_size h | None => 65537 end.

(** The endpoints a reload gives an upstream: those of the previous group as they are, those
    declared with the previous group's instances reused, or new ones. *)
Definition endpoints_for (groups : gmap bytes (Group C SN)) (up : Upstream) (heap heap' : Heap)
    (endpoints : Endpoints) : Prop :=
  (forall old, groups !! up_name up = Some old -> same_context up old ->
    (same_resolution up old -> endpoints = g_endpoints old) /\
    (~ same_resolution up old ->
       declared_endpoints up heap heap' (ep_instances (g_endpoints old)) endpoints)) /\
  ((forall old, groups !! up_name up = Some old -> ~ same_context up old) ->
    declared_endpoints up heap heap' [] endpoints).

(** The group a reload builds for an upstream. *)
Definition group_for (groups : gmap bytes (Group C SN)) (up : Upstream) (heap heap' : Heap)
    (g : Group C SN) : Prop :=
  g_name g = up_name up /\ g_health g = up_health up /\ g_tls_manifest g = up_tls up /\
  g_configured g = map (fun spec => (spec_address spec, spec_weight spec)) (up_addresses up) /\
  g_resolve_interval g = up_resolve_interval_ms up /\ g_lb_algorithm g = up_lb_algorithm up /\
  g_request_timeout g = up_request_timeout_ms up /\
  g_overall_timeout g = up_overall_timeout_ms up /\ g_max_retries g = up_max_retries up /\
  g_max_requests g = up_max_requests up /\ g_in_flight g = 0 /\
  g_rr g = match groups !! up_name up with Some old => g_rr old | None => 0 end /\
  endpoints_for groups up heap heap' (g_endpoints g).

(** The identities a previous group offers. *)
Definition previous_ids (groups : gmap bytes (Group C SN)) (up : Upstream) : list nat :=
  match groups !! up_name up with Some g => ep_instances (g_endpoints g) | None => [] end.

Lemma previous_ids_in groups up s x : groups_wf groups s -> x ∈ previous_ids groups up ->
  is_Some (sto_heap s !! x).
Proof.
  unfold previous_ids. intros Hg Hx.
  destruct (groups !! up_name up) as [old|] eqn:E; [by eapply Hg|by apply elem_of_nil in Hx].
Qed.

Lemma reusable_group_some groups up old : reusable_group groups up = Some old <->
  groups !! up_name up = Some old /\ same_context up old.
Proof.
  unfold reusable_group, same_context. destruct (groups !! up_name up) as [g|]; [|naive_solver].
  repeat case_bool_decide; cbn; naive_solver.
Qed.

Lemma reusable_group_none groups up : reusable_group groups up = None ->
  forall old, groups !! up_name up = Some old -> ~ same_context up old.
Proof.
  intros H old Ho Hc. by rewrite (proj2 (reusable_group_some groups up old) (conj Ho Hc)) in H.
Qed.

Lemma carries_true up old : carries up old = true <-> same_resolution up old.
Proof.
  unfold carries, same_resolution, configured_of, table_size_of, default_hash_table_size.
  rewrite !andb_true_iff, !negb_true_iff, !Z.eqb_neq, Z.eqb_eq, !bool_decide_eq_true. tauto.
Qed.

Lemma kept_or_fresh_present health heap heap' current pairs ids :
  Forall2 (kept_or_fresh health heap heap' current) pairs ids ->
  forall id, id ∈ ids -> is_Some (heap' !! id).
Proof.
  intros H id [j Hj]%list_elem_of_lookup_1.
  destruct (Forall2_lookup_r _ _ _ _ _ H Hj) as (pair & _ & i & Hi & _). eauto.
Qed.

Lemma endpoints_build_grow heap heap' ids algorithm size : heap ⊆ heap' ->
  (forall id, id ∈ ids -> is_Some (heap !! id)) ->
  endpoints_build heap ids algorithm size = endpoints_build heap' ids algorithm size.
Proof.
  intros Hsub Hin. unfold endpoints_build.
  assert (E : map (inst_entry heap) ids = map (inst_entry heap') ids); [|by rewrite E].
  apply map_ext_in. intros id Hid%list_elem_of_In. unfold inst_entry.
  destruct (Hin id Hid) as [i Hi]. by rewrite Hi, (lookup_weaken _ _ _ _ Hi Hsub).
Qed.

Lemma declared_endpoints_grow up heap1 heap heap2 heap3 current endpoints :
  heap1 ⊆ heap -> heap2 ⊆ heap3 -> (forall x, x ∈ current -> is_Some (heap1 !! x)) ->
  declared_endpoints up heap heap2 current endpoints ->
  declared_endpoints up heap1 heap3 current endpoints.
Proof.
  intros H1 H2 Hin [Hall Hb]. split.
  - eapply Forall2_impl; [exact Hall|]. intros pair id. by apply kept_or_fresh_grow.
  - rewrite Hb at 1. apply endpoints_build_grow; [done|]. by eapply kept_or_fresh_present.
Qed.

Lemma endpoints_for_grow groups up heap1 heap heap2 heap3 endpoints :
  heap1 ⊆ heap -> heap2 ⊆ heap3 ->
  (forall x, x ∈ previous_ids groups up -> is_Some (heap1 !! x)) ->
  endpoints_for groups up heap heap2 endpoints -> endpoints_for groups up heap1 heap3 endpoints.
Proof.
  intros H1 H2 Hin [Hold Hnew]. split.
  - intros old Ho Hc. destruct (Hold old Ho Hc) as [Hk Hd]. split; [done|]. intros Hs.
    eapply declared_endpoints_grow; [done|done| |by apply Hd].
    unfold previous_ids in Hin. by rewrite Ho in Hin.
  - intros H. eapply declared_endpoints_grow; [done|done| |by apply Hnew].
    intros x Hx. by apply elem_of_nil in Hx.
Qed.

Lemma build_endpoints_spec groups up s endpoints s' :
  store_wf s -> groups_wf groups s -> Forall (fun p => 1 <= snd p) (configured_of up) ->
  build_endpoints (reusable_group groups up) up s = (endpoints, s') ->
  store_wf s' /\ sto_heap s ⊆ sto_heap s' /\
  endpoints_for groups up (sto_heap s) (sto_heap s') endpoints.
Proof.
  intros Hw Hg Hp. unfold build_endpoints.
  destruct (reusable_group groups up) as [old|] eqn:Eo.
  - apply reusable_group_some in Eo as [Ho Hc].
    destruct (carries up old) eqn:Ec.
    { intros [= <- <-]. split_and!; [done|done|]. split; [|by intros Hn; destruct (Hn old Ho)].
      intros old' Ho' _. simplify_eq. split; [done|]. by rewrite <- carries_true. }
    destruct (reuse_or_new _ _ _ s) as [ids s1] eqn:Er. intros [= <- <-].
    destruct (reuse_or_new_spec _ _ _ _ _ _ Hw (fun x => Hg _ _ x Ho) Hp Er) as (Hw' & Hsub & Hall).
    split_and!; [done|done|]. split; [|by intros Hn; destruct (Hn old Ho)].
    intros old' Ho' _. simplify_eq. rewrite <- carries_true. split; [congruence|]. done.
  - pose proof (reusable_group_none _ _ Eo) as Hn.
    destruct (reuse_or_new _ _ _ s) as [ids s1] eqn:Er. intros [= <- <-].
    assert (Hin : forall x, x ∈ ([] : list nat) -> is_Some (sto_heap s !! x))
      by (intros x Hx; by apply elem_of_nil in Hx).
    destruct (reuse_or_new_spec _ _ _ _ _ _ Hw Hin Hp Er) as (Hw' & Hsub & Hall).
    split_and!; [done|done|]. split; [by intros old Ho Hc; destruct (Hn old Ho)|]. done.
Qed.

Lemma build_group_spec groups up tls s g s' :
  store_wf s -> groups_wf groups s -> Forall (fun p => 1 <= snd p) (configured_of up) ->
  build_group groups up tls s = (g, s') ->
  store_wf s' /\ sto_heap s ⊆ sto_heap s' /\ group_for groups up (sto_heap s) (sto_heap s') g /\
  g_tls_client g = fst tls.
Proof.
  intros Hw Hg Hp. unfold build_group.
  destruct (build_endpoints _ up s) as [endpoints s1] eqn:Eb. intros [= <- <-].
  destruct (build_endpoints_spec _ _ _ _ _ Hw Hg Hp Eb) as (Hw' & Hsub & He).
  by split_and!.
Qed.

Lemma group_for_grow groups up heap1 heap heap2 heap3 g :
  heap1 ⊆ heap -> heap2 ⊆ heap3 ->
  (forall x, x ∈ previous_ids groups up -> is_Some (heap1 !! x)) ->
  group_for groups up heap heap2 g -> group_for groups up heap1 heap3 g.
Proof.
  unfold group_for. intros H1 H2 Hin H. decompose [and] H. split_and!; try done.
  by eapply endpoints_for_grow.
Qed.

Lemma build_all_spec groups ups : forall next s groups' s',
  store_wf s -> groups_wf groups s -> NoDup (map (fun x => up_name (fst x)) ups) ->
  Forall (fun x => Forall (fun p => 1 <= snd p) (configured_of (fst x))) ups ->
  build_all groups ups next s = (groups', s') ->
  store_wf s' /\ sto_heap s ⊆ sto_heap s' /\
  (forall name, name ∉ map (fun x => up_name (fst x)) ups -> groups' !! name = next !! name) /\
  (forall x, x ∈ ups -> exists g, groups' !! up_name (fst x) = Some g /\
     group_for groups (fst x) (sto_heap s) (sto_heap s') g /\ g_tls_client g = fst (snd x)).
Proof.
  induction ups as [|[up tls] ups IH]; intros next s groups' s' Hw Hg Hnd Hp; cbn [build_all].
  { intros [= <- <-]. split_and!; [done|done|done|]. intros x Hx. by apply elem_of_nil in Hx. }
  cbn [map fst] in Hnd. apply NoDup_cons in Hnd as [Hnin Hnd].
  apply Forall_cons in Hp as [Hp1 Hp]. cbn [fst] in Hp1.
  destruct (build_group groups up tls s) as [g s1] eqn:Eg. intros Er.
  destruct (build_group_spec _ _ _ _ _ _ Hw Hg Hp1 Eg) as (Hw1 & Hsub1 & Hgf & Hcl).
  destruct (IH _ _ _ _ Hw1 (groups_wf_grow _ _ _ Hg Hsub1) Hnd Hp Er) as (Hw' & Hsub & Hother & Hall).
  split_and!; [done|by trans (sto_heap s1)| |].
  - intros name Hn. cbn [map fst] in Hn. rewrite Hother by set_solver.
    apply lookup_insert_ne. set_solver.
  - intros x [->|Hx]%elem_of_cons.
    + exists g. cbn [fst]. rewrite Hother by done. split_and!; [apply lookup_insert_eq| |done].
      apply (group_for_grow _ _ _ (sto_heap s) (sto_heap s1)); [done|done| |done].
      intros y Hy. by eapply previous_ids_in.
    + destruct (Hall x Hx) as (g' & Hg' & Hgf' & Hcl'). exists g'. split_and!; [done| |done].
      apply (group_for_grow _ _ _ (sto_heap s1) (sto_heap s')); [done|done| |done].
      intros y Hy. by eapply previous_ids_in.
Qed.

Lemma validate_all_ok ups : forall seen, validate_all seen ups = Ok tt ->
  NoDup (map up_name ups) /\ Forall (fun up => up_name up ∉ seen) ups /\
  Forall (fun up => up_addresses up <> [] /\ validate_lb up = Ok tt) ups.
Proof.
  induction ups as [|up ups IH]; intros seen; cbn [validate_all map]; [by repeat constructor|].
  destruct (decide (up_addresses up = [])) as [|Ha]; [by rewrite bool_decide_true|].
  rewrite bool_decide_false by done.
  destruct (decide (up_name up ∈ seen)) as [|Hs]; [by rewrite bool_decide_true|].
  rewrite bool_decide_false by done.
  destruct (validate_lb up) as [[]|e] eqn:Ev; [|done]. intros H.
  destruct (IH _ H) as (Hnd & Hns & Hall). rewrite Forall_forall in Hns. split_and!.
  - constructor; [|done]. intros (x & Hx & Hin)%list_elem_of_fmap.
    apply (Hns x Hin). rewrite <- Hx. set_solver.
  - constructor; [done|]. apply Forall_forall. intros x Hx Hin. apply (Hns x Hx). set_solver.
  - by constructor.
Qed.

Lemma validated_weights up : validate_lb up = Ok tt ->
  Forall (fun s => 0 <= spec_weight s) (up_addresses up) ->
  Forall (fun p => 1 <= snd p) (configured_of up).
Proof.
  unfold validate_lb, configured_of. intros Hv Hpos. apply Forall_map.
  destruct (_ =? 0); [done|]. destruct (hl_timeout_ms _ =? 0); [done|].
  destruct (check_weights (up_addresses up)) as [[]|] eqn:Ew; [|done].
  apply check_weights_ok in Ew. rewrite Forall_forall in *.
  intros s Hs. specialize (Ew s Hs). specialize (Hpos s Hs). cbn. lia.
Qed.

(** The TLS client of a reloaded group: none without a section, the one already built while the
    section's text is the previous group's, else one built now. *)
Definition client_for (build_client : bytes -> UpstreamTls -> option C)
    (groups : gmap bytes (Group C SN)) (up : Upstream) (client : option C) : Prop :=
  match up_tls up with
  | None => client = None
  | Some tls =>
    is_Some client /\
    ((exists old, groups !! up_name up = Some old /\ g_tls_manifest old = Some tls /\
        client = g_tls_client old) \/ client = build_client (up_name up) tls) /\
    forall old, groups !! up_name up = Some old -> g_tls_manifest old <> Some tls ->
      client = build_client (up_name up) tls
  end.

Lemma tls_for_client (build_client : bytes -> UpstreamTls -> option C)
    (parse_sni : bytes -> bytes -> option SN) groups up t :
  tls_for build_client parse_sni groups up = Ok t -> client_for build_client groups up (fst t).
Proof.
  unfold tls_for, client_for. destruct (up_tls up) as [tls|]; [|by intros [= <-]].
  set (reusable := match groups !! up_name up with Some _ => _ | None => _ end).
  assert (Hr : forall cfg, reusable = Some cfg -> exists old, groups !! up_name up = Some old /\
    g_tls_manifest old = Some tls /\ g_tls_client old = Some cfg).
  { subst reusable. intros cfg. destruct (groups !! up_name up) as [old|]; [|done].
    case_bool_decide; [eauto|done]. }
  destruct reusable as [cfg|].
  - destruct (Hr cfg eq_refl) as (old & Ho & Hm & Hc).
    intros H. assert (fst t = Some cfg) as ->.
    { destruct (tls_sni_name tls) as [sni|]; [destruct (parse_sni _ sni)|]; simplify_eq; done. }
    split_and!; [done|left; exists old; by rewrite Hc|]. intros old' Ho' Hn. congruence.
  - destruct (build_client (up_name up) tls) as [cfg|]; [|done].
    intros H. assert (fst t = Some cfg) as ->.
    { destruct (tls_sni_name tls) as [sni|]; [destruct (parse_sni _ sni)|]; simplify_eq; done. }
    split_and!; [done|by right|done].
Qed.

Lemma tls_all_spec (build_client : bytes -> UpstreamTls -> option C)
    (parse_sni : bytes -> bytes -> option SN) groups ups : forall ts,
  tls_all build_client parse_sni groups ups = Ok ts ->
  Forall2 (fun up t => tls_for build_client parse_sni groups up = Ok t) ups ts.
Proof.
  induction ups as [|up ups IH]; intros ts; cbn [tls_all]; [by intros [= <-]|].
  destruct (tls_for build_client parse_sni groups up) eqn:E; [|done].
  destruct (tls_all _ _ _ _) as [l|]; [|done]. intros [= <-]. constructor; [done|by apply IH].
Qed.

Lemma tls_all_length (build_client : bytes -> UpstreamTls -> option C)
    (parse_sni : bytes -> bytes -> option SN) groups ups ts :
  tls_all build_client parse_sni groups ups = Ok ts -> length ts = length ups.
Proof. intros H%tls_all_spec. symmetry. exact (Forall2_length _ _ _ H). Qed.

Lemma reconciled_names (P : Upstream -> Group C SN -> Prop) (ups : list Upstream)
    (groups' : gmap bytes (Group C SN)) :
  (forall name, name ∉ map up_name ups -> groups' !! name = (∅ : gmap bytes (Group C SN)) !! name) ->
  (forall up, up ∈ ups -> exists g, groups' !! up_name up = Some g /\ P up g) ->
  forall name, is_Some (groups' !! name) <-> name ∈ map up_name ups.
Proof.
  intros Hother Hgroups name. split.
  - intros [g Hgn]. destruct (decide (name ∈ map up_name ups)) as [|Hn]; [done|].
    by rewrite (Hother name Hn) in Hgn.
  - intros (up & -> & Hup)%list_elem_of_fmap. destruct (Hgroups up Hup) as (g & -> & _). eauto.
Qed.

Lemma group_for_wf groups up s s' g : groups_wf groups s -> sto_heap s ⊆ sto_heap s' ->
  group_for groups up (sto_heap s) (sto_heap s') g ->
  forall id, id ∈ ep_instances (g_endpoints g) -> is_Some (sto_heap s' !! id).
Proof.
  unfold group_for. intros Hg Hsub H. decompose [and] H. clear H.
  match goal with He : endpoints_for _ _ _ _ _ |- _ => destruct He as [Hold Hnew] end.
  destruct (groups !! up_name up) as [old|] eqn:Eo.
  2:{ destruct Hnew as [Hall _]; [done|]. by eapply kept_or_fresh_present. }
  assert (Dc : same_context up old \/ ~ same_context up old)
    by (unfold same_context; destruct (decide (g_health old = up_health up)),
          (decide (g_tls_manifest old = up_tls up)); tauto).
  destruct Dc as [Hc|Hc].
  - destruct (Hold old eq_refl Hc) as [Hk Hd]. destruct (carries up old) eqn:Ec.
    + rewrite Hk by by apply carries_true. intros id Hid.
      destruct (Hg _ _ _ Eo Hid) as [i Hi]. exists i. by eapply lookup_weaken.
    + destruct Hd as [Hall _]; [rewrite <- carries_true; congruence|].
      by eapply kept_or_fresh_present.
  - destruct Hnew as [Hall _]; [by intros old' [= <-]|]. by eapply kept_or_fresh_present.
Qed.

Lemma reconciled_wf (P : Upstream -> Group C SN -> Prop) (ups : list Upstream) groups groups' s s' :
  groups_wf groups s -> sto_heap s ⊆ sto_heap s' ->
  (forall name, name ∉ map up_name ups -> groups' !! name = (∅ : gmap bytes (Group C SN)) !! name) ->
  (forall up, up ∈ ups -> exists g, groups' !! up_name up = Some g /\
     group_for groups up (sto_heap s) (sto_heap s') g /\ P up g) ->
  groups_wf groups' s'.
Proof.
  intros Hg Hsub Hother Hgroups name g id Hn Hid.
  assert (Hname : name ∈ map up_name ups)
    by (destruct (decide (name ∈ map up_name ups)) as [|Hx]; [done|by rewrite (Hother name Hx) in Hn]).
  apply list_elem_of_fmap in Hname as (up & -> & Hup).
  destruct (Hgroups up Hup) as (g' & Hg' & Hgf & _). simplify_eq. by eapply group_for_wf.
Qed.
End reconcile_lemmas.

(** ** Properties *)

(** C25: a reload is all or nothing and keeps what it need not rebuild.  A rejected manifest
    leaves groups and instances untouched.  An accepted one leaves exactly the declared groups
    with the declared settings, changes no instance it found, and carries each rotation cursor.
    A previous group lends its instances only when its health policy and its TLS section are
    the declared ones.  If both declarations also resolve by DNS with equal addresses, weights
    and balancing, its endpoints stay as they are; otherwise each declared address and weight,
    in order, is served by the first previous instance with that address and weight, untouched,
    else by a new pessimistic one.  Without such a group every instance is new.  A TLS client
    is kept only while its section is unchanged. *)
Theorem reconcile_keeps_health {C SN} (build_client : bytes -> UpstreamTls -> option C)
    (parse_sni : bytes -> bytes -> option SN) (ups : list Upstream)
    (groups : gmap bytes (Group C SN)) (s : Store) :
  store_wf s -> groups_wf groups s ->
  Forall (fun up => Forall (fun spec => 0 <= spec_weight spec) (up_addresses up)) ups ->
  match reconcile build_client parse_sni ups groups s with
  | (Err _, groups', s') => groups' = groups /\ s' = s
  | (Ok _, groups', s') =>
      store_wf s' /\ groups_wf groups' s' /\ sto_heap s ⊆ sto_heap s' /\
      (forall name, is_Some (groups' !! name) <-> name ∈ map up_name ups) /\
      forall up, up ∈ ups -> exists g, groups' !! up_name up = Some g /\
        group_for groups up (sto_heap s) (sto_heap s') g /\
        client_for build_client groups up (g_tls_client g)
  end.
Proof.
  intros Hw Hg Hpos. unfold reconcile.
  destruct (validate_all ∅ ups) as [[]|e] eqn:Ev; [|done].
  destruct (tls_all build_client parse_sni groups ups) as [ts|e] eqn:Et; [|done].
  destruct (build_all groups (zip ups ts) ∅ s) as [groups' s'] eqn:Eb.
  destruct (validate_all_ok ups ∅ Ev) as (Hnd & _ & Hval).
  apply tls_all_spec in Et as Hts. apply tls_all_length in Et as Hlen.
  assert (Hnames : map (fun x => up_name (fst x)) (zip ups ts) = map up_name ups).
  { rewrite <- (map_map fst up_name). f_equal. apply fst_zip. lia. }
  assert (Hin : forall up, up ∈ ups -> exists t, (up, t) ∈ zip ups ts /\
      client_for build_client groups up (fst t)).
  { intros up [i Hi]%list_elem_of_lookup_1.
    destruct (Forall2_lookup_l _ _ _ _ _ Hts Hi) as (t & Ht & Hfor). exists t.
    split; [|by eapply tls_for_client]. apply (list_elem_of_lookup_2 _ i).
    apply lookup_zip_with_Some. by exists up, t. }
  destruct (build_all_spec groups (zip ups ts) ∅ s groups' s' Hw Hg) as (Hw' & Hsub & Hother & Hall).
  { by rewrite Hnames. }
  { apply Forall_forall. intros [up t] Hx. apply elem_of_zip_l in Hx.
    rewrite Forall_forall in Hval, Hpos. cbn [fst].
    apply validated_weights; [by apply Hval|by apply Hpos]. }
  { done. }
  assert (Hgroups : forall up, up ∈ ups -> exists g, groups' !! up_name up = Some g /\
      group_for groups up (sto_heap s) (sto_heap s') g /\
      client_for build_client groups up (g_tls_client g)).
  { intros up Hup. destruct (Hin up Hup) as (t & Ht & Hc).
    destruct (Hall _ Ht) as (g & Hgn & Hgf & Hcl). exists g. cbn [fst snd] in *. by rewrite Hcl. }
  rewrite Hnames in Hother. split_and!; [done| |done| |done].
  - exact (reconciled_wf _ ups groups groups' s s' Hg Hsub Hother Hgroups).
  - exact (reconciled_names _ ups groups' Hother Hgroups).
Qed.

(** While a section's text is unchanged its client is the one built before, whatever the files it
    names have become: what would be built now plays no part. *)
Lemma unchanged_section_keeps_client {C SN : Type} (build_client : bytes -> UpstreamTls -> option C)
    (parse_sni : bytes -> bytes -> option SN) (groups : gmap bytes (Group C SN)) (up : Upstream) tls g cfg :
  up_tls up = Some tls -> groups !! up_name up = Some g -> g_tls_manifest g = Some tls -> g_tls_client g = Some cfg ->
  match tls_for build_client parse_sni groups up with
  | Ok (client, _) => client = Some cfg
  | Err e => e = SniInvalid (up_name up)
  end.
Proof.
  intros Ht Hg Hm Hc. unfold tls_for. rewrite Ht, Hg, Hm, Hc, bool_decide_eq_true_2 by done.
  destruct (tls_sni_name tls) as [sni|]; [|done]. by destruct (parse_sni _ sni).
Qed.

Definition sample_up (addresses : list AddressSpec) : Upstream :=
  mkUpstream (bs "api") addresses None RoundRobin None demo_health 0 30000 1 0 0
    (mkOutlier 0 30000 10).

Definition no_client : bytes -> UpstreamTls -> option unit := fun _ _ => None.
Definition no_sni : bytes -> bytes -> option unit := fun _ _ => None.

Definition first_reload :=
  reconcile no_client no_sni [sample_up [Bare (bs "a:1")]] ∅ (mkStore ∅ 0).

Definition second_reload :=
  reconcile no_client no_sni [sample_up [Bare (bs "b:1"); Bare (bs "a:1")]]
    (snd (fst first_reload)) (snd first_reload).

Lemma sample_weights addresses : Forall (fun up => Forall (fun spec => 0 <= spec_weight spec) (up_addresses up))
  [sample_up (map Bare addresses)].
Proof.
  apply Forall_singleton. cbn [sample_up up_addresses]. apply Forall_map, Forall_forall.
  intros a _. cbn. unfold default_instance_weight. lia.
Qed.

Lemma reconcile_keeps_health_witness :
  fst (fst second_reload) = Ok tt /\
  sto_heap (snd first_reload) ⊆ sto_heap (snd second_reload) /\
  option_map (fun g => ep_instances (g_endpoints g)) (snd (fst second_reload) !! bs "api")
    = Some [1; 0]%nat.
Proof.
  pose proof (reconcile_keeps_health no_client no_sni [sample_up [Bare (bs "a:1")]] ∅ (mkStore ∅ 0)
    (fun id _ => lookup_empty id)
    (fun name g id Hn _ => match eq_trans (eq_sym (lookup_empty name)) Hn with end)
    (sample_weights [bs "a:1"])) as H1.
  fold first_reload in H1.
  assert (Hr1 : fst (fst first_reload) = Ok tt) by (vm_compute; reflexivity).
  assert (Hr2 : fst (fst second_reload) = Ok tt) by (vm_compute; reflexivity).
  assert (Hwf : store_wf (snd first_reload) /\ groups_wf (snd (fst first_reload)) (snd first_reload)).
  { destruct first_reload as [[r groups] s1]. cbn [fst snd] in *. subst r.
    exact (conj (proj1 H1) (proj1 (proj2 H1))). }
  pose proof (reconcile_keeps_health no_client no_sni [sample_up [Bare (bs "b:1"); Bare (bs "a:1")]]
    (snd (fst first_reload)) (snd first_reload) (proj1 Hwf) (proj2 Hwf)
    (sample_weights [bs "b:1"; bs "a:1"])) as H2.
  fold second_reload in H2. split; [exact Hr2|]. split; [|vm_compute; reflexivity].
  destruct second_reload as [[r groups] s2]. cbn [fst snd] in *. subst r.
  exact (proj1 (proj2 (proj2 H2))).
Defined.

(** An empty resolution keeps the endpoints, an unchanged one swaps nothing, and a changed one
    keeps the matching instances and adds pessimistic ones. *)
Lemma update_endpoints_keeps {C SN} (g : Group C SN) resolved s :
  store_wf s -> (forall x, x ∈ ep_instances (g_endpoints g) -> is_Some (sto_heap s !! x)) ->
  Forall (fun p => 1 <= snd p) resolved ->
  let '(changed, g', s') := update_endpoints g resolved s in
  sto_heap s ⊆ sto_heap s' /\ store_wf s' /\
  if changed
  then Forall2 (kept_or_fresh (g_health g) (sto_heap s) (sto_heap s') (ep_instances (g_endpoints g)))
         resolved (ep_instances (g_endpoints g'))
  else g' = g /\ s' = s.
Proof.
  intros Hw Hin Hp. unfold update_endpoints. case_bool_decide; [done|].
  destruct (unchanged _ _ _); [done|].
  destruct (reuse_or_new (g_health g) _ resolved s) as [ids s'] eqn:Er.
  destruct (reuse_or_new_spec _ _ _ _ _ _ Hw Hin Hp Er) as (Hw' & Hsub & Hall).
  split_and!; done.
Qed.

(** Two equal entries of one upstream are separate instances at first and one instance after
    a reload, so its two slots then share health, load and ejection. *)
Lemma duplicate_addresses_alias :
  let up := sample_up [Bare (bs "a:1"); Bare (bs "a:1")] in
  let '(_, groups, s1) := reconcile no_client no_sni [up] ∅ (mkStore ∅ 0) in
  let '(_, groups', _) := reconcile no_client no_sni [up] groups s1 in
  option_map (fun g => ep_instances (g_endpoints g)) (groups !! bs "api") = Some [0; 1]%nat /\
  option_map (fun g => ep_instances (g_endpoints g)) (groups' !! bs "api") = Some [0; 0]%nat.
Proof. vm_compute. split; reflexivity. Qed.
