(* ===== verification/Route.v ===== *)
(** * Routes (control/src/route.rs, manifest/route.rs, host/src/filter.rs body hooks)

    The manifest's routes and their validation, their compilation against the loaded filters
    and the upstream groups, and the per-request selection of the most specific route.  A
    [BTreeMap] is its list of entries in key order.  Filters, upstream groups and the HTTP
    library's header parsers are parameters. *)

From S2P Require Import Prelude Bytes Weighted Paths TokenBucket RateLimit Chain Headers Manifest.

(** ** The manifest's routes (manifest/route.rs) *)

Record RouteMatch := mkMatch {
  mt_host : option bytes;
  mt_path_prefix : bytes;
  mt_method : option bytes;
  mt_headers : list (bytes * bytes);
  mt_query : list (bytes * bytes);
}.

Record Backend := mkBackend { bk_upstream : bytes; bk_weight : Z }.

Inductive OverCapMode := OcReject | OcProcessPartial | OcPassthrough.
Inductive UninspectableMode := UiReject | UiPassthrough.
#[export] Instance OverCapMode_eq_dec : EqDecision OverCapMode.
Proof. solve_decision. Defined.
#[export] Instance UninspectableMode_eq_dec : EqDecision UninspectableMode.
Proof. solve_decision. Defined.

Record RouteResponseBody := mkResponseBody {
  rb_max_bytes : Z;
  rb_over_cap : OverCapMode;
  rb_uninspectable : UninspectableMode;
  rb_content_types : list bytes;
}.

Definition MAX_RESPONSE_BODY_CAP : Z := Z.shiftl 16 20.

Definition default_response_body : RouteResponseBody :=
  mkResponseBody (Z.shiftl 1 20) OcReject UiReject
    (map bs ["text/plain"; "text/html"; "text/xml"; "application/json"]%string).

Record RouteTimeouts := mkTimeouts {
  tmo_request_timeout_ms : option Z;
  tmo_overall_timeout_ms : option Z;
}.

Record RouteHeaders := mkRouteHeaders {
  rh_set : list (bytes * bytes);
  rh_remove : list bytes;
}.

Record RouteUpgrade := mkUpgrade {
  ru_protocols : list bytes;
  ru_idle_timeout_ms : Z;
}.

Inductive CompressionAlgorithm := Zstd | Br | Gzip.
#[export] Instance CompressionAlgorithm_eq_dec : EqDecision CompressionAlgorithm.
Proof. solve_decision. Defined.

Definition token (a : CompressionAlgorithm) : bytes :=
  match a with Zstd => bs "zstd" | Br => bs "br" | Gzip => bs "gzip" end.

Record RouteCompression := mkCompression {
  rc_algorithms : list CompressionAlgorithm;
  rc_min_length : Z;
  rc_content_types : list bytes;
}.

Definition default_compression_content_types : list bytes := map bs
  ["text/html"; "text/css"; "text/plain"; "text/xml"; "text/javascript";
   "application/javascript"; "application/x-javascript"; "application/json"; "application/xml";
   "application/xhtml+xml"; "application/rss+xml"; "application/atom+xml"; "image/svg+xml";
   "application/wasm"]%string.

(** A bare [[route.compression]] block. *)
Definition default_compression : RouteCompression :=
  mkCompression [Zstd; Br; Gzip] 1024 default_compression_content_types.

Record Route := mkRoute {
  r_name : option bytes;
  r_matcher : RouteMatch;
  r_filters : list bytes;
  r_upstream : option bytes;
  r_backends : list Backend;
  r_strip_prefix : option bytes;
  r_rate_limit : option RouteRateLimit;
  r_upgrade : option RouteUpgrade;
  r_compression : option RouteCompression;
  r_headers : option RouteHeaders;
  r_timeouts : option RouteTimeouts;
  r_response_body : option RouteResponseBody;
}.

Definition resolved_name (r : Route) : bytes :=
  match r_name r with
  | Some name => name
  | None =>
    match mt_host (r_matcher r) with
    | Some h => to_ascii_lowercase h ++ mt_path_prefix (r_matcher r)
    | None => mt_path_prefix (r_matcher r)
    end
  end.

(** Why a route is rejected, in the order [validate_routes] checks. *)
Inductive RouteReason :=
| BlankName | ReservedName | DuplicateName (name : bytes)
| BothTargets | NoTargets | UnknownUpstream (name : bytes) | BadSplit (e : split_error)
| UnknownFilter (id : bytes) | ZeroRate | ZeroBurst
| NoProtocols | EmptyProtocol | H2cProtocol
| NoAlgorithms | DuplicateAlgorithm (a : CompressionAlgorithm) | NoCompressionTypes
| BadCompressionType (ct : bytes)
| NoHeaders | BadHeaderName (n : bytes) | ReservedHeader (n : bytes) | DuplicateHeader (n : bytes)
| BadHeaderValue (n : bytes)
| ZeroCap | CapTooLarge (n : Z) | NoBodyTypes | BadBodyType (ct : bytes).

Definition targets (r : Route) : result (list (bytes * Z)) RouteReason :=
  match r_upstream r, r_backends r with
  | Some _, _ :: _ => Err BothTargets
  | None, [] => Err NoTargets
  | Some name, [] => Ok [(name, 1)]
  | None, backends => Ok (map (fun b => (bk_upstream b, bk_weight b)) backends)
  end.

(** ** Compiled per-route facilities (route.rs) *)

Definition UNMATCHED_ROUTE : bytes := bs "unmatched".

(** [UpgradeConfig]; durations are milliseconds. *)
Record UpgradeConfig := mkUpgradeConfig {
  uc_protocols : list bytes;
  uc_idle_timeout : option Z;
}.

Definition upgrade_new (protocols : list bytes) (idle_timeout_ms : Z) : UpgradeConfig :=
  mkUpgradeConfig (map (fun p => to_ascii_lowercase (trim p)) protocols)
    (if 0 <? idle_timeout_ms then Some idle_timeout_ms else None).

(** [split(',').map(trim).find_map(..)]. *)
Fixpoint find_token (protocols tokens : list bytes) : option bytes :=
  match tokens with
  | [] => None
  | tok :: rest =>
    match List.find (fun p => eq_ignore_ascii_case p tok) protocols with
    | Some p => Some p
    | None => find_token protocols rest
    end
  end.

Definition allowed_token (c : UpgradeConfig) (upgrade_header : bytes) : option bytes :=
  find_token (uc_protocols c) (map trim (split_on "," upgrade_header)).

Record CompressionConfig := mkCompressionConfig {
  cc_algorithms : list CompressionAlgorithm;
  cc_min_length : Z;
  cc_content_types : list bytes;
}.

Definition compression_new (rc : RouteCompression) : CompressionConfig :=
  mkCompressionConfig (rc_algorithms rc) (rc_min_length rc)
    (map (fun ct => to_ascii_lowercase (trim ct)) (rc_content_types rc)).

(** [content_type_eligible], the same scan on both configs. *)
Definition content_type_eligible (content_types : list bytes) (essence : bytes) : bool :=
  let essence := trim essence in
  existsb (fun ct => eq_ignore_ascii_case ct essence) content_types.

Record ResponseBodyConfig := mkResponseBodyConfig {
  rbc_max_bytes : Z;
  rbc_over_cap : OverCapMode;
  rbc_uninspectable : UninspectableMode;
  rbc_content_types : list bytes;
}.

Definition response_body_new (rb : RouteResponseBody) : ResponseBodyConfig :=
  mkResponseBodyConfig (Z.min (rb_max_bytes rb) usize_max) (rb_over_cap rb) (rb_uninspectable rb)
    (map (fun ct => to_ascii_lowercase (trim ct)) (rb_content_types rb)).

Definition response_body_default : ResponseBodyConfig := response_body_new default_response_body.

(** Durations in milliseconds; [None] is "not declared", [Some 0] "declared disabled". *)
Record TimeoutConfig := mkTimeoutConfig { tc_request : option Z; tc_overall : option Z }.

Definition timeout_new (t : RouteTimeouts) : TimeoutConfig :=
  mkTimeoutConfig (tmo_request_timeout_ms t) (tmo_overall_timeout_ms t).
Definition timeout_default : TimeoutConfig := mkTimeoutConfig None None.
Definition request_timeout (c : TimeoutConfig) (upstream_default : Z) : Z :=
  default upstream_default (tc_request c).
Definition overall_timeout (c : TimeoutConfig) (upstream_default : Z) : Z :=
  default upstream_default (tc_overall c).

(** Declared response headers over a header map; [value_from_str] is [HeaderValue::from_str]. *)
Definition HOP_BY_HOP_GUEST_HEADERS : list bytes := map bs
  ["connection"; "keep-alive"; "proxy-connection"; "transfer-encoding"; "te"; "trailer";
   "upgrade"; "proxy-authorization"; "proxy-authenticate"]%string.

Record ResponseHeaders := mkResponseHeaders {
  dh_set : list (bytes * bytes);
  dh_remove : list bytes;
}.

Section response_headers.
Context {M : Type} `{HeaderMap M} (value_from_str : bytes -> option bytes).

Definition declared_pair (nv : bytes * bytes) : option (bytes * bytes) :=
  match parse_name nv.1 with
  | None => None
  | Some name => match value_from_str nv.2 with Some value => Some (name, value) | None => None end
  end.

Definition response_headers_new (rh : RouteHeaders) : ResponseHeaders :=
  mkResponseHeaders (omap declared_pair (rh_set rh)) (omap parse_name (rh_remove rh)).

Definition response_headers_apply (c : ResponseHeaders) (headers : M) : M :=
  fold_left (fun hs nv => hm_insert hs nv.1 nv.2) (dh_set c)
    (fold_left hm_remove (dh_remove c) headers).

Definition CONTENT_LENGTH : bytes := bs "content-length".

Definition reserved_header (name : bytes) : bool :=
  bytes_eqb name CONTENT_LENGTH || existsb (bytes_eqb name) HOP_BY_HOP_GUEST_HEADERS.

Definition declared_header_name (name : bytes) : result bytes RouteReason :=
  match parse_name name with
  | None => Err (BadHeaderName name)
  | Some parsed => if reserved_header parsed then Err (ReservedHeader name) else Ok parsed
  end.

Fixpoint check_set (set : list (bytes * bytes)) (seen : gset bytes) : result unit RouteReason :=
  match set with
  | [] => Ok tt
  | (name, value) :: rest =>
    match declared_header_name name with
    | Err e => Err e
    | Ok parsed =>
      if bool_decide (parsed ∈ seen) then Err (DuplicateHeader name)
      else if bool_decide (value_from_str value = None) then Err (BadHeaderValue name)
      else check_set rest ({[parsed]} ∪ seen)
    end
  end.

Fixpoint check_remove (names : list bytes) : result unit RouteReason :=
  match names with
  | [] => Ok tt
  | name :: rest =>
    match declared_header_name name with
    | Err e => Err e
    | Ok _ => check_remove rest
    end
  end.

Definition validate_response_headers (h : RouteHeaders) : result unit RouteReason :=
  if bool_decide (rh_set h = []) && bool_decide (rh_remove h = []) then Err NoHeaders
  else
    match check_set (rh_set h) ∅ with
    | Err e => Err e
    | Ok _ => check_remove (rh_remove h)
    end.
End response_headers.

(** ** Validation (route.rs, [validate_routes]) *)

(** [essence] is a [type/subtype] with no parameter, list or space. *)
Definition media_type_ok (ct : bytes) : bool :=
  let essence := trim ct in
  match split_once SLASH essence with
  | Some (t, s) => negb (bool_decide (t = [])) && negb (bool_decide (s = []))
  | None => false
  end && negb (existsb (fun c => ascii_eqb c ";" || ascii_eqb c "," || ascii_eqb c " ") essence).

Definition validate_response_body (rb : RouteResponseBody) : result unit RouteReason :=
  first_failure (
    [(rb_max_bytes rb =? 0, ZeroCap);
     (MAX_RESPONSE_BODY_CAP <? rb_max_bytes rb, CapTooLarge (rb_max_bytes rb));
     (bool_decide (rb_content_types rb = []), NoBodyTypes)] ++
    map (fun ct => (negb (media_type_ok ct), BadBodyType (trim ct))) (rb_content_types rb)).

Definition name_checks (seen : gset bytes) (r : Route) : list (bool * RouteReason) :=
  [(match r_name r with Some name => blank name | None => false end, BlankName);
   (bytes_eqb (resolved_name r) UNMATCHED_ROUTE, ReservedName);
   (bool_decide (resolved_name r ∈ seen), DuplicateName (resolved_name r))].

Definition rate_checks (rl : RouteRateLimit) : list (bool * RouteReason) :=
  [(rl_rate rl =? 0, ZeroRate); (rl_burst rl =? 0, ZeroBurst)].

Definition upgrade_checks (up : RouteUpgrade) : list (bool * RouteReason) :=
  (bool_decide (ru_protocols up = []), NoProtocols) ::
  flat_map (fun p => [(blank p, EmptyProtocol);
                      (eq_ignore_ascii_case (trim p) (bs "h2c"), H2cProtocol)]) (ru_protocols up).

Fixpoint algorithm_checks (algorithms seen : list CompressionAlgorithm) : list (bool * RouteReason) :=
  match algorithms with
  | [] => []
  | a :: rest => (bool_decide (a ∈ seen), DuplicateAlgorithm a) :: algorithm_checks rest (a :: seen)
  end.

Definition compression_checks (c : RouteCompression) : list (bool * RouteReason) :=
  [(bool_decide (rc_algorithms c = []), NoAlgorithms)] ++
  algorithm_checks (rc_algorithms c) [] ++
  [(bool_decide (rc_content_types c = []), NoCompressionTypes)] ++
  map (fun ct => (negb (media_type_ok ct), BadCompressionType (trim ct))) (rc_content_types c).

(** The checks of an optional block. *)
Definition block {A} (o : option A) (checks : A -> list (bool * RouteReason)) :=
  first_failure (match o with Some a => checks a | None => [] end).
Definition block_result {A} (o : option A) (check : A -> result unit RouteReason) :=
  match o with Some a => check a | None => Ok tt end.

Definition check_split (ts : list (bytes * Z)) : result unit RouteReason :=
  match validate_split (map snd ts) with Ok _ => Ok tt | Err e => Err (BadSplit e) end.

Section validate_routes.
Context {M : Type} `{HeaderMap M} (value_from_str : bytes -> option bytes).
Context (filter_ids upstream_names : gset bytes).

Definition target_checks (ts : list (bytes * Z)) : list (bool * RouteReason) :=
  map (fun t => (negb (bool_decide (t.1 ∈ upstream_names)), UnknownUpstream t.1)) ts.
Definition filter_checks (filters : list bytes) : list (bool * RouteReason) :=
  map (fun f => (negb (bool_decide (f ∈ filter_ids)), UnknownFilter f)) filters.

(** One iteration of the loop: the route's targets, or the first failed check. *)
Definition validate_route (seen : gset bytes) (r : Route) : result (list (bytes * Z)) RouteReason :=
  let? _ := first_failure (name_checks seen r) in
  let? ts := targets r in
  let? _ := first_failure (target_checks ts) in
  let? _ := check_split ts in
  let? _ := first_failure (filter_checks (r_filters r)) in
  let? _ := block (r_rate_limit r) rate_checks in
  let? _ := block (r_upgrade r) upgrade_checks in
  let? _ := block (r_compression r) compression_checks in
  let? _ := block_result (r_headers r) (validate_response_headers (M := M) value_from_str) in
  let? _ := block_result (r_response_body r) validate_response_body in
  Ok ts.

(** A rejection names the route's prefix; an accepted route carries its targets. *)
Fixpoint validate_from (seen : gset bytes) (routes : list Route)
    : result (list (Route * list (bytes * Z))) (bytes * RouteReason) :=
  match routes with
  | [] => Ok []
  | r :: rest =>
    match validate_route seen r with
    | Err e => Err (mt_path_prefix (r_matcher r), e)
    | Ok ts =>
      let? vs := validate_from ({[resolved_name r]} ∪ seen) rest in
      Ok ((r, ts) :: vs)
    end
  end.

Definition validate_routes (routes : list Route) := validate_from ∅ routes.
End validate_routes.

(** ** Compilation *)

Record BodyHooks := mkHooks { bh_request : bool; bh_response : bool }.
Definition hooks_none : BodyHooks := mkHooks false false.
Definition union (a b : BodyHooks) : BodyHooks :=
  mkHooks (bh_request a || bh_request b) (bh_response a || bh_response b).

Record CompiledRoute (F G : Type) := mkCompiled {
  cr_name : bytes;
  cr_host : option bytes;
  cr_path_prefix : bytes;
  cr_method : option bytes;
  cr_headers : list (bytes * bytes);
  cr_query : list (bytes * bytes);
  cr_filters : list bytes;
  cr_resolved_chain : list F;
  cr_body_hooks : BodyHooks;
  cr_backends : WeightedBackends G;
  cr_strip_prefix : option bytes;
  cr_rate_limit : option NativeRateLimit;
  cr_upgrade : option UpgradeConfig;
  cr_compression : option CompressionConfig;
  cr_response_headers : option ResponseHeaders;
  cr_timeouts : TimeoutConfig;
  cr_response_body : ResponseBodyConfig;
}.
Arguments mkCompiled {F G}.
Arguments cr_name {F G}.
Arguments cr_host {F G}.
Arguments cr_path_prefix {F G}.
Arguments cr_method {F G}.
Arguments cr_headers {F G}.
Arguments cr_query {F G}.
Arguments cr_filters {F G}.
Arguments cr_resolved_chain {F G}.
Arguments cr_body_hooks {F G}.
Arguments cr_backends {F G}.
Arguments cr_strip_prefix {F G}.
Arguments cr_rate_limit {F G}.
Arguments cr_upgrade {F G}.
Arguments cr_compression {F G}.
Arguments cr_response_headers {F G}.
Arguments cr_timeouts {F G}.
Arguments cr_response_body {F G}.

Section compile.
Context {M : Type} `{HeaderMap M} (value_from_str : bytes -> option bytes).
(** A loaded filter and its exported body hooks; an upstream group. *)
Context {F G : Type} (body_hooks : F -> BodyHooks).

Definition fold_hooks (filters : gmap bytes F) (ids : list bytes) : BodyHooks :=
  fold_left (fun acc id => match filters !! id with
                           | Some f => union acc (body_hooks f)
                           | None => acc
                           end) ids hooks_none.

Definition compile (r : Route) (backends : WeightedBackends G) (filters : gmap bytes F)
    : CompiledRoute F G :=
  mkCompiled (resolved_name r)
    (to_ascii_lowercase <$> mt_host (r_matcher r))
    (mt_path_prefix (r_matcher r))
    (to_ascii_uppercase <$> mt_method (r_matcher r))
    (map (fun kv => (to_ascii_lowercase kv.1, kv.2)) (mt_headers (r_matcher r)))
    (mt_query (r_matcher r))
    (r_filters r)
    (omap (fun id => filters !! id) (r_filters r))
    (fold_hooks filters (r_filters r))
    backends
    (r_strip_prefix r)
    (rl_new <$> r_rate_limit r)
    ((fun u => upgrade_new (ru_protocols u) (ru_idle_timeout_ms u)) <$> r_upgrade r)
    (compression_new <$> r_compression r)
    (response_headers_new (M := M) value_from_str <$> r_headers r)
    (from_option timeout_new timeout_default (r_timeouts r))
    (from_option response_body_new response_body_default (r_response_body r)).

(** The compile pass of [build_active]: targets resolved to groups, then each split. *)
Fixpoint resolve_targets (groups : gmap bytes G) (ts : list (bytes * Z))
    : result (list (G * Z)) RouteReason :=
  match ts with
  | [] => Ok []
  | (name, weight) :: rest =>
    match groups !! name with
    | None => Err (UnknownUpstream name)
    | Some group => let? gs := resolve_targets groups rest in Ok ((group, weight) :: gs)
    end
  end.

Definition compile_one (groups : gmap bytes G) (filters : gmap bytes F)
    (v : Route * list (bytes * Z)) : result (CompiledRoute F G) RouteReason :=
  let? resolved := resolve_targets groups v.2 in
  match wb_new resolved with
  | Err e => Err (BadSplit e)
  | Ok backends => Ok (compile v.1 backends filters)
  end.

Fixpoint compile_all (groups : gmap bytes G) (filters : gmap bytes F)
    (vs : list (Route * list (bytes * Z)))
    : result (list (CompiledRoute F G)) (bytes * RouteReason) :=
  match vs with
  | [] => Ok []
  | v :: rest =>
    match compile_one groups filters v with
    | Err e => Err (mt_path_prefix (r_matcher v.1), e)
    | Ok c => let? cs := compile_all groups filters rest in Ok (c :: cs)
    end
  end.
End compile.

(** ** Selection *)

Record RequestParts := mkRequestParts {
  rp_authority : bytes;
  rp_path : bytes;
  rp_method : bytes;
  rp_headers : list Header;
}.

Section select.
Context {F G : Type}.

(** The first header of that name decides. *)
Definition header_matches (headers : list Header) (nv : bytes * bytes) : bool :=
  match List.find (fun h => eq_ignore_ascii_case (h_name h) nv.1) headers with
  | Some h => bytes_eqb (h_value h) nv.2
  | None => false
  end.

Definition route_matches (r : CompiledRoute F G) (host path method : bytes)
    (headers : list Header) (query : bytes) : bool :=
  match cr_host r with Some h => eq_ignore_ascii_case h host | None => true end &&
  path_under_prefix (cr_path_prefix r) path &&
  match cr_method r with Some m => bytes_eqb method m | None => true end &&
  forallb (header_matches headers) (cr_headers r) &&
  forallb (fun nv => query_param_matches query nv.1 nv.2) (cr_query r).

(** The tuple [max_by_key] compares, lexicographically. *)
Definition select_key (i : nat) (r : CompiledRoute F G) : list Z :=
  [Z.b2z (bool_decide (is_Some (cr_host r))); Z.of_nat (length (cr_path_prefix r));
   Z.b2z (bool_decide (is_Some (cr_method r))); Z.of_nat (length (cr_headers r));
   Z.of_nat (length (cr_query r)); usize_max - Z.of_nat i].

Fixpoint lex_lt (a b : list Z) : bool :=
  match a, b with
  | x :: a', y :: b' => (x <? y) || ((x =? y) && lex_lt a' b')
  | _, _ => false
  end.

(** [Iterator::max_by_key] keeps the last maximum. *)
Definition keep_max (acc : option (nat * CompiledRoute F G)) (x : nat * CompiledRoute F G) :=
  match acc with
  | None => Some x
  | Some y => if lex_lt (select_key x.1 x.2) (select_key y.1 y.2) then Some y else Some x
  end.

Definition route_candidates (routes : list (CompiledRoute F G)) (req : RequestParts)
    : list (nat * CompiledRoute F G) :=
  let host := normalize_host (rp_authority req) in
  let query := default [] (query_of (rp_path req)) in
  let path := bare_path (rp_path req) in
  List.filter (fun ir => route_matches ir.2 host path (rp_method req) (rp_headers req) query)
    (imap pair routes).

Definition select (routes : list (CompiledRoute F G)) (req : RequestParts) : option nat :=
  fst <$> fold_left keep_max (route_candidates routes req) None.
End select.

(** ** What matching and precedence mean *)

(** The first header called [n], whatever its case, carries the value [v]. *)
Definition first_header (n v : bytes) (headers : list Header) : Prop :=
  exists before h after, headers = before ++ h :: after /\
    eq_ignore_ascii_case (h_name h) n = true /\ h_value h = v /\
    Forall (fun x => eq_ignore_ascii_case (h_name x) n = false) before.

(** The first well-formed pair of the query whose name is [n] carries the value [v]. *)
Definition first_param (n v query : bytes) : Prop :=
  "="%char ∉ n /\
  exists before after, split_on "&" query = before ++ (n ++ "="%char :: v) :: after /\
    Forall (fun kv => forall v', kv <> n ++ "="%char :: v') before.

Section precedence.
Context {F G : Type}.
Implicit Types r : CompiledRoute F G.

Definition request_matches (req : RequestParts) r : Prop :=
  (forall h, cr_host r = Some h ->
    to_ascii_lowercase h = to_ascii_lowercase (normalize_host (rp_authority req))) /\
  (exists rest, bare_path (rp_path req) = cr_path_prefix r ++ rest /\
    (rest = [] \/ starts_with_byte SLASH rest = true \/
     ends_with_byte SLASH (cr_path_prefix r) = true)) /\
  (forall m, cr_method r = Some m -> rp_method req = m) /\
  (forall n v, (n, v) ∈ cr_headers r -> first_header n v (rp_headers req)) /\
  (forall n v, (n, v) ∈ cr_query r -> first_param n v (default [] (query_of (rp_path req)))).

(** Gateway precedence: a constrained host, then the longer prefix, then a constrained method,
    then more header and more query matches. *)
Inductive more_specific r r' : Prop :=
| MoreHost : cr_host r <> None -> cr_host r' = None -> more_specific r r'
| MorePrefix : (cr_host r = None <-> cr_host r' = None) ->
    (length (cr_path_prefix r') < length (cr_path_prefix r))%nat -> more_specific r r'
| MoreMethod : (cr_host r = None <-> cr_host r' = None) ->
    length (cr_path_prefix r') = length (cr_path_prefix r) ->
    cr_method r <> None -> cr_method r' = None -> more_specific r r'
| MoreHeaders : (cr_host r = None <-> cr_host r' = None) ->
    length (cr_path_prefix r') = length (cr_path_prefix r) ->
    (cr_method r = None <-> cr_method r' = None) ->
    (length (cr_headers r') < length (cr_headers r))%nat -> more_specific r r'
| MoreQuery : (cr_host r = None <-> cr_host r' = None) ->
    length (cr_path_prefix r') = length (cr_path_prefix r) ->
    (cr_method r = None <-> cr_method r' = None) ->
    length (cr_headers r') = length (cr_headers r) ->
    (length (cr_query r') < length (cr_query r))%nat -> more_specific r r'.

Definition equally_specific r r' : Prop :=
  (cr_host r = None <-> cr_host r' = None) /\
  length (cr_path_prefix r') = length (cr_path_prefix r) /\
  (cr_method r = None <-> cr_method r' = None) /\
  length (cr_headers r') = length (cr_headers r) /\
  length (cr_query r') = length (cr_query r).

(** Route [r] at manifest position [i] is preferred to [r'] at [j]. *)
Definition outranks (i : nat) r (j : nat) r' : Prop :=
  more_specific r r' \/ (equally_specific r r' /\ (i < j)%nat).

Lemma presence_eq {A} (o o' : option A) :
  Z.b2z (bool_decide (is_Some o')) = Z.b2z (bool_decide (is_Some o)) <-> (o = None <-> o' = None).
Proof. destruct o, o'; cbn; naive_solver. Qed.

Lemma presence_lt {A} (o o' : option A) :
  Z.b2z (bool_decide (is_Some o')) < Z.b2z (bool_decide (is_Some o)) <-> o <> None /\ o' = None.
Proof. destruct o, o'; cbn; (split; [intros ?|intros []]); (done || lia). Qed.

Lemma lex_lt_outranks i j r r' :
  lex_lt (select_key j r') (select_key i r) = true <-> outranks i r j r'.
Proof.
  unfold select_key. cbn [lex_lt].
  rewrite !orb_true_iff, !andb_true_iff, !orb_true_iff, !andb_true_iff, !orb_true_iff,
    !andb_true_iff, !orb_true_iff, !andb_true_iff, !orb_true_iff, !andb_true_iff, !orb_true_iff,
    !andb_true_iff, !Z.ltb_lt, !Z.eqb_eq, !presence_eq, !presence_lt.
  rewrite <- !Nat2Z.inj_lt, !Nat2Z.inj_iff. unfold outranks, equally_specific.
  assert (Hi : usize_max - Z.of_nat j < usize_max - Z.of_nat i <-> (i < j)%nat) by lia.
  rewrite Hi. split.
  - intros Hlex. decompose [or and] Hlex; try discriminate.
    + left. by apply MoreHost.
    + left. by apply MorePrefix.
    + left. by apply MoreMethod.
    + left. by apply MoreHeaders.
    + left. by apply MoreQuery.
    + right. tauto.
  - intros [[]|]; tauto.
Qed.

Lemma header_matches_spec headers n v :
  header_matches headers (n, v) = true <-> first_header n v headers.
Proof.
  unfold header_matches, first_header. cbn [fst snd].
  induction headers as [|x headers IH]; cbn [List.find].
  { split; [done|]. by intros ([|??] & ? & ? & ? & _). }
  destruct (eq_ignore_ascii_case (h_name x) n) eqn:E.
  - rewrite bytes_eqb_eq. split; [intros Hv; by exists [], x, headers|].
    intros ([|y before] & h & after & [= -> ->] & Hn & Hv & Hb); [done|].
    apply Forall_cons in Hb as [Hy _]. congruence.
  - rewrite IH. split.
    + intros (before & h & after & -> & Hn & Hv & Hb).
      exists (x :: before), h, after. by rewrite Forall_cons.
    + intros ([|y before] & h & after & [= -> ->] & Hn & Hv & Hb); [congruence|].
      apply Forall_cons in Hb as [_ Hb]. by exists before, h, after.
Qed.

Lemma query_param_matches_spec query n v :
  query_param_matches query n v = true <-> first_param n v query.
Proof.
  unfold query_param_matches, first_param. generalize (split_on "&" query) as pairs.
  induction pairs as [|kv pairs IH]; cbn [query_pairs_match].
  { split; [done|]. by intros [_ ([|??] & ? & ? & _)]. }
  assert (Hskip : (forall v', kv <> n ++ "="%char :: v') \/ "="%char ∈ n ->
    query_pairs_match pairs n v = true <->
    "="%char ∉ n /\ exists before after, kv :: pairs = before ++ (n ++ "="%char :: v) :: after /\
      Forall (fun kv => forall v', kv <> n ++ "="%char :: v') before).
  { intros Hkv. rewrite IH. split; intros [Hn (before & after & E & Hb)]; (split; [done|]).
    - exists (kv :: before), after. rewrite E, Forall_cons. by destruct Hkv.
    - destruct before as [|y before]; injection E as -> ->; [by destruct Hkv as [Hkv|]; [destruct (Hkv v)|]|].
      apply Forall_cons in Hb as [_ Hb]. by exists before, after. }
  destruct (split_once "=" kv) as [[k w]|] eqn:Es.
  - apply split_once_Some in Es as [-> Hk]. destruct (bytes_eqb k n) eqn:Ek.
    + apply bytes_eqb_eq in Ek as ->. rewrite bytes_eqb_eq. split.
      * intros ->. split; [done|]. by exists [], pairs.
      * intros [_ ([|y before] & after & E & Hb)].
        { injection E as E _. apply app_inv_head in E. congruence. }
        injection E as <- _. apply Forall_cons in Hb as [Hb _]. by destruct (Hb w).
    + apply Hskip. destruct (decide ("="%char ∈ n)) as [Hin|Hin]; [by right|left].
      intros v' E. pose proof (split_once_app "=" k w Hk) as E1. rewrite E in E1.
      rewrite split_once_app in E1 by done. injection E1 as <- _.
      unfold bytes_eqb in Ek. by rewrite bool_decide_true in Ek.
  - apply Hskip. left. intros v' ->. apply split_once_None in Es.
    apply Es, elem_of_app. right. by left.
Qed.

Lemma route_matches_spec req r :
  route_matches r (normalize_host (rp_authority req)) (bare_path (rp_path req)) (rp_method req)
    (rp_headers req) (default [] (query_of (rp_path req))) = true <-> request_matches req r.
Proof.
  unfold route_matches, request_matches.
  rewrite !andb_true_iff, path_under_prefix_spec, !forallb_forall.
  assert (Hh : match cr_host r with
               | Some h => eq_ignore_ascii_case h (normalize_host (rp_authority req))
               | None => true
               end = true <->
               forall h, cr_host r = Some h ->
               to_ascii_lowercase h = to_ascii_lowercase (normalize_host (rp_authority req))).
  { unfold eq_ignore_ascii_case. destruct (cr_host r) as [h|]; [|done].
    rewrite bytes_eqb_eq. naive_solver. }
  assert (Hm : match cr_method r with Some m => bytes_eqb (rp_method req) m | None => true end = true
               <-> forall m, cr_method r = Some m -> rp_method req = m).
  { destruct (cr_method r); [|done]. rewrite bytes_eqb_eq. naive_solver. }
  rewrite Hh, Hm.
  assert (Hall : forall (P : bytes -> bytes -> Prop) (f : bytes * bytes -> bool) l,
    (forall n v, f (n, v) = true <-> P n v) ->
    (forall x, In x l -> f x = true) <-> forall n v, (n, v) ∈ l -> P n v).
  { intros P f l Hf. split.
    - intros Hx n v Hin. apply Hf, Hx. by apply list_elem_of_In.
    - intros HP [n v] Hin. apply Hf, HP. by apply list_elem_of_In. }
  rewrite (Hall _ _ _ (header_matches_spec (rp_headers req))).
  rewrite (Hall _ (fun nv => query_param_matches _ nv.1 nv.2) _
    (query_param_matches_spec (default [] (query_of (rp_path req))))).
  tauto.
Qed.

(** ** The selection *)

Lemma lex_lt_irrefl a : lex_lt a a = false.
Proof. induction a as [|x a IH]; cbn; [done|]. by rewrite Z.ltb_irrefl, Z.eqb_refl, IH. Qed.

Lemma lex_lt_trans a b c : lex_lt a b = true -> lex_lt b c = true -> lex_lt a c = true.
Proof.
  revert b c. induction a as [|x a IH]; intros [|y b] [|z c]; cbn; try done.
  rewrite !orb_true_iff, !andb_true_iff, !Z.ltb_lt, !Z.eqb_eq.
  intros [?|[-> ?]] [?|[-> ?]]; [left; lia|by left|by left|right; by eauto].
Qed.

Lemma lex_lt_total a b : length a = length b -> lex_lt a b = false -> lex_lt b a = false -> a = b.
Proof.
  revert b. induction a as [|x a IH]; intros [|y b] Hl; try done. cbn in *.
  rewrite !orb_false_iff, !andb_false_iff, !Z.ltb_ge, !Z.eqb_neq.
  intros [? H1] [? H2]. assert (x = y) as -> by lia. f_equal.
  apply IH; [lia|by destruct H1|by destruct H2].
Qed.

Lemma keep_max_spec (l : list (nat * CompiledRoute F G)) acc :
  match fold_left keep_max l acc with
  | Some y => (y ∈ l \/ acc = Some y) /\
      forall x, x ∈ l \/ acc = Some x -> lex_lt (select_key y.1 y.2) (select_key x.1 x.2) = false
  | None => l = [] /\ acc = None
  end.
Proof.
  revert acc. induction l as [|x l IH]; intros acc; cbn [fold_left].
  { destruct acc as [y|]; [|done]. split; [by right|].
    intros x [Hx|[= ->]]; [by apply not_elem_of_nil in Hx|apply lex_lt_irrefl]. }
  specialize (IH (keep_max acc x)). destruct (fold_left keep_max l (keep_max acc x)) as [y|].
  2:{ destruct IH as [_ IH]. destruct acc; cbn in IH; [case_match|]; done. }
  destruct IH as [Hy Hmax].
  assert (Hk : exists k, keep_max acc x = Some k /\ (k = x \/ acc = Some k) /\
    lex_lt (select_key k.1 k.2) (select_key x.1 x.2) = false /\
    forall z, acc = Some z -> lex_lt (select_key k.1 k.2) (select_key z.1 z.2) = false).
  { destruct acc as [z|]; cbn [keep_max].
    - destruct (lex_lt (select_key x.1 x.2) (select_key z.1 z.2)) eqn:E.
      + exists z. split_and!; [done|by right| |intros ? [= <-]; apply lex_lt_irrefl].
        destruct (lex_lt (select_key z.1 z.2) _) eqn:E2; [|done].
        by rewrite <- (lex_lt_irrefl (select_key x.1 x.2)), (lex_lt_trans _ _ _ E E2).
      + exists x. split_and!; [done|by left|apply lex_lt_irrefl|by intros ? [= <-]].
    - exists x. split_and!; [done|by left|apply lex_lt_irrefl|done]. }
  destruct Hk as (k & Ek & Hk & Hkx & Hkz). rewrite Ek in Hy, Hmax.
  pose proof (Hmax k (or_intror eq_refl)) as Hyk. split.
  - destruct Hy as [Hy|[= <-]]; [left; by right|].
    destruct Hk as [->|Hk]; [left; by left|by right].
  - assert (Hle : forall z : nat * CompiledRoute F G, lex_lt (select_key k.1 k.2) (select_key z.1 z.2) = false ->
      lex_lt (select_key y.1 y.2) (select_key z.1 z.2) = false).
    { intros z Hz. destruct (lex_lt (select_key y.1 y.2) (select_key z.1 z.2)) eqn:E; [|done].
      destruct (lex_lt (select_key z.1 z.2) (select_key k.1 k.2)) eqn:E2.
      - by rewrite (lex_lt_trans _ _ _ E E2) in Hyk.
      - assert (E3 : select_key z.1 z.2 = select_key k.1 k.2) by by apply lex_lt_total.
        congruence. }
    intros z [Hz|Hz]; [|by apply Hle, Hkz].
    apply elem_of_cons in Hz as [->|Hz]; [by apply Hle|apply Hmax; by left].
Qed.

Lemma route_candidates_spec (routes : list (CompiledRoute F G)) req i r :
  (i, r) ∈ route_candidates routes req <-> routes !! i = Some r /\ request_matches req r.
Proof.
  unfold route_candidates. rewrite list_elem_of_In, filter_In, <- list_elem_of_In. cbn [snd].
  rewrite route_matches_spec. apply and_iff_compat_r.
  rewrite elem_of_lookup_imap. naive_solver.
Qed.

Lemma select_spec (routes : list (CompiledRoute F G)) (req : RequestParts) i :
  select routes req = Some i ->
  exists r, routes !! i = Some r /\ request_matches req r /\
    forall j r', j <> i -> routes !! j = Some r' -> request_matches req r' -> outranks i r j r'.
Proof.
  unfold select. pose proof (keep_max_spec (route_candidates routes req) None) as Hs.
  destruct (fold_left keep_max _ None) as [[k rk]|] eqn:Ek;
    cbn [fmap option_fmap option_map fst]; [|done].
  intros [= <-]. destruct Hs as [[Hk|?] Hmax]; [|done].
  apply route_candidates_spec in Hk as [Hk Hmk]. exists rk. split_and!; [done|done|].
  intros j r' Hne Hj Hm. apply lex_lt_outranks.
  specialize (Hmax (j, r') (or_introl (proj2 (route_candidates_spec _ _ _ _) (conj Hj Hm)))).
  cbn [fst snd] in Hmax. destruct (lex_lt (select_key j r') (select_key k rk)) eqn:E; [done|].
  apply lex_lt_total in Hmax; [|done|done]. unfold select_key in Hmax. injection Hmax. lia.
Qed.

Lemma select_none (routes : list (CompiledRoute F G)) (req : RequestParts) :
  select routes req = None -> forall i r, routes !! i = Some r -> ~ request_matches req r.
Proof.
  unfold select. pose proof (keep_max_spec (route_candidates routes req) None) as Hs.
  destruct (fold_left keep_max _ None) as [[k rk]|]; cbn [fmap option_fmap option_map]; [done|].
  intros _ i r Hi Hm. destruct Hs as [Hs _].
  assert (Hin : (i, r) ∈ route_candidates routes req) by by apply route_candidates_spec.
  rewrite Hs in Hin. by apply not_elem_of_nil in Hin.
Qed.

(** C13: a request is routed to the matching route that outranks every other matching route, and
    to none exactly when no route matches. *)
Theorem select_most_specific (routes : list (CompiledRoute F G)) (req : RequestParts) :
  (forall i, select routes req = Some i <->
    exists r, routes !! i = Some r /\ request_matches req r /\
      forall j r', j <> i -> routes !! j = Some r' -> request_matches req r' ->
        outranks i r j r') /\
  (select routes req = None <-> Forall (fun r => ~ request_matches req r) routes).
Proof.
  split.
  - intros i. split; [apply select_spec|]. intros (r & Hi & Hm & Hbest).
    destruct (select routes req) as [k|] eqn:Es; [|destruct (select_none _ _ Es i r Hi Hm)].
    destruct (select_spec _ _ _ Es) as (rk & Hk & Hmk & Hout).
    destruct (decide (i = k)) as [->|Hne]; [done|].
    specialize (Hout i r Hne Hi Hm). specialize (Hbest k rk ltac:(done) Hk Hmk).
    apply lex_lt_outranks in Hout, Hbest. pose proof (lex_lt_trans _ _ _ Hout Hbest) as Hc.
    by rewrite lex_lt_irrefl in Hc.
  - split; [intros Es; apply Forall_lookup; exact (select_none _ _ Es)|].
    intros Hall. destruct (select routes req) as [k|] eqn:Es; [|done].
    destruct (select_spec _ _ _ Es) as (rk & Hk & Hmk & _).
    destruct (Forall_lookup_1 _ _ _ _ Hall Hk Hmk).
Qed.
End precedence.
