(* ===== verification/RouteTable.v ===== *)
(** * Route tables (control/src/route.rs validation and compilation, as the control plane uses them)

    What [validate_routes] accepts, what compiling an accepted table yields, and what stamping
    a declared header block does to a response. *)

From S2P Require Import Prelude Bytes Weighted Paths TokenBucket RateLimit Chain Headers.
From S2P Require Import Manifest Route.

(** ** What an accepted route satisfies *)

(** A [type/subtype] with both halves, no parameter, list or space. *)
Definition media_type (ct : bytes) : Prop :=
  (exists t s, trim ct = t ++ SLASH :: s /\ t <> [] /\ s <> [] /\ SLASH ∉ t) /\
  ";"%char ∉ trim ct /\ ","%char ∉ trim ct /\ " "%char ∉ trim ct.

Definition upgrade_ok (up : RouteUpgrade) : Prop :=
  ru_protocols up <> [] /\
  Forall (fun p => trim p <> [] /\ to_ascii_lowercase (trim p) <> bs "h2c") (ru_protocols up).

Definition compression_ok (c : RouteCompression) : Prop :=
  rc_algorithms c <> [] /\ NoDup (rc_algorithms c) /\
  rc_content_types c <> [] /\ Forall media_type (rc_content_types c).

Definition response_body_ok (rb : RouteResponseBody) : Prop :=
  rb_max_bytes rb <> 0 /\ rb_max_bytes rb <= MAX_RESPONSE_BODY_CAP /\
  rb_content_types rb <> [] /\ Forall media_type (rb_content_types rb).

(** One single upstream or a non-empty split, never both. *)
Definition targets_ok (r : Route) (ts : list (bytes * Z)) : Prop :=
  (exists u, r_upstream r = Some u /\ r_backends r = [] /\ ts = [(u, 1)]) \/
  (r_upstream r = None /\ r_backends r <> [] /\
   ts = map (fun b => (bk_upstream b, bk_weight b)) (r_backends r)).

Lemma media_type_ok_spec ct : media_type_ok ct = true <-> media_type ct.
Proof.
  unfold media_type_ok, media_type. rewrite andb_true_iff, negb_true_iff.
  assert (Hs : match split_once SLASH (trim ct) with
    | Some (t, s) => negb (bool_decide (t = [])) && negb (bool_decide (s = []))
    | None => false
    end = true <-> exists t s, trim ct = t ++ SLASH :: s /\ t <> [] /\ s <> [] /\ SLASH ∉ t).
  { destruct (split_once SLASH (trim ct)) as [[t s]|] eqn:E.
    - apply split_once_Some in E as [E Hn]. rewrite andb_true_iff, !negb_true_iff,
        !bool_decide_eq_false. split; [intros []; by exists t, s|].
      intros (t' & s' & E' & ? & ? & Hn'). pose proof (split_once_app SLASH t s Hn) as E1.
      rewrite <- E in E1. rewrite E', split_once_app in E1 by done. injection E1 as <- <-. done.
    - split; [done|]. intros (t & s & E' & _). apply split_once_None in E.
      destruct E. rewrite E'. apply elem_of_app. right. by left. }
  rewrite Hs. apply and_iff_compat_l. rewrite <- not_true_iff_false, existsb_exists.
  setoid_rewrite orb_true_iff. setoid_rewrite orb_true_iff. setoid_rewrite ascii_eqb_eq.
  setoid_rewrite <- list_elem_of_In. naive_solver.
Qed.

Lemma targets_spec r ts : targets r = Ok ts <-> targets_ok r ts.
Proof.
  unfold targets, targets_ok. destruct (r_upstream r) as [u|], (r_backends r) as [|b l];
    naive_solver.
Qed.

Lemma algorithm_checks_ok l seen :
  first_failure (algorithm_checks l seen) = Ok tt <-> NoDup l /\ Forall (fun a => a ∉ seen) l.
Proof.
  revert seen. induction l as [|a l IH]; intros seen; cbn [algorithm_checks].
  { split; [by split; constructor|done]. }
  rewrite first_failure_cons_ok, IH, bool_decide_eq_false, NoDup_cons, Forall_cons.
  rewrite !Forall_forall. set_solver.
Qed.

Lemma block_ok {A} (o : option A) checks (P : A -> Prop) :
  (forall a, first_failure (checks a) = Ok tt <-> P a) ->
  block o checks = Ok tt <-> forall a, o = Some a -> P a.
Proof. intros HP. unfold block. destruct o as [a|]; [rewrite HP|]; naive_solver. Qed.

Lemma block_result_ok {A} (o : option A) check (P : A -> Prop) :
  (forall a, check a = Ok tt <-> P a) -> block_result o check = Ok tt <-> forall a, o = Some a -> P a.
Proof. intros HP. unfold block_result. destruct o as [a|]; [rewrite HP|]; naive_solver. Qed.

Lemma Forall_iff' {A} (P Q : A -> Prop) l : (forall x, P x <-> Q x) -> Forall P l <-> Forall Q l.
Proof. intros H. by apply Forall_proper. Qed.

Lemma upgrade_checks_ok up : first_failure (upgrade_checks up) = Ok tt <-> upgrade_ok up.
Proof.
  unfold upgrade_checks, upgrade_ok. autorewrite with plecto_checks.
  rewrite bool_decide_eq_false. apply and_iff_compat_l, Forall_iff'. intros p.
  autorewrite with plecto_checks. rewrite blank_false. unfold eq_ignore_ascii_case, bytes_eqb.
  rewrite bool_decide_eq_false. tauto.
Qed.

Lemma media_checks_ok (e : bytes -> RouteReason) l :
  first_failure (map (fun ct => (negb (media_type_ok ct), e ct)) l) = Ok tt <-> Forall media_type l.
Proof.
  rewrite first_failure_map_ok. apply Forall_iff'. intros ct.
  by rewrite negb_false_iff, media_type_ok_spec.
Qed.

Lemma compression_checks_ok c : first_failure (compression_checks c) = Ok tt <-> compression_ok c.
Proof.
  unfold compression_checks, compression_ok. rewrite !first_failure_app_ok, algorithm_checks_ok,
    !first_failure_cons_ok, !first_failure_nil_ok, media_checks_ok, !bool_decide_eq_false.
  pose proof (Forall_true (fun a => a ∉ []) (rc_algorithms c) (fun a => not_elem_of_nil a)).
  tauto.
Qed.

Lemma validate_response_body_ok rb : validate_response_body rb = Ok tt <-> response_body_ok rb.
Proof.
  unfold validate_response_body, response_body_ok. rewrite first_failure_app_ok,
    !first_failure_cons_ok, first_failure_nil_ok, media_checks_ok, bool_decide_eq_false,
    Z.eqb_neq, Z.ltb_ge. tauto.
Qed.

Section headers_ok.
Context {M : Type} `{HeaderMap M} (value_from_str : bytes -> option bytes).

(** A declared name parses and is neither hop-by-hop nor a framing header. *)
Definition declarable (name : bytes) : Prop :=
  exists n, parse_name name = Some n /\ n <> CONTENT_LENGTH /\ n ∉ HOP_BY_HOP_GUEST_HEADERS.

Definition headers_ok (h : RouteHeaders) : Prop :=
  (rh_set h <> [] \/ rh_remove h <> []) /\
  Forall (fun nv => declarable nv.1 /\ value_from_str nv.2 <> None) (rh_set h) /\
  NoDup (map (fun nv => parse_name nv.1) (rh_set h)) /\
  Forall declarable (rh_remove h).

Lemma declared_header_name_ok name n :
  declared_header_name name = Ok n <->
  parse_name name = Some n /\ n <> CONTENT_LENGTH /\ n ∉ HOP_BY_HOP_GUEST_HEADERS.
Proof.
  unfold declared_header_name, reserved_header. destruct (parse_name name) as [p|]; [|naive_solver].
  assert (Hr : bytes_eqb p CONTENT_LENGTH || existsb (bytes_eqb p) HOP_BY_HOP_GUEST_HEADERS = false
    <-> p <> CONTENT_LENGTH /\ p ∉ HOP_BY_HOP_GUEST_HEADERS).
  { rewrite orb_false_iff, <- !not_true_iff_false, bytes_eqb_eq, existsb_exists.
    setoid_rewrite bytes_eqb_eq. setoid_rewrite <- list_elem_of_In. naive_solver. }
  destruct (_ || _)%bool; [|naive_solver]. split; [done|]. intros ([= <-] & Hp).
  by apply Hr in Hp.
Qed.

Lemma check_set_ok set seen :
  check_set value_from_str set seen = Ok tt <->
  Forall (fun nv => declarable nv.1 /\ value_from_str nv.2 <> None) set /\
  NoDup (map (fun nv => parse_name nv.1) set) /\
  Forall (fun nv => forall n, parse_name nv.1 = Some n -> n ∉ seen) set.
Proof.
  revert seen. induction set as [|[name value] set IH]; intros seen; cbn [check_set map].
  { split; [intros _; split; [constructor|split; constructor]|done]. }
  rewrite !Forall_cons, NoDup_cons. cbn [fst snd].
  destruct (declared_header_name name) as [n|e] eqn:E.
  - apply declared_header_name_ok in E as (Hp & Hn). destruct (bool_decide_reflect (n ∈ seen)).
    { split; [done|]. intros (_ & _ & Hs & _). by destruct (Hs n Hp). }
    destruct (bool_decide_reflect (value_from_str value = None)) as [|Hv]; [naive_solver|].
    rewrite IH, !Forall_forall, Hp. split.
    + intros (Ha & Hd & Hs). split_and!; try done; [by exists n| |by intros ? [= <-]|].
      * intros (x & Hx & Hin)%list_elem_of_fmap. apply (Hs x Hin n); [done|set_solver].
      * intros x Hin m Hm Hseen. apply (Hs x Hin m Hm). set_solver.
    + intros ((_ & Ha) & (Hx & Hd) & _ & Hs). split_and!; try done. intros x Hin m Hm.
      apply not_elem_of_union. split; [|by apply (Hs x Hin)]. intros ->%elem_of_singleton.
      apply Hx. apply list_elem_of_fmap. by exists x.
  - split; [done|]. intros [[[(n & Hn) _] _] _].
    apply declared_header_name_ok in Hn. congruence.
Qed.

Lemma check_remove_ok names : check_remove names = Ok tt <-> Forall declarable names.
Proof.
  induction names as [|name names IH]; cbn [check_remove]; [by split; [constructor|]|].
  rewrite Forall_cons. destruct (declared_header_name name) as [n|e] eqn:E.
  - rewrite IH. apply declared_header_name_ok in E. split; [|tauto]. split; [by exists n|done].
  - split; [done|]. intros [[n Hn] _]. apply declared_header_name_ok in Hn. congruence.
Qed.

Lemma validate_response_headers_ok h :
  validate_response_headers value_from_str h = Ok tt <-> headers_ok h.
Proof.
  unfold validate_response_headers, headers_ok.
  assert (Hne : bool_decide (rh_set h = []) && bool_decide (rh_remove h = []) = false <->
    rh_set h <> [] \/ rh_remove h <> [])
    by (rewrite andb_false_iff, !bool_decide_eq_false; done).
  destruct (_ && _)%bool; [naive_solver|].
  pose proof (check_set_ok (rh_set h) ∅) as Hs. pose proof (check_remove_ok (rh_remove h)) as Hr.
  pose proof (Forall_true (fun nv => forall n, parse_name nv.1 = Some n -> n ∉ (∅ : gset bytes))
    (rh_set h) (fun nv n _ => not_elem_of_empty n)) as Hemp.
  pose proof (proj1 Hne eq_refl).
  destruct (check_set value_from_str (rh_set h) ∅) as [[]|e].
  - pose proof (proj1 Hs eq_refl). tauto.
  - split; [done|]. intros (_ & Ha & Hd & _). by apply (proj2 Hs).
Qed.

(** ** Stamping the declaration on a response *)

Context `{!HeaderMapLaws M}.

(** The value the declaration gives to a header name. *)
Definition declared_value (h : RouteHeaders) (n : bytes) : option bytes :=
  match List.find (fun nv => bool_decide (parse_name nv.1 = Some n)) (rh_set h) with
  | Some nv => value_from_str nv.2
  | None => None
  end.

Lemma remove_all_get names (m : M) n :
  hm_get_all (fold_left hm_remove names m) n
  = if bool_decide (n ∈ names) then [] else hm_get_all m n.
Proof.
  revert m. induction names as [|x names IH]; intros m; cbn [fold_left]; [done|].
  rewrite IH, hm_remove_all. repeat case_bool_decide; set_solver.
Qed.

Lemma set_all_get pairs (m : M) n :
  NoDup (map fst pairs) ->
  hm_get_all (fold_left (fun hs nv => hm_insert hs nv.1 nv.2) pairs m) n
  = match List.find (fun nv => bool_decide (nv.1 = n)) pairs with
    | Some nv => [nv.2]
    | None => hm_get_all m n
    end.
Proof.
  revert m. induction pairs as [|[x v] pairs IH]; intros m Hnd; cbn [fold_left List.find map fst snd] in *; [done|].
  apply NoDup_cons in Hnd as [Hx Hnd]. rewrite IH by done.
  destruct (bool_decide_reflect (x = n)) as [->|Hne].
  - destruct (List.find _ pairs) as [[y w]|] eqn:E.
    + apply find_some in E as [Hin Hy]. apply bool_decide_eq_true in Hy. cbn in Hy. subst y.
      destruct Hx. apply list_elem_of_fmap. exists (n, w). by rewrite list_elem_of_In.
    + by rewrite hm_insert_all, bool_decide_true.
  - destruct (List.find _ pairs); [done|]. by rewrite hm_insert_all, bool_decide_false by congruence.
Qed.
End headers_ok.

Section route_ok.
Context {M : Type} `{HeaderMap M} (value_from_str : bytes -> option bytes).
Context (filter_ids upstream_names : gset bytes).

(** What one accepted route with targets [ts] satisfies. *)
Record route_ok (r : Route) (ts : list (bytes * Z)) : Prop := {
  ok_name : forall n, r_name r = Some n -> trim n <> [];
  ok_unreserved : resolved_name r <> UNMATCHED_ROUTE;
  ok_targets : targets_ok r ts;
  ok_upstreams : Forall (fun t => t.1 ∈ upstream_names) ts;
  ok_split : split_ok (map snd ts);
  ok_filters : Forall (fun f => f ∈ filter_ids) (r_filters r);
  ok_rate : forall rl, r_rate_limit r = Some rl -> rl_rate rl <> 0 /\ rl_burst rl <> 0;
  ok_upgrade : forall up, r_upgrade r = Some up -> upgrade_ok up;
  ok_compression : forall c, r_compression r = Some c -> compression_ok c;
  ok_headers : forall h, r_headers r = Some h -> headers_ok (M := M) value_from_str h;
  ok_body : forall rb, r_response_body r = Some rb -> response_body_ok rb;
}.

Definition weights_u32 (r : Route) : Prop := Forall (fun b => is_u32 (bk_weight b)) (r_backends r).

Lemma targets_u32 r ts : weights_u32 r -> targets_ok r ts -> Forall is_u32 (map snd ts).
Proof.
  intros Hw [(u & _ & _ & ->)|(_ & _ & ->)].
  - apply Forall_singleton. cbn. unfold is_u32, u32_max. lia.
  - rewrite map_map. apply Forall_map. exact Hw.
Qed.

Lemma check_split_ok ts : Forall is_u32 (map snd ts) -> check_split ts = Ok tt <-> split_ok (map snd ts).
Proof.
  intros Hu. rewrite <- validate_split_ok by done. unfold check_split.
  destruct (validate_split (map snd ts)) as [t|e]; [|naive_solver].
  split; [by exists t|done].
Qed.

Lemma name_checks_ok seen r :
  first_failure (name_checks seen r) = Ok tt <->
  (forall n, r_name r = Some n -> trim n <> []) /\ resolved_name r <> UNMATCHED_ROUTE /\
  resolved_name r ∉ seen.
Proof.
  unfold name_checks. rewrite !first_failure_cons_ok, first_failure_nil_ok, bool_decide_eq_false.
  unfold bytes_eqb. rewrite bool_decide_eq_false.
  assert (Hb : match r_name r with Some name => blank name | None => false end = false <->
    forall n, r_name r = Some n -> trim n <> []).
  { destruct (r_name r) as [n|]; [rewrite blank_false|]; naive_solver. }
  tauto.
Qed.

Lemma member_checks_ok {A} (key : A -> bytes) (e : A -> RouteReason) (X : gset bytes) l :
  first_failure (map (fun t => (negb (bool_decide (key t ∈ X)), e t)) l) = Ok tt <->
  Forall (fun t => key t ∈ X) l.
Proof.
  rewrite first_failure_map_ok. apply Forall_iff'. intros t.
  by rewrite negb_false_iff, bool_decide_eq_true.
Qed.

Lemma rate_checks_ok rl : first_failure (rate_checks rl) = Ok tt <-> rl_rate rl <> 0 /\ rl_burst rl <> 0.
Proof.
  unfold rate_checks. rewrite !first_failure_cons_ok, first_failure_nil_ok, !Z.eqb_neq. tauto.
Qed.

Lemma validate_route_ok seen r ts :
  weights_u32 r ->
  validate_route (M := M) value_from_str filter_ids upstream_names seen r = Ok ts <->
  route_ok r ts /\ resolved_name r ∉ seen.
Proof.
  intros Hw. unfold validate_route, target_checks, filter_checks.
  rewrite res_bind_unit, name_checks_ok, res_bind_ok.
  repeat setoid_rewrite res_bind_unit.
  setoid_rewrite (member_checks_ok fst _). setoid_rewrite (member_checks_ok id UnknownFilter).
  setoid_rewrite (block_ok _ _ _ rate_checks_ok). setoid_rewrite (block_ok _ _ _ upgrade_checks_ok).
  setoid_rewrite (block_ok _ _ _ compression_checks_ok).
  setoid_rewrite (block_result_ok _ _ _ (validate_response_headers_ok value_from_str)).
  setoid_rewrite (block_result_ok _ _ _ validate_response_body_ok).
  setoid_rewrite targets_spec. split.
  - intros ((Hn & Hu & Hseen) & ts' & Ht & Hm & Hs & Hf & Hr & Hup & Hc & Hh & Hb & [= ->]).
    split; [|done]. apply check_split_ok in Hs; [|by eapply targets_u32]. by split.
  - intros [[Hn Hu Ht Hm Hs Hf Hr Hup Hc Hh Hb] Hseen]. split; [done|]. exists ts.
    apply check_split_ok in Hs; [|by eapply targets_u32]. done.
Qed.
End route_ok.

Section table.
Context {M : Type} `{HeaderMap M} (value_from_str : bytes -> option bytes).
Context (filter_ids upstream_names : gset bytes).

Lemma validate_from_ok seen routes vs :
  Forall weights_u32 routes ->
  validate_from (M := M) value_from_str filter_ids upstream_names seen routes = Ok vs <->
  Forall2 (fun r v => v.1 = r /\ route_ok (M := M) value_from_str filter_ids upstream_names r v.2)
    routes vs /\
  NoDup (map resolved_name routes) /\ Forall (fun r => resolved_name r ∉ seen) routes.
Proof.
  intros Hw. revert seen vs. induction Hw as [|r routes Hr _ IH]; intros seen vs; cbn [validate_from map].
  { split; [intros [= <-]; split; [constructor|split; constructor]|].
    intros [Hv _]. by inversion Hv. }
  rewrite NoDup_cons, Forall_cons. split.
  - destruct (validate_route _ _ _ seen r) as [ts|e] eqn:E; [|done].
    apply validate_route_ok in E as [Hok Hseen]; [|done]. rewrite res_bind_ok.
    intros (vs' & Hvs & [= <-]). apply IH in Hvs as (H2 & Hnd & Hfresh).
    rewrite Forall_forall in Hfresh. split_and!.
    + by constructor.
    + intros (x & Hx & Hin)%list_elem_of_fmap. apply (Hfresh x Hin). set_solver.
    + done.
    + done.
    + apply Forall_forall. intros x Hin Hs. apply (Hfresh x Hin). set_solver.
  - intros (H2 & (Hx & Hnd) & Hseen & Hfresh). apply Forall2_cons_inv_l in H2 as ([r' ts] & vs' & [Er Hok] & H2 & ->).
    cbn in Er, Hok. subst r'.
    rewrite (proj2 (validate_route_ok _ _ _ seen r ts Hr) (conj Hok Hseen)), res_bind_ok.
    exists vs'. split; [|done]. apply IH. split_and!; [done|done|].
    rewrite Forall_forall in Hfresh |- *. intros x Hin.
    apply not_elem_of_union. split; [|by apply Hfresh].
    intros Hs%elem_of_singleton. apply Hx. apply list_elem_of_fmap. by exists x.
Qed.

(** Route validation accepts exactly the tables whose routes each satisfy every documented
    condition (a non-blank, unreserved name, one target form over declared upstreams with a
    representable split, declared filters, usable limiter, upgrade, compression, header and
    body blocks) and whose resolved names are distinct; it returns each route with its
    targets, in order. *)
Theorem route_validation_exact (routes : list Route) (vs : list (Route * list (bytes * Z))) :
  Forall weights_u32 routes ->
  validate_routes (M := M) value_from_str filter_ids upstream_names routes = Ok vs <->
  Forall2 (fun r v => v.1 = r /\ route_ok (M := M) value_from_str filter_ids upstream_names r v.2)
    routes vs /\
  NoDup (map resolved_name routes).
Proof.
  intros Hw. unfold validate_routes. rewrite validate_from_ok by done.
  pose proof (Forall_true (fun r => resolved_name r ∉ (∅ : gset bytes)) routes
    (fun r => not_elem_of_empty _)). tauto.
Qed.

Context {F G : Type} (body_hooks : F -> BodyHooks).
Context (filters : gmap bytes F) (groups : gmap bytes G).

Lemma resolve_targets_ok ts :
  Forall (fun t => is_Some (groups !! t.1)) ts ->
  exists gs, resolve_targets groups ts = Ok gs /\
    Forall2 (fun t g => groups !! t.1 = Some g.1 /\ g.2 = t.2) ts gs.
Proof.
  induction 1 as [|[name w] ts [g Hg] _ (gs & E & IH)]; cbn [resolve_targets].
  { exists []. by split. }
  cbn in Hg. rewrite Hg, E. exists ((g, w) :: gs). split; [done|]. by constructor.
Qed.

Lemma resolved_weights ts (gs : list (G * Z)) :
  Forall2 (fun t g => groups !! t.1 = Some g.1 /\ g.2 = t.2) ts gs -> map snd gs = map snd ts.
Proof. induction 1 as [|?? ?? [_ E] _ IH]; [done|]. cbn [map]. by rewrite E, IH. Qed.

Lemma chain_complete ids :
  Forall (fun id => is_Some (filters !! id)) ids ->
  Forall2 (fun id f => filters !! id = Some f) ids (omap (fun id => filters !! id) ids).
Proof.
  induction 1 as [|id ids [f Hf] _ IH]; [constructor|]. cbn [omap list_omap]. rewrite Hf.
  by constructor.
Qed.

Lemma fold_hooks_spec ids :
  let hooks := fold_hooks body_hooks filters ids in
  (bh_request hooks = true <-> exists id f, id ∈ ids /\ filters !! id = Some f /\
    bh_request (body_hooks f) = true) /\
  (bh_response hooks = true <-> exists id f, id ∈ ids /\ filters !! id = Some f /\
    bh_response (body_hooks f) = true).
Proof.
  unfold fold_hooks. induction ids as [|id ids IH] using rev_ind.
  { cbn. split; (split; [done|intros (? & ? & Hin & _); by apply not_elem_of_nil in Hin]). }
  rewrite fold_left_app. cbn [fold_left]. cbn zeta in *.
  setoid_rewrite elem_of_app. setoid_rewrite list_elem_of_singleton.
  destruct IH as [IH1 IH2]. destruct (filters !! id) as [f|] eqn:E.
  - cbn [union bh_request bh_response]. rewrite !orb_true_iff, IH1, IH2. naive_solver.
  - rewrite IH1, IH2. naive_solver.
Qed.

(** Nothing the manifest declares for [r] is missing from its compiled form [c]. *)
Record compiled_from (r : Route) (c : CompiledRoute F G) : Prop := {
  cf_chain : Forall2 (fun id f => filters !! id = Some f) (r_filters r) (cr_resolved_chain c);
  cf_hooks : (bh_request (cr_body_hooks c) = true <->
      exists f, f ∈ cr_resolved_chain c /\ bh_request (body_hooks f) = true) /\
    (bh_response (cr_body_hooks c) = true <->
      exists f, f ∈ cr_resolved_chain c /\ bh_response (body_hooks f) = true);
  cf_groups : Forall (fun g => exists ts t, targets r = Ok ts /\ t ∈ ts /\
    groups !! t.1 = Some g /\ 0 < t.2) (wb_groups (cr_backends c));
  cf_limit : forall rl, r_rate_limit r = Some rl ->
    cr_rate_limit c = Some (rl_new rl) /\ rl_rate rl <> 0 /\ rl_burst rl <> 0;
  cf_headers : forall h, r_headers r = Some h -> exists d, cr_response_headers c = Some d /\
    Forall2 (fun nv e => parse_name nv.1 = Some e.1 /\ value_from_str nv.2 = Some e.2)
      (rh_set h) (dh_set d) /\
    Forall2 (fun n p => parse_name n = Some p) (rh_remove h) (dh_remove d);
  cf_upgrade : forall u value, cr_upgrade c = Some u -> allowed_token u value <> Some (bs "h2c");
}.

Lemma find_token_in protocols tokens p : find_token protocols tokens = Some p -> p ∈ protocols.
Proof.
  induction tokens as [|tok tokens IH]; cbn [find_token]; [done|].
  destruct (List.find _ protocols) as [q|] eqn:E; [|done]. intros [= <-].
  apply find_some in E as [Hin _]. by apply list_elem_of_In.
Qed.

Lemma upgrade_never_h2c up value :
  upgrade_ok up ->
  allowed_token (upgrade_new (ru_protocols up) (ru_idle_timeout_ms up)) value <> Some (bs "h2c").
Proof.
  intros [_ Hp] E. apply find_token_in in E. cbn [upgrade_new uc_protocols] in E.
  apply list_elem_of_fmap in E as (p & E & Hin). rewrite Forall_forall in Hp.
  by destruct (Hp p Hin).
Qed.

Lemma declared_pairs_complete set :
  Forall (fun nv => declarable (M := M) nv.1 /\ value_from_str nv.2 <> None) set ->
  Forall2 (fun nv e => parse_name nv.1 = Some e.1 /\ value_from_str nv.2 = Some e.2)
    set (omap (declared_pair (M := M) value_from_str) set).
Proof.
  induction 1 as [|[n v] set [(p & Hp & _) Hv] _ IH]; [constructor|]. cbn [omap list_omap].
  unfold declared_pair at 1. cbn in *. rewrite Hp. destruct (value_from_str v) as [w|] eqn:E; [|done].
  by constructor.
Qed.

Lemma removed_names_complete names :
  Forall (declarable (M := M)) names -> Forall2 (fun n p => parse_name n = Some p) names (omap parse_name names).
Proof.
  induction 1 as [|n names (p & Hp & _) _ IH]; [constructor|]. cbn [omap list_omap]. rewrite Hp.
  by constructor.
Qed.

Lemma fold_hooks_chain ids (get : BodyHooks -> bool) chain :
  Forall2 (fun id f => filters !! id = Some f) ids chain ->
  (exists id f, id ∈ ids /\ filters !! id = Some f /\ get (body_hooks f) = true) <->
  exists f, f ∈ chain /\ get (body_hooks f) = true.
Proof.
  intros H2. split.
  - intros (id & f & Hin & Hf & Hg). apply list_elem_of_lookup_1 in Hin as [i Hi].
    destruct (Forall2_lookup_l _ _ _ _ _ H2 Hi) as (f' & Hi' & Hf'). exists f'.
    split; [by eapply list_elem_of_lookup_2|]. congruence.
  - intros (f & Hin & Hg). apply list_elem_of_lookup_1 in Hin as [i Hi].
    destruct (Forall2_lookup_r _ _ _ _ _ H2 Hi) as (id & Hi' & Hf). exists id, f.
    split; [by eapply list_elem_of_lookup_2|done].
Qed.

Hypothesis filters_loaded : forall id, id ∈ filter_ids -> is_Some (filters !! id).
Hypothesis groups_built : forall n, n ∈ upstream_names -> is_Some (groups !! n).

Lemma compile_one_ok r ts :
  weights_u32 r -> route_ok (M := M) value_from_str filter_ids upstream_names r ts ->
  exists c, compile_one (M := M) value_from_str body_hooks groups filters (r, ts) = Ok c /\
    cr_name c = resolved_name r /\ compiled_from r c.
Proof.
  intros Hw [Hn Hu Ht Hm Hs Hf Hr Hup Hc Hh Hb]. unfold compile_one. cbn [fst snd].
  destruct (resolve_targets_ok ts) as (gs & -> & Hgs); [by eapply Forall_impl; [exact Hm|]; cbn; auto|].
  cbn [res_bind]. unfold wb_new. rewrite (resolved_weights ts gs Hgs).
  apply validate_split_ok in Hs as [total ->]; [|by eapply targets_u32]. eexists.
  split; [done|]. split; [done|].
  assert (Hchain : Forall2 (fun id f => filters !! id = Some f) (r_filters r)
    (omap (fun id => filters !! id) (r_filters r))).
  { apply chain_complete. eapply Forall_impl; [exact Hf|]. cbn. auto. }
  split.
  - exact Hchain.
  - cbn [compile cr_body_hooks cr_resolved_chain].
    destruct (fold_hooks_spec (r_filters r)) as [H1 H2]. cbn zeta in *.
    rewrite H1, H2. by rewrite !(fold_hooks_chain _ _ _ Hchain).
  - cbn. apply Forall_forall. intros g ([g' w] & -> & Hin)%list_elem_of_fmap.
    apply list_elem_of_filter in Hin as [Hpos Hin]. apply list_elem_of_lookup_1 in Hin as [i Hi].
    destruct (Forall2_lookup_r _ _ _ _ _ Hgs Hi) as (t & Hi' & Hg & Hwt). cbn in *.
    exists ts, t. split_and!; [by apply targets_spec|by eapply list_elem_of_lookup_2|done|lia].
  - intros rl E. cbn. rewrite E. by destruct (Hr rl E).
  - intros h E. cbn. rewrite E. eexists. split; [done|]. cbn.
    destruct (Hh h E) as (_ & Hset & _ & Hrem).
    split; [by apply declared_pairs_complete|by apply removed_names_complete].
  - intros u value E. cbn in E. destruct (r_upgrade r) as [up|] eqn:Eu; [|done].
    injection E as <-. by apply upgrade_never_h2c, Hup.
Qed.

Lemma compile_all_ok (routes : list Route) (vs : list (Route * list (bytes * Z))) :
  Forall weights_u32 routes ->
  Forall2 (fun r v => v.1 = r /\ route_ok (M := M) value_from_str filter_ids upstream_names r v.2)
    routes vs ->
  exists cs, compile_all (M := M) value_from_str body_hooks groups filters vs = Ok cs /\
    map cr_name cs = map resolved_name routes /\ UNMATCHED_ROUTE ∉ map resolved_name routes /\
    Forall2 compiled_from routes cs.
Proof.
  intros Hw H2. induction H2 as [|r [r' ts] routes vs [Er Hok] _ IH].
  { exists []. split_and!; [done|done|apply not_elem_of_nil|constructor]. }
  cbn in Er, Hok. subst r'. apply Forall_cons in Hw as [Hr Hw].
  destruct (IH Hw) as (cs & E & En & Hu & Hc).
  destruct (compile_one_ok r ts Hr Hok) as (c & Ec & Ecn & Hcf). exists (c :: cs).
  cbn [compile_all map]. rewrite Ec, E, Ecn, En. split_and!; [done|done| |by constructor].
  apply not_elem_of_cons. split; [|done]. intros Eq. by destruct Hok.
Qed.

(** Compiling a validated route table never fails once the declared filters are loaded and the
    declared upstreams have groups, and drops nothing: every route keeps its name (distinct,
    unreserved), its whole filter chain in order, the body hooks of that chain, its limiter and
    its declared headers; it forwards only to the groups it names with positive weight, and
    never tunnels [h2c]. *)
Theorem compiled_table_complete (routes : list Route) (vs : list (Route * list (bytes * Z))) :
  Forall weights_u32 routes ->
  validate_routes (M := M) value_from_str filter_ids upstream_names routes = Ok vs ->
  exists cs, compile_all (M := M) value_from_str body_hooks groups filters vs = Ok cs /\
    NoDup (map cr_name cs) /\ UNMATCHED_ROUTE ∉ map cr_name cs /\ Forall2 compiled_from routes cs.
Proof.
  intros Hw Hv. unfold validate_routes in Hv. apply validate_from_ok in Hv as (H2 & Hnd & _); [|done].
  destruct (compile_all_ok routes vs Hw H2) as (cs & E & En & Hu & Hc). exists cs. by rewrite En.
Qed.
End table.

Section stamp.
Context {M : Type} `{HeaderMapLaws M} (value_from_str : bytes -> option bytes).

Lemma declared_find set n :
  NoDup (map (fun nv => parse_name nv.1) set) ->
  Forall (fun nv => declarable (M := M) nv.1 /\ value_from_str nv.2 <> None) set ->
  List.find (fun nv => bool_decide (nv.1 = n)) (omap (declared_pair (M := M) value_from_str) set)
  = match List.find (fun nv => bool_decide (parse_name nv.1 = Some n)) set with
    | Some nv => (fun v => (n, v)) <$> value_from_str nv.2
    | None => None
    end.
Proof.
  intros _. induction 1 as [|[name value] set [(p & Hp & _) Hv] _ IH]; [done|].
  cbn [omap list_omap List.find]. unfold declared_pair at 1. cbn [fst snd] in *. rewrite Hp.
  destruct (value_from_str value) as [w|] eqn:Ev; [|done]. cbn [List.find fst].
  destruct (decide (p = n)) as [->|Hne].
  - rewrite !bool_decide_true by done. cbn [snd]. by rewrite Ev.
  - rewrite !bool_decide_false by congruence. exact IH.
Qed.

Lemma declared_names_nodup set :
  NoDup (map (fun nv => parse_name nv.1) set) ->
  NoDup (map fst (omap (declared_pair (M := M) value_from_str) set)).
Proof.
  induction set as [|[name value] set IH]; [intros _; constructor|]. cbn [map omap list_omap].
  intros [Hx Hnd]%NoDup_cons. unfold declared_pair at 1. cbn [fst snd] in *.
  destruct (parse_name name) as [p|] eqn:Ep; [|by apply IH].
  destruct (value_from_str value) as [w|]; [|by apply IH]. cbn [map fst].
  apply NoDup_cons. split; [|by apply IH]. intros (q & Eq & Hin)%list_elem_of_fmap.
  apply list_elem_of_omap in Hin as ([name' value'] & Hin & Eq'). apply Hx.
  apply list_elem_of_fmap. exists (name', value'). split; [|done]. unfold declared_pair in Eq'.
  cbn in *. destruct (parse_name name') as [q'|]; [|done].
  destruct (value_from_str value'); [|done]. injection Eq' as <-. cbn in Eq. congruence.
Qed.

Lemma removed_names (names : list bytes) (n : bytes) :
  n ∈ omap (parse_name (M := M)) names <-> exists name, name ∈ names /\ parse_name name = Some n.
Proof. rewrite list_elem_of_omap. naive_solver. Qed.

(** A validated response-header declaration is a floor: on every response each declared name
    carries exactly its declared value, a removed name that is not also set is absent, every
    other header keeps all its values, and the host's framing and hop-by-hop headers are never
    touched. *)
Theorem declared_headers_floor (h : RouteHeaders) (m : M) (n : bytes) :
  validate_response_headers (M := M) value_from_str h = Ok tt ->
  hm_get_all (response_headers_apply (response_headers_new (M := M) value_from_str h) m) n =
    match declared_value (M := M) value_from_str h n with
    | Some v => [v]
    | None =>
      if bool_decide (Exists (fun name => parse_name (M := M) name = Some n) (rh_remove h)) then []
      else hm_get_all m n
    end /\
  (n = CONTENT_LENGTH \/ n ∈ HOP_BY_HOP_GUEST_HEADERS ->
    hm_get_all (response_headers_apply (response_headers_new (M := M) value_from_str h) m) n =
    hm_get_all m n).
Proof.
  intros (Hne & Hset & Hnd & Hrem)%validate_response_headers_ok.
  unfold response_headers_apply. cbn [response_headers_new dh_set dh_remove].
  rewrite set_all_get by by apply declared_names_nodup.
  rewrite remove_all_get, declared_find by done. unfold declared_value.
  assert (Hex : Exists (fun name => parse_name (M := M) name = Some n) (rh_remove h) <->
    n ∈ omap (parse_name (M := M)) (rh_remove h)).
  { rewrite removed_names, Exists_exists. naive_solver. }
  rewrite (bool_decide_ext _ _ Hex).
  destruct (List.find _ (rh_set h)) as [nv|] eqn:E.
  - apply find_some in E as [Hin Hp]. apply bool_decide_eq_true in Hp.
    apply list_elem_of_In in Hin. rewrite Forall_forall in Hset.
    destruct (Hset nv Hin) as [(p & Hp' & Hc & Hh) Hv].
    destruct (value_from_str nv.2) as [v|]; [|done]. cbn. split; [done|].
    intros Hr. assert (p = n) as -> by congruence. by destruct Hr.
  - split; [done|]. intros Hr. rewrite bool_decide_false; [done|].
    intros (name & Hin & Hp)%removed_names. rewrite Forall_forall in Hrem.
    destruct (Hrem name Hin) as (p & Hp' & Hc & Hh). assert (p = n) as -> by congruence.
    by destruct Hr.
Qed.
End stamp.

(** ** Witnesses *)

#[local] Existing Instance alist_headers.
#[local] Existing Instance alist_laws.

Definition demo_headers : RouteHeaders :=
  mkRouteHeaders [(bs "x-frame-options", bs "DENY")] [bs "server"].

Definition demo_api : Route :=
  mkRoute None (mkMatch (Some (bs "API.example")) (bs "/api") (Some (bs "get")) [] [])
    [bs "auth"] (Some (bs "users")) [] (Some (bs "/api")) (Some (mkRouteRateLimit 10 20 KeyRoute))
    (Some (mkUpgrade [bs "WebSocket"] 0)) (Some default_compression) (Some demo_headers) None
    (Some default_response_body).

Definition demo_rest : Route :=
  mkRoute None (mkMatch None (bs "/") None [(bs "x-canary", bs "1")] []) []
    None [mkBackend (bs "users") 3; mkBackend (bs "web") 1] None None None None None None None.

Definition demo_filter_ids : gset bytes := {[ bs "auth" ]}.
Definition demo_upstreams : gset bytes := {[ bs "users"; bs "web" ]}.
Definition demo_valid : list (Route * list (bytes * Z)) :=
  [(demo_api, [(bs "users", 1)]); (demo_rest, [(bs "users", 3); (bs "web", 1)])].

Lemma demo_weights : Forall weights_u32 [demo_api; demo_rest].
Proof.
  rewrite !Forall_cons, Forall_nil. unfold weights_u32, is_u32, u32_max. cbn [r_backends demo_api demo_rest].
  rewrite !Forall_cons, !Forall_nil. cbn [bk_weight]. lia.
Qed.

Lemma demo_accepted :
  validate_routes (M := list (bytes * bytes)) Some demo_filter_ids demo_upstreams
    [demo_api; demo_rest] = Ok demo_valid.
Proof. vm_compute. reflexivity. Qed.

Lemma route_validation_exact_witness :
  NoDup (map resolved_name [demo_api; demo_rest]).
Proof.
  apply (proj1 (route_validation_exact (M := list (bytes * bytes)) Some demo_filter_ids
    demo_upstreams [demo_api; demo_rest] demo_valid demo_weights) demo_accepted).
Defined.

Definition demo_filters : gmap bytes BodyHooks := {[ bs "auth" := mkHooks true false ]}.
Definition demo_groups : gmap bytes nat := <[bs "users" := 1%nat]> {[ bs "web" := 2%nat ]}.

Lemma compiled_table_complete_witness :
  exists cs, compile_all (M := list (bytes * bytes)) Some id demo_groups demo_filters demo_valid = Ok cs
    /\ UNMATCHED_ROUTE ∉ map cr_name cs.
Proof.
  destruct (compiled_table_complete (M := list (bytes * bytes)) Some demo_filter_ids demo_upstreams
    id demo_filters demo_groups) with (routes := [demo_api; demo_rest]) (vs := demo_valid)
    as (cs & E & _ & Hu & _).
  - intros x ->%elem_of_singleton. eexists. apply lookup_singleton_eq.
  - intros x [->%elem_of_singleton| ->%elem_of_singleton]%elem_of_union;
      apply (bool_decide_unpack _); vm_compute; exact I.
  - exact demo_weights.
  - exact demo_accepted.
  - exists cs. split; [exact E|exact Hu].
Defined.

Lemma declared_headers_floor_witness :
  hm_get_all (response_headers_apply (response_headers_new (M := list (bytes * bytes)) Some demo_headers)
    [(bs "x-frame-options", bs "ALLOW"); (bs "server", bs "up"); (bs "content-length", bs "3")])
    (bs "x-frame-options") = [bs "DENY"].
Proof.
  assert (E : validate_response_headers (M := list (bytes * bytes)) Some demo_headers = Ok tt)
    by (vm_compute; reflexivity).
  rewrite (proj1 (declared_headers_floor (M := list (bytes * bytes)) Some demo_headers
    [(bs "x-frame-options", bs "ALLOW"); (bs "server", bs "up"); (bs "content-length", bs "3")]
    (bs "x-frame-options") E)). vm_compute. reflexivity.
Defined.

(** The more specific route wins over an earlier catch-all; no route, no match. *)
Example select_examples :
  let rest := compile (M := list (bytes * bytes)) (F := unit) (G := nat) Some (fun _ => hooks_none) demo_rest
    (mkWeighted [] ([] : list nat) 0) ∅ in
  let api := compile (M := list (bytes * bytes)) (F := unit) (G := nat) Some (fun _ => hooks_none) demo_api
    (mkWeighted [] ([] : list nat) 0) ∅ in
  select [rest; api] (mkRequestParts (bs "api.EXAMPLE.:443") (bs "/api/x?y=1") (bs "GET")
    [mkHeader (bs "X-Canary") (bs "1")]) = Some 1%nat /\
  select [rest; api] (mkRequestParts (bs "other") (bs "/api") (bs "GET")
    [mkHeader (bs "X-Canary") (bs "1")]) = Some 0%nat /\
  select [rest; api] (mkRequestParts (bs "other") (bs "/api") (bs "GET")
    [mkHeader (bs "x-canary") (bs "0"); mkHeader (bs "x-canary") (bs "1")]) = None.
Proof. vm_compute. done. Qed.
