(* ===== verification/ContentHash.v ===== *)
(** * The reload gate's identity (control/src/manifest/mod.rs, content_hash.rs)

    The whole manifest as the control plane reads it, the logged config version and the
    unlogged reload fingerprint: digests of a canonical serialisation and of every file the
    build reads.  SHA-256, hex encoding and the serialiser are libraries and are parameters;
    the bytes a hasher is fed are the list built here. *)

From stdpp Require Import sorting pretty.
From S2P Require Import Prelude Bytes Manifest Route.

(** ** The manifest (manifest/mod.rs, tls.rs, trust.rs, chain.rs, resumption.rs) *)

Record TlsCert := mkTlsCert { tc_host : option bytes; tc_cert_path : bytes; tc_key_path : bytes }.

Record Resumption := mkResumption { rs_stek_file : bytes; rs_max_age_hours : Z }.

(** [mf_chain] is [chain.filters], [mf_trust] is [trust.keys], [mf_client_auth] is
    [listen.client_auth.ca_path]; the sections captured once at startup are left out. *)
Record ManifestDoc := mkManifest {
  mf_trust : list bytes;
  mf_state : State;
  mf_filters : list FilterEntry;
  mf_chain : list bytes;
  mf_upstreams : list Upstream;
  mf_routes : list Route;
  mf_tls : list TlsCert;
  mf_resumption : option Resumption;
  mf_client_auth : option bytes;
  mf_proxy_protocol : option (list bytes);
  mf_trusted_proxy : option (list bytes);
}.

Definition MAX_AGE_HOURS_CAP : Z := 168.
Definition resumption_validate (r : Resumption) : bool :=
  negb ((rs_max_age_hours r =? 0) || (MAX_AGE_HOURS_CAP <? rs_max_age_hours r)).

(** ** Iterating a [BTreeMap<String, String>]: keys in byte order *)

Definition btree_keys (m : gmap bytes bytes) : list bytes :=
  merge_sort bytes_le (map fst (map_to_list m)).
Definition btree_entries (m : gmap bytes bytes) : list (bytes * bytes) :=
  map (fun k => (k, m !!! k)) (btree_keys m).

(** ** What is fed to the hasher *)

Definition NUL : ascii := ascii_of_nat 0.

(** [u64::to_le_bytes]. *)
Fixpoint le_bytes (n : nat) (x : Z) : bytes :=
  match n with
  | O => []
  | S n' => ascii_of_nat (Z.to_nat (x mod 256)) :: le_bytes n' (x / 256)
  end.
Definition len_u64 (s : bytes) : bytes := le_bytes 8 (Z.of_nat (length s)).

(** One referenced file: the label and identity it is mixed under, and its path. *)
Record FileRef := mkRef { fr_label : bytes; fr_identity : bytes; fr_path : bytes }.

Inductive HashError :=
| ReadFailed (label path : bytes)
| FilterConfigFailed (id : bytes) (e : ConfigError)
| SerializeFailed.

Definition tls_identity (index : nat) (host : option bytes) : bytes :=
  bs (pretty (N.of_nat index)) ++ ":"%char :: default [] host.

Definition tls_refs (label : bytes) (path : TlsCert -> bytes) (tls : list TlsCert) : list FileRef :=
  imap (fun index entry => mkRef label (tls_identity index (tc_host entry)) (path entry)) tls.

Definition opt_ref (label identity : bytes) (path : option bytes) : list FileRef :=
  match path with Some p => [mkRef label identity p] | None => [] end.

Definition upstream_public (up : Upstream) : list FileRef :=
  match up_tls up with
  | None => []
  | Some tls =>
    opt_ref (bs "upstream.tls.ca") (up_name up) (tls_ca_path tls) ++
    opt_ref (bs "upstream.tls.client_cert") (up_name up) (tls_client_cert_path tls)
  end.

Definition upstream_secret (up : Upstream) : list FileRef :=
  match up_tls up with
  | None => []
  | Some tls => opt_ref (bs "upstream.tls.client_key") (up_name up) (tls_client_key_path tls)
  end.

(** The files in the order the two loops read them. *)
Definition public_refs (m : ManifestDoc) : list FileRef :=
  tls_refs (bs "tls.cert") tc_cert_path (mf_tls m) ++ flat_map upstream_public (mf_upstreams m).
Definition secret_refs (m : ManifestDoc) : list FileRef :=
  tls_refs (bs "tls.key") tc_key_path (mf_tls m) ++ flat_map upstream_secret (mf_upstreams m) ++
  opt_ref (bs "resumption.stek") [] (rs_stek_file <$> mf_resumption m).

Section content_hash.
(** [Sha256::digest], [hex::encode] and [serde_json::to_vec] of a manifest. *)
Context (sha256 hex_encode : bytes -> bytes) (to_json : ManifestDoc -> option bytes).

Definition mix_file (label identity content : bytes) : bytes :=
  NUL :: label ++ NUL :: len_u64 identity ++ identity ++ sha256 content.

Section disk.
(** The readable files, and the directory relative paths start from. *)
Context (read_file : bytes -> option bytes) (base_dir : bytes).

Fixpoint mix_refs (refs : list FileRef) : result bytes HashError :=
  match refs with
  | [] => Ok []
  | r :: rest =>
    match read_file (join_path base_dir (fr_path r)) with
    | None => Err (ReadFailed (fr_label r) (fr_path r))
    | Some content =>
      let? tail := mix_refs rest in
      Ok (mix_file (fr_label r) (fr_identity r) content ++ tail)
    end
  end.

Definition mix_public_material (m : ManifestDoc) : result bytes HashError := mix_refs (public_refs m).

Definition mix_entries (id : bytes) (resolved : gmap bytes bytes) : bytes :=
  flat_map (fun kv => mix_file (bs "filter.config") (id ++ NUL :: kv.1) kv.2) (btree_entries resolved).

Fixpoint mix_filters (filters : list FilterEntry) : result bytes HashError :=
  match filters with
  | [] => Ok []
  | entry :: rest =>
    match resolved_config read_file base_dir entry with
    | Err e => Err (FilterConfigFailed (fe_id entry) e)
    | Ok None => mix_filters rest
    | Ok (Some resolved) =>
      let? tail := mix_filters rest in
      Ok (mix_entries (fe_id entry) resolved ++ tail)
    end
  end.

Definition read_client_auth_ca (m : ManifestDoc) : result (option bytes) HashError :=
  match mf_client_auth m with
  | None => Ok None
  | Some path =>
    match read_file (join_path base_dir path) with
    | Some content => Ok (Some content)
    | None => Err (ReadFailed (bs "listen.client_auth.ca") path)
    end
  end.

Definition digest_text (stream : bytes) : bytes := bs "sha256:" ++ hex_encode (sha256 stream).

(** [content_hash_with_ca_at] with a base directory. *)
Definition content_hash_with_ca_at (m : ManifestDoc) (client_auth_ca : option bytes)
    : result bytes HashError :=
  match to_json m with
  | None => Err SerializeFailed
  | Some json =>
    let ca := match client_auth_ca with
              | Some content => NUL :: bs "listen.client_auth.ca" ++ NUL :: sha256 content
              | None => []
              end in
    let? public := mix_public_material m in
    Ok (digest_text (json ++ ca ++ public))
  end.

Definition content_hash_at (m : ManifestDoc) : result bytes HashError :=
  let? ca := read_client_auth_ca m in content_hash_with_ca_at m ca.

Definition reload_fingerprint (m : ManifestDoc) (config_version : bytes) : result bytes HashError :=
  let? secrets := mix_refs (secret_refs m) in
  let? configs := mix_filters (mf_filters m) in
  Ok (digest_text (bs "plecto.reload-fingerprint.v1" ++ NUL :: config_version ++ secrets ++ configs)).
End disk.
End content_hash.

(** ** Ordered keys *)

Lemma btree_keys_dom m1 m2 : dom m1 = dom m2 -> btree_keys m1 = btree_keys m2.
Proof.
  intros Hd. unfold btree_keys. apply (Sorted_unique bytes_le).
  1-2: apply (Sorted_merge_sort bytes_le).
  rewrite !merge_sort_Permutation. apply NoDup_Permutation; [apply NoDup_fst_map_to_list..|].
  intros k. assert (Hk : forall m : gmap bytes bytes, k ∈ map fst (map_to_list m) <-> k ∈ dom m).
  { intros m. rewrite elem_of_dom, list_elem_of_fmap. split.
    - intros ([? v] & -> & Hin). apply elem_of_map_to_list in Hin. by exists v.
    - intros [v Hv]. exists (k, v). split; [done|]. by apply elem_of_map_to_list. }
  by rewrite !Hk, Hd.
Qed.

Lemma btree_keys_in m k : k ∈ btree_keys m <-> is_Some (m !! k).
Proof.
  unfold btree_keys. rewrite merge_sort_Permutation, list_elem_of_fmap. split.
  - intros ([? v] & -> & Hin). apply elem_of_map_to_list in Hin. by exists v.
  - intros [v Hv]. exists (k, v). split; [done|]. by apply elem_of_map_to_list.
Qed.

(** ** Injectivity of the framing *)

Section gate.
Context (sha256 hex_encode : bytes -> bytes) (to_json : ManifestDoc -> option bytes).

(** Two inputs of the hash function with one digest. *)
Definition collision : Prop := exists a b, a <> b /\ sha256 a = sha256 b.

Hypothesis sha256_length : forall s, length (sha256 s) = 32%nat.
Hypothesis hex_encode_inj : forall a b, hex_encode a = hex_encode b -> a = b.

Lemma digest_eq a b : sha256 a = sha256 b -> a = b \/ collision.
Proof. intros E. destruct (decide (a = b)); [by left|right]. by exists a, b. Qed.

Lemma digest_text_eq a b : digest_text sha256 hex_encode a = digest_text sha256 hex_encode b ->
  a = b \/ collision.
Proof. unfold digest_text. intros E%app_inv_head%hex_encode_inj. by apply digest_eq. Qed.

Lemma mix_file_eq label identity a b s t :
  mix_file sha256 label identity a ++ s = mix_file sha256 label identity b ++ t ->
  sha256 a = sha256 b /\ s = t.
Proof.
  unfold mix_file. intros E. injection E as E. rewrite <- !app_assoc in E.
  apply app_inv_head in E. injection E as E. rewrite <- !app_assoc in E.
  apply app_inv_head in E. apply app_inj_1; [|done]. by rewrite !sha256_length.
Qed.

Section rotation.
Context (base_dir : bytes) (disk1 disk2 : bytes -> option bytes).

Definition same_file (path : bytes) : Prop :=
  disk1 (join_path base_dir path) = disk2 (join_path base_dir path).

Lemma mix_refs_eq refs s1 s2 t1 t2 :
  mix_refs sha256 disk1 base_dir refs = Ok s1 -> mix_refs sha256 disk2 base_dir refs = Ok s2 ->
  s1 ++ t1 = s2 ++ t2 -> (Forall (fun r => same_file (fr_path r)) refs \/ collision) /\ t1 = t2.
Proof.
  revert s1 s2. induction refs as [|r refs IH]; intros s1 s2; cbn [mix_refs].
  { intros [= <-] [= <-] E. split; [left; constructor|done]. }
  unfold same_file at 1.
  destruct (disk1 _) as [c1|] eqn:E1; [|done]. destruct (disk2 _) as [c2|] eqn:E2; [|done].
  rewrite !res_bind_ok. intros (u1 & H1 & <-%Ok_inj) (u2 & H2 & <-%Ok_inj). rewrite <- !app_assoc.
  intros [Hd Ht]%mix_file_eq. destruct (IH _ _ H1 H2 Ht) as [Hrest Heq]. split; [|done].
  destruct (digest_eq _ _ Hd) as [->|]; [|by right]. destruct Hrest as [Hrest|]; [|by right].
  left. constructor; [by rewrite E1, E2|done].
Qed.

Lemma resolve_files_dom (disk : bytes -> option bytes) files merged m :
  resolve_files disk base_dir files merged = Ok m ->
  dom m = list_to_set (map fst files) ∪ dom merged.
Proof.
  revert merged. induction files as [|[key path] files IH]; intros merged; cbn [resolve_files].
  { intros [= <-]. set_solver. }
  destruct (bool_decide _); [done|]. destruct (disk _) as [content|]; [|done].
  cbn zeta. destruct (_ <? _); [done|]. destruct (negb _); [done|]. intros E. apply IH in E.
  rewrite E, dom_insert_L. cbn [map fst list_to_set]. set_solver.
Qed.

Lemma resolve_files_keeps (disk : bytes -> option bytes) files merged m :
  resolve_files disk base_dir files merged = Ok m -> merged ⊆ m.
Proof.
  revert merged. induction files as [|[key path] files IH]; intros merged; cbn [resolve_files].
  { by intros [= <-]. }
  case_bool_decide as Hk; [done|]. destruct (disk _) as [content|]; [|done].
  cbn zeta. destruct (_ <? _); [done|]. destruct (negb _); [done|]. intros E%IH.
  etrans; [|exact E]. apply insert_subseteq. destruct (merged !! key); [|done].
  destruct Hk. eauto.
Qed.

(** A resolved configuration holds every named file's value. *)
Lemma resolve_files_value (disk : bytes -> option bytes) files merged m :
  resolve_files disk base_dir files merged = Ok m ->
  forall key path, (key, path) ∈ files ->
    exists content, disk (join_path base_dir path) = Some content /\ m !! key = Some (trim content).
Proof.
  revert merged. induction files as [|[k p] files IH]; intros merged; cbn [resolve_files].
  { intros _ key path Hin. by apply elem_of_nil in Hin. }
  destruct (bool_decide _); [done|]. destruct (disk (join_path base_dir p)) as [content|] eqn:Ed; [|done].
  cbn zeta. destruct (_ <? _) eqn:El; [done|]. destruct (negb _); [done|].
  intros E key path [Heq|Hin]%elem_of_cons; [|by eapply IH]. injection Heq as -> ->.
  exists content. split; [done|]. apply resolve_files_keeps in E.
  eapply lookup_weaken; [|exact E]. rewrite lookup_insert_eq. do 2 f_equal. apply take_ge.
  apply Z.ltb_ge in El. rewrite length_take in El. unfold MAX_CONFIG_FILE_BYTES in *. lia.
Qed.

Lemma mix_filters_resolves (disk : bytes -> option bytes) filters s :
  mix_filters sha256 disk base_dir filters = Ok s ->
  forall f, f ∈ filters -> exists m, resolved_config disk base_dir f = Ok m.
Proof.
  revert s. induction filters as [|g filters IH]; intros s; cbn [mix_filters].
  { intros _ f Hin. by apply elem_of_nil in Hin. }
  destruct (resolved_config disk base_dir g) as [o|] eqn:Eg; [|done].
  intros E f [->|Hin]%elem_of_cons; [eauto|]. destruct o; [|by eapply IH].
  apply res_bind_ok in E as (u & Hu & _). by eapply IH.
Qed.

Lemma tls_refs_in label (path : TlsCert -> bytes) tls entry : entry ∈ tls ->
  exists r, r ∈ tls_refs label path tls /\ fr_path r = path entry.
Proof.
  intros [i Hi]%list_elem_of_lookup_1.
  exists (mkRef label (tls_identity i (tc_host entry)) (path entry)). split; [|done].
  apply (list_elem_of_lookup_2 _ i). unfold tls_refs. by rewrite list_lookup_imap, Hi.
Qed.

Lemma upstream_ref_in (refs : Upstream -> list FileRef) ups up r :
  up ∈ ups -> r ∈ refs up -> r ∈ flat_map refs ups.
Proof. intros Hu Hr. apply list_elem_of_In, in_flat_map. exists up. by rewrite <- !list_elem_of_In. Qed.

Lemma mix_entries_eq (id : bytes) (m1 m2 : gmap bytes bytes) (s1 s2 : bytes) :
  dom m1 = dom m2 ->
  mix_entries sha256 id m1 ++ s1 = mix_entries sha256 id m2 ++ s2 ->
  (m1 = m2 \/ collision) /\ s1 = s2.
Proof.
  intros Hd. unfold mix_entries, btree_entries. rewrite (btree_keys_dom m1 m2 Hd).
  assert (Hkeys : forall keys,
    flat_map (fun kv => mix_file sha256 (bs "filter.config") (id ++ NUL :: kv.1) kv.2)
      (map (fun k => (k, m1 !!! k)) keys) ++ s1 =
    flat_map (fun kv => mix_file sha256 (bs "filter.config") (id ++ NUL :: kv.1) kv.2)
      (map (fun k => (k, m2 !!! k)) keys) ++ s2 ->
    ((forall k, k ∈ keys -> m1 !!! k = m2 !!! k) \/ collision) /\ s1 = s2).
  { induction keys as [|k keys IH]; cbn [map flat_map fst snd].
    { intros E. split; [left|done]. intros k Hk. by apply not_elem_of_nil in Hk. }
    rewrite <- !app_assoc. intros [Hdg Ht]%mix_file_eq. destruct (IH Ht) as [Hrest Heq].
    split; [|done]. destruct (digest_eq _ _ Hdg) as [Hv|]; [|by right].
    destruct Hrest as [Hrest|]; [left|by right]. intros x [->|Hx]%elem_of_cons; auto. }
  intros E. destruct (Hkeys _ E) as [Hrest ->]. split; [|done].
  destruct Hrest as [Hall|]; [left|by right]. apply map_eq. intros k.
  assert (Hs : is_Some (m1 !! k) <-> is_Some (m2 !! k)) by (rewrite <- !elem_of_dom; by rewrite Hd).
  destruct (m2 !! k) as [v2|] eqn:E2.
  - destruct (proj2 Hs ltac:(eauto)) as [v1 E1]. rewrite E1. f_equal.
    assert (Hin : k ∈ btree_keys m2) by (apply btree_keys_in; eauto). specialize (Hall k Hin).
    by rewrite !lookup_total_alt, E1, E2 in Hall.
  - destruct (m1 !! k) as [v1|] eqn:E1; [|done]. destruct (proj1 Hs ltac:(eauto)) as [? [=]].
Qed.

Lemma mix_filters_eq filters s1 s2 :
  mix_filters sha256 disk1 base_dir filters = Ok s1 ->
  mix_filters sha256 disk2 base_dir filters = Ok s2 -> s1 = s2 ->
  Forall (fun f => resolved_config disk1 base_dir f = resolved_config disk2 base_dir f) filters
  \/ collision.
Proof.
  revert s1 s2. induction filters as [|f filters IH]; intros s1 s2; cbn [mix_filters];
    [intros _ _ _; left; constructor|].
  destruct (resolved_config disk1 base_dir f) as [o1|] eqn:E1; [|done].
  destruct (resolved_config disk2 base_dir f) as [o2|] eqn:E2; [|by destruct o1].
  pose proof E1 as E1'. pose proof E2 as E2'. unfold resolved_config in E1', E2'.
  destruct (fe_config_files f) as [files|].
  - destruct (resolve_files disk1 _ _ _) as [m1|] eqn:R1; [|done].
    destruct (resolve_files disk2 _ _ _) as [m2|] eqn:R2; [|done].
    injection E1' as <-. injection E2' as <-. rewrite !res_bind_ok.
    intros (u1 & H1 & <-%Ok_inj) (u2 & H2 & <-%Ok_inj) E.
    assert (Hd : dom m1 = dom m2)
      by (by rewrite (resolve_files_dom _ _ _ _ R1), (resolve_files_dom _ _ _ _ R2)).
    destruct (mix_entries_eq _ _ _ _ _ Hd E) as [Hm Hu].
    destruct (IH _ _ H1 H2 Hu) as [Hrest|]; [|by right]. destruct Hm as [->|]; [|by right].
    left. constructor; [by rewrite E1, E2|done].
  - injection E1' as <-. injection E2' as <-. intros H1 H2 E.
    destruct (IH _ _ H1 H2 E) as [Hrest|]; [left|by right]. constructor; [by rewrite E1, E2|done].
Qed.

(** The suffix after the serialisation is empty or starts with the separator. *)
Definition separated (s : bytes) : Prop := s = [] \/ exists s', s = NUL :: s'.

Lemma separated_app s t : separated s -> separated t -> separated (s ++ t).
Proof. intros [->|[s' ->]] Ht; [done|right]. by exists (s' ++ t). Qed.

Lemma mix_refs_separated (disk : bytes -> option bytes) refs s :
  mix_refs sha256 disk base_dir refs = Ok s -> separated s.
Proof.
  destruct refs as [|r refs]; cbn [mix_refs]; [intros [= <-]; by left|].
  destruct (disk _); [|done]. rewrite res_bind_ok. intros (u & _ & <-%Ok_inj). right.
  unfold mix_file. by eexists.
Qed.

Lemma separated_prefix a b s t :
  NUL ∉ a -> NUL ∉ b -> separated s -> separated t -> a ++ s = b ++ t -> a = b /\ s = t.
Proof.
  intros Ha Hb Hs Ht. revert b Hb. induction a as [|x a IH]; intros [|y b] Hb E; [done| | |].
  - exfalso. cbn in E. subst s. destruct Hs as [|[s' [= -> _]]]; [done|]. apply Hb. by left.
  - exfalso. cbn in E. subst t. destruct Ht as [|[t' [= -> _]]]; [done|]. apply Ha. by left.
  - injection E as -> E. apply not_elem_of_cons in Ha as [_ Ha], Hb as [_ Hb].
    by destruct (IH Ha b Hb E) as [-> ->].
Qed.

(** The files the build reads for the manifest, section by section. *)
Inductive references (m : ManifestDoc) : bytes -> Prop :=
| ref_client_auth_ca path : mf_client_auth m = Some path -> references m path
| ref_certificate entry : entry ∈ mf_tls m -> references m (tc_cert_path entry)
| ref_private_key entry : entry ∈ mf_tls m -> references m (tc_key_path entry)
| ref_ticket_key r : mf_resumption m = Some r -> references m (rs_stek_file r)
| ref_upstream_ca up tls path : up ∈ mf_upstreams m -> up_tls up = Some tls ->
    tls_ca_path tls = Some path -> references m path
| ref_upstream_cert up tls path : up ∈ mf_upstreams m -> up_tls up = Some tls ->
    tls_client_cert_path tls = Some path -> references m path
| ref_upstream_key up tls path : up ∈ mf_upstreams m -> up_tls up = Some tls ->
    tls_client_key_path tls = Some path -> references m path.

(** A filter's value file, which the build reads without its surrounding white space. *)
Definition same_value (path : bytes) : Prop :=
  exists content1 content2, disk1 (join_path base_dir path) = Some content1 /\
    disk2 (join_path base_dir path) = Some content2 /\ trim content1 = trim content2.

(** Everything the build reads is the same on both disks. *)
Definition same_material (m : ManifestDoc) : Prop :=
  (forall path, references m path -> same_file path) /\
  forall filter files key path, filter ∈ mf_filters m -> fe_config_files filter = Some files ->
    (key, path) ∈ files -> same_value path.

Lemma references_mixed m path : references m path ->
  mf_client_auth m = Some path \/ exists r, r ∈ public_refs m ++ secret_refs m /\ fr_path r = path.
Proof.
  unfold public_refs, secret_refs. intros [p H|e He|e He|r H|up tls p Hu Ht H|up tls p Hu Ht H|up tls p Hu Ht H];
    [by left|right..].
  - apply tls_refs_in with (label := bs "tls.cert") (path := tc_cert_path) in He as (r & Hr & <-).
    exists r. by rewrite !elem_of_app; auto.
  - apply tls_refs_in with (label := bs "tls.key") (path := tc_key_path) in He as (r & Hr & <-).
    exists r. by rewrite !elem_of_app; auto.
  - eexists. rewrite H. cbn [opt_ref fmap option_fmap option_map]. split.
    + rewrite !elem_of_app. do 3 right. by left.
    + done.
  - eexists. split; [rewrite !elem_of_app; left; right; apply (upstream_ref_in _ _ _ _ Hu);
      unfold upstream_public; rewrite Ht, H; by left|done].
  - eexists. split; [rewrite !elem_of_app; left; right; apply (upstream_ref_in _ _ _ _ Hu);
      unfold upstream_public; rewrite Ht, H; apply elem_of_app; right; by left|done].
  - eexists. split; [rewrite !elem_of_app; do 2 right; left; apply (upstream_ref_in _ _ _ _ Hu);
      unfold upstream_secret; rewrite Ht, H; by left|done].
Qed.

Lemma resolved_same_values filter files :
  fe_config_files filter = Some files ->
  resolved_config disk1 base_dir filter = resolved_config disk2 base_dir filter ->
  (exists m, resolved_config disk1 base_dir filter = Ok m) ->
  forall key path, (key, path) ∈ files -> same_value path.
Proof.
  intros Hf E [m Hm] key path Hin. rewrite Hm in E. symmetry in E. unfold resolved_config in Hm, E.
  rewrite Hf in Hm, E.
  destruct (resolve_files disk1 _ _ _) as [m1|] eqn:E1; [|done]. injection Hm as <-.
  destruct (resolve_files disk2 _ _ _) as [m2|] eqn:E2; [|done]. injection E as ->.
  destruct (resolve_files_value _ _ _ _ E1 _ _ Hin) as (c1 & H1 & L1).
  destruct (resolve_files_value _ _ _ _ E2 _ _ Hin) as (c2 & H2 & L2).
  exists c1, c2. split_and!; [done|done|congruence].
Qed.

Lemma mixed_same_material m s :
  (forall path, mf_client_auth m = Some path -> same_file path) ->
  Forall (fun r => same_file (fr_path r)) (public_refs m ++ secret_refs m) ->
  Forall (fun f => resolved_config disk1 base_dir f = resolved_config disk2 base_dir f) (mf_filters m) ->
  mix_filters sha256 disk1 base_dir (mf_filters m) = Ok s ->
  same_material m.
Proof.
  intros Hca Hrefs Hconf Hmix. split.
  - intros path [|(r & Hr & <-)]%references_mixed; [by apply Hca|].
    rewrite Forall_forall in Hrefs. by apply Hrefs.
  - intros filter files key path Hin Hf. rewrite Forall_forall in Hconf.
    apply resolved_same_values with (1 := Hf); [by apply Hconf|].
    by eapply mix_filters_resolves.
Qed.

Lemma content_hash_at_ok (disk : bytes -> option bytes) m v :
  content_hash_at sha256 hex_encode to_json disk base_dir m = Ok v ->
  exists json ca public, to_json m = Some json /\
    mix_refs sha256 disk base_dir (public_refs m) = Ok public /\
    v = digest_text sha256 hex_encode (json ++ ca ++ public) /\
    match mf_client_auth m with
    | Some path => exists content, disk (join_path base_dir path) = Some content /\
        ca = NUL :: bs "listen.client_auth.ca" ++ NUL :: sha256 content
    | None => ca = []
    end.
Proof.
  unfold content_hash_at, content_hash_with_ca_at, read_client_auth_ca, mix_public_material.
  rewrite res_bind_ok. intros (ca & Hca & E). destruct (to_json m) as [json|]; [|done].
  apply res_bind_ok in E as (public & Hp & <-%Ok_inj).
  destruct (mf_client_auth m) as [path|].
  - destruct (disk _) as [content|] eqn:Ed; [|done]. injection Hca as <-.
    eexists json, _, public. split_and!; [done|done|done|]. by exists content.
  - injection Hca as <-. by eexists json, [], public.
Qed.

Lemma reload_fingerprint_eq m v f :
  reload_fingerprint sha256 hex_encode disk1 base_dir m v = Ok f ->
  reload_fingerprint sha256 hex_encode disk2 base_dir m v = Ok f ->
  collision \/
  (Forall (fun r => same_file (fr_path r)) (secret_refs m) /\
   Forall (fun f => resolved_config disk1 base_dir f = resolved_config disk2 base_dir f) (mf_filters m)).
Proof.
  unfold reload_fingerprint. rewrite !res_bind_ok. setoid_rewrite res_bind_ok.
  intros (s1 & Hs1 & c1 & Hc1 & E1%Ok_inj) (s2 & Hs2 & c2 & Hc2 & E2%Ok_inj). subst f.
  destruct (digest_text_eq _ _ E2) as [E|]; [|by left].
  apply app_inv_head in E. apply (f_equal tail) in E. cbn [tail] in E. apply app_inv_head in E.
  symmetry in E. destruct (mix_refs_eq _ _ _ _ _ Hs1 Hs2 E) as [[Hs|] Hc]; [|by left].
  destruct (mix_filters_eq _ _ _ Hc1 Hc2 Hc) as [|]; [by right|by left].
Qed.

Lemma reload_fingerprint_filters (disk : bytes -> option bytes) m v f :
  reload_fingerprint sha256 hex_encode disk base_dir m v = Ok f ->
  exists s, mix_filters sha256 disk base_dir (mf_filters m) = Ok s.
Proof.
  unfold reload_fingerprint. rewrite !res_bind_ok. setoid_rewrite res_bind_ok.
  intros (_ & _ & c & Hc & _). eauto.
Qed.

(** The client-auth frame of the stream, for a bundle read from [disk]. *)
Definition auth_frame (disk : bytes -> option bytes) (m : ManifestDoc) (ca : bytes) : Prop :=
  match mf_client_auth m with
  | Some path => exists content, disk (join_path base_dir path) = Some content /\
      ca = NUL :: bs "listen.client_auth.ca" ++ NUL :: sha256 content
  | None => ca = []
  end.

Lemma auth_frame_separated (disk : bytes -> option bytes) m ca : auth_frame disk m ca -> separated ca.
Proof.
  unfold auth_frame. destruct (mf_client_auth m); [|by left].
  intros (c & _ & ->). right. by eexists.
Qed.

Lemma auth_frame_eq m ca1 ca2 p1 p2 :
  auth_frame disk1 m ca1 -> auth_frame disk2 m ca2 -> ca1 ++ p1 = ca2 ++ p2 ->
  ((forall path, mf_client_auth m = Some path -> same_file path) \/ collision) /\ p1 = p2.
Proof.
  unfold auth_frame, same_file. destruct (mf_client_auth m) as [path|].
  - intros (c1 & D1 & ->) (c2 & D2 & ->) E. apply (f_equal tail) in E. cbn [tail app] in E.
    rewrite <- !app_assoc in E. apply app_inv_head in E. apply (f_equal tail) in E.
    cbn [tail app] in E. apply app_inj_1 in E as [Hd ->]; [|by rewrite !sha256_length].
    split; [|done]. destruct (digest_eq _ _ Hd) as [->|]; [left|by right].
    intros ? [= <-]. by rewrite D1, D2.
  - intros -> -> E. split; [by left|done].
Qed.

Lemma config_version_eq m1 m2 v :
  (forall m json, to_json m = Some json -> NUL ∉ json) ->
  content_hash_at sha256 hex_encode to_json disk1 base_dir m1 = Ok v ->
  content_hash_at sha256 hex_encode to_json disk2 base_dir m2 = Ok v ->
  (collision \/ to_json m1 = to_json m2) /\
  (m1 = m2 -> collision \/
     (forall path, mf_client_auth m1 = Some path -> same_file path) /\
     Forall (fun r => same_file (fr_path r)) (public_refs m1)).
Proof.
  intros Hnul (j1 & ca1 & p1 & Hj1 & Hp1 & E1 & Hca1)%content_hash_at_ok
    (j2 & ca2 & p2 & Hj2 & Hp2 & E2 & Hca2)%content_hash_at_ok. subst v.
  destruct (digest_text_eq _ _ E2) as [E|]; [|by split; intros; left].
  apply separated_prefix in E as [-> Et]; [|by eapply Hnul|by eapply Hnul|
    eapply separated_app; [by eapply auth_frame_separated|by eapply mix_refs_separated]..].
  split; [right; congruence|]. intros ->.
  destruct (auth_frame_eq _ _ _ _ _ Hca1 Hca2 Et) as [[Ha|] Ep]; [|by left].
  destruct (mix_refs_eq _ p1 p2 [] [] Hp1 Hp2 ltac:(by rewrite Ep)) as [[Hp|] _]; [|by left].
  by right.
Qed.

(** C26: the reload gate sees every change.  If a running configuration and a re-read manifest
    have one config version, they serialise alike; if they also have one reload fingerprint and
    are the same manifest, then unless two inputs of the hash function collide every file the
    build reads is unchanged on disk: each listener certificate and private key, the client-auth
    CA, the resumption ticket key, each upstream's CA, client certificate and client key, and,
    up to surrounding white space, every filter value file. *)
Theorem reload_gate_sees_changes (m1 m2 : ManifestDoc) (v f : bytes) :
  (forall m json, to_json m = Some json -> NUL ∉ json) ->
  content_hash_at sha256 hex_encode to_json disk1 base_dir m1 = Ok v ->
  content_hash_at sha256 hex_encode to_json disk2 base_dir m2 = Ok v ->
  reload_fingerprint sha256 hex_encode disk1 base_dir m1 v = Ok f ->
  reload_fingerprint sha256 hex_encode disk2 base_dir m2 v = Ok f ->
  (collision \/ to_json m1 = to_json m2) /\
  (m1 = m2 -> collision \/ same_material m1).
Proof.
  intros Hnul Hv1 Hv2 Hf1 Hf2.
  destruct (config_version_eq m1 m2 v Hnul Hv1 Hv2) as [Hj Hpub]. split; [done|].
  intros E. destruct (Hpub E) as [|[Hca Hp]]; [by left|]. subst m2.
  destruct (reload_fingerprint_eq _ _ _ Hf1 Hf2) as [|[Hs Hc]]; [by left|right].
  destruct (reload_fingerprint_filters _ _ _ _ Hf1) as [s Hm].
  eapply mixed_same_material; [done|by apply Forall_app|done|done].
Qed.
End rotation.
End gate.

(** ** Witness: a digest that keeps 32 bytes, one certificate, and a rotation that is seen *)

Definition pad32 (s : bytes) : bytes := take 32 (s ++ replicate 32 NUL).

Definition demo_doc : ManifestDoc :=
  mkManifest [] (mkState BackendMemory None) [] [] [] [] [mkTlsCert None (bs "/c") (bs "/k")]
    (Some (mkResumption (bs "/stek") 24)) (Some (bs "/ca")) None None.

Definition demo_disk (path : bytes) : option bytes :=
  if bytes_eqb path (bs "/c") then Some (bs "cert")
  else if bytes_eqb path (bs "/k") then Some (bs "key")
  else if bytes_eqb path (bs "/ca") then Some (bs "anchors")
  else if bytes_eqb path (bs "/stek") then Some (bs "ticket key") else None.

(** The same files, beside one the configuration does not name. *)
Definition demo_disk_later (path : bytes) : option bytes :=
  if bytes_eqb path (bs "/unused") then Some (bs "new") else demo_disk path.

Lemma pad32_length s : length (pad32 s) = 32%nat.
Proof. unfold pad32. rewrite length_take, length_app, length_replicate. lia. Qed.

Definition demo_json : ManifestDoc -> option bytes := fun _ => Some (bs "{}").

Lemma reload_gate_sees_changes_witness :
  exists v f,
    content_hash_at pad32 id demo_json demo_disk [] demo_doc = Ok v /\
    reload_fingerprint pad32 id demo_disk [] demo_doc v = Ok f /\
    (collision pad32 \/ same_material [] demo_disk demo_disk_later demo_doc).
Proof.
  destruct (content_hash_at pad32 id demo_json demo_disk [] demo_doc) as [v|] eqn:Ev; [|discriminate Ev].
  assert (Ev2 : content_hash_at pad32 id demo_json demo_disk_later [] demo_doc = Ok v)
    by (rewrite <- Ev; vm_compute; reflexivity).
  destruct (reload_fingerprint pad32 id demo_disk [] demo_doc v) as [f|] eqn:Ef; [|discriminate Ef].
  assert (Ef2 : reload_fingerprint pad32 id demo_disk_later [] demo_doc v = Ok f)
    by (rewrite <- Ef; vm_compute; reflexivity).
  exists v, f. split; [reflexivity|]. split; [exact Ef|].
  apply (proj2 (reload_gate_sees_changes pad32 id demo_json pad32_length (fun a b E => E) []
    demo_disk demo_disk_later demo_doc demo_doc v f
    ltac:(intros m j E; injection E as <-; apply (bool_decide_unpack _); vm_compute; exact I)
    Ev Ev2 Ef Ef2) eq_refl).
Defined.
