(* ===== verification/Control.v ===== *)
(** * The control plane (control/src/lib.rs, control_reload.rs, reload.rs, snapshot.rs)

    Building an active configuration from a manifest, the all-or-nothing reload with its
    idempotency gate, and the per-request snapshot that pins one configuration.  Reading the
    manifest, resolving and loading a filter artifact, and building the TLS configurations are
    parameters; files are read from a disk, and the gate and the build may see different ones.

    Reloads hold the reload gate, so they are sequential. *)

From S2P Require Import Prelude Bytes Weighted RateLimit Chain Headers Manifest Upstream Balancer.
From S2P Require Import Registry Route RouteTable ContentHash.

Definition Disk : Type := bytes -> option bytes.

(** A route forwards to upstream groups; [T] is a pair of TLS server configurations. *)
Record ActiveConfig (F C SN T : Type) := mkActive {
  ac_filters : gmap bytes F;
  ac_routes : list (CompiledRoute F (Group C SN));
  ac_tls : option T;
  ac_hash : bytes;
  ac_reload_fingerprint : bytes;
}.
Arguments mkActive {F C SN T}.
Arguments ac_filters {F C SN T}.
Arguments ac_routes {F C SN T}.
Arguments ac_tls {F C SN T}.
Arguments ac_hash {F C SN T}.
Arguments ac_reload_fingerprint {F C SN T}.

(** [ctl_groups] and [ctl_store] are the upstream registry; a trusted network is represented by
    the text it was parsed from. *)
Record Control (F C SN T : Type) := mkControl {
  ctl_active : ActiveConfig F C SN T;
  ctl_groups : gmap bytes (Group C SN);
  ctl_store : Store;
  ctl_manifest_path : option bytes;
  ctl_trust : list bytes;
  ctl_state : State;
  ctl_base_dir : bytes;
  ctl_proxy_protocol : option (list bytes);
  ctl_trusted_proxy : option (list bytes);
}.
Arguments mkControl {F C SN T}.
Arguments ctl_active {F C SN T}.
Arguments ctl_groups {F C SN T}.
Arguments ctl_store {F C SN T}.
Arguments ctl_manifest_path {F C SN T}.
Arguments ctl_trust {F C SN T}.
Arguments ctl_state {F C SN T}.
Arguments ctl_base_dir {F C SN T}.
Arguments ctl_proxy_protocol {F C SN T}.
Arguments ctl_trusted_proxy {F C SN T}.

Inductive ControlError :=
| NoManifestPath | ManifestUnreadable (path : bytes)
| TrustChangeRequiresRestart | StateChangeRequiresRestart
| InertChainSection | DuplicateFilterId (id : bytes) | InvalidFilter (id : bytes) (r : FilterReason)
| ArtifactUnresolved (source : bytes) | FilterConfig (id : bytes) (e : ConfigError)
| LoadFailed (id : bytes)
| InvalidRoute (path_prefix : bytes) (r : RouteReason)
| InvalidListenConfig | TlsFailed | HashFailed (e : HashError) | ReconcileFailed (e : ReconcileError).

Inductive ReloadOutcome := Unchanged | Reloaded (hash : bytes).

#[export] Instance StateBackendKind_eq_dec : EqDecision StateBackendKind.
Proof. solve_decision. Defined.
#[export] Instance State_eq_dec : EqDecision State.
Proof. solve_decision. Defined.

(** Name the error a step raises. *)
Definition map_err {A E E'} (f : E -> E') (r : result A E) : result A E' :=
  match r with Ok a => Ok a | Err e => Err (f e) end.

(** The external operations of the control plane. *)
Class Platform (M F C SN T Artifact : Type) := {
  pf_features : Features;
  pf_cidr_ok : bytes -> bool;
  pf_value_from_str : bytes -> option bytes;
  pf_sha256 : bytes -> bytes;
  pf_hex_encode : bytes -> bytes;
  pf_to_json : ManifestDoc -> option bytes;
  (** Parse the TOML file at a path. *)
  pf_read_manifest : Disk -> bytes -> option ManifestDoc;
  (** [ArtifactStore::resolve] of a source and digest, and [Host::load]. *)
  pf_resolve : Disk -> bytes -> bytes -> option Artifact;
  pf_load : FilterEntry -> Artifact -> option (gmap bytes bytes) -> option F;
  pf_body_hooks : F -> BodyHooks;
  (** [tls::build_server_configs] with the client-auth anchors already read. *)
  pf_build_tls : Disk -> ManifestDoc -> option bytes -> option (option T);
  pf_build_client : Disk -> bytes -> UpstreamTls -> option C;
  pf_parse_sni : bytes -> bytes -> option SN;
}.

Section control.
Context {M : Type} `{HeaderMap M} {F C SN T Artifact : Type} `{Platform M F C SN T Artifact}.
Notation Groups := (gmap bytes (Group C SN)).

Fixpoint validate_filter_ids (entries : list FilterEntry) (seen : gset bytes)
    : result (gset bytes) ControlError :=
  match entries with
  | [] => Ok seen
  | entry :: rest =>
    if bool_decide (fe_id entry ∈ seen) then Err (DuplicateFilterId (fe_id entry))
    else
      let? _ := map_err (InvalidFilter (fe_id entry)) (validate_filter pf_features pf_cidr_ok entry) in
      validate_filter_ids rest ({[fe_id entry]} ∪ seen)
  end.

Definition validate_filters_and_chain (m : ManifestDoc) : result (gset bytes) ControlError :=
  if bool_decide (mf_chain m = []) then validate_filter_ids (mf_filters m) ∅
  else Err InertChainSection.

Fixpoint load_filters (disk : Disk) (base_dir : bytes) (entries : list FilterEntry)
    (filters : gmap bytes F) : result (gmap bytes F) ControlError :=
  match entries with
  | [] => Ok filters
  | entry :: rest =>
    match pf_resolve disk (fe_source entry) (fe_digest entry) with
    | None => Err (ArtifactUnresolved (fe_source entry))
    | Some artifact =>
      let? merged := map_err (FilterConfig (fe_id entry)) (resolved_config disk base_dir entry) in
      match pf_load entry artifact merged with
      | None => Err (LoadFailed (fe_id entry))
      | Some loaded => load_filters disk base_dir rest (<[fe_id entry := loaded]> filters)
      end
    end
  end.

Definition invalid_route (e : bytes * RouteReason) : ControlError := InvalidRoute e.1 e.2.

(** The fallible steps before the registry is touched. *)
Record Prepared := mkPrepared {
  pr_filters : gmap bytes F;
  pr_routes : list (Route * list (bytes * Z));
  pr_tls : option T;
  pr_hash : bytes;
  pr_fingerprint : bytes;
}.

Definition upstream_names (m : ManifestDoc) : gset bytes := list_to_set (map up_name (mf_upstreams m)).

Definition prepare (disk : Disk) (base_dir : bytes) (m : ManifestDoc) : result Prepared ControlError :=
  let? filter_ids := validate_filters_and_chain m in
  let? filters := load_filters disk base_dir (mf_filters m) ∅ in
  let? routes := map_err invalid_route
    (validate_routes (M := M) pf_value_from_str filter_ids (upstream_names m) (mf_routes m)) in
  let? ca := map_err HashFailed (read_client_auth_ca disk base_dir m) in
  let? tls := match pf_build_tls disk m ca with Some t => Ok t | None => Err TlsFailed end in
  let? hash := map_err HashFailed
    (content_hash_with_ca_at pf_sha256 pf_hex_encode pf_to_json disk base_dir m ca) in
  let? fingerprint := map_err HashFailed
    (reload_fingerprint pf_sha256 pf_hex_encode disk base_dir m hash) in
  Ok (mkPrepared filters routes tls hash fingerprint).

(** The result, and the registry as the build leaves it. *)
Definition build_active (disk : Disk) (base_dir : bytes) (m : ManifestDoc) (groups : Groups)
    (s : Store) : result (ActiveConfig F C SN T) ControlError * Groups * Store :=
  match prepare disk base_dir m with
  | Err e => (Err e, groups, s)
  | Ok p =>
    match reconcile (pf_build_client disk) pf_parse_sni (mf_upstreams m) groups s with
    | (Err e, groups', s') => (Err (ReconcileFailed e), groups', s')
    | (Ok _, groups', s') =>
      (let? routes := map_err invalid_route
         (compile_all (M := M) pf_value_from_str pf_body_hooks groups' (pr_filters p) (pr_routes p)) in
       Ok (mkActive (pr_filters p) routes (pr_tls p) (pr_hash p) (pr_fingerprint p)), groups', s')
    end
  end.

Definition parse_net (s : bytes) : option bytes := if pf_cidr_ok s then Some s else None.

(** [Control::assemble], with an empty registry. *)
Definition assemble (disk : Disk) (base_dir : bytes) (manifest_path : option bytes)
    (m : ManifestDoc) : result (Control F C SN T) ControlError :=
  match build_active disk base_dir m ∅ (mkStore ∅ 0) with
  | (Err e, _, _) => Err e
  | (Ok active, groups, s) =>
    match section_trust parse_net (mf_proxy_protocol m), section_trust parse_net (mf_trusted_proxy m) with
    | Some proxy_protocol, Some trusted_proxy =>
      Ok (mkControl active groups s manifest_path (mf_trust m) (mf_state m) base_dir
            proxy_protocol trusted_proxy)
    | _, _ => Err InvalidListenConfig
    end
  end.

Definition ensure_trust_unchanged (ctl : Control F C SN T) (m : ManifestDoc)
    : result unit ControlError :=
  if bool_decide (mf_trust m = ctl_trust ctl) then Ok tt else Err TrustChangeRequiresRestart.
Definition ensure_state_unchanged (ctl : Control F C SN T) (m : ManifestDoc)
    : result unit ControlError :=
  if bool_decide (mf_state m = ctl_state ctl) then Ok tt else Err StateChangeRequiresRestart.

(** Build, then swap on success; the registry is where the build left it. *)
Definition build_and_swap (disk : Disk) (ctl : Control F C SN T) (m : ManifestDoc)
    : result bytes ControlError * Control F C SN T :=
  let '(r, groups, s) := build_active disk (ctl_base_dir ctl) m (ctl_groups ctl) (ctl_store ctl) in
  let keep active := mkControl active groups s (ctl_manifest_path ctl) (ctl_trust ctl)
    (ctl_state ctl) (ctl_base_dir ctl) (ctl_proxy_protocol ctl) (ctl_trusted_proxy ctl) in
  match r with
  | Err e => (Err e, keep (ctl_active ctl))
  | Ok active => (Ok (ac_hash active), keep active)
  end.

Definition reload (disk : Disk) (ctl : Control F C SN T) (m : ManifestDoc)
    : result unit ControlError * Control F C SN T :=
  match (let? _ := ensure_trust_unchanged ctl m in ensure_state_unchanged ctl m) with
  | Err e => (Err e, ctl)
  | Ok _ =>
    let '(r, ctl') := build_and_swap disk ctl m in
    (let? _ := r in Ok tt, ctl')
  end.

(** The idempotency gate: both halves of the running identity, recomputed, are unmoved. *)
Definition gate_unchanged (disk : Disk) (ctl : Control F C SN T) (m : ManifestDoc) : bool :=
  match content_hash_at pf_sha256 pf_hex_encode pf_to_json disk (ctl_base_dir ctl) m with
  | Ok new_hash =>
    bytes_eqb new_hash (ac_hash (ctl_active ctl)) &&
    match reload_fingerprint pf_sha256 pf_hex_encode disk (ctl_base_dir ctl) m new_hash with
    | Ok fingerprint => bytes_eqb fingerprint (ac_reload_fingerprint (ctl_active ctl))
    | Err _ => false
    end
  | Err _ => false
  end.

(** [gate_disk] is the disk while the manifest and the gate are read, [disk] during the build. *)
Definition reload_from_disk (gate_disk disk : Disk) (ctl : Control F C SN T)
    : result ReloadOutcome ControlError * Control F C SN T :=
  match ctl_manifest_path ctl with
  | None => (Err NoManifestPath, ctl)
  | Some path =>
    match pf_read_manifest gate_disk path with
    | None => (Err (ManifestUnreadable path), ctl)
    | Some m =>
      match (let? _ := ensure_trust_unchanged ctl m in ensure_state_unchanged ctl m) with
      | Err e => (Err e, ctl)
      | Ok _ =>
        if gate_unchanged gate_disk ctl m then (Ok Unchanged, ctl)
        else
          let '(r, ctl') := build_and_swap disk ctl m in
          (let? hash := r in Ok (Reloaded hash), ctl')
      end
    end
  end.

(** One trigger per element; a failed reload is logged and the loop goes on. *)
Fixpoint serve_reloads (triggers : list (Disk * Disk)) (ctl : Control F C SN T) : Control F C SN T :=
  match triggers with
  | [] => ctl
  | (gate_disk, disk) :: rest => serve_reloads rest (reload_from_disk gate_disk disk ctl).2
  end.
End control.

(** ** Snapshots (snapshot.rs) *)

Record RouteInfo (G : Type) := mkRouteInfo {
  ri_index : nat;
  ri_name : bytes;
  ri_backends : WeightedBackends G;
  ri_strip_prefix : option bytes;
  ri_has_filters : bool;
  ri_body_hooks : BodyHooks;
  ri_rate_limit : option NativeRateLimit;
  ri_upgrade : option UpgradeConfig;
  ri_compression : option CompressionConfig;
  ri_response_headers : option ResponseHeaders;
  ri_timeouts : TimeoutConfig;
  ri_response_body : ResponseBodyConfig;
}.
Arguments mkRouteInfo {G}.
Arguments ri_index {G}.
Arguments ri_name {G}.
Arguments ri_backends {G}.
Arguments ri_strip_prefix {G}.
Arguments ri_has_filters {G}.
Arguments ri_body_hooks {G}.
Arguments ri_rate_limit {G}.
Arguments ri_upgrade {G}.
Arguments ri_compression {G}.
Arguments ri_response_headers {G}.
Arguments ri_timeouts {G}.
Arguments ri_response_body {G}.

Definition no_route_response : HttpResponse :=
  mkResponse 404 [mkHeader fault_header (bs "no-route")] (bs "no route").

Section snapshot.
Context {F G W : Type} `{FilterHost F W}.
(** The routes of the pinned configuration. *)
Context (routes : list (CompiledRoute F G)).

Definition find_route (request : HttpRequest) : option (RouteInfo G) :=
  let parts := mkRequestParts (rq_authority request) (rq_path_with_query request)
    (rq_method request) (rq_headers request) in
  match select routes parts with
  | None => None
  | Some index =>
    match routes !! index with
    | None => None
    | Some r =>
      Some (mkRouteInfo index (cr_name r) (cr_backends r) (cr_strip_prefix r)
        (negb (bool_decide (cr_filters r = []))) (cr_body_hooks r) (cr_rate_limit r)
        (cr_upgrade r) (cr_compression r) (cr_response_headers r) (cr_timeouts r)
        (cr_response_body r))
    end
  end.

Definition snap_request_inline (route : nat) (request : HttpRequest) (w : W)
    : InlineRequestOutcome * W :=
  match routes !! route with
  | Some r => dispatch_request_inline (cr_resolved_chain r) request w
  | None => (IrqComplete (CoRespond no_route_response), w)
  end.

Definition snap_request_from (route filter_index : nat) (request : HttpRequest) (w : W)
    : ChainOutcome * W :=
  match routes !! route with
  | Some r => dispatch_request_from (cr_resolved_chain r) filter_index request w
  | None => (CoRespond no_route_response, w)
  end.

Definition snap_request (route : nat) (request : HttpRequest) (w : W) : ChainOutcome * W :=
  match routes !! route with
  | Some r => dispatch_request (cr_resolved_chain r) request w
  | None => (CoRespond no_route_response, w)
  end.

Definition snap_request_body (route : nat) (body : bytes) (headers : list Header) (w : W)
    : RequestBodyOutcome * W :=
  match routes !! route with
  | Some r => dispatch_request_body (cr_resolved_chain r) body headers w
  | None => (RboForward body headers, w)
  end.

Definition snap_response_body (route : nat) (request : HttpRequest) (response : HttpResponse)
    (body : bytes) (w : W) : ResponseBodyOutcome * W :=
  match routes !! route with
  | Some r =>
    dispatch_response_body (cr_resolved_chain r) request response body
      (rbc_max_bytes (cr_response_body r)) w
  | None => (SboForward body (rs_headers response) false, w)
  end.

Definition snap_response_inline (route : nat) (request : HttpRequest) (response : HttpResponse)
    (w : W) : InlineResponseOutcome * W :=
  match routes !! route with
  | Some r => dispatch_response_inline (cr_resolved_chain r) request response w
  | None => (IrsComplete (RoForward response), w)
  end.

Definition snap_response_from (route filter_index : nat) (request : HttpRequest)
    (response : HttpResponse) (w : W) : ResponseOutcome * W :=
  match routes !! route with
  | Some r => dispatch_response_from (cr_resolved_chain r) filter_index request response w
  | None => (RoForward response, w)
  end.

Definition snap_response (route : nat) (request : HttpRequest) (response : HttpResponse) (w : W)
    : ResponseOutcome * W :=
  match routes !! route with
  | Some r => dispatch_response (cr_resolved_chain r) request response w
  | None => (RoForward response, w)
  end.
End snapshot.

(** ** Lemmas: building *)

Lemma map_err_ok {A E E'} (f : E -> E') (r : result A E) a : map_err f r = Ok a <-> r = Ok a.
Proof. destruct r; cbn; split; congruence. Qed.

Section build.
Context {M : Type} `{HeaderMap M} {F C SN T Artifact : Type} `{Platform M F C SN T Artifact}.
Notation Groups := (gmap bytes (Group C SN)).

Lemma validate_filter_ids_ok entries seen ids :
  validate_filter_ids (M := M) entries seen = Ok ids -> ids = list_to_set (map fe_id entries) ∪ seen.
Proof.
  revert seen. induction entries as [|entry entries IH]; intros seen; cbn [validate_filter_ids map].
  { intros [= <-]. set_solver. }
  destruct (bool_decide _); [done|]. rewrite res_bind_ok.
  intros (_ & _ & E). rewrite (IH _ E). cbn [list_to_set]. set_solver.
Qed.

Lemma load_filters_dom disk base_dir entries fs0 fs :
  load_filters (M := M) disk base_dir entries fs0 = Ok fs ->
  dom fs = list_to_set (map fe_id entries) ∪ dom fs0.
Proof.
  revert fs0. induction entries as [|entry entries IH]; intros fs0; cbn [load_filters map].
  { intros [= <-]. set_solver. }
  destruct (pf_resolve _ _ _) as [artifact|]; [|done]. rewrite res_bind_ok.
  intros (merged & _ & E). destruct (pf_load _ _ _) as [f|]; [|done].
  rewrite (IH _ E), dom_insert_L. cbn [list_to_set]. set_solver.
Qed.

Lemma build_all_dom (groups : Groups) ups next s name :
  is_Some ((build_all groups ups next s).1 !! name) <->
  name ∈ map (fun x => up_name x.1) ups \/ is_Some (next !! name).
Proof.
  revert next s. induction ups as [|[up tls] ups IH]; intros next s; cbn [build_all map fst].
  { split; [by right|]. intros [Hin|]; [by apply not_elem_of_nil in Hin|done]. }
  destruct (build_group groups up tls s) as [g s']. rewrite IH, elem_of_cons.
  destruct (decide (name = up_name up)) as [->|Hne].
  - rewrite lookup_insert_eq. naive_solver.
  - rewrite lookup_insert_ne by done. naive_solver.
Qed.

Lemma reconcile_outcome (disk : Disk) (ups : list Upstream) (groups : Groups) (s : Store) :
  match reconcile (pf_build_client disk) pf_parse_sni ups groups s with
  | (Err _, groups', s') => groups' = groups /\ s' = s
  | (Ok _, groups', _) => forall name, name ∈ map up_name ups -> is_Some (groups' !! name)
  end.
Proof.
  unfold reconcile. destruct (validate_all ∅ ups) as [[]|]; [|done].
  destruct (tls_all (pf_build_client disk) pf_parse_sni groups ups) as [ts|] eqn:Et; [|done].
  destruct (build_all groups (zip ups ts) ∅ s) as [groups' s'] eqn:Eb.
  intros name Hin. pose proof (build_all_dom groups (zip ups ts) ∅ s name) as Hd.
  rewrite Eb in Hd. apply Hd. left. apply tls_all_length in Et.
  rewrite <- (map_map fst up_name). by rewrite fst_zip by lia.
Qed.

(** What an active configuration keeps of its manifest. *)
Definition serves (m : ManifestDoc) (groups : Groups) (active : ActiveConfig F C SN T) : Prop :=
  Forall2 (compiled_from (M := M) pf_value_from_str pf_body_hooks (ac_filters active) groups)
    (mf_routes m) (ac_routes active) /\
  map cr_name (ac_routes active) = map resolved_name (mf_routes m) /\
  NoDup (map cr_name (ac_routes active)).

Lemma prepare_ok disk base_dir m p :
  prepare (M := M) disk base_dir m = Ok p ->
  content_hash_at pf_sha256 pf_hex_encode pf_to_json disk base_dir m = Ok (pr_hash p) /\
  reload_fingerprint pf_sha256 pf_hex_encode disk base_dir m (pr_hash p) = Ok (pr_fingerprint p) /\
  dom (pr_filters p) = list_to_set (map fe_id (mf_filters m)) /\
  validate_routes (M := M) pf_value_from_str (list_to_set (map fe_id (mf_filters m)))
    (upstream_names m) (mf_routes m) = Ok (pr_routes p).
Proof.
  unfold prepare, validate_filters_and_chain. rewrite res_bind_ok.
  destruct (bool_decide (mf_chain m = [])); [|by intros (? & ? & _)].
  intros (ids & Hids%validate_filter_ids_ok & E). apply res_bind_ok in E as (fs & Hfs%load_filters_dom & E).
  apply res_bind_ok in E as (vs & Hvs%map_err_ok & E).
  apply res_bind_ok in E as (ca & Hca%map_err_ok & E). apply res_bind_ok in E as (tls & _ & E).
  apply res_bind_ok in E as (hash & Hh%map_err_ok & E).
  apply res_bind_ok in E as (fp & Hfp%map_err_ok & E). injection E as <-. cbn.
  rewrite dom_empty_L, union_empty_r_L in Hfs. rewrite union_empty_r_L in Hids. subst ids.
  split_and!; [|done|done|done]. unfold content_hash_at. by rewrite Hca.
Qed.

Lemma build_active_spec (disk : Disk) (base_dir : bytes) (m : ManifestDoc) (groups : Groups) (s : Store) :
  Forall weights_u32 (mf_routes m) ->
  match build_active (M := M) disk base_dir m groups s with
  | (Err _, groups', s') => groups' = groups /\ s' = s
  | (Ok active, groups', _) =>
    serves m groups' active /\
    content_hash_at pf_sha256 pf_hex_encode pf_to_json disk base_dir m = Ok (ac_hash active) /\
    reload_fingerprint pf_sha256 pf_hex_encode disk base_dir m (ac_hash active)
      = Ok (ac_reload_fingerprint active)
  end.
Proof.
  intros Hw. unfold build_active.
  destruct (prepare (M := M) disk base_dir m) as [p|] eqn:Ep; [|done].
  apply prepare_ok in Ep as (Hh & Hf & Hdom & Hv).
  pose proof (reconcile_outcome disk (mf_upstreams m) groups s) as Hr.
  destruct (reconcile _ _ _ groups s) as [[[[]|e] groups'] s']; [|done].
  apply validate_from_ok in Hv as (H2 & Hnd & _); [|done].
  destruct (compile_all_ok (M := M) pf_value_from_str _ _ pf_body_hooks (pr_filters p) groups'
    ltac:(intros id Hid; by rewrite <- elem_of_dom, Hdom)
    ltac:(intros n Hn; apply Hr; by apply elem_of_list_to_set in Hn)
    (mf_routes m) (pr_routes p) Hw H2) as (cs & E & En & _ & Hc).
  rewrite E. cbn [map_err res_bind ac_hash ac_reload_fingerprint].
  split; [|done]. split; [done|]. cbn [ac_routes]. by rewrite En.
Qed.

Hypothesis manifests_typed : forall disk path m,
  pf_read_manifest disk path = Some m -> Forall weights_u32 (mf_routes m).

Lemma build_and_swap_spec disk (ctl : Control F C SN T) m :
  Forall weights_u32 (mf_routes m) ->
  match build_and_swap (M := M) disk ctl m with
  | (Err _, ctl') => ctl' = ctl
  | (Ok h, ctl') =>
    ctl_manifest_path ctl' = ctl_manifest_path ctl /\ ctl_trust ctl' = ctl_trust ctl /\
    ctl_state ctl' = ctl_state ctl /\ ctl_base_dir ctl' = ctl_base_dir ctl /\
    ac_hash (ctl_active ctl') = h /\ serves m (ctl_groups ctl') (ctl_active ctl') /\
    content_hash_at pf_sha256 pf_hex_encode pf_to_json disk (ctl_base_dir ctl) m = Ok h /\
    reload_fingerprint pf_sha256 pf_hex_encode disk (ctl_base_dir ctl) m h
      = Ok (ac_reload_fingerprint (ctl_active ctl'))
  end.
Proof.
  intros Hw. unfold build_and_swap.
  pose proof (build_active_spec disk (ctl_base_dir ctl) m (ctl_groups ctl) (ctl_store ctl) Hw) as Hb.
  destruct (build_active (M := M) _ _ _ _ _) as [[[active|e] groups] s].
  - destruct Hb as (Hs & Hh & Hf). by split_and!.
  - destruct Hb as [-> ->]. by destruct ctl.
Qed.

Lemma gate_unchanged_true disk (ctl : Control F C SN T) m :
  gate_unchanged disk ctl m = true <->
  content_hash_at pf_sha256 pf_hex_encode pf_to_json disk (ctl_base_dir ctl) m
    = Ok (ac_hash (ctl_active ctl)) /\
  reload_fingerprint pf_sha256 pf_hex_encode disk (ctl_base_dir ctl) m (ac_hash (ctl_active ctl))
    = Ok (ac_reload_fingerprint (ctl_active ctl)).
Proof.
  unfold gate_unchanged.
  destruct (content_hash_at _ _ _ _ _ m) as [h|e]; [|split; [done|by intros [? _]]].
  rewrite andb_true_iff, bytes_eqb_eq. split.
  - intros [-> Hf]. split; [done|]. destruct (reload_fingerprint _ _ _ _ _ _) as [f|]; [|done].
    by apply bytes_eqb_eq in Hf as ->.
  - intros [[= ->] ->]. split; [done|]. by apply bytes_eqb_eq.
Qed.

Lemma ensured (ctl : Control F C SN T) m :
  (let? _ := ensure_trust_unchanged ctl m in ensure_state_unchanged ctl m) = Ok tt <->
  mf_trust m = ctl_trust ctl /\ mf_state m = ctl_state ctl.
Proof.
  unfold ensure_trust_unchanged, ensure_state_unchanged. rewrite res_bind_unit.
  destruct (bool_decide_reflect (mf_trust m = ctl_trust ctl)),
    (bool_decide_reflect (mf_state m = ctl_state ctl)); naive_solver.
Qed.

(** One reload: what can happen to the control plane. *)
Inductive reload_step (ctl : Control F C SN T) : Control F C SN T -> Prop :=
| StepKept : reload_step ctl ctl
| StepSwapped m ctl' :
    mf_trust m = ctl_trust ctl -> mf_state m = ctl_state ctl ->
    ctl_trust ctl' = ctl_trust ctl -> ctl_state ctl' = ctl_state ctl ->
    serves m (ctl_groups ctl') (ctl_active ctl') -> reload_step ctl ctl'.

Lemma reload_from_disk_step gate_disk disk (ctl : Control F C SN T) :
  reload_step ctl (reload_from_disk (M := M) gate_disk disk ctl).2.
Proof.
  unfold reload_from_disk. destruct (ctl_manifest_path ctl) as [path|]; [|constructor].
  destruct (pf_read_manifest gate_disk path) as [m|] eqn:Em; [|constructor].
  pose proof (ensured ctl m) as He.
  destruct (res_bind _ _) as [[]|e]; [|constructor].
  destruct (gate_unchanged gate_disk ctl m); [constructor|].
  pose proof (build_and_swap_spec disk ctl m (manifests_typed _ _ _ Em)) as Hb.
  destruct (build_and_swap (M := M) disk ctl m) as [[h|e] ctl']; cbn [snd]; [|subst; constructor].
  destruct (proj1 He eq_refl). destruct Hb as (_ & Ht & Hst & _ & _ & Hs & _).
  by apply (StepSwapped _ m).
Qed.

(** C27: a reload from disk is all or nothing.  A failed one leaves the control plane, registry
    included, exactly as it was; an unchanged one too, and only when both halves of the running
    identity are recomputed unchanged; a successful one swaps in a configuration that serves
    the manifest read, under unchanged trust roots and state backend, with the identity
    computed by that same build. *)
Theorem reload_all_or_nothing (gate_disk disk : Disk) (ctl : Control F C SN T) :
  match reload_from_disk (M := M) gate_disk disk ctl with
  | (Err _, ctl') => ctl' = ctl
  | (Ok Unchanged, ctl') => ctl' = ctl /\ exists path m,
      ctl_manifest_path ctl = Some path /\ pf_read_manifest gate_disk path = Some m /\
      content_hash_at pf_sha256 pf_hex_encode pf_to_json gate_disk (ctl_base_dir ctl) m
        = Ok (ac_hash (ctl_active ctl)) /\
      reload_fingerprint pf_sha256 pf_hex_encode gate_disk (ctl_base_dir ctl) m
        (ac_hash (ctl_active ctl)) = Ok (ac_reload_fingerprint (ctl_active ctl))
  | (Ok (Reloaded h), ctl') => exists path m,
      ctl_manifest_path ctl = Some path /\ pf_read_manifest gate_disk path = Some m /\
      mf_trust m = ctl_trust ctl /\ mf_state m = ctl_state ctl /\
      ctl_trust ctl' = ctl_trust ctl /\ ctl_state ctl' = ctl_state ctl /\
      serves m (ctl_groups ctl') (ctl_active ctl') /\ ac_hash (ctl_active ctl') = h /\
      content_hash_at pf_sha256 pf_hex_encode pf_to_json disk (ctl_base_dir ctl) m = Ok h /\
      reload_fingerprint pf_sha256 pf_hex_encode disk (ctl_base_dir ctl) m h
        = Ok (ac_reload_fingerprint (ctl_active ctl'))
  end.
Proof.
  unfold reload_from_disk. destruct (ctl_manifest_path ctl) as [path|] eqn:Ep; [|done].
  destruct (pf_read_manifest gate_disk path) as [m|] eqn:Em; [|done].
  pose proof (ensured ctl m) as He.
  destruct (res_bind _ _) as [[]|e]; [|done]. destruct (proj1 He eq_refl) as [Ht Hst].
  destruct (gate_unchanged gate_disk ctl m) eqn:Eg.
  { split; [done|]. apply gate_unchanged_true in Eg. by exists path, m. }
  pose proof (build_and_swap_spec disk ctl m (manifests_typed _ _ _ Em)) as Hb.
  destruct (build_and_swap (M := M) disk ctl m) as [[h|e] ctl']; cbn [res_bind]; [|done].
  destruct Hb as (_ & ? & ? & _ & ? & ? & ? & ?). exists path, m. by split_and!.
Qed.

(** Every group a route forwards to is one the registry holds, hence probes. *)
Definition routes_probed (ctl : Control F C SN T) : Prop :=
  forall r g, r ∈ ac_routes (ctl_active ctl) -> g ∈ wb_groups (cr_backends r) ->
  exists name, ctl_groups ctl !! name = Some g.

Lemma serves_probed m groups active r g :
  serves m groups active -> r ∈ ac_routes active -> g ∈ wb_groups (cr_backends r) ->
  exists name, groups !! name = Some g.
Proof.
  intros (H2 & _) Hr Hg. apply list_elem_of_lookup_1 in Hr as [i Hi].
  destruct (Forall2_lookup_r _ _ _ _ _ H2 Hi) as (rt & _ & Hc).
  pose proof (cf_groups _ _ _ _ _ _ Hc) as Hall. rewrite Forall_forall in Hall.
  destruct (Hall g Hg) as (ts & t & _ & _ & Hl & _). by exists t.1.
Qed.

Lemma serve_reloads_keeps triggers (ctl : Control F C SN T) :
  routes_probed ctl ->
  let ctl' := serve_reloads (M := M) triggers ctl in
  routes_probed ctl' /\ ctl_trust ctl' = ctl_trust ctl /\ ctl_state ctl' = ctl_state ctl.
Proof.
  revert ctl. induction triggers as [|[gate_disk disk] triggers IH]; intros ctl Hp; [done|].
  cbn [serve_reloads]. pose proof (reload_from_disk_step gate_disk disk ctl) as Hstep.
  destruct (reload_from_disk_step gate_disk disk ctl) as [|m ctl' _ _ Ht Hst Hs]; [by apply IH|].
  cbn zeta. rewrite <- Ht, <- Hst. apply IH. intros r g. by apply (serves_probed m).
Qed.

(** After startup and any sequence of reload triggers, failed ones included, with whatever
    the disk holds at each, the trust roots and the state backend are the initial ones and
    every group a live route forwards to is held by the registry the prober walks. *)
Theorem reloads_keep_routes_probed (disk0 : Disk) (base_dir : bytes) (path : option bytes)
    (m0 : ManifestDoc) (ctl0 : Control F C SN T) (triggers : list (Disk * Disk)) :
  Forall weights_u32 (mf_routes m0) ->
  assemble (M := M) disk0 base_dir path m0 = Ok ctl0 ->
  let ctl := serve_reloads (M := M) triggers ctl0 in
  routes_probed ctl /\ ctl_trust ctl = mf_trust m0 /\ ctl_state ctl = mf_state m0.
Proof.
  intros Hw E. unfold assemble in E.
  pose proof (build_active_spec disk0 base_dir m0 ∅ (mkStore ∅ 0) Hw) as Hb.
  destruct (build_active (M := M) _ _ m0 _ _) as [[[active|e] groups] s]; [|done].
  destruct (section_trust parse_net (mf_proxy_protocol m0)) as [pp|], (section_trust parse_net (mf_trusted_proxy m0)) as [tp|]; try done.
  injection E as <-. destruct Hb as (Hs & _).
  assert (Hinit : routes_probed (mkControl active groups s path (mf_trust m0) (mf_state m0) base_dir
    pp tp)) by (intros r g; by apply (serves_probed m0)).
  exact (serve_reloads_keeps triggers _ Hinit).
Qed.
End build.

(** ** Snapshots *)

Section snapshot_lemmas.
Context {F G W : Type} `{FilterHost F W}.

(** A snapshot's routing and dispatch agree.  The index a request is routed to is in the
    snapshot: it selects a most specific matching route, its chain runs that route's filters on
    both sides, and its flags describe that chain.  An index the snapshot does not have answers
    404 before any filter runs, and changes neither a request body nor a response. *)
Theorem snapshot_dispatch (routes : list (CompiledRoute F G)) (request : HttpRequest) (w : W) :
  (forall info, find_route routes request = Some info -> exists r,
    routes !! ri_index info = Some r /\
    request_matches (mkRequestParts (rq_authority request) (rq_path_with_query request)
      (rq_method request) (rq_headers request)) r /\
    ri_name info = cr_name r /\ ri_body_hooks info = cr_body_hooks r /\
    (ri_has_filters info = false <-> cr_filters r = []) /\
    snap_request routes (ri_index info) request w = dispatch_request (cr_resolved_chain r) request w /\
    forall response, snap_response routes (ri_index info) request response w =
      dispatch_response (cr_resolved_chain r) request response w) /\
  (forall stale, routes !! stale = None ->
    snap_request routes stale request w = (CoRespond no_route_response, w) /\
    snap_request_inline routes stale request w = (IrqComplete (CoRespond no_route_response), w) /\
    (forall k, snap_request_from routes stale k request w = (CoRespond no_route_response, w)) /\
    (forall body headers, snap_request_body routes stale body headers w = (RboForward body headers, w)) /\
    forall response, snap_response routes stale request response w = (RoForward response, w) /\
      snap_response_inline routes stale request response w = (IrsComplete (RoForward response), w) /\
      (forall k, snap_response_from routes stale k request response w = (RoForward response, w)) /\
      forall body, snap_response_body routes stale request response body w
        = (SboForward body (rs_headers response) false, w)).
Proof.
  split.
  - intros info. unfold find_route.
    destruct (select routes _) as [i|] eqn:Es; [|done]. apply select_spec in Es as (r & Hr & Hm & _).
    rewrite Hr. intros [= <-]. exists r. cbn. unfold snap_request, snap_response. rewrite Hr.
    split_and!; try done. rewrite negb_false_iff. apply bool_decide_eq_true.
  - intros stale E. unfold snap_request, snap_request_inline, snap_request_from, snap_request_body,
      snap_response, snap_response_inline, snap_response_from, snap_response_body. by rewrite E.
Qed.
End snapshot_lemmas.

(** ** Witnesses *)

#[local] Existing Instance alist_headers.

(** A platform whose disk holds one manifest, at any readable path. *)
Definition demo_manifest : ManifestDoc :=
  mkManifest [] (mkState BackendMemory None) [] [] [sample_up [Bare (bs "10.0.0.1:80")]]
    [mkRoute None (mkMatch None (bs "/") None [] []) [] (Some (up_name (sample_up []))) [] None None
       None None None None None] [] None None None None.

#[local] Instance demo_platform :
    Platform (list (bytes * bytes)) BodyHooks unit unit unit unit := {|
  pf_features := mkFeatures false false false;
  pf_cidr_ok := fun _ => true;
  pf_value_from_str := Some;
  pf_sha256 := pad32; pf_hex_encode := id; pf_to_json := demo_json;
  pf_read_manifest := fun disk path =>
    match disk path with Some _ => Some demo_manifest | None => None end;
  pf_resolve := fun _ _ _ => Some tt;
  pf_load := fun _ _ _ => Some hooks_none;
  pf_body_hooks := id;
  pf_build_tls := fun _ _ _ => Some None;
  pf_build_client := fun _ => no_client; pf_parse_sni := no_sni |}.

Lemma demo_typed (disk : Disk) (path : bytes) (m : ManifestDoc) :
  pf_read_manifest (M := list (bytes * bytes)) (C := unit) (SN := unit) (T := unit)
    (Artifact := unit) disk path = Some m -> Forall weights_u32 (mf_routes m).
Proof.
  cbn. destruct (disk path); [|done]. intros [= <-]. cbn [mf_routes demo_manifest].
  apply Forall_singleton. cbn. constructor.
Qed.

Definition demo_ctl : result (Control BodyHooks unit unit unit) ControlError :=
  assemble (M := list (bytes * bytes)) (Artifact := unit) (fun _ => None) [] (Some (bs "/m"))
    demo_manifest.

Lemma reload_all_or_nothing_witness :
  exists ctl h, demo_ctl = Ok ctl /\
    (reload_from_disk (M := list (bytes * bytes)) (Artifact := unit)
      (fun _ => Some []) (fun _ => Some []) ctl) = (Ok Unchanged, ctl) /\
    h = ac_hash (ctl_active ctl).
Proof.
  destruct demo_ctl as [ctl|e] eqn:E; [|vm_compute in E; discriminate E].
  exists ctl, (ac_hash (ctl_active ctl)). split; [reflexivity|]. split; [|reflexivity].
  pose proof (reload_all_or_nothing (M := list (bytes * bytes)) (Artifact := unit) demo_typed
    (fun _ => Some []) (fun _ => Some []) ctl) as H.
  destruct (reload_from_disk (M := list (bytes * bytes)) (Artifact := unit)
    (fun _ => Some []) (fun _ => Some []) ctl) as [[[|h]|e] ctl'] eqn:Er.
  - destruct H as [-> _]. reflexivity.
  - exfalso. vm_compute in E. injection E as <-. vm_compute in Er. discriminate Er.
  - exfalso. vm_compute in E. injection E as <-. vm_compute in Er. discriminate Er.
Defined.

Lemma reloads_keep_routes_probed_witness :
  exists ctl, demo_ctl = Ok ctl /\
    routes_probed (serve_reloads (M := list (bytes * bytes)) (Artifact := unit)
      [((fun _ => Some []), (fun _ => None)); ((fun _ => None), (fun _ => None))] ctl).
Proof.
  destruct demo_ctl as [ctl|e] eqn:E; [|vm_compute in E; discriminate E].
  exists ctl. split; [reflexivity|].
  apply (reloads_keep_routes_probed (M := list (bytes * bytes)) (Artifact := unit) demo_typed
    (fun _ => None) [] (Some (bs "/m")) demo_manifest ctl _
    ltac:(apply Forall_singleton; cbn; constructor) E).
Defined.

(** ** A rotated upstream CA *)

(** A platform whose upstream client configuration is the CA file's content. *)
Definition tls_up : Upstream :=
  mkUpstream (bs "api") [Bare (bs "10.0.0.1:80")] (Some (mkTls (Some (bs "ca.pem")) None None None)) RoundRobin None
    demo_health 0 30000 1 0 0 (mkOutlier 0 30000 10).
Definition tls_manifest : ManifestDoc :=
  mkManifest [] (mkState BackendMemory None) [] [] [tls_up]
    [mkRoute None (mkMatch None (bs "/") None [] []) [] (Some (bs "api")) [] None None
       None None None None None] [] None None None None.
#[local] Instance tls_platform : Platform (list (bytes * bytes)) BodyHooks bytes unit unit unit := {|
  pf_features := mkFeatures false false false;
  pf_cidr_ok := fun _ => true; pf_value_from_str := Some;
  pf_sha256 := id; pf_hex_encode := id; pf_to_json := demo_json;
  pf_read_manifest := fun disk path => match disk path with Some _ => Some tls_manifest | None => None end;
  pf_resolve := fun _ _ _ => Some tt; pf_load := fun _ _ _ => Some hooks_none; pf_body_hooks := id;
  pf_build_tls := fun _ _ _ => Some None;
  pf_build_client := fun disk _ tls => path ← tls_ca_path tls; disk path;
  pf_parse_sni := no_sni |}.
Definition disk_with (ca : bytes) : Disk := fun path =>
  if bytes_eqb path (bs "ca.pem") then Some ca else if bytes_eqb path (bs "/m") then Some [] else None.

(** The CA file is replaced and the plane reloaded: the gate sees the change and the reload reports
    a new configuration, but the upstream is still verified against the old CA. *)
Example rotated_upstream_ca_not_loaded :
  exists ctl hash ctl' g,
    assemble (M := list (bytes * bytes)) (H0 := tls_platform) (disk_with (bs "old")) [] (Some (bs "/m")) tls_manifest = Ok ctl /\
    reload_from_disk (M := list (bytes * bytes)) (H0 := tls_platform) (disk_with (bs "new")) (disk_with (bs "new")) ctl
      = (Ok (Reloaded hash), ctl') /\
    ctl_groups ctl' !! bs "api" = Some g /\ g_tls_client g = Some (bs "old").
Proof.
  destruct (assemble _ _ _ _) as [ctl|] eqn:E; [|by vm_compute in E].
  destruct (reload_from_disk (disk_with (bs "new")) (disk_with (bs "new")) ctl) as [[[|hash]|] ctl'] eqn:Er;
    [exfalso; vm_compute in E; injection E as <-; by vm_compute in Er| |exfalso; vm_compute in E; injection E as <-; by vm_compute in Er].
  destruct (ctl_groups ctl' !! bs "api") as [g|] eqn:Eg.
  - exists ctl, hash, ctl', g. split_and!; [done|done|done|]. vm_compute in E. injection E as <-. vm_compute in Er.
    injection Er as <- <-. vm_compute in Eg. by injection Eg as <-.
  - exfalso. vm_compute in E. injection E as <-. vm_compute in Er. injection Er as <- <-. by vm_compute in Eg.
Qed.
