(* ===== verification/Forward.v ===== *)
(** * Forwarding with retries (server/src/retry.rs, forward.rs)

    The pure retry policy and the loop that drives it: one attempt per pick, an alternate
    instance only after the policy allows it, full-jitter backoff, per-try and overall bounds.
    The upstream client, the clock and the pool of instances are an interface over a world
    that other requests may change during every operation; times are in one unit. *)

From stdpp Require Import pretty.
From S2P Require Import Prelude Bytes Ssrf Chain Headers Manifest Upstream Balancer Route.

(** ** The retry policy (retry.rs) *)

Inductive Failure := FailTimeout | FailConnect.

Definition IDEMPOTENT : list bytes :=
  map bs ["GET"; "HEAD"; "PUT"; "DELETE"; "OPTIONS"; "TRACE"]%string.
Definition is_idempotent (method : bytes) : bool := existsb (bytes_eqb method) IDEMPOTENT.

Definition may_retry (failure : Failure) (method : bytes) (replayable : bool) (tries_left : Z)
    : bool :=
  replayable && (0 <? tries_left) &&
  match failure with FailTimeout => is_idempotent method | FailConnect => true end.

Definition is_retriable_5xx (status : Z) : bool := (502 <=? status) && (status <=? 504).

Definition RETRY_BACKOFF_BASE_MS : Z := 25.
Definition RETRY_BACKOFF_CAP_MS : Z := 250.

Definition backoff_ceiling (attempt : Z) : Z :=
  Z.min (saturating_mul64 RETRY_BACKOFF_BASE_MS (Z.shiftl 1 (Z.min attempt 16))) RETRY_BACKOFF_CAP_MS.

Definition jitter (entropy ceiling_ms : Z) : Z :=
  if ceiling_ms =? 0 then 0 else entropy mod (ceiling_ms + 1).

Inductive PerTryTimeout := Bounded (d : Z) | OverallDeadlineElapsed.

Definition per_try_timeout (overall_deadline : option Z) (per_try_bound now : Z) : PerTryTimeout :=
  match overall_deadline with
  | Some deadline =>
    if deadline <=? now then OverallDeadlineElapsed
    else
      let remaining := deadline - now in
      Bounded (if per_try_bound =? 0 then remaining else Z.min per_try_bound remaining)
  | None => Bounded per_try_bound
  end.

Inductive AttemptOutcome :=
| AoResponse (retriable_5xx : bool)
| AoTimedOut
| AoFailed (connect : bool).

Definition should_attempt_retry (outcome : AttemptOutcome) (method : bytes) (replayable : bool)
    (tries_left : Z) (overall_elapsed : bool) : bool :=
  if overall_elapsed then false
  else
    let '(retryable, failure) :=
      match outcome with
      | AoResponse retriable_5xx => (retriable_5xx, FailTimeout)
      | AoTimedOut => (true, FailTimeout)
      | AoFailed connect => (connect, FailConnect)
      end in
    retryable && may_retry failure method replayable tries_left.

(** ** Bodies and the upstream request (forward.rs) *)

(** A body handed to the client: empty, a stream (named by [s]), or bytes. *)
Inductive ReqBody := BodyEmpty | BodyStream (s : nat) | BodyFull (content : bytes).

Inductive ForwardBody := Bodyless | OneShot (body : ReqBody) | Replayable (content : bytes).

Definition replayable (b : ForwardBody) : bool :=
  match b with Bodyless | Replayable _ => true | OneShot _ => false end.

Definition take_oneshot (b : ForwardBody) : option ReqBody * ForwardBody :=
  match b with
  | OneShot body => (Some body, Bodyless)
  | Bodyless | Replayable _ => (None, b)
  end.

Definition attempt_body (b : ForwardBody) : ReqBody * ForwardBody :=
  match b with
  | Bodyless => (BodyEmpty, Bodyless)
  | OneShot body => (body, OneShot BodyEmpty)
  | Replayable content => (BodyFull content, b)
  end.

Definition H_TRACEPARENT : bytes := bs "traceparent".

Inductive AttemptHeaders (M : Type) :=
| HeadersChain (headers : list Header)
| HeadersDirect (map : M).
Arguments HeadersChain {M}.
Arguments HeadersDirect {M}.

Record ForwardRequest (M : Type) := mkForward {
  fw_method : bytes;
  fw_headers : AttemptHeaders M;
  fw_original_headers : M;
  fw_authority : bytes;
  fw_upstream_path : bytes;
  fw_traceparent : bytes;
  fw_upgrade_token : option bytes;
}.
Arguments mkForward {M}.
Arguments fw_method {M}.
Arguments fw_headers {M}.
Arguments fw_original_headers {M}.
Arguments fw_authority {M}.
Arguments fw_upstream_path {M}.
Arguments fw_traceparent {M}.
Arguments fw_upgrade_token {M}.

Record UpRequest (M : Type) := mkUpRequest {
  uq_method : bytes;
  uq_uri : bytes;
  uq_headers : M;
  uq_body : ReqBody;
}.
Arguments mkUpRequest {M}.
Arguments uq_method {M}.
Arguments uq_uri {M}.
Arguments uq_headers {M}.
Arguments uq_body {M}.

Section request.
Context {M : Type} `{HeaderMap M}.
(** The request builder of the HTTP library: whether it accepts a method and a URI, the empty
    map it starts from, and [HeaderValue::from_str]. *)
Context (builder_ok : bytes -> bytes -> bool) (hm_empty : M).
Context (value_from_str : bytes -> option bytes).

Definition insert_str (m : M) (name value : bytes) : M :=
  match value_from_str value with Some v => hm_insert m name v | None => m end.

Definition set_framing (dst : M) (body : ForwardBody) (original : M) : M :=
  let dst := hm_remove dst CONTENT_LENGTH in
  match body with
  | Bodyless => dst
  | OneShot _ =>
    match hm_get original CONTENT_LENGTH with
    | Some len => hm_insert dst CONTENT_LENGTH len
    | None => dst
    end
  | Replayable content => hm_insert dst CONTENT_LENGTH (bs (pretty (N.of_nat (length content))))
  end.

Definition base_headers (fw : ForwardRequest M) : M :=
  match fw_headers fw with
  | HeadersChain headers => copy_headers hm_empty headers
  | HeadersDirect map => copy_headers_direct hm_empty map
  end.

(** Without the upgrade re-issue; [body] is what [attempt_body] left. *)
Definition leg_headers (fw : ForwardRequest M) (scheme : bytes) (body : ForwardBody) : M :=
  let h := base_headers fw in
  let h := if bool_decide (hm_get_all h H_HOST = []) then insert_str h H_HOST (fw_authority fw) else h in
  let h := set_framing h body (fw_original_headers fw) in
  let h := insert_str h H_TRACEPARENT (fw_traceparent fw) in
  if bytes_eqb scheme (bs "https") && te_requests_trailers (fw_original_headers fw)
  then hm_insert h H_TE (bs "trailers") else h.

Definition attempt_headers (fw : ForwardRequest M) (scheme : bytes) (body : ForwardBody) : M :=
  let h := leg_headers fw scheme body in
  match fw_upgrade_token fw with
  | Some token =>
    match value_from_str token with
    | Some v => hm_insert (hm_insert h H_UPGRADE v) H_CONNECTION (bs "upgrade")
    | None => h
    end
  | None => h
  end.

(** [None] is a builder error. *)
Definition build_request (fw : ForwardRequest M) (scheme address : bytes) (attempt : ReqBody)
    (body : ForwardBody) : option (UpRequest M) :=
  let uri := scheme ++ bs "://" ++ address ++ fw_upstream_path fw in
  if builder_ok (fw_method fw) uri
  then Some (mkUpRequest (fw_method fw) uri (attempt_headers fw scheme body) attempt)
  else None.
End request.

(** ** The loop's environment *)

Inductive SendResult (R : Type) := SendOk (status : Z) (response : R) | SendErr (connect : bool).
Arguments SendOk {R}.
Arguments SendErr {R}.

(** What the loop asks of the instance pool, the upstream client, the clock and the metrics, on
    a world [W]; [P] is a pick, [R] a response with its body. *)
Class Env (M R P W : Type) := {
  env_now : W -> Z;
  env_entropy : W -> Z;
  env_sleep : Z -> W -> W;
  env_request : UpRequest M -> option Z -> W -> option (SendResult R) * W;
  env_instance : P -> nat;
  env_address : P -> W -> bytes;
  env_pick_excluding : nat -> W -> option P * W;
  env_record_outcome : P -> bool -> W -> bool * W;
  env_record_passive_failure : P -> W -> W;
  env_drop : P -> W -> W;
  env_inc_retries : W -> W;
  env_inc_outlier_ejection : W -> W;
}.

(** A request without a timeout always completes, an alternate is another instance, and the
    clock never runs backward. *)
Class EnvLaws (M R P W : Type) `{Env M R P W} : Prop := {
  env_untimed : forall q w, is_Some (env_request q None w).1;
  env_excludes : forall ex w p w', env_pick_excluding ex w = (Some p, w') -> env_instance p <> ex;
}.

Inductive ForwardOutcome (R P : Type) :=
| FoResponse (status : Z) (response : R) (pick : P)
| FoOverallTimeout
| FoPerTryTimeout
| FoSendFailed (connect : bool)
| FoBuildFailed.
Arguments FoResponse {R P}.
Arguments FoOverallTimeout {R P}.
Arguments FoPerTryTimeout {R P}.
Arguments FoSendFailed {R P}.
Arguments FoBuildFailed {R P}.

(** One attempt as it happened, for the properties: nothing reads it. *)
Record Attempt (M R P : Type) := mkAttempt {
  at_pick : P;
  at_request : UpRequest M;
  at_start : Z;
  at_timeout : option Z;
  at_result : option (SendResult R);
}.
Arguments mkAttempt {M R P}.
Arguments at_pick {M R P}.
Arguments at_request {M R P}.
Arguments at_start {M R P}.
Arguments at_timeout {M R P}.
Arguments at_result {M R P}.

Section loop.
Context {M R P W : Type} `{HeaderMap M} `{Env M R P W}.
Context (builder_ok : bytes -> bytes -> bool) (hm_empty : M).
Context (value_from_str : bytes -> option bytes).
Context (fw : ForwardRequest M) (scheme : bytes).
Context (per_try_bound : Z) (overall_deadline : option Z).

(** [tokio::time::sleep] only for a positive delay. *)
Definition backoff (attempt : Z) (w : W) : W :=
  let delay := jitter (env_entropy w) (backoff_ceiling attempt) in
  if 0 <? delay then env_sleep delay w else w.

(** The side effects of one attempt's arm and the decision input; [None] returns the overall
    timeout. *)
Definition settle (pick : P) (outcome : option (SendResult R)) (overall_elapsed : bool) (w : W)
    : option AttemptOutcome * W :=
  match outcome with
  | Some (SendOk status _) =>
    let retriable_5xx := is_retriable_5xx status in
    let '(ejected, w) := env_record_outcome pick retriable_5xx w in
    (Some (AoResponse retriable_5xx), if ejected then env_inc_outlier_ejection w else w)
  | None => (if overall_elapsed then None else Some AoTimedOut, w)
  | Some (SendErr connect) =>
    (Some (AoFailed connect), if connect then env_record_passive_failure pick w else w)
  end.

(** What the loop returns when it takes no further retry. *)
Definition conclude (pick : P) (outcome : option (SendResult R)) : ForwardOutcome R P :=
  match outcome with
  | Some (SendOk status response) => FoResponse status response pick
  | None => FoPerTryTimeout
  | Some (SendErr connect) => FoSendFailed connect
  end.

(** The pick is dropped when the loop returns anything but a response. *)
Definition finish (pick : P) (o : ForwardOutcome R P) (w : W) : ForwardOutcome R P * W :=
  (o, match o with FoResponse _ _ _ => w | _ => env_drop pick w end).

(** The loop; one unit of fuel per attempt. *)
Fixpoint forward_loop (fuel : nat) (pick : P) (body : ForwardBody) (can_replay : bool)
    (tries_left attempt : Z) (w : W) : option (ForwardOutcome R P * W * list (Attempt M R P)) :=
  match fuel with
  | O => None
  | S fuel =>
    let start := env_now w in
    match per_try_timeout overall_deadline per_try_bound start with
    | OverallDeadlineElapsed => Some (finish pick FoOverallTimeout w, [])
    | Bounded per_try =>
      let '(sent, body) := attempt_body body in
      match build_request builder_ok hm_empty value_from_str fw scheme (env_address pick w) sent body with
      | None => Some (finish pick FoBuildFailed w, [])
      | Some q =>
        let timeout := if per_try =? 0 then None else Some per_try in
        let '(outcome, w) := env_request q timeout w in
        let made := mkAttempt pick q start timeout outcome in
        let overall_elapsed :=
          match overall_deadline with Some d => d <=? env_now w | None => false end in
        match settle pick outcome overall_elapsed w with
        | (None, w) => Some (finish pick FoOverallTimeout w, [made])
        | (Some attempt_outcome, w) =>
          if should_attempt_retry attempt_outcome (fw_method fw) can_replay tries_left overall_elapsed
          then
            match env_pick_excluding (env_instance pick) w with
            | (Some next_pick, w) =>
              let w := backoff attempt (env_inc_retries w) in
              match forward_loop fuel next_pick body can_replay (tries_left - 1)
                      ((attempt + 1) mod 2 ^ 32) (env_drop pick w) with
              | Some (o, w, made') => Some (o, w, made :: made')
              | None => None
              end
            | (None, w) => Some (finish pick (conclude pick outcome) w, [made])
            end
          else Some (finish pick (conclude pick outcome) w, [made])
        end
      end
    end
  end.

(** [max_retries] retries are at most [max_retries + 1] turns. *)
Definition forward_with_retry (pick : P) (body : ForwardBody) (max_retries : Z) (w : W)
    : option (ForwardOutcome R P * W * list (Attempt M R P)) :=
  forward_loop (S (Z.to_nat max_retries)) pick body (replayable body) max_retries 0 w.

(** What the loop's future leaves when it is dropped at an await, as when the client goes away:
    while a request is out its pick is dropped, and during a backoff the next pick too.
    [suspended] is what the world may become during an await. *)
Fixpoint forward_loop_cut (suspended : W -> W -> Prop) (fuel : nat) (pick : P) (body : ForwardBody)
    (can_replay : bool) (tries_left attempt : Z) (w w' : W) : Prop :=
  match fuel with
  | O => False
  | S fuel =>
    match per_try_timeout overall_deadline per_try_bound (env_now w) with
    | OverallDeadlineElapsed => False
    | Bounded per_try =>
      let '(sent, body) := attempt_body body in
      match build_request builder_ok hm_empty value_from_str fw scheme (env_address pick w) sent body with
      | None => False
      | Some q =>
        (exists w1, suspended w w1 /\ w' = env_drop pick w1) \/
        let '(outcome, w) := env_request q (if per_try =? 0 then None else Some per_try) w in
        let overall_elapsed :=
          match overall_deadline with Some d => d <=? env_now w | None => false end in
        match settle pick outcome overall_elapsed w with
        | (None, _) => False
        | (Some attempt_outcome, w) =>
          if should_attempt_retry attempt_outcome (fw_method fw) can_replay tries_left overall_elapsed
          then
            match env_pick_excluding (env_instance pick) w with
            | (Some next_pick, w) =>
              let w := env_inc_retries w in
              (0 < jitter (env_entropy w) (backoff_ceiling attempt) /\
               exists w1, suspended w w1 /\ w' = env_drop pick (env_drop next_pick w1)) \/
              forward_loop_cut suspended fuel next_pick body can_replay (tries_left - 1)
                ((attempt + 1) mod 2 ^ 32) (env_drop pick (backoff attempt w)) w'
            | (None, _) => False
            end
          else False
        end
      end
    end
  end.

Definition forward_cut (suspended : W -> W -> Prop) (pick : P) (body : ForwardBody) (max_retries : Z)
    (w w' : W) : Prop :=
  forward_loop_cut suspended (S (Z.to_nat max_retries)) pick body (replayable body) max_retries 0 w w'.
End loop.

(** ** The policy *)

Lemma jitter_range entropy ceiling : 0 <= ceiling -> 0 <= jitter entropy ceiling <= ceiling.
Proof.
  intros Hc. unfold jitter. destruct (Z.eqb_spec ceiling 0); [lia|].
  pose proof (Z.mod_pos_bound entropy (ceiling + 1)). lia.
Qed.

Lemma backoff_ceiling_range attempt : 0 <= attempt -> 25 <= backoff_ceiling attempt <= 250.
Proof.
  intros Ha. unfold backoff_ceiling, saturating_mul64, RETRY_BACKOFF_BASE_MS, RETRY_BACKOFF_CAP_MS.
  rewrite Z.shiftl_mul_pow2 by lia. pose proof (Z.pow_pos_nonneg 2 (Z.min attempt 16)).
  unfold u64_max. lia.
Qed.

(** What a failed attempt must look like for a retry to be allowed. *)
Definition retry_safe {R} (method : bytes) (result : option (SendResult R)) : Prop :=
  match result with
  | Some (SendErr connect) => connect = true
  | Some (SendOk status _) => 502 <= status <= 504 /\ is_idempotent method = true
  | None => is_idempotent method = true
  end.

(** ** The loop *)

Section loop_lemmas.
Context {M R P W : Type} `{HeaderMap M} `{EnvLaws M R P W}.
Context (builder_ok : bytes -> bytes -> bool) (hm_empty : M).
Context (value_from_str : bytes -> option bytes).
Context (fw : ForwardRequest M) (scheme : bytes).
Context (per_try_bound : Z) (overall_deadline : option Z).

Notation loop := (forward_loop (R := R) (P := P) (W := W) builder_ok hm_empty value_from_str fw scheme
  per_try_bound overall_deadline).

(** The bounds an attempt starts under. *)
Definition in_time (a : Attempt M R P) : Prop :=
  match overall_deadline with
  | Some deadline => at_start a < deadline /\
      exists t, at_timeout a = Some t /\ 0 < t <= deadline - at_start a /\
        (per_try_bound <> 0 -> t <= per_try_bound)
  | None => at_timeout a = if per_try_bound =? 0 then None else Some per_try_bound
  end.

(** The next attempt is allowed after [a], on another instance, with the same request. *)
Definition retry_of (a b : Attempt M R P) : Prop :=
  retry_safe (fw_method fw) (at_result a) /\
  env_instance (at_pick b) <> env_instance (at_pick a) /\
  uq_method (at_request b) = uq_method (at_request a) /\
  uq_headers (at_request b) = uq_headers (at_request a) /\
  uq_body (at_request b) = uq_body (at_request a).

Fixpoint linked (l : list (Attempt M R P)) : Prop :=
  match l with
  | a :: ((b :: _) as rest) => retry_of a b /\ linked rest
  | _ => True
  end.

(** What the loop reports is what its last attempt did. *)
Definition reports (o : ForwardOutcome R P) (l : list (Attempt M R P)) : Prop :=
  match o with
  | FoResponse status response pick => exists a, list.last l = Some a /\
      at_result a = Some (SendOk status response) /\ at_pick a = pick
  | FoPerTryTimeout => exists a, list.last l = Some a /\ at_result a = None /\ at_timeout a <> None
  | FoSendFailed connect => exists a, list.last l = Some a /\ at_result a = Some (SendErr connect)
  | FoOverallTimeout => overall_deadline <> None
  | FoBuildFailed => True
  end.

(** The request the first attempt of a loop entered with [pick] and [body] sends. *)
Definition sends (pick : P) (body : ForwardBody) (w : W) (a : Attempt M R P) : Prop :=
  at_pick a = pick /\
  build_request builder_ok hm_empty value_from_str fw scheme (env_address pick w)
    (attempt_body body).1 (attempt_body body).2 = Some (at_request a).

Lemma settle_retry pick outcome elapsed (w w' : W) ao rp tries :
  settle (M := M) (R := R) pick outcome elapsed w = (Some ao, w') ->
  should_attempt_retry ao (fw_method fw) rp tries elapsed = true ->
  rp = true /\ 0 < tries /\ retry_safe (fw_method fw) outcome.
Proof.
  unfold settle, should_attempt_retry. intros Hs. destruct elapsed; [done|].
  destruct outcome as [[status response|connect]|].
  - destruct (env_record_outcome _ _ w) as [ej w1]. injection Hs as <- _. unfold may_retry.
    unfold is_retriable_5xx. intros Hb. bools. cbn. split_and!; (done || lia).
  - injection Hs as <- _. unfold may_retry. intros Hb. bools. cbn. split_and!; (done || lia).
  - injection Hs as <- _. unfold may_retry. intros Hb. bools. cbn. split_and!; (done || lia).
Qed.

Lemma settle_timeout (pick : P) outcome elapsed (w w' : W) :
  settle (M := M) (R := R) pick outcome elapsed w = (None, w') -> elapsed = true.
Proof.
  unfold settle. destruct outcome as [[status response|connect]|]; [|done|by destruct elapsed].
  by destruct (env_record_outcome _ _ w).
Qed.

Lemma per_try_bounded start d :
  0 <= per_try_bound -> per_try_timeout overall_deadline per_try_bound start = Bounded d ->
  match overall_deadline with
  | Some deadline => start < deadline /\ 0 < d <= deadline - start /\
                     (per_try_bound <> 0 -> d <= per_try_bound)
  | None => d = per_try_bound
  end.
Proof.
  unfold per_try_timeout. intros Hb. destruct overall_deadline as [dl|]; [|by intros [= <-]].
  destruct (Z.leb_spec dl start); [done|].
  intros [= <-]. destruct (Z.eqb_spec per_try_bound 0); lia.
Qed.

Lemma per_try_in_time pick q start d result :
  0 <= per_try_bound -> per_try_timeout overall_deadline per_try_bound start = Bounded d ->
  in_time (mkAttempt pick q start (if d =? 0 then None else Some d) result).
Proof.
  intros Hb Hp. pose proof (per_try_bounded _ _ Hb Hp) as Hd. unfold in_time. cbn.
  destruct overall_deadline as [dl|]; [|by subst].
  split; [lia|]. exists d. destruct (Z.eqb_spec d 0); [lia|]. split_and!; (done || lia).
Qed.

Lemma replay_body body : replayable body = true -> (attempt_body body).2 = body.
Proof. by destruct body. Qed.

(** The request of an attempt does not depend on the instance, its URI apart. *)
Lemma build_request_parts addr sent body (q : UpRequest M) :
  build_request builder_ok hm_empty value_from_str fw scheme addr sent body = Some q ->
  uq_method q = fw_method fw /\ uq_body q = sent /\
  uq_headers q = attempt_headers hm_empty value_from_str fw scheme body /\
  uq_uri q = scheme ++ bs "://" ++ addr ++ fw_upstream_path fw.
Proof. unfold build_request. destruct builder_ok; [|done]. by intros [= <-]. Qed.

Lemma conclude_reports pick q start timeout result :
  (timeout = None -> is_Some result) ->
  reports (conclude pick result) [mkAttempt pick q start timeout result].
Proof.
  intros Ht. unfold conclude, reports. destruct result as [[status response|connect]|]; eexists;
    split_and!; try done. intros Hn. by destruct (Ht Hn).
Qed.

Lemma reports_cons o a l : reports o l -> reports o (a :: l).
Proof.
  destruct l as [|b l]; [|by destruct o].
  destruct o; cbn; (done || by intros (? & ? & _)).
Qed.

(** What a run of the loop guarantees. *)
Definition well_run (pick : P) (body : ForwardBody) (tries : Z) (w : W)
    (o : ForwardOutcome R P) (tr : list (Attempt M R P)) : Prop :=
  Z.of_nat (length tr) <= tries + 1 /\
  (replayable body = false -> (length tr <= 1)%nat) /\
  Forall in_time tr /\ linked tr /\
  match tr with a :: _ => sends pick body w a | [] => True end /\
  reports o tr.

Lemma well_run_stop pick body tries w o :
  0 <= tries -> match o with FoOverallTimeout => overall_deadline <> None | FoBuildFailed => True
                | _ => False end ->
  well_run pick body tries w o [].
Proof. intros Ht Ho. unfold well_run. destruct o; cbn; try done; split_and!; (done || lia || auto). Qed.

Lemma well_run_one pick body tries w o a :
  0 <= tries -> in_time a -> sends pick body w a -> reports o [a] ->
  well_run pick body tries w o [a].
Proof.
  intros Ht Hi Hs Hr. unfold well_run. cbn [length]. split_and!; try done; [lia..|].
  by apply Forall_singleton.
Qed.

Lemma well_run_cons pick next body tries w w' o a tr :
  replayable body = true -> env_instance next <> env_instance pick ->
  retry_safe (fw_method fw) (at_result a) -> in_time a -> sends pick body w a ->
  well_run next body (tries - 1) w' o tr -> well_run pick body tries w o (a :: tr).
Proof.
  intros Hb Hn Hsafe Hi Hs (Hlen & _ & Hf & Hl & Hh & Hr). unfold well_run. cbn [length].
  split_and!; [lia|by rewrite Hb|by constructor| |done|by apply reports_cons].
  destruct tr as [|b tr]; [done|]. split; [|done].
  destruct Hs as [Hp Hq], Hh as [Hp' Hq'].
  apply build_request_parts in Hq as (Hm1 & Hb1 & Hh1 & _).
  apply build_request_parts in Hq' as (Hm & Hbd & Hhd & _).
  unfold retry_of. by rewrite Hp, Hp', Hm, Hbd, Hhd, Hm1, Hb1, Hh1.
Qed.

Lemma forward_loop_runs (Hbound : 0 <= per_try_bound) fuel :
  forall pick body tries attempt w,
  0 <= tries -> (Z.to_nat tries < fuel)%nat ->
  exists o w' tr, loop fuel pick body (replayable body) tries attempt w = Some (o, w', tr) /\
    well_run pick body tries w o tr.
Proof.
  induction fuel as [|fuel IH]; intros pick body tries attempt w Htries Hfuel; [lia|].
  cbn [forward_loop].
  destruct (per_try_timeout overall_deadline per_try_bound (env_now w)) as [d|] eqn:Hd.
  2:{ eexists _, _, _. split; [done|]. apply well_run_stop; [done|]. cbn.
      unfold per_try_timeout in Hd. by destruct overall_deadline. }
  destruct (attempt_body body) as [sent body'] eqn:Hbody.
  destruct build_request as [q|] eqn:Hq; [|eexists _, _, _; split; [done|]; by apply well_run_stop].
  set (timeout := if d =? 0 then None else Some d).
  destruct (env_request q timeout w) as [outcome w1] eqn:Hsend.
  set (elapsed := match overall_deadline with Some dl => dl <=? env_now w1 | None => false end).
  pose proof (per_try_in_time pick q _ d outcome Hbound Hd) as Hin. fold timeout in Hin.
  assert (Hsends : sends pick body w (mkAttempt pick q (env_now w) timeout outcome)).
  { split; [done|]. by rewrite Hbody. }
  assert (Hdone : reports (conclude pick outcome) [mkAttempt pick q (env_now w) timeout outcome]).
  { apply conclude_reports. intros Hn. rewrite Hn in Hsend. pose proof (env_untimed q w) as Hu.
    by rewrite Hsend in Hu. }
  destruct (settle pick outcome elapsed w1) as [[ao|] w2] eqn:Hsettle.
  2:{ eexists _, _, _. split; [done|]. apply well_run_one; try done.
      apply settle_timeout in Hsettle. intros Hn. unfold elapsed in Hsettle. by rewrite Hn in Hsettle. }
  destruct (should_attempt_retry ao (fw_method fw) (replayable body) tries elapsed) eqn:Hretry.
  2:{ eexists _, _, _. split; [done|]. by apply well_run_one. }
  destruct (settle_retry _ _ _ _ _ _ _ _ Hsettle Hretry) as (Hrep & Hleft & Hsafe).
  destruct (env_pick_excluding (env_instance pick) w2) as [[next|] w3] eqn:Hpick.
  2:{ eexists _, _, _. split; [done|]. by apply well_run_one. }
  pose proof (replay_body _ Hrep) as Hsame. rewrite Hbody in Hsame. cbn [snd] in Hsame. subst body'.
  edestruct (IH next body (tries - 1)) as (o & w' & tr & -> & Hrun); [lia..|].
  eexists _, _, _. split; [done|].
  eapply well_run_cons; try done. by eapply env_excludes.
Qed.
End loop_lemmas.

Section loop_facts.
Context {M R P W : Type} `{HeaderMap M} `{Env M R P W}.
Context (builder_ok : bytes -> bytes -> bool) (hm_empty : M).
Context (value_from_str : bytes -> option bytes).
Context (fw : ForwardRequest M) (scheme : bytes).
Context (per_try_bound : Z) (overall_deadline : option Z).
Notation loop := (forward_loop (R := R) (P := P) (W := W) builder_ok hm_empty value_from_str fw scheme
  per_try_bound overall_deadline).

(** The fuel is enough whatever the environment does. *)
Lemma forward_loop_total fuel : forall pick body can_replay tries attempt (w : W),
  (Z.to_nat tries < fuel)%nat -> exists r, loop fuel pick body can_replay tries attempt w = Some r.
Proof.
  induction fuel as [|fuel IH]; intros pick body rp tries attempt w Hf; [lia|]. cbn [forward_loop].
  destruct per_try_timeout as [d|]; [|by eexists]. destruct attempt_body as [sent body'].
  destruct build_request as [q|]; [|by eexists]. destruct env_request as [outcome w1].
  destruct settle as [[ao|] w2]; [|by eexists].
  destruct should_attempt_retry eqn:Er; [|by eexists].
  destruct env_pick_excluding as [[next|] w3]; [|by eexists].
  destruct (IH next body' rp (tries - 1) ((attempt + 1) mod 2 ^ 32)
    (env_drop pick (backoff attempt (env_inc_retries w3)))) as [[[o w'] tr] ->]; [|by eexists].
  enough (0 < tries) by lia. unfold should_attempt_retry, may_retry in Er.
  case_match; [done|]. case_match. bools. done.
Qed.

Lemma forward_total pick body max_retries (w : W) :
  exists r, forward_with_retry builder_ok hm_empty value_from_str fw scheme per_try_bound
    overall_deadline pick body max_retries w = Some r.
Proof. apply forward_loop_total. lia. Qed.

(** The bytes a request carries of a body. *)
Definition carries_body (body : ForwardBody) (sent : ReqBody) : Prop :=
  match body with
  | Bodyless => sent = BodyEmpty
  | OneShot stream => sent = stream
  | Replayable content => sent = BodyFull content
  end.

(** An attempt sends the loop's request to its pick, with the loop's body. *)
Definition sends_request (body : ForwardBody) (a : Attempt M R P) : Prop :=
  (exists w : W, uq_uri (at_request a)
     = scheme ++ bs "://" ++ env_address (at_pick a) w ++ fw_upstream_path fw) /\
  uq_method (at_request a) = fw_method fw /\
  uq_headers (at_request a) = attempt_headers hm_empty value_from_str fw scheme body /\
  carries_body body (uq_body (at_request a)).

Lemma sends_built pick body (w : W) q a :
  build_request builder_ok hm_empty value_from_str fw scheme (env_address pick w)
    (attempt_body body).1 (attempt_body body).2 = Some q ->
  at_pick a = pick -> at_request a = q -> sends_request body a.
Proof.
  unfold build_request, sends_request. destruct (builder_ok _ _); [|done].
  intros [= <-] <- ->. split; [by exists w|]. by destruct body.
Qed.

(** Only a body that is replayed as it was is sent twice, and the first attempt is the pick's. *)
Lemma forward_loop_sends fuel : forall pick body can_replay tries attempt (w : W) o w' tr,
  loop fuel pick body can_replay tries attempt w = Some (o, w', tr) ->
  (can_replay = true -> replayable body = true) ->
  Forall (sends_request body) tr /\ (forall a, head tr = Some a -> at_pick a = pick).
Proof.
  induction fuel as [|fuel IH]; intros pick body rp tries attempt w o w' tr; [done|]. cbn [forward_loop].
  destruct per_try_timeout as [d|]; [|by intros [= _ _ <-]].
  pose proof (sends_built pick body w) as Hb. destruct (attempt_body body) as [sent body'] eqn:Eb.
  destruct build_request as [q|] eqn:Eq; [|by intros [= _ _ <-]]. destruct env_request as [outcome w1].
  specialize (Hb q (mkAttempt pick q (env_now w) (if d =? 0 then None else Some d) outcome) eq_refl eq_refl eq_refl).
  destruct settle as [[ao|] w2] eqn:Es; [|intros [= _ _ <-] _; split; [by apply Forall_singleton|by intros ? [= <-]]].
  destruct should_attempt_retry eqn:Er; [|intros [= _ _ <-] _; split; [by apply Forall_singleton|by intros ? [= <-]]].
  destruct env_pick_excluding as [[next|] w3];
    [|intros [= _ _ <-] _; split; [by apply Forall_singleton|by intros ? [= <-]]].
  destruct forward_loop as [[[o1 w4] tr1]|] eqn:El; [|done]. intros [= _ _ <-] Hrp.
  destruct (settle_retry _ _ _ _ _ _ _ _ _ Es Er) as (-> & _ & _).
  assert (body' = body) as -> by (specialize (Hrp eq_refl); destruct body; [by injection Eb|done|by injection Eb]).
  destruct (IH _ _ _ _ _ _ _ _ _ El Hrp) as [Hall _]. split; [by constructor|by intros ? [= <-]].
Qed.

(** What the loop does to the number of picks held: [b] for each. *)
Class EnvHolds (held : W -> Z) (b : Z) : Prop := {
  holds_sleep : forall d w, held (env_sleep d w) = held w;
  holds_request : forall q t w, held (env_request q t w).2 = held w;
  holds_pick : forall ex w, held (env_pick_excluding ex w).2
    = held w + match (env_pick_excluding ex w).1 with Some _ => b | None => 0 end;
  holds_outcome : forall p g w, held (env_record_outcome p g w).2 = held w;
  holds_passive : forall p w, held (env_record_passive_failure p w) = held w;
  holds_drop : forall p w, held (env_drop p w) = held w - b;
  holds_retries : forall w, held (env_inc_retries w) = held w;
  holds_ejection : forall w, held (env_inc_outlier_ejection w) = held w;
}.

Lemma settle_holds (held : W -> Z) b `{!EnvHolds held b} pick outcome elapsed (w : W) :
  held (settle (M := M) (R := R) pick outcome elapsed w).2 = held w.
Proof.
  unfold settle. destruct outcome as [[st r|c]|]; cbn; [|by destruct c; [apply holds_passive|]|done].
  pose proof (holds_outcome pick (is_retriable_5xx st) w) as Ho.
  destruct env_record_outcome as [[] w2]; cbn in *; rewrite ?holds_ejection; done.
Qed.

Lemma backoff_holds (held : W -> Z) b `{!EnvHolds held b} attempt (w : W) : held (backoff attempt w) = held w.
Proof. unfold backoff. destruct (_ <? _); [apply holds_sleep|done]. Qed.

(** One pick in, one pick out with a response and none otherwise. *)
Lemma forward_loop_holds (held : W -> Z) b `{!EnvHolds held b} fuel :
  forall pick body can_replay tries attempt (w : W) o w' tr,
  loop fuel pick body can_replay tries attempt w = Some (o, w', tr) ->
  held w' = held w - match o with FoResponse _ _ _ => 0 | _ => b end.
Proof.
  induction fuel as [|fuel IH]; intros pick body rp tries attempt w o w' tr; [done|]. cbn [forward_loop].
  assert (Hfin : forall o0 w0, held (finish pick o0 w0).2
    = held w0 - match o0 with FoResponse _ _ _ => 0 | _ => b end).
  { intros o0 w0. unfold finish. destruct o0; cbn; rewrite ?holds_drop; lia. }
  assert (Hend : forall o0 w0 tr0, Some (finish pick o0 w0, tr0) = Some (o, w', tr) -> held w0 = held w ->
    held w' = held w - match o with FoResponse _ _ _ => 0 | _ => b end).
  { intros o0 w0 tr0 E Eh. specialize (Hfin o0 w0). unfold finish in *. cbn [snd] in Hfin.
    injection E as -> Ew _. rewrite Ew in Hfin. lia. }
  destruct per_try_timeout as [d|]; [|intros E; by apply Hend in E]. destruct attempt_body as [sent body'].
  destruct build_request as [q|]; [|intros E; by apply Hend in E].
  pose proof (holds_request q (if d =? 0 then None else Some d) w) as H1.
  destruct env_request as [outcome w1]. cbn [snd] in H1.
  match goal with |- context [settle pick outcome ?el w1] => pose proof (settle_holds held b pick outcome el w1) as H2 end.
  destruct settle as [[ao|] w2]; cbn [snd] in H2; [|intros E; apply Hend in E; lia].
  destruct should_attempt_retry; [|intros E; apply Hend in E; lia].
  pose proof (holds_pick (env_instance pick) w2) as H3.
  destruct env_pick_excluding as [[next|] w3]; cbn in H3; [|intros E; apply Hend in E; lia].
  destruct forward_loop as [[[o1 w4] tr1]|] eqn:El; [|done]. intros [= <- <- _].
  apply IH in El. rewrite El, holds_drop.
  rewrite (backoff_holds held b), holds_retries. lia.
Qed.

(** Dropped at an await, the loop gives back its pick. *)
Lemma forward_loop_cut_holds (suspended : W -> W -> Prop) (held : W -> Z) b `{!EnvHolds held b} :
  (forall w w', suspended w w' -> held w' = held w) ->
  forall fuel pick body can_replay tries attempt (w w' : W),
  forward_loop_cut (R := R) builder_ok hm_empty value_from_str fw scheme per_try_bound overall_deadline suspended
    fuel pick body can_replay tries attempt w w' ->
  held w' = held w - b.
Proof.
  intros Hsus fuel. induction fuel as [|fuel IH]; intros pick body rp tries attempt w w'; [done|].
  cbn [forward_loop_cut]. destruct per_try_timeout as [d|]; [|done].
  destruct attempt_body as [sent body']. destruct build_request as [q|]; [|done].
  intros [(w1 & Hw & ->)|Hc]; [by rewrite holds_drop, (Hsus _ _ Hw)|]. revert Hc.
  pose proof (holds_request q (if d =? 0 then None else Some d) w) as H1.
  destruct env_request as [outcome w1]. cbn [snd] in H1.
  match goal with |- context [settle pick outcome ?el w1] => pose proof (settle_holds held b pick outcome el w1) as H2 end.
  destruct settle as [[ao|] w2]; cbn [snd] in H2; [|done]. destruct should_attempt_retry; [|done].
  pose proof (holds_pick (env_instance pick) w2) as H3.
  destruct env_pick_excluding as [[next|] w3]; cbn in H3; [|done].
  intros [(_ & w4 & Hw & ->)|Hc].
  - rewrite !holds_drop, (Hsus _ _ Hw), holds_retries. lia.
  - apply IH in Hc. rewrite Hc, holds_drop, (backoff_holds held b), holds_retries. lia.
Qed.
End loop_facts.

(** ** The upstream request *)

(** Decide the equalities of the concrete header names. *)
Ltac known_names :=
  repeat match goal with
  | |- context [bool_decide (?a = ?b)] =>
    lazymatch b with nil => fail | _ => idtac end;
    first [rewrite (bool_decide_true (a = b)) by reflexivity
          |rewrite (bool_decide_false (a = b)) by (vm_compute; discriminate)]
  end.

Section request_lemmas.
Context {M : Type} `{HeaderMapLaws M}.
Context (builder_ok : bytes -> bytes -> bool) (hm_empty : M).
Context (value_from_str : bytes -> option bytes).
Context (empty_all : forall n, hm_get_all hm_empty n = []).
(** The parser of header names only lowers letters. *)
Context (parse_name_case : forall s n, parse_name s = Some n -> eq_ignore_ascii_case s n = true).

Lemma insert_str_all (m : M) name value k :
  hm_get_all (insert_str value_from_str m name value) k =
    match value_from_str value with
    | Some v => if bool_decide (k = name) then [v] else hm_get_all m k
    | None => hm_get_all m k
    end.
Proof. unfold insert_str. destruct value_from_str; [apply hm_insert_all|done]. Qed.

(** The framing length of each body variant. *)
Definition framing (body : ForwardBody) (original : M) : list bytes :=
  match body with
  | Bodyless => []
  | OneShot _ => match hm_get original CONTENT_LENGTH with Some len => [len] | None => [] end
  | Replayable content => [bs (pretty (N.of_nat (length content)))]
  end.

Lemma set_framing_all (m : M) body original k :
  hm_get_all (set_framing m body original) k =
    if bool_decide (k = CONTENT_LENGTH) then framing body original else hm_get_all m k.
Proof.
  unfold set_framing, framing. destruct body as [|b|content].
  - rewrite hm_remove_all. by case_bool_decide.
  - destruct (hm_get original CONTENT_LENGTH); rewrite ?hm_insert_all, hm_remove_all;
      by case_bool_decide.
  - rewrite hm_insert_all, hm_remove_all. by case_bool_decide.
Qed.

Lemma copy_headers_no_hop (headers : list Header) n (dst : M) : is_hop_by_hop n = true ->
  hm_get_all (copy_headers dst headers) n = hm_get_all dst n.
Proof. intros Hn. apply copy_filtered_skips; [exact parse_name_case|]. by rewrite Hn. Qed.

Lemma base_no_hop (fw : ForwardRequest M) n :
  is_hop_by_hop n = true -> hm_get_all (base_headers hm_empty fw) n = [].
Proof.
  intros Hn. unfold base_headers. destruct (fw_headers fw) as [headers|map].
  - by rewrite copy_headers_no_hop.
  - by rewrite copy_direct_all, Hn, empty_all.
Qed.

(** The values of every name, the last writer first. *)
Definition leg_value (fw : ForwardRequest M) (scheme : bytes) (body : ForwardBody) (k : bytes)
    : list bytes :=
  let base := hm_get_all (base_headers hm_empty fw) in
  if bytes_eqb scheme (bs "https") && te_requests_trailers (fw_original_headers fw)
     && bool_decide (k = H_TE) then [bs "trailers"]
  else match value_from_str (fw_traceparent fw), bool_decide (k = H_TRACEPARENT) with
       | Some v, true => [v]
       | _, _ =>
         if bool_decide (k = CONTENT_LENGTH) then framing body (fw_original_headers fw)
         else match value_from_str (fw_authority fw), bool_decide (base H_HOST = []),
                    bool_decide (k = H_HOST) with
              | Some v, true, true => [v]
              | _, _, _ => base k
              end
       end.

Lemma leg_headers_all (fw : ForwardRequest M) scheme body k :
  hm_get_all (leg_headers hm_empty value_from_str fw scheme body) k = leg_value fw scheme body k.
Proof.
  unfold leg_headers, leg_value. cbv zeta.
  set (h3 := insert_str value_from_str (set_framing _ _ _) _ _).
  transitivity (if bytes_eqb scheme (bs "https") && te_requests_trailers (fw_original_headers fw)
       && bool_decide (k = H_TE) then [bs "trailers"] else hm_get_all h3 k).
  { destruct (_ && te_requests_trailers _); cbn [andb]; [apply hm_insert_all|done]. }
  destruct (_ && bool_decide (k = H_TE)); [done|]. unfold h3. rewrite insert_str_all, set_framing_all.
  destruct (bool_decide (hm_get_all (base_headers hm_empty fw) H_HOST = [])); rewrite ?insert_str_all;
    destruct (value_from_str (fw_traceparent fw)), (bool_decide (k = H_TRACEPARENT)); try done;
    by destruct (value_from_str (fw_authority fw)), (bool_decide (k = CONTENT_LENGTH)).
Qed.

Definition token_value (fw : ForwardRequest M) : option bytes :=
  match fw_upgrade_token fw with Some t => value_from_str t | None => None end.

Lemma attempt_headers_all (fw : ForwardRequest M) scheme body k :
  hm_get_all (attempt_headers hm_empty value_from_str fw scheme body) k
  = match token_value fw with
    | Some v => if bool_decide (k = H_CONNECTION) then [bs "upgrade"]
                else if bool_decide (k = H_UPGRADE) then [v] else leg_value fw scheme body k
    | None => leg_value fw scheme body k
    end.
Proof.
  unfold attempt_headers, token_value. cbv zeta.
  destruct (fw_upgrade_token fw) as [token|]; [destruct (value_from_str token)|];
    by rewrite ?hm_insert_all, leg_headers_all.
Qed.

Lemma attempt_length fw scheme body :
  hm_get_all (attempt_headers hm_empty value_from_str fw scheme body) CONTENT_LENGTH
  = framing body (fw_original_headers fw).
Proof.
  rewrite attempt_headers_all. unfold leg_value. known_names. rewrite andb_false_r.
  by destruct token_value, (value_from_str (fw_traceparent fw)).
Qed.

Lemma attempt_host fw scheme body :
  hm_get_all (attempt_headers hm_empty value_from_str fw scheme body) H_HOST
  = if bool_decide (hm_get_all (base_headers hm_empty fw) H_HOST = [])
    then option_list (value_from_str (fw_authority fw))
    else hm_get_all (base_headers hm_empty fw) H_HOST.
Proof.
  rewrite attempt_headers_all. unfold leg_value. known_names. rewrite andb_false_r.
  destruct (bool_decide_reflect (hm_get_all (base_headers hm_empty fw) H_HOST = [])) as [E|E];
    rewrite ?E; by destruct token_value, (value_from_str (fw_traceparent fw)),
      (value_from_str (fw_authority fw)).
Qed.

Lemma attempt_trace fw scheme body v :
  value_from_str (fw_traceparent fw) = Some v ->
  hm_get_all (attempt_headers hm_empty value_from_str fw scheme body) H_TRACEPARENT = [v].
Proof.
  intros Hv. rewrite attempt_headers_all. unfold leg_value. known_names.
  rewrite andb_false_r, Hv. by destruct token_value.
Qed.

Lemma attempt_te fw scheme body :
  hm_get_all (attempt_headers hm_empty value_from_str fw scheme body) H_TE
  = if bytes_eqb scheme (bs "https") && te_requests_trailers (fw_original_headers fw)
    then [bs "trailers"] else [].
Proof.
  rewrite attempt_headers_all. unfold leg_value. known_names. rewrite andb_true_r.
  rewrite (base_no_hop fw H_TE) by done.
  by destruct token_value, (_ && te_requests_trailers _), (value_from_str (fw_traceparent fw)),
    (value_from_str (fw_authority fw)), (bool_decide (hm_get_all (base_headers hm_empty fw) H_HOST = [])).
Qed.

Lemma leg_hop fw scheme body n : is_hop_by_hop n = true -> n <> H_TE ->
  leg_value fw scheme body n = [].
Proof.
  intros Hn Hte. unfold leg_value. rewrite (base_no_hop fw n) by done.
  rewrite (bool_decide_false (n = H_TE)) by done. rewrite andb_false_r.
  rewrite (bool_decide_false (n = H_TRACEPARENT)), (bool_decide_false (n = CONTENT_LENGTH)),
    (bool_decide_false (n = H_HOST)) by (intros E; by rewrite E in Hn).
  by destruct (value_from_str (fw_traceparent fw)), (value_from_str (fw_authority fw)),
    (bool_decide (hm_get_all (base_headers hm_empty fw) H_HOST = [])).
Qed.

Lemma attempt_upgrade fw scheme body :
  hm_get_all (attempt_headers hm_empty value_from_str fw scheme body) H_UPGRADE
  = option_list (token_value fw).
Proof.
  rewrite attempt_headers_all, leg_hop by done. known_names. by destruct token_value.
Qed.

Lemma attempt_connection fw scheme body :
  hm_get_all (attempt_headers hm_empty value_from_str fw scheme body) H_CONNECTION
  = match token_value fw with Some _ => [bs "upgrade"] | None => [] end.
Proof.
  rewrite attempt_headers_all, leg_hop by done. known_names. by destruct token_value.
Qed.

Lemma attempt_hop fw scheme body n : is_hop_by_hop n = true ->
  n ∉ [H_TE; H_UPGRADE; H_CONNECTION] ->
  hm_get_all (attempt_headers hm_empty value_from_str fw scheme body) n = [].
Proof.
  intros Hn Hout. rewrite !not_elem_of_cons in Hout. destruct Hout as (? & ? & ? & _). rewrite attempt_headers_all, leg_hop by done.
  rewrite !bool_decide_false by done. by destruct token_value.
Qed.

Lemma attempt_other fw scheme body n :
  n ∉ [H_TE; H_UPGRADE; H_CONNECTION; H_HOST; H_TRACEPARENT; CONTENT_LENGTH] ->
  hm_get_all (attempt_headers hm_empty value_from_str fw scheme body) n
  = hm_get_all (base_headers hm_empty fw) n.
Proof.
  intros Hn. rewrite !not_elem_of_cons in Hn. destruct Hn as (? & ? & ? & ? & ? & ? & _).
  rewrite attempt_headers_all. unfold leg_value.
  rewrite (bool_decide_false (n = H_TE)), (bool_decide_false (n = H_CONNECTION)),
    (bool_decide_false (n = H_UPGRADE)), (bool_decide_false (n = H_HOST)),
    (bool_decide_false (n = H_TRACEPARENT)), (bool_decide_false (n = CONTENT_LENGTH)), andb_false_r by done.
  by destruct token_value, (value_from_str (fw_traceparent fw)), (value_from_str (fw_authority fw)),
    (bool_decide (hm_get_all (base_headers hm_empty fw) H_HOST = [])).
Qed.
End request_lemmas.


(** ** Properties *)

(** C31: forwarding with retries always ends, within [max_retries + 1] attempts (one, for a
    body that cannot be replayed), and every attempt runs inside the bounds: it starts before
    the overall deadline and its timeout never exceeds what remains of it or the per-try
    bound.  A further attempt is made only after a connect failure, or after a timeout or a
    gateway-class 5xx of an idempotent method, on another instance than the failed one, and
    sends the same method, headers and body; the first attempt sends the request built for
    the first pick; what is returned is what the last attempt did. *)
Theorem forward_retry_safe {M R P W : Type} `{HeaderMap M} `{EnvLaws M R P W}
    (builder_ok : bytes -> bytes -> bool) (hm_empty : M) (value_from_str : bytes -> option bytes)
    (fw : ForwardRequest M) (scheme : bytes) (per_try_bound : Z) (overall_deadline : option Z)
    (pick : P) (body : ForwardBody) (max_retries : Z) (w : W) :
  0 <= per_try_bound -> 0 <= max_retries ->
  exists o w' tr,
    forward_with_retry builder_ok hm_empty value_from_str fw scheme per_try_bound overall_deadline
      pick body max_retries w = Some (o, w', tr) /\
    Z.of_nat (length tr) <= max_retries + 1 /\
    (replayable body = false -> (length tr <= 1)%nat) /\
    Forall (in_time (R := R) per_try_bound overall_deadline) tr /\
    linked fw tr /\
    match tr with
    | a :: _ => sends builder_ok hm_empty value_from_str fw scheme pick body w a
    | [] => True
    end /\
    reports overall_deadline o tr.
Proof. intros Hb Hr. by apply forward_loop_runs; [done| |lia]. Qed.

(** Every upstream request is framed by the gateway and carries nothing hop-by-hop of the
    client's: its length is the body's own (none for an empty body, the client's for a
    streamed one, the exact count for a buffered one), [Host] is the forwarded one or else
    the client's authority, [TE] is [trailers] on a re-encrypted leg whose client asked for
    it and absent otherwise, [Upgrade] and [Connection] are exactly the re-issued pair or
    absent, the trace context is the gateway's, and every other header is as forwarded. *)
Theorem upstream_request_framed {M : Type} `{HeaderMapLaws M}
    (builder_ok : bytes -> bytes -> bool) (hm_empty : M) (value_from_str : bytes -> option bytes)
    (fw : ForwardRequest M) (scheme address : bytes) (body : ForwardBody) (q : UpRequest M) :
  (forall n, hm_get_all hm_empty n = []) ->
  (forall s n, parse_name s = Some n -> eq_ignore_ascii_case s n = true) ->
  build_request builder_ok hm_empty value_from_str fw scheme address
    (attempt_body body).1 (attempt_body body).2 = Some q ->
  let value := hm_get_all (uq_headers q) in
  let base := hm_get_all (base_headers hm_empty fw) in
  uq_method q = fw_method fw /\
  uq_uri q = scheme ++ bs "://" ++ address ++ fw_upstream_path fw /\
  match body with
  | Bodyless => uq_body q = BodyEmpty /\ value CONTENT_LENGTH = []
  | OneShot b => uq_body q = b /\
      value CONTENT_LENGTH = option_list (hm_get (fw_original_headers fw) CONTENT_LENGTH)
  | Replayable content => uq_body q = BodyFull content /\
      value CONTENT_LENGTH = [bs (pretty (N.of_nat (length content)))]
  end /\
  value H_HOST = (if bool_decide (base H_HOST = [])
                  then option_list (value_from_str (fw_authority fw)) else base H_HOST) /\
  (forall v, value_from_str (fw_traceparent fw) = Some v -> value H_TRACEPARENT = [v]) /\
  value H_TE = (if bytes_eqb scheme (bs "https") && te_requests_trailers (fw_original_headers fw)
                then [bs "trailers"] else []) /\
  match token_value value_from_str fw with
  | Some v => value H_UPGRADE = [v] /\ value H_CONNECTION = [bs "upgrade"]
  | None => value H_UPGRADE = [] /\ value H_CONNECTION = []
  end /\
  (forall n, is_hop_by_hop n = true -> n ∉ [H_TE; H_UPGRADE; H_CONNECTION] -> value n = []) /\
  (forall n, n ∉ [H_TE; H_UPGRADE; H_CONNECTION; H_HOST; H_TRACEPARENT; CONTENT_LENGTH] ->
     value n = base n).
Proof.
  intros Hempty Hcase Hq. destruct (build_request_parts _ _ _ _ _ _ _ _ _ Hq) as (Em & Eb & Eh & Eu).
  cbv zeta. rewrite Eh. split; [done|]. split; [done|].
  assert (Ebody : match body with
    | Bodyless => uq_body q = BodyEmpty /\ framing (attempt_body body).2 (fw_original_headers fw) = []
    | OneShot b => uq_body q = b /\ framing (attempt_body body).2 (fw_original_headers fw)
        = option_list (hm_get (fw_original_headers fw) CONTENT_LENGTH)
    | Replayable content => uq_body q = BodyFull content /\
        framing (attempt_body body).2 (fw_original_headers fw)
        = [bs (pretty (N.of_nat (length content)))]
    end).
  { rewrite Eb. by destruct body. }
  split_and!.
  - rewrite attempt_length by done. exact Ebody.
  - by rewrite attempt_host.
  - intros v Hv. by apply attempt_trace.
  - by rewrite attempt_te.
  - rewrite attempt_upgrade, attempt_connection by done. by destruct token_value.
  - intros n Hn Hout. by apply attempt_hop.
  - intros n Hn. by apply attempt_other.
Qed.

(** ** Over the load balancer

    The environment the properties are instantiated with: the balancer's own picks, outlier
    recording and passive ejection over its instance heap, and an upstream that answers from a
    script of results and latencies. *)

Record Pool := mkPool {
  po_heap : Heap;
  po_now : Z;
  po_rr : Z;
  po_rng : Z;
  po_script : list (SendResult nat * Z);
}.

Definition with_heap (w : Pool) (heap : Heap) : Pool :=
  mkPool heap (po_now w) (po_rr w) (po_rng w) (po_script w).

Section pool.
Context (ep : Endpoints) (policy : OutlierPolicy).

Definition scripted (timeout : option Z) (w : Pool) : option (SendResult nat) * Pool :=
  match po_script w with
  | [] => (Some (SendErr false), w)
  | (result, latency) :: rest =>
    let late := match timeout with Some t => t <? latency | None => false end in
    let spent := match timeout with Some t => Z.min t latency | None => latency end in
    (if late then None else Some result,
     mkPool (po_heap w) (po_now w + spent) (po_rr w) (po_rng w) rest)
  end.

Definition pool_pick_excluding (ex : nat) (w : Pool) : option Pick * Pool :=
  let '(check, now) := eligibility_ctx policy (po_now w) in
  match pick_dispatch (length (ep_instances ep)) ep (is_eligible check now (Some ex) (po_heap w))
          (po_heap w) None (po_rr w) (po_rng w) with
  | Some (Some p, rr, rng) => (Some p, mkPool (take_pick (po_heap w) p) (po_now w) rr rng (po_script w))
  | Some (None, rr, rng) => (None, mkPool (po_heap w) (po_now w) rr rng (po_script w))
  | None => (None, w)
  end.

Context {M : Type}.

#[export] Instance pool_env : Env M nat Pick Pool := {|
  env_now := po_now;
  env_entropy w := po_rng w;
  env_sleep d w := mkPool (po_heap w) (po_now w + d) (po_rr w) (po_rng w) (po_script w);
  env_request q := scripted;
  env_instance := pk_instance;
  env_address p w := (inst_entry (po_heap w) (pk_instance p)).1;
  env_pick_excluding := pool_pick_excluding;
  env_record_outcome p gwf w :=
    let '(ejected, heap) := record_outcome policy (ep_instances ep) (po_heap w) (po_now w)
                              (pk_instance p) gwf in (ejected, with_heap w heap);
  env_record_passive_failure p w := with_heap w
    match po_heap w !! pk_instance p with
    | Some i => <[pk_instance p := record_passive_failure i]> (po_heap w)
    | None => po_heap w
    end;
  env_drop p w := with_heap w (drop_pick (po_heap w) p);
  env_inc_retries w := w;
  env_inc_outlier_ejection w := w |}.

#[export] Instance pool_env_laws : EnvLaws M nat Pick Pool.
Proof.
  split.
  - intros q w. cbn. unfold scripted. by destruct (po_script w) as [|[r l] rest].
  - intros ex w p w'. cbn. unfold pool_pick_excluding.
    destruct (eligibility_ctx policy (po_now w)) as [check now].
    destruct pick_dispatch as [[[[p'|] rr] rng]|] eqn:E; try done. intros [= -> _].
    apply pick_dispatch_eligible in E. unfold is_eligible in E.
    destruct (_ !! _); [|done]. apply andb_true_iff in E as [_ E].
    apply negb_true_iff, Nat.eqb_neq in E. done.
Qed.
End pool.

#[local] Existing Instance alist_headers.
#[local] Existing Instance alist_laws.

Definition demo_pool : Pool :=
  mkPool (<[0%nat := probe (inst_new (bs "10.0.0.1:80") 1 demo_health) true]>
         (<[1%nat := probe (inst_new (bs "10.0.0.2:80") 1 demo_health) true]> ∅)) 0 0 1
    [(SendOk 503 0%nat, 5); (SendOk 200 1%nat, 7)].
Definition demo_policy : OutlierPolicy := mkPolicy 0 1000 50.
Definition demo_endpoints : Endpoints := mkEndpoints [0; 1]%nat LbRoundRobin.
#[local] Instance demo_env : Env (list (bytes * bytes)) nat Pick Pool :=
  pool_env demo_endpoints demo_policy.

(** A filterless request that names [te: trailers] and a length, with a re-issued upgrade. *)
Definition demo_forward : ForwardRequest (list (bytes * bytes)) :=
  let inbound := [(bs "te", bs "trailers"); (bs "content-length", bs "7"); (bs "x-a", bs "1")] in
  mkForward (bs "GET") (HeadersDirect inbound) inbound (bs "a.example") (bs "/x") (bs "00-1")
    (Some (bs "websocket")).

Definition demo_run (body : ForwardBody) :=
  forward_with_retry (fun _ _ => true) [] Some demo_forward (bs "http") 100 (Some 1000)
    (unmetered 0) body 2 demo_pool.

Lemma forward_retry_safe_witness :
  option_map (fun r => (map (fun a => pk_instance (at_pick a)) r.2,
      match r.1.1 with FoResponse status _ p => (status, pk_instance p) | _ => (0, 0%nat) end))
    (demo_run Bodyless) = Some ([0; 1]%nat, (200, 1%nat)) /\
  exists o w' tr, demo_run Bodyless = Some (o, w', tr) /\ linked demo_forward tr.
Proof.
  split; [vm_compute; reflexivity|].
  destruct (forward_retry_safe (fun _ _ => true) [] Some demo_forward (bs "http") 100 (Some 1000)
    (unmetered 0) Bodyless 2 demo_pool) as (o & w' & tr & E & _ & _ & _ & Hl & _); [lia|lia|].
  exists o, w', tr. done.
Defined.

Lemma upstream_request_framed_witness :
  exists q, build_request (fun _ _ => true) [] Some demo_forward (bs "https") (bs "10.0.0.1:80")
      (BodyFull (bs "hello")) (Replayable (bs "hello")) = Some q /\
    hm_get_all (uq_headers q) CONTENT_LENGTH = [bs "5"] /\
    hm_get_all (uq_headers q) (bs "x-a") = [bs "1"].
Proof.
  assert (Hname : forall s n, Some s = Some n -> eq_ignore_ascii_case s n = true).
  { intros s n [= ->]. by apply bytes_eqb_eq. }
  eexists. split; [reflexivity|].
  edestruct (upstream_request_framed (M := list (bytes * bytes)) (fun _ _ => true) [] Some
    demo_forward (bs "https") (bs "10.0.0.1:80") (Replayable (bs "hello")))
    as (_ & _ & (_ & Hlen) & _ & _ & _ & _ & _ & Hother); [done|exact Hname|reflexivity|].
  split; [exact Hlen|]. rewrite Hother; [vm_compute; reflexivity|].
  rewrite !not_elem_of_cons. split_and!; vm_compute; congruence || set_solver.
Defined.
