(* ===== verification/Pool.v ===== *)
(** * The instance pool (host/src/pool.rs)

    The circuit breaker, the trusted pool's critical sections, and the lifecycle of a hook
    call.  Concurrent calls are threads of a step relation whose steps are the sections run
    under the pool's lock; building an instance, running the guest and dropping an instance
    happen outside it and can fail or panic.  An instance is the number it was built with;
    times are in one unit. *)

From S2P Require Import Prelude Bytes Chain HostApi.

(** ** The circuit breaker *)

Record TrapBreaker := mkTrapBreaker {
  tb_consecutive_traps : Z;
  tb_cooldown_until : option Z;
  tb_threshold : Z;
  tb_cooldown : Z;
}.

Definition breaker_new (threshold cooldown : Z) : TrapBreaker := mkTrapBreaker 0 None threshold cooldown.

Definition record_trap (now : Z) (b : TrapBreaker) : TrapBreaker :=
  let traps := saturating_add32 (tb_consecutive_traps b) 1 in
  mkTrapBreaker traps
    (if tb_threshold b <=? traps then Some (now + tb_cooldown b) else tb_cooldown_until b)
    (tb_threshold b) (tb_cooldown b).

Definition breaker_clear (b : TrapBreaker) : TrapBreaker :=
  mkTrapBreaker 0 None (tb_threshold b) (tb_cooldown b).

Definition breaker_is_open (now : Z) (b : TrapBreaker) : bool :=
  match tb_cooldown_until b with Some t => now <? t | None => false end.

Definition TRAP_BREAKER_THRESHOLD : Z := 3.
Definition TRAP_COOLDOWN_MS : Z := 500.

(** ** The pool's interior *)

Record PooledInstance := mkPooled { pi_instance : nat; pi_served : Z }.

(** The head of [pl_idle] is the end of the vector. *)
Record PoolInner := mkInner {
  pl_idle : list PooledInstance;
  pl_live : Z;
  pl_breaker : TrapBreaker;
}.

Record TrustedPool := mkTrusted {
  tp_cap : Z;
  tp_checkout_timeout : Z;
  tp_max_requests_per_instance : Z;
}.

Definition pool_new (first : nat) : PoolInner :=
  mkInner [mkPooled first 0] 1 (breaker_new TRAP_BREAKER_THRESHOLD TRAP_COOLDOWN_MS).

Inductive CheckoutStep := CsUse (p : PooledInstance) | CsBuild | CsUnavailable | CsWait.

(** One turn of the checkout loop under the lock, up to the wait. *)
Definition checkout_locked (cfg : TrustedPool) (now : Z) (g : PoolInner) : CheckoutStep * PoolInner :=
  match pl_idle g with
  | p :: idle => (CsUse p, mkInner idle (pl_live g) (pl_breaker g))
  | [] =>
    if breaker_is_open now (pl_breaker g) then (CsUnavailable, g)
    else if pl_live g <? tp_cap cfg then (CsBuild, mkInner [] (pl_live g + 1) (pl_breaker g))
    else (CsWait, g)
  end.

Inductive IdleMiss := PoolExhausted | PoolFilling | BreakerOpen.

Definition checkout_idle (cfg : TrustedPool) (now : Z) (g : PoolInner)
    : (PooledInstance + IdleMiss) * PoolInner :=
  if breaker_is_open now (pl_breaker g) then (inr BreakerOpen, g)
  else
    match pl_idle g with
    | p :: idle => (inl p, mkInner idle (pl_live g) (pl_breaker g))
    | [] => (inr (if tp_cap cfg <=? pl_live g then PoolExhausted else PoolFilling), g)
    end.

(** [LiveSlotGuard]'s drop. *)
Definition release_slot (g : PoolInner) : PoolInner :=
  mkInner (pl_idle g) (saturating_sub (pl_live g) 1) (pl_breaker g).

Definition pool_record_trap (now : Z) (g : PoolInner) : PoolInner :=
  mkInner (pl_idle g) (pl_live g) (record_trap now (pl_breaker g)).

Definition recycles (cfg : TrustedPool) (p : PooledInstance) : bool :=
  tp_max_requests_per_instance cfg <=? saturating_add64 (pi_served p) 1.

(** The locked sections after a call that returned: back to [idle], or the slot of a recycled
    instance. *)
Definition return_idle (p : PooledInstance) (g : PoolInner) : PoolInner :=
  mkInner (mkPooled (pi_instance p) (saturating_add64 (pi_served p) 1) :: pl_idle g) (pl_live g)
    (breaker_clear (pl_breaker g)).
Definition finish_recycled (g : PoolInner) : PoolInner :=
  mkInner (pl_idle g) (saturating_sub (pl_live g) 1) (breaker_clear (pl_breaker g)).
Definition finish_trapped (now : Z) (g : PoolInner) : PoolInner :=
  mkInner (pl_idle g) (saturating_sub (pl_live g) 1) (record_trap now (pl_breaker g)).

(** ** Concurrent calls *)

Inductive CallResult := CrServed | CrFailed (e : RunError) | CrPanicked | CrMissed (m : IdleMiss).

(** Where one call is.  [PhRecycled] and [PhTrapped] have dropped their instance and still
    count in [live]; [PhUnwinding] has released its slot and still holds the instance. *)
Inductive Phase :=
| PhNone
| PhCheckout (deadline : Z)
| PhWaiting (deadline : Z)
| PhBuilding
| PhBuildFailed
| PhHolding (p : PooledInstance)
| PhRecycled
| PhTrapped (e : RunError)
| PhUnwinding (p : PooledInstance)
| PhDone (r : CallResult).

Record PoolState := mkPoolState {
  ps_inner : PoolInner;
  ps_threads : list Phase;
  ps_now : Z;
  ps_next : nat;
  ps_discarded : gset nat;
}.

Definition pool_init (threads : nat) (now : Z) : PoolState :=
  mkPoolState (pool_new 0) (replicate threads PhNone) now 1 ∅.

Definition take_step (s : PoolState) (t : nat) (g : PoolInner) (ph : Phase) : PoolState :=
  mkPoolState g (<[t := ph]> (ps_threads s)) (ps_now s) (ps_next s) (ps_discarded s).
Definition discard (id : nat) (s : PoolState) : PoolState :=
  mkPoolState (ps_inner s) (ps_threads s) (ps_now s) (ps_next s) ({[id]} ∪ ps_discarded s).

Inductive pool_step (cfg : TrustedPool) (s : PoolState) : PoolState -> Prop :=
| StepTick now : ps_now s <= now ->
    pool_step cfg s (mkPoolState (ps_inner s) (ps_threads s) now (ps_next s) (ps_discarded s))
| StepBegin t : ps_threads s !! t = Some PhNone ->
    pool_step cfg s (take_step s t (ps_inner s) (PhCheckout (ps_now s + tp_checkout_timeout cfg)))
| StepLocked t d step g : ps_threads s !! t = Some (PhCheckout d) ->
    checkout_locked cfg (ps_now s) (ps_inner s) = (step, g) ->
    pool_step cfg s (take_step s t g
      match step with
      | CsUse p => PhHolding p
      | CsBuild => PhBuilding
      | CsUnavailable => PhDone (CrFailed Unavailable)
      | CsWait => PhWaiting d
      end)
| StepWake t d : ps_threads s !! t = Some (PhWaiting d) ->
    pool_step cfg s (take_step s t (ps_inner s) (PhCheckout d))
| StepTimedOut t d : ps_threads s !! t = Some (PhWaiting d) -> d <= ps_now s ->
    pool_step cfg s (take_step s t (ps_inner s) (PhDone (CrFailed Unavailable)))
| StepBuilt t : ps_threads s !! t = Some PhBuilding ->
    pool_step cfg s (mkPoolState (ps_inner s)
      (<[t := PhHolding (mkPooled (ps_next s) 0)]> (ps_threads s)) (ps_now s) (S (ps_next s))
      (ps_discarded s))
| StepBuildError t : ps_threads s !! t = Some PhBuilding ->
    pool_step cfg s (take_step s t (pool_record_trap (ps_now s) (ps_inner s)) PhBuildFailed)
| StepBuildRollback t : ps_threads s !! t = Some PhBuildFailed ->
    pool_step cfg s (take_step s t (release_slot (ps_inner s)) (PhDone (CrFailed Instantiate)))
| StepBuildPanic t : ps_threads s !! t = Some PhBuilding ->
    pool_step cfg s (take_step s t (release_slot (ps_inner s)) (PhDone CrPanicked))
| StepReturned t p : ps_threads s !! t = Some (PhHolding p) -> recycles cfg p = false ->
    pool_step cfg s (take_step s t (return_idle p (ps_inner s)) (PhDone CrServed))
| StepRecycleDrop t p : ps_threads s !! t = Some (PhHolding p) -> recycles cfg p = true ->
    pool_step cfg s (discard (pi_instance p) (take_step s t (ps_inner s) PhRecycled))
| StepRecycled t : ps_threads s !! t = Some PhRecycled ->
    pool_step cfg s (take_step s t (finish_recycled (ps_inner s)) (PhDone CrServed))
| StepTrapDrop t p e : ps_threads s !! t = Some (PhHolding p) ->
    pool_step cfg s (discard (pi_instance p) (take_step s t (ps_inner s) (PhTrapped e)))
| StepTrapped t e : ps_threads s !! t = Some (PhTrapped e) ->
    pool_step cfg s (take_step s t (finish_trapped (ps_now s) (ps_inner s)) (PhDone (CrFailed e)))
| StepCallPanic t p : ps_threads s !! t = Some (PhHolding p) ->
    pool_step cfg s (take_step s t (release_slot (ps_inner s)) (PhUnwinding p))
| StepUnwound t p : ps_threads s !! t = Some (PhUnwinding p) ->
    pool_step cfg s (discard (pi_instance p) (take_step s t (ps_inner s) (PhDone CrPanicked)))
| StepTryIdle t r g : ps_threads s !! t = Some PhNone ->
    checkout_idle cfg (ps_now s) (ps_inner s) = (r, g) ->
    pool_step cfg s (take_step s t g
      match r with inl p => PhHolding p | inr m => PhDone (CrMissed m) end)
| StepNext t r : ps_threads s !! t = Some (PhDone r) ->
    pool_step cfg s (take_step s t (ps_inner s) PhNone).

(** ** The untrusted lifecycle *)

(** The runtime on a world [W] with instances [I]: whether instantiation and the guest call
    succeed, and the logs an instance yields when it is about to be discarded. *)
Class FilterRuntime (I W : Type) := {
  rt_instantiate_initialized : W -> option I * W;
  rt_set_request_deadline : I -> I;
  rt_take_logs_final : I -> list LogLine;
}.

Section fresh.
Context {I W T : Type} `{FilterRuntime I W}.

(** [opened] and [recorded] are the clock when the breaker is consulted and updated. *)
Definition run_fresh (opened recorded : Z) (call : I -> W -> (T + RunError) * I * W)
    (b : TrapBreaker) (w : W) : (T * list LogLine + RunError * list LogLine) * TrapBreaker * W :=
  if breaker_is_open opened b then (inr (Unavailable, []), b, w)
  else
    match rt_instantiate_initialized w with
    | (None, w) => (inr (Instantiate, []), record_trap recorded b, w)
    | (Some inst, w) =>
      let inst := rt_set_request_deadline inst in
      match call inst w with
      | (inl value, inst, w) => (inl (value, rt_take_logs_final inst), breaker_clear b, w)
      | (inr e, inst, w) => (inr (e, rt_take_logs_final inst), record_trap recorded b, w)
      end
    end.
End fresh.

(** ** The breaker's history *)

(** What happened to a breaker: a trap at a time, or a success that cleared it. *)
Inductive BreakerEvent := EvTrap (at_ : Z) | EvClear.

Definition breaker_event (b : TrapBreaker) (e : BreakerEvent) : TrapBreaker :=
  match e with EvTrap now => record_trap now b | EvClear => breaker_clear b end.
Definition breaker_run (b : TrapBreaker) (h : list BreakerEvent) : TrapBreaker :=
  fold_left breaker_event h b.

(** The traps since the last success, the latest first. *)
Fixpoint trap_streak (h : list BreakerEvent) : list Z :=
  match h with
  | EvTrap t :: h => t :: trap_streak h
  | _ => []
  end.
Definition recent_traps (h : list BreakerEvent) : list Z := trap_streak (rev h).

Lemma breaker_run_spec threshold cooldown h :
  1 <= threshold < u32_max ->
  breaker_run (breaker_new threshold cooldown) h =
    mkTrapBreaker (Z.min (Z.of_nat (length (recent_traps h))) u32_max)
      (match recent_traps h with
       | t :: _ => if threshold <=? Z.of_nat (length (recent_traps h)) then Some (t + cooldown) else None
       | [] => None
       end) threshold cooldown.
Proof.
  intros Ht. unfold recent_traps.
  induction h as [|e h IH] using rev_ind; [done|].
  unfold breaker_run. rewrite fold_left_app. fold (breaker_run (breaker_new threshold cooldown) h).
  rewrite IH, rev_app_distr. cbn [fold_left breaker_event rev app]. destruct e as [now|]; [|done].
  cbn [trap_streak length breaker_event]. unfold record_trap, saturating_add32. cbn [tb_consecutive_traps tb_threshold
    tb_cooldown tb_cooldown_until].
  set (n := length (trap_streak (rev h))).
  replace (Z.min (Z.min (Z.of_nat n) u32_max + 1) u32_max) with (Z.min (Z.of_nat (S n)) u32_max) by lia.
  f_equal. rewrite Nat2Z.inj_succ. unfold n.
  destruct (Z.leb_spec threshold (Z.min (Z.succ (Z.of_nat (length (trap_streak (rev h))))) u32_max)) as [Hle|Hgt],
    (Z.leb_spec threshold (Z.succ (Z.of_nat (length (trap_streak (rev h)))))) as [Hle'|Hgt'];
    try lia; try done.
  destruct (trap_streak (rev h)) as [|t l]; [done|]. cbn [length] in *.
  destruct (Z.leb_spec threshold (Z.of_nat (S (length l)))); [lia|done].
Qed.

(** ** The pool's invariant *)

(** Slots of [live] a thread accounts for, and the instance it holds. *)
Definition slots (ph : Phase) : Z :=
  match ph with
  | PhBuilding | PhBuildFailed | PhHolding _ | PhRecycled | PhTrapped _ => 1
  | _ => 0
  end.
Definition held (ph : Phase) : list nat :=
  match ph with PhHolding p | PhUnwinding p => [pi_instance p] | _ => [] end.
Definition unwinding (ph : Phase) : Z := match ph with PhUnwinding _ => 1 | _ => 0 end.

Definition idle_ids (g : PoolInner) : list nat := map pi_instance (pl_idle g).
(** The instances that exist. *)
Definition physical (s : PoolState) : list nat :=
  idle_ids (ps_inner s) ++ concat (map held (ps_threads s)).

Definition served_ok (cfg : TrustedPool) (p : PooledInstance) : Prop :=
  pi_served p = 0 \/ pi_served p < tp_max_requests_per_instance cfg.

Record pool_ok (cfg : TrustedPool) (s : PoolState) : Prop := {
  ok_live : pl_live (ps_inner s) =
    Z.of_nat (length (pl_idle (ps_inner s))) + sumZ (map slots (ps_threads s));
  ok_cap : pl_live (ps_inner s) <= tp_cap cfg;
  ok_unique : NoDup (physical s);
  ok_fresh : Forall (fun i => (i < ps_next s)%nat /\ i ∉ ps_discarded s) (physical s);
  ok_discarded : forall i, i ∈ ps_discarded s -> (i < ps_next s)%nat;
  ok_served : Forall (served_ok cfg) (pl_idle (ps_inner s));
}.

Lemma map_lookup_Some {A B} (f : A -> B) (l : list A) t x : l !! t = Some x -> map f l !! t = Some (f x).
Proof. intros Ht. pose proof (list_lookup_fmap f l t) as E. by rewrite Ht in E. Qed.

Lemma map_insert {A B} (f : A -> B) (l : list A) t x : map f (<[t := x]> l) = <[t := f x]> (map f l).
Proof. exact (list_fmap_insert f l t x). Qed.

Lemma concat_map_insert {A B} (f : A -> list B) (l : list A) t x :
  l !! t = Some x -> exists rest, concat (map f l) ≡ₚ f x ++ rest /\
    forall y, concat (map f (<[t := y]> l)) ≡ₚ f y ++ rest.
Proof.
  revert t. induction l as [|z l IH]; intros [|t] Ht; simplify_eq/=.
  - exists (concat (map f l)). done.
  - destruct (IH _ Ht) as (rest & H1 & H2). exists (f z ++ rest). split.
    + rewrite H1. rewrite !app_assoc. by rewrite (Permutation_app_comm (f z)).
    + intros y. rewrite H2, !app_assoc. by rewrite (Permutation_app_comm (f z)).
Qed.

(** The ways a step changes the set of instances. *)
Definition instances_moved (before after : list nat) (next next' : nat) (disc disc' : gset nat)
    : Prop :=
  (after ≡ₚ before /\ next' = next /\ disc' = disc) \/
  (after ≡ₚ next :: before /\ next' = S next /\ disc' = disc) \/
  (exists id, id :: after ≡ₚ before /\ next' = next /\ disc' = {[id]} ∪ disc).

Lemma pool_ok_update cfg s t ph ph' g now' next' disc' :
  pool_ok cfg s -> ps_threads s !! t = Some ph ->
  pl_live g - Z.of_nat (length (pl_idle g)) - slots ph' =
    pl_live (ps_inner s) - Z.of_nat (length (pl_idle (ps_inner s))) - slots ph ->
  pl_live g <= tp_cap cfg -> Forall (served_ok cfg) (pl_idle g) ->
  instances_moved (idle_ids (ps_inner s) ++ held ph) (idle_ids g ++ held ph')
    (ps_next s) next' (ps_discarded s) disc' ->
  pool_ok cfg (mkPoolState g (<[t := ph']> (ps_threads s)) now' next' disc').
Proof.
  intros [Hl Hc Hu Hf Hd Hs] Ht Hlive Hcap Hserved Hmove.
  destruct (concat_map_insert held _ _ _ Ht) as (rest & H1 & H2).
  assert (Hbefore : physical s ≡ₚ (idle_ids (ps_inner s) ++ held ph) ++ rest).
  { unfold physical. by rewrite H1, app_assoc. }
  assert (Hafter : physical (mkPoolState g (<[t := ph']> (ps_threads s)) now' next' disc')
    ≡ₚ (idle_ids g ++ held ph') ++ rest).
  { unfold physical. cbn [ps_inner ps_threads]. by rewrite H2, app_assoc. }
  rewrite Hbefore in Hu, Hf.
  assert (Hlive' : pl_live g = Z.of_nat (length (pl_idle g)) + sumZ (map slots (<[t := ph']> (ps_threads s)))).
  { rewrite map_insert, (sumZ_insert _ _ (slots ph)); [lia|]. exact (map_lookup_Some slots _ _ _ Ht). }
  destruct Hmove as [(Hp & -> & ->)|[(Hp & -> & ->)|(id & Hp & -> & ->)]].
  - split; cbn [ps_inner ps_threads ps_next ps_discarded]; try done; by rewrite Hafter, Hp.
  - split; cbn [ps_inner ps_threads ps_next ps_discarded]; try done.
    + rewrite Hafter, Hp. cbn [app]. constructor; [|done]. intros Hin. rewrite Forall_forall in Hf.
      destruct (Hf _ Hin). lia.
    + rewrite Hafter, Hp. cbn [app]. constructor; [|eapply Forall_impl; [done|]; intros i [? ?]; split; [lia|done]].
      split; [lia|]. intros Hin. apply Hd in Hin. lia.
    + intros i Hi. apply Hd in Hi. lia.
  - rewrite <- Hp in Hu, Hf. cbn [app] in Hu, Hf. apply NoDup_cons in Hu as [Hn Hu].
    apply Forall_cons in Hf as [[Hlt _] Hf].
    split; cbn [ps_inner ps_threads ps_next ps_discarded]; try done.
    + by rewrite Hafter.
    + rewrite Hafter. rewrite Forall_forall in Hf |- *. intros i Hi. destruct (Hf i Hi).
      split; [done|]. rewrite elem_of_union, elem_of_singleton. intros [->|?]; done.
    + intros i. rewrite elem_of_union, elem_of_singleton. intros [->|?]; [done|auto].
Qed.

(** A slot a thread counts for is at least one. *)
Lemma slots_nonneg ph : 0 <= slots ph.
Proof. destruct ph; cbn; lia. Qed.

Lemma live_positive cfg s t ph : pool_ok cfg s -> ps_threads s !! t = Some ph -> slots ph = 1 ->
  Z.of_nat (length (pl_idle (ps_inner s))) + 1 <= pl_live (ps_inner s).
Proof.
  intros Hok Ht Hs. rewrite (ok_live _ _ Hok).
  assert (Hp : Forall (fun x => 0 <= x) (map slots (ps_threads s))).
  { apply Forall_map, Forall_forall. intros x _. apply slots_nonneg. }
  pose proof (sumZ_insert (map slots (ps_threads s)) t 1 0) as Hi.
  rewrite <- Hs in Hi at 1. specialize (Hi (map_lookup_Some slots _ _ _ Ht)).
  enough (0 <= sumZ (<[t := 0]> (map slots (ps_threads s)))) by lia.
  apply sumZ_nonneg. by apply Forall_insert.
Qed.

Lemma same_instances l n d : instances_moved l l n n d d.
Proof. by left. Qed.

(** A section that leaves the idle list alone, or takes its head, or returns an instance. *)
Ltac pool_sections :=
  unfold discard, take_step, release_slot, pool_record_trap, finish_recycled, finish_trapped,
    return_idle, saturating_sub in *;
  cbn [ps_inner ps_threads ps_now ps_next ps_discarded pl_idle pl_live] in *;
  eapply pool_ok_update; [eassumption|eassumption|cbn [slots pl_idle pl_live length]..|];
  [try lia|cbn [pl_live]; try lia|cbn [pl_idle]; try assumption|].

Lemma checkout_locked_ok cfg s t d step g : pool_ok cfg s ->
  ps_threads s !! t = Some (PhCheckout d) ->
  checkout_locked cfg (ps_now s) (ps_inner s) = (step, g) ->
  pool_ok cfg (take_step s t g
    match step with
    | CsUse p => PhHolding p | CsBuild => PhBuilding
    | CsUnavailable => PhDone (CrFailed Unavailable) | CsWait => PhWaiting d
    end).
Proof.
  intros Hok Ht. pose proof (ok_cap _ _ Hok) as Hcap. pose proof (ok_served _ _ Hok) as Hserved.
  unfold checkout_locked. destruct (pl_idle (ps_inner s)) as [|p idle] eqn:Ei.
  - destruct (breaker_is_open _ _); [|destruct (Z.ltb_spec (pl_live (ps_inner s)) (tp_cap cfg))];
      intros [= <- <-]; pool_sections; rewrite ?Ei; cbn [length]; try lia; try done;
      unfold idle_ids; rewrite ?Ei; apply same_instances.
  - intros [= <- <-]. apply Forall_cons in Hserved as [_ Hserved].
    pool_sections; rewrite ?Ei; cbn [length]; [lia|]. left. unfold idle_ids. rewrite Ei.
    cbn [map held pl_idle]. split; [|done]. rewrite app_nil_r. symmetry.
    apply Permutation_cons_append.
Qed.

Lemma checkout_idle_ok cfg s t r g : pool_ok cfg s ->
  ps_threads s !! t = Some PhNone ->
  checkout_idle cfg (ps_now s) (ps_inner s) = (r, g) ->
  pool_ok cfg (take_step s t g
    match r with inl p => PhHolding p | inr m => PhDone (CrMissed m) end).
Proof.
  intros Hok Ht. pose proof (ok_cap _ _ Hok) as Hcap. pose proof (ok_served _ _ Hok) as Hserved.
  unfold checkout_idle. destruct (breaker_is_open _ _).
  { intros [= <- <-]. pool_sections. apply same_instances. }
  destruct (pl_idle (ps_inner s)) as [|p idle] eqn:Ei; intros [= <- <-].
  - pool_sections; rewrite ?Ei; try done. apply same_instances.
  - apply Forall_cons in Hserved as [_ Hserved].
    pool_sections; rewrite ?Ei; cbn [length]; [lia|]. left. unfold idle_ids. rewrite Ei.
    cbn [map held pl_idle]. split; [|done]. rewrite app_nil_r. symmetry.
    apply Permutation_cons_append.
Qed.

Lemma pool_step_ok cfg s s' : pool_ok cfg s -> pool_step cfg s s' -> pool_ok cfg s'.
Proof.
  intros Hok Hstep. pose proof (ok_cap _ _ Hok) as Hcap. pose proof (ok_served _ _ Hok) as Hserved.
  destruct Hstep as [now Hnow|t Ht|t d step g Ht E|t d Ht|t d Ht Hd|t Ht|t Ht|t Ht|t Ht|t p Ht Hr
    |t p Ht Hr|t Ht|t p e Ht|t e Ht|t p Ht|t p Ht|t r g Ht E|t r Ht];
    try (pose proof (live_positive _ _ _ _ Hok Ht eq_refl) as Hpos).
  - by destruct Hok.
  - pool_sections. apply same_instances.
  - by apply checkout_locked_ok.
  - pool_sections. apply same_instances.
  - pool_sections. apply same_instances.
  - pool_sections. right. left. split; [|done]. cbn [held pi_instance]. rewrite app_nil_r.
    symmetry. apply Permutation_cons_append.
  - pool_sections. apply same_instances.
  - pool_sections. apply same_instances.
  - pool_sections. apply same_instances.
  - pool_sections.
    + constructor; [|done]. unfold recycles in Hr. bools. right. cbn [pi_served]. lia.
    + left. unfold idle_ids. cbn [pl_idle map pi_instance held]. split; [|done].
      rewrite app_nil_r. apply Permutation_cons_append.
  - pool_sections. right. right. exists (pi_instance p). split; [|done]. cbn [held].
    rewrite app_nil_r. apply Permutation_cons_append.
  - pool_sections. apply same_instances.
  - pool_sections. right. right. exists (pi_instance p). split; [|done]. cbn [held].
    rewrite app_nil_r. apply Permutation_cons_append.
  - pool_sections. apply same_instances.
  - pool_sections. apply same_instances.
  - pool_sections. right. right. exists (pi_instance p). split; [|done]. cbn [held].
    rewrite app_nil_r. apply Permutation_cons_append.
  - by apply checkout_idle_ok.
  - pool_sections. apply same_instances.
Qed.

Lemma concat_replicate {A} n : concat (replicate n (@nil A)) = [].
Proof. by induction n. Qed.

Lemma pool_init_ok cfg threads now : 1 <= tp_cap cfg -> pool_ok cfg (pool_init threads now).
Proof.
  intros Hc. unfold pool_init. assert (Hp : physical (pool_init threads now) = [0%nat]).
  { unfold physical, pool_init. cbn [ps_inner ps_threads]. rewrite <- (app_nil_r [0%nat]).
    unfold idle_ids. cbn [pool_new pl_idle map]. f_equal. pose proof (fmap_replicate held threads PhNone) as E.
    etransitivity; [|apply (concat_replicate (A := nat) threads)]. f_equal. exact E. }
  fold (pool_init threads now).
  split; rewrite ?Hp; cbn [pool_init ps_inner ps_threads ps_next ps_discarded pool_new pl_live pl_idle length].
  - assert (E : map slots (replicate threads PhNone) = replicate threads 0)
      by exact (fmap_replicate slots threads PhNone).
    rewrite E. clear. induction threads as [|n IH]; [done|]. cbn [replicate sumZ]. lia.
  - done.
  - apply NoDup_singleton.
  - apply Forall_singleton. split; [lia|set_solver].
  - set_solver.
  - apply Forall_singleton. by left.
Qed.

Lemma pool_reach_ok cfg threads now s : 1 <= tp_cap cfg ->
  rtc (pool_step cfg) (pool_init threads now) s -> pool_ok cfg s.
Proof.
  intros Hc Hr. pose proof (pool_init_ok cfg threads now Hc) as Hi.
  induction Hr as [|s1 s2 s3 Hs _ IH]; [done|]. apply IH. by eapply pool_step_ok.
Qed.

Lemma held_slots l :
  Z.of_nat (length (concat (map held l))) <= sumZ (map slots l) + sumZ (map unwinding l).
Proof.
  induction l as [|ph l IH]; [done|]. cbn [map concat sumZ]. rewrite length_app.
  destruct ph; cbn [held slots unwinding length]; lia.
Qed.

(** ** Properties *)

(** C39: however the calls interleave, fail, trap or panic, the trusted pool stays inside its
    capacity and never shares or resurrects an instance: no instance is held twice or both
    held and idle; a discarded one is never held or idle again; the instances in existence are
    within the capacity but for those a panic is unwinding over; a slot is counted for exactly
    the instances and builds outstanding, so none is ever lost; and an idle instance has
    requests left before its recycling. *)
Theorem pool_exclusive_within_cap (cfg : TrustedPool) (threads : nat) (now : Z) (s : PoolState) :
  1 <= tp_cap cfg -> rtc (pool_step cfg) (pool_init threads now) s ->
  NoDup (physical s) /\
  (forall i, i ∈ physical s -> i ∉ ps_discarded s) /\
  Z.of_nat (length (physical s)) <= tp_cap cfg + sumZ (map unwinding (ps_threads s)) /\
  pl_live (ps_inner s) =
    Z.of_nat (length (pl_idle (ps_inner s))) + sumZ (map slots (ps_threads s)) /\
  pl_live (ps_inner s) <= tp_cap cfg /\
  Forall (served_ok cfg) (pl_idle (ps_inner s)).
Proof.
  intros Hc Hr. destruct (pool_reach_ok _ _ _ _ Hc Hr) as [Hl Hcap Hu Hf Hd Hs].
  split; [done|]. split; [|split; [|done]].
  - intros i Hi. rewrite Forall_forall in Hf. by destruct (Hf i Hi).
  - unfold physical, idle_ids. rewrite length_app, length_map.
    pose proof (held_slots (ps_threads s)). lia.
Qed.

(** Two calls on a pool of one: the first traps while the second waits, then builds. *)
Lemma pool_exclusive_within_cap_witness :
  exists s, rtc (pool_step (mkTrusted 1 100 2)) (pool_init 2 0) s /\
    ps_threads s !! 1%nat = Some (PhHolding (mkPooled 1 0)) /\ NoDup (physical s).
Proof.
  assert (Hr : exists s, rtc (pool_step (mkTrusted 1 100 2)) (pool_init 2 0) s /\
    ps_threads s !! 1%nat = Some (PhHolding (mkPooled 1 0))).
  { eexists. split; [|shelve].
    eapply rtc_l; [apply (StepBegin _ _ 0); reflexivity|].
    eapply rtc_l; [apply (StepBegin _ _ 1); reflexivity|].
    eapply rtc_l; [eapply (StepLocked _ _ 0); reflexivity|].
    eapply rtc_l; [eapply (StepLocked _ _ 1); reflexivity|].
    eapply rtc_l; [eapply (StepTrapDrop _ _ 0 _ Trap); reflexivity|].
    eapply rtc_l; [eapply (StepTrapped _ _ 0); reflexivity|].
    eapply rtc_l; [eapply (StepWake _ _ 1); reflexivity|].
    eapply rtc_l; [eapply (StepLocked _ _ 1); reflexivity|].
    eapply rtc_l; [eapply (StepBuilt _ _ 1); reflexivity|].
    apply rtc_refl. Unshelve. reflexivity. }
  destruct Hr as (s & Hr & Hs). exists s. split; [done|]. split; [done|].
  by destruct (pool_exclusive_within_cap (mkTrusted 1 100 2) 2 0 s ltac:(cbn; lia) Hr).
Defined.

(** The circuit breaker opens exactly when the last [threshold] outcomes or more were
    traps, until the cooldown after the latest of them, and while it is open nothing is
    instantiated: an untrusted call fails closed without touching the runtime, a trusted
    checkout serves an idle instance or fails closed, and an inline one runs nothing. *)
Theorem trap_breaker_exact {I W T : Type} `{FilterRuntime I W} (threshold cooldown : Z)
    (h : list BreakerEvent) (now : Z) (b : TrapBreaker) :
  1 <= threshold < u32_max -> b = breaker_run (breaker_new threshold cooldown) h ->
  (breaker_is_open now b = true <->
     exists last rest, recent_traps h = last :: rest /\
       threshold <= Z.of_nat (length (recent_traps h)) /\ now < last + cooldown) /\
  (breaker_is_open now b = true ->
     (forall recorded (call : I -> W -> (T + RunError) * I * W) w,
        run_fresh now recorded call b w = (inr (Unavailable, []), b, w)) /\
     (forall cfg idle live, exists idle',
        checkout_locked cfg now (mkInner idle live b)
        = (match idle with p :: _ => CsUse p | [] => CsUnavailable end, mkInner idle' live b)) /\
     (forall cfg idle live,
        checkout_idle cfg now (mkInner idle live b) = (inr BreakerOpen, mkInner idle live b))).
Proof.
  intros Ht ->. split.
  - rewrite breaker_run_spec by done. unfold breaker_is_open. cbn [tb_cooldown_until].
    destruct (recent_traps h) as [|t l]; [split; [done|naive_solver]|].
    destruct (Z.leb_spec threshold (Z.of_nat (length (t :: l)))) as [Hle|Hgt].
    + rewrite Z.ltb_lt. split; [intros; by exists t, l|]. by intros (last & rest & [= <- <-] & _ & ?).
    + split; [done|]. intros (last & rest & _ & ? & _). lia.
  - intros Hopen. split_and!.
    + intros recorded call w. unfold run_fresh. by rewrite Hopen.
    + intros cfg [|p idle] live; unfold checkout_locked; cbn [pl_idle pl_breaker pl_live].
      * rewrite Hopen. by exists [].
      * by exists idle.
    + intros cfg idle live. unfold checkout_idle. cbn [pl_breaker]. by rewrite Hopen.
Qed.

#[local] Instance demo_runtime : FilterRuntime unit nat := {|
  rt_instantiate_initialized w := (None, S w);
  rt_set_request_deadline i := i;
  rt_take_logs_final _ := [] |}.

Lemma trap_breaker_exact_witness :
  let b := breaker_run (breaker_new TRAP_BREAKER_THRESHOLD TRAP_COOLDOWN_MS)
             [EvTrap 1; EvClear; EvTrap 10; EvTrap 20; EvTrap 30] in
  breaker_is_open 529 b = true /\ breaker_is_open 530 b = false /\
  run_fresh (T := unit) 529 529 (fun i w => (inl tt, i, w)) b 0%nat = (inr (Unavailable, []), b, 0%nat).
Proof.
  cbv zeta. split; [reflexivity|]. split; [reflexivity|].
  edestruct (trap_breaker_exact (I := unit) (W := nat) (T := unit) TRAP_BREAKER_THRESHOLD
    TRAP_COOLDOWN_MS [EvTrap 1; EvClear; EvTrap 10; EvTrap 20; EvTrap 30] 529) as [_ Hc];
    [vm_compute; split; congruence|reflexivity|].
  destruct (Hc eq_refl) as [Hf _]. apply Hf.
Defined.
