(* ===== verification/ProxyProtocol.v ===== *)
(** * PROXY protocol v2 (server/src/proxy_protocol.rs)

    The parser of the binary header, and what the listener does with it: a trusted peer must
    open with a header, which is read exactly; an untrusted one must not, and is only peeked.
    A connection is the bytes the peer sends before the deadline, and whether it then closes. *)

From S2P Require Import Prelude Bytes Ssrf Headers.

Definition SIGNATURE : bytes := map byte_of [13; 10; 13; 10; 0; 13; 10; 81; 85; 73; 84; 10]%nat.
Definition PREFIX_LEN : nat := 16.
Definition MAX_DECLARED_LEN : nat := 2048.

Record SocketAddr := mkSocket { sa_ip : IpAddr; sa_port : Z }.

Inductive ProxyV2 := Local | Proxied (src : SocketAddr).
Inductive Parsed := Complete (decision : ProxyV2) (consumed : nat) | Incomplete (needed : nat).

Inductive ProxyV2Error :=
| BadSignature
| BadVersion (byte : Z)
| BadCommand (byte : Z)
| UnsupportedFamilyProtocol (byte : Z)
| DeclaredLenTooLarge (declared : nat)
| AddressBlockTooShort (declared need : nat).

Definition from_be (hi lo : ascii) : Z := byte_val hi * 256 + byte_val lo.

(** [buf.get(from..to)]. *)
Definition slice (from to : nat) (buf : bytes) : option bytes :=
  if (to <=? length buf)%nat then Some (take (to - from) (drop from buf)) else None.

Definition ipv4_of_octets (ip : bytes) : option IpAddr :=
  match ip with
  | [a; b; c; d] => Some (V4 (byte_val a) (byte_val b) (byte_val c) (byte_val d))
  | _ => None
  end.
Fixpoint segments (ip : bytes) : list Z :=
  match ip with hi :: lo :: ip => from_be hi lo :: segments ip | _ => [] end.
Definition ipv6_of_octets (ip : bytes) : option IpAddr :=
  match segments ip with
  | [s0; s1; s2; s3; s4; s5; s6; s7] => Some (V6 s0 s1 s2 s3 s4 s5 s6 s7)
  | _ => None
  end.
Definition port_of_octets (port : bytes) : option Z :=
  match port with [hi; lo] => Some (from_be hi lo) | _ => None end.

Definition parse_src_v4 (block : bytes) : option SocketAddr :=
  match slice 0 4 block, slice 8 10 block with
  | Some ip, Some port =>
    match ipv4_of_octets ip, port_of_octets port with
    | Some ip, Some port => Some (mkSocket ip port)
    | _, _ => None
    end
  | _, _ => None
  end.

Definition parse_src_v6 (block : bytes) : option SocketAddr :=
  match slice 0 16 block, slice 32 34 block with
  | Some ip, Some port =>
    match ipv6_of_octets ip, port_of_octets port with
    | Some ip, Some port => Some (mkSocket ip port)
    | _, _ => None
    end
  | _, _ => None
  end.

(** The command's body, once the prefix is read. *)
Definition parse_command (buf : bytes) (ver_cmd fam_proto : Z) (declared : nat)
    : result Parsed ProxyV2Error :=
  let needed := (PREFIX_LEN + declared)%nat in
  if Z.land ver_cmd 15 =? 0 then
    Ok (if (length buf <? needed)%nat then Incomplete needed else Complete Local needed)
  else if Z.land ver_cmd 15 =? 1 then
    match (if fam_proto =? 17 then Some 12%nat else if fam_proto =? 33 then Some 36%nat else None) with
    | None => Err (UnsupportedFamilyProtocol fam_proto)
    | Some need =>
      if (declared <? need)%nat then Err (AddressBlockTooShort declared need)
      else if (length buf <? needed)%nat then Ok (Incomplete needed)
      else
        let block := default [] (slice PREFIX_LEN (PREFIX_LEN + need) buf) in
        match (if fam_proto =? 17 then parse_src_v4 block else parse_src_v6 block) with
        | None => Err (AddressBlockTooShort declared need)
        | Some src => Ok (Complete (Proxied src) needed)
        end
    end
  else Err (BadCommand ver_cmd).

Definition parse_proxy_v2 (buf : bytes) : result Parsed ProxyV2Error :=
  let sig_seen := Nat.min (length buf) (length SIGNATURE) in
  if negb (bytes_eqb (take sig_seen buf) (take sig_seen SIGNATURE)) then Err BadSignature
  else
    match buf !! 12%nat, buf !! 13%nat, buf !! 14%nat, buf !! 15%nat with
    | Some ver_cmd, Some fam_proto, Some len_hi, Some len_lo =>
      if negb (Z.shiftr (byte_val ver_cmd) 4 =? 2) then Err (BadVersion (byte_val ver_cmd))
      else
        let declared := Z.to_nat (from_be len_hi len_lo) in
        if (MAX_DECLARED_LEN <? declared)%nat then Err (DeclaredLenTooLarge declared)
        else parse_command buf (byte_val ver_cmd) (byte_val fam_proto) declared
    | _, _, _, _ => Ok (Incomplete PREFIX_LEN)
    end.

(** ** The listener *)

Record Stream := mkStream { st_bytes : bytes; st_closed : bool }.

Inductive ProxyFault := FaultHeader (e : ProxyV2Error) | FaultUntrusted | FaultTruncated | FaultDeadline.

(** [read_exact]: short of bytes, a closed connection fails and an open one meets the deadline. *)
Definition read_exact (n : nat) (s : Stream) : result (bytes * Stream) ProxyFault :=
  if (n <=? length (st_bytes s))%nat
  then Ok (take n (st_bytes s), mkStream (drop n (st_bytes s)) (st_closed s))
  else Err (if st_closed s then FaultTruncated else FaultDeadline).

(** [None] only when out of fuel. *)
Fixpoint read_loop (fuel : nat) (peer : SocketAddr) (buf : bytes) (s : Stream)
    : option (result (SocketAddr * Stream) ProxyFault) :=
  match fuel with
  | O => None
  | S fuel =>
    match parse_proxy_v2 buf with
    | Err e => Some (Err (FaultHeader e))
    | Ok (Complete decision _) =>
      Some (Ok (match decision with Local => peer | Proxied src => src end, s))
    | Ok (Incomplete needed) =>
      let have := length buf in
      if (needed <=? have)%nat then Some (Err FaultTruncated)
      else
        match read_exact (needed - have) s with
        | Err e => Some (Err e)
        | Ok (tail, s) => read_loop fuel peer (buf ++ tail) s
        end
    end
  end.

Definition read_trusted_header (peer : SocketAddr) (s : Stream)
    : option (result (SocketAddr * Stream) ProxyFault) :=
  match read_exact PREFIX_LEN s with
  | Err e => Some (Err e)
  | Ok (buf, s) => read_loop 2 peer buf s
  end.

(** Each peek sees what has arrived by then, up to the probe's size; none left is the deadline. *)
Fixpoint detect_untrusted_header (peer : SocketAddr) (arrived : list nat) (s : Stream)
    : result (SocketAddr * Stream) ProxyFault :=
  match arrived with
  | [] => Err FaultDeadline
  | k :: rest =>
    let probe := take (Nat.min k (length SIGNATURE)) (st_bytes s) in
    let n := length probe in
    if (n =? 0)%nat then Err FaultTruncated
    else if negb (bytes_eqb probe (take n SIGNATURE)) then Ok (peer, s)
    else if (length SIGNATURE <=? n)%nat then Err FaultUntrusted
    else detect_untrusted_header peer rest s
  end.

Section resolve.
Context {IpNet : Type} (contains : IpNet -> IpAddr -> bool).

(** [nets] is the declared trust. *)
Definition resolve_peer (nets : list IpNet) (peer : SocketAddr) (arrived : list nat) (s : Stream)
    : option (result (SocketAddr * Stream) ProxyFault) :=
  if nets_contain contains nets (sa_ip peer) then read_trusted_header peer s
  else Some (detect_untrusted_header peer arrived s).
End resolve.

(** ** The wire format *)

(** A header on the wire and what it says; addresses, ports and TLVs past the source are free. *)
Inductive wire_header : ProxyV2 -> bytes -> Prop :=
| WireLocal fam hi lo payload :
    Z.of_nat (length payload) = from_be hi lo -> (length payload <= MAX_DECLARED_LEN)%nat ->
    wire_header Local (SIGNATURE ++ [byte_of 32; fam; hi; lo] ++ payload)
| WireV4 hi lo src dst port dport tlvs ip p :
    length src = 4%nat -> length dst = 4%nat -> length port = 2%nat -> length dport = 2%nat ->
    ipv4_of_octets src = Some ip -> port_of_octets port = Some p ->
    Z.of_nat (12 + length tlvs) = from_be hi lo -> (12 + length tlvs <= MAX_DECLARED_LEN)%nat ->
    wire_header (Proxied (mkSocket ip p))
      (SIGNATURE ++ [byte_of 33; byte_of 17; hi; lo] ++ src ++ dst ++ port ++ dport ++ tlvs)
| WireV6 hi lo src dst port dport tlvs ip p :
    length src = 16%nat -> length dst = 16%nat -> length port = 2%nat -> length dport = 2%nat ->
    ipv6_of_octets src = Some ip -> port_of_octets port = Some p ->
    Z.of_nat (36 + length tlvs) = from_be hi lo -> (36 + length tlvs <= MAX_DECLARED_LEN)%nat ->
    wire_header (Proxied (mkSocket ip p))
      (SIGNATURE ++ [byte_of 33; byte_of 33; hi; lo] ++ src ++ dst ++ port ++ dport ++ tlvs).

(** ** Lemmas *)

Definition prefix (v f hi lo : ascii) (body : bytes) : bytes := SIGNATURE ++ [v; f; hi; lo] ++ body.

Lemma prefix_length v f hi lo body : length (prefix v f hi lo body) = (16 + length body)%nat.
Proof. unfold prefix. by rewrite !length_app. Qed.

Lemma byte_val_byte_of c : byte_of (Z.to_nat (byte_val c)) = c.
Proof.
  unfold byte_of, byte_val, ascii_of_nat. rewrite <- N_nat_Z, Nat2Z.id, N2Nat.id.
  apply ascii_N_embedding.
Qed.

Lemma from_be_range hi lo : 0 <= from_be hi lo < 65536.
Proof. unfold from_be. pose proof (byte_val_range hi). pose proof (byte_val_range lo). lia. Qed.

Lemma prefix_split buf v f hi lo :
  take 12 buf = SIGNATURE -> buf !! 12%nat = Some v -> buf !! 13%nat = Some f ->
  buf !! 14%nat = Some hi -> buf !! 15%nat = Some lo -> buf = prefix v f hi lo (drop 16 buf).
Proof.
  intros Hs Hv Hf Hhi Hlo. unfold prefix. rewrite <- Hs at 1. rewrite <- (take_drop 12 buf) at 1. f_equal.
  rewrite (drop_S _ _ _ Hv), (drop_S _ _ _ Hf), (drop_S _ _ _ Hhi), (drop_S _ _ _ Hlo). done.
Qed.

(** The parse of a buffer with a whole prefix, in terms of what follows it. *)
Definition parse_body (v f : Z) (declared : nat) (body : bytes) : result Parsed ProxyV2Error :=
  if negb (Z.shiftr v 4 =? 2) then Err (BadVersion v)
  else if (MAX_DECLARED_LEN <? declared)%nat then Err (DeclaredLenTooLarge declared)
  else if Z.land v 15 =? 0 then
    Ok (if (length body <? declared)%nat then Incomplete (16 + declared) else Complete Local (16 + declared))
  else if Z.land v 15 =? 1 then
    match (if f =? 17 then Some 12%nat else if f =? 33 then Some 36%nat else None) with
    | None => Err (UnsupportedFamilyProtocol f)
    | Some need =>
      if (declared <? need)%nat then Err (AddressBlockTooShort declared need)
      else if (length body <? declared)%nat then Ok (Incomplete (16 + declared))
      else
        match (if f =? 17 then parse_src_v4 (take need body) else parse_src_v6 (take need body)) with
        | None => Err (AddressBlockTooShort declared need)
        | Some src => Ok (Complete (Proxied src) (16 + declared))
        end
    end
  else Err (BadCommand v).

Lemma ltb_add_l k a b : (k + a <? k + b)%nat = (a <? b)%nat.
Proof. destruct (Nat.ltb_spec (k + a) (k + b)), (Nat.ltb_spec a b); done || lia. Qed.

Lemma parse_prefix v f hi lo body :
  parse_proxy_v2 (prefix v f hi lo body)
  = parse_body (byte_val v) (byte_val f) (Z.to_nat (from_be hi lo)) body.
Proof.
  unfold parse_proxy_v2. rewrite prefix_length.
  replace (Nat.min (16 + length body) (length SIGNATURE)) with (length SIGNATURE) by (cbn; lia).
  replace (take (length SIGNATURE) (prefix v f hi lo body)) with SIGNATURE
    by (unfold prefix; by rewrite take_app_length).
  rewrite take_ge by done. replace (bytes_eqb SIGNATURE SIGNATURE) with true by reflexivity. cbn [negb].
  change (prefix v f hi lo body !! 12%nat) with (Some v).
  change (prefix v f hi lo body !! 13%nat) with (Some f).
  change (prefix v f hi lo body !! 14%nat) with (Some hi).
  change (prefix v f hi lo body !! 15%nat) with (Some lo). cbn beta iota.
  unfold parse_body. set (n := Z.to_nat (from_be hi lo)). destruct (negb _); [done|].
  destruct (MAX_DECLARED_LEN <? n)%nat; [done|]. unfold parse_command. rewrite prefix_length.
  change PREFIX_LEN with 16%nat. rewrite ltb_add_l.
  destruct (Z.land _ 15 =? 0); [done|]. destruct (Z.land _ 15 =? 1); [|done].
  assert (Hb : forall need, (need <= n)%nat -> (n <= length body)%nat ->
    default [] (slice 16 (16 + need) (prefix v f hi lo body)) = take need body).
  { intros need H1 H2. unfold slice. rewrite prefix_length.
    destruct (Nat.leb_spec (16 + need) (16 + length body)); [|lia]. cbn [default].
    replace (16 + need - 16)%nat with need by lia. done. }
  destruct (byte_val f =? 17); [|destruct (byte_val f =? 33); [|done]].
  - destruct (Nat.ltb_spec n 12); [done|]. destruct (Nat.ltb_spec (length body) n); [done|].
    by rewrite Hb by lia.
  - destruct (Nat.ltb_spec n 36); [done|]. destruct (Nat.ltb_spec (length body) n); [done|].
    by rewrite Hb by lia.
Qed.

Lemma version_byte v k : 0 <= v -> 0 <= k < 16 ->
  (Z.shiftr v 4 =? 2) = true -> (Z.land v 15 =? k) = true -> v = 32 + k.
Proof.
  intros Hv Hk Hs Hl. bools. rewrite Z.shiftr_div_pow2 in Hs by lia.
  change 15 with (Z.ones 4) in Hl. rewrite Z.land_ones in Hl by lia.
  pose proof (Z.div_mod v (2 ^ 4)). lia.
Qed.

Lemma byte_is c n : byte_val c = n -> c = byte_of (Z.to_nat n).
Proof. intros <-. symmetry. apply byte_val_byte_of. Qed.

(** An address block cut out of the bytes after the prefix. *)
Lemma block_split (a c declared : nat) (body : bytes) :
  (2 * a + 4 <= declared)%nat -> (declared <= length body)%nat -> c = (2 * a + 4)%nat ->
  body = take a body ++ take a (drop a body) ++ take 2 (drop (2 * a) body)
    ++ take 2 (drop (2 * a + 2) body) ++ take (declared - c) (drop c body) ++ drop declared body.
Proof.
  intros Ha Hd ->.
  rewrite <- (take_drop a body) at 1. f_equal.
  rewrite <- (take_drop a (drop a body)) at 1. f_equal. rewrite drop_drop.
  replace (a + a)%nat with (2 * a)%nat by lia.
  rewrite <- (take_drop 2 (drop (2 * a) body)) at 1. f_equal. rewrite drop_drop.
  rewrite <- (take_drop 2 (drop (2 * a + 2) body)) at 1. f_equal. rewrite drop_drop.
  replace (2 * a + 2 + 2)%nat with (2 * a + 4)%nat by lia.
  rewrite <- (take_drop (declared - (2 * a + 4)) (drop (2 * a + 4) body)) at 1. f_equal.
  rewrite drop_drop. f_equal. lia.
Qed.

Lemma slice_take from to n (l : bytes) : (to <= n)%nat -> (n <= length l)%nat ->
  slice from to (take n l) = Some (take (to - from) (drop from l)).
Proof.
  intros Ht Hn. unfold slice. rewrite length_take.
  destruct (Nat.leb_spec to (Nat.min n (length l))); [|lia].
  f_equal. rewrite skipn_firstn_comm, firstn_firstn. f_equal. lia.
Qed.

Lemma parse_src_v4_take body src : (12 <= length body)%nat ->
  parse_src_v4 (take 12 body) = Some src <->
  exists ip p, ipv4_of_octets (take 4 body) = Some ip /\
    port_of_octets (take 2 (drop 8 body)) = Some p /\ src = mkSocket ip p.
Proof.
  intros Hl. unfold parse_src_v4. rewrite !slice_take by lia. cbn [Nat.sub].
  change (drop 0 body) with body.
  destruct (ipv4_of_octets _) as [ip|], (port_of_octets _) as [p|]; naive_solver.
Qed.

Lemma parse_src_v6_take body src : (36 <= length body)%nat ->
  parse_src_v6 (take 36 body) = Some src <->
  exists ip p, ipv6_of_octets (take 16 body) = Some ip /\
    port_of_octets (take 2 (drop 32 body)) = Some p /\ src = mkSocket ip p.
Proof.
  intros Hl. unfold parse_src_v6. rewrite !slice_take by lia. cbn [Nat.sub].
  change (drop 0 body) with body.
  destruct (ipv6_of_octets _) as [ip|], (port_of_octets _) as [p|]; naive_solver.
Qed.

(** What completes a parse, after the prefix. *)
Lemma parse_body_complete v f hi lo body d n :
  parse_body (byte_val v) (byte_val f) (Z.to_nat (from_be hi lo)) body = Ok (Complete d n) ->
  exists h rest, wire_header d h /\ prefix v f hi lo body = h ++ rest /\ n = length h.
Proof.
  pose proof (from_be_range hi lo) as Hr. unfold parse_body.
  set (declared := Z.to_nat (from_be hi lo)).
  assert (Hdecl : Z.of_nat declared = from_be hi lo) by (unfold declared; lia). clearbody declared.
  destruct (Z.shiftr (byte_val v) 4 =? 2) eqn:Hver; [|done]. cbn [negb].
  destruct (Nat.ltb_spec MAX_DECLARED_LEN declared) as [|Hmax]; [done|].
  destruct (Z.land (byte_val v) 15 =? 0) eqn:H0.
  { destruct (Nat.ltb_spec (length body) declared) as [|Hlen]; [done|]. intros [= <- <-].
    pose proof (version_byte (byte_val v) 0 (proj1 (byte_val_range v)) ltac:(lia) Hver H0) as Ev.
    apply byte_is in Ev as ->. exists (prefix (byte_of 32) f hi lo (take declared body)), (drop declared body).
    split_and!.
    - apply WireLocal; rewrite length_take; lia.
    - unfold prefix. rewrite <- !app_assoc. by rewrite take_drop.
    - rewrite prefix_length, length_take. lia. }
  destruct (Z.land (byte_val v) 15 =? 1) eqn:H1; [|done].
  pose proof (version_byte (byte_val v) 1 (proj1 (byte_val_range v)) ltac:(lia) Hver H1) as Ev.
  apply byte_is in Ev as ->.
  destruct (Z.eqb_spec (byte_val f) 17) as [Ef|_]; [|destruct (Z.eqb_spec (byte_val f) 33) as [Ef|_]; [|done]];
    apply byte_is in Ef as ->.
  - destruct (Nat.ltb_spec declared 12) as [|Hd]; [done|].
    destruct (Nat.ltb_spec (length body) declared) as [|Hlen]; [done|].
    destruct (parse_src_v4 _) as [src|] eqn:Es; [|done]. intros [= <- <-].
    apply parse_src_v4_take in Es as (ip & p & Hip & Hp & ->); [|lia].
    exists (prefix (byte_of 33) (byte_of 17) hi lo (take 4 body ++ take 4 (drop 4 body)
      ++ take 2 (drop 8 body) ++ take 2 (drop 10 body) ++ take (declared - 12) (drop 12 body))),
      (drop declared body). split; [|split].
    + apply WireV4; try done; rewrite ?length_take, ?length_drop; lia.
    + unfold prefix. rewrite (block_split 4 12 declared body ltac:(lia) ltac:(lia) eq_refl) at 1.
      by rewrite <- !app_assoc.
    + rewrite prefix_length, !length_app, !length_take, !length_drop. lia.
  - destruct (Nat.ltb_spec declared 36) as [|Hd]; [done|].
    destruct (Nat.ltb_spec (length body) declared) as [|Hlen]; [done|].
    destruct (parse_src_v6 _) as [src|] eqn:Es; [|done]. intros [= <- <-].
    apply parse_src_v6_take in Es as (ip & p & Hip & Hp & ->); [|lia].
    exists (prefix (byte_of 33) (byte_of 33) hi lo (take 16 body ++ take 16 (drop 16 body)
      ++ take 2 (drop 32 body) ++ take 2 (drop 34 body) ++ take (declared - 36) (drop 36 body))),
      (drop declared body). split; [|split].
    + apply WireV6; try done; rewrite ?length_take, ?length_drop; lia.
    + unfold prefix. rewrite (block_split 16 36 declared body ltac:(lia) ltac:(lia) eq_refl) at 1.
      by rewrite <- !app_assoc.
    + rewrite prefix_length, !length_app, !length_take, !length_drop. lia.
Qed.

Lemma parse_complete_wire buf d n : parse_proxy_v2 buf = Ok (Complete d n) ->
  exists h rest, wire_header d h /\ buf = h ++ rest /\ n = length h.
Proof.
  intros Hp. assert (Hbuf : exists v f hi lo, buf = prefix v f hi lo (drop 16 buf)).
  { unfold parse_proxy_v2 in Hp. destruct (negb _) eqn:Es; [done|]. bools. apply bytes_eqb_eq in Es.
    destruct (buf !! 12%nat) as [v|] eqn:Hv; [|done]. destruct (buf !! 13%nat) as [f|] eqn:Hf; [|done].
    destruct (buf !! 14%nat) as [hi|] eqn:Hhi; [|done]. destruct (buf !! 15%nat) as [lo|] eqn:Hlo; [|done].
    exists v, f, hi, lo. apply prefix_split; try done. apply lookup_lt_Some in Hlo.
    change (length SIGNATURE) with 12%nat in Es. rewrite Nat.min_r in Es by lia. done. }
  destruct Hbuf as (v & f & hi & lo & E). rewrite E, parse_prefix in Hp.
  apply parse_body_complete in Hp as (h & rest & Hw & Hb & Hn). exists h, rest.
  split; [done|]. split; [|done]. by rewrite <- Hb.
Qed.

Lemma take_app_first (n : nat) (l k : bytes) : length l = n -> take n (l ++ k) = l.
Proof. intros <-. apply take_app_length. Qed.
Lemma drop_app_first (n : nat) (l k : bytes) : length l = n -> drop n (l ++ k) = k.
Proof. intros <-. apply drop_app_length. Qed.

Lemma fields_port (a : nat) (src dst port rest : bytes) :
  length src = a -> length dst = a -> length port = 2%nat ->
  take 2 (drop (2 * a) (src ++ dst ++ port ++ rest)) = port.
Proof.
  intros Hs Hd Hp. rewrite app_assoc, drop_app_first by (rewrite length_app; lia).
  by apply take_app_first.
Qed.

Lemma parse_body_proxied f need src declared body :
  (f = 17 /\ need = 12%nat /\ parse_src_v4 (take need body) = Some src) \/
  (f = 33 /\ need = 36%nat /\ parse_src_v6 (take need body) = Some src) ->
  (need <= declared <= MAX_DECLARED_LEN)%nat -> (declared <= length body)%nat ->
  parse_body (byte_val (byte_of 33)) f declared body = Ok (Complete (Proxied src) (16 + declared)).
Proof.
  intros Hf Hd Hl. unfold parse_body. change (byte_val (byte_of 33)) with 33.
  change (Z.shiftr 33 4 =? 2) with true. change (Z.land 33 15 =? 0) with false.
  change (Z.land 33 15 =? 1) with true. cbn [negb].
  destruct (Nat.ltb_spec MAX_DECLARED_LEN declared); [lia|].
  destruct Hf as [(-> & -> & Hs)|(-> & -> & Hs)]; cbn [Z.eqb Pos.eqb].
  - destruct (Nat.ltb_spec declared 12); [lia|]. destruct (Nat.ltb_spec (length body) declared); [lia|].
    by rewrite Hs.
  - destruct (Nat.ltb_spec declared 36); [lia|]. destruct (Nat.ltb_spec (length body) declared); [lia|].
    by rewrite Hs.
Qed.

Lemma wire_parse_complete d h rest : wire_header d h ->
  parse_proxy_v2 (h ++ rest) = Ok (Complete d (length h)).
Proof.
  intros Hw. destruct Hw as [fam hi lo payload Hl Hm|hi lo src dst port dport tlvs ip p Hs Hd Hp Hdp Hip Hport Hl Hm
    |hi lo src dst port dport tlvs ip p Hs Hd Hp Hdp Hip Hport Hl Hm].
  - fold (prefix (byte_of 32) fam hi lo payload). rewrite prefix_length.
    change (prefix (byte_of 32) fam hi lo payload ++ rest)
      with (prefix (byte_of 32) fam hi lo (payload ++ rest)).
    rewrite parse_prefix, <- Hl, Nat2Z.id. unfold parse_body. change (byte_val (byte_of 32)) with 32.
    cbn [Z.eqb Z.shiftr Z.land negb]. destruct (Nat.ltb_spec MAX_DECLARED_LEN (length payload)); [lia|].
    rewrite length_app. destruct (Nat.ltb_spec (length payload + length rest) (length payload)); [lia|done].
  - fold (prefix (byte_of 33) (byte_of 17) hi lo (src ++ dst ++ port ++ dport ++ tlvs)).
    rewrite prefix_length, !length_app.
    change (prefix (byte_of 33) (byte_of 17) hi lo (src ++ dst ++ port ++ dport ++ tlvs) ++ rest)
      with (prefix (byte_of 33) (byte_of 17) hi lo ((src ++ dst ++ port ++ dport ++ tlvs) ++ rest)).
    rewrite parse_prefix, <- Hl, Nat2Z.id.
    rewrite (parse_body_proxied (byte_val (byte_of 17)) 12 (mkSocket ip p)); rewrite ?length_app; try lia.
    { do 2 f_equal. lia. }
    left. split_and!; [done|done|]. apply parse_src_v4_take; [rewrite !length_app; lia|].
    pose proof (fields_port 4 src dst port (dport ++ tlvs ++ rest) Hs Hd Hp) as E.
    cbn [Nat.mul Nat.add] in E. exists ip, p. by rewrite <- !app_assoc, take_app_first, E by done.
  - fold (prefix (byte_of 33) (byte_of 33) hi lo (src ++ dst ++ port ++ dport ++ tlvs)).
    rewrite prefix_length, !length_app.
    change (prefix (byte_of 33) (byte_of 33) hi lo (src ++ dst ++ port ++ dport ++ tlvs) ++ rest)
      with (prefix (byte_of 33) (byte_of 33) hi lo ((src ++ dst ++ port ++ dport ++ tlvs) ++ rest)).
    rewrite parse_prefix, <- Hl, Nat2Z.id.
    rewrite (parse_body_proxied (byte_val (byte_of 33)) 36 (mkSocket ip p)); rewrite ?length_app; try lia.
    { do 2 f_equal. lia. }
    right. split_and!; [done|done|]. apply parse_src_v6_take; [rewrite !length_app; lia|].
    pose proof (fields_port 16 src dst port (dport ++ tlvs ++ rest) Hs Hd Hp) as E.
    cbn [Nat.mul Nat.add] in E. exists ip, p. by rewrite <- !app_assoc, take_app_first, E by done.
Qed.

(** More bytes change no verdict but [Incomplete]. *)
Lemma parse_src_total need (body : bytes) f : (f = 17 /\ need = 12%nat) \/ (f = 33 /\ need = 36%nat) ->
  (need <= length body)%nat ->
  is_Some (if f =? 17 then parse_src_v4 (take need body) else parse_src_v6 (take need body)).
Proof.
  assert (Hport : forall l : bytes, length l = 2%nat -> is_Some (port_of_octets l)).
  { intros l Hl. destruct l as [|? [|? [|? ?]]]; done || (by eexists). }
  intros [[-> ->]|[-> ->]] Hl; cbn [Z.eqb Pos.eqb].
  - destruct (Hport (take 2 (drop 8 body))) as [p Hp]; [rewrite length_take, length_drop; lia|].
    destruct (ipv4_of_octets (take 4 body)) as [ip|] eqn:Eip.
    + eexists. apply parse_src_v4_take; [done|]. exists ip, p. by split_and!.
    + exfalso. do 4 (destruct body as [|? body]; cbn [length] in Hl; [lia|]). done.
  - destruct (Hport (take 2 (drop 32 body))) as [p Hp]; [rewrite length_take, length_drop; lia|].
    destruct (ipv6_of_octets (take 16 body)) as [ip|] eqn:Eip.
    + eexists. apply parse_src_v6_take; [done|]. exists ip, p. by split_and!.
    + exfalso. do 16 (destruct body as [|? body]; cbn [length] in Hl; [lia|]). done.
Qed.

Lemma parse_body_err v f declared body x e :
  parse_body v f declared body = Err e -> parse_body v f declared (body ++ x) = Err e.
Proof.
  unfold parse_body. destruct (negb _); [done|]. destruct (MAX_DECLARED_LEN <? declared)%nat; [done|].
  destruct (Z.land v 15 =? 0); [done|]. destruct (Z.land v 15 =? 1); [|done].
  assert (Hcase : forall need, (f = 17 /\ need = 12%nat) \/ (f = 33 /\ need = 36%nat) ->
    (need <= declared)%nat ->
    (if (length body <? declared)%nat then Ok (Incomplete (16 + declared)) else
       match (if f =? 17 then parse_src_v4 (take need body) else parse_src_v6 (take need body)) with
       | None => Err (AddressBlockTooShort declared need)
       | Some src => Ok (Complete (Proxied src) (16 + declared))
       end) <> Err e).
  { intros need Hf Hn. destruct (Nat.ltb_spec (length body) declared); [done|].
    destruct (parse_src_total need body f Hf) as [src Hs]; [lia|]. by rewrite Hs. }
  destruct (Z.eqb_spec f 17) as [Hf|]; [|destruct (Z.eqb_spec f 33) as [Hf|]; [|done]].
  - destruct (Nat.ltb_spec declared 12); [done|]. intros E. destruct (Hcase 12%nat); auto.
  - destruct (Nat.ltb_spec declared 36); [done|]. intros E. destruct (Hcase 36%nat); auto.
Qed.

Lemma parse_body_incomplete v f declared body n :
  parse_body v f declared body = Ok (Incomplete n) -> n = (16 + declared)%nat /\ (length body < declared)%nat.
Proof.
  unfold parse_body. destruct (negb _); [done|]. destruct (MAX_DECLARED_LEN <? declared)%nat; [done|].
  destruct (Z.land v 15 =? 0).
  { destruct (Nat.ltb_spec (length body) declared); [|done]. by intros [= <-]. }
  destruct (Z.land v 15 =? 1); [|done].
  destruct (if f =? 17 then Some 12%nat else if f =? 33 then Some 36%nat else None) as [need|]; [|done].
  destruct (declared <? need)%nat; [done|].
  destruct (Nat.ltb_spec (length body) declared); [by intros [= <-]|].
  by destruct (if f =? 17 then _ else _).
Qed.

Lemma parse_body_short v f declared body body' d n :
  parse_body v f declared body = Ok (Complete d n) -> (length body' < declared)%nat ->
  parse_body v f declared body' = Ok (Incomplete (16 + declared)).
Proof.
  unfold parse_body. intros Hp Hl. destruct (negb _); [done|].
  destruct (MAX_DECLARED_LEN <? declared)%nat; [done|].
  assert (Hlt : (length body' <? declared)%nat = true) by (by apply Nat.ltb_lt). rewrite Hlt.
  destruct (Z.land v 15 =? 0); [done|]. destruct (Z.land v 15 =? 1); [|done].
  destruct (if f =? 17 then Some 12%nat else if f =? 33 then Some 36%nat else None) as [need|]; [|done].
  by destruct (declared <? need)%nat.
Qed.

Lemma long_prefix buf : (16 <= length buf)%nat ->
  (exists v f hi lo, buf = prefix v f hi lo (drop 16 buf)) \/
  (forall x, parse_proxy_v2 (buf ++ x) = Err BadSignature).
Proof.
  intros Hl.
  assert (Hget : forall i, (i < 16)%nat -> exists c, buf !! i = Some c).
  { intros i Hi. apply lookup_lt_is_Some. lia. }
  destruct (Hget 12%nat) as [v Hv]; [lia|]. destruct (Hget 13%nat) as [f Hf]; [lia|].
  destruct (Hget 14%nat) as [hi Hhi]; [lia|]. destruct (Hget 15%nat) as [lo Hlo]; [lia|].
  destruct (decide (take 12 buf = SIGNATURE)) as [E|E].
  - left. exists v, f, hi, lo. by apply prefix_split.
  - right. intros x. unfold parse_proxy_v2. change (length SIGNATURE) with 12%nat.
    rewrite length_app, Nat.min_r by lia. rewrite take_app_le by lia.
    destruct (bytes_eqb (take 12 buf) (take 12 SIGNATURE)) eqn:Eb; [|done].
    by apply bytes_eqb_eq in Eb.
Qed.

Lemma short_err buf e : (length buf < 16)%nat -> parse_proxy_v2 buf = Err e ->
  forall x, parse_proxy_v2 (buf ++ x) = Err e.
Proof.
  intros Hl. unfold parse_proxy_v2. change (length SIGNATURE) with 12%nat.
  set (n := Nat.min (length buf) 12).
  destruct (bytes_eqb (take n buf) (take n SIGNATURE)) eqn:Eb; cbn [negb].
  - rewrite (lookup_ge_None_2 buf 15) by lia. intros Hp x.
    by destruct (buf !! 12%nat), (buf !! 13%nat), (buf !! 14%nat).
  - intros Hp x. rewrite <- Hp. set (m := Nat.min (length (buf ++ x)) 12).
    destruct (bytes_eqb (take m (buf ++ x)) (take m SIGNATURE)) eqn:Em; [|done].
    apply bytes_eqb_eq in Em. assert (Hnm : (n <= m)%nat) by (unfold n, m; rewrite length_app; lia).
    assert (take n buf = take n SIGNATURE) as E; [|apply bytes_eqb_eq in E; congruence].
    rewrite <- (take_app_le buf x n) by (unfold n; lia).
    rewrite <- (Nat.min_l n m Hnm), <- !take_take. by rewrite Em.
Qed.

Lemma parse_err_stable buf e x : parse_proxy_v2 buf = Err e -> parse_proxy_v2 (buf ++ x) = Err e.
Proof.
  intros Hp. destruct (Nat.le_gt_cases 16 (length buf)) as [Hl|Hl]; [|by apply short_err].
  destruct (long_prefix buf Hl) as [(v & f & hi & lo & E)|Hall].
  - rewrite E in Hp |- *. rewrite parse_prefix in Hp.
    change (prefix v f hi lo (drop 16 buf) ++ x) with (prefix v f hi lo (drop 16 buf ++ x)).
    rewrite parse_prefix. by apply parse_body_err.
  - rewrite Hall. rewrite <- Hp. rewrite <- (app_nil_r buf) at 1. symmetry. apply Hall.
Qed.

(** ** Reading from the connection *)

Definition restored (peer : SocketAddr) (d : ProxyV2) : SocketAddr :=
  match d with Local => peer | Proxied src => src end.

Lemma read_exact_ok n s buf s' : read_exact n s = Ok (buf, s') ->
  length buf = n /\ st_bytes s = buf ++ st_bytes s' /\ st_closed s' = st_closed s.
Proof.
  unfold read_exact. destruct (Nat.leb_spec n (length (st_bytes s))); [|done]. intros [= <- <-].
  cbn [st_bytes st_closed]. rewrite length_take, take_drop. split_and!; [lia|done|done].
Qed.

Lemma read_exact_app (buf rest : bytes) closed :
  read_exact (length buf) (mkStream (buf ++ rest) closed) = Ok (buf, mkStream rest closed).
Proof.
  unfold read_exact. cbn [st_bytes st_closed]. rewrite length_app.
  destruct (Nat.leb_spec (length buf) (length buf + length rest)); [|lia].
  by rewrite take_app_length, drop_app_length.
Qed.

Lemma parse_body_consumed v f declared body d n :
  parse_body v f declared body = Ok (Complete d n) -> n = (16 + declared)%nat.
Proof.
  unfold parse_body. destruct (negb _); [done|]. destruct (MAX_DECLARED_LEN <? declared)%nat; [done|].
  destruct (Z.land v 15 =? 0).
  { destruct (length body <? declared)%nat; [done|]. by intros [= _ <-]. }
  destruct (Z.land v 15 =? 1); [|done].
  destruct (if f =? 17 then Some 12%nat else if f =? 33 then Some 36%nat else None) as [need|]; [|done].
  destruct (declared <? need)%nat; [done|]. destruct (length body <? declared)%nat; [done|].
  destruct (if f =? 17 then _ else _); [|done]. by intros [= _ <-].
Qed.

(** A second pass over a buffer of the size the first asked for does not ask again, and
    completes at its end. *)
Lemma second_pass buf tail needed : length buf = 16%nat ->
  parse_proxy_v2 buf = Ok (Incomplete needed) -> length tail = (needed - length buf)%nat ->
  (length buf < needed)%nat /\ (forall n, parse_proxy_v2 (buf ++ tail) <> Ok (Incomplete n)) /\
  (forall d n, parse_proxy_v2 (buf ++ tail) = Ok (Complete d n) -> n = length (buf ++ tail)).
Proof.
  intros Hl Hp Ht. destruct (long_prefix buf) as [(v & f & hi & lo & E)|Hall]; [lia| |].
  - rewrite (drop_ge buf) in E by lia. rewrite E in Hp |- *. rewrite parse_prefix in Hp.
    apply parse_body_incomplete in Hp as [-> Hd].
    change (prefix v f hi lo [] ++ tail) with (prefix v f hi lo tail).
    rewrite !prefix_length in *. cbn [length] in *. rewrite parse_prefix. split_and!; [lia|..].
    + intros n Hn. apply parse_body_incomplete in Hn as [_ Hd']. lia.
    + intros d n Hn. apply parse_body_consumed in Hn. lia.
  - specialize (Hall []). rewrite app_nil_r in Hall. congruence.
Qed.

Lemma wire_length d h : wire_header d h -> (16 <= length h)%nat.
Proof. intros Hw. destruct Hw; rewrite !length_app; cbn; lia. Qed.

Lemma complete_whole peer buf d n : parse_proxy_v2 buf = Ok (Complete d n) -> (length buf <= n)%nat ->
  exists d', wire_header d' buf /\ restored peer d = restored peer d'.
Proof.
  intros Hp Hn. apply parse_complete_wire in Hp as (h & rest & Hw & -> & ->).
  rewrite length_app in Hn. destruct rest; [|cbn in Hn; lia]. rewrite app_nil_r. by exists d.
Qed.

Lemma trusted_total_sound peer s : exists r, read_trusted_header peer s = Some r /\
  forall p s', r = Ok (p, s') -> exists d h, wire_header d h /\ p = restored peer d /\
    st_bytes s = h ++ st_bytes s' /\ st_closed s' = st_closed s.
Proof.
  unfold read_trusted_header. destruct (read_exact PREFIX_LEN s) as [[buf s1]|e] eqn:E1; [|by eexists].
  apply read_exact_ok in E1 as (Hl & Hb & Hc). change PREFIX_LEN with 16%nat in Hl. cbn [read_loop].
  destruct (parse_proxy_v2 buf) as [[d n|needed]|e] eqn:Ep; [| |by eexists].
  { eexists. split; [done|]. intros p s' [= <- <-].
    destruct (complete_whole peer _ _ _ Ep) as (d' & Hw & E).
    { apply parse_complete_wire in Ep as (h & rest & Hw & _ & ->). apply wire_length in Hw. lia. }
    exists d', buf. split_and!; [done|exact E|done|done]. }
  destruct (needed <=? length buf)%nat; [by eexists|].
  destruct (read_exact (needed - length buf) s1) as [[tail s2]|e] eqn:E2; [|by eexists].
  apply read_exact_ok in E2 as (Hl2 & Hb2 & Hc2).
  destruct (second_pass buf tail needed Hl Ep Hl2) as (_ & Hnot & Hend).
  destruct (parse_proxy_v2 (buf ++ tail)) as [[d n|n]|e] eqn:Ep2; [| |by eexists].
  - eexists. split; [done|]. intros p s' [= <- <-].
    destruct (complete_whole peer _ _ _ Ep2) as (d' & Hw & E); [by rewrite (Hend d n eq_refl)|].
    exists d', (buf ++ tail). split_and!; [done|exact E| |congruence].
    by rewrite Hb, Hb2, app_assoc.
  - by destruct (Hnot n).
Qed.

Lemma trusted_complete peer d h rest closed : wire_header d h ->
  read_trusted_header peer (mkStream (h ++ rest) closed)
  = Some (Ok (restored peer d, mkStream rest closed)).
Proof.
  intros Hw. pose proof (wire_length _ _ Hw) as Hlen. pose proof (wire_parse_complete d h [] Hw) as Hp.
  rewrite app_nil_r in Hp. unfold read_trusted_header.
  assert (Hh : h = take 16 h ++ drop 16 h) by (by rewrite take_drop).
  rewrite Hh at 1. rewrite <- app_assoc.
  replace PREFIX_LEN with (length (take 16 h)) by (rewrite length_take; unfold PREFIX_LEN; lia).
  rewrite read_exact_app. cbn [read_loop].
  destruct (long_prefix (take 16 h)) as [(v & f & hi & lo & E)|Hall]; [rewrite length_take; lia| |].
  2:{ specialize (Hall (drop 16 h)). rewrite <- Hh in Hall. congruence. }
  rewrite (drop_ge (take 16 h)) in E by (rewrite length_take; lia).
  assert (Hbody : h = prefix v f hi lo (drop 16 h)) by (rewrite Hh at 1; by rewrite E).
  rewrite Hbody in Hp at 1. rewrite parse_prefix in Hp.
  pose proof (parse_body_consumed _ _ _ _ _ _ Hp) as Hn.
  set (declared := Z.to_nat (from_be hi lo)) in *. rewrite length_take, Nat.min_l by lia.
  rewrite E at 1. rewrite parse_prefix. fold declared.
  destruct (Nat.eq_dec declared 0%nat) as [Hz|Hz].
  - assert (Hnil : drop 16 h = []) by (apply drop_ge; lia). rewrite Hnil in Hp |- *. rewrite Hp.
    by destruct d.
  - rewrite (parse_body_short _ _ _ _ [] _ _ Hp) by (cbn; lia).
    destruct (Nat.leb_spec (16 + declared) 16); [lia|].
    replace (16 + declared - 16)%nat with (length (drop 16 h)) by (rewrite length_drop; lia).
    rewrite read_exact_app. cbn [read_loop]. rewrite <- Hh.
    pose proof (wire_parse_complete d h [] Hw) as Hfull. rewrite app_nil_r in Hfull. rewrite Hfull.
    by destruct d.
Qed.

(** ** Untrusted peers *)

Lemma detect_spec peer arrived s :
  match detect_untrusted_header peer arrived s with
  | Ok (p, s') => p = peer /\ s' = s /\ ~ SIGNATURE `prefix_of` st_bytes s
  | Err FaultUntrusted => SIGNATURE `prefix_of` st_bytes s
  | Err _ => True
  end.
Proof.
  induction arrived as [|k rest IH]; [done|]. cbn [detect_untrusted_header].
  change (length SIGNATURE) with 12%nat. set (probe := take (Nat.min k 12) (st_bytes s)).
  destruct (length probe =? 0)%nat; [done|].
  assert (Hn : (length probe <= 12)%nat) by (unfold probe; rewrite length_take; lia).
  destruct (bytes_eqb probe (take (length probe) SIGNATURE)) eqn:Eb; cbn [negb].
  - destruct (Nat.leb_spec 12 (length probe)); [|done].
    apply bytes_eqb_eq in Eb. replace (length probe) with 12%nat in Eb by lia.
    exists (drop (Nat.min k 12) (st_bytes s)). change SIGNATURE with (take 12 SIGNATURE).
    rewrite <- Eb. unfold probe. by rewrite take_drop.
  - split_and!; [done|done|]. intros [l Hl].
    enough (probe = take (length probe) SIGNATURE) as E by (apply bytes_eqb_eq in E; congruence).
    unfold probe at 1. rewrite Hl. rewrite take_app_le by (cbn; lia).
    assert (length probe = Nat.min k 12) as ->; [|done]. unfold probe. rewrite Hl, length_take, length_app.
    cbn; lia.
Qed.

(** ** Properties *)

(** C40: the PROXY v2 parser accepts exactly the wire format, and decides early: it completes
    with a decision exactly on a buffer that starts with a header saying so, consuming exactly
    that header; and an error found on a partial buffer is the error of every continuation. *)
Theorem proxy_v2_exact (buf : bytes) :
  (forall d n, parse_proxy_v2 buf = Ok (Complete d n) <->
     exists h rest, wire_header d h /\ buf = h ++ rest /\ n = length h) /\
  (forall e x, parse_proxy_v2 buf = Err e -> parse_proxy_v2 (buf ++ x) = Err e).
Proof.
  split; [|intros e x; apply parse_err_stable].
  intros d n. split; [apply parse_complete_wire|].
  intros (h & rest & Hw & -> & ->). by apply wire_parse_complete.
Qed.

(** The peer of a connection is restored only from a header a trusted load balancer sent.
    A trusted peer's connection always resolves: to the header's source, or the real peer for
    a local one, exactly when the connection opens with a whole header, whose bytes alone are
    consumed; and to a fault otherwise.  An untrusted peer keeps its own address with nothing
    consumed, never when its bytes open with the signature, and is cut for the signature only
    when they do. *)
Theorem resolve_peer_exact {IpNet : Type} (contains : IpNet -> IpAddr -> bool) (nets : list IpNet)
    (peer : SocketAddr) (arrived : list nat) (s : Stream) :
  exists r, resolve_peer contains nets peer arrived s = Some r /\
  if nets_contain contains nets (sa_ip peer)
  then forall p s', r = Ok (p, s') <-> exists d h, wire_header d h /\ p = restored peer d /\
         st_bytes s = h ++ st_bytes s' /\ st_closed s' = st_closed s
  else match r with
       | Ok (p, s') => p = peer /\ s' = s /\ ~ SIGNATURE `prefix_of` st_bytes s
       | Err FaultUntrusted => SIGNATURE `prefix_of` st_bytes s
       | Err _ => True
       end.
Proof.
  unfold resolve_peer. destruct (nets_contain contains nets (sa_ip peer)).
  2:{ eexists. split; [done|]. apply detect_spec. }
  destruct (trusted_total_sound peer s) as (r & Er & Hs). exists r. split; [done|].
  intros p s'. split; [apply Hs|]. intros (d & h & Hw & -> & Hb & Hc). destruct s as [b closed], s' as [b' c'].
  cbn [st_bytes st_closed] in *. subst b c'. rewrite (trusted_complete peer d h b' closed Hw) in Er.
  by injection Er.
Qed.

(** A v4 header followed by a request, from the trusted network and from outside it. *)
Example resolve_sample :
  let header := SIGNATURE ++ map byte_of [33; 17; 0; 12; 1; 2; 3; 4; 5; 6; 7; 8; 1; 0; 0; 80]%nat in
  let s := mkStream (header ++ bs "GET /") false in
  let contains (_ : unit) ip := bool_decide (ip = V4 10 0 0 1) in
  resolve_peer contains [tt] (mkSocket (V4 10 0 0 1) 9) [] s
    = Some (Ok (mkSocket (V4 1 2 3 4) 256, mkStream (bs "GET /") false)) /\
  resolve_peer contains [tt] (mkSocket (V4 10 0 0 2) 9) [5; 20]%nat s = Some (Err FaultUntrusted).
Proof. vm_compute. split; reflexivity. Qed.
