(* ===== verification/ConnLimit.v ===== *)
(** * Per-source connection admission (server/src/conn_limit.rs)

    A fixed table of counters, a slot per hashed source.  Connections are threads: an acquire
    is a load and a compare-and-exchange loop that other threads interleave with, a guard
    gives its slot back when the connection ends. *)

From S2P Require Import Prelude Bytes Ssrf RateLimit.

Definition CONN_IP_SLOTS : Z := 2 ^ 16.

(** Four v4 octets or the top eight v6 octets, an IPv4-mapped peer collapsed first. *)
Definition conn_ip_key_bytes (peer : IpAddr) : list Z :=
  let peer := match peer with
              | V6 _ _ _ _ _ _ _ _ => match to_ipv4_mapped peer with Some v4 => v4 | None => peer end
              | v4 => v4
              end in
  match peer with
  | V4 a b c d => [a; b; c; d; 0; 0; 0; 0]
  | V6 s0 s1 s2 s3 _ _ _ _ =>
    [s0 / 256; s0 mod 256; s1 / 256; s1 mod 256; s2 / 256; s2 mod 256; s3 / 256; s3 mod 256]
  end.

Inductive ConnPhase :=
| CnIdle
| CnLoaded (peer : IpAddr) (cur : Z)
| CnHolding (peer : IpAddr).

Record ConnTable := mkConnTable { ct_slots : list Z; ct_threads : list ConnPhase }.

Definition conn_new (threads : nat) : ConnTable :=
  mkConnTable (replicate (Z.to_nat CONN_IP_SLOTS) 0) (replicate threads CnIdle).

Section limiter.
(** The seeded hash of one limiter, a [u64], and the cap. *)
Context (hash : list Z -> Z) (limit : Z).

Definition conn_slot_for_ip (peer : IpAddr) : nat :=
  Z.to_nat (Z.land (wrap64 (hash (conn_ip_key_bytes peer))) (CONN_IP_SLOTS - 1)).

(** [try_acquire] without interleaving: the slot to hold, and the table. *)
Definition conn_try_acquire (peer : IpAddr) (slots : list Z) : option nat * list Z :=
  let slot := conn_slot_for_ip peer in
  match slots !! slot with
  | None => (None, slots)
  | Some cur => if limit <=? cur then (None, slots) else (Some slot, <[slot := cur + 1]> slots)
  end.

(** [PerIpConnGuard]'s drop, a wrapping [fetch_sub]. *)
Definition conn_release (slot : nat) (slots : list Z) : list Z :=
  match slots !! slot with
  | Some cur => <[slot := (cur - 1) mod 2 ^ 32]> slots
  | None => slots
  end.

Inductive conn_step (s : ConnTable) : ConnTable -> Prop :=
| CnLoad t peer cur : ct_threads s !! t = Some CnIdle ->
    ct_slots s !! conn_slot_for_ip peer = Some cur ->
    conn_step s (mkConnTable (ct_slots s) (<[t := CnLoaded peer cur]> (ct_threads s)))
| CnRefuse t peer cur : ct_threads s !! t = Some (CnLoaded peer cur) -> limit <= cur ->
    conn_step s (mkConnTable (ct_slots s) (<[t := CnIdle]> (ct_threads s)))
| CnExchange t peer cur : ct_threads s !! t = Some (CnLoaded peer cur) -> cur < limit ->
    ct_slots s !! conn_slot_for_ip peer = Some cur ->
    conn_step s (mkConnTable (<[conn_slot_for_ip peer := cur + 1]> (ct_slots s))
                   (<[t := CnHolding peer]> (ct_threads s)))
(** A weak exchange also fails spuriously. *)
| CnRetry t peer cur actual : ct_threads s !! t = Some (CnLoaded peer cur) -> cur < limit ->
    ct_slots s !! conn_slot_for_ip peer = Some actual ->
    conn_step s (mkConnTable (ct_slots s) (<[t := CnLoaded peer actual]> (ct_threads s)))
| CnDrop t peer : ct_threads s !! t = Some (CnHolding peer) ->
    conn_step s (mkConnTable (conn_release (conn_slot_for_ip peer) (ct_slots s))
                   (<[t := CnIdle]> (ct_threads s))).

(** ** Lemmas *)

Definition holds (slot : nat) (ph : ConnPhase) : Z :=
  match ph with CnHolding peer => if (conn_slot_for_ip peer =? slot)%nat then 1 else 0 | _ => 0 end.
Definition holders (slot : nat) (s : ConnTable) : Z := sumZ (map (holds slot) (ct_threads s)).

Record conn_ok (s : ConnTable) : Prop := {
  cn_size : length (ct_slots s) = Z.to_nat CONN_IP_SLOTS;
  cn_count : forall slot c, ct_slots s !! slot = Some c -> c = holders slot s /\ c <= limit;
  cn_loaded : forall peer cur, CnLoaded peer cur ∈ ct_threads s -> cur <= limit;
}.

Lemma holds_nonneg slot ph : 0 <= holds slot ph.
Proof. destruct ph; cbn; [lia..|]. by destruct (_ =? _)%nat. Qed.

Lemma holders_nonneg slot s : 0 <= holders slot s.
Proof.
  apply sumZ_nonneg, Forall_forall. intros x Hx. apply list_elem_of_fmap in Hx as (ph & -> & _).
  apply holds_nonneg.
Qed.

Lemma conn_slot_bound peer : (conn_slot_for_ip peer < Z.to_nat CONN_IP_SLOTS)%nat.
Proof.
  unfold conn_slot_for_ip, CONN_IP_SLOTS. rewrite Z.sub_1_r, <- Z.ones_equiv, Z.land_ones by lia.
  pose proof (Z.mod_pos_bound (wrap64 (hash (conn_ip_key_bytes peer))) (2 ^ 16)). lia.
Qed.

Lemma holders_update slot s t ph ph' slots :
  ct_threads s !! t = Some ph ->
  holders slot (mkConnTable slots (<[t := ph']> (ct_threads s)))
  = holders slot s - holds slot ph + holds slot ph'.
Proof.
  intros Ht. unfold holders. cbn [ct_threads].
  assert (E : map (holds slot) (<[t := ph']> (ct_threads s))
    = <[t := holds slot ph']> (map (holds slot) (ct_threads s))) by exact (list_fmap_insert _ _ _ _).
  rewrite E. apply sumZ_insert. pose proof (list_lookup_fmap (holds slot) (ct_threads s) t) as Hl.
  by rewrite Ht in Hl.
Qed.

Lemma elem_of_insert {A} (l : list A) t (x y : A) : y ∈ <[t := x]> l -> y = x \/ y ∈ l.
Proof.
  intros [i Hi]%list_elem_of_lookup_1. destruct (decide (t = i)) as [->|Hn].
  - destruct (decide (i < length l)%nat) as [Hl|Hl].
    + rewrite list_lookup_insert_eq in Hi by done. left. by injection Hi.
    + right. rewrite list_insert_ge in Hi by lia. by eapply list_elem_of_lookup_2.
  - rewrite list_lookup_insert_ne in Hi by done. right. by eapply list_elem_of_lookup_2.
Qed.

Lemma conn_ok_update s t ph ph' slots : conn_ok s -> ct_threads s !! t = Some ph ->
  length slots = length (ct_slots s) ->
  (forall slot c', slots !! slot = Some c' -> exists c, ct_slots s !! slot = Some c /\
     c' = c - holds slot ph + holds slot ph' /\ c' <= limit) ->
  (forall peer cur, ph' = CnLoaded peer cur -> cur <= limit) ->
  conn_ok (mkConnTable slots (<[t := ph']> (ct_threads s))).
Proof.
  intros [Hsize Hcount Hload] Ht Hlen Hslots Hph. split; cbn [ct_slots ct_threads].
  - congruence.
  - intros slot c' Hc. destruct (Hslots slot c' Hc) as (c & Hcc & -> & Hl). split; [|done].
    rewrite (holders_update _ _ _ _ _ _ Ht). by destruct (Hcount _ _ Hcc) as [<- _].
  - intros peer cur [E|Hin]%elem_of_insert; [by eapply Hph|by eapply Hload].
Qed.

Lemma conn_same_slots s t ph ph' : conn_ok s -> ct_threads s !! t = Some ph ->
  (forall slot, holds slot ph = holds slot ph') ->
  (forall peer cur, ph' = CnLoaded peer cur -> cur <= limit) ->
  conn_ok (mkConnTable (ct_slots s) (<[t := ph']> (ct_threads s))).
Proof.
  intros Hok Ht Hsame Hph. eapply conn_ok_update; try done. intros slot c Hc. exists c.
  rewrite Hsame. destruct (cn_count s Hok _ _ Hc). split_and!; [done|lia|lia].
Qed.

Lemma holder_counted s t peer : conn_ok s -> ct_threads s !! t = Some (CnHolding peer) ->
  exists c, ct_slots s !! conn_slot_for_ip peer = Some c /\ 1 <= c <= limit.
Proof.
  intros Hok Ht. destruct (lookup_lt_is_Some_2 (ct_slots s) (conn_slot_for_ip peer)) as [c Hc].
  { rewrite (cn_size s Hok). apply conn_slot_bound. }
  exists c. split; [done|]. destruct (cn_count s Hok _ _ Hc) as [-> Hl]. split; [|done].
  pose proof (holders_update (conn_slot_for_ip peer) s t _ CnIdle (ct_slots s) Ht) as Hu.
  pose proof (holders_nonneg (conn_slot_for_ip peer)
    (mkConnTable (ct_slots s) (<[t := CnIdle]> (ct_threads s)))).
  cbn [holds] in Hu. rewrite Nat.eqb_refl in Hu. lia.
Qed.

Lemma conn_step_ok s s' : limit < 2 ^ 32 -> conn_ok s -> conn_step s s' -> conn_ok s'.
Proof.
  intros Hlim Hok Hstep.
  destruct Hstep as [t peer cur Ht Hc|t peer cur Ht Hle|t peer cur Ht Hlt Hc|t peer cur actual Ht Hlt Hc|t peer Ht].
  - eapply conn_same_slots; try done. intros ? ? [= -> ->]. by apply (cn_count s Hok _ _ Hc).
  - by eapply conn_same_slots.
  - eapply conn_ok_update; try done; [by rewrite length_insert|]. intros slot c' Hc'. cbn [holds].
    destruct (Nat.eqb_spec (conn_slot_for_ip peer) slot) as [<-|Hn].
    + rewrite list_lookup_insert_eq in Hc' by (by eapply lookup_lt_Some). injection Hc' as <-.
      exists cur. split_and!; [done|lia|lia].
    + rewrite list_lookup_insert_ne in Hc' by done. exists c'. destruct (cn_count s Hok _ _ Hc').
      split_and!; [done|lia|lia].
  - eapply conn_same_slots; try done. intros ? ? [= -> ->]. by apply (cn_count s Hok _ _ Hc).
  - destruct (holder_counted s t peer Hok Ht) as (c & Hc & Hr). unfold conn_release. rewrite Hc.
    eapply conn_ok_update; try done; [by rewrite length_insert|]. intros slot c' Hc'. cbn [holds].
    destruct (Nat.eqb_spec (conn_slot_for_ip peer) slot) as [<-|Hn].
    + rewrite list_lookup_insert_eq in Hc' by (by eapply lookup_lt_Some). injection Hc' as <-.
      exists c. rewrite Z.mod_small by lia. split_and!; [done|lia|lia].
    + rewrite list_lookup_insert_ne in Hc' by done. exists c'. destruct (cn_count s Hok _ _ Hc').
      split_and!; [done|lia|lia].
Qed.

Lemma conn_new_ok threads : 0 <= limit -> conn_ok (conn_new threads).
Proof.
  intros Hl. split; unfold conn_new; cbn [ct_slots ct_threads].
  - by rewrite length_replicate.
  - intros slot c [-> _]%lookup_replicate_1. split; [|done]. unfold holders. cbn [ct_threads].
    induction threads as [|n IH]; [done|]. cbn [replicate map sumZ holds]. by rewrite <- IH.
  - intros peer cur Hin. by apply elem_of_replicate in Hin as [? _].
Qed.

Lemma conn_reach_ok threads s : 0 <= limit < 2 ^ 32 -> rtc conn_step (conn_new threads) s -> conn_ok s.
Proof.
  intros Hl Hr. pose proof (conn_new_ok threads ltac:(lia)) as Hi.
  induction Hr as [|s1 s2 s3 Hs _ IH]; [done|]. apply IH. eapply conn_step_ok; [lia|done|done].
Qed.
End limiter.

(** Whether a thread holds a connection of a source with this key. *)
Definition of_source (key : list Z) (ph : ConnPhase) : Z :=
  match ph with
  | CnHolding peer => if bool_decide (conn_ip_key_bytes peer = key) then 1 else 0
  | _ => 0
  end.

Lemma conn_slot_same hash peer peer' : conn_ip_key_bytes peer' = conn_ip_key_bytes peer ->
  conn_slot_for_ip hash peer' = conn_slot_for_ip hash peer.
Proof. unfold conn_slot_for_ip. by intros ->. Qed.

(** The rate limiter coarsens addresses the same way. *)
Lemma conn_key_same peer : conn_ip_key_bytes peer = ip_key_bytes peer.
Proof. unfold conn_ip_key_bytes, ip_key_bytes. by destruct peer. Qed.

(** ** Properties *)

(** However connections open and close concurrently, no source ever holds more than the
    cap, whatever other sources share its slot: every counter is exactly the connections its
    slot holds and within the cap, the table never grows, and a count an acquire has read
    never exceeds the cap.  Sources are told apart by the rate limiter's key. *)
Theorem per_source_cap (hash : list Z -> Z) (limit : Z) (threads : nat) (s : ConnTable)
    (peer : IpAddr) :
  0 <= limit < 2 ^ 32 -> rtc (conn_step hash limit) (conn_new threads) s ->
  sumZ (map (of_source (ip_key_bytes peer)) (ct_threads s)) <= limit /\
  length (ct_slots s) = Z.to_nat CONN_IP_SLOTS /\
  (forall slot c, ct_slots s !! slot = Some c -> c = holders hash slot s /\ 0 <= c <= limit) /\
  (forall p cur, CnLoaded p cur ∈ ct_threads s -> cur <= limit).
Proof.
  intros Hl Hr. destruct (conn_reach_ok _ _ _ _ Hl Hr) as [Hsize Hcount Hload].
  split; [|split_and!; [done| |done]].
  - destruct (lookup_lt_is_Some_2 (ct_slots s) (conn_slot_for_ip hash peer)) as [c Hc].
    { rewrite Hsize. apply conn_slot_bound. }
    destruct (Hcount _ _ Hc) as [-> Hle]. etransitivity; [|exact Hle]. unfold holders.
    clear. induction (ct_threads s) as [|ph l IH]; [done|]. cbn [map sumZ].
    enough (of_source (ip_key_bytes peer) ph <= holds hash (conn_slot_for_ip hash peer) ph) by lia.
    destruct ph as [|p cur|p]; cbn [of_source holds]; [lia|lia|]. rewrite <- conn_key_same.
    case_bool_decide as E; [|by destruct (_ =? _)%nat].
    by rewrite (conn_slot_same hash _ _ E), Nat.eqb_refl.
  - intros slot c Hc. destruct (Hcount _ _ Hc) as [-> ?]. pose proof (holders_nonneg hash slot s). done.
Qed.

(** Two connections of one /64 under a cap of one. *)
Lemma per_source_cap_witness :
  let hash (_ : list Z) := 7 in
  exists s, rtc (conn_step hash 1) (conn_new 2) s /\
    ct_threads s = [CnHolding (V6 1 2 3 4 0 0 0 1); CnLoaded (V6 1 2 3 4 0 0 0 2) 1] /\
    sumZ (map (of_source (ip_key_bytes (V6 1 2 3 4 0 0 0 9))) (ct_threads s)) <= 1.
Proof.
  cbv zeta. set (hash := fun _ : list Z => 7).
  assert (Hk : forall p, conn_slot_for_ip hash p = 7%nat) by done.
  assert (Hs : exists slots, slots = replicate (Z.to_nat CONN_IP_SLOTS) 0 /\ slots !! 7%nat = Some 0).
  { eexists. split; [done|]. apply lookup_replicate_2. unfold CONN_IP_SLOTS. lia. }
  destruct Hs as (slots & Eslots & H7).
  assert (Hr : rtc (conn_step hash 1) (conn_new 2)
    (mkConnTable (<[7%nat := 1]> slots) [CnHolding (V6 1 2 3 4 0 0 0 1); CnLoaded (V6 1 2 3 4 0 0 0 2) 1])).
  { unfold conn_new. rewrite <- Eslots.
    eapply rtc_l; [apply (CnLoad _ _ _ 0 (V6 1 2 3 4 0 0 0 1) 0); [reflexivity|by rewrite Hk]|].
    eapply rtc_l; [apply (CnExchange _ _ _ 0 (V6 1 2 3 4 0 0 0 1) 0); [reflexivity|done|by rewrite Hk]|].
    rewrite Hk. cbn [ct_slots ct_threads list_insert insert list_insert].
    eapply rtc_l; [apply (CnLoad _ _ _ 1 (V6 1 2 3 4 0 0 0 2) 1); [reflexivity|]|apply rtc_refl].
    rewrite Hk. cbn [ct_slots]. apply list_lookup_insert_eq. by eapply lookup_lt_Some. }
  eexists. split; [exact Hr|]. split; [done|].
  by destruct (per_source_cap hash 1 2 _ (V6 1 2 3 4 0 0 0 9) ltac:(lia) Hr) as [Hc _].
Defined.
