(* ===== verification/Compression.v ===== *)
(** * Response compression (server/src/compression.rs)

    Content negotiation against the client's [Accept-Encoding], the eligibility of a response,
    the header rewrite that commits to a coding, and the streaming body.  The codecs are an
    interface: a coded stream decodes to what was written. *)

From S2P Require Import Prelude Bytes Chain Headers Route.

Definition H_ACCEPT_ENCODING : bytes := bs "accept-encoding".
Definition H_CONTENT_ENCODING : bytes := bs "content-encoding".
Definition H_CONTENT_TYPE : bytes := bs "content-type".
Definition H_CACHE_CONTROL : bytes := bs "cache-control".
Definition H_ACCEPT_RANGES : bytes := bs "accept-ranges".
Definition H_ETAG : bytes := bs "etag".
Definition H_VARY : bytes := bs "vary".

(** ** Weights *)

Definition is_digit (c : ascii) : bool := in_range 48 57 c.
Definition digit (c : ascii) : Z := byte_val c - 48.

(** Decimals as thousandths, the first at [place]. *)
Fixpoint thousandths (place : Z) (frac : bytes) : Z :=
  match frac with
  | [] => 0
  | b :: frac => digit b * place + thousandths (place / 10) frac
  end.

Definition parse_qvalue (s : bytes) : option Z :=
  let '(int, frac) := match split_once "." s with Some p => p | None => (s, []) end in
  if (3 <? length frac)%nat || negb (forallb is_digit frac) then None
  else if bytes_eqb int (bs "0") then Some (thousandths 100 frac)
  else if bytes_eqb int (bs "1") then
    (if forallb (fun b => ascii_eqb b "0") frac then Some 1000 else None)
  else None.

Definition coding_algo (token : bytes) : option CompressionAlgorithm :=
  if eq_ignore_ascii_case token (bs "zstd") then Some Zstd
  else if eq_ignore_ascii_case token (bs "br") then Some Br
  else if eq_ignore_ascii_case token (bs "gzip") || eq_ignore_ascii_case token (bs "x-gzip") then Some Gzip
  else None.

(** ** Negotiation *)

(** The weight the parameters give, [None] when one is malformed. *)
Fixpoint member_q (params : list bytes) (q : Z) : option Z :=
  match params with
  | [] => Some q
  | param :: params =>
    match split_once "=" param with
    | None => None
    | Some (name, val) =>
      if eq_ignore_ascii_case (trim name) (bs "q") then
        match parse_qvalue (trim val) with Some v => member_q params v | None => None end
      else member_q params q
    end
  end.

(** A well-formed list member: its coding and weight. *)
Definition parse_member (member : bytes) : option (bytes * Z) :=
  match split_on ";" member with
  | [] => None
  | coding :: params =>
    let coding := trim coding in
    if bool_decide (coding = []) then None
    else match member_q params 1000 with Some q => Some (coding, q) | None => None end
  end.

Record CodingWeights := mkWeights { w_zstd : option Z; w_br : option Z; w_gzip : option Z }.
Definition slot (w : CodingWeights) (algo : CompressionAlgorithm) : option Z :=
  match algo with Zstd => w_zstd w | Br => w_br w | Gzip => w_gzip w end.
Definition set_slot (w : CodingWeights) (algo : CompressionAlgorithm) (q : option Z) : CodingWeights :=
  match algo with
  | Zstd => mkWeights q (w_br w) (w_gzip w)
  | Br => mkWeights (w_zstd w) q (w_gzip w)
  | Gzip => mkWeights (w_zstd w) (w_br w) q
  end.

Record Preferences := mkPreferences {
  pr_explicit : CodingWeights;
  pr_star : option Z;
  pr_identity : option Z;
}.
Definition no_preference : Preferences := mkPreferences (mkWeights None None None) None None.

Definition note_member (p : Preferences) (member : bytes * Z) : Preferences :=
  let '(coding, q) := member in
  if bytes_eqb coding (bs "*") then mkPreferences (pr_explicit p) (Some q) (pr_identity p)
  else if eq_ignore_ascii_case coding (bs "identity") then
    mkPreferences (pr_explicit p) (pr_star p) (Some q)
  else
    match coding_algo coding with
    | Some algo => mkPreferences (set_slot (pr_explicit p) algo (Some q)) (pr_star p) (pr_identity p)
    | None => p
    end.

(** The weight of a coding the route offers. *)
Definition coding_q (p : Preferences) (algo : CompressionAlgorithm) : Z :=
  match slot (pr_explicit p) algo with
  | Some q => q
  | None => match pr_star p with Some q => q | None => 0 end
  end.

Definition keep_best (p : Preferences) (best : option (Z * CompressionAlgorithm))
    (algo : CompressionAlgorithm) : option (Z * CompressionAlgorithm) :=
  let q := coding_q p algo in
  if q =? 0 then best
  else
    match best with
    | None => Some (q, algo)
    | Some (bq, _) => if bq <? q then Some (q, algo) else best
    end.

Section negotiate.
Context {M : Type} `{HeaderMap M}.

Definition members (m : M) (name : bytes) : list bytes :=
  concat (map (fun v => match to_str v with Some s => split_on "," s | None => [] end)
            (hm_get_all m name)).

Definition preferences (request : M) : Preferences :=
  fold_left note_member (omap parse_member (members request H_ACCEPT_ENCODING)) no_preference.

Definition negotiate (request : M) (algorithms : list CompressionAlgorithm)
    : option CompressionAlgorithm :=
  if bool_decide (hm_get_all request H_ACCEPT_ENCODING = []) then None
  else
    let p := preferences request in
    match fold_left (keep_best p) algorithms None with
    | None => None
    | Some (bq, algo) =>
      match pr_identity p with
      | Some iq => if bq <? iq then None else Some algo
      | None => Some algo
      end
    end.

(** ** Eligibility *)

Fixpoint parse_digits64 (acc : Z) (s : bytes) : option Z :=
  match s with
  | [] => Some acc
  | c :: s =>
    if is_digit c then
      let acc := acc * 10 + digit c in if acc <=? u64_max then parse_digits64 acc s else None
    else None
  end.
(** [str::parse::<u64>]. *)
Definition parse_u64 (s : bytes) : option Z :=
  let s := match s with c :: s' => if ascii_eqb c "+" then s' else s | [] => s end in
  match s with [] => None | _ => parse_digits64 0 s end.

Definition cache_control_no_transform (headers : M) : bool :=
  existsb (fun directive =>
    match split_on "=" directive with
    | name :: _ => eq_ignore_ascii_case (trim name) (bs "no-transform")
    | [] => false
    end) (members headers H_CACHE_CONTROL).

Definition response_eligible (status : Z) (headers : M) (cfg : CompressionConfig) : bool :=
  if ((100 <=? status) && (status <=? 199)) || (status =? 204) || (status =? 206) || (status =? 304)
  then false
  else if negb (bool_decide (hm_get_all headers H_CONTENT_ENCODING = [])) then false
  else if cache_control_no_transform headers then false
  else
    let essence :=
      match hm_get headers H_CONTENT_TYPE with
      | Some v => match to_str v with Some s => Some (default s (head (split_on ";" s))) | None => None end
      | None => None
      end in
    match essence with
    | None => false
    | Some essence =>
      if negb (content_type_eligible (cc_content_types cfg) essence) then false
      else
        match hm_get headers CONTENT_LENGTH with
        | Some v =>
          match to_str v with
          | Some s => match parse_u64 (trim s) with Some len => cc_min_length cfg <=? len | None => false end
          | None => false
          end
        | None => true
        end
    end.

(** ** The header rewrite *)

Definition add_vary_accept_encoding (headers : M) : M :=
  let already := existsb (fun member =>
    let member := trim member in
    bytes_eqb member (bs "*") || eq_ignore_ascii_case member (bs "accept-encoding"))
    (members headers H_VARY) in
  if already then headers else hm_append headers H_VARY (bs "accept-encoding").

Definition mark_compressed (headers : M) (algo : CompressionAlgorithm) : M :=
  let headers := hm_insert headers H_CONTENT_ENCODING (token algo) in
  let headers := hm_remove headers CONTENT_LENGTH in
  let headers := hm_remove headers H_ACCEPT_RANGES in
  match hm_get headers H_ETAG with
  | Some etag =>
    if starts_with (bs "W/") etag then headers
    else
      match parse_value (bs "W/" ++ etag) with
      | Some v => hm_insert headers H_ETAG v
      | None => hm_remove headers H_ETAG
      end
  | None => headers
  end.
End negotiate.

(** ** The body *)

Class Codec (E : Type) := {
  enc_new : CompressionAlgorithm -> option E;
  enc_write_flush : E -> bytes -> option (bytes * E);
  enc_finish : E -> option bytes;
}.

Inductive Frame (T : Type) := Data (data : bytes) | Trailers (t : T).
Arguments Data {T}.
Arguments Trailers {T}.

Inductive Poll (T : Type) := PollFrame (f : Frame T) | PollError | PollEnd.
Arguments PollFrame {T}.
Arguments PollError {T}.
Arguments PollEnd {T}.

Record CompressBody (E T : Type) := mkCompressBody {
  cb_inner : list (option (Frame T));
  cb_encoder : option E;
  cb_queue : list (Frame T);
}.
Arguments mkCompressBody {E T}.
Arguments cb_inner {E T}.
Arguments cb_encoder {E T}.
Arguments cb_queue {E T}.

Section body.
Context {E T : Type} `{Codec E}.

Definition data_frame (out : bytes) : list (Frame T) :=
  match out with [] => [] | _ => [Data out] end.

(** The inner body's frames as they become ready, [None] for a stream error. *)
Fixpoint poll_frame (inner : list (option (Frame T))) (encoder : option E) (queue : list (Frame T))
    : Poll T * CompressBody E T :=
  match queue, encoder with
  | frame :: queue, _ => (PollFrame frame, mkCompressBody inner encoder queue)
  | [], None => (PollEnd, mkCompressBody inner None [])
  | [], Some e =>
    match inner with
    | Some (Data data) :: inner =>
      if bool_decide (data = []) then poll_frame inner (Some e) []
      else
        match enc_write_flush e data with
        | Some (out, e) => poll_frame inner (Some e) (data_frame out)
        | None => (PollError, mkCompressBody inner (Some e) [])
        end
    | Some (Trailers t) :: inner =>
      match enc_finish e with
      | Some out => poll_frame inner None (data_frame out ++ [Trailers t])
      | None => (PollError, mkCompressBody inner None [])
      end
    | None :: inner => (PollError, mkCompressBody inner (Some e) [])
    | [] =>
      match enc_finish e with
      | Some [] => (PollEnd, mkCompressBody [] None [])
      | Some out => (PollFrame (Data out), mkCompressBody [] None [])
      | None => (PollError, mkCompressBody [] None [])
      end
    end
  end.

(** The consumer: frames until the end ([true]) or the first error ([false]). *)
Fixpoint drive (fuel : nat) (b : CompressBody E T) : option (list (Frame T) * bool) :=
  match fuel with
  | O => None
  | S fuel =>
    match poll_frame (cb_inner b) (cb_encoder b) (cb_queue b) with
    | (PollFrame f, b) =>
      match drive fuel b with Some (fs, clean) => Some (f :: fs, clean) | None => None end
    | (PollError, _) => Some ([], false)
    | (PollEnd, _) => Some ([], true)
    end
  end.
End body.

(** ** The response *)

Inductive RespBody (E T : Type) :=
| Plain (frames : list (option (Frame T)))
| Compressed (b : CompressBody E T).
Arguments Plain {E T}.
Arguments Compressed {E T}.

Record Resp (M E T : Type) := mkResp { re_status : Z; re_headers : M; re_body : RespBody E T }.
Arguments mkResp {M E T}.
Arguments re_status {M E T}.
Arguments re_headers {M E T}.
Arguments re_body {M E T}.

Section apply.
Context {M : Type} `{HeaderMap M} {E T : Type} `{Codec E}.

Definition compress_response (status : Z) (headers : M) (frames : list (option (Frame T)))
    (request_headers : M) (cfg : CompressionConfig) : Resp M E T :=
  if negb (response_eligible status headers cfg) then mkResp status headers (Plain frames)
  else
    let headers := add_vary_accept_encoding headers in
    match negotiate request_headers (cc_algorithms cfg) with
    | None => mkResp status headers (Plain frames)
    | Some algo =>
      match enc_new algo with
      | None => mkResp status headers (Plain frames)
      | Some encoder =>
        mkResp status (mark_compressed headers algo)
          (Compressed (mkCompressBody frames (Some encoder) []))
      end
    end.

Definition apply_compression (compression : option CompressionConfig) (method : bytes)
    (request_headers : M) (status : Z) (headers : M) (frames : list (option (Frame T))) : Resp M E T :=
  match compression with
  | None => mkResp status headers (Plain frames)
  | Some cfg =>
    if bytes_eqb method (bs "HEAD") then mkResp status headers (Plain frames)
    else compress_response status headers frames request_headers cfg
  end.
End apply.

(** ** Lemmas: weights *)

Lemma digit_range c : is_digit c = true -> 0 <= digit c <= 9.
Proof. unfold is_digit, in_range, digit. intros Hd. bools. lia. Qed.

Lemma parse_qvalue_range s q : parse_qvalue s = Some q -> 0 <= q <= 1000.
Proof.
  unfold parse_qvalue. destruct (match split_once "." s with Some p => p | None => (s, []) end) as [int frac].
  destruct (_ || _) eqn:Eg; [done|]. apply orb_false_iff in Eg as [Hl Hd]. apply Nat.ltb_ge in Hl.
  bools. destruct (bytes_eqb int (bs "0")).
  - intros [= <-]. rewrite forallb_forall in Hd.
    destruct frac as [|a [|b [|c [|d frac]]]]; cbn [thousandths length] in *; try lia;
      repeat match goal with
      | |- context [digit ?x] => pose proof (digit_range x (Hd x ltac:(cbn; tauto))); generalize dependent (digit x); intros
      end; vm_compute Z.div; lia.
  - destruct (bytes_eqb int (bs "1")); [|done]. destruct (forallb (fun b => ascii_eqb b "0") frac); [|done].
    intros E. assert (q = 1000) by congruence. lia.
Qed.

Lemma member_q_range params q r : 0 <= q -> member_q params q = Some r -> 0 <= r.
Proof.
  revert q. induction params as [|p params IH]; intros q Hq; cbn [member_q]; [by intros [= <-]|].
  destruct (split_once _ _) as [[name val]|]; [|done].
  destruct (eq_ignore_ascii_case _ _); [|by apply IH].
  destruct (parse_qvalue _) as [v|] eqn:Ev; [|done]. apply parse_qvalue_range in Ev. apply IH. lia.
Qed.

Lemma parse_member_range member coding q : parse_member member = Some (coding, q) -> 0 <= q.
Proof.
  unfold parse_member. destruct (split_on _ _) as [|c params]; [done|]. case_bool_decide; [done|].
  destruct (member_q params 1000) as [r|] eqn:Er; [|done]. intros [= _ <-].
  eapply member_q_range; [|exact Er]. lia.
Qed.

(** The weight of the last member a test accepts. *)
Definition last_weight (names : bytes -> bool) (ms : list (bytes * Z)) : option Z :=
  list.last (omap (fun m => if names m.1 then Some m.2 else None) ms).

Definition is_star (c : bytes) : bool := bytes_eqb c (bs "*").
Definition is_identity (c : bytes) : bool := eq_ignore_ascii_case c (bs "identity").
Definition is_coding (a : CompressionAlgorithm) (c : bytes) : bool := bool_decide (coding_algo c = Some a).

Lemma last_weight_snoc names ms m :
  last_weight names (ms ++ [m]) = if names m.1 then Some m.2 else last_weight names ms.
Proof.
  unfold last_weight. rewrite omap_app. cbn [omap list_omap]. destruct (names m.1).
  - by rewrite last_snoc.
  - by rewrite app_nil_r.
Qed.

(** The three kinds of member are distinct. *)
Lemma names_disjoint c :
  (is_star c = true -> is_identity c = false /\ coding_algo c = None) /\
  (is_identity c = true -> coding_algo c = None).
Proof.
  split.
  - intros Hs. unfold is_star in Hs. apply bytes_eqb_eq in Hs as ->. done.
  - unfold is_identity, coding_algo, eq_ignore_ascii_case. intros Hi. apply bytes_eqb_eq in Hi. by rewrite Hi.
Qed.

Lemma preferences_spec ms :
  let p := fold_left note_member ms no_preference in
  pr_star p = last_weight is_star ms /\ pr_identity p = last_weight is_identity ms /\
  forall a, slot (pr_explicit p) a = last_weight (is_coding a) ms.
Proof.
  cbv zeta. induction ms as [|[c q] ms IH] using rev_ind; [by repeat split; intros []|].
  rewrite fold_left_app. cbn [fold_left]. set (p := fold_left note_member ms no_preference) in *.
  destruct IH as (Hs & Hi & Hc). setoid_rewrite last_weight_snoc. cbn [fst snd].
  destruct (names_disjoint c) as [Hd1 Hd2]. unfold note_member.
  assert (Hcode : forall a, is_coding a c = bool_decide (coding_algo c = Some a)) by done.
  destruct (is_star c) eqn:Es; unfold is_star in Es; rewrite Es.
  { destruct (Hd1 eq_refl) as [-> Hn]. split_and!; [done|done|].
    intros a. rewrite Hcode, Hn. cbn. apply Hc. }
  destruct (is_identity c) eqn:Ei; unfold is_identity in Ei; rewrite Ei.
  { split_and!; [done|done|]. intros a. rewrite Hcode, (Hd2 eq_refl). cbn. apply Hc. }
  destruct (coding_algo c) as [b|] eqn:Ec; (split; [done|]; split; [done|]); intros a; rewrite Hcode.
  - cbn [pr_explicit]. destruct (decide (a = b)) as [->|Hn].
    + rewrite bool_decide_true by done. by destruct b.
    + rewrite bool_decide_false by congruence. rewrite <- Hc. by destruct a, b.
  - cbn. apply Hc.
Qed.

(** The client's weight of a coding: its own, else the star's, else none. *)
Definition client_q (ms : list (bytes * Z)) (a : CompressionAlgorithm) : Z :=
  default (default 0 (last_weight is_star ms)) (last_weight (is_coding a) ms).

Lemma coding_q_spec ms a : coding_q (fold_left note_member ms no_preference) a = client_q ms a.
Proof.
  destruct (preferences_spec ms) as (Hs & _ & Hc). unfold coding_q, client_q. rewrite Hc, Hs.
  by destruct (last_weight (is_coding a) ms), (last_weight is_star ms).
Qed.

Lemma last_weight_nonneg names ms q : Forall (fun m => 0 <= m.2) ms ->
  last_weight names ms = Some q -> 0 <= q.
Proof.
  intros Hf Hl. unfold last_weight in Hl. apply last_Some in Hl as [l Hl].
  assert (Hin : q ∈ omap (fun m : bytes * Z => if names m.1 then Some m.2 else None) ms).
  { rewrite Hl. apply elem_of_app. right. by apply list_elem_of_singleton. }
  apply list_elem_of_omap in Hin as ([c q'] & Hin & Hq). rewrite Forall_forall in Hf.
  specialize (Hf _ Hin). cbn in *. destruct (names c); naive_solver.
Qed.

Lemma client_q_nonneg ms a : Forall (fun m => 0 <= m.2) ms -> 0 <= client_q ms a.
Proof.
  intros Hf. unfold client_q. destruct (last_weight (is_coding a) ms) eqn:E1; cbn [default].
  { by eapply last_weight_nonneg. }
  destruct (last_weight is_star ms) eqn:E2; cbn [default]; [by eapply last_weight_nonneg|done].
Qed.

(** What the scan over the offered algorithms keeps: the first of the heaviest, if any weighs. *)
Definition is_best (q : CompressionAlgorithm -> Z) (algos : list CompressionAlgorithm)
    (a : CompressionAlgorithm) : Prop :=
  0 < q a /\ (forall b, b ∈ algos -> q b <= q a) /\
  exists before after, algos = before ++ a :: after /\ forall b, b ∈ before -> q b < q a.

Lemma keep_best_spec p q algos : (forall a, coding_q p a = q a) -> (forall a, 0 <= q a) ->
  match fold_left (keep_best p) algos None with
  | Some (bq, a) => bq = q a /\ is_best q algos a
  | None => forall a, a ∈ algos -> q a = 0
  end.
Proof.
  intros Hq Hn. induction algos as [|a algos IH] using rev_ind; [by intros a ?%elem_of_nil|].
  rewrite fold_left_app. cbn [fold_left].
  unfold keep_best at 1. rewrite Hq. specialize (Hn a) as Hna.
  destruct (fold_left (keep_best p) algos None) as [[bq b]|] eqn:Ef.
  - destruct IH as (-> & Hpos & Hmax & before & after & -> & Hfirst).
    assert (Hkeep : q a <= q b -> is_best q ((before ++ b :: after) ++ [a]) b).
    { intros Hle. split_and!; [done| |].
      - intros c [Hc|Hc%list_elem_of_singleton]%elem_of_app; [by apply Hmax|by subst].
      - exists before, (after ++ [a]). split; [by rewrite <- app_assoc|done]. }
    destruct (Z.eqb_spec (q a) 0) as [Hz|Hz]; [split; [done|apply Hkeep; lia]|].
    destruct (Z.ltb_spec (q b) (q a)) as [Hlt|Hge]; [|split; [done|by apply Hkeep]].
    split; [done|]. split_and!; [lia| |].
    + intros c [Hc|Hc%list_elem_of_singleton]%elem_of_app; [|by subst]. specialize (Hmax c Hc). lia.
    + exists (before ++ b :: after), []. split; [done|]. intros c Hc. specialize (Hmax c Hc). lia.
  - destruct (Z.eqb_spec (q a) 0) as [Hz|Hz].
    + intros c [Hc|Hc%list_elem_of_singleton]%elem_of_app; [by apply IH|by subst].
    + split; [done|]. split_and!; [lia| |].
      * intros c [Hc|Hc%list_elem_of_singleton]%elem_of_app; [|by subst]. rewrite (IH c Hc). lia.
      * exists algos, []. split; [done|]. intros c Hc. rewrite (IH c Hc). lia.
Qed.

Lemma is_best_before (q : CompressionAlgorithm -> Z) algos a before after b before' after' :
  algos = before ++ a :: after -> algos = before' ++ b :: after' ->
  (forall c, c ∈ before' -> q c < q b) -> q b <= q a -> (length before' <= length before)%nat.
Proof.
  intros E1 E2 Hf Hle. destruct (Nat.le_gt_cases (length before') (length before)); [done|].
  exfalso. enough (q a < q b) by lia. apply Hf.
  assert (Ha : algos !! length before = Some a) by (by rewrite E1, list_lookup_middle).
  rewrite E2, lookup_app_l in Ha by done. by eapply list_elem_of_lookup_2.
Qed.

Lemma is_best_unique q algos a b : is_best q algos a -> is_best q algos b -> a = b.
Proof.
  intros (_ & Ha & l1 & r1 & E1 & F1) (_ & Hb & l2 & r2 & E2 & F2).
  assert (a ∈ algos) by (rewrite E1; apply elem_of_app; right; left).
  assert (b ∈ algos) by (rewrite E2; apply elem_of_app; right; left).
  pose proof (is_best_before q algos a l1 r1 b l2 r2 E1 E2 F2 (Ha b ltac:(done))).
  pose proof (is_best_before q algos b l2 r2 a l1 r1 E2 E1 F1 (Hb a ltac:(done))).
  assert (El : length l1 = length l2) by lia.
  pose proof (list_lookup_middle l1 r1 a _ eq_refl) as La. pose proof (list_lookup_middle l2 r2 b _ eq_refl) as Lb.
  rewrite <- E1 in La. rewrite <- E2, <- El in Lb. congruence.
Qed.

(** ** Lemmas: the stream *)

(** How an encoder was driven: from a fresh one, the inputs and the outputs. *)
Inductive codes {E} `{Codec E} (a : CompressionAlgorithm) : E -> list bytes -> list bytes -> Prop :=
| CodesNew e : enc_new a = Some e -> codes a e [] []
| CodesWrite e e' ins outs data out : codes a e ins outs ->
    enc_write_flush e data = Some (out, e') -> codes a e' (ins ++ [data]) (outs ++ [out]).

(** A finished coded stream decodes to what was written. *)
Class CodecLaws (E : Type) `{Codec E} (decode : CompressionAlgorithm -> bytes -> option bytes) : Prop :=
  codec_decodes : forall a e ins outs out, codes a e ins outs -> enc_finish e = Some out ->
    decode a (concat outs ++ out) = Some (concat ins).

(** What the inner body delivers: its data up to the trailers, the trailers, and whether it
    ended without a stream error. *)
Fixpoint delivered {T} (inner : list (option (Frame T))) : list bytes * option T * bool :=
  match inner with
  | [] => ([], None, true)
  | None :: _ => ([], None, false)
  | Some (Trailers t) :: _ => ([], Some t, true)
  | Some (Data d) :: inner => let '(ds, t, ok) := delivered inner in (d :: ds, t, ok)
  end.

Definition frame_data {T} (f : Frame T) : bytes := match f with Data d => d | Trailers _ => [] end.

(** Only non-empty data frames, then the trailers. *)
Definition well_framed {T} (fs : list (Frame T)) (t : option T) : Prop :=
  exists outs, fs = map Data outs ++ match t with Some t => [Trailers t] | None => [] end /\
    Forall (fun o => o <> []) outs.

Section stream.
Context {E T : Type} `{Codec E} (decode : CompressionAlgorithm -> bytes -> option bytes).
Context `{!CodecLaws E decode} (a : CompressionAlgorithm).
Notation drive := (drive (E := E) (T := T)).

(** The codec never fails. *)
Definition codec_total : Prop :=
  (forall (e : E) data, is_Some (enc_write_flush e data)) /\ forall e : E, is_Some (enc_finish e).

(** A run from an encoder that was given [ins] and gave [outs]. *)
Definition stream_ok (inner : list (option (Frame T))) (ins outs : list bytes) (fs : list (Frame T))
    (clean : bool) : Prop :=
  let '(ds, t, ok) := delivered inner in
  (clean = true -> ok = true /\ well_framed fs t /\
     decode a (concat outs ++ concat (map frame_data fs)) = Some (concat ins ++ concat ds)) /\
  (ok = true -> codec_total -> clean = true) /\
  (clean = false -> well_framed fs None).

Lemma drive_S fuel inner enc queue :
  drive (S fuel) (mkCompressBody inner enc queue) =
    match poll_frame inner enc queue with
    | (PollFrame f, b) =>
      match drive fuel b with Some (fs, clean) => Some (f :: fs, clean) | None => None end
    | (PollError, _) => Some ([], false)
    | (PollEnd, _) => Some ([], true)
    end.
Proof. done. Qed.

Lemma drive_frame fuel inner enc f queue :
  drive (S fuel) (mkCompressBody inner enc (f :: queue))
  = match drive fuel (mkCompressBody inner enc queue) with
    | Some (fs, clean) => Some (f :: fs, clean)
    | None => None
    end.
Proof. by destruct inner, enc. Qed.

Lemma drive_end fuel inner : drive (S fuel) (mkCompressBody inner None []) = Some ([], true).
Proof. by destruct inner. Qed.

Lemma well_framed_data (out : bytes) fs t : out <> [] -> well_framed fs t ->
  well_framed (T := T) (Data out :: fs) t.
Proof.
  intros Ho (outs & -> & Hf). exists (out :: outs). split; [done|by constructor].
Qed.

(** One data frame of the inner body, encoded to [out], before the rest. *)
Lemma stream_ok_data data out inner ins outs fs clean :
  stream_ok inner (ins ++ [data]) (outs ++ [out]) fs clean ->
  stream_ok (Some (Data data) :: inner) ins outs (data_frame out ++ fs) clean.
Proof.
  unfold stream_ok. cbn [delivered]. destruct (delivered inner) as [[ds t] ok].
  intros (H1 & H2 & H3). split_and!; [|done|].
  - intros Hc. destruct (H1 Hc) as (Hok & Hw & Hd). split; [done|].
    rewrite !concat_app in Hd. cbn [concat] in Hd. rewrite !app_nil_r, <- !app_assoc in Hd.
    destruct out as [|x out]; cbn [data_frame app map frame_data concat]; [done|].
    split; [by apply well_framed_data|done].
  - intros Hc. destruct out; [by apply H3|]. by apply well_framed_data, H3.
Qed.

Lemma drive_ends_ok fuel e ins outs : codes a e ins outs -> (2 <= fuel)%nat ->
  exists fs clean, drive fuel (mkCompressBody [] (Some e) []) = Some (fs, clean) /\ stream_ok [] ins outs fs clean.
Proof.
  intros Hc Hf. destruct fuel as [|fuel]; [lia|]. cbn [drive cb_inner cb_encoder cb_queue poll_frame].
  destruct (enc_finish e) as [[|x out]|] eqn:Ef.
  - eexists [], true. split; [done|]. unfold stream_ok. cbn [delivered]. split_and!; [|done|done].
    intros _. split; [done|]. split; [by exists []|].
    cbn [map concat]. rewrite (app_nil_r (concat ins)). exact (codec_decodes _ _ _ _ _ Hc Ef).
  - destruct fuel as [|fuel]; [lia|]. rewrite drive_end. eexists _, _. split; [done|]. unfold stream_ok. cbn [delivered]. split_and!; [|done|done].
    intros _. split; [done|]. split; [apply well_framed_data; [done|by exists []]|].
    cbn [map frame_data concat]. rewrite !app_nil_r. exact (codec_decodes _ _ _ _ _ Hc Ef).
  - eexists [], false. split; [done|]. unfold stream_ok. cbn [delivered]. split_and!; [done| |by exists []].
    intros _ [_ Ht]. destruct (Ht e) as [? Hs]. congruence.
Qed.

Lemma drive_trailers_ok fuel t inner e ins outs : codes a e ins outs -> (3 <= fuel)%nat ->
  exists fs clean, drive fuel (mkCompressBody (Some (Trailers t) :: inner) (Some e) []) = Some (fs, clean) /\
    stream_ok (Some (Trailers t) :: inner) ins outs fs clean.
Proof.
  intros Hc Hf. destruct fuel as [|[|[|fuel]]]; try lia. destruct (enc_finish e) as [out|] eqn:Ef.
  - eexists (data_frame out ++ [Trailers t]), true. split.
    { rewrite drive_S. cbn [poll_frame]. rewrite Ef. destruct inner;
        (destruct out as [|x out]; cbn [data_frame app poll_frame]; [by rewrite drive_end|]);
        by rewrite drive_frame, drive_end. }
    unfold stream_ok. cbn [delivered]. split_and!; [|done|done]. intros _. split; [done|].
    pose proof (codec_decodes _ _ _ _ _ Hc Ef) as Hdec. split.
    + destruct out; [by exists []|]. apply well_framed_data; [done|by exists []].
    + destruct out; cbn [data_frame app map frame_data concat]; rewrite ?app_nil_r in *; exact Hdec.
  - eexists [], false. split; [cbn [drive cb_inner cb_encoder cb_queue poll_frame]; by rewrite Ef|].
    unfold stream_ok. cbn [delivered]. split_and!; [done| |by exists []].
    intros _ [_ Ht]. destruct (Ht e) as [? Hs]. congruence.
Qed.

Lemma drive_ok inner : forall fuel e ins outs, codes a e ins outs -> (length inner + 2 <= fuel)%nat ->
  exists fs clean, drive fuel (mkCompressBody inner (Some e) []) = Some (fs, clean) /\
    stream_ok inner ins outs fs clean.
Proof.
  induction inner as [|[[data|t]|] inner IH]; intros [|fuel] e ins outs Hc Hf; cbn [length] in Hf; try lia.
  - (* the end *)
    apply (drive_ends_ok (S fuel)); [done|lia].
  - (* data *)
    destruct (decide (data = [])) as [->|Hd].
    + destruct (IH (S fuel) e ins outs Hc ltac:(lia)) as (fs & clean & Hr & Hs). exists fs, clean.
      split; [exact Hr|]. unfold stream_ok in *. cbn [delivered].
      by destruct (delivered inner) as [[ds t] ok].
    + assert (Hp : poll_frame (Some (Data data) :: inner) (Some e) [] = match enc_write_flush e data with
        | Some (out, e') => poll_frame inner (Some e') (data_frame (T := T) out)
        | None => (PollError, mkCompressBody inner (Some e) []) end)
        by (cbn [poll_frame]; by rewrite bool_decide_false).
      destruct (enc_write_flush e data) as [[out e']|] eqn:Ew.
      * pose proof (CodesWrite a e e' ins outs data out Hc Ew) as Hc'.
        destruct out as [|x out].
        -- destruct (IH (S fuel) e' _ _ Hc' ltac:(lia)) as (fs & clean & Hr & Hs). exists fs, clean.
           split; [cbn [drive cb_inner cb_encoder cb_queue]; rewrite Hp; exact Hr|].
           exact (stream_ok_data data [] inner _ _ _ _ Hs).
        -- destruct (IH fuel e' _ _ Hc' ltac:(lia)) as (fs & clean & Hr & Hs).
           eexists (Data (x :: out) :: fs), clean. split.
           { cbn [drive cb_inner cb_encoder cb_queue]. rewrite Hp. cbn [data_frame].
             pose proof (drive_frame fuel inner (Some e') (Data (x :: out)) []) as Hd'.
             rewrite Hr in Hd'. exact Hd'. }
           exact (stream_ok_data data (x :: out) inner _ _ _ _ Hs).
      * eexists [], false. split; [cbn [drive cb_inner cb_encoder cb_queue]; by rewrite Hp|].
        unfold stream_ok. cbn [delivered]. destruct (delivered inner) as [[ds t] ok].
        split_and!; [done| |by exists []]. intros _ [Ht _]. destruct (Ht e data) as [? Hs]. congruence.
  - (* trailers *)
    apply (drive_trailers_ok (S fuel) t inner); [done|lia].
  - (* a stream error *)
    eexists [], false. split; [done|]. unfold stream_ok. cbn [delivered]. split_and!; [done|done|by exists []].
Qed.
End stream.

(** ** Lemmas: headers *)

(** Decide the equalities of the concrete header names. *)
Ltac known :=
  repeat match goal with
  | |- context [bool_decide (?a = ?b)] =>
    first [rewrite (bool_decide_true (a = b)) by reflexivity
          |rewrite (bool_decide_false (a = b)) by (vm_compute; discriminate)]
  end; cbn [orb].

Section headers.
Context {M : Type} `{HeaderMapLaws M}.

Lemma add_vary_all (m : M) :
  (hm_get_all (add_vary_accept_encoding m) H_VARY = hm_get_all m H_VARY \/
   hm_get_all (add_vary_accept_encoding m) H_VARY = hm_get_all m H_VARY ++ [bs "accept-encoding"]) /\
  forall n, n <> H_VARY -> hm_get_all (add_vary_accept_encoding m) n = hm_get_all m n.
Proof.
  unfold add_vary_accept_encoding. cbv zeta. destruct (existsb _ _); [by split; [left|]|].
  split; [right; by rewrite hm_append_all, bool_decide_true|].
  intros n Hn. by rewrite hm_append_all, bool_decide_false, app_nil_r.
Qed.

(** The three unconditional edits. *)
Definition unframed (m : M) (algo : CompressionAlgorithm) : M :=
  hm_remove (hm_remove (hm_insert m H_CONTENT_ENCODING (token algo)) CONTENT_LENGTH) H_ACCEPT_RANGES.

Lemma mark_compressed_other (m : M) algo n : n <> H_ETAG ->
  hm_get_all (mark_compressed m algo) n = hm_get_all (unframed m algo) n.
Proof.
  intros Hn. unfold mark_compressed. fold (unframed m algo). cbv zeta.
  destruct (hm_get (unframed m algo) H_ETAG); [|done]. destruct (starts_with _ _); [done|].
  destruct (parse_value _); by rewrite ?hm_insert_all, ?hm_remove_all, bool_decide_false.
Qed.

Lemma unframed_all (m : M) algo n :
  hm_get_all (unframed m algo) n =
    if bool_decide (n = H_ACCEPT_RANGES) || bool_decide (n = CONTENT_LENGTH) then []
    else if bool_decide (n = H_CONTENT_ENCODING) then [token algo] else hm_get_all m n.
Proof.
  unfold unframed. rewrite !hm_remove_all, hm_insert_all. by repeat case_bool_decide.
Qed.

Lemma mark_compressed_etag (m : M) algo v :
  hm_get (mark_compressed m algo) H_ETAG = Some v -> starts_with (bs "W/") v = true.
Proof.
  unfold mark_compressed. fold (unframed m algo). cbv zeta.
  destruct (hm_get (unframed m algo) H_ETAG) as [etag|] eqn:Ee; [|congruence].
  destruct (starts_with (bs "W/") etag) eqn:Es; [congruence|].
  destruct (parse_value (bs "W/" ++ etag)) as [w|] eqn:Ep; unfold hm_get.
  - apply parse_value_same in Ep as ->. rewrite hm_insert_all, bool_decide_true by done.
    by intros [= <-].
  - by rewrite hm_remove_all, bool_decide_true.
Qed.
End headers.

(** ** Properties *)

(** Negotiation follows the client's weights: a coding is chosen exactly when the client
    sent [Accept-Encoding] and the coding is, among those the route offers, the first of the
    heaviest, with a positive weight (its last well-formed mention, else the star's), and not
    outweighed by an explicit [identity]. *)
Theorem negotiate_exact {M : Type} `{HeaderMap M} (request : M) (algos : list CompressionAlgorithm)
    (a : CompressionAlgorithm) :
  let ms := omap parse_member (members request H_ACCEPT_ENCODING) in
  negotiate request algos = Some a <->
  hm_get_all request H_ACCEPT_ENCODING <> [] /\ is_best (client_q ms) algos a /\
  (forall iq, last_weight is_identity ms = Some iq -> iq <= client_q ms a).
Proof.
  cbv zeta. set (ms := omap parse_member (members request H_ACCEPT_ENCODING)).
  assert (Hms : Forall (fun m => 0 <= m.2) ms).
  { apply Forall_forall. intros [c q] (m & _ & Hm)%list_elem_of_omap. by eapply parse_member_range. }
  unfold negotiate. case_bool_decide as Hh; [by split; [done|intros [? _]]|].
  unfold preferences. fold ms. set (p := fold_left note_member ms no_preference).
  pose proof (keep_best_spec p (client_q ms) algos (coding_q_spec ms) (fun b => client_q_nonneg ms b Hms)) as Hk.
  destruct (preferences_spec ms) as (_ & Hi & _). fold p in Hi. rewrite Hi.
  destruct (fold_left (keep_best p) algos None) as [[bq b]|].
  - destruct Hk as [-> Hb]. destruct (last_weight is_identity ms) as [iq|].
    + destruct (Z.ltb_spec (client_q ms b) iq) as [Hlt|Hge].
      * split; [done|]. intros (_ & Ha & Hle). specialize (Hle iq eq_refl).
        rewrite (is_best_unique _ _ _ _ Ha Hb) in Hle. lia.
      * split; [intros [= <-]; split_and!; [done|done|by intros ? [= <-]]|].
        intros (_ & Ha & _). f_equal. exact (is_best_unique _ _ _ _ Hb Ha).
    + split; [intros [= <-]; by split_and!|]. intros (_ & Ha & _). f_equal.
      exact (is_best_unique _ _ _ _ Hb Ha).
  - split; [done|]. intros (_ & (Hpos & _ & before & after & -> & _) & _).
    rewrite Hk in Hpos; [lia|]. apply elem_of_app. right. left.
Qed.

(** The compressed body is the identity body: however the upstream frames its data, the
    body handed to the client ends, cleanly only if the upstream's did, and then it is
    non-empty coded frames that decode to exactly the upstream's data, followed by its
    trailers; an upstream error or a codec failure is never turned into a clean end. *)
Theorem compressed_stream_decodes {E T : Type} `{Codec E}
    (decode : CompressionAlgorithm -> bytes -> option bytes) `{!CodecLaws E decode}
    (a : CompressionAlgorithm) (e : E) (inner : list (option (Frame T))) (fuel : nat) :
  enc_new a = Some e -> (length inner + 2 <= fuel)%nat ->
  let '(ds, t, ok) := delivered inner in
  exists fs clean, drive fuel (mkCompressBody inner (Some e) []) = Some (fs, clean) /\
    (clean = true -> ok = true /\ well_framed fs t /\
       decode a (concat (map frame_data fs)) = Some (concat ds)) /\
    (ok = true -> codec_total (E := E) -> clean = true) /\
    (clean = false -> well_framed fs None).
Proof.
  intros He Hf. destruct (drive_ok decode a inner fuel e [] [] (CodesNew a e He) Hf) as (fs & clean & Hd & Hs).
  unfold stream_ok in Hs. destruct (delivered inner) as [[ds t] ok]. by exists fs, clean.
Qed.

(** Compressing a response commits its headers: only an eligible response, to a request
    that is not [HEAD] and negotiated a coding, is compressed; then it says exactly that
    coding, no length and no byte ranges, its validator is weak, and [Vary] is extended at
    most once; otherwise the body is the upstream's and the headers are too, [Vary] apart. *)
Theorem compression_commits {M : Type} `{HeaderMapLaws M} {E T : Type} `{Codec E}
    (compression : option CompressionConfig) (method : bytes) (request_headers : M) (status : Z)
    (headers : M) (frames : list (option (Frame T))) :
  let r : Resp M E T := apply_compression compression method request_headers status headers frames in
  let value := hm_get_all (re_headers r) in
  re_status r = status /\
  (value H_VARY = hm_get_all headers H_VARY \/
   value H_VARY = hm_get_all headers H_VARY ++ [bs "accept-encoding"]) /\
  match re_body r with
  | Plain frames' => frames' = frames /\
      forall n, n <> H_VARY -> value n = hm_get_all headers n
  | Compressed b => exists cfg algo e,
      compression = Some cfg /\ method <> bs "HEAD" /\
      response_eligible status headers cfg = true /\
      negotiate request_headers (cc_algorithms cfg) = Some algo /\ enc_new algo = Some e /\
      b = mkCompressBody frames (Some e) [] /\
      value H_CONTENT_ENCODING = [token algo] /\ value CONTENT_LENGTH = [] /\
      value H_ACCEPT_RANGES = [] /\
      (forall v, hm_get (re_headers r) H_ETAG = Some v -> starts_with (bs "W/") v = true) /\
      (forall n, n ∉ [H_VARY; H_CONTENT_ENCODING; CONTENT_LENGTH; H_ACCEPT_RANGES; H_ETAG] ->
         value n = hm_get_all headers n)
  end.
Proof.
  cbv zeta. unfold apply_compression, compress_response.
  assert (Hplain : forall h : M, h = headers \/ h = add_vary_accept_encoding headers ->
    (hm_get_all h H_VARY = hm_get_all headers H_VARY \/
     hm_get_all h H_VARY = hm_get_all headers H_VARY ++ [bs "accept-encoding"]) /\
    forall n, n <> H_VARY -> hm_get_all h n = hm_get_all headers n).
  { intros h [-> | ->]; [by split; [left|]|apply add_vary_all]. }
  destruct compression as [cfg|]; [|split; [done|]; split; [by left|done]].
  destruct (bytes_eqb method (bs "HEAD")) eqn:Em; [split; [done|]; split; [by left|done]|].
  destruct (response_eligible status headers cfg) eqn:Ee; cbn [negb]; [|split; [done|]; split; [by left|done]].
  destruct (Hplain _ (or_intror eq_refl)) as [Hv Ho].
  destruct (negotiate request_headers (cc_algorithms cfg)) as [algo|] eqn:En; [|by split_and!].
  destruct (enc_new algo) as [e|] eqn:Ec; [|by split_and!]. cbn [re_status re_headers re_body].
  set (h := add_vary_accept_encoding headers) in *. split; [done|]. split.
  { rewrite mark_compressed_other, unframed_all by done. known. exact Hv. }
  exists cfg, algo, e. split_and!; try done.
  - intros ->. by rewrite (proj2 (bytes_eqb_eq _ _) eq_refl) in Em.
  - rewrite mark_compressed_other, unframed_all by done. by known.
  - rewrite mark_compressed_other, unframed_all by done. by known.
  - rewrite mark_compressed_other, unframed_all by done. by known.
  - apply mark_compressed_etag.
  - intros n Hn. rewrite !not_elem_of_cons in Hn. destruct Hn as (? & ? & ? & ? & ? & _).
    rewrite mark_compressed_other, unframed_all by done.
    rewrite (bool_decide_false (n = H_ACCEPT_RANGES)), (bool_decide_false (n = CONTENT_LENGTH)),
      (bool_decide_false (n = H_CONTENT_ENCODING)) by done. by apply Ho.
Qed.

(** ** Witnesses: a codec that marks the end of what it wrote *)

#[local] Existing Instance alist_headers.
#[local] Existing Instance alist_laws.

#[local] Instance mark_codec : Codec unit := {|
  enc_new _ := Some tt;
  enc_write_flush e data := Some (data, e);
  enc_finish _ := Some (bs "$") |}.

Definition mark_decode (_ : CompressionAlgorithm) (s : bytes) : option bytes :=
  if ends_with_byte "$" s then Some (removelast s) else None.

#[local] Instance mark_laws : CodecLaws unit mark_decode.
Proof.
  intros a e ins outs out Hc [= <-]. assert (Heq : concat outs = concat ins).
  { induction Hc as [|e e' ins outs data out _ IH Hw]; [done|]. cbn in Hw. injection Hw as <- _.
    by rewrite !concat_app, IH. }
  rewrite Heq. unfold mark_decode, ends_with_byte. rewrite last_snoc, ascii_eqb_refl.
  by rewrite removelast_last.
Qed.

Lemma compressed_stream_decodes_witness :
  drive 6 (mkCompressBody [Some (Data (bs "ab")); Some (Data []); Some (Data (bs "c")); Some (Trailers 7)]
    (Some tt) []) = Some ([Data (bs "ab"); Data (bs "c"); Data (bs "$"); Trailers 7], true) /\
  mark_decode Gzip (bs "abc$") = Some (bs "abc").
Proof.
  split; [vm_compute; reflexivity|].
  assert (Hnew : enc_new (E := unit) Gzip = Some tt) by reflexivity.
  destruct (compressed_stream_decodes (E := unit) mark_decode Gzip tt
    [Some (Data (bs "ab")); Some (Data []); Some (Data (bs "c")); Some (Trailers 7)] 6 Hnew ltac:(cbn; lia))
    as (fs & clean & Hd & H1 & H2 & _).
  assert (E : Some (fs, clean) = Some ([Data (bs "ab"); Data (bs "c"); Data (bs "$"); Trailers 7], true)).
  { rewrite <- Hd. vm_compute. reflexivity. }
  injection E as -> ->. destruct (H1 eq_refl) as (_ & _ & Hdec). exact Hdec.
Defined.

Definition demo_request : list (bytes * bytes) :=
  [(bs "accept-encoding", bs "gzip;q=0.8, br;q=0.8, identity;q=0.5"); (bs "accept-encoding", bs "zstd;q=x")].
Definition demo_response : list (bytes * bytes) :=
  [(bs "content-type", bs "text/html; charset=utf-8"); (bs "content-length", bs "4096");
   (bs "etag", bs "abc")].

Example negotiated : negotiate demo_request [Zstd; Br; Gzip] = Some Br.
Proof. vm_compute. reflexivity. Qed.

Definition demo_compressed : Resp (list (bytes * bytes)) unit unit :=
  apply_compression (Some (compression_new (mkCompression [Zstd; Br; Gzip] 1024 [bs "text/html"])))
    (bs "GET") demo_request 200 demo_response [].

Lemma compression_commits_witness :
  re_headers demo_compressed =
    [(bs "content-type", bs "text/html; charset=utf-8"); (bs "vary", bs "accept-encoding");
     (bs "content-encoding", bs "br"); (bs "etag", bs "W/abc")] /\
  re_status demo_compressed = 200.
Proof.
  split; [vm_compute; reflexivity|].
  by destruct (compression_commits (E := unit) (T := unit)
    (Some (compression_new (mkCompression [Zstd; Br; Gzip] 1024 [bs "text/html"])))
    (bs "GET") demo_request 200 demo_response []) as [Hs _].
Defined.
