(* ===== verification/Body.v ===== *)
(** * Message bodies (server/src/body.rs)

    A body is the list of the frames its stream delivers, [None] for a stream error.  The
    bounded buffering of both directions, the re-attached prefix of an over-cap response, and
    the wrapper that keeps a reservation alive as long as the bytes it accounts for. *)

From S2P Require Import Prelude Bytes Chain Compression.

(** ** Buffering *)

Definition MAX_INFLIGHT_BODY_BUFFER_BYTES : Z := Z.shiftl 1 30.
Definition INBOUND_BODY_READ_TIMEOUT_MS : Z := 30 * 1000.
Definition UPSTREAM_BODY_READ_TIMEOUT_MS : Z := 30 * 1000.

Section buffering.
Context {T : Type}.
Notation Stream := (list (option (Frame T))).

(** [full]: a [Full] body yields its bytes as one frame, none when it is empty. *)
Definition full (content : bytes) : Stream :=
  match content with [] => [] | _ => [Some (Data content)] end.

Inductive BufferOutcome := BoBuffered (body : bytes) | BoTooLarge | BoReadError.

(** [max] is a [usize]; [buf] is what the loop has read so far. *)
Fixpoint buffer_request_loop (body : Stream) (max : Z) (buf : bytes) : BufferOutcome :=
  match body with
  | [] => BoBuffered buf
  | None :: _ => BoReadError
  | Some (Data data) :: body =>
    if max <? blen buf + blen data then BoTooLarge
    else buffer_request_loop body max (buf ++ data)
  | Some (Trailers _) :: body => buffer_request_loop body max buf
  end.

Definition buffer_request_body (body : Stream) (max : Z) : BufferOutcome :=
  buffer_request_loop body max [].

Definition prefixed (prefix : bytes) (rest : Stream) : Stream := Some (Data prefix) :: rest.

Inductive ResponseBufferOutcome :=
| SbBuffered (body : bytes)
| SbOverCap (head : bytes) (rest : Stream)
| SbReadError.

Fixpoint buffer_response_loop (body : Stream) (max : Z) (buf : bytes) : ResponseBufferOutcome :=
  match body with
  | [] => SbBuffered buf
  | None :: _ => SbReadError
  | Some (Data data) :: body =>
    let room := saturating_sub max (blen buf) in
    if room <? blen data
    then SbOverCap (buf ++ take (Z.to_nat room) data) (prefixed (drop (Z.to_nat room) data) body)
    else buffer_response_loop body max (buf ++ data)
  | Some (Trailers _) :: body => buffer_response_loop body max buf
  end.

Definition buffer_response_body (body : Stream) (max : Z) : ResponseBufferOutcome :=
  buffer_response_loop body max [].
End buffering.

(** The size hint of a stream with its re-attached prefix: lower bound and optional upper. *)
Definition prefixed_size_hint (prefix : option bytes) (rest : Z * option Z) : Z * option Z :=
  match prefix with
  | None => rest
  | Some p =>
    (saturating_add64 rest.1 (blen p),
     match rest.2 with Some u => Some (saturating_add64 u (blen p)) | None => None end)
  end.

Definition prefixed_is_end_stream (prefix : option bytes) (rest_ended : bool) : bool :=
  match prefix with None => rest_ended | Some _ => false end.

(** ** Reservations held by a body

    [RequestPermittedBody], [BudgetedBody] and the request side's [PermittedRequestBody] are
    the same adapter around an inner body and a reservation. *)

Record Permitted (T : Type) := mkPermitted { pm_inner : list (option (Frame T)); pm_permit : bool }.
Arguments mkPermitted {T}.
Arguments pm_inner {T}.
Arguments pm_permit {T}.

Section permitted.
Context {T : Type}.

Definition hold_request_permit (body : list (option (Frame T))) : Permitted T := mkPermitted body true.
Definition hold_budget (body : list (option (Frame T))) : Permitted T := mkPermitted body true.
Definition permit_request_body (body : list (option (Frame T))) : Permitted T := mkPermitted body true.

(** A poll's result, the adapter after it, and whether the frame carries a reference to the
    reservation ([bytes_with_permit]). *)
Definition permitted_poll (b : Permitted T) : Poll T * bool * Permitted T :=
  if pm_permit b then
    match pm_inner b with
    | Some (Data data) :: inner => (PollFrame (Data data), true, mkPermitted inner true)
    | Some (Trailers t) :: inner => (PollFrame (Trailers t), false, mkPermitted inner true)
    | None :: _ => (PollError, false, mkPermitted [] false)
    | [] => (PollEnd, false, mkPermitted [] false)
    end
  else (PollEnd, false, b).

Definition permitted_is_end_stream (b : Permitted T) (inner_ended : bool) : bool :=
  negb (pm_permit b) || inner_ended.

(** The reservation is shared by the adapter and the data frames handed out; a transport may
    keep those frames after the adapter is gone. *)
Record Holding := mkHolding { hd_body : option (Permitted T); hd_frames : list bytes }.

Definition owners (s : Holding) : Z :=
  (match hd_body s with Some b => if pm_permit b then 1 else 0 | None => 0 end)
  + Z.of_nat (length (hd_frames s)).

Inductive holding_step : Holding -> Holding -> Prop :=
| HoldPoll b p carries b' frames : permitted_poll b = (p, carries, b') ->
    holding_step (mkHolding (Some b) frames)
      (mkHolding (Some b') (match p with PollFrame (Data d) => d :: frames | _ => frames end))
| HoldDropBody b frames : holding_step (mkHolding (Some b) frames) (mkHolding None frames)
| HoldDropFrame body pre d post :
    holding_step (mkHolding body (pre ++ d :: post)) (mkHolding body (pre ++ post)).

Definition start_holding (body : list (option (Frame T))) : Holding :=
  mkHolding (Some (hold_request_permit body)) [].
End permitted.
Arguments Holding : clear implicits.

(** ** What a stream delivers *)

Section streams.
Context {T : Type}.
Notation Stream := (list (option (Frame T))).

(** The data before the first stream error, and whether there is one. *)
Fixpoint stream_data (body : Stream) : bytes :=
  match body with
  | [] | None :: _ => []
  | Some (Data d) :: body => d ++ stream_data body
  | Some (Trailers _) :: body => stream_data body
  end.

Fixpoint stream_fails (body : Stream) : bool :=
  match body with
  | [] => false
  | None :: _ => true
  | Some _ :: body => stream_fails body
  end.

Lemma full_data (content : bytes) :
  stream_data (@full T content) = content /\ stream_fails (@full T content) = false.
Proof. destruct content; cbn; [done|]. by rewrite app_nil_r. Qed.

Lemma prefixed_data (prefix : bytes) (rest : Stream) :
  stream_data (prefixed prefix rest) = prefix ++ stream_data rest /\
  stream_fails (prefixed prefix rest) = stream_fails rest.
Proof. done. Qed.

Lemma blen_app (a b : bytes) : blen (a ++ b) = blen a + blen b.
Proof. unfold blen. rewrite length_app. lia. Qed.

Lemma buffer_request_loop_spec (body : Stream) (max : Z) : forall buf, blen buf <= max ->
  match buffer_request_loop body max buf with
  | BoBuffered b => b = buf ++ stream_data body /\ stream_fails body = false /\ blen b <= max
  | BoTooLarge => max < blen buf + blen (stream_data body)
  | BoReadError => stream_fails body = true /\ blen buf + blen (stream_data body) <= max
  end.
Proof.
  induction body as [|[[data|t]|] body IH]; intros buf Hbuf; cbn.
  - rewrite app_nil_r. done.
  - destruct (Z.ltb_spec max (blen buf + blen data)) as [Hlt|Hge].
    + rewrite blen_app. unfold blen in *. lia.
    + specialize (IH (buf ++ data) ltac:(rewrite blen_app; lia)).
      rewrite !blen_app in IH. rewrite blen_app. rewrite <- app_assoc in IH.
      destruct buffer_request_loop; [done|lia|]. split; [easy|lia].
  - by apply IH.
  - split; [done|]. unfold blen in *. cbn. lia.
Qed.

Lemma buffer_response_loop_spec (body : Stream) (max : Z) : forall buf, blen buf <= max ->
  match buffer_response_loop body max buf with
  | SbBuffered b => b = buf ++ stream_data body /\ stream_fails body = false /\ blen b <= max
  | SbOverCap head rest => blen head = max /\ head ++ stream_data rest = buf ++ stream_data body /\
      stream_data rest <> [] /\ stream_fails rest = stream_fails body
  | SbReadError => stream_fails body = true /\ blen buf + blen (stream_data body) <= max
  end.
Proof.
  induction body as [|[[data|t]|] body IH]; intros buf Hbuf; cbn [buffer_response_loop stream_data stream_fails].
  - rewrite app_nil_r. done.
  - destruct (Z.ltb_spec (saturating_sub max (blen buf)) (blen data)) as [Hlt|Hge].
    + unfold saturating_sub in *. rewrite Z.max_l in * by lia.
      cbn [prefixed stream_data stream_fails].
      rewrite blen_app, <- app_assoc, (app_assoc (take _ _)), take_drop.
      unfold blen in *. rewrite length_take. split_and!; [lia|done| |done].
      intros E. apply app_eq_nil in E as [E _]. apply (f_equal length) in E.
      rewrite length_drop in E. cbn in E. lia.
    + unfold saturating_sub in *. rewrite Z.max_l in * by lia.
      specialize (IH (buf ++ data) ltac:(rewrite blen_app; lia)).
      rewrite !blen_app, <- app_assoc in IH. rewrite blen_app.
      destruct buffer_response_loop; [done|done|]. split; [easy|lia].
  - by apply IH.
  - split; [done|]. unfold blen in *. cbn. lia.
Qed.
End streams.

(** ** The adapters' streams and size hints

    A hint is a lower bound and an optional upper bound of the data left. *)

Section adapters.
Context {T : Type}.
Notation Stream := (list (option (Frame T))).

(** One poll of a stream that is ready. *)
Definition frames_poll (body : Stream) : Poll T * Stream :=
  match body with
  | [] => (PollEnd, [])
  | Some frame :: body => (PollFrame frame, body)
  | None :: body => (PollError, body)
  end.

Record PrefixedBody := mkPrefixed { pb_prefix : option bytes; pb_rest : Stream }.

Definition prefixed_poll (b : PrefixedBody) : Poll T * PrefixedBody :=
  match pb_prefix b with
  | Some prefix => (PollFrame (Data prefix), mkPrefixed None (pb_rest b))
  | None => let '(poll, rest) := frames_poll (pb_rest b) in (poll, mkPrefixed None rest)
  end.

(** [size_hint] of the adapters that hold a reservation; [inner] is the inner body's. *)
Definition permitted_size_hint (b : Permitted T) (inner : Z * option Z) : Z * option Z :=
  if pm_permit b then inner else (0, Some 0).

Definition budgeted_size_hint (b : Permitted T) (inner : Z * option Z) : Z * option Z := inner.

Definition hint_holds (hint : Z * option Z) (body : Stream) : Prop :=
  stream_fails body = false -> hint.1 <= blen (stream_data body) /\ forall u, hint.2 = Some u -> blen (stream_data body) <= u.

(** The stream a prefixed body stands for. *)
Definition prefixed_stream (b : PrefixedBody) : Stream :=
  match pb_prefix b with Some prefix => prefixed prefix (pb_rest b) | None => pb_rest b end.

(** The re-attached prefix is transparent.  Polling the adapter is polling the stream with the prefix
    in front, it reports its end only when that stream is empty, and its hint is a sound one whenever
    the rest's is, saturation included. *)
Theorem prefixed_transparent (b : PrefixedBody) (hint : Z * option Z) (ended : bool) :
  hint_holds hint (pb_rest b) -> blen (stream_data (prefixed_stream b)) < 2 ^ 64 -> (ended = true -> pb_rest b = []) ->
  (let '(poll, b') := prefixed_poll b in frames_poll (prefixed_stream b) = (poll, prefixed_stream b')) /\
  (prefixed_is_end_stream (pb_prefix b) ended = true -> prefixed_stream b = []) /\
  hint_holds (prefixed_size_hint (pb_prefix b) hint) (prefixed_stream b).
Proof.
  destruct b as [[prefix|] rest]; unfold prefixed_poll, prefixed_stream, prefixed_is_end_stream, prefixed_size_hint;
    cbn [pb_prefix pb_rest]; intros Hh Hl He.
  - split_and!; [done|done|]. unfold hint_holds in *. destruct (prefixed_data prefix rest) as [Ed Ef].
    rewrite Ed, blen_app in Hl |- *. rewrite Ef. intros Hf. destruct (Hh Hf) as [Hlo Hhi]. cbn [fst snd].
    unfold saturating_add64. split; [unfold u64_max in *; lia|].
    intros u. destruct hint.2 as [v|]; [|done]. intros [= <-]. specialize (Hhi v eq_refl). unfold u64_max in *. lia.
  - split_and!; [by destruct rest as [|[f|] rest]|done|done].
Qed.

Lemma budgeted_hint_ends (b : Permitted T) :
  (permitted_poll b).1.1 = PollEnd \/ (permitted_poll b).1.1 = PollError -> pm_permit b = true ->
  pm_inner (permitted_poll b).2 = [] /\ pm_permit (permitted_poll b).2 = false.
Proof.
  unfold permitted_poll. intros Hp E. rewrite E in *.
  destruct (pm_inner b) as [|[[d|t]|] inner]; cbn in *; [done|by destruct Hp|by destruct Hp|done].
Qed.
End adapters.
Arguments PrefixedBody : clear implicits.

Lemma prefixed_transparent_witness :
  let b := mkPrefixed (T := unit) (Some (bs "head")) [Some (Data (bs "-rest"))] in
  prefixed_size_hint (pb_prefix b) (5, None) = (9, None) /\
  hint_holds (prefixed_size_hint (pb_prefix b) (5, None)) (prefixed_stream b).
Proof.
  split; [reflexivity|]. apply (prefixed_transparent (mkPrefixed (T := unit) (Some (bs "head")) [Some (Data (bs "-rest"))]) (5, None) false);
    [intros _; split; [vm_compute; congruence|done]|vm_compute; reflexivity|done].
Defined.

(** ** Properties *)

(** Buffering for the body hooks is exact and bounded in both directions.  A request body is
    refused as too large exactly when the data it delivers exceeds the cap, reported as a read
    error exactly when it fails within the cap, and otherwise is buffered whole; a response body
    likewise, except that an over-cap one is split into a head of exactly the cap and a rest that
    still delivers every other byte (and the upstream's own failure), so head and rest together
    are the upstream's body. *)
Theorem buffering_exact {T} (body : list (option (Frame T))) (max : Z) : 0 <= max ->
  buffer_request_body body max =
    (if max <? blen (stream_data body) then BoTooLarge
     else if stream_fails body then BoReadError else BoBuffered (stream_data body)) /\
  match buffer_response_body body max with
  | SbBuffered b => b = stream_data body /\ blen b <= max /\ stream_fails body = false
  | SbReadError => blen (stream_data body) <= max /\ stream_fails body = true
  | SbOverCap head rest =>
      max < blen (stream_data body) /\ blen head = max /\
      head ++ stream_data rest = stream_data body /\ stream_fails rest = stream_fails body
  end.
Proof.
  intros Hmax. unfold buffer_request_body, buffer_response_body. split.
  - pose proof (buffer_request_loop_spec body max [] Hmax) as Hs. cbn in Hs.
    destruct (Z.ltb_spec max (blen (stream_data body))); destruct buffer_request_loop.
    + destruct Hs as (-> & _ & ?). lia.
    + done.
    + destruct Hs. unfold blen in *. cbn in *. lia.
    + by destruct Hs as (-> & -> & _).
    + unfold blen in *. cbn in *. lia.
    + by destruct Hs as (-> & _).
  - pose proof (buffer_response_loop_spec body max [] Hmax) as Hs. cbn in Hs.
    destruct buffer_response_loop as [b|head rest|].
    + easy.
    + destruct Hs as (Hh & Hd & Hne & Hf). split_and!; try done. rewrite <- Hd, blen_app.
      destruct (stream_data rest); [done|]. unfold blen in *. cbn. lia.
    + destruct Hs. unfold blen in *. split; [lia|done].
Qed.

Lemma buffering_exact_witness :
  match buffer_response_body (T := unit) [Some (Data (bs "0123456789")); Some (Data (bs "abcdefghij")); None] 12 with
  | SbOverCap head rest => head = bs "0123456789ab" /\ stream_data rest = bs "cdefghij" /\ stream_fails rest = true
  | _ => False
  end /\
  buffer_request_body (T := unit) [Some (Data (bs "hel")); Some (Trailers tt); Some (Data (bs "lo"))] 5
  = BoBuffered (bs "hello").
Proof.
  split; [vm_compute; done|].
  rewrite (proj1 (buffering_exact (T := unit) _ 5 ltac:(lia))). vm_compute. reflexivity.
Defined.

(** A reservation outlives every byte it accounts for.  Whatever a transport does with a
    permitted body (poll it, drop it, keep or drop the data frames it was handed), as long as the
    adapter still has frames to deliver or the transport still keeps one, the reservation has an
    owner; and once the adapter has reported its end it owns nothing, so the reservation is held
    by exactly the kept data frames. *)
Theorem reservation_covers_bytes {T} (body : list (option (Frame T))) (s : Holding T) :
  rtc holding_step (start_holding body) s ->
  (owners s = 0 -> hd_frames s = [] /\ forall b, hd_body s = Some b -> pm_inner b = []) /\
  (forall b, hd_body s = Some b -> (permitted_poll b).1.1 = PollEnd ->
     owners (mkHolding (Some (permitted_poll b).2) (hd_frames s)) = Z.of_nat (length (hd_frames s))).
Proof.
  intros Hr. split.
  - assert (Hinv : forall b, hd_body s = Some b -> pm_permit b = false -> pm_inner b = []).
    { remember (start_holding body) as s0 eqn:E0.
      assert (Hs0 : forall b, hd_body s0 = Some b -> pm_permit b = false -> pm_inner b = [])
        by (subst; by intros b [= <-]).
      clear E0. induction Hr as [|x y z Hstep _ IH]; [done|]. apply IH. clear IH.
      destruct Hstep as [b p carries b' frames E| |]; cbn in *; intros b0 Hb; [|done|by apply Hs0].
      injection Hb as <-. unfold permitted_poll in E. destruct (pm_permit b) eqn:Ep.
      - destruct (pm_inner b) as [|[[d|t]|] inner]; injection E as _ _ <-; done.
      - injection E as _ _ <-. intros _. by apply Hs0. }
    unfold owners. intros Ho.
    assert (Hf : hd_frames s = []).
    { destruct (hd_frames s); [done|]. cbn [length] in Ho.
      destruct (hd_body s) as [b|]; [destruct (pm_permit b)|]; lia. }
    split; [done|]. rewrite Hf in Ho. intros b Hb. rewrite Hb in Ho. apply (Hinv b Hb). by destruct (pm_permit b).
  - intros b _ Hend. unfold owners, permitted_poll in *. cbn.
    destruct (pm_permit b) eqn:Ep; cbn in *; [|by rewrite Ep].
    by destruct (pm_inner b) as [|[[d|t]|] inner].
Qed.

Lemma reservation_covers_bytes_witness :
  exists s : Holding unit, rtc holding_step (start_holding (full (bs "response"))) s /\
    hd_body s = None /\ owners s = 1 /\ (owners s = 0 -> hd_frames s = []).
Proof.
  exists (mkHolding None [bs "response"]).
  assert (Hr : rtc holding_step (@start_holding unit (full (bs "response"))) (mkHolding None [bs "response"])).
  { eapply rtc_l; [by eapply HoldPoll|]. eapply rtc_l; [by eapply HoldPoll|].
    eapply rtc_l; [by eapply HoldDropBody|]. apply rtc_refl. }
  split_and!; [done|done|reflexivity|]. intros Ho. by apply (reservation_covers_bytes _ _ Hr).
Defined.

(** A trailer block does not survive the buffering: the whole-body path forgets it. *)
Lemma buffered_response_forgets_trailers {T} (t : T) (data : bytes) (max : Z) :
  buffer_response_body [Some (Data data); Some (Trailers t)] max =
  buffer_response_body [Some (Data data)] max \/
  max < blen data.
Proof.
  unfold buffer_response_body. cbn [buffer_response_loop]. unfold saturating_sub.
  change (blen []) with 0. destruct (Z.ltb_spec (Z.max (max - 0) 0) (blen data)); [right; lia|by left].
Qed.
