(* ===== verification/Respond.v ===== *)
(** * Responses to the client (server/src/respond.rs, dispatch.rs)

    The synthesised, buffered and streamed responses of the fast path, and the headers attached
    to them.  The header map and the upstream's headers are those of [Headers]. *)

From stdpp Require Import pretty.
From S2P Require Import Prelude Bytes Chain Headers Route Compression Body.

Definition H_FAULT : bytes := bs "x-plecto-fault".
Definition H_RETRY_AFTER : bytes := bs "retry-after".
Definition H_ERROR_CODE : bytes := bs "x-plecto-error-code".
Definition H_ALT_SVC : bytes := bs "alt-svc".

(** The stable codes of diagnostic.rs that reach the wire. *)
Definition QUOTA_EXCEEDED : bytes := bs "PLECTO-E0002".
Definition PATH_NORMALIZATION_REJECTED : bytes := bs "PLECTO-E0003".

(** A response with a body still to be streamed. *)
Record Reply (M T : Type) := mkReply {
  rp_status : Z;
  rp_headers : M;
  rp_body : list (option (Frame T));
}.
Arguments mkReply {M T}.
Arguments rp_status {M T}.
Arguments rp_headers {M T}.
Arguments rp_body {M T}.

(** [StatusCode::from_u16(..).unwrap_or(BAD_GATEWAY)]. *)
Definition clamp_status (status : Z) : Z :=
  if (100 <=? status) && (status <=? 999) then status else 502.

Definition DRAIN_CAP : Z := Z.shiftl 64 10.

Section respond.
Context {M : Type} `{HeaderMap M} {T : Type}.
Context (hm_empty : M).

Definition http_response (resp : HttpResponse) : Reply M T :=
  mkReply (clamp_status (rs_status resp)) (copy_headers_synth hm_empty (rs_headers resp))
    (full (rs_body resp)).

Definition stream_response (status : Z) (headers : list Header) (upstream_headers : M)
    (body : list (option (Frame T))) : Reply M T :=
  let h := copy_headers_synth hm_empty headers in
  mkReply (clamp_status status)
    (match hm_get upstream_headers CONTENT_LENGTH with
     | Some len => hm_insert h CONTENT_LENGTH len
     | None => h
     end) body.

Definition stream_response_direct (status : Z) (headers : M) (body : list (option (Frame T)))
    : Reply M T :=
  mkReply status (copy_headers_direct hm_empty headers) body.

Definition synth (status : Z) (fault body : bytes) : Reply M T :=
  mkReply status (hm_insert hm_empty H_FAULT fault) (full body).

(** The decimal text of a [u64] is always a header value. *)
Definition synth_retry_after (status : Z) (fault body : bytes) (retry_after_secs : Z) : Reply M T :=
  let resp := synth status fault body in
  mkReply (rp_status resp)
    (hm_insert (rp_headers resp) H_RETRY_AFTER (bs (pretty (Z.to_N retry_after_secs))))
    (rp_body resp).

Definition with_error_code (resp : Reply M T) (code : bytes) : Reply M T :=
  mkReply (rp_status resp) (hm_insert (rp_headers resp) H_ERROR_CODE code) (rp_body resp).

Definition attach_alt_svc (headers : M) (alt_svc : option bytes) : M :=
  match alt_svc with Some av => hm_insert headers H_ALT_SVC av | None => headers end.

(** The detached drain: what it leaves unread of the body when it gives up. *)
Fixpoint drain_loop (body : list (option (Frame T))) (drained : Z) : list (option (Frame T)) :=
  if drained <? DRAIN_CAP then
    match body with
    | Some (Data data) :: body => drain_loop body (saturating_add64 drained (blen data))
    | Some (Trailers _) :: body => drain_loop body drained
    | None :: body => body
    | [] => []
    end
  else body.

Definition discard_upstream_body (body : list (option (Frame T))) : list (option (Frame T)) :=
  drain_loop body 0.
End respond.

(** ** Framing *)

Section framing.
Context {M : Type} `{HeaderMapLaws M} {T : Type}.
Context (hm_empty : M) (hm_empty_get : forall n, hm_get_all hm_empty n = []).

(** The parser of header names only lowers letters. *)
Context (parse_name_case : forall s n, parse_name s = Some n -> eq_ignore_ascii_case s n = true).

Lemma copy_synth_strips (headers : list Header) n (m : M) :
  is_hop_by_hop n = true \/ n = CONTENT_LENGTH ->
  hm_get_all (copy_headers_synth m headers) n = hm_get_all m n.
Proof.
  intros Hn. apply copy_filtered_skips; [exact parse_name_case|].
  destruct Hn as [-> | ->]; [done|]. by vm_compute.
Qed.
End framing.

(** The detached drain stops once it has read the cap. *)
Lemma drain_loop_bound {T} (body : list (option (Frame T))) : forall drained : Z, 0 <= drained ->
  exists took : list (option (Frame T)), body = took ++ drain_loop body drained /\
    (forall pre f, took = pre ++ [f] -> drained + blen (stream_data pre) < DRAIN_CAP).
Proof.
  assert (Hnil : forall (pre : list (option (Frame T))) f, [] = pre ++ [f] -> False) by (intros [] f; done).
  induction body as [|[[data|t]|] body IH]; intros drained Hd; cbn [drain_loop];
    (destruct (Z.ltb_spec drained DRAIN_CAP) as [Hlt|]; [|exists []; split; [done|naive_solver]]).
  - exists []. split; [done|naive_solver].
  - destruct (IH (saturating_add64 drained (blen data))) as (took & Eb & Hp).
    { unfold saturating_add64, blen, u64_max. lia. }
    exists (Some (Data data) :: took). split; [by rewrite Eb at 1|]. intros [|x pre] f E; cbn in *; [change (blen []) with 0; lia|].
    injection E as <- E. specialize (Hp pre f E). cbn. rewrite blen_app.
    assert (Hcap : DRAIN_CAP = 65536) by done.
    unfold saturating_add64, u64_max, blen in *. lia.
  - destruct (IH drained Hd) as (took & Eb & Hp). exists (Some (Trailers t) :: took).
    split; [by rewrite Eb at 1|]. intros [|x pre] f E; cbn in *; [change (blen []) with 0; lia|].
    injection E as <- E. exact (Hp pre f E).
  - exists [None]. split; [done|]. intros [|x pre] f E; cbn in *; [change (blen []) with 0; lia|].
    injection E as _ E. exfalso. eauto.
Qed.

Lemma clamp_status_range status : 100 <= clamp_status status <= 999.
Proof.
  unfold clamp_status. destruct (100 <=? status) eqn:E1, (status <=? 999) eqn:E2; bools; cbn; lia.
Qed.

(** ** Properties *)

(** The proxy owns the framing of every response it sends.  Whatever headers a filter
    supplies, a synthesised response carries no content length but the one of its own bytes, a
    streamed one carries exactly the upstream's (its first), no hop-by-hop header of a filter
    survives in either, and the status is a valid one (an invalid status becomes 502). *)
Theorem response_framing_owned {M} `{HeaderMapLaws M} {T} (hm_empty upstream : M)
    (status : Z) (headers : list Header) (content : bytes) (body : list (option (Frame T))) :
  (forall n, hm_get_all hm_empty n = []) ->
  (forall s n, parse_name s = Some n -> eq_ignore_ascii_case s n = true) ->
  let synthesised := http_response (T := T) hm_empty (mkResponse status headers content) in
  let streamed := stream_response hm_empty status headers upstream body in
  hm_get_all (rp_headers synthesised) CONTENT_LENGTH = [] /\
  stream_data (rp_body synthesised) = content /\
  hm_get_all (rp_headers streamed) CONTENT_LENGTH = option_list (hm_get upstream CONTENT_LENGTH) /\
  rp_body streamed = body /\
  (forall n, is_hop_by_hop n = true ->
     hm_get_all (rp_headers synthesised) n = [] /\ hm_get_all (rp_headers streamed) n = []) /\
  (forall n, is_hop_by_hop n = false -> n <> CONTENT_LENGTH ->
     hm_get_all (rp_headers synthesised) n = omap (contributes true n) headers /\
     hm_get_all (rp_headers streamed) n = omap (contributes true n) headers) /\
  100 <= rp_status synthesised <= 999 /\ rp_status streamed = rp_status synthesised /\
  (100 <= status <= 999 -> rp_status synthesised = status).
Proof.
  intros Hempty Hcase. cbv zeta. unfold http_response, stream_response.
  cbn [rp_headers rp_body rp_status rs_status rs_headers rs_body].
  pose proof (copy_synth_strips Hcase headers) as Hs.
  split_and!.
  - rewrite Hs by auto. apply Hempty.
  - apply full_data.
  - destruct (hm_get upstream CONTENT_LENGTH); cbn.
    + rewrite hm_insert_all. by rewrite bool_decide_true.
    + rewrite Hs by auto. apply Hempty.
  - done.
  - intros n Hn. rewrite Hs, Hempty by auto. split; [done|].
    destruct (hm_get upstream CONTENT_LENGTH); [|by rewrite Hs, Hempty by auto].
    rewrite hm_insert_all, bool_decide_false by (intros ->; by vm_compute in Hn).
    by rewrite Hs, Hempty by auto.
  - intros n Hn Hne. unfold copy_headers_synth. rewrite copy_filtered_all, Hempty. split; [done|].
    destruct (hm_get upstream CONTENT_LENGTH); rewrite ?hm_insert_all, ?bool_decide_false by done;
      by rewrite copy_filtered_all, Hempty.
  - apply clamp_status_range.
  - apply clamp_status_range.
  - done.
  - intros Hst. unfold clamp_status. by rewrite (proj2 (Z.leb_le _ _)), (proj2 (Z.leb_le _ _)) by lia.
Qed.

#[local] Existing Instance alist_headers.
#[local] Existing Instance alist_laws.

Lemma response_framing_owned_witness :
  hm_get_all (rp_headers (http_response (T := unit) (M := list (bytes * bytes)) []
    (mkResponse 1000 [mkHeader (bs "content-length") (bs "9999"); mkHeader (bs "x-ok") (bs "1")]
       (bs "hello")))) CONTENT_LENGTH = [] /\
  hm_get_all (rp_headers (stream_response (T := unit) (M := list (bytes * bytes)) [] 200
    [mkHeader (bs "content-length") (bs "9999")] [(bs "content-length", bs "5")] [])) CONTENT_LENGTH
  = [bs "5"].
Proof.
  assert (Hcase : forall s n, Some s = Some n -> eq_ignore_ascii_case s n = true).
  { intros s n [= ->]. by apply bytes_eqb_eq. }
  split.
  - destruct (response_framing_owned (M := list (bytes * bytes)) (T := unit) [] [] 1000
      [mkHeader (bs "content-length") (bs "9999"); mkHeader (bs "x-ok") (bs "1")] (bs "hello") [])
      as (E & _); [done|exact Hcase|exact E].
  - destruct (response_framing_owned (M := list (bytes * bytes)) (T := unit) [] [(bs "content-length", bs "5")]
      200 [mkHeader (bs "content-length") (bs "9999")] [] []) as (_ & _ & E & _); [done|exact Hcase|exact E].
Defined.
