(* ===== verification/Transaction.v ===== *)
(** * The transaction: definitions (server/src/proxy.rs, dispatch.rs)

    One request from the transport to its response: admission, ingress correction, routing, the
    rate limit, the request chain, the split and the load balancer, the body hooks, the breaker,
    the forward with retries, the upgrade switch, the response chain, response inspection, the
    declared headers and compression.  The components are the ones of the other files; the shared
    state they act on is a world that other transactions change too, behind the [Server]
    interface.  The server drops a transaction's future when the client goes away, so an action says
    besides what it does when run to its end in which states it can be dropped. *)

From stdpp Require Import pretty.
From S2P Require Import Prelude Bytes Ssrf Paths Weighted RateLimit Chain Headers Manifest Upstream.
From S2P Require Import Balancer Registry Route RouteTable Control Forward Compression Body Respond.

(** ** The interface to the shared state *)

Inductive InspectionSkip := StreamingContentType | ContentEncoding | PartialContent | OverCap.

Inductive Metric :=
| MRateLimited (route : bytes)
| MCircuitOpen
| MInspectionSkipped (reason : InspectionSkip)
| MInFlight (delta : Z)
| MRequest (route : bytes) (status : Z).

Inductive ServerError :=
| SeRequestBuild
| SeChainJoin
| SeChainPanic
| SeUpstream (connect : bool)
(** The forward loop's fuel ran out, which [forward_retry_safe] excludes. *)
| SeStuck.

(** An upstream response but for its status. *)
Record UpResponse (M T : Type) := mkUp { up_resp_headers : M; up_body : list (option (Frame T)) }.
Arguments mkUp {M T}.
Arguments up_resp_headers {M T}.
Arguments up_body {M T}.

(** [G] is an upstream group, [P] a pick, [W] the world.  A breaker permit is a [bool], as in
    [Upstream]; the byte budget and the admission semaphore count permits. *)
Class Server (M T G P W : Type) := {
  sv_env : G -> option HashInput -> Env M (UpResponse M T) P W;
  sv_admit : W -> bool * W;
  sv_check_rate_limit : RouteInfo G -> IpAddr -> W -> RateLimitDecision * W;
  sv_pick_upstream : RouteInfo G -> W -> option G * W;
  sv_pick : G -> option HashInput -> W -> option P * W;
  sv_try_acquire : G -> W -> option bool * W;
  sv_release : G -> bool -> W -> W;
  (** [acquire_many_owned], refused only when the semaphore is closed, and a permit's drop. *)
  sv_reserve : Z -> W -> bool * W;
  sv_unreserve : Z -> W -> W;
  (** Whether the deadline passes before the body being buffered is read. *)
  sv_read_elapses : W -> bool * W;
  (** The world a chain call leaves when it panics instead of returning. *)
  sv_panics : W -> option W;
  (** The detached drain of a discarded upstream body, and the detached tunnel, which keeps the
      breaker permit, the pick and the connection's guards. *)
  sv_discard : list (option (Frame T)) -> W -> W;
  sv_tunnel : G -> bool -> P -> option Z -> W -> W;
  sv_metric : Metric -> W -> W;
  (** What the world may become while a transaction waits. *)
  sv_suspended : W -> W -> Prop;
}.

(** ** Transactions as actions

    The world, what the core reports back for attribution, and the attempts made (for the
    properties: nothing reads them). *)

Record Attribution := mkAttribution { at_route : option bytes; at_skipped : option InspectionSkip }.

Record Tx (M T P W : Type) := mkTx {
  tx_world : W;
  tx_attribution : Attribution;
  tx_attempts : list (Attempt M (UpResponse M T) P);
}.
Arguments mkTx {M T P W}.
Arguments tx_world {M T P W}.
Arguments tx_attribution {M T P W}.
Arguments tx_attempts {M T P W}.

(** An action is a future: what running it to its end gives, and where dropping it at one of its
    awaits leaves the state, once the guards it owns have been dropped too.  The server drops a
    transaction when its client goes away. *)
Record Act (S A : Type) : Type := act {
  run : S -> result A ServerError * S;
  cut : S -> S -> Prop;
}.
Arguments act {S A}.
Arguments run {S A}.
Arguments cut {S A}.
Coercion run : Act >-> Funclass.

(** Code that awaits nothing cannot be dropped half-way. *)
Definition step {S A} (f : S -> result A ServerError * S) : Act S A := act f (fun _ _ => False).
Definition ret {S A} (a : A) : Act S A := step (fun s => (Ok a, s)).
Definition throw {S A} (e : ServerError) : Act S A := step (fun s => (Err e, s)).
Definition bind {S A B} (m : Act S A) (k : A -> Act S B) : Act S B :=
  act (fun s => match m s with (Ok a, s) => k a s | (Err e, s) => (Err e, s) end)
    (fun s s' => cut m s s' \/ exists a s1, m s = (Ok a, s1) /\ cut (k a) s1 s').
(** A guard dropped when [m] fails or is dropped, and one dropped when [m] is done too; a guard's
    drop awaits nothing. *)
Definition on_error {S A} (m : Act S A) (cleanup : Act S unit) : Act S A :=
  act (fun s =>
    match m s with
    | (Err e, s) => (Err e, (cleanup s).2)
    | (Ok a, s) => (Ok a, s)
    end)
    (fun s s' => exists s1, cut m s s1 /\ s' = (cleanup s1).2).
Definition finally {S A} (m : Act S A) (cleanup : Act S unit) : Act S A :=
  act (fun s => let '(r, s) := m s in (r, (cleanup s).2))
    (fun s s' => exists s1, cut m s s1 /\ s' = (cleanup s1).2).
(** The result of [m], an error included, as a value. *)
Definition attempt {S A} (m : Act S A) : Act S (result A ServerError) :=
  act (fun s => let '(r, s) := m s in (Ok r, s)) (cut m).
Notation "'do!' x <- m ; k" := (bind m (fun x => k))
  (at level 200, x pattern, m at level 100, k at level 200, right associativity) : plecto_scope.

Section actions.
Context {M T P W : Type}.
Notation Tx := (Tx M T P W).

Definition in_world (s : Tx) (w : W) : Tx := mkTx w (tx_attribution s) (tx_attempts s).

Definition ask {A} (f : W -> A * W) : Act Tx A :=
  step (fun s => let '(a, w) := f (tx_world s) in (Ok a, mkTx w (tx_attribution s) (tx_attempts s))).
Definition perform (f : W -> W) : Act Tx unit := ask (fun w => (tt, f w)).
Definition set_skipped (reason : InspectionSkip) : Act Tx unit := step (fun s =>
  (Ok tt, mkTx (tx_world s) (mkAttribution (at_route (tx_attribution s)) (Some reason)) (tx_attempts s))).
Definition set_route (name : bytes) : Act Tx unit := step (fun s =>
  (Ok tt, mkTx (tx_world s) (mkAttribution (Some name) (at_skipped (tx_attribution s))) (tx_attempts s))).
End actions.

(** ** Requests and outcomes *)

(** The request head and body as the transport hands them over: [q_size] is the exact size the
    body declares, [q_upgradable] whether hyper left an upgrade handle, [q_frames] what the body
    stream delivers. *)
Record Request (M T : Type) := mkReq {
  q_method : bytes;
  q_path_and_query : option bytes;
  q_parts : Parts M;
  q_upgradable : bool;
  q_size : option Z;
  q_body : nat;
  q_frames : list (option (Frame T));
}.
Arguments mkReq {M T}.
Arguments q_method {M T}.
Arguments q_path_and_query {M T}.
Arguments q_parts {M T}.
Arguments q_upgradable {M T}.
Arguments q_size {M T}.
Arguments q_body {M T}.
Arguments q_frames {M T}.

Inductive Routed (M T : Type) :=
| Synthesised (r : Reply M T)
| Forwarded (r : Reply M T) (body_budget : option Z).
Arguments Synthesised {M T}.
Arguments Forwarded {M T}.

Inductive BodyHookOutcome (M T : Type) :=
| Proceed (body : ForwardBody) (headers : list Header)
| HookRespond (r : Reply M T).
Arguments Proceed {M T}.
Arguments HookRespond {M T}.

(** The allowlisted token and the tunnel's idle timeout. *)
Record UpgradeIntent := mkIntent { ui_token : bytes; ui_idle : option Z }.

Inductive Inspectability := Inspect | OutOfScope | Uninspectable (reason : InspectionSkip).

Definition INSPECTION_HOSTILE_REQUEST_HEADERS : list bytes := map bs
  ["accept-encoding"; "range"; "if-range"]%string.

Definition strip_inspection_hostile_headers (headers : list Header) : list Header :=
  List.filter (fun h => negb (existsb (eq_ignore_ascii_case (h_name h)) INSPECTION_HOSTILE_REQUEST_HEADERS))
    headers.

Definition budget_permits (n : Z) : Z := if n <=? u32_max then n else u32_max.

Definition H_CONTENT_RANGE : bytes := bs "content-range".

Definition is_streaming_media_type (essence : bytes) : bool :=
  eq_ignore_ascii_case essence (bs "text/event-stream").

Section inspect.
Context {M : Type} `{HeaderMap M}.

Definition upstream_switched_to (headers : M) (token : bytes) : bool :=
  match hm_get headers H_UPGRADE with
  | Some v =>
    match to_str v with
    | Some s => existsb (fun t => eq_ignore_ascii_case (trim t) token) (split_on "," s)
    | None => false
    end
  | None => false
  end.

Definition content_essence (headers : M) : bytes :=
  match hm_get headers H_CONTENT_TYPE with
  | Some v =>
    match to_str v with
    | Some s => trim (match split_on ";" s with p :: _ => p | [] => s end)
    | None => []
    end
  | None => []
  end.

Definition is_content_encoded (headers : M) : bool :=
  existsb (fun v => match to_str v with
    | Some s => existsb (fun t => let t := trim t in
        negb (bool_decide (t = [])) && negb (eq_ignore_ascii_case t (bs "identity"))) (split_on "," s)
    | None => true
    end) (hm_get_all headers H_CONTENT_ENCODING).

Definition classify_response (status : Z) (headers : M) (cfg : ResponseBodyConfig) : Inspectability :=
  let essence := content_essence headers in
  if is_streaming_media_type essence then Uninspectable StreamingContentType
  else if negb (content_type_eligible (rbc_content_types cfg) essence) then OutOfScope
  else if (status =? 206) || negb (bool_decide (hm_get_all headers H_CONTENT_RANGE = []))
  then Uninspectable PartialContent
  else if is_content_encoded headers then Uninspectable ContentEncoding
  else Inspect.
End inspect.

(** ** The phases *)

Section phases.
Context {M : Type} `{HeaderMap M} {T F G P W : Type} `{FilterHost F W} `{Server M T G P W}.
Context (hm_empty : M) (value_from_str : bytes -> option bytes).
(** The pinned snapshot and the selected route's index in it. *)
Context (routes : list (CompiledRoute F G)) (idx : nat).
Notation Act := (Act (Tx M T P W)).
Notation Reply := (Reply M T).

Definition metric (m : Metric) : Act unit := perform (sv_metric m).
Definition discard (body : list (option (Frame T))) : Act unit := perform (sv_discard body).

(** Awaiting an operation of the world. *)
Definition await {A} (f : W -> A * W) : Act A :=
  act (ask f) (fun s s' => exists w, sv_suspended (tx_world s) w /\ s' = in_world s w).

(** A chain call under [catch_unwind]. *)
Definition dispatched {A} (e : ServerError) (call : W -> A * W) : Act A := step (fun s =>
  match sv_panics (tx_world s) with
  | Some w => (Err e, mkTx w (tx_attribution s) (tx_attempts s))
  | None => ask call s
  end).

(** A chain call joined from the blocking pool: dropping the join leaves the call to run its course. *)
Definition spawned {A} (call : W -> A * W) : Act A :=
  act (dispatched SeChainJoin call) (fun s s' => exists w, sv_suspended (tx_world s) w /\
    (s' = in_world s w \/ s' = in_world s (call w).2 \/ exists w', sv_panics w = Some w' /\ s' = in_world s w')).

(** The request chain: inline first, the rest on the blocking pool. *)
Definition run_request_chain (request : HttpRequest) : Act ChainOutcome :=
  do! inline <- dispatched SeChainPanic (snap_request_inline routes idx request);
  match inline with
  | IrqComplete outcome => ret outcome
  | IrqPending filter_index request =>
    spawned (snap_request_from routes idx filter_index request)
  end.

Definition run_response_chain (request : HttpRequest) (response : HttpResponse) : Act ResponseOutcome :=
  do! inline <- dispatched SeChainPanic (snap_response_inline routes idx request response);
  match inline with
  | IrsComplete outcome => ret outcome
  | IrsPending filter_index response =>
    spawned (snap_response_from routes idx filter_index request response)
  end.

Definition upgrade_intent (route : RouteInfo G) (q : Request M T) (bodyless : bool)
    : option UpgradeIntent :=
  if negb bodyless then None
  else
    match ri_upgrade route with
    | None => None
    | Some cfg =>
      match upgrade_request_header (pt_headers (q_parts q)) with
      | None => None
      | Some header =>
        match allowed_token cfg header with
        | None => None
        | Some token =>
          if q_upgradable q then Some (mkIntent token (uc_idle_timeout cfg)) else None
        end
      end
    end.

(** [frames] are those of the one-shot body. *)
Definition request_body_hook (frames : list (option (Frame T))) (reads_body : bool)
    (real_body : ForwardBody) (headers : list Header) : Act (BodyHookOutcome M T) :=
  if negb reads_body then ret (Proceed real_body headers)
  else
    match take_oneshot real_body with
    | (None, real_body) => ret (Proceed real_body headers)
    | (Some _, _) =>
      let respond := fun r : Reply => ret (HookRespond r) in
      let permits := budget_permits MAX_REQUEST_BODY_BUFFER in
      do! open <- await (sv_reserve permits);
      if negb open then
        respond (synth hm_empty 503 (bs "body-buffer-unavailable") (bs "body buffer unavailable"))
      else
        do! elapsed <- on_error (await sv_read_elapses) (perform (sv_unreserve permits));
        if (elapsed : bool) then
          do! _ <- perform (sv_unreserve permits);
          respond (synth hm_empty 408 (bs "body-timeout") (bs "request body read timeout"))
        else
          match buffer_request_body frames MAX_REQUEST_BODY_BUFFER with
          | BoTooLarge =>
            do! _ <- perform (sv_unreserve permits);
            respond (synth hm_empty 413 (bs "body-too-large") (bs "request body too large"))
          | BoReadError =>
            do! _ <- perform (sv_unreserve permits);
            respond (synth hm_empty 400 (bs "body-read-error") (bs "request body read error"))
          | BoBuffered buffered =>
            do! outcome <- on_error
              (spawned (snap_request_body routes idx buffered headers))
              (perform (sv_unreserve permits));
            match outcome with
            | RboRespond resp =>
              do! _ <- perform (sv_unreserve permits); respond (http_response hm_empty resp)
            | RboForward edited headers =>
              (** The reservation moves into the forwarded bytes. *)
              ret (Proceed (Replayable edited) headers)
            end
          end
    end.

(** The breaker permit and the pick leave scope. *)
Definition drop_slot (group : G) (permit : bool) (key : option HashInput) (pick : P) : Act unit :=
  do! _ <- perform (env_drop (Env := sv_env group key) pick);
  perform (sv_release group permit).
(** [stay] is the early return without a switch. *)
Definition upgrade_switch (has_filters : bool) (forward : HttpRequest) (upgrade : option UpgradeIntent)
    (upstream_headers : M) (group : G) (permit : bool) (key : option HashInput) (pick : P) : Act Reply :=
  let stay := fun r : Reply => do! _ <- drop_slot group permit key pick; ret r in
  let refuse := fun body => stay (synth hm_empty 502 (bs "bad-upgrade") body) in
  match upgrade with
  | None => refuse (bs "unsolicited upgrade")
  | Some (mkIntent token idle) =>
    if negb (upstream_switched_to upstream_headers token) then refuse (bs "upgrade token mismatch")
    else
      let splice := fun relayed : M =>
        match value_from_str token with
        | None => refuse (bs "bad upgrade token")
        | Some upgrade_value =>
          let h := hm_insert (hm_insert relayed H_UPGRADE upgrade_value) H_CONNECTION (bs "upgrade") in
          do! _ <- perform (sv_tunnel group permit pick idle);
          ret (mkReply 101 h (full []))
        end in
      if has_filters then
        do! outcome <- on_error
          (run_response_chain forward (mkResponse 101 (headers_to_vec upstream_headers) []))
          (drop_slot group permit key pick);
        match outcome with
        | RoRespond resp => stay (http_response hm_empty resp)
        | RoForward edited =>
          if negb (rs_status edited =? 101) then stay (http_response hm_empty edited)
          else splice (copy_headers hm_empty (rs_headers edited))
        end
      else splice (copy_headers_direct hm_empty upstream_headers)
  end.

Definition inspect_response_body (cfg : ResponseBodyConfig) (forward : HttpRequest)
    (edited : HttpResponse) (upstream_headers : M) (ubody : list (option (Frame T)))
    : Act (Routed M T) :=
  let cap := rbc_max_bytes cfg in
  let status := rs_status edited in
  let permits := budget_permits cap in
  let refuse := fun st fault body => ret (Synthesised (synth hm_empty st fault body)) in
  do! open <- await (sv_reserve permits);
  if negb open then
    do! _ <- discard ubody;
    refuse 503 (bs "response-body-buffer-unavailable") (bs "response body buffer unavailable")
  else
    do! elapsed <- on_error (await sv_read_elapses) (perform (sv_unreserve permits));
    if (elapsed : bool) then
      do! _ <- perform (sv_unreserve permits);
      refuse 504 (bs "response-body-timeout") (bs "upstream response body timeout")
    else
      (** The hooks over [body], with what of the upstream body is still to come. *)
      let hooks := fun (body : bytes) (rest : option (list (option (Frame T)))) =>
        do! outcome <- on_error
          (spawned (snap_response_body routes idx forward edited body))
          (perform (sv_unreserve permits));
        match outcome with
        | SboRespond resp =>
          do! _ <- match rest with Some rest => discard rest | None => ret tt end;
          do! _ <- perform (sv_unreserve permits);
          ret (Synthesised (http_response hm_empty resp))
        | SboForward body headers transformed =>
          match rest with
          | None =>
            ret (Forwarded (http_response hm_empty (mkResponse status headers body)) (Some permits))
          | Some rest =>
            if (transformed : bool) then
              do! _ <- discard rest;
              do! _ <- perform (sv_unreserve permits);
              refuse 502 (bs "response-body-partial-modified")
                (bs "filter rewrote a partially inspected response body")
            else
              ret (Forwarded (stream_response hm_empty status headers upstream_headers
                     (prefixed body rest)) (Some permits))
          end
        end in
      match buffer_response_body ubody cap with
      | SbBuffered body => hooks body None
      | SbReadError =>
        do! _ <- perform (sv_unreserve permits);
        refuse 502 (bs "response-body-read-error") (bs "upstream response body read error")
      | SbOverCap head rest =>
        do! _ <- metric (MInspectionSkipped OverCap);
        do! _ <- set_skipped OverCap;
        match rbc_over_cap cfg with
        | OcReject =>
          do! _ <- discard rest;
          do! _ <- perform (sv_unreserve permits);
          refuse 502 (bs "response-body-too-large") (bs "response body too large to inspect")
        | OcPassthrough =>
          ret (Forwarded (stream_response hm_empty status (rs_headers edited) upstream_headers
                 (prefixed head rest)) (Some permits))
        | OcProcessPartial => hooks head (Some rest)
        end
      end.

Definition respond_through_chain (route : RouteInfo G) (forward : HttpRequest) (status : Z)
    (upstream : UpResponse M T) : Act (Routed M T) :=
  let '(mkUp uheaders ubody) := upstream in
  if negb (ri_has_filters route) then
    ret (Forwarded (stream_response_direct hm_empty status uheaders ubody) None)
  else
    let inspectability :=
      if bh_response (ri_body_hooks route)
      then Some (classify_response status uheaders (ri_response_body route)) else None in
    do! outcome <- run_response_chain forward (mkResponse status (headers_to_vec uheaders) []);
    match outcome with
    | RoRespond resp =>
      do! _ <- discard ubody;
      ret (Synthesised (http_response hm_empty resp))
    | RoForward edited =>
      let through := ret (Forwarded (stream_response hm_empty (rs_status edited) (rs_headers edited)
                            uheaders ubody) None) in
      match inspectability with
      | None | Some OutOfScope => through
      | Some (Uninspectable reason) =>
        do! _ <- metric (MInspectionSkipped reason);
        do! _ <- set_skipped reason;
        match rbc_uninspectable (ri_response_body route) with
        | UiPassthrough => through
        | UiReject =>
          do! _ <- discard ubody;
          ret (Synthesised (synth hm_empty 502 (bs "response-body-uninspectable")
                 (bs "response body could not be inspected")))
        end
      | Some Inspect => inspect_response_body (ri_response_body route) forward edited uheaders ubody
      end
    end.

Definition with_declared_headers (resp : Reply) (route : RouteInfo G) : Reply :=
  match ri_response_headers route with
  | Some declared => mkReply (rp_status resp) (response_headers_apply declared (rp_headers resp)) (rp_body resp)
  | None => resp
  end.
End phases.

(** ** The core *)

Section core.
Context {M : Type} `{HeaderMap M} {A : Type} `{AuthorityLib A}.
Context {T F C SN P W E : Type} `{FilterHost F W} `{Server M T (Group C SN) P W} `{Codec E}.
Context (builder_ok : bytes -> bytes -> bool) (hm_empty : M) (value_from_str : bytes -> option bytes).
Context {IpNet : Type} (contains : IpNet -> IpAddr -> bool).
Context (parse_ip : bytes -> option IpAddr) (show_ip : IpAddr -> bytes).
(** The pinned snapshot and its trace header. *)
Context (routes : list (CompiledRoute F (Group C SN))) (traceparent : bytes).
Notation G := (Group C SN).
Notation Act := (Act (Tx M T P W)).

Definition to_http_request (q : Request M T) (scheme : bytes) : HttpRequest :=
  mkRequest (q_method q) (default (bs "/") (q_path_and_query q)) (request_authority (q_parts q)) scheme
    (headers_to_vec (pt_headers (q_parts q))).

Definition hash_key (group : G) (headers : M) (client : IpAddr) : option HashInput :=
  match g_hash_key group with
  | Some (SourceHeader name) => option_map HashBytes (hm_get headers name)
  | Some SourceIp => Some (HashIp client)
  | None => None
  end.

(** Forward with retries; the attempts are kept for the properties. *)
Definition forward_act (group : G) (key : option HashInput) (fw : ForwardRequest M) (pick : P)
    (body : ForwardBody) (per_try : Z) (deadline : option Z)
    : Act (ForwardOutcome (UpResponse M T) P) :=
  act (fun s =>
    match forward_with_retry (H0 := sv_env group key) builder_ok hm_empty value_from_str fw
            (Registry.scheme group) per_try deadline pick body (g_max_retries group) (tx_world s) with
    | Some (outcome, w, made) =>
      (Ok outcome, mkTx w (tx_attribution s) (tx_attempts s ++ made))
    | None => (Err SeStuck, s)
    end)
    (fun s s' => exists w,
      forward_cut (H0 := sv_env group key) builder_ok hm_empty value_from_str fw (Registry.scheme group)
        per_try deadline sv_suspended pick body (g_max_retries group) (tx_world s) w /\
      s' = in_world s w).

(** The request the attempts are built from. *)
Definition forward_request (route : RouteInfo G) (q : Request M T) (upgrade : option UpgradeIntent)
    (forward : HttpRequest) (upstream_path : bytes) : ForwardRequest M :=
  let inbound := pt_headers (q_parts q) in
  mkForward (rq_method forward)
    (if ri_has_filters route then HeadersChain (rq_headers forward) else HeadersDirect inbound)
    inbound (rq_authority forward) upstream_path traceparent (option_map ui_token upgrade).

(** The request an inspecting route forwards asks for a whole identity representation. *)
Definition inspectable_request (route : RouteInfo G) (forward : HttpRequest) : HttpRequest :=
  if bh_response (ri_body_hooks route)
  then mkRequest (rq_method forward) (rq_path_with_query forward) (rq_authority forward)
         (rq_scheme forward) (strip_inspection_hostile_headers (rq_headers forward))
  else forward.

(** From the breaker on: [forward] is the request the chain left, [body] what will be sent. *)
Definition forward_phase (route : RouteInfo G) (q : Request M T) (upgrade : option UpgradeIntent)
    (forward : HttpRequest) (group : G) (key : option HashInput) (upstream_path : bytes)
    (per_try : Z) (deadline : option Z) (body : ForwardBody) : Act (Routed M T) :=
  let unavailable := fun fault text => ret (Synthesised (synth hm_empty 503 fault text)) in
  do! acquired <- ask (sv_try_acquire group);
  match acquired with
  | None =>
    do! _ <- metric MCircuitOpen;
    unavailable (bs "circuit-open") (bs "upstream overloaded")
  | Some permit =>
    let free := perform (sv_release group permit) in
    do! picked <- ask (sv_pick group key);
    match picked with
    | None => do! _ <- free; unavailable (bs "no-healthy-upstream") (bs "no healthy upstream")
    | Some pick =>
      let forward := inspectable_request route forward in
      let fw := forward_request route q upgrade forward upstream_path in
      do! outcome <- on_error (forward_act group key fw pick body per_try deadline) free;
      match outcome with
      | FoOverallTimeout =>
        do! _ <- free;
        ret (Synthesised (synth hm_empty 504 (bs "request-timeout") (bs "request timeout")))
      | FoPerTryTimeout =>
        do! _ <- free;
        ret (Synthesised (synth hm_empty 504 (bs "upstream-timeout") (bs "upstream timeout")))
      | FoSendFailed connect => do! _ <- free; throw (SeUpstream connect)
      | FoBuildFailed => do! _ <- free; throw SeRequestBuild
      | FoResponse status response upstream_pick =>
        if status =? 101 then
          do! resp <- upgrade_switch hm_empty value_from_str routes (ri_index route)
            (ri_has_filters route) forward upgrade (up_resp_headers response) group permit key
            upstream_pick;
          ret (Synthesised resp)
        else
          finally (respond_through_chain hm_empty routes (ri_index route) route forward status response)
            (drop_slot group permit key upstream_pick)
      end
    end
  end.

(** Everything after the route is chosen. *)
Definition routed_phase (q : Request M T) (client : IpAddr) (route : RouteInfo G)
    (http_req : HttpRequest) (bodyless : bool) : Act (Routed M T) :=
  do! decision <- ask (sv_check_rate_limit route client);
  match decision with
  | RlLimit retry_after_ms =>
    do! _ <- metric (MRateLimited (ri_name route));
    ret (Synthesised (with_error_code
      (synth_retry_after hm_empty 429 (bs "rate-limited") (bs "rate limit exceeded")
         (div_ceil retry_after_ms 1000)) QUOTA_EXCEEDED))
  | RlAllow =>
    let upgrade := upgrade_intent route q bodyless in
    do! chained <- (if ri_has_filters route
                    then run_request_chain routes (ri_index route) http_req
                    else ret (CoForward http_req));
    match chained with
    | CoRespond resp => ret (Synthesised (http_response hm_empty resp))
    | CoForward forward =>
      do! chosen <- ask (sv_pick_upstream route);
      match chosen with
      | None =>
        ret (Synthesised (synth hm_empty 503 (bs "no-healthy-upstream") (bs "no healthy upstream")))
      | Some group =>
        let key := hash_key group (pt_headers (q_parts q)) client in
        let upstream_path := rewrite_path (rq_path_with_query forward) (ri_strip_prefix route) in
        let per_try := request_timeout (ri_timeouts route) (g_request_timeout group) in
        let overall := overall_timeout (ri_timeouts route) (g_overall_timeout group) in
        do! now <- ask (fun w => (env_now (Env := sv_env group key) w, w));
        let deadline := if overall =? 0 then None else Some (now + overall) in
        let real_body := if bodyless then Bodyless else OneShot (BodyStream (q_body q)) in
        do! hooked <- request_body_hook hm_empty routes (ri_index route) (q_frames q)
          (bh_request (ri_body_hooks route)) real_body (rq_headers forward);
        match hooked with
        | HookRespond resp => ret (Synthesised resp)
        | Proceed body headers =>
          forward_phase route q upgrade
            (mkRequest (rq_method forward) (rq_path_with_query forward) (rq_authority forward)
               (rq_scheme forward) headers) group key upstream_path per_try deadline body
        end
      end
    end
  end.

(** What leaves the core: the response, the byte budget its body holds, and whether it holds the
    request's admission permit. *)
Record Delivered := mkDelivered {
  dl_response : Resp M E T;
  dl_budget : option Z;
  dl_admission : bool;
}.

Definition plain (r : Reply M T) : Delivered :=
  mkDelivered (mkResp (rp_status r) (rp_headers r) (Plain (rp_body r))) None false.

Definition finish_routed (q : Request M T) (route : RouteInfo G) (routed : Routed M T) : Delivered :=
  match routed with
  | Synthesised resp => plain (with_declared_headers resp route)
  | Forwarded resp body_budget =>
    let resp := with_declared_headers resp route in
    mkDelivered
      (apply_compression (ri_compression route) (q_method q) (pt_headers (q_parts q))
         (rp_status resp) (rp_headers resp) (rp_body resp)) body_budget false
  end.

Definition upstream_error : Reply M T := synth hm_empty 502 (bs "upstream") (bs "upstream error").

Definition proxy_core_inner (scheme : bytes) (client : IpAddr) (q : Request M T) : Act Delivered :=
  let http_req := to_http_request q scheme in
  let bodyless := bool_decide (q_size q = Some 0) in
  match normalize_path (rq_path_with_query http_req) with
  | None =>
    ret (plain (with_error_code (synth hm_empty 400 (bs "bad-path") (bs "bad request path"))
      PATH_NORMALIZATION_REJECTED))
  | Some path =>
    let http_req := mkRequest (rq_method http_req) path (rq_authority http_req) (rq_scheme http_req)
      (rq_headers http_req) in
    match find_route routes http_req with
    | None => ret (plain (synth hm_empty 404 (bs "no-route") (bs "no route")))
    | Some route =>
      do! _ <- set_route (ri_name route);
      do! routed <- attempt (routed_phase q client route http_req bodyless);
      ret (finish_routed q route match routed with Ok routed => routed | Err _ => Synthesised upstream_error end)
    end
  end.

Definition with_parts (q : Request M T) (p : Parts M) : Request M T :=
  mkReq (q_method q) (q_path_and_query q) p (q_upgradable q) (q_size q) (q_body q) (q_frames q).

Definition with_headers (p : Parts M) (h : M) : Parts M :=
  mkParts (pt_version p) (pt_uri_scheme p) (pt_uri_authority p) h.

(** The tail of the core: the request counters; the body keeps the admission. *)
Definition report (result : result Delivered ServerError) : Act Delivered :=
  let status := match result with Ok d => re_status (dl_response d) | Err _ => 502 end in
  do! attribution <- step (fun s => (Ok (tx_attribution s), s));
  do! _ <- metric (MRequest (default UNMATCHED_ROUTE (at_route attribution)) status);
  match result with
  | Ok d => ret (mkDelivered (dl_response d) (dl_budget d) true)
  | Err e => throw e
  end.

(** [proxy_core_with_conn_guards]; its access-log event and its exported span are added by AccessLog. *)
Definition proxy_core (trusted : option (list IpNet)) (scheme : bytes) (peer : IpAddr)
    (q : Request M T) : Act Delivered :=
  do! admitted <- ask sv_admit;
  if negb admitted then
    do! _ <- metric (MRequest UNMATCHED_ROUTE 503);
    ret (plain (synth hm_empty 503 (bs "request-overloaded") (bs "server overloaded")))
  else
    do! _ <- metric (MInFlight 1);
    let '(client, headers) := set_forwarded contains parse_ip show_ip (pt_headers (q_parts q)) peer
      scheme trusted in
    let parts := with_headers (q_parts q) headers in
    (** The in-flight gauge is a guard. *)
    do! result <- attempt (finally
      match normalize_ingress_authority (A := A) parts scheme with
      | Some parts => proxy_core_inner scheme client (with_parts q parts)
      | None => ret (plain (synth hm_empty 400 (bs "bad-authority") (bs "bad request authority")))
      end (metric (MInFlight (-1))));
    report result.

(** [dispatch::handle]: an escaping error is a 502, and the HTTP/3 advertisement is attached. *)
Definition handle (trusted : option (list IpNet)) (alt_svc : option bytes) (scheme : bytes)
    (peer : IpAddr) (q : Request M T) (w : W) : Delivered * Tx M T P W :=
  let '(result, s) := proxy_core trusted scheme peer q (mkTx w (mkAttribution None None) []) in
  let d := match result with Ok d => d | Err _ => plain upstream_error end in
  let r := dl_response d in
  (mkDelivered (mkResp (re_status r) (attach_alt_svc (re_headers r) alt_svc) (re_body r))
     (dl_budget d) (dl_admission d), s).
End core.
Arguments Delivered : clear implicits.
