(* ===== verification/Proxy.v ===== *)
(** * The transaction: properties

    What a transaction may observe and change, step by step, and the properties of the whole: the
    gates before an upstream, the release of every permit and pick, response inspection, the
    upgrade switch, the declared headers and the order of the refusals. *)

From stdpp Require Import pretty.
From S2P Require Import Prelude Bytes Ssrf Paths Weighted RateLimit Chain Headers Manifest Upstream.
From S2P Require Import Balancer Registry Route RouteTable Control Forward Compression Body Respond.
From S2P Require Import Transaction.

(** ** Reasoning about actions *)

Section act_lemmas.
Context {S O : Type} (obs : S -> O).

(** An action that leaves an observation of the state alone, whatever it returns, and wherever it is
    dropped. *)
Definition stable {A} (m : Act S A) : Prop :=
  (forall s, obs (m s).2 = obs s) /\ (forall s s', cut m s s' -> obs s' = obs s).

Lemma stable_step {A} (f : S -> result A ServerError * S) : (forall s, obs (f s).2 = obs s) -> stable (step f).
Proof. intros Hf. by split. Qed.
Lemma stable_ret {A} (a : A) : stable (ret a).
Proof. by apply stable_step. Qed.
Lemma stable_throw {A} (e : ServerError) : stable (@throw S A e).
Proof. by apply stable_step. Qed.
Lemma stable_bind {A B} (m : Act S A) (k : A -> Act S B) :
  stable m -> (forall a, stable (k a)) -> stable (bind m k).
Proof.
  intros [Hm Hc] Hk. split.
  - intros s. cbn [bind run]. specialize (Hm s). destruct (m s) as [[a|e] s1]; cbn in *; [|done].
    by rewrite (proj1 (Hk a) s1).
  - intros s s' [Hs|(a & s1 & E & Hs)]; [by apply Hc|]. specialize (Hm s). rewrite E in Hm.
    by rewrite (proj2 (Hk a) _ _ Hs).
Qed.

Lemma stable_on_error {A} (m : Act S A) (c : Act S unit) : stable m -> stable c -> stable (on_error m c).
Proof.
  intros [Hm Hcm] [Hc _]. split.
  - intros s. cbn [on_error run]. specialize (Hm s). destruct (m s) as [[a|e] s1]; cbn in *; [done|].
    by rewrite Hc.
  - intros s s' (s1 & Hs & ->). by rewrite Hc, (Hcm _ _ Hs).
Qed.
Lemma stable_finally {A} (m : Act S A) (c : Act S unit) : stable m -> stable c -> stable (finally m c).
Proof.
  intros [Hm Hcm] [Hc _]. split.
  - intros s. cbn [finally run]. specialize (Hm s). destruct (m s) as [r s1]; cbn in *. by rewrite Hc.
  - intros s s' (s1 & Hs & ->). by rewrite Hc, (Hcm _ _ Hs).
Qed.

(** A bind that changes the observation got through its stable first half. *)
Lemma unstable_bind {A B} (m : Act S A) (k : A -> Act S B) s :
  stable m -> obs (bind m k s).2 <> obs s ->
  exists a s1, m s = (Ok a, s1) /\ obs s1 = obs s /\ bind m k s = k a s1 /\
    obs (k a s1).2 <> obs s1.
Proof.
  intros [Hm _] Hne. cbn [bind run] in *. specialize (Hm s).
  destruct (m s) as [[a|e] s1]; cbn in *; [|done]. exists a, s1. by rewrite Hm.
Qed.

Lemma stable_bind_at {A B} (m : Act S A) (k : A -> Act S B) s :
  stable m -> (forall a, stable (k a)) -> obs (bind m k s).2 = obs s.
Proof. intros Hm Hk. by apply stable_bind. Qed.

(** After a stable rest, the observation is the first half's. *)
Lemma stable_rest {A B} (m : Act S A) (k : A -> Act S B) s :
  (forall a, stable (k a)) -> obs (bind m k s).2 = obs (m s).2.
Proof. intros Hk. cbn [bind run]. destruct (m s) as [[a|e] s1]; cbn; [apply (proj1 (Hk a))|done]. Qed.
Lemma stable_cleanup {A} (m : Act S A) (c : Act S unit) s :
  stable c -> obs (on_error m c s).2 = obs (m s).2.
Proof. intros [Hc _]. cbn [on_error run]. destruct (m s) as [[a|e] s1]; cbn; [done|apply Hc]. Qed.

Lemma bind_ok {A B} (m : Act S A) (k : A -> Act S B) s b s' :
  bind m k s = (Ok b, s') -> exists a s1, m s = (Ok a, s1) /\ k a s1 = (Ok b, s').
Proof. cbn [bind run]. destruct (m s) as [[a|e] s1]; [|done]. intros E. by exists a, s1. Qed.
End act_lemmas.
#[export] Hint Resolve stable_ret stable_throw stable_bind stable_on_error stable_finally : plecto.

(** The split of an action's body along its binds, matches and early returns. *)
Ltac stable_one :=
  match goal with
  | |- stable _ (bind _ _) => apply stable_bind; [|intros ?]
  | |- stable _ (on_error _ _) => apply stable_on_error
  | |- stable _ (finally _ _) => apply stable_finally
  | |- stable _ (match ?x with _ => _ end) => destruct x
  | |- stable _ (let _ := _ in _) => cbv zeta
  | |- stable _ _ => solve [eauto with plecto]
  end.
Ltac stable_act := cbv zeta; repeat stable_one.

(** ** Which actions make attempts *)

Section quiet.
Context {M : Type} `{HeaderMap M} {T F G P W : Type} `{FilterHost F W} `{Server M T G P W}.
Notation quiet := (stable (tx_attempts (M := M) (T := T) (P := P) (W := W))).

Lemma quiet_ask {A} (f : W -> A * W) : quiet (ask f).
Proof. apply stable_step. intros s. by destruct (f (tx_world s)). Qed.
Lemma quiet_perform (f : W -> W) : quiet (perform f).
Proof. apply quiet_ask. Qed.
Lemma quiet_set_skipped r : quiet (set_skipped r).
Proof. by apply stable_step. Qed.
Lemma quiet_set_route r : quiet (set_route r).
Proof. by apply stable_step. Qed.
Lemma quiet_dispatched {A} e (call : W -> A * W) : quiet (dispatched e call).
Proof. apply stable_step. intros s. destruct (sv_panics _); [done|apply quiet_ask]. Qed.
Lemma quiet_await {A} (f : W -> A * W) : quiet (await f).
Proof. split; [apply quiet_ask|]. by intros s s' (w & _ & ->). Qed.
Lemma quiet_spawned {A} (call : W -> A * W) : quiet (spawned call).
Proof.
  split; [exact (proj1 (quiet_dispatched SeChainJoin call))|].
  by intros s s' (w & _ & [->|[->|(w' & _ & ->)]]).
Qed.
#[local] Hint Resolve quiet_ask quiet_perform quiet_set_skipped quiet_set_route quiet_dispatched
  quiet_await quiet_spawned : plecto.

Context (hm_empty : M) (value_from_str : bytes -> option bytes).
Context (routes : list (CompiledRoute F G)) (idx : nat).

Lemma quiet_request_chain r : quiet (run_request_chain routes idx r).
Proof. unfold run_request_chain. stable_act. Qed.
Lemma quiet_response_chain r p : quiet (run_response_chain routes idx r p).
Proof. unfold run_response_chain. stable_act. Qed.
#[local] Hint Resolve quiet_request_chain quiet_response_chain : plecto.

Lemma quiet_release g p k pick : quiet (drop_slot g p k pick).
Proof. unfold drop_slot. stable_act. Qed.
#[local] Hint Resolve quiet_release : plecto.

Lemma quiet_request_body fs rb body hs : quiet (request_body_hook hm_empty routes idx fs rb body hs).
Proof. unfold request_body_hook. stable_act. Qed.
Lemma quiet_upgrade hf fwd up h g p k pick :
  quiet (upgrade_switch hm_empty value_from_str routes idx hf fwd up h g p k pick).
Proof. unfold upgrade_switch. stable_act. Qed.
Lemma quiet_inspect cfg fwd edited uh ub :
  quiet (inspect_response_body hm_empty routes idx cfg fwd edited uh ub).
Proof. unfold inspect_response_body, discard, metric. stable_act. Qed.
#[local] Hint Resolve quiet_inspect : plecto.
Lemma quiet_respond route fwd st up : quiet (respond_through_chain hm_empty routes idx route fwd st up).
Proof. unfold respond_through_chain, discard, metric. stable_act. Qed.
End quiet.
#[export] Hint Resolve quiet_ask quiet_perform quiet_set_skipped quiet_set_route quiet_dispatched
  quiet_await quiet_spawned quiet_request_chain quiet_response_chain quiet_release quiet_request_body quiet_upgrade
  quiet_inspect quiet_respond : plecto.

(** ** Accounting for held permits and picks *)

Section accounting.
Context {S : Type} (obs : S -> Z).

(** [m] moves the account by [dok] of its result, or by [derr] when it fails or is dropped. *)
Definition accounts {A} (dok : A -> Z) (derr : Z) (m : Act S A) : Prop := forall s,
  match m s with
  | (Ok a, s') => obs s' = obs s + dok a
  | (Err _, s') => obs s' = obs s + derr
  end /\
  forall s', cut m s s' -> obs s' = obs s + derr.
(** A cleanup that moves it by [c] whatever it returns. *)
Definition settles (c : Z) (m : Act S unit) : Prop := forall s, obs (m s).2 = obs s + c.

Lemma accounts_ret {A} (dok : A -> Z) derr a : dok a = 0 -> accounts dok derr (ret a).
Proof. intros Ha s. cbn. split; [lia|done]. Qed.
Lemma accounts_throw {A} (dok : A -> Z) derr e : derr = 0 -> accounts dok derr (throw e).
Proof. intros -> s. cbn. split; [lia|done]. Qed.
Lemma accounts_stable {A} (dok : A -> Z) derr (m : Act S A) :
  stable obs m -> (forall a, dok a = 0) -> derr = 0 -> accounts dok derr m.
Proof.
  intros [Hm Hc] Hd -> s. specialize (Hm s). split.
  - destruct (m s) as [[a|e] s']; cbn in *; rewrite ?Hd; lia.
  - intros s' Hs. rewrite (Hc _ _ Hs). lia.
Qed.
Lemma accounts_bind {A B} (d1 : A -> Z) (dok : B -> Z) derr (m : Act S A) (k : A -> Act S B) :
  accounts d1 derr m -> (forall a, accounts (fun b => dok b - d1 a) (derr - d1 a) (k a)) ->
  accounts dok derr (bind m k).
Proof.
  intros Hm Hk s. destruct (Hm s) as [Hr Hc]. split.
  - cbn [bind run]. destruct (m s) as [[a|e] s1]; [|done].
    destruct (Hk a s1) as [Hka _]. destruct (k a s1) as [[b|e] s2]; lia.
  - intros s' [Hs|(a & s1 & E & Hs)]; [by apply Hc|]. rewrite E in Hr.
    destruct (Hk a s1) as [_ Hka]. rewrite (Hka _ Hs). lia.
Qed.
Lemma accounts_bind_stable {A B} (dok : B -> Z) derr (m : Act S A) (k : A -> Act S B) :
  stable obs m -> derr = 0 -> (forall a, accounts dok derr (k a)) -> accounts dok derr (bind m k).
Proof.
  intros Hm -> Hk. apply (accounts_bind (fun _ => 0)); [by apply accounts_stable|].
  intros a s. destruct (Hk a s) as [Hka Hkc]. split.
  - destruct (k a s) as [[b|e] s2]; lia.
  - intros s' Hs. rewrite (Hkc _ Hs). lia.
Qed.
Lemma accounts_on_error {A} (d : A -> Z) e c (m : Act S A) (cleanup : Act S unit) derr :
  accounts d e m -> settles c cleanup -> derr = e + c -> accounts d derr (on_error m cleanup).
Proof.
  intros Hm Hc -> s. destruct (Hm s) as [Hr Hcut]. split.
  - cbn [on_error run]. destruct (m s) as [[a|er] s1]; [done|]. specialize (Hc s1). cbn in *. lia.
  - intros s' (s1 & Hs & ->). rewrite Hc, (Hcut _ Hs). lia.
Qed.
Lemma accounts_finally {A} (d : A -> Z) e c (m : Act S A) (cleanup : Act S unit) dok derr :
  accounts d e m -> settles c cleanup -> (forall a, dok a = d a + c) -> derr = e + c ->
  accounts dok derr (finally m cleanup).
Proof.
  intros Hm Hc Hd -> s. destruct (Hm s) as [Hr Hcut]. split.
  - cbn [finally run]. destruct (m s) as [[a|er] s1]; specialize (Hc s1); cbn in *; rewrite ?Hd; lia.
  - intros s' (s1 & Hs & ->). rewrite Hc, (Hcut _ Hs). lia.
Qed.
Lemma settles_bind c1 c2 (m k : Act S unit) :
  (forall s, exists s', m s = (Ok tt, s')) -> settles c1 m -> settles c2 k ->
  settles (c1 + c2) (do! _ <- m; k).
Proof.
  intros Hok Hm Hk s. cbn [bind run]. specialize (Hm s). destruct (Hok s) as [s' E]. rewrite E in *.
  rewrite Hk. cbn in Hm. lia.
Qed.
End accounting.

(** What a metric adds to an account that counts [c] for each request in flight and [e] for each
    request counted as answered. *)
Definition metric_weight (c e : Z) (m : Metric) : Z :=
  match m with MInFlight delta => c * delta | MRequest _ _ => e | _ => 0 end.

(** [held] counts [a] for each breaker permit and [b] for each pick this transaction holds, [c] for
    each request in flight and [e] for each request counted; the tunnel takes over one permit and one
    pick.  Nothing else a transaction does moves it, nor does what others do while it waits. *)
Class ServerHolds {M T F G P W : Type} `{FilterHost F W} `{Server M T G P W} (held : W -> Z) (a b c e : Z)
    : Prop := {
  sh_env : forall g k, EnvHolds (H0 := sv_env g k) held b;
  sh_hooks : HooksKeep held;
  sh_admit : forall w, held (sv_admit w).2 = held w;
  sh_limit : forall r c w, held (sv_check_rate_limit r c w).2 = held w;
  sh_split : forall r w, held (sv_pick_upstream r w).2 = held w;
  sh_acquire : forall g w, held (sv_try_acquire g w).2
    = held w + match (sv_try_acquire g w).1 with Some _ => a | None => 0 end;
  sh_release : forall g p w, held (sv_release g p w) = held w - a;
  sh_pick : forall g k w, held (sv_pick g k w).2
    = held w + match (sv_pick g k w).1 with Some _ => b | None => 0 end;
  sh_tunnel : forall g p pick idle w, held (sv_tunnel g p pick idle w) = held w - a - b;
  sh_reserve : forall n w, held (sv_reserve n w).2 = held w;
  sh_unreserve : forall n w, held (sv_unreserve n w) = held w;
  sh_elapses : forall w, held (sv_read_elapses w).2 = held w;
  sh_panics : forall w w', sv_panics w = Some w' -> held w' = held w;
  sh_discard : forall body w, held (sv_discard body w) = held w;
  sh_metric : forall m w, held (sv_metric m w) = held w + metric_weight c e m;
  sh_suspended : forall w w', sv_suspended w w' -> held w' = held w;
}.

(** Along the binds whose first half leaves the account alone. *)
Ltac accounts_step :=
  match goal with
  | |- accounts _ _ _ (bind _ _) =>
    apply accounts_bind_stable; [solve [eauto with plecto]|lia|intros ?]
  | |- accounts _ _ _ (match ?x with _ => _ end) => destruct x
  | |- accounts _ _ _ (let _ := _ in _) => cbv zeta
  | |- accounts _ _ _ (ret _) => apply accounts_ret; lia
  | |- accounts _ _ _ (throw _) => apply accounts_throw; lia
  end.

Section held.
Context {M : Type} `{HeaderMap M} {T F G P W : Type} `{FilterHost F W} `{Server M T G P W}.
Context (held : W -> Z) (a b c e : Z) `{!ServerHolds (F := F) held a b c e}.
Notation on_world := (fun s : Tx M T P W => held (tx_world s)).
Notation fixed := (stable on_world).

Lemma fixed_ask {A} (f : W -> A * W) : (forall w, held (f w).2 = held w) -> fixed (ask f).
Proof.
  intros Hf. apply stable_step. intros s. specialize (Hf (tx_world s)). by destruct (f (tx_world s)).
Qed.
Lemma fixed_perform (f : W -> W) : (forall w, held (f w) = held w) -> fixed (perform f).
Proof. intros Hf. by apply fixed_ask. Qed.
Lemma fixed_await {A} (f : W -> A * W) : (forall w, held (f w).2 = held w) -> fixed (await f).
Proof.
  intros Hf. split; [apply (fixed_ask f Hf)|]. intros s s' (w & Hw & ->). by apply sh_suspended.
Qed.
Lemma fixed_dispatched {A} er (call : W -> A * W) : (forall w, held (call w).2 = held w) ->
  fixed (dispatched er call).
Proof.
  intros Hc. apply stable_step. intros s. destruct (sv_panics _) eqn:Ep; [by apply sh_panics in Ep|].
  apply (proj1 (fixed_ask call Hc)).
Qed.
Lemma fixed_spawned {A} (call : W -> A * W) : (forall w, held (call w).2 = held w) -> fixed (spawned call).
Proof.
  intros Hc. split; [apply (fixed_dispatched SeChainJoin call Hc)|].
  intros s s' (w & Hw & Hs). pose proof (sh_suspended _ _ Hw) as Eh. rewrite <- Eh.
  destruct Hs as [->|[->|(w' & Hp & ->)]]; cbn; [done|apply Hc|by apply sh_panics].
Qed.

Context (hm_empty : M) (value_from_str : bytes -> option bytes).
Context (routes : list (CompiledRoute F G)) (idx : nat).
#[local] Existing Instance sh_hooks.

Lemma fixed_discard body : fixed (discard body).
Proof. apply fixed_perform, sh_discard. Qed.
Lemma fixed_metric m : metric_weight c e m = 0 -> fixed (metric m).
Proof. intros Hm. apply fixed_perform. intros w. rewrite sh_metric. lia. Qed.
Lemma fixed_inspection_skipped r : fixed (metric (MInspectionSkipped r)).
Proof. by apply fixed_metric. Qed.
Lemma fixed_unreserve n : fixed (perform (sv_unreserve n)).
Proof. apply fixed_perform, sh_unreserve. Qed.
Lemma fixed_reserve n : fixed (await (sv_reserve n)).
Proof. apply fixed_await, sh_reserve. Qed.
Lemma fixed_elapses : fixed (await sv_read_elapses).
Proof. apply fixed_await, sh_elapses. Qed.
Lemma fixed_skipped r : fixed (set_skipped r).
Proof. by apply stable_step. Qed.
Lemma fixed_request_body_call body hs : fixed (spawned (snap_request_body routes idx body hs)).
Proof.
  apply fixed_spawned. intros w. unfold snap_request_body. destruct (routes !! idx); [|done].
  apply request_body_keeps, sh_hooks.
Qed.
Lemma fixed_response_body_call fwd edited body :
  fixed (spawned (snap_response_body routes idx fwd edited body)).
Proof.
  apply fixed_spawned. intros w. unfold snap_response_body, dispatch_response_body.
  destruct (routes !! idx); [|done]. apply response_body_keeps, sh_hooks.
Qed.
#[local] Hint Resolve fixed_discard fixed_inspection_skipped fixed_unreserve fixed_reserve fixed_elapses
  fixed_skipped fixed_request_body_call fixed_response_body_call : plecto.

Lemma fixed_request_chain r : fixed (run_request_chain routes idx r).
Proof.
  unfold run_request_chain. apply stable_bind.
  - apply fixed_dispatched. intros w. unfold snap_request_inline, dispatch_request_inline.
    destruct (routes !! idx); [apply request_inline_keeps, sh_hooks|done].
  - intros [o|k r']; [apply stable_ret|]. apply fixed_spawned. intros w. unfold snap_request_from, dispatch_request_from.
    destruct (routes !! idx); [apply request_loop_keeps, sh_hooks|done].
Qed.
Lemma fixed_response_chain r p : fixed (run_response_chain routes idx r p).
Proof.
  unfold run_response_chain. apply stable_bind.
  - apply fixed_dispatched. intros w. unfold snap_response_inline, dispatch_response_inline.
    destruct (routes !! idx); [apply response_inline_keeps, sh_hooks|done].
  - intros [o|k p']; [apply stable_ret|]. apply fixed_spawned. intros w.
    unfold snap_response_from, dispatch_response_from. destruct (routes !! idx) as [compiled|]; [|done].
    destruct (length _); [done|]. apply response_loop_keeps, sh_hooks.
Qed.
#[local] Hint Resolve fixed_request_chain fixed_response_chain : plecto.

Lemma fixed_request_body fs rb body hs : fixed (request_body_hook hm_empty routes idx fs rb body hs).
Proof. unfold request_body_hook. stable_act. Qed.
Lemma fixed_inspect cfg fwd edited uh ub : fixed (inspect_response_body hm_empty routes idx cfg fwd edited uh ub).
Proof. unfold inspect_response_body. stable_act. Qed.
#[local] Hint Resolve fixed_inspect : plecto.
Lemma fixed_respond route fwd st up : fixed (respond_through_chain hm_empty routes idx route fwd st up).
Proof. unfold respond_through_chain. stable_act. Qed.

Lemma settles_perform delta (f : W -> W) : (forall w, held (f w) = held w + delta) -> settles on_world delta (perform f).
Proof. intros Hf s. cbn. apply Hf. Qed.
Lemma settles_free g p : settles on_world (- a) (perform (sv_release g p)).
Proof. apply settles_perform. intros w. rewrite sh_release. lia. Qed.
Lemma settles_slot g p k pick : settles on_world (- a - b) (drop_slot g p k pick).
Proof.
  replace (- a - b) with (- b + - a) by lia. apply settles_bind; [by eexists| |apply settles_free].
  apply settles_perform. intros w. pose proof (sh_env (T := T) (F := F) (a := a) g k).
  rewrite holds_drop. lia.
Qed.

Lemma accounts_settles {A} delta (m : Act _ unit) (k : A) dok derr :
  settles on_world delta m -> (forall s, exists s', m s = (Ok tt, s')) -> (forall s s', ~ cut m s s') ->
  dok k = delta -> accounts on_world dok derr (do! _ <- m; ret k).
Proof.
  intros Hm Hok Hcut Hd s. split.
  - cbn [bind run]. specialize (Hm s). destruct (Hok s) as [s' E]. rewrite E in *. cbn in *. lia.
  - intros s' [Hs|(? & ? & _ & [])]. by apply Hcut in Hs.
Qed.
Lemma slot_uncut g p k pick (s s' : Tx M T P W) : ~ cut (drop_slot g p k pick) s s'.
Proof. by intros [Hs|(? & ? & _ & Hs)]. Qed.

Lemma upgrade_accounts hf fwd up h g p k pick :
  accounts on_world (fun _ => - a - b) (- a - b)
    (upgrade_switch hm_empty value_from_str routes idx hf fwd up h g p k pick).
Proof.
  assert (Hstay : forall r, accounts on_world (fun _ => - a - b) (- a - b)
    (do! _ <- drop_slot g p k pick; @ret (Tx M T P W) (Reply M T) r)).
  { intros r. eapply accounts_settles; [apply settles_slot|by eexists|apply slot_uncut|done]. }
  assert (Htun : forall idle (r : Reply M T), accounts on_world (fun _ => - a - b) (- a - b)
    (do! _ <- perform (sv_tunnel g p pick idle); ret r)).
  { intros idle r. eapply (accounts_settles (- a - b)); [|by eexists|intros s s' Hs; exact Hs|done]. apply settles_perform.
    intros w. rewrite sh_tunnel. lia. }
  unfold upgrade_switch. destruct up as [[token idle]|]; [|apply Hstay].
  destruct (negb _); [apply Hstay|]. cbv zeta.
  destruct hf; [|destruct value_from_str; [apply Htun|apply Hstay]].
  eapply (accounts_bind _ (fun _ => 0)).
  - eapply (accounts_on_error _ _ 0 (- a - b)); [|apply settles_slot|lia].
    apply accounts_stable; [eauto with plecto|done|done].
  - intros o. assert (Hz : forall m : Act (Tx M T P W) (Reply M T),
      accounts on_world (fun _ => - a - b) (- a - b) m ->
      accounts on_world (fun _ => - a - b - 0) (- a - b - 0) m).
    { intros m Hm. by rewrite Z.sub_0_r. }
    apply Hz. destruct o as [edited|resp]; [|apply Hstay].
    destruct (negb _); [apply Hstay|]. destruct value_from_str; [apply Htun|apply Hstay].
Qed.
End held.

Section core_held.
Context {M : Type} `{HeaderMap M} {A : Type} `{AuthorityLib A}.
Context {T F C SN P W E : Type} `{FilterHost F W} `{Server M T (Group C SN) P W} `{Codec E}.
Context (builder_ok : bytes -> bytes -> bool) (hm_empty : M) (value_from_str : bytes -> option bytes).
Context (routes : list (CompiledRoute F (Group C SN))) (traceparent : bytes).
Context (held : W -> Z) (a b c e : Z) `{!ServerHolds (F := F) held a b c e}.
Notation on_world := (fun s : Tx M T P W => held (tx_world s)).

(** A pick goes in, and comes out with a response only; the loop does not fail, and dropped it gives
    the pick back. *)
Lemma forward_accounts group key fw pick body per_try deadline :
  accounts on_world (fun o => match o with FoResponse _ _ _ => 0 | _ => - b end) (- b)
    (forward_act builder_ok hm_empty value_from_str group key fw pick body per_try deadline).
Proof.
  intros s. pose proof (sh_env (T := T) (F := F) (a := a) group key). split.
  - cbn [forward_act run].
    destruct (forward_total (H0 := sv_env group key) builder_ok hm_empty value_from_str fw (Registry.scheme group)
      per_try deadline pick body (g_max_retries group) (tx_world s)) as [[[o w] made] E1].
    rewrite E1. cbn. unfold forward_with_retry in E1.
    pose proof (forward_loop_holds (H0 := sv_env group key) _ _ _ _ _ _ _ held b _ _ _ _ _ _ _ _ _ _ E1) as Hh.
    destruct o; lia.
  - intros s' (w & Hc & ->). unfold forward_cut in Hc.
    apply (forward_loop_cut_holds (H0 := sv_env group key) _ _ _ _ _ _ _ _ held b) in Hc; [cbn; lia|].
    intros w1 w2. apply (sh_suspended (F := F)).
Qed.

Lemma free_ret {B} g p (k : B) dok derr : dok k = - a ->
  accounts on_world dok derr (do! _ <- perform (sv_release g p); ret k).
Proof.
  intros Hd. eapply (accounts_settles held (- a)); [apply (settles_free (F := F) held a b c e)|by eexists| |done].
  intros s s' Hs. exact Hs.
Qed.
Lemma free_throw {B} g p er (dok : B -> Z) : accounts on_world dok (- a)
  (do! _ <- perform (sv_release g p); throw er).
Proof. intros s. cbn. rewrite sh_release. split; [lia|]. by intros s' [[]|(? & ? & _ & [])]. Qed.

Lemma forward_phase_accounts route q upgrade fwd group key path per_try deadline body :
  accounts on_world (fun _ => 0) 0
    (forward_phase builder_ok hm_empty value_from_str routes traceparent route q upgrade fwd group key
       path per_try deadline body).
Proof.
  unfold forward_phase. cbv zeta.
  apply (accounts_bind _ (fun o => match o with Some _ => a | None => 0 end)).
  { intros s. split; [|done]. cbn [ask step run].
    pose proof (sh_acquire (T := T) (F := F) (P := P) (held := held) (b := b) group (tx_world s)) as Hq.
    destruct (sv_try_acquire group (tx_world s)). exact Hq. }
  intros [permit|].
  2:{ apply accounts_stable; [|intros; lia|lia].
      apply stable_bind; [by apply (fixed_metric (F := F) held a b c e)|intros _; apply stable_ret]. }
  apply (accounts_bind _ (fun o => match o with Some _ => b | None => 0 end)).
  { intros s. split; [|done]. cbn [ask step run].
    pose proof (sh_pick (T := T) (F := F) (held := held) (b := b) group key (tx_world s)) as Hq.
    destruct (sv_pick group key (tx_world s)). cbn in *. lia. }
  intros [pick|]; [|apply free_ret; lia].
  apply (accounts_bind _ (fun o => match o with FoResponse _ _ _ => 0 | _ => - b end)).
  { eapply (accounts_on_error _ _ (- b) (- a));
      [apply forward_accounts|apply (settles_free (F := F) held a b c e)|lia]. }
  intros [status response up| | |conn|]; try (apply free_ret; lia);
    try (replace (0 - a - b - - b) with (- a) by lia; apply free_throw).
  destruct (status =? 101).
  - apply (accounts_bind _ (fun _ => - a - b)).
    { replace (0 - a - b - 0) with (- a - b) by lia. apply (upgrade_accounts (F := F) held a b c e). }
    intros r. apply accounts_ret. lia.
  - eapply (accounts_finally _ (fun _ => 0) 0 (- a - b));
      [|apply (settles_slot (F := F) held a b c e)|intros; lia|lia].
    apply accounts_stable; [apply (fixed_respond (F := F) held a b c e)|done|done].
Qed.

Lemma routed_phase_accounts q client route req bodyless :
  accounts on_world (fun _ => 0) 0
    (routed_phase builder_ok hm_empty value_from_str routes traceparent q client route req bodyless).
Proof.
  assert (Hm : forall name, stable on_world (@metric M T (Group C SN) P W _ (MRateLimited name)))
    by (intros name; by apply (fixed_metric (F := F) held a b c e)).
  assert (Hb := fun fs rb body hs => fixed_request_body (F := F) held a b c e hm_empty routes (ri_index route) fs rb body hs).
  assert (Hl : stable on_world (ask (sv_check_rate_limit route client))).
  { apply fixed_ask. intros w. apply sh_limit. }
  assert (Hs : stable on_world (ask (sv_pick_upstream route))).
  { apply fixed_ask. intros w. apply sh_split. }
  assert (Hq := fun r => fixed_request_chain (F := F) held a b c e routes (ri_index route) r).
  assert (Hn : forall g key, stable on_world (ask (fun w => (env_now (Env := sv_env g key) w, w)))) by done.
  unfold routed_phase. accounts_step. destruct a0; [|repeat accounts_step].
  cbv zeta. apply accounts_bind_stable.
  { destruct (ri_has_filters route); eauto with plecto. }
  { lia. }
  intros [forward|resp]; [|accounts_step]. accounts_step. destruct a0 as [group|]; [|accounts_step].
  cbv zeta. accounts_step. accounts_step. destruct a1; [apply forward_phase_accounts|accounts_step].
Qed.
End core_held.

(** ** Actions that returned *)

Lemma on_error_ok {S A} (m : Act S A) c s (r : A) s' : on_error m c s = (Ok r, s') -> m s = (Ok r, s').
Proof. cbn [on_error run]. by destruct (m s) as [[]]. Qed.

Lemma dispatched_ok {M T G P W A} `{Server M T G P W} e (call : W -> A * W) (s : Tx M T P W) r s' :
  dispatched e call s = (Ok r, s') ->
  (exists w w', call w = (r, w')) /\ tx_attribution s' = tx_attribution s.
Proof.
  cbn [dispatched step run]. destruct (sv_panics _); [done|]. cbn [ask step run].
  destruct (call (tx_world s)) as [r' w'] eqn:Ec. intros [= -> <-]. split; [by eexists _, _|done].
Qed.

(** ** The gates before an upstream *)

Section gates.
Context {M : Type} `{HeaderMap M} {A : Type} `{AuthorityLib A}.
Context {T F C SN P W E : Type} `{FilterHost F W} `{Server M T (Group C SN) P W} `{Codec E}.
Context (builder_ok : bytes -> bytes -> bool) (hm_empty : M) (value_from_str : bytes -> option bytes).
Context (routes : list (CompiledRoute F (Group C SN))) (traceparent : bytes).
Notation attempts s := (tx_attempts (M := M) (T := T) (P := P) (W := W) s).

Lemma ask_ok {O} (f : W -> O * W) (s : Tx M T P W) o s1 :
  ask f s = (Ok o, s1) -> f (tx_world s) = (o, tx_world s1) /\ s1 = in_world s (tx_world s1).
Proof. cbn [ask step run]. destruct (f (tx_world s)) as [o' w'] eqn:Ef. by intros [= -> <-]. Qed.

Lemma forward_phase_gates route q upgrade fwd group key path per_try deadline body (s : Tx M T P W) :
  let m := forward_phase builder_ok hm_empty value_from_str routes traceparent route q upgrade fwd group key
             path per_try deadline body in
  attempts (m s).2 <> attempts s ->
  exists permit pick w1 w2 made o w3,
    sv_try_acquire group (tx_world s) = (Some permit, w1) /\ sv_pick group key w1 = (Some pick, w2) /\
    forward_with_retry (H0 := sv_env group key) builder_ok hm_empty value_from_str
      (forward_request traceparent route q upgrade (inspectable_request route fwd) path)
      (Registry.scheme group) per_try deadline pick body (g_max_retries group) w2 = Some (o, w3, made) /\
    attempts (m s).2 = attempts s ++ made.
Proof.
  cbv zeta. unfold forward_phase. intros Hne.
  apply unstable_bind in Hne as (acq & s1 & E1 & Ea1 & Ek & Hne); [|apply quiet_ask].
  rewrite Ek, <- Ea1. apply ask_ok in E1 as [E1 _]. clear Ek.
  destruct acq as [permit|];
    [|destruct Hne; apply stable_bind_at; [apply quiet_perform|intros _; apply stable_ret]].
  apply unstable_bind in Hne as (pk & s2 & E2 & Ea2 & Ek & Hne); [|apply quiet_ask].
  rewrite Ek, <- Ea2. apply ask_ok in E2 as [E2 _]. clear Ek.
  destruct pk as [pick|];
    [|destruct Hne; apply stable_bind_at; [apply quiet_perform|intros _; apply stable_ret]].
  exists permit, pick, (tx_world s1), (tx_world s2). revert Hne.
  rewrite stable_rest; [rewrite stable_cleanup by apply quiet_perform|].
  - cbn [forward_act run]. destruct forward_with_retry as [[[o w] made]|] eqn:Ef; [|done].
    intros _. by exists made, o, w.
  - intros [st r up| | |c|]; try (apply stable_bind; [apply quiet_perform|intros _; auto with plecto]).
    destruct (st =? 101); [apply stable_bind; [apply quiet_upgrade|intros ?; apply stable_ret]|].
    apply stable_finally; [apply quiet_respond|apply quiet_release].
Qed.

(** What the request-body hook let through of the headers the chain left: on a route whose chain
    reads request bodies the whole body, read without error and within the buffer, was shown to
    the hooks, and they left [body] and [headers']; without such a chain or such a body both are as
    they were. *)
Definition let_through (q : Request M T) (route : RouteInfo (Group C SN)) (bodyless : bool)
    (headers : list Header) (body : ForwardBody) (headers' : list Header) : Prop :=
  if bh_request (ri_body_hooks route) && negb bodyless then
    stream_fails (q_frames q) = false /\ blen (stream_data (q_frames q)) <= MAX_REQUEST_BODY_BUFFER /\
    exists edited (w w' : W), body = Replayable edited /\
      snap_request_body routes (ri_index route) (stream_data (q_frames q)) headers w
        = (RboForward edited headers', w')
  else headers' = headers /\ body = if bodyless then Bodyless else OneShot (BodyStream (q_body q)).

(** The hook, on the body the request came with. *)
Definition body_hook (q : Request M T) (route : RouteInfo (Group C SN)) (bodyless : bool) (headers : list Header) :=
  request_body_hook (M := M) (T := T) (F := F) (P := P) (W := W) hm_empty routes (ri_index route) (q_frames q)
    (bh_request (ri_body_hooks route)) (if bodyless then Bodyless else OneShot (BodyStream (q_body q))) headers.

Lemma body_hook_spec q route bodyless headers (s s' : Tx M T P W) body headers' :
  body_hook q route bodyless headers s = (Ok (Proceed body headers'), s') ->
  let_through q route bodyless headers body headers'.
Proof.
  unfold body_hook, request_body_hook, let_through.
  destruct (bh_request (ri_body_hooks route)); cbn [negb andb]; [|by intros [= <- <- _]].
  destruct bodyless; cbn [negb take_oneshot]; [by intros [= <- <- _]|]. cbv zeta. intros Eh.
  apply bind_ok in Eh as (op & s1 & _ & Eh). destruct (negb op); [done|].
  apply bind_ok in Eh as (el & s2 & _ & Eh).
  destruct el; [by apply bind_ok in Eh as (? & ? & _ & Eh)|].
  pose proof (buffer_request_loop_spec (q_frames q) MAX_REQUEST_BODY_BUFFER [] ltac:(vm_compute; discriminate)) as Hbuf.
  change (buffer_request_loop (q_frames q) MAX_REQUEST_BODY_BUFFER [])
    with (buffer_request_body (q_frames q) MAX_REQUEST_BODY_BUFFER) in Hbuf.
  destruct buffer_request_body as [b| |]; [|by apply bind_ok in Eh as (? & ? & _ & Eh)..].
  destruct Hbuf as (-> & Hf & Hl). apply bind_ok in Eh as (o & s3 & Eo & Eh).
  apply on_error_ok, (dispatched_ok (A := RequestBodyOutcome) SeChainJoin) in Eo as ((w & w' & Eo) & _).
  destruct o as [resp|edited headers1]; [by apply bind_ok in Eh as (? & ? & _ & Eh)|].
  injection Eh as <- <- _. split_and!; [done|done|]. by exists edited, w, w'.
Qed.

(** What a transaction that reached an upstream went through from the chosen route on, in this order,
    each step in the world the one before it left: the rate limit, the filter chain, the split, the
    body hook, the breaker, the balancer, and the forward with the attempts [made]. *)
Inductive passed (q : Request M T) (client : IpAddr) (route : RouteInfo (Group C SN)) (req : HttpRequest)
    (bodyless : bool) (s : Tx M T P W) (made : list (Attempt M (UpResponse M T) P)) : Prop :=
| passed_gates fwd group body headers permit pick w1 s2 w3 s4 w5 w6 w7 o :
    let key := hash_key group (pt_headers (q_parts q)) client in
    let overall := overall_timeout (ri_timeouts route) (g_overall_timeout group) in
    let fw := forward_request traceparent route q (upgrade_intent route q bodyless)
      (inspectable_request route
         (mkRequest (rq_method fwd) (rq_path_with_query fwd) (rq_authority fwd) (rq_scheme fwd) headers))
      (rewrite_path (rq_path_with_query fwd) (ri_strip_prefix route)) in
    sv_check_rate_limit route client (tx_world s) = (RlAllow, w1) ->
    (if ri_has_filters route
     then run_request_chain routes (ri_index route) req (in_world s w1) = (Ok (CoForward fwd), s2)
     else fwd = req /\ s2 = in_world s w1) ->
    sv_pick_upstream route (tx_world s2) = (Some group, w3) ->
    body_hook q route bodyless (rq_headers fwd) (in_world s2 w3) = (Ok (Proceed body headers), s4) ->
    let_through q route bodyless (rq_headers fwd) body headers ->
    sv_try_acquire group (tx_world s4) = (Some permit, w5) ->
    sv_pick group key w5 = (Some pick, w6) ->
    forward_with_retry (H0 := sv_env group key) builder_ok hm_empty value_from_str fw (Registry.scheme group)
      (request_timeout (ri_timeouts route) (g_request_timeout group))
      (if overall =? 0 then None else Some (env_now (Env := sv_env group key) w3 + overall))
      pick body (g_max_retries group) w6 = Some (o, w7, made) ->
    Forall (sends_request (H0 := sv_env group key) hm_empty value_from_str fw (Registry.scheme group) body) made ->
    (forall a, head made = Some a -> at_pick a = pick) ->
    passed q client route req bodyless s made.

Lemma routed_phase_gates q client route req bodyless (s : Tx M T P W) :
  let m := routed_phase builder_ok hm_empty value_from_str routes traceparent q client route req bodyless in
  attempts (m s).2 <> attempts s ->
  exists made, attempts (m s).2 = attempts s ++ made /\ passed q client route req bodyless s made.
Proof.
  cbv zeta. unfold routed_phase. intros Hne.
  apply unstable_bind in Hne as (dec & s1 & E1 & Ea1 & Ek & Hne); [|apply quiet_ask].
  rewrite Ek, <- Ea1. apply ask_ok in E1 as [E1 Es1]. clear Ek.
  destruct dec as [|ms];
    [|destruct Hne; apply stable_bind_at; [apply quiet_perform|intros _; apply stable_ret]].
  cbv zeta in *.
  apply unstable_bind in Hne as (co & s2 & E2 & Ea2 & Ek & Hne);
    [|destruct (ri_has_filters route); [apply quiet_request_chain|apply stable_ret]].
  rewrite Ek, <- Ea2. clear Ek. destruct co as [resp|fwd]; [by destruct Hne|].
  apply unstable_bind in Hne as (ch & s3 & E3 & Ea3 & Ek & Hne); [|apply quiet_ask].
  rewrite Ek, <- Ea3. apply ask_ok in E3 as [E3 Es3]. clear Ek.
  destruct ch as [group|]; [|by destruct Hne]. cbv zeta in *.
  apply unstable_bind in Hne as (now & s4 & E4 & Ea4 & Ek & Hne); [|apply quiet_ask].
  rewrite Ek, <- Ea4. clear Ek. apply ask_ok in E4 as [E4 Es4].
  injection E4 as <- Ew4. rewrite <- Ew4 in Es4.
  assert (s4 = in_world s2 (tx_world s3)) as -> by (rewrite Es4, Es3; done).
  apply unstable_bind in Hne as (hk & s5 & E5 & Ea5 & Ek & Hne); [|apply quiet_request_body].
  rewrite Ek, <- Ea5. clear Ek. destruct hk as [body headers|r]; [|by destruct Hne].
  apply forward_phase_gates in Hne as (permit & pick & w5 & w6 & made & o & w7 & Ep & Ek & Ef & ->).
  exists made. split; [done|].
  pose proof Ef as El. unfold forward_with_retry in El. eapply forward_loop_sends in El as [Hall Hfirst]; [|done].
  refine (passed_gates _ _ _ _ _ _ _ fwd group body headers permit pick (tx_world s1) s2 (tx_world s3) s5 w5 w6 w7 o
    E1 _ E3 E5 (body_hook_spec _ _ _ _ _ _ _ _ E5) Ep Ek Ef Hall Hfirst).
  rewrite <- Es1. destruct (ri_has_filters route); [done|]. by injection E2 as -> ->.
Qed.
End gates.

(** ** Inspection *)

Section inspection.
Context {M : Type} `{HeaderMap M} {T F G P W : Type} `{FilterHost F W} `{Server M T G P W}.
Context (hm_empty : M) (routes : list (CompiledRoute F G)) (idx : nat).

(** What may be sent to the client of an in-scope body: all of it after the hooks saw all of it,
    or an over-cap body in the mode the route declares for those. *)
Definition inspected (cfg : ResponseBodyConfig) (fwd : HttpRequest) (edited : HttpResponse)
    (uh : M) (ub : list (option (Frame T))) (skipped : option InspectionSkip) (reply : Reply M T) : Prop :=
  let d := stream_data ub in
  (blen d <= rbc_max_bytes cfg /\ stream_fails ub = false /\
   exists (w w' : W) body' headers' t,
     snap_response_body routes idx fwd edited d w = (SboForward body' headers' t, w') /\
     reply = http_response hm_empty (mkResponse (rs_status edited) headers' body')) \/
  (rbc_max_bytes cfg < blen d /\ skipped = Some OverCap /\
   stream_data (rp_body reply) = d /\ stream_fails (rp_body reply) = stream_fails ub /\
   exists head rest, blen head = rbc_max_bytes cfg /\ d = head ++ stream_data rest /\
     reply = stream_response hm_empty (rs_status edited) (rs_headers edited) uh (prefixed head rest) /\
     (rbc_over_cap cfg = OcPassthrough \/
      rbc_over_cap cfg = OcProcessPartial /\
      exists w w' : W, snap_response_body routes idx fwd edited head w
        = (SboForward head (rs_headers edited) false, w'))).

Lemma snap_body_untransformed fwd p body (w : W) b hs w' :
  snap_response_body routes idx fwd p body w = (SboForward b hs false, w') -> b = body /\ hs = rs_headers p.
Proof.
  unfold snap_response_body, dispatch_response_body. destruct (routes !! idx); [|by intros [= -> ->]].
  by intros (_ & ? & ?)%response_body_untransformed.
Qed.

Lemma refused_not_forwarded {A} (m : Act (Tx M T P W) A) (r : Reply M T) s reply budget s' :
  (do! _ <- m; ret (Synthesised r)) s = (Ok (Forwarded reply budget), s') -> False.
Proof. intros E. by apply bind_ok in E as (? & ? & _ & ?). Qed.

Lemma refused_not_forwarded2 {A B} (m : Act (Tx M T P W) A) (n : Act (Tx M T P W) B) (r : Reply M T)
    s reply budget s' :
  (do! _ <- m; do! _ <- n; ret (Synthesised r)) s = (Ok (Forwarded reply budget), s') -> False.
Proof. intros E. apply bind_ok in E as (? & ? & _ & E). by apply refused_not_forwarded in E. Qed.

Lemma inspect_response_body_spec cfg fwd edited uh ub (s s' : Tx M T P W) reply budget :
  0 <= rbc_max_bytes cfg ->
  inspect_response_body hm_empty routes idx cfg fwd edited uh ub s = (Ok (Forwarded reply budget), s') ->
  inspected cfg fwd edited uh ub (at_skipped (tx_attribution s')) reply /\
  budget = Some (budget_permits (rbc_max_bytes cfg)).
Proof.
  intros Hcap. unfold inspect_response_body. cbv zeta. intros E.
  apply bind_ok in E as (op & s1 & _ & E). destruct (negb op); [by apply refused_not_forwarded in E|].
  apply bind_ok in E as (el & s2 & _ & E). destruct el; [by apply refused_not_forwarded in E|].
  pose proof (buffer_response_loop_spec ub (rbc_max_bytes cfg) [] Hcap) as Hbuf.
  change (buffer_response_loop ub (rbc_max_bytes cfg) []) with (buffer_response_body ub (rbc_max_bytes cfg)) in Hbuf.
  destruct buffer_response_body as [body|head rest|]; [| |by apply refused_not_forwarded in E].
  - destruct Hbuf as (-> & Hf & Hl). apply bind_ok in E as (o & s3 & Eo & E).
    apply on_error_ok, dispatched_ok in Eo as ((w & w' & Eo) & _).
    destruct o as [b hs t|resp]; [|by apply refused_not_forwarded2 in E].
    injection E as <- <- _. split; [|done]. left. split_and!; [done|done|]. by eexists w, w', b, hs, t.
  - destruct Hbuf as (Hh & Hd & Hne & Hf).
    assert (Hlt : rbc_max_bytes cfg < blen (stream_data ub)).
    { cbn [app] in Hd. rewrite <- Hd, blen_app, Hh. destruct (stream_data rest); [done|].
      unfold blen. cbn [length]. lia. }
    apply bind_ok in E as (? & s3 & _ & E). apply bind_ok in E as (? & s4 & E4 & E).
    assert (Hsk : at_skipped (tx_attribution s4) = Some OverCap) by (by injection E4 as _ <-). clear E4.
    destruct (rbc_over_cap cfg) eqn:Eo.
    + by apply refused_not_forwarded2 in E.
    + apply bind_ok in E as (o & s5 & E5 & E). apply on_error_ok, dispatched_ok in E5 as ((w & w' & E5) & Ea).
      destruct o as [b hs t|resp]; [|by apply refused_not_forwarded2 in E].
      destruct t; [by apply refused_not_forwarded2 in E|].
      pose proof (snap_body_untransformed _ _ _ _ _ _ _ E5) as [-> ->].
      injection E as <- <- <-. split; [|done]. right. rewrite Ea. split_and!; [done|done|done|done|].
      exists head, rest. split_and!; [done|done|done|]. right. split; [done|by eexists w, w'].
    + injection E as <- <- <-. split; [|done]. right. split_and!; [done|done|done|done|].
      exists head, rest. split_and!; [done|done|done|by left].
Qed.
End inspection.


(** ** The core's outcome *)

Section outcome.
Context {M : Type} `{HeaderMap M} {A : Type} `{AuthorityLib A}.
Context {T F C SN P W E : Type} `{FilterHost F W} `{Server M T (Group C SN) P W} `{Codec E}.
Context (builder_ok : bytes -> bytes -> bool) (hm_empty : M) (value_from_str : bytes -> option bytes).
Context {IpNet : Type} (contains : IpNet -> IpAddr -> bool).
Context (parse_ip : bytes -> option IpAddr) (show_ip : IpAddr -> bytes).
Context (routes : list (CompiledRoute F (Group C SN))) (traceparent : bytes).
Notation inner := (proxy_core_inner (E := E) builder_ok hm_empty value_from_str routes traceparent).
Notation core := (proxy_core (A := A) (E := E) builder_ok hm_empty value_from_str contains parse_ip
  show_ip routes traceparent).

(** The request routing matches against, once its path is normalised. *)
Definition routing_request (q : Request M T) (scheme path : bytes) : HttpRequest :=
  let received := to_http_request q scheme in
  mkRequest (rq_method received) path (rq_authority received) (rq_scheme received) (rq_headers received).

(** The core's three ways out, once the authority is settled. *)
Lemma inner_cases scheme client q (s : Tx M T P W) :
  (normalize_path (rq_path_with_query (to_http_request q scheme)) = None /\
   inner scheme client q s = (Ok (plain (with_error_code
     (synth hm_empty 400 (bs "bad-path") (bs "bad request path")) PATH_NORMALIZATION_REJECTED)), s)) \/
  exists path, normalize_path (rq_path_with_query (to_http_request q scheme)) = Some path /\
  ((find_route routes (routing_request q scheme path) = None /\
    inner scheme client q s = (Ok (plain (synth hm_empty 404 (bs "no-route") (bs "no route"))), s)) \/
   exists route, find_route routes (routing_request q scheme path) = Some route /\
   exists routed s1,
     inner scheme client q s = (Ok (finish_routed q route routed), s1) /\
     let entered := mkTx (tx_world s) (mkAttribution (Some (ri_name route)) (at_skipped (tx_attribution s)))
                      (tx_attempts s) in
     exists r, routed_phase builder_ok hm_empty value_from_str routes traceparent q client route
         (routing_request q scheme path) (bool_decide (q_size q = Some 0)) entered = (r, s1) /\
       routed = match r with Ok routed => routed | Err _ => Synthesised (upstream_error hm_empty) end).
Proof.
  unfold proxy_core_inner. cbv zeta.
  destruct (normalize_path _) as [path|] eqn:En; [right|by left]. exists path. split; [done|].
  fold (routing_request q scheme path).
  destruct (find_route routes (routing_request q scheme path)) as [route|] eqn:Er; [right|by left].
  exists route. split; [done|]. cbn [bind set_route step attempt run].
  destruct (routed_phase _ _ _ _ _ _ _ _ _ _ _) as [[routed|er] s1] eqn:Ep; eexists _, s1; (split; [done|]); by eexists.
Qed.

(** Dropped, the inner core was in its routed phase. *)
Lemma inner_cut scheme client q (s s' : Tx M T P W) : cut (inner scheme client q) s s' ->
  exists path route, normalize_path (rq_path_with_query (to_http_request q scheme)) = Some path /\
    find_route routes (routing_request q scheme path) = Some route /\
    cut (routed_phase builder_ok hm_empty value_from_str routes traceparent q client route
          (routing_request q scheme path) (bool_decide (q_size q = Some 0)))
      (mkTx (tx_world s) (mkAttribution (Some (ri_name route)) (at_skipped (tx_attribution s))) (tx_attempts s)) s'.
Proof.
  unfold proxy_core_inner. cbv zeta. destruct (normalize_path _) as [path|] eqn:En; [|by intros []].
  fold (routing_request q scheme path).
  destruct (find_route routes (routing_request q scheme path)) as [route|] eqn:Er; [|by intros []].
  intros [[]|([] & s1 & E1 & [Hc|(? & ? & _ & [])])]. injection E1 as <-. by exists path, route.
Qed.

(** The corrected request and client of an admitted transaction. *)
Definition corrected (trusted : option (list IpNet)) (scheme : bytes) (peer : IpAddr) (q : Request M T)
    : IpAddr * option (Request M T) :=
  let '(client, headers) := set_forwarded contains parse_ip show_ip (pt_headers (q_parts q)) peer
    scheme trusted in
  (client, option_map (with_parts q)
     (normalize_ingress_authority (A := A) (with_headers (q_parts q) headers) scheme)).

Definition unauthorised : Delivered M T E :=
  plain (E := E) (synth hm_empty 400 (bs "bad-authority") (bs "bad request authority")).

Definition overloaded : Delivered M T E :=
  plain (E := E) (synth hm_empty 503 (bs "request-overloaded") (bs "server overloaded")).

Definition admitted_world (w : W) : W := sv_metric (MInFlight 1) (sv_admit w).2.

(** The in-flight gauge's guard dropped. *)
Definition gauge_down (s : Tx M T P W) : Tx M T P W := in_world s (sv_metric (MInFlight (-1)) (tx_world s)).

Lemma core_cases trusted scheme peer q (s : Tx M T P W) :
  ((sv_admit (tx_world s)).1 = false /\
   core trusted scheme peer q s =
     (Ok overloaded, mkTx (sv_metric (MRequest UNMATCHED_ROUTE 503) (sv_admit (tx_world s)).2)
        (tx_attribution s) (tx_attempts s))) \/
  (sv_admit (tx_world s)).1 = true /\
  let s1 := mkTx (admitted_world (tx_world s)) (tx_attribution s) (tx_attempts s) in
  let '(client, q') := corrected trusted scheme peer q in
  core trusted scheme peer q s =
    match q' with
    | Some q' => let '(r, s) := inner scheme client q' s1 in report r (gauge_down s)
    | None => report (Ok unauthorised) (gauge_down s1)
    end.
Proof.
  unfold proxy_core, corrected, admitted_world. cbn [bind ask step run].
  destruct (sv_admit (tx_world s)) as [[] w1]; cbn [negb fst snd]; [right|by left].
  split; [done|]. cbn [bind metric perform ask step run tx_world tx_attribution tx_attempts].
  destruct set_forwarded as [client headers]. cbv zeta. cbn [bind attempt finally run].
  destruct normalize_ingress_authority as [parts|]; cbn [option_map]; [|done].
  by destruct (proxy_core_inner _ _ _ _ _ _ _ _ _) as [r s1].
Qed.

(** Dropped, the core was admitted and in its inner core, and the gauge went back. *)
Lemma core_cut trusted scheme peer q (s s' : Tx M T P W) : cut (core trusted scheme peer q) s s' ->
  (sv_admit (tx_world s)).1 = true /\
  exists client q' s1, corrected trusted scheme peer q = (client, Some q') /\
    cut (inner scheme client q') (mkTx (admitted_world (tx_world s)) (tx_attribution s) (tx_attempts s)) s1 /\
    s' = gauge_down s1.
Proof.
  unfold proxy_core, corrected, admitted_world. intros [[]|(admitted & s0 & E0 & Hc)].
  cbn [ask step run] in E0. destruct (sv_admit (tx_world s)) as [ok w1]. injection E0 as <- <-.
  destruct ok; cbn [negb] in Hc; [|by destruct Hc as [[]|(? & ? & _ & [])]]. split; [done|].
  destruct Hc as [[]|([] & s2 & E2 & Hc)]. injection E2 as <-. cbn [tx_world tx_attribution tx_attempts fst snd] in *.
  destruct set_forwarded as [client headers].
  destruct Hc as [(s1 & Hc & ->)|(? & ? & _ & Hc)];
    [|destruct Hc as [[]|(? & ? & _ & [[]|(? & ? & _ & Hc)])]; by case_match].
  destruct normalize_ingress_authority as [parts|]; [|done]. by eexists _, _, s1.
Qed.

Lemma report_spec (r : result (Delivered M T E) ServerError) (s : Tx M T P W) :
  (report r s).1 = match r with Ok d => Ok (mkDelivered (dl_response d) (dl_budget d) true) | Err e => Err e end /\
  tx_attempts (report r s).2 = tx_attempts s /\ tx_attribution (report r s).2 = tx_attribution s /\
  tx_world (report r s).2 = sv_metric (MRequest (default UNMATCHED_ROUTE (at_route (tx_attribution s)))
      (match r with Ok d => re_status (dl_response d) | Err _ => 502 end)) (tx_world s).
Proof. by destruct r. Qed.
End outcome.

(** The intent is the agreement of the request, the route and the transport. *)
Lemma upgrade_intent_some {M} `{HeaderMap M} {T G : Type} (route : RouteInfo G) (q : Request M T)
    (bodyless : bool) (token : bytes) (idle : option Z) :
  upgrade_intent route q bodyless = Some (mkIntent token idle) ->
  bodyless = true /\ q_upgradable q = true /\ exists cfg named, ri_upgrade route = Some cfg /\
    upgrade_request_header (pt_headers (q_parts q)) = Some named /\ allowed_token cfg named = Some token.
Proof.
  unfold upgrade_intent. destruct bodyless; [|done]. cbn [negb].
  destruct (ri_upgrade route) as [cfg|]; [|done]. destruct upgrade_request_header as [named|]; [|done].
  destruct (allowed_token cfg named) as [tok|] eqn:Et; [|done]. destruct (q_upgradable q); [|done].
  intros [= -> _]. split_and!; [done|done|]. by exists cfg, named.
Qed.

(** ** Properties *)


(** C3: a transaction leaves nothing behind, however it ends.  Run to its end (refused at any gate,
    answered by a filter, failed in the chain or the transport, timed out, retried, inspected or
    streamed), it has released the breaker permit and every balancer pick it took exactly once,
    except when they were handed to an upgrade tunnel, which then owns them; the in-flight gauge is
    back where it was and exactly one request was counted.  Dropped at any await, as the server does
    when the client goes away, it has released them too and the gauge is back, and no request was
    counted; a chain call it was joining runs its course without it. *)
Theorem transaction_releases {M} `{HeaderMap M} {A} `{AuthorityLib A} {T F C SN P W E : Type}
    `{FilterHost F W} `{Server M T (Group C SN) P W} `{Codec E}
    (builder_ok : bytes -> bytes -> bool) (hm_empty : M) (value_from_str : bytes -> option bytes)
    {IpNet} (contains : IpNet -> IpAddr -> bool) (parse_ip : bytes -> option IpAddr)
    (show_ip : IpAddr -> bytes) (routes : list (CompiledRoute F (Group C SN))) (traceparent : bytes)
    (held : W -> Z) (a b c e : Z) `{!ServerHolds (F := F) held a b c e}
    (trusted : option (list IpNet)) (alt_svc : option bytes) (scheme : bytes) (peer : IpAddr)
    (q : Request M T) (w : W) :
  (let '(d, s) := handle (A := A) (E := E) builder_ok hm_empty value_from_str contains parse_ip
                    show_ip routes traceparent trusted alt_svc scheme peer q w in
   held (tx_world s) = held w + e) /\
  (forall s, cut (proxy_core (A := A) (E := E) builder_ok hm_empty value_from_str contains parse_ip
                    show_ip routes traceparent trusted scheme peer q) (mkTx w (mkAttribution None None) []) s ->
   held (tx_world s) = held w).
Proof.
  assert (Hmet : forall m w0, held (sv_metric m w0) = held w0 + metric_weight c e m)
    by exact (fun m w0 => sh_metric (F := F) (P := P) (a := a) (b := b) m w0).
  assert (Hin : held (admitted_world w) = held w + c)
    by (unfold admitted_world; rewrite Hmet, (sh_admit (F := F)); cbn; lia).
  assert (Hphase := fun corr client route req bodyless s0 =>
    routed_phase_accounts builder_ok hm_empty value_from_str routes traceparent held a b c e corr client
      route req bodyless s0).
  split.
  - unfold handle. destruct (proxy_core _ _ _ _ _ _ _ _ _ _ _ _ _) as [r s] eqn:Ec.
    edestruct (core_cases (A := A) (E := E) builder_ok hm_empty value_from_str contains parse_ip show_ip
      routes traceparent trusted scheme peer q (mkTx w (mkAttribution None None) [])) as [[_ E1] | [_ E1]];
      rewrite Ec in E1; cbn [tx_world tx_attribution tx_attempts] in E1.
    { injection E1 as _ ->. cbn. by rewrite Hmet, (sh_admit (F := F)). }
    assert (Hrep : forall r0 (s0 : Tx M T P W), report (E := E) r0 (gauge_down s0) = (r, s) ->
      held (tx_world s) = held (tx_world s0) - c + e).
    { intros r0 s0 Er. pose proof (report_spec r0 (gauge_down s0)) as (_ & _ & _ & Hw). rewrite Er in Hw.
      cbn [snd] in Hw. rewrite Hw, Hmet. unfold gauge_down. cbn. rewrite Hmet. cbn. lia. }
    destruct corrected as [client [corr|]];
      [|symmetry in E1; apply Hrep in E1; cbn [tx_world] in E1; lia].
    edestruct (inner_cases (E := E) builder_ok hm_empty value_from_str routes traceparent scheme client corr
      (mkTx (admitted_world w) (mkAttribution None None) []))
      as [[_ Ei] | (path & Hp & [[_ Ei] | (route & Hr & routed & s1 & Ei & r1 & Er & _)])];
      cbv zeta in E1; rewrite Ei in E1; symmetry in E1; apply Hrep in E1; cbn [tx_world] in E1; [lia|lia|].
    match type of Er with run _ ?s0 = _ => destruct (Hphase corr client route
      (routing_request corr scheme path) (bool_decide (q_size corr = Some 0)) s0) as [Hacc _] end.
    rewrite Er in Hacc. cbn [tx_world] in Hacc. destruct r1; lia.
  - intros s (_ & client & corr & s1 & _ & (path & route & _ & _ & Hc)%inner_cut & ->)%core_cut.
    apply (proj2 (Hphase corr client route (routing_request corr scheme path)
      (bool_decide (q_size corr = Some 0)) _)) in Hc.
    unfold gauge_down. cbn [in_world tx_world] in *. rewrite Hmet. cbn [metric_weight]. lia.
Qed.

(** C4: response inspection cannot be steered around.  On a route whose chain reads response
    bodies, when the upstream's response is forwarded the chain forwarded it, and what happened to
    its body is decided by the response exactly as the upstream sent it: a body outside the
    declared media types passes; one that cannot be inspected passes only in the declared mode and
    the reason is recorded; any other was shown whole to the body hooks and the client gets exactly
    what they left, framed by the host, or it was over the cap, recorded, in one of the two declared
    modes, and the client gets the upstream's bytes unchanged. *)
Theorem inspection_enforced {M} `{HeaderMap M} {T F G P W : Type} `{FilterHost F W} `{Server M T G P W}
    (hm_empty : M) (routes : list (CompiledRoute F G)) (idx : nat) (route : RouteInfo G)
    (fwd : HttpRequest) (status : Z) (uh : M) (ub : list (option (Frame T))) (s s' : Tx M T P W)
    (reply : Reply M T) (budget : option Z) :
  ri_has_filters route = true -> bh_response (ri_body_hooks route) = true ->
  0 <= rbc_max_bytes (ri_response_body route) ->
  respond_through_chain hm_empty routes idx route fwd status (mkUp uh ub) s
    = (Ok (Forwarded reply budget), s') ->
  exists edited s1,
    run_response_chain routes idx fwd (mkResponse status (headers_to_vec uh) []) s = (Ok (RoForward edited), s1) /\
    let through := stream_response hm_empty (rs_status edited) (rs_headers edited) uh ub in
    let skipped := at_skipped (tx_attribution s') in
    match classify_response status uh (ri_response_body route) with
    | OutOfScope => reply = through
    | Uninspectable reason => rbc_uninspectable (ri_response_body route) = UiPassthrough /\
        skipped = Some reason /\ reply = through
    | Inspect => inspected hm_empty routes idx (ri_response_body route) fwd edited uh ub skipped reply
    end.
Proof.
  intros Hf Hb Hcap. unfold respond_through_chain. rewrite Hf, Hb. cbn [negb]. cbv zeta. intros E.
  apply bind_ok in E as (o & s1 & E1 & E). destruct o as [edited|resp]; [|by apply refused_not_forwarded in E].
  exists edited, s1. split; [done|].
  destruct (classify_response status uh (ri_response_body route)) as [| |reason].
  - apply inspect_response_body_spec in E as [E _]; [exact E|done].
  - by injection E as <- _ _.
  - apply bind_ok in E as (? & s2 & _ & E). apply bind_ok in E as (? & s3 & E3 & E).
    destruct (rbc_uninspectable (ri_response_body route)); [by apply refused_not_forwarded in E|].
    injection E3 as _ <-. by injection E as <- _ <-.
Qed.

(** An upgrade switches protocols only by agreement.  The tunnel starts only when the request
    had no body, its route allows the token the client named in a genuine upgrade request, the
    upstream's answer names that token and the response chain kept it a 101; the client then gets
    exactly that token.  In every other case the pick is dropped and the permit released, the world
    never sees a tunnel, and without such a request or without that token the answer is a 502. *)
Theorem upgrade_by_agreement {M} `{HeaderMapLaws M} {T F G P W : Type} `{FilterHost F W} `{Server M T G P W}
    (hm_empty : M) (value_from_str : bytes -> option bytes) (routes : list (CompiledRoute F G)) (idx : nat)
    (route : RouteInfo G) (q : Request M T) (bodyless : bool) (fwd : HttpRequest) (uh : M) (group : G)
    (permit : bool) (key : option HashInput) (pick : P) (s : Tx M T P W) :
  let upgrade := upgrade_intent route q bodyless in
  let '(r, s') := upgrade_switch hm_empty value_from_str routes idx (ri_has_filters route) fwd upgrade uh
                    group permit key pick s in
  let released := fun w => sv_release group permit (env_drop (Env := sv_env group key) pick w) in
  (exists w token idle upgrade_value reply cfg named,
     upgrade = Some (mkIntent token idle) /\ bodyless = true /\ q_upgradable q = true /\
     ri_upgrade route = Some cfg /\ upgrade_request_header (pt_headers (q_parts q)) = Some named /\
     allowed_token cfg named = Some token /\ upstream_switched_to uh token = true /\
     (ri_has_filters route = true -> exists edited s1, rs_status edited = 101 /\
        run_response_chain routes idx fwd (mkResponse 101 (headers_to_vec uh) []) s = (Ok (RoForward edited), s1)) /\
     value_from_str token = Some upgrade_value /\ r = Ok reply /\ rp_status reply = 101 /\
     hm_get_all (rp_headers reply) H_UPGRADE = [upgrade_value] /\
     hm_get_all (rp_headers reply) H_CONNECTION = [bs "upgrade"] /\
     tx_world s' = sv_tunnel group permit pick idle w) \/
  (exists w, tx_world s' = released w /\
     (match upgrade with Some i => upstream_switched_to uh (ui_token i) = false | None => True end ->
      w = tx_world s /\ exists reply, r = Ok reply /\ rp_status reply = 502)).
Proof.
  cbv zeta. destruct (upgrade_intent route q bodyless) as [[token idle]|] eqn:Eu; cbn [upgrade_switch ui_token];
    [|right; exists (tx_world s); split; [done|]; split; [done|by eexists]].
  apply upgrade_intent_some in Eu as (Hb & Hq & cfg & named & Hc & Hn & Ht).
  destruct (upstream_switched_to uh token) eqn:Es; cbn [negb];
    [|right; exists (tx_world s); split; [done|]; split; [done|by eexists]].
  assert (Hup : forall (m : M) v, hm_get_all (hm_insert (hm_insert m H_UPGRADE v) H_CONNECTION (bs "upgrade")) H_UPGRADE = [v] /\
    hm_get_all (hm_insert (hm_insert m H_UPGRADE v) H_CONNECTION (bs "upgrade")) H_CONNECTION = [bs "upgrade"]).
  { intros m v. by rewrite !hm_insert_all. }
  destruct (ri_has_filters route) eqn:Ef; cbn [bind on_error drop_slot perform ask ret step run].
  - destruct (run_response_chain _ _ _ _ s) as [[[edited|resp]|e] s1] eqn:Ec;
      [|right; exists (tx_world s1); split; [done|by intros]..].
    destruct (Z.eqb_spec (rs_status edited) 101) as [E101|]; cbn [negb];
      [|right; exists (tx_world s1); split; [done|by intros]].
    destruct (value_from_str token) as [v|] eqn:Ev; [|right; exists (tx_world s1); split; [done|by intros]].
    left. eexists (tx_world s1), token, idle, v, _, cfg, named. split_and!; try done; [|apply Hup..].
    intros _. by exists edited, s1.
  - destruct (value_from_str token) as [v|] eqn:Ev; [|right; exists (tx_world s); split; [done|by intros]].
    left. eexists (tx_world s), token, idle, v, _, cfg, named. split_and!; try done; apply Hup.
Qed.

(** The headers compression may change. *)
Definition REPRESENTATION_HEADERS : list bytes :=
  [H_VARY; H_CONTENT_ENCODING; CONTENT_LENGTH; H_ACCEPT_RANGES; H_ETAG].

Lemma apply_compression_other {M} `{HeaderMapLaws M} {E T : Type} `{Codec E}
    (compression : option CompressionConfig) method (request : M) status (headers : M)
    (frames : list (option (Frame T))) n :
  n ∉ REPRESENTATION_HEADERS ->
  hm_get_all (re_headers (apply_compression (E := E) compression method request status headers frames)) n
  = hm_get_all headers n.
Proof.
  intros Hn. unfold REPRESENTATION_HEADERS in Hn. rewrite !not_elem_of_cons in Hn.
  destruct Hn as (Hv & He & Hl & Hr & Ht & _).
  unfold apply_compression. destruct compression as [cfg|]; [|done]. destruct bytes_eqb; [done|].
  unfold compress_response. destruct (negb _); [done|]. cbv zeta.
  destruct negotiate as [algo|]; [|by apply add_vary_all].
  destruct enc_new; [|by apply add_vary_all]. cbn [re_headers].
  rewrite mark_compressed_other, unframed_all, !bool_decide_false by done. by apply add_vary_all.
Qed.

(** Every response of a chosen route carries the route's declared headers.  Whether it was
    rate limited, answered or failed by a filter, refused by the breaker, timed out, failed in the
    transport or streamed from the upstream, each declared header has exactly its declared value and
    each removed one is absent, but for what compression says of the representation; and only a
    forwarded upstream response is ever compressed. *)
Theorem routed_response_declared {M} `{HeaderMapLaws M} {A} `{AuthorityLib A} {T F C SN P W E : Type}
    `{FilterHost F W} `{Server M T (Group C SN) P W} `{Codec E}
    (builder_ok : bytes -> bytes -> bool) (hm_empty : M) (value_from_str : bytes -> option bytes)
    (routes : list (CompiledRoute F (Group C SN))) (traceparent : bytes) (h : RouteHeaders)
    (scheme path : bytes) (client : IpAddr) (q : Request M T) (route : RouteInfo (Group C SN))
    (s : Tx M T P W) :
  normalize_path (rq_path_with_query (to_http_request q scheme)) = Some path ->
  find_route routes (routing_request q scheme path) = Some route ->
  validate_response_headers (M := M) value_from_str h = Ok tt ->
  ri_response_headers route = Some (response_headers_new (M := M) value_from_str h) ->
  exists d s' routed, proxy_core_inner (E := E) builder_ok hm_empty value_from_str routes traceparent
      scheme client q s = (Ok d, s') /\
    d = finish_routed q route routed /\
    (forall n, n ∉ REPRESENTATION_HEADERS ->
       (forall v, declared_value (M := M) value_from_str h n = Some v ->
          hm_get_all (re_headers (dl_response d)) n = [v]) /\
       (declared_value (M := M) value_from_str h n = None ->
        Exists (fun name => parse_name (M := M) name = Some n) (rh_remove h) ->
          hm_get_all (re_headers (dl_response d)) n = [])) /\
    (forall b, re_body (dl_response d) = Compressed b -> exists reply budget, routed = Forwarded reply budget).
Proof.
  intros Hp Hr Hv Hh.
  edestruct (inner_cases (E := E) builder_ok hm_empty value_from_str routes traceparent scheme client q s)
    as [[Hp' _] | (path' & Hp' & [[Hr' _] | (route' & Hr' & routed & s1 & Ei & _)])]; [congruence| |].
  { assert (path' = path) as -> by congruence. congruence. }
  assert (path' = path) as -> by congruence. assert (route' = route) as -> by congruence.
  exists (finish_routed q route routed), s1, routed. split; [done|]. split; [done|].
  assert (Hall : forall n, n ∉ REPRESENTATION_HEADERS -> exists m,
    hm_get_all (re_headers (dl_response (finish_routed (E := E) q route routed))) n =
    hm_get_all (response_headers_apply (response_headers_new (M := M) value_from_str h) m) n).
  { intros n Hn. unfold finish_routed, with_declared_headers. rewrite Hh.
    destruct routed as [r|r budget]; cbn [dl_response plain re_headers rp_headers].
    - by eexists.
    - eexists. by rewrite apply_compression_other. }
  split.
  - intros n Hn. destruct (Hall n Hn) as [m ->].
    destruct (declared_headers_floor value_from_str h m n Hv) as [-> _].
    split; [by intros v ->|]. intros ->. intros Hex. by rewrite bool_decide_true.
  - destruct routed as [r|r budget]; [done|]. by eexists _, _.
Qed.

(** C5: every refusal is answered in order, before anything later runs.  With no admission permit
    the answer is a 503 and nothing but the request counter moves; a request whose authority is
    ambiguous gets a 400, one whose path does not normalise a 400 with its code, one that no route
    matches a 404, and none of the three touches anything but the counters; a client over its
    route's rate gets a 429 with the seconds until a token is free, and no filter has run. *)
Theorem refusals_in_order {M} `{HeaderMapLaws M} {A} `{AuthorityLib A} {T F C SN P W E : Type}
    `{FilterHost F W} `{Server M T (Group C SN) P W} `{Codec E}
    (builder_ok : bytes -> bytes -> bool) (hm_empty : M) (value_from_str : bytes -> option bytes)
    {IpNet} (contains : IpNet -> IpAddr -> bool) (parse_ip : bytes -> option IpAddr)
    (show_ip : IpAddr -> bytes) (routes : list (CompiledRoute F (Group C SN))) (traceparent : bytes)
    (trusted : option (list IpNet)) (scheme : bytes) (peer : IpAddr) (q : Request M T) (w : W) :
  let '(r, s) := proxy_core (P := P) (A := A) (E := E) builder_ok hm_empty value_from_str contains parse_ip
                   show_ip routes traceparent trusted scheme peer q (mkTx w (mkAttribution None None) []) in
  let '(client, corr) := corrected (A := A) contains parse_ip show_ip trusted scheme peer q in
  let counted := fun name status (w0 : W) => sv_metric (MRequest name status) (sv_metric (MInFlight (-1)) w0) in
  let started := admitted_world w in
  exists d, r = Ok d /\
  let status := re_status (dl_response d) in
  let header := hm_get_all (re_headers (dl_response d)) in
  if negb (sv_admit w).1 then
    status = 503 /\ tx_world s = sv_metric (MRequest UNMATCHED_ROUTE 503) (sv_admit w).2
  else match corr with
  | None => status = 400 /\ tx_world s = counted UNMATCHED_ROUTE 400 started
  | Some corr =>
    match normalize_path (rq_path_with_query (to_http_request corr scheme)) with
    | None => status = 400 /\ header H_ERROR_CODE = [PATH_NORMALIZATION_REJECTED] /\
        tx_world s = counted UNMATCHED_ROUTE 400 started
    | Some path =>
      match find_route routes (routing_request corr scheme path) with
      | None => status = 404 /\ tx_world s = counted UNMATCHED_ROUTE 404 started
      | Some route =>
        match sv_check_rate_limit route client started with
        | (RlLimit ms, w1) => status = 429 /\
            tx_world s = counted (ri_name route) 429 (sv_metric (MRateLimited (ri_name route)) w1) /\
            (ri_response_headers route = None ->
               header H_RETRY_AFTER = [bs (pretty (Z.to_N (div_ceil ms 1000)))] /\
               header H_ERROR_CODE = [QUOTA_EXCEEDED])
        | (RlAllow, _) => True
        end
      end
    end
  end.
Proof.
  destruct (proxy_core _ _ _ _ _ _ _ _ _ _ _ _ _) as [r s] eqn:Ec.
  edestruct (core_cases (A := A) (E := E) builder_ok hm_empty value_from_str contains parse_ip show_ip
    routes traceparent trusted scheme peer q (mkTx w (mkAttribution None None) [])) as [[Ha E1] | [Ha E1]];
    rewrite Ec in E1; cbn [tx_world tx_attribution tx_attempts] in E1, Ha; rewrite Ha; cbn [negb].
  { destruct corrected as [client corr]. injection E1 as -> ->. by eexists. }
  destruct corrected as [client [corr|]]; [|injection E1 as -> ->; by eexists]. cbv zeta in E1.
  edestruct (inner_cases (E := E) builder_ok hm_empty value_from_str routes traceparent scheme client corr
    (mkTx (admitted_world w) (mkAttribution None None) []))
    as [[Hn Ei] | (path & Hp & [[Hr Ei] | (route & Hr & routed & s1 & Ei & r1 & Er & Hro)])];
    rewrite Ei in E1.
  - rewrite Hn. injection E1 as -> ->. eexists. split; [done|]. split_and!; [done| |done].
    cbn. by rewrite hm_insert_all, bool_decide_true.
  - rewrite Hp, Hr. injection E1 as -> ->. by eexists.
  - rewrite Hp, Hr. injection E1 as -> ->. eexists. split; [done|]. cbv zeta.
    destruct (sv_check_rate_limit route client (admitted_world w)) as [[|ms] w1] eqn:El; [done|].
    unfold routed_phase in Er. cbn [bind ask step run tx_world] in Er. rewrite El in Er.
    injection Er as <- <-. subst routed. unfold finish_routed, with_declared_headers.
    destruct (ri_response_headers route); (split_and!; [done|done|]); [done|].
    intros _. cbn [dl_response plain re_headers with_error_code rp_headers synth_retry_after synth].
    by rewrite !hm_insert_all.
Qed.
