(* ===== verification/Live.v ===== *)
(** * The server over its components

    The [Server] interface of the transaction implemented by the components themselves: the
    balancer's picks, the breaker's counter, the weighted split, the rate limiter, over one state;
    only the upstreams' answers, the clock and the filters are given.  The properties of the
    transaction hold for this server, and their witnesses run on it. *)

From S2P Require Import Prelude Bytes Ssrf Paths Weighted RateLimit Chain Headers Manifest Upstream.
From S2P Require Import Balancer Registry Route RouteTable Control Forward Compression Body Respond.
From S2P Require Import Transaction Proxy.

(** [lv_permits] and [lv_picks] count what the running transaction holds; [lv_tunnels] the
    tunnels started, with the counters, the discarded bodies' number and the upstreams' script. *)
Record Live (C SN M T : Type) := mkLive {
  lv_heap : Heap;
  lv_now : Z;
  lv_rng : Z;
  lv_rr : gmap bytes Z;
  lv_flight : gmap bytes Z;
  lv_limiters : gmap bytes NativeRateLimit;
  lv_splits : gmap bytes (WeightedBackends (Group C SN));
  lv_admission : Z;
  lv_budget : Z;
  lv_script : list (SendResult (UpResponse M T) * Z);
  lv_permits : Z;
  lv_picks : Z;
  lv_tunnels : Z;
  lv_counters : list Metric;
}.
Arguments mkLive {C SN M T}.
Arguments lv_heap {C SN M T}.
Arguments lv_now {C SN M T}.
Arguments lv_rng {C SN M T}.
Arguments lv_rr {C SN M T}.
Arguments lv_flight {C SN M T}.
Arguments lv_limiters {C SN M T}.
Arguments lv_splits {C SN M T}.
Arguments lv_admission {C SN M T}.
Arguments lv_budget {C SN M T}.
Arguments lv_script {C SN M T}.
Arguments lv_permits {C SN M T}.
Arguments lv_picks {C SN M T}.
Arguments lv_tunnels {C SN M T}.
Arguments lv_counters {C SN M T}.

Section live.
Context {C SN M T : Type} (hash : list Z -> Z) (octets : IpAddr -> bytes).
Notation Live := (Live C SN M T).
Notation Group := (Group C SN).

(** Functional updates of the components of the state. *)
Definition on_instances (heap : Heap) (picks : Z) (w : Live) : Live :=
  mkLive heap (lv_now w) (lv_rng w) (lv_rr w) (lv_flight w) (lv_limiters w) (lv_splits w)
    (lv_admission w) (lv_budget w) (lv_script w) (lv_permits w) picks (lv_tunnels w) (lv_counters w).
Definition on_time (now rng : Z) (script : list (SendResult (UpResponse M T) * Z)) (w : Live) : Live :=
  mkLive (lv_heap w) now rng (lv_rr w) (lv_flight w) (lv_limiters w) (lv_splits w)
    (lv_admission w) (lv_budget w) script (lv_permits w) (lv_picks w) (lv_tunnels w) (lv_counters w).
Definition on_rr (rr : gmap bytes Z) (rng : Z) (w : Live) : Live :=
  mkLive (lv_heap w) (lv_now w) rng rr (lv_flight w) (lv_limiters w) (lv_splits w)
    (lv_admission w) (lv_budget w) (lv_script w) (lv_permits w) (lv_picks w) (lv_tunnels w) (lv_counters w).
Definition on_flight (flight : gmap bytes Z) (permits : Z) (w : Live) : Live :=
  mkLive (lv_heap w) (lv_now w) (lv_rng w) (lv_rr w) flight (lv_limiters w) (lv_splits w)
    (lv_admission w) (lv_budget w) (lv_script w) permits (lv_picks w) (lv_tunnels w) (lv_counters w).
Definition on_route (limiters : gmap bytes NativeRateLimit)
    (splits : gmap bytes (WeightedBackends Group)) (w : Live) : Live :=
  mkLive (lv_heap w) (lv_now w) (lv_rng w) (lv_rr w) (lv_flight w) limiters splits
    (lv_admission w) (lv_budget w) (lv_script w) (lv_permits w) (lv_picks w) (lv_tunnels w) (lv_counters w).
Definition on_semaphores (admission budget : Z) (w : Live) : Live :=
  mkLive (lv_heap w) (lv_now w) (lv_rng w) (lv_rr w) (lv_flight w) (lv_limiters w) (lv_splits w)
    admission budget (lv_script w) (lv_permits w) (lv_picks w) (lv_tunnels w) (lv_counters w).
Definition on_tunnel (tunnels : Z) (w : Live) : Live :=
  mkLive (lv_heap w) (lv_now w) (lv_rng w) (lv_rr w) (lv_flight w) (lv_limiters w) (lv_splits w)
    (lv_admission w) (lv_budget w) (lv_script w) (lv_permits w - 1) (lv_picks w - 1) tunnels (lv_counters w).
Definition on_counters (m : Metric) (w : Live) : Live :=
  mkLive (lv_heap w) (lv_now w) (lv_rng w) (lv_rr w) (lv_flight w) (lv_limiters w) (lv_splits w)
    (lv_admission w) (lv_budget w) (lv_script w) (lv_permits w) (lv_picks w) (lv_tunnels w)
    (lv_counters w ++ [m]).

(** [UpstreamGroup::pick] and [pick_excluding]: the eligible instances now, the group's algorithm. *)
Definition live_pick (g : Group) (key : option HashInput) (exclude : option nat) (w : Live)
    : option Pick * Live :=
  let '(check, now) := eligibility_ctx (g_outlier g) (lv_now w) in
  match pick_dispatch (length (ep_instances (g_endpoints g))) (g_endpoints g)
          (is_eligible check now exclude (lv_heap w)) (lv_heap w) (option_map (hash_input octets) key)
          (default 0 (lv_rr w !! g_name g)) (lv_rng w) with
  | Some (Some p, rr, rng) =>
    (Some p, on_instances (take_pick (lv_heap w) p) (lv_picks w + 1) (on_rr (<[g_name g := rr]> (lv_rr w)) rng w))
  | Some (None, rr, rng) => (None, on_rr (<[g_name g := rr]> (lv_rr w)) rng w)
  | None => (None, w)
  end.

Definition live_request (timeout : option Z) (w : Live) : option (SendResult (UpResponse M T)) * Live :=
  match lv_script w with
  | [] => (Some (SendErr false), w)
  | (result, latency) :: rest =>
    let late := match timeout with Some t => t <? latency | None => false end in
    let spent := match timeout with Some t => Z.min t latency | None => latency end in
    (if late then None else Some result, on_time (lv_now w + spent) (lv_rng w) rest w)
  end.

#[export] Instance live_env (g : Group) (key : option HashInput) : Env M (UpResponse M T) Pick Live := {|
  env_now := lv_now;
  env_entropy := lv_rng;
  env_sleep d w := on_time (lv_now w + d) (lv_rng w) (lv_script w) w;
  env_request q := live_request;
  env_instance := pk_instance;
  env_address p w := (inst_entry (lv_heap w) (pk_instance p)).1;
  env_pick_excluding ex := live_pick g key (Some ex);
  env_record_outcome p gwf w :=
    let '(ejected, heap) := record_outcome (g_outlier g) (ep_instances (g_endpoints g)) (lv_heap w)
                              (lv_now w) (pk_instance p) gwf in
    (ejected, on_instances heap (lv_picks w) w);
  env_record_passive_failure p w := on_instances
    match lv_heap w !! pk_instance p with
    | Some i => <[pk_instance p := record_passive_failure i]> (lv_heap w)
    | None => lv_heap w
    end (lv_picks w) w;
  env_drop p w := on_instances (drop_pick (lv_heap w) p) (lv_picks w - 1) w;
  env_inc_retries w := w;
  env_inc_outlier_ejection w := w |}.

(** A panicking index of the two tables is excluded by their invariants ([wf_limiter], [wb_inv]). *)
Definition live_limit (r : RouteInfo Group) (client : IpAddr) (w : Live) : RateLimitDecision * Live :=
  match ri_rate_limit r with
  | None => (RlAllow, w)
  | Some fresh =>
    let '(d, next) := check_rate_limit hash (Some (default fresh (lv_limiters w !! ri_name r))) client (lv_now w) in
    (match d with Done d => d | Panic => RlAllow end,
     match next with
     | Some next => on_route (<[ri_name r := next]> (lv_limiters w)) (lv_splits w) w
     | None => w
     end)
  end.

Definition live_eligible (w : Live) : Eligible Group := fun g =>
  has_eligible_now (g_outlier g) (lv_now w) (lv_heap w) (ep_instances (g_endpoints g)).

Definition live_split (r : RouteInfo Group) (w : Live) : option Group * Live :=
  let '(chosen, next) := @wb_pick Group (live_eligible w) (default (ri_backends r) (lv_splits w !! ri_name r)) in
  (match chosen with Done g => g | Panic => None end,
   on_route (lv_limiters w) (<[ri_name r := next]> (lv_splits w)) w).

Definition live_acquire (g : Group) (w : Live) : option bool * Live :=
  let '(permit, n) := try_acquire (g_max_requests g) (default 0 (lv_flight w !! g_name g)) in
  (permit, on_flight (<[g_name g := n]> (lv_flight w))
             (match permit with Some _ => lv_permits w + 1 | None => lv_permits w end) w).

Definition live_release (g : Group) (permit : bool) (w : Live) : Live :=
  on_flight (<[g_name g := release permit (default 0 (lv_flight w !! g_name g))]> (lv_flight w))
    (lv_permits w - 1) w.

#[export] Instance live_server : Server M T Group Pick Live := {|
  sv_env := live_env;
  sv_admit w :=
    if 0 <? lv_admission w then (true, on_semaphores (lv_admission w - 1) (lv_budget w) w) else (false, w);
  sv_check_rate_limit := live_limit;
  sv_pick_upstream := live_split;
  sv_pick g key := live_pick g key None;
  sv_try_acquire := live_acquire;
  sv_release := live_release;
  sv_reserve n w := (true, on_semaphores (lv_admission w) (lv_budget w - n) w);
  sv_unreserve n w := on_semaphores (lv_admission w) (lv_budget w + n) w;
  sv_read_elapses w := (false, w);
  sv_panics w := None;
  sv_discard body w := w;
  sv_tunnel g permit p idle w := on_tunnel (lv_tunnels w + 1) w;
  sv_metric := on_counters;
  sv_suspended w w' := exists later, lv_now w <= later /\ w' = on_time later (lv_rng w) (lv_script w) w |}.
End live.

(** Filters that read nothing of the state, as functions. *)
Record PureFilter := mkFilter {
  pf_request : HttpRequest -> result RequestDecision RunError;
  pf_request_body : bytes -> result RequestBodyDecision RunError;
  pf_response : HttpResponse -> result ResponseDecision RunError;
  pf_response_body : bytes -> result ResponseBodyDecision RunError;
}.

#[export] Instance pure_filters {C SN M T} : FilterHost PureFilter (Live C SN M T) := {|
  on_request f r w := (pf_request f r, w);
  try_on_request f r w := (Executed (pf_request f r), w);
  on_request_body f b w := (pf_request_body f b, w);
  on_response f r p w := (pf_response f p, w);
  try_on_response f r p w := (Executed (pf_response f p), w);
  on_response_body f r p b w := (pf_response_body f b, w) |}.

(** ** The interface's laws *)

Section laws.
Context {C SN M T : Type} `{HeaderMap M} (hash : list Z -> Z) (octets : IpAddr -> bytes).
Notation Live := (Live C SN M T).
#[local] Existing Instance live_server.

(** The permits and picks of the running transaction, the requests in flight and those counted,
    weighted. *)
Definition tally (c e : Z) (counters : list Metric) : Z :=
  foldr (fun m sum => metric_weight c e m + sum) 0 counters.
Definition live_held (a b c e : Z) (w : Live) : Z :=
  a * lv_permits w + b * lv_picks w + tally c e (lv_counters w).

#[local] Arguments tally : simpl never.

Lemma tally_app c e l1 l2 : tally c e (l1 ++ l2) = tally c e l1 + tally c e l2.
Proof. unfold tally. induction l1 as [|m l1 IH]; cbn [app foldr]; [done|]. rewrite IH. lia. Qed.

Lemma live_pick_held a b c e g key ex (w : Live) :
  live_held a b c e (live_pick octets g key ex w).2
  = live_held a b c e w + match (live_pick octets g key ex w).1 with Some _ => b | None => 0 end.
Proof.
  unfold live_pick. destruct eligibility_ctx as [check now].
  destruct pick_dispatch as [[[[p|] rr] rng]|]; unfold live_held; cbn; lia.
Qed.

Lemma live_env_holds a b c e g key : EnvHolds (H0 := live_env octets g key) (live_held a b c e) b.
Proof.
  split; try done.
  - intros q t w. cbn. unfold live_request. by destruct (lv_script w) as [|[r l] rest].
  - intros ex w. apply live_pick_held.
  - intros p gw w. cbn. by destruct record_outcome.
  - intros p w. unfold live_held. cbn. lia.
Qed.

#[export] Instance live_holds a b c e :
  ServerHolds (F := PureFilter) (H0 := live_server hash octets) (live_held a b c e) a b c e.
Proof.
  split; try done.
  - apply live_env_holds.
  - intros w. cbn. by destruct (0 <? lv_admission w).
  - intros r client w. cbn. unfold live_limit. destruct (ri_rate_limit r); [|done].
    by destruct check_rate_limit as [d [next|]].
  - intros r w. cbn. unfold live_split. by destruct wb_pick.
  - intros g w. cbn. unfold live_acquire. destruct try_acquire as [[p|] n]; unfold live_held; cbn; lia.
  - intros g p w. unfold live_held. cbn. lia.
  - intros g key w. apply live_pick_held.
  - intros g p pick idle w. unfold live_held. cbn. lia.
  - intros m w. unfold live_held. cbn. rewrite tally_app. unfold tally at 2. cbn [foldr]. lia.
  - intros w w' (later & _ & ->). done.
Qed.
End laws.

(** ** A running example

    One route with a filter that stamps the request and inspects responses, over two instances
    of one upstream: the first answers 503, the retry on the second succeeds. *)

#[local] Existing Instance alist_headers.
#[local] Existing Instance alist_laws.
#[local] Existing Instance raw_authority.
#[local] Existing Instance mark_codec.

Notation Map := (list (bytes * bytes)).
Definition demo_hash (_ : list Z) : Z := 0.
Definition demo_octets (_ : IpAddr) : bytes := [].
#[local] Instance demo_server : Server Map unit (Group unit unit) Pick (Live unit unit Map unit) :=
  live_server demo_hash demo_octets.

Definition demo_group : Group unit unit :=
  mkGroup (bs "up") demo_health (mkEndpoints [0; 1]%nat LbRoundRobin) [] 0 RoundRobin 0 1000 0 1 0
    1 0 (mkPolicy 0 1000 50) None None None None.

Definition demo_filter_fn : PureFilter := mkFilter
  (fun r => Ok (RqModified (mkRequestEdit [mkHeader (bs "x-seen") (bs "1")] [])))
  (fun b => Ok (RbModified (mkBodyEdit (b ++ bs "?") [] [])))
  (fun _ => Ok RsContinue)
  (fun b => Ok (SbModified (mkBodyEdit (b ++ bs "!") [] []))).

Definition demo_route_headers : RouteHeaders := mkRouteHeaders [(bs "x-frame-options", bs "DENY")] [bs "server"].

Definition demo_compiled (limit : option NativeRateLimit) : CompiledRoute PureFilter (Group unit unit) :=
  mkCompiled (bs "r") None (bs "/") None [] [] [bs "f"] [demo_filter_fn] (mkHooks true true)
    (mkWeighted [demo_group] [0%nat] 0) None limit
    (Some (upgrade_new [bs "websocket"] 0)) None
    (Some (response_headers_new (M := Map) Some demo_route_headers)) timeout_default response_body_default.

Definition demo_upstream (status : Z) (headers : Map) (body : bytes) : SendResult (UpResponse Map unit) :=
  SendOk status (mkUp headers (full body)).

Definition demo_live (script : list (SendResult (UpResponse Map unit) * Z)) : Live unit unit Map unit :=
  mkLive (<[0%nat := probe (inst_new (bs "10.0.0.1:80") 1 demo_health) true]>
         (<[1%nat := probe (inst_new (bs "10.0.0.2:80") 1 demo_health) true]> ∅))
    1000 7 ∅ ∅ ∅ ∅ 1 1000000000 script 0 0 0 [].

Definition demo_script : list (SendResult (UpResponse Map unit) * Z) :=
  [(demo_upstream 503 [] [], 5);
   (demo_upstream 200 [(bs "content-type", bs "application/json"); (bs "server", bs "u")] (bs "{}"), 7)].

Definition demo_req (path : bytes) (headers : Map) (upgradable : bool) : Transaction.Request Map unit :=
  mkReq (bs "GET") (Some path) (mkParts Http11 None None ((bs "host", bs "a.example") :: headers))
    upgradable (Some 0) 0%nat [].

Definition demo_handle (limit : option NativeRateLimit) (q : Transaction.Request Map unit)
    (w : Live unit unit Map unit) :=
  handle (A := bytes) (E := unit) (IpNet := unit) (fun _ _ => true) [] Some (fun _ _ => false)
    (fun _ => None) (fun _ => bs "192.0.2.1") [demo_compiled limit] (bs "00-1") None None (bs "http")
    (V4 192 0 2 1) q w.

Definition demo_summary (r : Delivered Map unit unit * Tx Map unit Pick (Live unit unit Map unit)) :=
  let '(d, s) := r in
  (re_status (dl_response d), re_headers (dl_response d),
   (map (fun a => (pk_instance (at_pick a), uq_uri (at_request a))) (tx_attempts s),
    (lv_permits (tx_world s), lv_picks (tx_world s), lv_tunnels (tx_world s)))).

(** The filter rewrites the inspected body, the route stamps its headers, the upstream's [server]
    header is removed and nothing stays held. *)
Example demo_runs :
  demo_summary (demo_handle None (demo_req (bs "/x") [] false) (demo_live demo_script)) =
  (200, [(bs "content-type", bs "application/json"); (bs "x-frame-options", bs "DENY")],
   ([(0%nat, bs "http://10.0.0.1:80/x"); (1%nat, bs "http://10.0.0.2:80/x")], (0, 0, 0))) /\
  re_body (dl_response (demo_handle None (demo_req (bs "/x") [] false) (demo_live demo_script)).1)
  = Plain (full (bs "{}!")).
Proof. split; vm_compute; reflexivity. Qed.

Notation demo_core limit := (proxy_core (A := bytes) (E := unit) (IpNet := unit) (T := unit) (SN := unit)
  (C := unit) (F := PureFilter) (fun _ _ => true) [] Some (fun _ _ => false) (fun _ => None)
  (fun _ => bs "192.0.2.1") [demo_compiled limit] (bs "00-1")).

Definition demo_start (script : list (SendResult (UpResponse Map unit) * Z))
    : Tx Map unit Pick (Live unit unit Map unit) :=
  mkTx (demo_live script) (mkAttribution None None) [].

(** A request with a body, which the filter's hook edits. *)
Definition demo_post : Transaction.Request Map unit :=
  mkReq (bs "POST") (Some (bs "/x")) (mkParts Http11 None None [(bs "host", bs "a.example")])
    false (Some 2) 0%nat (full (bs "hi")).

Definition demo_posted := demo_core None None (bs "http") (V4 192 0 2 1) demo_post
  (demo_start [(demo_upstream 200 [] [], 5)]).


(** The client goes away while the request is at the upstream: the transaction is dropped there. *)
Lemma cut_first {S A B} (m : Act S A) (k : A -> Act S B) s s' : cut m s s' -> cut (bind m k) s s'.
Proof. by left. Qed.
Lemma cut_then {S A B} (m : Act S A) (k : A -> Act S B) s a s1 s' :
  m s = (Ok a, s1) -> cut (k a) s1 s' -> cut (bind m k) s s'.
Proof. intros Hm Hk. right. eauto. Qed.
Lemma cut_guarded {S A} (m : Act S A) (c : Act S unit) s s1 : cut m s s1 -> cut (on_error m c) s (c s1).2.
Proof. intros Hm. by exists s1. Qed.
Lemma cut_finally {S A} (m : Act S A) (c : Act S unit) s s1 : cut m s s1 -> cut (finally m c) s (c s1).2.
Proof. intros Hm. by exists s1. Qed.

Lemma demo_dropped : exists s,
  cut (demo_core None None (bs "http") (V4 192 0 2 1) (demo_req (bs "/x") [] false)) (demo_start demo_script) s /\
  lv_counters (tx_world s) = [MInFlight 1; MInFlight (-1)] /\ lv_script (tx_world s) = demo_script.
Proof.
  eexists. split.
  - eapply cut_then; [vm_compute; reflexivity|]. eapply cut_then; [vm_compute; reflexivity|].
    eapply cut_first. cbn [attempt cut]. eapply cut_finally.
    eapply cut_then; [vm_compute; reflexivity|]. eapply cut_first. cbn [attempt cut].
    do 7 (eapply cut_then; [vm_compute; reflexivity|]).
    eapply cut_first, cut_guarded. eexists. split; [|reflexivity]. left. eexists. split; [|reflexivity].
    eexists. split; [|reflexivity]. cbn. reflexivity.
  - split; vm_compute; reflexivity.
Qed.

Lemma transaction_releases_witness :
  let r := demo_handle None (demo_req (bs "/x") [] false) (demo_live demo_script) in
  live_held 1 1 1 1 (tx_world r.2) = 1 /\ lv_permits (tx_world r.2) = 0 /\
  exists s, cut (demo_core None None (bs "http") (V4 192 0 2 1) (demo_req (bs "/x") [] false))
      (demo_start demo_script) s /\
    live_held 1 1 1 1 (tx_world s) = 0.
Proof.
  cbv zeta.
  pose proof (transaction_releases (M := Map) (A := bytes) (T := unit) (F := PureFilter) (C := unit) (SN := unit)
    (P := Pick) (W := Live unit unit Map unit) (E := unit)
    (fun _ _ => true) [] Some (IpNet := unit) (fun _ _ => false) (fun _ => None)
    (fun _ => bs "192.0.2.1") [demo_compiled None] (bs "00-1") (live_held 1 1 1 1) 1 1 1 1 None None (bs "http")
    (V4 192 0 2 1) (demo_req (bs "/x") [] false) (demo_live demo_script)) as [Hr Hc].
  split; [unfold demo_handle; destruct handle as [d s]; exact Hr|]. split; [vm_compute; reflexivity|].
  destruct demo_dropped as (s & Hs & _). exists s. split; [exact Hs|]. exact (Hc s Hs).
Defined.

Definition demo_info (limit : option NativeRateLimit) : RouteInfo (Group unit unit) :=
  mkRouteInfo 0 (bs "r") (mkWeighted [demo_group] [0%nat] 0) None true (mkHooks true true) limit
    (Some (upgrade_new [bs "websocket"] 0)) None
    (Some (response_headers_new (M := Map) Some demo_route_headers)) timeout_default response_body_default.

Definition demo_forwarded : HttpRequest := mkRequest (bs "GET") (bs "/x") (bs "a.example") (bs "http") [].

Lemma inspection_enforced_witness :
  let uh := [(bs "content-type", bs "application/json")] in
  classify_response 200 uh response_body_default = Inspect /\
  exists reply budget s', respond_through_chain [] [demo_compiled None] 0 (demo_info None) demo_forwarded 200
      (mkUp uh (full (bs "{}"))) (demo_start []) = (Ok (Forwarded reply budget), s') /\
    exists edited, inspected (T := unit) (W := Live unit unit Map unit) [] [demo_compiled None] 0 response_body_default demo_forwarded edited
      uh (full (bs "{}")) (at_skipped (tx_attribution s')) reply.
Proof.
  cbv zeta. split; [vm_compute; reflexivity|].
  destruct (respond_through_chain [] [demo_compiled None] 0 (demo_info None) demo_forwarded 200
    (mkUp [(bs "content-type", bs "application/json")] (full (bs "{}"))) (demo_start []))
    as [[[r|reply budget]|e] s'] eqn:E; [vm_compute in E; discriminate E| |vm_compute in E; discriminate E].
  exists reply, budget, s'. split; [reflexivity|].
  destruct (inspection_enforced (M := Map) (T := unit) (F := PureFilter) (G := Group unit unit) (P := Pick)
    (W := Live unit unit Map unit) [] [demo_compiled None] 0 (demo_info None) demo_forwarded 200
    [(bs "content-type", bs "application/json")] (full (bs "{}")) (demo_start []) s' reply budget)
    as (edited & s1 & _ & Hin); [reflexivity|reflexivity|vm_compute; discriminate|exact E|].
  exists edited. exact Hin.
Defined.

Definition ws_headers : Map := [(bs "connection", bs "Upgrade"); (bs "upgrade", bs "websocket")].

(** The tunnel of an agreed upgrade, and the refusal of an unsolicited one. *)
Lemma upgrade_by_agreement_witness :
  let run := fun q => upgrade_switch [] Some [demo_compiled None] 0 true demo_forwarded
    (upgrade_intent (demo_info None) q true) ws_headers demo_group true None (mkPick 0 false) (demo_start []) in
  lv_tunnels (tx_world (run (demo_req (bs "/") ws_headers true)).2) = 1 /\
  exists reply, (run (demo_req (bs "/") [] true)).1 = Ok reply /\ rp_status reply = 502.
Proof.
  cbv zeta. split; [vm_compute; reflexivity|].
  pose proof (upgrade_by_agreement (M := Map) (T := unit) (F := PureFilter) (G := Group unit unit) (P := Pick)
    (W := Live unit unit Map unit) [] Some [demo_compiled None] 0 (demo_info None)
    (demo_req (bs "/") [] true) true demo_forwarded ws_headers demo_group true None (mkPick 0 false)
    (demo_start [])) as Hu.
  cbv zeta in Hu. cbn [ri_has_filters demo_info] in Hu.
  destruct (upgrade_switch _ _ _ _ _ _ _ _ _ _ _ _ _) as [r s'].
  destruct Hu as [(w & token & idle & v & reply & cfg & named & Hu & _) | (w & _ & Hu)].
  - vm_compute in Hu. discriminate Hu.
  - destruct Hu as (_ & reply & -> & Hs); [vm_compute; exact I|]. by exists reply.
Defined.

Lemma routed_response_declared_witness :
  exists d s', proxy_core_inner (E := unit) (T := unit) (SN := unit) (C := unit) (F := PureFilter)
      (fun _ _ => true) [] Some [demo_compiled None] (bs "00-1") (bs "http") (V4 192 0 2 1)
      (demo_req (bs "/x") [] false) (demo_start []) = (Ok d, s') /\
    re_status (dl_response d) = 502 /\
    hm_get_all (re_headers (dl_response d)) (bs "x-frame-options") = [bs "DENY"].
Proof.
  edestruct (routed_response_declared (M := Map) (A := bytes) (T := unit) (F := PureFilter) (C := unit)
    (SN := unit) (P := Pick) (W := Live unit unit Map unit) (E := unit) (fun _ _ => true) [] Some
    [demo_compiled None] (bs "00-1") demo_route_headers (bs "http") (bs "/x") (V4 192 0 2 1)
    (demo_req (bs "/x") [] false) (demo_info None) (demo_start []))
    as (d & s' & routed & Ei & Ed & Hn & _); [vm_compute; reflexivity..|].
  exists d, s'. split; [exact Ei|]. split.
  - vm_compute in Ei. injection Ei as <- _. reflexivity.
  - apply (Hn (bs "x-frame-options")); [|vm_compute; reflexivity].
    apply (bool_decide_unpack (bs "x-frame-options" ∉ REPRESENTATION_HEADERS)). vm_compute. exact I.
Defined.

Lemma refusals_in_order_witness :
  let limit := Some (rl_new (mkRouteRateLimit 1 1 KeyRoute)) in
  let spent := demo_handle limit (demo_req (bs "/x") [] false) (demo_live demo_script) in
  let again := demo_handle limit (demo_req (bs "/x") [] false) (on_semaphores 1 0 (tx_world spent.2)) in
  re_status (dl_response again.1) = 429 /\
  exists d, (demo_core None None (bs "http") (V4 192 0 2 1) (demo_req (bs "/../x") [] false)
    (demo_start demo_script)).1 = Ok d /\ re_status (dl_response d) = 400.
Proof.
  cbv zeta. split; [vm_compute; reflexivity|].
  pose proof (refusals_in_order (M := Map) (A := bytes) (T := unit) (F := PureFilter) (C := unit) (SN := unit)
    (P := Pick) (W := Live unit unit Map unit) (E := unit) (fun _ _ => true) [] Some (IpNet := unit)
    (fun _ _ => false) (fun _ => None) (fun _ => bs "192.0.2.1") [demo_compiled None] (bs "00-1") None
    (bs "http") (V4 192 0 2 1) (demo_req (bs "/../x") [] false) (demo_live demo_script)) as Hr.
  unfold demo_start. destruct (proxy_core _ _ _ _ _ _ _ _ _ _ _ _ _) as [r s] eqn:Ec in Hr |- *.
  match type of Hr with context [corrected ?a ?b ?c ?d ?e ?f ?g] =>
    let v := eval vm_compute in (corrected (A := bytes) a b c d e f g) in
    change (corrected a b c d e f g) with v in Hr end.
  cbv zeta in Hr. destruct Hr as (d & -> & Hd). exists d. split; [reflexivity|]. apply Hd.
Defined.
