(* ===== verification/Contract.v ===== *)
(** * The guest contract gate (host/src/contract.rs, the hook calls of host/src/runtime.rs,
    host/src/errors.rs)

    The contract versions a component can target, the projection of the canonical messages
    into the frozen ones, and the validation of everything a guest returns.  The generated
    bindings are a parameter: [Guest] has one raw export per contract version. *)

From S2P Require Import Prelude Bytes Chain Headers Route.

(** ** Versions *)

Inductive ContractVersion := V01 | V02 | V03 | V04.

Definition package (v : ContractVersion) : bytes :=
  bs match v with
     | V01 => "plecto:filter@0.1.0"
     | V02 => "plecto:filter@0.2.0"
     | V03 => "plecto:filter@0.3.0"
     | V04 => "plecto:filter@0.4.0"
     end%string.

#[export] Instance ContractVersion_eq_dec : EqDecision ContractVersion.
Proof. solve_decision. Defined.

Definition SUPPORTED_CONTRACT_VERSIONS : list ContractVersion := [V01; V02; V03; V04].

(** [str::contains]. *)
Fixpoint str_contains (p s : bytes) : bool :=
  starts_with p s || match s with [] => false | _ :: s => str_contains p s end.

(** The imports are the names the engine decodes from the component. *)
Fixpoint detect_contract_version (imports : list bytes) : option ContractVersion :=
  match imports with
  | [] => None
  | name :: rest =>
    if negb (starts_with (bs "plecto:filter/") name) then detect_contract_version rest
    else if str_contains (bs "@0.1.") name then Some V01
    else if str_contains (bs "@0.2.") name then Some V02
    else if str_contains (bs "@0.3.") name then Some V03
    else if str_contains (bs "@0.4.") name then Some V04
    else None
  end.

(** ** Frozen messages *)

(** [String::from_utf8_lossy]: each maximal ill-formed prefix of a sequence becomes U+FFFD. *)
Definition lead3 (a b : ascii) : bool :=
  in_range 224 224 a && in_range 160 191 b || in_range 225 236 a && utf8_cont b
  || in_range 237 237 a && in_range 128 159 b || in_range 238 239 a && utf8_cont b.
Definition lead4 (a b : ascii) : bool :=
  in_range 240 240 a && in_range 144 191 b || in_range 241 243 a && utf8_cont b
  || in_range 244 244 a && in_range 128 143 b.

Fixpoint from_utf8_lossy (s : bytes) : bytes :=
  match s with
  | [] => []
  | a :: s1 =>
    if in_range 0 127 a then a :: from_utf8_lossy s1
    else
      match s1 with
      | [] => REPLACEMENT
      | b :: s2 =>
        if in_range 194 223 a && utf8_cont b then a :: b :: from_utf8_lossy s2
        else if negb (lead3 a b || lead4 a b) then REPLACEMENT ++ from_utf8_lossy s1
        else
          match s2 with
          | [] => REPLACEMENT
          | c :: s3 =>
            if negb (utf8_cont c) then REPLACEMENT ++ from_utf8_lossy s2
            else if lead3 a b then a :: b :: c :: from_utf8_lossy s3
            else
              match s3 with
              | [] => REPLACEMENT
              | d :: s4 =>
                if utf8_cont d then a :: b :: c :: d :: from_utf8_lossy s4
                else REPLACEMENT ++ from_utf8_lossy s3
              end
          end
      end
  end.

(** The request of the frozen tracks: [path] is the canonical [path_with_query].  A value of
    [HttpRequest_v01] is a string, a value of the later tracks is a list of bytes. *)
Record FrozenRequest := mkFrozenRequest {
  fr_method : bytes;
  fr_path : bytes;
  fr_authority : bytes;
  fr_scheme : bytes;
  fr_headers : list Header;
}.

(** 0.1 and 0.2 cannot replace a response. *)
Inductive ResponseDecision_v02 :=
| Rs2Continue
| Rs2Modified (edit : ResponseEdit).

(** 0.1 to 0.3 always continue with a body. *)
Inductive RequestBodyDecision_v03 :=
| Rb3Continue (body : bytes)
| Rb3ShortCircuit (response : HttpResponse).

Definition request_to_v01 (req : HttpRequest) : FrozenRequest :=
  mkFrozenRequest (rq_method req) (rq_path_with_query req) (rq_authority req) (rq_scheme req)
    (map (fun h => mkHeader (h_name h) (from_utf8_lossy (h_value h))) (rq_headers req)).

Definition response_to_v01 (resp : HttpResponse) : HttpResponse :=
  mkResponse (rs_status resp)
    (map (fun h => mkHeader (h_name h) (from_utf8_lossy (h_value h))) (rs_headers resp))
    (rs_body resp).

Definition request_to_v02 (req : HttpRequest) : FrozenRequest :=
  mkFrozenRequest (rq_method req) (rq_path_with_query req) (rq_authority req) (rq_scheme req)
    (map (fun h => mkHeader (h_name h) (h_value h)) (rq_headers req)).

Definition response_to_v02 (resp : HttpResponse) : HttpResponse :=
  mkResponse (rs_status resp) (map (fun h => mkHeader (h_name h) (h_value h)) (rs_headers resp))
    (rs_body resp).

Definition request_to_v03 (req : HttpRequest) : FrozenRequest :=
  mkFrozenRequest (rq_method req) (rq_path_with_query req) (rq_authority req) (rq_scheme req)
    (map (fun h => mkHeader (h_name h) (h_value h)) (rq_headers req)).

Definition response_to_v03 (resp : HttpResponse) : HttpResponse :=
  mkResponse (rs_status resp) (map (fun h => mkHeader (h_name h) (h_value h)) (rs_headers resp))
    (rs_body resp).

(** ** The header gate *)

Definition MAX_GUEST_HEADER_NAME_LEN : Z := 256.
Definition MAX_GUEST_HEADER_VALUE_LEN : Z := 8192.
Definition MAX_GUEST_RESPONSE_BODY_LEN : Z := Z.shiftl 1 20.

Definition is_tchar (b : ascii) : bool :=
  in_range 48 57 b || in_range 65 90 b || in_range 97 122 b
  || ascii_eqb b "!" || in_range 35 39 b || ascii_eqb b "*" || ascii_eqb b "+" || ascii_eqb b "-"
  || ascii_eqb b "." || ascii_eqb b "^" || ascii_eqb b "_" || ascii_eqb b "`" || ascii_eqb b "|"
  || ascii_eqb b "~".

Definition is_field_value_byte (b : ascii) : bool :=
  (byte_val b =? 9) || (32 <=? byte_val b) && negb (byte_val b =? 127).

Definition is_hop_by_hop_guest_header (name : bytes) : bool :=
  existsb (fun h => eq_ignore_ascii_case name h) HOP_BY_HOP_GUEST_HEADERS.

Definition validate_and_header (name value : bytes) : option Header :=
  if bool_decide (name = []) || (MAX_GUEST_HEADER_NAME_LEN <? blen name) then None
  else if negb (forallb is_tchar name) then None
  else if MAX_GUEST_HEADER_VALUE_LEN <? blen value then None
  else if negb (forallb is_field_value_byte value) then None
  else Some (mkHeader name value).

Definition header_from_v01 (h : Header) : option Header := validate_and_header (h_name h) (h_value h).
Definition header_from_v02 (h : Header) : option Header := validate_and_header (h_name h) (h_value h).
Definition header_from_v03 (h : Header) : option Header := validate_and_header (h_name h) (h_value h).
Definition header_from_v04 (h : Header) : option Header := validate_and_header (h_name h) (h_value h).

(** The [into_iter().filter().map().collect::<Option<Vec<_>>>()] of every mapper. *)
Definition map_headers (from : Header -> option Header) (hs : list Header) : option (list Header) :=
  mapM from (List.filter (fun h => negb (is_hop_by_hop_guest_header (h_name h))) hs).

Definition validated_guest_body (body : bytes) : option bytes :=
  if MAX_GUEST_RESPONSE_BODY_LEN <? blen body then None else Some body.

Definition validated_guest_status (status : Z) : option Z :=
  if (100 <=? status) && (status <=? 599) then Some status else None.

(** [match edit.set_status { Some(status) => Some(validated_guest_status(status)?), None => None }] *)
Definition validated_set_status (set_status : option Z) : option (option Z) :=
  match set_status with
  | Some status => s ← validated_guest_status status; Some (Some s)
  | None => Some None
  end.

(** ** Edits and responses *)

Definition request_edit_from_v01 (edit : RequestEdit) : option RequestEdit :=
  set ← map_headers header_from_v01 (re_set_headers edit);
  Some (mkRequestEdit set (re_remove_headers edit)).
Definition request_edit_from_v02 (edit : RequestEdit) : option RequestEdit :=
  set ← map_headers header_from_v02 (re_set_headers edit);
  Some (mkRequestEdit set (re_remove_headers edit)).
Definition request_edit_from_v03 (edit : RequestEdit) : option RequestEdit :=
  set ← map_headers header_from_v03 (re_set_headers edit);
  Some (mkRequestEdit set (re_remove_headers edit)).
Definition request_edit_from_v04 (edit : RequestEdit) : option RequestEdit :=
  set ← map_headers header_from_v04 (re_set_headers edit);
  Some (mkRequestEdit set (re_remove_headers edit)).

Definition response_edit_from_v01 (edit : ResponseEdit) : option ResponseEdit :=
  set ← map_headers header_from_v01 (se_set_headers edit);
  status ← validated_set_status (se_set_status edit);
  Some (mkResponseEdit status set (se_remove_headers edit)).
Definition response_edit_from_v02 (edit : ResponseEdit) : option ResponseEdit :=
  set ← map_headers header_from_v02 (se_set_headers edit);
  status ← validated_set_status (se_set_status edit);
  Some (mkResponseEdit status set (se_remove_headers edit)).
Definition response_edit_from_v03 (edit : ResponseEdit) : option ResponseEdit :=
  set ← map_headers header_from_v03 (se_set_headers edit);
  status ← validated_set_status (se_set_status edit);
  Some (mkResponseEdit status set (se_remove_headers edit)).
Definition response_edit_from_v04 (edit : ResponseEdit) : option ResponseEdit :=
  set ← map_headers header_from_v04 (se_set_headers edit);
  status ← validated_set_status (se_set_status edit);
  Some (mkResponseEdit status set (se_remove_headers edit)).

Definition request_body_edit_from_v04 (edit : BodyEdit) : option BodyEdit :=
  set ← map_headers header_from_v04 (be_set_headers edit);
  Some (mkBodyEdit (be_body edit) set (be_remove_headers edit)).

Definition names_content_length (headers : list Header) : bool :=
  existsb (fun h => eq_ignore_ascii_case (h_name h) (bs "content-length")) headers.

Definition response_body_edit_from_v04 (edit : BodyEdit) : option BodyEdit :=
  if names_content_length (be_set_headers edit) then None
  else
    set ← map_headers header_from_v04 (be_set_headers edit);
    Some (mkBodyEdit (be_body edit) set (be_remove_headers edit)).

Definition response_from_v01 (resp : HttpResponse) : option HttpResponse :=
  headers ← map_headers header_from_v01 (rs_headers resp);
  status ← validated_guest_status (rs_status resp);
  body ← validated_guest_body (rs_body resp);
  Some (mkResponse status headers body).
Definition response_from_v02 (resp : HttpResponse) : option HttpResponse :=
  headers ← map_headers header_from_v02 (rs_headers resp);
  status ← validated_guest_status (rs_status resp);
  body ← validated_guest_body (rs_body resp);
  Some (mkResponse status headers body).
Definition response_from_v03 (resp : HttpResponse) : option HttpResponse :=
  headers ← map_headers header_from_v03 (rs_headers resp);
  status ← validated_guest_status (rs_status resp);
  body ← validated_guest_body (rs_body resp);
  Some (mkResponse status headers body).
Definition response_from_v04 (resp : HttpResponse) : option HttpResponse :=
  headers ← map_headers header_from_v04 (rs_headers resp);
  status ← validated_guest_status (rs_status resp);
  body ← validated_guest_body (rs_body resp);
  Some (mkResponse status headers body).

(** ** Decisions *)

Definition frozen_body_continue (body : bytes) : RequestBodyDecision :=
  RbModified (mkBodyEdit body [] []).

Definition request_decision_from_v01 (decision : RequestDecision) : option RequestDecision :=
  match decision with
  | RqContinue => Some RqContinue
  | RqModified edit => RqModified <$> request_edit_from_v01 edit
  | RqShortCircuit resp => RqShortCircuit <$> response_from_v01 resp
  end.
Definition request_decision_from_v02 (decision : RequestDecision) : option RequestDecision :=
  match decision with
  | RqContinue => Some RqContinue
  | RqModified edit => RqModified <$> request_edit_from_v02 edit
  | RqShortCircuit resp => RqShortCircuit <$> response_from_v02 resp
  end.
Definition request_decision_from_v03 (decision : RequestDecision) : option RequestDecision :=
  match decision with
  | RqContinue => Some RqContinue
  | RqModified edit => RqModified <$> request_edit_from_v03 edit
  | RqShortCircuit resp => RqShortCircuit <$> response_from_v03 resp
  end.
Definition request_decision_from_v04 (decision : RequestDecision) : option RequestDecision :=
  match decision with
  | RqContinue => Some RqContinue
  | RqModified edit => RqModified <$> request_edit_from_v04 edit
  | RqShortCircuit resp => RqShortCircuit <$> response_from_v04 resp
  end.

Definition response_decision_from_v01 (decision : ResponseDecision_v02) : option ResponseDecision :=
  match decision with
  | Rs2Continue => Some RsContinue
  | Rs2Modified edit => RsModified <$> response_edit_from_v01 edit
  end.
Definition response_decision_from_v02 (decision : ResponseDecision_v02) : option ResponseDecision :=
  match decision with
  | Rs2Continue => Some RsContinue
  | Rs2Modified edit => RsModified <$> response_edit_from_v02 edit
  end.
Definition response_decision_from_v03 (decision : ResponseDecision) : option ResponseDecision :=
  match decision with
  | RsContinue => Some RsContinue
  | RsModified edit => RsModified <$> response_edit_from_v03 edit
  | RsReplace resp => RsReplace <$> response_from_v03 resp
  end.
Definition response_decision_from_v04 (decision : ResponseDecision) : option ResponseDecision :=
  match decision with
  | RsContinue => Some RsContinue
  | RsModified edit => RsModified <$> response_edit_from_v04 edit
  | RsReplace resp => RsReplace <$> response_from_v04 resp
  end.

Definition request_body_decision_from_v01 (decision : RequestBodyDecision_v03)
    : option RequestBodyDecision :=
  match decision with
  | Rb3Continue body => Some (frozen_body_continue body)
  | Rb3ShortCircuit resp => RbShortCircuit <$> response_from_v01 resp
  end.
Definition request_body_decision_from_v02 (decision : RequestBodyDecision_v03)
    : option RequestBodyDecision :=
  match decision with
  | Rb3Continue body => Some (frozen_body_continue body)
  | Rb3ShortCircuit resp => RbShortCircuit <$> response_from_v02 resp
  end.
Definition request_body_decision_from_v03 (decision : RequestBodyDecision_v03)
    : option RequestBodyDecision :=
  match decision with
  | Rb3Continue body => Some (frozen_body_continue body)
  | Rb3ShortCircuit resp => RbShortCircuit <$> response_from_v03 resp
  end.
Definition request_body_decision_from_v04 (decision : RequestBodyDecision)
    : option RequestBodyDecision :=
  match decision with
  | RbContinue => Some RbContinue
  | RbModified edit => RbModified <$> request_body_edit_from_v04 edit
  | RbShortCircuit resp => RbShortCircuit <$> response_from_v04 resp
  end.

Definition response_body_decision_from_v04 (decision : ResponseBodyDecision)
    : option ResponseBodyDecision :=
  match decision with
  | SbContinue => Some SbContinue
  | SbModified edit => SbModified <$> response_body_edit_from_v04 edit
  | SbReplace resp =>
    if names_content_length (rs_headers resp) then None else SbReplace <$> response_from_v04 resp
  end.

(** ** Hook calls *)

(** What a call into the engine fails with: the validation marker, the epoch interrupt, or
    anything else. *)
Inductive CallError := InvalidGuestOutput | Interrupt | OtherError.

Definition from_call (e : CallError) : RunError :=
  match e with
  | InvalidGuestOutput => InvalidOutput
  | Interrupt => Deadline
  | OtherError => Trap
  end.

(** The typed exports of an instance of each version ([drive_call] of the generated calls), on
    a world [W].  The engine never raises the marker itself. *)
Class Guest (G W : Type) := {
  v01_on_request : G -> FrozenRequest -> W -> result RequestDecision CallError * W;
  v02_on_request : G -> FrozenRequest -> W -> result RequestDecision CallError * W;
  v03_on_request : G -> FrozenRequest -> W -> result RequestDecision CallError * W;
  v04_on_request : G -> HttpRequest -> W -> result RequestDecision CallError * W;
  v01_on_response : G -> HttpResponse -> W -> result ResponseDecision_v02 CallError * W;
  v02_on_response : G -> HttpResponse -> W -> result ResponseDecision_v02 CallError * W;
  v03_on_response : G -> FrozenRequest -> HttpResponse -> W -> result ResponseDecision CallError * W;
  v04_on_response : G -> HttpRequest -> HttpResponse -> W -> result ResponseDecision CallError * W;
  v01_body_func : G -> bytes -> W -> result RequestBodyDecision_v03 CallError * W;
  v02_body_func : G -> bytes -> W -> result RequestBodyDecision_v03 CallError * W;
  v03_body_func : G -> bytes -> W -> result RequestBodyDecision_v03 CallError * W;
  v04_body_func : G -> bytes -> W -> result RequestBodyDecision CallError * W;
  v04_response_body_func : G -> HttpRequest -> HttpResponse -> bytes -> W ->
    result ResponseBodyDecision CallError * W;
}.

(** An instance: the guest bound at its version and the optional exports it resolved. *)
Record WasmtimeInstance (G : Type) := mkInstance {
  wi_filter : G;
  wi_version : ContractVersion;
  wi_body_func : bool;
  wi_response_body_func : bool;
}.
Arguments mkInstance {G}.
Arguments wi_filter {G}.
Arguments wi_version {G}.
Arguments wi_body_func {G}.
Arguments wi_response_body_func {G}.

(** [let raw = call?; from(raw).ok_or_else(invalid_guest_header_error)] *)
Definition validating {R D W : Type} (from : R -> option D) (call : result R CallError * W)
    : result D CallError * W :=
  let '(raw, w) := call in
  (res_bind raw (fun d => match from d with Some d => Ok d | None => Err InvalidGuestOutput end), w).

Section calls.
Context {G W : Type} `{Guest G W}.

Definition call_on_request (inst : WasmtimeInstance G) (req : HttpRequest) (w : W)
    : result RequestDecision CallError * W :=
  let filter := wi_filter inst in
  match wi_version inst with
  | V04 => validating request_decision_from_v04 (v04_on_request filter req w)
  | V03 => validating request_decision_from_v03 (v03_on_request filter (request_to_v03 req) w)
  | V02 => validating request_decision_from_v02 (v02_on_request filter (request_to_v02 req) w)
  | V01 => validating request_decision_from_v01 (v01_on_request filter (request_to_v01 req) w)
  end.

Definition call_on_response (inst : WasmtimeInstance G) (req : HttpRequest) (resp : HttpResponse)
    (w : W) : result ResponseDecision CallError * W :=
  let filter := wi_filter inst in
  match wi_version inst with
  | V04 => validating response_decision_from_v04 (v04_on_response filter req resp w)
  | V03 => validating response_decision_from_v03
      (v03_on_response filter (request_to_v03 req) (response_to_v03 resp) w)
  | V02 => validating response_decision_from_v02 (v02_on_response filter (response_to_v02 resp) w)
  | V01 => validating response_decision_from_v01 (v01_on_response filter (response_to_v01 resp) w)
  end.

Definition call_body_hook (inst : WasmtimeInstance G) (body : bytes) (w : W)
    : result RequestBodyDecision CallError * W :=
  let filter := wi_filter inst in
  if negb (wi_body_func inst) then (Err OtherError, w)
  else
    match wi_version inst with
    | V04 => validating request_body_decision_from_v04 (v04_body_func filter body w)
    | V03 => validating request_body_decision_from_v03 (v03_body_func filter body w)
    | V02 => validating request_body_decision_from_v02 (v02_body_func filter body w)
    | V01 => validating request_body_decision_from_v01 (v01_body_func filter body w)
    end.

Definition call_response_body_hook (inst : WasmtimeInstance G) (req : HttpRequest)
    (resp : HttpResponse) (body : bytes) (w : W) : result ResponseBodyDecision CallError * W :=
  if negb (wi_response_body_func inst) then (Err OtherError, w)
  else validating response_body_decision_from_v04
    (v04_response_body_func (wi_filter inst) req resp body w).
End calls.

(** ** The gate's specification *)

Definition header_ok (h : Header) : bool :=
  negb (bool_decide (h_name h = [])) && (blen (h_name h) <=? MAX_GUEST_HEADER_NAME_LEN)
  && forallb is_tchar (h_name h) && (blen (h_value h) <=? MAX_GUEST_HEADER_VALUE_LEN)
  && forallb is_field_value_byte (h_value h).
Definition without_hop_by_hop (hs : list Header) : list Header :=
  List.filter (fun h => negb (is_hop_by_hop_guest_header (h_name h))) hs.
Definition headers_ok (hs : list Header) : bool := forallb header_ok (without_hop_by_hop hs).
Definition status_ok (s : Z) : bool := (100 <=? s) && (s <=? 599).
Definition response_ok (r : HttpResponse) : bool :=
  headers_ok (rs_headers r) && status_ok (rs_status r)
  && (blen (rs_body r) <=? MAX_GUEST_RESPONSE_BODY_LEN).
Definition clean_response (r : HttpResponse) : HttpResponse :=
  mkResponse (rs_status r) (without_hop_by_hop (rs_headers r)) (rs_body r).
Definition clean_body_edit (e : BodyEdit) : BodyEdit :=
  mkBodyEdit (be_body e) (without_hop_by_hop (be_set_headers e)) (be_remove_headers e).

(** A valid decision, and what the host makes of it. *)
Definition request_ok (d : RequestDecision) : option RequestDecision :=
  match d with
  | RqContinue => Some RqContinue
  | RqModified e =>
    if headers_ok (re_set_headers e)
    then Some (RqModified (mkRequestEdit (without_hop_by_hop (re_set_headers e)) (re_remove_headers e)))
    else None
  | RqShortCircuit r => if response_ok r then Some (RqShortCircuit (clean_response r)) else None
  end.
Definition response_decision_ok (d : ResponseDecision) : option ResponseDecision :=
  match d with
  | RsContinue => Some RsContinue
  | RsModified e =>
    if headers_ok (se_set_headers e) && match se_set_status e with Some s => status_ok s | None => true end
    then Some (RsModified (mkResponseEdit (se_set_status e) (without_hop_by_hop (se_set_headers e))
      (se_remove_headers e)))
    else None
  | RsReplace r => if response_ok r then Some (RsReplace (clean_response r)) else None
  end.
Definition request_body_ok (d : RequestBodyDecision) : option RequestBodyDecision :=
  match d with
  | RbContinue => Some RbContinue
  | RbModified e => if headers_ok (be_set_headers e) then Some (RbModified (clean_body_edit e)) else None
  | RbShortCircuit r => if response_ok r then Some (RbShortCircuit (clean_response r)) else None
  end.
Definition response_body_ok (d : ResponseBodyDecision) : option ResponseBodyDecision :=
  match d with
  | SbContinue => Some SbContinue
  | SbModified e =>
    if negb (names_content_length (be_set_headers e)) && headers_ok (be_set_headers e)
    then Some (SbModified (clean_body_edit e)) else None
  | SbReplace r =>
    if negb (names_content_length (rs_headers r)) && response_ok r
    then Some (SbReplace (clean_response r)) else None
  end.

(** The frozen decisions in the current vocabulary. *)
Definition lift_response (d : ResponseDecision_v02) : ResponseDecision :=
  match d with Rs2Continue => RsContinue | Rs2Modified e => RsModified e end.
Definition lift_body (d : RequestBodyDecision_v03) : RequestBodyDecision :=
  match d with
  | Rb3Continue b => RbModified (mkBodyEdit b [] [])
  | Rb3ShortCircuit r => RbShortCircuit r
  end.
Definition map_raw {A B W : Type} (f : A -> B) (call : result A CallError * W)
    : result B CallError * W :=
  (res_bind (fst call) (fun a => Ok (f a)), snd call).

Section raw.
Context {G W : Type} `{Guest G W}.

(** What the guest returned, whichever version it speaks. *)
Definition raw_on_request (inst : WasmtimeInstance G) (req : HttpRequest) (w : W)
    : result RequestDecision CallError * W :=
  match wi_version inst with
  | V01 => v01_on_request (wi_filter inst) (request_to_v01 req) w
  | V02 => v02_on_request (wi_filter inst) (request_to_v02 req) w
  | V03 => v03_on_request (wi_filter inst) (request_to_v03 req) w
  | V04 => v04_on_request (wi_filter inst) req w
  end.
Definition raw_on_response (inst : WasmtimeInstance G) (req : HttpRequest) (resp : HttpResponse)
    (w : W) : result ResponseDecision CallError * W :=
  match wi_version inst with
  | V01 => map_raw lift_response (v01_on_response (wi_filter inst) (response_to_v01 resp) w)
  | V02 => map_raw lift_response (v02_on_response (wi_filter inst) (response_to_v02 resp) w)
  | V03 => v03_on_response (wi_filter inst) (request_to_v03 req) (response_to_v03 resp) w
  | V04 => v04_on_response (wi_filter inst) req resp w
  end.
Definition raw_on_request_body (inst : WasmtimeInstance G) (body : bytes) (w : W)
    : result RequestBodyDecision CallError * W :=
  match wi_version inst with
  | V01 => map_raw lift_body (v01_body_func (wi_filter inst) body w)
  | V02 => map_raw lift_body (v02_body_func (wi_filter inst) body w)
  | V03 => map_raw lift_body (v03_body_func (wi_filter inst) body w)
  | V04 => v04_body_func (wi_filter inst) body w
  end.
End raw.

(** ** Lemmas *)

Lemma validate_and_header_eq h :
  validate_and_header (h_name h) (h_value h) = if header_ok h then Some h else None.
Proof.
  unfold validate_and_header, header_ok. destruct h as [n v]. cbn [h_name h_value].
  rewrite !Z.leb_antisym. case_bool_decide; [done|].
  destruct (MAX_GUEST_HEADER_NAME_LEN <? blen n), (forallb is_tchar n),
    (MAX_GUEST_HEADER_VALUE_LEN <? blen v), (forallb is_field_value_byte v); reflexivity.
Qed.

Lemma mapM_if {A} (p : A -> bool) (f : A -> option A) l :
  (forall x, f x = if p x then Some x else None) -> mapM f l = if forallb p l then Some l else None.
Proof.
  intros Hf. induction l as [|x l IH]; [done|]. cbn [mapM forallb]. rewrite Hf, IH.
  destruct (p x), (forallb p l); reflexivity.
Qed.

Lemma map_headers_eq from hs :
  (forall h, from h = validate_and_header (h_name h) (h_value h)) ->
  map_headers from hs = if headers_ok hs then Some (without_hop_by_hop hs) else None.
Proof.
  intros Hf. unfold map_headers, headers_ok. apply mapM_if. intros h. rewrite Hf.
  apply validate_and_header_eq.
Qed.

Lemma guest_body_eq b :
  validated_guest_body b = if blen b <=? MAX_GUEST_RESPONSE_BODY_LEN then Some b else None.
Proof. unfold validated_guest_body. rewrite Z.leb_antisym. by destruct (_ <? _). Qed.

Lemma response_from_eq from r :
  (forall h, from h = validate_and_header (h_name h) (h_value h)) ->
  (headers ← map_headers from (rs_headers r);
   status ← validated_guest_status (rs_status r);
   body ← validated_guest_body (rs_body r);
   Some (mkResponse status headers body))
  = if response_ok r then Some (clean_response r) else None.
Proof.
  intros Hf. rewrite (map_headers_eq _ _ Hf), guest_body_eq.
  unfold response_ok, status_ok, validated_guest_status, clean_response.
  destruct (headers_ok _), ((_ <=? _) && (_ <=? _)), (_ <=? _); reflexivity.
Qed.

Lemma response_edit_eq from e :
  (forall h, from h = validate_and_header (h_name h) (h_value h)) ->
  (RsModified <$> (set ← map_headers from (se_set_headers e);
   status ← validated_set_status (se_set_status e);
   Some (mkResponseEdit status set (se_remove_headers e))))
  = response_decision_ok (RsModified e).
Proof.
  intros Hf. rewrite (map_headers_eq _ _ Hf). cbn [response_decision_ok].
  unfold validated_set_status, validated_guest_status, status_ok.
  destruct (headers_ok _), (se_set_status e) as [s|]; try reflexivity.
  destruct ((_ <=? _) && (_ <=? _)); reflexivity.
Qed.

Lemma request_from_eq d :
  request_decision_from_v01 d = request_ok d /\ request_decision_from_v02 d = request_ok d /\
  request_decision_from_v03 d = request_ok d /\ request_decision_from_v04 d = request_ok d.
Proof.
  assert (Hr : forall r, RqShortCircuit <$> (if response_ok r then Some (clean_response r) else None)
    = request_ok (RqShortCircuit r)) by (intros r; cbn; by destruct (response_ok r)).
  destruct d as [|e|r]; cbn [request_decision_from_v01 request_decision_from_v02
    request_decision_from_v03 request_decision_from_v04].
  - done.
  - unfold request_edit_from_v01, request_edit_from_v02, request_edit_from_v03, request_edit_from_v04.
    rewrite !map_headers_eq by reflexivity. cbn. by destruct (headers_ok _).
  - split_and!; (etransitivity; [apply f_equal, response_from_eq; reflexivity|apply Hr]).
Qed.

Lemma response_decision_from_eq d :
  response_decision_from_v03 d = response_decision_ok d /\
  response_decision_from_v04 d = response_decision_ok d.
Proof.
  destruct d as [|e|r]; cbn [response_decision_from_v03 response_decision_from_v04].
  - done.
  - split; apply response_edit_eq; reflexivity.
  - split; (etransitivity; [apply f_equal, response_from_eq; reflexivity|]); cbn;
      by destruct (response_ok r).
Qed.

Lemma frozen_response_decision_eq d :
  response_decision_from_v01 d = response_decision_ok (lift_response d) /\
  response_decision_from_v02 d = response_decision_ok (lift_response d).
Proof.
  destruct d as [|e]; [done|]. cbn [response_decision_from_v01 response_decision_from_v02 lift_response].
  split; apply response_edit_eq; reflexivity.
Qed.

Lemma frozen_body_decision_eq d :
  request_body_decision_from_v01 d = request_body_ok (lift_body d) /\
  request_body_decision_from_v02 d = request_body_ok (lift_body d) /\
  request_body_decision_from_v03 d = request_body_ok (lift_body d).
Proof.
  destruct d as [b|r]; [done|].
  cbn [request_body_decision_from_v01 request_body_decision_from_v02 request_body_decision_from_v03
    lift_body].
  split_and!; (etransitivity; [apply f_equal, response_from_eq; reflexivity|]); cbn;
    by destruct (response_ok r).
Qed.

Lemma body_decision_eq d : request_body_decision_from_v04 d = request_body_ok d.
Proof.
  destruct d as [|e|r]; cbn [request_body_decision_from_v04 request_body_ok]; [done| |].
  - unfold request_body_edit_from_v04. rewrite map_headers_eq by reflexivity.
    by destruct (headers_ok _).
  - etransitivity; [apply f_equal, response_from_eq; reflexivity|]. by destruct (response_ok r).
Qed.

Lemma response_body_decision_eq d : response_body_decision_from_v04 d = response_body_ok d.
Proof.
  destruct d as [|e|r]; cbn [response_body_decision_from_v04 response_body_ok]; [done| |].
  - unfold response_body_edit_from_v04. rewrite map_headers_eq by reflexivity.
    destruct (names_content_length _), (headers_ok _); reflexivity.
  - destruct (names_content_length _); [done|].
    etransitivity; [apply f_equal, response_from_eq; reflexivity|]. by destruct (response_ok r).
Qed.

Lemma utf8_replacement s : utf8_valid (REPLACEMENT ++ s) = utf8_valid s.
Proof. reflexivity. Qed.

Lemma lead_disjoint a b : lead3 a b = true -> lead4 a b = false.
Proof.
  unfold lead3, lead4, in_range. intros E.
  repeat (apply orb_prop in E as [E|E]); apply andb_prop in E as [E _];
    apply andb_prop in E as [_ E]; apply Z.leb_le in E;
    rewrite !(proj2 (Z.leb_gt _ (byte_val a))) by lia; reflexivity.
Qed.

(** The lossy projection is text, and text is projected to itself. *)
Lemma from_utf8_lossy_spec n : forall s, (length s <= n)%nat ->
  utf8_valid (from_utf8_lossy s) = true /\ (utf8_valid s = true -> from_utf8_lossy s = s).
Proof.
  induction n as [|n IH]; intros s Hn; [destruct s; [done|cbn in Hn; lia]|].
  destruct s as [|a s1]; [done|]. cbn [length] in Hn. cbn [from_utf8_lossy utf8_valid].
  destruct (in_range 0 127 a) eqn:Ea.
  { destruct (IH s1) as [H1 H2]; [lia|]. cbn [utf8_valid]. rewrite Ea. split; [done|].
    intros Hv. by rewrite H2. }
  destruct s1 as [|b s2]; [done|]. cbn [length] in Hn.
  destruct (in_range 194 223 a && utf8_cont b) eqn:E2.
  { destruct (IH s2) as [H1 H2]; [lia|]. cbn [utf8_valid]. rewrite Ea, E2. split; [done|].
    intros Hv. by rewrite H2. }
  fold (lead3 a b). fold (lead4 a b).
  destruct (lead3 a b) eqn:E3; cbn [orb negb andb].
  - pose proof (lead_disjoint _ _ E3) as E4. rewrite E4. cbn [andb].
    destruct s2 as [|c s3]; [done|]. cbn [length] in Hn. destruct (utf8_cont c) eqn:Ec; cbn [negb].
    + destruct (IH s3) as [H1 H2]; [lia|]. cbn [utf8_valid]. rewrite Ea, E2. fold (lead3 a b).
      rewrite E3, Ec. split; [done|]. intros Hv. by rewrite H2.
    + rewrite utf8_replacement. split; [apply IH; cbn [length]; lia|]. by destruct s3.
  - destruct (lead4 a b) eqn:E4; cbn [negb andb].
    + destruct s2 as [|c s3]; [done|]. cbn [length] in Hn.
      destruct (utf8_cont c) eqn:Ec; cbn [negb andb].
      * destruct s3 as [|d s4]; [done|]. cbn [length] in Hn. destruct (utf8_cont d) eqn:Ed.
        -- destruct (IH s4) as [H1 H2]; [lia|]. cbn [utf8_valid]. rewrite Ea, E2.
           fold (lead3 a b). fold (lead4 a b). rewrite E3, E4, Ec, Ed. split; [done|].
           intros Hv. by rewrite H2.
        -- rewrite utf8_replacement. split; [apply IH; cbn [length]; lia|done].
      * rewrite utf8_replacement. split; [apply IH; cbn [length]; lia|]. by destruct s3.
    + rewrite utf8_replacement. split; [apply IH; cbn [length]; lia|].
      by destruct s2 as [|? [|? ?]].
Qed.

Lemma lossy_valid s : utf8_valid (from_utf8_lossy s) = true.
Proof. exact (proj1 (from_utf8_lossy_spec _ s (le_n _))). Qed.
Lemma lossy_text s : utf8_valid s = true -> from_utf8_lossy s = s.
Proof. exact (proj2 (from_utf8_lossy_spec _ s (le_n _))). Qed.
Lemma lossy_idemp s : from_utf8_lossy (from_utf8_lossy s) = from_utf8_lossy s.
Proof. apply lossy_text, lossy_valid. Qed.

Lemma validating_ext {R D W} (f g : R -> option D) (c : result R CallError * W) :
  (forall d, f d = g d) -> validating f c = validating g c.
Proof. intros E. destruct c as [[d|e] w]; [|done]. cbn. by rewrite E. Qed.

Lemma validating_lift {A R D W} (l : A -> R) (f : R -> option D) (c : result A CallError * W) :
  validating f (map_raw l c) = validating (fun a => f (l a)) c.
Proof. by destruct c as [[d|e] w]. Qed.

(** ** Theorems *)

(** The hook calls of all four contract versions are exactly the guest's own call followed
    by one gate.  An engine failure passes unchanged; a returned decision is accepted iff every
    header that is not hop-by-hop has a nonempty token name of at most 256 bytes and a field
    value of at most 8192, a status is in 100..=599, a synthesised body has at most 1 MiB, and a
    response-body decision does not name content-length; what is accepted is the decision with
    the hop-by-hop headers dropped and every other part and order unchanged, and anything else
    is invalid output.  The frozen [continue(body)] is a rewrite of the body without edits. *)
Theorem hook_calls_gate_output {G W} `{Guest G W} (inst : WasmtimeInstance G) (req : HttpRequest)
    (resp : HttpResponse) (body : bytes) (w : W) :
  call_on_request inst req w = validating request_ok (raw_on_request inst req w) /\
  call_on_response inst req resp w
  = validating response_decision_ok (raw_on_response inst req resp w) /\
  call_body_hook inst body w
  = (if wi_body_func inst then validating request_body_ok (raw_on_request_body inst body w)
     else (Err OtherError, w)) /\
  call_response_body_hook inst req resp body w
  = (if wi_response_body_func inst
     then validating response_body_ok (v04_response_body_func (wi_filter inst) req resp body w)
     else (Err OtherError, w)).
Proof.
  unfold call_on_request, call_on_response, call_body_hook, call_response_body_hook,
    raw_on_request, raw_on_response, raw_on_request_body.
  split_and!; [| |destruct (wi_body_func inst); [|done]|destruct (wi_response_body_func inst); [|done]];
    try (destruct (wi_version inst)); cbn [negb]; rewrite ?validating_lift; apply validating_ext;
    intros d; try apply (request_from_eq d); try apply (response_decision_from_eq d);
    try apply (frozen_response_decision_eq d); try apply (frozen_body_decision_eq d);
    first [apply body_decision_eq | apply response_body_decision_eq].
Qed.

(** What a frozen guest is shown: 0.2 and 0.3 see the canonical message field for field, 0.1
    sees every header value as text, unchanged when it already is text and otherwise the
    lossy decoding, with names, order and every other field kept. *)
Theorem frozen_projections_faithful (req : HttpRequest) (resp : HttpResponse) :
  request_to_v03 req = request_to_v02 req /\ response_to_v03 resp = resp /\
  response_to_v02 resp = resp /\
  request_to_v02 req = mkFrozenRequest (rq_method req) (rq_path_with_query req) (rq_authority req)
    (rq_scheme req) (rq_headers req) /\
  (forall shown hs, (shown, hs) = (fr_headers (request_to_v01 req), rq_headers req)
      \/ (shown, hs) = (rs_headers (response_to_v01 resp), rs_headers resp) ->
    map h_name shown = map h_name hs /\
    Forall (fun h => utf8_valid (h_value h) = true) shown /\
    (Forall (fun h => utf8_valid (h_value h) = true) hs -> shown = hs)) /\
  rs_status (response_to_v01 resp) = rs_status resp /\ rs_body (response_to_v01 resp) = rs_body resp.
Proof.
  assert (Hid : forall hs, map (fun h => mkHeader (h_name h) (h_value h)) hs = hs).
  { induction hs as [|[] hs IH]; [done|]. cbn. by rewrite IH. }
  unfold request_to_v03, request_to_v02, response_to_v03, response_to_v02. rewrite !Hid.
  split_and!; try done; [by destruct resp|by destruct resp|].
  assert (Hl : forall hs, let shown := map (fun h => mkHeader (h_name h) (from_utf8_lossy (h_value h))) hs in
    map h_name shown = map h_name hs /\ Forall (fun h => utf8_valid (h_value h) = true) shown /\
    (Forall (fun h => utf8_valid (h_value h) = true) hs -> shown = hs)).
  { intros hs. cbv zeta. split_and!.
    - rewrite map_map. by apply map_ext.
    - apply Forall_map, Forall_true. intros h. apply lossy_valid.
    - induction 1 as [|[n v] hs Hv _ IH]; [done|]. cbn in *. by rewrite IH, lossy_text. }
  intros shown hs [E|E]; injection E as -> ->; apply Hl.
Qed.

(** ** Version detection *)

Lemma str_contains_skip c p a s : c ∉ a -> str_contains (c :: p) (a ++ s) = str_contains (c :: p) s.
Proof.
  induction a as [|x a IH]; intros Hc; [done|]. rewrite not_elem_of_cons in Hc. destruct Hc as [Hx Ha].
  cbn [app str_contains]. rewrite IH by done. unfold starts_with at 1. cbn [strip_prefix].
  rewrite (proj2 (ascii_eqb_neq _ _)) by congruence. by rewrite bool_decide_false by (intros [? [=]]).
Qed.

Lemma detect_skip pre rest :
  Forall (fun name => starts_with (bs "plecto:filter/") name = false) pre ->
  detect_contract_version (pre ++ rest) = detect_contract_version rest.
Proof. induction 1 as [|name pre Hn _ IH]; [done|]. cbn [app detect_contract_version]. by rewrite Hn. Qed.

(** The version of a component is that of the package its first contract import names, whatever
    the interface and the imports before and after it; a component without one is refused. *)
Theorem detection_reads_the_package (v : ContractVersion) (pre post : list bytes) (iface : bytes) :
  Forall (fun name => starts_with (bs "plecto:filter/") name = false) pre ->
  "@"%char ∉ iface ->
  detect_contract_version
    (pre ++ (bs "plecto:filter/" ++ iface ++ drop (length (bs "plecto:filter")) (package v)) :: post)
  = Some v /\ detect_contract_version pre = None.
Proof.
  intros Hpre Hi. rewrite detect_skip by done. split.
  - cbn [detect_contract_version].
    assert (Hs : forall s, starts_with (bs "plecto:filter/") (bs "plecto:filter/" ++ s) = true)
      by (intros s; apply starts_with_spec; by exists s).
    rewrite Hs. cbn [negb].
    assert (Hc : forall p s, str_contains ("@"%char :: p) (bs "plecto:filter/" ++ iface ++ s)
      = str_contains ("@"%char :: p) s).
    { intros p s. rewrite app_assoc. apply str_contains_skip. rewrite not_elem_of_app. split; [|done].
      apply (bool_decide_unpack _). vm_compute. exact I. }
    rewrite (Hc (bs "0.1.") : forall s, str_contains (bs "@0.1.") _ = _),
      (Hc (bs "0.2.") : forall s, str_contains (bs "@0.2.") _ = _),
      (Hc (bs "0.3.") : forall s, str_contains (bs "@0.3.") _ = _),
      (Hc (bs "0.4.") : forall s, str_contains (bs "@0.4.") _ = _). by destruct v.
  - rewrite <- (app_nil_r pre). by rewrite detect_skip.
Qed.

(** ** Egress *)

(** The parsers of the HTTP library as documented: a name of token characters is accepted and
    lowered, a value of field bytes is accepted as it is. *)
Definition parsers_accept (M : Type) `{HeaderMap M} : Prop :=
  (forall s, s <> [] -> blen s <= MAX_GUEST_HEADER_NAME_LEN -> forallb is_tchar s = true ->
     parse_name s = Some (to_ascii_lowercase s)) /\
  (forall v, forallb is_field_value_byte v = true -> parse_value v = Some v).

Lemma header_ok_parses {M} `{HeaderMap M} h :
  parsers_accept M -> header_ok h = true ->
  parse_name (h_name h) = Some (to_ascii_lowercase (h_name h)) /\ parse_value (h_value h) = Some (h_value h).
Proof.
  intros [Hn Hv]. unfold header_ok. rewrite !andb_true_iff, negb_true_iff, bool_decide_eq_false, !Z.leb_le.
  intros ((((Hne & Hlen) & Ht) & _) & Hf). split; [by apply Hn|by apply Hv].
Qed.

Lemma guest_hop_by_hop name : is_hop_by_hop name = is_hop_by_hop_guest_header name.
Proof. reflexivity. Qed.

(** The mapper of each version. *)
Definition response_from (v : ContractVersion) : HttpResponse -> option HttpResponse :=
  match v with
  | V01 => response_from_v01 | V02 => response_from_v02
  | V03 => response_from_v03 | V04 => response_from_v04
  end.

Lemma response_from_spec v r :
  response_from v r = if response_ok r then Some (clean_response r) else None.
Proof. destruct v; by apply response_from_eq. Qed.

Lemma contributes_ok {M} `{HeaderMap M} (strip : bool) (n : bytes) (h : Header) :
  parsers_accept M -> header_ok h = true ->
  contributes strip n h
  = if is_hop_by_hop n || strip && eq_ignore_ascii_case n (bs "content-length")
       || negb (bool_decide (to_ascii_lowercase (h_name h) = n))
    then None else Some (h_value h).
Proof.
  intros Hp Hh. destruct (header_ok_parses h Hp Hh) as [En Ev]. unfold contributes.
  rewrite En, Ev. destruct (decide (to_ascii_lowercase (h_name h) = n)) as [<-|Hne].
  - assert (E : eq_ignore_ascii_case (h_name h) (to_ascii_lowercase (h_name h)) = true).
    { unfold eq_ignore_ascii_case. by rewrite to_ascii_lowercase_idemp, bytes_eqb_eq. }
    rewrite (hop_by_hop_case _ _ E), (eq_ignore_trans_l _ _ _ E), !bool_decide_true by done.
    cbn [negb]. by rewrite orb_false_r.
  - rewrite !bool_decide_false by congruence. cbn [negb]. rewrite orb_true_r. by destruct (_ || _).
Qed.

(** What a list that passed the gate contributes to the wire. *)
Lemma accepted_headers_egress {M} `{HeaderMap M} (strip : bool) (n : bytes) (hs : list Header) :
  parsers_accept M -> headers_ok hs = true ->
  omap (contributes strip n) (without_hop_by_hop hs)
  = if is_hop_by_hop n || strip && eq_ignore_ascii_case n (bs "content-length") then []
    else map h_value (filter (fun h => to_ascii_lowercase (h_name h) = n) hs).
Proof.
  intros Hp. unfold headers_ok, without_hop_by_hop.
  induction hs as [|h hs IH]; intros Hok; [by destruct (_ || _)|].
  cbn [List.filter] in *. rewrite filter_cons. rewrite <- guest_hop_by_hop in *.
  destruct (is_hop_by_hop (h_name h)) eqn:Eh; cbn [negb forallb omap list_omap] in *.
  - rewrite IH by done. case_decide as En; [|done]. subst n.
    assert (E : eq_ignore_ascii_case (h_name h) (to_ascii_lowercase (h_name h)) = true).
    { unfold eq_ignore_ascii_case. by rewrite to_ascii_lowercase_idemp, bytes_eqb_eq. }
    by rewrite <- (hop_by_hop_case _ _ E), Eh.
  - apply andb_prop in Hok as [Hh Hok]. rewrite contributes_ok by done. rewrite IH by done.
    destruct (is_hop_by_hop n || _); [done|]. cbn [orb].
    case_decide; [rewrite bool_decide_true by done|rewrite bool_decide_false by done]; reflexivity.
Qed.

(** C12: A response a guest of any version synthesised and the gate accepted leaves the proxy
    byte for byte: its status is one the wire can carry and its body at most 1 MiB, and copied
    onto the wire, every header that is not hop-by-hop (or the length the proxy owns) appears
    under its lowered name with the guest's exact value, once per occurrence and in the guest's
    order; the HTTP library drops none, and no hop-by-hop name of the guest's reaches the peer. *)
Theorem accepted_response_survives_egress {M} `{HeaderMapLaws M} (v : ContractVersion)
    (raw resp : HttpResponse) (dst : M) (n : bytes) :
  parsers_accept M ->
  response_from v raw = Some resp ->
  rs_status resp = rs_status raw /\ 100 <= rs_status resp <= 599 /\
  rs_body resp = rs_body raw /\ blen (rs_body resp) <= 1048576 /\
  hm_get_all (copy_headers_synth dst (rs_headers resp)) n
  = hm_get_all dst n ++
    (if is_hop_by_hop n || eq_ignore_ascii_case n (bs "content-length") then []
     else map h_value (filter (fun h => to_ascii_lowercase (h_name h) = n) (rs_headers raw))).
Proof.
  intros Hp. rewrite response_from_spec. destruct (response_ok raw) eqn:Eo; [|done]. intros [= <-].
  unfold response_ok, status_ok in Eo. rewrite !andb_true_iff, !Z.leb_le in Eo.
  destruct Eo as ((Eh & E1 & E2) & Eb).
  split_and!; [done|done|done|done|exact Eb|].
  unfold copy_headers_synth. rewrite copy_filtered_all. cbn [clean_response rs_headers].
  by rewrite accepted_headers_egress.
Qed.

(** ** Witnesses *)

(** A header map whose parsers check like the library's. *)
#[local] Instance checked_headers : HeaderMap (list (bytes * bytes)) := {|
  hm_iter m := m;
  hm_append m n v := m ++ [(n, v)];
  hm_insert m n v := filter (fun e => fst e <> n) m ++ [(n, v)];
  hm_remove m n := filter (fun e => fst e <> n) m;
  parse_name s := if negb (bool_decide (s = [])) && forallb is_tchar s
                  then Some (to_ascii_lowercase s) else None;
  parse_value v := if forallb is_field_value_byte v then Some v else None;
  to_str := Some |}.

#[local] Instance checked_laws : HeaderMapLaws (list (bytes * bytes)).
Proof.
  destruct alist_laws as [Ha Hi Hr _ Hs]. split; [exact Ha|exact Hi|exact Hr| |exact Hs].
  intros s v E. cbn in E. by destruct (forallb _ _); simplify_eq.
Qed.

Lemma checked_accept : parsers_accept (list (bytes * bytes)).
Proof.
  split; cbn; intros s; [|by intros ->]. intros Hn _ ->. by rewrite bool_decide_false.
Qed.

Definition guest_answer : HttpResponse :=
  mkResponse 403 [mkHeader (bs "X-Why") (bs "no"); mkHeader (bs "Connection") (bs "close");
    mkHeader (bs "x-why") (map byte_of [200; 9]%nat); mkHeader (bs "Content-Length") (bs "9")] (bs "denied").

Lemma accepted_response_survives_egress_witness :
  exists resp, response_from V03 guest_answer = Some resp /\
    hm_get_all (copy_headers_synth [] (rs_headers resp)) (bs "x-why") = [bs "no"; map byte_of [200; 9]%nat].
Proof.
  destruct (response_from V03 guest_answer) as [resp|] eqn:E; [|vm_compute in E; discriminate E].
  exists resp. split; [reflexivity|].
  destruct (accepted_response_survives_egress V03 guest_answer resp [] (bs "x-why") checked_accept E)
    as (_ & _ & _ & _ & ->).
  vm_compute. reflexivity.
Defined.

(** A response a guest could split the message with, or that no status line carries, is refused. *)
Example gate_refuses :
  map (fun r => response_from V04 r)
    [mkResponse 200 [mkHeader (bs "x") (byte_of 13 :: byte_of 10 :: bs "Set-Cookie: a")] [];
     mkResponse 200 [mkHeader (bs "a b") (bs "1")] []; mkResponse 600 [] []; mkResponse 99 [] []]
  = [None; None; None; None].
Proof. vm_compute. reflexivity. Qed.
