(* ===== verification/Filter.v ===== *)
(** * A loaded filter (host/src/filter.rs, the single-call view of host/src/pool.rs, the filter
    spans of host/src/observe.rs)

    The hooks of a loaded filter: the instance comes from its pool or is built for the call,
    the guest runs through the contract gate, the instance is returned, recycled or dropped,
    and a span is emitted.  [loaded_host] makes loaded filters the filters a chain drives.
    The engine is a parameter, on a state [S] of everything outside the host's bookkeeping;
    instances are numbers.  Here one call runs at a time (a call that would wait for a busy
    instance times out); concurrent calls on one pool are the step relation of [Pool]. *)

From S2P Require Import Prelude Bytes Chain HostApi Headers Route Contract Pool.

(** ** Spans *)

Inductive SpanOutcome :=
| SoContinue | SoModified | SoShortCircuit | SoReplace
| SoDeadline | SoTrap | SoInstantiateError | SoUnavailable | SoInvalidOutput.

Definition outcome_of_request (d : RequestDecision) : SpanOutcome :=
  match d with
  | RqContinue => SoContinue | RqModified _ => SoModified | RqShortCircuit _ => SoShortCircuit
  end.
Definition outcome_of_response (d : ResponseDecision) : SpanOutcome :=
  match d with
  | RsContinue => SoContinue | RsModified _ => SoModified | RsReplace _ => SoReplace
  end.
Definition outcome_of_request_body (d : RequestBodyDecision) : SpanOutcome :=
  match d with
  | RbContinue => SoContinue | RbModified _ => SoModified | RbShortCircuit _ => SoShortCircuit
  end.
Definition outcome_of_response_body (d : ResponseBodyDecision) : SpanOutcome :=
  match d with
  | SbContinue => SoContinue | SbModified _ => SoModified | SbReplace _ => SoShortCircuit
  end.
Definition outcome_of_error (e : RunError) : SpanOutcome :=
  match e with
  | Deadline => SoDeadline
  | Trap => SoTrap
  | Instantiate => SoInstantiateError
  | Unavailable => SoUnavailable
  | InvalidOutput => SoInvalidOutput
  end.

(** A decision is [Ok], a fault an error. *)
Definition status_is_ok (o : SpanOutcome) : bool :=
  match o with
  | SoContinue | SoModified | SoShortCircuit | SoReplace => true
  | _ => false
  end.

Inductive Hook := OnRequest | OnRequestBody | OnResponse | OnResponseBody.

(** The identity, the outcome and the events; the times and the trace ids are left out. *)
Record FilterSpan := mkSpan {
  sp_name : bytes;
  sp_hook : Hook;
  sp_outcome : SpanOutcome;
  sp_events : list LogLine;
}.

(** ** The filter and its world *)

Record LoadedFilter := mkLoaded {
  lf_id : bytes;
  lf_version : ContractVersion;
  lf_trusted : option TrustedPool;
  lf_runs_inline : bool;
  lf_body_export : bool;
  lf_response_body_export : bool;
  lf_sink_enabled : bool;
}.

Definition body_hooks (f : LoadedFilter) : BodyHooks :=
  mkHooks (lf_body_export f) (lf_response_body_export f).

(** The engine: the clock, a fresh initialised instance, the preparation of a pooled instance
    for a request, the setting of a deadline, the logs of an instance ([true] is the final
    drain) and the drop of an instance. *)
Class Engine (S : Type) := {
  en_now : S -> Z;
  en_instantiate_initialized : bytes -> nat -> S -> bool * S;
  en_begin_request : nat -> S -> S;
  en_set_request_deadline : nat -> S -> S;
  en_take_logs : bool -> nat -> S -> list LogLine * S;
  en_drop : nat -> S -> S;
}.

(** Per filter, the interior of its pool and its breaker for fresh instances. *)
Record World (S : Type) := mkWorld {
  wd_pools : gmap bytes PoolInner;
  wd_breakers : gmap bytes TrapBreaker;
  wd_next : nat;
  wd_spans : list FilterSpan;
  wd_engine : S;
}.
Arguments mkWorld {S}.
Arguments wd_pools {S}.
Arguments wd_breakers {S}.
Arguments wd_next {S}.
Arguments wd_spans {S}.
Arguments wd_engine {S}.

Section hooks.
Context {S : Type} `{Engine S} `{Guest nat S}.

Definition pool_of (f : LoadedFilter) (w : World S) : PoolInner :=
  default (mkInner [] 0 (breaker_new TRAP_BREAKER_THRESHOLD TRAP_COOLDOWN_MS)) (wd_pools w !! lf_id f).
Definition breaker_of (f : LoadedFilter) (w : World S) : TrapBreaker :=
  default (breaker_new TRAP_BREAKER_THRESHOLD TRAP_COOLDOWN_MS) (wd_breakers w !! lf_id f).
Definition set_pool (f : LoadedFilter) (g : PoolInner) (w : World S) : World S :=
  mkWorld (<[lf_id f := g]> (wd_pools w)) (wd_breakers w) (wd_next w) (wd_spans w) (wd_engine w).
Definition set_breaker (f : LoadedFilter) (b : TrapBreaker) (w : World S) : World S :=
  mkWorld (wd_pools w) (<[lf_id f := b]> (wd_breakers w)) (wd_next w) (wd_spans w) (wd_engine w).
Definition set_engine (s : S) (w : World S) : World S :=
  mkWorld (wd_pools w) (wd_breakers w) (wd_next w) (wd_spans w) s.
Definition now_of (w : World S) : Z := en_now (wd_engine w).

Definition instance_of (f : LoadedFilter) (id : nat) : WasmtimeInstance nat :=
  mkInstance id (lf_version f) (lf_body_export f) (lf_response_body_export f).

(** [instantiate_initialized]: the next number, when the engine builds it. *)
Definition build (f : LoadedFilter) (w : World S) : option nat * World S :=
  let id := wd_next w in
  let '(ok, s) := en_instantiate_initialized (lf_id f) id (wd_engine w) in
  (if ok then Some id else None,
    mkWorld (wd_pools w) (wd_breakers w) (id + 1)%nat (wd_spans w) s).

Definition drain (final : bool) (id : nat) (w : World S) : list LogLine * World S :=
  let '(logs, s) := en_take_logs final id (wd_engine w) in (logs, set_engine s w).
Definition drop_instance (id : nat) (w : World S) : World S :=
  set_engine (en_drop id (wd_engine w)) w.

Definition HookResult (T : Type) : Type := result (T * list LogLine) (RunError * list LogLine).

(** [LoadedInner::checkout]; a wait nobody ends times out. *)
Definition checkout (f : LoadedFilter) (cfg : TrustedPool) (w : World S)
    : result PooledInstance RunError * World S :=
  let '(step, g) := checkout_locked cfg (now_of w) (pool_of f w) in
  match step with
  | CsUse p => (Ok p, set_pool f g w)
  | CsUnavailable | CsWait => (Err Unavailable, w)
  | CsBuild =>
    match build f (set_pool f g w) with
    | (Some id, w) => (Ok (mkPooled id 0), w)
    | (None, w) =>
      (Err Instantiate, set_pool f (release_slot (pool_record_trap (now_of w) (pool_of f w))) w)
    end
  end.

Section call.
Context {T : Type} (call : WasmtimeInstance nat -> S -> result T CallError * S).

Definition run_fresh (f : LoadedFilter) (w : World S) : HookResult T * World S :=
  if breaker_is_open (now_of w) (breaker_of f w) then (Err (Unavailable, []), w)
  else
    match build f w with
    | (None, w) => (Err (Instantiate, []), set_breaker f (record_trap (now_of w) (breaker_of f w)) w)
    | (Some id, w) =>
      let '(result, s) := call (instance_of f id) (en_set_request_deadline id (wd_engine w)) in
      let '(logs, w) := drain true id (set_engine s w) in
      match result with
      | Ok value =>
        (Ok (value, logs), drop_instance id (set_breaker f (breaker_clear (breaker_of f w)) w))
      | Err e =>
        (Err (from_call e, logs),
          drop_instance id (set_breaker f (record_trap (now_of w) (breaker_of f w)) w))
      end
    end.

Definition execute_pooled (f : LoadedFilter) (cfg : TrustedPool) (pooled : PooledInstance)
    (w : World S) : HookResult T * World S :=
  let id := pi_instance pooled in
  let s := en_set_request_deadline id (en_begin_request id (wd_engine w)) in
  let '(result, s) := call (instance_of f id) s in
  let w := set_engine s w in
  match result with
  | Ok value =>
    let recycle := recycles cfg pooled in
    let '(logs, w) := drain recycle id w in
    let w :=
      if recycle
      then let w := drop_instance id w in set_pool f (finish_recycled (pool_of f w)) w
      else set_pool f (return_idle pooled (pool_of f w)) w in
    (Ok (value, logs), w)
  | Err e =>
    let '(logs, w) := drain true id w in
    let w := drop_instance id w in
    (Err (from_call e, logs), set_pool f (finish_trapped (now_of w) (pool_of f w)) w)
  end.

Definition run_pooled (f : LoadedFilter) (cfg : TrustedPool) (w : World S)
    : HookResult T * World S :=
  match checkout f cfg w with
  | (Err e, w) => (Err (e, []), w)
  | (Ok pooled, w) => execute_pooled f cfg pooled w
  end.

Definition run_hook (f : LoadedFilter) (w : World S) : HookResult T * World S :=
  match lf_trusted f with
  | Some cfg => run_pooled f cfg w
  | None => run_fresh f w
  end.
End call.

(** ** Hooks *)

Definition emit_span {T : Type} (f : LoadedFilter) (hook : Hook) (outcome : SpanOutcome)
    (result : HookResult T) (w : World S) : World S :=
  let logs := match result with Ok (_, logs) => logs | Err (_, logs) => logs end in
  mkWorld (wd_pools w) (wd_breakers w) (wd_next w)
    (wd_spans w ++ [mkSpan (lf_id f) hook outcome logs]) (wd_engine w).

Definition execute_with_span {T : Type} (outcome_of : T -> SpanOutcome) (f : LoadedFilter)
    (hook : Hook) (run : World S -> HookResult T * World S) (w : World S)
    : result (T * list LogLine) RunError * World S :=
  let '(result, w) := run w in
  let public := match result with Ok v => Ok v | Err (err, _) => Err err end in
  if negb (lf_sink_enabled f) then (public, w)
  else
    let outcome := match result with
                   | Ok (decision, _) => outcome_of decision
                   | Err (err, _) => outcome_of_error err
                   end in
    (public, emit_span f hook outcome result w).

Definition run_on_request (f : LoadedFilter) (req : HttpRequest) : World S -> HookResult RequestDecision * World S :=
  run_hook (fun inst => call_on_request inst req) f.
Definition run_on_response (f : LoadedFilter) (req : HttpRequest) (resp : HttpResponse)
    : World S -> HookResult ResponseDecision * World S :=
  run_hook (fun inst => call_on_response inst req resp) f.
Definition run_on_request_body (f : LoadedFilter) (body : bytes) (w : World S)
    : HookResult RequestBodyDecision * World S :=
  if negb (lf_body_export f) then (Ok (RbContinue, []), w)
  else run_hook (fun inst => call_body_hook inst body) f w.
Definition run_on_response_body (f : LoadedFilter) (req : HttpRequest) (resp : HttpResponse)
    (body : bytes) (w : World S) : HookResult ResponseBodyDecision * World S :=
  if negb (lf_response_body_export f) then (Ok (SbContinue, []), w)
  else run_hook (fun inst => call_response_body_hook inst req resp body) f w.

Definition filter_on_request (f : LoadedFilter) (req : HttpRequest) :=
  execute_with_span outcome_of_request f OnRequest (run_on_request f req).
Definition filter_on_response (f : LoadedFilter) (req : HttpRequest) (resp : HttpResponse) :=
  execute_with_span outcome_of_response f OnResponse (run_on_response f req resp).
Definition filter_on_request_body (f : LoadedFilter) (body : bytes) :=
  execute_with_span outcome_of_request_body f OnRequestBody (run_on_request_body f body).
Definition filter_on_response_body (f : LoadedFilter) (req : HttpRequest) (resp : HttpResponse)
    (body : bytes) :=
  execute_with_span outcome_of_response_body f OnResponseBody (run_on_response_body f req resp body).

(** [try_on_request] and [try_on_response] up to the call; the inline metrics are left out. *)
Definition try_hook {T : Type} (outcome_of : T -> SpanOutcome) (hook : Hook)
    (call : WasmtimeInstance nat -> S -> result T CallError * S) (f : LoadedFilter) (w : World S)
    : TryHookOutcome (result (T * list LogLine) RunError) * World S :=
  if negb (lf_runs_inline f) then (WouldBlock, w)
  else
    match lf_trusted f with
    | None => (WouldBlock, w)
    | Some cfg =>
      match checkout_idle cfg (now_of w) (pool_of f w) with
      | (inr miss, g) => (WouldBlock, w)
      | (inl pooled, g) =>
        let '(outcome, w) := execute_with_span outcome_of f hook
          (execute_pooled call f cfg pooled) (set_pool f g w) in
        (Executed outcome, w)
      end
    end.

Definition filter_try_on_request (f : LoadedFilter) (req : HttpRequest) :=
  try_hook outcome_of_request OnRequest (fun inst => call_on_request inst req) f.
Definition filter_try_on_response (f : LoadedFilter) (req : HttpRequest) (resp : HttpResponse) :=
  try_hook outcome_of_response OnResponse (fun inst => call_on_response inst req resp) f.

(** What the chain reads of a hook's result: the decision or the fault. *)
Definition decision {T : Type} (r : result (T * list LogLine) RunError) : result T RunError :=
  match r with Ok (d, _) => Ok d | Err e => Err e end.
Definition decided {T : Type} (r : result (T * list LogLine) RunError * World S)
    : result T RunError * World S := (decision r.1, r.2).
Definition try_decided {T : Type} (r : TryHookOutcome (result (T * list LogLine) RunError) * World S)
    : TryHookOutcome (result T RunError) * World S :=
  (match r.1 with WouldBlock => WouldBlock | Executed x => Executed (decision x) end, r.2).

#[export] Instance loaded_host : FilterHost LoadedFilter (World S) := {|
  on_request f r w := decided (filter_on_request f r w);
  try_on_request f r w := try_decided (filter_try_on_request f r w);
  on_request_body f b w := decided (filter_on_request_body f b w);
  on_response f r p w := decided (filter_on_response f r p w);
  try_on_response f r p w := try_decided (filter_try_on_response f r p w);
  on_response_body f r p b w := decided (filter_on_response_body f r p b w);
|}.
End hooks.

(** ** What a hook returns passed the gate *)

(** A header the wire can carry, and a response made of such headers. *)
Definition wire_header (h : Header) : Prop :=
  h_name h <> [] /\ forallb is_tchar (h_name h) = true /\ forallb is_field_value_byte (h_value h) = true.
Definition wire_status (s : Z) : Prop := 100 <= s <= 599.
Definition wire_response (r : HttpResponse) : Prop :=
  wire_status (rs_status r) /\ Forall wire_header (rs_headers r).
Definition synthesised (r : HttpResponse) : Prop := wire_response r /\ blen (rs_body r) <= 1048576.

Definition request_decided (d : RequestDecision) : Prop :=
  match d with
  | RqContinue => True
  | RqModified e => Forall wire_header (re_set_headers e)
  | RqShortCircuit r => synthesised r
  end.
Definition response_decided (d : ResponseDecision) : Prop :=
  match d with
  | RsContinue => True
  | RsModified e => Forall wire_header (se_set_headers e) /\
      match se_set_status e with Some s => wire_status s | None => True end
  | RsReplace r => synthesised r
  end.
Definition request_body_decided (d : RequestBodyDecision) : Prop :=
  match d with
  | RbContinue => True
  | RbModified e => Forall wire_header (be_set_headers e)
  | RbShortCircuit r => synthesised r
  end.
Definition response_body_decided (d : ResponseBodyDecision) : Prop :=
  match d with
  | SbContinue => True
  | SbModified e => Forall wire_header (be_set_headers e) /\ names_content_length (be_set_headers e) = false
  | SbReplace r => synthesised r
  end.

Lemma headers_ok_wire hs : headers_ok hs = true -> Forall wire_header (without_hop_by_hop hs).
Proof.
  unfold headers_ok. rewrite forallb_forall, Forall_forall. intros Hok h Hin.
  apply list_elem_of_In in Hin. apply Hok in Hin. unfold header_ok in Hin.
  rewrite !andb_true_iff, negb_true_iff, bool_decide_eq_false in Hin.
  unfold wire_header. naive_solver.
Qed.

Lemma status_ok_wire s : status_ok s = true -> wire_status s.
Proof. unfold status_ok. rewrite andb_true_iff, !Z.leb_le. done. Qed.

Lemma clean_response_synthesised r : response_ok r = true -> synthesised (clean_response r).
Proof.
  unfold response_ok. rewrite !andb_true_iff, Z.leb_le. intros ((Hh & Hs) & Hb).
  split; [split|exact Hb]; [by apply status_ok_wire|by apply headers_ok_wire].
Qed.

Lemma without_content_length hs :
  names_content_length hs = false -> names_content_length (without_hop_by_hop hs) = false.
Proof.
  unfold names_content_length, without_hop_by_hop. induction hs as [|h hs IH]; [done|].
  cbn [existsb List.filter]. rewrite orb_false_iff. intros [Hh Hr].
  destruct (negb _); cbn [existsb]; [by rewrite Hh, IH|by apply IH].
Qed.

#[local] Hint Resolve headers_ok_wire status_ok_wire clean_response_synthesised without_content_length : gate.

Lemma request_ok_decided d d' : request_ok d = Some d' -> request_decided d'.
Proof. destruct d; cbn; intros E; repeat case_match; simplify_eq/=; auto with gate. Qed.
Lemma response_ok_decided d d' : response_decision_ok d = Some d' -> response_decided d'.
Proof.
  destruct d as [|e|r]; cbn; intros E; [by simplify_eq| |].
  - destruct (headers_ok (se_set_headers e)) eqn:Eh; [|done]. cbn [andb] in E.
    destruct (se_set_status e) as [s|] eqn:Es; [destruct (status_ok s) eqn:Eo; [|done]|];
      simplify_eq/=; try rewrite Es; auto with gate.
  - case_match; simplify_eq/=; auto with gate.
Qed.
Lemma request_body_ok_decided d d' : request_body_ok d = Some d' -> request_body_decided d'.
Proof. destruct d; cbn; intros E; repeat case_match; simplify_eq/=; auto with gate. Qed.
Lemma response_body_ok_decided d d' : response_body_ok d = Some d' -> response_body_decided d'.
Proof.
  destruct d as [|e|r]; cbn; intros E; [by simplify_eq| |];
    (destruct (names_content_length _) eqn:En; [done|]); cbn [negb andb] in E; case_match;
    simplify_eq/=; auto with gate.
Qed.

Lemma validated {R D W} (ok : R -> option D) (P : D -> Prop) (c : result R CallError * W) d w :
  (forall r d, ok r = Some d -> P d) -> validating ok c = (Ok d, w) -> P d.
Proof.
  intros Hok. destruct c as [[r|e] w']; [|done]. cbn. destruct (ok r) as [d'|] eqn:E; [|done].
  intros [= <- <-]. eauto.
Qed.

Section gate.
Context {S : Type} `{Engine S} `{Guest nat S}.

Lemma call_on_request_valid inst req (s s' : S) d :
  call_on_request inst req s = (Ok d, s') -> request_decided d.
Proof.
  pose proof request_from_eq as E. unfold call_on_request. intros Hc.
  destruct (wi_version inst); refine (validated _ _ _ _ _ _ Hc); intros r d' Hr;
    apply (request_ok_decided r); by rewrite <- Hr; symmetry; apply E.
Qed.
Lemma call_on_response_valid inst req resp (s s' : S) d :
  call_on_response inst req resp s = (Ok d, s') -> response_decided d.
Proof.
  pose proof response_decision_from_eq as E. pose proof frozen_response_decision_eq as E'.
  unfold call_on_response. intros Hc.
  destruct (wi_version inst); refine (validated _ _ _ _ _ _ Hc); intros r d' Hr;
    eapply response_ok_decided; rewrite <- Hr; symmetry; first [apply E | apply E'].
Qed.
Lemma call_body_hook_valid inst b (s s' : S) d :
  call_body_hook inst b s = (Ok d, s') -> request_body_decided d.
Proof.
  pose proof frozen_body_decision_eq as E. pose proof body_decision_eq as E'.
  unfold call_body_hook. destruct (negb _); [done|]. intros Hc.
  destruct (wi_version inst); refine (validated _ _ _ _ _ _ Hc); intros r d' Hr;
    eapply request_body_ok_decided; rewrite <- Hr; symmetry; first [apply E | apply E'].
Qed.
Lemma call_response_body_hook_valid inst req resp b (s s' : S) d :
  call_response_body_hook inst req resp b s = (Ok d, s') -> response_body_decided d.
Proof.
  unfold call_response_body_hook. destruct (negb _); [done|]. intros Hc.
  refine (validated _ _ _ _ _ _ Hc). intros r d' Hr. eapply response_body_ok_decided.
  rewrite <- Hr. symmetry. apply response_body_decision_eq.
Qed.
End gate.

(** ** Hooks: valid decisions, and no slot leaked *)

(** Between calls every live slot of a pool is an idle instance. *)
Definition settled (g : PoolInner) : Prop := pl_live g = Z.of_nat (length (pl_idle g)).

Section run.
Context {S : Type} `{Engine S} `{Guest nat S}.

Definition quiet (w : World S) : Prop := map_Forall (fun _ g => settled g) (wd_pools w).

Lemma pool_of_settled f (w : World S) : quiet w -> settled (pool_of f w).
Proof. intros Hq. unfold pool_of. destruct (_ !! _) as [g|] eqn:E; [exact (Hq _ _ E)|done]. Qed.
Lemma set_pool_quiet f g (w : World S) : quiet w -> settled g -> quiet (set_pool f g w).
Proof. intros Hq Hg. by apply map_Forall_insert_2. Qed.
Lemma pool_of_set f g (w : World S) : pool_of f (set_pool f g w) = g.
Proof. unfold pool_of. cbn [set_pool wd_pools]. by rewrite lookup_insert_eq. Qed.
Lemma pool_of_same f (w w' : World S) : wd_pools w' = wd_pools w -> pool_of f w' = pool_of f w.
Proof. unfold pool_of. by intros ->. Qed.
Lemma quiet_same (w w' : World S) : wd_pools w' = wd_pools w -> quiet w -> quiet w'.
Proof. unfold quiet. by intros ->. Qed.

(** Only the filter's own pool differs from a quiet world. *)
Definition quiet_but (f : LoadedFilter) (w : World S) : Prop :=
  forall g, settled g -> quiet (set_pool f g w).
Lemma quiet_but_quiet f w : quiet w -> quiet_but f w.
Proof. intros Hq g Hg. by apply set_pool_quiet. Qed.
Lemma quiet_but_set f g w : quiet_but f w -> quiet_but f (set_pool f g w).
Proof.
  intros Hq g' Hg'. specialize (Hq g' Hg'). unfold quiet, set_pool in *. cbn in *.
  by rewrite insert_insert_eq.
Qed.
Lemma quiet_but_same f (w w' : World S) : wd_pools w' = wd_pools w -> quiet_but f w -> quiet_but f w'.
Proof. unfold quiet_but, quiet, set_pool. cbn. by intros ->. Qed.

Section hook.
Context {T : Type} (call : WasmtimeInstance nat -> S -> result T CallError * S).

Lemma drain_pools final id (w : World S) : wd_pools (drain final id w).2 = wd_pools w.
Proof. unfold drain. by destruct (en_take_logs _ _ _). Qed.
Lemma build_pools f (w : World S) : wd_pools (build f w).2 = wd_pools w.
Proof. unfold build. by destruct (en_instantiate_initialized _ _ _). Qed.

(** A call on a checked-out instance settles its pool. *)
Lemma execute_pooled_quiet f cfg p w :
  quiet_but f w -> pl_live (pool_of f w) = Z.of_nat (length (pl_idle (pool_of f w))) + 1 ->
  quiet (execute_pooled call f cfg p w).2.
Proof.
  intros Hq Hl. unfold execute_pooled. destruct (call _ _) as [[v|e] s].
  - pose proof (drain_pools (recycles cfg p) (pi_instance p) (set_engine s w)) as Hd.
    destruct (drain _ _ _) as [logs w']. cbn [snd] in *.
    apply (quiet_but_same f _ w') in Hq; [|exact Hd].
    rewrite <- (pool_of_same f w w' Hd) in Hl. destruct (recycles cfg p); cbn [snd]; apply Hq.
    + unfold settled, finish_recycled, saturating_sub. cbn.
      rewrite (pool_of_same f w' (drop_instance _ w') eq_refl). lia.
    + unfold settled, return_idle. cbn [pl_live pl_idle length]. lia.
  - pose proof (drain_pools true (pi_instance p) (set_engine s w)) as Hd.
    destruct (drain _ _ _) as [logs w']. cbn [snd] in *.
    apply (quiet_but_same f _ w') in Hq; [|exact Hd].
    rewrite <- (pool_of_same f w w' Hd) in Hl. apply Hq.
    unfold settled, finish_trapped, saturating_sub. cbn.
    rewrite (pool_of_same f w' (drop_instance _ w') eq_refl). lia.
Qed.

(** A checkout takes one instance, or leaves the pool settled. *)
Lemma checkout_quiet f cfg w : quiet w ->
  match checkout f cfg w with
  | (Ok _, w') => quiet_but f w' /\ pl_live (pool_of f w') = Z.of_nat (length (pl_idle (pool_of f w'))) + 1
  | (Err _, w') => quiet w'
  end.
Proof.
  intros Hq. pose proof (pool_of_settled f w Hq) as Hs. unfold settled in Hs.
  unfold checkout, checkout_locked. destruct (pl_idle (pool_of f w)) as [|p idle] eqn:Ei.
  - destruct (breaker_is_open _ _); [done|]. destruct (_ <? _) eqn:El; [|done].
    set (g := mkInner [] (pl_live (pool_of f w) + 1) (pl_breaker (pool_of f w))).
    pose proof (build_pools f (set_pool f g w)) as Hb. destruct (build _ _) as [[id|] w']; cbn [snd] in Hb.
    + rewrite (pool_of_same f _ _ Hb), pool_of_set. split; [|cbn; rewrite Hs; done].
      apply (quiet_but_same f _ _ Hb), quiet_but_set, quiet_but_quiet, Hq.
    + rewrite (pool_of_same f _ _ Hb), pool_of_set.
      apply (quiet_but_same f _ _ Hb (quiet_but_set f g w (quiet_but_quiet f w Hq))).
      unfold settled, release_slot, saturating_sub. cbn. rewrite Hs. done.
  - split; [apply quiet_but_set, quiet_but_quiet, Hq|]. rewrite pool_of_set. cbn [pl_live pl_idle].
    rewrite Hs. cbn [length]. lia.
Qed.

Lemma run_hook_quiet f w : quiet w -> quiet (run_hook call f w).2.
Proof.
  intros Hq. unfold run_hook. destruct (lf_trusted f) as [cfg|].
  - unfold run_pooled. pose proof (checkout_quiet f cfg w Hq) as Hc.
    destruct (checkout f cfg w) as [[p|e] w']; [|exact Hc]. destruct Hc. by apply execute_pooled_quiet.
  - unfold run_fresh. destruct (breaker_is_open _ _); [done|].
    pose proof (build_pools f w) as Hb. destruct (build f w) as [[id|] w']; cbn [snd] in *.
    + destruct (call _ _) as [r s]. pose proof (drain_pools true id (set_engine s w')) as Hd.
      destruct (drain _ _ _) as [logs w2]. cbn [snd set_engine wd_pools] in *.
      destruct r; refine (quiet_same w _ _ Hq); cbn [snd drop_instance set_engine set_breaker wd_pools];
        congruence.
    + by apply (quiet_same w).
Qed.

(** What a call may return holds of what the hook returns. *)
Context (P : T -> Prop) (call_ok : forall inst s d s', call inst s = (Ok d, s') -> P d).
Definition hook_ok (r : HookResult T) : Prop := match r with Ok (d, _) => P d | Err _ => True end.

Lemma execute_pooled_ok f cfg p w : hook_ok (execute_pooled call f cfg p w).1.
Proof.
  unfold execute_pooled. destruct (call _ _) as [[v|e] s] eqn:E; destruct (drain _ _ _); [|done].
  exact (call_ok _ _ _ _ E).
Qed.
Lemma run_hook_ok f w : hook_ok (run_hook call f w).1.
Proof.
  unfold run_hook. destruct (lf_trusted f) as [cfg|].
  - unfold run_pooled. destruct (checkout f cfg w) as [[p|e] w']; [apply execute_pooled_ok|done].
  - unfold run_fresh. destruct (breaker_is_open _ _); [done|].
    destruct (build f w) as [[id|] w']; [|done].
    destruct (call _ _) as [[v|e] s] eqn:E; destruct (drain _ _ _); [|done]. exact (call_ok _ _ _ _ E).
Qed.
End hook.

Lemma span_quiet {T} (o : T -> SpanOutcome) f hook run (w : World S) :
  quiet (run w).2 -> quiet (execute_with_span o f hook run w).2.
Proof. unfold execute_with_span. destruct (run w) as [r w']. by destruct (negb _). Qed.
Lemma span_ok {T} (o : T -> SpanOutcome) (P : T -> Prop) f hook run (w : World S) :
  hook_ok P (run w).1 ->
  match decision (execute_with_span o f hook run w).1 with Ok d => P d | Err _ => True end.
Proof.
  unfold execute_with_span. destruct (run w) as [r w'].
  destruct (negb _), r as [[d logs]|[e logs]]; done.
Qed.

(** Telemetry observes: with the sink on or off, a hook decides the same. *)
Lemma span_transparent {T} (o : T -> SpanOutcome) f f' hook run (w : World S) :
  (execute_with_span o f hook run w).1 = (execute_with_span o f' hook run w).1 /\
  wd_pools (execute_with_span o f hook run w).2 = wd_pools (execute_with_span o f' hook run w).2 /\
  wd_engine (execute_with_span o f hook run w).2 = wd_engine (execute_with_span o f' hook run w).2.
Proof. unfold execute_with_span. destruct (run w). by repeat destruct (negb _). Qed.
End run.

(** ** Loaded filters in a chain *)

Section chain.
Context {S : Type} `{Engine S} `{Guest nat S}.
Implicit Types (w : World S) (f : LoadedFilter).

(** The non-blocking path is the blocking one on the instance it would have taken. *)
Lemma try_hook_agrees {T} (o : T -> SpanOutcome) hook (call : WasmtimeInstance nat -> S -> result T CallError * S)
    f w :
  match try_hook o hook call f w with
  | (Executed res, w') => execute_with_span o f hook (run_hook call f) w = (res, w')
  | (WouldBlock, w') => w' = w
  end.
Proof.
  unfold try_hook. destruct (negb _); [done|]. destruct (lf_trusted f) as [cfg|] eqn:Et; [|done].
  destruct (checkout_idle cfg (now_of w) (pool_of f w)) as [[p|m] g] eqn:Ec; [|done].
  destruct (execute_with_span o f hook (execute_pooled call f cfg p) (set_pool f g w)) as [res w'] eqn:Ee.
  rewrite <- Ee. unfold execute_with_span, run_hook, run_pooled, checkout. rewrite Et.
  unfold checkout_idle in Ec. unfold checkout_locked.
  destruct (breaker_is_open _ _); [done|]. destruct (pl_idle (pool_of f w)); [done|].
  by simplify_eq.
Qed.

#[export] Instance loaded_try_agrees : TryAgrees LoadedFilter (World S).
Proof.
  split.
  - intros f r w. pose proof (try_hook_agrees outcome_of_request OnRequest
      (fun inst => call_on_request inst r) f w) as Ht.
    cbn [try_on_request on_request loaded_host]. unfold try_decided, decided, filter_try_on_request.
    destruct (try_hook _ _ _ _ _) as [[|res] w']; cbn [fst snd]; [exact Ht|].
    unfold filter_on_request, run_on_request. by rewrite Ht.
  - intros f r p w. pose proof (try_hook_agrees outcome_of_response OnResponse
      (fun inst => call_on_response inst r p) f w) as Ht.
    cbn [try_on_response on_response loaded_host]. unfold try_decided, decided, filter_try_on_response.
    destruct (try_hook _ _ _ _ _) as [[|res] w']; cbn [fst snd]; [exact Ht|].
    unfold filter_on_response, run_on_response. by rewrite Ht.
Qed.

(** Each hook returns a decision that passed the gate and leaves the pools quiet. *)
Definition lands {T : Type} (P : T -> Prop) (w : World S) (r : result T RunError * World S) : Prop :=
  match r.1 with Ok d => P d | Err _ => True end /\ (quiet w -> quiet r.2).

Lemma lands_span {T} (o : T -> SpanOutcome) (P : T -> Prop) f hook
    (call : WasmtimeInstance nat -> S -> result T CallError * S) w :
  (forall inst s d s', call inst s = (Ok d, s') -> P d) ->
  lands P w (decided (execute_with_span o f hook (run_hook call f) w)).
Proof.
  intros Hc. split; cbn [decided fst snd].
  - by apply span_ok, run_hook_ok.
  - intros Hq. by apply span_quiet, run_hook_quiet.
Qed.

Lemma on_request_lands f r w : lands request_decided w (on_request f r w).
Proof. apply lands_span. intros inst s d s'. apply call_on_request_valid. Qed.
Lemma on_response_lands f r p w : lands response_decided w (on_response f r p w).
Proof. apply lands_span. intros inst s d s'. apply call_on_response_valid. Qed.
Lemma on_request_body_lands f b w : lands request_body_decided w (on_request_body f b w).
Proof.
  cbn [on_request_body loaded_host]. unfold filter_on_request_body. destruct (lf_body_export f) eqn:Eb.
  - unfold run_on_request_body. rewrite Eb. cbn [negb]. apply lands_span. intros inst s d s'.
    apply call_body_hook_valid.
  - unfold lands, decided, execute_with_span, run_on_request_body. rewrite Eb. cbn.
    by destruct (lf_sink_enabled f).
Qed.
Lemma on_response_body_lands f r p b w : lands response_body_decided w (on_response_body f r p b w).
Proof.
  cbn [on_response_body loaded_host]. unfold filter_on_response_body.
  destruct (lf_response_body_export f) eqn:Eb.
  - unfold run_on_response_body. rewrite Eb. cbn [negb]. apply lands_span. intros inst s d s'.
    apply call_response_body_hook_valid.
  - unfold lands, decided, execute_with_span, run_on_response_body. rewrite Eb. cbn.
    by destruct (lf_sink_enabled f).
Qed.

Lemma edit_headers_wire hs set remove :
  Forall wire_header hs -> Forall wire_header set -> Forall wire_header (edit_headers hs set remove).
Proof.
  intros Hh Hs. unfold edit_headers.
  assert (Hf : forall (p : Header -> bool) l, Forall wire_header l -> Forall wire_header (List.filter p l)).
  { intros p l. rewrite !Forall_forall. intros Hl x Hx. apply list_elem_of_In, filter_In in Hx as [Hx _].
    by apply Hl, list_elem_of_In. }
  assert (Hr : Forall wire_header (remove_headers hs remove)).
  { unfold remove_headers. revert hs Hh.
    induction remove as [|n names IH]; intros hs Hh; [done|]. cbn [fold_left]. by apply IH, Hf. }
  unfold set_headers. revert Hr. generalize (remove_headers hs remove).
  induction Hs as [|h set Hh' _ IH]; intros l Hl; [done|]. cbn [fold_left]. apply IH.
  unfold set_header. apply Forall_app. split; [case_match; [done|by apply Hf]|by constructor].
Qed.

Lemma wire_header_dec h :
  negb (bool_decide (h_name h = [])) && forallb is_tchar (h_name h)
  && forallb is_field_value_byte (h_value h) = true -> wire_header h.
Proof. unfold wire_header. rewrite !andb_true_iff, negb_true_iff, bool_decide_eq_false. naive_solver. Qed.

Lemma fail_closed_synthesised e : synthesised (fail_closed_response e).
Proof.
  assert (Hw : Forall wire_header (rs_headers (fail_closed_response e))).
  { destruct e; apply Forall_singleton; apply wire_header_dec; vm_compute; reflexivity. }
  split; [split; [|exact Hw]|]; destruct e; vm_compute; try split; discriminate.
Qed.
Lemma oversize_synthesised :
  synthesised oversize_guest_request_body_response /\ synthesised oversize_guest_body_response.
Proof.
  split; (split; [split; [vm_compute; split; discriminate|]|vm_compute; discriminate]);
    apply Forall_singleton; apply wire_header_dec; vm_compute; reflexivity.
Qed.

Lemma step_response_wire p res :
  match res with Ok d => response_decided d | Err _ => True end ->
  match handle_response_step p res with
  | StepContinue p' => rs_body p' = rs_body p /\ (wire_response p -> wire_response p')
  | StepTerminal (RoRespond q) => synthesised q
  | StepTerminal (RoForward _) => False
  end.
Proof.
  destruct res as [[|e|q]|e]; cbn [handle_response_step]; intros Hd; [done| |exact Hd|apply fail_closed_synthesised].
  split; [done|]. destruct Hd as [Hh Hs]. intros [Hps Hph]. split; cbn.
  - by destruct (se_set_status e).
  - by apply edit_headers_wire.
Qed.

Lemma request_loop_lands (chain : list LoadedFilter) : forall r w,
  let '(o, w') := request_loop chain r w in
  (quiet w -> quiet w') /\
  match o with
  | CoForward r' =>
      rq_method r' = rq_method r /\ rq_path_with_query r' = rq_path_with_query r /\
      rq_authority r' = rq_authority r /\ rq_scheme r' = rq_scheme r /\
      (Forall wire_header (rq_headers r) -> Forall wire_header (rq_headers r'))
  | CoRespond p => synthesised p
  end.
Proof.
  induction chain as [|f chain IH]; intros r w; [done|]. cbn [request_loop].
  pose proof (on_request_lands f r w) as [Hd Hq]. destruct (on_request f r w) as [res w1].
  cbn [fst snd] in *. destruct res as [[|e|p]|e]; cbn [handle_request_step].
  - specialize (IH r w1). destruct (request_loop _ _ _) as [o w']. destruct IH. eauto.
  - specialize (IH (apply_request_edit r e) w1). destruct (request_loop _ _ _) as [o w'].
    destruct IH as [Hq' Ho]. split; [auto|]. destruct o as [p|r']; [done|].
    destruct Ho as (-> & -> & -> & -> & Hh). split_and!; try done. intros Hw. apply Hh.
    by apply edit_headers_wire.
  - done.
  - split; [done|]. apply fail_closed_synthesised.
Qed.

Lemma response_loop_lands (chain : list LoadedFilter) r : forall p w,
  let '(o, w') := response_loop chain r p w in
  (quiet w -> quiet w') /\
  match o with
  | RoForward p' => rs_body p' = rs_body p /\ (wire_response p -> wire_response p')
  | RoRespond p' => synthesised p'
  end.
Proof.
  induction chain as [|f chain IH]; intros p w; [done|]. cbn [response_loop].
  pose proof (on_response_lands f r p w) as [Hd Hq]. destruct (on_response f r p w) as [res w1].
  cbn [fst snd] in *. apply (step_response_wire p) in Hd.
  destruct (handle_response_step p res) as [p1|[q|q]]; [|done|done].
  specialize (IH p1 w1). destruct (response_loop _ _ _ _) as [o w']. destruct IH as [Hq' Ho].
  split; [auto|]. destruct o as [p'|p']; [|done]. destruct Hd as [Eb Hw], Ho as [Eb' Hw'].
  split; [congruence|auto].
Qed.

Lemma request_body_lands (chain : list LoadedFilter) : forall b hs w,
  let '(o, w') := dispatch_request_body chain b hs w in
  (quiet w -> quiet w') /\
  match o with
  | RboForward b' hs' => Forall wire_header hs -> Forall wire_header hs'
  | RboRespond p => synthesised p
  end.
Proof.
  induction chain as [|f chain IH]; intros b hs w; [done|]. cbn [dispatch_request_body].
  pose proof (on_request_body_lands f b w) as [Hd Hq]. destruct (on_request_body f b w) as [res w1].
  cbn [fst snd] in *. destruct res as [[|e|p]|e].
  - specialize (IH b hs w1). destruct (dispatch_request_body _ _ _ _). destruct IH. auto.
  - destruct (_ <? _); [split; [done|apply oversize_synthesised]|]. unfold apply_body_edit.
    specialize (IH (be_body e) (edit_headers hs (be_set_headers e) (be_remove_headers e)) w1).
    destruct (dispatch_request_body _ _ _ _) as [o w']. destruct IH as [Hq' Ho]. split; [auto|].
    destruct o; [done|]. intros Hw. apply Ho. by apply edit_headers_wire.
  - done.
  - split; [done|]. apply fail_closed_synthesised.
Qed.

Lemma response_body_lands (chain : list LoadedFilter) r max : forall p b t w,
  let '(o, w') := response_body_loop chain r p b max t w in
  (quiet w -> quiet w') /\
  match o with
  | SboForward b' hs' _ => Forall wire_header (rs_headers p) -> Forall wire_header hs'
  | SboRespond q => synthesised q
  end.
Proof.
  induction chain as [|f chain IH]; intros p b t w; [done|]. cbn [response_body_loop].
  pose proof (on_response_body_lands f r p b w) as [Hd Hq].
  destruct (on_response_body f r p b w) as [res w1]. cbn [fst snd] in *.
  destruct res as [[|e|q]|e].
  - specialize (IH p b t w1). destruct (response_body_loop _ _ _ _ _ _ _). destruct IH. auto.
  - destruct (_ <? _); [split; [done|apply oversize_synthesised]|]. unfold apply_body_edit.
    specialize (IH (mkResponse (rs_status p)
      (edit_headers (rs_headers p) (be_set_headers e) (be_remove_headers e)) (rs_body p))
      (be_body e) true w1).
    destruct (response_body_loop _ _ _ _ _ _ _) as [o w']. destruct IH as [Hq' Ho]. split; [auto|].
    destruct o; [|done]. intros Hw. apply Ho. cbn [rs_headers]. by apply edit_headers_wire, Hd.
  - destruct (_ <? _); [split; [done|apply oversize_synthesised]|done].
  - split; [done|]. apply fail_closed_synthesised.
Qed.
End chain.

(** ** Theorems *)

(** C6: Whatever the guests of a chain do (return anything, fault, time out, or run out of
    instances), driving the chain on any side keeps the proxy's messages well formed and its
    pools balanced.  A forwarded request keeps its method, path, authority and scheme and gains
    only header fields the wire can carry; a forwarded response keeps its body; every response
    the chain answers with itself has a status in 100..=599, wire headers and at most 1 MiB;
    and when every live slot of every pool was an idle instance, it is so again afterwards. *)
Theorem loaded_chain_well_formed {S} `{Engine S} `{Guest nat S} (chain : list LoadedFilter)
    (req : HttpRequest) (resp : HttpResponse) (body : bytes) (headers : list Header) (max : Z)
    (w : World S) :
  quiet w ->
  (let '(o, w') := dispatch_request chain req w in
   quiet w' /\
   match o with
   | CoForward req' =>
       rq_method req' = rq_method req /\ rq_path_with_query req' = rq_path_with_query req /\
       rq_authority req' = rq_authority req /\ rq_scheme req' = rq_scheme req /\
       (Forall wire_header (rq_headers req) -> Forall wire_header (rq_headers req'))
   | CoRespond p => synthesised p
   end) /\
  (let '(o, w') := dispatch_request_body chain body headers w in
   quiet w' /\
   match o with
   | RboForward body' headers' => Forall wire_header headers -> Forall wire_header headers'
   | RboRespond p => synthesised p
   end) /\
  (let '(o, w') := dispatch_response chain req resp w in
   quiet w' /\
   match o with
   | RoForward resp' => rs_body resp' = rs_body resp /\ (wire_response resp -> wire_response resp')
   | RoRespond p => synthesised p
   end) /\
  (let '(o, w') := dispatch_response_body chain req resp body max w in
   quiet w' /\
   match o with
   | SboForward body' headers' _ => Forall wire_header (rs_headers resp) -> Forall wire_header headers'
   | SboRespond p => synthesised p
   end).
Proof.
  intros Hq. split_and!.
  - pose proof (request_loop_lands chain req w) as Hl. unfold dispatch_request, dispatch_request_from.
    rewrite drop_0. destruct (request_loop _ _ _) as [o w']. naive_solver.
  - pose proof (request_body_lands chain body headers w) as Hl.
    destruct (dispatch_request_body _ _ _ _) as [o w']. naive_solver.
  - unfold dispatch_response, dispatch_response_from. destruct (length chain); [done|].
    pose proof (response_loop_lands (rev (take (Datatypes.S (Nat.min (Datatypes.S n - 1) n)) chain)) req resp w) as Hl.
    destruct (response_loop _ _ _ _) as [o w']. naive_solver.
  - pose proof (response_body_lands (rev chain) req max resp body false w) as Hl.
    unfold dispatch_response_body. destruct (response_body_loop _ _ _ _ _ _ _) as [o w']. naive_solver.
Qed.

(** ** A concrete engine and two guests *)

(** The engine state is the clock; the third instance ever built fails to initialise.  A 0.4
    guest edits with a hop-by-hop and an ordinary header; a 0.3 guest answers with a header
    that would split the message. *)
#[local] Instance demo_engine : Engine Z := {|
  en_now s := s;
  en_instantiate_initialized _ id s := (negb (Nat.eqb id 2), s + 1);
  en_begin_request _ s := s;
  en_set_request_deadline _ s := s;
  en_take_logs _ _ s := ([], s);
  en_drop _ s := s;
|}.
Definition demo_edit : RequestEdit :=
  mkRequestEdit [mkHeader (bs "Connection") (bs "close"); mkHeader (bs "x-user") (bs "7")] [bs "cookie"].
Definition demo_split : HttpResponse :=
  mkResponse 200 [mkHeader (bs "x-a") (bs "1" ++ [byte_of 13; byte_of 10] ++ bs "x-b: 2")] [].
#[local] Instance demo_guest : Guest nat Z := {|
  v01_on_request _ _ s := (Err OtherError, s);
  v02_on_request _ _ s := (Err Interrupt, s);
  v03_on_request _ _ s := (Ok (RqShortCircuit demo_split), s);
  v04_on_request _ _ s := (Ok (RqModified demo_edit), s);
  v01_on_response _ _ s := (Ok Rs2Continue, s);
  v02_on_response _ _ s := (Ok Rs2Continue, s);
  v03_on_response _ _ _ s := (Ok RsContinue, s);
  v04_on_response _ _ _ s := (Ok (RsModified (mkResponseEdit (Some 404) [] [])), s);
  v01_body_func _ b s := (Ok (Rb3Continue b), s);
  v02_body_func _ b s := (Ok (Rb3Continue b), s);
  v03_body_func _ b s := (Ok (Rb3Continue b), s);
  v04_body_func _ _ s := (Ok RbContinue, s);
  v04_response_body_func _ _ _ _ s := (Ok SbContinue, s);
|}.
Definition demo_cfg : TrustedPool := mkTrusted 2 1000 100.
Definition editor : LoadedFilter := mkLoaded (bs "edit") V04 (Some demo_cfg) true true true true.
Definition splitter : LoadedFilter := mkLoaded (bs "split") V03 None true true false true.
Definition demo_world : World Z := mkWorld (<[bs "edit" := pool_new 0]> ∅) ∅ 1 [] 5.
Definition demo_request : HttpRequest :=
  mkRequest (bs "GET") (bs "/") (bs "a") (bs "http") [mkHeader (bs "Cookie") (bs "k")].
Definition demo_response : HttpResponse := mkResponse 200 [] (bs "hi").

Lemma loaded_chain_well_formed_witness :
  let '(o, w) := dispatch_request [editor; splitter] demo_request demo_world in
  o = CoRespond (fail_closed_response InvalidOutput) /\ quiet w /\
  map sp_outcome (wd_spans w) = [SoModified; SoInvalidOutput].
Proof.
  assert (Hq : quiet demo_world) by (apply map_Forall_insert_2; [reflexivity|apply map_Forall_empty]).
  pose proof (loaded_chain_well_formed [editor; splitter] demo_request demo_response [] [] 100
    demo_world Hq) as [Hr _].
  destruct (dispatch_request [editor; splitter] demo_request demo_world) as [o w] eqn:E.
  destruct Hr as [Hw _]. vm_compute in E. injection E as <- <-.
  split; [reflexivity|]. split; [exact Hw|reflexivity].
Defined.

(** A pooled filter alone: the edit without its hop-by-hop header. *)
Example editor_forwards :
  (dispatch_request [editor] demo_request demo_world).1
  = CoForward (mkRequest (bs "GET") (bs "/") (bs "a") (bs "http") [mkHeader (bs "x-user") (bs "7")]).
Proof. vm_compute. reflexivity. Qed.
