(* ===== verification/Stek.v ===== *)
(** * Shared session-ticket keys (control/src/stek.rs, control/src/manifest/resumption.rs, the
    certificate binding of control/src/tls.rs)

    Tickets sealed and opened with keys derived from one file, and the ticketer's lazy reload:
    current and previous epochs, rotation, and the fail-closed state.  The cryptographic
    primitives are a parameter; the clock readings and the views of the key file are inputs of
    each operation.  Times are nanoseconds. *)

From stdpp Require Import sorting.
From S2P Require Import Prelude Bytes ContentHash.

(** ** Primitives *)

Definition STEK_FILE_LEN : nat := 64.
Definition KEY_NAME_LEN : nat := 16.
Definition IV_LEN : nat := 16.
Definition AES_KEY_LEN : nat := 32.
Definition TAG_LEN : nat := 32.
Definition MIN_TICKET_LEN : nat := KEY_NAME_LEN + IV_LEN + 16 + TAG_LEN.
Definition HKDF_SALT : bytes := bs "plecto-stek-v1".
Definition RECHECK_INTERVAL : Z := 10 * 10 ^ 9.

(** HKDF-SHA-256 (the extract of a salt and keying material, the expand of a list of info parts
    to a length), SHA-256, HMAC-SHA-256 and its constant-time check, and AES-256-CBC with
    PKCS#7. *)
Class StekCrypto := {
  hkdf_extract : bytes -> bytes -> bytes;
  hkdf_expand : bytes -> list bytes -> nat -> option bytes;
  sha256 : bytes -> bytes;
  hmac_sign : bytes -> bytes -> bytes;
  hmac_verify : bytes -> bytes -> bytes -> bool;
  cbc_encrypt : bytes -> bytes -> bytes -> option bytes;
  cbc_decrypt : bytes -> bytes -> bytes -> option bytes;
}.

Class StekCryptoLaws `{StekCrypto} : Prop := {
  hkdf_expand_len : forall prk info n okm, hkdf_expand prk info n = Some okm -> length okm = n;
  hmac_sign_len : forall k m, length (hmac_sign k m) = TAG_LEN;
  hmac_verify_spec : forall k m t, hmac_verify k m t = true <-> t = hmac_sign k m;
  (** PKCS#7 always pads, so a ciphertext has at least one block; decryption inverts. *)
  cbc_encrypt_len : forall k iv p c, cbc_encrypt k iv p = Some c -> (16 <= length c)%nat;
  cbc_round_trip : forall k iv p c, cbc_encrypt k iv p = Some c -> cbc_decrypt k iv c = Some p;
}.

(** ** Key schedule *)

Record DerivedKeys := mkKeys {
  dk_key_name : bytes;
  dk_aes : bytes;
  dk_mac : bytes;
  dk_ikm_digest : bytes;
  dk_mtime : Z;
}.

(** [now.duration_since(mtime)] is an error for an mtime in the future: fresh. *)
Definition fresh (now max_age : Z) (k : DerivedKeys) : bool :=
  if now <? dk_mtime k then true else now - dk_mtime k <=? max_age.

(** A view of the key file; [None] is a failed system call. *)
Record KeyFile := mkKeyFile { kf_mode : Z; kf_mtime : option Z; kf_bytes : option bytes }.

Inductive StekReason :=
| StatFailed
| LoosePermissions (mode : Z)
| MtimeUnavailable
| ReadFailed
| WrongLength (len : nat)
| ExpandFailed (label : bytes).

Section stek.
Context `{StekCrypto}.

(** The certificate binding: the digest of the sorted, deduplicated key fingerprints, over the
    public keys the provider exposes; [None] refuses the build. *)
Definition cert_set_binding (spkis : list (option bytes)) : option bytes :=
  fingerprints ← mapM (fun spki => sha256 <$> spki) spkis;
  Some (sha256 (concat (dedup (merge_sort bytes_le fingerprints)))).

Definition expand (prk cert_binding label : bytes) (len : nat) : result bytes StekReason :=
  match hkdf_expand prk [cert_binding; label] len with
  | Some okm => Ok okm
  | None => Err (ExpandFailed label)
  end.

Definition derive (ikm cert_binding : bytes) (mtime : Z) : result DerivedKeys StekReason :=
  let ikm_digest := sha256 ikm in
  let prk := hkdf_extract HKDF_SALT ikm in
  res_bind (expand prk cert_binding (bs "aes-256-cbc-key") AES_KEY_LEN) (fun aes_key =>
  res_bind (expand prk cert_binding (bs "hmac-sha-256-key") 32) (fun mac_key =>
  res_bind (expand prk cert_binding (bs "key-name") KEY_NAME_LEN) (fun key_name =>
  Ok (mkKeys key_name aes_key mac_key ikm_digest mtime)))).

Definition read_and_derive (file : option KeyFile) (cert_binding : bytes)
    : result DerivedKeys StekReason :=
  match file with
  | None => Err StatFailed
  | Some f =>
    if negb (Z.land (kf_mode f) 63 =? 0) then Err (LoosePermissions (Z.land (kf_mode f) 511))
    else
      match kf_mtime f with
      | None => Err MtimeUnavailable
      | Some mtime =>
        match kf_bytes f with
        | None => Err ReadFailed
        | Some content =>
          if negb (Nat.eqb (length content) STEK_FILE_LEN) then Err (WrongLength (length content))
          else derive content cert_binding mtime
        end
      end
  end.

(** ** Tickets *)

(** The seal of [encrypt], for the drawn initialisation vector. *)
Definition seal_ticket (k : DerivedKeys) (iv plain : bytes) : option bytes :=
  ct ← cbc_encrypt (dk_aes k) iv plain;
  let out := dk_key_name k ++ iv ++ ct in
  Some (out ++ hmac_sign (dk_mac k) out).

Definition open_ticket (k : DerivedKeys) (cipher : bytes) : option bytes :=
  if (length cipher <? MIN_TICKET_LEN)%nat then None
  else
    let at_ := (length cipher - TAG_LEN)%nat in
    let body := take at_ cipher in
    let tag := drop at_ cipher in
    if negb (hmac_verify (dk_mac k) body tag) then None
    else
      let iv := take IV_LEN (drop KEY_NAME_LEN body) in
      let ct := drop (KEY_NAME_LEN + IV_LEN) body in
      cbc_decrypt (dk_aes k) iv ct.

(** ** The ticketer *)

Record Ticketer := mkTicketer {
  tk_max_age : Z;
  tk_cert_binding : bytes;
  tk_lifetime_secs : Z;
  tk_recheck : Z;
  tk_last_check : Z;
  tk_current : option DerivedKeys;
  tk_previous : option DerivedKeys;
}.

Definition with_keys (t : Ticketer) (current previous : option DerivedKeys) : Ticketer :=
  mkTicketer (tk_max_age t) (tk_cert_binding t) (tk_lifetime_secs t) (tk_recheck t)
    (tk_last_check t) current previous.
Definition with_last_check (t : Ticketer) (now : Z) : Ticketer :=
  mkTicketer (tk_max_age t) (tk_cert_binding t) (tk_lifetime_secs t) (tk_recheck t)
    now (tk_current t) (tk_previous t).

(** [now_epoch_secs] of a clock reading. *)
Definition epoch_secs (now : Z) : Z := if now <? 0 then 0 else now / 10 ^ 9.

Definition ticketer_new (now : Z) (file : option KeyFile) (max_age : Z) (cert_binding : bytes)
    (recheck : Z) : result Ticketer StekReason :=
  res_bind (read_and_derive file cert_binding) (fun keys =>
  Ok (mkTicketer max_age cert_binding (Z.min (max_age / 10 ^ 9) u32_max) recheck (epoch_secs now)
    (Some keys) None)).

Definition from_manifest (now : Z) (file : option KeyFile) (r : Resumption) (cert_binding : bytes)
    : option (result Ticketer StekReason) :=
  if resumption_validate r
  then Some (ticketer_new now file (rs_max_age_hours r * 3600 * 10 ^ 9) cert_binding RECHECK_INTERVAL)
  else None.

(** The match on what the file derives to. *)
Definition adopt (t : Ticketer) (read : result DerivedKeys StekReason) : Ticketer :=
  match read with
  | Ok keys =>
    match tk_current t with
    | Some current =>
      if bytes_eqb (dk_ikm_digest current) (dk_ikm_digest keys)
      then with_keys t (Some (mkKeys (dk_key_name current) (dk_aes current) (dk_mac current)
             (dk_ikm_digest current) (dk_mtime keys))) (tk_previous t)
      else with_keys t (Some keys) (tk_current t)
    | None => with_keys t (Some keys) (tk_previous t)
    end
  | Err _ => with_keys t None None
  end.

(** [wins] tells whether this thread's exchange of [last_check] succeeds. *)
Definition maybe_reload (now : Z) (wins : bool) (file : option KeyFile) (t : Ticketer) : Ticketer :=
  let now := epoch_secs now in
  if saturating_sub now (tk_last_check t) <? tk_recheck t / 10 ^ 9 then t
  else if negb wins then t
  else
    let t := with_last_check t now in
    adopt t (read_and_derive file (tk_cert_binding t)).

Definition enabled (now : Z) (t : Ticketer) : bool :=
  match tk_current t with Some keys => fresh now (tk_max_age t) keys | None => false end.

Definition encrypt (now : Z) (iv : option bytes) (t : Ticketer) (plain : bytes) : option bytes :=
  keys ← (match tk_current t with
          | Some k => if fresh now (tk_max_age t) k then Some k else None
          | None => None
          end);
  iv ← iv;
  seal_ticket keys iv plain.

Definition epochs (t : Ticketer) : list DerivedKeys :=
  option_list (tk_current t) ++ option_list (tk_previous t).

Definition decrypt (now : Z) (t : Ticketer) (cipher : bytes) : option bytes :=
  keys ← List.find (fun k => (KEY_NAME_LEN <=? length cipher)%nat
                              && bytes_eqb (take KEY_NAME_LEN cipher) (dk_key_name k))
           (List.filter (fresh now (tk_max_age t)) (epochs t));
  open_ticket keys cipher.
End stek.

(** ** Lemmas *)

Section binding.
Context `{StekCrypto}.

(** The binding sees a certificate set: order and repetition do not matter. *)
Lemma cert_set_binding_set (a b : list (option bytes)) :
  (forall spki, spki ∈ a <-> spki ∈ b) -> cert_set_binding a = cert_set_binding b.
Proof.
  intros Hab. unfold cert_set_binding.
  assert (Hfp : forall l l', mapM (fun spki => sha256 <$> spki) l = Some l' ->
    forall x, x ∈ l' <-> exists spki, Some spki ∈ l /\ x = sha256 spki).
  { intros l l' Hl. apply mapM_Some_1 in Hl. induction Hl as [|o y l l' Ho _ IH]; intros x.
    - split; [intros Hin; by apply elem_of_nil in Hin|intros (? & Hin & _); by apply elem_of_nil in Hin].
    - rewrite elem_of_cons, IH. setoid_rewrite elem_of_cons. destruct o as [s|]; simplify_eq/=.
      naive_solver. }
  assert (Hnone : forall l, mapM (fun spki : option bytes => sha256 <$> spki) l = None <-> None ∈ l).
  { intros l. rewrite mapM_None, Exists_exists. setoid_rewrite fmap_None. naive_solver. }
  destruct (mapM _ a) as [fa|] eqn:Ea, (mapM _ b) as [fb|] eqn:Eb; cbn [mbind option_bind].
  - do 2 f_equal.
    assert (Hs : dedup (merge_sort bytes_le fa) = dedup (merge_sort bytes_le fb)); [|by rewrite Hs].
    apply dedup_sort_ext. intros x. rewrite (Hfp _ _ Ea), (Hfp _ _ Eb). naive_solver.
  - apply Hnone, Hab, Hnone in Eb. congruence.
  - apply Hnone, Hab, Hnone in Ea. congruence.
  - done.
Qed.
End binding.

Section tickets.
Context `{StekCryptoLaws}.

(** Two epochs with the same key material; the mtimes may differ. *)
Definition same_keys (a b : DerivedKeys) : Prop :=
  dk_key_name a = dk_key_name b /\ dk_aes a = dk_aes b /\ dk_mac a = dk_mac b /\
  dk_ikm_digest a = dk_ikm_digest b.

Lemma derive_keys ikm binding m k : derive ikm binding m = Ok k ->
  length (dk_key_name k) = KEY_NAME_LEN /\ dk_ikm_digest k = sha256 ikm /\ dk_mtime k = m /\
  forall m' k', derive ikm binding m' = Ok k' -> same_keys k k'.
Proof.
  unfold derive, expand. destruct (hkdf_expand _ _ AES_KEY_LEN) as [aes|] eqn:E1; [|done].
  destruct (hkdf_expand _ _ 32) as [mac|] eqn:E2; [|done].
  destruct (hkdf_expand _ _ KEY_NAME_LEN) as [name|] eqn:E3; [|done]. cbn [res_bind].
  intros [= <-]. split_and!; [by apply hkdf_expand_len in E3|done|done|]. by intros m' k' [= <-].
Qed.

(** Opening inverts sealing, under the same key material. *)
Lemma open_seal k k' iv p c : same_keys k k' -> length (dk_key_name k) = KEY_NAME_LEN ->
  length iv = IV_LEN -> seal_ticket k iv p = Some c ->
  open_ticket k' c = Some p /\ take KEY_NAME_LEN c = dk_key_name k /\ (KEY_NAME_LEN <= length c)%nat.
Proof.
  intros (Hn & Ha & Hm & _) Hnl Hil. unfold seal_ticket.
  destruct (cbc_encrypt _ _ _) as [ct|] eqn:Ec; [|done]. cbn [mbind option_bind]. intros [= <-].
  pose proof (cbc_encrypt_len _ _ _ _ Ec) as Hcl.
  set (out := dk_key_name k ++ iv ++ ct).
  assert (Hol : length out = (KEY_NAME_LEN + IV_LEN + length ct)%nat).
  { unfold out. rewrite !length_app. lia. }
  assert (Hat : (length (out ++ hmac_sign (dk_mac k) out) - TAG_LEN = length out)%nat).
  { rewrite length_app, hmac_sign_len. lia. }
  split_and!.
  - unfold open_ticket. rewrite Hat, take_app_length, drop_app_length.
    replace (length (out ++ _) <? MIN_TICKET_LEN)%nat with false.
    2: { symmetry. apply Nat.ltb_ge. rewrite length_app, hmac_sign_len, Hol. unfold MIN_TICKET_LEN. lia. }
    rewrite <- Hm, (proj2 (hmac_verify_spec _ _ _) eq_refl). cbn [negb].
    unfold out at 1. rewrite drop_app_length', take_app_length' by congruence.
    replace (drop (KEY_NAME_LEN + IV_LEN) out) with ct.
    + rewrite <- Ha. by apply cbc_round_trip in Ec.
    + unfold out. rewrite app_assoc, drop_app_length'; [done|]. rewrite length_app. congruence.
  - unfold out. by rewrite <- app_assoc, take_app_length' by congruence.
  - rewrite length_app, Hol. lia.
Qed.

(** A ticket opens at a ticketer that holds its epoch fresh, whatever other epoch it has. *)
Lemma decrypt_sealed now (t : Ticketer) k k' iv p c :
  same_keys k k' -> length (dk_key_name k) = KEY_NAME_LEN -> length iv = IV_LEN ->
  seal_ticket k iv p = Some c ->
  k' ∈ epochs t -> fresh now (tk_max_age t) k' = true ->
  (forall e, e ∈ epochs t -> dk_key_name e = dk_key_name k' -> same_keys k' e) ->
  decrypt now t c = Some p.
Proof.
  intros Hk Hn Hi Hs Hin Hf Hu. destruct (open_seal k k' iv p c Hk Hn Hi Hs) as (_ & Ht & Hl).
  unfold decrypt. rewrite Ht, (proj2 (Nat.leb_le _ _) Hl). cbn [andb].
  assert (Hfind : forall l, Forall (fun e => e ∈ epochs t) l -> k' ∈ l ->
    exists e, List.find (fun e => bytes_eqb (dk_key_name k) (dk_key_name e)) l = Some e /\ same_keys k e).
  { destruct Hk as (Hkn & Hka & Hkm & Hkd).
    induction 1 as [|e l He _ IH]; intros Hin'; [by apply elem_of_nil in Hin'|]. cbn [List.find].
    destruct (bytes_eqb _ _) eqn:E.
    - apply bytes_eqb_eq in E. exists e. split; [done|].
      destruct (Hu e He) as (? & ? & ? & ?); [congruence|]. repeat split; congruence.
    - apply elem_of_cons in Hin' as [->|Hin']; [|by apply IH].
      by rewrite (proj2 (bytes_eqb_eq _ _) Hkn) in E. }
  destruct (Hfind (List.filter (fresh now (tk_max_age t)) (epochs t))) as (e & -> & He).
  - apply Forall_forall. intros e He. apply list_elem_of_In, filter_In in He as [He _].
    by apply list_elem_of_In.
  - apply list_elem_of_In, filter_In. split; [by apply list_elem_of_In|done].
  - cbn [mbind option_bind]. by destruct (open_seal k e iv p c He Hn Hi Hs).
Qed.

Lemma encrypt_some now iv (t : Ticketer) p c : encrypt now iv t p = Some c ->
  exists k v, tk_current t = Some k /\ fresh now (tk_max_age t) k = true /\ iv = Some v /\
    seal_ticket k v p = Some c.
Proof.
  unfold encrypt. destruct (tk_current t) as [k|]; [|done].
  destruct (fresh now (tk_max_age t) k) eqn:Ef; [|done]. destruct iv as [v|]; [|done].
  cbn [mbind option_bind]. intros Hs. by exists k, v.
Qed.

(** What decryption found: a fresh epoch whose code authenticates the ticket. *)
Lemma decrypt_some now (t : Ticketer) c p : decrypt now t c = Some p ->
  exists k, k ∈ epochs t /\ fresh now (tk_max_age t) k = true /\
    take KEY_NAME_LEN c = dk_key_name k /\ open_ticket k c = Some p /\
    drop (length c - TAG_LEN) c = hmac_sign (dk_mac k) (take (length c - TAG_LEN) c).
Proof.
  unfold decrypt. destruct (List.find _ _) as [k|] eqn:E; [|done]. cbn [mbind option_bind].
  intros Ho. apply find_some in E as [Hin Hn]. apply filter_In in Hin as [Hin Hf].
  apply andb_prop in Hn as [_ Hn]. apply bytes_eqb_eq in Hn.
  exists k. split_and!; [by apply list_elem_of_In|done|done|done|].
  unfold open_ticket in Ho. destruct (_ <? _)%nat; [done|].
  destruct (hmac_verify _ _ _) eqn:Ev; [|done]. by apply hmac_verify_spec in Ev.
Qed.
End tickets.

(** ** The ticketer's history *)

(** One operation's view: the clock, whether it won the check, and the key file. *)
Definition Check : Type := Z * bool * option KeyFile.

Section history.
Context `{StekCrypto}.

Definition run_checks (t : Ticketer) (h : list Check) : Ticketer :=
  fold_left (fun t '(now, wins, file) => maybe_reload now wins file t) h t.

(** A view whose file passed every test. *)
Definition good_view (f : KeyFile) (content : bytes) (mtime : Z) : Prop :=
  Z.land (kf_mode f) 63 = 0 /\ kf_bytes f = Some content /\ kf_mtime f = Some mtime /\
  length content = STEK_FILE_LEN.

Lemma read_and_derive_ok file binding k : read_and_derive file binding = Ok k ->
  exists f content mtime, file = Some f /\ good_view f content mtime /\
    derive content binding mtime = Ok k.
Proof.
  unfold read_and_derive, good_view. destruct file as [f|]; [|done].
  destruct (Z.eqb_spec (Z.land (kf_mode f) 63) 0); [|done]. cbn [negb].
  destruct (kf_mtime f) as [m|] eqn:Em; [|done]. destruct (kf_bytes f) as [b|] eqn:Eb; [|done].
  destruct (Nat.eqb_spec (length b) STEK_FILE_LEN); [|done]. cbn [negb]. intros Hd.
  by exists f, b, m.
Qed.

(** An epoch comes from valid views among [seen]: its key material from one, its mtime from one
    with the same content digest. *)
Definition epoch_from (binding : bytes) (seen : list (option KeyFile)) (k : DerivedKeys) : Prop :=
  (exists f content mtime k0, Some f ∈ seen /\ good_view f content mtime /\
    derive content binding mtime = Ok k0 /\ same_keys k k0) /\
  (exists f content, Some f ∈ seen /\ good_view f content (dk_mtime k) /\
    sha256 content = dk_ikm_digest k).

Lemma epoch_from_more binding seen seen' k :
  seen ⊆ seen' -> epoch_from binding seen k -> epoch_from binding seen' k.
Proof.
  intros Hs [(f & c & m & k0 & Hin & Hrest) (f' & c' & Hin' & Hrest')].
  split; [exists f, c, m, k0|exists f', c']; auto.
Qed.

Record ticketer_ok (seen : list (option KeyFile)) (t : Ticketer) : Prop := {
  ok_epochs : Forall (epoch_from (tk_cert_binding t) seen) (epochs t);
  ok_previous : tk_current t = None -> tk_previous t = None;
}.
End history.

Section history_laws.
Context `{StekCryptoLaws}.

Lemma read_epoch file binding k : read_and_derive file binding = Ok k ->
  epoch_from binding [file] k.
Proof.
  intros Hr. destruct (read_and_derive_ok _ _ _ Hr) as (f & c & m & -> & Hg & Hd).
  destruct (derive_keys _ _ _ _ Hd) as (_ & Hdig & Hm & Hsame).
  split.
  - exists f, c, m, k. split_and!; [set_solver|done|done|by apply (Hsame m)].
  - exists f, c. split_and!; [set_solver|by rewrite Hm|done].
Qed.

Lemma ticketer_new_ok now file max_age binding recheck t :
  ticketer_new now file max_age binding recheck = Ok t -> ticketer_ok [file] t.
Proof.
  unfold ticketer_new. destruct (read_and_derive _ _) as [k|e] eqn:Er; [|done]. cbn [res_bind].
  intros [= <-]. split; cbn; [|done]. constructor; [by apply read_epoch|constructor].
Qed.

Lemma maybe_reload_ok now wins file seen (t : Ticketer) :
  ticketer_ok seen t -> ticketer_ok (seen ++ [file]) (maybe_reload now wins file t).
Proof.
  intros [He Hp].
  assert (He' : Forall (epoch_from (tk_cert_binding t) (seen ++ [file])) (epochs t)).
  { eapply Forall_impl; [exact He|]. intros k. apply epoch_from_more. set_solver. }
  unfold maybe_reload. destruct (_ <? _); [by split|]. destruct wins; [|by split]. cbn [negb].
  destruct (read_and_derive file (tk_cert_binding _)) as [k|e] eqn:Er; [|by split].
  assert (Hk : epoch_from (tk_cert_binding t) (seen ++ [file]) k).
  { apply (epoch_from_more _ [file]); [set_solver|]. by apply read_epoch. }
  unfold adopt, epochs in *. cbn [tk_current with_last_check tk_previous] in *.
  destruct (tk_current t) as [cur|]; cbn [option_list app] in He'.
  - apply Forall_cons in He' as [Hcur Hprev].
    destruct (bytes_eqb _ _) eqn:E; (split; [|done]); cbn.
    + apply bytes_eqb_eq in E. constructor; [|done]. destruct Hcur as [Hc _], Hk as [_ (f & c & Hf)].
      split; [exact Hc|]. exists f, c. cbn. by rewrite E.
    + constructor; [done|]. by constructor.
  - rewrite (Hp eq_refl). split; cbn; [|done]. by constructor.
Qed.

Lemma run_checks_ok h : forall seen (t : Ticketer),
  ticketer_ok seen t -> ticketer_ok (seen ++ map snd h) (run_checks t h).
Proof.
  induction h as [|[[now wins] file] h IH]; intros seen t Ht; [by rewrite app_nil_r|].
  cbn [run_checks fold_left map snd]. rewrite cons_middle, app_assoc. apply IH, maybe_reload_ok, Ht.
Qed.

Lemma run_checks_static h : forall t : Ticketer,
  tk_cert_binding (run_checks t h) = tk_cert_binding t /\ tk_max_age (run_checks t h) = tk_max_age t.
Proof.
  induction h as [|[[now wins] file] h IH]; intros t; [done|].
  change (run_checks t ((now, wins, file) :: h)) with (run_checks (maybe_reload now wins file t) h).
  destruct (IH (maybe_reload now wins file t)) as [-> ->]. unfold maybe_reload, adopt.
  by repeat case_match.
Qed.
End history_laws.

(** ** Theorems *)

(** C30: A ticket one ticketer issued opens, with its exact plaintext, on every ticketer of the
    same certificate set that holds the key file's content as its current or previous epoch and
    finds it fresh (the other epoch's name being another one): on another replica, after a
    rebuild, and through one rotation of the file; after the next rotation it no longer opens.  *)
Theorem ticket_opens_on_replicas `{StekCryptoLaws} (a b : Ticketer) (content : bytes)
    (ma mb issued now : Z) (ka kb : DerivedKeys) (iv : option bytes) (plain ticket : bytes) :
  tk_cert_binding a = tk_cert_binding b ->
  derive content (tk_cert_binding a) ma = Ok ka -> tk_current a = Some ka ->
  derive content (tk_cert_binding b) mb = Ok kb ->
  (forall v, iv = Some v -> length v = IV_LEN) ->
  encrypt issued iv a plain = Some ticket ->
  (kb ∈ epochs b -> fresh now (tk_max_age b) kb = true ->
   (forall e, e ∈ epochs b -> dk_key_name e = dk_key_name kb -> same_keys kb e) ->
   decrypt now b ticket = Some plain) /\
  (tk_current b = Some kb -> fresh now (tk_max_age b) kb = true ->
   forall check file k2,
   tk_recheck b / 10 ^ 9 <= saturating_sub (epoch_secs check) (tk_last_check b) ->
   read_and_derive file (tk_cert_binding b) = Ok k2 ->
   dk_ikm_digest k2 <> dk_ikm_digest kb -> dk_key_name k2 <> dk_key_name kb ->
   decrypt now (maybe_reload check true file b) ticket = Some plain /\
   forall check' file' k3,
   tk_recheck b / 10 ^ 9 <= saturating_sub (epoch_secs check') (epoch_secs check) ->
   read_and_derive file' (tk_cert_binding b) = Ok k3 ->
   dk_ikm_digest k3 <> dk_ikm_digest k2 -> dk_key_name k3 <> dk_key_name kb ->
   decrypt now (maybe_reload check' true file' (maybe_reload check true file b)) ticket = None).
Proof.
  intros Hb Ha Hca Hd Hiv He. destruct (encrypt_some _ _ _ _ _ He) as (k & v & Hk & _ & Hv & Hs).
  rewrite Hca in Hk. injection Hk as <-. rewrite Hb in Ha.
  destruct (derive_keys _ _ _ _ Ha) as (Hlen & _ & _ & Hsame). specialize (Hsame mb kb Hd).
  specialize (Hiv v Hv). split.
  { intros Hin Hf Hu. by apply (decrypt_sealed now b ka kb v). }
  intros Hcb Hf check file k2 Hdue Hr Hdig Hname.
  assert (E1 : maybe_reload check true file b
    = with_keys (with_last_check b (epoch_secs check)) (Some k2) (Some kb)).
  { unfold maybe_reload. rewrite (proj2 (Z.ltb_ge _ _)) by lia. cbn [negb].
    cbn [tk_cert_binding with_last_check]. rewrite Hr. unfold adopt. cbn [tk_current with_last_check].
    rewrite Hcb. destruct (bytes_eqb _ _) eqn:E; [apply bytes_eqb_eq in E; congruence|done]. }
  rewrite E1. split.
  - apply (decrypt_sealed now _ ka kb v); [done..| | |].
    + unfold epochs. cbn. set_solver.
    + done.
    + unfold epochs. cbn. intros e. rewrite !elem_of_cons.
      intros [->|[->|Hin]]; [congruence|by intros _; repeat split|by apply elem_of_nil in Hin].
  - intros check' file' k3 Hdue' Hr' Hdig' Hname'.
    unfold maybe_reload. cbn [tk_last_check tk_recheck with_keys with_last_check tk_cert_binding].
    rewrite (proj2 (Z.ltb_ge _ _)) by lia. cbn [negb]. rewrite Hr'. unfold adopt.
    cbn [tk_current with_last_check with_keys].
    destruct (bytes_eqb _ _) eqn:E; [apply bytes_eqb_eq in E; congruence|].
    destruct (decrypt now _ ticket) as [p|] eqn:Ed; [|done]. exfalso.
    apply decrypt_some in Ed as (e & Hin & _ & Ht & _).
    destruct (open_seal ka kb v plain ticket Hsame Hlen Hiv Hs) as (_ & Hname0 & _).
    unfold epochs in Hin. cbn in Hin. rewrite !elem_of_cons in Hin.
    destruct Hsame as (Hn & _). rewrite Hname0 in Ht.
    destruct Hin as [->|[->|Hin]]; [congruence|congruence|by apply elem_of_nil in Hin].
Qed.

(** C29: Resumption fails closed.  At every point of a ticketer's history, a ticket is issued or
    accepted only under an epoch that is within [max_age] of the file's mtime (or newer than
    the clock) and whose keys and mtime come from views of the file that were owner-only and
    exactly 64 bytes long; a ticket is accepted only if that epoch's code authenticates it; and
    after an effective check that could not read such a file nothing is issued or accepted,
    until a later check reads one. *)
Theorem resumption_fails_closed `{StekCryptoLaws} (start : Z) (first : option KeyFile)
    (max_age : Z) (binding : bytes) (recheck : Z) (t0 : Ticketer) (h : list Check) :
  ticketer_new start first max_age binding recheck = Ok t0 ->
  let t := run_checks t0 h in
  let seen := first :: map snd h in
  (forall now iv plain ticket, encrypt now iv t plain = Some ticket ->
     enabled now t = true /\
     exists k, tk_current t = Some k /\ epoch_from binding seen k /\ fresh now max_age k = true) /\
  (forall now ticket plain, decrypt now t ticket = Some plain ->
     exists k, epoch_from binding seen k /\ fresh now max_age k = true /\
       take KEY_NAME_LEN ticket = dk_key_name k /\
       drop (length ticket - TAG_LEN) ticket
       = hmac_sign (dk_mac k) (take (length ticket - TAG_LEN) ticket)) /\
  (forall now wins file, tk_recheck t / 10 ^ 9 <= saturating_sub (epoch_secs now) (tk_last_check t) ->
     wins = true -> (forall f c m, file = Some f -> ~ good_view f c m) ->
     let t' := maybe_reload now wins file t in
     forall now', enabled now' t' = false /\
       (forall iv plain, encrypt now' iv t' plain = None) /\
       (forall ticket, decrypt now' t' ticket = None)).
Proof.
  intros Hnew. cbv zeta. pose proof (ticketer_new_ok _ _ _ _ _ _ Hnew) as Hok.
  apply (run_checks_ok h) in Hok. destruct (run_checks_static h t0) as [Hbind Hage].
  assert (Hstat : tk_cert_binding t0 = binding /\ tk_max_age t0 = max_age).
  { unfold ticketer_new in Hnew. destruct (read_and_derive _ _); [|done]. by injection Hnew as <-. }
  destruct Hstat as [Hb0 Ha0]. rewrite Hb0 in Hbind. rewrite Ha0 in Hage.
  set (t := run_checks t0 h) in *. destruct Hok as [Hep _]. rewrite Hbind in Hep.
  rewrite Forall_forall in Hep. split_and!.
  - intros now iv plain ticket He.
    destruct (encrypt_some _ _ _ _ _ He) as (k & v & Hk & Hf & _). rewrite Hage in Hf.
    split; [unfold enabled; rewrite Hk, Hage; exact Hf|]. exists k. split_and!; [done| |done].
    apply (Hep k). unfold epochs. rewrite Hk. set_solver.
  - intros now ticket plain Hd. destruct (decrypt_some _ _ _ _ Hd) as (k & Hin & Hf & Ht & _ & Htag).
    rewrite Hage in Hf. exists k. split_and!; try done. by apply (Hep k).
  - intros now wins file Hdue -> Hbad now'.
    assert (E : maybe_reload now true file t = with_keys (with_last_check t (epoch_secs now)) None None).
    { unfold maybe_reload. rewrite (proj2 (Z.ltb_ge _ _)) by lia. cbn [negb].
      destruct (read_and_derive file _) as [k|e] eqn:Er; [|done]. exfalso.
      destruct (read_and_derive_ok _ _ _ Er) as (f & c & m & -> & Hg & _).
      by apply (Hbad f c m). }
    rewrite E. done.
Qed.

(** ** Witnesses: primitives with the laws, not the secrecy *)

Definition zeros (n : nat) : bytes := replicate n (byte_of 0).

#[local] Instance toy_crypto : StekCrypto := {|
  hkdf_extract salt ikm := ikm;
  hkdf_expand prk info n := Some (take n (prk ++ concat info ++ zeros n));
  sha256 s := s;
  hmac_sign k m := take TAG_LEN (k ++ m ++ zeros TAG_LEN);
  hmac_verify k m t := bytes_eqb t (take TAG_LEN (k ++ m ++ zeros TAG_LEN));
  cbc_encrypt k iv p := Some (zeros 16 ++ p);
  cbc_decrypt k iv c := Some (drop 16 c);
|}.

#[local] Instance toy_laws : StekCryptoLaws.
Proof.
  assert (Hz : forall n, length (zeros n) = n) by (intros n; apply length_replicate).
  split.
  - intros prk info n okm [= <-]. rewrite length_take, !length_app, Hz. lia.
  - intros k m. change (length (take TAG_LEN (k ++ m ++ zeros TAG_LEN)) = TAG_LEN).
    rewrite length_take, !length_app, Hz. lia.
  - intros k m t. apply bytes_eqb_eq.
  - intros k iv p c E. change (Some (zeros 16 ++ p) = Some c) in E. injection E as <-.
    change (16 <= 16 + length p)%nat. lia.
  - intros k iv p c E. change (Some (zeros 16 ++ p) = Some c) in E. injection E as <-. reflexivity.
Qed.

Definition key_file (fill : nat) (mtime : Z) : option KeyFile :=
  Some (mkKeyFile 384 (Some mtime) (Some (replicate 64 (byte_of fill)))).
Definition hour : Z := 3600 * 10 ^ 9.
Definition demo_ticketer (start mtime : Z) : Ticketer :=
  match ticketer_new start (key_file 7 mtime) hour (bs "certs") RECHECK_INTERVAL with
  | Ok t => t
  | Err _ => mkTicketer 0 [] 0 0 0 None None
  end.
Definition demo_keys (mtime : Z) : DerivedKeys :=
  match derive (replicate 64 (byte_of 7)) (bs "certs") mtime with
  | Ok k => k
  | Err _ => mkKeys [] [] [] [] 0
  end.

Lemma ticket_opens_on_replicas_witness :
  let a := demo_ticketer 5 0 in
  let b := demo_ticketer 9 3 in
  let rotated := maybe_reload (20 * 10 ^ 9) true (key_file 8 9) b in
  exists ticket, encrypt 100 (Some (zeros 16)) a (bs "session") = Some ticket /\
    decrypt 200 b ticket = Some (bs "session") /\ decrypt 200 rotated ticket = Some (bs "session") /\
    decrypt 200 (maybe_reload (40 * 10 ^ 9) true (key_file 9 9) rotated) ticket = None.
Proof.
  cbv zeta. destruct (encrypt 100 (Some (zeros 16)) (demo_ticketer 5 0) (bs "session")) as [ticket|] eqn:E;
    [|vm_compute in E; discriminate E].
  exists ticket. split; [reflexivity|].
  destruct (ticket_opens_on_replicas (demo_ticketer 5 0) (demo_ticketer 9 3)
    (replicate 64 (byte_of 7)) 0 3 100 200 (demo_keys 0) (demo_keys 3) (Some (zeros 16)) (bs "session") ticket)
    as [Hopen Hrot]; [reflexivity|reflexivity|reflexivity|reflexivity| |exact E|].
  { intros v [= <-]. reflexivity. }
  destruct (Hrot eq_refl eq_refl (20 * 10 ^ 9) (key_file 8 9)
    (match derive (replicate 64 (byte_of 8)) (bs "certs") 9 with Ok k => k | Err _ => demo_keys 0 end))
    as [H1 H2]; [vm_compute; discriminate|reflexivity|vm_compute; discriminate|vm_compute; discriminate|].
  split_and!; [|exact H1|].
  - apply Hopen; [left|reflexivity|].
    intros e He _. apply list_elem_of_singleton in He as ->. repeat split.
  - apply (H2 (40 * 10 ^ 9) (key_file 9 9)
      (match derive (replicate 64 (byte_of 9)) (bs "certs") 9 with Ok k => k | Err _ => demo_keys 0 end));
      [vm_compute; discriminate|reflexivity|vm_compute; discriminate|vm_compute; discriminate].
Defined.

Lemma resumption_fails_closed_witness :
  let t := run_checks (demo_ticketer 5 0) [(20 * 10 ^ 9, true, key_file 8 9)] in
  let loose := Some (mkKeyFile 420 (Some 9) (Some (replicate 64 (byte_of 8)))) in
  enabled 100 t = true /\ enabled 100 (maybe_reload (40 * 10 ^ 9) true loose t) = false.
Proof.
  cbv zeta. split; [vm_compute; reflexivity|].
  destruct (resumption_fails_closed 5 (key_file 7 0) hour (bs "certs") RECHECK_INTERVAL
    (demo_ticketer 5 0) [(20 * 10 ^ 9, true, key_file 8 9)]) as (_ & _ & Hclosed);
    [vm_compute; reflexivity|].
  apply (Hclosed (40 * 10 ^ 9) true (Some (mkKeyFile 420 (Some 9) (Some (replicate 64 (byte_of 8))))));
    [vm_compute; discriminate|reflexivity|].
  intros f c m [= <-] [Hmode _]. vm_compute in Hmode. discriminate Hmode.
Defined.

(** A ticket issued half-way through the key's life advertises a lifetime that ends after the
    key's acceptance does: the lifetime is [max_age] whatever the key's age. *)
Example lifetime_outlives_key :
  let t := demo_ticketer 5 0 in
  let issued := hour / 2 in
  enabled issued t = true /\
  hour < issued + tk_lifetime_secs t * 10 ^ 9 /\
  enabled (hour + 1) t = false.
Proof. vm_compute. repeat split. Qed.
