(* ===== verification/Tls.v ===== *)
(** * TLS termination and re-origination (control/src/tls.rs)

    The server configurations built from the [[[tls]]] entries: certificates selected by SNI,
    session-ticket keys selected by what gates access, client verification; and the client
    configuration of an upstream.  The TLS library is a parameter: PEM and key parsing, the
    key match, trust anchors, and whether a configuration is accepted.  Files are read through
    a view of the file system; a build threads the process's ticket producers. *)

From S2P Require Import Prelude Bytes Manifest ContentHash Stek.

(** ** The TLS library *)

(** [Cert], [Key] and [SignKey] are parsed certificates, private keys and signing keys. *)
Class TlsLib (Cert Key SignKey : Type) := {
  pem_certs : bytes -> option (list Cert);
  pem_key : bytes -> option Key;
  supported_key : Key -> option SignKey;
  (** [keys_match]: matches, does not, or the provider cannot tell ([None]). *)
  keys_match : list Cert -> SignKey -> option bool;
  public_key : SignKey -> option bytes;
  (** How many of the certificates are usable trust anchors. *)
  add_parsable : list Cert -> nat;
  verifier_builds : list Cert -> bool;
  client_identity_ok : list Cert -> Key -> bool;
}.

(** A view of the files a build reads: contents and permission bits. *)
Record FileView := mkFileView {
  fv_read : bytes -> option bytes;
  fv_mode : bytes -> option Z;
  fv_key_file : bytes -> option KeyFile;
}.

Record ClientAuth := mkClientAuth { ca_path : bytes }.

Inductive TlsError :=
| ErrTlsCert (host : option bytes) (path : bytes) (reason : bytes)
| ErrStek (path : bytes)
| ErrClientAuthCa (path : bytes) (reason : bytes)
| ErrUpstreamTlsCa (upstream path reason : bytes)
| ErrUpstreamClientCert (upstream path reason : bytes).

Section tls.
Context {Cert Key SignKey : Type} `{TlsLib Cert Key SignKey} `{StekCrypto}.

(** ** Certificates *)

Record CertifiedKey := mkCertified { ck_chain : list Cert; ck_key : SignKey }.

Definition tls_err_path (entry : TlsCert) (path reason : bytes) : TlsError :=
  ErrTlsCert (tc_host entry) path reason.
Definition tls_err (entry : TlsCert) (reason : bytes) : TlsError :=
  tls_err_path entry (tc_cert_path entry) reason.

Definition read_certs (fs : FileView) (entry : TlsCert) : result (list Cert) TlsError :=
  match fv_read fs (tc_cert_path entry) with
  | None => Err (tls_err_path entry (tc_cert_path entry) (bs "read failed"))
  | Some content =>
    match pem_certs content with
    | None => Err (tls_err_path entry (tc_cert_path entry) (bs "bad cert PEM"))
    | Some certs => Ok certs
    end
  end.

Definition read_key (fs : FileView) (entry : TlsCert) : result Key TlsError :=
  match fv_read fs (tc_key_path entry) with
  | None => Err (tls_err_path entry (tc_key_path entry) (bs "read failed"))
  | Some content =>
    match pem_key content with
    | None => Err (tls_err_path entry (tc_key_path entry) (bs "bad key PEM"))
    | Some key => Ok key
    end
  end.

Definition load_certified_key (fs : FileView) (entry : TlsCert) : result CertifiedKey TlsError :=
  res_bind (read_certs fs entry) (fun chain =>
  match chain with
  | [] => Err (tls_err entry (bs "no certificates in cert_path PEM"))
  | _ =>
    res_bind (read_key fs entry) (fun key =>
    match supported_key key with
    | None => Err (tls_err entry (bs "unsupported private key"))
    | Some signing_key =>
      match keys_match chain signing_key with
      | Some true | None => Ok (mkCertified chain signing_key)
      | Some false => Err (tls_err entry (bs "cert/key mismatch"))
      end
    end)
  end).

(** ** SNI *)

Record SniResolver := mkResolver {
  sr_by_host : gmap bytes CertifiedKey;
  sr_default : option CertifiedKey;
}.

Definition is_ascii_uppercase (c : ascii) : bool := in_range 65 90 c.

Definition resolve (r : SniResolver) (server_name : option bytes) : option CertifiedKey :=
  match
    (name ← server_name;
     if existsb is_ascii_uppercase name then sr_by_host r !! to_ascii_lowercase name
     else sr_by_host r !! name)
  with
  | Some key => Some key
  | None => sr_default r
  end.

(** The loop over the entries. *)
Fixpoint load_entries (fs : FileView) (entries : list TlsCert) (r : SniResolver)
    (all : list CertifiedKey) : result (SniResolver * list CertifiedKey) TlsError :=
  match entries with
  | [] => Ok (r, all)
  | entry :: rest =>
    res_bind (load_certified_key fs entry) (fun certified =>
    let all := all ++ [certified] in
    match tc_host entry with
    | Some host =>
      let host := to_ascii_lowercase host in
      match sr_by_host r !! host with
      | Some _ => Err (tls_err entry (bs "duplicate cert for this SNI host"))
      | None => load_entries fs rest (mkResolver (<[host := certified]> (sr_by_host r)) (sr_default r)) all
      end
    | None =>
      match sr_default r with
      | Some _ => Err (tls_err entry (bs "more than one default (host-less) cert"))
      | None => load_entries fs rest (mkResolver (sr_by_host r) (Some certified)) all
      end
    end)
  end.

(** ** Ticket producers *)

(** A per-node producer is the number it was created with. *)
Inductive TicketSource := TsNode (id : nat) | TsFile (t : Ticketer).

(** The process's producers: the anonymous one and one per CA content digest. *)
Record Producers := mkProducers {
  pr_shared : option nat;
  pr_by_ca : gmap bytes nat;
  pr_next : nat;
}.

(** [creates] tells whether the library initialises a new producer. *)
Definition shared_ticketer (creates : bool) (p : Producers) : option nat * Producers :=
  match pr_shared p with
  | Some id => (Some id, p)
  | None =>
    if creates
    then (Some (pr_next p), mkProducers (Some (pr_next p)) (pr_by_ca p) (S (pr_next p)))
    else (None, p)
  end.

Definition client_auth_ticketer (creates : bool) (ca_bytes : bytes) (p : Producers)
    : option nat * Producers :=
  let digest := sha256 ca_bytes in
  match pr_by_ca p !! digest with
  | Some id => (Some id, p)
  | None =>
    if creates
    then (Some (pr_next p), mkProducers (pr_shared p) (<[digest := pr_next p]> (pr_by_ca p)) (S (pr_next p)))
    else (None, p)
  end.

(** ** Server configurations *)

Record ServerConfig := mkServerConfig {
  sc_resolver : SniResolver;
  sc_tls12 : bool;
  sc_alpn : list bytes;
  sc_client_roots : option (list Cert);
  sc_ticketer : TicketSource;
  sc_session_storage : bool;
  sc_max_early_data : Z;
}.

Record TlsConfigs := mkTlsConfigs { tls_tcp : ServerConfig; tls_quic : ServerConfig }.

Definition build_client_verifier (auth : ClientAuth) (ca_bytes : bytes) : result (list Cert) TlsError :=
  match pem_certs ca_bytes with
  | None => Err (ErrClientAuthCa (ca_path auth) (bs "bad CA PEM"))
  | Some [] => Err (ErrClientAuthCa (ca_path auth) (bs "no certificates in CA PEM"))
  | Some certs =>
    if Nat.eqb (add_parsable certs) 0
    then Err (ErrClientAuthCa (ca_path auth) (bs "no usable trust anchor in CA PEM"))
    else if verifier_builds certs then Ok certs
    else Err (ErrClientAuthCa (ca_path auth) (bs "client verifier"))
  end.

(** The choice of the ticket producer, after the certificates loaded. *)
Definition select_ticketer (now : Z) (creates : bool) (fs : FileView) (all : list CertifiedKey)
    (resumption : option Resumption) (client_auth : option (ClientAuth * bytes)) (p : Producers)
    : result TicketSource TlsError * Producers :=
  let key_init := ErrTlsCert None [] (bs "session-ticket key init") in
  match resumption, client_auth with
  | Some r, _ =>
    (match cert_set_binding (map (fun k => public_key (ck_key k)) all) with
     | None => Err (ErrStek (rs_stek_file r))
     | Some binding =>
       match from_manifest now (fv_key_file fs (rs_stek_file r)) r binding with
       | Some (Ok t) => Ok (TsFile t)
       | Some (Err _) | None => Err (ErrStek (rs_stek_file r))
       end
     end, p)
  | None, Some (_, ca_bytes) =>
    match client_auth_ticketer creates ca_bytes p with
    | (Some id, p) => (Ok (TsNode id), p)
    | (None, p) => (Err key_init, p)
    end
  | None, None =>
    match shared_ticketer creates p with
    | (Some id, p) => (Ok (TsNode id), p)
    | (None, p) => (Err key_init, p)
    end
  end.

Definition build_server_configs (now : Z) (creates : bool) (fs : FileView) (entries : list TlsCert)
    (resumption : option Resumption) (client_auth : option (ClientAuth * bytes)) (p : Producers)
    : result (option TlsConfigs) TlsError * Producers :=
  match resumption, client_auth with
  | Some r, Some _ => (Err (ErrStek (rs_stek_file r)), p)
  | _, _ =>
    match entries with
    | [] =>
      (match resumption, client_auth with
       | Some r, _ => Err (ErrStek (rs_stek_file r))
       | None, Some (auth, _) => Err (ErrClientAuthCa (ca_path auth)
           (bs "[listen.client_auth] requires at least one [[tls]] cert"))
       | None, None => Ok None
       end, p)
    | _ =>
      match load_entries fs entries (mkResolver ∅ None) [] with
      | Err e => (Err e, p)
      | Ok (resolver, all) =>
        let '(source, p) := select_ticketer now creates fs all resumption client_auth p in
        (res_bind source (fun ticketer =>
         res_bind match client_auth with
                  | Some (auth, ca_bytes) => res_bind (build_client_verifier auth ca_bytes) (fun r => Ok (Some r))
                  | None => Ok None
                  end (fun verifier =>
         Ok (Some (mkTlsConfigs
           (mkServerConfig resolver true [bs "h2"; bs "http/1.1"] verifier ticketer false 0)
           (mkServerConfig resolver false [bs "h3"] verifier ticketer false 0))))), p)
      end
    end
  end.

(** ** Upstream client configurations *)

Inductive Roots := WebpkiRoots | CaRoots (certs : list Cert).
Record ClientConfig := mkClientConfig {
  cc_roots : Roots;
  cc_identity : option (list Cert * Key);
}.

Definition owner_only (fs : FileView) (path : bytes) : result unit bytes :=
  match fv_mode fs path with
  | None => Err (bs "read failed")
  | Some mode => if negb (Z.land mode 63 =? 0) then Err (bs "readable by group/other") else Ok tt
  end.

Definition build_upstream_client_config (fs : FileView) (upstream_name : bytes) (tls : UpstreamTls)
    : result ClientConfig TlsError :=
  res_bind
    match tls_ca_path tls with
    | None => Ok WebpkiRoots
    | Some ca =>
      let err reason := Err (ErrUpstreamTlsCa upstream_name ca reason) in
      match fv_read fs ca with
      | None => err (bs "read failed")
      | Some content =>
        match pem_certs content with
        | None => err (bs "bad CA PEM")
        | Some [] => err (bs "no certificates in CA PEM")
        | Some certs =>
          if Nat.eqb (add_parsable certs) 0 then err (bs "no usable root certificate in CA PEM")
          else Ok (CaRoots certs)
        end
      end
    end (fun roots =>
  match tls_client_cert_path tls, tls_client_key_path tls with
  | None, None => Ok (mkClientConfig roots None)
  | Some cert_path, Some key_path =>
    let cerr path reason := Err (ErrUpstreamClientCert upstream_name path reason) in
    match fv_read fs cert_path with
    | None => cerr cert_path (bs "read failed")
    | Some content =>
      match pem_certs content with
      | None => cerr cert_path (bs "bad cert PEM")
      | Some [] => cerr cert_path (bs "no certificates in client cert PEM")
      | Some chain =>
        match owner_only fs key_path with
        | Err reason => cerr key_path reason
        | Ok _ =>
          match fv_read fs key_path with
          | None => cerr key_path (bs "read failed")
          | Some content =>
            match pem_key content with
            | None => cerr key_path (bs "bad key PEM")
            | Some key =>
              if client_identity_ok chain key then Ok (mkClientConfig roots (Some (chain, key)))
              else cerr cert_path (bs "client cert/key rejected")
            end
          end
        end
      end
    end
  | Some path, None | None, Some path =>
    Err (ErrUpstreamClientCert upstream_name path
      (bs "client_cert_path and client_key_path must be set together"))
  end).
End tls.

(** ** Lemmas *)

Lemma lower_fixed s : existsb is_ascii_uppercase s = false -> to_ascii_lowercase s = s.
Proof.
  induction s as [|c s IH]; [done|]. cbn [existsb]. rewrite orb_false_iff. intros [Hc Hs].
  unfold to_ascii_lowercase in *. cbn [map]. rewrite IH by done. f_equal.
  by destruct c as [[] [] [] [] [] [] [] []].
Qed.

(** The cert_slot of a resolver an entry fills: its lowered host, or the default. *)
Definition host_of (e : TlsCert) : option bytes := to_ascii_lowercase <$> tc_host e.

Section lemmas.
Context {Cert Key SignKey : Type} `{TlsLib Cert Key SignKey} `{StekCrypto}.
#[local] Notation CKey := (CertifiedKey (Cert := Cert) (SignKey := SignKey)).
#[local] Notation Resolver := (SniResolver (Cert := Cert) (SignKey := SignKey)).

Definition cert_slot (r : Resolver) (o : option bytes) : option CKey :=
  match o with Some h => sr_by_host r !! h | None => sr_default r end.

Lemma resolve_entries (r : Resolver) name :
  resolve r (Some name)
  = match cert_slot r (Some (to_ascii_lowercase name)) with Some k => Some k | None => cert_slot r None end.
Proof.
  unfold resolve, cert_slot. cbn [mbind option_bind].
  destruct (existsb is_ascii_uppercase name) eqn:E; [done|]. by rewrite (lower_fixed name E).
Qed.

Definition filled (r : Resolver) (o : option bytes) (k : CKey) : Resolver :=
  match o with
  | Some h => mkResolver (<[h := k]> (sr_by_host r)) (sr_default r)
  | None => mkResolver (sr_by_host r) (Some k)
  end.
Lemma entry_filled (r : Resolver) o k o' : cert_slot (filled r o k) o' = if decide (o = o') then Some k else cert_slot r o'.
Proof.
  destruct o as [h|], o' as [h'|]; cbn; try by case_decide.
  destruct (decide (h = h')) as [->|Hne].
  - rewrite lookup_insert_eq. by case_decide.
  - rewrite lookup_insert_ne by done. case_decide; [congruence|done].
Qed.

Lemma load_entries_cons fs e rest r all :
  load_entries fs (e :: rest) r (all : list CKey) =
  res_bind (load_certified_key fs e) (fun k =>
  match cert_slot r (host_of e) with
  | Some _ => Err (tls_err e (match tc_host e with
      | Some _ => bs "duplicate cert for this SNI host"
      | None => bs "more than one default (host-less) cert" end))
  | None => load_entries fs rest (filled r (host_of e) k) (all ++ [k])
  end).
Proof.
  unfold host_of. cbn [load_entries]. destruct (load_certified_key fs e); [|done]. cbn [res_bind].
  destruct (tc_host e); cbn; by case_match.
Qed.

(** What the loop accepted, and what it built. *)
Record loaded (fs : FileView) (entries : list TlsCert) (r r' : Resolver)
    (ks : list CKey) : Prop := {
  ld_keys : Forall2 (fun e k => load_certified_key fs e = Ok k) entries ks;
  ld_distinct : NoDup (map host_of entries);
  ld_free : Forall (fun e => cert_slot r (host_of e) = None) entries;
  ld_slots : forall o k, cert_slot r' o = Some k <->
    cert_slot r o = Some k \/ exists e, e ∈ entries /\ host_of e = o /\ load_certified_key fs e = Ok k;
}.

Lemma load_entries_ok fs entries : forall r all r' all',
  load_entries fs entries r all = Ok (r', all') ->
  exists ks, all' = all ++ ks /\ loaded fs entries r r' ks.
Proof.
  induction entries as [|e rest IH]; intros r all r' all'.
  { intros [= <- <-]. exists []. split; [by rewrite app_nil_r|]. split; [constructor..|].
    intros o k. split; [auto|]. intros [?|(? & Hin & _)]; [done|by apply elem_of_nil in Hin]. }
  rewrite load_entries_cons. destruct (load_certified_key fs e) as [k|] eqn:Ek; [|done]. cbn [res_bind].
  destruct (cert_slot r (host_of e)) eqn:Es; [done|]. intros Hl.
  destruct (IH _ _ _ _ Hl) as (ks & -> & [Hk Hd Hf Hs]). exists (k :: ks).
  split; [by rewrite <- app_assoc|].
  assert (Hne : Forall (fun e' => host_of e' <> host_of e /\ cert_slot r (host_of e') = None) rest).
  { eapply Forall_impl; [exact Hf|]. intros e'. cbn beta. rewrite entry_filled. by case_decide. }
  split.
  - by constructor.
  - cbn [map]. apply NoDup_cons. split; [|done]. rewrite list_elem_of_fmap. intros (e' & He & Hin).
    rewrite Forall_forall in Hne. destruct (Hne e' Hin). congruence.
  - constructor; [done|]. eapply Forall_impl; [exact Hne|]. by intros e' [_ ?].
  - intros o k'. rewrite Hs, entry_filled. setoid_rewrite elem_of_cons. case_decide; subst.
    + split.
      * intros [[= <-]|(e' & ? & ? & ?)]; right; [exists e|exists e']; auto.
      * intros [?|(e' & [->|Hin] & Hh & Hk')]; [congruence|left; congruence|right; by exists e'].
    + split.
      * intros [?|(e' & ? & ? & ?)]; [by left|right; exists e'; auto].
      * intros [?|(e' & [->|Hin] & Hh & Hk')]; [by left|congruence|right; by exists e'].
Qed.

(** What gates a node-local producer: nothing, or the digest of the CA bundle. *)
Definition gate (client_auth : option (ClientAuth * bytes)) : option bytes :=
  match client_auth with Some (_, ca) => Some (sha256 ca) | None => None end.
Definition producer (p : Producers) (g : option bytes) : option nat :=
  match g with Some d => pr_by_ca p !! d | None => pr_shared p end.

Record producers_ok (p : Producers) : Prop := {
  po_bound : forall g id, producer p g = Some id -> (id < pr_next p)%nat;
  po_inj : forall g g' id, producer p g = Some id -> producer p g' = Some id -> g = g';
}.
Definition extends (p p' : Producers) : Prop :=
  forall g id, producer p g = Some id -> producer p' g = Some id.

Lemma new_producer_ok (p : Producers) g (p' : Producers) :
  producers_ok p -> producer p g = None -> pr_next p' = S (pr_next p) ->
  (forall g', producer p' g' = if decide (g = g') then Some (pr_next p) else producer p g') ->
  producers_ok p' /\ extends p p'.
Proof.
  intros [Hb Hi] Hn Hnext Hp. split; [split|].
  - intros g' id. rewrite Hp, Hnext. case_decide; [intros [= <-]; lia|]. intros E. apply Hb in E. lia.
  - intros g1 g2 id. rewrite !Hp. repeat case_decide; subst; intros E1 E2; simplify_eq; try done.
    + apply Hb in E2. lia.
    + apply Hb in E1. lia.
    + by apply (Hi _ _ id).
  - intros g' id. rewrite Hp. case_decide; [subst; congruence|done].
Qed.

Lemma select_ticketer_ok now creates fs (all : list CKey) resumption client_auth p source p' :
  producers_ok p -> select_ticketer now creates fs all resumption client_auth p = (source, p') ->
  producers_ok p' /\ extends p p' /\
  match source with
  | Ok (TsNode id) => resumption = None /\ producer p' (gate client_auth) = Some id
  | Ok (TsFile t) => exists r binding, resumption = Some r /\
      cert_set_binding (map (fun k => public_key (ck_key k)) all) = Some binding /\
      from_manifest now (fv_key_file fs (rs_stek_file r)) r binding = Some (Ok t)
  | Err _ => True
  end.
Proof.
  intros Hok. unfold select_ticketer. destruct resumption as [r|].
  { intros [= <- <-]. split_and!; [done|by intros g id|]. repeat case_match; simplify_eq; try done. eauto. }
  destruct client_auth as [[auth ca]|]; unfold client_auth_ticketer, shared_ticketer.
  - destruct (pr_by_ca p !! sha256 ca) as [id|] eqn:E.
    { intros [= <- <-]. split_and!; [done|by intros g i|done|done]. }
    destruct creates; intros [= <- <-]; [|split_and!; [done|by intros g i|done]].
    match goal with |- producers_ok ?q /\ _ => pose proof (new_producer_ok p (Some (sha256 ca)) q) as Hnew end.
    destruct Hnew as [H1 H2]; [done|done|done| |].
    { intros [d|]; cbn; [|done]. destruct (decide (sha256 ca = d)) as [<-|Hne].
      - rewrite lookup_insert_eq. by case_decide.
      - rewrite lookup_insert_ne by done. case_decide; [congruence|done]. }
    split_and!; [done|done|done|]. cbn. by rewrite lookup_insert_eq.
  - destruct (pr_shared p) as [id|] eqn:E.
    { intros [= <- <-]. split_and!; [done|by intros g i|done|done]. }
    destruct creates; intros [= <- <-]; [|split_and!; [done|by intros g i|done]].
    match goal with |- producers_ok ?q /\ _ => pose proof (new_producer_ok p None q) as Hnew end.
    destruct Hnew as [H1 H2]; [done|done|done|by intros [d|]|]. split_and!; done.
Qed.

(** Everything a successful build settled. *)
Lemma build_ok now creates fs entries resumption client_auth p c p' :
  producers_ok p ->
  build_server_configs now creates fs entries resumption client_auth p = (Ok (Some c), p') ->
  (resumption = None \/ client_auth = None) /\
  exists resolver all source verifier,
    load_entries fs entries (mkResolver ∅ None) [] = Ok (resolver, all) /\
    select_ticketer now creates fs all resumption client_auth p = (Ok source, p') /\
    match client_auth with
    | Some (auth, ca) => exists roots, verifier = Some roots /\ build_client_verifier auth ca = Ok roots
    | None => verifier = None
    end /\
    c = mkTlsConfigs (mkServerConfig resolver true [bs "h2"; bs "http/1.1"] verifier source false 0)
          (mkServerConfig resolver false [bs "h3"] verifier source false 0).
Proof.
  intros Hok. unfold build_server_configs.
  assert (Hboth : forall X Y : result (option (TlsConfigs (Cert := Cert) (SignKey := SignKey))) TlsError * Producers,
    (match resumption, client_auth with Some r, Some _ => (Err (ErrStek (rs_stek_file r)), p) | _, _ => Y end)
      = (Ok (Some c), p') -> (resumption = None \/ client_auth = None) /\ Y = (Ok (Some c), p')).
  { intros _ Y. destruct resumption, client_auth; naive_solver. }
  intros E. apply Hboth in E as [Hx E]; [|exact (Ok None, p)]. split; [exact Hx|].
  destruct entries as [|e rest]; [by repeat case_match|].
  destruct (load_entries fs (e :: rest) _ []) as [[resolver all]|] eqn:El; [|done].
  destruct (select_ticketer _ _ _ _ _ _ _) as [[source|err] p1] eqn:Es; [|done]. cbn [res_bind] in E.
  exists resolver, all, source.
  destruct client_auth as [[auth ca]|].
  - destruct (build_client_verifier auth ca) as [roots|] eqn:Ev; [|done]. cbn [res_bind] in E.
    injection E as <- <-. exists (Some roots). split_and!; try done. by exists roots.
  - cbn [res_bind] in E. injection E as <- <-. by exists None.
Qed.

Lemma build_extends now creates fs entries resumption client_auth p :
  producers_ok p ->
  let '(_, p') := build_server_configs now creates fs entries resumption client_auth p in
  producers_ok p' /\ extends p p'.
Proof.
  intros Hok. assert (Hr : producers_ok p /\ extends p p) by (split; [done|by intros g id]).
  unfold build_server_configs.
  destruct resumption as [r|], client_auth as [a|]; try done;
    (destruct entries as [|e rest]; [by repeat case_match|]);
    (destruct (load_entries fs (e :: rest) _ []) as [[resolver all]|]; [|done]);
    destruct (select_ticketer _ _ _ _ _ _ _) as [source p1] eqn:Es;
    destruct (select_ticketer_ok _ _ _ _ _ _ _ _ _ Hok Es) as (? & ? & _); done.
Qed.
End lemmas.

(** ** Theorems *)

(** The certificate presented is the configured one.  When a server configuration is built,
    every entry's certificate and key loaded and matched, no two entries name one host (in any
    letter case) and at most one is the default; a handshake naming a host is answered with that
    host's certificate, else with the default's, and refused exactly when there is neither; the
    TCP and QUIC faces share the certificates, the ticket keys and the required client
    verification, keep no session cache and accept no early data. *)
Theorem sni_presents_configured {Cert Key SignKey} `{TlsLib Cert Key SignKey} `{StekCrypto}
    (now : Z) (creates : bool) (fs : FileView) (entries : list TlsCert)
    (resumption : option Resumption) (client_auth : option (ClientAuth * bytes))
    (p p' : Producers) (c : TlsConfigs) (name : bytes) (k : CertifiedKey) :
  producers_ok p ->
  build_server_configs now creates fs entries resumption client_auth p = (Ok (Some c), p') ->
  let key e := load_certified_key fs e in
  let named e := host_of e = Some (to_ascii_lowercase name) in
  Forall (fun e => exists k, key e = Ok k) entries /\ NoDup (map host_of entries) /\
  (resolve (sc_resolver (tls_tcp c)) (Some name) = Some k <->
     (exists e, e ∈ entries /\ named e /\ key e = Ok k) \/
     (Forall (fun e => ~ named e) entries /\ exists e, e ∈ entries /\ tc_host e = None /\ key e = Ok k)) /\
  (resolve (sc_resolver (tls_tcp c)) (Some name) = None <->
     Forall (fun e => ~ named e /\ tc_host e <> None) entries) /\
  sc_resolver (tls_quic c) = sc_resolver (tls_tcp c) /\
  sc_ticketer (tls_quic c) = sc_ticketer (tls_tcp c) /\
  sc_client_roots (tls_quic c) = sc_client_roots (tls_tcp c) /\
  (is_Some (sc_client_roots (tls_tcp c)) <-> is_Some client_auth) /\
  Forall (fun s => sc_session_storage s = false /\ sc_max_early_data s = 0) [tls_tcp c; tls_quic c] /\
  sc_alpn (tls_tcp c) = [bs "h2"; bs "http/1.1"] /\ sc_alpn (tls_quic c) = [bs "h3"] /\
  sc_tls12 (tls_quic c) = false.
Proof.
  intros Hok Hb. cbv zeta.
  destruct (build_ok _ _ _ _ _ _ _ _ _ Hok Hb) as (_ & resolver & all & source & verifier & Hl & _ & Hv & ->).
  cbn [tls_tcp tls_quic sc_resolver sc_ticketer sc_client_roots sc_alpn sc_tls12].
  destruct (load_entries_ok _ _ _ _ _ _ Hl) as (ks & _ & [Hk Hd _ Hs]).
  assert (Hall : Forall (fun e => exists k, load_certified_key fs e = Ok k) entries).
  { clear -Hk. induction Hk; constructor; eauto. }
  assert (Hslot : forall o k, cert_slot resolver o = Some k <->
    exists e, e ∈ entries /\ host_of e = o /\ load_certified_key fs e = Ok k).
  { intros o k'. rewrite Hs. split; [intros [E|?]; [|done]|by right].
    destruct o; cbn in E; [by rewrite lookup_empty in E|done]. }
  assert (Hnone : forall o, cert_slot resolver o = None <-> Forall (fun e => host_of e <> o) entries).
  { intros o. rewrite Forall_forall. split.
    - intros E e Hin Hh. rewrite Forall_forall in Hall. destruct (Hall e Hin) as [k' Hk'].
      assert (cert_slot resolver o = Some k') by (apply Hslot; by exists e). congruence.
    - intros Hno. destruct (cert_slot resolver o) as [k'|] eqn:E; [|done].
      apply Hslot in E as (e & Hin & Hh & _). by destruct (Hno e Hin). }
  assert (Hdef : forall e, host_of e = None <-> tc_host e = None).
  { intros e. unfold host_of. by rewrite fmap_None. }
  split_and!; try done.
  - rewrite resolve_entries. destruct (cert_slot resolver (Some _)) as [k'|] eqn:E.
    + split.
      * intros [= <-]. left. by apply Hslot.
      * intros [He|[Hno _]]; [by rewrite <- E; apply Hslot|].
        apply Hnone in Hno. congruence.
    + apply Hnone in E. rewrite Hslot. setoid_rewrite Hdef. split; [auto|].
      intros [(e & Hin & Hn & _)|[_ ?]]; [|done]. rewrite Forall_forall in E. by destruct (E e Hin).
  - rewrite resolve_entries. rewrite Forall_and. setoid_rewrite <- Hdef. rewrite <- !Hnone.
    destruct (cert_slot resolver (Some _)); naive_solver.
  - destruct client_auth as [[auth ca]|]; [destruct Hv as (roots & -> & _)|subst verifier];
      rewrite <- !not_eq_None_Some; naive_solver.
  - by repeat constructor.
Qed.

(** One configuration build of the process, and a sequence of them. *)
Record Build := mkBuild {
  bd_now : Z;
  bd_creates : bool;
  bd_fs : FileView;
  bd_entries : list TlsCert;
  bd_resumption : option Resumption;
  bd_client_auth : option (ClientAuth * bytes);
}.

Section builds.
Context {Cert Key SignKey : Type} `{TlsLib Cert Key SignKey} `{StekCrypto}.

Definition run_build (b : Build) (p : Producers)
    : result (option (TlsConfigs (Cert := Cert) (SignKey := SignKey))) TlsError * Producers :=
  build_server_configs (bd_now b) (bd_creates b) (bd_fs b) (bd_entries b) (bd_resumption b)
    (bd_client_auth b) p.
Definition run_builds (builds : list Build) (p : Producers) : Producers :=
  fold_left (fun p b => (run_build b p).2) builds p.

Lemma run_build_extends b p : producers_ok p -> producers_ok (run_build b p).2 /\ extends p (run_build b p).2.
Proof.
  intros Hok. pose proof (build_extends (bd_now b) (bd_creates b) (bd_fs b) (bd_entries b)
    (bd_resumption b) (bd_client_auth b) p Hok) as He.
  unfold run_build. by destruct (build_server_configs _ _ _ _ _ _ _).
Qed.
Lemma run_builds_extends builds : forall p,
  producers_ok p -> producers_ok (run_builds builds p) /\ extends p (run_builds builds p).
Proof.
  induction builds as [|b builds IH]; intros p Hok; [split; [done|by intros g id]|].
  destruct (run_build_extends b p Hok) as [Hok' He]. destruct (IH _ Hok') as [Hok2 He2].
  split; [done|]. intros g id Hg. by apply He2, He.
Qed.
End builds.

(** Resumption never crosses what gates access.  Over any sequence of configuration builds
    of one process, two configurations with node-local ticket keys share them exactly when
    neither requires client certificates or both verify them against CA bundles of the same
    digest, so keys survive unrelated reloads and change with the trust roots; and a
    configuration that requires client certificates never uses the shared key file. *)
Theorem ticket_keys_follow_the_gate {Cert Key SignKey} `{TlsLib Cert Key SignKey} `{StekCrypto}
    (b1 b2 : Build) (between : list Build) (p0 p1 p3 : Producers) (c1 c2 : TlsConfigs) :
  producers_ok p0 ->
  run_build b1 p0 = (Ok (Some c1), p1) ->
  run_build b2 (run_builds between p1) = (Ok (Some c2), p3) ->
  (forall i1 i2, sc_ticketer (tls_tcp c1) = TsNode i1 -> sc_ticketer (tls_tcp c2) = TsNode i2 ->
     i1 = i2 <-> gate (bd_client_auth b1) = gate (bd_client_auth b2)) /\
  (forall t, sc_ticketer (tls_tcp c1) = TsFile t ->
     bd_client_auth b1 = None /\ is_Some (bd_resumption b1)) /\
  (is_Some (bd_client_auth b1) -> exists id, sc_ticketer (tls_tcp c1) = TsNode id).
Proof.
  intros Hok H1 H2.
  destruct (build_ok _ _ _ _ _ _ _ _ _ Hok H1) as (Hx1 & r1 & all1 & s1 & v1 & _ & Hs1 & _ & ->).
  destruct (select_ticketer_ok _ _ _ _ _ _ _ _ _ Hok Hs1) as (Hok1 & _ & Hsrc1).
  destruct (run_builds_extends between p1 Hok1) as [Hok2 He2].
  destruct (build_ok _ _ _ _ _ _ _ _ _ Hok2 H2) as (_ & r2 & all2 & s2 & v2 & _ & Hs2 & _ & ->).
  destruct (select_ticketer_ok _ _ _ _ _ _ _ _ _ Hok2 Hs2) as (Hok3 & He3 & Hsrc2).
  cbn [tls_tcp sc_ticketer]. split_and!.
  - intros i1 i2 -> ->. destruct Hsrc1 as [_ Hg1], Hsrc2 as [_ Hg2]. apply He2, He3 in Hg1.
    split; [intros ->; exact (po_inj _ Hok3 _ _ _ Hg1 Hg2)|]. intros Eg. rewrite Eg in Hg1. congruence.
  - intros t ->. destruct Hsrc1 as (r & binding & Er & _). rewrite Er in *.
    destruct Hx1; [done|]. split; [done|by exists r].
  - intros [a Ea]. destruct s1 as [id|t]; [by exists id|].
    destruct Hsrc1 as (r & binding & Er & _). destruct Hx1; congruence.
Qed.

(** ** Witnesses: a library whose certificates and keys are their PEM text *)

#[local] Instance text_tls : TlsLib bytes bytes bytes := {|
  pem_certs s := match s with [] => None | _ => Some [s] end;
  pem_key s := Some s;
  supported_key := Some;
  keys_match chain key := Some (bool_decide (chain = [key]));
  public_key := Some;
  add_parsable certs := length certs;
  verifier_builds _ := true;
  client_identity_ok _ _ := true;
|}.
#[local] Existing Instance toy_crypto.

Definition demo_fs : FileView := mkFileView Some (fun _ => Some 384) (fun _ => None).
Definition demo_entries : list TlsCert :=
  [mkTlsCert (Some (bs "A.example")) (bs "ka") (bs "ka"); mkTlsCert None (bs "kd") (bs "kd")].
Definition demo_build (client_auth : option (ClientAuth * bytes)) : Build :=
  mkBuild 0 true demo_fs demo_entries None client_auth.
Definition no_producers : Producers := mkProducers None ∅ 0.
Definition built (b : Build) (p : Producers) : TlsConfigs :=
  match (run_build b p).1 with
  | Ok (Some c) => c
  | _ => let s := mkServerConfig (mkResolver ∅ None) false [] None (TsNode 0) false 0 in mkTlsConfigs s s
  end.

Lemma no_producers_ok : producers_ok no_producers.
Proof.
  assert (E : forall g, producer no_producers g = None) by (intros [d|]; [apply lookup_empty|done]).
  split; [intros g id|intros g g' id]; by rewrite E.
Qed.

Lemma sni_presents_configured_witness :
  let c := built (demo_build None) no_producers in
  resolve (sc_resolver (tls_tcp c)) (Some (bs "a.EXAMPLE")) = Some (mkCertified [bs "ka"] (bs "ka")) /\
  resolve (sc_resolver (tls_tcp c)) (Some (bs "b.example")) = Some (mkCertified [bs "kd"] (bs "kd")).
Proof.
  cbv zeta. split.
  - destruct (sni_presents_configured 0 true demo_fs demo_entries None None no_producers
      (run_build (demo_build None) no_producers).2 (built (demo_build None) no_producers)
      (bs "a.EXAMPLE") (mkCertified [bs "ka"] (bs "ka")) no_producers_ok) as (_ & _ & Hr & _);
      [vm_compute; reflexivity|].
    apply Hr. left. exists (mkTlsCert (Some (bs "A.example")) (bs "ka") (bs "ka")).
    split; [left|]. split; vm_compute; reflexivity.
  - vm_compute. reflexivity.
Defined.

Lemma ticket_keys_follow_the_gate_witness :
  let auth ca := Some (mkClientAuth (bs "ca.pem"), bs ca) in
  let b1 := demo_build (auth "roots-1"%string) in
  let b2 := demo_build (auth "roots-2"%string) in
  let p1 := (run_build b1 no_producers).2 in
  sc_ticketer (tls_tcp (built b1 no_producers)) <> sc_ticketer (tls_tcp (built b2 p1)).
Proof.
  cbv zeta.
  destruct (ticket_keys_follow_the_gate
    (demo_build (Some (mkClientAuth (bs "ca.pem"), bs "roots-1")))
    (demo_build (Some (mkClientAuth (bs "ca.pem"), bs "roots-2"))) [] no_producers
    (run_build (demo_build (Some (mkClientAuth (bs "ca.pem"), bs "roots-1"))) no_producers).2
    (run_build (demo_build (Some (mkClientAuth (bs "ca.pem"), bs "roots-2")))
      (run_build (demo_build (Some (mkClientAuth (bs "ca.pem"), bs "roots-1"))) no_producers).2).2
    (built (demo_build (Some (mkClientAuth (bs "ca.pem"), bs "roots-1"))) no_producers)
    (built (demo_build (Some (mkClientAuth (bs "ca.pem"), bs "roots-2")))
      (run_build (demo_build (Some (mkClientAuth (bs "ca.pem"), bs "roots-1"))) no_producers).2)
    no_producers_ok) as (Hg & _ & _); [vm_compute; reflexivity|vm_compute; reflexivity|].
  destruct (Hg 0%nat 1%nat) as [H1 _]; [vm_compute; reflexivity|vm_compute; reflexivity|].
  intros E. vm_compute in E. discriminate E.
Defined.
