(* ===== verification/Stdio.v ===== *)
(** * The guest stdio bridge (host/src/stdio.rs)

    A guest's standard output and error become log lines: bytes are split at newlines, an
    unterminated line is kept until it is completed, grows past the line cap or the instance is
    discarded, and a byte budget per request bounds what is recorded.  The stream plumbing of
    the WASI implementation, which calls [write], is left out. *)

From S2P Require Import Prelude Bytes Contract HostApi.

Definition MAX_STDIO_LINE_BYTES : nat := 4 * 1024.
Definition MAX_STDIO_BYTES_PER_REQUEST : Z := 64 * 1024.

Inductive StdioKind := Stdout | Stderr.
#[export] Instance StdioKind_eq_dec : EqDecision StdioKind.
Proof. solve_decision. Defined.

Definition kind_level (k : StdioKind) : LogLevel :=
  match k with Stdout => LogDebug | Stderr => LogWarn end.

(** ** The byte budget *)

Record ByteBudget := mkByteBudget {
  bb_max_line_bytes : nat;
  bb_remaining_bytes : Z;
  bb_warned : bool;
}.

Definition byte_budget_new (max_line_bytes : nat) (total_bytes : Z) : ByteBudget :=
  mkByteBudget max_line_bytes total_bytes false.
Definition byte_budget_reset (b : ByteBudget) (total_bytes : Z) : ByteBudget :=
  mkByteBudget (bb_max_line_bytes b) total_bytes false.

Definition stdio_marker : bytes :=
  map ascii_of_nat [226; 128; 166]%nat ++ bs " stdio truncated (per-request byte budget reached)".

Definition line_cost (text : bytes) : Z := Z.max (Z.of_nat (length text)) 1.

Definition byte_admit (b : ByteBudget) (level : LogLevel) (message : bytes)
    : option (LogLevel * bytes) * ByteBudget :=
  if bb_warned b then (None, b)
  else
    let text := sanitize_log_message message (bb_max_line_bytes b) in
    let cost := line_cost text in
    if bb_remaining_bytes b <? cost
    then (Some (LogWarn, stdio_marker), mkByteBudget (bb_max_line_bytes b) (bb_remaining_bytes b) true)
    else (Some (level, text),
          mkByteBudget (bb_max_line_bytes b) (bb_remaining_bytes b - cost) false).

(** ** The bridge *)

Record StdioBridge := mkBridge {
  sb_stdout_partial : bytes;
  sb_stderr_partial : bytes;
  sb_pending : list LogLine;
  sb_budget : ByteBudget;
}.

Definition bridge_new : StdioBridge :=
  mkBridge [] [] [] (byte_budget_new MAX_STDIO_LINE_BYTES MAX_STDIO_BYTES_PER_REQUEST).

Definition partial (k : StdioKind) (b : StdioBridge) : bytes :=
  match k with Stdout => sb_stdout_partial b | Stderr => sb_stderr_partial b end.
Definition set_partial (k : StdioKind) (p : bytes) (b : StdioBridge) : StdioBridge :=
  match k with
  | Stdout => mkBridge p (sb_stderr_partial b) (sb_pending b) (sb_budget b)
  | Stderr => mkBridge (sb_stdout_partial b) p (sb_pending b) (sb_budget b)
  end.

Definition admit_line (k : StdioKind) (raw : bytes) (b : StdioBridge) : StdioBridge :=
  match byte_admit (sb_budget b) (kind_level k) (from_utf8_lossy raw) with
  | (Some (level, message), budget) =>
    mkBridge (sb_stdout_partial b) (sb_stderr_partial b) (sb_pending b ++ [mkLogLine level message]) budget
  | (None, budget) => mkBridge (sb_stdout_partial b) (sb_stderr_partial b) (sb_pending b) budget
  end.

Definition NEWLINE : ascii := ascii_of_nat 10.

(** The scan: each complete line is admitted; the rest is returned. *)
Fixpoint admit_lines (fuel : nat) (k : StdioKind) (buf : bytes) (b : StdioBridge) : bytes * StdioBridge :=
  match fuel with
  | O => (buf, b)
  | S fuel =>
    match split_once NEWLINE buf with
    | Some (line, rest) => admit_lines fuel k rest (admit_line k line b)
    | None => (buf, b)
    end
  end.

Definition write (k : StdioKind) (input : bytes) (b : StdioBridge) : StdioBridge :=
  let buf := partial k b ++ input in
  let '(remainder, b) := admit_lines (length buf) k buf (set_partial k [] b) in
  if (MAX_STDIO_LINE_BYTES <? length remainder)%nat then admit_line k remainder b
  else set_partial k remainder b.

Definition flush_partial (k : StdioKind) (b : StdioBridge) : StdioBridge :=
  let line := partial k b in
  let b := set_partial k [] b in
  match line with [] => b | _ => admit_line k line b end.

Definition bridge_drain (b : StdioBridge) : list LogLine * StdioBridge :=
  (sb_pending b, mkBridge (sb_stdout_partial b) (sb_stderr_partial b) [] (sb_budget b)).
Definition bridge_drain_final (b : StdioBridge) : list LogLine * StdioBridge :=
  bridge_drain (flush_partial Stderr (flush_partial Stdout b)).
Definition bridge_begin_request (b : StdioBridge) : StdioBridge :=
  mkBridge [] [] [] (byte_budget_reset (sb_budget b) MAX_STDIO_BYTES_PER_REQUEST).

(** What a request can do to the bridge. *)
Inductive StdioOp := OpWrite (k : StdioKind) (input : bytes) | OpDrain | OpDrainFinal.

Definition stdio_op (op : StdioOp) (b : StdioBridge) : list LogLine * StdioBridge :=
  match op with
  | OpWrite k input => ([], write k input b)
  | OpDrain => bridge_drain b
  | OpDrainFinal => bridge_drain_final b
  end.

(** The lines handed out by a sequence of operations, and the bridge after it. *)
Fixpoint stdio_run (ops : list StdioOp) (b : StdioBridge) : list LogLine * StdioBridge :=
  match ops with
  | [] => ([], b)
  | op :: rest =>
    let '(out, b) := stdio_op op b in
    let '(out', b) := stdio_run rest b in (out ++ out', b)
  end.

(** ** Lemmas: the scan *)

Lemma split_once_shorter c s p q : split_once c s = Some (p, q) -> (length q < length s)%nat.
Proof. intros E. apply split_once_Some in E as [-> _]. rewrite length_app. cbn. lia. Qed.

(** Fuel of the buffer's length is enough. *)
Lemma admit_lines_fuel k n : forall m buf b, (length buf <= n)%nat -> (length buf <= m)%nat ->
  admit_lines n k buf b = admit_lines m k buf b.
Proof.
  induction n as [|n IH]; intros m buf b Hn Hm.
  { destruct buf; [|cbn in Hn; lia]. by destruct m. }
  destruct m as [|m]; [destruct buf; [done|cbn in Hm; lia]|]. cbn [admit_lines].
  destruct (split_once NEWLINE buf) as [[line rest]|] eqn:E; [|done].
  apply split_once_shorter in E. apply IH; lia.
Qed.

Lemma split_once_none_app c s t : split_once c s = None ->
  split_once c (s ++ t) = match split_once c t with Some (p, q) => Some (s ++ p, q) | None => None end.
Proof.
  intros E. apply split_once_None in E. destruct (split_once c t) as [[p q]|] eqn:Et.
  - apply split_once_Some in Et as [-> Hp]. rewrite app_assoc. apply split_once_app. set_solver.
  - apply split_once_None in Et. apply split_once_none. set_solver.
Qed.

(** What is left unscanned is scanned with what follows. *)
Lemma admit_lines_app k n : forall buf t b, (length buf <= n)%nat ->
  let '(r, b1) := admit_lines n k buf b in
  split_once NEWLINE r = None /\
  admit_lines (length (buf ++ t)) k (buf ++ t) b = admit_lines (length (r ++ t)) k (r ++ t) b1.
Proof.
  induction n as [|n IH]; intros buf t b Hn.
  { destruct buf; [|cbn in Hn; lia]. done. }
  cbn [admit_lines]. destruct (split_once NEWLINE buf) as [[line rest]|] eqn:E.
  - pose proof (split_once_shorter _ _ _ _ E) as Hr. specialize (IH rest t (admit_line k line b) ltac:(lia)).
    destruct (admit_lines n k rest (admit_line k line b)) as [r b1]. destruct IH as [Hnone IH].
    split; [done|]. rewrite <- IH. apply split_once_Some in E as [-> Hl].
    rewrite <- app_assoc. cbn [app]. rewrite length_app. cbn [length].
    rewrite Nat.add_succ_r. cbn [admit_lines]. rewrite split_once_app by done.
    apply admit_lines_fuel; lia.
  - split; [done|]. done.
Qed.

Lemma admit_line_partial k k' raw b : partial k' (admit_line k raw b) = partial k' b.
Proof. unfold admit_line. destruct (byte_admit _ _ _) as [[[level message]|] budget], k'; reflexivity. Qed.
Lemma admit_line_budget k raw b :
  sb_budget (admit_line k raw b) = (byte_admit (sb_budget b) (kind_level k) (from_utf8_lossy raw)).2.
Proof. unfold admit_line. by destruct (byte_admit _ _ _) as [[[level message]|] budget]. Qed.
Lemma admit_lines_partial k k' n : forall buf b, partial k' (admit_lines n k buf b).2 = partial k' b.
Proof.
  induction n as [|n IH]; intros buf b; [done|]. cbn [admit_lines].
  destruct (split_once _ _) as [[line rest]|]; [|done]. by rewrite IH, admit_line_partial.
Qed.
Lemma set_partial_same k p b : partial k b = p -> set_partial k p b = b.
Proof. destruct b, k; cbn; by intros ->. Qed.
Lemma set_partial_twice k p p' b : set_partial k p (set_partial k p' b) = set_partial k p b.
Proof. by destruct k. Qed.
Lemma partial_set k p b : partial k (set_partial k p b) = p.
Proof. by destruct k. Qed.

(** ** Lemmas: the budget *)

Definition spent (lines : list LogLine) : Z := sumZ (map (fun l => line_cost (ll_message l)) lines).
Definition marker_line : LogLine := mkLogLine LogWarn stdio_marker.

(** [recorded] are the lines admitted since the budget was reset to [total]. *)
Record budget_ok (total : Z) (recorded : list LogLine) (b : ByteBudget) : Prop := {
  bo_remaining : 0 <= bb_remaining_bytes b;
  bo_lines : exists body, recorded = body ++ (if bb_warned b then [marker_line] else []) /\
    spent body + bb_remaining_bytes b = total;
  bo_clean : Forall (fun l => has_c0 (ll_message l) = false) recorded;
}.

Lemma spent_app l1 l2 : spent (l1 ++ l2) = spent l1 + spent l2.
Proof. unfold spent. by rewrite map_app, sumZ_app. Qed.

Lemma admit_line_recorded total drained k raw b :
  budget_ok total (drained ++ sb_pending b) (sb_budget b) ->
  budget_ok total (drained ++ sb_pending (admit_line k raw b)) (sb_budget (admit_line k raw b)).
Proof.
  intros [Hr (body & Hb & Hs) Hc]. unfold admit_line, byte_admit.
  destruct (bb_warned (sb_budget b)) eqn:Ew; [split; cbn; [done|rewrite Ew; eauto|done]|].
  rewrite app_nil_r in Hb. destruct (Z.ltb_spec (bb_remaining_bytes (sb_budget b))
    (line_cost (sanitize_log_message (from_utf8_lossy raw) (bb_max_line_bytes (sb_budget b))))) as [Hlt|Hge];
    cbn [sb_pending sb_budget]; split; cbn [bb_remaining_bytes bb_warned]; try lia; rewrite ?app_assoc.
  - exists body. by rewrite Hb.
  - apply Forall_app. split; [done|]. apply Forall_singleton. by vm_compute.
  - exists (drained ++ sb_pending b ++ [mkLogLine (kind_level k)
      (sanitize_log_message (from_utf8_lossy raw) (bb_max_line_bytes (sb_budget b)))]).
    rewrite app_nil_r, app_assoc. split; [done|]. rewrite spent_app, Hb. unfold spent at 2. cbn. lia.
  - apply Forall_app. split; [done|]. apply Forall_singleton. apply sanitize_no_c0.
Qed.

Lemma admit_lines_recorded total drained k n : forall buf b,
  budget_ok total (drained ++ sb_pending b) (sb_budget b) ->
  let b' := (admit_lines n k buf b).2 in
  budget_ok total (drained ++ sb_pending b') (sb_budget b').
Proof.
  induction n as [|n IH]; intros buf b Hb; [done|]. cbn [admit_lines].
  destruct (split_once _ _) as [[line rest]|]; [|done]. by apply IH, admit_line_recorded.
Qed.

Lemma set_partial_fields k p b :
  sb_pending (set_partial k p b) = sb_pending b /\ sb_budget (set_partial k p b) = sb_budget b.
Proof. by destruct k. Qed.

Definition partial_ok (b : StdioBridge) : Prop := forall k, (length (partial k b) <= MAX_STDIO_LINE_BYTES)%nat.

Lemma partial_other k k' p b : k <> k' -> partial k' (set_partial k p b) = partial k' b.
Proof. by destruct k, k'. Qed.

(** The operations keep the budget and the bound on unterminated lines. *)
Definition bridge_ok (total : Z) (drained : list LogLine) (b : StdioBridge) : Prop :=
  budget_ok total (drained ++ sb_pending b) (sb_budget b) /\ partial_ok b.

Lemma write_ok total drained k input b :
  bridge_ok total drained b -> bridge_ok total drained (write k input b).
Proof.
  intros [Hb Hp]. unfold write.
  assert (Hb0 : budget_ok total (drained ++ sb_pending (set_partial k [] b)) (sb_budget (set_partial k [] b)))
    by (destruct (set_partial_fields k [] b) as [-> ->]; done).
  apply (admit_lines_recorded total drained k (length (partial k b ++ input)) (partial k b ++ input)) in Hb0.
  pose proof (fun k' => admit_lines_partial k k' (length (partial k b ++ input)) (partial k b ++ input)
    (set_partial k [] b)) as Hpart.
  destruct (admit_lines _ _ _ _) as [r b1]. cbn [snd] in *.
  destruct (Nat.ltb_spec MAX_STDIO_LINE_BYTES (length r)) as [Hl|Hl].
  - split; [by apply admit_line_recorded|]. intros k'. rewrite admit_line_partial, Hpart.
    destruct (decide (k = k')) as [<-|Hne]; [rewrite partial_set; cbn; lia|].
    rewrite partial_other by done. apply Hp.
  - split; [destruct (set_partial_fields k r b1) as [-> ->]; done|]. intros k'.
    destruct (decide (k = k')) as [<-|Hne]; [by rewrite partial_set|].
    rewrite partial_other, Hpart, partial_other by done. apply Hp.
Qed.

Lemma flush_ok total drained k b : bridge_ok total drained b -> bridge_ok total drained (flush_partial k b).
Proof.
  intros [Hb Hp]. unfold flush_partial.
  assert (H0 : bridge_ok total drained (set_partial k [] b)).
  { split; [destruct (set_partial_fields k [] b) as [-> ->]; done|]. intros k'.
    destruct (decide (k = k')) as [<-|Hne]; [rewrite partial_set; cbn; lia|].
    rewrite partial_other by done. apply Hp. }
  destruct (partial k b) as [|c line]; [done|]. destruct H0 as [H1 H2].
  split; [by apply admit_line_recorded|]. intros k'. rewrite admit_line_partial. apply H2.
Qed.

Lemma stdio_op_ok total drained op b :
  bridge_ok total drained b ->
  let '(out, b') := stdio_op op b in bridge_ok total (drained ++ out) b'.
Proof.
  intros Hb. destruct op as [k input| |]; cbn [stdio_op].
  - rewrite app_nil_r. by apply write_ok.
  - destruct Hb as [Hb Hp]. split; [|exact Hp]. cbn [bridge_drain sb_pending sb_budget].
    by rewrite app_nil_r.
  - apply (flush_ok _ _ Stdout), (flush_ok _ _ Stderr) in Hb as [Hb Hp]. split; [|exact Hp].
    cbn. by rewrite app_nil_r.
Qed.

Lemma stdio_run_ok total ops : forall drained b,
  bridge_ok total drained b ->
  let '(out, b') := stdio_run ops b in bridge_ok total (drained ++ out) b'.
Proof.
  induction ops as [|op ops IH]; intros drained b Hb; [cbn [stdio_run]; by rewrite app_nil_r|]. cbn [stdio_run].
  pose proof (stdio_op_ok total drained op b Hb) as H1. destruct (stdio_op op b) as [out b1].
  specialize (IH _ _ H1). destruct (stdio_run ops b1) as [out' b2]. by rewrite app_assoc.
Qed.

(** The text after the last newline. *)
Definition tail_line (s : bytes) : bytes := default [] (last (split_on NEWLINE s)).

Lemma admit_lines_tail k n : forall buf b, (length buf <= n)%nat ->
  (admit_lines n k buf b).1 = tail_line buf.
Proof.
  induction n as [|n IH]; intros buf b Hn; [destruct buf; [done|cbn in Hn; lia]|].
  cbn [admit_lines]. destruct (split_once NEWLINE buf) as [[line rest]|] eqn:E.
  - pose proof (split_once_shorter _ _ _ _ E) as Hr. rewrite IH by lia.
    apply split_once_Some in E as [-> Hl]. unfold tail_line. rewrite split_on_app by done.
    pose proof (split_on_nonempty NEWLINE rest). by destruct (split_on NEWLINE rest).
  - apply split_once_None in E. cbn [fst]. unfold tail_line. by rewrite split_on_no_sep.
Qed.

(** ** Theorems *)

(** How a guest's output is cut into writes does not matter: two writes record and keep exactly
    what one write of both would, when the first leaves an unterminated line within the cap (a
    longer one is flushed at once). *)
Theorem writes_compose (k : StdioKind) (x y : bytes) (b : StdioBridge) :
  (length (tail_line (partial k b ++ x)) <= MAX_STDIO_LINE_BYTES)%nat ->
  write k y (write k x b) = write k (x ++ y) b.
Proof.
  intros Hr. rewrite <- (admit_lines_tail k _ _ (set_partial k [] b) (le_n _)) in Hr. unfold write at 2.
  pose proof (admit_lines_app k (length (partial k b ++ x)) (partial k b ++ x) y (set_partial k [] b)
    (le_n _)) as Happ.
  pose proof (admit_lines_partial k k (length (partial k b ++ x)) (partial k b ++ x) (set_partial k [] b)) as Hp.
  destruct (admit_lines _ _ _ _) as [r b1]. cbn [fst snd] in *. rewrite partial_set in Hp.
  destruct Happ as [_ Happ]. rewrite (proj2 (Nat.ltb_ge _ _)) by lia.
  unfold write. rewrite partial_set, set_partial_twice, (set_partial_same k [] b1) by done.
  rewrite app_assoc, Happ. reflexivity.
Qed.

(** Whatever a guest writes and however it is drained, one request records at most 64 KiB of
    lines (an empty line counted as one byte), then one truncation marker and nothing more; no
    recorded line holds a C0 control, and at no time is an unterminated line longer than the
    line cap kept. *)
Theorem stdio_bounded (ops : list StdioOp) (b : StdioBridge) :
  let '(out, b') := stdio_run ops (bridge_begin_request b) in
  (exists body marker, out ++ sb_pending b' = body ++ marker /\ (marker = [] \/ marker = [marker_line]) /\
     spent body <= MAX_STDIO_BYTES_PER_REQUEST /\ Z.of_nat (length body) <= 65536) /\
  Forall (fun l => has_c0 (ll_message l) = false) (out ++ sb_pending b') /\
  (forall k, (length (partial k b') <= MAX_STDIO_LINE_BYTES)%nat).
Proof.
  pose proof (stdio_run_ok MAX_STDIO_BYTES_PER_REQUEST ops [] (bridge_begin_request b)) as Hrun.
  destruct (stdio_run ops (bridge_begin_request b)) as [out b'].
  destruct Hrun as [[Hr (body & Hb & Hs) Hc] Hp].
  { split; [split; cbn; [done|by exists []|constructor]|]. intros []; cbn; lia. }
  cbn [app] in *. split_and!; [|done|done]. exists body, (if bb_warned (sb_budget b') then [marker_line] else []).
  split_and!; [done|by destruct (bb_warned _); auto|lia|].
  assert (Hlen : Z.of_nat (length body) <= spent body).
  { clear. unfold spent. induction body as [|l body IH]; [done|]. cbn [map sumZ length]. unfold line_cost at 1. lia. }
  unfold MAX_STDIO_BYTES_PER_REQUEST in *. lia.
Qed.

Lemma writes_compose_witness :
  write Stderr (bs "ic!") (write Stderr (bs "a" ++ [NEWLINE] ++ bs "pan") bridge_new)
  = write Stderr (bs "a" ++ [NEWLINE] ++ bs "panic!") bridge_new.
Proof.
  rewrite (writes_compose Stderr (bs "a" ++ [NEWLINE] ++ bs "pan") (bs "ic!") bridge_new);
    [reflexivity|apply Nat.leb_le; vm_compute; reflexivity].
Defined.

(** A guest that panics without a newline still leaves its message. *)
Example panic_recovered :
  (bridge_drain_final (write Stderr (bs "boom") (write Stdout (bs "x" ++ [NEWLINE]) bridge_new))).1
  = [mkLogLine LogDebug (bs "x"); mkLogLine LogWarn (bs "boom")].
Proof. vm_compute. reflexivity. Qed.
