(* ===== verification/Observe.v ===== *)
(** * Traces and the host's metrics (host/src/observe.rs)

    The request trace context and its W3C [traceparent] form, the identifiers minted in the
    process, and the sinks spans are sent to: the bounded in-memory sink, the tallies, the
    inline-execution histogram and the fan-out.  Identifiers are byte strings; counters are
    64-bit and wrap. *)

From stdpp Require Import sorting.
From S2P Require Import Prelude Bytes Headers Pool Filter.

(** ** Hexadecimal *)

Definition hex_digit (d : Z) : ascii := ascii_of_nat (Z.to_nat (if d <? 10 then 48 + d else 87 + d)).
Definition hex_byte (c : ascii) : bytes := [hex_digit (byte_val c / 16); hex_digit (byte_val c mod 16)].
(** [hex::encode]: two lowercase digits per byte. *)
Definition hex_encode (s : bytes) : bytes := concat (map hex_byte s).

(** A digit of either case. *)
Definition hex_val (c : ascii) : option Z :=
  if in_range 48 57 c then Some (byte_val c - 48)
  else if in_range 97 102 c then Some (byte_val c - 87)
  else if in_range 65 70 c then Some (byte_val c - 55)
  else None.

(** [hex::decode]. *)
Fixpoint hex_decode (s : bytes) : option bytes :=
  match s with
  | [] => Some []
  | [_] => None
  | a :: b :: rest =>
    x ← hex_val a; y ← hex_val b; tail ← hex_decode rest;
    Some (ascii_of_nat (Z.to_nat (16 * x + y)) :: tail)
  end.

(** [u8::from_str_radix(_, 16)]: an optional plus sign, then digits, at most 255. *)
Fixpoint radix16_digits (acc : Z) (s : bytes) : option Z :=
  match s with
  | [] => Some acc
  | c :: rest =>
    d ← hex_val c;
    let acc := 16 * acc + d in
    if 255 <? acc then None else radix16_digits acc rest
  end.
Definition u8_from_hex (s : bytes) : option Z :=
  match s with
  | [] => None
  | c :: rest =>
    if ascii_eqb c "+" then match rest with [] => None | _ => radix16_digits 0 rest end
    else radix16_digits 0 s
  end.

(** [u64::to_be_bytes]. *)
Fixpoint be_bytes (n : nat) (x : Z) : bytes :=
  match n with
  | O => []
  | S n => be_bytes n (x / 256) ++ [ascii_of_nat (Z.to_nat (x mod 256))]
  end.

(** ** Identifiers *)

(** The process-wide counter [NEXT], and the seed taken once. *)
Definition next_id (next : Z) : Z * Z := (next, wrap64 (next + 1)).
(** [nanos] is the wall clock as nanoseconds since the epoch, when it is after it. *)
Definition seed (nanos : option Z) : Z :=
  Z.lor (match nanos with Some n => wrap64 n | None => 11400714819323198485 end) 1.

Definition next_trace_id (seed next : Z) : bytes * Z :=
  let '(n, next) := next_id next in (be_bytes 8 seed ++ be_bytes 8 n, next).
Definition next_span_id (next : Z) : bytes * Z :=
  let '(n, next) := next_id next in (be_bytes 8 n, next).

Definition TRACE_INVALID : bytes := replicate 16 (byte_of 0).
Definition SPAN_INVALID : bytes := replicate 8 (byte_of 0).

(** ** The request trace *)

Record RequestTrace := mkTrace {
  tr_trace_id : bytes;
  tr_parent_span_id : option bytes;
  tr_request_span_id : bytes;
  tr_flags : Z;
}.

Definition is_sampled (t : RequestTrace) : bool := Z.testbit (tr_flags t) 0.

Definition root (seed next : Z) : RequestTrace * Z :=
  let '(trace_id, next) := next_trace_id seed next in
  let '(span_id, next) := next_span_id next in
  (mkTrace trace_id None span_id 1, next).

Definition from_traceparent (traceparent : bytes) (next : Z) : option RequestTrace * Z :=
  match split_on "-" traceparent with
  | [version; trace; span; flags] =>
    if negb (bytes_eqb version (bs "00")) then (None, next)
    else
      match (tb ← hex_decode trace; if Nat.eqb (length tb) 16 then Some tb else None),
            (sb ← hex_decode span; if Nat.eqb (length sb) 8 then Some sb else None) with
      | Some trace_id, Some inbound_span_id =>
        if bytes_eqb trace_id TRACE_INVALID || bytes_eqb inbound_span_id SPAN_INVALID then (None, next)
        else
          match u8_from_hex flags with
          | Some flag_byte =>
            let '(span_id, next) := next_span_id next in
            (Some (mkTrace trace_id (Some inbound_span_id) span_id flag_byte), next)
          | None => (None, next)
          end
      | _, _ => (None, next)
      end
  | _ => (None, next)
  end.

Definition to_traceparent (t : RequestTrace) : bytes :=
  bs "00-" ++ hex_encode (tr_trace_id t) ++ bs "-" ++ hex_encode (tr_request_span_id t) ++ bs "-"
  ++ (if is_sampled t then bs "01" else bs "00").

(** ** Sinks *)

Definition MAX_RETAINED_SPANS : nat := 10000.

(** [InMemorySink::export]. *)
Definition retain_span (spans : list FilterSpan) (span : FilterSpan) : list FilterSpan :=
  (if (MAX_RETAINED_SPANS <=? length spans)%nat then tail spans else spans) ++ [span].

Record MetricsSink := mkMetrics {
  ms_total : Z;
  ms_errors : Z;
  ms_short_circuits : Z;
  ms_duration_nanos : Z;
}.

(** [MetricsSink::export] of a span that took [nanos]. *)
Definition tally_span (m : MetricsSink) (outcome : SpanOutcome) (nanos : Z) : MetricsSink :=
  let total := wrapping_add (ms_total m) 1 in
  let duration := wrapping_add (ms_duration_nanos m) (wrap64 nanos) in
  match outcome with
  | SoShortCircuit | SoReplace =>
    mkMetrics total (ms_errors m) (wrapping_add (ms_short_circuits m) 1) duration
  | SoDeadline | SoTrap | SoInstantiateError | SoUnavailable | SoInvalidOutput =>
    mkMetrics total (wrapping_add (ms_errors m) 1) (ms_short_circuits m) duration
  | SoContinue | SoModified => mkMetrics total (ms_errors m) (ms_short_circuits m) duration
  end.

(** [FanOutSink::enabled]. *)
Definition fan_out_enabled (children : list bool) : bool := existsb id children.

(** ** Inline executions *)

(** The bounds in nanoseconds; each is exact as the seconds the code compares. *)
Definition INLINE_DURATION_BUCKETS : list Z :=
  [5000; 10000; 25000; 50000; 100000; 250000; 500000; 1000000; 5000000; 10000000; 50000000; 100000000].

Record InlineMetrics := mkInline {
  im_pool_exhausted : Z;
  im_pool_filling : Z;
  im_breaker_open : Z;
  im_buckets : list Z;
  im_count : Z;
  im_nanos : Z;
}.

Definition inline_new : InlineMetrics :=
  mkInline 0 0 0 (replicate (length INLINE_DURATION_BUCKETS) 0) 0 0.

Definition inc_fallback (m : InlineMetrics) (miss : IdleMiss) : InlineMetrics :=
  match miss with
  | PoolExhausted => mkInline (wrapping_add (im_pool_exhausted m) 1) (im_pool_filling m)
      (im_breaker_open m) (im_buckets m) (im_count m) (im_nanos m)
  | PoolFilling => mkInline (im_pool_exhausted m) (wrapping_add (im_pool_filling m) 1)
      (im_breaker_open m) (im_buckets m) (im_count m) (im_nanos m)
  | BreakerOpen => mkInline (im_pool_exhausted m) (im_pool_filling m)
      (wrapping_add (im_breaker_open m) 1) (im_buckets m) (im_count m) (im_nanos m)
  end.

(** The first slot whose bound is not below the duration is counted. *)
Fixpoint count_slot (bounds slots : list Z) (nanos : Z) : list Z :=
  match bounds, slots with
  | bound :: bounds, slot :: slots =>
    if nanos <=? bound then wrapping_add slot 1 :: slots else slot :: count_slot bounds slots nanos
  | _, _ => slots
  end.

Definition record_duration (m : InlineMetrics) (nanos : Z) : InlineMetrics :=
  mkInline (im_pool_exhausted m) (im_pool_filling m) (im_breaker_open m)
    (count_slot INLINE_DURATION_BUCKETS (im_buckets m) nanos)
    (wrapping_add (im_count m) 1) (wrapping_add (im_nanos m) (Z.min nanos u64_max)).

(** ** Lemmas *)

Lemma hex_digit_val d : 0 <= d < 16 -> hex_val (hex_digit d) = Some d /\ hex_digit d <> "-"%char.
Proof.
  intros Hd. assert (Hin : Z.to_nat d ∈ seq 0 16) by (apply elem_of_seq; lia).
  rewrite <- (Z2Nat.id d) by lia. revert Hin. generalize (Z.to_nat d). clear. intros n Hin.
  enough (Hall : Forall (fun n => hex_val (hex_digit (Z.of_nat n)) = Some (Z.of_nat n)
    /\ hex_digit (Z.of_nat n) <> "-"%char) (seq 0 16)) by (by rewrite Forall_forall in Hall; apply Hall).
  repeat constructor; discriminate.
Qed.

Lemma byte_val_back c : ascii_of_nat (Z.to_nat (byte_val c)) = c.
Proof. destruct c as [[] [] [] [] [] [] [] []]; reflexivity. Qed.

Lemma hex_byte_digits c : hex_val (hex_digit (byte_val c / 16)) = Some (byte_val c / 16) /\
  hex_val (hex_digit (byte_val c mod 16)) = Some (byte_val c mod 16).
Proof.
  pose proof (byte_val_range c). split; apply hex_digit_val.
  - split; [apply Z.div_pos; lia|apply Z.div_lt_upper_bound; lia].
  - apply Z.mod_pos_bound. lia.
Qed.

Lemma hex_round_trip s : hex_decode (hex_encode s) = Some s.
Proof.
  induction s as [|c s IH]; [done|]. unfold hex_encode in *. cbn [map concat hex_byte app hex_decode].
  destruct (hex_byte_digits c) as [-> ->]. cbn [mbind option_bind]. rewrite IH. cbn [mbind option_bind].
  rewrite <- (Z.div_mod (byte_val c) 16) by lia. by rewrite byte_val_back.
Qed.

Lemma hex_no_dash s : "-"%char ∉ hex_encode s.
Proof.
  induction s as [|c s IH]; [by intros Hin%elem_of_nil|]. unfold hex_encode in *. cbn [map concat hex_byte app].
  pose proof (byte_val_range c).
  assert (H1 : hex_digit (byte_val c / 16) <> "-"%char).
  { apply hex_digit_val. split; [apply Z.div_pos; lia|apply Z.div_lt_upper_bound; lia]. }
  assert (H2 : hex_digit (byte_val c mod 16) <> "-"%char) by (apply hex_digit_val, Z.mod_pos_bound; lia).
  rewrite !not_elem_of_cons. auto.
Qed.

Lemma be_bytes_length n : forall x, length (be_bytes n x) = n.
Proof. induction n as [|n IH]; intros x; [done|]. cbn [be_bytes]. rewrite length_app, IH. cbn. lia. Qed.

Lemma byte_of_inj x y : 0 <= x < 256 -> 0 <= y < 256 ->
  ascii_of_nat (Z.to_nat x) = ascii_of_nat (Z.to_nat y) -> x = y.
Proof.
  intros Hx Hy E. apply (f_equal nat_of_ascii) in E. rewrite !nat_ascii_embedding in E by lia. lia.
Qed.

Lemma be_bytes_inj n : forall x y, 0 <= x < 256 ^ Z.of_nat n -> 0 <= y < 256 ^ Z.of_nat n ->
  be_bytes n x = be_bytes n y -> x = y.
Proof.
  induction n as [|n IH]; intros x y Hx Hy E; [cbn in *; lia|]. cbn [be_bytes] in E.
  rewrite Nat2Z.inj_succ, Z.pow_succ_r in Hx, Hy by lia.
  apply app_inj_2 in E as [E1 E2]; [|done]. injection E2 as E2.
  apply byte_of_inj in E2; [|apply Z.mod_pos_bound; lia..].
  apply IH in E1; [|split; [apply Z.div_pos; lia|apply Z.div_lt_upper_bound; lia]..].
  rewrite (Z.div_mod x 256), (Z.div_mod y 256) by lia. congruence.
Qed.

Arguments be_bytes : simpl never.

Lemma span_id_valid n : 0 < n <= u64_max -> be_bytes 8 n <> SPAN_INVALID.
Proof.
  intros Hn E. assert (n = 0); [|lia]. apply (be_bytes_inj 8); [unfold u64_max in Hn; cbn; lia|cbn; lia|].
  rewrite E. reflexivity.
Qed.

(** A context whose identifiers have their widths and are not the invalid ones. *)
Definition valid_trace (t : RequestTrace) : Prop :=
  length (tr_trace_id t) = 16%nat /\ tr_trace_id t <> TRACE_INVALID /\
  length (tr_request_span_id t) = 8%nat /\ tr_request_span_id t <> SPAN_INVALID /\
  match tr_parent_span_id t with
  | Some p => length p = 8%nat /\ p <> SPAN_INVALID
  | None => True
  end.

Lemma root_valid nanos next : 0 < next < u64_max ->
  match nanos with Some n => 0 <= n | None => True end ->
  valid_trace (root (seed nanos) next).1.
Proof.
  intros Hn Hs. unfold root, next_trace_id, next_span_id, next_id. cbn [fst]. unfold valid_trace.
  cbn [tr_trace_id tr_request_span_id tr_parent_span_id]. rewrite length_app, !be_bytes_length.
  assert (Hw : wrap64 (next + 1) = next + 1) by (unfold wrap64, u64_max in *; apply Z.mod_small; lia).
  split_and!; [done| |done| |done].
  - intros E. assert (E' : be_bytes 8 next = replicate 8 (byte_of 0)).
    { apply (f_equal (drop 8)) in E. rewrite drop_app_length' in E by (symmetry; apply be_bytes_length). exact E. }
    apply (span_id_valid next); [lia|exact E'].
  - rewrite Hw. apply span_id_valid. lia.
Qed.

Lemma from_traceparent_valid s next t next' : 0 < next <= u64_max ->
  from_traceparent s next = (Some t, next') -> valid_trace t /\ tr_request_span_id t = be_bytes 8 next.
Proof.
  intros Hn. unfold from_traceparent. destruct (split_on "-" s) as [|v [|tr [|sp [|fl [|]]]]]; try done.
  destruct (negb _); [done|].
  destruct (hex_decode tr) as [tb|]; [|done]. cbn [mbind option_bind].
  destruct (Nat.eqb_spec (length tb) 16) as [Ht|]; [|done].
  destruct (hex_decode sp) as [sb|]; [|done]. cbn [mbind option_bind].
  destruct (Nat.eqb_spec (length sb) 8) as [Hs|]; [|done].
  destruct (bytes_eqb tb _) eqn:E1; [done|]. destruct (bytes_eqb sb _) eqn:E2; [done|]. cbn [orb].
  destruct (u8_from_hex fl); [|done]. intros [= <- _]. split; [|done].
  assert (Hne : forall a b, bytes_eqb a b = false -> a <> b)
    by (intros a b Hf ->; by rewrite (proj2 (bytes_eqb_eq b b) eq_refl) in Hf).
  unfold valid_trace. cbn [tr_trace_id tr_request_span_id tr_parent_span_id].
  rewrite be_bytes_length. split_and!; auto. by apply span_id_valid.
Qed.

(** ** Theorems *)

(** A trace context survives the wire: what one proxy sends as [traceparent], the next
    continues, with the same trace, the sender's request span as its remote parent, a span id
    of its own and the same sampling decision.  This holds of every context the process makes,
    a fresh root or a continuation, and the span it mints is never the inbound one's. *)
Theorem traceparent_round_trip (t : RequestTrace) (next : Z) :
  valid_trace t ->
  from_traceparent (to_traceparent t) next
  = (Some (mkTrace (tr_trace_id t) (Some (tr_request_span_id t)) (be_bytes 8 next)
             (if is_sampled t then 1 else 0)), wrap64 (next + 1)).
Proof.
  intros (Ht & Htv & Hs & Hsv & _). unfold from_traceparent, to_traceparent.
  change (bs "00-" ++ hex_encode (tr_trace_id t) ++ bs "-" ++ ?r)
    with (bs "00" ++ "-"%char :: hex_encode (tr_trace_id t) ++ "-"%char :: r).
  rewrite split_on_app by (apply (bool_decide_unpack _); vm_compute; exact I).
  rewrite split_on_app by apply hex_no_dash.
  change (hex_encode (tr_request_span_id t) ++ bs "-" ++ ?r)
    with (hex_encode (tr_request_span_id t) ++ "-"%char :: r).
  rewrite split_on_app by apply hex_no_dash.
  rewrite split_on_no_sep by (destruct (is_sampled t); apply (bool_decide_unpack _); vm_compute; exact I).
  change (negb (bytes_eqb (bs "00") (bs "00"))) with false.
  rewrite !hex_round_trip. cbn [mbind option_bind].
  rewrite (proj2 (Nat.eqb_eq _ _) Ht), (proj2 (Nat.eqb_eq _ _) Hs).
  assert (Hne : forall a b : bytes, a <> b -> bytes_eqb a b = false)
    by (intros a b Hab; apply bool_decide_eq_false; exact Hab).
  rewrite (Hne _ _ Htv), (Hne _ _ Hsv). cbn [orb]. by destruct (is_sampled t).
Qed.

Lemma count_slot_length bounds : forall slots d, length (count_slot bounds slots d) = length slots.
Proof.
  induction bounds as [|b bounds IH]; intros [|x slots] d; try done. cbn [count_slot].
  destruct (_ <=? _); [done|]. cbn [length]. by rewrite IH.
Qed.

Lemma count_slot_prefix bounds : forall slots d i b,
  StronglySorted Z.le bounds -> length slots = length bounds ->
  Forall (fun x => 0 <= x < u64_max) slots -> bounds !! i = Some b ->
  sumZ (take (S i) (count_slot bounds slots d))
  = sumZ (take (S i) slots) + (if d <=? b then 1 else 0).
Proof.
  induction bounds as [|b0 bounds IH]; intros [|x slots] d i b Hs Hl Hx Hb; try done.
  inversion Hs as [|? ? Hs' Hle]; subst. apply Forall_cons in Hx as [Hx0 Hx].
  cbn [count_slot]. destruct (Z.leb_spec d b0) as [Hd|Hd].
  - assert (Hbb : b0 <= b).
    { destruct i as [|i]; cbn in Hb; [by injection Hb as ->; lia|].
      rewrite Forall_forall in Hle. apply Hle. by eapply list_elem_of_lookup_2. }
    rewrite (proj2 (Z.leb_le d b)) by lia. cbn [take sumZ].
    unfold wrapping_add, wrap64, u64_max in *. rewrite Z.mod_small by lia. lia.
  - destruct i as [|i]; cbn in Hb.
    + injection Hb as ->. rewrite (proj2 (Z.leb_gt d b)) by lia. cbn. rewrite !firstn_O. lia.
    + change (x + sumZ (take (S i) (count_slot bounds slots d))
        = x + sumZ (take (S i) slots) + (if d <=? b then 1 else 0)).
      rewrite (IH slots d i b); [lia|done|by injection Hl|done|done].
Qed.

(** The slots, never negative, add up to at most what was recorded. *)
Lemma count_slot_bound bounds : forall slots d,
  Forall (fun x => 0 <= x < u64_max) slots ->
  Forall (fun x => 0 <= x) (count_slot bounds slots d) /\
  sumZ (count_slot bounds slots d) <= sumZ slots + 1.
Proof.
  induction bounds as [|b bounds IH]; intros slots d Hx.
  { destruct slots; (split; [eapply Forall_impl; [exact Hx|cbn; lia]|cbn; lia]). }
  destruct slots as [|x slots]; [split; [constructor|cbn; lia]|].
  apply Forall_cons in Hx as [Hx0 Hx]. cbn [count_slot]. destruct (_ <=? _).
  - split.
    + constructor; [apply wrap64_u64|]. eapply Forall_impl; [exact Hx|]. cbn. lia.
    + cbn [sumZ]. unfold wrapping_add, wrap64, u64_max in *. rewrite Z.mod_small by lia. lia.
  - destruct (IH slots d Hx) as [H1 H2]. split; [constructor; [lia|done]|]. cbn [sumZ]. lia.
Qed.

Lemma sum_bounds_each (l : list Z) n : Forall (fun x => 0 <= x) l -> sumZ l <= n ->
  Forall (fun x => 0 <= x <= n) l.
Proof.
  induction 1 as [|x l Hx Hl IH]; intros Hn; [constructor|]. cbn [sumZ] in Hn.
  pose proof (sumZ_nonneg l Hl). constructor; [lia|]. apply IH. lia.
Qed.

(** The tallied histogram is exact: after any executions (fewer than a counter can hold) the
    slots up to a bound add up to the executions that took at most that long, and the count is
    their number. *)
Theorem inline_histogram_exact (ds : list Z) :
  Z.of_nat (length ds) <= u64_max ->
  let m := fold_left record_duration ds inline_new in
  im_count m = Z.of_nat (length ds) /\
  forall i bound, INLINE_DURATION_BUCKETS !! i = Some bound ->
    sumZ (take (S i) (im_buckets m)) = Z.of_nat (length (filter (fun d => d <= bound) ds)).
Proof.
  cbv zeta. intros Hlen.
  assert (Hs : StronglySorted Z.le INLINE_DURATION_BUCKETS) by (repeat constructor; lia).
  enough (Hinv : forall ds, Z.of_nat (length ds) <= u64_max ->
    let m := fold_left record_duration ds inline_new in
    im_count m = Z.of_nat (length ds) /\ length (im_buckets m) = length INLINE_DURATION_BUCKETS /\
    Forall (fun x => 0 <= x) (im_buckets m) /\ sumZ (im_buckets m) <= Z.of_nat (length ds) /\
    forall i bound, INLINE_DURATION_BUCKETS !! i = Some bound ->
      sumZ (take (S i) (im_buckets m)) = Z.of_nat (length (filter (fun d => d <= bound) ds))).
  { destruct (Hinv ds Hlen) as (? & _ & _ & _ & ?). done. }
  clear ds Hlen. intros ds. induction ds as [|d ds IH] using rev_ind; intros Hlen; cbv zeta.
  { split_and!; [done|done|by repeat constructor|cbn; lia|]. intros i bound Hb.
    do 12 (destruct i as [|i]; [done|]). done. }
  rewrite length_app in Hlen. cbn [length] in Hlen.
  destruct (IH ltac:(lia)) as (Hc & Hl & Hp & Hsum & Hx). rewrite fold_left_app. cbn [fold_left].
  set (m := fold_left record_duration ds inline_new) in *.
  assert (Hb : Forall (fun x => 0 <= x < u64_max) (im_buckets m)).
  { eapply Forall_impl; [exact (sum_bounds_each _ _ Hp Hsum)|]. cbn. lia. }
  destruct (count_slot_bound INLINE_DURATION_BUCKETS (im_buckets m) d Hb) as [Hp' Hsum'].
  unfold record_duration. cbn [im_count im_buckets]. rewrite length_app. cbn [length]. split_and!.
  - rewrite Hc. unfold wrapping_add, wrap64, u64_max in *. rewrite Z.mod_small; lia.
  - by rewrite count_slot_length.
  - done.
  - lia.
  - intros i bound Hbd. rewrite (count_slot_prefix _ _ _ _ _ Hs Hl Hb Hbd), (Hx i bound Hbd).
    rewrite filter_app, length_app, filter_cons, filter_nil.
    destruct (Z.leb_spec d bound); case_decide; cbn [length]; lia.
Qed.

(** The in-memory sink keeps exactly the latest spans, oldest first. *)
Theorem retained_spans_latest (spans : list FilterSpan) :
  fold_left retain_span spans [] = drop (length spans - MAX_RETAINED_SPANS) spans.
Proof.
  induction spans as [|x spans IH] using rev_ind; [done|].
  rewrite fold_left_app, IH. cbn [fold_left]. unfold retain_span. rewrite length_drop, length_app. cbn [length].
  assert (Ht : forall n (l : list FilterSpan), tail (drop n l) = drop (S n) l).
  { induction n as [|n IHn]; intros [|y l]; try done. cbn [drop]. by rewrite IHn. }
  destruct (Nat.leb_spec MAX_RETAINED_SPANS (length spans - (length spans - MAX_RETAINED_SPANS))) as [Hf|Hf].
  - replace (length spans + 1 - MAX_RETAINED_SPANS)%nat with (S (length spans - MAX_RETAINED_SPANS)) by lia.
    assert (0 < MAX_RETAINED_SPANS)%nat by (apply Nat.ltb_lt; reflexivity).
    by rewrite Ht, drop_app_le by lia.
  - replace (length spans + 1 - MAX_RETAINED_SPANS)%nat with (length spans - MAX_RETAINED_SPANS)%nat by lia.
    by rewrite drop_app_le by lia.
Qed.

(** A flag field that is not two hexadecimal digits is continued all the same. *)
Example short_flags_accepted :
  let parent := bs "00-0af7651916cd43dd8448eb211c80319c-b7ad6b7169203331-" in
  map (fun flags => option_map tr_flags (from_traceparent (parent ++ bs flags) 1).1) ["1"; "+1"; "0001"]%string
  = [Some 1; Some 1; Some 1].
Proof. vm_compute. reflexivity. Qed.

Lemma traceparent_round_trip_witness :
  let t := (root (seed (Some 77)) 5).1 in
  tr_parent_span_id (default t (from_traceparent (to_traceparent t) 9).1) = Some (be_bytes 8 6).
Proof.
  cbv zeta. rewrite (traceparent_round_trip (root (seed (Some 77)) 5).1 9).
  - vm_compute. reflexivity.
  - apply root_valid; [vm_compute; split; reflexivity|vm_compute; discriminate].
Defined.

Lemma inline_histogram_exact_witness :
  sumZ (take 2 (im_buckets (fold_left record_duration [4000; 9999; 10000; 10001] inline_new))) = 3.
Proof.
  destruct (inline_histogram_exact [4000; 9999; 10000; 10001]) as [_ Hb]; [vm_compute; discriminate|].
  rewrite (Hb 1%nat 10000 eq_refl). vm_compute. reflexivity.
Defined.
