(* ===== verification/Supervise.v ===== *)
(** * The upstream supervisors (server/src/health.rs, server/src/dns.rs)

    One task probes every upstream instance on its group's interval and one re-resolves the
    host names of the resolving groups.  The network is an input: what a probe request came
    back with, and what the resolver answered (as printed socket addresses).  Whether an
    address is a socket-address literal is the standard library's parser and a parameter.
    Durations are milliseconds. *)

From stdpp Require Import pretty sorting.
From S2P Require Import Prelude Bytes Manifest Upstream Balancer Registry Headers.

(** ** Probing *)

Definition probe_address (address : bytes) (port : option Z) : bytes :=
  match port, rsplit_once ":" address with
  | Some port, Some (host, _) => host ++ bs ":" ++ bs (pretty (Z.to_N port))
  | _, _ => address
  end.

(** What the request came to within the timeout; [PoBadRequest] is a request that could not be
    built. *)
Inductive ProbeOutcome := PoBadRequest | PoStatus (status : Z) | PoError | PoTimeout.

Definition probe_uri (scheme : bytes) (health : HealthConfig) (address : bytes) : bytes :=
  scheme ++ bs "://" ++ probe_address address (hl_port health) ++ hl_path health.

Definition probe_once (outcome : ProbeOutcome) (i : Inst) : Inst :=
  match outcome with
  | PoStatus status =>
    if (200 <=? status) && (status <? 300) then record_probe_success i else record_probe_failure i
  | PoBadRequest | PoError | PoTimeout => record_probe_failure i
  end.

(** A group as the supervisor reads it: name, interval, and its instances in order. *)
Record Probed := mkProbed {
  pb_name : bytes;
  pb_interval_ms : Z;
  pb_instances : list (nat * bytes);
}.

Definition ProbeKey : Type := bytes * bytes.

Record TickState := mkTick {
  ts_last : gmap ProbeKey Z;
  ts_live : gset ProbeKey;
  ts_probes : list nat;
  ts_period : Z;
}.

Definition probe_interval (g : Probed) : Z := Z.max (pb_interval_ms g) 1.

Definition due (now interval : Z) (last : option Z) : bool :=
  match last with Some t => interval <=? now - t | None => true end.

Definition visit (now : Z) (g : Probed) (s : TickState) (inst : nat * bytes) : TickState :=
  let key := (pb_name g, inst.2) in
  if due now (probe_interval g) (ts_last s !! key)
  then mkTick (<[key := now]> (ts_last s)) ({[key]} ∪ ts_live s) (ts_probes s ++ [inst.1]) (ts_period s)
  else mkTick (ts_last s) ({[key]} ∪ ts_live s) (ts_probes s) (ts_period s).

Definition visit_group (now : Z) (s : TickState) (g : Probed) : TickState :=
  let s := mkTick (ts_last s) (ts_live s) (ts_probes s) (Z.min (ts_period s) (probe_interval g)) in
  fold_left (visit now g) (pb_instances g) s.

(** One turn of the loop: the kept clock, the instances probed, and the sleep. *)
Definition health_tick (now : Z) (groups : list Probed) (last : gmap ProbeKey Z)
    : gmap ProbeKey Z * list nat * Z :=
  let s := fold_left (visit_group now) groups (mkTick last ∅ [] 5000) in
  (filter (fun kt => kt.1 ∈ ts_live s) (ts_last s), ts_probes s, Z.max (ts_period s) 20).

(** ** Re-resolution *)

Section dns.
Context (is_socket_addr : bytes -> bool).

(** One address of the group. *)
Definition resolve_one (resolver : bytes -> option (list bytes))
    (acc : list (bytes * Z) * gmap bytes (list bytes)) (a : bytes * Z)
    : list (bytes * Z) * gmap bytes (list bytes) :=
  let '(resolved, last_good) := acc in
  let '(addr, weight) := a in
  if is_socket_addr addr then (resolved ++ [(addr, weight)], last_good)
  else
    match resolver addr with
    | Some ((_ :: _) as addrs) =>
      let expansion := dedup (merge_sort bytes_le addrs) in
      (resolved ++ map (fun x => (x, weight)) expansion, <[addr := expansion]> last_good)
    | _ =>
      match last_good !! addr with
      | Some last => (resolved ++ map (fun x => (x, weight)) last, last_good)
      | None => (resolved ++ [(addr, weight)], last_good)
      end
    end.

(** [refresh_group] up to [update_endpoints]. *)
Definition refresh_group (configured : list (bytes * Z)) (resolver : bytes -> option (list bytes))
    (last_good : gmap bytes (list bytes)) : list (bytes * Z) * gmap bytes (list bytes) :=
  let last_good := filter (fun kv => kv.1 ∈ map fst configured) last_good in
  fold_left (resolve_one resolver) configured ([], last_good).

(** The supervisor's tick: the groups that start a refresh, the bookkeeping kept, the sleep.
    [locked] are the groups whose previous refresh still runs; their turn passes. *)
Record RefreshState := mkRefresh {
  rf_last_run : gmap bytes Z;
  rf_last_good : gmap bytes (gmap bytes (list bytes));
}.

Definition refresh_visit (now : Z) (locked : gset bytes)
    (acc : RefreshState * list bytes * gset bytes * Z) (g : bytes * option Z)
    : RefreshState * list bytes * gset bytes * Z :=
  let '(s, started, live, period) := acc in
  match g.2 with
  | None => acc
  | Some interval =>
    let period := Z.min period interval in
    let live := {[g.1]} ∪ live in
    if due now interval (rf_last_run s !! g.1)
    then
      let cache := default ∅ (rf_last_good s !! g.1) in
      (mkRefresh (<[g.1 := now]> (rf_last_run s)) (<[g.1 := cache]> (rf_last_good s)),
        (if bool_decide (g.1 ∈ locked) then started else started ++ [g.1]), live, period)
    else (s, started, live, period)
  end.

Definition refresh_tick (now : Z) (locked : gset bytes) (groups : list (bytes * option Z))
    (s : RefreshState) : RefreshState * list bytes * Z :=
  let '(s, started, live, period) := fold_left (refresh_visit now locked) groups (s, [], ∅, 5000) in
  (mkRefresh (filter (fun kv => kv.1 ∈ live) (rf_last_run s))
     (filter (fun kv => kv.1 ∈ live) (rf_last_good s)), started, period).
End dns.


(** ** What a tick probes *)

(** The instances of a tick in visiting order: clock key, interval, instance. *)
Definition visits (groups : list Probed) : list (ProbeKey * (Z * nat)) :=
  flat_map (fun g => map (fun inst => ((pb_name g, inst.2), (probe_interval g, inst.1)))
    (pb_instances g)) groups.

Definition visit_one (now : Z) (s : TickState) (v : ProbeKey * (Z * nat)) : TickState :=
  if due now v.2.1 (ts_last s !! v.1)
  then mkTick (<[v.1 := now]> (ts_last s)) ({[v.1]} ∪ ts_live s) (ts_probes s ++ [v.2.2]) (ts_period s)
  else mkTick (ts_last s) ({[v.1]} ∪ ts_live s) (ts_probes s) (ts_period s).

Definition due_visit (now : Z) (last : gmap ProbeKey Z) (v : ProbeKey * (Z * nat)) : bool :=
  due now v.2.1 (last !! v.1).

Definition set_period (s : TickState) (p : Z) : TickState :=
  mkTick (ts_last s) (ts_live s) (ts_probes s) p.

Lemma visit_one_period now s v p :
  visit_one now (set_period s p) v = set_period (visit_one now s v) p.
Proof. unfold visit_one. cbn. by destruct (due _ _ _). Qed.

Lemma visits_fold now s groups :
  fold_left (visit_group now) groups s =
    set_period (fold_left (visit_one now) (visits groups) s)
      (fold_left Z.min (map probe_interval groups) (ts_period s)).
Proof.
  assert (Hp : forall vs s p, fold_left (visit_one now) vs (set_period s p)
    = set_period (fold_left (visit_one now) vs s) p).
  { induction vs as [|v vs IH]; intros s' p; [done|]. cbn [fold_left]. by rewrite visit_one_period. }
  revert s. induction groups as [|g groups IH]; intros s; [by destruct s|].
  cbn [fold_left visits flat_map map]. rewrite IH. unfold visit_group.
  fold (set_period s (Z.min (ts_period s) (probe_interval g))). fold (visits groups).
  rewrite fold_left_app.
  assert (Hi : forall l s', fold_left (visit now g) l s' =
    fold_left (visit_one now)
      (map (fun inst => ((pb_name g, inst.2), (probe_interval g, inst.1))) l) s').
  { induction l as [|i l IHl]; intros s'; [done|]. cbn [fold_left map]. by rewrite <- IHl. }
  rewrite Hi, Hp, Hp. unfold set_period at 1 2 4. cbn. f_equal.
Qed.

Lemma visit_fold_spec now vs s :
  NoDup (map fst vs) ->
  let s' := fold_left (visit_one now) vs s in
  ts_probes s' = ts_probes s ++ map (fun v => v.2.2) (List.filter (due_visit now (ts_last s)) vs) /\
  (forall v, v ∈ vs -> ts_last s' !! v.1 =
     if due_visit now (ts_last s) v then Some now else ts_last s !! v.1) /\
  (forall k, k ∉ map fst vs -> ts_last s' !! k = ts_last s !! k) /\
  (forall k, k ∈ ts_live s' <-> k ∈ ts_live s \/ k ∈ map fst vs).
Proof.
  revert s. induction vs as [|v vs IH]; intros s Hn; cbn [fold_left map List.filter].
  { rewrite app_nil_r. repeat split; try done; [intros v Hv; by apply elem_of_nil in Hv|tauto|].
    intros [?|Hk]; [done|by apply elem_of_nil in Hk]. }
  rewrite map_cons in *. apply NoDup_cons in Hn as [Hv Hn]. destruct (IH (visit_one now s v) Hn) as (H1 & H2 & H3 & H4).
  assert (Hl : forall k, k <> v.1 -> ts_last (visit_one now s v) !! k = ts_last s !! k).
  { intros k Hk. unfold visit_one. destruct (due _ _ _); cbn; [by rewrite lookup_insert_ne|done]. }
  assert (Hd : forall w, w ∈ vs -> due_visit now (ts_last (visit_one now s v)) w = due_visit now (ts_last s) w).
  { intros w Hw. unfold due_visit. rewrite Hl; [done|]. intros E. apply Hv. rewrite <- E.
    by apply (list_elem_of_fmap_2 fst). }
  assert (Hm : ts_last (visit_one now s v) !! v.1 =
    if due_visit now (ts_last s) v then Some now else ts_last s !! v.1).
  { unfold visit_one. unfold due_visit. destruct (due _ _ _); cbn; [by rewrite lookup_insert_eq|done]. }
  assert (Hf : List.filter (due_visit now (ts_last (visit_one now s v))) vs
    = List.filter (due_visit now (ts_last s)) vs).
  { apply filter_ext_in. intros w Hw. apply Hd. by apply list_elem_of_In. }
  split_and!.
  - rewrite H1, Hf. unfold visit_one. fold (due_visit now (ts_last s) v).
    destruct (due_visit now (ts_last s) v); cbn; [by rewrite <- app_assoc|done].
  - intros w [->|Hw]%elem_of_cons; [by rewrite (H3 v.1 Hv)|]. rewrite (H2 w Hw), (Hd w Hw).
    destruct (due_visit now (ts_last s) w); [done|]. apply Hl. intros E. apply Hv. rewrite <- E.
    by apply (list_elem_of_fmap_2 fst).
  - intros k Hk. apply not_elem_of_cons in Hk as [Hk1 Hk2]. by rewrite H3, Hl.
  - intros k. rewrite H4. unfold visit_one. destruct (due _ _ _); cbn; set_solver.
Qed.

Lemma fold_min_le l p : fold_left Z.min l p <= p /\ Forall (fun x => fold_left Z.min l p <= x) l.
Proof.
  revert p. induction l as [|x l IH]; intros p; cbn [fold_left]; [split; [lia|constructor]|].
  destruct (IH (Z.min p x)) as [H1 H2]. split; [lia|]. constructor; [lia|done].
Qed.

(** A tick probes exactly the due instances, in order; its clock holds the live keys only, each at
    its latest probe; the loop then sleeps at least 20ms, at most 5s, and no longer than any
    group's interval allows. *)
Lemma health_tick_spec now groups last :
  NoDup (map fst (visits groups)) ->
  let '(clock, probes, sleep) := health_tick now groups last in
  probes = map (fun v => v.2.2) (List.filter (due_visit now last) (visits groups)) /\
  (forall v, v ∈ visits groups ->
     clock !! v.1 = if due_visit now last v then Some now else last !! v.1) /\
  (forall k, k ∉ map fst (visits groups) -> clock !! k = None) /\
  20 <= sleep <= 5000 /\ (forall g, g ∈ groups -> sleep <= Z.max 20 (probe_interval g)).
Proof.
  intros Hn. unfold health_tick. rewrite visits_fold.
  destruct (visit_fold_spec now (visits groups) (mkTick last ∅ [] 5000) Hn) as (H1 & H2 & H3 & H4).
  cbn [ts_probes ts_last ts_live ts_period set_period] in *.
  destruct (fold_min_le (map probe_interval groups) 5000) as [H5 H6].
  split_and!; try lia.
  - by rewrite H1.
  - intros v Hv. rewrite <- (H2 v Hv), map_lookup_filter.
    assert (v.1 ∈ ts_live (fold_left (visit_one now) (visits groups) (mkTick last ∅ [] 5000))).
    { apply H4. right. by apply (list_elem_of_fmap_2 fst). }
    destruct (_ !! v.1); cbn; [|done]. by rewrite option_guard_True.
  - intros k Hk. rewrite map_lookup_filter. destruct (_ !! k); cbn; [|done].
    rewrite option_guard_False; [done|]. cbn. rewrite H4. set_solver.
  - intros g Hg. rewrite Forall_forall in H6.
    pose proof (H6 (probe_interval g) (list_elem_of_fmap_2 probe_interval _ _ Hg)). lia.
Qed.

(** The supervisor over the clock readings of its ticks, with the instances each probed. *)
Fixpoint health_run (groups : list Probed) (last : gmap ProbeKey Z) (times : list Z)
    : list (Z * list nat) :=
  match times with
  | [] => []
  | now :: times =>
    let '(clock, probes, _) := health_tick now groups last in
    (now, probes) :: health_run groups clock times
  end.

Section probing.
Context (groups : list Probed) (v : ProbeKey * (Z * nat)).
Hypothesis Hkeys : NoDup (map fst (visits groups)).
Hypothesis Hids : NoDup (map (fun v => v.2.2) (visits groups)).
Hypothesis Hv : v ∈ visits groups.

(** The tick in terms of one instance. *)
Lemma tick_one now last clock probes sleep :
  health_tick now groups last = (clock, probes, sleep) ->
  (v.2.2 ∈ probes <-> due_visit now last v = true) /\
  clock !! v.1 = if due_visit now last v then Some now else last !! v.1.
Proof.
  intros Ht. pose proof (health_tick_spec now groups last Hkeys) as H. rewrite Ht in H.
  destruct H as (-> & Hc & _). split; [|by apply Hc]. rewrite list_elem_of_fmap. split.
  - intros (w & E & Hw). apply list_elem_of_In, filter_In in Hw as [Hw Hd].
    apply list_elem_of_In in Hw.
    assert (v = w) as <-; [|done].
    apply list_elem_of_lookup in Hw as [i Hi]. apply list_elem_of_lookup in Hv as [j Hj].
    assert (i = j) as ->; [|congruence].
    apply (NoDup_lookup _ _ _ v.2.2 Hids); rewrite list_lookup_fmap; [by rewrite Hi, E|by rewrite Hj].
  - intros Hd. exists v. split; [done|]. apply list_elem_of_In, filter_In. split; [|done].
    by apply list_elem_of_In.
Qed.

(** An instance recorded at [u] is probed within any later ticks that reach [u + interval]. *)
Lemma probed_by last times t' u :
  StronglySorted Z.le (times ++ [t']) -> last !! v.1 = Some u -> v.2.1 <= t' - u ->
  exists now probes, (now, probes) ∈ health_run groups last (times ++ [t']) /\ v.2.2 ∈ probes.
Proof.
  revert last. induction times as [|now times IH]; intros last Hs Hu Hle.
  - cbn [app health_run]. destruct (health_tick t' groups last) as [[clock probes] sleep] eqn:Ht.
    exists t', probes. split; [by left|]. apply (tick_one _ _ _ _ _ Ht).
    unfold due_visit, due. rewrite Hu. by apply Z.leb_le.
  - cbn [app health_run] in *. destruct (health_tick now groups last) as [[clock probes] sleep] eqn:Ht.
    destruct (tick_one _ _ _ _ _ Ht) as [Hp Hc]. destruct (due_visit now last v) eqn:Hd.
    + exists now, probes. split; [by left|]. by apply Hp.
    + inversion Hs; subst. destruct (IH clock) as (n & p & Hin & Hp'); [done|by rewrite Hc|done|].
      exists n, p. split; [by right|done].
Qed.

(** No probe within [interval] of the recorded one. *)
Lemma not_probed_before last times u now probes :
  StronglySorted Z.le times -> last !! v.1 = Some u -> Forall (Z.le u) times ->
  (now, probes) ∈ health_run groups last times -> v.2.2 ∈ probes -> v.2.1 <= now - u.
Proof.
  revert last u. induction times as [|a times IH]; intros last u Hs Hu Hall Hin Hp; [by apply elem_of_nil in Hin|].
  cbn [health_run] in Hin. destruct (health_tick a groups last) as [[clock probes'] sleep] eqn:Ht.
  destruct (tick_one _ _ _ _ _ Ht) as [Hp' Hc].
  apply Forall_cons in Hall as [Ha Hall]. inversion Hs as [|? ? Hs' Hle]; subst.
  apply elem_of_cons in Hin as [[= -> ->]|Hin].
  - apply Hp' in Hp. unfold due_visit, due in Hp. rewrite Hu in Hp. by apply Z.leb_le.
  - destruct (due_visit a last v).
    + assert (v.2.1 <= now - a) by (by apply (IH clock a)). lia.
    + apply (IH clock u); [done|by rewrite Hc|done|done|done].
Qed.
End probing.

(** Probing neither starves nor floods an instance: over any window of supervisor ticks that
    spans the instance's interval it is probed at least once, whatever the clock already
    recorded for it; and two probes of it are at least its interval apart. *)
Theorem probing_paced (groups : list Probed) (v : ProbeKey * (Z * nat)) (last : gmap ProbeKey Z)
    (t : Z) (times : list Z) (t' : Z) :
  NoDup (map fst (visits groups)) -> NoDup (map (fun v => v.2.2) (visits groups)) ->
  v ∈ visits groups -> StronglySorted Z.le (t :: times ++ [t']) ->
  (forall u, last !! v.1 = Some u -> u <= t) ->
  (v.2.1 <= t' - t ->
   exists now probes, (now, probes) ∈ health_run groups last (t :: times ++ [t']) /\ v.2.2 ∈ probes) /\
  (forall a p, head (health_run groups last (t :: times ++ [t'])) = Some (a, p) -> v.2.2 ∈ p ->
   forall now probes, (now, probes) ∈ tail (health_run groups last (t :: times ++ [t'])) ->
     v.2.2 ∈ probes -> v.2.1 <= now - a).
Proof.
  intros Hk Hi Hv Hs Hlast. cbn [health_run]. inversion Hs as [|? ? Hs' Hle]; subst.
  destruct (health_tick t groups last) as [[clock probes] sleep] eqn:Ht.
  destruct (tick_one groups v Hk Hi Hv _ _ _ _ _ Ht) as [Hp Hc]. split.
  - intros Hspan. destruct (due_visit t last v) eqn:Hd.
    + exists t, probes. split; [by left|]. by apply Hp.
    + unfold due_visit, due in Hd. destruct (last !! v.1) as [u|] eqn:Eu; [|done].
      destruct (probed_by groups v Hk Hi Hv clock times t' u) as (n & p & Hin & Hn); [done|done| |].
      { specialize (Hlast u eq_refl). lia. }
      exists n, p. split; [by right|done].
  - intros a p [= <- <-] Hin now probes' Hrun Hp'. apply Hp in Hin. rewrite Hin in Hc.
    by apply (not_probed_before groups v Hk Hi Hv clock (times ++ [t']) t now probes').
Qed.

(** One instance on a 100ms interval: ticks at 0, 60 and 100. *)
Lemma probing_paced_witness :
  exists now probes,
    (now, probes) ∈ health_run [mkProbed (bs "api") 100 [(7%nat, bs "10.0.0.1:80")]] ∅ (0 :: [60] ++ [100]) /\
    7%nat ∈ probes.
Proof.
  pose (k := (bs "api", bs "10.0.0.1:80") : ProbeKey).
  apply (proj1 (probing_paced [mkProbed (bs "api") 100 [(7%nat, bs "10.0.0.1:80")]]
    (k, (100, 7%nat)) ∅ 0 [60] 100
    (NoDup_singleton _) (NoDup_singleton _)
    ltac:(by left) ltac:(repeat constructor; lia) ltac:(intros u; cbn; by rewrite lookup_empty))).
  cbn. lia.
Defined.

(** A second visit under the same clock key probes nothing. *)
Lemma visit_again now s k i a b :
  1 <= i -> ts_probes (visit_one now (visit_one now s (k, (i, a))) (k, (i, b)))
    = ts_probes (visit_one now s (k, (i, a))).
Proof.
  intros Hi. unfold visit_one at 2 3. cbn [fst snd]. destruct (due now i (ts_last s !! k)) eqn:Hd;
    unfold visit_one; cbn [fst snd ts_last ts_probes].
  - rewrite lookup_insert_eq. unfold due. destruct (Z.leb_spec i (now - now)); [lia|done].
  - by rewrite Hd.
Qed.

(** Two instances of a group with one address share a probe clock, and the first to be visited
    takes every turn: the second is never probed, so it never leaves its pessimistic start. *)
Lemma shared_clock_starves (n a : bytes) interval last times now probes :
  (now, probes) ∈ health_run [mkProbed n interval [(0%nat, a); (1%nat, a)]] last times ->
  1%nat ∉ probes.
Proof.
  revert last. induction times as [|t times IH]; intros last Hin; [by apply elem_of_nil in Hin|].
  cbn [health_run] in Hin. destruct (health_tick t _ last) as [[clock p] sleep] eqn:Ht.
  apply elem_of_cons in Hin as [[= -> ->]|Hin]; [|by apply (IH clock)].
  unfold health_tick in Ht. rewrite visits_fold in Ht. injection Ht as _ <- _.
  unfold visits, set_period. cbn [flat_map map app pb_name pb_instances fst snd fold_left ts_probes].
  rewrite visit_again by (unfold probe_interval; lia).
  unfold visit_one. destruct (due _ _ _); cbn; set_solver.
Qed.

(** ** What re-resolution serves *)

Section resolution.
Context (is_socket_addr : bytes -> bool).

(** The expansion remembered for a name after some answers, the latest last. *)
Definition remember (o : option (list bytes)) (answer : option (list bytes)) : option (list bytes) :=
  match answer with
  | Some ((_ :: _) as addrs) => Some (dedup (merge_sort bytes_le addrs))
  | _ => o
  end.

(** The endpoints a configured list stands for, given what each name last resolved to. *)
Definition served (known : bytes -> option (list bytes)) (configured : list (bytes * Z))
    : list (bytes * Z) :=
  flat_map (fun '(a, w) => map (fun x => (x, w)) (if is_socket_addr a then [a] else default [a] (known a)))
    configured.

Lemma resolve_fold resolver l acc m :
  let '(resolved, m') := fold_left (resolve_one is_socket_addr resolver) l (acc, m) in
  resolved = acc ++ served (fun a => remember (m !! a) (resolver a)) l /\
  (forall a, m' !! a =
     if bool_decide (a ∈ map fst l) && negb (is_socket_addr a) then remember (m !! a) (resolver a)
     else m !! a).
Proof.
  assert (Hidem : forall o a, remember (remember o a) a = remember o a) by (by intros o [[|]|]).
  revert acc m. induction l as [|[a w] l IH]; intros acc m.
  { split; [by rewrite app_nil_r|done]. }
  assert (Hstep : resolve_one is_socket_addr resolver (acc, m) (a, w) =
    (acc ++ map (fun x => (x, w)) (if is_socket_addr a then [a] else default [a] (remember (m !! a) (resolver a))),
     if is_socket_addr a then m else
       match resolver a with Some ((_ :: _) as addrs) => <[a := dedup (merge_sort bytes_le addrs)]> m | _ => m end)).
  { cbn. destruct (is_socket_addr a); [done|].
    destruct (resolver a) as [[|x xs]|]; cbn [remember]; [destruct (m !! a); done|done|destruct (m !! a); done]. }
  cbn [fold_left]. rewrite Hstep. set (m1 := if is_socket_addr a then m else _).
  assert (Hm1 : forall b, m1 !! b = if bool_decide (b = a) && negb (is_socket_addr a)
    then remember (m !! a) (resolver a) else m !! b).
  { intros b. subst m1. destruct (is_socket_addr a); [by rewrite andb_false_r|].
    destruct (decide (b = a)) as [->|Hne].
    - rewrite bool_decide_true by done. destruct (resolver a) as [[|x xs]|]; cbn [remember andb negb];
        [done|apply lookup_insert_eq|done].
    - rewrite bool_decide_false by done. destruct (resolver a) as [[|x xs]|]; [done| |done].
      by apply lookup_insert_ne. }
  specialize (IH (acc ++ map (fun x => (x, w)) (if is_socket_addr a then [a]
    else default [a] (remember (m !! a) (resolver a)))) m1).
  destruct (fold_left _ l _) as [resolved m']. destruct IH as [-> Hm'].
  assert (Hr : forall b, is_socket_addr b = false ->
    remember (m1 !! b) (resolver b) = remember (m !! b) (resolver b)).
  { intros b Hb. rewrite Hm1. case_bool_decide; [subst b|done]. rewrite Hb. apply Hidem. }
  split.
  - rewrite <- app_assoc. cbn [served flat_map]. do 2 f_equal. apply flat_map_ext. intros [b wb].
    destruct (is_socket_addr b) eqn:Hb; [done|]. by rewrite Hr.
  - intros b. rewrite Hm', map_cons. cbn [fst]. destruct (is_socket_addr b) eqn:Hb.
    + rewrite !andb_false_r, Hm1. case_bool_decide; [subst b; by rewrite Hb|done].
    + rewrite !andb_true_r, (Hr b Hb), Hm1.
      destruct (decide (b = a)) as [->|Hne].
      * rewrite Hb, (bool_decide_true (a ∈ a :: _)) by left. rewrite (bool_decide_true (a = a)) by done.
        by destruct (bool_decide _).
      * rewrite (bool_decide_false (b = a)) by done. cbn [andb].
        assert (Hiff : bool_decide (b ∈ a :: map fst l) = bool_decide (b ∈ map fst l)).
        { apply bool_decide_ext. set_solver. }
        by rewrite Hiff.
Qed.
End resolution.

(** The supervisor's refreshes of a group with a fixed configured list, over the resolver's
    answers at each: the endpoints handed to [update_endpoints] each time. *)
Fixpoint refreshes (is_socket_addr : bytes -> bool) (configured : list (bytes * Z))
    (cache : gmap bytes (list bytes)) (resolvers : list (bytes -> option (list bytes)))
    : list (list (bytes * Z)) :=
  match resolvers with
  | [] => []
  | r :: rest =>
    let '(resolved, cache) := refresh_group is_socket_addr configured r cache in
    resolved :: refreshes is_socket_addr configured cache rest
  end.

(** What the resolver's answers for one name amount to. *)
Definition remembered (resolvers : list (bytes -> option (list bytes))) (a : bytes)
    : option (list bytes) := fold_left remember (map (fun r => r a) resolvers) None.

(** Answers that list the same addresses, in any order and with any repetition. *)
Definition same_answer (x y : option (list bytes)) : Prop :=
  match x, y with
  | Some l, Some l' => forall a, a ∈ l <-> a ∈ l'
  | None, None => True
  | _, _ => False
  end.

Lemma remember_same o x y : same_answer x y -> remember o x = remember o y.
Proof.
  destruct x as [[|a l]|], y as [[|b l']|]; cbn [same_answer remember]; try done; intros H.
  - exfalso. by apply (not_elem_of_nil b), H; left.
  - exfalso. by apply (not_elem_of_nil a), H; left.
  - f_equal. by apply dedup_sort_ext.
Qed.

Lemma remembered_same rs rs' a :
  Forall2 (fun r r' => same_answer (r a) (r' a)) rs rs' -> remembered rs a = remembered rs' a.
Proof.
  unfold remembered. generalize (@None (list bytes)). intros o H. revert o.
  induction H as [|r r' rs rs' Hr _ IH]; intros o; [done|]. cbn [map fold_left].
  by rewrite (remember_same o _ _ Hr).
Qed.

Lemma remembered_nonempty rs a l : remembered rs a = Some l -> exists x, x ∈ l.
Proof.
  unfold remembered. assert (Ho : forall l : list bytes, None = Some l -> exists x : bytes, x ∈ l) by (by intros ? [=]).
  revert Ho. generalize (@None (list bytes)). induction rs as [|r rs IH]; intros o Ho Hr.
  - by apply Ho.
  - cbn [map fold_left] in Hr. apply (IH (remember o (r a))); [|done]. intros l' Hl'.
    destruct (r a) as [[|x xs]|]; cbn [remember] in Hl'; [by apply Ho| |by apply Ho].
    injection Hl' as <-. exists x. apply dedup_in. rewrite merge_sort_Permutation. by left.
Qed.

Lemma refreshes_served is_socket_addr configured cache rs o :
  (forall a, a ∈ map fst configured -> is_socket_addr a = false -> cache !! a = o a) ->
  forall i resolved, refreshes is_socket_addr configured cache rs !! i = Some resolved ->
  resolved = served is_socket_addr
    (fun a => fold_left remember (map (fun r => r a) (take (S i) rs)) (o a)) configured.
Proof.
  revert cache o. induction rs as [|r rs IH]; intros cache o Hc i resolved Hi; [done|].
  cbn [refreshes] in Hi. unfold refresh_group in Hi.
  set (m := filter _ cache) in Hi. pose proof (resolve_fold is_socket_addr r configured [] m) as H.
  destruct (fold_left _ configured ([], m)) as [res cache'] eqn:Ef. destruct H as [Hres Hc'].
  assert (Hm : forall a, a ∈ map fst configured -> is_socket_addr a = false -> m !! a = o a).
  { intros a Ha Hs. rewrite <- (Hc a Ha Hs). subst m. rewrite map_lookup_filter.
    destruct (cache !! a); cbn; [|done]. by rewrite option_guard_True. }
  destruct i as [|i]; cbn in Hi.
  - injection Hi as <-. rewrite Hres. cbn [app take map fold_left]. rewrite firstn_O. cbn [map fold_left].
    unfold served. rewrite !flat_map_concat_map. f_equal. apply map_ext_in. intros [a w] Ha.
    destruct (is_socket_addr a) eqn:Hs; [done|]. rewrite Hm; [done| |done].
    apply list_elem_of_In in Ha. apply (list_elem_of_fmap_2 fst _ _ Ha).
  - apply (IH cache' (fun a => remember (o a) (r a))); [|done].
    intros a Ha Hs. rewrite Hc', Hs, (Hm a Ha Hs), bool_decide_true by done. done.
Qed.

(** Whatever the resolver answered over any number of refreshes, each refresh hands the group,
    in configured order and with each address's weight, the literal itself, or the sorted
    distinct addresses of the name's latest non-empty answer, or the name itself while none
    came: an address never loses its endpoints to a failed or empty answer, and answers listing
    the same addresses in another order or with repeats change nothing. *)
Theorem reresolution_exact (is_socket_addr : bytes -> bool) (configured : list (bytes * Z))
    (rs : list (bytes -> option (list bytes))) (i : nat) (resolved : list (bytes * Z)) :
  refreshes is_socket_addr configured ∅ rs !! i = Some resolved ->
  resolved = served is_socket_addr (remembered (take (S i) rs)) configured /\
  (forall a w, (a, w) ∈ configured -> exists x, (x, w) ∈ resolved) /\
  (forall rs', Forall2 (fun r r' => forall a, same_answer (r a) (r' a)) rs rs' ->
     refreshes is_socket_addr configured ∅ rs' !! i = Some resolved).
Proof.
  assert (Hspec : forall rs j res, refreshes is_socket_addr configured ∅ rs !! j = Some res ->
    res = served is_socket_addr (remembered (take (S j) rs)) configured).
  { intros rs0 j res Hj. apply (refreshes_served is_socket_addr configured ∅ rs0 (fun _ => None)); [|done].
    intros a _ _. apply lookup_empty. }
  assert (Hlen : forall rs cache, length (refreshes is_socket_addr configured cache rs) = length rs).
  { induction rs0 as [|r rs0 IH]; intros cache; [done|]. cbn [refreshes].
    destruct (refresh_group _ _ _ _). cbn [length]. by rewrite IH. }
  intros Hi. pose proof (Hspec _ _ _ Hi) as ->. split; [done|]. split.
  - intros a w Ha. unfold served.
    assert (Hne : exists x, x ∈ (if is_socket_addr a then [a] else default [a] (remembered (take (S i) rs) a))).
    { destruct (is_socket_addr a); [exists a; by left|].
      destruct (remembered _ a) as [l|] eqn:El; [|exists a; by left].
      destruct (remembered_nonempty _ _ _ El) as [x Hx]. by exists x. }
    destruct Hne as [x Hx]. exists x. apply list_elem_of_In, in_flat_map. exists (a, w).
    split; [by apply list_elem_of_In|]. apply list_elem_of_In, list_elem_of_fmap. by exists x.
  - intros rs' Hrs. assert (Hl : (i < length rs')%nat).
    { apply lookup_lt_Some in Hi. rewrite Hlen in Hi. by rewrite <- (Forall2_length _ _ _ Hrs). }
    destruct (lookup_lt_is_Some_2 (refreshes is_socket_addr configured ∅ rs') i) as [res Hres];
      [by rewrite Hlen|]. rewrite Hres. f_equal. rewrite (Hspec _ _ _ Hres). unfold served.
    rewrite !flat_map_concat_map. f_equal. apply map_ext. intros [a w].
    destruct (is_socket_addr a); [done|].
    rewrite (remembered_same (take (S i) rs) (take (S i) rs') a); [done|].
    apply Forall2_take. apply (Forall2_impl _ _ _ _ Hrs). intros r r' Hr. apply Hr.
Qed.

(** A name resolves, fails, and resolves to the same set in another order. *)
Lemma reresolution_exact_witness :
  exists resolved, refreshes (fun _ => false) [(bs "db:1", 3)] ∅
      [(fun _ => Some [bs "b"; bs "a"; bs "b"]); (fun _ => None)] !! 1%nat = Some resolved /\
    resolved = [(bs "a", 3); (bs "b", 3)].
Proof.
  eexists. split; [vm_compute; reflexivity|].
  refine (proj1 (reresolution_exact (fun _ => false) [(bs "db:1", 3)]
    [(fun _ => Some [bs "b"; bs "a"; bs "b"]); (fun _ => None)] 1%nat [(bs "a", 3); (bs "b", 3)] _)).
  vm_compute. reflexivity.
Defined.
