(* ===== verification/OutboundTcp.v ===== *)
(** * Outbound TCP (host/src/outbound_tcp.rs)

    A filter with the capability connects through two seams: the host's name lookup, which vets
    and pins every address it hands out, and the connect gate, which wants the destination pinned
    for an allowlisted name or listed literally.  Live descriptors are capped per store and per
    host by two counters that every store's steps share.  The wasmtime socket implementation the
    views delegate to, address parsing and DNS answers are inputs. *)

From S2P Require Import Prelude Bytes Ssrf.

(** ** The per-store guard *)

Definition MAX_PINNED_IPS : Z := 1024.
Definition MAX_LIVE_TCP_SOCKETS_PER_STORE : Z := 64.
Definition MAX_LIVE_TCP_SOCKETS_PER_HOST : Z := 1024.

Inductive SocketAddrUse :=
| TcpConnect | TcpBind | TcpListen | TcpAccept | UdpBind | UdpSend | UdpReceive.
#[export] Instance SocketAddrUse_eq_dec : EqDecision SocketAddrUse.
Proof. solve_decision. Defined.

Inductive VettedResolveError := PermanentResolverFailure | NameUnresolvable.

Definition is_unspecified (ip : IpAddr) : bool :=
  bool_decide (ip = V4 0 0 0 0) || v6_is_unspecified ip.

Section guard.
Context {IpNet : Type} (contains : IpNet -> IpAddr -> bool) (parse_ip : bytes -> option IpAddr).

Record OutboundTcpPolicy := mkTcpPolicy {
  tp_allow : list TcpAllowEntry;
  tp_allow_private : list IpNet;
  tp_max_connections : Z;
  tp_io_deadline_ms : Z;
}.

(** The pinned set and the connects of the current request; the live-socket counter is below. *)
Record GuardInner := mkGuardInner {
  gi_pinned : gmap IpAddr (gset bytes);
  gi_connects : Z;
}.

Definition guard_new : GuardInner := mkGuardInner ∅ 0.

Definition begin_request (g : GuardInner) : GuardInner := mkGuardInner (gi_pinned g) 0.

(** The entry admits the destination: its port, and its literal or a name pinned to the address. *)
Definition entry_matches (g : GuardInner) (ip : IpAddr) (port : Z) (entry : TcpAllowEntry) : bool :=
  (te_port entry =? port)
  && (match parse_ip (te_host entry) with
      | Some lit => bool_decide (to_canonical lit = ip)
      | None => false
      end
      || match gi_pinned g !! ip with
         | Some names => bool_decide (to_ascii_lowercase (te_host entry) ∈ names)
         | None => false
         end).

Definition permits (policy : option OutboundTcpPolicy) (addr : IpAddr) (port : Z)
    (use : SocketAddrUse) (g : GuardInner) : bool * GuardInner :=
  match policy with
  | None => (false, g)
  | Some policy =>
    match use with
    | TcpBind => (is_unspecified addr && (port =? 0), g)
    | TcpListen | TcpAccept | UdpBind | UdpSend | UdpReceive => (false, g)
    | TcpConnect =>
      let ip := to_canonical addr in
      match classify contains ip (tp_allow_private policy) with
      | Allowed =>
        if existsb (entry_matches g ip port) (tp_allow policy) then
          if gi_connects g <? tp_max_connections policy
          then (true, mkGuardInner (gi_pinned g) (gi_connects g + 1))
          else (false, g)
        else (false, g)
      | _ => (false, g)
      end
    end
  end.

(** The pinning loop: stops at the cap, keeping what it pinned before. *)
Fixpoint pin_all (name : bytes) (ips : list IpAddr) (pinned : gmap IpAddr (gset bytes))
    : bool * gmap IpAddr (gset bytes) :=
  match ips with
  | [] => (true, pinned)
  | ip :: rest =>
    match pinned !! ip with
    | None =>
      if MAX_PINNED_IPS <=? Z.of_nat (size pinned) then (false, pinned)
      else pin_all name rest (<[ip := {[name]}]> pinned)
    | Some names => pin_all name rest (<[ip := {[name]} ∪ names]> pinned)
    end
  end.

(** [resolve_vetted]; [answer] is what the resolver says for the lowercased name. *)
Definition resolve_vetted (policy : option OutboundTcpPolicy) (answer : bytes -> option (list IpAddr))
    (name : bytes) (g : GuardInner) : result (list IpAddr) VettedResolveError * GuardInner :=
  match policy with
  | None => (Err PermanentResolverFailure, g)
  | Some policy =>
    let lower := to_ascii_lowercase name in
    if negb (allows_name (tp_allow policy) lower) then (Err PermanentResolverFailure, g)
    else
      match answer lower with
      | None | Some [] => (Err NameUnresolvable, g)
      | Some addrs =>
        let ips := map to_canonical addrs in
        if existsb (fun ip => negb (bool_decide (classify contains ip (tp_allow_private policy) = Allowed))) ips
        then (Err PermanentResolverFailure, g)
        else
          match pin_all lower ips (gi_pinned g) with
          | (true, pinned) => (Ok ips, mkGuardInner pinned (gi_connects g))
          | (false, pinned) => (Err PermanentResolverFailure, mkGuardInner pinned (gi_connects g))
          end
      end
  end.

(** ** The lookup stream of wasi:sockets 0.2 *)

Inductive StreamError := WouldBlock | LookupFailed (e : VettedResolveError).

Inductive PlectoResolveStream :=
| Waiting
| StreamDone (r : result (list IpAddr) VettedResolveError).

(** The refusals before the task is spawned; [Ok Waiting] is a stream on a lookup in flight. *)
Definition resolve_addresses (policy : option OutboundTcpPolicy) (name : bytes)
    : result PlectoResolveStream VettedResolveError :=
  match policy with
  | None => Err PermanentResolverFailure
  | Some policy =>
    if allows_name (tp_allow policy) (to_ascii_lowercase name) then Ok Waiting
    else Err PermanentResolverFailure
  end.

(** [polled] is the task's result when it has finished. *)
Definition resolve_next_address (polled : option (result (list IpAddr) VettedResolveError))
    (stream : PlectoResolveStream) : result (option IpAddr) StreamError * PlectoResolveStream :=
  let from r :=
    match r with
    | Ok [] => (Ok None, StreamDone (Ok []))
    | Ok (ip :: rest) => (Ok (Some ip), StreamDone (Ok rest))
    | Err e => (Err (LookupFailed e), StreamDone (Ok []))
    end in
  match stream with
  | Waiting =>
    match polled with
    | None => (Err WouldBlock, Waiting)
    | Some r => from r
    end
  | StreamDone r => from r
  end.

(** What a guest and the host do to a store's guard, and what came of it. *)
Inductive GuardEvent :=
| GeBegin
| GeLookup (name : bytes) (answer : option (list IpAddr))
| GeUse (addr : IpAddr) (port : Z) (use : SocketAddrUse).

Definition guard_step (policy : option OutboundTcpPolicy) (e : GuardEvent) (g : GuardInner)
    : bool * GuardInner :=
  match e with
  | GeBegin => (true, begin_request g)
  | GeLookup name answer =>
    let '(r, g) := resolve_vetted policy (fun _ => answer) name g in
    (match r with Ok _ => true | Err _ => false end, g)
  | GeUse addr port use => permits policy addr port use g
  end.

Fixpoint guard_run (policy : option OutboundTcpPolicy) (es : list GuardEvent) (g : GuardInner)
    : list bool * GuardInner :=
  match es with
  | [] => ([], g)
  | e :: es =>
    let '(ok, g) := guard_step policy e g in
    let '(oks, g) := guard_run policy es g in (ok :: oks, g)
  end.
End guard.

(** ** What the guard's history guarantees *)

Lemma classify_to_canonical {IpNet} (contains : IpNet -> IpAddr -> bool) ip nets :
  classify contains (to_canonical ip) nets = classify contains ip nets.
Proof.
  unfold classify. assert (E : canonicalize (to_canonical ip) = canonicalize ip); [|by rewrite E].
  unfold to_canonical. destruct ip as [a b c d|a b c d e f g h]; [done|].
  destruct (to_ipv4_mapped (V6 a b c d e f g h)) as [v4|] eqn:E; [|done].
  cbn [default from_option id]. unfold canonicalize at 2. rewrite E.
  cbn in E. destruct (_ && _); [|done]. by injection E as <-.
Qed.

Section history.
Context {IpNet : Type} (contains : IpNet -> IpAddr -> bool) (parse_ip : bytes -> option IpAddr).
Context (policy : @OutboundTcpPolicy IpNet).

(** Some past lookup of [name] produced [ip], every address of its answer being allowed. *)
Definition vetted_lookup (h : list (GuardEvent * bool)) (name : bytes) (ip : IpAddr) : Prop :=
  exists asked addrs ok,
    (GeLookup asked (Some addrs), ok) ∈ h /\ eq_ignore_ascii_case asked name = true /\
    allows_name (tp_allow policy) asked = true /\
    ip ∈ map to_canonical addrs /\
    Forall (fun a => classify contains a (tp_allow_private policy) = Allowed) addrs.

(** The connects granted since the request began. *)
Definition spent (h : list (GuardEvent * bool)) : Z :=
  fold_left (fun n eo =>
    match eo with
    | (GeBegin, _) => 0
    | (GeUse _ _ TcpConnect, true) => n + 1
    | _ => n
    end) h 0.

Record guard_ok (h : list (GuardEvent * bool)) (g : GuardInner) : Prop := {
  go_pins : forall ip names name, gi_pinned g !! ip = Some names -> name ∈ names ->
    vetted_lookup h name ip;
  go_size : Z.of_nat (size (gi_pinned g)) <= MAX_PINNED_IPS;
  go_spent : gi_connects g = spent h;
  go_budget : 0 <= gi_connects g;
}.

Lemma vetted_lookup_app h h' name ip : vetted_lookup h name ip -> vetted_lookup (h ++ h') name ip.
Proof.
  intros (asked & addrs & ok & Hin & Hrest). exists asked, addrs, ok. split; [|done].
  apply elem_of_app. by left.
Qed.

Lemma pin_all_spec name ips pinned ok pinned' :
  pin_all name ips pinned = (ok, pinned') -> Z.of_nat (size pinned) <= MAX_PINNED_IPS ->
  Z.of_nat (size pinned') <= MAX_PINNED_IPS /\
  forall ip names n, pinned' !! ip = Some names -> n ∈ names ->
    (exists names0, pinned !! ip = Some names0 /\ n ∈ names0) \/ (n = name /\ ip ∈ ips).
Proof.
  revert pinned. induction ips as [|x ips IH]; intros pinned Hp Hs.
  { injection Hp as _ <-. split; [done|]. intros ip names n Hip Hn. left. by exists names. }
  cbn [pin_all] in Hp.
  assert (Hnext : forall names', (forall n, n ∈ names' -> n = name \/ exists names0, pinned !! x = Some names0 /\ n ∈ names0) ->
    Z.of_nat (size (<[x := names']> pinned)) <= MAX_PINNED_IPS ->
    pin_all name ips (<[x := names']> pinned) = (ok, pinned') ->
    Z.of_nat (size pinned') <= MAX_PINNED_IPS /\
    forall ip names n, pinned' !! ip = Some names -> n ∈ names ->
      (exists names0, pinned !! ip = Some names0 /\ n ∈ names0) \/ (n = name /\ ip ∈ x :: ips)).
  { intros names' Hn' Hsz Hrun. destruct (IH _ Hrun Hsz) as [H1 H2]. split; [done|].
    intros ip names n Hip Hn. destruct (H2 ip names n Hip Hn) as [(names0 & Hl & Hin)|[-> Hin]].
    - destruct (decide (ip = x)) as [->|Hne].
      + rewrite lookup_insert_eq in Hl. injection Hl as <-.
        destruct (Hn' n Hin) as [->|?]; [right; split; [done|by left]|by left].
      + rewrite lookup_insert_ne in Hl by done. left. by exists names0.
    - right. split; [done|by right]. }
  destruct (pinned !! x) as [names|] eqn:Ex.
  - apply (Hnext ({[name]} ∪ names)); [intros n Hn; rewrite elem_of_union, elem_of_singleton in Hn; naive_solver| |done].
    by rewrite map_size_insert_Some by done.
  - destruct (Z.leb_spec MAX_PINNED_IPS (Z.of_nat (size pinned))).
    + injection Hp as _ <-. split; [done|]. intros ip names n Hip Hn. left. by exists names.
    + apply (Hnext {[name]}); [intros n Hn; left; by apply elem_of_singleton in Hn| |done].
      rewrite map_size_insert_None by done. lia.
Qed.

Lemma spent_snoc h e ok :
  spent (h ++ [(e, ok)]) =
    match e, ok with
    | GeBegin, _ => 0
    | GeUse _ _ TcpConnect, true => spent h + 1
    | _, _ => spent h
    end.
Proof. unfold spent. rewrite fold_left_app. cbn. destruct e as [| |? ? []]; try done; by destruct ok. Qed.

Lemma guard_ok_pinned h g e ok pinned :
  guard_ok h g -> Z.of_nat (size pinned) <= MAX_PINNED_IPS ->
  (forall ip names n, pinned !! ip = Some names -> n ∈ names -> vetted_lookup (h ++ [(e, ok)]) n ip) ->
  spent (h ++ [(e, ok)]) = spent h -> guard_ok (h ++ [(e, ok)]) (mkGuardInner pinned (gi_connects g)).
Proof. intros [_ _ H3 H4] Hs Hp He. split; cbn; [done|done|by rewrite He|done]. Qed.

Lemma guard_ok_same h g e ok :
  guard_ok h g -> spent (h ++ [(e, ok)]) = spent h -> guard_ok (h ++ [(e, ok)]) g.
Proof.
  intros Hg He. destruct g as [pinned n]. apply (guard_ok_pinned h (mkGuardInner pinned n)); [done|apply Hg| |done].
  intros ip names name Hip Hn. apply vetted_lookup_app. by apply (go_pins _ _ Hg ip names).
Qed.

Lemma allows_name_lower allow name : allows_name allow (to_ascii_lowercase name) = allows_name allow name.
Proof.
  unfold allows_name, eq_ignore_ascii_case. rewrite to_ascii_lowercase_idemp. done.
Qed.

Lemma lookup_step_ok h g name answer r g' ok :
  resolve_vetted contains (Some policy) (fun _ => answer) name g = (r, g') ->
  ok = match r with Ok _ => true | Err _ => false end ->
  guard_ok h g -> guard_ok (h ++ [(GeLookup name answer, ok)]) g'.
Proof.
  intros Hr Hok Hg. assert (Hsp : spent (h ++ [(GeLookup name answer, ok)]) = spent h) by apply spent_snoc.
  unfold resolve_vetted in Hr. destruct (allows_name _ _) eqn:Ha; cbn [negb] in Hr;
    [|injection Hr as _ <-; by apply guard_ok_same].
  destruct answer as [[|a addrs]|]; [injection Hr as _ <-; by apply guard_ok_same| |injection Hr as _ <-; by apply guard_ok_same].
  destruct (existsb _ _) eqn:Hblk; [injection Hr as _ <-; by apply guard_ok_same|].
  destruct (pin_all _ _ _) as [all pinned] eqn:Hp.
  assert (g' = mkGuardInner pinned (gi_connects g)) as -> by (by destruct all; injection Hr).
  destruct (pin_all_spec _ _ _ _ _ Hp (go_size _ _ Hg)) as [Hs Hpins].
  apply guard_ok_pinned; [done|done| |done].
  intros ip names n Hip Hn. destruct (Hpins ip names n Hip Hn) as [(names0 & Hl & Hin)|[-> Hin]].
  - apply vetted_lookup_app. by apply (go_pins _ _ Hg ip names0).
  - exists name, (a :: addrs), ok. split; [apply elem_of_app; right; by left|].
    split; [unfold eq_ignore_ascii_case; by rewrite to_ascii_lowercase_idemp, (proj2 (bytes_eqb_eq _ _))|].
    rewrite allows_name_lower in Ha. split; [done|]. split; [done|]. apply Forall_forall. intros x Hx.
    destruct (decide (classify contains x (tp_allow_private policy) = Allowed)) as [|Hne]; [done|exfalso].
    apply not_true_iff_false in Hblk. apply Hblk, existsb_exists. exists (to_canonical x).
    split; [by apply in_map, list_elem_of_In|]. rewrite classify_to_canonical.
    by rewrite bool_decide_false.
Qed.

Lemma use_step_ok h g addr port use ok g' :
  permits contains parse_ip (Some policy) addr port use g = (ok, g') ->
  guard_ok h g -> guard_ok (h ++ [(GeUse addr port use, ok)]) g'.
Proof.
  intros Hp Hg. unfold permits in Hp.
  destruct use; try (injection Hp as <- <-; apply guard_ok_same; [done|apply spent_snoc]).
  repeat case_match; try (injection Hp as <- <-; apply guard_ok_same; [done|apply spent_snoc]).
  injection Hp as <- <-. destruct Hg as [Ha Hb Hc Hd]. split; cbn [gi_pinned gi_connects]; [|done| |lia].
  - intros ip names name Hip Hn. apply vetted_lookup_app. by apply (Ha ip names).
  - rewrite spent_snoc. lia.
Qed.

Lemma guard_run_ok es h g oks g' :
  guard_run contains parse_ip (Some policy) es g = (oks, g') -> guard_ok h g ->
  guard_ok (h ++ zip es oks) g'.
Proof.
  revert h g oks. induction es as [|e es IH]; intros h g oks Hr Hg.
  { injection Hr as <- <-. by rewrite app_nil_r. }
  cbn [guard_run] in Hr. destruct (guard_step contains parse_ip (Some policy) e g) as [ok g1] eqn:Es.
  destruct (guard_run contains parse_ip (Some policy) es g1) as [oks' g2] eqn:Er.
  injection Hr as <- <-. cbn [zip zip_with]. change ((e, ok) :: zip es oks') with ([(e, ok)] ++ zip es oks').
  rewrite app_assoc. apply (IH _ g1); [done|]. destruct e as [|name answer|addr port use]; cbn [guard_step] in Es.
  - injection Es as <- <-. destruct Hg as [H1 H2 H3 H4]. split; cbn; [|done|by rewrite spent_snoc|lia].
    intros ip names name Hip Hn. apply vetted_lookup_app. by apply (H1 ip names).
  - destruct (resolve_vetted _ _ _ _ _) as [r g3] eqn:Ev. injection Es as <- <-.
    by apply (lookup_step_ok h g name answer r).
  - by apply (use_step_ok h g).
Qed.
End history.

(** C9: on any history of requests, lookups and address checks of a store, the guard lets through
    only a wildcard bind and connects; a granted connect goes to an address the SSRF guard
    allows, on the port of an allowlist entry that names the address literally or whose name an
    earlier lookup resolved to it with every answer allowed, and stays within the connect budget
    of its request.  The pinned set never outgrows its cap. *)
Theorem connect_requires_vetting {IpNet : Type} (contains : IpNet -> IpAddr -> bool)
    (parse_ip : bytes -> option IpAddr) (policy : OutboundTcpPolicy) (es : list GuardEvent)
    (oks : list bool) (g : GuardInner) (addr : IpAddr) (port : Z) (use : SocketAddrUse) :
  guard_run contains parse_ip (Some policy) es guard_new = (oks, g) ->
  Z.of_nat (size (gi_pinned g)) <= MAX_PINNED_IPS /\
  (fst (permits contains parse_ip (Some policy) addr port use g) = true ->
   (use = TcpBind /\ is_unspecified addr = true /\ port = 0) \/
   (use = TcpConnect /\ classify contains addr (tp_allow_private policy) = Allowed /\
    spent (zip es oks) < tp_max_connections policy /\
    exists entry, entry ∈ tp_allow policy /\ te_port entry = port /\
      ((exists lit, parse_ip (te_host entry) = Some lit /\ to_canonical lit = to_canonical addr) \/
       exists name, eq_ignore_ascii_case name (te_host entry) = true /\
         vetted_lookup contains policy (zip es oks) name (to_canonical addr)))).
Proof.
  intros Hr. assert (Hg : guard_ok contains policy (zip es oks) g).
  { apply (guard_run_ok contains parse_ip policy es [] guard_new oks g Hr).
    split; cbn; [intros ip names n Hip; by rewrite lookup_empty in Hip|done|done|lia]. }
  split; [apply Hg|]. unfold permits. intros Hp. destruct use; cbn [fst] in Hp; try done.
  - right. split; [done|]. rewrite classify_to_canonical in Hp.
    destruct (classify _ _ _); [|done..]. split; [done|].
    destruct (existsb _ _) eqn:He; [|done]. destruct (Z.ltb_spec (gi_connects g) (tp_max_connections policy)); [|done].
    split; [by rewrite <- (go_spent _ _ _ _ Hg)|].
    apply existsb_exists in He as (entry & Hin & Hm). exists entry. split; [by apply list_elem_of_In|].
    unfold entry_matches in Hm. apply andb_true_iff in Hm as [Hport Hm]. split; [by apply Z.eqb_eq|].
    apply orb_true_iff in Hm as [Hm|Hm].
    + left. destruct (parse_ip _) as [lit|]; [|done]. exists lit. split; [done|]. by case_bool_decide.
    + right. destruct (gi_pinned g !! _) as [names|] eqn:Hl; [|done]. case_bool_decide as Hn; [|done].
      exists (to_ascii_lowercase (te_host entry)). split.
      * unfold eq_ignore_ascii_case. by rewrite to_ascii_lowercase_idemp, (proj2 (bytes_eqb_eq _ _)).
      * by apply (go_pins _ _ _ _ Hg _ names).
  - left. apply andb_true_iff in Hp as [Hu Hport]. split; [done|]. split; [done|]. by apply Z.eqb_eq.
Qed.

(** A lookup of the cache's name, then a connect to the address it gave. *)
Lemma connect_requires_vetting_witness :
  exists es oks g, guard_run (fun (_ : unit) _ => false) (fun _ => None)
      (Some (mkTcpPolicy [mkTcpAllow (bs "Cache.example") 6379] [] 2 1000)) es guard_new = (oks, g) /\
    fst (permits (fun (_ : unit) _ => false) (fun _ => None)
      (Some (mkTcpPolicy [mkTcpAllow (bs "Cache.example") 6379] [] 2 1000)) (V4 93 184 216 34) 6379 TcpConnect g) = true /\
    spent (zip es oks) < 2.
Proof.
  exists [GeBegin; GeLookup (bs "cache.EXAMPLE") (Some [V6 0 0 0 0 0 65535 23992 55330])].
  eexists _, _. split; [reflexivity|].
  assert (Hp : fst (permits (fun (_ : unit) _ => false) (fun _ => None)
    (Some (mkTcpPolicy [mkTcpAllow (bs "Cache.example") 6379] [] 2 1000)) (V4 93 184 216 34) 6379 TcpConnect
    (snd (guard_run (fun (_ : unit) _ => false) (fun _ => None)
      (Some (mkTcpPolicy [mkTcpAllow (bs "Cache.example") 6379] [] 2 1000))
      [GeBegin; GeLookup (bs "cache.EXAMPLE") (Some [V6 0 0 0 0 0 65535 23992 55330])] guard_new))) = true)
    by (vm_compute; reflexivity).
  split; [exact Hp|].
  edestruct (connect_requires_vetting (fun (_ : unit) _ => false) (fun _ => None)
    (mkTcpPolicy [mkTcpAllow (bs "Cache.example") 6379] [] 2 1000)
    [GeBegin; GeLookup (bs "cache.EXAMPLE") (Some [V6 0 0 0 0 0 65535 23992 55330])]) as [_ H]; [reflexivity|].
  destruct (H Hp) as [(E & _)|(_ & _ & Hs & _)]; [discriminate E|exact Hs].
Defined.
