(* ===== verification/TcpSockets.v ===== *)
(** * Live TCP descriptors (host/src/outbound_tcp.rs)

    Stores run concurrently and share the host's quota; inside a store one call runs at a time,
    and each atomic update is a step of its own.  A 0.2 socket is released when its resource is
    deleted; a 0.3 socket holds a lease its stream halves share, released with the last of them.
    Which delegated wasmtime call succeeds, and the table slot it returns, is an input. *)

From S2P Require Import Prelude OutboundTcp.

(** ** The counters *)

(** [TcpSocketQuota::try_acquire] on [used], and [release]; [None] is the logged over-release. *)
Definition quota_try_acquire (used : Z) : option Z :=
  if used <? MAX_LIVE_TCP_SOCKETS_PER_HOST then Some (used + 1) else None.
Definition quota_release (used count : Z) : option Z :=
  if count =? 0 then Some used else if count <=? used then Some (used - count) else None.

(** The store's counter in [try_acquire_live_socket] and [release_live_socket]. *)
Definition live_reserve (live : Z) : option Z :=
  if live <? MAX_LIVE_TCP_SOCKETS_PER_STORE then Some (live + 1) else None.
Definition live_return (live : Z) : option Z := if 0 <? live then Some (live - 1) else None.

Inductive SocketKind := P2 | P3.

(** Where a store stands between two atomic updates.  [PhReturning n ph] is about to return [n]
    to the host and then continue as [ph]. *)
Inductive StorePhase :=
| PhIdle
| PhReserved (kind : SocketKind)
| PhRefused
| PhGranted (kind : SocketKind)
| PhClosing
| PhGone
| PhReturning (n : Z) (next : StorePhase).

(** [sk_p3] is [p3_leases] by table slot, [sk_halves] the leases of running stream halves. *)
Record SocketStore := mkSockets {
  sk_live : Z;
  sk_p2 : gset nat;
  sk_p3 : gmap nat nat;
  sk_halves : gmap nat nat;
  sk_next : nat;
  sk_phase : StorePhase;
}.

Definition sockets_new : SocketStore := mkSockets 0 ∅ ∅ ∅ 0 PhIdle.

(** The leases someone still holds. *)
Definition leases (st : SocketStore) : gset nat := map_img (sk_p3 st) ∪ map_img (sk_halves st).

(** [release_live_socket] up to the host's counter. *)
Definition release_live_socket (st : SocketStore) (next : StorePhase) : SocketStore :=
  match live_return (sk_live st) with
  | Some live => mkSockets live (sk_p2 st) (sk_p3 st) (sk_halves st) (sk_next st) (PhReturning 1 next)
  | None => mkSockets (sk_live st) (sk_p2 st) (sk_p3 st) (sk_halves st) (sk_next st) next
  end.

(** A holder of [lease] went away: its drop releases the descriptor when it was the last. *)
Definition drop_lease (st : SocketStore) (lease : nat) (next : StorePhase) : SocketStore :=
  if decide (lease ∈ leases st)
  then mkSockets (sk_live st) (sk_p2 st) (sk_p3 st) (sk_halves st) (sk_next st) next
  else release_live_socket st next.

Definition with_phase (st : SocketStore) (ph : StorePhase) : SocketStore :=
  mkSockets (sk_live st) (sk_p2 st) (sk_p3 st) (sk_halves st) (sk_next st) ph.
Definition with_live (st : SocketStore) (live : Z) (ph : StorePhase) : SocketStore :=
  mkSockets live (sk_p2 st) (sk_p3 st) (sk_halves st) (sk_next st) ph.
Definition with_p2 (st : SocketStore) (p2 : gset nat) : SocketStore :=
  mkSockets (sk_live st) p2 (sk_p3 st) (sk_halves st) (sk_next st) (sk_phase st).
Definition with_p3 (st : SocketStore) (p3 : gmap nat nat) : SocketStore :=
  mkSockets (sk_live st) (sk_p2 st) p3 (sk_halves st) (sk_next st) (sk_phase st).
Definition with_halves (st : SocketStore) (halves : gmap nat nat) : SocketStore :=
  mkSockets (sk_live st) (sk_p2 st) (sk_p3 st) halves (sk_next st) (sk_phase st).

(** [create_tcp_socket] and [create] once the delegate has made the socket at a table slot. *)
Definition created_p2 (st : SocketStore) (rep : nat) : SocketStore :=
  with_phase (with_p2 st ({[rep]} ∪ sk_p2 st)) PhIdle.
Definition created_p3 (st : SocketStore) (rep : nat) : SocketStore :=
  mkSockets (sk_live st) (sk_p2 st) (<[rep := sk_next st]> (sk_p3 st)) (sk_halves st)
    (S (sk_next st)) PhIdle.

(** The two resource drops, once the delegate has deleted the resource. *)
Definition drop_p2 (st : SocketStore) (rep : nat) : SocketStore :=
  release_live_socket (with_p2 st (sk_p2 st ∖ {[rep]})) PhIdle.
Definition drop_p3 (st : SocketStore) (rep lease : nat) (next : StorePhase) : SocketStore :=
  drop_lease (with_p3 st (delete rep (sk_p3 st))) lease next.

(** [send] and [receive] hand a stream half the socket's lease; its completion lets go of it. *)
Definition stream_started (st : SocketStore) (half lease : nat) : SocketStore :=
  with_halves st (<[half := lease]> (sk_halves st)).
Definition stream_done (st : SocketStore) (half lease : nat) (next : StorePhase) : SocketStore :=
  drop_lease (with_halves st (delete half (sk_halves st))) lease next.

(** The guard's own drop, after the store's table. *)
Definition guard_drop (st : SocketStore) : SocketStore :=
  mkSockets 0 ∅ ∅ ∅ (sk_next st) (PhReturning (sk_live st) PhGone).

(** One step of a store over the host's counter. *)
Inductive store_step (used : Z) (st : SocketStore) : Z -> SocketStore -> Prop :=
| SkReserve kind live : sk_phase st = PhIdle -> live_reserve (sk_live st) = Some live ->
    store_step used st used (with_live st live (PhReserved kind))
| SkQuota kind : sk_phase st = PhReserved kind ->
    store_step used st (default used (quota_try_acquire used))
      (with_phase st (match quota_try_acquire used with Some _ => PhGranted kind | None => PhRefused end))
| SkUndo : sk_phase st = PhRefused ->
    store_step used st used (with_live st (wrap32 (sk_live st - 1)) PhIdle)
| SkCreateFailed kind : sk_phase st = PhGranted kind ->
    store_step used st used (release_live_socket st PhIdle)
| SkCreatedP2 rep : sk_phase st = PhGranted P2 -> rep ∉ sk_p2 st ->
    store_step used st used (created_p2 st rep)
| SkCreatedP3 rep : sk_phase st = PhGranted P3 -> sk_p3 st !! rep = None ->
    store_step used st used (created_p3 st rep)
| SkDropP2 rep : sk_phase st = PhIdle -> rep ∈ sk_p2 st ->
    store_step used st used (drop_p2 st rep)
| SkDropP3 rep lease : sk_phase st = PhIdle -> sk_p3 st !! rep = Some lease ->
    store_step used st used (drop_p3 st rep lease PhIdle)
| SkStream rep lease half : sk_phase st = PhIdle -> sk_p3 st !! rep = Some lease ->
    sk_halves st !! half = None ->
    store_step used st used (stream_started st half lease)
| SkStreamDone half lease : sk_phase st = PhIdle -> sk_halves st !! half = Some lease ->
    store_step used st used (stream_done st half lease PhIdle)
| SkReturn n next : sk_phase st = PhReturning n next ->
    store_step used st (default used (quota_release used n)) (with_phase st next)
| SkClose : sk_phase st = PhIdle -> store_step used st used (with_phase st PhClosing)
| SkCloseP3 rep lease : sk_phase st = PhClosing -> sk_p3 st !! rep = Some lease ->
    store_step used st used (drop_p3 st rep lease PhClosing)
| SkCloseHalf half lease : sk_phase st = PhClosing -> sk_halves st !! half = Some lease ->
    store_step used st used (stream_done st half lease PhClosing)
| SkCloseGuard : sk_phase st = PhClosing -> leases st = ∅ ->
    store_step used st used (guard_drop st).

(** The host's quota and its stores. *)
Record SocketHost := mkSocketHost { sh_used : Z; sh_stores : gmap nat SocketStore }.

Definition socket_host_new : SocketHost := mkSocketHost 0 ∅.

Inductive socket_step (h : SocketHost) : SocketHost -> Prop :=
| ShOpen s : sh_stores h !! s = None ->
    socket_step h (mkSocketHost (sh_used h) (<[s := sockets_new]> (sh_stores h)))
| ShStore s st used st' : sh_stores h !! s = Some st -> store_step (sh_used h) st used st' ->
    socket_step h (mkSocketHost used (<[s := st']> (sh_stores h)))
| ShGone s st : sh_stores h !! s = Some st -> sk_phase st = PhGone ->
    socket_step h (mkSocketHost (sh_used h) (delete s (sh_stores h))).

(** ** Accounting *)

(** The native descriptors of a store. *)
Definition native (st : SocketStore) : Z := Z.of_nat (size (sk_p2 st)) + Z.of_nat (size (leases st)).

(** Reservations a store counts for a descriptor it has not got, or no longer hopes for. *)
Definition reserved (ph : StorePhase) : Z :=
  match ph with PhReserved _ | PhRefused | PhGranted _ => 1 | _ => 0 end.

(** What a store's phase owes to the host's counter, over its own. *)
Definition owed (ph : StorePhase) : Z :=
  match ph with PhReserved _ | PhRefused => -1 | PhReturning n _ => n | _ => 0 end.

Definition charge (st : SocketStore) : Z := sk_live st + owed (sk_phase st).

Definition phase_ok (ph : StorePhase) : Prop :=
  match ph with
  | PhReturning n next => 0 <= n /\ match next with PhIdle | PhClosing | PhGone => True | _ => False end
  | _ => True
  end.

Definition closed (ph : StorePhase) : bool :=
  match ph with PhGone | PhReturning _ PhGone => true | _ => false end.

Record store_ok (st : SocketStore) : Prop := {
  so_live : sk_live st = native st + reserved (sk_phase st);
  so_cap : sk_live st <= MAX_LIVE_TCP_SOCKETS_PER_STORE;
  so_fresh : forall l, l ∈ leases st -> (l < sk_next st)%nat;
  so_phase : phase_ok (sk_phase st);
  so_gone : closed (sk_phase st) = true -> native st = 0;
}.

Lemma native_nonneg st : 0 <= native st.
Proof. unfold native. lia. Qed.

Lemma reserved_nonneg ph : 0 <= reserved ph.
Proof. destruct ph; cbn; lia. Qed.

Lemma charge_nonneg st : store_ok st -> 0 <= charge st.
Proof.
  intros [Hl _ _ Hp _]. unfold charge. pose proof (native_nonneg st).
  destruct (sk_phase st); cbn in *; lia.
Qed.

Lemma elem_of_leases st l :
  l ∈ leases st <-> (exists rep, sk_p3 st !! rep = Some l) \/ (exists half, sk_halves st !! half = Some l).
Proof. unfold leases. by rewrite elem_of_union, !elem_of_map_img. Qed.

(** Removing one holder of [l] leaves the leases as they were, or takes just [l]. *)
Lemma leases_drop (X X' : gset nat) l :
  l ∈ X -> (forall x, x ∈ X' -> x ∈ X) -> (forall x, x ∈ X -> x = l \/ x ∈ X') ->
  Z.of_nat (size X) = Z.of_nat (size X') + (if decide (l ∈ X') then 0 else 1).
Proof.
  intros Hl H1 H2. destruct (decide (l ∈ X')) as [Hin|Hout].
  - assert (X = X') as -> by set_solver. lia.
  - assert (X = {[l]} ∪ X') as -> by set_solver.
    rewrite size_union, size_singleton by set_solver. lia.
Qed.

Lemma release_ok st next :
  next = PhIdle \/ next = PhClosing ->
  sk_live st = native st + 1 -> sk_live st <= MAX_LIVE_TCP_SOCKETS_PER_STORE ->
  (forall l, l ∈ leases st -> (l < sk_next st)%nat) ->
  store_ok (release_live_socket st next) /\ charge (release_live_socket st next) = sk_live st.
Proof.
  intros Hn Hl Hc Hf. pose proof (native_nonneg st) as H0. unfold release_live_socket, live_return.
  destruct (Z.ltb_spec 0 (sk_live st)); [|lia]. split; [|unfold charge; cbn; lia].
  split; [|cbn; lia|done|cbn; destruct Hn as [-> | ->]; (split; [lia|done])|by destruct Hn as [-> | ->]].
  unfold native, leases in *. cbn in *. lia.
Qed.

Lemma drop_lease_ok st st0 l next :
  next = PhIdle \/ next = PhClosing ->
  sk_live st = sk_live st0 -> sk_next st = sk_next st0 -> sk_p2 st = sk_p2 st0 ->
  l ∈ leases st0 -> (forall x, x ∈ leases st -> x ∈ leases st0) ->
  (forall x, x ∈ leases st0 -> x = l \/ x ∈ leases st) ->
  sk_live st0 = native st0 -> sk_live st0 <= MAX_LIVE_TCP_SOCKETS_PER_STORE ->
  (forall l, l ∈ leases st0 -> (l < sk_next st0)%nat) ->
  store_ok (drop_lease st l next) /\ charge (drop_lease st l next) = sk_live st0.
Proof.
  intros Hn El En Ep Hl H1 H2 Hlive Hc Hf. pose proof (leases_drop _ _ _ Hl H1 H2) as Hs.
  unfold drop_lease. unfold native in Hlive. rewrite <- Ep in Hlive. destruct (decide (l ∈ leases st)) as [Hin|Hout].
  - split; [split|]; cbn.
    + unfold native. cbn. change (leases (mkSockets _ _ _ _ _ _)) with (leases st).
      destruct Hn as [-> | ->]; cbn; lia.
    + by rewrite El.
    + intros x Hx. rewrite En. by apply Hf, H1.
    + by destruct Hn as [-> | ->].
    + by destruct Hn as [-> | ->].
    + unfold charge. cbn. destruct Hn as [-> | ->]; cbn; lia.
  - rewrite <- El. apply release_ok; [done| |by rewrite El|intros x Hx; rewrite En; by apply Hf, H1].
    unfold native. lia.
Qed.

Lemma leases_with_p3 st rep l :
  sk_p3 st !! rep = Some l ->
  let st' := with_p3 st (delete rep (sk_p3 st)) in
  l ∈ leases st /\ (forall x, x ∈ leases st' -> x ∈ leases st) /\
  (forall x, x ∈ leases st -> x = l \/ x ∈ leases st').
Proof.
  intros Hr st'. split; [apply elem_of_leases; left; by exists rep|]. split; intros x; rewrite !elem_of_leases.
  - intros [[k Hk]|Hh]; [|by right]. left. exists k. cbn in Hk. by apply lookup_delete_Some in Hk as [_ Hk].
  - intros [[k Hk]|Hh]; [|right; by right]. destruct (decide (k = rep)) as [->|Hne]; [left; congruence|].
    right. left. exists k. cbn. by rewrite lookup_delete_ne.
Qed.

Lemma leases_with_halves st half l :
  sk_halves st !! half = Some l ->
  let st' := with_halves st (delete half (sk_halves st)) in
  l ∈ leases st /\ (forall x, x ∈ leases st' -> x ∈ leases st) /\
  (forall x, x ∈ leases st -> x = l \/ x ∈ leases st').
Proof.
  intros Hr st'. split; [apply elem_of_leases; right; by exists half|]. split; intros x; rewrite !elem_of_leases.
  - intros [Hh|[k Hk]]; [by left|]. right. exists k. cbn in Hk. by apply lookup_delete_Some in Hk as [_ Hk].
  - intros [Hh|[k Hk]]; [right; by left|]. destruct (decide (k = half)) as [->|Hne]; [left; congruence|].
    right. right. exists k. cbn. by rewrite lookup_delete_ne.
Qed.

Lemma relabel_ok st live ph :
  store_ok st -> live = native st + reserved ph -> live <= MAX_LIVE_TCP_SOCKETS_PER_STORE -> phase_ok ph ->
  (closed ph = true -> native st = 0) -> store_ok (with_live st live ph).
Proof. intros [_ _ Hf _ _] Hl Hc Hp Hg. by split. Qed.

Lemma leases_created st rep live ph :
  sk_p3 st !! rep = None ->
  leases (mkSockets live (sk_p2 st) (<[rep := sk_next st]> (sk_p3 st)) (sk_halves st) (S (sk_next st)) ph)
  = {[sk_next st]} ∪ leases st.
Proof.
  intros Hr. apply set_eq. intros x. rewrite elem_of_union, elem_of_singleton, !elem_of_leases. cbn. split.
  - intros [[k Hk]|Hh]; [|right; by right]. apply lookup_insert_Some in Hk as [[_ <-]|[_ Hk]]; [by left|].
    right. left. by exists k.
  - intros [->|[[k Hk]|Hh]]; [left; exists rep; apply lookup_insert_eq| |by right].
    left. exists k. rewrite lookup_insert_ne; [done|]. by intros ->; rewrite Hr in Hk.
Qed.

Lemma leases_shared st rep half l :
  sk_p3 st !! rep = Some l -> sk_halves st !! half = None ->
  leases (with_halves st (<[half := l]> (sk_halves st))) = leases st.
Proof.
  intros Hr Hh. apply set_eq. intros x. rewrite !elem_of_leases. cbn. split.
  - intros [?|[k Hk]]; [by left|]. apply lookup_insert_Some in Hk as [[_ <-]|[_ Hk]]; [left; by exists rep|].
    right. by exists k.
  - intros [?|[k Hk]]; [by left|]. right. exists k. rewrite lookup_insert_ne; [done|].
    by intros ->; rewrite Hh in Hk.
Qed.

(** The socket's phase changes and nothing else does. *)
Ltac relabels := split; [apply relabel_ok; [done|cbn; lia|lia|done|done]|cbn; lia].

(** A reference to a lease is dropped, and perhaps the lease with it. *)
Ltac drops_lease after st lease phase :=
  let H4 := fresh in let H5 := fresh in
  destruct (drop_lease_ok after st lease phase) as [H4 H5];
    [solve [by left|by right]|done..|lia|done|done|unfold charge in H5; split; [done|lia]].

(** A step of a store in good standing keeps it so, charges the host what its own charge grew by,
    and never lets the counter pass the host's limit or a release go missing. *)
Lemma store_step_ok used st used' st' :
  store_ok st -> charge st <= used <= MAX_LIVE_TCP_SOCKETS_PER_HOST -> store_step used st used' st' ->
  store_ok st' /\ used' - used = charge st' - charge st /\ used' <= MAX_LIVE_TCP_SOCKETS_PER_HOST.
Proof.
  intros Hok Hu Hs. pose proof (charge_nonneg st Hok) as Hc0. pose proof (native_nonneg st) as Hn.
  pose proof Hok as [Hl Hc Hf Hp Hg]. unfold charge in *.
  destruct Hs as [kind live H Hres|kind H|H|kind H|rep H Hin|rep H Hin|rep H Hin|rep lease H Hin
    |rep lease half H Hin Hh|half lease H Hin|n next H|H|rep lease H Hin|half lease H Hin|H Hnone];
    unfold drop_p2, drop_p3, stream_started, stream_done, guard_drop;
    rewrite H in Hl, Hp, Hg, Hu, Hc0 |- *; cbn [reserved owed phase_ok closed] in Hl, Hp, Hg, Hu, Hc0 |- *.
  - unfold live_reserve in Hres. destruct (Z.ltb_spec (sk_live st) MAX_LIVE_TCP_SOCKETS_PER_STORE); simplify_eq.
    relabels.
  - unfold quota_try_acquire. destruct (Z.ltb_spec used MAX_LIVE_TCP_SOCKETS_PER_HOST); cbn [default from_option id].
    + relabels.
    + relabels.
  - assert (E : wrap32 (sk_live st - 1) = sk_live st - 1).
    { unfold wrap32, MAX_LIVE_TCP_SOCKETS_PER_STORE in *. apply Z.mod_small. lia. }
    rewrite E. relabels.
  - destruct (release_ok st PhIdle) as [H1 H2]; [by left|lia|done|done|].
    unfold charge in H2. split; [done|]. lia.
  - unfold created_p2, with_p2. split; [split; cbn; [|done|done|done|done]|cbn; lia].
    unfold native in *. cbn. change (leases (with_phase _ _)) with (leases st).
    rewrite size_union, size_singleton by set_solver. lia.
  - unfold created_p3. set (st' := mkSockets _ _ _ _ _ _). assert (El : leases st' = {[sk_next st]} ∪ leases st) by by apply leases_created.
    split; [split|cbn; lia]; [|done| |done|done].
    + unfold native in *. rewrite El. cbn. rewrite size_union, size_singleton; [lia|].
      apply disjoint_singleton_l. intros Hx. specialize (Hf _ Hx). lia.
    + intros l Hx. rewrite El in Hx. cbn. apply elem_of_union in Hx as [->%elem_of_singleton|Hx]; [lia|].
      specialize (Hf l Hx). lia.
  - destruct (release_ok (with_p2 st (sk_p2 st ∖ {[rep]})) PhIdle) as [H1 H2]; [by left| |done|done|].
    { cbn. unfold native in *. cbn. change (leases (with_p2 _ _)) with (leases st).
      rewrite size_difference by set_solver. rewrite size_singleton.
      assert (size (sk_p2 st) <> 0)%nat by (rewrite size_non_empty_iff; set_solver). lia. }
    unfold charge in H2. split; [done|]. cbn in H2. lia.
  - destruct (leases_with_p3 st rep lease Hin) as (H1 & H2 & H3). drops_lease (with_p3 st (delete rep (sk_p3 st))) st lease PhIdle.
  - assert (El : leases (with_halves st (<[half := lease]> (sk_halves st))) = leases st)
      by by apply (leases_shared st rep).
    split; [split|unfold owed; cbn; rewrite H; lia]; [|done| |by cbn; rewrite H|by cbn; rewrite H].
    + unfold native in *. rewrite El. cbn. rewrite H. cbn. lia.
    + intros l Hx. rewrite El in Hx. by apply Hf.
  - destruct (leases_with_halves st half lease Hin) as (H1 & H2 & H3). drops_lease (with_halves st (delete half (sk_halves st))) st lease PhIdle.
  - unfold quota_release. pose proof (native_nonneg st).
    assert (Ed : default used (if n =? 0 then Some used else if n <=? used then Some (used - n) else None) = used - n).
    { destruct (Z.eqb_spec n 0); [cbn; lia|]. destruct (Z.leb_spec n used); [done|cbn; lia]. }
    rewrite Ed. destruct Hp as [Hn0 Hnext]. split; [apply relabel_ok; [done| |done| |]|]; destruct next; try done; cbn; lia.
  - relabels.
  - destruct (leases_with_p3 st rep lease Hin) as (H1 & H2 & H3). drops_lease (with_p3 st (delete rep (sk_p3 st))) st lease PhClosing.
  - destruct (leases_with_halves st half lease Hin) as (H1 & H2 & H3). drops_lease (with_halves st (delete half (sk_halves st))) st lease PhClosing.
  - split; [split; cbn; [done|done| |split; [lia|done]|done]|cbn; lia].
    intros l Hin. apply elem_of_leases in Hin as [[? E]|[? E]]; cbn in E; by rewrite lookup_empty in E.
Qed.

Record socket_host_ok (h : SocketHost) : Prop := {
  sho_used : sh_used h = map_sum (fun _ => charge) (sh_stores h);
  sho_cap : sh_used h <= MAX_LIVE_TCP_SOCKETS_PER_HOST;
  sho_stores : map_Forall (fun _ => store_ok) (sh_stores h);
}.

Lemma charges_nonneg (m : gmap nat SocketStore) :
  map_Forall (fun _ => store_ok) m -> 0 <= map_sum (fun _ => charge) m.
Proof.
  intros Hm. apply sumZ_nonneg, Forall_forall. intros x Hx.
  apply list_elem_of_fmap in Hx as ([k st] & -> & Hin). apply elem_of_map_to_list in Hin.
  by apply charge_nonneg, (Hm k st).
Qed.

Lemma charge_le_sum (m : gmap nat SocketStore) s st :
  map_Forall (fun _ => store_ok) m -> m !! s = Some st -> charge st <= map_sum (fun _ => charge) m.
Proof.
  intros Hm Hs. pose proof (map_sum_delete (fun _ => charge) m s st Hs) as E. cbn in E.
  pose proof (charges_nonneg (delete s m) (map_Forall_delete _ _ _ Hm)). lia.
Qed.

Lemma socket_step_ok h h' : socket_host_ok h -> socket_step h h' -> socket_host_ok h'.
Proof.
  intros [Hu Hc Hs] Hstep. destruct Hstep as [s Hnone|s st used st' Hst Hstep|s st Hst Hgone].
  - split; cbn [sh_used sh_stores]; [|done|].
    + rewrite map_sum_insert_new by done. change (charge sockets_new) with 0. lia.
    + apply map_Forall_insert_2; [|done]. split; cbn; [done|done| |done|done].
      intros l Hl. apply elem_of_leases in Hl as [[? E]|[? E]]; cbn in E; by rewrite lookup_empty in E.
  - pose proof (charge_le_sum _ _ _ Hs Hst) as Hle.
    rewrite <- Hu in Hle.
    destruct (store_step_ok _ _ _ _ (Hs s st Hst) (conj Hle Hc) Hstep) as (H1 & H2 & H3).
    split; cbn [sh_used sh_stores]; [|done|by apply map_Forall_insert_2].
    rewrite map_sum_insert, Hst. cbn [from_option]. lia.
  - split; cbn [sh_used sh_stores]; [|done|by apply map_Forall_delete].
    rewrite (map_sum_delete _ _ _ st Hst). pose proof (Hs s st Hst) as [Hl _ _ _ Hg].
    assert (E : charge st = 0); [|rewrite E; lia].
    unfold charge. rewrite Hgone in Hl, Hg |- *. specialize (Hg eq_refl). cbn in Hl |- *. lia.
Qed.

Lemma native_le_charge (m : gmap nat SocketStore) :
  map_Forall (fun _ => store_ok) m -> map_sum (fun _ => native) m <= map_sum (fun _ => charge) m.
Proof.
  induction m as [|s st m Hnone IH] using map_ind; intros Hm; [by rewrite !map_sum_empty|].
  apply map_Forall_insert in Hm as [Hst Hm]; [|done]. rewrite !map_sum_insert_new by done.
  specialize (IH Hm). assert (native st <= charge st); [|lia].
  destruct Hst as [Hl _ _ Hp _]. unfold charge. destruct (sk_phase st); cbn in *; lia.
Qed.

Lemma socket_reach_ok h : rtc socket_step socket_host_new h -> socket_host_ok h.
Proof.
  assert (H0 : socket_host_ok socket_host_new) by (by split).
  intros Hr. revert H0. induction Hr as [|x y z Hxy _ IH]; intros H0; [done|].
  by apply IH, (socket_step_ok x).
Qed.

(** C11: however stores open, create, connect, drop and close their sockets, the host's counter is
    what its stores have charged and never passes 1024; each store's native descriptors, a
    socket whose streams outlive it included, stay within its own counter and that within 64;
    a pending release is never refused; and once every store is gone nothing is left charged. *)
Theorem descriptors_accounted (h : SocketHost) :
  rtc socket_step socket_host_new h ->
  0 <= sh_used h <= MAX_LIVE_TCP_SOCKETS_PER_HOST /\
  map_sum (fun _ => native) (sh_stores h) <= MAX_LIVE_TCP_SOCKETS_PER_HOST /\
  (forall s st, sh_stores h !! s = Some st ->
     0 <= native st <= sk_live st /\ sk_live st <= MAX_LIVE_TCP_SOCKETS_PER_STORE /\
     (forall n next, sk_phase st = PhReturning n next -> is_Some (quota_release (sh_used h) n)) /\
     (sk_phase st = PhIdle -> sk_live st = native st)) /\
  (sh_stores h = ∅ -> sh_used h = 0).
Proof.
  intros Hr. destruct (socket_reach_ok h Hr) as [Hu Hc Hs]. split_and!.
  - rewrite Hu. by apply charges_nonneg.
  - done.
  - rewrite Hu in Hc. etrans; [|exact Hc]. apply (native_le_charge _ Hs).
  - intros s st Hst. pose proof (Hs s st Hst) as [Hl Hcap _ Hp _]. pose proof (native_nonneg st).
    pose proof (reserved_nonneg (sk_phase st)). split_and!; [lia|lia|done| |].
    + intros n next Hph. pose proof (charge_le_sum _ _ _ Hs Hst) as Hle. rewrite <- Hu in Hle. unfold charge in Hle.
      rewrite Hph in Hle, Hp, Hl. cbn in Hle, Hp, Hl. unfold quota_release.
      destruct (Z.eqb_spec n 0); [by eexists|]. destruct (Z.leb_spec n (sh_used h)); [by eexists|lia].
    + intros Hph. rewrite Hph in Hl. cbn in Hl. lia.
  - intros E. by rewrite Hu, E, map_sum_empty.
Qed.

(** A store whose 0.3 socket is dropped while a stream half still runs keeps its descriptor until
    the half ends. *)
Lemma descriptors_accounted_witness :
  exists h st, rtc socket_step socket_host_new h /\ sh_stores h !! 0%nat = Some st /\
    sk_p3 st = ∅ /\ native st = 1 /\ 0 <= sh_used h <= MAX_LIVE_TCP_SOCKETS_PER_HOST.
Proof.
  assert (Hr : exists h, rtc socket_step socket_host_new h /\ exists st,
    sh_stores h !! 0%nat = Some st /\ sk_p3 st = ∅ /\ native st = 1).
  { eexists. split.
    - eapply rtc_l; [apply (ShOpen _ 0); reflexivity|].
      eapply rtc_l; [eapply (ShStore _ 0); [reflexivity|eapply (SkReserve _ _ P3); reflexivity]|].
      eapply rtc_l; [eapply (ShStore _ 0); [reflexivity|eapply (SkQuota _ _ P3); reflexivity]|].
      eapply rtc_l; [eapply (ShStore _ 0); [reflexivity|eapply (SkCreatedP3 _ _ 7); reflexivity]|].
      eapply rtc_l; [eapply (ShStore _ 0); [reflexivity|eapply (SkStream _ _ 7 0 3); reflexivity]|].
      eapply rtc_l; [eapply (ShStore _ 0); [reflexivity|eapply (SkDropP3 _ _ 7 0); reflexivity]|].
      apply rtc_refl.
    - eexists. split; [reflexivity|]. split; reflexivity. }
  destruct Hr as (h & Hr & st & Hst & Hp3 & Hn). exists h, st. split_and!; try done.
  all: apply (descriptors_accounted h Hr).
Defined.
