(* ===== verification/OutboundHttp.v ===== *)
(** * Outbound HTTP (host/src/outbound_http.rs)

    A filter's outgoing request: allowlist, concurrency permit, host-side resolution with every
    address classified, a connection to the address just vetted, and a response body that owns
    the permit until it ends, fails, is dropped or reaches the call's absolute deadline.
    Operations on the network are timed computations that also log what they did; when each step
    completes is the environment's choice.  The HTTP client, TLS and the body size cap are
    interfaces.  Durations are milliseconds. *)

From S2P Require Import Prelude Bytes Ssrf.

(** ** Timed computations *)

Inductive NetEvent :=
| EvResolve (host : bytes) (port : Z)
| EvDial (ip : IpAddr) (port : Z)
| EvTls (server_name : bytes)
| EvHandshake
| EvSend (path : bytes) (host_header : option bytes).

(** From a start time: what was done and when, and the value with the time it was ready; [None]
    never completes. *)
Definition Timed (A : Type) : Type := Z -> list (Z * NetEvent) * option (A * Z).

Definition t_ret {A} (a : A) : Timed A := fun now => ([], Some (a, now)).
Definition t_bind {A B} (m : Timed A) (k : A -> Timed B) : Timed B := fun now =>
  match m now with
  | (l, Some (a, now)) => let '(l', r) := k a now in (l ++ l', r)
  | (l, None) => (l, None)
  end.

(** [timeout_at]: what the computation would do past the deadline does not happen. *)
Definition timeout_at {A} (deadline : Z) (m : Timed A) : Timed (option A) := fun now =>
  let '(l, r) := m now in
  match r with
  | Some (a, t) =>
    if t <=? deadline then (l, Some (Some a, t))
    else (List.filter (fun e => e.1 <=? deadline) l, Some (None, Z.max now deadline))
  | None => (List.filter (fun e => e.1 <=? deadline) l, Some (None, Z.max now deadline))
  end.
Definition timeout {A} (d : Z) (m : Timed A) : Timed (option A) := fun now => timeout_at (now + d) m now.

Inductive ErrorCode :=
| HttpProtocolError | HttpRequestUriInvalid | HttpRequestDenied | ConnectionLimitReached
| DnsError | DestinationIpProhibited | ConnectionTimeout | ConnectionRefused | TlsProtocolError
| HyperError | ConnectionReadTimeout | HttpResponseBodySize (limit : Z).
#[export] Instance ErrorCode_eq_dec : EqDecision ErrorCode.
Proof. solve_decision. Defined.

(** Timed computations that can fail, and [timeout(..).await.map_err(..)?]. *)
Definition te_bind {A B} (m : Timed (result A ErrorCode)) (k : A -> Timed (result B ErrorCode))
    : Timed (result B ErrorCode) :=
  t_bind m (fun r => match r with Ok a => k a | Err e => t_ret (Err e) end).
Definition te_timeout {A} (d : Z) (m : Timed (result A ErrorCode)) : Timed (result A ErrorCode) :=
  t_bind (timeout d m) (fun r => t_ret (match r with Some r => r | None => Err ConnectionTimeout end)).

(** ** The request and the network *)

(** The parts of a request URI and the header the connector looks at. *)
Record OutRequest := mkOutRequest {
  or_scheme : option bytes;
  or_authority : option bytes;
  or_host : bytes;
  or_port : option Z;
  or_path_and_query : option bytes;
  or_host_header : option bytes;
}.

(** What the connector asks of the network; [T] is a connected socket or TLS stream, [S] a
    request sender and [B] a response body. *)
Class HttpNet (T S B : Type) := {
  net_resolve : bytes -> Z -> Z -> option (option (list (IpAddr * Z)) * Z);
  net_connect : IpAddr -> Z -> Z -> option (option T * Z);
  net_tls_config : option unit;
  net_server_name : bytes -> bool;
  net_tls : bytes -> T -> Z -> option (option T * Z);
  net_handshake : T -> Z -> option (option S * Z);
  net_send : S -> bytes -> option bytes -> Z -> option (option B * Z);
  net_header_value : bytes -> option bytes;
  net_path_ok : bytes -> bool;
}.

Definition step {A} (e : NetEvent) (m : Z -> option (A * Z)) : Timed A := fun now => ([(now, e)], m now).

Section connector.
Context {IpNet : Type} (contains : IpNet -> IpAddr -> bool).
Context {T S B : Type} `{HttpNet T S B}.

Record OutboundPolicy := mkOutPolicy {
  op_allow : list AllowEntry;
  op_allow_private : list IpNet;
  op_connect_timeout : Z;
  op_total_timeout : Z;
  op_max_response_bytes : Z;
  op_max_concurrent : Z;
}.

Definition authority_of (request : OutRequest) (use_tls : bool) : option (bytes * Z) :=
  match or_authority request with
  | None => None
  | Some _ =>
    match or_host request with
    | [] => None
    | host => Some (host, default (if use_tls then 443 else 80) (or_port request))
    end
  end.

Definition all_addresses_allowed (addrs : list (IpAddr * Z)) (policy : OutboundPolicy) : bool :=
  forallb (fun a => bool_decide (classify contains a.1 (op_allow_private policy) = Allowed)) addrs.

Definition of_option {A} (e : ErrorCode) (o : option A) : result A ErrorCode :=
  match o with Some a => Ok a | None => Err e end.

Definition tls_connect (host : bytes) (tcp : T) (connect_timeout : Z) : Timed (result T ErrorCode) :=
  match net_tls_config (T := T) (S := S) (B := B) with
  | None => t_ret (Err TlsProtocolError)
  | Some _ =>
    if negb (net_server_name (T := T) (S := S) (B := B) host) then t_ret (Err DnsError)
    else te_timeout connect_timeout
      (t_bind (step (EvTls host) (net_tls (S := S) (B := B) host tcp)) (fun r => t_ret (of_option TlsProtocolError r)))
  end.

Definition handshake (io : T) (connect_timeout : Z) : Timed (result S ErrorCode) :=
  te_timeout connect_timeout
    (t_bind (step EvHandshake (net_handshake (B := B) io)) (fun r => t_ret (of_option HyperError r))).

(** The [Host] header sent: the guest's, or the authority when it is a valid value. *)
Definition host_header (request : OutRequest) : option bytes :=
  match or_host_header request with
  | Some v => Some v
  | None => a ← or_authority request; net_header_value (T := T) (S := S) (B := B) a
  end.

Definition connect_and_send (addr : IpAddr * Z) (host : bytes) (use_tls : bool)
    (connect_timeout : Z) (request : OutRequest) : Timed (result B ErrorCode) :=
  let header := host_header request in
  te_bind
    (te_timeout connect_timeout
       (t_bind (step (EvDial addr.1 addr.2) (net_connect (S := S) (B := B) addr.1 addr.2))
          (fun r => t_ret (of_option ConnectionRefused r))))
    (fun tcp =>
  te_bind
    (if use_tls then te_bind (tls_connect host tcp connect_timeout) (fun tls => handshake tls connect_timeout)
     else handshake tcp connect_timeout)
    (fun sender =>
  let path := default (bs "/") (or_path_and_query request) in
  if negb (net_path_ok (T := T) (S := S) (B := B) path) then t_ret (Err HttpRequestUriInvalid)
  else t_bind (step (EvSend path header) (net_send (T := T) sender path header))
         (fun r => t_ret (of_option HyperError r)))).

Definition resolve_and_connect (host : bytes) (port : Z) (policy : OutboundPolicy) (use_tls : bool)
    (request : OutRequest) : Timed (result B ErrorCode) :=
  t_bind (step (EvResolve host port) (net_resolve (T := T) (S := S) (B := B) host port)) (fun r =>
    match r with
    | None | Some [] => t_ret (Err DnsError)
    | Some ((first :: _) as addrs) =>
      if negb (all_addresses_allowed addrs policy) then t_ret (Err DestinationIpProhibited)
      else connect_and_send first host use_tls (op_connect_timeout policy) request
    end).

(** The checks before any network work: the destination the call may go on with. *)
Definition admission (policy : OutboundPolicy) (request : OutRequest) : result (Scheme * bytes * Z) ErrorCode :=
  let scheme :=
    match or_scheme request with
    | Some s =>
      if bytes_eqb s (bs "https") then Some Https else if bytes_eqb s (bs "http") then Some Http else None
    | None => None
    end in
  match scheme with
  | None => Err HttpProtocolError
  | Some scheme =>
    match authority_of request (bool_decide (scheme = Https)) with
    | None => Err HttpRequestUriInvalid
    | Some (host, port) =>
      if allows (op_allow policy) scheme host port then Ok (scheme, host, port) else Err HttpRequestDenied
    end
  end.

(** [dispatch] at time [now] while [available] permits are left: what it did, the response with the
    deadline its body gets, and whether the permit it took is still held afterwards.  A refused
    or failed call drops its permit. *)
Definition dispatch (policy : OutboundPolicy) (request : OutRequest) (available now : Z)
    : list (Z * NetEvent) * result (B * Z) ErrorCode * bool :=
  let deadline := now + op_total_timeout policy in
  match admission policy request with
  | Err e => ([], Err e, false)
  | Ok (scheme, host, port) =>
    if available <=? 0 then ([], Err ConnectionLimitReached, false)
    else
      match timeout_at deadline
              (resolve_and_connect host port policy (bool_decide (scheme = Https)) request) now with
      | (log, Some (Some (Ok body), _)) => (log, Ok (body, deadline), true)
      | (log, Some (Some (Err e), _)) => (log, Err e, false)
      | (log, _) => (log, Err ConnectionTimeout, false)
      end
  end.
End connector.

(** ** The response body *)

Inductive Poll (D : Type) := Pending | ReadyFrame (d : D) | ReadyEnd | ReadyErr (e : ErrorCode).
Arguments Pending {D}.
Arguments ReadyFrame {D} d.
Arguments ReadyEnd {D}.
Arguments ReadyErr {D} e.

(** A body one can poll at a time; the connector's innermost is the size-capped client body. *)
Class PollBody (B D : Type) := poll_frame : Z -> B -> Poll D * B.

Definition is_ready {D} (p : Poll D) : bool := match p with Pending => false | _ => true end.

Section bodies.
Context {B D : Type} `{PollBody B D}.

Record BodyWithTimeout := mkBodyTimeout {
  bt_inner : B;
  bt_timeout : Z;
  bt_reset_sleep : bool;
  bt_between : Z;
}.

Definition body_with_timeout (inner : B) (between now : Z) : BodyWithTimeout :=
  mkBodyTimeout inner now true between.

#[export] Instance timeout_poll : PollBody BodyWithTimeout D := fun now me =>
  let deadline := if bt_reset_sleep me then now + bt_between me else bt_timeout me in
  if deadline <=? now then (ReadyErr ConnectionReadTimeout, mkBodyTimeout (bt_inner me) deadline false (bt_between me))
  else
    let '(result, inner) := poll_frame now (bt_inner me) in
    (result, mkBodyTimeout inner deadline (is_ready result) (bt_between me)).

(** [None] is the empty body left behind; [bl_lifetime] says the permit and the driver are held. *)
Record BodyWithRequestLifetime := mkBodyLifetime {
  bl_inner : option BodyWithTimeout;
  bl_deadline : Z;
  bl_lifetime : bool;
}.

Definition body_with_lifetime (inner : BodyWithTimeout) (deadline : Z) : BodyWithRequestLifetime :=
  mkBodyLifetime (Some inner) deadline true.

Definition release (me : BodyWithRequestLifetime) : BodyWithRequestLifetime :=
  if bl_lifetime me then mkBodyLifetime None (bl_deadline me) false else me.

#[export] Instance lifetime_poll : PollBody BodyWithRequestLifetime D := fun now me =>
  if negb (bl_lifetime me) then (ReadyEnd, me)
  else if bl_deadline me <=? now then (ReadyErr ConnectionReadTimeout, release me)
  else
    let '(result, inner) :=
      match bl_inner me with
      | Some inner => let '(r, inner) := poll_frame now inner in (r, Some inner)
      | None => (ReadyEnd, None)
      end in
    let me := mkBodyLifetime inner (bl_deadline me) (bl_lifetime me) in
    match result with
    | ReadyEnd | ReadyErr _ => (result, release me)
    | _ => (result, me)
    end.

(** The guest's polls of a response over time. *)
Fixpoint poll_run (times : list Z) (me : BodyWithRequestLifetime) : list (Z * Poll D) * BodyWithRequestLifetime :=
  match times with
  | [] => ([], me)
  | now :: times =>
    let '(r, me) := poll_frame now me in
    let '(rs, me) := poll_run times me in ((now, r) :: rs, me)
  end.
End bodies.

(** ** Timing *)

(** A computation that takes no negative time and acts within it. *)
Definition timely {A} (m : Timed A) : Prop :=
  forall now, Forall (fun e => now <= e.1) (fst (m now)) /\
    forall a t, snd (m now) = Some (a, t) -> now <= t /\ Forall (fun e => e.1 <= t) (fst (m now)).

(** Only events of a kind. *)
Definition emits {A} (P : NetEvent -> Prop) (m : Timed A) : Prop :=
  forall now, Forall (fun e => P e.2) (fst (m now)).

Lemma timely_ret {A} (a : A) : timely (t_ret a).
Proof. intros now. split; [constructor|]. intros a' t [= <- <-]. split; [lia|constructor]. Qed.

Lemma timely_bind {A B} (m : Timed A) (k : A -> Timed B) :
  timely m -> (forall a, timely (k a)) -> timely (t_bind m k).
Proof.
  intros Hm Hk now. unfold t_bind. destruct (Hm now) as [H1 H2].
  destruct (m now) as [l [[a t]|]]; cbn [fst snd] in *; [|by split].
  destruct (H2 a t eq_refl) as [Ht Hl]. destruct (Hk a t) as [H3 H4].
  destruct (k a t) as [l' r]. cbn [fst snd] in *. split.
  - apply Forall_app. split; [done|]. eapply Forall_impl; [exact H3|]. cbn. lia.
  - intros b t' ->. destruct (H4 b t' eq_refl) as [Ht' Hl']. split; [lia|].
    apply Forall_app. split; [|done]. eapply Forall_impl; [exact Hl|]. cbn. lia.
Qed.

Lemma timely_timeout_at {A} deadline (m : Timed A) :
  timely m -> forall now, now <= deadline ->
  let '(l, r) := timeout_at deadline m now in
  Forall (fun e => now <= e.1 <= deadline) l /\
  forall o t, r = Some (o, t) -> now <= t <= deadline /\ Forall (fun e => e.1 <= t) l.
Proof.
  intros Hm now Hnow. unfold timeout_at. destruct (Hm now) as [H1 H2].
  destruct (m now) as [l r]. cbn [fst snd] in *.
  assert (Hf : Forall (fun e : Z * NetEvent => now <= e.1 <= deadline) (List.filter (fun e => e.1 <=? deadline) l)).
  { rewrite Forall_forall in H1 |- *. intros e He. apply list_elem_of_In, filter_In in He as [He Hle].
    apply Z.leb_le in Hle. specialize (H1 e). rewrite list_elem_of_In in H1. specialize (H1 He). lia. }
  assert (Hlate : forall o t, Some (@None A, Z.max now deadline) = Some (o, t) ->
    now <= t <= deadline /\ Forall (fun e => e.1 <= t) (List.filter (fun e => e.1 <=? deadline) l)).
  { intros o t [= <- <-]. split; [lia|]. eapply Forall_impl; [exact Hf|]. cbn. lia. }
  destruct r as [[a t]|]; [|by split]. destruct (H2 a t eq_refl) as [Ht Hl].
  destruct (Z.leb_spec t deadline); [|by split]. split.
  - rewrite Forall_forall in *. intros e He. specialize (H1 e He). specialize (Hl e He). lia.
  - intros o t' [= <- <-]. by split.
Qed.

Lemma timely_timeout {A} d (m : Timed A) : 0 <= d -> timely m -> timely (timeout d m).
Proof.
  intros Hd Hm now. unfold timeout. pose proof (timely_timeout_at (now + d) m Hm now ltac:(lia)) as H.
  destruct (timeout_at _ _ _) as [l r]. destruct H as [H1 H2]. cbn [fst snd]. split.
  - eapply Forall_impl; [exact H1|]. cbn. lia.
  - intros a t ->. destruct (H2 a t eq_refl) as [? ?]. split; [lia|done].
Qed.

Lemma emits_bind {A B} P (m : Timed A) (k : A -> Timed B) :
  emits P m -> (forall a, emits P (k a)) -> emits P (t_bind m k).
Proof.
  intros Hm Hk now. unfold t_bind. specialize (Hm now).
  destruct (m now) as [l [[a t]|]]; cbn [fst] in *; [|done].
  specialize (Hk a t). destruct (k a t) as [l' r]. cbn [fst] in *. by apply Forall_app.
Qed.

Lemma emits_timeout_at {A} P d (m : Timed A) : emits P m -> emits P (timeout_at d m).
Proof.
  intros Hm now. unfold timeout_at. specialize (Hm now). destruct (m now) as [l r]. cbn [fst] in Hm.
  assert (Hf : Forall (fun e : Z * NetEvent => P e.2) (List.filter (fun e => e.1 <=? d) l)).
  { rewrite Forall_forall in *. intros e He. apply list_elem_of_In, filter_In in He as [He _].
    apply Hm. by apply list_elem_of_In. }
  destruct r as [[a t]|]; [destruct (t <=? d)|]; done.
Qed.

Lemma emits_timeout {A} P d (m : Timed A) : emits P m -> emits P (timeout d m).
Proof. intros Hm now. unfold timeout. by apply (emits_timeout_at P (now + d) m Hm). Qed.

Lemma emits_ret {A} P (a : A) : emits P (t_ret a).
Proof. intros now. constructor. Qed.

#[export] Hint Resolve timely_ret timely_bind timely_timeout emits_ret emits_bind emits_timeout : timed.

(** ** What a dispatch does *)

(** The network takes time forwards. *)
Class HttpNetLaws (T S B : Type) `{HttpNet T S B} := {
  net_resolve_later h p now r t : net_resolve (T := T) (S := S) (B := B) h p now = Some (r, t) -> now <= t;
  net_connect_later ip p now r t : net_connect (T := T) (S := S) (B := B) ip p now = Some (r, t) -> now <= t;
  net_tls_later h c now r t : net_tls (T := T) (S := S) (B := B) h c now = Some (r, t) -> now <= t;
  net_handshake_later c now r t : net_handshake (T := T) (S := S) (B := B) c now = Some (r, t) -> now <= t;
  net_send_later s p h now r t : net_send (T := T) (S := S) (B := B) s p h now = Some (r, t) -> now <= t;
}.

Lemma timely_step {A} e (m : Z -> option (A * Z)) :
  (forall now a t, m now = Some (a, t) -> now <= t) -> timely (step e m).
Proof.
  intros Hm now. split; cbn; [by repeat constructor|]. intros a t Ht. specialize (Hm _ _ _ Ht).
  split; [done|]. by repeat constructor.
Qed.

Lemma emits_step {A} (P : NetEvent -> Prop) e (m : Z -> option (A * Z)) : P e -> emits P (step e m).
Proof. intros He now. by repeat constructor. Qed.

#[export] Hint Resolve emits_step : timed.

Lemma te_bind_log {A B} (m : Timed (result A ErrorCode)) (k : A -> Timed (result B ErrorCode)) now :
  fst (te_bind m k now) = fst (m now) \/
  exists l1 a t1, m now = (l1, Some (Ok a, t1)) /\ te_bind m k now = (l1 ++ fst (k a t1), snd (k a t1)).
Proof.
  unfold te_bind, t_bind. destruct (m now) as [l1 [[[a|e] t1]|]]; [right|left..]; cbn.
  - exists l1, a, t1. by destruct (k a t1).
  - apply app_nil_r.
  - done.
Qed.

Lemma te_bind_ok {A B} (m : Timed (result A ErrorCode)) (k : A -> Timed (result B ErrorCode)) now l b t :
  te_bind m k now = (l, Some (Ok b, t)) ->
  exists l1 a t1 l2, m now = (l1, Some (Ok a, t1)) /\ k a t1 = (l2, Some (Ok b, t)) /\ l = l1 ++ l2.
Proof.
  unfold te_bind, t_bind. destruct (m now) as [l1 [[[a|e] t1]|]]; [|by cbn; intros [= ? ?]|done].
  destruct (k a t1) as [l2 r] eqn:Ek. intros [= <- ->]. by exists l1, a, t1, l2.
Qed.

Lemma timely_te_bind {A B} (m : Timed (result A ErrorCode)) (k : A -> Timed (result B ErrorCode)) :
  timely m -> (forall a, timely (k a)) -> timely (te_bind m k).
Proof. intros Hm Hk. apply timely_bind; [done|]. intros [a|e]; auto with timed. Qed.

Lemma emits_te_bind {A B} P (m : Timed (result A ErrorCode)) (k : A -> Timed (result B ErrorCode)) :
  emits P m -> (forall a, emits P (k a)) -> emits P (te_bind m k).
Proof. intros Hm Hk. apply emits_bind; [done|]. intros [a|e]; auto with timed. Qed.

Lemma timely_te_timeout {A} d (m : Timed (result A ErrorCode)) : 0 <= d -> timely m -> timely (te_timeout d m).
Proof. intros. apply timely_bind; auto with timed. Qed.

Lemma emits_te_timeout {A} P d (m : Timed (result A ErrorCode)) : emits P m -> emits P (te_timeout d m).
Proof. intros. apply emits_bind; auto with timed. Qed.

#[export] Hint Resolve timely_te_bind emits_te_bind timely_te_timeout emits_te_timeout : timed.

Section dispatching.
Context {IpNet : Type} (contains : IpNet -> IpAddr -> bool).
Context {T S B : Type} `{HttpNetLaws T S B}.

Lemma timely_tls host (tcp : T) d : 0 <= d -> timely (tls_connect (S := S) (B := B) host tcp d).
Proof.
  intros. unfold tls_connect. destruct net_tls_config; [|auto with timed]. case_match; [auto with timed|].
  apply timely_te_timeout; [done|]. apply timely_bind; [|auto with timed].
  apply timely_step. intros *. apply net_tls_later.
Qed.

Lemma timely_handshake (io : T) d : 0 <= d -> timely (handshake (S := S) (B := B) io d).
Proof.
  intros. apply timely_te_timeout; [done|]. apply timely_bind; [|auto with timed].
  apply timely_step. intros *. apply net_handshake_later.
Qed.

Lemma timely_connect addr host use_tls d request :
  0 <= d -> timely (connect_and_send (T := T) (S := S) (B := B) addr host use_tls d request).
Proof.
  intros. apply timely_te_bind.
  - apply timely_te_timeout; [done|]. apply timely_bind; [|auto with timed].
    apply timely_step. intros *. apply net_connect_later.
  - intros tcp. apply timely_te_bind.
    + destruct use_tls; [apply timely_te_bind; [by apply timely_tls|]; intros|]; by apply timely_handshake.
    + intros sender. cbv zeta beta. case_match; [auto with timed|]. apply timely_bind; [|auto with timed].
      apply timely_step. intros *. apply net_send_later.
Qed.

(** What connecting to a vetted address may do. *)
Definition connect_event (addr : IpAddr * Z) (host : bytes) (use_tls : bool) (request : OutRequest)
    (e : NetEvent) : Prop :=
  match e with
  | EvResolve _ _ => False
  | EvDial ip port => (ip, port) = addr
  | EvTls name => use_tls = true /\ name = host
  | EvHandshake => True
  | EvSend path header =>
    path = default (bs "/") (or_path_and_query request) /\
    header = host_header (T := T) (S := S) (B := B) request
  end.

Lemma emits_tls P host (tcp : T) d : P (EvTls host) -> emits P (tls_connect (S := S) (B := B) host tcp d).
Proof. intros. unfold tls_connect. repeat case_match; auto with timed. Qed.

Lemma emits_handshake P (io : T) d : P EvHandshake -> emits P (handshake (S := S) (B := B) io d).
Proof. intros. unfold handshake. auto with timed. Qed.

Lemma emits_connect addr host use_tls d request :
  emits (connect_event addr host use_tls request)
    (connect_and_send (T := T) (S := S) (B := B) addr host use_tls d request).
Proof.
  apply emits_te_bind; [apply emits_te_timeout, emits_bind; [by apply emits_step; destruct addr|auto with timed]|].
  intros tcp. apply emits_te_bind.
  - destruct use_tls; [apply emits_te_bind; [by apply emits_tls|]; intros|]; by apply emits_handshake.
  - intros sender. cbv zeta beta. case_match; [auto with timed|].
    apply emits_bind; [by apply emits_step|auto with timed].
Qed.

(** A completed TLS connection was made under the original host name. *)
Lemma tls_connected host (tcp : T) d now l tls t :
  tls_connect (S := S) (B := B) host tcp d now = (l, Some (Ok tls, t)) -> 0 <= d ->
  exists t', t' <= t /\ (t', EvTls host) ∈ l.
Proof.
  intros Hc Hd. pose proof (timely_tls host tcp d Hd now) as [_ Ht]. rewrite Hc in Ht. cbn in Ht.
  destruct (Ht _ _ eq_refl) as [Hnow Hl]. unfold tls_connect in Hc.
  destruct net_tls_config; [|done]. case_match; [done|].
  assert (Hin : (now, EvTls host) ∈ l); [|by exists now].
  unfold te_timeout, t_bind, timeout, timeout_at, step in Hc. cbn in Hc.
  destruct (net_tls host tcp now) as [[[c|] t1]|]; cbn in Hc;
    repeat (destruct (_ <=? _) eqn:? in Hc; cbn in Hc); simplify_eq; by left.
Qed.

(** Over TLS nothing is sent before the host name has been verified. *)
Lemma sends_after_tls addr host d request now path header t :
  0 <= d -> (t, EvSend path header) ∈ fst (connect_and_send (T := T) (S := S) (B := B) addr host true d request now) ->
  exists t', t' <= t /\ (t', EvTls host) ∈ fst (connect_and_send (T := T) (S := S) (B := B) addr host true d request now).
Proof.
  intros Hd Hin. unfold connect_and_send in Hin |- *.
  assert (Hno : forall {A} (m : Timed A) now, emits (fun e => match e with EvSend _ _ => False | _ => True end) m ->
    (t, EvSend path header) ∉ fst (m now)).
  { intros A m now' Hm Hx. specialize (Hm now'). rewrite Forall_forall in Hm. by apply (Hm _ Hx). }
  set (dial := te_timeout d _) in *. set (rest := fun tcp : T => _) in *.
  destruct (te_bind_log dial rest now) as [E|(l1 & tcp & t1 & Hm & E)]; rewrite E in Hin |- *; cbn [fst] in Hin |- *.
  { exfalso. apply (Hno _ dial now); [|done]. subst dial. auto with timed. }
  apply elem_of_app in Hin as [Hin|Hin].
  { exfalso. apply (Hno _ dial now); [subst dial; auto with timed|]. by rewrite Hm. }
  subst rest. cbn beta in *. set (conn := te_bind (tls_connect host tcp d) _) in *. set (fin := fun sender : S => _) in *.
  assert (Hconn : forall now, (t, EvSend path header) ∉ fst (conn now)).
  { intros now'. apply Hno. subst conn. apply emits_te_bind; [by apply emits_tls|]. intros; by apply emits_handshake. }
  destruct (te_bind_log conn fin t1) as [E2|(l2 & s & t2 & Hm2 & E2)]; rewrite E2 in Hin |- *; cbn [fst] in Hin |- *.
  { by apply Hconn in Hin. }
  apply elem_of_app in Hin as [Hin|Hin]; [exfalso; apply (Hconn t1); by rewrite Hm2|].
  destruct (te_bind_ok _ _ _ _ _ _ Hm2) as (la & tls & ta & lb & Htls & Hhs & ->).
  destruct (tls_connected _ _ _ _ _ _ _ Htls Hd) as (t' & Ht' & Hl').
  pose proof (timely_handshake tls d Hd ta) as [_ Hta]. rewrite Hhs in Hta. destruct (Hta _ _ eq_refl) as [Hle _].
  assert (Hfin : timely (fin s)).
  { subst fin. cbv zeta beta. case_match; [auto with timed|]. apply timely_bind; [|auto with timed].
    apply timely_step. intros *. apply net_send_later. }
  destruct (Hfin t2) as [Hf _]. rewrite Forall_forall in Hf. specialize (Hf _ Hin). cbn in Hf.
  exists t'. split; [lia|]. rewrite !elem_of_app. auto.
Qed.

(** The events of a call to [host] and [port]. *)
Definition vetted_event (policy : OutboundPolicy (IpNet := IpNet)) (request : OutRequest) (scheme : Scheme)
    (host : bytes) (port start : Z) (log : list (Z * NetEvent)) (e : Z * NetEvent) : Prop :=
  match e.2 with
  | EvResolve h p => h = host /\ p = port
  | EvDial ip p => exists addrs t,
      net_resolve (T := T) (S := S) (B := B) host port start = Some (Some ((ip, p) :: addrs), t) /\
      Forall (fun a => classify contains a.1 (op_allow_private policy) = Allowed) ((ip, p) :: addrs)
  | EvTls name => scheme = Https /\ name = host
  | EvHandshake => True
  | EvSend path header =>
    path = default (bs "/") (or_path_and_query request) /\
    header = host_header (T := T) (S := S) (B := B) request /\
    (scheme = Https -> exists t', t' <= e.1 /\ (t', EvTls host) ∈ log)
  end.

Lemma admit_allowed (policy : OutboundPolicy (IpNet := IpNet)) request scheme host port :
  admission policy request = Ok (scheme, host, port) -> allows (op_allow policy) scheme host port = true.
Proof. unfold admission. intros H1. repeat case_match; simplify_eq; done. Qed.

Lemma resolve_and_connect_events policy request scheme host port now :
  0 <= op_connect_timeout policy ->
  let log := fst (resolve_and_connect (T := T) (S := S) (B := B) contains host port policy
               (bool_decide (scheme = Https)) request now) in
  Forall (vetted_event policy request scheme host port now log) log.
Proof.
  intros Hd. unfold resolve_and_connect, t_bind, step.
  destruct (net_resolve host port now) as [[[[|a addrs]|] t]|] eqn:Er; cbn; try by repeat constructor.
  destruct (all_addresses_allowed contains (a :: addrs) policy) eqn:Hall; cbn in Hall; rewrite Hall; cbn;
    [|by repeat constructor].
  destruct (connect_and_send a host _ _ request t) as [l r] eqn:Ec. cbn.
  constructor; [done|].
  pose proof (emits_connect a host (bool_decide (scheme = Https)) (op_connect_timeout policy) request t) as He.
  rewrite Ec in He. cbn in He. rewrite Forall_forall in He |- *. intros [te e] Hin.
  specialize (He _ Hin). unfold vetted_event. destruct e as [|ip p| | |path header]; cbn in He |- *; [done| | |done|].
  - exists addrs, t. subst a. split; [done|]. unfold all_addresses_allowed in Hall. apply Forall_forall.
    intros x Hx. apply andb_true_iff in Hall as [Ha Hr]. apply elem_of_cons in Hx as [->|Hx].
    + by apply bool_decide_eq_true in Ha.
    + rewrite forallb_forall in Hr. apply list_elem_of_In, Hr in Hx. by apply bool_decide_eq_true in Hx.
  - destruct He as [Hs ->]. by apply bool_decide_eq_true in Hs.
  - destruct He as [-> ->]. split; [done|]. split; [done|]. intros ->. rewrite bool_decide_true in Ec by done.
    destruct (sends_after_tls a host (op_connect_timeout policy) request t
      (default (bs "/") (or_path_and_query request)) (host_header (T := T) (S := S) (B := B) request) te Hd) as (t' & Ht' & Hl);
      [by rewrite Ec|]. rewrite Ec in Hl. exists t'. split; [done|]. by right.
Qed.

(** Cutting the log at a deadline keeps its events vetted. *)
Lemma vetted_timeout {A} policy request scheme host port start deadline (m : Timed A) now :
  Forall (vetted_event policy request scheme host port start (fst (m now))) (fst (m now)) ->
  Forall (vetted_event policy request scheme host port start (fst (timeout_at deadline m now)))
    (fst (timeout_at deadline m now)).
Proof.
  intros Hl. unfold timeout_at. destruct (m now) as [l r]. cbn [fst] in Hl.
  assert (Hf : Forall (vetted_event policy request scheme host port start (List.filter (fun e => e.1 <=? deadline) l))
    (List.filter (fun e => e.1 <=? deadline) l)).
  { rewrite Forall_forall in Hl |- *. intros e He. apply list_elem_of_In, filter_In in He as [He Hle].
    apply list_elem_of_In in He. specialize (Hl e He). unfold vetted_event in *.
    destruct e.2; try done. destruct Hl as (H1 & H2 & H3). split; [done|]. split; [done|].
    intros Hs. destruct (H3 Hs) as (t' & Ht' & Hin). exists t'. split; [done|].
    apply list_elem_of_In, filter_In. split; [by apply list_elem_of_In|].
    apply Z.leb_le in Hle. apply Z.leb_le. cbn. lia. }
  destruct r as [[a t]|]; [destruct (t <=? deadline)|]; done.
Qed.

Lemma timely_resolve_and_connect policy request use_tls host port :
  0 <= op_connect_timeout policy ->
  timely (resolve_and_connect (T := T) (S := S) (B := B) contains host port policy use_tls request).
Proof.
  intros Hd. apply timely_bind; [apply timely_step; intros *; apply net_resolve_later|].
  intros [[|a addrs]|]; [auto with timed| |auto with timed].
  case_match; [auto with timed|]. by apply timely_connect.
Qed.
End dispatching.

(** C10: an outbound call acts only within its absolute deadline and only for an allowlisted
    destination with a permit free, so nothing is resolved or dialled for a refused one; the one
    address it dials is the first of the answer to its own resolution, every address of which
    the SSRF guard allows; TLS is verified against the original host name, and over https
    nothing is sent before that; and only a response keeps the permit. *)
Theorem outbound_http_vetted {IpNet T S B : Type} (contains : IpNet -> IpAddr -> bool)
    `{HttpNetLaws T S B} (policy : OutboundPolicy) (request : OutRequest) (available now : Z)
    (log : list (Z * NetEvent)) (r : result (B * Z) ErrorCode) (kept : bool) :
  0 <= op_connect_timeout policy -> 0 <= op_total_timeout policy ->
  dispatch (T := T) (S := S) contains policy request available now = (log, r, kept) ->
  Forall (fun e => now <= e.1 <= now + op_total_timeout policy) log /\
  (kept = true <-> exists body, r = Ok (body, now + op_total_timeout policy)) /\
  (log = [] \/ exists scheme host port,
     admission policy request = Ok (scheme, host, port) /\
     allows (op_allow policy) scheme host port = true /\ 0 < available /\
     Forall (vetted_event (T := T) (S := S) (B := B) contains policy request scheme host port now log) log).
Proof.
  intros Hc Ht Hd. unfold dispatch in Hd.
  assert (Hrefused : forall e, (log, r, kept) = ([], Err e, false) ->
    Forall (fun e => now <= e.1 <= now + op_total_timeout policy) log /\
    (kept = true <-> exists body, r = Ok (body, now + op_total_timeout policy)) /\ log = []).
  { intros e [= -> -> ->]. split; [constructor|]. split; [|done]. split; [done|]. by intros [? ?]. }
  destruct (admission policy request) as [[[scheme host] port]|e] eqn:Ha;
    [|destruct (Hrefused e (eq_sym Hd)) as (H1 & H2 & H3); by auto].
  destruct (Z.leb_spec available 0);
    [destruct (Hrefused _ (eq_sym Hd)) as (H1' & H2' & H3'); by auto|].
  set (m := resolve_and_connect contains host port policy _ request) in Hd.
  assert (Hm : timely m) by by apply timely_resolve_and_connect.
  pose proof (timely_timeout_at (now + op_total_timeout policy) m Hm now ltac:(lia)) as Hlog.
  pose proof (resolve_and_connect_events contains policy request scheme host port now Hc) as Hev. fold m in Hev. cbn zeta in Hev.
  assert (Hres : log = fst (timeout_at (now + op_total_timeout policy) m now) /\
    (kept = true <-> exists body, r = Ok (body, now + op_total_timeout policy))).
  { destruct (timeout_at _ m now) as [l [[[[body|e]|] t]|]]; injection Hd as <- <- <-; split; try done; naive_solver. }
  destruct Hres as [-> Hk]. split; [by destruct (timeout_at _ m now); apply Hlog|]. split; [done|].
  right. exists scheme, host, port. split; [done|]. split; [by apply (admit_allowed _ request)|]. split; [lia|].
  by apply vetted_timeout.
Qed.

(** A network where every step takes one millisecond and a name resolves to one public address. *)
#[local] Instance demo_net : HttpNet unit unit unit := {|
  net_resolve _ p now := Some (Some [(V4 93 184 216 34, p)], now + 1);
  net_connect _ _ now := Some (Some tt, now + 1);
  net_tls_config := Some tt;
  net_server_name _ := true;
  net_tls _ _ now := Some (Some tt, now + 1);
  net_handshake _ now := Some (Some tt, now + 1);
  net_send _ _ _ now := Some (Some tt, now + 1);
  net_header_value v := Some v;
  net_path_ok _ := true;
|}.
#[local] Instance demo_net_laws : HttpNetLaws unit unit unit.
Proof. split; cbn; intros; simplify_eq; lia. Qed.

Definition demo_out_policy : OutboundPolicy (IpNet := unit) :=
  mkOutPolicy [mkAllow Https (bs "Keys.example") 443] [] 100 1000 65536 8.
Definition demo_out_request : OutRequest :=
  mkOutRequest (Some (bs "https")) (Some (bs "keys.example")) (bs "keys.example") None
    (Some (bs "/jwks")) None.

Lemma outbound_http_vetted_witness :
  exists log, dispatch (T := unit) (S := unit) (fun (_ : unit) _ => false) demo_out_policy demo_out_request 1 0
      = (log, Ok (tt, 1000), true) /\
    length log = 5%nat /\ Forall (fun e => 0 <= e.1 <= 0 + 1000) log.
Proof.
  eexists. split; [vm_compute; reflexivity|]. split; [reflexivity|].
  refine (proj1 (outbound_http_vetted (fun (_ : unit) _ => false) demo_out_policy demo_out_request 1 0 _
    (Ok (tt, 1000)) true _ _ _)); [cbn; lia|cbn; lia|vm_compute; reflexivity].
Defined.

(** ** What a response body promises *)

Section response.
Context {B D : Type} `{PollBody B D}.

Definition terminal (p : Poll D) : bool := match p with ReadyEnd | ReadyErr _ => true | _ => false end.

Lemma poll_released now (me : BodyWithRequestLifetime (B := B)) :
  bl_lifetime me = false -> poll_frame now me = (ReadyEnd (D := D), me).
Proof. intros Hl. unfold poll_frame, lifetime_poll. by rewrite Hl. Qed.

Lemma poll_run_released times (me : BodyWithRequestLifetime (B := B)) :
  bl_lifetime me = false ->
  poll_run times me = (map (fun t => (t, ReadyEnd (D := D))) times, me).
Proof.
  intros Hl. induction times as [|t times IH]; [done|]. cbn [poll_run map].
  by rewrite poll_released, IH.
Qed.

(** One poll of a live body. *)
Lemma poll_live now (me : BodyWithRequestLifetime (B := B)) r me' :
  poll_frame now me = (r, me') -> bl_lifetime me = true ->
  bl_deadline me' = bl_deadline me /\
  bl_lifetime me' = negb (terminal r) /\ (terminal r = true -> bl_inner me' = None) /\
  (bl_deadline me <= now -> r = ReadyErr ConnectionReadTimeout).
Proof.
  unfold poll_frame, lifetime_poll. intros Hp Hl. rewrite Hl in Hp. cbn [negb] in Hp.
  assert (Hrel : forall i, release (mkBodyLifetime (B := B) i (bl_deadline me) true) = mkBodyLifetime None (bl_deadline me) false)
    by done.
  destruct (Z.leb_spec (bl_deadline me) now).
  - injection Hp as <- <-. unfold release. by rewrite Hl.
  - destruct (match bl_inner me with Some _ => _ | None => _ end) as [result inner].
    destruct result; injection Hp as <- <-; rewrite ?Hrel; cbn; rewrite ?Hl; split_and!; try done; lia.
Qed.

(** A guest that polls a response at any times gets data only before the call's absolute
    deadline and, from the first end or error on, only the end; the permit and the connection
    are held exactly until then, the buffered body being dropped with them; and a poll at or
    after the deadline always lets them go. *)
Theorem outbound_body_bounded (inner : BodyWithTimeout (B := B)) (deadline : Z) (times : list Z)
    (rs : list (Z * Poll D)) (me : BodyWithRequestLifetime) :
  poll_run times (body_with_lifetime inner deadline) = (rs, me) ->
  (forall t d, (t, ReadyFrame d) ∈ rs -> t < deadline) /\
  (forall i j t r t' r', (i < j)%nat -> rs !! i = Some (t, r) -> terminal r = true ->
     rs !! j = Some (t', r') -> r' = ReadyEnd) /\
  bl_lifetime me = forallb (fun x => negb (terminal x.2)) rs /\
  (bl_lifetime me = false -> bl_inner me = None) /\
  (forall t, t ∈ times -> deadline <= t -> bl_lifetime me = false).
Proof.
  assert (Hgen : forall me0 : BodyWithRequestLifetime (B := B), bl_lifetime me0 = true -> bl_deadline me0 = deadline ->
    forall rs me, poll_run times me0 = (rs, me) ->
    (forall t d, (t, ReadyFrame d) ∈ rs -> t < deadline) /\
    (forall i j t r t' r', (i < j)%nat -> rs !! i = Some (t, r) -> terminal r = true ->
       rs !! j = Some (t', r') -> r' = ReadyEnd) /\
    bl_lifetime me = forallb (fun x => negb (terminal x.2)) rs /\
    (bl_lifetime me = false -> bl_inner me = None) /\
    (forall t, t ∈ times -> deadline <= t -> bl_lifetime me = false)).
  2: { intros Hr. by apply (Hgen (body_with_lifetime inner deadline) eq_refl eq_refl). }
  clear. induction times as [|now times IH]; intros me0 Hl Hd rs me Hr.
  { injection Hr as <- <-. split_and!; [intros t d Hx; by apply elem_of_nil in Hx|done|done|by rewrite Hl|].
    intros t Ht. by apply elem_of_nil in Ht. }
  cbn [poll_run] in Hr. destruct (poll_frame now me0) as [r me1] eqn:Ep.
  destruct (poll_live _ _ _ _ Ep Hl) as (Hd1 & Hl1 & Hi1 & Hlate).
  destruct (terminal r) eqn:Et.
  - rewrite (poll_run_released times me1 Hl1) in Hr. injection Hr as <- <-.
    assert (Hend : forall i x, map (fun t => (t, ReadyEnd (D := D))) times !! i = Some x -> x.2 = ReadyEnd).
    { intros i x Hx. rewrite list_lookup_fmap in Hx. destruct (times !! i); by simplify_eq/=. }
    split_and!.
    + intros t d [Hx|Hx]%elem_of_cons; [by injection Hx as -> <-|].
      apply list_elem_of_fmap in Hx as (? & [=] & _).
    + intros [|i] [|j] t r1 t' r' Hij Hi Ht Hj; try lia; cbn in Hj; by apply (Hend _ _ Hj).
    + cbn. by rewrite Et, Hl1.
    + intros _. by apply Hi1.
    + done.
  - destruct (poll_run times me1) as [rs1 me2] eqn:Er. injection Hr as <- <-.
    destruct (IH me1 Hl1 (eq_trans Hd1 Hd) _ _ Er) as (H1 & H2 & H3 & H4 & H5).
    assert (Hnow : now < deadline).
    { rewrite <- Hd. destruct (Z.lt_ge_cases now (bl_deadline me0)) as [|Hge]; [done|].
      rewrite (Hlate Hge) in Et. done. }
    split_and!.
    + intros t d [Hx|Hx]%elem_of_cons; [by injection Hx as -> _|by apply (H1 t d)].
    + intros [|i] [|j] t r1 t' r' Hij Hi Ht Hj; try lia; cbn in Hi, Hj; [simplify_eq; congruence|].
      by apply (H2 i j t r1 t' r'); [lia|..].
    + cbn. by rewrite Et, H3.
    + done.
    + intros t [->|Ht]%elem_of_cons Hle; [lia|by apply (H5 t)].
Qed.
End response.

(** A body of one frame, then nothing: a frame, a wait, the deadline, the end. *)
Lemma outbound_body_bounded_witness :
  exists me, poll_run (H := fun now (b : bool) => if b then (ReadyFrame 5, false) else (Pending, false)) [1; 2; 50; 60]
      (body_with_lifetime (body_with_timeout true 100 0) 50)
    = ([(1, ReadyFrame 5); (2, Pending); (50, ReadyErr ConnectionReadTimeout); (60, ReadyEnd)], me) /\
    bl_lifetime me = false /\ bl_inner me = None.
Proof.
  eexists. split; [vm_compute; reflexivity|].
  edestruct (outbound_body_bounded (B := bool) (D := Z)
    (H := fun now (b : bool) => if b then (ReadyFrame 5, false) else (Pending, false))
    (body_with_timeout true 100 0) 50 [1; 2; 50; 60]) as (_ & _ & _ & Hn & Hl); [vm_compute; reflexivity|].
  split; [apply (Hl 50); [do 2 right; by left|lia]|apply Hn, (Hl 50); [do 2 right; by left|lia]].
Defined.
