(* ===== verification/Otlp.v ===== *)
(** * OTLP spans (host/src/otlp.rs)

    Spans in the OpenTelemetry data model, the bounded queue between the data plane and the
    export pump, the hand-written protobuf encoding of an export request and the reader used on
    the collector's answer.  Times are nanoseconds since the epoch, negative before it. *)

From S2P Require Import Prelude Bytes HostApi Manifest Contract Filter Observe.

(** ** Spans *)

Inductive ArrayValue :=
| ArrayBool (l : list bool) | ArrayI64 (l : list Z) | ArrayF64 (bits : list Z) | ArrayString (l : list bytes).

(** [opentelemetry::Value]; a double is its bit pattern. *)
Inductive Value :=
| VString (s : bytes) | VBool (b : bool) | VI64 (i : Z) | VF64 (bits : Z) | VArray (a : ArrayValue).

Record KeyValue := mkKeyValue { kv_key : bytes; kv_value : Value }.
Record Event := mkEvent { ev_name : bytes; ev_timestamp : Z; ev_attributes : list KeyValue }.
Inductive SpanKind := KindInternal | KindServer | KindClient | KindProducer | KindConsumer.
Inductive Status := StatusUnset | StatusOk | StatusError (description : bytes).

Record SpanRecord := mkRecord {
  sr_trace_id : bytes;
  sr_span_id : bytes;
  sr_parent_span_id : option bytes;
  sr_name : bytes;
  sr_kind : SpanKind;
  sr_start : Z;
  sr_end : Z;
  sr_status : Status;
  sr_attributes : list KeyValue;
  sr_events : list Event;
  sr_remote_parent : bool;
  sr_sampled : bool;
}.

Definition request_span (trace : RequestTrace) (method path scheme : bytes) (status_code start duration : Z)
    : SpanRecord :=
  mkRecord (tr_trace_id trace) (tr_request_span_id trace) (tr_parent_span_id trace) method KindServer
    start (start + duration)
    (if 500 <=? status_code then StatusError [] else StatusUnset)
    [mkKeyValue (bs "http.request.method") (VString method);
     mkKeyValue (bs "url.path") (VString path);
     mkKeyValue (bs "url.scheme") (VString scheme);
     mkKeyValue (bs "http.response.status_code") (VI64 status_code)]
    [] (match tr_parent_span_id trace with Some _ => true | None => false end) (is_sampled trace).

Definition outcome_str (o : SpanOutcome) : bytes :=
  match o with
  | SoContinue => bs "continue"
  | SoModified => bs "modified"
  | SoShortCircuit => bs "short-circuit"
  | SoReplace => bs "replace"
  | SoDeadline => bs "deadline"
  | SoTrap => bs "trap"
  | SoInstantiateError => bs "instantiate-error"
  | SoUnavailable => bs "unavailable"
  | SoInvalidOutput => bs "invalid-output"
  end.

Definition outcome_status (o : SpanOutcome) : Status :=
  if status_is_ok o then StatusOk else StatusError (outcome_str o).

Definition hook_str (h : Hook) : bytes :=
  match h with
  | OnRequest => bs "on-request"
  | OnRequestBody => bs "on-request-body"
  | OnResponse => bs "on-response"
  | OnResponseBody => bs "on-response-body"
  end.

Definition level_str (l : LogLevel) : bytes :=
  match l with
  | LogTrace => bs "trace"
  | LogDebug => bs "debug"
  | LogInfo => bs "info"
  | LogWarn => bs "warn"
  | LogError => bs "error"
  end.

(** [build_filter_span] followed by its conversion to a record; [next] is the id counter. *)
Definition filter_record (trace : RequestTrace) (filter_id isolation : bytes) (hook : Hook)
    (outcome : SpanOutcome) (start duration : Z) (logs : list LogLine) (next : Z) : SpanRecord * Z :=
  let '(span_id, next) := next_span_id next in
  (mkRecord (tr_trace_id trace) span_id (Some (tr_request_span_id trace)) filter_id KindInternal
     start (start + duration) (outcome_status outcome)
     [mkKeyValue (bs "filter.id") (VString filter_id);
      mkKeyValue (bs "plecto.isolation") (VString isolation);
      mkKeyValue (bs "plecto.outcome") (VString (outcome_str outcome));
      mkKeyValue (bs "plecto.hook") (VString (hook_str hook))]
     (map (fun line => mkEvent (ll_message line) start
             [mkKeyValue (bs "log.level") (VString (level_str (ll_level line)))]) logs)
     false (is_sampled trace), next).

(** ** The queue *)

Definition DEFAULT_QUEUE_CAPACITY : nat := 2048.

Record OtlpBuffer := mkBuffer {
  ob_queue : list SpanRecord;
  ob_capacity : nat;
  ob_dropped : Z;
}.

Definition buffer_new (capacity : nat) : OtlpBuffer := mkBuffer [] capacity 0.

Definition push (b : OtlpBuffer) (record : SpanRecord) : OtlpBuffer :=
  if (length (ob_queue b) <? ob_capacity b)%nat
  then mkBuffer (ob_queue b ++ [record]) (ob_capacity b) (ob_dropped b)
  else mkBuffer (ob_queue b) (ob_capacity b) (wrapping_add (ob_dropped b) 1).

Definition drain (b : OtlpBuffer) (max : nat) : list SpanRecord * OtlpBuffer :=
  let n := Nat.min (length (ob_queue b)) max in
  (take n (ob_queue b), mkBuffer (drop n (ob_queue b)) (ob_capacity b) (ob_dropped b)).

Definition record_dropped (b : OtlpBuffer) (n : Z) : OtlpBuffer :=
  mkBuffer (ob_queue b) (ob_capacity b) (wrapping_add (ob_dropped b) n).

Definition export (b : OtlpBuffer) (span : SpanRecord) : OtlpBuffer :=
  if sr_sampled span then push b span else b.

(** ** The protobuf wire format *)

Definition byte_z (z : Z) : ascii := ascii_of_nat (Z.to_nat z).

Definition WIRE_VARINT : Z := 0.
Definition WIRE_I64 : Z := 1.
Definition WIRE_LEN : Z := 2.
Definition WIRE_I32 : Z := 5.

(** The loop on a 64-bit value: ten bytes are enough. *)
Fixpoint put_varint_loop (fuel : nat) (v : Z) : bytes :=
  match fuel with
  | O => []
  | S fuel =>
    let byte := Z.land v 127 in
    let v := Z.shiftr v 7 in
    if v =? 0 then [byte_z byte] else byte_z (Z.lor byte 128) :: put_varint_loop fuel v
  end.
Definition put_varint (v : Z) : bytes := put_varint_loop 10 v.

Definition put_tag (field wire : Z) : bytes := put_varint (Z.lor (Z.shiftl field 3) wire).

Definition put_len (field : Z) (payload : bytes) : bytes :=
  put_tag field WIRE_LEN ++ put_varint (Z.of_nat (length payload)) ++ payload.

Definition put_str (field : Z) (s : bytes) : bytes :=
  match s with [] => [] | _ => put_len field s end.

Definition put_u64 (field v : Z) : bytes :=
  if v =? 0 then [] else put_tag field WIRE_VARINT ++ put_varint v.

Fixpoint le_bytes (n : nat) (v : Z) : bytes :=
  match n with O => [] | S n => byte_z (v mod 256) :: le_bytes n (v / 256) end.

Definition put_fixed64 (field v : Z) : bytes :=
  if v =? 0 then [] else put_tag field WIRE_I64 ++ le_bytes 8 v.
Definition put_fixed32 (field v : Z) : bytes :=
  if v =? 0 then [] else put_tag field WIRE_I32 ++ le_bytes 4 v.

Definition unix_nanos (t : Z) : Z := if t <? 0 then 0 else wrap64 t.

Definition encode_bool (b : bool) : bytes := put_tag 2 WIRE_VARINT ++ put_varint (if b then 1 else 0).
Definition encode_i64 (i : Z) : bytes := put_tag 3 WIRE_VARINT ++ put_varint (wrap64 i).
Definition encode_f64 (bits : Z) : bytes := put_tag 4 WIRE_I64 ++ le_bytes 8 bits.

Definition encode_any_value (v : Value) : bytes :=
  match v with
  | VString s => put_len 1 s
  | VBool b => encode_bool b
  | VI64 i => encode_i64 i
  | VF64 f => encode_f64 f
  | VArray array =>
    put_len 5 (concat (map (put_len 1)
      match array with
      | ArrayBool l => map encode_bool l
      | ArrayI64 l => map encode_i64 l
      | ArrayF64 l => map encode_f64 l
      | ArrayString l => map (put_len 1) l
      end))
  end.

Definition encode_key_value (kv : KeyValue) : bytes :=
  put_str 1 (kv_key kv) ++ put_len 2 (encode_any_value (kv_value kv)).

Definition encode_event (e : Event) : bytes :=
  put_fixed64 1 (unix_nanos (ev_timestamp e)) ++ put_str 2 (ev_name e)
  ++ concat (map (fun kv => put_len 3 (encode_key_value kv)) (ev_attributes e)).

Definition kind_value (k : SpanKind) : Z :=
  match k with
  | KindInternal => 1 | KindServer => 2 | KindClient => 3 | KindProducer => 4 | KindConsumer => 5
  end.

Definition span_flags (r : SpanRecord) : Z :=
  let sampled := if sr_sampled r then 1 else 0 in
  let remote := if sr_remote_parent r then 512 else 0 in
  Z.lor (Z.lor 256 remote) sampled.

Definition encode_status (s : Status) : option bytes :=
  match s with
  | StatusUnset => None
  | StatusOk => Some (put_u64 3 1)
  | StatusError description => Some (put_str 2 description ++ put_u64 3 2)
  end.

Definition encode_span (r : SpanRecord) : bytes :=
  put_len 1 (sr_trace_id r) ++ put_len 2 (sr_span_id r)
  ++ match sr_parent_span_id r with Some parent => put_len 4 parent | None => [] end
  ++ put_str 5 (sr_name r)
  ++ put_u64 6 (kind_value (sr_kind r))
  ++ put_fixed64 7 (unix_nanos (sr_start r))
  ++ put_fixed64 8 (unix_nanos (sr_end r))
  ++ concat (map (fun kv => put_len 9 (encode_key_value kv)) (sr_attributes r))
  ++ concat (map (fun e => put_len 11 (encode_event e)) (sr_events r))
  ++ match encode_status (sr_status r) with Some status => put_len 15 status | None => [] end
  ++ put_fixed32 16 (span_flags r).

Definition string_attr (key value : bytes) : bytes := encode_key_value (mkKeyValue key (VString value)).

(** [version] is the crate's. *)
Definition encode_resource (version service_name : bytes) : bytes :=
  put_len 1 (string_attr (bs "service.name") service_name)
  ++ put_len 1 (string_attr (bs "telemetry.sdk.name") (bs "plecto"))
  ++ put_len 1 (string_attr (bs "telemetry.sdk.language") (bs "rust"))
  ++ put_len 1 (string_attr (bs "telemetry.sdk.version") version).
Definition encode_scope (version : bytes) : bytes := put_str 1 (bs "plecto") ++ put_str 2 version.
Definition encode_scope_spans (version : bytes) (spans : list SpanRecord) : bytes :=
  put_len 1 (encode_scope version) ++ concat (map (fun r => put_len 2 (encode_span r)) spans).
Definition encode_traces_request (version service_name : bytes) (spans : list SpanRecord) : bytes :=
  put_len 1 (put_len 1 (encode_resource version service_name) ++ put_len 2 (encode_scope_spans version spans)).

(** ** Reading *)

Fixpoint read_varint_loop (fuel : nat) (i value : Z) (s : bytes) : option (Z * bytes) :=
  match fuel, s with
  | S fuel, c :: rest =>
    let byte := byte_val c in
    let value := Z.lor value (wrap64 (Z.shiftl (Z.land byte 127) (7 * i))) in
    if Z.land byte 128 =? 0 then Some (value, rest) else read_varint_loop fuel (i + 1) value rest
  | _, _ => None
  end.
Definition read_varint (s : bytes) : option (Z * bytes) := read_varint_loop 10 0 0 s.

Inductive FieldPayload := PVarint (v : Z) | PLen (payload : bytes).

Fixpoint le_value (s : bytes) : Z :=
  match s with [] => 0 | c :: s => byte_val c + 256 * le_value s end.

(** [bytes.get(..n)] and [bytes.get(n..)]. *)
Definition split_get (n : nat) (s : bytes) : option (bytes * bytes) :=
  if (n <=? length s)%nat then Some (take n s, drop n s) else None.

(** One field: its number, its payload, and what follows. *)
Definition read_field (s : bytes) : option (Z * FieldPayload * bytes) :=
  '(tag, s) ← read_varint s;
  let field := wrap32 (Z.shiftr tag 3) in
  let wire := Z.land tag 7 in
  if wire =? WIRE_VARINT then '(v, s) ← read_varint s; Some (field, PVarint v, s)
  else if wire =? WIRE_I64 then '(v, s) ← split_get 8 s; Some (field, PVarint (le_value v), s)
  else if wire =? WIRE_LEN then
    '(len, s) ← read_varint s;
    '(payload, s) ← (if len <=? Z.of_nat (length s) then split_get (Z.to_nat len) s else None);
    Some (field, PLen payload, s)
  else if wire =? WIRE_I32 then '(v, s) ← split_get 4 s; Some (field, PVarint (le_value v), s)
  else None.

(** [read_fields] with a visitor over a state; every field takes a byte, so the length is fuel
    enough. *)
Fixpoint read_fields_loop {St T} (fuel : nat) (visit : Z -> FieldPayload -> St -> St * option T)
    (st : St) (s : bytes) : option (option T) * St :=
  match s with
  | [] => (Some None, st)
  | _ =>
    match fuel, read_field s with
    | S fuel, Some (field, payload, rest) =>
      match visit field payload st with
      | (st, Some t) => (Some (Some t), st)
      | (st, None) => read_fields_loop fuel visit st rest
      end
    | _, _ => (None, st)
    end
  end.
Definition read_fields {St T} (visit : Z -> FieldPayload -> St -> St * option T) (st : St) (s : bytes)
    : option (option T) * St := read_fields_loop (length s) visit st s.

Record PartialSuccess := mkPartial { ps_rejected_spans : Z; ps_error_message : bytes }.

(** [v as i64]. *)
Definition as_i64 (v : Z) : Z := if v <? 2 ^ 63 then v else v - 2 ^ 64.

Definition decode_export_partial_success (body : bytes) : option PartialSuccess :=
  match fst (read_fields (fun field payload (_ : unit) =>
      (tt, match payload with PLen b => if field =? 1 then Some b else None | _ => None end)) tt body) with
  | Some (Some inner) =>
    match read_fields (T := unit) (fun field payload '(rejected, message) =>
        (match payload with
         | PVarint v => if field =? 1 then (as_i64 v, message) else (rejected, message)
         | PLen b => if field =? 2 then (rejected, from_utf8_lossy b) else (rejected, message)
         end, None)) (0, []) inner with
    | (Some _, (rejected, message)) =>
      if (rejected =? 0) && bytes_eqb message [] then None else Some (mkPartial rejected message)
    | (None, _) => None
    end
  | _ => None
  end.

(** ** The codec *)

Lemma byte_val_z z : 0 <= z < 256 -> byte_val (byte_z z) = z.
Proof.
  intros Hz. unfold byte_val, byte_z, ascii_of_nat. rewrite N_ascii_embedding by lia. lia.
Qed.

Lemma byte_z_val c : byte_z (byte_val c) = c.
Proof. apply byte_val_back. Qed.

Lemma split7 v : 0 <= v -> Z.lor (Z.land v 127) (Z.shiftl (Z.shiftr v 7) 7) = v.
Proof.
  intros Hv. change 127 with (Z.ones 7). apply Z.bits_inj'. intros n Hn.
  rewrite Z.lor_spec, Z.land_spec, Z.shiftl_spec by lia.
  destruct (Z.lt_ge_cases n 7).
  - rewrite Z.ones_spec_low, (Z.testbit_neg_r _ (n - 7)) by lia. by rewrite andb_true_r, orb_false_r.
  - rewrite Z.ones_spec_high, Z.shiftr_spec by lia. rewrite andb_false_r. cbn. f_equal. lia.
Qed.

Lemma land127 v : 0 <= Z.land v 127 < 128.
Proof. change 127 with (Z.ones 7). rewrite Z.land_ones by lia. apply Z.mod_pos_bound. lia. Qed.

(** A continuation byte, and what the reader takes from either kind of byte. *)
Lemma continued b : 0 <= b < 128 -> Z.lor b 128 = b + 128.
Proof.
  intros Hb. apply (forallb_below (fun b => Z.lor b 128 =? b + 128) 128) in Hb; [by apply Z.eqb_eq|].
  vm_compute. reflexivity.
Qed.
Lemma read_last b : 0 <= b < 128 -> Z.land b 127 = b /\ Z.land b 128 = 0.
Proof.
  intros Hb. apply (forallb_below (fun b => (Z.land b 127 =? b) && (Z.land b 128 =? 0)) 128) in Hb;
    [|vm_compute; reflexivity]. apply andb_true_iff in Hb as [H1 H2]. split; by apply Z.eqb_eq.
Qed.
Lemma read_continued b : 0 <= b < 128 -> Z.land (b + 128) 127 = b /\ Z.land (b + 128) 128 = 128.
Proof.
  intros Hb. apply (forallb_below (fun b => (Z.land (b + 128) 127 =? b) && (Z.land (b + 128) 128 =? 128)) 128) in Hb;
    [|vm_compute; reflexivity]. apply andb_true_iff in Hb as [H1 H2]. split; by apply Z.eqb_eq.
Qed.

Lemma shiftl_small a k n : 0 <= k -> 0 <= a < 2 ^ (n - k) -> 0 <= Z.shiftl a k < 2 ^ n.
Proof.
  intros Hk Ha. rewrite Z.shiftl_mul_pow2 by lia.
  assert (Hn : 0 <= n - k).
  { destruct (Z.lt_ge_cases (n - k) 0); [|done]. rewrite (Z.pow_neg_r 2 (n - k)) in Ha by lia. lia. }
  replace n with ((n - k) + k) by lia. rewrite Z.pow_add_r by lia. nia.
Qed.

Lemma read_put_varint_loop fuel : forall i value v s,
  i = 10 - Z.of_nat fuel -> (fuel <= 10)%nat -> 0 <= v < 2 ^ (64 - 7 * i) ->
  read_varint_loop fuel i value (put_varint_loop fuel v ++ s) = Some (Z.lor value (Z.shiftl v (7 * i)), s).
Proof.
  induction fuel as [|fuel IH]; intros i value v s Hi Hf Hv.
  { subst i. rewrite Z.pow_neg_r in Hv by lia. lia. }
  pose proof (land127 v) as Hb. cbn [put_varint_loop].
  assert (Hw : wrap64 (Z.shiftl (Z.land v 127) (7 * i)) = Z.shiftl (Z.land v 127) (7 * i)).
  { unfold wrap64. apply Z.mod_small. apply shiftl_small; [lia|]. split; [lia|].
    apply Z.le_lt_trans with v; [|lia]. change 127 with (Z.ones 7). rewrite Z.land_ones by lia.
    apply Z.mod_le; lia. }
  destruct (Z.eqb_spec (Z.shiftr v 7) 0) as [E|E].
  - cbn [app read_varint_loop]. assert (Ev : Z.land v 127 = v).
    { pose proof (split7 v ltac:(lia)) as H7. rewrite E, Z.shiftl_0_l, Z.lor_0_r in H7. done. }
    rewrite Ev in Hb, Hw |- *. destruct (read_last v Hb) as [H1 H2].
    rewrite byte_val_z, H2, H1, Hw by lia. done.
  - assert (H0 : 0 < Z.shiftr v 7). { assert (0 <= Z.shiftr v 7) by (apply Z.shiftr_nonneg; lia). lia. }
    assert (Hi8 : 7 * i + 7 < 64).
    { destruct (Z.lt_ge_cases (7 * i + 7) 64); [done|]. exfalso. apply E.
      rewrite Z.shiftr_div_pow2 by lia. apply Z.div_small.
      assert (2 ^ (64 - 7 * i) <= 2 ^ 7) by (apply Z.pow_le_mono_r; lia). lia. }
    rewrite continued by done. cbn [app read_varint_loop].
    destruct (read_continued _ Hb) as [H1 H2]. rewrite byte_val_z, H2, H1, Hw by lia. cbn [Z.eqb].
    rewrite (IH (i + 1)); [|lia|lia|].
    + f_equal. f_equal. rewrite <- Z.lor_assoc. f_equal. rewrite <- (split7 v) at 3 by lia.
      rewrite Z.shiftl_lor. f_equal. rewrite Z.shiftl_shiftl by lia. f_equal. lia.
    + split; [lia|]. rewrite Z.shiftr_div_pow2 by lia. apply Z.div_lt_upper_bound; [lia|].
      rewrite <- Z.pow_add_r by lia. replace (7 + (64 - 7 * (i + 1))) with (64 - 7 * i) by lia. lia.
Qed.

Lemma read_put_varint v s : 0 <= v < 2 ^ 64 -> read_varint (put_varint v ++ s) = Some (v, s).
Proof.
  intros Hv. unfold read_varint, put_varint.
  rewrite (read_put_varint_loop 10 0 0 v s) by (cbn; lia). by rewrite Z.shiftl_0_r.
Qed.

Lemma put_varint_nonempty v : put_varint v <> [].
Proof. unfold put_varint. cbn. by destruct (_ =? 0). Qed.

Lemma le_value_bytes n v : 0 <= v < 256 ^ Z.of_nat n -> le_value (le_bytes n v) = v.
Proof.
  revert v. induction n as [|n IH]; intros v Hv; [cbn in *; lia|]. cbn [le_bytes le_value].
  rewrite Nat2Z.inj_succ, Z.pow_succ_r in Hv by lia.
  rewrite byte_val_z by (apply Z.mod_pos_bound; lia). rewrite IH.
  - pose proof (Z.div_mod v 256). lia.
  - split; [apply Z.div_pos; lia|apply Z.div_lt_upper_bound; lia].
Qed.

Lemma le_bytes_length n v : length (le_bytes n v) = n.
Proof. revert v. induction n as [|n IH]; intros v; cbn; [done|by rewrite IH]. Qed.

Lemma split_get_app n a s : length a = n -> split_get n (a ++ s) = Some (a, s).
Proof.
  intros <-. unfold split_get. rewrite length_app. destruct (Nat.leb_spec (length a) (length a + length s)); [|lia].
  by rewrite take_app_length, drop_app_length.
Qed.

(** ** Fields *)

(** A wire field: its number and its value in one of the four wire types. *)
Inductive WireField :=
| WVarint (field v : Z) | WI64 (field v : Z) | WI32 (field v : Z) | WLen (field : Z) (payload : bytes).

Definition encode_wire (f : WireField) : bytes :=
  match f with
  | WVarint n v => put_tag n WIRE_VARINT ++ put_varint v
  | WI64 n v => put_tag n WIRE_I64 ++ le_bytes 8 v
  | WI32 n v => put_tag n WIRE_I32 ++ le_bytes 4 v
  | WLen n s => put_len n s
  end.

Definition wire_view (f : WireField) : Z * FieldPayload :=
  match f with
  | WVarint n v | WI64 n v | WI32 n v => (n, PVarint v)
  | WLen n s => (n, PLen s)
  end.

Definition wire_ok (f : WireField) : Prop :=
  match f with
  | WVarint n v | WI64 n v => 0 < n < 2 ^ 29 /\ 0 <= v < 2 ^ 64
  | WI32 n v => 0 < n < 2 ^ 29 /\ 0 <= v < 2 ^ 32
  | WLen n s => 0 < n < 2 ^ 29 /\ Z.of_nat (length s) < 2 ^ 64
  end.

Lemma tag_parts n w : 0 < n < 2 ^ 29 -> 0 <= w < 8 ->
  0 <= Z.lor (Z.shiftl n 3) w < 2 ^ 64 /\
  wrap32 (Z.shiftr (Z.lor (Z.shiftl n 3) w) 3) = n /\ Z.land (Z.lor (Z.shiftl n 3) w) 7 = w.
Proof.
  intros Hn Hw. assert (H8 : 2 ^ 29 * 8 < 2 ^ 64) by reflexivity. assert (H32 : 2 ^ 29 < 2 ^ 32) by reflexivity.
  assert (Hlow : forall k, 3 <= k -> Z.testbit w k = false).
  { intros k Hk. destruct (Z.eq_dec w 0) as [->|]; [apply Z.bits_0|]. apply Z.bits_above_log2; [lia|].
    apply Z.log2_lt_pow2; [lia|]. apply Z.lt_le_trans with (2 ^ 3); [cbn; lia|apply Z.pow_le_mono_r; lia]. }
  assert (Eshift : Z.shiftr (Z.lor (Z.shiftl n 3) w) 3 = n).
  { apply Z.bits_inj'. intros k Hk. rewrite Z.shiftr_spec, Z.lor_spec, Z.shiftl_spec, Hlow by lia.
    rewrite orb_false_r. f_equal. lia. }
  assert (Eland : Z.land (Z.lor (Z.shiftl n 3) w) 7 = w).
  { change 7 with (Z.ones 3). apply Z.bits_inj'. intros k Hk.
    rewrite Z.land_spec, Z.lor_spec, Z.shiftl_spec by lia. destruct (Z.lt_ge_cases k 3).
    - rewrite Z.ones_spec_low, (Z.testbit_neg_r _ (k - 3)) by lia. by rewrite andb_true_r.
    - rewrite Z.ones_spec_high, andb_false_r by lia. by rewrite Hlow. }
  split; [|split; [|done]]; [|rewrite Eshift; unfold wrap32; apply Z.mod_small; lia].
  assert (E : Z.lor (Z.shiftl n 3) w = 8 * n + w).
  { rewrite (Z.div_mod (Z.lor (Z.shiftl n 3) w) 8) by lia.
    rewrite <- (Z.land_ones _ 3), <- (Z.shiftr_div_pow2 _ 3) by lia. change (Z.ones 3) with 7.
    rewrite Eshift, Eland. lia. }
  lia.
Qed.

Lemma read_tag n w s : 0 < n < 2 ^ 29 -> 0 <= w < 8 ->
  exists tag, read_varint (put_tag n w ++ s) = Some (tag, s) /\
    wrap32 (Z.shiftr tag 3) = n /\ Z.land tag 7 = w.
Proof.
  intros Hn Hw. destruct (tag_parts n w Hn Hw) as (H1 & H2 & H3).
  eexists. split; [by apply read_put_varint|done].
Qed.

Lemma read_field_encode f s :
  wire_ok f -> read_field (encode_wire f ++ s) = Some ((wire_view f).1, (wire_view f).2, s).
Proof.
  assert (E64 : 2 ^ 64 = 256 ^ Z.of_nat 8) by reflexivity. assert (E32 : 2 ^ 32 = 256 ^ Z.of_nat 4) by reflexivity.
  unfold read_field, encode_wire, put_len.
  destruct f as [n v|n v|n v|n p]; intros [Hn Hv]; rewrite <- !app_assoc;
    match goal with |- context [put_tag n ?w ++ ?rest] =>
      destruct (read_tag n w rest Hn ltac:(split; reflexivity || (vm_compute; congruence))) as (tag & -> & E1 & E2) end;
    cbn [mbind option_bind]; rewrite E1, E2.
  - cbn [Z.eqb WIRE_VARINT]. by rewrite read_put_varint.
  - change (WIRE_I64 =? WIRE_VARINT) with false. change (WIRE_I64 =? WIRE_I64) with true. cbn match.
    rewrite split_get_app by apply le_bytes_length. cbn [mbind option_bind wire_view fst snd]. by rewrite le_value_bytes by lia.
  - change (WIRE_I32 =? WIRE_VARINT) with false. change (WIRE_I32 =? WIRE_I64) with false.
    change (WIRE_I32 =? WIRE_LEN) with false. change (WIRE_I32 =? WIRE_I32) with true. cbn match.
    rewrite split_get_app by apply le_bytes_length. cbn [mbind option_bind wire_view fst snd]. by rewrite le_value_bytes by lia.
  - change (WIRE_LEN =? WIRE_VARINT) with false. change (WIRE_LEN =? WIRE_I64) with false.
    change (WIRE_LEN =? WIRE_LEN) with true. cbn match. rewrite read_put_varint by lia. cbn [mbind option_bind].
    rewrite length_app, (proj2 (Z.leb_le _ _)) by lia. rewrite Nat2Z.id, split_get_app by done. done.
Qed.

Lemma encode_wire_nonempty f : encode_wire f <> [].
Proof.
  destruct f; cbn; unfold put_len, put_tag; intros E; apply app_eq_nil in E as [E _]; by apply put_varint_nonempty in E.
Qed.

(** The visitor's fold over a list of fields. *)
Fixpoint visit_all {St T} (visit : Z -> FieldPayload -> St -> St * option T) (st : St)
    (views : list (Z * FieldPayload)) : option T * St :=
  match views with
  | [] => (None, st)
  | (n, p) :: views =>
    match visit n p st with
    | (st, Some t) => (Some t, st)
    | (st, None) => visit_all visit st views
    end
  end.

(** The reader visits exactly the encoded fields. *)
Lemma read_fields_encoded {St T} (visit : Z -> FieldPayload -> St -> St * option T) (st : St) fs :
  Forall wire_ok fs ->
  read_fields visit st (concat (map encode_wire fs)) =
    (Some (visit_all visit st (map wire_view fs)).1, (visit_all visit st (map wire_view fs)).2).
Proof.
  assert (Hgen : forall fuel st, (length fs <= fuel)%nat -> Forall wire_ok fs ->
    read_fields_loop fuel visit st (concat (map encode_wire fs)) =
    (Some (visit_all visit st (map wire_view fs)).1, (visit_all visit st (map wire_view fs)).2)).
  { induction fs as [|f fs IH]; intros fuel st0 Hf Hok; [by destruct fuel|].
    apply Forall_cons in Hok as [Hok1 Hok]. destruct fuel as [|fuel]; [cbn in Hf; lia|].
    cbn [map concat read_fields_loop]. destruct (encode_wire f ++ concat (map encode_wire fs)) as [|c s] eqn:Es.
    { exfalso. apply app_eq_nil in Es as [Es _]. by apply encode_wire_nonempty in Es. }
    rewrite <- Es, read_field_encode by done. destruct (wire_view f) as [n p]. cbn [fst snd visit_all].
    destruct (visit n p st0) as [st1 [t|]]; [done|]. apply IH; [cbn in Hf; lia|done]. }
  intros Hok. apply Hgen; [|done]. clear. induction fs as [|f fs IH]; [done|]. cbn [map concat length].
  rewrite length_app. pose proof (encode_wire_nonempty f). destruct (encode_wire f); [done|cbn; lia].
Qed.

(** ** Messages as field lists *)

Definition encode_fields (fs : list WireField) : bytes := concat (map encode_wire fs).

Definition str_field (n : Z) (s : bytes) : list WireField := match s with [] => [] | _ => [WLen n s] end.
Definition u64_field (n v : Z) : list WireField := if v =? 0 then [] else [WVarint n v].
Definition fixed64_field (n v : Z) : list WireField := if v =? 0 then [] else [WI64 n v].
Definition fixed32_field (n v : Z) : list WireField := if v =? 0 then [] else [WI32 n v].

Definition scalar_field (v : Value) : list WireField :=
  match v with
  | VString s => [WLen 1 s]
  | VBool b => [WVarint 2 (if b then 1 else 0)]
  | VI64 i => [WVarint 3 (wrap64 i)]
  | VF64 f => [WI64 4 f]
  | VArray _ => []
  end.
Definition array_values (a : ArrayValue) : list Value :=
  match a with
  | ArrayBool l => map VBool l
  | ArrayI64 l => map VI64 l
  | ArrayF64 l => map VF64 l
  | ArrayString l => map VString l
  end.
Definition value_fields (v : Value) : list WireField :=
  match v with
  | VArray a => [WLen 5 (encode_fields (map (fun x => WLen 1 (encode_fields (scalar_field x))) (array_values a)))]
  | _ => scalar_field v
  end.
Definition key_value_fields (kv : KeyValue) : list WireField :=
  str_field 1 (kv_key kv) ++ [WLen 2 (encode_any_value (kv_value kv))].
Definition event_fields (e : Event) : list WireField :=
  fixed64_field 1 (unix_nanos (ev_timestamp e)) ++ str_field 2 (ev_name e)
  ++ map (fun kv => WLen 3 (encode_key_value kv)) (ev_attributes e).
Definition status_fields (s : Status) : list WireField :=
  match s with
  | StatusUnset => []
  | StatusOk => [WVarint 3 1]
  | StatusError d => str_field 2 d ++ [WVarint 3 2]
  end.
Definition status_part (s : Status) : option bytes :=
  match s with StatusUnset => None | _ => Some (encode_fields (status_fields s)) end.
Definition opt_field (n : Z) (o : option bytes) : list WireField :=
  match o with Some p => [WLen n p] | None => [] end.
Definition span_fields (r : SpanRecord) : list WireField :=
  [WLen 1 (sr_trace_id r); WLen 2 (sr_span_id r)]
  ++ opt_field 4 (sr_parent_span_id r)
  ++ str_field 5 (sr_name r)
  ++ u64_field 6 (kind_value (sr_kind r))
  ++ fixed64_field 7 (unix_nanos (sr_start r))
  ++ fixed64_field 8 (unix_nanos (sr_end r))
  ++ map (fun kv => WLen 9 (encode_key_value kv)) (sr_attributes r)
  ++ map (fun e => WLen 11 (encode_event e)) (sr_events r)
  ++ opt_field 15 (status_part (sr_status r))
  ++ fixed32_field 16 (span_flags r).

Lemma encode_fields_app fs gs : encode_fields (fs ++ gs) = encode_fields fs ++ encode_fields gs.
Proof. unfold encode_fields. by rewrite map_app, concat_app. Qed.

Lemma encode_fields_one f : encode_fields [f] = encode_wire f.
Proof. unfold encode_fields. cbn. apply app_nil_r. Qed.

Lemma encode_fields_lens {A} n (g : A -> bytes) l :
  encode_fields (map (fun x => WLen n (g x)) l) = concat (map (fun x => put_len n (g x)) l).
Proof. unfold encode_fields. by rewrite map_map. Qed.

Lemma put_str_fields n s : put_str n s = encode_fields (str_field n s).
Proof. destruct s; [done|]. symmetry. apply encode_fields_one. Qed.
Lemma put_u64_fields n v : put_u64 n v = encode_fields (u64_field n v).
Proof. unfold put_u64, u64_field. destruct (v =? 0); [done|]. symmetry. apply encode_fields_one. Qed.
Lemma put_fixed64_fields n v : put_fixed64 n v = encode_fields (fixed64_field n v).
Proof. unfold put_fixed64, fixed64_field. destruct (v =? 0); [done|]. symmetry. apply encode_fields_one. Qed.
Lemma put_fixed32_fields n v : put_fixed32 n v = encode_fields (fixed32_field n v).
Proof. unfold put_fixed32, fixed32_field. destruct (v =? 0); [done|]. symmetry. apply encode_fields_one. Qed.

Lemma encode_value_fields v : encode_any_value v = encode_fields (value_fields v).
Proof.
  destruct v as [s|b|i|f|a]; cbn [value_fields scalar_field]; rewrite encode_fields_one; try done.
  cbn [encode_any_value encode_wire]. f_equal. rewrite encode_fields_lens.
  destruct a; cbn [array_values]; rewrite !map_map; f_equal; apply map_ext; intros x; f_equal;
    symmetry; apply encode_fields_one.
Qed.

Lemma encode_key_value_fields kv : encode_key_value kv = encode_fields (key_value_fields kv).
Proof.
  unfold encode_key_value, key_value_fields. by rewrite encode_fields_app, put_str_fields, encode_fields_one.
Qed.

Lemma encode_event_fields e : encode_event e = encode_fields (event_fields e).
Proof.
  unfold encode_event, event_fields.
  by rewrite !encode_fields_app, put_str_fields, put_fixed64_fields, encode_fields_lens.
Qed.

Lemma encode_status_fields s : encode_status s = status_part s.
Proof.
  destruct s; [done|done|]; cbn [encode_status status_part status_fields]; f_equal.
  by rewrite encode_fields_app, put_str_fields, encode_fields_one.
Qed.

Lemma put_opt_fields n o : match o with Some p => put_len n p | None => [] end = encode_fields (opt_field n o).
Proof. destruct o; [symmetry; apply encode_fields_one|done]. Qed.

Lemma encode_span_fields r : encode_span r = encode_fields (span_fields r).
Proof.
  unfold encode_span, span_fields. rewrite !encode_fields_app, !encode_fields_lens.
  rewrite <- put_str_fields, <- put_u64_fields, <- !put_fixed64_fields, <- put_fixed32_fields.
  assert (Eh : encode_fields [WLen 1 (sr_trace_id r); WLen 2 (sr_span_id r)]
    = put_len 1 (sr_trace_id r) ++ put_len 2 (sr_span_id r)).
  { change [WLen 1 (sr_trace_id r); WLen 2 (sr_span_id r)] with ([WLen 1 (sr_trace_id r)] ++ [WLen 2 (sr_span_id r)]).
    by rewrite encode_fields_app, !encode_fields_one. }
  by rewrite Eh, encode_status_fields, <- !put_opt_fields, <- app_assoc.
Qed.

(** ** Reading back *)

Definition collect (s : bytes) : option (list (Z * FieldPayload)) :=
  match read_fields (T := unit) (fun n p acc => (acc ++ [(n, p)], None)) [] s with
  | (Some _, fs) => Some fs
  | (None, _) => None
  end.

Definition lens (n : Z) (fs : list (Z * FieldPayload)) : list bytes :=
  omap (fun f => match f.2 with PLen s => if f.1 =? n then Some s else None | PVarint _ => None end) fs.
Definition varints (n : Z) (fs : list (Z * FieldPayload)) : list Z :=
  omap (fun f => match f.2 with PVarint v => if f.1 =? n then Some v else None | PLen _ => None end) fs.
Definition varint (n : Z) (fs : list (Z * FieldPayload)) : Z := default 0 (head (varints n fs)).
Definition text (n : Z) (fs : list (Z * FieldPayload)) : bytes := default [] (head (lens n fs)).

(** What a collector makes of an attribute value: a scalar, or the scalars of an array. *)
Definition read_scalar (s : bytes) : option Value :=
  match collect s with
  | Some [(1, PLen s)] => Some (VString s)
  | Some [(2, PVarint v)] => Some (VBool (negb (v =? 0)))
  | Some [(3, PVarint v)] => Some (VI64 (as_i64 v))
  | Some [(4, PVarint v)] => Some (VF64 v)
  | _ => None
  end.
Definition read_value (s : bytes) : option (Value + list Value) :=
  match collect s with
  | Some [(5, PLen inner)] => fs ← collect inner; inr <$> mapM read_scalar (lens 1 fs)
  | _ => inl <$> read_scalar s
  end.
Definition read_key_value (s : bytes) : option (bytes * (Value + list Value)) :=
  fs ← collect s; v ← read_value (text 2 fs); Some (text 1 fs, v).

Record EventView := mkEventView { wv_nanos : Z; wv_name : bytes; wv_attributes : list (bytes * (Value + list Value)) }.
Definition read_event (s : bytes) : option EventView :=
  fs ← collect s; attributes ← mapM read_key_value (lens 3 fs);
  Some (mkEventView (varint 1 fs) (text 2 fs) attributes).

Record SpanView := mkView {
  vw_trace_id : bytes;
  vw_span_id : bytes;
  vw_parent : option bytes;
  vw_name : bytes;
  vw_kind : Z;
  vw_start : Z;
  vw_end : Z;
  vw_attributes : list (bytes * (Value + list Value));
  vw_events : list EventView;
  vw_status : bytes * Z;
  vw_flags : Z;
}.
Definition read_span (s : bytes) : option SpanView :=
  fs ← collect s;
  attributes ← mapM read_key_value (lens 9 fs);
  events ← mapM read_event (lens 11 fs);
  status ← collect (text 15 fs);
  Some (mkView (text 1 fs) (text 2 fs) (head (lens 4 fs)) (text 5 fs) (varint 6 fs) (varint 7 fs)
    (varint 8 fs) attributes events (text 2 status, varint 3 status) (varint 16 fs)).

(** A request read as its resource attributes and the spans of all its scopes. *)
Definition read_traces_request (s : bytes) : option (list (bytes * (Value + list Value)) * list SpanView) :=
  fs ← collect s;
  rs ← collect (text 1 fs);
  resource ← collect (text 1 rs);
  attributes ← mapM read_key_value (lens 1 resource);
  scope_spans ← collect (text 2 rs);
  spans ← mapM read_span (lens 2 scope_spans);
  Some (attributes, spans).

(** The same data, straight from the record. *)
Definition value_view (v : Value) : Value + list Value :=
  match v with VArray a => inr (array_values a) | _ => inl v end.
Definition key_value_view (kv : KeyValue) : bytes * (Value + list Value) := (kv_key kv, value_view (kv_value kv)).
Definition event_view (e : Event) : EventView :=
  mkEventView (unix_nanos (ev_timestamp e)) (ev_name e) (map key_value_view (ev_attributes e)).
Definition status_view (s : Status) : bytes * Z :=
  match s with StatusUnset => ([], 0) | StatusOk => ([], 1) | StatusError d => (d, 2) end.
Definition span_view (r : SpanRecord) : SpanView :=
  mkView (sr_trace_id r) (sr_span_id r) (sr_parent_span_id r) (sr_name r) (kind_value (sr_kind r))
    (unix_nanos (sr_start r)) (unix_nanos (sr_end r)) (map key_value_view (sr_attributes r))
    (map event_view (sr_events r)) (status_view (sr_status r)) (span_flags r).

(** ** Round trip *)

Definition sized (s : bytes) : Prop := Z.of_nat (length s) < 2 ^ 64.

Definition plain (f : WireField) : Prop :=
  match f with
  | WVarint n v | WI64 n v => 0 < n < 2 ^ 29 /\ 0 <= v < 2 ^ 64
  | WI32 n v => 0 < n < 2 ^ 29 /\ 0 <= v < 2 ^ 32
  | WLen n _ => 0 < n < 2 ^ 29
  end.

Lemma wire_size f fs : f ∈ fs -> (length (encode_wire f) <= length (encode_fields fs))%nat.
Proof.
  intros Hf. apply list_elem_of_split in Hf as (l1 & l2 & ->).
  rewrite !encode_fields_app, !length_app. change (f :: l2) with ([f] ++ l2).
  rewrite encode_fields_app, length_app, encode_fields_one. lia.
Qed.

Lemma sized_payload n p fs : WLen n p ∈ fs -> sized (encode_fields fs) -> sized p.
Proof.
  intros Hf Hs. apply wire_size in Hf. unfold sized in *. cbn in Hf. unfold put_len in Hf.
  rewrite !length_app in Hf. lia.
Qed.

Lemma wire_ok_sized fs : Forall plain fs -> sized (encode_fields fs) -> Forall wire_ok fs.
Proof.
  rewrite !Forall_forall. intros Hp Hs f Hf. specialize (Hp f Hf).
  destruct f as [n v|n v|n v|n p]; cbn in Hp |- *; try done. split; [done|].
  by apply (sized_payload n p fs).
Qed.

Lemma visit_collect fs acc :
  visit_all (T := unit) (fun n p acc => (acc ++ [(n, p)], None)) acc fs = (None, acc ++ fs).
Proof.
  revert acc. induction fs as [|[n p] fs IH]; intros acc; cbn [visit_all]; [by rewrite app_nil_r|].
  by rewrite IH, <- app_assoc.
Qed.

Lemma collect_encoded fs :
  Forall plain fs -> sized (encode_fields fs) -> collect (encode_fields fs) = Some (map wire_view fs).
Proof.
  intros Hp Hs. unfold collect, encode_fields. rewrite read_fields_encoded by by apply wire_ok_sized.
  by rewrite visit_collect.
Qed.

Lemma str_field_plain n s : 0 < n < 2 ^ 29 -> Forall plain (str_field n s).
Proof. intros. destruct s; [apply Forall_nil_2|by apply Forall_singleton]. Qed.
Lemma u64_field_plain n v : 0 < n < 2 ^ 29 -> 0 <= v < 2 ^ 64 -> Forall plain (u64_field n v).
Proof. intros. unfold u64_field. destruct (v =? 0); [apply Forall_nil_2|by apply Forall_singleton]. Qed.
Lemma fixed64_field_plain n v : 0 < n < 2 ^ 29 -> 0 <= v < 2 ^ 64 -> Forall plain (fixed64_field n v).
Proof. intros. unfold fixed64_field. destruct (v =? 0); [apply Forall_nil_2|by apply Forall_singleton]. Qed.
Lemma fixed32_field_plain n v : 0 < n < 2 ^ 29 -> 0 <= v < 2 ^ 32 -> Forall plain (fixed32_field n v).
Proof. intros. unfold fixed32_field. destruct (v =? 0); [apply Forall_nil_2|by apply Forall_singleton]. Qed.
Lemma len_fields_plain {A} n (g : A -> bytes) l : 0 < n < 2 ^ 29 -> Forall plain (map (fun x => WLen n (g x)) l).
Proof. intros. apply Forall_forall. intros f Hf. by apply list_elem_of_fmap in Hf as (x & -> & _). Qed.

Lemma wrap64_range x : 0 <= wrap64 x < 2 ^ 64.
Proof. apply Z.mod_pos_bound. lia. Qed.
Lemma unix_nanos_range t : 0 <= unix_nanos t < 2 ^ 64.
Proof. unfold unix_nanos. destruct (t <? 0); [cbn; lia|apply wrap64_range]. Qed.

#[export] Hint Resolve str_field_plain u64_field_plain fixed64_field_plain fixed32_field_plain
  len_fields_plain wrap64_range unix_nanos_range : otlp.

Lemma lens_app n fs gs : lens n (fs ++ gs) = lens n fs ++ lens n gs.
Proof. apply omap_app. Qed.
Lemma lens_map {A} n m (g : A -> bytes) l :
  lens n (map wire_view (map (fun x => WLen m (g x)) l)) = if m =? n then map g l else [].
Proof.
  induction l as [|x l IH]; [by destruct (m =? n)|]. cbn [map]. unfold lens in *. cbn [omap list_omap].
  fold (omap (M := list) (A := Z * FieldPayload) (B := bytes)). cbn [wire_view fst snd].
  rewrite IH. by destruct (m =? n).
Qed.

Lemma varints_app n fs gs : varints n (fs ++ gs) = varints n fs ++ varints n gs.
Proof. apply omap_app. Qed.
Lemma varints_map {A} n m (g : A -> bytes) l : varints n (map wire_view (map (fun x => WLen m (g x)) l)) = [].
Proof. by induction l. Qed.

Lemma mapM_views {A B} (f : bytes -> option B) (enc : A -> bytes) (view : A -> B) l :
  Forall (fun x => f (enc x) = Some (view x)) l -> mapM f (map enc l) = Some (map view l).
Proof.
  induction 1 as [|x l Hx _ IH]; [done|]. cbn [map mapM]. rewrite Hx. cbn [mbind option_bind]. by rewrite IH.
Qed.

Definition i64_range (i : Z) : Prop := - 2 ^ 63 <= i < 2 ^ 63.
Definition u64_range (v : Z) : Prop := 0 <= v < 2 ^ 64.

Definition value_ok (v : Value) : Prop :=
  match v with
  | VI64 i => i64_range i
  | VF64 b => u64_range b
  | VArray (ArrayI64 l) => Forall i64_range l
  | VArray (ArrayF64 l) => Forall u64_range l
  | _ => True
  end.
Definition key_value_ok (kv : KeyValue) : Prop := value_ok (kv_value kv).
Definition event_ok (e : Event) : Prop := Forall key_value_ok (ev_attributes e).
Definition span_ok (r : SpanRecord) : Prop := Forall key_value_ok (sr_attributes r) /\ Forall event_ok (sr_events r).

Lemma as_i64_wrap i : i64_range i -> as_i64 (wrap64 i) = i.
Proof.
  unfold i64_range, as_i64, wrap64. intros Hi.
  assert (E : 2 ^ 64 = 2 * 2 ^ 63) by reflexivity. destruct (Z.lt_ge_cases i 0).
  - rewrite <- (Z.mod_add i 1), Z.mod_small by lia. destruct (Z.ltb_spec (i + 1 * 2 ^ 64) (2 ^ 63)); lia.
  - rewrite Z.mod_small by lia. destruct (Z.ltb_spec i (2 ^ 63)); lia.
Qed.

Lemma read_scalar_encoded v :
  value_ok v -> match v with VArray _ => False | _ => True end -> sized (encode_fields (scalar_field v)) ->
  read_scalar (encode_fields (scalar_field v)) = Some v.
Proof.
  intros Hv Ha Hs. unfold read_scalar. rewrite collect_encoded; [| |done].
  - destruct v as [s|b|i|f|a]; cbn [scalar_field map wire_view]; [done|by destruct b| |done|done].
    by rewrite as_i64_wrap.
  - destruct v as [s|b|i|f|a]; cbn [scalar_field]; repeat constructor; cbn; try lia; try (by destruct b);
      try apply wrap64_range; try apply Hv.
Qed.

Lemma scalar_ok a : value_ok (VArray a) ->
  Forall (fun v => value_ok v /\ match v with VArray _ => False | _ => True end) (array_values a).
Proof.
  intros Ha. apply Forall_forall. intros v Hv.
  destruct a; apply list_elem_of_fmap in Hv as (x & -> & Hx); cbn in *; split; try done;
    rewrite Forall_forall in Ha; by apply Ha.
Qed.

Lemma value_fields_plain v : value_ok v -> Forall plain (value_fields v).
Proof.
  destruct v as [s|b|i|f|a]; intros Hv; apply Forall_singleton; cbn; try lia;
    [by destruct b|split; [lia|apply wrap64_range]|by split].
Qed.

Lemma read_value_encoded v :
  value_ok v -> sized (encode_any_value v) -> read_value (encode_any_value v) = Some (value_view v).
Proof.
  intros Hv Hs. rewrite encode_value_fields in *. unfold read_value.
  rewrite collect_encoded by (auto using value_fields_plain).
  destruct v as [s|b|i|f|a]; cbn [value_fields scalar_field map wire_view value_view] in *;
    try match goal with |- _ = Some (inl ?v) =>
      pose proof (read_scalar_encoded v Hv I Hs) as E; cbn [scalar_field] in E; by rewrite E end.
  set (inner := map _ (array_values a)) in *.
  assert (Hsi : sized (encode_fields inner)) by (by apply (sized_payload 5 _ [WLen 5 (encode_fields inner)]); [left|]).
  rewrite collect_encoded by (done || apply len_fields_plain; lia). cbn [mbind option_bind].
  unfold inner at 1. rewrite lens_map. cbn [Z.eqb Pos.eqb].
  rewrite (mapM_views read_scalar (fun x => encode_fields (scalar_field x)) id); [by rewrite map_id|].
  pose proof (scalar_ok a Hv) as Ha. rewrite Forall_forall in Ha |- *. intros x Hx.
  destruct (Ha x Hx) as [Hx1 Hx2]. apply read_scalar_encoded; [done|done|].
  apply (sized_payload 1 _ inner); [|done]. apply list_elem_of_fmap. by exists x.
Qed.

Lemma read_key_value_encoded kv :
  key_value_ok kv -> sized (encode_key_value kv) -> read_key_value (encode_key_value kv) = Some (key_value_view kv).
Proof.
  intros Hv Hs. rewrite encode_key_value_fields in *. unfold read_key_value, key_value_fields in *.
  rewrite collect_encoded; [|apply Forall_app; split; [auto with otlp lia|by apply Forall_singleton]|done].
  cbn [mbind option_bind]. rewrite map_app. unfold text. rewrite !lens_app.
  assert (Ek : lens 2 (map wire_view (str_field 1 (kv_key kv))) = [] /\
    default [] (head (lens 1 (map wire_view (str_field 1 (kv_key kv))) ++ [])) = kv_key kv)
    by (by destruct (kv_key kv)).
  destruct Ek as [E1 E2]. rewrite E1. cbn [app map wire_view lens omap list_omap fst snd Z.eqb Pos.eqb head default from_option id].
  rewrite read_value_encoded; [cbn [mbind option_bind]|done|].
  - unfold key_value_view. do 2 f_equal. exact E2.
  - apply (sized_payload 2 _ _ ltac:(apply elem_of_app; right; by left) Hs).
Qed.

Lemma len_of_str n m s : lens n (map wire_view (str_field m s)) = if m =? n then match s with [] => [] | _ => [s] end else [].
Proof. destruct s; cbn; by destruct (m =? n). Qed.
Lemma len_of_u64 n m v : lens n (map wire_view (u64_field m v)) = [].
Proof. unfold u64_field. by destruct (v =? 0). Qed.
Lemma len_of_fixed64 n m v : lens n (map wire_view (fixed64_field m v)) = [].
Proof. unfold fixed64_field. by destruct (v =? 0). Qed.
Lemma len_of_fixed32 n m v : lens n (map wire_view (fixed32_field m v)) = [].
Proof. unfold fixed32_field. by destruct (v =? 0). Qed.
Lemma varint_of_str n m s : varints n (map wire_view (str_field m s)) = [].
Proof. by destruct s. Qed.
Lemma varint_of_u64 n m v : varints n (map wire_view (u64_field m v)) = if m =? n then if v =? 0 then [] else [v] else [].
Proof. unfold u64_field. destruct (v =? 0); cbn; by destruct (m =? n). Qed.
Lemma varint_of_fixed64 n m v : varints n (map wire_view (fixed64_field m v)) = if m =? n then if v =? 0 then [] else [v] else [].
Proof. unfold fixed64_field. destruct (v =? 0); cbn; by destruct (m =? n). Qed.
Lemma varint_of_fixed32 n m v : varints n (map wire_view (fixed32_field m v)) = if m =? n then if v =? 0 then [] else [v] else [].
Proof. unfold fixed32_field. destruct (v =? 0); cbn; by destruct (m =? n). Qed.

#[export] Hint Rewrite @lens_map @varints_map len_of_str len_of_u64 len_of_fixed64 len_of_fixed32
  varint_of_str varint_of_u64 varint_of_fixed64 varint_of_fixed32 : otlp.

(** A proto3 default reads back as the default. *)
Lemma default_text s : default [] (head (match s with [] => [] | _ => [s] end)) = s :> bytes.
Proof. by destruct s. Qed.
Lemma default_varint v : default 0 (head (if v =? 0 then [] else [v])) = v.
Proof. by destruct (Z.eqb_spec v 0). Qed.

Lemma key_values_read n fs l :
  (forall kv, kv ∈ l -> WLen n (encode_key_value kv) ∈ fs) -> sized (encode_fields fs) -> Forall key_value_ok l ->
  mapM read_key_value (map encode_key_value l) = Some (map key_value_view l).
Proof.
  intros Hin Hs Hok. apply mapM_views. rewrite Forall_forall in Hok |- *. intros kv Hkv.
  apply read_key_value_encoded; [by apply Hok|]. by apply (sized_payload n _ fs), Hs; apply Hin.
Qed.

Lemma read_event_encoded e :
  event_ok e -> sized (encode_event e) -> read_event (encode_event e) = Some (event_view e).
Proof.
  intros He Hs. rewrite encode_event_fields in *. unfold read_event, event_fields in *.
  rewrite collect_encoded; [|rewrite !Forall_app; split_and!; auto with otlp lia|done].
  cbn [mbind option_bind]. unfold varint, text. rewrite !map_app, !lens_app, !varints_app.
  autorewrite with otlp. cbn [Z.eqb Pos.eqb app]. rewrite !app_nil_r, default_varint, default_text.
  rewrite (key_values_read 3 (event_fields e) (ev_attributes e)); [done| |exact Hs|done].
  intros kv Hkv. unfold event_fields. rewrite !elem_of_app. do 2 right. apply list_elem_of_fmap. by exists kv.
Qed.

Lemma kind_range k : 0 < kind_value k < 2 ^ 64.
Proof. by destruct k. Qed.

Lemma span_flags_range r : 0 < span_flags r < 2 ^ 32.
Proof. unfold span_flags. by destruct (sr_sampled r), (sr_remote_parent r). Qed.

Lemma status_read s : sized (encode_fields (status_fields s)) ->
  exists fs, collect (encode_fields (status_fields s)) = Some fs /\ (text 2 fs, varint 3 fs) = status_view s.
Proof.
  intros Hs. eexists. split.
  - apply collect_encoded; [|done]. destruct s; cbn [status_fields]; rewrite ?Forall_app;
      repeat split; rewrite ?Forall_singleton; auto with otlp lia; cbn; lia.
  - unfold text, varint. destruct s as [| |d]; [done|done|]. cbn [status_fields status_view].
    rewrite map_app, lens_app, varints_app. autorewrite with otlp. cbn. by destruct d.
Qed.

Lemma span_fields_plain r : Forall plain (span_fields r).
Proof.
  pose proof (kind_range (sr_kind r)). pose proof (span_flags_range r).
  unfold span_fields. rewrite !Forall_app. split_and!; auto with otlp lia.
  - by repeat constructor.
  - by destruct (sr_parent_span_id r); [apply Forall_singleton|].
  - by destruct (status_part (sr_status r)); [apply Forall_singleton|].
Qed.

Lemma len_of_pair n a b : lens n (map wire_view [WLen 1 a; WLen 2 b]) = (if 1 =? n then [a] else []) ++ (if 2 =? n then [b] else []).
Proof. unfold lens. cbn [map wire_view omap list_omap fst snd]. by destruct (1 =? n), (2 =? n). Qed.
Lemma len_of_opt n m o :
  lens n (map wire_view (opt_field m o)) = if m =? n then match o with Some p => [p] | None => [] end else [].
Proof. destruct o; unfold lens; cbn [opt_field map wire_view omap list_omap fst snd]; by destruct (m =? n). Qed.
Lemma varint_of_opt n m o : varints n (map wire_view (opt_field m o)) = [].
Proof. by destruct o. Qed.
#[export] Hint Rewrite len_of_opt varint_of_opt : otlp.

Lemma span_lens r n : lens n (map wire_view (span_fields r)) =
    (if 1 =? n then [sr_trace_id r] else []) ++ (if 2 =? n then [sr_span_id r] else [])
    ++ (if 4 =? n then match sr_parent_span_id r with Some p => [p] | None => [] end else [])
    ++ (if 5 =? n then match sr_name r with [] => [] | _ => [sr_name r] end else [])
    ++ (if 9 =? n then map encode_key_value (sr_attributes r) else [])
    ++ (if 11 =? n then map encode_event (sr_events r) else [])
    ++ (if 15 =? n then match status_part (sr_status r) with Some p => [p] | None => [] end else []).
Proof.
  unfold span_fields. rewrite !map_app, !lens_app. autorewrite with otlp.
    rewrite len_of_pair, <- !app_assoc. cbn [app]. by rewrite app_nil_r.
Qed.

Lemma span_varints r n : varints n (map wire_view (span_fields r)) =
    (if 6 =? n then [kind_value (sr_kind r)] else [])
    ++ (if 7 =? n then if unix_nanos (sr_start r) =? 0 then [] else [unix_nanos (sr_start r)] else [])
    ++ (if 8 =? n then if unix_nanos (sr_end r) =? 0 then [] else [unix_nanos (sr_end r)] else [])
    ++ (if 16 =? n then [span_flags r] else []).
Proof.
  pose proof (kind_range (sr_kind r)). pose proof (span_flags_range r).
    unfold span_fields. rewrite !map_app, !varints_app. autorewrite with otlp.
    destruct (Z.eqb_spec (kind_value (sr_kind r)) 0), (Z.eqb_spec (span_flags r) 0); [lia..|].
    done.
Qed.

Lemma read_span_encoded r :
  span_ok r -> sized (encode_span r) -> read_span (encode_span r) = Some (span_view r).
Proof.
  intros [Ha He] Hs. rewrite encode_span_fields in *. unfold read_span.
  rewrite collect_encoded by (done || apply span_fields_plain). cbn [mbind option_bind].
  unfold text, varint. rewrite !span_lens, !span_varints. cbn [Z.eqb Pos.eqb app]. rewrite ?app_nil_r.
  rewrite (key_values_read 9 (span_fields r) (sr_attributes r)); [|
    intros kv Hkv; unfold span_fields; rewrite !elem_of_app; do 6 right; left; apply list_elem_of_fmap; by exists kv
    |exact Hs|exact Ha]. cbn [mbind option_bind].
  rewrite (mapM_views read_event encode_event event_view); [cbn [mbind option_bind]|].
  2: { rewrite Forall_forall in He |- *. intros e Hin. apply read_event_encoded; [by apply He|].
    apply (sized_payload 11 _ (span_fields r)); [|done]. unfold span_fields. rewrite !elem_of_app. do 7 right. left.
    apply list_elem_of_fmap. by exists e. }
  assert (Hst : exists fs, collect (default [] (head
      match status_part (sr_status r) with Some p => [p] | None => [] end)) = Some fs /\
    (text 2 fs, varint 3 fs) = status_view (sr_status r)).
  { destruct (sr_status r) eqn:Es; [by exists []|..]; cbn [status_part head default from_option id]; apply status_read;
      (apply (sized_payload 15 _ (span_fields r)); [|done]); unfold span_fields; rewrite Es, !elem_of_app;
      do 8 right; left; by left. }
  destruct Hst as (fs & -> & Est). cbn [mbind option_bind]. rewrite !default_text, !default_varint.
  unfold text, varint in Est. rewrite Est. unfold span_view. cbn [head default from_option id].
  do 2 f_equal. by destruct (sr_parent_span_id r).
Qed.

(** The resource attributes every request carries. *)
Definition resource_view (version service_name : bytes) : list (bytes * (Value + list Value)) :=
  [(bs "service.name", inl (VString service_name)); (bs "telemetry.sdk.name", inl (VString (bs "plecto")));
   (bs "telemetry.sdk.language", inl (VString (bs "rust"))); (bs "telemetry.sdk.version", inl (VString version))].

Lemma resource_reads version service_name :
  sized (encode_resource version service_name) ->
  exists fs, collect (encode_resource version service_name) = Some fs /\
    mapM read_key_value (lens 1 fs) = Some (resource_view version service_name).
Proof.
  pose (kvs := [mkKeyValue (bs "service.name") (VString service_name);
    mkKeyValue (bs "telemetry.sdk.name") (VString (bs "plecto"));
    mkKeyValue (bs "telemetry.sdk.language") (VString (bs "rust"));
    mkKeyValue (bs "telemetry.sdk.version") (VString version)]).
  assert (E : encode_resource version service_name = encode_fields (map (fun kv => WLen 1 (encode_key_value kv)) kvs)).
  { rewrite encode_fields_lens. unfold kvs. cbn [map concat]. by rewrite app_nil_r. }
  rewrite E. intros Hs. eexists. split; [apply collect_encoded; [apply len_fields_plain; lia|done]|].
  rewrite lens_map. cbn [Z.eqb Pos.eqb].
  rewrite (key_values_read 1 _ kvs (fun kv Hkv => proj2 (list_elem_of_fmap _ _ _) (ex_intro _ kv (conj eq_refl Hkv))) Hs).
  - done.
  - by repeat constructor.
Qed.

(** The two envelopes around the resource and its spans. *)
Lemma envelope_reads resource scope_spans :
  sized (put_len 1 (put_len 1 resource ++ put_len 2 scope_spans)) ->
  exists fs rs, collect (put_len 1 (put_len 1 resource ++ put_len 2 scope_spans)) = Some fs /\
    collect (text 1 fs) = Some rs /\ text 1 rs = resource /\ text 2 rs = scope_spans /\
    sized resource /\ sized scope_spans.
Proof.
  assert (E : put_len 1 resource ++ put_len 2 scope_spans = encode_fields ([WLen 1 resource] ++ [WLen 2 scope_spans]))
    by (by rewrite encode_fields_app, !encode_fields_one).
  assert (E1 : forall inner, put_len 1 inner = encode_fields [WLen 1 inner]) by (intros; by rewrite encode_fields_one).
  intros Hs. rewrite E, E1 in Hs |- *.
  assert (Hrs : sized (encode_fields ([WLen 1 resource] ++ [WLen 2 scope_spans])))
    by (apply (sized_payload 1 _ _ ltac:(by left) Hs)).
  exists [(1, PLen (encode_fields ([WLen 1 resource] ++ [WLen 2 scope_spans])))], [(1, PLen resource); (2, PLen scope_spans)].
  rewrite collect_encoded by (done || by apply Forall_singleton). split; [done|].
  split; [apply (collect_encoded ([WLen 1 resource] ++ [WLen 2 scope_spans])); [by repeat constructor|done]|].
  split; [done|]. split; [done|]. split.
  - apply (sized_payload 1 _ ([WLen 1 resource] ++ [WLen 2 scope_spans]) ltac:(by left) Hrs).
  - apply (sized_payload 2 _ ([WLen 1 resource] ++ [WLen 2 scope_spans]) ltac:(right; by left) Hrs).
Qed.

Lemma scope_spans_read scope spans :
  let body := put_len 1 scope ++ concat (map (fun r => put_len 2 (encode_span r)) spans) in
  sized body -> Forall span_ok spans ->
  exists fs, collect body = Some fs /\ mapM read_span (lens 2 fs) = Some (map span_view spans).
Proof.
  intros body. assert (E : body = encode_fields ([WLen 1 scope] ++ map (fun r => WLen 2 (encode_span r)) spans))
    by (by rewrite encode_fields_app, encode_fields_one, encode_fields_lens).
  rewrite E. intros Hs Hok. eexists. split.
  { apply collect_encoded; [|done]. apply Forall_app. split; [by apply Forall_singleton|apply len_fields_plain; lia]. }
  rewrite map_app, lens_app, lens_map. cbn [Z.eqb Pos.eqb].
  change (lens 2 (map wire_view [WLen 1 scope])) with (@nil bytes). cbn [app].
  apply mapM_views. rewrite Forall_forall in Hok |- *. intros r Hr. apply read_span_encoded; [by apply Hok|].
  apply (sized_payload 2 _ ([WLen 1 scope] ++ map (fun r => WLen 2 (encode_span r)) spans)); [|done].
  apply elem_of_app. right. apply list_elem_of_fmap. by exists r.
Qed.

(** C37: a collector that reads an export request by the protocol's field numbers, with the very
    field reader this host uses, gets back the resource identity and every span of the batch in
    order, with its identifiers, parent, name, kind, times, attributes of every value type,
    events, status and flags; in particular proto3's omitted defaults lose nothing. *)
Theorem otlp_request_reads_back (version service_name : bytes) (spans : list SpanRecord) :
  sized (encode_traces_request version service_name spans) -> Forall span_ok spans ->
  read_traces_request (encode_traces_request version service_name spans) =
    Some (resource_view version service_name, map span_view spans).
Proof.
  intros Hs Hok. unfold encode_traces_request in *.
  destruct (envelope_reads _ _ Hs) as (fs & rs & Efs & Ers & Er & Es & Hres & Hsc).
  destruct (resource_reads version service_name Hres) as (fr & Efr & Eattrs).
  destruct (scope_spans_read (encode_scope version) spans Hsc Hok) as (fsp & Efsp & Espans).
  unfold read_traces_request. rewrite Efs. cbn [mbind option_bind]. rewrite Ers. cbn [mbind option_bind].
  rewrite Er, Es, Efr. cbn [mbind option_bind]. rewrite Eattrs. cbn [mbind option_bind].
  unfold encode_scope_spans. rewrite Efsp. cbn [mbind option_bind]. by rewrite Espans.
Qed.

Lemma otlp_request_reads_back_witness :
  exists r, sr_attributes r = [mkKeyValue (bs "n") (VArray (ArrayI64 [-1; 300]))] /\
    read_traces_request (encode_traces_request (bs "1.0") (bs "plecto") [r]) =
      Some (resource_view (bs "1.0") (bs "plecto"), [span_view r]).
Proof.
  pose (r := mkRecord (be_bytes 16 77) (be_bytes 8 5) None (bs "GET") KindServer 1700000000000000000 (-5)
    (StatusError (bs "trap")) [mkKeyValue (bs "n") (VArray (ArrayI64 [-1; 300]))]
    [mkEvent [] 0 [mkKeyValue (bs "log.level") (VString (bs "info"))]] false true).
  exists r. split; [reflexivity|].
  apply (otlp_request_reads_back (bs "1.0") (bs "plecto") [r]); [vm_compute; reflexivity|].
  apply Forall_singleton. split; [apply Forall_singleton|apply Forall_singleton, Forall_singleton; exact I].
  repeat constructor; vm_compute; congruence.
Defined.

(** A collector's partial rejection is read as it was written, and a default one is no rejection. *)
Lemma partial_success_reads rejected message :
  i64_range rejected -> utf8_valid message = true ->
  sized (put_len 1 (put_u64 1 (wrap64 rejected) ++ put_str 2 message)) ->
  decode_export_partial_success (put_len 1 (put_u64 1 (wrap64 rejected) ++ put_str 2 message)) =
    if (rejected =? 0) && bytes_eqb message [] then None else Some (mkPartial rejected message).
Proof.
  intros Hr Hm Hs.
  assert (Ei : put_u64 1 (wrap64 rejected) ++ put_str 2 message
    = encode_fields (u64_field 1 (wrap64 rejected) ++ str_field 2 message))
    by (by rewrite encode_fields_app, put_u64_fields, put_str_fields).
  assert (E1 : forall inner, put_len 1 inner = encode_fields [WLen 1 inner]) by (intros; by rewrite encode_fields_one).
  rewrite Ei, E1 in Hs |- *. set (fs := u64_field 1 (wrap64 rejected) ++ str_field 2 message) in *.
  assert (Hfs : Forall wire_ok fs).
  { apply wire_ok_sized; [apply Forall_app; split; auto with otlp lia|].
    apply (sized_payload 1 _ [WLen 1 (encode_fields fs)] ltac:(by left) Hs). }
  unfold decode_export_partial_success. unfold encode_fields at 1.
  rewrite read_fields_encoded by (apply wire_ok_sized; [by apply Forall_singleton|done]).
  cbn [map wire_view visit_all fst snd Z.eqb Pos.eqb]. unfold encode_fields. rewrite read_fields_encoded by done.
  subst fs. rewrite map_app. unfold u64_field, str_field.
  destruct (Z.eqb_spec (wrap64 rejected) 0) as [E0|E0].
  - assert (rejected = 0) as -> by (rewrite <- (as_i64_wrap rejected Hr), E0; reflexivity).
    destruct message; cbn [map app wire_view visit_all fst snd Z.eqb Pos.eqb andb]; [done|].
    by rewrite lossy_text.
  - assert (Hne : (rejected =? 0) = false).
    { apply Z.eqb_neq. intros ->. by apply E0. }
    destruct message; cbn [map app wire_view visit_all fst snd Z.eqb Pos.eqb]; rewrite as_i64_wrap, Hne by done; cbn [andb];
      [done|by rewrite lossy_text].
Qed.
