(* ===== verification/OtlpPump.v ===== *)
(** * The OTLP export pump (server/src/otlp.rs)

    The task that drains the span queue towards the collector: one batch's attempts with the
    protocol's retry discipline, and the pump's steps interleaved with the data plane's pushes.
    What the collector answers is an input.  Durations are milliseconds. *)

From S2P Require Import Prelude Bytes Compression Otlp.

Definition MAX_EXPORT_BATCH : nat := 512.
Definition MAX_ATTEMPTS : nat := 3.
Definition BACKOFF_BASE : Z := 500.
Definition BACKOFF_CAP : Z := 5000.

(** ** The endpoint *)

Definition trim_end_slashes (s : bytes) : bytes :=
  let fix go s := match s with "/"%char :: s => go s | _ => s end in rev (go (rev s)).

(** [valid_uri] is the URI parser's acceptance. *)
Definition traces_uri (valid_uri : bytes -> bool) (endpoint : bytes) : option bytes :=
  if negb (starts_with (bs "http://") endpoint) then None
  else
    let uri := trim_end_slashes endpoint ++ bs "/v1/traces" in
    if valid_uri uri then Some uri else None.

(** ** One batch *)

(** What one attempt came to.  [AtStalled] is a 200 whose body never ends: reading it is under no
    timeout. *)
Inductive Attempt :=
| AtUnbuildable | AtStatus (status : Z) (retry_after : option bytes) | AtTransport | AtTimeout | AtStalled.

Definition is_retryable (status : Z) : bool :=
  (status =? 429) || (status =? 502) || (status =? 503) || (status =? 504).

Definition retry_after_seconds (header : option bytes) : option Z :=
  h ← header; secs ← parse_u64 (trim h); Some (Z.min (secs * 1000) BACKOFF_CAP).

(** [nanos] is the wall clock's sub-second part. *)
Definition backoff (attempt nanos : Z) : Z :=
  Z.min (BACKOFF_BASE * 2 ^ Z.min attempt 4 + nanos mod 250) BACKOFF_CAP.

(** [export_batch] over what each attempt comes to: whether the collector accepted, [None] when it
    never returns, with the attempts made and the pauses between them. *)
Fixpoint export_loop (tries : nat) (attempt : Z) (outcome : Z -> Attempt) (nanos : Z -> Z)
    : option bool * list Attempt * list Z :=
  match tries with
  | O => (Some false, [], [])
  | S tries =>
    let o := outcome attempt in
    let again (after : option Z) :=
      match tries with
      | O => (Some false, [o], [])
      | _ =>
        let '(r, os, pauses) := export_loop tries (attempt + 1) outcome nanos in
        (r, o :: os, default (backoff attempt (nanos attempt)) after :: pauses)
      end in
    match o with
    | AtUnbuildable => (Some false, [o], [])
    | AtStalled => (None, [o], [])
    | AtStatus status retry_after =>
      if status =? 200 then (Some true, [o], [])
      else if negb (is_retryable status) then (Some false, [o], [])
      else again (retry_after_seconds retry_after)
    | AtTransport | AtTimeout => again None
    end
  end.
Definition export_batch (max_attempts : nat) (outcome : Z -> Attempt) (nanos : Z -> Z)
    : option bool * list Attempt * list Z := export_loop max_attempts 0 outcome nanos.

(** ** The pump *)

(** What the pump leaves when it stops: the batch a cancelled flush had out, and the queue. *)
Record Leftover := mkLeftover { lo_batch : list SpanRecord; lo_queue : list SpanRecord }.

(** How a batch was settled: whether accepted, what its attempts came to, the pauses between. *)
Record Settled := mkSettled {
  st_limit : nat;
  st_accepted : bool;
  st_attempts : list Attempt;
  st_pauses : list Z;
}.

(** [pm_batch] is the batch drained and not yet settled; [pm_offered], [pm_delivered] and
    [pm_settled] record what the queue was offered, what the collector accepted, and each batch's
    export. *)
Record PumpState := mkPump {
  pm_buffer : OtlpBuffer;
  pm_batch : option (list SpanRecord);
  pm_draining : bool;
  pm_stopped : option Leftover;
  pm_offered : list SpanRecord;
  pm_delivered : list SpanRecord;
  pm_settled : list Settled;
}.

Definition pump_new (capacity : nat) : PumpState :=
  mkPump (buffer_new capacity) None false None [] [] [].

(** The attempts a batch is given: one during the shutdown flush. *)
Definition max_attempts (s : PumpState) : nat := if pm_draining s then 1%nat else MAX_ATTEMPTS.

(** The steps of [serve_otlp_export] and [export_until_empty], among the producers' pushes: the
    drain arm of the select runs between ticks, with no batch out. *)
Inductive pump_step (s : PumpState) : PumpState -> Prop :=
| PmPush r :
    pump_step s (mkPump (push (pm_buffer s) r) (pm_batch s) (pm_draining s) (pm_stopped s)
      (pm_offered s ++ [r]) (pm_delivered s) (pm_settled s))
| PmTake batch b : pm_stopped s = None -> pm_batch s = None ->
    drain (pm_buffer s) MAX_EXPORT_BATCH = (batch, b) -> batch <> [] ->
    pump_step s (mkPump b (Some batch) (pm_draining s) None (pm_offered s) (pm_delivered s) (pm_settled s))
| PmAccepted batch outcome nanos os pauses : pm_stopped s = None -> pm_batch s = Some batch ->
    export_batch (max_attempts s) outcome nanos = (Some true, os, pauses) ->
    pump_step s (mkPump (pm_buffer s) None (pm_draining s) None (pm_offered s)
      (pm_delivered s ++ batch) (pm_settled s ++ [mkSettled (max_attempts s) true os pauses]))
| PmGaveUp batch outcome nanos os pauses : pm_stopped s = None -> pm_batch s = Some batch ->
    export_batch (max_attempts s) outcome nanos = (Some false, os, pauses) ->
    pump_step s (mkPump (record_dropped (pm_buffer s) (Z.of_nat (length batch))) None (pm_draining s)
      None (pm_offered s) (pm_delivered s) (pm_settled s ++ [mkSettled (max_attempts s) false os pauses]))
| PmDrained : pm_stopped s = None -> pm_batch s = None -> pm_draining s = false ->
    pump_step s (mkPump (pm_buffer s) None true None (pm_offered s) (pm_delivered s) (pm_settled s))
| PmFlushed : pm_stopped s = None -> pm_batch s = None -> pm_draining s = true ->
    ob_queue (pm_buffer s) = [] ->
    pump_step s (mkPump (pm_buffer s) None true (Some (mkLeftover [] [])) (pm_offered s)
      (pm_delivered s) (pm_settled s))
| PmFlushExpired : pm_stopped s = None -> pm_draining s = true ->
    pump_step s (mkPump
      (record_dropped (pm_buffer s) (Z.of_nat (length (ob_queue (pm_buffer s))))) None true
      (Some (mkLeftover (default [] (pm_batch s)) (ob_queue (pm_buffer s))))
      (pm_offered s) (pm_delivered s) (pm_settled s)).

(** ** The retry discipline *)

(** The outcomes the protocol lets an exporter try again after. *)
Definition transient (o : Attempt) : Prop :=
  match o with
  | AtStatus status _ => status ∈ [429; 502; 503; 504]
  | AtTransport | AtTimeout => True
  | AtUnbuildable | AtStalled => False
  end.

(** The pause after attempt [i]: what the collector asked for, up to five seconds, else half a second
    doubled each time with under a quarter of a second of jitter, up to five seconds. *)
Definition pause_after (i : Z) (o : Attempt) (pause : Z) : Prop :=
  match match o with AtStatus _ (Some h) => parse_u64 (trim h) | _ => None end with
  | Some secs => pause = Z.min (secs * 1000) 5000
  | None => exists jitter, 0 <= jitter < 250 /\ pause = Z.min (500 * 2 ^ Z.min i 4 + jitter) 5000
  end.

Lemma backoff_pause i o nanos :
  match o with AtStatus _ (Some h) => parse_u64 (trim h) | _ => None end = None ->
  pause_after i o (backoff i nanos).
Proof. unfold pause_after. intros ->. exists (nanos mod 250). split; [apply Z.mod_pos_bound; lia|done]. Qed.

Lemma again_pause i status header nanos :
  pause_after i (AtStatus status header) (default (backoff i nanos) (retry_after_seconds header)).
Proof.
  unfold retry_after_seconds. destruct header as [h|]; cbn [mbind option_bind]; [|by apply backoff_pause].
  destruct (parse_u64 (trim h)) as [secs|] eqn:E; cbn [mbind option_bind default].
  - unfold pause_after. by rewrite E.
  - by apply backoff_pause.
Qed.

Lemma is_retryable_spec status : is_retryable status = true <-> status ∈ [429; 502; 503; 504].
Proof. unfold is_retryable. rewrite !orb_true_iff, !Z.eqb_eq, !elem_of_cons, elem_of_nil. tauto. Qed.

(** An export from attempt [i] on: at most [limit] attempts, after all but the last a transient
    outcome and its pause, and a result that the last one decides. *)
Definition export_from (i : Z) (limit : nat) (r : option bool) (os : list Attempt) (pauses : list Z) : Prop :=
  (length os <= limit)%nat /\ length pauses = pred (length os) /\
  (forall k o p, os !! k = Some o -> pauses !! k = Some p ->
     transient o /\ pause_after (i + Z.of_nat k) o p) /\
  match r with
  | Some true => exists retry_after, last os = Some (AtStatus 200 retry_after)
  | Some false => limit = 0%nat \/
      exists o, last os = Some o /\ (forall h, o <> AtStatus 200 h) /\ (length os = limit \/ ~ transient o)
  | None => last os = Some AtStalled
  end.

Lemma export_one i limit o r : (0 < limit)%nat ->
  match r with
  | Some true => exists h, o = AtStatus 200 h
  | Some false => (forall h, o <> AtStatus 200 h) /\ (limit = 1%nat \/ ~ transient o)
  | None => o = AtStalled
  end -> export_from i limit r [o] [].
Proof.
  intros Hl Hr. unfold export_from. cbn. split_and!; [lia|done|by intros [|k]|].
  destruct r as [[]|]; [destruct Hr as [h ->]; by exists h| |by rewrite Hr].
  right. exists o. destruct Hr as [? [->|?]]; auto.
Qed.

Lemma export_again i limit r o os pause pauses : (0 < limit)%nat ->
  export_from (i + 1) limit r os pauses -> transient o -> pause_after i o pause ->
  export_from i (S limit) r (o :: os) (pause :: pauses).
Proof.
  intros Hl (H1 & H2 & H3 & H4) Ho Hp.
  assert (Hos : os <> []).
  { intros ->. destruct r as [[]|]; [by destruct H4| |done]. destruct H4 as [->|(? & ? & _)]; [lia|done]. }
  destruct os as [|o1 os]; [done|]. unfold export_from. cbn [length] in *. split_and!; [lia|cbn; lia| |].
  - intros [|k] o' p Hk Hpk; cbn in Hk, Hpk; [simplify_eq; by rewrite Z.add_0_r|].
    destruct (H3 k o' p Hk Hpk) as [? Hpa]. split; [done|].
    by replace (i + Z.of_nat (S k)) with (i + 1 + Z.of_nat k) by lia.
  - destruct r as [[]|]; [done| |done]. right. destruct H4 as [->|(o' & Hlast & Hn & Hd)]; [lia|].
    exists o'. split_and!; [done|done|]. destruct Hd as [<-|]; [by left|by right].
Qed.

Lemma export_loop_spec tries : forall i outcome nanos r os pauses,
  export_loop tries i outcome nanos = (r, os, pauses) -> export_from i tries r os pauses.
Proof.
  induction tries as [|tries IH]; intros i outcome nanos r os pauses; cbn [export_loop].
  { intros [= <- <- <-]. unfold export_from. cbn. split_and!; try done. by left. }
  assert (Hagain : forall after, transient (outcome i) ->
    pause_after i (outcome i) (default (backoff i (nanos i)) after) ->
    match tries with
    | O => (Some false, [outcome i], [])
    | _ => let '(r, os, pauses) := export_loop tries (i + 1) outcome nanos in
        (r, outcome i :: os, default (backoff i (nanos i)) after :: pauses)
    end = (r, os, pauses) -> export_from i (S tries) r os pauses).
  { intros after Ht Hp E. destruct tries as [|tries].
    - injection E as <- <- <-. apply export_one; [lia|]. split; [|by left]. intros h Eo.
      rewrite Eo in Ht. cbn in Ht. rewrite !elem_of_cons, elem_of_nil in Ht. lia.
    - destruct (export_loop (S tries) (i + 1) outcome nanos) as [[r' os'] pauses'] eqn:El.
      injection E as <- <- <-. apply export_again; [lia|by eapply IH|done|done]. }
  destruct (outcome i) as [|status h| | |] eqn:Eo.
  - intros [= <- <- <-]. apply export_one; [lia|]. split; [done|]. right. exact (fun H => H).
  - destruct (Z.eqb_spec status 200) as [->|Hne].
    { intros [= <- <- <-]. apply export_one; [lia|by eexists]. }
    destruct (is_retryable status) eqn:Er; cbn [negb].
    + apply Hagain; [by apply is_retryable_spec|apply again_pause].
    + intros [= <- <- <-]. apply export_one; [lia|]. split; [congruence|right]. cbn.
      rewrite <- is_retryable_spec. congruence.
  - apply Hagain; [done|by apply backoff_pause].
  - apply Hagain; [done|by apply backoff_pause].
  - intros [= <- <- <-]. by apply export_one; [lia|].
Qed.

(** ** The accounts *)

(** Every span the queue was offered is delivered, out with the pump, queued or counted as dropped,
    and none of them twice.  Once the pump has stopped, its leftover queue is counted as dropped,
    later offers queue behind it, and only the batch a cancelled flush had out is in no count.
    Delivery and the queue keep the order of the offers. *)
Definition accounted (capacity : nat) (s : PumpState) : Prop :=
  let out := default [] (pm_batch s) in
  let queue := ob_queue (pm_buffer s) in
  let size (l : list SpanRecord) := Z.of_nat (length l) in
  ob_capacity (pm_buffer s) = capacity /\ (length queue <= capacity)%nat /\
  (length out <= MAX_EXPORT_BATCH)%nat /\
  exists dropped, ob_dropped (pm_buffer s) = dropped mod 2 ^ 64 /\ 0 <= dropped /\
    match pm_stopped s with
    | None =>
        pm_delivered s ++ out ++ queue `sublist_of` pm_offered s /\
        size (pm_delivered s) + size out + size queue + dropped = size (pm_offered s)
    | Some rest => exists later,
        pm_draining s = true /\ out = [] /\ queue = lo_queue rest ++ later /\
        (length (lo_batch rest) <= MAX_EXPORT_BATCH)%nat /\
        pm_delivered s ++ lo_batch rest ++ lo_queue rest ++ later `sublist_of` pm_offered s /\
        size (pm_delivered s) + size (lo_batch rest) + size later + dropped = size (pm_offered s)
    end.

(** A batch was exported as the protocol prescribes: three attempts at most, or one while the server
    shuts down; another attempt only after a transient outcome, and after its pause; accepted when the
    last attempt was answered 200, given up otherwise, and then with no attempt left or none allowed. *)
Definition disciplined (e : Settled) : Prop :=
  (st_limit e = 3 \/ st_limit e = 1)%nat /\ (1 <= length (st_attempts e) <= st_limit e)%nat /\
  length (st_pauses e) = pred (length (st_attempts e)) /\
  (forall k o p, st_attempts e !! k = Some o -> st_pauses e !! k = Some p ->
     transient o /\ pause_after (Z.of_nat k) o p) /\
  exists o, last (st_attempts e) = Some o /\
    if st_accepted e then exists h, o = AtStatus 200 h
    else (forall h, o <> AtStatus 200 h) /\ (length (st_attempts e) = st_limit e \/ ~ transient o).

Lemma export_disciplined s outcome nanos ok os pauses :
  export_batch (max_attempts s) outcome nanos = (Some ok, os, pauses) ->
  disciplined (mkSettled (max_attempts s) ok os pauses).
Proof.
  unfold export_batch. intros (H1 & H2 & H3 & H4)%export_loop_spec.
  assert (Hm : max_attempts s = 3%nat \/ max_attempts s = 1%nat)
    by (unfold max_attempts, MAX_ATTEMPTS; destruct (pm_draining s); auto).
  assert (Hlast : exists o, last os = Some o /\
    if ok then exists h, o = AtStatus 200 h
    else (forall h, o <> AtStatus 200 h) /\ (length os = max_attempts s \/ ~ transient o)).
  { destruct ok; [destruct H4 as [h Hh]; eauto|]. destruct H4 as [E|H4]; [|done].
    rewrite E in Hm. destruct Hm; discriminate. }
  unfold disciplined. cbn [st_limit st_accepted st_attempts st_pauses]. split_and!; try done.
  destruct Hlast as (o & Hl & _). destruct os; [done|cbn; lia].
Qed.

Lemma wrapping_add_mod d n : wrapping_add (d mod 2 ^ 64) n = (d + n) mod 2 ^ 64.
Proof. unfold wrapping_add, wrap64. by rewrite Zplus_mod_idemp_l. Qed.

#[local] Arguments MAX_EXPORT_BATCH : simpl never.
#[local] Arguments Nat.ltb : simpl never.

Lemma accounted_step capacity s t : pump_step s t -> accounted capacity s -> accounted capacity t.
Proof.
  intros Hst (Hc & Hq & Ho & d & Hd & Hd0 & Hs). unfold accounted.
  destruct s as [[q c dr] out dn stopped off del lost]. cbn in *. subst c dr.
  destruct Hst; cbn in *.
  - unfold push; cbn. destruct (Nat.ltb_spec (length q) capacity) as [Hlt|Hge]; cbn.
    + rewrite !length_app; cbn. split_and!; [done|lia|done|exists d]. split_and!; [done|done|].
      destruct stopped as [rest|].
      * destruct Hs as (later & Hdn & Hout & -> & Hb & Hsub & Hsum). exists (later ++ [r]).
        rewrite !length_app in *; cbn. split_and!; [done|done|by rewrite app_assoc|done| |lia].
        rewrite !app_assoc in *. by apply sublist_app.
      * destruct Hs as [Hsub Hsum]. rewrite !app_assoc in *. split; [by apply sublist_app|]. lia.
    + rewrite length_app; cbn. split_and!; [done..|exists (d + 1)]. rewrite wrapping_add_mod.
      split_and!; [done|lia|]. destruct stopped as [rest|].
      * destruct Hs as (later & Hdn & Hout & -> & Hb & Hsub & Hsum). exists later.
        split_and!; try done; [|lia]. by apply sublist_inserts_r.
      * destruct Hs as [Hsub Hsum]. split; [by apply sublist_inserts_r|lia].
  - unfold drain in *. cbn in *. subst stopped out. simplify_eq/=. destruct Hs as [Hsub Hsum].
    set (n := Nat.min (length q) MAX_EXPORT_BATCH) in *. rewrite take_drop.
    split_and!; [done|rewrite length_drop; lia|rewrite length_take; lia|exists d].
    rewrite length_take, length_drop. split_and!; [done|done|done|lia].
  - subst stopped out. destruct Hs as [Hsub Hsum]. cbn in *. split_and!; [done|done|lia|exists d].
    rewrite length_app, <- app_assoc. split_and!; [done|done|done|lia].
  - subst stopped out. destruct Hs as [Hsub Hsum]. cbn in *.
    split_and!; [done|done|lia|exists (d + Z.of_nat (length batch))].
    rewrite wrapping_add_mod. split_and!; [done|lia| |lia].
    etransitivity; [|exact Hsub]. apply sublist_app; [done|]. by apply sublist_inserts_l.
  - subst stopped out. split_and!; [done..|]. by exists d.
  - subst. destruct Hs as [Hsub Hsum]. cbn in *. split_and!; [done|done|done|exists d].
    split_and!; [done|done|]. exists []. cbn in *. split_and!; try done; lia.
  - subst. destruct Hs as [Hsub Hsum]. cbn in *.
    split_and!; [done|done|lia|exists (d + Z.of_nat (length q))].
    rewrite wrapping_add_mod. split_and!; [done|lia|]. exists []. cbn. rewrite !app_nil_r.
    split_and!; try done; lia.
Qed.

Lemma settled_step s t : pump_step s t -> Forall disciplined (pm_settled s) -> Forall disciplined (pm_settled t).
Proof.
  intros Hst H. destruct Hst as [| |batch outcome nanos os pauses _ _ E|batch outcome nanos os pauses _ _ E| | |];
    cbn; try done;
    (apply Forall_app; split; [done|]; apply Forall_singleton; by eapply export_disciplined).
Qed.

(** C38: The trace pump's accounts balance.  Whatever the data plane pushes, however batches are
    taken, accepted or given up, and whenever the drain comes: the queue stays within its capacity,
    at most one batch is out, and what the collector accepted followed by what is still held is in
    the order the spans were offered.  While the pump runs every offered span is exactly one of
    delivered, out, queued or counted in [dropped] (which wraps at 64 bits); after it stops
    what was left in the queue is counted too, and the only spans missing are the one batch a
    cancelled flush had out.  Each settled batch got at most three attempts, one during shutdown,
    each but the last after a transient outcome and followed by the pause asked for or the
    backoff, and counts as delivered exactly when its last attempt was answered 200. *)
Theorem pump_accounts (capacity : nat) (s : PumpState) :
  rtc pump_step (pump_new capacity) s -> accounted capacity s /\ Forall disciplined (pm_settled s).
Proof.
  intros Hr. assert (H0 : accounted capacity (pump_new capacity)).
  { split_and!; cbn; try done; try lia. exists 0. split_and!; done. }
  assert (H1 : Forall disciplined (pm_settled (pump_new capacity))) by constructor.
  revert H0 H1. induction Hr as [|x y z Hxy _ IH]; [done|]. intros Hx Hd.
  apply IH; [by apply (accounted_step _ x)|by apply (settled_step x)].
Qed.

(** A flush cut short by its deadline loses the batch it had out without counting it: one span
    offered, none delivered, none queued, none dropped. *)
Example expired_flush_uncounted :
  exists s, rtc pump_step (pump_new 4) s /\ is_Some (pm_stopped s) /\ length (pm_offered s) = 1%nat /\
    pm_delivered s = [] /\ ob_queue (pm_buffer s) = [] /\ ob_dropped (pm_buffer s) = 0.
Proof.
  set (r := mkRecord [] [] None [] KindServer 0 0 StatusUnset [] [] false true).
  eexists. split.
  - eapply rtc_l; [by apply (PmPush _ r)|]. eapply rtc_l; [by apply PmDrained|].
    eapply rtc_l; [by eapply PmTake|]. eapply rtc_l; [by apply PmFlushExpired|]. apply rtc_refl.
  - split_and!; [by eexists|done..].
Qed.

(** A batch refused with 503 and a Retry-After, then accepted, while a second span finds the queue
    of one taken. *)
Definition retried_once (attempt : Z) : Attempt :=
  if attempt =? 0 then AtStatus 503 (Some (bs "2")) else AtStatus 200 None.

Lemma pump_accounts_witness :
  exists s, rtc pump_step (pump_new 1) s /\ length (pm_delivered s) = 1%nat /\
    map st_pauses (pm_settled s) = [[2000]] /\
    accounted 1 s /\ Forall disciplined (pm_settled s).
Proof.
  pose (r := mkRecord [] [] None [] KindServer 0 0 StatusUnset [] [] false true).
  assert (H : exists s, rtc pump_step (pump_new 1) s /\ length (pm_delivered s) = 1%nat /\
    map st_pauses (pm_settled s) = [[2000]]).
  { eexists. split; [eapply rtc_l; [apply (PmPush _ r)|]; eapply rtc_l; [apply (PmPush _ r)|];
      eapply rtc_l; [eapply PmTake; [reflexivity|reflexivity|reflexivity|discriminate]|];
      eapply rtc_l; [apply (PmAccepted _ [r] retried_once (fun _ => 0)
        [AtStatus 503 (Some (bs "2")); AtStatus 200 None] [2000]); reflexivity|apply rtc_refl]
      |split; reflexivity]. }
  destruct H as (s & Hr & Hd & Hp). exists s. split; [exact Hr|]. split; [exact Hd|].
  split; [exact Hp|]. exact (pump_accounts 1 s Hr).
Defined.

(** A collector that answers 200 and never ends its body holds the pump for good: no timeout covers
    the body, and no later attempt is made. *)
Example stalled_body_holds_the_pump tries nanos :
  export_batch (S tries) (fun _ => AtStalled) nanos = (None, [AtStalled], []).
Proof. done. Qed.
