(* ===== verification/Filesystem.v ===== *)
(** * Paths and the filesystem

    The parts of the standard library's paths and file calls the artifact loader uses: path
    components, resolution through symbolic links, canonicalisation, metadata without following,
    bounded reads and whole-file writes.  A call sees the filesystem as it stands when it is made,
    so a sequence of calls runs against a different one at each step. *)

From S2P Require Import Prelude Bytes.

(** ** Paths *)

Inductive Component := CRoot | CCur | CParent | CNormal (name : bytes).
#[export] Instance Component_eq_dec : EqDecision Component.
Proof. solve_decision. Defined.

Definition component_of (part : bytes) : list Component :=
  if bytes_eqb part [] then [] else if bytes_eqb part (bs ".") then []
  else if bytes_eqb part (bs "..") then [CParent] else [CNormal part].

Definition is_absolute (p : bytes) : bool := starts_with_byte SLASH p.

(** [Path::components]: empty and interior "." parts vanish, a leading "." does not. *)
Definition components (p : bytes) : list Component :=
  let parts := split_on SLASH p in
  (if is_absolute p then [CRoot]
   else match parts with part :: _ => if bytes_eqb part (bs ".") then [CCur] else [] | [] => [] end)
  ++ flat_map component_of parts.

(** ** The tree *)

(** A node per absolute path, a path being the names from the root, which is a directory. *)
Inductive Node := NFile (content : bytes) | NDir | NLink (target : bytes).
Definition Fs : Type := gmap (list bytes) Node.

Definition MAX_LINKS : nat := 40.

(** Resolution from a directory along components, through at most [links] symbolic links. *)
Fixpoint walk (links : nat) (fs : Fs) (at_ : list bytes) (rest : list Component) : option (list bytes) :=
  (fix go (at_ : list bytes) (rest : list Component) : option (list bytes) :=
    match rest with
    | [] => Some at_
    | CRoot :: rest => go [] rest
    | CCur :: rest => go at_ rest
    | CParent :: rest => go (removelast at_) rest
    | CNormal name :: rest =>
      match fs !! (at_ ++ [name]) with
      | None => None
      | Some NDir => go (at_ ++ [name]) rest
      | Some (NFile _) => match rest with [] => Some (at_ ++ [name]) | _ => None end
      | Some (NLink target) =>
        match links with
        | O => None
        | S links => walk links fs at_ (components target ++ rest)
        end
      end
    end) at_ rest.

Definition names (p : list bytes) : list Component := map CNormal p.

(** [Path::canonicalize] of a path text, and of a directory joined with one. *)
Definition canonicalize (cwd : list bytes) (fs : Fs) (p : bytes) : option (list bytes) :=
  walk MAX_LINKS fs cwd (components p).
Definition canonicalize_below (fs : Fs) (dir : list bytes) (p : bytes) : option (list bytes) :=
  walk MAX_LINKS fs [] (names dir ++ components p).

(** [symlink_metadata] of a name in a directory: the last step is not followed. *)
Definition lstat (fs : Fs) (dir : list bytes) (name : bytes) : option Node :=
  dir ← walk MAX_LINKS fs [] (names dir); fs !! (dir ++ [name]).
Definition is_link (n : Node) : bool := match n with NLink _ => true | _ => false end.

Fixpoint ztake (n : Z) (s : bytes) : bytes :=
  match s with [] => [] | c :: s => if n <=? 0 then [] else c :: ztake (n - 1) s end.

(** [File::open] and [take(limit).read_to_end]; both follow links. *)
Definition read_at_most (fs : Fs) (dir : list bytes) (name : bytes) (limit : Z) : option bytes :=
  p ← walk MAX_LINKS fs [] (names (dir ++ [name]));
  match fs !! p with Some (NFile content) => Some (ztake limit content) | _ => None end.

(** [fs::write]; creating the missing target of a dangling link is not represented. *)
Definition write_file (fs : Fs) (dir : list bytes) (name content : bytes) : option Fs :=
  dir ← walk MAX_LINKS fs [] (names dir);
  match fs !! (dir ++ [name]) with
  | None | Some (NFile _) => Some (<[dir ++ [name] := NFile content]> fs)
  | Some NDir => None
  | Some (NLink target) =>
    p ← walk MAX_LINKS fs dir (components target);
    match fs !! p with Some (NFile _) => Some (<[p := NFile content]> fs) | _ => None end
  end.

(** [create_dir_all]. *)
Fixpoint create_dirs (fs : Fs) (at_ rest : list bytes) : option Fs :=
  match rest with
  | [] => Some fs
  | name :: rest =>
    match fs !! (at_ ++ [name]) with
    | None => create_dirs (<[at_ ++ [name] := NDir]> fs) (at_ ++ [name]) rest
    | Some NDir => create_dirs fs (at_ ++ [name]) rest
    | Some (NFile _) => None
    | Some (NLink target) =>
      p ← walk MAX_LINKS fs at_ (components target);
      match fs !! p with Some NDir => create_dirs fs p rest | _ => None end
    end
  end.

(** ** Sequences of calls *)

(** A computation over the filesystem as it stands at each call; [nat] counts the calls made. *)
Definition IO (A E : Type) : Type := (nat -> Fs) -> nat -> result A E * nat.
Definition io_ret {A E} (a : A) : IO A E := fun _ t => (Ok a, t).
Definition io_fail {A E} (e : E) : IO A E := fun _ t => (Err e, t).
Definition io_bind {A B E} (m : IO A E) (f : A -> IO B E) : IO B E := fun w t =>
  match m w t with (Ok a, t) => f a w t | (Err e, t) => (Err e, t) end.
Definition io_call {A E} (op : Fs -> option A) (e : E) : IO A E := fun w t =>
  (match op (w t) with Some a => Ok a | None => Err e end, S t).
Definition io_guard {E} (bad : bool) (e : E) : IO unit E := if bad then io_fail e else io_ret tt.
Definition io_opt {A E} (o : option A) (e : E) : IO A E :=
  match o with Some a => io_ret a | None => io_fail e end.

Notation "'let!' x := m 'in' k" := (io_bind m (fun x => k))
  (at level 200, x pattern, m at level 100, k at level 200) : plecto_scope.

(** ** Facts *)

Lemma io_bind_ok {A B E} (m : IO A E) (f : A -> IO B E) w t b t' :
  io_bind m f w t = (Ok b, t') <-> exists a t1, m w t = (Ok a, t1) /\ f a w t1 = (Ok b, t').
Proof.
  unfold io_bind. destruct (m w t) as [[a|e] t1]; [split|split].
  - intros H. by exists a, t1.
  - by intros (a' & t1' & [= <- <-] & H).
  - done.
  - by intros (a' & t1' & [=] & H).
Qed.
Lemma io_ret_ok {A E} (a b : A) w t t' : @io_ret A E a w t = (Ok b, t') <-> a = b /\ t = t'.
Proof. unfold io_ret. split; [by intros [= -> ->]|by intros [-> ->]]. Qed.
Lemma io_call_ok {A E} (op : Fs -> option A) (e : E) w t a t' :
  io_call op e w t = (Ok a, t') <-> op (w t) = Some a /\ t' = S t.
Proof. unfold io_call. destruct (op (w t)); split; [by intros [= -> <-]|by intros [[= ->] ->]|done|by intros []]. Qed.
Lemma io_guard_ok {E} bad (e : E) w t u t' : io_guard bad e w t = (Ok u, t') <-> bad = false /\ t = t'.
Proof. unfold io_guard. destruct bad, u; cbn; split; [done|by intros []|by intros [= ->]|by intros [_ ->]]. Qed.
Lemma io_opt_ok {A E} (o : option A) (e : E) w t a t' :
  io_opt o e w t = (Ok a, t') <-> o = Some a /\ t = t'.
Proof. unfold io_opt. destruct o; cbn; split; [by intros [= -> ->]|by intros [[= ->] ->]|done|by intros []]. Qed.

Lemma ztake_length n s : 0 <= n -> Z.of_nat (length (ztake n s)) = Z.min n (Z.of_nat (length s)).
Proof.
  revert n. induction s as [|c s IH]; intros n Hn; cbn [ztake length]; [lia|].
  destruct (Z.leb_spec n 0); cbn [length]; [lia|]. rewrite Nat2Z.inj_succ, IH by lia. lia.
Qed.
Lemma ztake_all n s : Z.of_nat (length s) <= n -> ztake n s = s.
Proof.
  revert n. induction s as [|c s IH]; intros n Hn; cbn [ztake length] in *; [done|].
  destruct (Z.leb_spec n 0); [lia|]. by rewrite IH by lia.
Qed.

(** A directory whose path is canonical: every step down to it is a directory. *)
Definition dirs (fs : Fs) (p : list bytes) : Prop :=
  forall q, q `prefix_of` p -> q <> [] -> fs !! q = Some NDir.

Lemma dirs_nil fs : dirs fs [].
Proof. intros q [r Hq] Hne. by destruct q. Qed.

Lemma dirs_prefix fs p q : dirs fs q -> p `prefix_of` q -> dirs fs p.
Proof. intros Hq Hp r Hr. apply Hq. by etransitivity. Qed.

Lemma prefix_of_snoc {A} (q p : list A) x : q `prefix_of` p ++ [x] -> q = p ++ [x] \/ q `prefix_of` p.
Proof.
  intros [r Hr]. destruct r as [|y r _] using rev_ind; [left; by rewrite app_nil_r in Hr|right].
  rewrite app_assoc in Hr. apply app_inj_tail in Hr as [-> _]. by exists r.
Qed.

Lemma dirs_snoc fs p name : dirs fs p -> fs !! (p ++ [name]) = Some NDir -> dirs fs (p ++ [name]).
Proof. intros Hp Hn q [->|Hq]%prefix_of_snoc Hne; [done|]. by apply Hp. Qed.

Lemma removelast_prefix {A} (l : list A) : removelast l `prefix_of` l.
Proof. destruct l as [|x l] using rev_ind; [done|]. rewrite removelast_last. by apply prefix_app_r. Qed.

Lemma walk_unfold links fs at_ rest :
  walk links fs at_ rest =
    match rest with
    | [] => Some at_
    | CRoot :: rest => walk links fs [] rest
    | CCur :: rest => walk links fs at_ rest
    | CParent :: rest => walk links fs (removelast at_) rest
    | CNormal name :: rest =>
      match fs !! (at_ ++ [name]) with
      | None => None
      | Some NDir => walk links fs (at_ ++ [name]) rest
      | Some (NFile _) => match rest with [] => Some (at_ ++ [name]) | _ => None end
      | Some (NLink target) =>
        match links with O => None | S links => walk links fs at_ (components target ++ rest) end
      end
    end.
Proof. destruct links, rest as [|[] rest]; reflexivity. Qed.

Lemma walk_names links fs at_ p rest :
  dirs fs (at_ ++ p) -> walk links fs at_ (names p ++ rest) = walk links fs (at_ ++ p) rest.
Proof.
  revert at_. induction p as [|name p IH]; intros at_ Hd; cbn [names map app]; [by rewrite app_nil_r|].
  assert (E : at_ ++ name :: p = (at_ ++ [name]) ++ p) by (by rewrite <- app_assoc). rewrite E in Hd |- *.
  rewrite walk_unfold, (Hd (at_ ++ [name])); [by apply IH|by exists p|by destruct at_].
Qed.

Lemma walk_dirs links fs p : dirs fs p -> walk links fs [] (names p) = Some p.
Proof. intros Hd. rewrite <- (app_nil_r (names p)), walk_names by done. by rewrite walk_unfold. Qed.

(** A name that is no link in a canonical directory resolves to itself. *)
Lemma walk_file links fs p name c : dirs fs p -> fs !! (p ++ [name]) = Some (NFile c) ->
  walk links fs [] (names (p ++ [name])) = Some (p ++ [name]).
Proof.
  intros Hd Hf. unfold names. rewrite map_app. rewrite (walk_names links fs [] p) by done.
  rewrite walk_unfold. cbn [map app]. by rewrite Hf.
Qed.

(** What resolution gives is canonical. *)
Lemma walk_canonical links : forall fs at_ rest p, dirs fs at_ -> walk links fs at_ rest = Some p ->
  dirs fs p \/ exists dir name c, p = dir ++ [name] /\ fs !! p = Some (NFile c) /\ dirs fs dir.
Proof.
  induction links as [|links IHl]; intros fs at_ rest p; revert at_;
    (induction rest as [|[| | |name] rest IH]; intros at_ Hd; rewrite walk_unfold;
    [intros [= <-]; by left | by apply IH, dirs_nil | by apply IH
    | by apply IH, (dirs_prefix _ _ at_), removelast_prefix |]);
    (destruct (fs !! (at_ ++ [name])) as [[c| |target]|] eqn:E; [|by apply IH, dirs_snoc| |done]);
    try (destruct rest; [|done]; intros [= <-]; right; by exists at_, name, c).
  by apply IHl.
Qed.

(** Adding nodes and rewriting files leaves what resolved where it resolved. *)
Definition same_kind (a b : Node) : Prop :=
  match a, b with NFile _, NFile _ | NDir, NDir => True | NLink s, NLink t => s = t | _, _ => False end.
Definition extends (fs fs' : Fs) : Prop :=
  forall p a, fs !! p = Some a -> exists b, fs' !! p = Some b /\ same_kind a b.

Lemma extends_refl fs : extends fs fs.
Proof. intros p a H. exists a. split; [done|]. by destruct a. Qed.
Lemma extends_trans a b c : extends a b -> extends b c -> extends a c.
Proof.
  intros Hab Hbc p x Hx. destruct (Hab p x Hx) as (y & Hy & Hxy). destruct (Hbc p y Hy) as (z & Hz & Hyz).
  exists z. split; [done|]. destruct x, y, z; cbn in *; subst; done.
Qed.
#[export] Instance extends_preorder : PreOrder extends.
Proof. split; [exact extends_refl|exact extends_trans]. Qed.

Lemma fs_insert_eq (fs : Fs) p n : <[p := n]> fs !! p = Some n.
Proof. apply lookup_insert_eq. Qed.
Lemma fs_insert_ne (fs : Fs) p q n : p <> q -> <[p := n]> fs !! q = fs !! q.
Proof. apply lookup_insert_ne. Qed.

Lemma extends_new fs p a : fs !! p = None -> extends fs (<[p := a]> fs).
Proof.
  intros Hn q b Hb. exists b. split; [|by destruct b]. rewrite <- Hb. apply lookup_insert_ne. congruence.
Qed.
Lemma extends_file fs p c c' : fs !! p = Some (NFile c) -> extends fs (<[p := NFile c']> fs).
Proof.
  intros Hf q b Hb. destruct (decide (p = q)) as [<-|Hne].
  - exists (NFile c'). rewrite Hf in Hb. injection Hb as <-. split; [apply lookup_insert_eq|done].
  - exists b. split; [rewrite <- Hb; by apply lookup_insert_ne|by destruct b].
Qed.

Lemma extends_dirs fs fs' p : extends fs fs' -> dirs fs p -> dirs fs' p.
Proof.
  intros He Hd q Hq Hne. destruct (He q NDir) as (b & Hb & Hk); [by apply Hd|]. by destruct b.
Qed.

Lemma extends_walk links : forall fs fs' at_ rest p, extends fs fs' -> walk links fs at_ rest = Some p ->
  walk links fs' at_ rest = Some p.
Proof.
  induction links as [|links IHl]; intros fs fs' at_ rest p He; revert at_;
    (induction rest as [|[| | |name] rest IH]; intros at_; rewrite walk_unfold, (walk_unfold _ fs');
    [done | by apply IH | by apply IH | by apply IH |]);
    (destruct (fs !! (at_ ++ [name])) as [a|] eqn:E; [|done]);
    destruct (He _ _ E) as (b & -> & Hk); destruct a, b; cbn in Hk; subst; try done; try by apply IH.
  by apply IHl.
Qed.

(** Creating directories along a path that meets neither file nor link. *)
Lemma create_dirs_fresh fs at_ rest : dirs fs at_ ->
  (forall q, q `prefix_of` rest -> q <> [] -> fs !! (at_ ++ q) = None \/ fs !! (at_ ++ q) = Some NDir) ->
  exists fs', create_dirs fs at_ rest = Some fs' /\ dirs fs' (at_ ++ rest) /\ extends fs fs' /\
    forall q, ~ q `prefix_of` at_ ++ rest -> fs' !! q = fs !! q.
Proof.
  revert fs at_. induction rest as [|name rest IH]; intros fs at_ Hd Hfree; cbn [create_dirs].
  { exists fs. rewrite app_nil_r. by split_and!. }
  assert (Hname : fs !! (at_ ++ [name]) = None \/ fs !! (at_ ++ [name]) = Some NDir)
    by (apply Hfree; [by exists rest|done]).
  assert (Hstep : exists fs1, (match fs !! (at_ ++ [name]) with
      | None => create_dirs (<[at_ ++ [name] := NDir]> fs) (at_ ++ [name]) rest
      | Some NDir => create_dirs fs (at_ ++ [name]) rest | Some (NFile _) => None
      | Some (NLink target) => p ← walk MAX_LINKS fs at_ (components target);
        match fs !! p with Some NDir => create_dirs fs p rest | _ => None end end)
      = create_dirs fs1 (at_ ++ [name]) rest /\ dirs fs1 (at_ ++ [name]) /\ extends fs fs1 /\
      forall q, q <> at_ ++ [name] -> fs1 !! q = fs !! q).
  { destruct Hname as [Hn|Hn]; rewrite Hn.
    - exists (<[at_ ++ [name] := NDir]> fs). split_and!; [done| |by apply extends_new|].
      + apply dirs_snoc; [by eapply extends_dirs; [apply extends_new|]|apply lookup_insert_eq].
      + intros q Hq. by apply lookup_insert_ne.
    - exists fs. split_and!; [done|by apply dirs_snoc|done|done]. }
  destruct Hstep as (fs1 & -> & Hd1 & He1 & Hsame).
  destruct (IH fs1 (at_ ++ [name]) Hd1) as (fs' & -> & Hd' & He' & Hrest).
  { intros q Hq Hne. rewrite Hsame.
    - rewrite <- app_assoc. apply Hfree; [by apply prefix_cons|done].
    - intros E%(f_equal length). rewrite !length_app in E. destruct q; [done|]. cbn in E. lia. }
  exists fs'. rewrite <- app_assoc in *. split_and!; [done|done|by etransitivity|].
  intros q Hq. rewrite Hrest by done. apply Hsame. intros ->. apply Hq. exists rest. by rewrite <- app_assoc.
Qed.

(** Writing a name that is no link and no directory in a canonical directory. *)
Lemma write_file_fresh fs p name content : dirs fs p ->
  (forall n, fs !! (p ++ [name]) = Some n -> exists c, n = NFile c) ->
  write_file fs p name content = Some (<[p ++ [name] := NFile content]> fs) /\
  extends fs (<[p ++ [name] := NFile content]> fs).
Proof.
  intros Hd Hn. unfold write_file. rewrite walk_dirs by done. cbn [mbind option_bind].
  destruct (fs !! (p ++ [name])) as [n|] eqn:E; [|split; [done|by apply extends_new]].
  destruct (Hn n eq_refl) as [c ->]. split; [done|by eapply extends_file].
Qed.

(** Take a successful sequence apart, call by call. *)
Ltac io_inv H :=
  lazymatch type of H with
  | io_bind _ _ _ _ = (Ok _, _) =>
    let a := fresh "a" in let t := fresh "t" in let E := fresh "E" in
    apply io_bind_ok in H as (a & t & E & H); io_inv E; io_inv H
  | io_call _ _ _ _ = (Ok _, _) => apply io_call_ok in H as [H ->]
  | io_guard _ _ _ _ = (Ok _, _) => apply io_guard_ok in H as [H <-]
  | io_opt _ _ _ _ = (Ok _, _) => apply io_opt_ok in H as [H <-]
  | io_ret _ _ _ = (Ok _, _) => apply io_ret_ok in H as [H <-]
  | _ => idtac
  end.
