(* ===== verification/Oci.v ===== *)
(** * The artifact store (control/src/artifact.rs, control/src/oci.rs)

    Resolving a filter's source and digest pin into the bytes to load: the offline image-layout
    reader, the layout writer and the in-memory reference store.  The hash and the OCI documents'
    parsers and printers are libraries.  The texts of errors are not represented. *)

From S2P Require Import Prelude Bytes Filesystem.

Record ResolvedArtifact := mkArtifact {
  ra_component : bytes;
  ra_component_signature : bytes;
  ra_sbom : bytes;
  ra_sbom_signature : bytes;
}.

Inductive StoreError := ArtifactError (source_ref : bytes) | StoreDigestMismatch (source_ref expected actual : bytes)
| StoreIo.

(** A media type outside the specification's own list is [MtOther]. *)
Inductive MediaType := MtStandard (name : bytes) | MtOther (name : bytes).
Record Descriptor := mkDescriptor { ds_media_type : MediaType; ds_digest : bytes; ds_size : Z }.

Definition WASM_CONFIG_MT : bytes := bs "application/vnd.wasm.config.v0+json".
Definition WASM_LAYER_MT : bytes := bs "application/wasm".
Definition SIG_MT : bytes := bs "application/vnd.plecto.signature".
Definition SBOM_MT : bytes := bs "application/vnd.plecto.sbom".
Definition SBOM_SIG_MT : bytes := bs "application/vnd.plecto.sbom.signature".

Definition MAX_BLOB_BYTES : Z := 2 ^ 29.
Definition MAX_INDEX_BYTES : Z := 2 ^ 20.

(** The libraries: the hash in hexadecimal, and the index (its manifests) and image manifest (its
    layers) as documents. *)
Class OciLib := {
  oci_sha256_hex : bytes -> bytes;
  oci_parse_index : bytes -> option (list Descriptor);
  oci_parse_manifest : bytes -> option (list Descriptor);
  oci_layout_json : bytes;
  oci_index_json : Descriptor -> bytes;
  oci_manifest_json : Descriptor -> list Descriptor -> bytes;
}.

Definition is_lower_hex (c : ascii) : bool := in_range 48 57 c || in_range 97 102 c.

(** Documents read back as written; a hash is 64 lowercase hexadecimal digits. *)
Class OciLibOk (L : OciLib) : Prop := {
  oci_index_reads d : oci_parse_index (oci_index_json d) = Some [d];
  oci_manifest_reads c ls : oci_parse_manifest (oci_manifest_json c ls) = Some ls;
  oci_hex_length s : length (oci_sha256_hex s) = 64%nat;
  oci_hex_digits s : forallb is_lower_hex (oci_sha256_hex s) = true;
}.

Section Oci.
Context `{L : OciLib}.

Definition sha256_pinned (s : bytes) : bytes := bs "sha256:" ++ oci_sha256_hex s.
Definition sha256_collision : Prop := exists a b, a <> b /\ oci_sha256_hex a = oci_sha256_hex b.

(** ** The in-memory store *)

Definition MemoryStore : Type := gmap bytes ResolvedArtifact.
Definition memory_insert (store : MemoryStore) (source : bytes) (artifact : ResolvedArtifact)
    : MemoryStore * bytes := (<[source := artifact]> store, sha256_pinned (ra_component artifact)).
Definition memory_resolve (store : MemoryStore) (source pinned_digest : bytes)
    : result ResolvedArtifact StoreError :=
  match store !! source with
  | None => Err (ArtifactError source)
  | Some artifact =>
    let actual := sha256_pinned (ra_component artifact) in
    if negb (bytes_eqb actual pinned_digest) then Err (StoreDigestMismatch source pinned_digest actual)
    else Ok artifact
  end.

(** ** Reading a layout *)

Definition media_type_is (media_type : bytes) (d : Descriptor) : bool :=
  match ds_media_type d with MtOther s => bytes_eqb s media_type | MtStandard _ => false end.
Definition layer_by_media_type (layers : list Descriptor) (media_type : bytes) : option Descriptor :=
  List.find (media_type_is media_type) layers.

Definition read_capped (dir : list bytes) (name : bytes) (max : Z) (source : bytes) : IO bytes StoreError :=
  let! meta := io_call (fun fs => lstat fs dir name) (ArtifactError source) in
  let! _ := io_guard (is_link meta) (ArtifactError source) in
  let! bytes := io_call (fun fs => read_at_most fs dir name (max + 1)) (ArtifactError source) in
  let! _ := io_guard (max <? Z.of_nat (length bytes)) (ArtifactError source) in
  io_ret bytes.

Definition SHA256 : bytes := bs "sha256".

Definition read_blob (layout : list bytes) (desc : Descriptor) (source : bytes) : IO bytes StoreError :=
  let! p := io_opt (split_once ":" (ds_digest desc)) (ArtifactError source) in
  let '(algo, hex) := p in
  let! _ := io_guard (negb (bytes_eqb algo SHA256)) (ArtifactError source) in
  let! _ := io_guard (negb (length hex =? 64)%nat || negb (forallb is_lower_hex hex)) (ArtifactError source) in
  let declared := ds_size desc in
  let! _ := io_guard (MAX_BLOB_BYTES <? declared) (ArtifactError source) in
  let dir := layout ++ [bs "blobs"; algo] in
  let! meta := io_call (fun fs => lstat fs dir hex) (ArtifactError source) in
  let! _ := io_guard (is_link meta) (ArtifactError source) in
  let! bytes := io_call (fun fs => read_at_most fs dir hex (declared + 1)) (ArtifactError source) in
  let! _ := io_guard (negb (Z.of_nat (length bytes) =? declared)) (ArtifactError source) in
  let! _ := io_guard (negb (bytes_eqb (oci_sha256_hex bytes) hex)) (ArtifactError source) in
  io_ret bytes.

Definition read_layer (layout : list bytes) (layers : list Descriptor) (media_type source : bytes)
    : IO bytes StoreError :=
  let! d := io_opt (layer_by_media_type layers media_type) (ArtifactError source) in
  read_blob layout d source.

Definition read_layout (layout : list bytes) (source pinned : bytes) : IO ResolvedArtifact StoreError :=
  let! index_bytes := read_capped layout (bs "index.json") MAX_INDEX_BYTES source in
  let! index := io_opt (oci_parse_index index_bytes) (ArtifactError source) in
  let! manifest_desc := io_opt (head index) (ArtifactError source) in
  let actual := ds_digest manifest_desc in
  let! _ := io_guard (negb (bytes_eqb actual pinned)) (StoreDigestMismatch source pinned actual) in
  let! manifest_bytes := read_blob layout manifest_desc source in
  let! layers := io_opt (oci_parse_manifest manifest_bytes) (ArtifactError source) in
  let! component := read_layer layout layers WASM_LAYER_MT source in
  let! component_signature := read_layer layout layers SIG_MT source in
  let! sbom := read_layer layout layers SBOM_MT source in
  let! sbom_signature := read_layer layout layers SBOM_SIG_MT source in
  io_ret (mkArtifact component component_signature sbom sbom_signature).

Definition is_normal (c : Component) : bool := match c with CNormal _ => true | _ => false end.

Definition store_root (root : bytes) : bytes := match root with [] => bs "." | _ => root end.

(** [OciLayoutStore::resolve]; [cwd] is the process's working directory. *)
Definition oci_resolve (cwd : list bytes) (root source pinned_digest : bytes)
    : IO ResolvedArtifact StoreError :=
  let! _ := io_guard (bytes_eqb source [] || is_absolute source
                      || negb (forallb is_normal (components source))) (ArtifactError source) in
  let! root := io_call (fun fs => canonicalize cwd fs (store_root root)) (ArtifactError source) in
  let! layout := io_call (fun fs => canonicalize_below fs root source) (ArtifactError source) in
  let! _ := io_guard (negb (bool_decide (root `prefix_of` layout))) (ArtifactError source) in
  read_layout layout source pinned_digest.

(** ** Writing a layout *)

Definition write_blob (fs : Fs) (layout : list bytes) (content : bytes) (media_type : MediaType)
    : option (Descriptor * Fs) :=
  let hex := oci_sha256_hex content in
  fs ← write_file fs (layout ++ [bs "blobs"; SHA256]) hex content;
  Some (mkDescriptor media_type (bs "sha256:" ++ hex) (Z.of_nat (length content)), fs).

Fixpoint write_blobs (fs : Fs) (layout : list bytes) (contents : list (bytes * bytes))
    : option (list Descriptor * Fs) :=
  match contents with
  | [] => Some ([], fs)
  | (content, media_type) :: rest =>
    '(d, fs) ← write_blob fs layout content (MtOther media_type);
    '(ds, fs) ← write_blobs fs layout rest;
    Some (d :: ds, fs)
  end.

Definition layers_of (a : ResolvedArtifact) : list (bytes * bytes) :=
  [(ra_component a, WASM_LAYER_MT); (ra_component_signature a, SIG_MT); (ra_sbom a, SBOM_MT);
   (ra_sbom_signature a, SBOM_SIG_MT)].

(** The digest to pin the layout by. *)
Definition write_layout (fs : Fs) (layout : list bytes) (artifact : ResolvedArtifact) : option (bytes * Fs) :=
  fs ← create_dirs fs [] (layout ++ [bs "blobs"; SHA256]);
  fs ← write_file fs layout (bs "oci-layout") oci_layout_json;
  '(config, fs) ← write_blob fs layout (bs "{}") (MtOther WASM_CONFIG_MT);
  '(layers, fs) ← write_blobs fs layout (layers_of artifact);
  '(manifest_desc, fs) ← write_blob fs layout (oci_manifest_json config layers) (MtStandard (bs "ImageManifest"));
  fs ← write_file fs layout (bs "index.json") (oci_index_json manifest_desc);
  Some (ds_digest manifest_desc, fs).

End Oci.

(** ** What a read gives *)

Section OciFacts.
Context `{L : OciLib}.

(** A blob is the bytes its descriptor names: the digest and the size are the blob's own. *)
Lemma read_blob_ok layout desc source w t b t' : read_blob layout desc source w t = (Ok b, t') ->
  ds_digest desc = sha256_pinned b /\ ds_size desc = Z.of_nat (length b) /\
  Z.of_nat (length b) <= MAX_BLOB_BYTES /\ t' = S (S t) /\
  exists meta, lstat (w t) (layout ++ [bs "blobs"; SHA256]) (oci_sha256_hex b) = Some meta /\
    is_link meta = false /\
    read_at_most (w (S t)) (layout ++ [bs "blobs"; SHA256]) (oci_sha256_hex b) (ds_size desc + 1) = Some b.
Proof.
  unfold read_blob. intros H. apply io_bind_ok in H as ([algo hex] & t1 & E & H). io_inv E. io_inv H.
  apply negb_false_iff, bytes_eqb_eq in E0. apply orb_false_iff in E1 as [El Eh].
  apply negb_false_iff, Z.eqb_eq in E6. apply negb_false_iff, bytes_eqb_eq in E7. subst.
  apply split_once_Some in E as [Ed _]. apply Z.ltb_ge in E2. split_and!; [done|lia|lia|done|].
  exists a2. by split_and!.
Qed.

Lemma read_capped_ok dir name max source w t b t' : read_capped dir name max source w t = (Ok b, t') ->
  Z.of_nat (length b) <= max /\ t' = S (S t) /\
  exists meta, lstat (w t) dir name = Some meta /\ is_link meta = false /\
    read_at_most (w (S t)) dir name (max + 1) = Some b.
Proof.
  unfold read_capped. intros H. io_inv H. subst. apply Z.ltb_ge in E2. split_and!; [done..|]. by exists a.
Qed.

(** Everything a layout read gives hangs off the pinned manifest by its digests. *)
Definition pinned_layer (layers : list Descriptor) (media_type content : bytes) : Prop :=
  exists d, layer_by_media_type layers media_type = Some d /\ ds_digest d = sha256_pinned content /\
    ds_size d = Z.of_nat (length content) /\ Z.of_nat (length content) <= MAX_BLOB_BYTES.

Definition hangs_off (pinned : bytes) (a : ResolvedArtifact) : Prop :=
  exists manifest layers, pinned = sha256_pinned manifest /\ oci_parse_manifest manifest = Some layers /\
    pinned_layer layers WASM_LAYER_MT (ra_component a) /\
    pinned_layer layers SIG_MT (ra_component_signature a) /\
    pinned_layer layers SBOM_MT (ra_sbom a) /\ pinned_layer layers SBOM_SIG_MT (ra_sbom_signature a).

Lemma read_layer_ok layout layers media_type source w t b t' :
  read_layer layout layers media_type source w t = (Ok b, t') -> pinned_layer layers media_type b.
Proof.
  unfold read_layer. intros H. io_inv H. apply read_blob_ok in H as (Hd & Hs & Hm & _). by exists a.
Qed.

Lemma read_layout_ok layout source pinned w t a t' : read_layout layout source pinned w t = (Ok a, t') ->
  hangs_off pinned a.
Proof.
  unfold read_layout. intros H. io_inv H. subst a. apply negb_false_iff, bytes_eqb_eq in E2.
  apply read_blob_ok in E3 as (Hd & _). rewrite E2 in Hd.
  repeat match goal with E : read_layer _ _ _ _ _ _ = _ |- _ => apply read_layer_ok in E end.
  by exists a4, a5.
Qed.

Lemma resolve_ok cwd root source pinned w t a t' : oci_resolve cwd root source pinned w t = (Ok a, t') ->
  exists r layout t1, forallb is_normal (components source) = true /\
    canonicalize cwd (w t) (store_root root) = Some r /\
    canonicalize_below (w (S t)) r source = Some layout /\ r `prefix_of` layout /\
    read_layout layout source pinned w t1 = (Ok a, t').
Proof.
  unfold oci_resolve. intros H. io_inv H. apply orb_false_iff in E as [_ E]. apply negb_false_iff in E.
  apply negb_false_iff, bool_decide_eq_true in E2. eauto 10.
Qed.

Lemma pinned_inj a b : sha256_pinned a = sha256_pinned b -> a = b \/ sha256_collision.
Proof.
  unfold sha256_pinned. intros E%app_inv_head. destruct (decide (a = b)); [by left|right]. by exists a, b.
Qed.

Lemma pinned_layer_same layers media_type a b :
  pinned_layer layers media_type a -> pinned_layer layers media_type b -> a = b \/ sha256_collision.
Proof. intros (d & Hd & Ha & _) (d' & Hd' & Hb & _). simplify_eq. apply pinned_inj. congruence. Qed.

(** C8: A digest pin determines the artifact.  Two resolutions with the same pin, from whatever
    stores and sources, on whatever machines, and whatever is done to the files while the loader
    is reading them, give the same component, signature, SBOM and SBOM signature; anything else
    exhibits a collision of the hash.  Each of the four is at most 512 MiB. *)
Theorem pin_determines_artifact (cwd1 cwd2 : list bytes) (root1 root2 source1 source2 pinned : bytes)
    (w1 w2 : nat -> Fs) (t1 t2 t1' t2' : nat) (a1 a2 : ResolvedArtifact) :
  oci_resolve cwd1 root1 source1 pinned w1 t1 = (Ok a1, t1') ->
  oci_resolve cwd2 root2 source2 pinned w2 t2 = (Ok a2, t2') ->
  (a1 = a2 \/ sha256_collision) /\
  Forall (fun b => Z.of_nat (length b) <= MAX_BLOB_BYTES)
    [ra_component a1; ra_component_signature a1; ra_sbom a1; ra_sbom_signature a1].
Proof.
  intros (?&?&?&_&_&_&_&H1%read_layout_ok)%resolve_ok (?&?&?&_&_&_&_&H2%read_layout_ok)%resolve_ok.
  destruct H1 as (m1 & l1 & -> & Hl1 & Hc1 & Hg1 & Hs1 & Hh1), H2 as (m2 & l2 & Em & Hl2 & Hc2 & Hg2 & Hs2 & Hh2).
  split; [|repeat (constructor; [match goal with H : pinned_layer _ _ ?x |- Z.of_nat (length ?x) <= _ =>
    by destruct H as (? & ? & ? & ? & ?) end|]); constructor].
  destruct (pinned_inj _ _ Em) as [->|]; [|by right]. simplify_eq.
  destruct (pinned_layer_same _ _ _ _ Hc1 Hc2) as [E1|]; [|by right].
  destruct (pinned_layer_same _ _ _ _ Hg1 Hg2) as [E2|]; [|by right].
  destruct (pinned_layer_same _ _ _ _ Hs1 Hs2) as [E3|]; [|by right].
  destruct (pinned_layer_same _ _ _ _ Hh1 Hh2) as [E4|]; [|by right].
  left. destruct a1, a2. cbn in *. congruence.
Qed.

(** A name that is no link, read in a resolved directory, is a regular file of that directory. *)
Lemma read_named fs at_ rest dir name meta max b :
  dirs fs at_ -> walk MAX_LINKS fs at_ rest = Some dir -> lstat fs dir name = Some meta ->
  is_link meta = false -> read_at_most fs dir name (max + 1) = Some b -> Z.of_nat (length b) <= max ->
  dirs fs dir /\ fs !! (dir ++ [name]) = Some (NFile b).
Proof.
  intros Hat Hw Hl Hn Hr Hm. unfold lstat in Hl. unfold read_at_most in Hr.
  destruct (walk_canonical _ _ _ _ _ Hat Hw) as [Hd|(p & last & c & -> & Hc & Hd)].
  - split; [done|]. rewrite walk_dirs in Hl by done. cbn [mbind option_bind] in Hl.
    unfold names in Hr. rewrite map_app in Hr. rewrite (walk_names _ _ [] dir) in Hr by done.
    cbn [map app] in Hr. rewrite walk_unfold, Hl in Hr. destruct meta as [c| |]; [| |done].
    + cbn [mbind option_bind] in Hr. rewrite Hl in Hr. injection Hr as <-.
      destruct (decide (Z.of_nat (length c) <= max)); [by rewrite ztake_all by lia|].
      destruct (decide (0 <= max + 1)); [rewrite ztake_length in Hm by done; lia|].
      assert (Ez : ztake (max + 1) c = []) by (destruct c; [done|]; cbn [ztake]; by rewrite (proj2 (Z.leb_le _ _)) by lia).
      rewrite Ez in Hm. cbn in Hm. lia.
    + rewrite walk_unfold in Hr. cbn [mbind option_bind] in Hr. by rewrite Hl in Hr.
  - unfold names in Hr. rewrite <- app_assoc, map_app in Hr. rewrite (walk_names _ _ [] p) in Hr by done.
    cbn [map app] in Hr. rewrite walk_unfold in Hr. cbn [app] in Hr. by rewrite Hc in Hr.
Qed.

Definition blobs_of (a : ResolvedArtifact) : list bytes :=
  [ra_component a; ra_component_signature a; ra_sbom a; ra_sbom_signature a].
Definition blob_dir (layout : list bytes) : list bytes := layout ++ [bs "blobs"; SHA256].

Lemma read_layout_blobs layout source pinned fs t a t' :
  read_layout layout source pinned (fun _ => fs) t = (Ok a, t') -> dirs fs (blob_dir layout) ->
  Forall (fun b => fs !! (blob_dir layout ++ [oci_sha256_hex b]) = Some (NFile b)) (blobs_of a).
Proof.
  intros H Hd. assert (Hblob : forall layers mt t b t', read_layer layout layers mt source (fun _ => fs) t = (Ok b, t') ->
    fs !! (blob_dir layout ++ [oci_sha256_hex b]) = Some (NFile b)).
  { clear -Hd. intros layers mt t b t' H. unfold read_layer in H. io_inv H.
    apply read_blob_ok in H as (_ & Hs & _ & _ & meta & Hl & Hn & Hr).
    apply (read_named fs [] (names (blob_dir layout)) _ _ meta (ds_size a) b (dirs_nil fs)); try done; [|lia].
    by apply walk_dirs. }
  unfold read_layout in H. io_inv H. subst a. unfold blobs_of. cbn [ra_component ra_component_signature ra_sbom ra_sbom_signature].
  repeat (constructor; [by eapply Hblob|]). constructor.
Qed.

(** A resolution reads inside the store.  On a filesystem nobody is changing, the layout is a
    real directory below the canonical root whatever links the source goes through, the index read
    is that directory's own file of at most one MiB, and unless its blob directory is itself
    reached through a link the four blobs are the files of that directory named by their hash. *)
Theorem resolve_confined (cwd : list bytes) (root source pinned : bytes) (fs : Fs) (t t' : nat)
    (a : ResolvedArtifact) :
  oci_resolve cwd root source pinned (fun _ => fs) t = (Ok a, t') ->
  exists r layout b, canonicalize cwd fs (store_root root) = Some r /\ r `prefix_of` layout /\
    dirs fs layout /\ fs !! (layout ++ [bs "index.json"]) = Some (NFile b) /\
    Z.of_nat (length b) <= MAX_INDEX_BYTES /\
    (dirs fs (blob_dir layout) ->
     Forall (fun b => fs !! (blob_dir layout ++ [oci_sha256_hex b]) = Some (NFile b)) (blobs_of a)).
Proof.
  intros (r & layout & t1 & _ & Hr & Hl & Hp & H)%resolve_ok. exists r, layout.
  pose proof (read_layout_blobs _ _ _ _ _ _ _ H) as Hblobs.
  unfold read_layout in H. apply io_bind_ok in H as (b & t2 & Hi & _).
  apply read_capped_ok in Hi as (Hm & _ & meta & Hs & Hn & Hb). exists b.
  destruct (read_named _ _ _ _ _ _ _ _ (dirs_nil fs) Hl Hs Hn Hb Hm) as [Hd Hf]. by split_and!.
Qed.
End OciFacts.

(** ** Writing, then reading *)

Section OciRoundTrip.
Context `{L : OciLib} (HL : OciLibOk L).
Variables (fs : Fs) (layout : list bytes).

(** The blob directory while a layout is written: it holds what was written, each under its hash. *)
Record writing (fs' : Fs) (written : list bytes) : Prop := {
  wr_dirs : dirs fs' (blob_dir layout);
  wr_extends : extends fs fs';
  wr_files name n : fs' !! (blob_dir layout ++ [name]) = Some n -> exists c, n = NFile c;
  wr_index : fs' !! (layout ++ [bs "index.json"]) = None;
  wr_written c : c ∈ written -> fs' !! (blob_dir layout ++ [oci_sha256_hex c]) = Some (NFile c) \/ sha256_collision;
}.

Lemma below_differs (name name' : bytes) : layout ++ [name] <> blob_dir layout ++ [name'].
Proof. unfold blob_dir. rewrite <- app_assoc. intros E%app_inv_head. by injection E. Qed.

Lemma write_blob_writing fs1 written content mt : writing fs1 written ->
  exists fs2, write_blob fs1 layout content mt =
    Some (mkDescriptor mt (sha256_pinned content) (Z.of_nat (length content)), fs2) /\
    writing fs2 (content :: written).
Proof.
  intros [Hd He Hf Hi Hw]. unfold write_blob. fold (blob_dir layout).
  destruct (write_file_fresh fs1 (blob_dir layout) (oci_sha256_hex content) content Hd) as [-> He2]; [by apply Hf|].
  cbn [mbind option_bind]. eexists. split; [done|]. split.
  - by apply (extends_dirs fs1).
  - by etransitivity.
  - intros name n. destruct (decide (name = oci_sha256_hex content)) as [->|Hne].
    + rewrite fs_insert_eq. intros [= <-]. by eexists.
    + rewrite fs_insert_ne; [apply Hf|]. intros E%app_inv_head. congruence.
  - rewrite fs_insert_ne; [done|]. apply not_eq_sym, below_differs.
  - intros c Hc. destruct (decide (c = content)) as [->|Hne]; [left; apply fs_insert_eq|].
    destruct (decide (oci_sha256_hex c = oci_sha256_hex content)) as [E|E]; [right; by exists c, content|].
    rewrite fs_insert_ne; [apply Hw; set_solver|]. intros E'%app_inv_head. congruence.
Qed.

Lemma write_blobs_writing contents : forall fs1 written, writing fs1 written ->
  exists fs2, write_blobs fs1 layout contents =
    Some (map (fun cm => mkDescriptor (MtOther cm.2) (sha256_pinned cm.1) (Z.of_nat (length cm.1))) contents, fs2) /\
    writing fs2 (rev (map fst contents) ++ written).
Proof.
  induction contents as [|[c mt] contents IH]; intros fs1 written Hw; cbn [write_blobs map rev app fst snd].
  { by exists fs1. }
  destruct (write_blob_writing fs1 written c (MtOther mt) Hw) as (fs2 & -> & Hw2). cbn [mbind option_bind].
  destruct (IH fs2 (c :: written) Hw2) as (fs3 & -> & Hw3). cbn [mbind option_bind]. exists fs3.
  by rewrite <- app_assoc.
Qed.

Lemma read_blob_written fs' c mt source t : dirs fs' (blob_dir layout) ->
  fs' !! (blob_dir layout ++ [oci_sha256_hex c]) = Some (NFile c) -> Z.of_nat (length c) <= MAX_BLOB_BYTES ->
  read_blob layout (mkDescriptor mt (sha256_pinned c) (Z.of_nat (length c))) source (fun _ => fs') t
    = (Ok c, S (S t)).
Proof.
  intros Hd Hc Hm. unfold read_blob. cbn [ds_digest ds_size].
  assert (Es : split_once ":" (sha256_pinned c) = Some (SHA256, oci_sha256_hex c)) by reflexivity.
  assert (Ed : layout ++ [bs "blobs"; SHA256] = blob_dir layout) by done.
  assert (El : lstat fs' (blob_dir layout) (oci_sha256_hex c) = Some (NFile c))
    by (unfold lstat; by rewrite walk_dirs).
  assert (Er : read_at_most fs' (blob_dir layout) (oci_sha256_hex c) (Z.of_nat (length c) + 1) = Some c).
  { unfold read_at_most. rewrite (walk_file _ _ _ _ c) by done. cbn [mbind option_bind]. rewrite Hc.
    by rewrite ztake_all by lia. }
  rewrite Es. unfold io_bind, io_opt, io_ret. rewrite (proj2 (bytes_eqb_eq SHA256 SHA256) eq_refl).
  rewrite (oci_hex_length c), (oci_hex_digits c). cbn [negb Nat.eqb orb io_guard].
  unfold io_guard at 1 2, io_ret. rewrite (proj2 (Z.ltb_ge MAX_BLOB_BYTES _)) by done.
  unfold io_guard, io_call, io_ret. rewrite Ed, El. cbn [is_link]. rewrite Er, Z.eqb_refl.
  by rewrite (proj2 (bytes_eqb_eq _ _) eq_refl).
Qed.

(** A place for a layout: directories or nothing on the way, nothing below. *)
Definition vacant (r rel : list bytes) : Prop := dirs fs r /\ layout = r ++ rel /\
  (forall q, q `prefix_of` rel -> q <> [] -> fs !! (r ++ q) = None \/ fs !! (r ++ q) = Some NDir) /\
  (forall q, q <> [] -> fs !! (layout ++ q) = None).

Lemma vacant_prefix r rel q : vacant r rel -> q <> [] -> q `prefix_of` blob_dir layout ->
  fs !! q = None \/ fs !! q = Some NDir.
Proof.
  intros (Hr & Hl & Hrel & Hfree) Hne Hq. unfold blob_dir in Hq. rewrite Hl, <- app_assoc in Hq.
  destruct (prefix_weak_total q r (r ++ rel ++ [bs "blobs"; SHA256])) as [Hqr|[q' ->]];
    [done|by apply prefix_app_r|right; by apply Hr|].
  apply prefix_app_inv in Hq. destruct (decide (q' = [])) as [->|Hne'].
  { right. rewrite app_nil_r in *. by apply Hr. }
  destruct (prefix_weak_total q' rel (rel ++ [bs "blobs"; SHA256])) as [Hqr|[q'' ->]];
    [done|by apply prefix_app_r|by apply Hrel|].
  destruct (decide (q'' = [])) as [->|Hne'']; [apply Hrel; [by rewrite app_nil_r|done]|].
  left. rewrite app_assoc, <- Hl. by apply Hfree.
Qed.

Lemma write_start r rel : vacant r rel -> exists fs1 fs2,
  create_dirs fs [] (blob_dir layout) = Some fs1 /\
  write_file fs1 layout (bs "oci-layout") oci_layout_json = Some fs2 /\ writing fs2 [].
Proof.
  intros Hv. destruct (create_dirs_fresh fs [] (blob_dir layout) (dirs_nil fs)) as (fs1 & Hc & Hd & He & Hrest).
  { intros q Hq Hne. by apply (vacant_prefix r rel). }
  destruct Hv as (_ & _ & _ & Hfree). cbn [app] in *.
  assert (Habsent : forall q, q <> [] -> ~ (layout ++ q) `prefix_of` blob_dir layout -> fs1 !! (layout ++ q) = None)
    by (intros q Hne Hq; rewrite Hrest by done; by apply Hfree).
  assert (Hone : forall name, name <> bs "blobs" -> fs1 !! (layout ++ [name]) = None).
  { intros name Hne. apply Habsent; [done|]. intros [k E]. unfold blob_dir in E. rewrite <- app_assoc in E.
    apply app_inv_head, (f_equal head) in E. cbn [head app] in E. congruence. }
  assert (Hdl : dirs fs1 layout) by (eapply dirs_prefix; [exact Hd|by apply prefix_app_r]).
  destruct (write_file_fresh fs1 layout (bs "oci-layout") oci_layout_json Hdl) as [Hw He2].
  { intros n. by rewrite Hone by done. }
  eexists fs1, _. split_and!; [exact Hc|exact Hw|]. split.
  - by apply (extends_dirs fs1).
  - by etransitivity.
  - intros name n. rewrite fs_insert_ne by apply below_differs. intros Hn.
    assert (Hnone : fs1 !! (blob_dir layout ++ [name]) = None); [|by rewrite Hnone in Hn].
    unfold blob_dir. rewrite <- app_assoc. apply Habsent; [done|]. intros [k E]. unfold blob_dir in E.
    rewrite <- app_assoc in E. by apply app_inv_head in E.
  - rewrite fs_insert_ne by (intros E%app_inv_head; by injection E). by apply Hone.
  - intros c Hc'. by apply elem_of_nil in Hc'.
Qed.

Definition described (cm : bytes * bytes) : Descriptor :=
  mkDescriptor (MtOther cm.2) (sha256_pinned cm.1) (Z.of_nat (length cm.1)).
Definition manifest_of (a : ResolvedArtifact) : bytes :=
  oci_manifest_json (described (bs "{}", WASM_CONFIG_MT)) (map described (layers_of a)).
Definition manifest_desc_of (a : ResolvedArtifact) : Descriptor :=
  mkDescriptor (MtStandard (bs "ImageManifest")) (sha256_pinned (manifest_of a)) (Z.of_nat (length (manifest_of a))).

(** The documents of an artifact's layout are within the reader's limits. *)
Definition documents_fit (a : ResolvedArtifact) : Prop :=
  Z.of_nat (length (oci_index_json (manifest_desc_of a))) <= MAX_INDEX_BYTES /\
  Z.of_nat (length (manifest_of a)) <= MAX_BLOB_BYTES.

(** What is on disk once a layout is written. *)
Record written_out (fs' : Fs) (a : ResolvedArtifact) : Prop := {
  wo_extends : extends fs fs';
  wo_dirs : dirs fs' (blob_dir layout);
  wo_index : fs' !! (layout ++ [bs "index.json"]) = Some (NFile (oci_index_json (manifest_desc_of a)));
  wo_blobs c : c ∈ manifest_of a :: blobs_of a ->
    fs' !! (blob_dir layout ++ [oci_sha256_hex c]) = Some (NFile c) \/ sha256_collision;
}.

Lemma write_layout_writes r rel a : vacant r rel ->
  exists fs', write_layout fs layout a = Some (sha256_pinned (manifest_of a), fs') /\ written_out fs' a.
Proof.
  intros Hv. destruct (write_start r rel Hv) as (fs1 & fs2 & Hc & Hw & Hs). unfold write_layout.
  fold (blob_dir layout). rewrite Hc. cbn [mbind option_bind]. rewrite Hw. cbn [mbind option_bind].
  destruct (write_blob_writing fs2 [] (bs "{}") (MtOther WASM_CONFIG_MT) Hs) as (fs3 & -> & Hs3).
  cbn [mbind option_bind]. destruct (write_blobs_writing (layers_of a) fs3 _ Hs3) as (fs4 & -> & Hs4).
  cbn [mbind option_bind]. fold described. change (mkDescriptor (MtOther WASM_CONFIG_MT) _ _) with (described (bs "{}", WASM_CONFIG_MT)).
  destruct (write_blob_writing fs4 _ (manifest_of a) (MtStandard (bs "ImageManifest")) Hs4) as (fs5 & E5 & Hs5).
  change (oci_manifest_json _ _) with (manifest_of a). rewrite E5. cbn [mbind option_bind].
  change (mkDescriptor (MtStandard _) _ _) with (manifest_desc_of a).
  destruct Hs5 as [Hd He Hf Hi Hwr].
  destruct (write_file_fresh fs5 layout (bs "index.json") (oci_index_json (manifest_desc_of a))) as [-> He6].
  { eapply dirs_prefix; [exact Hd|by apply prefix_app_r]. }
  { intros n. by rewrite Hi. }
  cbn [mbind option_bind]. eexists. split; [done|]. split.
  - by etransitivity.
  - by apply (extends_dirs fs5).
  - apply fs_insert_eq.
  - intros c Hc'. rewrite fs_insert_ne by apply below_differs. apply Hwr. set_solver.
Qed.

(** What was written is read. *)
Lemma read_written fs' a source t : written_out fs' a -> documents_fit a ->
  Forall (fun b => Z.of_nat (length b) <= MAX_BLOB_BYTES) (blobs_of a) ->
  exists t', read_layout layout source (sha256_pinned (manifest_of a)) (fun _ => fs') t = (Ok a, t') \/ sha256_collision.
Proof.
  intros [_ Hd Hi Hb] [Hidx Hman] Hsizes.
  assert (Hdl : dirs fs' layout) by (eapply dirs_prefix; [exact Hd|by apply prefix_app_r]).
  assert (Hread : forall c mt source t, c ∈ manifest_of a :: blobs_of a ->
    read_blob layout (mkDescriptor mt (sha256_pinned c) (Z.of_nat (length c))) source (fun _ => fs') t
      = (Ok c, S (S t)) \/ sha256_collision).
  { intros c mt source' t' Hin. destruct (Hb c Hin) as [Hc|]; [left|by right]. apply read_blob_written; try done.
    apply elem_of_cons in Hin as [->|Hin]; [done|by eapply Forall_forall in Hsizes]. }
  assert (Hcap : read_capped layout (bs "index.json") MAX_INDEX_BYTES source (fun _ => fs') t
    = (Ok (oci_index_json (manifest_desc_of a)), S (S t))).
  { unfold read_capped, io_bind, io_call, lstat, read_at_most. rewrite walk_dirs by done. cbn [mbind option_bind].
    rewrite Hi. cbn [is_link io_guard]. rewrite (walk_file _ _ _ _ _ Hdl Hi). cbn [mbind option_bind]. rewrite Hi.
    rewrite ztake_all by lia. unfold io_ret, io_guard.
    by rewrite (proj2 (Z.ltb_ge _ _)) by done. }
  destruct (Hread (manifest_of a) (MtStandard (bs "ImageManifest")) source (S (S t)) ltac:(by left)) as [Em|]; [|by exists 0%nat; right].
  destruct (Hread (ra_component a) (MtOther WASM_LAYER_MT) source (4 + t)%nat ltac:(right; left)) as [E1|]; [|by exists 0%nat; right].
  destruct (Hread (ra_component_signature a) (MtOther SIG_MT) source (6 + t)%nat ltac:(do 2 right; left)) as [E2|]; [|by exists 0%nat; right].
  destruct (Hread (ra_sbom a) (MtOther SBOM_MT) source (8 + t)%nat ltac:(do 3 right; left)) as [E3|]; [|by exists 0%nat; right].
  destruct (Hread (ra_sbom_signature a) (MtOther SBOM_SIG_MT) source (10 + t)%nat ltac:(do 4 right; left)) as [E4|]; [|by exists 0%nat; right].
  exists (12 + t)%nat. left. unfold read_layout, io_bind at 1. rewrite Hcap. unfold io_opt at 1. rewrite oci_index_reads.
  unfold io_bind, io_opt, io_ret at 1 2. cbn [head]. cbn [ds_digest manifest_desc_of].
  rewrite (proj2 (bytes_eqb_eq _ _) eq_refl). cbn [negb io_guard]. unfold io_ret at 1. cbn [plus] in *.
  change (mkDescriptor (MtStandard (bs "ImageManifest")) (sha256_pinned (manifest_of a)) (Z.of_nat (length (manifest_of a))))
    with (manifest_desc_of a) in Em. rewrite Em. unfold manifest_of at 1. rewrite oci_manifest_reads.
  unfold read_layer, io_bind, io_opt, io_ret.
  change (layer_by_media_type _ WASM_LAYER_MT) with (Some (described (ra_component a, WASM_LAYER_MT))).
  change (layer_by_media_type _ SIG_MT) with (Some (described (ra_component_signature a, SIG_MT))).
  change (layer_by_media_type _ SBOM_MT) with (Some (described (ra_sbom a, SBOM_MT))).
  change (layer_by_media_type _ SBOM_SIG_MT) with (Some (described (ra_sbom_signature a, SBOM_SIG_MT))).
  unfold described. cbn [fst snd]. rewrite E1, E2, E3, E4. by destruct a.
Qed.
End OciRoundTrip.

Section OciClaims.
Context `{L : OciLib} (HL : OciLibOk L).

(** A written layout resolves to what was written.  Writing an artifact's layout where nothing
    stands gives a pin, and resolving the layout's path below the store's root with that pin gives
    the artifact back, unless two of its blobs exhibit a collision of the hash. *)
Theorem layout_round_trip (fs : Fs) (cwd r rel : list bytes) (root source : bytes) (a : ResolvedArtifact) :
  canonicalize cwd fs (store_root root) = Some r -> components source = names rel -> rel <> [] ->
  vacant fs (r ++ rel) r rel -> documents_fit a ->
  Forall (fun b => Z.of_nat (length b) <= MAX_BLOB_BYTES) (blobs_of a) ->
  exists pin fs', write_layout fs (r ++ rel) a = Some (pin, fs') /\
    ((oci_resolve cwd root source pin (fun _ => fs') 0%nat).1 = Ok a \/ sha256_collision).
Proof.
  intros Hroot Hsrc Hrel Hv Hfit Hsizes.
  destruct (write_layout_writes HL fs (r ++ rel) r rel a Hv) as (fs' & Hw & Ho). eexists _, fs'. split; [exact Hw|].
  destruct (read_written HL fs (r ++ rel) fs' a source 2 Ho Hfit Hsizes) as [t' [E|]]; [left|by right].
  unfold oci_resolve, io_bind, io_guard, io_call, io_ret.
  assert (Eg : bytes_eqb source [] || is_absolute source || negb (forallb is_normal (components source)) = false).
  { rewrite Hsrc. assert (Hn : forallb is_normal (names rel) = true) by (clear; induction rel; [done|by cbn]).
    rewrite Hn. destruct source as [|c source].
    { destruct rel; [done|]. by cbn in Hsrc. }
    destruct (is_absolute (c :: source)) eqn:Ea; [|done]. unfold components in Hsrc. rewrite Ea in Hsrc.
    by destruct rel. }
  rewrite Eg. unfold canonicalize, canonicalize_below in *.
  rewrite (extends_walk _ fs fs' _ _ r (wo_extends _ _ _ _ Ho) Hroot), Hsrc.
  assert (Hd : dirs fs' (r ++ rel)) by (eapply dirs_prefix; [exact (wo_dirs _ _ _ _ Ho)|by apply prefix_app_r]).
  assert (En : names r ++ names rel = names (r ++ rel)) by (unfold names; by rewrite map_app).
  rewrite En, walk_dirs by done. rewrite bool_decide_eq_true_2 by (by apply prefix_app_r). cbn [negb].
  by rewrite E.
Qed.
End OciClaims.

(** ** A concrete library: fields in hexadecimal, each ended by a dot *)

Definition hex_digit (z : Z) : ascii := ascii_of_nat (Z.to_nat (if z <? 10 then 48 + z else 87 + z)).
Definition hex_of (s : bytes) : bytes := flat_map (fun c => [hex_digit (byte_val c / 16); hex_digit (byte_val c mod 16)]) s.
Definition hex_val (c : ascii) : Z := if in_range 48 57 c then byte_val c - 48 else byte_val c - 87.
Fixpoint of_hex (s : bytes) : bytes :=
  match s with a :: b :: s => ascii_of_nat (Z.to_nat (16 * hex_val a + hex_val b)) :: of_hex s | _ => [] end.

Lemma hex_digit_lower z : 0 <= z < 16 -> is_lower_hex (hex_digit z) = true.
Proof.
  intros Hz. pose proof (forallb_below (fun z => is_lower_hex (hex_digit z)) 16 ltac:(by vm_compute)) as H.
  by apply H.
Qed.
Lemma hex_of_ok s : length (hex_of s) = (2 * length s)%nat /\ forallb is_lower_hex (hex_of s) = true.
Proof.
  induction s as [|c s [IHl IHd]]; [done|]. cbn [hex_of flat_map app length forallb].
  change (flat_map _ s) with (hex_of s). rewrite IHl, IHd. split; [lia|].
  pose proof (byte_val_range c). rewrite !hex_digit_lower; [done|apply Z.mod_pos_bound; lia|].
  split; [apply Z.div_pos; lia|apply Z.div_lt_upper_bound; lia].
Qed.
Lemma of_hex_of s : of_hex (hex_of s) = s.
Proof.
  induction s as [|c s IH]; [done|]. cbn [hex_of flat_map app of_hex]. change (flat_map _ s) with (hex_of s).
  rewrite IH. f_equal. by destruct c as [[] [] [] [] [] [] [] []].
Qed.

Definition put_field (s : bytes) : bytes := hex_of s ++ ["."%char].
Definition get_field (s : bytes) : option (bytes * bytes) := '(h, s) ← split_once "." s; Some (of_hex h, s).
Lemma get_put s rest : get_field (put_field s ++ rest) = Some (s, rest).
Proof.
  unfold get_field, put_field. rewrite <- app_assoc. cbn [app]. rewrite split_once_app.
  - cbn [mbind option_bind]. by rewrite of_hex_of.
  - intros H. pose proof (proj2 (hex_of_ok s)) as Hx. rewrite forallb_forall in Hx.
    by apply list_elem_of_In, Hx in H.
Qed.

Fixpoint of_bits (s : bytes) : positive :=
  match s with [] => xH | c :: s => if ascii_eqb c "1" then xI (of_bits s) else xO (of_bits s) end.
Fixpoint bits_of (p : positive) : bytes :=
  match p with xH => [] | xO p => "0"%char :: bits_of p | xI p => "1"%char :: bits_of p end.
Lemma bits_of_ok p : of_bits (bits_of p) = p.
Proof. induction p as [p IH|p IH|]; cbn; by rewrite ?IH. Qed.

Definition put_descriptor (d : Descriptor) : bytes :=
  match ds_media_type d with MtStandard n => put_field (bs "s") ++ put_field n | MtOther n => put_field (bs "o") ++ put_field n end
  ++ put_field (ds_digest d) ++ put_field (bits_of (encode (ds_size d))).
Definition get_descriptor (s : bytes) : option (Descriptor * bytes) :=
  '(tag, s) ← get_field s; '(n, s) ← get_field s; '(digest, s) ← get_field s; '(size, s) ← get_field s;
  size ← decode (of_bits size);
  Some (mkDescriptor (if bytes_eqb tag (bs "s") then MtStandard n else MtOther n) digest size, s).
Lemma get_put_descriptor d rest : get_descriptor (put_descriptor d ++ rest) = Some (d, rest).
Proof.
  unfold get_descriptor, put_descriptor. destruct d as [[n|n] digest size]; cbn [ds_media_type ds_digest ds_size];
    rewrite <- !app_assoc; do 4 (rewrite get_put; cbn [mbind option_bind]); by rewrite bits_of_ok, decode_encode.
Qed.
Fixpoint get_descriptors (fuel : nat) (s : bytes) : option (list Descriptor) :=
  match fuel, s with
  | _, [] => Some []
  | O, _ => None
  | S fuel, _ => '(d, s) ← get_descriptor s; ds ← get_descriptors fuel s; Some (d :: ds)
  end.
Lemma get_put_descriptors ds fuel : (length ds <= fuel)%nat ->
  get_descriptors fuel (concat (map put_descriptor ds)) = Some ds.
Proof.
  revert fuel. induction ds as [|d ds IH]; intros fuel Hf; [by destruct fuel|].
  destruct fuel as [|fuel]; [cbn in Hf; lia|]. cbn [map concat]. cbn [get_descriptors].
  rewrite get_put_descriptor. cbn [mbind option_bind]. rewrite IH by (cbn in Hf; lia). cbn [mbind option_bind].
  assert (Hne : exists c rest, put_descriptor d ++ concat (map put_descriptor ds) = c :: rest)
    by (unfold put_descriptor; destruct (ds_media_type d); by eexists _, _).
  destruct Hne as (c & rest & ->). done.
Qed.
Lemma put_descriptors_length ds : (length ds <= length (concat (map put_descriptor ds)))%nat.
Proof.
  induction ds as [|d ds IH]; [done|]. cbn [map concat length]. rewrite length_app.
  assert (1 <= length (put_descriptor d))%nat by (unfold put_descriptor; destruct (ds_media_type d); cbn; lia). lia.
Qed.

#[local] Instance demo_oci : OciLib := {|
  oci_sha256_hex s := hex_of (take 32 (s ++ repeat "000"%char 32));
  oci_parse_index s := get_descriptors (length s) s;
  oci_parse_manifest s := match get_descriptors (length s) s with Some (_ :: ls) => Some ls | _ => None end;
  oci_layout_json := bs "{}";
  oci_index_json d := concat (map put_descriptor [d]);
  oci_manifest_json c ls := concat (map put_descriptor (c :: ls));
|}.
#[local] Instance demo_oci_ok : OciLibOk demo_oci.
Proof.
  split; unfold demo_oci; cbn [oci_sha256_hex oci_parse_index oci_parse_manifest oci_index_json oci_manifest_json].
  - intros d. apply get_put_descriptors, put_descriptors_length.
  - intros c ls. by rewrite get_put_descriptors by apply put_descriptors_length.
  - intros s. rewrite (proj1 (hex_of_ok _)), length_take, length_app, List.repeat_length. lia.
  - intros s. apply hex_of_ok.
Qed.

Definition demo_artifact : ResolvedArtifact := mkArtifact (bs "wasm") (bs "sig") (bs "sbom") (bs "sbomsig").

(** A layout "app" under the root, with a link "latest" to it. *)
Definition demo_start : Fs := <[[bs "latest"] := NLink (bs "app")]> ∅.
Definition demo_written : bytes * Fs := default ([], ∅) (write_layout demo_start [bs "app"] demo_artifact).
Definition demo_pin : bytes := demo_written.1.
Definition demo_fs : Fs := demo_written.2.

(** The layout by its own path, and through the link from another directory. *)
Lemma pin_determines_artifact_witness :
  (demo_artifact = demo_artifact \/ sha256_collision) /\
  Forall (fun b => Z.of_nat (length b) <= MAX_BLOB_BYTES) (blobs_of demo_artifact).
Proof.
  apply (pin_determines_artifact [] [bs "app"] (bs "/") (bs "..") (bs "app") (bs "latest") demo_pin
    (fun _ => demo_fs) (fun _ => demo_fs) 0 0 14 14 demo_artifact demo_artifact).
  - vm_compute. reflexivity.
  - vm_compute. reflexivity.
Defined.

Lemma resolve_confined_witness :
  exists r layout b, canonicalize [] demo_fs (bs "/") = Some r /\ r `prefix_of` layout /\ dirs demo_fs layout /\
    demo_fs !! (layout ++ [bs "index.json"]) = Some (NFile b) /\ Z.of_nat (length b) <= MAX_INDEX_BYTES /\
    (dirs demo_fs (blob_dir layout) ->
     Forall (fun b => demo_fs !! (blob_dir layout ++ [oci_sha256_hex b]) = Some (NFile b)) (blobs_of demo_artifact)).
Proof.
  apply (resolve_confined [] (bs "/") (bs "latest") demo_pin demo_fs 0 14 demo_artifact).
  vm_compute. reflexivity.
Defined.

Lemma layout_round_trip_witness :
  exists pin fs', write_layout ∅ [bs "app"] demo_artifact = Some (pin, fs') /\
    ((oci_resolve [bs "srv"] (bs "/") (bs "app") pin (fun _ => fs') 0%nat).1 = Ok demo_artifact \/ sha256_collision).
Proof.
  apply (layout_round_trip demo_oci_ok ∅ [bs "srv"] [] [bs "app"] (bs "/") (bs "app") demo_artifact).
  - reflexivity.
  - reflexivity.
  - discriminate.
  - split; [apply dirs_nil|]. split; [reflexivity|]. split; intros; [left|]; reflexivity.
  - split; vm_compute; discriminate.
  - repeat (constructor; [vm_compute; discriminate|]). constructor.
Defined.

(** A blob replaced between the check and the read is refused. *)
Example swapped_blob_refused :
  (oci_resolve [] (bs "/") (bs "app") demo_pin
     (fun t => if (t <? 7)%nat then demo_fs
       else <[[bs "app"; bs "blobs"; SHA256; oci_sha256_hex (bs "wasm")] := NFile (bs "evil")]> demo_fs) 0%nat).1
  = Err (ArtifactError (bs "app")).
Proof. vm_compute. reflexivity. Qed.

(** The blob itself may be no link, but the directory it is read from may be reached through one,
    out of the layout and out of the store's root. *)
Definition linked_fs : Fs :=
  <[[bs "app"; bs "blobs"] := NLink (bs "/etc/blobs")]> (<[[bs "etc"] := NDir]>
    (list_to_map (omap (fun kv => match kv.1 with
       | app :: blobs :: rest => if bytes_eqb blobs (bs "blobs") then Some (bs "etc" :: blobs :: rest, kv.2) else Some kv
       | _ => Some kv end) (map_to_list demo_fs)))).
Example linked_blob_directory_followed :
  linked_fs !! [bs "app"; bs "blobs"; SHA256; oci_sha256_hex (bs "wasm")] = None /\
  linked_fs !! [bs "etc"; bs "blobs"; SHA256; oci_sha256_hex (bs "wasm")] = Some (NFile (bs "wasm")) /\
  (oci_resolve [] (bs "/") (bs "app") demo_pin (fun _ => linked_fs) 0%nat).1 = Ok demo_artifact.
Proof. vm_compute. split_and!; reflexivity. Qed.
