(* ===== verification/Provenance.v ===== *)
(** * Provenance (host/src/trust.rs, host/src/errors.rs, host/src/contract_target.rs,
    control/src/lib.rs)

    Whether an artifact may load: the trusted keys, the signed SBOM bound to the component, the
    static contract target, and the check of a manifest's artifacts without an engine.  Key
    parsing and signature verification, the JSON parser and the WIT decoder are libraries. *)

From S2P Require Import Prelude Bytes Manifest Contract Filesystem Oci.

(** [serde_json::Value]; the text of a number is not used. *)
Inductive Json := JNull | JBool (b : bool) | JNumber | JString (s : bytes) | JArray (items : list Json)
| JObject (fields : list (bytes * Json)).

Definition json_get (field : bytes) (v : Json) : option Json :=
  match v with JObject fields => snd <$> List.find (fun kv => bytes_eqb kv.1 field) fields | _ => None end.
Definition as_array (v : Json) : option (list Json) := match v with JArray items => Some items | _ => None end.
Definition as_str (v : Json) : option bytes := match v with JString s => Some s | _ => None end.

(** A decoded WIT world. *)
Inductive Decoded (World : Type) := DecodedComponent (w : World) | DecodedWitPackage.
Arguments DecodedComponent {World} w.
Arguments DecodedWitPackage {World}.

Class TrustLib (Key World : Type) := {
  tl_try_from_pem : bytes -> option Key;
  tl_verify_signature : Key -> bytes -> bytes -> bool;
  tl_from_slice : bytes -> option Json;
  tl_decode : bytes -> option (Decoded World);
  tl_imports : World -> list bytes;
  tl_targets : World -> bytes -> bool;
  (** The world encoded for each shipped version, decoded back. *)
  tl_shipped : ContractVersion -> option World;
}.

Inductive LoadError :=
| EmptyFilterId | FilterIdContainsDelimiter | MissingSbom | UnverifiedComponentSignature
| UnverifiedSbomSignature | MalformedSbom | SbomNotBound | UnsupportedContractVersion
| MissingCapability (imports : list bytes) | ContractNotSatisfied (tried : list bytes) | ContractUndecodable
| LoadInstantiate | LoadWasmtime.

Section Provenance.
Context {Key World : Type} `{L : OciLib} `{TL : TrustLib Key World}.

(** ** The trust policy *)

Definition TrustPolicy : Type := list Key.

Fixpoint from_pem_keys (pems : list bytes) : option TrustPolicy :=
  match pems with
  | [] => Some []
  | pem :: pems => key ← tl_try_from_pem pem; keys ← from_pem_keys pems; Some (key :: keys)
  end.

Definition verifies (keys : TrustPolicy) (signature_der msg : bytes) : bool :=
  existsb (fun k => tl_verify_signature k signature_der msg) keys.

Definition subject_digest (subject : Json) : option bytes :=
  d ← json_get (bs "digest") subject; h ← json_get (bs "sha256") d; as_str h.

Definition sbom_binds_component (sbom component : bytes) : result unit LoadError :=
  match tl_from_slice sbom with
  | None => Err MalformedSbom
  | Some statement =>
    let want := oci_sha256_hex component in
    let bound :=
      match s ← json_get (bs "subject") statement; as_array s with
      | Some subjects => existsb (fun subject => bool_decide (subject_digest subject = Some want)) subjects
      | None => false
      end in
    if bound then Ok tt else Err SbomNotBound
  end.

Definition verify_artifact (keys : TrustPolicy) (artifact : ResolvedArtifact) : result unit LoadError :=
  let? _ := first_failure
    [(bytes_eqb (ra_sbom artifact) [], MissingSbom);
     (negb (verifies keys (ra_component_signature artifact) (ra_component artifact)), UnverifiedComponentSignature);
     (negb (verifies keys (ra_sbom_signature artifact) (ra_sbom artifact)), UnverifiedSbomSignature)] in
  sbom_binds_component (ra_sbom artifact) (ra_component artifact).

(** ** The static contract target *)

Inductive ContractTargetVerdict := Satisfied (versions : list ContractVersion) | Inconclusive (imports : list bytes).

Definition is_component (s : bytes) : bool :=
  starts_with (byte_of 0 :: bs "asm") s
  && match s !! 6%nat, s !! 7%nat with
     | Some a, Some b => negb (ascii_eqb a (byte_of 0) && ascii_eqb b (byte_of 0))
     | _, _ => false
     end.

Fixpoint decode_shipped_worlds (versions : list ContractVersion) : option (list (ContractVersion * World)) :=
  match versions with
  | [] => Some []
  | v :: versions => w ← tl_shipped v; ws ← decode_shipped_worlds versions; Some ((v, w) :: ws)
  end.

Definition check_contract_target (component : bytes) : result ContractTargetVerdict LoadError :=
  if negb (is_component component) then Err ContractUndecodable
  else
    match decode_shipped_worlds SUPPORTED_CONTRACT_VERSIONS with
    | None => Err ContractUndecodable
    | Some shipped =>
      match tl_decode component with
      | None | Some DecodedWitPackage => Err ContractUndecodable
      | Some (DecodedComponent world) =>
        let contract_imports := flat_map (fun vw => tl_imports vw.2) shipped in
        let extra := filter (fun name => name ∉ contract_imports) (tl_imports world) in
        match extra with
        | [] =>
          match filter (fun vw => tl_targets vw.2 component = true) shipped with
          | [] => Err (ContractNotSatisfied (map package SUPPORTED_CONTRACT_VERSIONS))
          | satisfied => Ok (Satisfied (map fst satisfied))
          end
        | _ => Ok (Inconclusive extra)
        end
      end
    end.

(** ** Checking a manifest's artifacts *)

Inductive ResolveError :=
| RsIoAt (path : bytes) | RsTrustKey | RsStore (e : StoreError) | RsLoad (id : bytes) (e : LoadError).

Record ResolvedFilterCheck := mkCheck { rc_id : bytes; rc_digest : bytes; rc_contract : ContractTargetVerdict }.

(** [fs::read] of a path text. *)
Definition read_text (cwd : list bytes) (fs : Fs) (path : bytes) : option bytes :=
  p ← canonicalize cwd fs path; match fs !! p with Some (NFile content) => Some content | _ => None end.

Fixpoint read_keys (cwd : list bytes) (base_dir : bytes) (keys : list bytes) : IO (list bytes) ResolveError :=
  match keys with
  | [] => io_ret []
  | key :: keys =>
    let path := join_path base_dir key in
    let! pem := io_call (fun fs => read_text cwd fs path) (RsIoAt path) in
    let! pems := read_keys cwd base_dir keys in
    io_ret (pem :: pems)
  end.

Definition io_lift {A E E'} (f : E -> E') (m : IO A E) : IO A E' := fun w t =>
  match m w t with (Ok a, t) => (Ok a, t) | (Err e, t) => (Err (f e), t) end.
Definition io_res {A E} (r : result A E) : IO A E := fun _ t => (r, t).

Definition resolve_filter (cwd : list bytes) (base_dir : bytes) (trust : TrustPolicy) (entry : FilterEntry)
    : IO ResolvedFilterCheck ResolveError :=
  let! resolved := io_lift RsStore (oci_resolve cwd base_dir (fe_source entry) (fe_digest entry)) in
  let! _ := io_lift (RsLoad (fe_id entry)) (io_res (verify_artifact trust resolved)) in
  let! contract := io_lift (RsLoad (fe_id entry)) (io_res (check_contract_target (ra_component resolved))) in
  io_ret (mkCheck (fe_id entry) (fe_digest entry) contract).

Fixpoint resolve_filters (cwd : list bytes) (base_dir : bytes) (trust : TrustPolicy) (entries : list FilterEntry)
    : IO (list ResolvedFilterCheck) ResolveError :=
  match entries with
  | [] => io_ret []
  | entry :: entries =>
    let! check := resolve_filter cwd base_dir trust entry in
    let! checks := resolve_filters cwd base_dir trust entries in
    io_ret (check :: checks)
  end.

(** [resolve_manifest] of a manifest's trust keys and filters. *)
Definition resolve_manifest (cwd : list bytes) (base_dir : bytes) (keys : list bytes) (filters : list FilterEntry)
    : IO (list ResolvedFilterCheck) ResolveError :=
  let! pems := read_keys cwd base_dir keys in
  let! trust := io_opt (from_pem_keys pems) RsTrustKey in
  resolve_filters cwd base_dir trust filters.

(** ** What the gate requires *)

(** A key vouches for the component, one for the SBOM, and the SBOM names the component's hash. *)
Record vouched (keys : TrustPolicy) (a : ResolvedArtifact) : Prop := {
  vo_component : exists k, k ∈ keys /\ tl_verify_signature k (ra_component_signature a) (ra_component a) = true;
  vo_sbom : exists k, k ∈ keys /\ tl_verify_signature k (ra_sbom_signature a) (ra_sbom a) = true;
  vo_present : ra_sbom a <> [];
  vo_bound : exists statement subjects subject, tl_from_slice (ra_sbom a) = Some statement /\
    json_get (bs "subject") statement = Some (JArray subjects) /\ subject ∈ subjects /\
    subject_digest subject = Some (oci_sha256_hex (ra_component a));
}.

Lemma verifies_spec keys signature_der msg : verifies keys signature_der msg = true <->
  exists k, k ∈ keys /\ tl_verify_signature k signature_der msg = true.
Proof. unfold verifies. rewrite existsb_exists. by setoid_rewrite list_elem_of_In. Qed.

Lemma sbom_binds_spec sbom component : sbom_binds_component sbom component = Ok tt <->
  exists statement subjects subject, tl_from_slice sbom = Some statement /\
    json_get (bs "subject") statement = Some (JArray subjects) /\ subject ∈ subjects /\
    subject_digest subject = Some (oci_sha256_hex component).
Proof.
  unfold sbom_binds_component. destruct (tl_from_slice sbom) as [st|]; [|split; [done|by intros (?&?&?&?&?)]].
  destruct (json_get (bs "subject") st) as [s|] eqn:Es; cbn [mbind option_bind].
  2:{ split; [done|]. intros (? & ? & ? & [= <-] & E & _). congruence. }
  destruct s; cbn [as_array]; try (split; [done|]; intros (? & ? & ? & [= <-] & E & _); congruence).
  destruct (existsb _ items) eqn:Ex.
  - split; [intros _|done]. apply existsb_exists in Ex as (x & Hx & E). apply bool_decide_eq_true in E.
    exists st, items, x. split_and!; [done|done|by apply list_elem_of_In|done].
  - split; [done|]. intros (? & subjects & x & [= <-] & E & Hx & Hd). rewrite Es in E. injection E as <-.
    apply not_true_iff_false in Ex. destruct Ex. apply existsb_exists. exists x.
    split; [by apply list_elem_of_In|by apply bool_decide_eq_true].
Qed.

Lemma verify_artifact_spec keys a : verify_artifact keys a = Ok tt <-> vouched keys a.
Proof.
  unfold verify_artifact. rewrite res_bind_unit, !first_failure_cons_ok, first_failure_nil_ok, !negb_false_iff,
    !verifies_spec, sbom_binds_spec. split.
  - intros [(Hp & Hc & Hs & _) Hb]. split; try done. intros E. rewrite E in Hp. done.
  - intros [Hc Hs Hp Hb]. split_and!; try done. destruct (ra_sbom a); [done|reflexivity].
Qed.


(** The versions reported are those whose shipped world accepts the component, and there is one; an
    import outside every shipped world leaves the component unjudged. *)
Lemma contract_target_spec component verdict : check_contract_target component = Ok verdict ->
  is_component component = true /\
  exists shipped world, decode_shipped_worlds SUPPORTED_CONTRACT_VERSIONS = Some shipped /\
    tl_decode component = Some (DecodedComponent world) /\
    let known name := exists vw, vw ∈ shipped /\ name ∈ tl_imports vw.2 in
    match verdict with
    | Satisfied versions => versions <> [] /\ Forall known (tl_imports world) /\
        forall v, v ∈ versions <-> exists w, (v, w) ∈ shipped /\ tl_targets w component = true
    | Inconclusive extra => extra <> [] /\ forall name, name ∈ extra <-> name ∈ tl_imports world /\ ~ known name
    end.
Proof.
  unfold check_contract_target. destruct (is_component component); [|done]. cbn [negb].
  destruct (decode_shipped_worlds _) as [shipped|]; [|done].
  destruct (tl_decode component) as [[world|]|]; [|done..]. intros E. split; [done|]. exists shipped, world.
  split; [done|]. split; [done|]. cbn zeta in *.
  assert (Hknown : forall name, name ∈ flat_map (fun vw => tl_imports vw.2) shipped <->
    exists vw, vw ∈ shipped /\ name ∈ tl_imports vw.2).
  { intros name. rewrite list_elem_of_In, in_flat_map. by setoid_rewrite list_elem_of_In. }
  destruct (filter _ (tl_imports world)) as [|x extra] eqn:Ef.
  - assert (Hall : Forall (fun name => exists vw, vw ∈ shipped /\ name ∈ tl_imports vw.2) (tl_imports world)).
    { apply Forall_forall. intros name Hin. apply Hknown. destruct (decide (name ∈ flat_map (fun vw => tl_imports vw.2) shipped)); [done|].
      assert (Hx : name ∈ @nil bytes) by (rewrite <- Ef; by apply list_elem_of_filter). by apply elem_of_nil in Hx. }
    destruct (filter _ shipped) as [|vw sat] eqn:Es; [done|].
    assert (Hne : map fst (vw :: sat) <> []) by done. rewrite <- Es in *. injection E as <-. split_and!; [done|done|].
    intros v. rewrite list_elem_of_fmap. split.
    + intros ([v' w] & -> & Hin%list_elem_of_filter). exists w. naive_solver.
    + intros (w & Hin & Ht). exists (v, w). split; [done|]. by apply list_elem_of_filter.
  - injection E as <-. rewrite <- Ef. split; [by rewrite Ef|]. intros name. rewrite list_elem_of_filter, Hknown. naive_solver.
Qed.

(** ** What the check of a manifest shows *)

Lemma io_lift_ok {A E E'} (g : E -> E') (m : IO A E) w t a t' : io_lift g m w t = (Ok a, t') -> m w t = (Ok a, t').
Proof. unfold io_lift. by destruct (m w t) as [[]]; intros [= -> ->]. Qed.

(** What a report says of an entry: its artifact resolves, is vouched for and has this verdict. *)
Definition reported (cwd : list bytes) (base_dir : bytes) (trust : TrustPolicy) (w : nat -> Fs)
    (entry : FilterEntry) (check : ResolvedFilterCheck) : Prop :=
  rc_id check = fe_id entry /\ rc_digest check = fe_digest entry /\
  exists a t1 t2, oci_resolve cwd base_dir (fe_source entry) (fe_digest entry) w t1 = (Ok a, t2) /\
    vouched trust a /\ check_contract_target (ra_component a) = Ok (rc_contract check).

Lemma resolve_filter_ok cwd base_dir trust entry w t check t' :
  resolve_filter cwd base_dir trust entry w t = (Ok check, t') -> reported cwd base_dir trust w entry check.
Proof.
  intros (a & t1 & Ha%io_lift_ok & H)%io_bind_ok. apply io_bind_ok in H as ([] & t2 & Hv%io_lift_ok & H).
  apply io_bind_ok in H as (verdict & t3 & Hc%io_lift_ok & [<- <-]%io_ret_ok).
  injection Hv as Hv <-. injection Hc as Hc <-. split_and!; [done..|]. exists a, t, t1.
  by rewrite <- verify_artifact_spec.
Qed.

Lemma resolve_filters_ok cwd base_dir trust entries w : forall t checks t',
  resolve_filters cwd base_dir trust entries w t = (Ok checks, t') ->
  Forall2 (reported cwd base_dir trust w) entries checks.
Proof.
  induction entries as [|entry entries IH]; intros t checks t' H; cbn [resolve_filters] in H.
  { apply io_ret_ok in H as [<- _]. constructor. }
  apply io_bind_ok in H as (check & t1 & Hf & H). apply io_bind_ok in H as (rest & t2 & Hr & [<- _]%io_ret_ok).
  constructor; [by eapply resolve_filter_ok|by eapply IH].
Qed.

Lemma read_keys_length cwd base_dir keys w : forall t pems t',
  read_keys cwd base_dir keys w t = (Ok pems, t') -> length pems = length keys.
Proof.
  induction keys as [|key keys IH]; intros t pems t' H; cbn [read_keys] in H.
  { by apply io_ret_ok in H as [<- _]. }
  apply io_bind_ok in H as (pem & t1 & _ & H). apply io_bind_ok in H as (rest & t2 & Hr & [<- _]%io_ret_ok).
  cbn [length]. f_equal. by eapply IH.
Qed.

Lemma resolve_manifest_ok cwd base_dir keys entries w t checks t' :
  resolve_manifest cwd base_dir keys entries w t = (Ok checks, t') ->
  exists pems trust, from_pem_keys pems = Some trust /\ length pems = length keys /\
    Forall2 (reported cwd base_dir trust w) entries checks.
Proof.
  intros (pems & t1 & Hk & H)%io_bind_ok. apply io_bind_ok in H as (trust & t2 & [Ht <-]%io_opt_ok & H).
  exists pems, trust. split_and!; [done|by eapply read_keys_length|by eapply resolve_filters_ok].
Qed.
End Provenance.

(** ** A concrete library: a signature is the key before the message, an SBOM is a marker before
    the hash it attests, a world is its imports *)

Definition demo_statement (s : bytes) : option Json :=
  hash ← strip_prefix (bs "sbom:") s;
  Some (JObject [(bs "subject", JArray [JObject [(bs "digest", JObject [(bs "sha256", JString hash)])]])]).
#[local] Instance demo_trust : TrustLib bytes (list bytes) := {|
  tl_try_from_pem := Some;
  tl_verify_signature key signature msg := bytes_eqb signature (key ++ msg);
  tl_from_slice := demo_statement;
  tl_decode component := Some (DecodedComponent (split_on "," (drop 8 component)));
  tl_imports := id;
  tl_targets world component := true;
  tl_shipped v := Some [package v];
|}.
Definition demo_component : bytes :=
  (byte_of 0 :: bs "asm" ++ map byte_of [13; 0; 1; 0]%nat) ++ bs "plecto:filter/host-log@0.4.0,plecto:filter/host-kv@0.4.0".
Definition demo_sbom : bytes := bs "sbom:" ++ oci_sha256_hex (OciLib := demo_oci) demo_component.
Definition demo_signed : ResolvedArtifact :=
  mkArtifact demo_component (bs "key" ++ demo_component) demo_sbom (bs "key" ++ demo_sbom).

(** A root holding a key file and the signed artifact's layout "app". *)
Definition signed_written : bytes * Fs :=
  default ([], ∅) (write_layout (L := demo_oci) (<[[bs "key.pem"] := NFile (bs "key")]> ∅) [bs "app"] demo_signed).
Definition demo_entry : FilterEntry :=
  mkFilterEntry (bs "f") (bs "app") signed_written.1 Trusted None None None DispatchAuto None None None None None None
    WasiNone None None.
