(* ===== verification/LoadOptions.v ===== *)
(** * Load options (host/src/options.rs, control/src/manifest/lowering.rs)

    The knobs a filter is loaded with, their defaults and host ceilings, and their lowering from a
    manifest entry.  The machine's parallelism and the CIDR parser are parameters; an option whose
    cargo feature is off stays at its empty default.  Durations are milliseconds. *)

From S2P Require Import Prelude Bytes TokenBucket Ssrf Manifest OutboundTcp OutboundHttp.

Inductive Isolation := IsoTrusted | IsoUntrusted.
#[export] Instance Isolation_eq_dec : EqDecision Isolation.
Proof. solve_decision. Defined.
Definition isolation_str (i : Isolation) : bytes :=
  match i with IsoTrusted => bs "trusted" | IsoUntrusted => bs "untrusted" end.

Inductive Dispatch := Auto | Blocking.
#[export] Instance Dispatch_eq_dec : EqDecision Dispatch.
Proof. solve_decision. Defined.

Definition DEFAULT_INIT_DEADLINE_MS : Z := 5000.
Definition DEFAULT_UNTRUSTED_INIT_DEADLINE_MS : Z := 250.
Definition DEFAULT_REQUEST_DEADLINE_MS : Z := 100.
Definition DEFAULT_MAX_MEMORY_BYTES : Z := Z.shiftl 64 20.
Definition DEFAULT_CHECKOUT_TIMEOUT_MS : Z := 250.
Definition DEFAULT_MAX_REQUESTS_PER_INSTANCE : Z := 2 ^ 16.
Definition TRUSTED_POOL_DEFAULT_CEIL : Z := 8.

Definition DEFAULT_OUTBOUND_CONNECT_TIMEOUT_MS : Z := 2000.
Definition MAX_OUTBOUND_CONNECT_TIMEOUT_MS : Z := 10000.
Definition DEFAULT_OUTBOUND_TOTAL_TIMEOUT_MS : Z := 5000.
Definition MAX_OUTBOUND_TOTAL_TIMEOUT_MS : Z := 30000.
Definition DEFAULT_OUTBOUND_MAX_RESPONSE_BYTES : Z := 64 * 1024.
Definition MAX_OUTBOUND_MAX_RESPONSE_BYTES : Z := 2 ^ 20.
Definition DEFAULT_OUTBOUND_MAX_CONCURRENT : Z := 8.
Definition MAX_OUTBOUND_MAX_CONCURRENT : Z := 64.
Definition DEFAULT_OUTBOUND_TCP_MAX_CONNECTIONS : Z := 4.
Definition MAX_OUTBOUND_TCP_MAX_CONNECTIONS : Z := 64.
Definition DEFAULT_OUTBOUND_TCP_IO_DEADLINE_MS : Z := 5000.
Definition MAX_OUTBOUND_TCP_IO_DEADLINE_MS : Z := 30000.

(** [Ord::clamp]. *)
Definition clamp (v lo hi : Z) : Z := if v <? lo then lo else if hi <? v then hi else v.
Definition clamp_or (v : option Z) (def max : Z) : Z := clamp (default def v) 1 max.

Section options.
Context {IpNet : Type}.

Record LoadOptions := mkLoadOptions {
  lo_isolation : Isolation;
  lo_dispatch : Dispatch;
  lo_init_deadline_ms : Z;
  lo_request_deadline_ms : Z;
  lo_max_memory_bytes : Z;
  lo_trusted_pool_size : Z;
  lo_checkout_timeout_ms : Z;
  lo_max_requests_per_instance : Z;
  lo_ratelimit_bucket : option Bucket;
  lo_outbound_http : option (OutboundPolicy (IpNet := IpNet));
  lo_outbound_tcp : option (OutboundTcpPolicy (IpNet := IpNet));
  lo_config : gmap bytes bytes;
  lo_wasi_minimal : bool;
}.

Section defaults.
Context (available_parallelism : option Z) (parse_net : bytes -> option IpNet).

Definition default_trusted_pool_size : Z :=
  clamp (default 1 available_parallelism) 1 TRUSTED_POOL_DEFAULT_CEIL.

Definition untrusted : LoadOptions :=
  mkLoadOptions IsoUntrusted Auto DEFAULT_UNTRUSTED_INIT_DEADLINE_MS DEFAULT_REQUEST_DEADLINE_MS
    DEFAULT_MAX_MEMORY_BYTES default_trusted_pool_size DEFAULT_CHECKOUT_TIMEOUT_MS
    DEFAULT_MAX_REQUESTS_PER_INSTANCE None None None ∅ false.
Definition trusted : LoadOptions :=
  mkLoadOptions IsoTrusted Auto DEFAULT_INIT_DEADLINE_MS DEFAULT_REQUEST_DEADLINE_MS
    DEFAULT_MAX_MEMORY_BYTES default_trusted_pool_size DEFAULT_CHECKOUT_TIMEOUT_MS
    DEFAULT_MAX_REQUESTS_PER_INSTANCE None None None ∅ false.

(** [with_outbound_http]: a malformed range is dropped, which leaves it blocked. *)
Definition outbound_http_policy (allow : list AllowEntry) (allow_private : list bytes)
    (connect_timeout_ms total_timeout_ms max_response_bytes max_concurrent : option Z)
    : OutboundPolicy (IpNet := IpNet) :=
  {| op_allow := allow;
     op_allow_private := omap parse_net allow_private;
     op_connect_timeout := clamp_or connect_timeout_ms DEFAULT_OUTBOUND_CONNECT_TIMEOUT_MS MAX_OUTBOUND_CONNECT_TIMEOUT_MS;
     op_total_timeout := clamp_or total_timeout_ms DEFAULT_OUTBOUND_TOTAL_TIMEOUT_MS MAX_OUTBOUND_TOTAL_TIMEOUT_MS;
     op_max_response_bytes := clamp_or max_response_bytes DEFAULT_OUTBOUND_MAX_RESPONSE_BYTES MAX_OUTBOUND_MAX_RESPONSE_BYTES;
     op_max_concurrent := clamp_or max_concurrent DEFAULT_OUTBOUND_MAX_CONCURRENT MAX_OUTBOUND_MAX_CONCURRENT |}.

Definition outbound_tcp_policy (allow : list TcpAllowEntry) (allow_private : list bytes)
    (max_connections io_deadline_ms : option Z) : OutboundTcpPolicy (IpNet := IpNet) :=
  {| tp_allow := allow;
     tp_allow_private := omap parse_net allow_private;
     tp_max_connections := clamp_or max_connections DEFAULT_OUTBOUND_TCP_MAX_CONNECTIONS MAX_OUTBOUND_TCP_MAX_CONNECTIONS;
     tp_io_deadline_ms := clamp_or io_deadline_ms DEFAULT_OUTBOUND_TCP_IO_DEADLINE_MS MAX_OUTBOUND_TCP_IO_DEADLINE_MS |}.

Definition lower_http (ob : OutboundHttpConfig) : OutboundPolicy (IpNet := IpNet) :=
  outbound_http_policy
    (map (fun d => mkAllow (match ad_scheme d with SchemeHttps => Https | SchemeHttp => Http end)
        (ad_host d) (default (default_port (ad_scheme d)) (ad_port d))) (oh_allow ob))
    (oh_allow_private ob) (oh_connect_timeout_ms ob) (oh_total_timeout_ms ob) (oh_max_response_bytes ob)
    (oh_max_concurrent ob).
Definition lower_tcp (ob : OutboundTcpConfig) : OutboundTcpPolicy (IpNet := IpNet) :=
  outbound_tcp_policy (map (fun d => mkTcpAllow (td_host d) (td_port d)) (ot_allow ob))
    (ot_allow_private ob) (ot_max_connections ob) (ot_io_deadline_ms ob).

Definition base_options (i : IsolationKind) : LoadOptions :=
  match i with Trusted => trusted | Untrusted => untrusted end.

(** [FilterEntry::load_options]: each set knob replaces the default. *)
Definition load_options (features : Features) (f : FilterEntry) : LoadOptions :=
  let opts := base_options (fe_isolation f) in
  {| lo_isolation := lo_isolation opts;
     lo_dispatch := match fe_dispatch f with DispatchAuto => Auto | DispatchBlocking => Blocking end;
     lo_init_deadline_ms := default (lo_init_deadline_ms opts) (fe_init_deadline_ms f);
     lo_request_deadline_ms := default (lo_request_deadline_ms opts) (fe_request_deadline_ms f);
     lo_max_memory_bytes := default (lo_max_memory_bytes opts) (fe_max_memory_bytes f);
     lo_trusted_pool_size := default (lo_trusted_pool_size opts) (fe_pool_size f);
     lo_checkout_timeout_ms := default (lo_checkout_timeout_ms opts) (fe_checkout_timeout_ms f);
     lo_max_requests_per_instance := default (lo_max_requests_per_instance opts) (fe_max_requests_per_instance f);
     lo_ratelimit_bucket :=
       (fun rl => mkBucket (rl_capacity rl) (rl_refill_tokens rl) (rl_refill_interval_ms rl)) <$> fe_ratelimit f;
     lo_outbound_http := if ft_outbound_http features then lower_http <$> fe_outbound_http f else None;
     lo_outbound_tcp := if ft_outbound_tcp features then lower_tcp <$> fe_outbound_tcp f else None;
     lo_config := default ∅ (fe_config f);
     lo_wasi_minimal := ft_fat_guest features && bool_decide (fe_wasi f = WasiMinimal) |}.

Definition with_config (opts : LoadOptions) (config : gmap bytes bytes) : LoadOptions :=
  {| lo_isolation := lo_isolation opts; lo_dispatch := lo_dispatch opts;
     lo_init_deadline_ms := lo_init_deadline_ms opts; lo_request_deadline_ms := lo_request_deadline_ms opts;
     lo_max_memory_bytes := lo_max_memory_bytes opts; lo_trusted_pool_size := lo_trusted_pool_size opts;
     lo_checkout_timeout_ms := lo_checkout_timeout_ms opts;
     lo_max_requests_per_instance := lo_max_requests_per_instance opts;
     lo_ratelimit_bucket := lo_ratelimit_bucket opts; lo_outbound_http := lo_outbound_http opts;
     lo_outbound_tcp := lo_outbound_tcp opts; lo_config := config; lo_wasi_minimal := lo_wasi_minimal opts |}.

(** The file-indirected configuration, where the entry has one, replaces the inline one. *)
Definition entry_options (features : Features) (f : FilterEntry) (merged : option (gmap bytes bytes)) : LoadOptions :=
  match merged with
  | Some merged => with_config (load_options features f) merged
  | None => load_options features f
  end.

(** ** What lowering guarantees *)

Lemma clamp_range v lo hi : lo <= hi -> lo <= clamp v lo hi <= hi.
Proof. intros H. unfold clamp. destruct (Z.ltb_spec v lo), (Z.ltb_spec hi v); lia. Qed.
Lemma clamp_or_range v def max : 1 <= max -> 1 <= clamp_or v def max <= max.
Proof. intros H. by apply clamp_range. Qed.

(** The operator's outbound timings, sizes and counts are within the host's ceilings. *)
Definition http_within_ceilings (p : OutboundPolicy (IpNet := IpNet)) : Prop :=
  1 <= op_connect_timeout p <= MAX_OUTBOUND_CONNECT_TIMEOUT_MS /\
  1 <= op_total_timeout p <= MAX_OUTBOUND_TOTAL_TIMEOUT_MS /\
  1 <= op_max_response_bytes p <= MAX_OUTBOUND_MAX_RESPONSE_BYTES /\
  1 <= op_max_concurrent p <= MAX_OUTBOUND_MAX_CONCURRENT.
Definition tcp_within_ceilings (p : OutboundTcpPolicy (IpNet := IpNet)) : Prop :=
  1 <= tp_max_connections p <= MAX_OUTBOUND_TCP_MAX_CONNECTIONS /\
  1 <= tp_io_deadline_ms p <= MAX_OUTBOUND_TCP_IO_DEADLINE_MS.

Lemma lower_http_within ob : http_within_ceilings (lower_http ob).
Proof. unfold http_within_ceilings. split_and!; cbn; by apply clamp_or_range. Qed.
Lemma lower_tcp_within ob : tcp_within_ceilings (lower_tcp ob).
Proof. unfold tcp_within_ceilings. split_and!; cbn; by apply clamp_or_range. Qed.
End defaults.
End options.
Arguments LoadOptions IpNet : clear implicits.
