(* ===== verification/Load.v ===== *)
(** * Loading a filter (host/src/host.rs, host/src/engine.rs)

    [Host::load]: the provenance gate, the contract version, the capabilities lent, the decision to
    run inline and the first trusted instance.  The engine is a library; the calls made to it are
    recorded, so that what is refused before it is touched can be told. *)

From S2P Require Import Prelude Bytes Quota Manifest Pool Contract Filter.
From S2P Require Import OutboundTcp OutboundHttp Filesystem Oci Provenance LoadOptions.
Definition TRUSTED_POOL_MAX : Z := 256.

(** ** Capabilities *)

Record LentCapabilities := mkLent { wasi_base : bool; filesystem : bool; http : bool; sockets : bool }.

(** The part of a name before a separator, as [split(c).next()]. *)
Definition before (c : ascii) (s : bytes) : bytes := default s (head (split_on c s)).

Definition covers (lent : LentCapabilities) (import : bytes) : bool :=
  let ns := before SLASH import in
  if bytes_eqb ns (bs "plecto:filter") then true
  else if bool_decide (ns ∈ [bs "wasi:io"; bs "wasi:clocks"; bs "wasi:random"; bs "wasi:cli"]) then wasi_base lent
  else if bytes_eqb ns (bs "wasi:filesystem") then filesystem lent
  else if bytes_eqb ns (bs "wasi:http") then http lent
  else if bytes_eqb ns (bs "wasi:sockets") then sockets lent
  else false.

(** What is added to the linker. *)
Inductive Linked :=
| LkHostApi (v : ContractVersion) | LkWasiProxy | LkCliRuntime | LkWasiBaseP3 | LkInertFilesystem
| LkHttpP2 | LkHttpP3 | LkNetwork | LkInstanceNetwork | LkTcpCreateSocket | LkTcp | LkNameLookup
| LkSocketTypesP3 | LkNameLookupP3.

Definition linked (version : ContractVersion) (lent : LentCapabilities) : list Linked :=
  [LkHostApi version]
  ++ (if wasi_base lent then [LkWasiProxy; LkCliRuntime; LkWasiBaseP3] else [])
  ++ (if filesystem lent then [LkInertFilesystem] else [])
  ++ (if http lent then [LkHttpP2; LkHttpP3] else [])
  ++ (if sockets lent then [LkNetwork; LkInstanceNetwork; LkTcpCreateSocket; LkTcp; LkNameLookup;
                            LkSocketTypesP3; LkNameLookupP3] else []).

Definition FILTER_PREFIX : bytes := bs "plecto:filter/".
Definition NONBLOCKING : list bytes := [bs "host-log"; bs "host-clock"; bs "host-config"; bs "types"].
Definition BACKED : list bytes := [bs "host-kv"; bs "host-counter"; bs "host-ratelimit"].

Definition blocking_import (backend_may_block : bool) (import : bytes) : bool :=
  match strip_prefix FILTER_PREFIX import with
  | Some rest =>
    let interface := before "@" rest in
    if bool_decide (interface ∈ NONBLOCKING) then false
    else if bool_decide (interface ∈ BACKED) then backend_may_block
    else true
  | None => true
  end.

(** ** The engine and the host *)

Inductive EngineCall := EcCompile (i : Isolation) (component : bytes) | EcLink (l : list Linked) | EcInstantiatePre | EcInit.

Section load.
Context {Component IpNet Key World B : Type}.

(** What instances of the filter are made with. *)
Record WasmtimeRuntime := mkRuntime {
  rt_component : Component;
  rt_engine : Isolation;
  rt_kv_prefix : bytes;
  rt_version : ContractVersion;
  rt_linked : list Linked;
  rt_options : LoadOptions IpNet;
  rt_outbound_rt : bool;
}.

(** Compilation for one of the two engines, the imports by name, the linker's additions and
    resolution, an export by name, and a fresh initialised instance. *)
Class Wasm := {
  wm_from_binary : Isolation -> bytes -> option Component;
  wm_imports : Component -> list bytes;
  wm_add_to_linker : list Linked -> bool;
  wm_instantiate_pre : Component -> list Linked -> bool;
  wm_get_export : Component -> bytes -> bool;
  wm_instantiate_initialized : WasmtimeRuntime -> bool;
}.

Context `{L : OciLib} `{TL : TrustLib Key World} `{WM : Wasm}.

Record Host := mkHost {
  ho_trust : TrustPolicy (Key := Key);
  ho_backend_may_block : bool;
  ho_sink_enabled : bool;
}.

Definition lend (opts : LoadOptions IpNet) : LentCapabilities :=
  let http := bool_decide (is_Some (lo_outbound_http opts)) in
  let sockets := bool_decide (is_Some (lo_outbound_tcp opts)) in
  let filesystem := lo_wasi_minimal opts in
  mkLent (http || sockets || filesystem) filesystem http sockets.

Definition needs_rt (opts : LoadOptions IpNet) : bool :=
  bool_decide (is_Some (lo_outbound_http opts)) || bool_decide (is_Some (lo_outbound_tcp opts)).

Definition runs_inline (host : Host) (component : Component) (opts : LoadOptions IpNet) : bool :=
  bool_decide (lo_isolation opts = IsoTrusted) && bool_decide (lo_dispatch opts = Auto)
  && negb (existsb (blocking_import (ho_backend_may_block host)) (wm_imports component))
  && negb (lo_wasi_minimal opts) && negb (needs_rt opts).

(** The engine's half: everything after the provenance gate. *)
Definition load_component (host : Host) (filter_id component_bytes : bytes) (opts : LoadOptions IpNet)
    : result (LoadedFilter * WasmtimeRuntime) LoadError * list EngineCall :=
  let compile := EcCompile (lo_isolation opts) component_bytes in
  match wm_from_binary (lo_isolation opts) component_bytes with
  | None => (Err LoadWasmtime, [compile])
  | Some component =>
    match detect_contract_version (wm_imports component) with
    | None => (Err UnsupportedContractVersion, [compile])
    | Some version =>
      let lent := lend opts in
      let linker := linked version lent in
      let calls := [compile; EcLink linker] in
      if negb (wm_add_to_linker linker) then (Err LoadWasmtime, calls)
      else
        match filter (fun name => covers lent name = false) (wm_imports component) with
        | (_ :: _) as unlent => (Err (MissingCapability unlent), calls)
        | [] =>
          let calls := calls ++ [EcInstantiatePre] in
          if negb (wm_instantiate_pre component linker) then (Err LoadWasmtime, calls)
          else
            let runtime := mkRuntime component (lo_isolation opts) (filter_id ++ [KV_NS_DELIM]) version linker opts
                             (needs_rt opts) in
            let loaded (pool : option TrustedPool) :=
              (mkLoaded filter_id version pool (runs_inline host component opts)
                 (wm_get_export component (bs "on-request-body"))
                 (bool_decide (version = V04) && wm_get_export component (bs "on-response-body"))
                 (ho_sink_enabled host), runtime) in
            match lo_isolation opts with
            | IsoUntrusted => (Ok (loaded None), calls)
            | IsoTrusted =>
              let calls := calls ++ [EcInit] in
              if negb (wm_instantiate_initialized runtime) then (Err LoadInstantiate, calls)
              else
                (Ok (loaded (Some (mkTrusted (clamp (lo_trusted_pool_size opts) 1 TRUSTED_POOL_MAX)
                                     (lo_checkout_timeout_ms opts) (lo_max_requests_per_instance opts)))), calls)
            end
        end
    end
  end.

(** [Host::load]. *)
Definition load (host : Host) (filter_id : bytes) (artifact : ResolvedArtifact) (opts : LoadOptions IpNet)
    : result (LoadedFilter * WasmtimeRuntime) LoadError * list EngineCall :=
  if bytes_eqb filter_id [] then (Err EmptyFilterId, [])
  else if contains_byte KV_NS_DELIM filter_id then (Err FilterIdContainsDelimiter, [])
  else
    match verify_artifact (ho_trust host) artifact with
    | Err e => (Err e, [])
    | Ok _ => load_component host filter_id (ra_component artifact) opts
    end.

(** ** What a loaded filter is *)

(** Every call made to the engine is made for these bytes and this linker. *)
Definition call_for (opts : LoadOptions IpNet) (component_bytes : bytes) (c : EngineCall) : Prop :=
  match c with
  | EcCompile i b => i = lo_isolation opts /\ b = component_bytes
  | EcLink l => exists v, l = linked v (lend opts)
  | EcInstantiatePre | EcInit => True
  end.

(** What the engine's half made of a component's bytes. *)
Record built (host : Host) (id component_bytes : bytes) (opts : LoadOptions IpNet) (f : LoadedFilter)
    (rt : WasmtimeRuntime) : Prop := {
  bu_compiled : wm_from_binary (lo_isolation opts) component_bytes = Some (rt_component rt);
  bu_id : lf_id f = id /\ rt_kv_prefix rt = id ++ [KV_NS_DELIM];
  bu_version : detect_contract_version (wm_imports (rt_component rt)) = Some (rt_version rt) /\
    lf_version f = rt_version rt;
  bu_imports : Forall (fun name => covers (lend opts) name = true) (wm_imports (rt_component rt));
  bu_linked : rt_linked rt = linked (rt_version rt) (lend opts) /\ wm_instantiate_pre (rt_component rt) (rt_linked rt) = true;
  bu_options : rt_options rt = opts /\ rt_outbound_rt rt = needs_rt opts;
  bu_inline : lf_runs_inline f = runs_inline host (rt_component rt) opts;
  bu_pool : match lf_trusted f with
    | Some pool => lo_isolation opts = IsoTrusted /\ 1 <= tp_cap pool <= TRUSTED_POOL_MAX /\
        wm_instantiate_initialized rt = true
    | None => lo_isolation opts = IsoUntrusted
    end;
  bu_hooks : lf_response_body_export f = true -> rt_version rt = V04;
}.

Lemma filter_nil_covered lent (names : list bytes) : filter (fun name => covers lent name = false) names = [] ->
  Forall (fun name => covers lent name = true) names.
Proof.
  intros H. apply Forall_forall. intros x Hx. destruct (covers lent x) eqn:E; [done|].
  assert (Hin : x ∈ filter (fun name => covers lent name = false) names) by (by apply list_elem_of_filter).
  rewrite H in Hin. by apply elem_of_nil in Hin.
Qed.

Lemma load_component_spec host id component_bytes opts r calls :
  load_component host id component_bytes opts = (r, calls) ->
  Forall (call_for opts component_bytes) calls /\
  match r with Ok (f, rt) => built host id component_bytes opts f rt | Err e => e <> MissingSbom end.
Proof.
  unfold load_component.
  destruct (wm_from_binary _ _) as [component|] eqn:Eb; [|intros [= <- <-]; repeat constructor; done].
  destruct (detect_contract_version _) as [v|] eqn:Ev; [|intros [= <- <-]; repeat constructor; done].
  cbn zeta.
  set (linker := linked v (lend opts)). set (calls0 := [EcCompile (lo_isolation opts) component_bytes; EcLink linker]).
  assert (Hcalls : Forall (call_for opts component_bytes) calls0) by (repeat constructor; by exists v).
  clearbody calls0.
  assert (Hpre : Forall (call_for opts component_bytes) (calls0 ++ [EcInstantiatePre]))
    by (apply Forall_app; split; [done|by repeat constructor]).
  assert (Hinit : Forall (call_for opts component_bytes) ((calls0 ++ [EcInstantiatePre]) ++ [EcInit]))
    by (apply Forall_app; split; [done|by repeat constructor]).
  destruct (wm_add_to_linker _); cbn [negb]; [|by intros [= <- <-]].
  destruct (filter _ _) as [|x unlent] eqn:Ef; [|by intros [= <- <-]].
  apply filter_nil_covered in Ef.
  destruct (wm_instantiate_pre _ _) eqn:Ep; cbn [negb]; [|by intros [= <- <-]].
  assert (Hhooks : bool_decide (v = V04) && wm_get_export component (bs "on-response-body") = true -> v = V04)
    by (intros [H _]%andb_true_iff; by apply bool_decide_eq_true in H).
  destruct (lo_isolation opts) eqn:Ei.
  - destruct (wm_instantiate_initialized _) eqn:Einit; cbn [negb]; intros [= <- <-]; [|done].
    split; [done|]. split; cbn; try done; [by rewrite Ei|]. split_and!; [done|apply clamp_range; done..|done].
  - intros [= <- <-]. split; [done|]. split; cbn; try done. by rewrite Ei.
Qed.

Lemma load_spec host id a opts r calls : load host id a opts = (r, calls) ->
  calls = [] /\ (exists e, r = Err e) \/
  id <> [] /\ KV_NS_DELIM ∉ id /\ vouched (ho_trust host) a /\
  load_component host id (ra_component a) opts = (r, calls).
Proof.
  unfold load. destruct (bytes_eqb id []) eqn:Ee; [intros [= <- <-]; left; by eauto|].
  destruct (contains_byte KV_NS_DELIM id) eqn:Ec; [intros [= <- <-]; left; by eauto|].
  destruct (verify_artifact _ _) as [[]|e] eqn:Ev; [|intros [= <- <-]; left; by eauto].
  intros H. right. split_and!; [| |by apply verify_artifact_spec|done].
  - intros ->. by vm_compute in Ee.
  - intros Hin. by rewrite (proj2 (contains_byte_spec _ _) Hin) in Ec.
Qed.

(** Nothing is loaded unvouched.  Whatever the artifact, the identity and the options: the
    engine is not touched unless a trusted key signs exactly the component's bytes, one signs the
    SBOM, and the SBOM names the component's hash; every compilation is of those bytes; and a
    filter that loads is built from them, its identity is non-empty and free of the namespace
    delimiter, and a trusted one starts with an initialised instance and a pool of 1 to 256. *)
Theorem load_only_vouched (host : Host) (id : bytes) (a : ResolvedArtifact) (opts : LoadOptions IpNet)
    (r : result (LoadedFilter * WasmtimeRuntime) LoadError) (calls : list EngineCall) :
  load host id a opts = (r, calls) ->
  (calls <> [] -> vouched (ho_trust host) a) /\ Forall (call_for opts (ra_component a)) calls /\
  match r with
  | Ok (f, rt) => vouched (ho_trust host) a /\ id <> [] /\ KV_NS_DELIM ∉ id /\
      built host id (ra_component a) opts f rt
  | Err _ => True
  end.
Proof.
  intros [[-> [e ->]]|(Hid & Hd & Hv & Hc)]%load_spec; [done|].
  apply load_component_spec in Hc as [Hcalls Hb]. split_and!; [done|done|]. by destruct r as [[f rt]|].
Qed.

(** What may be linked under the operator's options. *)
Definition granted (opts : LoadOptions IpNet) (l : Linked) : Prop :=
  match l with
  | LkHostApi _ => True
  | LkWasiProxy | LkCliRuntime | LkWasiBaseP3 =>
    is_Some (lo_outbound_http opts) \/ is_Some (lo_outbound_tcp opts) \/ lo_wasi_minimal opts = true
  | LkInertFilesystem => lo_wasi_minimal opts = true
  | LkHttpP2 | LkHttpP3 => is_Some (lo_outbound_http opts)
  | LkNetwork | LkInstanceNetwork | LkTcpCreateSocket | LkTcp | LkNameLookup | LkSocketTypesP3 | LkNameLookupP3 =>
    is_Some (lo_outbound_tcp opts)
  end.

Lemma linked_granted v opts : Forall (granted opts) (linked v (lend opts)).
Proof.
  unfold linked, lend. cbn [wasi_base filesystem http sockets].
  destruct (bool_decide (is_Some (lo_outbound_http opts))) eqn:Eh, (bool_decide (is_Some (lo_outbound_tcp opts))) eqn:Et,
    (lo_wasi_minimal opts) eqn:Ew; cbn [orb app];
    try apply bool_decide_eq_true in Eh; try apply bool_decide_eq_true in Et;
    rewrite ?Forall_cons, ?Forall_nil; cbn [granted]; tauto.
Qed.

Lemma covers_granted opts name : covers (lend opts) name = true ->
  let ns := before SLASH name in
  ns = bs "plecto:filter" \/
  ns ∈ [bs "wasi:io"; bs "wasi:clocks"; bs "wasi:random"; bs "wasi:cli"] /\
    (is_Some (lo_outbound_http opts) \/ is_Some (lo_outbound_tcp opts) \/ lo_wasi_minimal opts = true) \/
  ns = bs "wasi:filesystem" /\ lo_wasi_minimal opts = true \/
  ns = bs "wasi:http" /\ is_Some (lo_outbound_http opts) \/
  ns = bs "wasi:sockets" /\ is_Some (lo_outbound_tcp opts).
Proof.
  unfold covers, lend. cbn [wasi_base filesystem http sockets]. cbn zeta. set (ns := before SLASH name).
  destruct (bytes_eqb ns _) eqn:E1; [apply bytes_eqb_eq in E1; by left|].
  destruct (bool_decide (ns ∈ _)) eqn:E2.
  { apply bool_decide_eq_true in E2. intros [[H|H]%orb_true_iff|H]%orb_true_iff; right; left; split; try done;
      [left|right; left|right; right]; try done; by apply bool_decide_eq_true in H. }
  destruct (bytes_eqb ns (bs "wasi:filesystem")) eqn:E3; [apply bytes_eqb_eq in E3; intros H; right; right; by left|].
  destruct (bytes_eqb ns (bs "wasi:http")) eqn:E4;
    [apply bytes_eqb_eq in E4; intros H%bool_decide_eq_true; do 3 right; by left|].
  destruct (bytes_eqb ns (bs "wasi:sockets")) eqn:E5;
    [apply bytes_eqb_eq in E5; intros H%bool_decide_eq_true; by do 4 right|done].
Qed.

(** A filter has the capabilities the operator granted and no others.  Every interface in a
    loaded filter's linker is the contract's or one its options grant, every import it has is in
    the contract's name space or in one granted, and with no grant at all its linker is the
    contract's host interfaces alone. *)
Theorem capabilities_granted (host : Host) (id : bytes) (a : ResolvedArtifact) (opts : LoadOptions IpNet)
    (f : LoadedFilter) (rt : WasmtimeRuntime) (calls : list EngineCall) :
  load host id a opts = (Ok (f, rt), calls) ->
  Forall (granted opts) (rt_linked rt) /\
  Forall (fun name => let ns := before SLASH name in
      ns = bs "plecto:filter" \/
      ns ∈ [bs "wasi:io"; bs "wasi:clocks"; bs "wasi:random"; bs "wasi:cli"] /\
        (is_Some (lo_outbound_http opts) \/ is_Some (lo_outbound_tcp opts) \/ lo_wasi_minimal opts = true) \/
      ns = bs "wasi:filesystem" /\ lo_wasi_minimal opts = true \/
      ns = bs "wasi:http" /\ is_Some (lo_outbound_http opts) \/
      ns = bs "wasi:sockets" /\ is_Some (lo_outbound_tcp opts))
    (wm_imports (rt_component rt)) /\
  (lo_outbound_http opts = None -> lo_outbound_tcp opts = None -> lo_wasi_minimal opts = false ->
   rt_linked rt = [LkHostApi (rt_version rt)]).
Proof.
  intros [[_ [? [=]]]|(_ & _ & _ & Hc)]%load_spec. apply load_component_spec in Hc as [_ Hb].
  destruct Hb as [_ _ _ Hi [-> _] _ _ _ _]. split_and!.
  - apply linked_granted.
  - eapply Forall_impl; [exact Hi|]. intros name. apply covers_granted.
  - intros Eh Et Ew. unfold linked, lend. by rewrite Eh, Et, Ew.
Qed.

(** A filter runs inline only if nothing it can call blocks.  An inline filter is trusted, is
    dispatched automatically, has no outbound capability, no WASI grant and no outbound runtime, and
    each of its imports is an interface of the contract that answers from memory: the logging,
    clock, configuration and type interfaces, or a state interface over a backend that never
    blocks. *)
Theorem inline_never_blocks (host : Host) (id : bytes) (a : ResolvedArtifact) (opts : LoadOptions IpNet)
    (f : LoadedFilter) (rt : WasmtimeRuntime) (calls : list EngineCall) :
  load host id a opts = (Ok (f, rt), calls) -> lf_runs_inline f = true ->
  is_Some (lf_trusted f) /\ lo_dispatch opts = Auto /\ lo_outbound_http opts = None /\ lo_outbound_tcp opts = None /\
  lo_wasi_minimal opts = false /\ rt_outbound_rt rt = false /\ rt_linked rt = [LkHostApi (rt_version rt)] /\
  Forall (fun name => exists rest, name = FILTER_PREFIX ++ rest /\
      (before "@" rest ∈ NONBLOCKING \/ before "@" rest ∈ BACKED /\ ho_backend_may_block host = false))
    (wm_imports (rt_component rt)).
Proof.
  intros [[_ [? [=]]]|(_ & _ & _ & Hc)]%load_spec. apply load_component_spec in Hc as [_ Hb].
  destruct Hb as [_ _ _ _ [Hl _] [_ Hrt] Hinline Hpool _]. rewrite Hinline. unfold runs_inline, needs_rt.
  rewrite !andb_true_iff, !negb_true_iff, orb_false_iff, !bool_decide_eq_true, !bool_decide_eq_false.
  intros [[[[Hi Hd] Himp] Hw] [Hh Ht]].
  apply eq_None_not_Some in Hh, Ht. split_and!; try done.
  - destruct (lf_trusted f); [by eexists|congruence].
  - rewrite Hrt. unfold needs_rt. by rewrite Hh, Ht.
  - rewrite Hl. unfold linked, lend. by rewrite Hh, Ht, Hw.
  - apply Forall_forall. intros name Hin. apply not_true_iff_false in Himp.
    assert (Hb : blocking_import (ho_backend_may_block host) name = false).
    { apply not_true_iff_false. intros Hb. apply Himp, existsb_exists. exists name. by rewrite <- list_elem_of_In. }
    unfold blocking_import in Hb. destruct (strip_prefix FILTER_PREFIX name) as [rest|] eqn:Es; [|done].
    apply strip_prefix_Some in Es as ->. exists rest. split; [done|].
    destruct (bool_decide (_ ∈ NONBLOCKING)) eqn:E1; [left; by apply bool_decide_eq_true in E1|right].
    destruct (bool_decide (_ ∈ BACKED)) eqn:E2; [|done]. by apply bool_decide_eq_true in E2.
Qed.

(** What the check of a manifest accepts, the loader's gate lets through.  If [plecto validate
    --resolve] reports on a manifest's filters, it reports on each of them in order, and with the
    same keys and files every one of them passes the host's identity-independent gate: the load
    goes on to the engine with exactly the bytes checked, and an engine that compiles, links and
    initialises them loads the filter. *)
Theorem preflight_passes_the_gate (cwd : list bytes) (base_dir : bytes) (keys : list bytes)
    (entries : list FilterEntry) (w : nat -> Fs) (t t' : nat) (checks : list ResolvedFilterCheck) :
  resolve_manifest cwd base_dir keys entries w t = (Ok checks, t') ->
  map rc_id checks = map fe_id entries /\
  exists trust, Forall (fun entry => exists a t1 t2,
      oci_resolve cwd base_dir (fe_source entry) (fe_digest entry) w t1 = (Ok a, t2) /\
      forall host opts, ho_trust host = trust -> fe_id entry <> [] -> KV_NS_DELIM ∉ fe_id entry ->
        load host (fe_id entry) a opts = load_component host (fe_id entry) (ra_component a) opts) entries.
Proof.
  intros (pems & trust & _ & _ & Hall)%resolve_manifest_ok. split.
  { induction Hall as [|entry check entries checks (Hid & _) _ IH]; [done|]. cbn [map]. by rewrite Hid, IH. }
  exists trust. induction Hall as [|entry check entries checks (_ & _ & a & t1 & t2 & Ha & Hv & _) _ IH]; constructor; [|done].
  exists a, t1, t2. split; [done|]. intros host opts Ht Hid Hd. unfold load.
  rewrite (proj2 (bytes_eqb_neq _ _) Hid).
  destruct (contains_byte KV_NS_DELIM (fe_id entry)) eqn:Ec; [by apply contains_byte_spec in Ec|].
  rewrite <- Ht in Hv. by rewrite (proj2 (verify_artifact_spec _ _) Hv).
Qed.
End load.

(** ** A concrete engine: a component is its imports *)

#[local] Existing Instance demo_oci.
#[local] Existing Instance demo_trust.
#[local] Instance demo_wasm : Wasm (Component := list bytes) (IpNet := unit) := {|
  wm_from_binary i component := Some (split_on "," (drop 8 component));
  wm_imports := id;
  wm_add_to_linker l := true;
  wm_instantiate_pre c l := true;
  wm_get_export c name := true;
  wm_instantiate_initialized rt := true;
|}.
Definition demo_host : Host (Key := bytes) := mkHost [bs "other"; bs "key"] false true.
Definition demo_opts : LoadOptions unit := trusted (Some 4).
Definition demo_loaded : result (LoadedFilter * WasmtimeRuntime) LoadError * list EngineCall :=
  load demo_host (bs "f") demo_signed demo_opts.

Lemma load_only_vouched_witness :
  exists f rt calls, demo_loaded = (Ok (f, rt), calls) /\ length calls = 4%nat /\
    vouched (ho_trust demo_host) demo_signed /\ lf_runs_inline f = true.
Proof.
  destruct demo_loaded as [[[f rt]|e] calls] eqn:E; [|by vm_compute in E].
  destruct (load_only_vouched demo_host (bs "f") demo_signed demo_opts (Ok (f, rt)) calls E) as (_ & _ & Hv & _).
  exists f, rt, calls. split; [reflexivity|]. vm_compute in E. injection E as <- <- <-.
  split; [reflexivity|]. split; [exact Hv|reflexivity].
Defined.

Lemma capabilities_granted_witness :
  exists f rt calls, demo_loaded = (Ok (f, rt), calls) /\ rt_linked rt = [LkHostApi (rt_version rt)].
Proof.
  destruct demo_loaded as [[[f rt]|e] calls] eqn:E; [|by vm_compute in E].
  destruct (capabilities_granted demo_host (bs "f") demo_signed demo_opts f rt calls E) as (_ & _ & H).
  exists f, rt, calls. split; [reflexivity|]. apply H; reflexivity.
Defined.

Lemma inline_never_blocks_witness :
  exists f rt calls, demo_loaded = (Ok (f, rt), calls) /\ is_Some (lf_trusted f).
Proof.
  destruct demo_loaded as [[[f rt]|e] calls] eqn:E; [|by vm_compute in E].
  exists f, rt, calls. split; [reflexivity|].
  apply (inline_never_blocks demo_host (bs "f") demo_signed demo_opts f rt calls E).
  vm_compute in E. injection E as <- <- <-. reflexivity.
Defined.

(** An unlisted key, an SBOM of another component and an import nobody granted are each refused,
    the first two before the engine is touched. *)
Example refused_before_the_engine :
  load (mkHost [bs "other"] false true) (bs "f") demo_signed demo_opts = (Err UnverifiedComponentSignature, []) /\
  load demo_host (bs "f") (mkArtifact (bs "x") (bs "keyx") demo_sbom (bs "key" ++ demo_sbom)) demo_opts
    = (Err SbomNotBound, []).
Proof. vm_compute. split; reflexivity. Qed.

Lemma preflight_passes_the_gate_witness :
  exists checks t, resolve_manifest [] (bs "/") [bs "key.pem"] [demo_entry] (fun _ => signed_written.2) 0%nat = (Ok checks, t) /\
    map rc_id checks = [bs "f"].
Proof.
  destruct (resolve_manifest [] (bs "/") [bs "key.pem"] [demo_entry] (fun _ => signed_written.2) 0%nat) as [[checks|e] t] eqn:E;
    [|by vm_compute in E].
  exists checks, t. split; [reflexivity|].
  exact (proj1 (preflight_passes_the_gate [] (bs "/") [bs "key.pem"] [demo_entry] (fun _ => signed_written.2) 0 t checks E)).
Defined.
