(* ===== verification/Loader.v ===== *)
(** * The control plane over the store and the host

    The active configuration's loading step ([load_filters] of control/src/lib.rs) with the artifact
    store and [Host::load] in the place of the platform's own, and what an active filter then is. *)

From S2P Require Import Prelude Bytes Headers Manifest ContentHash Route RouteTable Registry Pool.
From S2P Require Import Contract Filter Control Filesystem Oci Provenance LoadOptions Load.
Section loader.
Context {M : Type} `{HeaderMap M} {F0 C SN T A0 Component IpNet Key World : Type}.
Context (P : Platform M F0 C SN T A0) `{L : OciLib} `{TL : TrustLib Key World}
  `{WM : Wasm (Component := Component) (IpNet := IpNet)}.
Context (parse_cidr : bytes -> option IpNet) (available_parallelism : option Z).
Context (cwd : list bytes) (root : bytes) (w : bytes -> nat -> Fs) (host : Host (Key := Key)).

Notation Loaded := (LoadedFilter * WasmtimeRuntime (Component := Component) (IpNet := IpNet))%type.

Definition store_resolve (source digest : bytes) : option ResolvedArtifact :=
  match (oci_resolve cwd root source digest (w source) 0%nat).1 with Ok a => Some a | Err _ => None end.
Definition host_load (entry : FilterEntry) (a : ResolvedArtifact) (merged : option (gmap bytes bytes)) : option Loaded :=
  match (load host (fe_id entry) a
           (entry_options available_parallelism parse_cidr (pf_features (Platform := P)) entry merged)).1 with
  | Ok f => Some f
  | Err _ => None
  end.

(** The platform whose filters are resolved by the store and loaded by the host. *)
Definition loading_platform : Platform M Loaded C SN T ResolvedArtifact := {|
  pf_features := pf_features (Platform := P);
  pf_cidr_ok cidr := bool_decide (is_Some (parse_cidr cidr));
  pf_value_from_str := pf_value_from_str (Platform := P);
  pf_sha256 := pf_sha256 (Platform := P);
  pf_hex_encode := pf_hex_encode (Platform := P);
  pf_to_json := pf_to_json (Platform := P);
  pf_read_manifest := pf_read_manifest (Platform := P);
  pf_resolve _ := store_resolve;
  pf_load := host_load;
  pf_body_hooks f := body_hooks f.1;
  pf_build_tls := pf_build_tls (Platform := P);
  pf_build_client := pf_build_client (Platform := P);
  pf_parse_sni := pf_parse_sni (Platform := P);
|}.

#[local] Existing Instance loading_platform.

(** An active filter's origin: its entry, the artifact the entry pins, and how it was loaded. *)
Definition originates (disk : Disk) (base_dir : bytes) (entries : list FilterEntry) (id : bytes) (f : Loaded) : Prop :=
  exists entry a merged, entry ∈ entries /\ fe_id entry = id /\ hangs_off (fe_digest entry) a /\
    vouched (ho_trust host) a /\ resolved_config disk base_dir entry = Ok merged /\
    built host id (ra_component a)
      (entry_options available_parallelism parse_cidr (pf_features (Platform := P)) entry merged) f.1 f.2.

Lemma load_filters_originate (disk : Disk) (base_dir : bytes) (entries all : list FilterEntry) (fs0 fs : gmap bytes Loaded) :
  (forall e, e ∈ entries -> e ∈ all) ->
  (forall id f, fs0 !! id = Some f -> originates disk base_dir all id f) ->
  load_filters disk base_dir entries fs0 = Ok fs ->
  forall id f, fs !! id = Some f -> originates disk base_dir all id f.
Proof.
  revert fs0. induction entries as [|entry entries IH]; intros fs0 Hsub H0; cbn [load_filters]; [by intros [= <-]|].
  destruct (pf_resolve _ _ _) as [a|] eqn:Er; [|done]. rewrite res_bind_ok. intros (merged & Hm & E).
  destruct (pf_load _ _ _) as [f|] eqn:El; [|done].
  apply (IH (<[fe_id entry := f]> fs0)); [intros e He; apply Hsub; by right| |done].
  intros id f'. destruct (decide (id = fe_id entry)) as [->|Hne]; [|rewrite lookup_insert_ne by done; apply H0].
  rewrite lookup_insert_eq. intros [= <-]. exists entry, a, merged.
  cbn [pf_resolve loading_platform] in Er. unfold store_resolve in Er. cbn [pf_load loading_platform] in El. unfold host_load in El.
  destruct (oci_resolve _ _ _ _ _ _) as [[a'|] t] eqn:Eo; [|done]. injection Er as ->.
  apply resolve_ok in Eo as (? & ? & ? & _ & _ & _ & _ & Ho%read_layout_ok).
  destruct (load _ _ _ _) as [[f'|] calls] eqn:Eload; [|done]. injection El as ->.
  apply load_spec in Eload as [[_ [? [=]]]|(_ & _ & Hv & Hc)]. apply load_component_spec in Hc as [_ Hb].
  split_and!; [apply Hsub; by left|done|done|done| |by destruct f].
  destruct (resolved_config _ _ _) as [m|]; [|done]. by injection Hm as ->.
Qed.

(** C7: Every filter of an active configuration is pinned, vouched for and held to its grants.
    Whatever the manifest, the disk and the stores' files do meanwhile: if the configuration builds,
    each of its filters comes from an entry of the manifest with its id, from an artifact hanging
    off that entry's digest, whose component a trusted key signs and whose signed SBOM names it,
    and it was loaded from those bytes with the options that entry lowers to. *)
Theorem active_filters_vouched (disk : Disk) (base_dir : bytes) (m : ManifestDoc) (groups groups' : gmap bytes (Group C SN))
    (s s' : Store) (active : ActiveConfig Loaded C SN T) :
  build_active disk base_dir m groups s = (Ok active, groups', s') ->
  forall id f, ac_filters active !! id = Some f -> originates disk base_dir (mf_filters m) id f.
Proof.
  unfold build_active. destruct (prepare _ _ _) as [p|] eqn:Ep; [|done].
  destruct (reconcile _ _ _ _ _) as [[[]  g1] s1]; [|done]. intros [= Eb _ _].
  apply res_bind_ok in Eb as (routes & _ & [= <-]). cbn [ac_filters].
  unfold prepare in Ep. apply res_bind_ok in Ep as (ids & _ & Ep). apply res_bind_ok in Ep as (fs & Hf & Ep).
  assert (pr_filters p = fs) as ->.
  { repeat (apply res_bind_ok in Ep as (? & _ & Ep)). by injection Ep as <-. }
  apply (load_filters_originate disk base_dir (mf_filters m) (mf_filters m) ∅ fs); [done| |done].
  intros id f. by rewrite lookup_empty.
Qed.
End loader.

(** ** A manifest with one signed filter *)

#[local] Existing Instance alist_headers.
#[local] Existing Instance demo_platform.
#[local] Existing Instance demo_oci.
#[local] Existing Instance demo_trust.
#[local] Existing Instance demo_wasm.

Definition loader_manifest : ManifestDoc :=
  mkManifest [bs "key.pem"] (mkState BackendMemory None) [demo_entry] [] [] [] [] None None None None.
Definition demo_loading :=
  loading_platform (M := list (bytes * bytes)) demo_platform (fun _ => Some tt) (Some 4) [] (bs "/")
    (fun _ _ => signed_written.2) demo_host.

Lemma active_filters_vouched_witness :
  exists active groups s f,
    build_active (M := list (bytes * bytes)) (H0 := demo_loading) (fun _ => Some []) (bs "/")
      loader_manifest ∅ (mkStore ∅ 0) = (Ok active, groups, s) /\
    ac_filters active !! bs "f" = Some f /\ lf_id f.1 = bs "f" /\ exists a, vouched (ho_trust demo_host) a.
Proof.
  destruct (build_active _ _ _ _ _) as [[[active|e] groups] s] eqn:E; [|by vm_compute in E].
  destruct (ac_filters active !! bs "f") as [f|] eqn:Ef; [|vm_compute in E; injection E as <- _ _; by vm_compute in Ef].
  exists active, groups, s, f. split; [reflexivity|]. split; [exact Ef|].
  destruct (active_filters_vouched demo_platform (fun _ => Some tt) (Some 4) [] (bs "/") (fun _ _ => signed_written.2)
    demo_host (fun _ => Some []) (bs "/") loader_manifest ∅ groups (mkStore ∅ 0) s active E (bs "f") f Ef)
    as (entry & a & merged & _ & _ & _ & Hv & _ & Hb).
  split; [apply Hb|exists a; exact Hv].
Defined.
