(* ===== verification/UpstreamClients.v ===== *)
(** * The upstream clients (server/src/upstream_client.rs)

    One plain client, and one pooled TLS client per TLS configuration, found by the configuration's
    address.  Addresses are modelled: a configuration is freed once nothing holds it, and its
    address may then be given to another.  Connection pools and the sending of a request are the
    HTTP library's. *)

From S2P Require Import Prelude Bytes.

(** ** Sending *)

Inductive SendErrorKind := SkConnect | SkOther.
Definition is_connect (k : SendErrorKind) : bool := match k with SkConnect => true | SkOther => false end.

(** [send_pooled] over what the library's client gives: a response, or an error that is a connect
    error or not. *)
Definition send_pooled {R : Type} (sent : R + bool) : R + SendErrorKind :=
  match sent with
  | inl response => inl response
  | inr connect => inr (if connect then SkConnect else SkOther)
  end.

(** ** The registry *)

Definition MAX_TLS_CLIENTS : nat := 64.

Section clients.
Context {Cfg SN : Type}.

(** A client is told by what it was built from. *)
Inductive UpstreamClient := Plain | Tls (config : Cfg) (sni : option SN).

Definition build_tls_client (config : Cfg) (sni : option SN) : UpstreamClient := Tls config sni.

(** The cache retains the configuration at each of its addresses. *)
Notation Cache := (gmap nat (Cfg * UpstreamClient)).

Definition read_client (cache : Cache) (key : nat) : option UpstreamClient := snd <$> cache !! key.

(** The part of [for_group] under the write lock: [entry(key).or_insert]. *)
Definition store_client (cache : Cache) (key : nat) (config : Cfg) (built : UpstreamClient) : Cache * UpstreamClient :=
  let map := if (MAX_TLS_CLIENTS <=? size cache)%nat then ∅ else cache in
  match map !! key with
  | Some (_, client) => (map, client)
  | None => (<[key := (config, built)]> map, built)
  end.

(** ** The registry among reloads *)

(** A group has no TLS section, or the address of its configuration and its name override. *)
Definition GroupTls : Type := option (nat * option SN).

(** The live allocations, the groups somebody holds, the calls between their two locks, the cache
    and the answers given: what the asking group's own client is, and what it got. *)
Record Clients := mkClients {
  cl_heap : gmap nat Cfg;
  cl_groups : gmap nat GroupTls;
  cl_pending : gmap nat (nat * option SN);
  cl_cache : Cache;
  cl_answers : list (UpstreamClient * UpstreamClient);
}.

Definition clients_new : Clients := mkClients ∅ ∅ ∅ ∅ [].

(** Nothing refers to an address. *)
Definition unheld (s : Clients) (a : nat) : Prop :=
  (forall g sni, cl_groups s !! g <> Some (Some (a, sni))) /\
  (forall t sni, cl_pending s !! t <> Some (a, sni)) /\ cl_cache s !! a = None.

(** Reloads build groups and drop them; a group of an unchanged section shares the previous one's
    configuration and override. *)
Inductive client_step (s : Clients) : Clients -> Prop :=
| ClBuild g a config sni : cl_groups s !! g = None -> cl_heap s !! a = None ->
    client_step s (mkClients (<[a := config]> (cl_heap s)) (<[g := Some (a, sni)]> (cl_groups s)) (cl_pending s)
      (cl_cache s) (cl_answers s))
| ClPlain g : cl_groups s !! g = None ->
    client_step s (mkClients (cl_heap s) (<[g := None]> (cl_groups s)) (cl_pending s) (cl_cache s) (cl_answers s))
| ClShare g g' tls : cl_groups s !! g = Some tls -> cl_groups s !! g' = None ->
    client_step s (mkClients (cl_heap s) (<[g' := tls]> (cl_groups s)) (cl_pending s) (cl_cache s) (cl_answers s))
| ClDrop g :
    client_step s (mkClients (cl_heap s) (delete g (cl_groups s)) (cl_pending s) (cl_cache s) (cl_answers s))
| ClFree a : unheld s a ->
    client_step s (mkClients (delete a (cl_heap s)) (cl_groups s) (cl_pending s) (cl_cache s) (cl_answers s))
| ClAskPlain g : cl_groups s !! g = Some None ->
    client_step s (mkClients (cl_heap s) (cl_groups s) (cl_pending s) (cl_cache s) (cl_answers s ++ [(Plain, Plain)]))
| ClHit g a sni config client : cl_groups s !! g = Some (Some (a, sni)) -> cl_heap s !! a = Some config ->
    read_client (cl_cache s) a = Some client ->
    client_step s (mkClients (cl_heap s) (cl_groups s) (cl_pending s) (cl_cache s)
      (cl_answers s ++ [(build_tls_client config sni, client)]))
| ClMiss t g a sni : cl_groups s !! g = Some (Some (a, sni)) -> cl_pending s !! t = None ->
    read_client (cl_cache s) a = None ->
    client_step s (mkClients (cl_heap s) (cl_groups s) (<[t := (a, sni)]> (cl_pending s)) (cl_cache s) (cl_answers s))
| ClStore t a sni config cache client : cl_pending s !! t = Some (a, sni) -> cl_heap s !! a = Some config ->
    store_client (cl_cache s) a config (build_tls_client config sni) = (cache, client) ->
    client_step s (mkClients (cl_heap s) (cl_groups s) (delete t (cl_pending s)) cache
      (cl_answers s ++ [(build_tls_client config sni, client)])).

(** ** Whose client a group gets *)

(** Each live address has one override, shared by its holders and by the client cached for it. *)
Record clients_ok (s : Clients) (over : gmap nat (option SN)) : Prop := {
  ok_groups g a sni : cl_groups s !! g = Some (Some (a, sni)) -> is_Some (cl_heap s !! a) /\ over !! a = Some sni;
  ok_pending t a sni : cl_pending s !! t = Some (a, sni) -> is_Some (cl_heap s !! a) /\ over !! a = Some sni;
  ok_cache a config client : cl_cache s !! a = Some (config, client) ->
    cl_heap s !! a = Some config /\ exists sni, over !! a = Some sni /\ client = build_tls_client config sni;
  ok_size : (size (cl_cache s) <= MAX_TLS_CLIENTS)%nat;
  ok_answers : Forall (fun p => p.1 = p.2) (cl_answers s);
}.

Lemma store_client_spec cache key config built cache' client : store_client cache key config built = (cache', client) ->
  (forall a e, cache' !! a = Some e -> cache !! a = Some e \/ a = key /\ e = (config, built)) /\
  (client = built \/ exists config', cache !! key = Some (config', client)) /\
  ((size cache <= MAX_TLS_CLIENTS)%nat -> (size cache' <= MAX_TLS_CLIENTS)%nat).
Proof.
  unfold store_client. destruct (Nat.leb_spec MAX_TLS_CLIENTS (size cache)) as [Hfull|Hroom].
  - rewrite lookup_empty. intros [= <- <-]. split_and!; [|by left|].
    + intros a e. destruct (decide (a = key)) as [->|Hne]; [rewrite lookup_insert_eq; intros [= <-]; by right|].
      by rewrite lookup_insert_ne, lookup_empty by done.
    + intros _. rewrite insert_empty, map_size_singleton. unfold MAX_TLS_CLIENTS. lia.
  - destruct (cache !! key) as [[config' client']|] eqn:E; intros [= <- <-].
    + split_and!; [by left|right; by exists config'|done].
    + split_and!; [|by left|rewrite map_size_insert_None by done; lia].
      intros a e. destruct (decide (a = key)) as [->|Hne]; [rewrite lookup_insert_eq; intros [= <-]; by right|].
      rewrite lookup_insert_ne by done. by left.
Qed.

Lemma clients_step_ok s t over : client_step s t -> clients_ok s over -> exists over', clients_ok t over'.
Proof.
  intros Hst [Hg Hp Hc Hs Ha]. destruct Hst as [g a config sni Hnew Hfree|g Hnew|g g' tls Hg0 Hnew|g|a (Hug & Hup & Huc)
    |g Hg0|g a sni config client Hg0 Hh Hr|th g a sni Hg0 Hp0 Hr|th a sni config cache client Hp0 Hh Hstore].
  - exists (<[a := sni]> over). assert (Hfresh : forall b (P : Prop), is_Some (cl_heap s !! b) -> (b <> a -> P) -> P).
    { intros b P [x Hx] HP. apply HP. intros ->. by rewrite Hfree in Hx. }
    split; cbn; try done.
    + intros g' a' sni'. destruct (decide (g' = g)) as [->|Hne].
      * rewrite lookup_insert_eq. intros [= <- <-]. by rewrite !lookup_insert_eq.
      * rewrite lookup_insert_ne by done. intros H. destruct (Hg _ _ _ H) as [Hl Ho].
        apply (Hfresh a' _ Hl). intros Hne'. by rewrite !lookup_insert_ne by done.
    + intros t' a' sni' H. destruct (Hp _ _ _ H) as [Hl Ho]. apply (Hfresh a' _ Hl). intros Hne'.
      by rewrite !lookup_insert_ne by done.
    + intros a' c' cl' H. destruct (Hc _ _ _ H) as [Hl Ho]. apply (Hfresh a'); [by eexists|]. intros Hne'.
      by rewrite !lookup_insert_ne by done.
  - exists over. split; cbn; try done. intros g' a' sni'. destruct (decide (g' = g)) as [->|Hne];
      [by rewrite lookup_insert_eq|rewrite lookup_insert_ne by done; apply Hg].
  - exists over. split; cbn; try done. intros g1 a' sni'. destruct (decide (g1 = g')) as [->|Hne];
      [rewrite lookup_insert_eq; intros [= ->]; by apply (Hg g)|rewrite lookup_insert_ne by done; apply Hg].
  - exists over. split; cbn; try done. intros g' a' sni' [_ H]%lookup_delete_Some. by apply (Hg g').
  - exists over. assert (Hne : forall b, is_Some (cl_heap s !! b) -> b <> a -> is_Some (delete a (cl_heap s) !! b))
      by (intros b Hb Hn; by rewrite lookup_delete_ne).
    split; cbn; try done.
    + intros g' a' sni' H. destruct (Hg _ _ _ H). split; [|done]. apply Hne; [done|]. intros ->. by apply (Hug g' sni').
    + intros t' a' sni' H. destruct (Hp _ _ _ H). split; [|done]. apply Hne; [done|]. intros ->. by apply (Hup t' sni').
    + intros a' c' cl' H. destruct (Hc _ _ _ H) as [Hl Ho]. split; [|done].
      rewrite lookup_delete_ne; [done|]. intros ->. by rewrite Huc in H.
  - exists over. split; cbn; try done. apply Forall_app. split; [done|by apply Forall_singleton].
  - exists over. split; cbn; try done. apply Forall_app. split; [done|]. apply Forall_singleton. cbn.
    unfold read_client in Hr. destruct (cl_cache s !! a) as [[config' client']|] eqn:E; [|done]. injection Hr as <-.
    destruct (Hc _ _ _ E) as [Hh' (sni' & Ho & ->)]. destruct (Hg _ _ _ Hg0) as [_ Ho']. by simplify_eq.
  - exists over. split; cbn; try done. intros t' a' sni'. destruct (decide (t' = th)) as [->|Hne];
      [rewrite lookup_insert_eq; intros [= <- <-]; by apply (Hg g)|rewrite lookup_insert_ne by done; apply Hp].
  - exists over. destruct (store_client_spec _ _ _ _ _ _ Hstore) as (Hin & Hcl & Hsz).
    destruct (Hp _ _ _ Hp0) as [_ Ho]. split; cbn; try done.
    + intros t' a' sni' [_ H]%lookup_delete_Some. by apply (Hp t').
    + intros a' c' cl' H. destruct (Hin _ _ H) as [H'|[-> [= -> ->]]]; [by apply Hc|]. split; [done|by exists sni].
    + by apply Hsz.
    + apply Forall_app. split; [done|]. apply Forall_singleton. cbn. destruct Hcl as [->|[config' E]]; [done|].
      destruct (Hc _ _ _ E) as [Hh' (sni' & Ho' & ->)]. by simplify_eq.
Qed.

(** A request is sent under its own upstream's security context.  However reloads build, share
    and drop configurations, however the allocator reuses their addresses, and however lookups race
    to fill the cache: every client handed to a group is the plain one if it has no TLS section and
    otherwise one built from exactly its own configuration and name override, and at most 64
    configurations are retained. *)
Theorem client_of_own_context (s : Clients) : rtc client_step clients_new s ->
  Forall (fun p => p.1 = p.2) (cl_answers s) /\ (size (cl_cache s) <= MAX_TLS_CLIENTS)%nat.
Proof.
  intros Hr. assert (H0 : exists over, clients_ok clients_new over) by (exists ∅; split; cbn; done || (rewrite map_size_empty; lia)).
  cut (exists over, clients_ok s over); [intros [over [_ _ _ Hs Ha]]; done|].
  revert H0. induction Hr as [|x y z Hxy _ IH]; [done|]. intros [over Hx]. apply IH. by eapply clients_step_ok.
Qed.
End clients.

#[local] Open Scope nat_scope.

(** One reload: a configuration is cached and its group dropped while the cache retains it; the next
    configuration goes elsewhere. *)
Definition cached_old : Clients (Cfg := nat) (SN := nat) := mkClients (<[7:=100]> ∅) ∅ (delete 0 (<[0:=(7, None)]> ∅))
  (<[7:=(100, build_tls_client 100 None)]> ∅) [(build_tls_client 100 None, build_tls_client 100 None)].
Definition cached_both : Clients (Cfg := nat) (SN := nat) := mkClients (<[8:=200]> (<[7:=100]> ∅)) (<[2:=Some (8, Some 5)]> ∅)
  (delete 0 (<[0:=(8, Some 5)]> (delete 0 (<[0:=(7, None)]> ∅))))
  (<[8:=(200, build_tls_client 200 (Some 5))]> (<[7:=(100, build_tls_client 100 None)]> ∅))
  (cl_answers cached_old ++ [(build_tls_client 200 (Some 5), build_tls_client 200 (Some 5))]).

Lemma client_of_own_context_witness : rtc client_step clients_new cached_both /\ length (cl_answers cached_both) = 2 /\
  Forall (fun p => p.1 = p.2) (cl_answers cached_both).
Proof.
  assert (H : rtc client_step clients_new cached_both).
  { transitivity cached_old.
    - eapply rtc_l; [by apply (ClBuild _ 1 7 100 None)|]. eapply rtc_l; [by apply (ClMiss _ 0 1 7 None)|].
      eapply rtc_l; [apply (ClStore _ 0 7 None 100 (cl_cache cached_old) (build_tls_client 100 None)); by vm_compute|].
      exact (rtc_once _ _ (ClDrop _ 1)).
    - eapply rtc_l; [by apply (ClBuild _ 2 8 200 (Some 5))|].
      eapply rtc_l; [by apply (ClMiss _ 0 2 8 (Some 5))|].
      refine (rtc_once _ _ (ClStore _ 0 8 (Some 5) 200 (cl_cache cached_both) (build_tls_client 200 (Some 5)) _ _ _)); by vm_compute. }
  split; [exact H|]. split; [reflexivity|]. exact (proj1 (client_of_own_context cached_both H)).
Defined.
