(* ===== verification/Tunnel.v ===== *)
(** * Upgrade tunnels (server/src/tunnel.rs)

    After a [101] the proxy copies bytes both ways until a side closes, nothing has moved for the
    idle timeout, or the server drains.  The copy itself is the runtime's: it reads and writes
    through the wrapper, and writes only what it has read.  Time is in nanoseconds since the
    relay's start; the activity stamp is in whole milliseconds, as the code keeps it. *)

From S2P Require Import Prelude.

Definition NS_PER_MS : Z := 1000000.

(** ** The wrapper around each stream *)

(** Up is client to upstream: read off [a], written to [b]. *)
Inductive Dir := Up | Down.

Inductive Poll := PollReady (n : Z) | PollErr | PollPending.

(** The two tallies and the stamp are shared cells; [sp_wake] is the watchdog's timer. *)
Record Splice := mkSplice {
  sp_now : Z;
  sp_last_activity : Z;
  sp_up_bytes : Z;
  sp_down_bytes : Z;
  sp_wake : option Z;
}.

Definition mark (s : Splice) : Splice :=
  mkSplice (sp_now s) (wrap64 (sp_now s / NS_PER_MS)) (sp_up_bytes s) (sp_down_bytes s) (sp_wake s).

(** [ActivityIo::poll_read] on the side the direction starts from. *)
Definition poll_read (d : Dir) (p : Poll) (s : Splice) : Splice :=
  match p with
  | PollReady n =>
    if 0 <? n then
      let s := mark s in
      let count (d' : Dir) (c : Z) := match d, d' with Up, Up | Down, Down => wrap64 (c + n) | _, _ => c end in
      mkSplice (sp_now s) (sp_last_activity s) (count Up (sp_up_bytes s)) (count Down (sp_down_bytes s)) (sp_wake s)
    else s
  | _ => s
  end.

(** [ActivityIo::poll_write] on the side the direction ends at. *)
Definition poll_write (p : Poll) (s : Splice) : Splice :=
  match p with
  | PollReady n => if 0 <? n then mark s else s
  | _ => s
  end.

(** ** The idle watchdog *)

(** One turn of [idle_elapsed]'s loop: it returns, or sleeps that long. *)
Definition idle_check (idle : Z) (s : Splice) : option Z :=
  let last := sp_last_activity s * NS_PER_MS in
  let since := saturating_sub (sp_now s) last in
  if idle <=? since then None else Some (idle - since).

Definition set_wake (w : option Z) (s : Splice) : Splice :=
  mkSplice (sp_now s) (sp_last_activity s) (sp_up_bytes s) (sp_down_bytes s) w.

Definition set_now (now : Z) (s : Splice) : Splice :=
  mkSplice now (sp_last_activity s) (sp_up_bytes s) (sp_down_bytes s) (sp_wake s).

(** The watchdog is first polled at the start; without a timeout it never wakes. *)
Definition splice_new (idle : option Z) : Splice :=
  mkSplice 0 0 0 0 (match idle with Some _ => Some 0 | None => None end).

(** ** The wire *)

(** What an observer of the two streams records, whatever the wrapper does: the bytes taken off and
    put on them, and when one last moved. *)
Record Wire := mkWire { wr_last : Z; wr_read : Dir -> Z; wr_written : Dir -> Z }.

Definition wire_new : Wire := mkWire 0 (fun _ => 0) (fun _ => 0).

(** The bytes an operation on a stream moved. *)
Definition moved (p : Poll) : Z := match p with PollReady n => Z.max n 0 | PollErr | PollPending => 0 end.

Definition bump (f : Dir -> Z) (d : Dir) (n : Z) : Dir -> Z :=
  fun d' => match d, d' with Up, Up | Down, Down => f d' + n | _, _ => f d' end.

Definition stamp (now : Z) (p : Poll) (w : Wire) : Z :=
  if bool_decide (moved p = 0) then wr_last w else now.

Definition saw_read (now : Z) (d : Dir) (p : Poll) (w : Wire) : Wire :=
  mkWire (stamp now p w) (bump (wr_read w) d (moved p)) (wr_written w).

Definition saw_write (now : Z) (d : Dir) (p : Poll) (w : Wire) : Wire :=
  mkWire (stamp now p w) (wr_read w) (bump (wr_written w) d (moved p)).

(** ** The relay *)

Section splice.
(** The timeout, and how late the runtime may poll a timer that has elapsed. *)
Context (idle : option Z) (lateness : Z).

(** The wrapper beside the observer of its streams. *)
Inductive splice_step : Splice * Wire -> Splice * Wire -> Prop :=
| SpTime s w now : sp_now s <= now -> (forall t, sp_wake s = Some t -> now <= t + lateness) ->
    splice_step (s, w) (set_now now s, w)
| SpRead s w d p : splice_step (s, w) (poll_read d p s, saw_read (sp_now s) d p w)
| SpWrite s w d p : moved p <= wr_read w d - wr_written w d ->
    splice_step (s, w) (poll_write p s, saw_write (sp_now s) d p w)
| SpSleep s w i t sleep : idle = Some i -> sp_wake s = Some t -> t <= sp_now s -> idle_check i s = Some sleep ->
    splice_step (s, w) (set_wake (Some (sp_now s + sleep)) s, w).

(** The relay's end, by the branch of the [select!]: the copy returned (all it read is written if
    it succeeded), the watchdog returned, or the drain flag flipped. *)
Inductive Close := ByCopy (ok : bool) | ByIdle | ByDrain.

Inductive splice_ends : Splice * Wire -> Close -> Prop :=
| EndCopied s w : (forall d, wr_written w d = wr_read w d) -> splice_ends (s, w) (ByCopy true)
| EndFailed s w : splice_ends (s, w) (ByCopy false)
| EndIdle s w i t : idle = Some i -> sp_wake s = Some t -> t <= sp_now s -> idle_check i s = None ->
    splice_ends (s, w) ByIdle
| EndDrained s w : splice_ends (s, w) ByDrain.

(** [splice]'s result: [(down, up)]. *)
Definition splice_result (s : Splice) : Z * Z := (sp_down_bytes s, sp_up_bytes s).

(** [run]: the drain flag flipped first, or both halves resolved. *)
Definition run (joined : option (bool * bool)) (spliced : Z * Z) : Z * Z :=
  match joined with
  | None => (0, 0)
  | Some (true, true) => spliced
  | Some _ => (0, 0)
  end.

(** ** Invariant *)

Record splice_ok (s : Splice) (w : Wire) : Prop := {
  so_clock : 0 <= sp_now s;
  so_stamp : sp_last_activity s * NS_PER_MS <= wr_last w <= sp_now s;
  so_fresh : sp_now s < 2 ^ 64 * NS_PER_MS -> wr_last w < sp_last_activity s * NS_PER_MS + NS_PER_MS;
  so_wake t i : sp_wake s = Some t -> idle = Some i -> t <= wr_last w + i /\ sp_now s <= t + lateness;
  so_armed i : idle = Some i -> is_Some (sp_wake s);
  so_order d : 0 <= wr_written w d <= wr_read w d;
  so_up : sp_up_bytes s = wrap64 (wr_read w Up);
  so_down : sp_down_bytes s = wrap64 (wr_read w Down);
}.

Lemma stamp_bounds now : 0 <= now -> wrap64 (now / NS_PER_MS) * NS_PER_MS <= now /\
  (now < 2 ^ 64 * NS_PER_MS -> now < wrap64 (now / NS_PER_MS) * NS_PER_MS + NS_PER_MS).
Proof.
  intros H0. unfold wrap64, NS_PER_MS. pose proof (Z.div_pos now 1000000 H0 ltac:(lia)) as Hq.
  pose proof (Z.mod_le (now / 1000000) (2 ^ 64) Hq ltac:(lia)). pose proof (Z.mul_div_le now 1000000 ltac:(lia)).
  split; [nia|]. intros Hlt. rewrite Z.mod_small by (split; [done|apply Z.div_lt_upper_bound; lia]).
  pose proof (Z.mod_pos_bound now 1000000 ltac:(lia)). pose proof (Z.div_mod now 1000000 ltac:(lia)). lia.
Qed.

Lemma wrap64_bump f d d' n : wrap64 (bump f d n d') =
  match d, d' with Up, Up | Down, Down => wrap64 (wrap64 (f d') + n) | _, _ => wrap64 (f d') end.
Proof. destruct d, d'; cbn; try done; unfold wrap64; by rewrite Zplus_mod_idemp_l. Qed.

Lemma bump_0 f d d' : bump f d 0 d' = f d'.
Proof. destruct d, d'; cbn; lia. Qed.

Lemma moved_nonneg p : 0 <= moved p.
Proof. destruct p; cbn; lia. Qed.

(** Nothing moved: the wrapper does nothing either. *)
Lemma still d p s : moved p = 0 -> poll_read d p s = s /\ poll_write p s = s.
Proof.
  destruct p as [n| |]; cbn [moved poll_read poll_write]; [|done..]. intros Hn.
  destruct (Z.ltb_spec 0 n); [lia|done].
Qed.

Lemma splice_ok_ext s w w' : wr_last w' = wr_last w -> (forall d, wr_read w' d = wr_read w d) ->
  (forall d, wr_written w' d = wr_written w d) -> splice_ok s w -> splice_ok s w'.
Proof.
  intros E Er Ew [Hn Hs Hf Hw Ha Ho Hu Hd]. split; rewrite ?E, ?Er; try done.
  intros d. rewrite Er, Ew. apply Ho.
Qed.

Lemma splice_step_ok s w s' w' : 0 <= lateness -> splice_step (s, w) (s', w') -> splice_ok s w -> splice_ok s' w'.
Proof.
  intros Hlate Hst Hok. pose proof (stamp_bounds (sp_now s) (so_clock _ _ Hok)) as [Hb1 Hb2].
  inversion Hst as [? ? now Hle Hwake|? ? d p|? ? d p Hp|? ? i t sleep Hid Hwk Hdue Hchk]; simplify_eq.
  - destruct Hok as [Hn Hs Hf Hw Ha Ho Hu Hd]. split; cbn; [lia|lia| | |done..].
    + intros Hlt. apply Hf. lia.
    + intros t i Ht Hid. destruct (Hw t i Ht Hid). split; [done|by apply Hwake].
  - destruct (decide (moved p = 0)) as [Hm|Hm].
    { rewrite (proj1 (still d p s Hm)). unfold saw_read, stamp. rewrite bool_decide_true, Hm by done.
      apply (splice_ok_ext s w); [done|intros d'; exact (bump_0 _ d d')|done|done]. }
    unfold saw_read, stamp. rewrite bool_decide_false by done.
    destruct p as [n| |]; cbn [moved] in *; [|done..]. unfold poll_read. destruct (Z.ltb_spec 0 n); [|lia].
    destruct Hok as [Hn Hs Hf Hw Ha Ho Hu Hd]. rewrite Z.max_l by lia. split; cbn; [lia|lia|done| |done| | |].
    + intros t i Ht Hid. destruct (Hw t i Ht Hid). lia.
    + intros d'. specialize (Ho d'). destruct d, d'; cbn; lia.
    + rewrite wrap64_bump, <- Hu. by destruct d.
    + rewrite wrap64_bump, <- Hd. by destruct d.
  - destruct (decide (moved p = 0)) as [Hm|Hm].
    { rewrite (proj2 (still d p s Hm)). unfold saw_write, stamp. rewrite bool_decide_true, Hm by done.
      apply (splice_ok_ext s w); [done|done|intros d'; exact (bump_0 _ d d')|done]. }
    unfold saw_write, stamp. rewrite bool_decide_false by done. pose proof (moved_nonneg p).
    destruct p as [n| |]; cbn [moved] in *; [|done..]. unfold poll_write. destruct (Z.ltb_spec 0 n); [|lia].
    destruct Hok as [Hn Hs Hf Hw Ha Ho Hu Hd]. split; cbn; [lia|lia|done| |done| |done|done].
    + intros t i Ht Hid. destruct (Hw t i Ht Hid). lia.
    + intros d'. pose proof (Ho d'). pose proof (Ho d). destruct d, d'; cbn; lia.
  - destruct Hok as [Hn Hs Hf Hw Ha Ho Hu Hd]. split; cbn; [done|done|done| |by eexists|done..].
    intros t' i' [= <-] Hid'. simplify_eq.
    unfold idle_check, saturating_sub in Hchk. case_match; [done|]. bools. injection Hchk as <-. lia.
Qed.

Lemma splice_reachable s w : (forall i, idle = Some i -> 0 <= i) -> 0 <= lateness ->
  rtc splice_step (splice_new idle, wire_new) (s, w) -> splice_ok s w.
Proof.
  intros Hi Hl Hr.
  assert (H0 : splice_ok (splice_new idle) wire_new).
  { split; cbn; try done.
    - by destruct idle as [i'|]; [|done]; intros t i [= <-] [= <-]; specialize (Hi _ eq_refl); lia.
    - by intros i ->. }
  enough (Hg : forall x y, rtc splice_step x y -> splice_ok x.1 x.2 -> splice_ok y.1 y.2)
    by exact (Hg _ _ Hr H0).
  induction 1 as [|[s1 w1] [s2 w2] y Hxy _ IH]; [done|]. intros Hx. by apply IH, (splice_step_ok s1 w1).
Qed.

(** C35: An upgrade tunnel's idle timer is an inactivity timer in both senses, against an
    observer who stamps every byte moved, read or written, in either direction.  While the tunnel
    lives, no more than the timeout (and the runtime's lateness in polling a timer) has passed since
    a byte last moved, so an abandoned tunnel cannot hold its permits; and when the timer does close
    a tunnel, no byte has moved for the timeout, less the stamp's rounding of under a
    millisecond. *)
Theorem idle_timer_exact (i : Z) (s : Splice) (w : Wire) : idle = Some i -> 0 <= i -> 0 <= lateness ->
  rtc splice_step (splice_new idle, wire_new) (s, w) ->
  sp_now s <= wr_last w + i + lateness /\
  (splice_ends (s, w) ByIdle -> sp_now s < 2 ^ 64 * NS_PER_MS -> i - NS_PER_MS < sp_now s - wr_last w).
Proof.
  intros Hid Hi Hl Hr. assert (Hpos : forall i', idle = Some i' -> 0 <= i') by (intros i' E; simplify_eq; done).
  destruct (splice_reachable s w Hpos Hl Hr) as [Hn Hs Hf Hw Ha _ _ _]. split.
  - destruct (Ha i Hid) as [t Ht]. destruct (Hw t i Ht Hid). lia.
  - intros Hend Hlt. inversion Hend as [| |? ? i' t Hid' Ht Hdue Hchk|]; simplify_eq. specialize (Hf Hlt).
    unfold idle_check, saturating_sub in Hchk. case_match; [|done]. bools. lia.
Qed.

(** The tallies are of what was read: all of it was written only if the copy itself returned. *)
Lemma tallies_of_reads (s : Splice) (w : Wire) (c : Close) : (forall i, idle = Some i -> 0 <= i) -> 0 <= lateness ->
  rtc splice_step (splice_new idle, wire_new) (s, w) -> splice_ends (s, w) c ->
  splice_result s = (wrap64 (wr_read w Down), wrap64 (wr_read w Up)) /\
  (forall d, wr_written w d <= wr_read w d) /\
  (c = ByCopy true -> splice_result s = (wrap64 (wr_written w Down), wrap64 (wr_written w Up))).
Proof.
  intros Hi Hl Hr He. destruct (splice_reachable s w Hi Hl Hr) as [_ _ _ _ _ Ho Hu Hd].
  unfold splice_result. rewrite Hu, Hd.
  split_and!; [done|apply Ho|]. intros ->. inversion He as [? ? Hall| | |]; simplify_eq. by rewrite !Hall.
Qed.
End splice.

(** A tunnel of 50 ms: a byte read from upstream at 10 ms and one written at 30.9 ms, stamped as
    30 ms; the watchdog armed for 50 ms sleeps again until 80 ms and then closes it, 49.1 ms after
    the write. *)
Definition idle_start : Splice := set_wake (Some 50000000) (splice_new (Some 50000000)).
Definition idle_read : Splice := poll_read Down (PollReady 3) (set_now 10000000 idle_start).
Definition idle_written : Splice := poll_write (PollReady 3) (set_now 30900000 idle_read).
Definition idle_end : Splice := set_now 80000000 (set_wake (Some 80000000) (set_now 50000000 idle_written)).
Definition idle_wire : Wire :=
  saw_write 30900000 Down (PollReady 3) (saw_read 10000000 Down (PollReady 3) wire_new).

Lemma idle_timer_exact_witness :
  rtc (splice_step (Some 50000000) 1000000) (splice_new (Some 50000000), wire_new) (idle_end, idle_wire) /\
  splice_ends (Some 50000000) (idle_end, idle_wire) ByIdle /\ sp_now idle_end - wr_last idle_wire = 49100000 /\
  sp_now idle_end <= wr_last idle_wire + 50000000 + 1000000.
Proof.
  assert (H : rtc (splice_step (Some 50000000) 1000000) (splice_new (Some 50000000), wire_new) (idle_end, idle_wire)).
  { eapply rtc_l; [by apply (SpSleep _ _ _ _ 50000000 0 50000000)|].
    eapply rtc_l; [apply (SpTime _ _ _ _ 10000000); [done|by intros t [= <-]]|].
    eapply rtc_l; [apply (SpRead _ _ _ _ Down (PollReady 3))|].
    eapply rtc_l; [apply (SpTime _ _ _ _ 30900000); [done|by intros t [= <-]]|].
    eapply rtc_l; [by apply (SpWrite _ _ _ _ Down (PollReady 3))|].
    eapply rtc_l; [apply (SpTime _ _ _ _ 50000000); [done|by intros t [= <-]]|].
    eapply rtc_l; [by apply (SpSleep _ _ _ _ 50000000 50000000 30000000)|].
    apply rtc_once, (SpTime _ _ _ _ 80000000); [done|by intros t [= <-]]. }
  split; [exact H|]. split; [by apply (EndIdle _ _ _ 50000000 80000000)|]. split; [reflexivity|].
  exact (proj1 (idle_timer_exact (Some 50000000) 1000000 50000000 idle_end idle_wire eq_refl ltac:(done) ltac:(done) H)).
Defined.

(** A drain between a read and its write: three bytes are reported as relayed upstream, none was
    written there. *)
Example cut_tunnel_overcounts :
  let s := poll_read Up (PollReady 3) (splice_new None) in let w := saw_read 0 Up (PollReady 3) wire_new in
  rtc (splice_step None 0) (splice_new None, wire_new) (s, w) /\ splice_ends None (s, w) ByDrain /\
  splice_result s = (0, 3) /\ wr_written w Up = 0.
Proof. cbv zeta. split_and!; [apply rtc_once; exact (SpRead None 0 (splice_new None) wire_new Up (PollReady 3))|constructor|done|done]. Qed.
