(* ===== verification/H3.v ===== *)
(** * HTTP/3 requests (server/src/h3/body.rs, request.rs)

    The request's body adapter, which holds the stream to its declared length, and the request's
    handling: the transaction core in between, and the response relayed on the send half.  QUIC
    and the h3 library are the environment: what the receive half delivers, and which sends
    succeed. *)

From S2P Require Import Prelude Bytes Ssrf Paths Weighted RateLimit Chain Headers Manifest Upstream.
From S2P Require Import Balancer Registry Route RouteTable Control Forward Compression Body Respond Transaction.

(** ** The request body *)

(** What [poll_recv_data] is ready with. *)
Inductive Recv := RecvData (data : bytes) | RecvEnd | RecvErr.

Section request_body.
Context {T : Type}.
Notation Stream := (list (option (Frame T))).

(** [H3ReqBody::poll_frame]: [remaining] is what the declared length leaves. *)
Definition h3_poll_frame (remaining : option Z) (recv : Recv) : Poll T * option Z :=
  match recv with
  | RecvData data =>
    match remaining with
    | Some rest =>
      if rest <? blen data then (PollError, Some rest) else (PollFrame (Data data), Some (rest - blen data))
    | None => (PollFrame (Data data), None)
    end
  | RecvEnd => match remaining with Some n => if n =? 0 then (PollEnd, Some n) else (PollError, Some n) | None => (PollEnd, None) end
  | RecvErr => (PollError, remaining)
  end.

(** The stream its consumer sees, of a receive half that delivers these and then ends, or fails at
    a [None]. *)
Fixpoint h3_body (remaining : option Z) (recv : list (option bytes)) : Stream :=
  let next := match recv with [] => RecvEnd | Some data :: _ => RecvData data | None :: _ => RecvErr end in
  match h3_poll_frame remaining next, recv with
  | (PollFrame f, remaining), _ :: recv => Some f :: h3_body remaining recv
  | (PollFrame f, _), [] => [Some f]
  | (PollEnd, _), _ => []
  | (PollError, _), _ => [None]
  end.

Definition h3_size_hint (remaining : option Z) : Z * option Z :=
  match remaining with Some n => (n, Some n) | None => (0, None) end.
End request_body.

Section declared.
Context {M : Type} `{HeaderMap M}.

Fixpoint declared_loop (values : list bytes) (declared : option Z) : option (option Z) :=
  match values with
  | [] => Some declared
  | value :: values =>
    match to_str value with
    | None => None
    | Some s =>
      match parse_u64 (trim s) with
      | None => None
      | Some parsed =>
        match declared with
        | None => declared_loop values (Some parsed)
        | Some existing => if existing =? parsed then declared_loop values declared else None
        end
      end
    end
  end.

Definition declared_content_length (m : M) : option (option Z) := declared_loop (hm_get_all m CONTENT_LENGTH) None.
End declared.

(** ** The response *)

Inductive Sent (M T : Type) := SentHead (status : Z) (headers : M) | SentData (data : bytes) | SentTrailers (t : T) | SentFinish.
Arguments SentHead {M T}.
Arguments SentData {M T}.
Arguments SentTrailers {M T}.
Arguments SentFinish {M T}.

Section response.
Context {M T : Type}.
(** Which of the sends, counted from the head, succeed. *)
Context (sends : nat -> bool).

(** The frame loop: what is put on the stream, and whether it ended without a send error. *)
Fixpoint h3_relay (body : list (option (Frame T))) (i : nat) : list (Sent M T) * bool :=
  match body with
  | Some (Data data) :: body =>
    if sends i then let '(sent, ok) := h3_relay body (S i) in (SentData data :: sent, ok) else ([], false)
  | Some (Trailers t) :: _ =>
    if sends i then (SentTrailers t :: if sends (S i) then [SentFinish] else [], sends (S i)) else ([], false)
  | None :: _ => ([], true)
  | [] => if sends i then ([SentFinish], true) else ([], false)
  end.

Definition h3_respond (status : Z) (headers : M) (body : list (option (Frame T))) : list (Sent M T) * bool :=
  if sends 0%nat then let '(sent, ok) := h3_relay body 1 in (SentHead status headers :: sent, ok) else ([], false).
End response.

(** The frames of a response as its consumer sees them. *)
Definition response_frames {E T} `{Codec E} (b : RespBody E T) : list (option (Frame T)) :=
  match b with
  | Plain frames => frames
  | Compressed b =>
    match drive (length (cb_inner b) + 2) b with
    | Some (frames, clean) => map Some frames ++ (if clean then [] else [None])
    | None => [None]
    end
  end.

(** ** Lemmas *)

Section bodies.
Context {M : Type} `{HeaderMap M} {T : Type}.
Notation Stream := (list (option (Frame T))).

(** All that arrives, of a receive half that does not fail. *)
Definition arrived (recv : list (option bytes)) : option bytes := @concat ascii <$> mapM id recv.

#[local] Arguments arrived : simpl never.

Lemma arrived_cons data recv : arrived (Some data :: recv) = app data <$> arrived recv.
Proof. unfold arrived. cbn. by destruct (mapM id recv). Qed.

Lemma h3_body_unbounded recv :
  stream_fails (h3_body (T := T) None recv) = bool_decide (arrived recv = None) /\
  (forall b, arrived recv = Some b -> stream_data (h3_body (T := T) None recv) = b).
Proof.
  induction recv as [|[data|] recv [IHf IHd]]; cbn; [by split; [|intros b [= <-]]| |done].
  rewrite arrived_cons. destruct (arrived recv) as [b|]; cbn in *; [|done]. split; [done|].
  intros b' [= <-]. by rewrite (IHd b).
Qed.

Lemma h3_body_bounded recv n : 0 <= n ->
  blen (stream_data (h3_body (T := T) (Some n) recv)) <= n /\
  (stream_fails (h3_body (T := T) (Some n) recv) = false <-> exists b, arrived recv = Some b /\ blen b = n) /\
  (forall b, arrived recv = Some b -> blen b = n -> stream_data (h3_body (T := T) (Some n) recv) = b).
Proof.
  revert n. induction recv as [|[data|] recv IH]; intros n Hn; cbn.
  - destruct (Z.eqb_spec n 0) as [->|Hne]; cbn; (split; [unfold blen; cbn; lia|]).
    + split; [split; [by exists []|done]|by intros b [= <-]].
    + split; [split; [done|intros (b & [= <-] & Hb); by subst n]|intros b [= <-] Hb; by subst n].
  - rewrite arrived_cons. pose proof (Zle_0_nat (length data)) as Hd. destruct (Z.ltb_spec n (blen data)) as [Hover|Hfit]; cbn.
    + split; [unfold blen in *; cbn; lia|]. split; [split; [done|]|].
      * intros (b & Hb & Hlen). destruct (arrived recv) as [b'|]; [|done]. injection Hb as <-.
        unfold blen in *. rewrite length_app in Hlen. lia.
      * intros b Hb Hlen. destruct (arrived recv) as [b'|]; [|done]. injection Hb as <-.
        unfold blen in *. rewrite length_app in Hlen. lia.
    + destruct (IH (n - blen data) ltac:(lia)) as (Hle & Hclean & Hdata).
      split; [unfold blen in *; rewrite length_app; lia|]. rewrite Hclean. split; [split|].
      * intros (b & -> & Hb). exists (data ++ b). split; [done|]. unfold blen in *. rewrite length_app. lia.
      * intros (b & Hb & Hlen). destruct (arrived recv) as [b'|]; [|done]. injection Hb as <-.
        exists b'. split; [done|]. unfold blen in *. rewrite length_app in Hlen. lia.
      * intros b Hb Hlen. destruct (arrived recv) as [b'|]; [|done]. injection Hb as <-.
        f_equal. apply Hdata; [done|]. unfold blen in *. rewrite length_app in Hlen. lia.
  - split; [unfold blen; cbn; lia|]. split; [split; [done|by intros (b & Hb & _)]|done].
Qed.

(** One value read as a length. *)
Definition declared_as (value : bytes) : option Z := to_str value ≫= fun s => parse_u64 (trim s).

Lemma declared_loop_spec values d : forall out, declared_loop values d = Some out ->
  Forall (fun v => declared_as v = out) values /\ (d = None \/ d = out) /\ (values = [] -> out = d) /\
  (out = None -> values = []).
Proof.
  revert d. induction values as [|v values IH]; intros d out; cbn.
  - intros [= <-]. split_and!; [constructor|by right|done|done].
  - unfold declared_as at 1. destruct (to_str v) as [s|] eqn:Es; [cbn|done]. destruct (parse_u64 (trim s)) as [n|] eqn:En; [|done].
    destruct d as [e|].
    + destruct (Z.eqb_spec e n) as [->|]; [|done]. intros Hl. destruct (IH _ _ Hl) as (Hall & [|<-] & _ & _); [done|].
      split_and!; [|by right|done|done]. constructor; [by rewrite Es; cbn|done].
    + intros Hl. destruct (IH _ _ Hl) as (Hall & [|<-] & _ & _); [done|].
      split_and!; [|by left|done|done]. constructor; [by rewrite Es; cbn|done].
Qed.

Lemma declared_loop_same values n d : d = None \/ d = Some n -> Forall (fun v => declared_as v = Some n) values ->
  declared_loop values d = Some (match values with [] => d | _ => Some n end).
Proof.
  intros Hd Hall. revert d Hd. induction Hall as [|v values Hv _ IH]; intros d Hd; cbn; [done|].
  unfold declared_as in Hv. destruct (to_str v) as [s|]; [cbn in Hv; rewrite Hv|done].
  assert (Hs : declared_loop values (Some n) = Some (Some n)) by (rewrite (IH (Some n)) by auto; by destruct values).
  destruct Hd as [->| ->]; [done|]. by rewrite Z.eqb_refl.
Qed.

Lemma parse_digits64_nonneg s acc n : 0 <= acc -> parse_digits64 acc s = Some n -> 0 <= n.
Proof.
  revert acc. induction s as [|c s IH]; cbn; intros acc Ha; [by intros [= <-]|].
  destruct (is_digit c) eqn:Ed; [|done]. case_match; [|done]. apply IH. pose proof (digit_range c Ed). lia.
Qed.

Lemma declared_as_nonneg v n : declared_as v = Some n -> 0 <= n.
Proof.
  unfold declared_as. destruct (to_str v) as [s|]; [cbn|done]. unfold parse_u64. case_match; [done|].
  by apply parse_digits64_nonneg.
Qed.

(** The frames of a body up to its trailers, unless an error comes first. *)
Fixpoint whole (body : Stream) : option (list (Frame T)) :=
  match body with
  | [] => Some []
  | Some (Data data) :: body => cons (Data data) <$> whole body
  | Some (Trailers t) :: _ => Some [Trailers t]
  | None :: _ => None
  end.

Definition sent_frame (f : Frame T) : Sent M T := match f with Data data => SentData data | Trailers t => SentTrailers t end.

Lemma h3_relay_finish (sends : nat -> bool) body i :
  (SentFinish ∈ (h3_relay (M := M) sends body i).1 -> exists fs, whole body = Some fs /\
     h3_relay (M := M) sends body i = (map sent_frame fs ++ [SentFinish], true)) /\
  (forall fs, whole body = Some fs -> (forall j, (i <= j <= i + length fs)%nat -> sends j = true) ->
     SentFinish ∈ (h3_relay (M := M) sends body i).1).
Proof.
  revert i. induction body as [|[[data|t]|] body IH]; intros i; cbn.
  - split.
    + destruct (sends i); cbn; [|by intros ?%elem_of_nil]. by exists [].
    + intros fs [= <-] Hs. rewrite Hs by (cbn; lia). by constructor.
  - destruct (IH (S i)) as [IH1 IH2]. destruct (sends i) eqn:Ei.
    + destruct (h3_relay sends body (S i)) as [sent ok]. cbn in *. split.
      * intros [?|Hin]%elem_of_cons; [done|]. destruct (IH1 Hin) as (fs & -> & [= -> ->]). by exists (Data data :: fs).
      * intros fs Hfs Hs. destruct (whole body) as [fs'|]; [|done]. injection Hfs as <-. right.
        apply (IH2 fs' eq_refl). intros j Hj. apply Hs. cbn. lia.
    + cbn. split; [by intros ?%elem_of_nil|]. intros fs Hfs Hs. destruct (whole body); [|done]. injection Hfs as <-.
      rewrite Hs in Ei; [done|cbn; lia].
  - split.
    + destruct (sends i); cbn; [|by intros ?%elem_of_nil]. intros [?|Hin]%elem_of_cons; [done|]. exists [Trailers t].
      split; [done|]. destruct (sends (S i)); [done|by apply elem_of_nil in Hin].
    + intros fs [= <-] Hs. rewrite !Hs by (cbn; lia). cbn. right. by constructor.
  - split; [by intros ?%elem_of_nil|done].
Qed.
End bodies.

(** ** One request *)

Section request.
Context {M : Type} `{HeaderMap M} {A : Type} `{AuthorityLib A}.
Context {T F C SN P W E : Type} `{FilterHost F W} `{Server M T (Group C SN) P W} `{Codec E}.
Context (builder_ok : bytes -> bytes -> bool) (hm_empty : M) (value_from_str : bytes -> option bytes).
Context {IpNet : Type} (contains : IpNet -> IpAddr -> bool).
Context (parse_ip : bytes -> option IpAddr) (show_ip : IpAddr -> bytes).
Context (routes : list (CompiledRoute F (Group C SN))) (traceparent : bytes).

(** The head is resolved; [size] and the frames replace those the transport had. *)
Definition h3_request (q : Request M T) (content_length : option Z) (recv : list (option bytes)) : Request M T :=
  mkReq (q_method q) (q_path_and_query q) (q_parts q) false content_length (q_body q) (h3_body content_length recv).

(** The response to relay, before a byte of it is sent. *)
Definition h3_response (trusted : option (list IpNet)) (peer : IpAddr) (q : Request M T) (recv : list (option bytes)) (w : W)
    : Delivered M T E * Tx M T P W :=
  let s := mkTx w (mkAttribution None None) [] in
  match declared_content_length (pt_headers (q_parts q)) with
  | Some content_length =>
    match proxy_core (A := A) (E := E) builder_ok hm_empty value_from_str contains parse_ip show_ip routes traceparent
            trusted (bs "https") peer (h3_request q content_length recv) s with
    | (Ok r, s) => (r, s)
    | (Err _, s) => (plain (upstream_error hm_empty), s)
    end
  | None => (plain (synth hm_empty 400 (bs "bad-content-length") (bs "bad content-length")), s)
  end.

Definition handle_h3_request (trusted : option (list IpNet)) (peer : IpAddr) (q : Request M T) (recv : list (option bytes))
    (sends : nat -> bool) (w : W) : (list (Sent M T) * bool) * Tx M T P W :=
  let '(d, s) := h3_response trusted peer q recv w in
  let r := dl_response d in
  (h3_respond sends (re_status r) (re_headers r) (response_frames (re_body r)), s).

(** The state a transaction starts in, and the response to a core's result. *)
Definition tx_start (w : W) : Tx M T P W := mkTx w (mkAttribution None None) [].

Definition answer (out : result (Delivered M T E) ServerError * Tx M T P W) : Delivered M T E * Tx M T P W :=
  match out with
  | (Ok r, s) => (r, s)
  | (Err _, s) => (plain (upstream_error hm_empty), s)
  end.

(** A declared length, as the header's values give it. *)
Definition declares (values : list bytes) (len : option Z) : Prop :=
  Forall (fun v => declared_as v = len) values /\ (values = [] <-> len = None).

(** The body the core reads of what arrives, under a declared length. *)
Definition framed (len : option Z) (recv : list (option bytes)) (body : list (option (Frame T))) : Prop :=
  match len with
  | Some n => blen (stream_data body) <= n /\
      (stream_fails body = false <-> exists b, arrived recv = Some b /\ blen b = n) /\
      (forall b, arrived recv = Some b -> blen b = n -> stream_data body = b)
  | None => (stream_fails body = false <-> is_Some (arrived recv)) /\
      (forall b, arrived recv = Some b -> stream_data body = b)
  end.

(** C32: HTTP/3 frames a request one way only.  A request whose [Content-Length] values are not all
    the same length is refused with a 400 before the transaction touches anything.  Any other is
    what the transaction core is run on, with its head unchanged, the length its values declare as
    the body's size, and a body that never exceeds that length, ends cleanly exactly when
    everything arrived and is exactly that long, and is then what arrived; without a declaration
    the body is what arrives.  The answer is the core's, an error being a 502. *)
Theorem h3_request_framed (trusted : option (list IpNet)) (peer : IpAddr) (q : Request M T) (recv : list (option bytes)) (w : W) :
  let values := hm_get_all (pt_headers (q_parts q)) CONTENT_LENGTH in
  ((forall len, ~ declares values len) /\
   h3_response trusted peer q recv w
     = (plain (synth hm_empty 400 (bs "bad-content-length") (bs "bad content-length")), tx_start w)) \/
  exists len body, declares values len /\ framed len recv body /\
    h3_response trusted peer q recv w
      = answer (proxy_core (A := A) (E := E) builder_ok hm_empty value_from_str contains parse_ip show_ip routes
          traceparent trusted (bs "https") peer
          (mkReq (q_method q) (q_path_and_query q) (q_parts q) false len (q_body q) body) (tx_start w)).
Proof.
  cbv zeta. unfold h3_response, declared_content_length. destruct (declared_loop _ None) as [len|] eqn:El; [right|left].
  - destruct (declared_loop_spec _ _ _ El) as (Hall & _ & Hnil & Hnone).
    exists len, (h3_body len recv). split; [split; [done|by split]|]. split; [|done]. unfold framed.
    destruct len as [n|].
    + apply h3_body_bounded. destruct Hall as [|v vs Hv]; [by specialize (Hnil eq_refl)|].
      by apply (declared_as_nonneg v).
    + destruct (h3_body_unbounded (T := T) recv) as [Hf Hd]. split; [|done]. rewrite Hf.
      rewrite bool_decide_eq_false. by rewrite not_eq_None_Some.
  - split; [|done]. intros [n|] [Hall Hnil].
    + rewrite (declared_loop_same _ n) in El by auto. done.
    + rewrite (proj2 Hnil eq_refl) in El. done.
Qed.
End request.

(** An HTTP/3 response that did not arrive whole never looks whole: the send stream is finished
    only when the body ended without an error, its frames up to the trailers having been sent in
    order after the head; and if it does and no send fails, the stream is finished. *)
Theorem h3_response_complete {M T} (sends : nat -> bool) (status : Z) (headers : M) (body : list (option (Frame T))) :
  let '(sent, ok) := h3_respond sends status headers body in
  (SentFinish ∈ sent -> ok = true /\ exists fs, whole body = Some fs /\
     sent = SentHead status headers :: map sent_frame fs ++ [SentFinish]) /\
  (forall fs, whole body = Some fs -> (forall i, (i <= S (length fs))%nat -> sends i = true) -> SentFinish ∈ sent).
Proof.
  unfold h3_respond. destruct (h3_relay_finish (M := M) sends body 1) as [H1 H2]. destruct (sends 0%nat) eqn:E0.
  - destruct (h3_relay sends body 1) as [sent ok]. cbn in *. split.
    + intros [?|Hin]%elem_of_cons; [done|]. destruct (H1 Hin) as (fs & Hw & [= -> ->]). split; [done|]. by exists fs.
    + intros fs Hfs Hs. right. apply (H2 fs Hfs). intros j Hj. apply Hs. lia.
  - split; [by intros ?%elem_of_nil|]. intros fs _ Hs. rewrite Hs in E0; [done|lia].
Qed.

(** Five bytes in two frames under a declared five; the body is clean, and its last send fails. *)
Lemma h3_response_complete_witness :
  let body := h3_body (T := unit) (Some 5) [Some (bs "ab"); Some (bs "cde")] in
  let sent := (h3_respond (M := unit) (fun _ => true) 200 tt body).1 in
  SentFinish ∈ sent /\ ~ SentFinish ∈ (h3_respond (M := unit) (fun i => (i <? 3)%nat) 200 tt body).1.
Proof.
  cbv zeta. split.
  - pose proof (h3_response_complete (fun _ => true) 200 tt (h3_body (T := unit) (Some 5) [Some (bs "ab"); Some (bs "cde")])) as H.
    destruct (h3_respond _ 200 tt _) as [sent ok]. destruct H as [_ H]. by apply (H [Data (bs "ab"); Data (bs "cde")]).
  - vm_compute. intros H. by repeat (apply elem_of_cons in H as [?|H]; [done|]); apply elem_of_nil in H.
Defined.

(** A declaration of ["+5"] is not a [Content-Length] value, and is read as five. *)
Example plus_sign_accepted {M} `{HeaderMap M} : to_str (bs "+5") = Some (bs "+5") -> declared_as (bs "+5") = Some 5.
Proof. unfold declared_as. by intros ->. Qed.
