(* ===== verification/Listener.v ===== *)
(** * The listener (server/src/listener.rs, h3/endpoint.rs)

    The two accept loops, the admission of a connection and what it holds, and the shutdown
    sequence.  The runtime is the environment: it runs the tasks in any order and polls a timer at
    most so late.  Per-source slots are taken and given back as in [ConnLimit], where their
    interleaving is.  Times are in milliseconds. *)

From S2P Require Import Prelude Bytes Ssrf ConnLimit.

Definition MAX_CONNECTIONS : Z := 10000.
Definition MAX_CONNECTIONS_PER_IP : Z := 256.
Definition INBOUND_HEADER_READ_TIMEOUT : Z := 15000.
Definition DEFAULT_DRAIN_DEADLINE : Z := 30000.
Definition SHUTDOWN_FLUSH_DEADLINE : Z := 3000.

(** ** The drain settings *)

Record Drain := mkDrain { dr_readiness_grace_ms : option Z; dr_window_ms : option Z }.

Definition readiness_grace (drain : option Drain) : Z := default 0 (drain ≫= dr_readiness_grace_ms).
Definition drain_window (drain : option Drain) : option Z := drain ≫= dr_window_ms.

(** ** Connections *)

(** A task before its peer is known, during its handshake, and serving: when it was accepted, and
    its guards.  Only HTTP/1.1 hands a clone of them to an upgrade. *)
Inductive Task :=
| TkProxy (accepted : Z) (tls : bool)
| TkHandshake (accepted since : Z) (guards : nat)
| TkServing (h1 : bool) (guards : nat).

Definition task_guards (t : Task) : option nat :=
  match t with TkProxy _ _ => None | TkHandshake _ _ g | TkServing _ g => Some g end.

(** [ConnGuards] are a permit and a source's slot, shared by a connection and the tunnels it was
    upgraded to. *)
Record Conns := mkConns {
  cn_permits : Z;
  cn_slots : list Z;
  cn_guards : gmap nat nat;
  cn_tasks : gmap nat Task;
  cn_tunnels : gmap nat nat;
}.

Definition take_permit (c : Conns) : Conns :=
  mkConns (cn_permits c - 1) (cn_slots c) (cn_guards c) (cn_tasks c) (cn_tunnels c).
Definition give_permit (c : Conns) : Conns :=
  mkConns (cn_permits c + 1) (cn_slots c) (cn_guards c) (cn_tasks c) (cn_tunnels c).
Definition set_task (t : nat) (k : Task) (c : Conns) : Conns :=
  mkConns (cn_permits c) (cn_slots c) (cn_guards c) (<[t := k]> (cn_tasks c)) (cn_tunnels c).
Definition end_task (t : nat) (c : Conns) : Conns :=
  mkConns (cn_permits c) (cn_slots c) (cn_guards c) (delete t (cn_tasks c)) (cn_tunnels c).
Definition open_tunnel (u g : nat) (c : Conns) : Conns :=
  mkConns (cn_permits c) (cn_slots c) (cn_guards c) (cn_tasks c) (<[u := g]> (cn_tunnels c)).
Definition end_tunnel (u : nat) (c : Conns) : Conns :=
  mkConns (cn_permits c) (cn_slots c) (cn_guards c) (cn_tasks c) (delete u (cn_tunnels c)).

(** The [Arc]'s last reference is gone. *)
Definition unreferenced (g : nat) (c : Conns) : Prop :=
  map_Forall (fun _ t => task_guards t <> Some g) (cn_tasks c) /\ map_Forall (fun _ g' => g' <> g) (cn_tunnels c).
#[export] Instance unreferenced_dec g c : Decision (unreferenced g c).
Proof. unfold unreferenced. apply _. Defined.

Definition drop_guards (g : nat) (c : Conns) : Conns :=
  match cn_guards c !! g with
  | Some slot =>
    if decide (unreferenced g c)
    then mkConns (cn_permits c + 1) (conn_release slot (cn_slots c)) (delete g (cn_guards c)) (cn_tasks c) (cn_tunnels c)
    else c
  | None => c
  end.

(** ** The server *)

(** An accept loop waits for a permit, then for a connection with the permit in hand. *)
Inductive Loop := LpPermit | LpAccept | LpDone.

(** [serve_inner] from its accept loop to its return; each wait has its deadline. *)
Inductive Phase :=
| PhServing
| PhGrace (until : Z)
| PhDrain (until : Z)
| PhH3 (until : Z)
| PhPump (until : Z)
| PhUnwind (more : nat) (until : Z)
| PhReturned.

Record ServeState := mkServe {
  sv_now : Z;
  sv_ready : bool;
  sv_drain : bool;
  sv_phase : Phase;
  sv_tcp : Loop;
  sv_h3 : Loop;
  sv_conns : Conns;
  sv_signal : option Z;
}.

Definition on_conns (f : Conns -> Conns) (s : ServeState) : ServeState :=
  mkServe (sv_now s) (sv_ready s) (sv_drain s) (sv_phase s) (sv_tcp s) (sv_h3 s) (f (sv_conns s)) (sv_signal s).
Definition on_tcp (l : Loop) (s : ServeState) : ServeState :=
  mkServe (sv_now s) (sv_ready s) (sv_drain s) (sv_phase s) l (sv_h3 s) (sv_conns s) (sv_signal s).
Definition on_h3 (l : Loop) (s : ServeState) : ServeState :=
  mkServe (sv_now s) (sv_ready s) (sv_drain s) (sv_phase s) (sv_tcp s) l (sv_conns s) (sv_signal s).
Definition at_phase (p : Phase) (s : ServeState) : ServeState :=
  mkServe (sv_now s) (sv_ready s) (sv_drain s) p (sv_tcp s) (sv_h3 s) (sv_conns s) (sv_signal s).
Definition at_time (now : Z) (s : ServeState) : ServeState :=
  mkServe now (sv_ready s) (sv_drain s) (sv_phase s) (sv_tcp s) (sv_h3 s) (sv_conns s) (sv_signal s).

(** A loop that stops drops the permit it may hold. *)
Definition loop_drop (l : Loop) (c : Conns) : Conns := match l with LpAccept => give_permit c | _ => c end.

(** The awaits after the drain, each only of a task that was spawned: HTTP/3, the export pump, then
    the health, DNS and admin supervisors. *)
Section awaits.
Context (h3 otlp admin : bool) (window : Z).
Definition after_pump (now : Z) : Phase := PhUnwind (if admin then 2 else 1) (now + 1000).
Definition after_h3 (now : Z) : Phase := if otlp then PhPump (now + (SHUTDOWN_FLUSH_DEADLINE + 1000)) else after_pump now.
Definition after_drain (now : Z) : Phase := if h3 then PhH3 (now + (window + 1000)) else after_h3 now.

Definition next_phase (now : Z) (p : Phase) : option Phase :=
  match p with
  | PhH3 _ => Some (after_h3 now)
  | PhPump _ => Some (after_pump now)
  | PhUnwind (S more) _ => Some (PhUnwind more (now + 1000))
  | PhUnwind O _ => Some PhReturned
  | _ => None
  end.
End awaits.

(** ** The steps *)

Section listener.
Context (hash : list Z -> Z) (h3 otlp admin : bool) (drain : option Drain) (lateness : Z).
Let grace : Z := readiness_grace drain.
Let window : Z := default DEFAULT_DRAIN_DEADLINE (drain_window drain).

Definition try_acquire (ip : IpAddr) (c : Conns) : option nat * list Z :=
  conn_try_acquire hash MAX_CONNECTIONS_PER_IP ip (cn_slots c).

(** Both guards are the new task's. *)
Definition hold_guards (g slot : nat) (slots : list Z) (c : Conns) : Conns :=
  mkConns (cn_permits c) slots (<[g := slot]> (cn_guards c)) (cn_tasks c) (cn_tunnels c).

(** The timers that are running. *)
Inductive timer (s : ServeState) : Z -> Prop :=
| TmProxy t accepted tls : cn_tasks (sv_conns s) !! t = Some (TkProxy accepted tls) ->
    timer s (accepted + INBOUND_HEADER_READ_TIMEOUT)
| TmHandshake t accepted since g : cn_tasks (sv_conns s) !! t = Some (TkHandshake accepted since g) ->
    timer s (since + INBOUND_HEADER_READ_TIMEOUT)
| TmPhase until : (sv_phase s = PhGrace until \/ sv_phase s = PhDrain until \/ sv_phase s = PhH3 until \/
    sv_phase s = PhPump until \/ exists more, sv_phase s = PhUnwind more until) -> timer s until.

Inductive serve_step (s : ServeState) : ServeState -> Prop :=
| LnTime now : sv_now s <= now -> (forall d, timer s d -> now <= d + lateness) -> serve_step s (at_time now s)
(** The accept loop over TCP. *)
| LnPermit : sv_tcp s = LpPermit -> 0 < cn_permits (sv_conns s) -> serve_step s (on_tcp LpAccept (on_conns take_permit s))
| LnRetry : sv_tcp s = LpAccept -> serve_step s (on_tcp LpPermit (on_conns give_permit s))
| LnAccept t tls : sv_tcp s = LpAccept -> cn_tasks (sv_conns s) !! t = None ->
    serve_step s (on_tcp LpPermit (on_conns (set_task t (TkProxy (sv_now s) tls)) s))
(** A connection: cut by the PROXY header's rules or timeout, refused or admitted. *)
| LnFault t accepted tls : cn_tasks (sv_conns s) !! t = Some (TkProxy accepted tls) ->
    serve_step s (on_conns (fun c => give_permit (end_task t c)) s)
| LnRefuse t accepted tls ip slots : cn_tasks (sv_conns s) !! t = Some (TkProxy accepted tls) ->
    try_acquire ip (sv_conns s) = (None, slots) -> serve_step s (on_conns (fun c => give_permit (end_task t c)) s)
| LnAdmit t accepted tls ip g slot slots : cn_tasks (sv_conns s) !! t = Some (TkProxy accepted tls) ->
    try_acquire ip (sv_conns s) = (Some slot, slots) -> cn_guards (sv_conns s) !! g = None ->
    serve_step s (on_conns (fun c => set_task t (if tls then TkHandshake accepted (sv_now s) g else TkServing true g)
      (hold_guards g slot slots c)) s)
| LnHandshake t accepted since g h2 : cn_tasks (sv_conns s) !! t = Some (TkHandshake accepted since g) ->
    serve_step s (on_conns (set_task t (TkServing (negb h2) g)) s)
(** It ends (a failed handshake, a close, a drained or aborted connection), or is upgraded. *)
| LnEnd t k g : cn_tasks (sv_conns s) !! t = Some k -> task_guards k = Some g ->
    serve_step s (on_conns (fun c => drop_guards g (end_task t c)) s)
| LnTunnel t g u : cn_tasks (sv_conns s) !! t = Some (TkServing true g) -> cn_tunnels (sv_conns s) !! u = None ->
    serve_step s (on_conns (open_tunnel u g) s)
| LnTunnelEnd u g : cn_tunnels (sv_conns s) !! u = Some g ->
    serve_step s (on_conns (fun c => drop_guards g (end_tunnel u c)) s)
(** The HTTP/3 loop: the peer is known before the handshake, and its slot is taken first. *)
| LnH3Permit : sv_h3 s = LpPermit -> 0 < cn_permits (sv_conns s) -> serve_step s (on_h3 LpAccept (on_conns take_permit s))
| LnH3Retry : sv_h3 s = LpAccept -> serve_step s (on_h3 LpPermit (on_conns give_permit s))
| LnH3Refuse ip slots : sv_h3 s = LpAccept -> try_acquire ip (sv_conns s) = (None, slots) ->
    serve_step s (on_h3 LpPermit (on_conns give_permit s))
| LnH3Accept ip t g slot slots : sv_h3 s = LpAccept -> try_acquire ip (sv_conns s) = (Some slot, slots) ->
    cn_guards (sv_conns s) !! g = None -> cn_tasks (sv_conns s) !! t = None ->
    serve_step s (on_h3 LpPermit (on_conns (fun c => set_task t (TkServing false g) (hold_guards g slot slots c)) s))
| LnH3Stop : sv_drain s = true -> sv_h3 s <> LpDone ->
    serve_step s (on_h3 LpDone (on_conns (loop_drop (sv_h3 s)) s))
(** Shutdown: the signal, then the grace, then the drain. *)
| LnSignal : sv_phase s = PhServing ->
    serve_step s (mkServe (sv_now s) false (sv_drain s) (PhGrace (sv_now s + grace)) (sv_tcp s) (sv_h3 s) (sv_conns s)
      (Some (sv_now s)))
| LnStop until : sv_phase s = PhGrace until -> until <= sv_now s ->
    serve_step s (mkServe (sv_now s) (sv_ready s) true (PhDrain (sv_now s + window)) LpDone (sv_h3 s)
      (loop_drop (sv_tcp s) (sv_conns s)) (sv_signal s))
| LnDrained until : sv_phase s = PhDrain until -> cn_permits (sv_conns s) = MAX_CONNECTIONS ->
    serve_step s (at_phase (after_drain h3 otlp admin window (sv_now s)) s)
| LnCut until : sv_phase s = PhDrain until -> until <= sv_now s ->
    serve_step s (at_phase (after_drain h3 otlp admin window (sv_now s)) s)
| LnNext p : next_phase otlp admin (sv_now s) (sv_phase s) = Some p -> serve_step s (at_phase p s).

Definition serve_new : ServeState :=
  mkServe 0 true false PhServing LpPermit (if h3 then LpPermit else LpDone)
    (mkConns MAX_CONNECTIONS (replicate (Z.to_nat CONN_IP_SLOTS) 0) ∅ ∅ ∅) None.
End listener.

(** ** Lemmas *)

(** How many values of a map satisfy a predicate. *)
Definition count {K A} `{Countable K} (P : A -> Prop) `{forall x, Decision (P x)} (m : gmap K A) : nat :=
  size (filter (fun kv => P kv.2) m).

Lemma count_insert {K A} `{Countable K} (P : A -> Prop) `{forall x, Decision (P x)} (m : gmap K A) k x : m !! k = None ->
  count P (<[k := x]> m) = (if decide (P x) then S (count P m) else count P m).
Proof.
  intros Hk. unfold count. rewrite map_filter_insert. cbn. destruct (decide (P x)) as [Hp|Hp].
  - rewrite map_size_insert_None; [done|]. apply map_lookup_filter_None. by left.
  - by rewrite delete_id.
Qed.

Lemma count_delete {K A} `{Countable K} (P : A -> Prop) `{forall x, Decision (P x)} (m : gmap K A) k x : m !! k = Some x ->
  count P m = (if decide (P x) then S (count P (delete k m)) else count P (delete k m)).
Proof. intros Hk. rewrite <- (count_insert P (delete k m) k x), insert_delete_id by (done || apply lookup_delete_eq). done. Qed.

Lemma count_replace {K A} `{Countable K} (P : A -> Prop) `{forall x, Decision (P x)} (m : gmap K A) k x y : m !! k = Some x ->
  (count P (<[k := y]> m) + (if decide (P x) then 1 else 0) = count P m + (if decide (P y) then 1 else 0))%nat.
Proof.
  intros Hk. rewrite (count_delete P m k x Hk), <- insert_delete_eq, (count_insert P (delete k m) k y) by apply lookup_delete_eq.
  repeat case_decide; lia.
Qed.

Definition admitting (t : Task) : Prop := task_guards t = None.
#[local] Instance admitting_dec t : Decision (admitting t).
Proof. unfold admitting. apply _. Defined.

Section conns.
Context (hash : list Z -> Z).

(** [held] permits are in the accept loops' hands; [ex] is a pair of guards about to be dropped. *)
Record conns_ok (ex : option nat) (held : Z) (c : Conns) : Prop := {
  co_permits : cn_permits c + held + Z.of_nat (count admitting (cn_tasks c)) + Z.of_nat (size (cn_guards c)) = MAX_CONNECTIONS;
  co_room : 0 <= cn_permits c;
  co_task t k g : cn_tasks c !! t = Some k -> task_guards k = Some g -> is_Some (cn_guards c !! g);
  co_tunnel u g : cn_tunnels c !! u = Some g -> is_Some (cn_guards c !! g);
  co_used g : ex <> Some g -> is_Some (cn_guards c !! g) -> ~ unreferenced g c;
  co_table : length (cn_slots c) = Z.to_nat CONN_IP_SLOTS;
  co_slot slot x : cn_slots c !! slot = Some x ->
    x = Z.of_nat (count (fun y => y = slot) (cn_guards c)) /\ x <= MAX_CONNECTIONS_PER_IP;
  co_range g slot : cn_guards c !! g = Some slot -> (slot < length (cn_slots c))%nat;
}.

Lemma permit_moves ex held c d : 0 <= cn_permits c + d -> conns_ok ex held c ->
  conns_ok ex (held - d) (mkConns (cn_permits c + d) (cn_slots c) (cn_guards c) (cn_tasks c) (cn_tunnels c)).
Proof. intros Hd [Hp Hr Ht Hu Hus Hl Hs Hg]. split; cbn; try done. lia. Qed.

Lemma unreferenced_delete_task t c g : ~ unreferenced g (end_task t c) -> ~ unreferenced g c.
Proof. intros Hn [Ht Hu]. apply Hn. split; [by apply map_Forall_delete|done]. Qed.

(** A task without guards is removed, its permit in hand. *)
Lemma end_admitting_ok ex held t k c : cn_tasks c !! t = Some k -> task_guards k = None -> conns_ok ex held c ->
  conns_ok ex (held + 1) (end_task t c).
Proof.
  intros Hk Hg [Hp Hr Ht Hu Hus Hl Hs Hgr]. split; cbn; try done.
  - rewrite (count_delete admitting _ t k Hk), decide_True in Hp by done. lia.
  - intros t' k' g [_ H]%lookup_delete_Some. by eapply Ht.
  - intros g Hex Hin [Hta Htu]. apply (Hus g Hex Hin). split; [|done]. intros t' k' Hk'. destruct (decide (t = t')) as [<-|Hne].
    + simplify_eq. by rewrite Hg.
    + apply (Hta t'). cbn. by rewrite lookup_delete_ne.
Qed.

(** A task with guards is removed, and they are to be dropped; so for a tunnel. *)
Lemma end_task_ok held t k g c : cn_tasks c !! t = Some k -> task_guards k = Some g -> conns_ok None held c ->
  conns_ok (Some g) held (end_task t c) /\ is_Some (cn_guards (end_task t c) !! g).
Proof.
  intros Hk Hg [Hp Hr Ht Hu Hus Hl Hs Hgr]. split; [|by eapply Ht]. split; cbn; try done.
  - rewrite (count_delete admitting _ t k Hk), decide_False in Hp by (unfold admitting; by rewrite Hg). lia.
  - intros t' k' g' [_ H]%lookup_delete_Some. by eapply Ht.
  - intros g' Hex Hin [Hta Htu]. apply (Hus g' ltac:(done) Hin). split; [|done]. intros t' k' Hk'.
    destruct (decide (t = t')) as [<-|Hne].
    + simplify_eq. rewrite Hg. congruence.
    + apply (Hta t'). cbn. by rewrite lookup_delete_ne.
Qed.

Lemma end_tunnel_ok held u g c : cn_tunnels c !! u = Some g -> conns_ok None held c ->
  conns_ok (Some g) held (end_tunnel u c) /\ is_Some (cn_guards (end_tunnel u c) !! g).
Proof.
  intros Hk [Hp Hr Ht Hu Hus Hl Hs Hgr]. split; [|by eapply Hu]. split; cbn; try done.
  - intros u' g' [_ H]%lookup_delete_Some. by eapply Hu.
  - intros g' Hex Hin [Hta Htu]. apply (Hus g' ltac:(done) Hin). split; [done|]. intros u' g'' Hk'.
    destruct (decide (u = u')) as [<-|Hne]; [simplify_eq; congruence|]. apply (Htu u'). cbn. by rewrite lookup_delete_ne.
Qed.

Lemma drop_guards_ok held g c : conns_ok (Some g) held c -> is_Some (cn_guards c !! g) -> conns_ok None held (drop_guards g c).
Proof.
  intros [Hp Hr Ht Hu Hus Hl Hs Hg] [slot Hslot]. unfold drop_guards. rewrite Hslot.
  destruct (decide (unreferenced g c)) as [[Hnt Hnu]|Href].
  - assert (Hsize : size (cn_guards c) = S (size (delete g (cn_guards c)))).
    { rewrite map_size_delete_Some by (by eexists). pose proof (map_size_ne_0_lookup_2 (cn_guards c) g ltac:(by eexists)). lia. }
    destruct (lookup_lt_is_Some_2 (cn_slots c) slot (Hg _ _ Hslot)) as [x Hx].
    assert (Hlen : length (conn_release slot (cn_slots c)) = length (cn_slots c)) by (unfold conn_release; rewrite Hx; apply length_insert).
    split; cbn; [lia|lia| | | |lia| |].
    + intros t k g' Hk Hkg. destruct (decide (g' = g)) as [->|Hne]; [by destruct (Hnt _ _ Hk)|].
      rewrite lookup_delete_ne by done. by eapply Ht.
    + intros u g' Hk. destruct (decide (g' = g)) as [->|Hne]; [by destruct (Hnu _ _ Hk)|].
      rewrite lookup_delete_ne by done. by eapply Hu.
    + intros g' _ [slot' [Hne Hin]%lookup_delete_Some]. apply (Hus g'); [congruence|by eexists].
    + intros slot' y. destruct (Hs _ _ Hx) as [Hxc Hxl]. rewrite (count_delete _ _ g slot Hslot), decide_True in Hxc by done.
      unfold conn_release. rewrite Hx. destruct (decide (slot' = slot)) as [->|Hne].
      * rewrite list_lookup_insert_eq by (by eapply lookup_lt_Some). intros [= <-]. unfold MAX_CONNECTIONS_PER_IP in *.
        rewrite Z.mod_small by lia. lia.
      * rewrite list_lookup_insert_ne by done. intros Hy. destruct (Hs _ _ Hy) as [Hyc Hyl].
        rewrite (count_delete _ _ g slot Hslot), decide_False in Hyc by done. done.
    + intros g' slot' [_ Hin]%lookup_delete_Some. rewrite Hlen. by eapply Hg.
  - split; try done. intros g' _ Hin. destruct (decide (g' = g)) as [->|Hne]; [done|]. apply Hus; [congruence|done].
Qed.

(** A source's slot is taken with a permit in hand, and both go to a task. *)
Lemma hold_guards_ok held ip g slot slots c : try_acquire hash ip c = (Some slot, slots) -> cn_guards c !! g = None ->
  conns_ok None held c -> conns_ok (Some g) (held - 1) (hold_guards g slot slots c).
Proof.
  intros Hacq Hfresh [Hp Hr Ht Hu Hus Hl Hs Hg]. unfold try_acquire, conn_try_acquire in Hacq.
  destruct (cn_slots c !! conn_slot_for_ip hash ip) as [cur|] eqn:Ecur; [|done]. case_match; [done|]. bools. injection Hacq as <- <-.
  assert (Hkeep : forall g', is_Some (cn_guards c !! g') -> is_Some (<[g := conn_slot_for_ip hash ip]> (cn_guards c) !! g')).
  { intros g' H'. destruct (decide (g' = g)) as [->|]; [by rewrite Hfresh in H'; destruct H'|by rewrite lookup_insert_ne]. }
  split; cbn; [|done| | | | | |].
  - rewrite map_size_insert_None by done. lia.
  - intros t k g' Hk Hkg. by eapply Hkeep, Ht.
  - intros u g' Hk. by eapply Hkeep, Hu.
  - intros g' Hex. rewrite lookup_insert_ne by congruence. intros Hin. by apply (Hus g').
  - by rewrite length_insert.
  - intros slot' y. rewrite count_insert by done. destruct (decide (conn_slot_for_ip hash ip = slot')) as [<-|Hne].
    + rewrite list_lookup_insert_eq by (by eapply lookup_lt_Some). intros [= <-]. destruct (Hs _ _ Ecur). lia.
    + rewrite list_lookup_insert_ne by done. apply Hs.
  - intros g' slot'. rewrite length_insert. destruct (decide (g' = g)) as [->|].
    + rewrite lookup_insert_eq. intros [= <-]. by eapply lookup_lt_Some.
    + rewrite lookup_insert_ne by done. apply Hg.
Qed.

(** Guards are referred to by a task that had none, had them already, or is new. *)
Lemma set_guarded_ok ex held t k g c (old : option Task) : cn_tasks c !! t = old ->
  (forall k', old = Some k' -> task_guards k' = None \/ task_guards k' = Some g) -> task_guards k = Some g ->
  is_Some (cn_guards c !! g) -> ex = None \/ ex = Some g -> conns_ok ex held c ->
  conns_ok None (held + (if old is Some k' then if decide (admitting k') then 1 else 0 else 0)) (set_task t k c).
Proof.
  intros Hold Hgold Hk Hin Hex [Hp Hr Ht Hu Hus Hl Hs Hg]. assert (Hnk : ~ admitting k) by (unfold admitting; by rewrite Hk).
  split; cbn; try done.
  - destruct old as [k'|].
    + pose proof (count_replace admitting _ t k' k Hold) as Hc. rewrite (decide_False (P := admitting k)) in Hc by done.
      case_decide; lia.
    + rewrite count_insert, decide_False by done. lia.
  - intros t' k' g'. destruct (decide (t' = t)) as [->|Hne]; [|rewrite lookup_insert_ne by done; apply Ht].
    rewrite lookup_insert_eq. intros [= <-] Hk'. by simplify_eq.
  - intros g' _ Hg' [Hta Htu]. destruct (decide (g' = g)) as [->|Hne].
    + apply (Hta t k); [apply lookup_insert_eq|done].
    + apply (Hus g'); [destruct Hex as [->| ->]; congruence|done|]. split; [|done]. intros t' k' Hk'.
      destruct (decide (t' = t)) as [->|Hne']; [|apply (Hta t'); cbn; by rewrite lookup_insert_ne].
      simplify_eq. destruct (Hgold k' Hk') as [->| ->]; congruence.
Qed.

Lemma set_admitting_ok held t k c : cn_tasks c !! t = None -> task_guards k = None -> conns_ok None held c ->
  conns_ok None (held - 1) (set_task t k c).
Proof.
  intros Hfresh Hk [Hp Hr Ht Hu Hus Hl Hs Hg]. split; cbn; try done.
  - rewrite count_insert, decide_True by done. lia.
  - intros t' k' g. destruct (decide (t' = t)) as [->|Hne]; [|rewrite lookup_insert_ne by done; apply Ht].
    rewrite lookup_insert_eq. intros [= <-]. by rewrite Hk.
  - intros g _ Hin [Hta Htu]. apply (Hus g ltac:(done) Hin). split; [|done]. intros t' k' Hk'.
    apply (Hta t'). cbn. rewrite lookup_insert_ne; [done|]. intros ->. congruence.
Qed.

Lemma open_tunnel_ok held u g c : is_Some (cn_guards c !! g) -> cn_tunnels c !! u = None -> conns_ok None held c ->
  conns_ok None held (open_tunnel u g c).
Proof.
  intros Hin Hfresh [Hp Hr Ht Hu Hus Hl Hs Hg]. split; cbn; try done.
  - intros u' g'. destruct (decide (u' = u)) as [->|Hne]; [|rewrite lookup_insert_ne by done; apply Hu].
    rewrite lookup_insert_eq. by intros [= <-].
  - intros g' Hex Hg' [Hta Htu]. apply (Hus g' Hex Hg'). split; [done|]. intros u' g'' Hk'.
    apply (Htu u'). cbn. rewrite lookup_insert_ne; [done|]. intros ->. congruence.
Qed.
End conns.

(** ** Invariant of the server *)

Definition loop_held (l : Loop) : Z := match l with LpAccept => 1 | _ => 0 end.

Lemma loop_drop_ok ex held l c : conns_ok ex (loop_held l + held) c -> conns_ok ex held (loop_drop l c).
Proof.
  intros Hok. destruct l; cbn in *; [done| |done]. destruct Hok as [Hp Hr Ht Hu Hus Hl Hs Hg]. split; cbn; try done; lia.
Qed.

Section server.
Context (hash : list Z -> Z) (h3 otlp admin : bool) (drain : option Drain) (lateness : Z).
Notation step := (serve_step hash h3 otlp admin drain lateness).
Notation new := (serve_new h3).
Let grace : Z := readiness_grace drain.
Let window : Z := default DEFAULT_DRAIN_DEADLINE (drain_window drain).
Context (Hgrace : 0 <= grace) (Hwindow : 0 <= window) (Hlate : 0 <= lateness).

Definition conns_held (s : ServeState) : Z := loop_held (sv_tcp s) + loop_held (sv_h3 s).

(** The latest a phase's wait may end, from the signal. *)
Definition due (p : Phase) : Z :=
  match p with
  | PhServing | PhReturned => 0
  | PhGrace _ => grace
  | PhDrain _ => grace + window + lateness
  | PhH3 _ => grace + 2 * window + 1000 + 2 * lateness
  | PhPump _ => grace + 2 * window + SHUTDOWN_FLUSH_DEADLINE + 2000 + 3 * lateness
  | PhUnwind more _ => grace + 2 * window + SHUTDOWN_FLUSH_DEADLINE + 3000 + 4 * lateness +
      (2 - Z.of_nat more) * (1000 + lateness)
  end.

Definition until_of (p : Phase) : option Z :=
  match p with PhServing | PhReturned => None | PhGrace u | PhDrain u | PhH3 u | PhPump u | PhUnwind _ u => Some u end.

Definition draining (p : Phase) : bool := match p with PhServing | PhGrace _ => false | _ => true end.

Record phase_ok (s : ServeState) : Prop := {
  po_drain : sv_drain s = draining (sv_phase s);
  po_tcp : sv_tcp s = LpDone <-> draining (sv_phase s) = true;
  po_serving : sv_phase s = PhServing -> sv_ready s = true /\ sv_signal s = None;
  po_signal : sv_phase s <> PhServing -> sv_ready s = false /\ exists t0, sv_signal s = Some t0 /\ t0 <= sv_now s /\
    (draining (sv_phase s) = true -> t0 + grace <= sv_now s) /\
    (forall u, until_of (sv_phase s) = Some u -> u <= t0 + due (sv_phase s) /\ sv_now s <= u + lateness /\ (sv_phase s = PhGrace u -> u = t0 + grace));
  po_more : forall more u, sv_phase s = PhUnwind more u -> (more <= 2)%nat;
}.

Definition task_ok (now : Z) (t : Task) : Prop :=
  match t with
  | TkProxy accepted _ => accepted <= now <= accepted + INBOUND_HEADER_READ_TIMEOUT + lateness
  | TkHandshake accepted since _ => accepted <= since <= accepted + INBOUND_HEADER_READ_TIMEOUT + lateness /\
      since <= now <= since + INBOUND_HEADER_READ_TIMEOUT + lateness
  | TkServing _ _ => True
  end.
Definition tasks_ok (s : ServeState) : Prop := map_Forall (fun _ => task_ok (sv_now s)) (cn_tasks (sv_conns s)).

Lemma serve_step_conns s s' : step s s' -> conns_ok None (conns_held s) (sv_conns s) -> conns_ok None (conns_held s') (sv_conns s').
Proof.
  intros Hst Hok. unfold conns_held in *.
  destruct Hst as [now Hle Htm|Hl Hpos|Hl|t tls Hl Hf|t acc tls Hk|t acc tls ip sl Hk Ha|t acc tls ip g slot sl Hk Ha Hg
    |t acc since g h2 Hk|t k g Hk Hkg|t g u Hk Hu|u g Hu|Hl Hpos|Hl|ip sl Hl Ha|ip t g slot sl Hl Ha Hg Hf|Hd Hl|Hp|u Hp Hu
    |u Hp Hu|u Hp Hu|p Hp]; cbn in *; try done.
  - rewrite Hl in Hok. apply (permit_moves _ _ _ (-1)) in Hok; [|lia]. cbn in *. by replace (1 + _) with (loop_held (sv_h3 s) - -1) by lia.
  - rewrite Hl in Hok. apply (permit_moves _ _ _ 1) in Hok; [|destruct Hok; lia]. cbn in *. by replace (loop_held (sv_h3 s)) with (1 + loop_held (sv_h3 s) - 1) by lia.
  - rewrite Hl in Hok. apply (set_admitting_ok _ t (TkProxy (sv_now s) tls)) in Hok; [|done|done]. cbn in *.
    by replace (loop_held (sv_h3 s)) with (1 + loop_held (sv_h3 s) - 1) by lia.
  - apply (end_admitting_ok _ _ t _ _ Hk) in Hok; [|done]. apply (loop_drop_ok _ _ LpAccept). cbn. by rewrite Z.add_comm.
  - apply (end_admitting_ok _ _ t _ _ Hk) in Hok; [|done]. apply (loop_drop_ok _ _ LpAccept). cbn. by rewrite Z.add_comm.
  - apply (hold_guards_ok _ _ _ _ _ _ _ Ha Hg) in Hok.
    apply (set_guarded_ok _ _ t (if tls then TkHandshake acc (sv_now s) g else TkServing true g) g _ (Some (TkProxy acc tls))) in Hok.
    + rewrite decide_True in Hok by done. by rewrite Z.sub_simpl_r in Hok.
    + done.
    + intros k' [= <-]. by left.
    + by destruct tls.
    + cbn. rewrite lookup_insert_eq. by eexists.
    + by right.
  - pose proof (co_task _ _ _ Hok _ _ _ Hk eq_refl) as Hin.
    apply (set_guarded_ok _ _ t (TkServing (negb h2) g) g _ (Some (TkHandshake acc since g))) in Hok; [|done| |done|done|by left].
    + by rewrite decide_False, Z.add_0_r in Hok.
    + intros k' [= <-]. by right.
  - destruct (end_task_ok _ _ _ _ _ Hk Hkg Hok) as [Hok' Hin]. by apply drop_guards_ok.
  - apply open_tunnel_ok; [|done|done]. by eapply (co_task _ _ _ Hok).
  - destruct (end_tunnel_ok _ _ _ _ Hu Hok) as [Hok' Hin]. by apply drop_guards_ok.
  - rewrite Hl in Hok. apply (permit_moves _ _ _ (-1)) in Hok; [|lia]. cbn in *. by replace (loop_held (sv_tcp s) + 1) with (loop_held (sv_tcp s) + 0 - -1) by lia.
  - rewrite Hl in Hok. apply (permit_moves _ _ _ 1) in Hok; [|destruct Hok; lia]. cbn in *. by replace (loop_held (sv_tcp s) + 0) with (loop_held (sv_tcp s) + 1 - 1) by lia.
  - rewrite Hl in Hok. apply (permit_moves _ _ _ 1) in Hok; [|destruct Hok; lia]. cbn in *. by replace (loop_held (sv_tcp s) + 0) with (loop_held (sv_tcp s) + 1 - 1) by lia.
  - rewrite Hl in Hok. apply (hold_guards_ok _ _ _ _ _ _ _ Ha Hg) in Hok.
    apply (set_guarded_ok _ _ t (TkServing false g) g _ None) in Hok; [|done|done|done| |by right].
    + cbn in *. by replace (loop_held (sv_tcp s) + 0) with (loop_held (sv_tcp s) + 1 - 1 + 0) by lia.
    + cbn. rewrite lookup_insert_eq. by eexists.
  - apply loop_drop_ok. by rewrite Z.add_0_r, Z.add_comm.
  - by apply loop_drop_ok.
Qed.

Lemma drop_guards_tasks g c : cn_tasks (drop_guards g c) = cn_tasks c.
Proof. unfold drop_guards. by repeat case_match. Qed.
Lemma loop_drop_tasks l c : cn_tasks (loop_drop l c) = cn_tasks c.
Proof. by destruct l. Qed.

Lemma serve_step_tasks s s' : step s s' -> tasks_ok s -> tasks_ok s'.
Proof.
  unfold tasks_ok. intros Hst Hok.
  destruct Hst as [now Hle Htm|Hl Hpos|Hl|t tls Hl Hf|t acc tls Hk|t acc tls ip sl Hk Ha|t acc tls ip g slot sl Hk Ha Hg
    |t acc since g h2 Hk|t k g Hk Hkg|t g u Hk Hu|u g Hu|Hl Hpos|Hl|ip sl Hl Ha|ip t g slot sl Hl Ha Hg Hf|Hd Hl|Hp|u Hp Hu
    |u Hp Hu|u Hp Hu|p Hp]; cbn; rewrite ?drop_guards_tasks, ?loop_drop_tasks; cbn;
    try done; try (by apply map_Forall_delete).
  - intros t k Hk. specialize (Hok t k Hk). destruct k as [acc tls|acc since g|h1 g]; cbn in *; [| |done].
    + pose proof (Htm _ (TmProxy _ _ _ _ Hk)). lia.
    + pose proof (Htm _ (TmHandshake _ _ _ _ _ Hk)). lia.
  - apply map_Forall_insert_2; [|done]. cbn. unfold INBOUND_HEADER_READ_TIMEOUT. lia.
  - pose proof (Hok _ _ Hk). apply map_Forall_insert_2; [|done]. destruct tls; cbn in *; [|done].
    unfold INBOUND_HEADER_READ_TIMEOUT in *. lia.
  - by apply map_Forall_insert_2.
  - by apply map_Forall_insert_2.
Qed.

(** A step that leaves the shutdown alone. *)
Lemma phase_ok_same s s' : sv_now s = sv_now s' -> sv_ready s = sv_ready s' -> sv_drain s = sv_drain s' ->
  sv_phase s = sv_phase s' -> (sv_tcp s' = LpDone <-> sv_tcp s = LpDone) -> sv_signal s = sv_signal s' ->
  phase_ok s -> phase_ok s'.
Proof. intros Hn Hr Hd Hp Ht Hs [Pd Pt Ps Pg Pm]. split; rewrite <- ?Hn, <- ?Hr, <- ?Hd, <- ?Hp, <- ?Hs, ?Ht; done. Qed.

(** The next wait, if there is one, starts now. *)
Lemma phase_ok_next s p t0 : phase_ok s -> sv_signal s = Some t0 -> draining (sv_phase s) = true -> draining p = true ->
  (forall u, until_of p = Some u -> sv_now s <= u + lateness /\ u <= t0 + due p) ->
  (forall more u, p = PhUnwind more u -> (more <= 2)%nat) -> phase_ok (at_phase p s).
Proof.
  intros [Pd Pt Ps Pg Pm] Hs Hdr Hdp Hu Hm. split; cbn.
  - by rewrite Pd, Hdr, Hdp.
  - by rewrite Pt, Hdr, Hdp.
  - intros ->. done.
  - intros _. destruct Pg as (Hr & t0' & Hs' & Ht0 & Hgr & _); [by destruct (sv_phase s)|]. split; [done|].
    exists t0'. simplify_eq. split_and!; [done|done|auto|]. intros u Hpu. destruct (Hu u Hpu). split_and!; [done|done|].
    intros ->. done.
  - done.
Qed.

Lemma after_drain_ok s t0 : phase_ok s -> sv_signal s = Some t0 -> (exists u, sv_phase s = PhDrain u) ->
  phase_ok (at_phase (after_drain h3 otlp admin window (sv_now s)) s).
Proof.
  intros Hok Hs [u Hp]. pose proof Hok as [_ _ _ Pg _]. destruct Pg as (_ & t0' & Hs' & Ht0 & _ & Hu); [by rewrite Hp|].
  rewrite Hs in Hs'. injection Hs' as <-. rewrite Hp in Hu. destruct (Hu u eq_refl) as (Hdue & Hnow & _). cbn in Hdue.
  assert (Hd : draining (sv_phase s) = true) by by rewrite Hp.
  unfold after_drain, after_h3, after_pump, SHUTDOWN_FLUSH_DEADLINE. destruct h3, otlp, admin;
    (apply (phase_ok_next s _ t0); [done|done|done|done| |]);
    cbn; try (by intros ? [= <-]; unfold SHUTDOWN_FLUSH_DEADLINE; lia); try done; by intros ? ? [= <- <-]; lia.
Qed.

Lemma next_phase_ok s t0 p : phase_ok s -> sv_signal s = Some t0 -> next_phase otlp admin (sv_now s) (sv_phase s) = Some p ->
  phase_ok (at_phase p s).
Proof.
  intros Hok Hs Hn. pose proof Hok as [_ _ _ Pg Pm]. destruct Pg as (_ & t0' & Hs' & Ht0 & _ & Hu).
  { intros E. by rewrite E in Hn. }
  rewrite Hs in Hs'. injection Hs' as <-.
  assert (Hd : draining (sv_phase s) = true) by by destruct (sv_phase s).
  assert (Hd' : draining p = true).
  { destruct (sv_phase s) as [| | | | |[|more]|]; cbn in Hn; try done; injection Hn as <-; unfold after_h3, after_pump; by destruct otlp. }
  apply (phase_ok_next s p t0); [done|done|done|done| |].
  - destruct (sv_phase s) as [| | |u|u|[|more] u|] eqn:Ep; cbn in Hn; try done; injection Hn as <-;
      destruct (Hu u eq_refl) as (Hdue & Hnow & _); cbn in Hdue; unfold after_h3, after_pump;
      unfold SHUTDOWN_FLUSH_DEADLINE in *; try (destruct otlp); try (destruct admin); cbn;
      try done; intros ? [= <-]; unfold SHUTDOWN_FLUSH_DEADLINE; lia.
  - destruct (sv_phase s) as [| | |u|u|[|more] u|] eqn:Ep; cbn in Hn; try done; injection Hn as <-; unfold after_h3, after_pump;
      try (destruct otlp); try (destruct admin); cbn; try done; intros ? ? [= <- <-]; try lia; specialize (Pm _ _ eq_refl); lia.
Qed.

Lemma serve_step_phase s s' : step s s' -> phase_ok s -> phase_ok s'.
Proof.
  intros Hst Hok. pose proof Hok as [Pd Pt Ps Pg Pm].
  destruct Hst as [now Hle Htm|Hl Hpos|Hl|t tls Hl Hf|t acc tls Hk|t acc tls ip sl Hk Ha|t acc tls ip g slot sl Hk Ha Hg
    |t acc since g h2 Hk|t k g Hk Hkg|t g u Hk Hu|u g Hu|Hl Hpos|Hl|ip sl Hl Ha|ip t g slot sl Hl Ha Hg Hf|Hd Hl|Hp|u Hp Hu
    |u Hp Hu|u Hp Hu|p Hp]; try (by apply (phase_ok_same s); rewrite ?Hl).
  - split; cbn; [done..| |done]. intros Hp. destruct (Pg Hp) as (Hr & t0 & Hs & Ht0 & Hg & Hu). split; [done|].
    exists t0. split_and!; [done|lia|intros Hd; specialize (Hg Hd); lia|]. intros u Hpu.
    destruct (Hu u Hpu) as (Hdue & Hnow & Heq). split_and!; [done| |done]. apply Htm. apply (TmPhase s u).
    destruct (sv_phase s); cbn in Hpu; simplify_eq; naive_solver.
  - split; cbn; try done.
    + by rewrite Pd, Hp.
    + by rewrite Pt, Hp.
    + intros _. split; [done|]. exists (sv_now s). split_and!; [done|lia|done|]. intros u [= <-]. split_and!; [lia|lia|done].
  - split; cbn; try done. intros _. destruct Pg as (Hr & t0 & Hs & Ht0 & _ & Hgu); [by rewrite Hp|]. split; [done|].
    rewrite Hp in Hgu. destruct (Hgu u eq_refl) as (_ & Hnow & Heq). specialize (Heq eq_refl).
    exists t0. split_and!; [done|lia|intros _; fold grace; lia|].
    intros u' [= <-]. split_and!; [cbn; lia|lia|done].
  - destruct Pg as (_ & t0 & Hs & _); [by rewrite Hp|]. apply (after_drain_ok s t0); [done|done|by exists u].
  - destruct Pg as (_ & t0 & Hs & _); [by rewrite Hp|]. apply (after_drain_ok s t0); [done|done|by exists u].
  - destruct Pg as (_ & t0 & Hs & _); [by intros E; rewrite E in Hp|]. by apply (next_phase_ok s t0).
Qed.

Record serve_ok (s : ServeState) : Prop := {
  vo_conns : conns_ok None (conns_held s) (sv_conns s);
  vo_tasks : tasks_ok s;
  vo_phase : phase_ok s;
}.

Lemma serve_reachable s : rtc step new s -> serve_ok s.
Proof.
  intros Hr. assert (H0 : serve_ok new).
  { split; [|done|]; (split; cbn; try done).
    - unfold conns_held. cbn. destruct h3; cbn; reflexivity.
    - intros g _ [x Hx]. done.
    - intros slot x [-> _]%lookup_replicate_1. done. }
  revert H0. induction Hr as [|x y z Hxy _ IH]; [done|]. intros [H1 H2 H3]. apply IH.
  split; [by eapply serve_step_conns|by eapply serve_step_tasks|by eapply serve_step_phase].
Qed.

(** C34: Admission is accounted for exactly.  Whatever connections arrive over TCP and QUIC, are
    refused, upgraded, closed or cut: the free permits, those in the accept loops' hands, the
    connections not yet admitted and the guards held by admitted ones always add up to
    [MAX_CONNECTIONS]; guards live exactly as long as a connection or one of its tunnels refers to
    them; each source's slot counts its guards and never exceeds the cap; and when the drain has
    every permit, no connection and no tunnel is left.  A connection is through the PROXY header
    and the handshake, or gone, within their two timeouts. *)
Theorem connections_accounted (s : ServeState) : rtc step new s ->
  let c := sv_conns s in
  cn_permits c + conns_held s + Z.of_nat (count admitting (cn_tasks c)) + Z.of_nat (size (cn_guards c)) = MAX_CONNECTIONS /\
  0 <= cn_permits c /\
  (forall g, is_Some (cn_guards c !! g) <-> ~ unreferenced g c) /\
  (forall slot x, cn_slots c !! slot = Some x ->
     x = Z.of_nat (count (fun y => y = slot) (cn_guards c)) /\ x <= MAX_CONNECTIONS_PER_IP) /\
  (cn_permits c = MAX_CONNECTIONS -> cn_tasks c = ∅ /\ cn_tunnels c = ∅) /\
  (forall t accepted since g, cn_tasks c !! t = Some (TkHandshake accepted since g) ->
     sv_now s <= accepted + 2 * (INBOUND_HEADER_READ_TIMEOUT + lateness)).
Proof.
  intros Hr. destruct (serve_reachable s Hr) as [[Hp Hroom Ht Hu Hus Hl Hs Hg] Htk _]. cbv zeta.
  assert (Hlive : forall g, is_Some (cn_guards (sv_conns s) !! g) <-> ~ unreferenced g (sv_conns s)).
  { intros g. split; [by apply Hus|]. intros Hn. destruct (cn_guards (sv_conns s) !! g) eqn:Eg; [by eexists|].
    destruct Hn. split.
    - intros t k Hk Hkg. destruct (Ht t k g Hk Hkg) as [x Hx]. congruence.
    - intros u g' Hk ->. destruct (Hu u g Hk) as [x Hx]. congruence. }
  split_and!; [done|done|done|done| |].
  - intros Hall. assert (0 <= conns_held s) by (unfold conns_held; destruct (sv_tcp s), (sv_h3 s); done).
    assert (Hsz : size (cn_guards (sv_conns s)) = 0%nat) by lia. assert (Hc : count admitting (cn_tasks (sv_conns s)) = 0%nat) by lia.
    apply map_size_empty_inv in Hsz. split; apply map_empty.
    + intros t. destruct (cn_tasks (sv_conns s) !! t) as [k|] eqn:Ek; [|done]. exfalso. destruct (task_guards k) as [g|] eqn:Eg.
      * destruct (Ht t k g Ek Eg) as [x Hx]. by rewrite Hsz in Hx.
      * rewrite (count_delete admitting _ t k Ek), decide_True in Hc by done. done.
    + intros u. destruct (cn_tunnels (sv_conns s) !! u) as [g|] eqn:Eu; [|done]. exfalso.
      destruct (Hu u g Eu) as [x Hx]. by rewrite Hsz in Hx.
  - intros t accepted since g Hk. specialize (Htk _ _ Hk). cbn in Htk. lia.
Qed.

(** C33: A graceful shutdown keeps its order and ends.  From the signal on the server is not ready;
    it accepts through the whole readiness grace, and the drain starts exactly when accepting
    stops; no wait outlives its deadline without a step that ends it; and a server that has not
    returned is within the grace, the two drain windows, the export flush and the fixed slack of
    the signal, and the lateness of its seven timers, whatever its connections, exporter and
    supervisors do. *)
Theorem shutdown_bounded (s : ServeState) (t0 : Z) : rtc step new s -> sv_signal s = Some t0 ->
  sv_ready s = false /\
  (sv_tcp s = LpDone <-> sv_drain s = true) /\ (sv_drain s = true -> t0 + grace <= sv_now s) /\
  (forall u, until_of (sv_phase s) = Some u -> u <= sv_now s -> exists s', step s s' /\ sv_phase s' <> sv_phase s) /\
  (sv_phase s <> PhReturned ->
     sv_now s <= t0 + grace + 2 * window + SHUTDOWN_FLUSH_DEADLINE + 5000 + 7 * lateness).
Proof.
  intros Hr Hs. destruct (serve_reachable s Hr) as [_ _ [Pd Pt Ps Pg Pm]].
  destruct Pg as (Hready & t0' & Hs' & Ht0 & Hgr & Hu); [by intros E; destruct (Ps E); congruence|].
  rewrite Hs in Hs'. injection Hs' as <-. split_and!; [done|by rewrite Pt, Pd|by rewrite Pd| |].
  - intros u Hpu Hle. destruct (sv_phase s) as [|u'|u'|u'|u'|more u'|] eqn:Ep; cbn in Hpu; try done; injection Hpu as ->.
    + eexists. split; [by eapply LnStop|]. by cbn.
    + eexists. split; [by eapply LnCut|]. cbn. unfold after_drain, after_h3, after_pump. by destruct h3, otlp.
    + eexists. split; [apply LnNext; by rewrite Ep|]. cbn. unfold after_h3, after_pump. by destruct otlp.
    + eexists. split; [apply LnNext; by rewrite Ep|]. by cbn.
    + destruct more as [|more]; (eexists; split; [apply LnNext; by rewrite Ep|]); cbn; [done|]. intros [=]. lia.
  - intros Hnr. assert (Hq : sv_phase s <> PhServing) by (intros E; destruct (Ps E); congruence).
    unfold SHUTDOWN_FLUSH_DEADLINE in *.
    destruct (sv_phase s) as [|u|u|u|u|more u|] eqn:Ep; try done; destruct (Hu u eq_refl) as (Hdue & Hnow & _);
      cbn in Hdue; unfold SHUTDOWN_FLUSH_DEADLINE in *; [lia..|]. specialize (Pm _ _ eq_refl). nia.
Qed.
End server.

Lemma first_slot (hash : list Z -> Z) ip c : cn_slots c = replicate (Z.to_nat CONN_IP_SLOTS) 0 ->
  try_acquire hash ip c = (Some (conn_slot_for_ip hash ip), <[conn_slot_for_ip hash ip := 1]> (replicate (Z.to_nat CONN_IP_SLOTS) 0)).
Proof.
  intros E. unfold try_acquire, conn_try_acquire. rewrite E, lookup_replicate_2 by apply conn_slot_bound. done.
Qed.

(** A connection is accepted without TLS and upgraded; its task ends, and its tunnel keeps both
    guards. *)
Definition one_tunnel : ServeState :=
  on_conns (fun c => drop_guards 5 (end_task 1 c)) (on_conns (open_tunnel 9 5) (on_conns (fun c => set_task 1 (TkServing true 5)
    (hold_guards 5 7 (<[7%nat := 1]> (replicate (Z.to_nat CONN_IP_SLOTS) 0)) c))
    (on_tcp LpPermit (on_conns (set_task 1 (TkProxy 0 false)) (on_tcp LpAccept (on_conns take_permit (serve_new false))))))).

Lemma connections_accounted_witness :
  rtc (serve_step (fun _ => 7) false false false None 0) (serve_new false) one_tunnel /\
  cn_permits (sv_conns one_tunnel) = 9999 /\ (is_Some (cn_guards (sv_conns one_tunnel) !! 5%nat) <-> ~ unreferenced 5 (sv_conns one_tunnel)).
Proof.
  assert (H : rtc (serve_step (fun _ => 7) false false false None 0) (serve_new false) one_tunnel).
  { unfold one_tunnel. eapply rtc_l; [by apply LnPermit|]. eapply rtc_l; [by apply (LnAccept _ _ _ _ _ _ _ 1 false)|].
    eapply rtc_l; [apply (LnAdmit _ _ _ _ _ _ _ 1 0 false (V4 192 0 2 1) 5 7); [reflexivity|by apply first_slot|reflexivity]|].
    eapply rtc_l; [by apply (LnTunnel _ _ _ _ _ _ _ 1 5 9)|]. by eapply rtc_once, (LnEnd _ _ _ _ _ _ _ 1 (TkServing true 5) 5). }
  split; [exact H|]. split; [by vm_compute|].
  exact (proj1 (proj2 (proj2 (connections_accounted (fun _ => 7) false false false None 0 ltac:(done) ltac:(done) ltac:(done)
    one_tunnel H))) 5%nat).
Defined.

(** With a grace of two seconds, the server is still accepting one second after the signal. *)
Lemma shutdown_bounded_witness : let drain := Some (mkDrain (Some 2000) None) in
  let s := at_time 1000 (mkServe 0 false false (PhGrace 2000) LpPermit LpDone (sv_conns (serve_new false)) (Some 0)) in
  rtc (serve_step (fun _ => 7) false false false drain 0) (serve_new false) s /\
  sv_now s <= 0 + 2000 + 2 * 30000 + SHUTDOWN_FLUSH_DEADLINE + 5000 + 7 * 0.
Proof.
  cbv zeta. match goal with |- rtc ?R ?x ?y /\ _ => assert (H : rtc R x y) end.
  { eapply rtc_l; [by apply LnSignal|]. eapply rtc_once, LnTime; [done|]. intros d Hd.
    inversion Hd as [t acc tls Ht|t acc since g Ht|u Hu]; [done|done|]. cbn in Hu. destruct Hu as [[= <-]|[?|[?|[?|[m ?]]]]]; done. }
  split; [exact H|].
  refine (proj2 (proj2 (proj2 (proj2 (shutdown_bounded (fun _ => 7) false false false (Some (mkDrain (Some 2000) None)) 0 _ _ _ _ 0 H _)))) _);
    done.
Defined.
