(* ===== verification/F64.v ===== *)
(** * Double-precision floats

    Rust's [f64] as far as the metrics use it: the standard's binary64 operations, conversions to
    and from [u64], durations in seconds, and the decimal text [Display] gives. *)

From Stdlib Require Import SpecFloat.
From stdpp Require Import pretty.
From S2P Require Import Prelude Bytes.

Abbreviation f64 := spec_float.

(** ** Arithmetic *)

Definition f64_of (n : Z) : f64 := binary_normalize 53 1024 n 0 false.
Definition f64_div : f64 -> f64 -> f64 := SFdiv 53 1024.
Definition f64_mul : f64 -> f64 -> f64 := SFmul 53 1024.
Definition f64_add : f64 -> f64 -> f64 := SFadd 53 1024.
Definition f64_leb : f64 -> f64 -> bool := SFleb.

(** A literal [n / d], with both small enough to be exact: the nearest double. *)
Definition f64_lit (n d : Z) : f64 := f64_div (f64_of n) (f64_of d).

(** [as u64]: towards zero, saturating, NaN is zero. *)
Definition f64_to_u64 (x : f64) : Z :=
  match x with
  | S754_nan | S754_zero _ | S754_infinity true | S754_finite true _ _ => 0
  | S754_infinity false => u64_max
  | S754_finite false m e =>
    Z.min u64_max (if 0 <=? e then Z.pos m * 2 ^ e else Z.pos m / 2 ^ (- e))
  end.

(** [Duration::as_secs_f64], of a duration in nanoseconds. *)
Definition as_secs_f64 (nanos : Z) : f64 :=
  f64_add (f64_of (nanos / 1000000000)) (f64_div (f64_of (nanos mod 1000000000)) (f64_of 1000000000)).

(** ** The decimal text *)

Definition dec (n : Z) : bytes := bs (pretty (Z.to_N n)).

(** The text of [q * 10 ^ p] for a positive [q]. *)
Definition show_decimal (q p : Z) : bytes :=
  let digits := dec q in
  if 0 <=? p then digits ++ replicate (Z.to_nat p) "0"%char
  else
    let frac := Z.to_nat (- p) in
    let whole := (length digits - frac)%nat in
    (if (whole =? 0)%nat then bs "0" else take whole digits) ++ DOT ::
      replicate (frac - length digits) "0"%char ++ drop whole digits.

(** The exponent [k] with [10^(k-1) <= num/den < 10^k]; a double needs at most 324 steps. *)
Fixpoint dec_exp (fuel : nat) (num den k : Z) : Z :=
  match fuel with
  | O => k
  | S fuel =>
    if den <=? num then dec_exp fuel num (den * 10) (k + 1)
    else if num * 10 <? den then dec_exp fuel (num * 10) den (k - 1) else k
  end.

(** The nearest [n]-digit decimal among those strictly between the neighbouring midpoints, which
    count if [even]: [(q, p)] for [q * 10^p]. *)
Definition digits_at (n : Z) (num lo hi den k : Z) (even : bool) : option (Z * Z) :=
  let p := k - n in
  let up := if p <? 0 then 10 ^ (- p) else 1 in
  let down := if p <? 0 then 1 else 10 ^ p in
  let q := num * up / (den * down) in
  let inside c := let x := c * den * down in
    if even then (lo * up <=? x) && (x <=? hi * up) else (lo * up <? x) && (x <? hi * up) in
  let err c := Z.abs (c * den * down - num * up) in
  match inside q && (0 <? q), inside (q + 1) with
  | true, true => Some (if err q <? err (q + 1) then q else q + 1, p)
  | true, false => Some (q, p)
  | false, true => Some (q + 1, p)
  | false, false => None
  end.

(** The fewest digits; seventeen always suffice. *)
Fixpoint shortest (tries : nat) (n num lo hi den k : Z) (even : bool) : option (Z * Z) :=
  match tries with
  | O => None
  | S tries =>
    match digits_at n num lo hi den k even with
    | Some d => Some d
    | None => shortest tries (n + 1) num lo hi den k even
    end
  end.

(** Quarters of the last place: the value, and the midpoints to its neighbours. *)
Definition show_finite (m e : Z) : bytes :=
  let scale := if 0 <=? e then 2 ^ e else 1 in
  let den := 4 * (if 0 <=? e then 1 else 2 ^ (- e)) in
  let below := if (m =? 2 ^ 52) && (-1074 <? e) then 1 else 2 in
  let num := 4 * m * scale in
  match shortest 17 1 num (num - below * scale) (num + 2 * scale) den (dec_exp 400 num den 0) (Z.even m) with
  | Some (q, p) => show_decimal q p
  | None => []
  end.

(** [Display] for [f64]. *)
Definition show_f64 (x : f64) : bytes :=
  let sign (s : bool) t := if s then "-"%char :: t else t in
  match x with
  | S754_nan => bs "NaN"
  | S754_infinity s => sign s (bs "inf")
  | S754_zero s => sign s (bs "0")
  | S754_finite s m e => sign s (show_finite (Z.pos m) e)
  end.

Example show_literals :
  map (fun p => show_f64 (f64_lit p.1 p.2)) [(1, 1000); (25, 1000); (1, 10); (5, 2); (10, 1); (5, 1000000); (1, 3)]
  = map bs ["0.001"; "0.025"; "0.1"; "2.5"; "10"; "0.000005"; "0.3333333333333333"].
Proof. vm_compute. reflexivity. Qed.

(** The sum of a tenth and a fifth needs seventeen digits; a power of two, and the largest and the
    smallest doubles. *)
Example show_hard :
  show_f64 (f64_add (f64_lit 1 10) (f64_lit 2 10)) = bs "0.30000000000000004" /\
  show_f64 (f64_of (2 ^ 53)) = bs "9007199254740992" /\
  take 20 (show_f64 (S754_finite false 9007199254740991 971)) = bs "17976931348623157000" /\
  drop 322 (show_f64 (S754_finite false 1 (-1074))) = bs "0005".
Proof. vm_compute. split_and!; reflexivity. Qed.

(** ** Lemmas *)

(** What is shown lies between the midpoints to the neighbouring doubles, so it reads back as the
    value. *)
Lemma digits_at_inside n num lo hi den k even q p : digits_at n num lo hi den k even = Some (q, p) -> p = k - n /\
  lo * (if p <? 0 then 10 ^ (- p) else 1) <= q * den * (if p <? 0 then 1 else 10 ^ p) <= hi * (if p <? 0 then 10 ^ (- p) else 1).
Proof.
  unfold digits_at. set (up := if k - n <? 0 then _ else _). set (down := if k - n <? 0 then _ else _).
  set (q0 := num * up / (den * down)). cbv zeta. intros H.
  assert (Hin : forall c, (if even then (lo * up <=? c * den * down) && (c * den * down <=? hi * up)
      else (lo * up <? c * den * down) && (c * den * down <? hi * up)) = true ->
    lo * up <= c * den * down <= hi * up).
  { intros c. destruct even; intros Hc; bools; lia. }
  destruct ((if even then _ else _) && (0 <? q0)) eqn:E1; [apply andb_true_iff in E1 as [E1 _]|];
    destruct (if even then (lo * up <=? (q0 + 1) * den * down) && _ else _) eqn:E2; try done; injection H as <- <-;
    (split; [done|]); fold up; fold down;
    [match goal with |- context [if ?b then q0 else _] => destruct b end; [exact (Hin _ E1)|exact (Hin _ E2)]|exact (Hin _ E1)|exact (Hin _ E2)].
Qed.

Lemma shortest_inside tries n num lo hi den k even q p : shortest tries n num lo hi den k even = Some (q, p) ->
  lo * (if p <? 0 then 10 ^ (- p) else 1) <= q * den * (if p <? 0 then 1 else 10 ^ p) <= hi * (if p <? 0 then 10 ^ (- p) else 1).
Proof.
  revert n. induction tries as [|tries IH]; cbn; intros n H; [done|].
  destruct (digits_at n num lo hi den k even) as [d|] eqn:E; [|by apply (IH (n + 1))].
  injection H as ->. by eapply digits_at_inside.
Qed.

(** What a value of the exposition is made of. *)
Definition value_char (c : ascii) : Prop := c <> " "%char /\ c <> ascii_of_nat 10.

Lemma pretty_go_chars x s : Forall value_char (String.list_ascii_of_string s) ->
  Forall value_char (String.list_ascii_of_string (pretty_N_go x s)).
Proof.
  revert s. induction (N.lt_wf_0 x) as [x _ IH]; intros s Hs. destruct (decide (0 < x)%N) as [Hx|Hx].
  - rewrite pretty_N_go_step by done. apply IH; [by apply N.div_lt|]. cbn. constructor; [|done].
    unfold pretty_N_char. by repeat case_match.
  - assert (x = 0%N) as -> by lia. by rewrite pretty_N_go_0.
Qed.

Lemma dec_chars n : Forall value_char (dec n).
Proof.
  unfold dec, bs, pretty, pretty_N. case_decide; [by repeat constructor|]. apply pretty_go_chars. by constructor.
Qed.

Lemma show_decimal_chars q p : Forall value_char (show_decimal q p).
Proof.
  assert (Hz : forall n, Forall value_char (replicate n "0"%char)) by (intros n; by apply Forall_replicate).
  unfold show_decimal. case_match; [apply Forall_app; split; [apply dec_chars|apply Hz]|].
  apply Forall_app. split.
  - case_match; [by repeat constructor|]. apply Forall_take, dec_chars.
  - constructor; [done|]. apply Forall_app. split; [apply Hz|apply Forall_drop, dec_chars].
Qed.

Lemma show_f64_chars x : Forall value_char (show_f64 x).
Proof.
  assert (Hs : forall m e, Forall value_char (show_finite m e)).
  { intros m e. unfold show_finite. destruct (shortest _ _ _ _ _ _ _ _) as [[q p]|]; [apply show_decimal_chars|by constructor]. }
  destruct x as [s|s| |s m e]; cbn; try (destruct s; by repeat constructor); try (by repeat constructor).
Qed.
#[export] Hint Resolve dec_chars show_f64_chars : plecto.
