(* ===== verification/Metrics.v ===== *)
(** * The native metrics and their exposition (server/src/metrics.rs)

    The counters of the fast path, the registry of routes, and the Prometheus text that one scrape
    renders of them, of the filter sink's snapshot and of the upstreams' instances. *)

From stdpp Require Import sorting.
From S2P Require Import Prelude Bytes F64 Upstream Route Observe Transaction.

(** ** The counters *)

Definition DURATION_BUCKETS : list (Z * Z) :=
  [(1, 1000); (5, 1000); (1, 100); (25, 1000); (5, 100); (1, 10); (25, 100); (5, 10); (1, 1); (25, 10); (5, 1); (10, 1)].
(** The bounds as the literals they are written as. *)
Definition duration_bounds : list f64 := map (fun p => f64_lit p.1 p.2) DURATION_BUCKETS.

Definition UPSTREAM_STATES : list bytes := map bs ["healthy"; "unhealthy"; "ejected"].
Definition instance_state (healthy ejected : bool) : nat :=
  match ejected, healthy with true, _ => 2 | false, true => 0 | false, false => 1 end.

Record Histogram := mkHistogram { hg_buckets : list Z; hg_count : Z; hg_sum_micros : Z }.
Definition histogram_new : Histogram := mkHistogram (map (fun _ => 0) DURATION_BUCKETS) 0 0.

(** The first slot whose bound is not below the observation. *)
Fixpoint observe_slot (bounds : list f64) (slots : list Z) (seconds : f64) : list Z :=
  match bounds, slots with
  | bound :: bounds, slot :: slots =>
    if f64_leb seconds bound then wrapping_add slot 1 :: slots else slot :: observe_slot bounds slots seconds
  | _, _ => slots
  end.

Definition observe (seconds : f64) (h : Histogram) : Histogram :=
  mkHistogram (observe_slot duration_bounds (hg_buckets h) seconds) (wrapping_add (hg_count h) 1)
    (wrapping_add (hg_sum_micros h) (f64_to_u64 (f64_mul seconds (f64_of 1000000)))).

Record RouteCounters := mkRoute { rc_status_class : list Z; rc_rate_limited : Z }.
Definition route_counters_new : RouteCounters := mkRoute [0; 0; 0; 0; 0] 0.

Definition skip_index (s : InspectionSkip) : nat :=
  match s with StreamingContentType => 0 | ContentEncoding => 1 | PartialContent => 2 | OverCap => 3 end.
Definition ALL_SKIPS : list InspectionSkip := [StreamingContentType; ContentEncoding; PartialContent; OverCap].
Definition skip_as_str (s : InspectionSkip) : bytes :=
  bs match s with
     | StreamingContentType => "streaming-content-type"
     | ContentEncoding => "content-encoding"
     | PartialContent => "partial-content"
     | OverCap => "over-cap"
     end.

(** [sm_routes] is a [BTreeMap]: its entries are in the order of their names. *)
Record ServerMetrics := mkServer {
  sm_routes : list (bytes * RouteCounters);
  sm_in_flight : Z;
  sm_retries : Z;
  sm_circuit_open : Z;
  sm_outlier_ejections : Z;
  sm_tunnels_active : Z;
  sm_tunnel_bytes_down : Z;
  sm_tunnel_bytes_up : Z;
  sm_inspection_skipped : list Z;
  sm_duration : Histogram;
}.

Definition server_metrics_new : ServerMetrics :=
  mkServer [(UNMATCHED_ROUTE, route_counters_new)] 0 0 0 0 0 0 0 [0; 0; 0; 0] histogram_new.

(** ** The registry *)

Fixpoint route_counters (routes : list (bytes * RouteCounters)) (name : bytes) : option RouteCounters :=
  match routes with
  | [] => None
  | (n, c) :: routes => if bytes_eqb n name then Some c else route_counters routes name
  end.

(** [entry(name).or_insert]: no existing entry is replaced. *)
Fixpoint insert_route (name : bytes) (routes : list (bytes * RouteCounters)) : list (bytes * RouteCounters) :=
  match routes with
  | [] => [(name, route_counters_new)]
  | (n, c) :: rest =>
    if bytes_eqb n name then routes
    else if bytes_leb name n then (name, route_counters_new) :: routes
    else (n, c) :: insert_route name rest
  end.

(** The counters of a route, found or inserted, are updated in place. *)
Definition on_route (f : RouteCounters -> RouteCounters) (name : bytes) (routes : list (bytes * RouteCounters))
    : list (bytes * RouteCounters) :=
  map (fun e => (e.1, if bytes_eqb e.1 name then f e.2 else e.2)) (insert_route name routes).

Definition register_routes (names : list bytes) (routes : list (bytes * RouteCounters)) : list (bytes * RouteCounters) :=
  fold_left (fun routes name => insert_route name routes) names routes.

(** ** Recording *)

Definition bump_at (i : nat) (slots : list Z) : list Z :=
  match slots !! i with Some n => <[i := wrapping_add n 1]> slots | None => slots end.

(** [(status / 100).clamp(1, 5) - 1]. *)
Definition status_class (status : Z) : nat := Z.to_nat (Z.min (Z.max (status / 100) 1) 5 - 1).

Definition inc_class (status : Z) (c : RouteCounters) : RouteCounters :=
  mkRoute (bump_at (status_class status) (rc_status_class c)) (rc_rate_limited c).
Definition inc_limited (c : RouteCounters) : RouteCounters :=
  mkRoute (rc_status_class c) (wrapping_add (rc_rate_limited c) 1).

(** An [i64]'s wrapping addition. *)
Definition wrap_i64 (x : Z) : Z := (x + 2 ^ 63) mod 2 ^ 64 - 2 ^ 63.

Definition with_routes (r : list (bytes * RouteCounters)) (m : ServerMetrics) : ServerMetrics :=
  mkServer r (sm_in_flight m) (sm_retries m) (sm_circuit_open m) (sm_outlier_ejections m) (sm_tunnels_active m)
    (sm_tunnel_bytes_down m) (sm_tunnel_bytes_up m) (sm_inspection_skipped m) (sm_duration m).
Definition with_gauges (in_flight tunnels : Z) (m : ServerMetrics) : ServerMetrics :=
  mkServer (sm_routes m) in_flight (sm_retries m) (sm_circuit_open m) (sm_outlier_ejections m) tunnels
    (sm_tunnel_bytes_down m) (sm_tunnel_bytes_up m) (sm_inspection_skipped m) (sm_duration m).
Definition with_totals (retries circuit ejections down up : Z) (m : ServerMetrics) : ServerMetrics :=
  mkServer (sm_routes m) (sm_in_flight m) retries circuit ejections (sm_tunnels_active m) down up
    (sm_inspection_skipped m) (sm_duration m).
Definition with_skips (skips : list Z) (m : ServerMetrics) : ServerMetrics :=
  mkServer (sm_routes m) (sm_in_flight m) (sm_retries m) (sm_circuit_open m) (sm_outlier_ejections m) (sm_tunnels_active m)
    (sm_tunnel_bytes_down m) (sm_tunnel_bytes_up m) skips (sm_duration m).
Definition with_duration (h : Histogram) (m : ServerMetrics) : ServerMetrics :=
  mkServer (sm_routes m) (sm_in_flight m) (sm_retries m) (sm_circuit_open m) (sm_outlier_ejections m) (sm_tunnels_active m)
    (sm_tunnel_bytes_down m) (sm_tunnel_bytes_up m) (sm_inspection_skipped m) h.

Definition add_tunnel_bytes (down up : Z) (m : ServerMetrics) : ServerMetrics :=
  with_totals (sm_retries m) (sm_circuit_open m) (sm_outlier_ejections m) (wrapping_add (sm_tunnel_bytes_down m) down)
    (wrapping_add (sm_tunnel_bytes_up m) up) m.
(** A [TunnelActive] guard, made and dropped. *)
Definition tunnel_active (delta : Z) (m : ServerMetrics) : ServerMetrics :=
  with_gauges (sm_in_flight m) (wrap_i64 (sm_tunnels_active m + delta)) m.
Definition inc_in_flight (delta : Z) (m : ServerMetrics) : ServerMetrics :=
  with_gauges (wrap_i64 (sm_in_flight m + delta)) (sm_tunnels_active m) m.
Definition inc_retries (m : ServerMetrics) : ServerMetrics :=
  with_totals (wrapping_add (sm_retries m) 1) (sm_circuit_open m) (sm_outlier_ejections m) (sm_tunnel_bytes_down m)
    (sm_tunnel_bytes_up m) m.
Definition inc_circuit_open (m : ServerMetrics) : ServerMetrics :=
  with_totals (sm_retries m) (wrapping_add (sm_circuit_open m) 1) (sm_outlier_ejections m) (sm_tunnel_bytes_down m)
    (sm_tunnel_bytes_up m) m.
Definition inc_outlier_ejection (m : ServerMetrics) : ServerMetrics :=
  with_totals (sm_retries m) (sm_circuit_open m) (wrapping_add (sm_outlier_ejections m) 1) (sm_tunnel_bytes_down m)
    (sm_tunnel_bytes_up m) m.
Definition inc_inspection_skipped (reason : InspectionSkip) (m : ServerMetrics) : ServerMetrics :=
  with_skips (bump_at (skip_index reason) (sm_inspection_skipped m)) m.
Definition inc_rate_limited (route : bytes) (m : ServerMetrics) : ServerMetrics :=
  with_routes (on_route inc_limited route (sm_routes m)) m.
Definition record_request (route : bytes) (status nanos : Z) (m : ServerMetrics) : ServerMetrics :=
  with_duration (observe (as_secs_f64 nanos) (sm_duration m)) (with_routes (on_route (inc_class status) route (sm_routes m)) m).

(** What a transaction reports, with the time a completed request took. *)
Definition count_metric (ev : Metric * Z) (m : ServerMetrics) : ServerMetrics :=
  match ev.1 with
  | MRateLimited route => inc_rate_limited route m
  | MCircuitOpen => inc_circuit_open m
  | MInspectionSkipped reason => inc_inspection_skipped reason m
  | MInFlight delta => inc_in_flight delta m
  | MRequest route status => record_request route status ev.2 m
  end.

(** ** The exposition *)

Definition NEWLINE : ascii := ascii_of_nat 10.
Definition BACKSLASH : ascii := ascii_of_nat 92.
Definition QUOTE : ascii := ascii_of_nat 34.

Definition escape_char (c : ascii) : bytes :=
  if ascii_eqb c BACKSLASH then [BACKSLASH; BACKSLASH]
  else if ascii_eqb c QUOTE then [BACKSLASH; QUOTE]
  else if ascii_eqb c NEWLINE then [BACKSLASH; "n"%char]
  else [c].
Definition escape_label_value (value : bytes) : bytes :=
  if existsb (fun c => ascii_eqb c BACKSLASH || ascii_eqb c QUOTE || ascii_eqb c NEWLINE) value
  then concat (map escape_char value) else value.

(** A line as the code formats it: a comment, or a sample with the label text it interpolates. *)
Record Sample := mkSample { sp_name : bytes; sp_labels : list (bytes * bytes); sp_value : bytes }.
Inductive Line := LHelp (name text : bytes) | LType (name kind : bytes) | LSample (s : Sample).

Definition label_text (l : bytes * bytes) : bytes := l.1 ++ "="%char :: QUOTE :: l.2 ++ [QUOTE].
Definition labels_text (ls : list (bytes * bytes)) : bytes :=
  match ls with [] => [] | _ => "{"%char :: join ","%char (map label_text ls) ++ ["}"%char] end.
Definition line_text (l : Line) : bytes :=
  match l with
  | LHelp name text => bs "# HELP " ++ name ++ " "%char :: text
  | LType name kind => bs "# TYPE " ++ name ++ " "%char :: kind
  | LSample s => sp_name s ++ labels_text (sp_labels s) ++ " "%char :: sp_value s
  end.

Definition family (name help kind : string) (samples : list Sample) : list Line :=
  LHelp (bs name) (bs help) :: LType (bs name) (bs kind) :: map LSample samples.
Definition single (name help kind : string) (value : bytes) : list Line :=
  family name help kind [mkSample (bs name) [] value].

(** The buckets of a histogram, cumulative, then [+Inf], the sum and the count. *)
Fixpoint cumulative (acc : Z) (bounds : list f64) (slots : list Z) : list (bytes * Z) :=
  match bounds, slots with
  | bound :: bounds, slot :: slots =>
    let acc := wrapping_add acc slot in (show_f64 bound, acc) :: cumulative acc bounds slots
  | _, _ => []
  end.
Definition histogram_samples (name : string) (bounds : list f64) (slots : list Z) (count : Z) (sum : f64) : list Sample :=
  let bucket le n := mkSample (bs name ++ bs "_bucket") [(bs "le", le)] (dec n) in
  map (fun p => bucket p.1 p.2) (cumulative 0 bounds slots) ++
  [bucket (bs "+Inf") count; mkSample (bs name ++ bs "_sum") [] (show_f64 sum); mkSample (bs name ++ bs "_count") [] (dec count)].

Record PoolResidency := mkPool { pr_component_instances : Z; pr_memories : Z; pr_unused_bytes : Z }.

Section render.
(** The escaping of a label value, and the clock the instances' ejection is read at. *)
Context (escape : bytes -> bytes) (heap : Heap) (now_ms : Z).

Definition CLASSES : list bytes := map bs ["1xx"; "2xx"; "3xx"; "4xx"; "5xx"].

Definition request_samples (routes : list (bytes * RouteCounters)) : list Sample :=
  concat (map (fun e => map (fun p => mkSample (bs "plecto_requests_total")
    [(bs "route", escape e.1); (bs "status_class", p.1)] (dec p.2)) (zip CLASSES (rc_status_class e.2))) routes).

Definition limited_samples (routes : list (bytes * RouteCounters)) : list Sample :=
  concat (map (fun e => if bytes_eqb e.1 UNMATCHED_ROUTE then []
    else [mkSample (bs "plecto_rate_limited_total") [(bs "route", escape e.1)] (dec (rc_rate_limited e.2))]) routes).

Definition skip_samples (skips : list Z) : list Sample :=
  map (fun reason => mkSample (bs "plecto_response_body_inspection_skipped_total") [(bs "reason", skip_as_str reason)]
    (dec (default 0 (skips !! skip_index reason)))) ALL_SKIPS.

(** A group's instances by state; an id the heap does not know counts nowhere. *)
Definition state_counts (ids : list nat) : list Z :=
  fold_left (fun counts id =>
    match heap !! id with
    | Some i => bump_at (instance_state (i_healthy i) (is_outlier_ejected i now_ms)) counts
    | None => counts
    end) ids [0; 0; 0].
Definition upstream_samples (upstreams : list (bytes * list nat)) : list Sample :=
  concat (map (fun g => map (fun p => mkSample (bs "plecto_upstream_instances")
    [(bs "upstream", escape g.1); (bs "state", p.1)] (dec p.2)) (zip UPSTREAM_STATES (state_counts g.2))) upstreams).

Definition fallback_samples (i : InlineMetrics) : list Sample :=
  map (fun p : string * Z => mkSample (bs "plecto_filter_inline_fallbacks_total") [(bs "reason", bs p.1)] (dec p.2))
    [("pool_exhausted"%string, im_pool_exhausted i); ("pool_filling"%string, im_pool_filling i);
     ("breaker_open"%string, im_breaker_open i)].

Definition native_lines (m : ServerMetrics) (upstreams : list (bytes * list nat)) : list Line :=
  family "plecto_requests_total" "Total client requests handled, by route and response status class." "counter"
    (request_samples (sm_routes m)) ++
  single "plecto_requests_in_flight" "Requests currently being served." "gauge" (dec (Z.max (sm_in_flight m) 0)) ++
  family "plecto_request_duration_seconds" "Request duration in seconds." "histogram"
    (histogram_samples "plecto_request_duration_seconds" duration_bounds (hg_buckets (sm_duration m)) (hg_count (sm_duration m))
       (f64_div (f64_of (hg_sum_micros (sm_duration m))) (f64_of 1000000))) ++
  single "plecto_upstream_retries_total" "Upstream request retries onto another instance." "counter" (dec (sm_retries m)) ++
  single "plecto_circuit_open_total" "Requests shed by an upstream circuit breaker (ADR 000028)." "counter"
    (dec (sm_circuit_open m)) ++
  family "plecto_rate_limited_total"
    "Requests rejected by a native route rate limit, by route (ADR 000033 / 000112)." "counter"
    (limited_samples (sm_routes m)) ++
  single "plecto_outlier_ejections_total" "Instances ejected from rotation by outlier detection (ADR 000032)." "counter"
    (dec (sm_outlier_ejections m)) ++
  family "plecto_response_body_inspection_skipped_total"
    "Responses a route's on-response-body filters did not inspect, by reason (ADR 000098)." "counter"
    (skip_samples (sm_inspection_skipped m)) ++
  family "plecto_upstream_instances" "Upstream instances by state (ADR 000017 / 000032)." "gauge"
    (upstream_samples upstreams) ++
  single "plecto_tunnels_active"
    "Upgrade tunnels currently open (ADR 000048/000059); each holds a breaker permit and an LB pick." "gauge"
    (dec (Z.max (sm_tunnels_active m) 0)) ++
  single "plecto_tunnel_bytes_down_total"
    "Bytes relayed downstream (upstream to client) by upgrade tunnels, recorded at tunnel close." "counter"
    (dec (sm_tunnel_bytes_down m)) ++
  single "plecto_tunnel_bytes_up_total"
    "Bytes relayed upstream (client to upstream) by upgrade tunnels, recorded at tunnel close." "counter"
    (dec (sm_tunnel_bytes_up m)).

Definition filter_lines (filter : MetricsSink) (i : InlineMetrics) : list Line :=
  single "plecto_filter_executions_total" "Filter hook executions (host-aggregated)." "counter" (dec (ms_total filter)) ++
  single "plecto_filter_errors_total" "Filter executions that faulted (trap/deadline/instantiate/unavailable)." "counter"
    (dec (ms_errors filter)) ++
  single "plecto_filter_short_circuits_total" "Filter executions that short-circuited the chain." "counter"
    (dec (ms_short_circuits filter)) ++
  single "plecto_filter_duration_seconds_total" "Total filter execution time in seconds." "counter"
    (show_f64 (as_secs_f64 (ms_duration_nanos filter))) ++
  family "plecto_filter_inline_fallbacks_total"
    "Inline-eligible filter hook calls that fell back to the blocking pool, by reason." "counter" (fallback_samples i) ++
  family "plecto_filter_inline_duration_seconds" "Inline filter execution duration in seconds." "histogram"
    (histogram_samples "plecto_filter_inline_duration_seconds" (map (fun n => f64_lit n 1000000000) INLINE_DURATION_BUCKETS)
       (im_buckets i) (im_count i) (as_secs_f64 (im_nanos i))).

Definition otlp_lines (otlp : option (Z * Z)) : list Line :=
  match otlp with
  | Some (dropped, queued) =>
    single "plecto_otlp_dropped_spans_total" "Spans lost to a full queue or failed exports." "counter" (dec dropped) ++
    single "plecto_otlp_queue_spans" "Spans currently queued for export." "gauge" (dec queued)
  | None => []
  end.

Definition pool_lines (pool : option PoolResidency) : list Line :=
  match pool with
  | Some pool =>
    single "plecto_pool_component_instances" "Live component instances in the trusted engine's pooling allocator." "gauge"
      (dec (pr_component_instances pool)) ++
    single "plecto_pool_memories" "Live pooled linear memories in the trusted engine." "gauge" (dec (pr_memories pool)) ++
    single "plecto_pool_unused_memory_resident_bytes" "Bytes kept resident for unused-but-warm pool slots." "gauge"
      (dec (pr_unused_bytes pool))
  | None => []
  end.

Definition render_lines (m : ServerMetrics) (filter : MetricsSink) (i : InlineMetrics) (otlp : option (Z * Z))
    (pool : option PoolResidency) (upstreams : list (bytes * list nat)) : list Line :=
  native_lines m upstreams ++ filter_lines filter i ++ otlp_lines otlp ++ pool_lines pool.
End render.

(** [out.join] by newlines, and a last one. *)
Definition render (heap : Heap) (now_ms : Z) (m : ServerMetrics) (filter : MetricsSink) (i : InlineMetrics)
    (otlp : option (Z * Z)) (pool : option PoolResidency) (upstreams : list (bytes * list nat)) : bytes :=
  join NEWLINE (map line_text (render_lines escape_label_value heap now_ms m filter i otlp pool upstreams)) ++ [NEWLINE].

(** ** Reading an exposition *)

(** A label's value from after its opening quote, and what follows the closing one. *)
Fixpoint read_value (s : bytes) : option (bytes * bytes) :=
  match s with
  | [] => None
  | c :: s =>
    if ascii_eqb c QUOTE then Some ([], s)
    else if ascii_eqb c BACKSLASH then
      match s with
      | [] => None
      | e :: s =>
        match (if ascii_eqb e BACKSLASH then Some BACKSLASH else if ascii_eqb e QUOTE then Some QUOTE
               else if ascii_eqb e "n"%char then Some NEWLINE else None), read_value s with
        | Some c, Some (v, r) => Some (c :: v, r)
        | _, _ => None
        end
      end
    else match read_value s with Some (v, r) => Some (c :: v, r) | None => None end
  end.

(** The labels from after the opening brace; each takes some of the text, so its length is fuel enough. *)
Fixpoint read_labels (fuel : nat) (s : bytes) : option (list (bytes * bytes) * bytes) :=
  match fuel with
  | O => None
  | S fuel =>
    match split_once "="%char s with
    | Some (key, q :: s) =>
      if ascii_eqb q QUOTE then
        match read_value s with
        | Some (v, c :: s) =>
          if ascii_eqb c "}"%char then Some ([(key, v)], s)
          else if ascii_eqb c ","%char then
            match read_labels fuel s with Some (ls, s) => Some ((key, v) :: ls, s) | None => None end
          else None
        | _ => None
        end
      else None
    | _ => None
    end
  end.

(** A name runs up to its labels or the space before its value. *)
Fixpoint read_name (s : bytes) : bytes * bytes :=
  match s with
  | [] => ([], [])
  | c :: s' => if ascii_eqb c "{"%char || ascii_eqb c " "%char then ([], s) else let '(n, r) := read_name s' in (c :: n, r)
  end.

Definition read_sample (s : bytes) : option Sample :=
  let '(name, r) := read_name s in
  match r with
  | c :: r =>
    if ascii_eqb c "{"%char then
      match read_labels (length r) r with
      | Some (ls, sp :: value) => if ascii_eqb sp " "%char then Some (mkSample name ls value) else None
      | _ => None
      end
    else Some (mkSample name [] r)
  | [] => None
  end.

(** Comments and blank lines are passed over. *)
Definition is_sample (line : bytes) : bool := match line with [] => false | c :: _ => negb (ascii_eqb c "#"%char) end.
Definition read_exposition (text : bytes) : option (list Sample) :=
  mapM read_sample (List.filter is_sample (split_on NEWLINE text)).

Definition samples_of (lines : list Line) : list Sample := omap (fun l => match l with LSample s => Some s | _ => None end) lines.

(** A route named with a quote, a backslash and a newline, with one request of 3 ms. *)
Definition hostile_name : bytes := bs "a" ++ [QUOTE; BACKSLASH; NEWLINE] ++ bs "b{,} c".
Definition demo_metrics : ServerMetrics := record_request hostile_name 404 3000000 server_metrics_new.

Example demo_scrape :
  read_exposition (render ∅ 0 demo_metrics (mkMetrics 0 0 0 0) inline_new (Some (2, 5)) None [(hostile_name, [])])
  = Some (samples_of (render_lines id ∅ 0 demo_metrics (mkMetrics 0 0 0 0) inline_new (Some (2, 5)) None [(hostile_name, [])])) /\
  existsb (fun s => bool_decide (sp_name s = bs "plecto_request_duration_seconds_sum" /\ sp_value s = bs "0.003"))
    (samples_of (render_lines id ∅ 0 demo_metrics (mkMetrics 0 0 0 0) inline_new None None [])) = true.
Proof. split; vm_compute; reflexivity. Qed.

(** ** Lemmas: a line reads back *)

Definition special (c : ascii) : bool := ascii_eqb c BACKSLASH || ascii_eqb c QUOTE || ascii_eqb c NEWLINE.
Definition plain (s : bytes) : bool := forallb (fun c => negb (special c)) s.

Lemma escape_char_plain c : special c = false -> escape_char c = [c].
Proof. unfold special, escape_char. intros H. bools. by repeat case_match. Qed.

Lemma escape_chars v : escape_label_value v = concat (map escape_char v).
Proof.
  unfold escape_label_value. destruct (existsb _ v) eqn:E; [done|]. induction v as [|c v IH]; [done|]. cbn in *. bools.
  rewrite escape_char_plain by (unfold special; bools; rewrite ?orb_false_iff; auto). cbn. by rewrite <- IH.
Qed.

Lemma read_plain_char c s : special c = false ->
  read_value (c :: s) = match read_value s with Some (v, r) => Some (c :: v, r) | None => None end.
Proof. unfold special. intros [[Hb Hq]%orb_false_iff Hn]%orb_false_iff. cbn. by rewrite Hq, Hb. Qed.

(** How a written label value reads, and that it stays on its line. *)
Definition reads_as (text value : bytes) : Prop :=
  (forall r, read_value (text ++ QUOTE :: r) = Some (value, r)) /\ NEWLINE ∉ text.

Lemma special_newline c : special c = false -> c <> NEWLINE.
Proof. unfold special. intros H ->. bools. done. Qed.

Lemma plain_reads v : plain v = true -> reads_as v v.
Proof.
  unfold reads_as. induction v as [|c v IH]; [intros _; split; [done|by intros ?%elem_of_nil]|].
  intros [Hc%negb_true_iff Hv]%andb_true_iff. destruct (IH Hv) as [Hr Hn]. split.
  - intros r. cbn [app]. rewrite read_plain_char by done. by rewrite Hr.
  - intros [E|?]%elem_of_cons; [|done]. by apply (special_newline c Hc).
Qed.

Lemma escape_reads v : reads_as (escape_label_value v) v.
Proof.
  rewrite escape_chars. induction v as [|c v [Hr Hn]]; cbn [map concat]; [split; [done|by intros ?%elem_of_nil]|].
  destruct (special c) eqn:Es.
  - unfold special, escape_char in *. split.
    + intros r. rewrite <- app_assoc. repeat case_match; bools; try done; cbn; rewrite Hr;
        repeat match goal with H : ascii_eqb _ _ = true |- _ => apply ascii_eqb_eq in H; subst end; done.
    + intros [Hin|Hin]%elem_of_app; [|done]. repeat case_match; bools; try done;
        repeat (apply elem_of_cons in Hin as [Hin|Hin]; [discriminate Hin|]); by apply elem_of_nil in Hin.
  - rewrite escape_char_plain by done. split.
    + intros r. cbn [app]. rewrite read_plain_char by done. by rewrite Hr.
    + intros [E|?]%elem_of_cons; [|done]. by apply (special_newline c Es).
Qed.

(** Names, keys and comments are constants. *)
Definition name_ok (s : bytes) : bool :=
  match s with
  | [] => false
  | c :: _ => negb (ascii_eqb c "#"%char) && forallb (fun c => negb (ascii_eqb c "{"%char || ascii_eqb c " "%char || ascii_eqb c NEWLINE)) s
  end.
Definition key_ok (s : bytes) : bool := forallb (fun c => negb (ascii_eqb c "="%char || ascii_eqb c NEWLINE)) s.
Definition line_ok (s : bytes) : bool := forallb (fun c => negb (ascii_eqb c NEWLINE)) s.

Record label_rel (raw esc : bytes * bytes) : Prop := {
  lr_key : raw.1 = esc.1;
  lr_ok : key_ok esc.1 = true;
  lr_value : reads_as esc.2 raw.2;
}.
Record sample_rel (raw esc : Sample) : Prop := {
  sr_name : sp_name raw = sp_name esc;
  sr_ok : name_ok (sp_name esc) = true;
  sr_labels : Forall2 label_rel (sp_labels raw) (sp_labels esc);
  sr_value : sp_value raw = sp_value esc;
  sr_chars : Forall value_char (sp_value esc);
}.
Inductive line_rel : Line -> Line -> Prop :=
| LrHelp name text : line_ok name = true -> line_ok text = true -> line_rel (LHelp name text) (LHelp name text)
| LrType name kind : line_ok name = true -> line_ok kind = true -> line_rel (LType name kind) (LType name kind)
| LrSample raw esc : sample_rel raw esc -> line_rel (LSample raw) (LSample esc).

Lemma line_ok_spec s : line_ok s = true -> NEWLINE ∉ s.
Proof.
  unfold line_ok. rewrite forallb_forall. intros H Hin%list_elem_of_In. specialize (H _ Hin).
  by rewrite ascii_eqb_refl in H.
Qed.

Lemma key_ok_spec s : key_ok s = true -> "="%char ∉ s /\ NEWLINE ∉ s.
Proof.
  unfold key_ok. rewrite forallb_forall. intros H. split; intros Hin%list_elem_of_In; specialize (H _ Hin);
    by rewrite ascii_eqb_refl in H; rewrite ?orb_true_r in H.
Qed.

Lemma read_name_ok name r : name_ok name = true -> (exists c r', r = c :: r' /\ (c = "{"%char \/ c = " "%char)) ->
  read_name (name ++ r) = (name, r) /\ NEWLINE ∉ name.
Proof.
  intros Hn (c & r' & -> & Hc). assert (Hall : forallb (fun c => negb (ascii_eqb c "{"%char || ascii_eqb c " "%char || ascii_eqb c NEWLINE)) name = true).
  { destruct name as [|x name]; [done|]. unfold name_ok in Hn. by bools. }
  clear Hn. induction name as [|x name IH]; [|].
  - split; [|by intros ?%elem_of_nil]. cbn. by destruct Hc as [-> | ->].
  - cbn [forallb] in Hall. apply andb_true_iff in Hall as [H%negb_true_iff Hall]. destruct (IH Hall) as [Hr Hnl]. split.
    + cbn [app read_name]. apply orb_false_iff in H as [H' _]. by rewrite H', Hr.
    + intros [E|?]%elem_of_cons; [|done]. subst x. apply orb_false_iff in H as [_ H]. by rewrite ascii_eqb_refl in H.
Qed.

(** A text put together of parts without a newline has none. *)
Ltac no_newline :=
  let H := fresh in intros H;
  repeat first [apply elem_of_app in H as [H|H] | apply elem_of_cons in H as [H|H] | apply elem_of_nil in H];
  first [done | discriminate H].

Lemma label_text_nl raw esc : label_rel raw esc -> NEWLINE ∉ label_text esc.
Proof.
  intros [_ Hk [_ Hv]]. apply key_ok_spec in Hk as [_ Hk]. unfold label_text. no_newline.
Qed.

Lemma join_nl (ts : list bytes) : Forall (fun t => NEWLINE ∉ t) ts -> NEWLINE ∉ join ","%char ts.
Proof.
  intros H. induction H as [|t ts Ht _ IH]; [by intros ?%elem_of_nil|]. destruct ts as [|t' ts]; [done|].
  rewrite join_cons by done. no_newline.
Qed.

Lemma read_labels_rel raws escs : Forall2 label_rel raws escs -> escs <> [] -> forall fuel r, (length escs <= fuel)%nat ->
  read_labels fuel (join ","%char (map label_text escs) ++ "}"%char :: r) = Some (raws, r).
Proof.
  induction 1 as [|[k v] [k' v'] raws escs [Hk Hok [Hv Hnl]] Hrest IH]; intros Hne fuel r Hf; [done|].
  destruct fuel as [|fuel]; [cbn in Hf; lia|]. cbn in Hk, Hok, Hv. subst k'. apply key_ok_spec in Hok as [Heq _].
  destruct escs as [|e escs].
  - inversion Hrest; subst. cbn [map join read_labels]. unfold label_text. cbn [fst snd]. rewrite <- !app_assoc. cbn [app].
    rewrite split_once_app by done. rewrite ascii_eqb_refl, <- app_assoc. cbn [app]. by rewrite Hv.
  - cbn [map]. rewrite join_cons by done. cbn [read_labels]. unfold label_text at 1. cbn [fst snd]. rewrite <- !app_assoc. cbn [app].
    rewrite split_once_app by done. rewrite ascii_eqb_refl, <- app_assoc. cbn [app]. rewrite Hv.
    rewrite (proj2 (ascii_eqb_neq ","%char "}"%char)), ascii_eqb_refl by done.
    change (label_text e :: map label_text escs) with (map label_text (e :: escs)).
    by rewrite IH by (done || cbn in *; lia).
Qed.

Lemma label_text_length l : (1 <= length (label_text l))%nat.
Proof. unfold label_text. rewrite length_app. cbn. lia. Qed.

Lemma join_length (escs : list (bytes * bytes)) : (length escs <= length (join ","%char (map label_text escs)))%nat.
Proof.
  induction escs as [|e escs IH]; [done|]. destruct escs as [|e' escs]; [cbn; apply label_text_length|].
  cbn [map] in *. rewrite join_cons by done. rewrite length_app. cbn [length] in *. pose proof (label_text_length e). lia.
Qed.

Lemma value_nl v : Forall value_char v -> NEWLINE ∉ v.
Proof. intros H Hin. rewrite Forall_forall in H. by destruct (H _ Hin). Qed.

Lemma sample_reads raw esc : sample_rel raw esc ->
  read_sample (line_text (LSample esc)) = Some raw /\ NEWLINE ∉ line_text (LSample esc) /\ is_sample (line_text (LSample esc)) = true.
Proof.
  destruct raw as [rn rl rv], esc as [n ls v]. intros [Hn Hok Hls Hv Hch]. cbn in *. subst rn rv. apply value_nl in Hch.
  assert (Hs : forall x, is_sample (n ++ x) = true).
  { intros x. destruct n as [|c n]; [done|]. unfold name_ok in Hok. by apply andb_true_iff in Hok as [Hok _]. }
  destruct ls as [|l ls].
  - inversion Hls; subst. cbn [labels_text app] in *.
    destruct (read_name_ok n (" "%char :: v) Hok) as [Hr Hnl]; [by eauto|]. unfold read_sample. rewrite Hr. cbn [ascii_eqb].
    split_and!; [done| |done]. no_newline.
  - set (es := l :: ls) in *. assert (Hl : labels_text es = "{"%char :: join ","%char (map label_text es) ++ ["}"%char]) by done.
    rewrite Hl in *. cbn [app] in *. destruct (read_name_ok n ("{"%char :: (join ","%char (map label_text es) ++ ["}"%char]) ++ " "%char :: v) Hok)
      as [Hr Hnl]; [by eauto|]. unfold read_sample. rewrite Hr, ascii_eqb_refl, <- app_assoc. cbn [app].
    rewrite (read_labels_rel _ _ Hls) by (done || (rewrite length_app; pose proof (join_length es); lia)).
    rewrite !ascii_eqb_refl. split_and!; [done| |done].
    assert (Hj : NEWLINE ∉ join ","%char (map label_text es)).
    { apply join_nl, Forall_forall. intros t Ht. apply list_elem_of_fmap in Ht as (e & -> & He).
      apply list_elem_of_lookup in He as [i Hi]. destruct (Forall2_lookup_r _ _ _ _ _ Hls Hi) as (raw & _ & Hrel).
      by eapply label_text_nl. }
    no_newline.
Qed.

Lemma comment_nl head name text : line_ok head = true -> line_ok name = true -> line_ok text = true ->
  NEWLINE ∉ head ++ name ++ " "%char :: text.
Proof.
  intros Hh Hn Ht. apply line_ok_spec in Hh, Hn, Ht. no_newline.
Qed.

Lemma lines_read raws escs : Forall2 line_rel raws escs -> Forall (fun t => NEWLINE ∉ t) (map line_text escs) /\
  mapM read_sample (List.filter is_sample (map line_text escs)) = Some (samples_of raws).
Proof.
  induction 1 as [|raw esc raws escs Hrel _ [IHn IHr]]; [by split; [constructor|]|].
  destruct Hrel as [name text Hn Ht|name kind Hn Hk|raw esc Hs].
  - split; [constructor; [by apply comment_nl|done]|]. done.
  - split; [constructor; [by apply comment_nl|done]|]. done.
  - destruct (sample_reads raw esc Hs) as (Hr & Hnl & His). split; [by constructor|]. cbn [map List.filter].
    rewrite His. cbn [mapM]. rewrite Hr. cbn [mbind option_bind]. by rewrite IHr.
Qed.

Lemma exposition_reads raws escs : Forall2 line_rel raws escs -> escs <> [] ->
  read_exposition (join NEWLINE (map line_text escs) ++ [NEWLINE]) = Some (samples_of raws).
Proof.
  intros Hrel Hne. destruct (lines_read raws escs Hrel) as [Hn Hr]. unfold read_exposition.
  assert (Hsplit : split_on NEWLINE (join NEWLINE (map line_text escs) ++ [NEWLINE]) = map line_text escs ++ [[]]).
  { clear Hr Hrel. destruct escs as [|e escs]; [done|]. clear Hne. revert e Hn. induction escs as [|e' escs IH]; intros e Hn.
    - cbn. apply split_on_app. by inversion Hn.
    - cbn [map] in *. rewrite join_cons by done. rewrite <- app_assoc. cbn [app]. inversion Hn; subst.
      rewrite split_on_app by done. by rewrite IH. }
  rewrite Hsplit, List.filter_app. cbn [List.filter is_sample]. by rewrite app_nil_r.
Qed.

(** ** Lemmas: what is rendered, with and without escaping *)

Lemma label_static k v : key_ok k = true -> plain v = true -> label_rel (k, v) (k, v).
Proof. intros Hk Hv. split; [done|done|by apply plain_reads]. Qed.
Lemma label_escaped k v : key_ok k = true -> label_rel (k, v) (k, escape_label_value v).
Proof. intros Hk. split; [done|done|apply escape_reads]. Qed.

Lemma sample_intro name raws escs value : name_ok name = true -> Forall2 label_rel raws escs -> Forall value_char value ->
  sample_rel (mkSample name raws value) (mkSample name escs value).
Proof. by split. Qed.
#[local] Hint Resolve label_static label_escaped sample_intro : plecto.

Lemma Forall2_map_in {A B} (R : B -> B -> Prop) (f g : A -> B) l : (forall x, x ∈ l -> R (f x) (g x)) ->
  Forall2 R (map f l) (map g l).
Proof.
  induction l as [|x l IH]; intros H; cbn; [constructor|]. constructor; [apply H; by left|]. apply IH. intros y Hy. apply H. by right.
Qed.

Lemma Forall2_concat_map {A B} (R : B -> B -> Prop) (f g : A -> list B) l : (forall x, Forall2 R (f x) (g x)) ->
  Forall2 R (concat (map f l)) (concat (map g l)).
Proof. intros H. induction l; cbn; [constructor|]. by apply Forall2_app. Qed.

Lemma family_rel name help kind raws escs : line_ok (bs name) && line_ok (bs help) && line_ok (bs kind) = true ->
  Forall2 sample_rel raws escs -> Forall2 line_rel (family name help kind raws) (family name help kind escs).
Proof.
  intros [[Hn Hh]%andb_true_iff Hk]%andb_true_iff Hs. unfold family. constructor; [by constructor|]. constructor; [by constructor|].
  induction Hs as [|raw esc raws escs Hrel _ IH]; cbn; [constructor|]. constructor; [by constructor|done].
Qed.

Lemma single_rel name help kind value : line_ok (bs name) && line_ok (bs help) && line_ok (bs kind) = true ->
  name_ok (bs name) = true -> Forall value_char value -> Forall2 line_rel (single name help kind value) (single name help kind value).
Proof. intros H Hn Hv. apply family_rel; [done|]. constructor; [|constructor]. by apply sample_intro; [|constructor|]. Qed.

Lemma by_pair_rel name k1 k2 (raw esc : bytes) (names : list bytes) (ns : list Z) :
  name_ok name = true -> key_ok k1 = true -> key_ok k2 = true -> forallb plain names = true -> reads_as esc raw ->
  Forall2 sample_rel (map (fun p => mkSample name [(k1, raw); (k2, p.1)] (dec p.2)) (zip names ns))
    (map (fun p => mkSample name [(k1, esc); (k2, p.1)] (dec p.2)) (zip names ns)).
Proof.
  intros Hn H1 H2 Hp Hr. apply Forall2_map_in. intros [x n] Hin. apply elem_of_zip_l in Hin. cbn.
  apply sample_intro; [done| |auto with plecto]. constructor; [by split|]. constructor; [|constructor]. apply label_static; [done|].
  rewrite forallb_forall in Hp. apply Hp. by apply list_elem_of_In.
Qed.

Lemma cumulative_bounds acc bounds slots p : p ∈ cumulative acc bounds slots -> exists b, b ∈ bounds /\ p.1 = show_f64 b.
Proof.
  revert acc slots. induction bounds as [|b bounds IH]; intros acc [|x slots]; cbn; try (by intros ?%elem_of_nil).
  intros [->|Hin]%elem_of_cons; [exists b; split; [by left|done]|]. destruct (IH _ _ Hin) as (b' & Hb & E). exists b'. split; [by right|done].
Qed.

Lemma histogram_rel name bounds slots count sum :
  name_ok (bs name ++ bs "_bucket") && name_ok (bs name ++ bs "_sum") && name_ok (bs name ++ bs "_count") = true ->
  forallb (fun b => plain (show_f64 b)) bounds = true ->
  Forall2 sample_rel (histogram_samples name bounds slots count sum) (histogram_samples name bounds slots count sum).
Proof.
  intros [[Hb Hs]%andb_true_iff Hc]%andb_true_iff Hp. unfold histogram_samples. apply Forall2_app.
  - apply Forall2_map_in. intros p Hin. apply cumulative_bounds in Hin as (b & Hin & ->).
    apply sample_intro; [done| |auto with plecto]. constructor; [|constructor]. apply label_static; [done|].
    rewrite forallb_forall in Hp. apply Hp. by apply list_elem_of_In.
  - constructor; [apply sample_intro; [done|constructor; [by apply label_static|constructor]|auto with plecto]|].
    constructor; [apply sample_intro; [done|constructor|auto with plecto]|].
    constructor; [apply sample_intro; [done|constructor|auto with plecto]|constructor].
Qed.

Lemma skip_plain reason : plain (skip_as_str reason) = true.
Proof. by destruct reason. Qed.

Lemma native_rel heap now_ms m upstreams :
  Forall2 line_rel (native_lines id heap now_ms m upstreams) (native_lines escape_label_value heap now_ms m upstreams).
Proof.
  unfold native_lines. repeat apply Forall2_app;
    try (apply single_rel; [reflexivity|reflexivity|auto with plecto]); (apply family_rel; [reflexivity|]).
  - apply Forall2_concat_map. intros [route c]. apply by_pair_rel; try reflexivity. apply escape_reads.
  - apply histogram_rel; vm_compute; reflexivity.
  - apply Forall2_concat_map. intros [route c]. case_match; [constructor|]. constructor; [|constructor].
    apply sample_intro; [done| |auto with plecto]. constructor; [by apply label_escaped|constructor].
  - apply Forall2_map_in. intros reason _. apply sample_intro; [done| |auto with plecto].
    constructor; [apply label_static; [done|apply skip_plain]|constructor].
  - apply Forall2_concat_map. intros [name ids]. apply by_pair_rel; try reflexivity. apply escape_reads.
Qed.

Lemma filter_rel filter i : Forall2 line_rel (filter_lines filter i) (filter_lines filter i).
Proof.
  unfold filter_lines. repeat apply Forall2_app;
    try (apply single_rel; [reflexivity|reflexivity|auto with plecto]); (apply family_rel; [reflexivity|]).
  - unfold fallback_samples. cbn [map].
    repeat (constructor; [apply sample_intro; [done|constructor; [by apply label_static|constructor]|auto with plecto]|]). constructor.
  - apply histogram_rel; vm_compute; reflexivity.
Qed.

Lemma otlp_rel otlp : Forall2 line_rel (otlp_lines otlp) (otlp_lines otlp).
Proof.
  unfold otlp_lines. destruct otlp as [[dropped queued]|]; [|constructor].
  apply Forall2_app; (apply single_rel; [reflexivity|reflexivity|auto with plecto]).
Qed.

Lemma pool_rel pool : Forall2 line_rel (pool_lines pool) (pool_lines pool).
Proof.
  unfold pool_lines. destruct pool as [p|]; [|constructor].
  repeat apply Forall2_app; (apply single_rel; [reflexivity|reflexivity|auto with plecto]).
Qed.

Lemma render_reads heap now_ms m filter i otlp pool upstreams :
  read_exposition (render heap now_ms m filter i otlp pool upstreams)
  = Some (samples_of (render_lines id heap now_ms m filter i otlp pool upstreams)).
Proof.
  unfold render. apply exposition_reads; [|done]. unfold render_lines.
  apply Forall2_app; [apply native_rel|]. apply Forall2_app; [apply filter_rel|].
  apply Forall2_app; [apply otlp_rel|apply pool_rel].
Qed.

(** C36: A scrape reads back exactly.  Whatever bytes the manifest's route and upstream names hold, a
    reader of the exposition format gets from one scrape precisely the samples that were written,
    each once and in order, with the names as they are: nothing in a name can end its label, its
    line or its value. *)
Theorem scrape_reads_back (heap : Heap) (now_ms : Z) (m : ServerMetrics) (filter : MetricsSink) (i : InlineMetrics)
    (otlp : option (Z * Z)) (pool : option PoolResidency) (upstreams : list (bytes * list nat)) :
  read_exposition (render heap now_ms m filter i otlp pool upstreams)
  = Some (samples_of (render_lines id heap now_ms m filter i otlp pool upstreams)).
Proof. apply render_reads. Qed.

(** ** Lemmas: the registry *)

Definition routes_ok (routes : list (bytes * RouteCounters)) : Prop :=
  StronglySorted bytes_le (map fst routes) /\ NoDup (map fst routes).

Lemma route_counters_None routes name : name ∉ map fst routes -> route_counters routes name = None.
Proof.
  induction routes as [|[n c] routes IH]; [done|]. cbn. intros [Hn Hr]%not_elem_of_cons.
  rewrite (proj2 (bytes_eqb_neq n name)) by congruence. by apply IH.
Qed.

Lemma lookup_insert_route name routes r : routes_ok routes ->
  route_counters (insert_route name routes) r =
  if bytes_eqb r name then Some (default route_counters_new (route_counters routes name)) else route_counters routes r.
Proof.
  intros [Hs Hd]. induction routes as [|[n c] routes IH]; cbn.
  - destruct (bytes_eqb r name) eqn:E; [apply bytes_eqb_eq in E; subst r; by rewrite (proj2 (bytes_eqb_eq name name))|].
    apply bytes_eqb_neq in E. by rewrite (proj2 (bytes_eqb_neq name r)) by congruence.
  - cbn in Hs, Hd. apply NoDup_cons in Hd as [Hn Hd]. inversion Hs as [|? ? Hs' Hle]; subst.
    destruct (bytes_eqb n name) eqn:En.
    + apply bytes_eqb_eq in En; subst n. cbn. destruct (bytes_eqb r name) eqn:E.
      * apply bytes_eqb_eq in E; subst r. by rewrite (proj2 (bytes_eqb_eq name name)).
      * apply bytes_eqb_neq in E. by rewrite (proj2 (bytes_eqb_neq name r)) by congruence.
    + apply bytes_eqb_neq in En. destruct (bytes_leb name n) eqn:El.
      * cbn [route_counters]. destruct (bytes_eqb r name) eqn:E.
        -- apply bytes_eqb_eq in E; subst r. rewrite (proj2 (bytes_eqb_eq name name)) by done.
           rewrite route_counters_None; [done|]. intros Hin. rewrite Forall_forall in Hle. specialize (Hle _ Hin).
           apply En. by apply (anti_symm bytes_le).
        -- apply bytes_eqb_neq in E. by rewrite (proj2 (bytes_eqb_neq name r)) by congruence.
      * cbn [route_counters]. destruct (bytes_eqb n r) eqn:Er.
        -- apply bytes_eqb_eq in Er; subst n. by rewrite (proj2 (bytes_eqb_neq r name)).
        -- by apply IH.
Qed.

Lemma insert_route_names name routes x : x ∈ map fst (insert_route name routes) <-> x = name \/ x ∈ map fst routes.
Proof.
  induction routes as [|[n c] routes IH]; cbn; [set_solver|]. destruct (bytes_eqb n name) eqn:En.
  - apply bytes_eqb_eq in En; subst n. cbn. set_solver.
  - destruct (bytes_leb name n); cbn; set_solver.
Qed.

Lemma insert_route_ok name routes : routes_ok routes -> routes_ok (insert_route name routes).
Proof.
  intros [Hs Hd]. induction routes as [|[n c] routes IH]; cbn.
  - split; cbn; [by constructor; [constructor|]|apply NoDup_singleton].
  - cbn in Hs, Hd. apply NoDup_cons in Hd as [Hn Hd]. inversion Hs as [|? ? Hs' Hle]; subst.
    destruct (bytes_eqb n name) eqn:En; [by split; [constructor|constructor]|]. apply bytes_eqb_neq in En.
    destruct (bytes_leb name n) eqn:El.
    + split; cbn; [|constructor; [|by constructor]].
      * constructor; [by constructor|]. constructor; [done|]. eapply Forall_impl; [exact Hle|]. intros x Hx. by transitivity n.
      * intros [->|Hin]%elem_of_cons; [done|]. rewrite Forall_forall in Hle. apply En. by apply (anti_symm bytes_le); [apply Hle|].
    + destruct (IH Hs' Hd) as [Hs2 Hd2]. destruct (bytes_leb_total name n) as [|Hge]; [congruence|]. split; cbn.
      * constructor; [done|]. apply Forall_forall. intros x [->|Hin]%insert_route_names; [done|]. rewrite Forall_forall in Hle. by apply Hle.
      * constructor; [|done]. rewrite insert_route_names. by intros [->|].
Qed.

Lemma lookup_on_route f name routes r : routes_ok routes ->
  route_counters (on_route f name routes) r =
  if bytes_eqb r name then Some (f (default route_counters_new (route_counters routes name))) else route_counters routes r.
Proof.
  intros Hok. pose proof (lookup_insert_route name routes r Hok) as Hl. unfold on_route. revert Hl.
  set (d := default _ _). generalize (insert_route name routes). intros l. 
  assert (Hmap : route_counters (map (fun e => (e.1, if bytes_eqb e.1 name then f e.2 else e.2)) l) r
    = (if bytes_eqb r name then f else id) <$> route_counters l r).
  { induction l as [|[n c] l IH]; [done|]. cbn. destruct (bytes_eqb n r) eqn:En; [|done].
    apply bytes_eqb_eq in En; subst n. by destruct (bytes_eqb r name). }
  rewrite Hmap. intros ->. destruct (bytes_eqb r name); [done|]. by destruct (route_counters routes r).
Qed.

Lemma on_route_ok f name routes : routes_ok routes -> routes_ok (on_route f name routes).
Proof.
  intros Hok. unfold routes_ok, on_route. rewrite map_map. cbn. by apply insert_route_ok.
Qed.

(** ** What the counters count *)

Definition hit (r : bytes) (i : nat) (ev : Metric * Z) : Z :=
  match ev.1 with MRequest route status => if bytes_eqb r route && (status_class status =? i)%nat then 1 else 0 | _ => 0 end.
Definition limit_hit (r : bytes) (ev : Metric * Z) : Z :=
  match ev.1 with MRateLimited route => if bytes_eqb r route then 1 else 0 | _ => 0 end.
Definition completed (ev : Metric * Z) : Z := match ev.1 with MRequest _ _ => 1 | _ => 0 end.
Definition flight (ev : Metric * Z) : Z := match ev.1 with MInFlight delta => delta | _ => 0 end.
Definition total (f : Metric * Z -> Z) (evs : list (Metric * Z)) : Z := sumZ (map f evs).

Definition counted (evs : list (Metric * Z)) : ServerMetrics := fold_left (fun m ev => count_metric ev m) evs server_metrics_new.

Definition route_exact (evs : list (Metric * Z)) (r : bytes) (c : RouteCounters) : Prop :=
  rc_status_class c = map (fun i => wrap64 (total (hit r i) evs)) (seq 0 5) /\ rc_rate_limited c = wrap64 (total (limit_hit r) evs).

Record counters_ok (evs : list (Metric * Z)) (m : ServerMetrics) : Prop := {
  ok_routes : routes_ok (sm_routes m);
  ok_route r : route_exact evs r (default route_counters_new (route_counters (sm_routes m) r));
  ok_known : is_Some (route_counters (sm_routes m) UNMATCHED_ROUTE);
  ok_flight : sm_in_flight m = wrap_i64 (total flight evs);
  ok_count : hg_count (sm_duration m) = wrap64 (total completed evs);
}.

Lemma total_snoc f evs ev : total f (evs ++ [ev]) = total f evs + f ev.
Proof. unfold total. rewrite map_app, sumZ_app. cbn. lia. Qed.

Lemma wrap64_add a b : wrapping_add (wrap64 a) b = wrap64 (a + b).
Proof. unfold wrapping_add, wrap64. apply Zplus_mod_idemp_l. Qed.

Lemma wrap_i64_add a b : wrap_i64 (wrap_i64 a + b) = wrap_i64 (a + b).
Proof.
  unfold wrap_i64. replace ((a + 2 ^ 63) mod 2 ^ 64 - 2 ^ 63 + b + 2 ^ 63) with ((a + 2 ^ 63) mod 2 ^ 64 + b) by lia.
  rewrite Zplus_mod_idemp_l. do 2 f_equal. lia.
Qed.

Lemma status_class_lt status : (status_class status < 5)%nat.
Proof. unfold status_class. lia. Qed.

(** Bumping one of five exact counters. *)
Lemma bump_exact (f : nat -> Z) i : (i < 5)%nat ->
  bump_at i (map (fun j => wrap64 (f j)) (seq 0 5)) = map (fun j => wrap64 (f j + (if (i =? j)%nat then 1 else 0))) (seq 0 5).
Proof.
  intros Hi. destruct i as [|[|[|[|[|i]]]]]; try lia; cbn; rewrite !Z.add_0_r, wrap64_add; done.
Qed.

Lemma route_exact_same evs ev r c : (forall i, hit r i ev = 0) -> limit_hit r ev = 0 -> route_exact evs r c ->
  route_exact (evs ++ [ev]) r c.
Proof.
  intros Hh Hl [Hc Hr]. split.
  - rewrite Hc. apply map_ext. intros i. by rewrite total_snoc, Hh, Z.add_0_r.
  - by rewrite Hr, total_snoc, Hl, Z.add_0_r.
Qed.

(** A route's counters are updated, and no other's. *)
Lemma on_route_exact f name evs ev routes : routes_ok routes ->
  (forall r, route_exact evs r (default route_counters_new (route_counters routes r))) ->
  (forall r, r <> name -> (forall i, hit r i ev = 0) /\ limit_hit r ev = 0) ->
  (forall c, route_exact evs name c -> route_exact (evs ++ [ev]) name (f c)) ->
  forall r, route_exact (evs ++ [ev]) r (default route_counters_new (route_counters (on_route f name routes) r)).
Proof.
  intros Hok Hall Hother Hf r. rewrite lookup_on_route by done. destruct (bytes_eqb r name) eqn:E.
  - apply bytes_eqb_eq in E; subst r. cbn. by apply Hf, Hall.
  - apply bytes_eqb_neq in E. destruct (Hother r E). by apply route_exact_same.
Qed.

Lemma on_route_known f name routes r : routes_ok routes -> is_Some (route_counters routes r) ->
  is_Some (route_counters (on_route f name routes) r).
Proof. intros Hok Hr. rewrite lookup_on_route by done. by destruct (bytes_eqb r name). Qed.

Lemma count_metric_ok evs ev m : counters_ok evs m -> counters_ok (evs ++ [ev]) (count_metric ev m).
Proof.
  intros [Hok Hr Hk Hf Hc]. destruct ev as [[route| |reason|delta|route status] nanos]; unfold count_metric; cbn [fst snd].
  - split; cbn; rewrite ?total_snoc; cbn [flight completed fst]; rewrite ?Z.add_0_r; try done;
      [by apply on_route_ok| |by apply on_route_known].
    apply on_route_exact; [done|done| |].
    + intros r Hne. split; [done|]. cbn. by rewrite (proj2 (bytes_eqb_neq r route)).
    + intros c [Ec El]. unfold inc_class, inc_limited. split; cbn [rc_status_class rc_rate_limited].
      * rewrite Ec. apply map_ext. intros i. rewrite total_snoc. cbn. by rewrite Z.add_0_r.
      * rewrite El, wrap64_add, total_snoc. cbn. by rewrite (proj2 (bytes_eqb_eq route route)).
  - split; cbn; rewrite ?total_snoc; cbn [flight completed fst]; rewrite ?Z.add_0_r; try done.
    intros r. by apply route_exact_same.
  - split; cbn; rewrite ?total_snoc; cbn [flight completed fst]; rewrite ?Z.add_0_r; try done.
    intros r. by apply route_exact_same.
  - split; cbn; rewrite ?total_snoc; cbn [flight completed fst]; rewrite ?Z.add_0_r; try done.
    + intros r. by apply route_exact_same.
    + by rewrite Hf, wrap_i64_add.
  - split; cbn; rewrite ?total_snoc; cbn [flight completed fst]; rewrite ?Z.add_0_r; try done;
      [by apply on_route_ok| |by apply on_route_known|by rewrite Hc, wrap64_add].
    apply on_route_exact; [done|done| |].
    + intros r Hne. split; [|done]. intros i. cbn. by rewrite (proj2 (bytes_eqb_neq r route)).
    + intros c [Ec El]. unfold inc_class, inc_limited. split; cbn [rc_status_class rc_rate_limited].
      * rewrite Ec, bump_exact by apply status_class_lt. apply map_ext. intros i. rewrite total_snoc. cbn.
        by rewrite (proj2 (bytes_eqb_eq route route)).
      * rewrite El, total_snoc. cbn. by rewrite Z.add_0_r.
Qed.

Lemma counted_ok evs : counters_ok evs (counted evs).
Proof.
  induction evs as [|ev evs IH] using rev_ind.
  - split; cbn; try done.
    + split; [by repeat constructor|apply NoDup_singleton].
    + intros r. by case_match.
  - unfold counted. rewrite fold_left_app. cbn. by apply count_metric_ok.
Qed.

(** The counters are exact and total.  After any sequence of what transactions report, of any
    routes and any statuses, hostile ones included: every route's five status-class counters and
    its rate-limit counter are the numbers of its requests of that class and of its rejections,
    modulo their width, a route never seen has none; the registry keeps one entry per name in the
    order a scrape lists them, the in-flight gauge is the sum of the changes and the histogram
    counts each completed request once. *)
Theorem counters_exact (evs : list (Metric * Z)) :
  let m := counted evs in
  (forall r i n, rc_status_class (default route_counters_new (route_counters (sm_routes m) r)) !! i = Some n ->
     n = wrap64 (total (hit r i) evs)) /\
  (forall r, rc_rate_limited (default route_counters_new (route_counters (sm_routes m) r)) = wrap64 (total (limit_hit r) evs)) /\
  StronglySorted bytes_le (map fst (sm_routes m)) /\ NoDup (map fst (sm_routes m)) /\
  sm_in_flight m = wrap_i64 (total flight evs) /\ hg_count (sm_duration m) = wrap64 (total completed evs).
Proof.
  destruct (counted_ok evs) as [[Hs Hd] Hr Hk Hf Hc]. cbv zeta. split_and!; [|intros r; apply Hr|done..].
  intros r i n. rewrite (proj1 (Hr r)). intros Hn. rewrite list_lookup_fmap in Hn.
  destruct (seq 0 5 !! i) as [j|] eqn:Ej; [|done]. injection Hn as <-. apply lookup_seq in Ej as [-> _]. done.
Qed.

(** ** The registry among threads

    A recorder loads the registry, inserts a missing route by read-copy-update and loads again; a
    scrape registers the manifest's routes the same way.  Counters are shared cells, a registry
    maps a name to its cell; a copy whose exchange fails is built again from the new registry, so
    only the one that succeeds counts. *)
Section registry.
Context {K : Type} `{Countable K}.

Inductive RecPhase := RpLoad (name : K) | RpInsert (name : K) | RpReload (name : K) | RpHold (name : K) (cell : nat).

(** [rg_added] is every increment made so far, by name. *)
Record Registry := mkRegistry {
  rg_map : gmap K nat;
  rg_cells : gmap nat Z;
  rg_threads : gmap nat RecPhase;
  rg_added : list K;
}.

Definition registry_new : Registry := mkRegistry ∅ ∅ ∅ [].

(** [rcu] with a fresh zeroed cell for the name. *)
Definition rcu_insert (name : K) (cell : nat) (s : Registry) : Registry :=
  match rg_map s !! name with
  | Some _ => s
  | None => mkRegistry (<[name := cell]> (rg_map s)) (<[cell := 0]> (rg_cells s)) (rg_threads s) (rg_added s)
  end.

Definition set_phase (t : nat) (p : option RecPhase) (s : Registry) : Registry :=
  mkRegistry (rg_map s) (rg_cells s) (partial_alter (fun _ => p) t (rg_threads s)) (rg_added s).

Inductive registry_step (s : Registry) : Registry -> Prop :=
| RgStart t name : rg_threads s !! t = None -> registry_step s (set_phase t (Some (RpLoad name)) s)
| RgHit t name cell : rg_threads s !! t = Some (RpLoad name) -> rg_map s !! name = Some cell ->
    registry_step s (set_phase t (Some (RpHold name cell)) s)
| RgMiss t name : rg_threads s !! t = Some (RpLoad name) -> rg_map s !! name = None ->
    registry_step s (set_phase t (Some (RpInsert name)) s)
| RgRcu t name cell : rg_threads s !! t = Some (RpInsert name) -> rg_cells s !! cell = None ->
    registry_step s (set_phase t (Some (RpReload name)) (rcu_insert name cell s))
| RgReload t name cell : rg_threads s !! t = Some (RpReload name) -> rg_map s !! name = Some cell ->
    registry_step s (set_phase t (Some (RpHold name cell)) s)
(** The fallback: counters nobody else sees. *)
| RgPrivate t name cell : rg_threads s !! t = Some (RpReload name) -> rg_map s !! name = None -> rg_cells s !! cell = None ->
    registry_step s (set_phase t (Some (RpHold name cell))
      (mkRegistry (rg_map s) (<[cell := 0]> (rg_cells s)) (rg_threads s) (rg_added s)))
| RgAdd t name cell n : rg_threads s !! t = Some (RpHold name cell) -> rg_cells s !! cell = Some n ->
    registry_step s (set_phase t None
      (mkRegistry (rg_map s) (<[cell := wrapping_add n 1]> (rg_cells s)) (rg_threads s) (name :: rg_added s)))
| RgRegister name cell : rg_cells s !! cell = None -> registry_step s (rcu_insert name cell s).

Definition phase_ok (s : Registry) (p : RecPhase) : Prop :=
  match p with
  | RpHold name cell => rg_map s !! name = Some cell
  | RpReload name => is_Some (rg_map s !! name)
  | _ => True
  end.

Definition added (name : K) (s : Registry) : Z := Z.of_nat (length (filter (fun n => n = name) (rg_added s))).

Lemma added_cons name n s m c t : added n (mkRegistry m c t (name :: rg_added s)) = added n s + (if decide (name = n) then 1 else 0).
Proof. unfold added. cbn [rg_added]. rewrite filter_cons. case_decide; cbn [length]; lia. Qed.

Record registry_ok (s : Registry) : Prop := {
  ro_phases : map_Forall (fun _ => phase_ok s) (rg_threads s);
  ro_cells name cell : rg_map s !! name = Some cell -> rg_cells s !! cell = Some (wrap64 (added name s));
  ro_inj n1 n2 cell : rg_map s !! n1 = Some cell -> rg_map s !! n2 = Some cell -> n1 = n2;
  ro_known name : name ∈ rg_added s -> is_Some (rg_map s !! name);
}.

Lemma phase_set s t p : registry_ok s -> (forall q, p = Some q -> phase_ok s q) -> registry_ok (set_phase t p s).
Proof.
  intros [Hp Hc Hi Hk] Hq. split; cbn; try done. intros t' q Ht'. change (phase_ok s q).
  destruct (decide (t' = t)) as [->|Hne].
  - rewrite lookup_partial_alter_eq in Ht'. by apply Hq.
  - rewrite lookup_partial_alter_ne in Ht' by done. by eapply Hp.
Qed.

Lemma added_none name s : registry_ok s -> rg_map s !! name = None -> added name s = 0.
Proof.
  intros Hok Hn. unfold added. enough (filter (fun n => n = name) (rg_added s) = []) as -> by done.
  apply elem_of_nil_inv. intros n [-> Hin]%list_elem_of_filter. destruct (ro_known _ Hok _ Hin) as [c Hc]. congruence.
Qed.

Lemma rcu_insert_ok name cell s : registry_ok s -> rg_cells s !! cell = None ->
  registry_ok (rcu_insert name cell s) /\ is_Some (rg_map (rcu_insert name cell s) !! name).
Proof.
  intros Hok Hfresh. unfold rcu_insert. destruct (rg_map s !! name) as [c|] eqn:En; [split; [done|by rewrite En]|].
  assert (Hadd := added_none name s Hok En). destruct Hok as [Hp Hc Hi Hk].
  assert (Hkeep : forall n c, rg_map s !! n = Some c -> n <> name /\ c <> cell).
  { intros n c Hn. split; [intros ->; congruence|]. intros ->. specialize (Hc _ _ Hn). congruence. }
  split; [split; cbn|cbn; rewrite lookup_insert_eq; by eexists].
  - intros t p Ht. specialize (Hp t p Ht). destruct p as [n|n|n|n c]; cbn in *; try done.
    + destruct Hp as [c Hn]. destruct (Hkeep _ _ Hn). rewrite lookup_insert_ne by done. by eexists.
    + destruct (Hkeep _ _ Hp). by rewrite lookup_insert_ne.
  - intros n c. destruct (decide (n = name)) as [->|Hne].
    + rewrite lookup_insert_eq. intros [= <-]. rewrite lookup_insert_eq. unfold added in *. cbn. by rewrite Hadd.
    + rewrite lookup_insert_ne by done. intros Hn. destruct (Hkeep _ _ Hn). rewrite lookup_insert_ne by done. by apply Hc.
  - intros n1 n2 c. destruct (decide (n1 = name)) as [->|H1], (decide (n2 = name)) as [->|H2]; [done|..].
    + rewrite lookup_insert_eq, lookup_insert_ne by done. intros [= <-] Hn. by destruct (Hkeep _ _ Hn).
    + rewrite lookup_insert_eq, lookup_insert_ne by done. intros Hn [= <-]. by destruct (Hkeep _ _ Hn).
    + rewrite !lookup_insert_ne by done. apply Hi.
  - intros n Hin. destruct (decide (n = name)) as [->|Hne]; [rewrite lookup_insert_eq; by eexists|].
    rewrite lookup_insert_ne by done. by apply Hk.
Qed.

Lemma registry_step_ok s s' : registry_ok s -> registry_step s s' -> registry_ok s'.
Proof.
  intros Hok Hst. destruct Hst as [t name Ht|t name cell Ht Hm|t name Ht Hm|t name cell Ht Hf|t name cell Ht Hm|t name cell Ht Hm Hf
    |t name cell n Ht Hn|name cell Hf].
  - apply phase_set; [done|by intros q [= <-]].
  - apply phase_set; [done|by intros q [= <-]].
  - apply phase_set; [done|by intros q [= <-]].
  - destruct (rcu_insert_ok name cell s Hok Hf). apply phase_set; [done|by intros q [= <-]].
  - apply phase_set; [done|by intros q [= <-]].
  - destruct (ro_phases _ Hok _ _ Ht) as [c Hc]. congruence.
  - pose proof (ro_phases _ Hok _ _ Ht) as Hm. cbn in Hm. apply phase_set; [|done]. destruct Hok as [Hp Hc Hi Hk].
    split; cbn; try done.
    + intros n' c Hn'. rewrite added_cons. destruct (decide (name = n')) as [<-|Hne].
      * assert (c = cell) as -> by congruence. rewrite lookup_insert_eq. rewrite (Hc _ _ Hm) in Hn. injection Hn as <-.
        by rewrite wrap64_add.
      * rewrite Z.add_0_r, lookup_insert_ne by (intros ->; apply Hne; by apply (Hi _ _ _ Hm Hn')). by apply Hc.
    + intros n' [->|Hin]%elem_of_cons; [by eexists|by apply Hk].
  - by apply rcu_insert_ok.
Qed.

(** No increment is lost to the registry's copies.  However recorders of any routes and scrapes
    interleave, inserting the same route at once included: a registered route's counter is the
    number of increments made for it, modulo its width, and no recorder ever falls back to
    counters that a scrape would not see. *)
Theorem no_increment_lost (s : Registry) : rtc registry_step registry_new s ->
  (forall name cell, rg_map s !! name = Some cell -> rg_cells s !! cell = Some (wrap64 (added name s))) /\
  (forall name, name ∈ rg_added s -> is_Some (rg_map s !! name)) /\
  (forall t name, rg_threads s !! t = Some (RpReload name) -> is_Some (rg_map s !! name)).
Proof.
  intros Hr. assert (Hok : registry_ok s).
  { assert (H0 : registry_ok registry_new) by (split; cbn; try done; by intros ? ?%elem_of_nil).
    revert H0. induction Hr as [|x y z Hxy _ IH]; [done|]. intros H0. by apply IH, (registry_step_ok x). }
  split_and!; [apply Hok|apply Hok|]. intros t name Ht. exact (ro_phases _ Hok _ _ Ht).
Qed.
End registry.

(** Two recorders miss the same route; the second's insertion keeps the first's cell. *)
Lemma no_increment_lost_witness : exists s : Registry (K := nat), rtc registry_step registry_new s /\
  rg_map s !! 5%nat = Some 1%nat /\ rg_cells s !! 1%nat = Some (wrap64 (added 5%nat s)) /\ added 5%nat s = 2.
Proof.
  assert (H : exists s : Registry (K := nat), rtc registry_step registry_new s /\ rg_map s !! 5%nat = Some 1%nat /\ added 5%nat s = 2).
  { eexists. split.
    - eapply rtc_l; [apply (RgStart _ 0 5%nat); reflexivity|]. eapply rtc_l; [apply (RgStart _ 1 5%nat); reflexivity|].
      eapply rtc_l; [apply (RgMiss _ 0 5%nat); reflexivity|]. eapply rtc_l; [apply (RgMiss _ 1 5%nat); reflexivity|].
      eapply rtc_l; [apply (RgRcu _ 0 5%nat 1); reflexivity|]. eapply rtc_l; [apply (RgRcu _ 1 5%nat 2); reflexivity|].
      eapply rtc_l; [apply (RgReload _ 0 5%nat 1); reflexivity|]. eapply rtc_l; [apply (RgReload _ 1 5%nat 1); reflexivity|].
      eapply rtc_l; [apply (RgAdd _ 0 5%nat 1 0); reflexivity|]. eapply rtc_l; [apply (RgAdd _ 1 5%nat 1 1); reflexivity|]. apply rtc_refl.
    - split; reflexivity. }
  destruct H as (s & Hr & Hm & Ha). exists s. split; [exact Hr|]. split; [exact Hm|]. split; [|exact Ha].
  exact (proj1 (no_increment_lost s Hr) _ _ Hm).
Defined.
