(* ===== verification/Admin.v ===== *)
(** * The admin endpoint (server/src/admin.rs, control/src/control_observability.rs)

    The requests of the admin listener, answered from the metrics and from the flags the shutdown
    sequence flips, and its accept loop as a step relation. *)

From S2P Require Import Prelude Bytes Upstream Listener F64 Observe Metrics.

Definition MAX_ADMIN_CONNECTIONS : Z := 64.

Definition TEXT_PLAIN : bytes := bs "text/plain; charset=utf-8".
Definition EXPOSITION : bytes := bs "text/plain; version=0.0.4; charset=utf-8".

Record AdminReply := mkAdmin { ar_status : Z; ar_content_type : bytes; ar_body : bytes }.

(** What a scrape reads of the rest of the server: the active routes' names, the sinks and the
    instances. *)
Record Scraped := mkScraped {
  sc_routes : list bytes;
  sc_filter : MetricsSink;
  sc_inline : InlineMetrics;
  sc_otlp : option (Z * Z);
  sc_pool : option PoolResidency;
  sc_upstreams : list (bytes * list nat);
  sc_heap : Heap;
  sc_now : Z;
}.

Definition text_line (s : string) : bytes := bs s ++ [NEWLINE].

Definition admin_handle (path : bytes) (ready drain : bool) (sc : Scraped) (m : ServerMetrics) : AdminReply * ServerMetrics :=
  if bytes_eqb path (bs "/metrics") then
    let m := with_routes (register_routes (sc_routes sc) (sm_routes m)) m in
    (mkAdmin 200 EXPOSITION
       (render (sc_heap sc) (sc_now sc) m (sc_filter sc) (sc_inline sc) (sc_otlp sc) (sc_pool sc) (sc_upstreams sc)), m)
  else if bytes_eqb path (bs "/healthz") then (mkAdmin 200 TEXT_PLAIN (text_line "ok"), m)
  else if bytes_eqb path (bs "/readyz") then
    (if ready && negb drain then mkAdmin 200 TEXT_PLAIN (text_line "ready")
     else mkAdmin 503 TEXT_PLAIN (text_line "draining"), m)
  else (mkAdmin 404 TEXT_PLAIN (text_line "not found"), m).

(** ** The accept loop *)

(** The loop waits for a connection or the drain, then, with a connection in hand, for a permit. *)
Inductive AdminLoop := AdAccept | AdPermit | AdDone.

Record AdminServe := mkAdminServe {
  ad_loop : AdminLoop;
  ad_permits : Z;
  ad_conns : gset nat;
  ad_drain : bool;
}.

(** [serve_admin] once the listener is bound, or not. *)
Definition serve_admin (bound : bool) : AdminServe :=
  mkAdminServe (if bound then AdAccept else AdDone) MAX_ADMIN_CONNECTIONS ∅ false.

(** The [select] is not biased: a pending connection may be taken after the drain. *)
Inductive admin_step (s : AdminServe) : AdminServe -> Prop :=
| AdDrain : admin_step s (mkAdminServe (ad_loop s) (ad_permits s) (ad_conns s) true)
| AdStop : ad_loop s = AdAccept -> ad_drain s = true ->
    admin_step s (mkAdminServe AdDone (ad_permits s) (ad_conns s) (ad_drain s))
| AdFailed : ad_loop s = AdAccept -> admin_step s s
| AdConnect : ad_loop s = AdAccept -> admin_step s (mkAdminServe AdPermit (ad_permits s) (ad_conns s) (ad_drain s))
| AdSpawn c : ad_loop s = AdPermit -> 0 < ad_permits s -> c ∉ ad_conns s ->
    admin_step s (mkAdminServe AdAccept (ad_permits s - 1) ({[c]} ∪ ad_conns s) (ad_drain s))
| AdEnd c : c ∈ ad_conns s ->
    admin_step s (mkAdminServe (ad_loop s) (ad_permits s + 1) (ad_conns s ∖ {[c]}) (ad_drain s)).

Record admin_ok (bound : bool) (s : AdminServe) : Prop := mkAdminOk {
  ao_permits : 0 <= ad_permits s /\ ad_permits s + Z.of_nat (size (ad_conns s)) = MAX_ADMIN_CONNECTIONS;
  ao_done : ad_loop s = AdDone -> bound = true -> ad_drain s = true;
  ao_bound : bound = false -> ad_loop s = AdDone;
}.

Lemma admin_step_ok bound s s' : admin_ok bound s -> admin_step s s' -> admin_ok bound s'.
Proof.
  intros [[Hp Hs] Hd Hb] [|Ha Hr| |Ha|c Ha Hr Hc|c Hc]; constructor; cbn; intros; try by auto; try by rewrite Hb in Ha.
  - rewrite size_union by set_solver. rewrite size_singleton. lia.
  - rewrite size_difference by set_solver. rewrite size_singleton.
    assert (0 < size (ad_conns s))%nat by (destruct (decide (ad_conns s = ∅)) as [E|Hne]; [set_solver|];
      apply Nat.neq_0_lt_0; by rewrite size_non_empty_iff, leibniz_equiv_iff). lia.
Qed.

Lemma admin_reachable bound s : rtc admin_step (serve_admin bound) s -> admin_ok bound s.
Proof.
  intros Hr. assert (H0 : admin_ok bound (serve_admin bound)) by (constructor; destruct bound; cbn; done).
  revert H0. induction Hr as [|x y z Hstep _ IH]; [done|]. intros Hx. by apply IH, (admin_step_ok _ x).
Qed.

(** The admin connections are bounded.  Whatever connects, fails, ends or drains, the connections served
    and the free permits are always the 64 together; a listener that could not be bound serves nobody;
    one that was stops only at a drain, and once stopped it opens no connection. *)
Theorem admin_bounded (bound : bool) (s : AdminServe) : rtc admin_step (serve_admin bound) s ->
  0 <= ad_permits s /\ ad_permits s + Z.of_nat (size (ad_conns s)) = MAX_ADMIN_CONNECTIONS /\
  (bound = false -> ad_loop s = AdDone) /\
  (ad_loop s = AdDone -> (bound = true -> ad_drain s = true) /\
    forall s', admin_step s s' -> ad_loop s' = AdDone /\ ad_conns s' ⊆ ad_conns s).
Proof.
  intros [[Hp Hs] Hd Hb]%admin_reachable. split_and!; [done..|]. intros E. split; [by apply Hd|].
  intros s' [|Ha Hr| |Ha|c Ha Hr Hc|c Hc]; cbn; try (by rewrite E in *); split; try done; set_solver.
Qed.

Lemma admin_bounded_witness : let s := mkAdminServe AdAccept 63 {[0%nat]} false in
  rtc admin_step (serve_admin true) s /\ ad_permits s + Z.of_nat (size (ad_conns s)) = MAX_ADMIN_CONNECTIONS.
Proof.
  cbv zeta. assert (H : rtc admin_step (serve_admin true) (mkAdminServe AdAccept 63 {[0%nat]} false)).
  { eapply rtc_l; [by apply AdConnect|]. apply rtc_once. cbn.
    pose proof (AdSpawn (mkAdminServe AdPermit MAX_ADMIN_CONNECTIONS ∅ false) 0 eq_refl ltac:(done) ltac:(set_solver)) as H.
    cbn in H. by rewrite union_empty_r_L in H. }
  split; [exact H|]. exact (proj1 (proj2 (admin_bounded true _ H))).
Defined.

Lemma admin_fill (n : nat) : Z.of_nat n <= MAX_ADMIN_CONNECTIONS ->
  rtc admin_step (serve_admin true) (mkAdminServe AdAccept (MAX_ADMIN_CONNECTIONS - Z.of_nat n) (set_seq 0 n) false).
Proof.
  induction n as [|n IH]; intros Hn; [apply rtc_refl|]. eapply rtc_r; [eapply rtc_r; [apply IH; lia|by apply AdConnect]|].
  cbn [ad_loop ad_permits ad_conns ad_drain]. rewrite set_seq_S_end_union_L. rewrite Nat2Z.inj_succ. unfold Z.succ.
  rewrite Z.sub_add_distr. apply (AdSpawn (mkAdminServe AdPermit (MAX_ADMIN_CONNECTIONS - Z.of_nat n) (set_seq 0 n) false));
    cbn; [done|lia|rewrite elem_of_set_seq; lia].
Qed.

(** A full loop with one more connection in hand does not see the drain: until a connection ends nothing
    moves it, and the drained loop is reachable in that state.  A stopped loop leaves its connections
    behind as well. *)
Lemma admin_drain_unseen :
  (forall s s', ad_loop s = AdPermit -> ad_permits s = 0 -> admin_step s s' -> ad_loop s' = AdPermit) /\
  (exists s, rtc admin_step (serve_admin true) s /\ ad_drain s = true /\ ad_loop s = AdPermit /\ ad_permits s = 0) /\
  (exists s, rtc admin_step (serve_admin true) s /\ ad_loop s = AdDone /\ ad_conns s <> ∅).
Proof.
  split_and!.
  - intros s s' El Ep [|Ha Hr| |Ha|c Ha Hr Hc|c Hc]; cbn; congruence || lia.
  - eexists. split; [eapply rtc_r; [eapply rtc_r; [by apply (admin_fill 64)|by apply AdConnect]|by apply AdDrain]|]. done.
  - eexists. split; [eapply rtc_r; [eapply rtc_r; [by apply (admin_fill 1)|by apply AdDrain]|by apply AdStop]|].
    cbn. split; [done|]. set_solver.
Qed.

(** ** Scrapes *)

Lemma register_routes_names names routes r : r ∈ names \/ r ∈ map fst routes -> r ∈ map fst (register_routes names routes).
Proof.
  unfold register_routes. revert routes. induction names as [|n names IH]; intros routes Hr; cbn.
  - destruct Hr as [Hr|Hr]; [by apply elem_of_nil in Hr|done].
  - apply IH. rewrite insert_route_names. destruct Hr as [[->|Hr]%elem_of_cons|Hr]; auto.
Qed.

Lemma register_routes_ok names routes : routes_ok routes -> routes_ok (register_routes names routes).
Proof.
  unfold register_routes. revert routes. induction names as [|n names IH]; intros routes Hr; [done|]. cbn.
  by apply IH, insert_route_ok.
Qed.

(** A registration changes no counter. *)
Lemma register_routes_keeps names routes r c : routes_ok routes -> route_counters routes r = Some c ->
  route_counters (register_routes names routes) r = Some c.
Proof.
  unfold register_routes. revert routes. induction names as [|n names IH]; intros routes Hr Hc; [done|]. cbn.
  apply IH; [by apply insert_route_ok|]. rewrite lookup_insert_route by done. destruct (bytes_eqb r n) eqn:E; [|done].
  apply bytes_eqb_eq in E; subst n. by rewrite Hc.
Qed.

Lemma route_entry (routes : list (bytes * RouteCounters)) r : r ∈ map fst routes -> exists c, (r, c) ∈ routes.
Proof. intros ([n c] & -> & Hin)%list_elem_of_fmap. by exists c. Qed.

Lemma samples_family name help kind samples : samples_of (family name help kind samples) = samples.
Proof.
  unfold samples_of, family. cbn. induction samples as [|x samples IH]; [done|]. cbn. by rewrite IH.
Qed.

Lemma samples_app l k : samples_of (l ++ k) = samples_of l ++ samples_of k.
Proof. unfold samples_of. apply omap_app. Qed.

Lemma insert_route_five name routes : Forall (fun e => length (rc_status_class e.2) = 5%nat) routes ->
  Forall (fun e => length (rc_status_class e.2) = 5%nat) (insert_route name routes).
Proof.
  intros H. induction H as [|[n c] routes Hc Hr IH]; cbn; [by repeat constructor|].
  destruct (bytes_eqb n name); [by constructor|]. destruct (bytes_leb name n); [by repeat constructor|by constructor].
Qed.

Lemma register_routes_five names routes : Forall (fun e => length (rc_status_class e.2) = 5%nat) routes ->
  Forall (fun e => length (rc_status_class e.2) = 5%nat) (register_routes names routes).
Proof.
  unfold register_routes. revert routes. induction names as [|n names IH]; intros routes H; [done|]. by apply IH, insert_route_five.
Qed.

Lemma class_value class slots : class ∈ CLASSES -> length slots = 5%nat -> exists n : Z, (class, n) ∈ zip CLASSES slots.
Proof.
  intros [i Hi]%list_elem_of_lookup Hlen. destruct (lookup_lt_is_Some_2 slots i) as [n Hn].
  { apply lookup_lt_Some in Hi. unfold CLASSES in Hi. rewrite length_map in Hi. cbn in Hi. lia. }
  exists n. apply list_elem_of_lookup. exists i. by apply lookup_zip_Some.
Qed.

(** A scrape shows every declared route.  Whatever its name, each route of the active manifest
    has all five status-class series in what a reader of the body gets, at zero before its first
    request, and the scrape changes no counter. *)
Theorem scrape_lists_routes (ready drain : bool) (sc : Scraped) (m : ServerMetrics) : routes_ok (sm_routes m) ->
  Forall (fun e => length (rc_status_class e.2) = 5%nat) (sm_routes m) ->
  let '(reply, m') := admin_handle (bs "/metrics") ready drain sc m in
  ar_status reply = 200 /\ exists samples, read_exposition (ar_body reply) = Some samples /\
    (forall r class, r ∈ sc_routes sc -> class ∈ CLASSES -> exists n,
       mkSample (bs "plecto_requests_total") [(bs "route", r); (bs "status_class", class)] (dec n) ∈ samples) /\
    (forall r c, route_counters (sm_routes m) r = Some c -> route_counters (sm_routes m') r = Some c).
Proof.
  intros Hok Hall. cbn. split; [done|]. eexists. split; [apply render_reads|]. split.
  - intros r class Hr Hclass. destruct (route_entry (register_routes (sc_routes sc) (sm_routes m)) r) as [c Hc].
    { apply register_routes_names. by left. }
    assert (Hlen : length (rc_status_class c) = 5%nat).
    { pose proof (register_routes_five (sc_routes sc) _ Hall) as H5. rewrite Forall_forall in H5. by apply (H5 _ Hc). }
    destruct (class_value class (rc_status_class c) Hclass Hlen) as [n Hn]. exists n.
    unfold render_lines, native_lines. rewrite !samples_app. do 2 (apply elem_of_app; left). rewrite samples_family.
    apply list_elem_of_In, in_concat. eexists. split; [apply in_map_iff; exists (r, c); split; [reflexivity|by apply list_elem_of_In]|].
    apply in_map_iff. exists (class, n). split; [done|by apply list_elem_of_In].
  - intros r c Hc. by apply register_routes_keeps.
Qed.

(** A route is declared before its first request. *)
Lemma scrape_lists_routes_witness :
  let sc := mkScraped [hostile_name] (mkMetrics 0 0 0 0) inline_new None None [] ∅ 0 in
  ar_status (admin_handle (bs "/metrics") true false sc server_metrics_new).1 = 200 /\
  exists samples, read_exposition (ar_body (admin_handle (bs "/metrics") true false sc server_metrics_new).1) = Some samples.
Proof.
  cbv zeta. pose proof (scrape_lists_routes true false (mkScraped [hostile_name] (mkMetrics 0 0 0 0) inline_new None None [] ∅ 0)
    server_metrics_new (ok_routes _ _ (counted_ok [])) ltac:(by repeat constructor)) as H.
  destruct (admin_handle _ _ _ _ _) as [reply m']. destruct H as [Hs (samples & Hr & _)]. split; [exact Hs|by exists samples].
Defined.

(** Readiness leads the drain.  At every moment of a server's life the probes agree with the
    shutdown sequence: liveness is always up; readiness is up until the signal and down ever
    after, so by the time connections are no longer accepted it has been down for the whole
    grace. *)
Theorem readiness_leads_drain (hash : list Z -> Z) (h3 otlp admin : bool) (drain : option Drain) (lateness : Z)
    (s : ServeState) (sc : Scraped) (m : ServerMetrics) :
  0 <= readiness_grace drain -> 0 <= default DEFAULT_DRAIN_DEADLINE (drain_window drain) -> 0 <= lateness ->
  rtc (serve_step hash h3 otlp admin drain lateness) (serve_new h3) s ->
  let status path := ar_status (admin_handle path (sv_ready s) (sv_drain s) sc m).1 in
  status (bs "/healthz") = 200 /\ (status (bs "/readyz") = 200 \/ status (bs "/readyz") = 503) /\
  (status (bs "/readyz") = 200 <-> sv_signal s = None) /\
  (sv_tcp s = LpDone -> exists t0, sv_signal s = Some t0 /\ t0 + readiness_grace drain <= sv_now s).
Proof.
  intros Hg Hw Hl Hr. destruct (serve_reachable _ _ _ _ _ _ Hg Hw Hl s Hr) as [_ _ [Pd Pt Ps Pg _]]. cbv zeta beta.
  assert (Hready : sv_ready s && negb (sv_drain s) = bool_decide (sv_signal s = None)).
  { destruct (sv_phase s); [destruct (Ps eq_refl) as [-> ->]; by rewrite Pd|..];
      destruct Pg as (-> & t0 & -> & _); done. }
  assert (Hst : ar_status (admin_handle (bs "/readyz") (sv_ready s) (sv_drain s) sc m).1
    = if bool_decide (sv_signal s = None) then 200 else 503) by (rewrite <- Hready; by destruct (sv_ready s), (sv_drain s)).
  rewrite Hst. split; [done|]. split; [by case_bool_decide; [left|right]|]. split; [by case_bool_decide|].
  intros Hd. destruct Pg as (_ & t0 & Hs & _ & Hgr & _).
  { intros E. apply Pt in Hd. by rewrite E in Hd. }
  exists t0. split; [done|]. by apply Hgr, Pt.
Qed.

(** Half a second after the signal, with a grace of two seconds. *)
Lemma readiness_leads_drain_witness : let drain := Some (mkDrain (Some 2000) None) in
  let s := at_time 500 (mkServe 0 false false (PhGrace 2000) LpPermit LpDone (sv_conns (serve_new false)) (Some 0)) in
  let sc := mkScraped [] (mkMetrics 0 0 0 0) inline_new None None [] ∅ 0 in
  rtc (serve_step (fun _ => 7) false false false drain 0) (serve_new false) s /\
  ar_status (admin_handle (bs "/readyz") (sv_ready s) (sv_drain s) sc server_metrics_new).1 = 503 /\
  (ar_status (admin_handle (bs "/readyz") (sv_ready s) (sv_drain s) sc server_metrics_new).1 = 200 <-> sv_signal s = None).
Proof.
  cbv zeta. match goal with |- rtc ?R ?x ?y /\ _ => assert (H : rtc R x y) end.
  { eapply rtc_l; [by apply LnSignal|]. eapply rtc_once, LnTime; [done|]. intros d Hd.
    inversion Hd as [t acc tls Ht|t acc since g Ht|u Hu]; [done|done|]. cbn in Hu. destruct Hu as [[= <-]|[?|[?|[?|[m ?]]]]]; done. }
  split; [exact H|]. split; [reflexivity|].
  exact (proj1 (proj2 (proj2 (readiness_leads_drain (fun _ => 7) false false false (Some (mkDrain (Some 2000) None)) 0 _
    (mkScraped [] (mkMetrics 0 0 0 0) inline_new None None [] ∅ 0) server_metrics_new ltac:(done) ltac:(done) ltac:(done) H)))).
Defined.
