(* ===== verification/H3Serve.v ===== *)
(** * HTTP/3 connections (server/src/h3/endpoint.rs)

    What the accept loop does about a reloaded TLS configuration, and the life of one connection
    with its request streams.  The loop's permits and drain are in [Listener]; QUIC, the handshake
    and the h3 library are the environment. *)

From S2P Require Import Prelude.

(** ** The TLS configuration of new connections *)

(** The loop is about to look at the active configuration, or waits for a connection. *)
Inductive QuicLoop := QlTop | QlWait.

(** Configurations are told apart by their address; [qc_pending] are the connections taken from the
    endpoint whose handshake has not begun, with the reloads there had been when each arrived, and
    [qc_shaken] the handshakes begun: those reloads, and the configuration used. *)
Record Quic := mkQuic {
  qc_current : option nat;
  qc_reloads : nat;
  qc_applied : option nat;
  qc_endpoint : option nat;
  qc_loop : QuicLoop;
  qc_pending : list nat;
  qc_shaken : list (nat * option nat);
}.

Section quic.
(** Whether a configuration can be made a QUIC one. *)
Context (builds : nat -> bool).

(** The top of the loop: what is applied, and what the endpoint has. *)
Definition apply_quic (current applied endpoint : option nat) : option nat * option nat :=
  if bool_decide (applied = current) then (applied, endpoint)
  else match current with
       | Some cfg => if builds cfg then (current, Some cfg) else (applied, endpoint)
       | None => (None, None)
       end.

Definition quic_new (cfg : nat) : Quic := mkQuic (Some cfg) 0 None (Some cfg) QlTop [] [].

Inductive quic_step (s : Quic) : Quic -> Prop :=
(** A reload swaps in a configuration of its own, or none. *)
| QsReload cfg : cfg <> qc_current s ->
    quic_step s (mkQuic cfg (S (qc_reloads s)) (qc_applied s) (qc_endpoint s) (qc_loop s) (qc_pending s) (qc_shaken s))
| QsApply applied endpoint : qc_loop s = QlTop -> apply_quic (qc_current s) (qc_applied s) (qc_endpoint s) = (applied, endpoint) ->
    quic_step s (mkQuic (qc_current s) (qc_reloads s) applied endpoint QlWait (qc_pending s) (qc_shaken s))
(** A permit freed, a finished task reaped: the loop turns without a connection. *)
| QsTurn : qc_loop s = QlWait ->
    quic_step s (mkQuic (qc_current s) (qc_reloads s) (qc_applied s) (qc_endpoint s) QlTop (qc_pending s) (qc_shaken s))
(** A connection arrives and its task is spawned. *)
| QsAccept : qc_loop s = QlWait ->
    quic_step s (mkQuic (qc_current s) (qc_reloads s) (qc_applied s) (qc_endpoint s) QlTop (qc_pending s ++ [qc_reloads s]) (qc_shaken s))
(** A task's handshake takes the endpoint's configuration. *)
| QsHandshake i n : qc_pending s !! i = Some n ->
    quic_step s (mkQuic (qc_current s) (qc_reloads s) (qc_applied s) (qc_endpoint s) (qc_loop s) (delete i (qc_pending s))
      (qc_shaken s ++ [(n, qc_endpoint s)])).
End quic.

(** The configuration is read before the wait, not after it: a connection that arrives once a reload
    has dropped to no configuration, or changed it, still gets the previous one. *)
Example reload_missed_by_waiting_accept : exists s, rtc (quic_step (fun _ => true)) (quic_new 1) s /\
  qc_current s = Some 2%nat /\ qc_reloads s = 1%nat /\ qc_shaken s = [(1%nat, Some 1%nat)].
Proof.
  eexists. split.
  - eapply rtc_l; [by eapply (QsApply _ _ (Some 1%nat) (Some 1%nat))|]. eapply rtc_l; [by apply (QsReload _ _ (Some 2%nat))|].
    eapply rtc_l; [by apply QsAccept|]. eapply rtc_once, (QsHandshake _ _ 0 1). reflexivity.
  - split_and!; reflexivity.
Qed.

(** ** One connection *)

(** The requests whose tasks are in the set, those of them that have returned, and what became of
    the others when the connection ended. *)
Inductive Ended := EnDrained | EnGoawayFailed | EnClosed | EnFailed.
Record H3Conn := mkConn {
  hc_draining : bool;
  hc_requests : gset nat;
  hc_returned : gset nat;
  hc_answered : gset nat;
  hc_aborted : gset nat;
  hc_ended : option Ended;
}.

Definition conn_accepted : H3Conn := mkConn false ∅ ∅ ∅ ∅ None.

(** After the loop: [abort_all] of what is left. *)
Definition end_conn (why : Ended) (c : H3Conn) : H3Conn :=
  mkConn (hc_draining c) ∅ ∅ (hc_answered c) (hc_requests c ∖ hc_returned c) (Some why).

(** The drain branch: GOAWAY, and the end if nothing is in flight. *)
Definition start_drain (goaway_ok : bool) (c : H3Conn) : H3Conn :=
  let c := mkConn true (hc_requests c) (hc_returned c) (hc_answered c) (hc_aborted c) None in
  if negb goaway_ok then end_conn EnGoawayFailed c
  else if decide (hc_requests c = ∅) then end_conn EnDrained c else c.

(** [join_next]: a returned task leaves the set. *)
Definition join_request (r : nat) (c : H3Conn) : H3Conn :=
  let c := mkConn (hc_draining c) (hc_requests c ∖ {[r]}) (hc_returned c ∖ {[r]}) (hc_answered c) (hc_aborted c) None in
  if hc_draining c && bool_decide (hc_requests c = ∅) then end_conn EnDrained c else c.

Inductive conn_event :=
| CeStream (r : nat)
| CeReturn (r : nat)
| CeJoin (r : nat)
| CeDrain (goaway_ok : bool)
| CeClosed
| CeFailed.

Definition conn_next (c : H3Conn) (e : conn_event) : option H3Conn :=
  match hc_ended c, e with
  | Some _, _ => None
  | None, CeStream r =>
    if decide (r ∈ hc_requests c ∪ hc_answered c) then None
    else Some (mkConn (hc_draining c) (hc_requests c ∪ {[r]}) (hc_returned c) (hc_answered c) (hc_aborted c) None)
  | None, CeReturn r =>
    if decide (r ∈ hc_requests c ∖ hc_returned c)
    then Some (mkConn (hc_draining c) (hc_requests c) (hc_returned c ∪ {[r]}) (hc_answered c ∪ {[r]}) (hc_aborted c) None)
    else None
  | None, CeJoin r => if decide (r ∈ hc_returned c) then Some (join_request r c) else None
  | None, CeDrain ok => if hc_draining c then None else Some (start_drain ok c)
  | None, CeClosed => Some (end_conn EnClosed c)
  | None, CeFailed => Some (end_conn EnFailed c)
  end.

Definition conn_step (c d : H3Conn) : Prop := exists e, conn_next c e = Some d.

Record conn_ok (c : H3Conn) : Prop := {
  hk_returned : hc_ended c = None -> hc_returned c ≡ hc_requests c ∩ hc_answered c;
  hk_open : hc_ended c = None -> hc_aborted c ≡ ∅;
  hk_ended : hc_ended c <> None -> hc_requests c ≡ ∅;
  hk_drained : hc_ended c = Some EnDrained -> hc_aborted c ≡ ∅ /\ hc_draining c = true;
  hk_busy : hc_ended c = None -> hc_draining c = true -> ~ hc_requests c ≡ ∅;
  hk_disjoint : hc_aborted c ## hc_answered c;
}.

Lemma end_conn_ok why c : conn_ok c -> hc_ended c = None ->
  (why = EnDrained -> hc_requests c ≡ ∅ /\ hc_draining c = true) -> conn_ok (end_conn why c).
Proof.
  intros [Hr Ho He Hd Hb Hx] E Hw. rewrite E in *. specialize (Hr eq_refl). split; cbn; try done.
  - intros [= ->]. destruct (Hw eq_refl). split; [set_solver|done].
  - set_solver.
Qed.

Lemma start_drain_ok ok c : conn_ok c -> hc_ended c = None -> conn_ok (start_drain ok c).
Proof.
  intros [Hr Ho He Hd Hb Hx] E. rewrite E in *. specialize (Hr eq_refl). specialize (Ho eq_refl). unfold start_drain.
  destruct ok; cbn; [case_decide as Hne|]; split; cbn; try done; try set_solver.
Qed.

Lemma join_request_ok r c : conn_ok c -> hc_ended c = None -> r ∈ hc_returned c -> conn_ok (join_request r c).
Proof.
  intros [Hr Ho He Hd Hb Hx] E Hin. rewrite E in *. specialize (Hr eq_refl). specialize (Ho eq_refl). unfold join_request.
  destruct (hc_draining c) eqn:Edr; cbn; [case_bool_decide as Hne|]; split; cbn; try done; try set_solver.
Qed.

Lemma h3_conn_step_ok c d : conn_ok c -> conn_step c d -> conn_ok d.
Proof.
  intros Hok [e Hn]. unfold conn_next in Hn. destruct (hc_ended c) eqn:E; [done|].
  destruct e as [r|r|r|ok| |].
  - destruct Hok as [Hr Ho He Hd Hb Hx]. rewrite E in *. case_decide as Hin; [done|]. injection Hn as <-.
    specialize (Hr eq_refl). split; cbn; try done; set_solver.
  - destruct Hok as [Hr Ho He Hd Hb Hx]. rewrite E in *. case_decide as Hin; [|done]. injection Hn as <-.
    specialize (Hr eq_refl). split; cbn; try done; set_solver.
  - case_decide; [|done]. injection Hn as <-. by apply join_request_ok.
  - destruct (hc_draining c); [done|]. injection Hn as <-. by apply start_drain_ok.
  - injection Hn as <-. by apply end_conn_ok.
  - injection Hn as <-. by apply end_conn_ok.
Qed.

(** A draining HTTP/3 connection lets its requests finish and does not linger.  Whatever streams
    arrive and whenever the drain starts: no request task outlives the connection; one that ends by
    draining aborted nothing, so every request it accepted was answered; and once draining it stays
    open only while a request is in flight, a returned one of which can be reaped. *)
Theorem drain_finishes_requests (c : H3Conn) : rtc conn_step conn_accepted c ->
  (hc_ended c <> None -> hc_requests c ≡ ∅) /\
  (hc_ended c = Some EnDrained -> hc_aborted c ≡ ∅) /\ hc_aborted c ## hc_answered c /\
  (hc_ended c = None -> hc_draining c = true -> ~ hc_requests c ≡ ∅ /\
     forall r, r ∈ hc_returned c -> conn_next c (CeJoin r) = Some (join_request r c)).
Proof.
  intros Hr. assert (Hok : conn_ok c).
  { assert (H0 : conn_ok conn_accepted) by (split; cbn; done || set_solver).
    revert H0. induction Hr as [|x y z Hxy _ IH]; [done|]. intros H0. by apply IH, (h3_conn_step_ok x). }
  destruct Hok as [Hrt Ho He Hd Hb Hx]. split_and!; [done|by intros E; apply Hd|done|].
  intros E Hdr. split; [by apply Hb|]. intros r Hin. unfold conn_next. rewrite E. by rewrite decide_True.
Qed.

(** Two requests, the drain, and the connection ends with the second answer. *)
Definition drained_conn : H3Conn :=
  join_request 2 (mkConn true {[2%nat]} {[2%nat]} {[1%nat; 2%nat]} ∅ None).

Lemma drain_finishes_requests_witness : rtc conn_step conn_accepted drained_conn /\ hc_ended drained_conn = Some EnDrained /\
  hc_aborted drained_conn ≡ ∅.
Proof.
  assert (H : rtc conn_step conn_accepted drained_conn).
  { eapply rtc_l; [by exists (CeStream 1)|]. eapply rtc_l; [by exists (CeStream 2)|]. eapply rtc_l; [by exists (CeDrain true)|].
    eapply rtc_l; [by exists (CeReturn 1)|]. eapply rtc_l; [by exists (CeJoin 1)|]. eapply rtc_l; [by exists (CeReturn 2)|].
    apply rtc_once. exists (CeJoin 2). vm_compute. reflexivity. }
  split; [exact H|]. split; [vm_compute; reflexivity|]. apply (proj1 (proj2 (drain_finishes_requests drained_conn H))). vm_compute. reflexivity.
Defined.
