(* ===== verification/DevSign.v ===== *)
(** * Signing keys and the dev key (host/src/dev_signer.rs, plecto/src/dev_key.rs,
    control/src/lib.rs, control/src/diagnostic.rs)

    The neutral signer an operator's key is loaded into, the dev key with its two files and its
    marker, the [.gitignore] entry that keeps it out of a repository, the bound SBOM, and the
    warning a marked trust key raises.  The key and signature primitives are a library; the texts
    of errors are not represented. *)

From S2P Require Import Prelude Bytes Paths Manifest Contract Filesystem Oci Provenance.

(** ** The signing library *)

(** Keys in PEM, the key pair drawn from some entropy, and a signature over a message. *)
Class SignerLib (SK : Type) := {
  sg_from_pem : bytes -> option SK;
  sg_new : nat -> option SK;
  sg_public_key_to_pem : SK -> option bytes;
  sg_private_key_to_pem : SK -> option bytes;
  sg_to_sigstore_signer : SK -> bool;
  sg_sign : SK -> nat -> bytes -> option bytes;
}.

Definition LF : ascii := "010"%char.
Definition DEV_KEY_MARKER : bytes := bs "# plecto-dev-key -- DO NOT reference from a production manifest".

(** A key survives its PEM, its signatures verify under its public key, and text before the PEM
    block is not part of it. *)
Class SignerLaws {SK Key World : Type} (SL : SignerLib SK) (TL : TrustLib Key World) : Prop := {
  sl_reads k pem : sg_private_key_to_pem k = Some pem -> sg_from_pem pem = Some k;
  sl_public k pem : sg_public_key_to_pem k = Some pem -> is_Some (tl_try_from_pem pem);
  sl_signs k pem key e msg sig : sg_public_key_to_pem k = Some pem -> tl_try_from_pem pem = Some key ->
    sg_sign k e msg = Some sig -> tl_verify_signature key sig msg = true;
  sl_preamble k pem : sg_public_key_to_pem k = Some pem ->
    tl_try_from_pem (DEV_KEY_MARKER ++ LF :: pem) = tl_try_from_pem pem;
}.

Inductive KeyOp := OpLoadKey | OpExportPublic | OpBuildSigner | OpGenerate | OpExportPrivate | OpSign
| OpReadKey | OpCreateDir | OpCreateKey | OpWriteKey | OpWritePublic.
Inductive DevKeyError := DkCrypto (op : KeyOp) | DkIo (op : KeyOp) | DkTrust.

Definition ok_or {A E : Type} (o : option A) (e : E) : result A E := match o with Some a => Ok a | None => Err e end.

(** ** The signers *)

Section sign.
Context {SK Key World : Type} `{SL : SignerLib SK} `{TL : TrustLib Key World}.

Record PemSigner := mkPemSigner { ps_signer : SK; ps_public_key_pem : bytes }.

Definition from_keys (keys : SK) : result PemSigner DevKeyError :=
  let? public_key_pem := ok_or (sg_public_key_to_pem keys) (DkCrypto OpExportPublic) in
  if sg_to_sigstore_signer keys then Ok (mkPemSigner keys public_key_pem) else Err (DkCrypto OpBuildSigner).

Definition from_private_key_pem (pem : bytes) : result PemSigner DevKeyError :=
  let? keys := ok_or (sg_from_pem pem) (DkCrypto OpLoadKey) in from_keys keys.

(** [sign]; the entropy a signature may use is its second argument. *)
Definition pem_sign (s : PemSigner) (entropy : nat) (msg : bytes) : result bytes DevKeyError :=
  ok_or (sg_sign (ps_signer s) entropy msg) (DkCrypto OpSign).

Record DevSigner := mkDevSigner { dv_inner : PemSigner }.

(** The signer and its private key, which the caller persists or drops. *)
Definition generate (entropy : nat) : result (DevSigner * bytes) DevKeyError :=
  let? keys := ok_or (sg_new entropy) (DkCrypto OpGenerate) in
  let? private_key_pem := ok_or (sg_private_key_to_pem keys) (DkCrypto OpExportPrivate) in
  let? inner := from_keys keys in
  Ok (mkDevSigner inner, private_key_pem).

Definition dev_from_private_key_pem (pem : bytes) : result DevSigner DevKeyError :=
  let? inner := from_private_key_pem pem in Ok (mkDevSigner inner).

Definition dev_sign (s : DevSigner) : nat -> bytes -> result bytes DevKeyError := pem_sign (dv_inner s).

Definition trust_policy (s : DevSigner) : result (TrustPolicy (Key := Key)) DevKeyError :=
  ok_or (from_pem_keys [ps_public_key_pem (dv_inner s)]) DkTrust.

(** ** The dev key's files *)

(** A file with its permission bits, or something that cannot be read as one. *)
Inductive KeyNode := KnFile (mode : Z) (content : bytes) | KnOther.

(** The key's directory, if it exists; [private_key_path] is a name in it. *)
Definition KeyDir : Type := option (gmap bytes KeyNode).
Definition key_dir (d : KeyDir) : gmap bytes KeyNode := default ∅ d.

Definition public_key_path_for (private_key_path : bytes) : bytes := private_key_path ++ bs ".pub".

(** What the process's umask leaves of the mode an ordinary file is created with. *)
Definition DEFAULT_MODE : Z := 438.
Definition OWNER_ONLY : Z := 384.

(** One file call that may fail: the state it leaves, and whether the next one runs. *)
Definition write_dev_key_files (umask : Z) (calls_ok : nat -> bool) (name private_key_pem public_key_pem : bytes)
    (d : KeyDir) : list KeyDir * result unit DevKeyError :=
  if negb (calls_ok 0%nat) then ([], Err (DkIo OpCreateDir))
  else
    let m := key_dir d in
    match m !! name with
    | Some _ => ([Some m], Err (DkIo OpCreateKey))
    | None =>
      if negb (calls_ok 1%nat) then ([Some m], Err (DkIo OpCreateKey))
      else
        let mode := Z.land OWNER_ONLY (Z.lnot umask) in
        let created := <[name := KnFile mode []]> m in
        if negb (calls_ok 2%nat) then ([Some m; Some created], Err (DkIo OpWriteKey))
        else
          let written := <[name := KnFile mode private_key_pem]> m in
          let states := [Some m; Some created; Some written] in
          let public := public_key_path_for name in
          let marked := DEV_KEY_MARKER ++ LF :: public_key_pem in
          match written !! public with
          | Some KnOther => (states, Err (DkIo OpWritePublic))
          | found =>
            if negb (calls_ok 3%nat) then (states, Err (DkIo OpWritePublic))
            else
              let public_mode := match found with Some (KnFile m _) => m | _ => Z.land DEFAULT_MODE (Z.lnot umask) end in
              (states ++ [Some (<[public := KnFile public_mode marked]> written)], Ok tt)
          end
    end.

(** The states the files pass through, the last being the one left, and the signer. *)
Definition load_or_create (umask : Z) (calls_ok : nat -> bool) (entropy : nat) (name : bytes) (d : KeyDir)
    : list KeyDir * result DevSigner DevKeyError :=
  match key_dir d !! name with
  | Some (KnFile _ pem) => ([], dev_from_private_key_pem pem)
  | Some KnOther => ([], Err (DkIo OpReadKey))
  | None =>
    match generate entropy with
    | Err e => ([], Err e)
    | Ok (signer, private_key_pem) =>
      let '(states, written) := write_dev_key_files umask calls_ok name private_key_pem
        (ps_public_key_pem (dv_inner signer)) d in
      (states, let? _ := written in Ok signer)
    end
  end.

Definition final (d : KeyDir) (states : list KeyDir) : KeyDir := default d (last states).

(** ** The [.gitignore] entry *)

(** [str::lines]: a line ends at a newline or at the end, and loses one carriage return before it. *)
Definition drop_cr (line : bytes) : bytes :=
  match reverse line with c :: rest => if ascii_eqb c "013" then reverse rest else line | [] => line end.
Fixpoint drop_last_empty (ls : list bytes) : list bytes :=
  match ls with [] => [] | [l] => if bytes_eqb l [] then [] else [l] | l :: ls => l :: drop_last_empty ls end.
(** The last of [split_on]'s parts has no newline behind it, and keeps its carriage return. *)
Fixpoint end_lines (ls : list bytes) : list bytes :=
  match ls with [] => [] | [l] => [l] | l :: ls => drop_cr l :: end_lines ls end.
Definition str_lines (s : bytes) : list bytes := drop_last_empty (end_lines (split_on LF s)).

Definition GITIGNORE_ENTRY : bytes := bs ".plecto/".

(** The file's new content, if it is written: what cannot be read as text counts as empty. *)
Definition ensure_gitignore_entry (file : option bytes) : option bytes :=
  let existing := match file with Some c => if utf8_valid c then c else [] | None => [] end in
  if existsb (fun l => bytes_eqb (trim l) GITIGNORE_ENTRY) (str_lines existing) then None
  else
    let updated := if negb (bytes_eqb existing []) && negb (ends_with_byte LF existing)
                   then existing ++ [LF] else existing in
    Some (updated ++ GITIGNORE_ENTRY ++ [LF]).

Definition gitignore_after (file : option bytes) : option bytes :=
  match ensure_gitignore_entry file with Some c => Some c | None => file end.

(** [load_or_create_dev_signer]: the key's states, the [.gitignore] left and the signer; the entry is
    asserted on every run, and its write may fail. *)
Definition load_or_create_dev_signer (umask : Z) (calls_ok : nat -> bool) (write_ok : bool) (entropy : nat) (name : bytes)
    (d : KeyDir) (file : option bytes) : list KeyDir * option bytes * option DevSigner :=
  match load_or_create umask calls_ok entropy name d with
  | (states, Err _) => (states, file, None)
  | (states, Ok signer) =>
    match ensure_gitignore_entry file with
    | None => (states, file, Some signer)
    | Some c => if write_ok then (states, Some c, Some signer) else (states, file, None)
    end
  end.

(** ** The warning *)

Definition dev_key_warnings (pems : list bytes) : nat := length (filter (fun pem => starts_with DEV_KEY_MARKER pem = true) pems).

End sign.
Arguments PemSigner : clear implicits.
Arguments DevSigner : clear implicits.

(** ** The bound SBOM *)

(** A JSON text, its quotes written as backquotes. *)
Definition json_text (s : string) : bytes := map (fun c => if ascii_eqb c "`" then "034"%char else c) (bs s).

Definition statement_text (digest : bytes) : bytes :=
  json_text "{`_type`:`https://in-toto.io/Statement/v1`,`subject`:[{`name`:`filter`,`digest`:{`sha256`:`" ++ digest
  ++ json_text "`}}],`predicateType`:`https://cyclonedx.org/bom`,`predicate`:{}}".

Definition bound_sbom `{OciLib} (component : bytes) : bytes := statement_text (oci_sha256_hex component).

(** The value that text denotes. *)
Definition statement_value (digest : bytes) : Json :=
  JObject [(bs "_type", JString (bs "https://in-toto.io/Statement/v1"));
           (bs "subject", JArray [JObject [(bs "name", JString (bs "filter"));
                                           (bs "digest", JObject [(bs "sha256", JString digest)])]]);
           (bs "predicateType", JString (bs "https://cyclonedx.org/bom")); (bs "predicate", JObject [])].

(** The JSON parser reads the statement of a hexadecimal digest. *)
Class StatementReads {Key World : Type} (TL : TrustLib Key World) : Prop :=
  statement_reads hex : forallb is_lower_hex hex = true -> tl_from_slice (statement_text hex) = Some (statement_value hex).

Lemma bound_sbom_binds {Key World} `{L : OciLib} `{!OciLibOk L} (TL : TrustLib Key World) `{!StatementReads TL} component :
  sbom_binds_component (bound_sbom component) component = Ok tt.
Proof.
  apply sbom_binds_spec. exists (statement_value (oci_sha256_hex component)). eexists _, _.
  split; [apply statement_reads, oci_hex_digits|]. split; [reflexivity|]. split; [by left|reflexivity].
Qed.

(** ** A signer and its trust policy *)

Section signer.
Context {SK Key World : Type} `{SL : SignerLib SK} `{TL : TrustLib Key World} `{!SignerLaws SL TL}.

(** The public key a signer reports is its own. *)
Definition signer_ok (s : PemSigner SK) : Prop := sg_public_key_to_pem (ps_signer s) = Some (ps_public_key_pem s).

Lemma from_keys_ok k s : from_keys k = Ok s -> signer_ok s /\ ps_signer s = k.
Proof.
  unfold from_keys. destruct (sg_public_key_to_pem k) as [pem|] eqn:E; [|done]. cbn [ok_or res_bind].
  destruct (sg_to_sigstore_signer k); [|done]. by intros [= <-].
Qed.

Lemma from_private_key_pem_ok pem s : from_private_key_pem pem = Ok s -> signer_ok s.
Proof.
  unfold from_private_key_pem. destruct (sg_from_pem pem) as [k|]; [|done]. cbn [ok_or res_bind].
  by intros [H _]%from_keys_ok.
Qed.

Lemma generate_ok e s pem : generate e = Ok (s, pem) ->
  signer_ok (dv_inner s) /\ dev_from_private_key_pem pem = Ok s.
Proof.
  unfold generate. destruct (sg_new e) as [k|]; [|done]. cbn [ok_or res_bind].
  destruct (sg_private_key_to_pem k) as [priv|] eqn:Ep; [|done]. cbn [ok_or res_bind].
  destruct (from_keys k) as [inner|] eqn:Ek; [|done]. cbn [res_bind]. intros [= <- <-].
  split; [by apply (from_keys_ok k)|]. unfold dev_from_private_key_pem, from_private_key_pem.
  rewrite (sl_reads _ _ Ep). cbn [ok_or res_bind]. by rewrite Ek.
Qed.

(** A policy that lists the signer's public key, as it stands or behind the dev key's marker,
    accepts what it signs. *)
Lemma signed_verifies s e msg sig keys : signer_ok s -> pem_sign s e msg = Ok sig ->
  (exists key, key ∈ keys /\ tl_try_from_pem (ps_public_key_pem s) = Some key) -> verifies keys sig msg = true.
Proof.
  intros Hs Hsig (key & Hin & Hk). apply verifies_spec. exists key. split; [done|].
  unfold pem_sign in Hsig. destruct (sg_sign _ _ _) as [sig'|] eqn:E; [|done]. injection Hsig as <-.
  by eapply sl_signs.
Qed.

(** A signer's own policy exists and holds its key. *)
Lemma trust_policy_own s : signer_ok (dv_inner s) ->
  exists key, tl_try_from_pem (ps_public_key_pem (dv_inner s)) = Some key /\ trust_policy s = Ok [key].
Proof.
  intros Hs. destruct (sl_public _ _ Hs) as [key Hk]. exists key. split; [done|].
  unfold trust_policy. cbn [from_pem_keys]. by rewrite Hk.
Qed.

(** ** What becomes of the key's files *)

Lemma owner_only_mode umask : Z.land (Z.land OWNER_ONLY (Z.lnot umask)) 63 = 0.
Proof. rewrite Z.land_comm, Z.land_assoc. reflexivity. Qed.

(** The states written: the private key's file, once it is there, is readable by nobody else and
    never holds another's key; a file that was there is left alone. *)
Lemma write_dev_key_files_private umask calls_ok name priv pub d states r :
  write_dev_key_files umask calls_ok name priv pub d = (states, r) -> forall d', d' ∈ states ->
  match key_dir d !! name with
  | Some n => key_dir d' !! name = Some n
  | None => forall n, key_dir d' !! name = Some n -> exists mode content,
      n = KnFile mode content /\ Z.land mode 63 = 0 /\ (content = [] \/ content = priv)
  end.
Proof.
  assert (Hpub : name <> public_key_path_for name).
  { unfold public_key_path_for. intros E%(f_equal length). rewrite length_app in E. cbn in E. lia. }
  unfold write_dev_key_files. destruct (calls_ok 0%nat); cbn [negb]; [|intros [= <- _] d' Hd; by apply elem_of_nil in Hd].
  destruct (key_dir d !! name) as [n|] eqn:En; [by intros [= <- _] d' ->%list_elem_of_singleton|].
  set (created := <[name := KnFile _ []]> _). set (written := <[name := KnFile _ priv]> _).
  pose (private := fun m : gmap bytes KeyNode => forall n, m !! name = Some n -> exists mode content,
    n = KnFile mode content /\ Z.land mode 63 = 0 /\ (content = [] \/ content = priv)).
  assert (H1 : private (key_dir d)) by (intros n; by rewrite En).
  assert (H2 : private created).
  { intros n. unfold created. rewrite lookup_insert_eq. intros [= <-]. eexists _, _. split_and!; [done|apply owner_only_mode|by left]. }
  assert (H3 : private written).
  { intros n. unfold written. rewrite lookup_insert_eq. intros [= <-]. eexists _, _. split_and!; [done|apply owner_only_mode|by right]. }
  assert (H4 : forall x, private (<[public_key_path_for name := x]> written)).
  { intros x n. rewrite lookup_insert_ne by done. apply H3. }
  repeat case_match; intros [= <- _] d' Hd; change (private (key_dir d')); cbn [app] in Hd; repeat (apply elem_of_cons in Hd as [->|Hd]);
    by first [apply elem_of_nil in Hd|apply H1|apply H2|apply H3|apply H4].
Qed.

(** What a complete run leaves: the private key, and the marked public key beside it. *)
Lemma write_dev_key_files_done umask calls_ok name priv pub d states :
  write_dev_key_files umask calls_ok name priv pub d = (states, Ok tt) ->
  exists mode pmode dir, final d states = Some dir /\ dir !! name = Some (KnFile mode priv) /\
    dir !! public_key_path_for name = Some (KnFile pmode (DEV_KEY_MARKER ++ LF :: pub)).
Proof.
  assert (Hpub : name <> public_key_path_for name).
  { unfold public_key_path_for. intros E%(f_equal length). rewrite length_app in E. cbn in E. lia. }
  unfold write_dev_key_files. repeat (case_match; try done); intros [= <-];
    eexists _, _, _; (split; [reflexivity|]);
    (split; [by rewrite lookup_insert_ne, lookup_insert_eq by done|by rewrite lookup_insert_eq]).
Qed.

Lemma marked_warns pub : dev_key_warnings [DEV_KEY_MARKER ++ LF :: pub] = 1%nat.
Proof.
  unfold dev_key_warnings. rewrite filter_cons_True; [done|]. apply starts_with_spec. by eexists.
Qed.

(** The dev key persists and stays private.  Whatever file calls fail on the way and whatever the
    umask: a key file that was there is never touched; at every point a new one is readable by its
    owner only.  Once a signer is returned, every later run returns the same one; and if this run
    made it, the public file beside it is a trust key under which what it signs verifies, and
    which [validate] warns of. *)
Theorem dev_key_persists (umask : Z) (calls_ok : nat -> bool) (e : nat) (name : bytes) (d : KeyDir)
    (states : list KeyDir) (r : result (DevSigner SK) DevKeyError) :
  load_or_create umask calls_ok e name d = (states, r) ->
  (forall d', d' ∈ states ->
     match key_dir d !! name with
     | Some n => key_dir d' !! name = Some n
     | None => forall n, key_dir d' !! name = Some n -> exists mode content, n = KnFile mode content /\ Z.land mode 63 = 0
     end) /\
  (forall s, r = Ok s ->
     (forall umask' ok' e', load_or_create umask' ok' e' name (final d states) = ([], Ok s)) /\
     (states <> [] -> exists mode pem key, key_dir (final d states) !! public_key_path_for name = Some (KnFile mode pem) /\
        from_pem_keys [pem] = Some [key] /\ dev_key_warnings [pem] = 1%nat /\
        forall seed msg sig, dev_sign s seed msg = Ok sig -> verifies [key] sig msg = true)).
Proof.
  unfold load_or_create at 1. destruct (key_dir d !! name) as [[mode pem|]|] eqn:En.
  - intros [= <- <-]. split; [intros d' Hd; by apply elem_of_nil in Hd|]. intros s Hs. split; [|done].
    intros umask' ok' e'. unfold load_or_create, final. cbn [last default]. by rewrite En, Hs.
  - intros [= <- <-]. split; [intros d' Hd; by apply elem_of_nil in Hd|done].
  - destruct (generate e) as [[s priv]|err] eqn:Eg;
      [|intros [= <- <-]; split; [intros d' Hd; by apply elem_of_nil in Hd|done]].
    destruct (generate_ok _ _ _ Eg) as [Hs Hload].
    destruct (write_dev_key_files _ _ _ _ _ _) as [st written] eqn:Ew. intros [= <- <-]. split.
    + intros d' Hd n Hn. pose proof (write_dev_key_files_private _ _ _ _ _ _ _ _ Ew d' Hd) as H. rewrite En in H.
      destruct (H n Hn) as (m & c & -> & Hm & _). eauto.
    + destruct written as [[]|]; [|done]. cbn [res_bind]. intros s' [= <-].
      destruct (write_dev_key_files_done _ _ _ _ _ _ _ Ew) as (m & pm & dir & Hf & Hp & Hq). rewrite Hf. split.
      * intros umask' ok' e'. unfold load_or_create. change (key_dir (Some dir)) with dir. by rewrite Hp, Hload.
      * intros _. destruct (sl_public _ _ Hs) as [key Hk].
        assert (Hk' : tl_try_from_pem (DEV_KEY_MARKER ++ LF :: ps_public_key_pem (dv_inner s)) = Some key)
          by (by rewrite (sl_preamble _ _ Hs)).
        exists pm, (DEV_KEY_MARKER ++ LF :: ps_public_key_pem (dv_inner s)), key. split_and!; [done| |apply marked_warns|].
        -- cbn [from_pem_keys]. by rewrite Hk'.
        -- intros seed msg sig Hsig. apply (signed_verifies _ _ _ _ _ Hs Hsig). exists key. split; [by left|done].
Qed.
End signer.

(** ** What becomes of the [.gitignore] *)

Lemma drop_last_empty_in ls x : x <> [] -> x ∈ ls -> x ∈ drop_last_empty ls.
Proof.
  intros Hx. induction ls as [|l ls IH]; [done|]. intros [<-|Hin]%elem_of_cons; destruct ls as [|l' ls]; cbn [drop_last_empty].
  - by rewrite (proj2 (bytes_eqb_neq x [])), list_elem_of_singleton by done.
  - by left.
  - by apply elem_of_nil in Hin.
  - right. by apply IH.
Qed.
Lemma end_lines_in ls x y : drop_cr x ∈ end_lines (ls ++ [x; y]).
Proof.
  induction ls as [|l ls IH]; cbn [app]; [by left|].
  assert (Hne : exists l' rest, ls ++ [x; y] = l' :: rest) by (destruct ls; by eexists _, _).
  destruct Hne as (l' & rest & E). rewrite E in *. cbn [end_lines]. by right.
Qed.

(** The entry, appended to nothing or to whole lines, is a line. *)
Lemma entry_found u : u = [] \/ ends_with_byte LF u = true -> GITIGNORE_ENTRY ∈ str_lines (u ++ GITIGNORE_ENTRY ++ [LF]).
Proof.
  intros [->|[u' ->]%ends_with_byte_snoc]; [by left|]. unfold str_lines. apply drop_last_empty_in; [done|].
  rewrite <- app_assoc. cbn [app]. rewrite split_on_app_sep. apply (end_lines_in _ GITIGNORE_ENTRY).
Qed.

Lemma utf8_app n : forall s t, (length s <= n)%nat -> utf8_valid s = true -> utf8_valid (s ++ t) = utf8_valid t.
Proof.
  induction n as [|n IH]; intros s t Hn Hs; [destruct s; [done|cbn in Hn; lia]|].
  destruct s as [|a s1]; [done|]. cbn [app]. cbn [utf8_valid] in Hs |- *. cbn [length] in Hn.
  destruct (in_range 0 127 a); [apply IH; [lia|done]|].
  destruct s1 as [|b s2]; [done|]. cbn [app length] in *.
  destruct (in_range 194 223 a && utf8_cont b); [apply IH; [lia|done]|].
  destruct s2 as [|c s3]; [done|]. cbn [app length] in *.
  match goal with |- context[if ?x then utf8_valid (s3 ++ t) else _] => destruct x end; [apply IH; [lia|done]|].
  destruct s3 as [|d s4]; [done|]. cbn [app length] in *.
  match goal with |- context[if ?x then utf8_valid (s4 ++ t) else _] => destruct x end; [apply IH; [lia|done]|done].
Qed.

Definition ignored (c : bytes) : Prop := exists l, l ∈ str_lines c /\ trim l = GITIGNORE_ENTRY.

Lemma ignored_spec c : existsb (fun l => bytes_eqb (trim l) GITIGNORE_ENTRY) (str_lines c) = true <-> ignored c.
Proof.
  rewrite existsb_exists. split; intros (l & Hin & E); exists l;
    (split; [by apply list_elem_of_In|by apply bytes_eqb_eq]).
Qed.

(** The key directory is always ignored after a run, a second run changes nothing, and a file of
    text keeps everything it held. *)
Theorem gitignore_entry_kept (file : option bytes) :
  exists c, gitignore_after file = Some c /\ utf8_valid c = true /\ ignored c /\ ensure_gitignore_entry (Some c) = None /\
    (forall old, file = Some old -> utf8_valid old = true -> old `prefix_of` c).
Proof.
  unfold gitignore_after, ensure_gitignore_entry.
  set (existing := match file with Some c => if utf8_valid c then c else [] | None => [] end).
  assert (Hv : utf8_valid existing = true) by (unfold existing; destruct file as [c|]; [by destruct (utf8_valid c) eqn:E|done]).
  assert (Hold : forall old, file = Some old -> utf8_valid old = true -> existing = old)
    by (intros old -> E; unfold existing; by rewrite E).
  destruct (existsb _ (str_lines existing)) eqn:Ex.
  - assert (Hf : file = Some existing).
    { unfold existing in *. destruct file as [c|]; [|done]. destruct (utf8_valid c); [done|]. done. }
    exists existing. rewrite Hv, Ex. split_and!; [done..|by apply ignored_spec|done|]. intros old E1 E2. by rewrite (Hold old E1 E2).
  - set (updated := if negb (bytes_eqb existing []) && negb (ends_with_byte LF existing) then existing ++ [LF] else existing).
    assert (Hu : (updated = [] \/ ends_with_byte LF updated = true) /\ utf8_valid updated = true /\ existing `prefix_of` updated).
    { unfold updated. destruct (bytes_eqb existing []) eqn:E1; cbn [negb andb].
      - apply bytes_eqb_eq in E1. rewrite E1. by split_and!; [left|..].
      - destruct (ends_with_byte LF existing) eqn:E2; cbn [negb].
        + by split_and!; [right|..].
        + split_and!; [right; unfold ends_with_byte; by rewrite last_snoc| |by apply prefix_app_r].
          by rewrite (utf8_app (length existing)). }
    destruct Hu as (He & Hvu & Hp). eexists. split; [done|].
    assert (Hvc : utf8_valid (updated ++ GITIGNORE_ENTRY ++ [LF]) = true) by (by rewrite (utf8_app (length updated))).
    assert (Hig : ignored (updated ++ GITIGNORE_ENTRY ++ [LF])).
    { exists GITIGNORE_ENTRY. split; [by apply entry_found|by vm_compute]. }
    split_and!; [done|done| |].
    + rewrite Hvc. by rewrite (proj2 (ignored_spec _) Hig).
    + intros old E1 E2. rewrite <- (Hold old E1 E2). etrans; [exact Hp|by apply prefix_app_r].
Qed.

(** No signer is handed out while the key is not ignored. *)
Lemma signer_only_ignored {SK} `{SL : SignerLib SK} umask ok write_ok e name d file
    (states : list KeyDir) file' (s : DevSigner SK) :
  load_or_create_dev_signer umask ok write_ok e name d file = (states, file', Some s) ->
  file' = gitignore_after file /\ load_or_create umask ok e name d = (states, Ok s).
Proof.
  unfold load_or_create_dev_signer, gitignore_after. destruct (load_or_create _ _ _ _ _) as [st [s'|]]; [|done].
  destruct (ensure_gitignore_entry file); [destruct write_ok|]; intros H; try done; by injection H as <- <- <-.
Qed.

(** A file that is not text is replaced, not appended to. *)
Example binary_gitignore_replaced :
  gitignore_after (Some (bs "target/" ++ [LF] ++ ["233"%char; LF])) = Some (GITIGNORE_ENTRY ++ [LF]).
Proof. vm_compute. reflexivity. Qed.

(** ** A concrete library: a public key is its name, a signature the name before the message, and
    the only JSON document is the bound statement *)

Definition strip_suffix (p s : bytes) : option bytes := reverse <$> strip_prefix (reverse p) (reverse s).
Definition statement_head : bytes :=
  json_text "{`_type`:`https://in-toto.io/Statement/v1`,`subject`:[{`name`:`filter`,`digest`:{`sha256`:`".
Definition statement_tail : bytes := json_text "`}}],`predicateType`:`https://cyclonedx.org/bom`,`predicate`:{}}".
Definition read_statement (s : bytes) : option Json :=
  rest ← strip_prefix statement_head s; hex ← strip_suffix statement_tail rest; Some (statement_value hex).
Definition skip_marker (s : bytes) : bytes := default s (strip_prefix (DEV_KEY_MARKER ++ [LF]) s).

#[local] Instance demo_signer : SignerLib bytes := {|
  sg_from_pem := strip_prefix (bs "private:");
  sg_new e := Some (bs "key" ++ repeat "i"%char e);
  sg_public_key_to_pem k := Some (bs "public:" ++ k);
  sg_private_key_to_pem k := Some (bs "private:" ++ k);
  sg_to_sigstore_signer k := true;
  sg_sign k e msg := Some (k ++ msg);
|}.
#[local] Instance demo_signed_trust : TrustLib bytes (list bytes) := {|
  tl_try_from_pem s := strip_prefix (bs "public:") (skip_marker s);
  tl_verify_signature key signature msg := bytes_eqb signature (key ++ msg);
  tl_from_slice := read_statement;
  tl_decode component := Some (DecodedComponent (split_on "," (drop 8 component)));
  tl_imports := id;
  tl_targets world component := true;
  tl_shipped v := Some [package v];
|}.
#[local] Instance demo_signer_laws : SignerLaws demo_signer demo_signed_trust.
Proof.
  assert (Hskip : forall k, skip_marker (bs "public:" ++ k) = bs "public:" ++ k) by reflexivity.
  assert (Hmark : forall k, skip_marker (DEV_KEY_MARKER ++ LF :: k) = k).
  { intros k. unfold skip_marker. rewrite (proj2 (strip_prefix_Some _ _ k)); [done|]. by rewrite <- app_assoc. }
  assert (Hread : forall k, tl_try_from_pem (bs "public:" ++ k) = Some k).
  { intros k. unfold tl_try_from_pem, demo_signed_trust. rewrite Hskip. by apply strip_prefix_Some. }
  split.
  - intros k pem E. injection E as <-. by apply strip_prefix_Some.
  - intros k pem E. injection E as <-. exists k. apply Hread.
  - intros k pem key e msg sig E Hk Es. injection E as <-. injection Es as <-. change (tl_try_from_pem (bs "public:" ++ k) = Some key) in Hk.
    rewrite Hread in Hk. injection Hk as <-. by apply bytes_eqb_eq.
  - intros k pem E. assert (pem = bs "public:" ++ k) as -> by (by injection E).
    rewrite Hread. unfold tl_try_from_pem, demo_signed_trust. rewrite Hmark. by apply strip_prefix_Some.
Qed.
#[local] Instance demo_statement_reads : StatementReads demo_signed_trust.
Proof.
  intros hex _. unfold tl_from_slice, demo_signed_trust, read_statement.
  change (statement_text hex) with (statement_head ++ hex ++ statement_tail).
  rewrite (proj2 (strip_prefix_Some statement_head _ (hex ++ statement_tail)) eq_refl). cbn [mbind option_bind].
  unfold strip_suffix. rewrite reverse_app, (proj2 (strip_prefix_Some (reverse statement_tail) _ (reverse hex)) eq_refl).
  cbn [fmap option_fmap option_map mbind option_bind]. by rewrite reverse_involutive.
Qed.

(** A first run in an empty project, under a umask that strips nothing, and the next one. *)
Definition first_run : list KeyDir * result (DevSigner bytes) DevKeyError :=
  load_or_create 0 (fun _ => true) 2 (bs "dev-key") None.
Definition first_signer : DevSigner bytes := mkDevSigner (mkPemSigner (bs "keyii") (bs "public:keyii")).

Lemma dev_key_persists_witness :
  key_dir (final None first_run.1) !! bs "dev-key" = Some (KnFile 384 (bs "private:keyii")) /\
  load_or_create 18 (fun _ => true) 3 (bs "dev-key") (final None first_run.1) = ([], Ok first_signer).
Proof.
  assert (E : first_run.2 = Ok first_signer) by (vm_compute; reflexivity).
  destruct (dev_key_persists 0 (fun _ => true) 2 (bs "dev-key") None first_run.1 first_run.2
    (surjective_pairing first_run)) as [_ H].
  split; [vm_compute; reflexivity|exact (proj1 (H first_signer E) 18 (fun _ => true) 3%nat)].
Defined.
