(* ===== verification/DevKit.v ===== *)
(** * The filter dev kit (host/src/conformance.rs, plecto/src/cli.rs, plecto/src/dev_cmd.rs)

    The conformance battery over the loader and a filter's own hook, the packaging of a built
    component into a signed layout, and the gated rebuild of [plecto dev].  The compiler and the
    TOML editor are parameters; what is printed is not represented. *)

From S2P Require Import Prelude Bytes Quota Chain Manifest Route Contract Pool Filter Filesystem Oci Provenance.
From S2P Require Import LoadOptions Load DevSign.

(** ** The battery *)

Inductive Verdict := VdPass | VdFail | VdNa | VdInconclusive | VdEnvironment.
Definition verdict_as_str (v : Verdict) : bytes :=
  match v with
  | VdPass => bs "pass" | VdFail => bs "fail" | VdNa => bs "na"
  | VdInconclusive => bs "inconclusive" | VdEnvironment => bs "environment"
  end.
Definition is_pass (v : Verdict) : bool := match v with VdPass => true | _ => false end.

Inductive BatteryVersion := V1_0_0.

Inductive SelfSignError := SeKey (e : DevKeyError) | SeHost | SeLoad (e : LoadError).

(** What a check reports beside its verdict. *)
Inductive Detail :=
| DtVerified | DtNotLoaded (e : SelfSignError) | DtSkipped | DtResponded (kind : bytes) | DtFault (e : RunError).

Record ConformanceCheck := mkConf {
  cf_id : bytes;
  cf_name : bytes;
  cf_passed : bool;
  cf_verdict : Verdict;
  cf_detail : Detail;
}.

Definition is_conformant (checks : list ConformanceCheck) : bool :=
  forallb (fun c => match cf_verdict c with VdPass | VdNa => true | _ => false end) checks.

Definition decision_kind (d : RequestDecision) : bytes :=
  match d with
  | RqContinue => bs "continue" | RqModified _ => bs "modified" | RqShortCircuit _ => bs "short-circuit"
  end.

Definition generic_request : HttpRequest :=
  mkRequest (bs "GET") (bs "/") (bs "conformance.invalid") (bs "https")
    [mkHeader (bs "user-agent") (bs "plecto-conformance")].

Definition res_err {A E E' : Type} (f : E -> E') (r : result A E) : result A E' :=
  match r with Ok a => Ok a | Err e => Err (f e) end.

Section battery.
Context {SK Comp IpNet Key WitWorld S : Type}.
Context `{L : OciLib} `{SL : SignerLib SK} `{TL : TrustLib Key WitWorld}.
Context `{WM : Wasm (Component := Comp) (IpNet := IpNet)} `{EN : Engine S} `{GU : Guest nat S}.

(** Whether [Host::new] can build its engines and runtime, and the parallelism the pool's default is
    derived from. *)
Variables (host_new_ok : bool) (available_parallelism : option Z).

Record ConformanceOptions := mkConfOptions { co_battery : BatteryVersion; co_pixit : LoadOptions IpNet }.
Definition conformance_default : ConformanceOptions :=
  mkConfOptions V1_0_0 (untrusted available_parallelism).
Definition with_pixit (o : ConformanceOptions) (pixit : LoadOptions IpNet) : ConformanceOptions :=
  mkConfOptions (co_battery o) pixit.

(** The pixit's capabilities, config and budgets under the untrusted lifecycle. *)
Definition untrusted_lifecycle (o : LoadOptions IpNet) : LoadOptions IpNet :=
  mkLoadOptions IsoUntrusted (lo_dispatch o) (lo_init_deadline_ms o) (lo_request_deadline_ms o) (lo_max_memory_bytes o)
    (lo_trusted_pool_size o) (lo_checkout_timeout_ms o) (lo_max_requests_per_instance o) (lo_ratelimit_bucket o)
    (lo_outbound_http o) (lo_outbound_tcp o) (lo_config o) (lo_wasi_minimal o).

(** A signed artifact: the component and an SBOM, each under a signature of the same key. *)
Definition sign_artifact (s : PemSigner SK) (entropy : nat) (component sbom : bytes) : result ResolvedArtifact DevKeyError :=
  let? component_signature := pem_sign s entropy component in
  let? sbom_signature := pem_sign s (Datatypes.S entropy) sbom in
  Ok (mkArtifact component component_signature sbom sbom_signature).

(** The default host of a policy: the memory backend, and no sink. *)
Definition self_host (policy : TrustPolicy (Key := Key)) : Host := mkHost policy false false.

Definition load_self_signed (entropy : nat) (component : bytes) (pixit : LoadOptions IpNet)
    : result (LoadedFilter * WasmtimeRuntime (Component := Comp)) SelfSignError :=
  let? signer := res_err SeKey (generate entropy) in
  let signer := signer.1 in
  let? artifact := res_err SeKey (sign_artifact (dv_inner signer) entropy component (bound_sbom component)) in
  let? policy := res_err SeKey (trust_policy signer) in
  if negb host_new_ok then Err SeHost
  else res_err SeLoad (load (self_host policy) (bs "conformance") artifact (untrusted_lifecycle pixit)).1.

Definition D1_ID : bytes := bs "v1.0.0-D1".
Definition D1_NAME : bytes := bs "handles a generic request without trapping or exceeding its deadline".

Definition check_with (entropy : nat) (component : bytes) (options : ConformanceOptions)
    (w : World S) : list ConformanceCheck * World S :=
  let loaded := load_self_signed entropy component (co_pixit options) in
  let s1 :=
    match loaded with
    | Ok _ => VdPass
    | Err (SeLoad (MissingCapability _)) => VdEnvironment
    | Err _ => VdFail
    end in
  let world_check := mkConf (bs "v1.0.0-S1") (bs "loads under the plecto:filter contract") (is_pass s1) s1
    (match loaded with Ok _ => DtVerified | Err e => DtNotLoaded e end) in
  match loaded with
  | Err _ => ([world_check; mkConf D1_ID D1_NAME false s1 DtSkipped], w)
  | Ok (filter, _) =>
    let '(outcome, w) := filter_on_request filter generic_request w in
    ([world_check;
      match outcome with
      | Ok (decision, _) => mkConf D1_ID D1_NAME true VdPass (DtResponded (decision_kind decision))
      | Err e => mkConf D1_ID D1_NAME false VdFail (DtFault e)
      end], w)
  end.

(** [check]: the battery without a pixit. *)
Definition check (entropy : nat) (component : bytes) (w : World S)
    : list ConformanceCheck * World S :=
  check_with entropy component conformance_default w.

(** ** Packaging *)

Record PackageArgs := mkPackageArgs { pa_component : bytes; pa_key : bytes; pa_out : bytes; pa_sbom : option bytes }.

Definition is_option (arg : bytes) : bool := starts_with_byte "-" arg.

Fixpoint package_args_loop (args : list bytes) (component key out sbom : option bytes) : option PackageArgs :=
  match args with
  | [] => component ← component; key ← key; out ← out; Some (mkPackageArgs component key out sbom)
  | arg :: args =>
    if bytes_eqb arg (bs "--key") then
      match args with value :: args => package_args_loop args component (Some value) out sbom | [] => None end
    else if bytes_eqb arg (bs "--out") then
      match args with value :: args => package_args_loop args component key (Some value) sbom | [] => None end
    else if bytes_eqb arg (bs "--sbom") then
      match args with value :: args => package_args_loop args component key out (Some value) | [] => None end
    else
      match component with
      | None => if is_option arg then None else package_args_loop args (Some arg) key out sbom
      | Some _ => None
      end
  end.
Definition package_args (args : list bytes) : option PackageArgs := package_args_loop args None None None None.

Inductive PackageError := PkUsage | PkRead (path : bytes) | PkNotConformant | PkKey (e : DevKeyError) | PkWrite.

(** The directory an output path names, under a canonical working directory: a path that goes up
    after it went down is not represented. *)
Fixpoint go_up (at_ : list bytes) (rest : list Component) : option (list bytes) :=
  match rest with
  | CParent :: rest => go_up (removelast at_) rest
  | CCur :: rest => go_up at_ rest
  | _ => rest ← mapM (fun c => match c with CNormal name => Some name | _ => None end) rest; Some (at_ ++ rest)
  end.
Definition place_of (cwd : list bytes) (p : bytes) : option (list bytes) :=
  match components p with CRoot :: rest => go_up [] rest | rest => go_up cwd rest end.

Definition package_artifact (entropy : nat) (key_pem component : bytes) (sbom : option bytes)
    : result ResolvedArtifact PackageError :=
  let? signer := res_err PkKey (from_private_key_pem key_pem) in
  let sbom := match sbom with Some s => s | None => bound_sbom component end in
  res_err PkKey (sign_artifact signer entropy component sbom).

(** The digest printed and the files then, or the error and the files as they were; what a failed
    write leaves behind is not represented. *)
Definition package (cwd : list bytes) (entropy : nat) (args : list bytes)
    (fs : Fs) (w : World S) : result bytes PackageError * Fs * World S :=
  match package_args args with
  | None => (Err PkUsage, fs, w)
  | Some a =>
    match read_text cwd fs (pa_component a) with
    | None => (Err (PkRead (pa_component a)), fs, w)
    | Some component =>
      let '(report, w) := check entropy component w in
      if negb (is_conformant report) then (Err PkNotConformant, fs, w)
      else
        match read_text cwd fs (pa_key a) with
        | None => (Err (PkRead (pa_key a)), fs, w)
        | Some key_pem =>
          match from_private_key_pem key_pem with
          | Err e => (Err (PkKey e), fs, w)
          | Ok _ =>
            match (match pa_sbom a with None => Some None | Some path => Some <$> read_text cwd fs path end) with
            | None => (Err (PkRead (default [] (pa_sbom a))), fs, w)
            | Some sbom =>
              match package_artifact entropy key_pem component sbom with
              | Err e => (Err e, fs, w)
              | Ok artifact =>
                match (place ← place_of cwd (pa_out a); write_layout fs place artifact) with
                | None => (Err PkWrite, fs, w)
                | Some (digest, fs') => (Ok digest, fs', w)
                end
              end
            end
          end
        end
    end
  end.

(** ** The rebuild *)

(** The TOML editor: a document, the ids of its [[filter]] tables if it has any, and the digest of
    one of them set. *)
Class TomlEdit (Doc : Type) := {
  td_parse : bytes -> option Doc;
  td_to_string : Doc -> bytes;
  td_filter_ids : Doc -> option (list (option bytes));
  td_set_digest : Doc -> nat -> bytes -> Doc;
}.

Definition read_first_filter_id `{TomlEdit Doc} (raw : bytes) : option bytes :=
  doc ← td_parse raw; ids ← td_filter_ids doc; first ← head ids; first.

(** Every table with the id gets the digest, and one must. *)
Definition named (filter_id : bytes) (ids : list (option bytes)) : list nat :=
  imap (fun i id => (i, id)) ids ≫= fun p => if bool_decide (p.2 = Some filter_id) then [p.1] else [].
Definition update_manifest_digest `{TomlEdit Doc} (raw filter_id digest : bytes) : option bytes :=
  doc ← td_parse raw;
  ids ← td_filter_ids doc;
  match named filter_id ids with
  | [] => None
  | tables => Some (td_to_string (fold_left (fun doc i => td_set_digest doc i digest) tables doc))
  end.

Inductive BuildError := BdComponentize | BdNotConformant | BdSign (e : DevKeyError) | BdLayout | BdManifest.

Definition MANIFEST : bytes := bs "manifest.toml".

(** [componentized] is what the compiler made of the sources, if it made a component. *)
Definition build_sign_and_gate `{TomlEdit Doc} (entropy : nat)
    (filter_dir : list bytes) (componentized : option bytes) (filter_id : bytes) (signer : DevSigner SK) (fs : Fs) (w : World S)
    : result unit BuildError * Fs * World S :=
  match componentized with
  | None => (Err BdComponentize, fs, w)
  | Some component =>
    let '(report, w) := check entropy component w in
    if negb (is_conformant report) then (Err BdNotConformant, fs, w)
    else
      match sign_artifact (dv_inner signer) entropy component (bound_sbom component) with
      | Err e => (Err (BdSign e), fs, w)
      | Ok artifact =>
        match (layout ← place_of (filter_dir ++ [bs "artifacts"]) filter_id; write_layout fs layout artifact) with
        | None => (Err BdLayout, fs, w)
        | Some (digest, fs) =>
          match (raw ← read_at_most fs filter_dir MANIFEST u64_max;
                 new ← update_manifest_digest raw filter_id digest;
                 write_file fs filter_dir MANIFEST new) with
          | None => (Err BdManifest, fs, w)
          | Some fs => (Ok tt, fs, w)
          end
        end
      end
  end.

(** [Path::starts_with]: whole components. *)
Fixpoint components_start (p prefix : list Component) : bool :=
  match prefix, p with
  | [], _ => true
  | c :: prefix, c' :: p => bool_decide (c = c') && components_start p prefix
  | _ :: _, [] => false
  end.
Definition path_is_relevant (path : list Component) (filter_dir : list bytes) : bool :=
  components_start path (CRoot :: names (filter_dir ++ [bs "src"])).

(** One batch of the watcher ([None] is its error): whether the process is told to reload. *)
Definition watch_round `{TomlEdit Doc} (entropy : nat)
    (filter_dir : list bytes) (filter_id : bytes) (signer : DevSigner SK) (events : option (list (list Component)))
    (componentized : option bytes) (fs : Fs) (w : World S) : bool * Fs * World S :=
  if match events with Some paths => existsb (fun p => path_is_relevant p filter_dir) paths | None => false end then
    let '(built, fs, w) :=
      build_sign_and_gate entropy filter_dir componentized filter_id signer fs w in
    (match built with Ok _ => true | Err _ => false end, fs, w)
  else (false, fs, w).

End battery.

(** ** Signed artifacts *)

Section facts.
Context {SK Comp IpNet Key WitWorld S : Type}.
Context `{L : OciLib} `{SL : SignerLib SK} `{TL : TrustLib Key WitWorld}.
Context `{WM : Wasm (Component := Comp) (IpNet := IpNet)} `{EN : Engine S} `{GU : Guest nat S}.
Context `{!OciLibOk L} `{!SignerLaws SL TL} `{!StatementReads TL}.
Variables (host_new_ok : bool) (available_parallelism : option Z).

(** A policy with the signer's public key among its own. *)
Definition trusts (keys : TrustPolicy (Key := Key)) (s : PemSigner SK) : Prop :=
  exists key, key ∈ keys /\ tl_try_from_pem (ps_public_key_pem s) = Some key.

Lemma sign_artifact_verified s e component sbom a keys : signer_ok s -> sign_artifact s e component sbom = Ok a ->
  trusts keys s ->
  ra_component a = component /\ ra_sbom a = sbom /\
  (verify_artifact keys a = Ok tt <-> sbom <> [] /\ sbom_binds_component sbom component = Ok tt).
Proof.
  intros Hs Ha Hk. unfold sign_artifact in Ha. apply res_bind_ok in Ha as (sig & Hc & Ha).
  apply res_bind_ok in Ha as (sig' & Hb & [= <-]). split; [done|]. split; [done|].
  unfold verify_artifact. cbn [ra_component ra_component_signature ra_sbom ra_sbom_signature].
  rewrite res_bind_unit, !first_failure_cons_ok, first_failure_nil_ok, !negb_false_iff.
  rewrite (signed_verifies s _ _ _ keys Hs Hc Hk), (signed_verifies s _ _ _ keys Hs Hb Hk), bytes_eqb_neq. tauto.
Qed.

Lemma bound_sbom_nonempty component : bound_sbom component <> [].
Proof. done. Qed.

Lemma bound_artifact_vouched s e component a keys : signer_ok s ->
  sign_artifact s e component (bound_sbom component) = Ok a -> trusts keys s ->
  ra_component a = component /\ vouched keys a.
Proof.
  intros Hs Ha Hk. destruct (sign_artifact_verified _ _ _ _ _ keys Hs Ha Hk) as (Hc & _ & Hv). split; [done|].
  apply verify_artifact_spec, Hv. split; [done|]. by apply bound_sbom_binds.
Qed.

(** A vouched artifact loads exactly as its component does, under any lawful id. *)
Lemma load_vouched (host : Host) id a (opts : LoadOptions IpNet) : vouched (ho_trust host) a -> id <> [] -> KV_NS_DELIM ∉ id ->
  load host id a opts = load_component (Component := Comp) host id (ra_component a) opts.
Proof.
  intros Hv Hid Hd. unfold load. rewrite (proj2 (bytes_eqb_neq _ _) Hid).
  destruct (contains_byte KV_NS_DELIM id) eqn:E; [by apply contains_byte_spec in E|].
  by rewrite (proj2 (verify_artifact_spec _ _) Hv).
Qed.

(** What a component alone can be refused for. *)
Definition structural (e : LoadError) : Prop :=
  match e with UnsupportedContractVersion | MissingCapability _ | LoadWasmtime => True | _ => False end.

Lemma load_component_untrusted (host : Host (Key := Key)) id component (opts : LoadOptions IpNet) e :
  lo_isolation opts = IsoUntrusted -> (load_component (Component := Comp) host id component opts).1 = Err e -> structural e.
Proof.
  intros Hi. unfold load_component. rewrite Hi. repeat case_match; cbn; intros E; try done; by injection E as <-.
Qed.

(** The throwaway key never fails the gate: what the battery loads is the component. *)
Lemma load_self_signed_spec e component pixit :
  (exists k, load_self_signed host_new_ok e component pixit = Err (SeKey k)) \/
  load_self_signed host_new_ok e component pixit = Err SeHost \/
  exists key : Key, load_self_signed host_new_ok e component pixit =
    res_err SeLoad (load_component (Component := Comp) (self_host [key]) (bs "conformance") component (untrusted_lifecycle pixit)).1.
Proof.
  unfold load_self_signed. destruct (generate e) as [[s priv]|err] eqn:Eg; [|left; by eexists]. cbn [res_err res_bind fst].
  destruct (generate_ok _ _ _ Eg) as [Hs _].
  destruct (sign_artifact (dv_inner s) e component (bound_sbom component)) as [a|err] eqn:Ea; [|left; by eexists].
  cbn [res_err res_bind]. destruct (trust_policy_own _ Hs) as (key & Hk & ->). cbn [res_err res_bind].
  destruct host_new_ok; [|right; by left]. cbn [negb]. right. right. exists key.
  assert (Ht : trusts [key] (dv_inner s)) by (exists key; split; [by left|done]).
  destruct (bound_artifact_vouched _ _ _ _ _ Hs Ea Ht) as [Hc Hv].
  rewrite load_vouched; [by rewrite Hc|exact Hv|done|]. by vm_compute; intros H; repeat (apply elem_of_cons in H as [?|H]; [done|]); apply elem_of_nil in H.
Qed.

(** The battery judges the component and nothing else.  The provenance gate cannot be what fails a
    run: what the load is refused for is the component's version, a capability it was not lent or
    the engine's refusal to compile, link or resolve it.  The first verdict is [environment]
    exactly for a capability not lent.  And a report is conformant exactly when the component
    loads, untrusted and with what it was lent, and its hook answers the generic request with a
    decision. *)
Theorem battery_judges_component (e : nat) (component : bytes) (o : ConformanceOptions) (w : World S) :
  let loaded := load_self_signed host_new_ok e component (co_pixit o) in
  let report := (check_with host_new_ok e component o w).1 in
  (forall err, loaded = Err (SeLoad err) -> structural err) /\
  length report = 2%nat /\
  (forall c, head report = Some c -> cf_verdict c = VdEnvironment <-> exists imports, loaded = Err (SeLoad (MissingCapability imports))) /\
  Forall (fun c => cf_passed c = is_pass (cf_verdict c)) report /\
  (is_conformant report = true <->
     exists f rt, loaded = Ok (f, rt) /\ lf_trusted f = None /\
       exists d logs, (filter_on_request f generic_request w).1 = Ok (d, logs)).
Proof.
  cbv zeta. unfold check_with. destruct (load_self_signed_spec e component (co_pixit o)) as [[k Hl]|[Hl|[key Hl]]]; rewrite Hl.
  1,2: split_and!; [done|done|intros c [= <-]; split; [done|by intros [? ?]]|repeat constructor|split; [done|by intros (? & ? & ? & _)]].
  destruct (load_component _ _ _ _) as [[[f rt]|err] calls] eqn:El; cbn [fst res_err].
  - assert (Hun : lf_trusted f = None).
    { unfold load_component in El. cbn [untrusted_lifecycle lo_isolation] in El. repeat case_match; simplify_eq. done. }
    assert (Hhead : VdPass = VdEnvironment <-> exists imports, Ok (f, rt) = @Err _ SelfSignError (SeLoad (MissingCapability imports)))
      by (split; [done|by intros [? ?]]).
    destruct (filter_on_request f generic_request w) as [[[d logs]|fault] w'] eqn:Eh; cbn [fst].
    + split_and!; [done|done|by intros c [= <-]|apply Forall_cons; split; [done|by apply Forall_singleton]|].
      split; [|done]. intros _. exists f, rt. split_and!; [done|done|]. exists d, logs. by rewrite Eh.
    + split_and!; [done|done|by intros c [= <-]|apply Forall_cons; split; [done|by apply Forall_singleton]|].
      split; [done|]. intros (f' & rt' & [= <- <-] & _ & d' & logs' & E). by rewrite Eh in E.
  - assert (Hst : structural err) by (eapply (load_component_untrusted _ _ _ (untrusted_lifecycle (co_pixit o))); [done|by rewrite El]).
    split_and!; [by intros ? [= <-]|done|intros c [= <-]; cbn; destruct err; split; try done; try (by intros [? ?]); by eexists| |].
    + apply Forall_cons; split; [done|apply Forall_singleton]. by destruct err.
    + split; [by destruct err|by intros (? & ? & ? & _)].
Qed.

(** ** What packaging writes *)

Lemma package_ok cwd e args fs w pin fs' w' :
  package host_new_ok available_parallelism cwd e args fs w = (Ok pin, fs', w') ->
  exists a key_pem signer artifact place, package_args args = Some a /\
    read_text cwd fs (pa_component a) = Some (ra_component artifact) /\
    is_conformant (check host_new_ok available_parallelism e (ra_component artifact) w).1 = true /\
    read_text cwd fs (pa_key a) = Some key_pem /\ from_private_key_pem key_pem = Ok signer /\
    match pa_sbom a with
    | None => ra_sbom artifact = bound_sbom (ra_component artifact)
    | Some path => read_text cwd fs path = Some (ra_sbom artifact)
    end /\
    sign_artifact signer e (ra_component artifact) (ra_sbom artifact) = Ok artifact /\
    place_of cwd (pa_out a) = Some place /\ write_layout fs place artifact = Some (pin, fs').
Proof.
  unfold package. destruct (package_args args) as [a|]; [|done].
  destruct (read_text cwd fs (pa_component a)) as [component|] eqn:Ec; [|done].
  destruct (check _ _ _ component w) as [report w1] eqn:Er. destruct (is_conformant report) eqn:Hc; [|done]. cbn [negb].
  destruct (read_text cwd fs (pa_key a)) as [key_pem|] eqn:Ek; [|done].
  destruct (from_private_key_pem key_pem) as [signer|] eqn:Es; [|done].
  destruct (match pa_sbom a with None => _ | Some _ => _ end) as [sbom|] eqn:Eb; [|done].
  unfold package_artifact. rewrite Es. cbn [res_err res_bind].
  set (statement := match sbom with Some s => s | None => bound_sbom component end).
  destruct (sign_artifact signer e component statement) as [artifact|] eqn:Ea; [|done]. cbn [res_err].
  destruct (place_of cwd (pa_out a)) as [place|] eqn:Ep; [|done]. cbn [mbind option_bind].
  destruct (write_layout fs place artifact) as [[pin' fs1]|] eqn:Ew; [|done]. intros [= <- <- _].
  assert (Hf : ra_component artifact = component /\ ra_sbom artifact = statement).
  { unfold sign_artifact in Ea. apply res_bind_ok in Ea as (? & _ & Ea). by apply res_bind_ok in Ea as (? & _ & [= <-]). }
  destruct Hf as [<- Hst]. exists a, key_pem, signer, artifact, place. rewrite Hst, Er. split_and!; try done.
  destruct (pa_sbom a) as [path|]; [|by injection Eb as <-].
  destruct (read_text cwd fs path) as [s|]; [|done]. by injection Eb as <-.
Qed.

(** What [plecto package] writes, the loader loads.  A digest is printed only for a component whose
    battery passed.  Resolved by that digest from an empty place below a store's root, the layout
    gives back the very component, or a hash collision; any host that trusts the key loads it as
    far as the component itself goes; and an SBOM supplied instead of the bound one passes the
    gate exactly if it names the component. *)
Theorem package_loads (cwd : list bytes) (e : nat) (args : list bytes) (fs fs' : Fs) (w w' : World S) (pin : bytes) :
  package host_new_ok available_parallelism cwd e args fs w = (Ok pin, fs', w') ->
  exists a key_pem signer artifact, package_args args = Some a /\
    read_text cwd fs (pa_component a) = Some (ra_component artifact) /\
    is_conformant (check host_new_ok available_parallelism e (ra_component artifact) w).1 = true /\
    read_text cwd fs (pa_key a) = Some key_pem /\ from_private_key_pem key_pem = Ok signer /\
    match pa_sbom a with
    | None => ra_sbom artifact = bound_sbom (ra_component artifact)
    | Some path => read_text cwd fs path = Some (ra_sbom artifact)
    end /\
    sign_artifact signer e (ra_component artifact) (ra_sbom artifact) = Ok artifact /\
    (forall r rel root source, place_of cwd (pa_out a) = Some (r ++ rel) -> canonicalize cwd fs (store_root root) = Some r ->
       components source = names rel -> rel <> [] -> vacant fs (r ++ rel) r rel -> documents_fit artifact ->
       Forall (fun b => Z.of_nat (length b) <= MAX_BLOB_BYTES) (blobs_of artifact) ->
       (oci_resolve cwd root source pin (fun _ => fs') 0%nat).1 = Ok artifact \/ sha256_collision) /\
    (forall (host : Host (Key := Key)) id (opts : LoadOptions IpNet), trusts (ho_trust host) signer -> id <> [] -> KV_NS_DELIM ∉ id ->
       (pa_sbom a = None -> load host id artifact opts = load_component (Component := Comp) host id (ra_component artifact) opts) /\
       (verify_artifact (ho_trust host) artifact = Ok tt <->
          ra_sbom artifact <> [] /\ sbom_binds_component (ra_sbom artifact) (ra_component artifact) = Ok tt)).
Proof.
  intros (a & key_pem & signer & artifact & place & Ha & Hc & Hr & Hk & Hs & Hb & Hsig & Hp & Hw)%package_ok.
  exists a, key_pem, signer, artifact. split_and!; try done.
  - intros r rel root source Hplace Hroot Hsrc Hrel Hv Hfit Hsizes. rewrite Hp in Hplace. injection Hplace as ->.
    destruct (layout_round_trip _ fs cwd r rel root source artifact Hroot Hsrc Hrel Hv Hfit Hsizes) as (pin' & fs1 & Hw' & H).
    rewrite Hw in Hw'. by injection Hw' as <- <-.
  - intros host id opts Ht Hid Hd. pose proof (from_private_key_pem_ok _ _ Hs) as Hok.
    destruct (sign_artifact_verified _ _ _ _ _ _ Hok Hsig Ht) as (_ & _ & Hv). split; [|done].
    intros En. rewrite En in Hb. apply load_vouched; [|done..]. apply verify_artifact_spec, Hv. rewrite Hb.
    split; [done|by apply bound_sbom_binds].
Qed.

(** ** What a rebuild leaves *)

Lemma named_spec filter_id ids i : i ∈ named filter_id ids <-> ids !! i = Some (Some filter_id).
Proof.
  unfold named. rewrite list_elem_of_bind. split.
  - intros ([j id] & Hi & Hin). apply elem_of_lookup_imap in Hin as (j' & id' & [= -> ->] & Hl). cbn [fst snd] in Hi.
    case_bool_decide as E; [|by apply elem_of_nil in Hi]. apply list_elem_of_singleton in Hi as ->. by rewrite Hl, E.
  - intros Hl. exists (i, Some filter_id). cbn [fst snd]. rewrite bool_decide_true by done. split; [by left|].
    apply elem_of_lookup_imap. by exists i, (Some filter_id).
Qed.

(** The inner loop reloads only what it vetted.  A change outside the sources and a watcher's error
    do nothing; a build that fails, or whose battery does not pass, changes neither the layout nor
    the manifest; and the process is told to reload only after the manifest of a vouched, conformant
    build was pinned to the layout written for it, in every table of the filter and no other. *)
Theorem rebuild_gated `{TomlEdit Doc} (e : nat) (filter_dir : list bytes) (filter_id : bytes) (signer : DevSigner SK)
    (events : option (list (list Filesystem.Component))) (componentized : option bytes) (fs fs' : Fs) (w w' : World S) (reload : bool) :
  signer_ok (dv_inner signer) ->
  watch_round host_new_ok available_parallelism e filter_dir filter_id signer events componentized fs w = (reload, fs', w') ->
  (match events with Some paths => existsb (fun p => path_is_relevant p filter_dir) paths | None => false end = false ->
     reload = false /\ fs' = fs) /\
  (match componentized with Some c => is_conformant (check host_new_ok available_parallelism e c w).1 | None => false end = false ->
     reload = false /\ fs' = fs) /\
  (reload = true -> exists artifact layout pin fs1 raw doc ids, componentized = Some (ra_component artifact) /\
     (forall keys, trusts keys (dv_inner signer) -> vouched keys artifact) /\
     place_of (filter_dir ++ [bs "artifacts"]) filter_id = Some layout /\ write_layout fs layout artifact = Some (pin, fs1) /\
     read_at_most fs1 filter_dir MANIFEST u64_max = Some raw /\ td_parse raw = Some doc /\ td_filter_ids doc = Some ids /\
     named filter_id ids <> [] /\
     write_file fs1 filter_dir MANIFEST (td_to_string (fold_left (fun doc i => td_set_digest doc i pin) (named filter_id ids) doc))
       = Some fs').
Proof.
  intros Hs. unfold watch_round. set (relevant := match events with Some _ => _ | None => false end).
  destruct relevant; [|by intros [= <- <- _]]. unfold build_sign_and_gate.
  destruct componentized as [component|]; [|by intros [= <- <- _]].
  destruct (check _ _ _ component w) as [report w1] eqn:Er. cbn [fst].
  destruct (is_conformant report); cbn [negb]; [|by intros [= <- <- _]].
  destruct (sign_artifact _ _ _ _) as [artifact|] eqn:Ea; [|by intros [= <- <- _]].
  destruct (place_of _ filter_id) as [layout|] eqn:Ep; [|by intros [= <- <- _]]. cbn [mbind option_bind].
  destruct (write_layout fs layout artifact) as [[pin fs1]|] eqn:Ew; [|by intros [= <- <- _]].
  destruct (raw ← read_at_most fs1 _ _ _; _) as [fs2|] eqn:Em; [|by intros [= <- <- _]]. intros [= <- <- _].
  split_and!; [done|done|]. intros _.
  apply bind_Some in Em as (raw & Hraw & Em). apply bind_Some in Em as (new & Hnew & Hw).
  unfold update_manifest_digest in Hnew. apply bind_Some in Hnew as (doc & Hdoc & Hnew). apply bind_Some in Hnew as (ids & Hids & Hnew).
  exists artifact, layout, pin, fs1, raw, doc, ids.
  assert (Hc : ra_component artifact = component).
  { unfold sign_artifact in Ea. apply res_bind_ok in Ea as (? & _ & Ea). by apply res_bind_ok in Ea as (? & _ & [= <-]). }
  rewrite Hc. destruct (named filter_id ids) as [|i tables] eqn:En; [done|]. injection Hnew as <-.
  split_and!; try done. intros keys Ht. by apply (bound_artifact_vouched _ _ _ _ _ Hs Ea Ht).
Qed.
End facts.

(** ** A concrete kit: the loader's and the filter's demonstrations, and a manifest whose tables are
    its lines *)

#[local] Existing Instances demo_oci demo_oci_ok demo_signer demo_signed_trust demo_signer_laws demo_statement_reads
  demo_wasm demo_engine demo_guest.

Definition kit_world : World Z := mkWorld ∅ ∅ 0 [] 5.
Definition kit_fs : Fs :=
  <[[bs "c.wasm"] := NFile demo_component]> (<[[bs "key.pem"] := NFile (bs "private:k")]> ∅).
Lemma kit_fs_none p : p <> [bs "c.wasm"] -> p <> [bs "key.pem"] -> kit_fs !! p = None.
Proof. intros H1 H2. unfold kit_fs. rewrite !fs_insert_ne by congruence. apply lookup_empty. Qed.
Definition kit_args : list bytes := map bs ["c.wasm"; "--key"; "key.pem"; "--out"; "app"].
Definition packaged : result bytes PackageError * Fs * World Z :=
  package (Comp := list bytes) (IpNet := unit) true None [] 7 kit_args kit_fs kit_world.
Definition packaged_pin : bytes := match packaged.1.1 with Ok pin => pin | Err _ => [] end.

Lemma battery_demo : (check (Comp := list bytes) (IpNet := unit) true None 7 demo_component kit_world).1
  = [mkConf (bs "v1.0.0-S1") (bs "loads under the plecto:filter contract") true VdPass DtVerified;
     mkConf D1_ID D1_NAME true VdPass (DtResponded (bs "modified"))].
Proof. vm_compute. reflexivity. Qed.

(** The component packaged under the root resolves by the digest printed and loads wherever its key
    is trusted. *)
Lemma package_loads_witness :
  exists artifact, ra_component artifact = demo_component /\
    ((oci_resolve [] (bs "/") (bs "app") packaged_pin (fun _ => packaged.1.2) 0%nat).1 = Ok artifact \/ sha256_collision) /\
    forall host opts, ho_trust host = [bs "k"] ->
      load host (bs "f") artifact opts = load_component (Component := list bytes) (IpNet := unit) host (bs "f") demo_component opts.
Proof.
  assert (E : packaged = (Ok packaged_pin, packaged.1.2, packaged.2)).
  { rewrite (surjective_pairing packaged) at 1. rewrite (surjective_pairing packaged.1) at 1. f_equal. }
  destruct (package_loads true None [] 7 kit_args kit_fs packaged.1.2 kit_world packaged.2 packaged_pin E)
    as (a & key_pem & signer & artifact & Ha & Hc & _ & Hk & Hs & Hb & Hsig & Hresolve & Hload).
  assert (Ea : a = mkPackageArgs (bs "c.wasm") (bs "key.pem") (bs "app") None) by (vm_compute in Ha; by injection Ha as <-).
  rewrite Ea in *. assert (Hcomp : ra_component artifact = demo_component) by (by vm_compute in Hc; injection Hc).
  cbn [pa_sbom] in Hb. rewrite Hcomp in *. exists artifact. split; [done|].
  assert (Ek : key_pem = bs "private:k") by (vm_compute in Hk; by injection Hk as <-).
  assert (Es : signer = mkPemSigner (bs "k") (bs "public:k")) by (rewrite Ek in Hs; vm_compute in Hs; by injection Hs as <-).
  assert (Eart : artifact = mkArtifact demo_component (bs "k" ++ demo_component) (bound_sbom demo_component)
                              (bs "k" ++ bound_sbom demo_component)).
  { rewrite Hb, Es in Hsig. by injection Hsig as <-. }
  split.
  - apply (Hresolve [] [bs "app"]); try reflexivity; [discriminate| | |].
    + split; [apply dirs_nil|]. split; [reflexivity|]. split.
      * intros q [r Hq] Hne. left. destruct q as [|x q]; [done|]. assert (Ex : x = bs "app") by (by injection Hq).
        rewrite Ex. apply kit_fs_none; discriminate.
      * intros q _. apply kit_fs_none; discriminate.
    + rewrite Eart. split; vm_compute; discriminate.
    + rewrite Eart. repeat (constructor; [vm_compute; discriminate|]). constructor.
  - intros host opts Ht. assert (Htr : trusts (ho_trust host) signer).
    { rewrite Ht, Es. exists (bs "k"). split; [by left|reflexivity]. }
    destruct (Hload host (bs "f") opts Htr) as [H _]; [discriminate|vm_compute; intros H; by apply list_elem_of_singleton in H|].
    apply H. reflexivity.
Defined.
