(* ===== verification/Preflight.v ===== *)
(** * Startup and the pre-flight (control/src/lib.rs, manifest/observability.rs)

    [validate_manifest], the configuration check behind [plecto validate], beside what it
    predicts: the host and store a control plane is built from, the constructors, and the reload.
    The sections captured once at startup, which the reloadable manifest leaves out, are
    [Captured].  Opening a database, the host's own initialisation, the URI parser and the
    directory test are parameters. *)

From S2P Require Import Prelude Bytes Weighted RateLimit Chain Headers Manifest Upstream Balancer.
From S2P Require Import Registry Route RouteTable ContentHash Control Provenance DevSign.
From S2P Require Import Listener Otlp OtlpPump Stek Tls.

(** ** The sections captured at startup *)

Record Observability := mkObservability {
  ob_admin_addr : option bytes;
  ob_access_log : bool;
  ob_otlp_endpoint : option bytes;
}.
Record Listen := mkListen {
  ln_addr : option bytes;
  ln_advertised_port : option Z;
  ln_drain : option Drain;
}.
Record Captured := mkCaptured { cp_observability : Observability; cp_listen : Listen }.

Definition present {A : Type} (o : option A) : bool := match o with Some _ => true | None => false end.

Definition is_declared (o : Observability) : bool :=
  present (ob_admin_addr o) || ob_access_log o || present (ob_otlp_endpoint o).

(** The two trust sections of [listen] are fields of the manifest document. *)
Definition listen_restart_only (m : ManifestDoc) (l : Listen) : list bytes :=
  map fst (filter (fun f => f.2 = true)
    [(bs "[listen].addr", present (ln_addr l));
     (bs "[listen].advertised_port", present (ln_advertised_port l));
     (bs "[listen].proxy_protocol", present (mf_proxy_protocol m));
     (bs "[listen].drain", present (ln_drain l));
     (bs "[listen].trusted_proxy", present (mf_trusted_proxy m))]).

Definition restart_only_fields (m : ManifestDoc) (c : Captured) : list bytes :=
  (if is_declared (cp_observability c) then [bs "[observability]"] else []) ++
  listen_restart_only m (cp_listen c).

(** ** Paths: [Path::parent] *)

(** What [as_path] leaves of a reversed path: trailing separators and inner [.] go. *)
Fixpoint trim_right (r : bytes) : bytes :=
  match r with
  | c :: rest =>
    if ascii_eqb c "/" then match rest with [] => r | _ => trim_right rest end
    else
      match rest with
      | d :: _ => if ascii_eqb c "." && ascii_eqb d "/" then trim_right rest else r
      | [] => r
      end
  | [] => []
  end.

(** Drop the last component of a reversed path. *)
Fixpoint drop_component (r : bytes) : bytes :=
  match r with
  | c :: rest => if ascii_eqb c "/" then r else drop_component rest
  | [] => []
  end.

Definition path_parent (path : bytes) : option bytes :=
  match trim_right (reverse path) with
  | [] => None
  | r => if bytes_eqb r (bs "/") then None else Some (reverse (trim_right (drop_component r)))
  end.

(** The directory a manifest's relative paths start from. *)
Definition manifest_dir (path : bytes) : bytes := default (bs ".") (path_parent path).

(** ** The platform's startup *)

Inductive StartupError :=
| SuIo (path : bytes) | SuTrustKey | SuInvalidState | SuInvalidListen | SuInvalidOtlpEndpoint
| SuStateBackendInit | SuHostInit | SuControl (e : ControlError).

Class StartupLib (DB : Type) := {
  su_uri_ok : bytes -> bool;
  su_is_dir : bytes -> bool;
  su_redb_open : bytes -> option DB;
  (** Whether [Host::with_backend] succeeds. *)
  su_host_ok : bool;
  (** The startup sections of the manifest at a path. *)
  su_captured : Disk -> bytes -> Captured;
}.

(** The store behind the state capabilities. *)
Inductive StateBackend (DB : Type) := MemoryState | RedbState (db : DB).
Arguments MemoryState {DB}.
Arguments RedbState {DB} db.

Section startup.
Context {M : Type} `{HeaderMap M} {F C SN T Artifact : Type} `{Platform M F C SN T Artifact}.
Context {Key World DB : Type} `{TL : TrustLib Key World} `{SU : StartupLib DB}.
Notation Groups := (gmap bytes (Group C SN)).

Definition observability_validate (o : Observability) : result unit StartupError :=
  match ob_otlp_endpoint o with
  | None => Ok tt
  | Some endpoint =>
    if negb (starts_with (bs "http://") endpoint) then Err SuInvalidOtlpEndpoint
    else if su_uri_ok (trim_end_slashes endpoint ++ bs "/v1/traces") then Ok tt
    else Err SuInvalidOtlpEndpoint
  end.

(** The loop over [trust.keys]. *)
Fixpoint read_pems (disk : Disk) (base_dir : bytes) (keys : list bytes) : result (list bytes) StartupError :=
  match keys with
  | [] => Ok []
  | key_path :: rest =>
    let path := join_path base_dir key_path in
    match disk path with
    | None => Err (SuIo path)
    | Some pem => let? pems := read_pems disk base_dir rest in Ok (pem :: pems)
    end
  end.

Definition ensure (ok : bool) (e : StartupError) : result unit StartupError := if ok then Ok tt else Err e.

(** The loop over the filters' configuration files. *)
Fixpoint check_configs (disk : Disk) (base_dir : bytes) (entries : list FilterEntry)
    : result unit StartupError :=
  match entries with
  | [] => Ok tt
  | entry :: rest =>
    let? _ := map_err (fun e => SuControl (FilterConfig (fe_id entry) e)) (resolved_config disk base_dir entry) in
    check_configs disk base_dir rest
  end.

(** ** The pre-flight *)

Record ValidateOutcome := mkOutcome { vo_config_version : bytes; vo_warnings : nat }.

Definition validate_manifest (disk : Disk) (base_dir : bytes) (m : ManifestDoc) (c : Captured)
    : result ValidateOutcome StartupError :=
  let? pems := read_pems disk base_dir (mf_trust m) in
  let? _ := match from_pem_keys pems with Some keys => Ok keys | None => Err SuTrustKey end in
  let? _ := ensure (state_validate (mf_state m)) SuInvalidState in
  let? _ := ensure (listen_validate parse_net (mf_proxy_protocol m) (mf_trusted_proxy m)) SuInvalidListen in
  let? _ := observability_validate (cp_observability c) in
  let? filter_ids := map_err SuControl (validate_filters_and_chain m) in
  let? _ := check_configs disk base_dir (mf_filters m) in
  let? _ := map_err (fun e => SuControl (invalid_route e))
    (validate_routes (M := M) pf_value_from_str filter_ids (upstream_names m) (mf_routes m)) in
  let? ca := map_err (fun e => SuControl (HashFailed e)) (read_client_auth_ca disk base_dir m) in
  let? _ := match pf_build_tls disk m ca with Some t => Ok t | None => Err (SuControl TlsFailed) end in
  let? _ := map_err (fun e => SuControl (ReconcileFailed e))
    (reconcile (pf_build_client disk) pf_parse_sni (mf_upstreams m) ∅ (mkStore ∅ 0)).1.1 in
  let? config_version := map_err (fun e => SuControl (HashFailed e))
    (content_hash_with_ca_at pf_sha256 pf_hex_encode pf_to_json disk base_dir m ca) in
  Ok (mkOutcome config_version (dev_key_warnings pems)).

Definition read_manifest (disk : Disk) (path : bytes) : result (ManifestDoc * Captured) StartupError :=
  match pf_read_manifest disk path with
  | Some m => Ok (m, su_captured disk path)
  | None => Err (SuControl (ManifestUnreadable path))
  end.

Definition validate_manifest_path (disk : Disk) (path : bytes) : result ValidateOutcome StartupError :=
  let? mc := read_manifest disk path in
  validate_manifest disk (manifest_dir path) mc.1 mc.2.

(** ** The constructors *)

Definition build_state_backend (base_dir : bytes) (state : State) : result (StateBackend DB) StartupError :=
  let? _ := ensure (state_validate state) SuInvalidState in
  match st_backend state with
  | BackendMemory => Ok MemoryState
  | BackendRedb =>
    let path := join_path base_dir (default [] (st_path state)) in
    if negb (match path_parent path with Some parent => su_is_dir parent | None => false end)
    then Err SuStateBackendInit
    else match su_redb_open path with Some db => Ok (RedbState db) | None => Err SuStateBackendInit end
  end.

Definition add_otlp_buffer (c : Captured) : result (option OtlpBuffer) StartupError :=
  let? _ := observability_validate (cp_observability c) in
  match ob_otlp_endpoint (cp_observability c) with
  | None => Ok None
  | Some _ => Ok (Some (buffer_new DEFAULT_QUEUE_CAPACITY))
  end.

(** What a plane owns beside its configurations. *)
Record BuiltHost := mkBuiltHost {
  bh_trust : TrustPolicy (Key := Key);
  bh_state : StateBackend DB;
  bh_otlp : option OtlpBuffer;
}.

Definition build_host_and_store (disk : Disk) (base_dir : bytes) (m : ManifestDoc) (c : Captured)
    : result BuiltHost StartupError :=
  let? pems := read_pems disk base_dir (mf_trust m) in
  let? trust := match from_pem_keys pems with Some keys => Ok keys | None => Err SuTrustKey end in
  let? kv := build_state_backend base_dir (mf_state m) in
  let? _ := ensure su_host_ok SuHostInit in
  let? otlp := add_otlp_buffer c in
  Ok (mkBuiltHost trust kv otlp).

Record Plane := mkPlane {
  pn_host : BuiltHost;
  pn_control : Control F C SN T;
  pn_captured : Captured;
}.

Definition from_manifest_at (disk : Disk) (base_dir : bytes) (path : option bytes) (m : ManifestDoc)
    (c : Captured) : result Plane StartupError :=
  let? host := build_host_and_store disk base_dir m c in
  let? control := map_err SuControl (assemble (M := M) disk base_dir path m) in
  Ok (mkPlane host control c).

Definition from_manifest (disk : Disk) (base_dir : bytes) : ManifestDoc -> Captured -> result Plane StartupError :=
  from_manifest_at disk base_dir None.

Definition from_manifest_path (disk : Disk) (path : bytes) : result Plane StartupError :=
  let? mc := read_manifest disk path in
  from_manifest_at disk (manifest_dir path) (Some path) mc.1 mc.2.

(** From a host the caller built, whose sinks gain the buffer. *)
Definition with_otlp (host : BuiltHost) (otlp : option OtlpBuffer) : BuiltHost :=
  mkBuiltHost (bh_trust host) (bh_state host) otlp.

Definition load_plane (disk : Disk) (base_dir : bytes) (path : option bytes) (host : BuiltHost)
    (m : ManifestDoc) (c : Captured) : result Plane StartupError :=
  let? otlp := add_otlp_buffer c in
  let? control := map_err SuControl (assemble (M := M) disk base_dir path m) in
  Ok (mkPlane (with_otlp host otlp) control c).

Definition load (disk : Disk) (host : BuiltHost) : ManifestDoc -> Captured -> result Plane StartupError :=
  load_plane disk (bs ".") None host.

Definition load_at (disk : Disk) (host : BuiltHost) (path : bytes) : result Plane StartupError :=
  let? mc := read_manifest disk path in
  load_plane disk (manifest_dir path) (Some path) host mc.1 mc.2.

(** ** What a plane reports of its captured sections (control_observability.rs) *)

Definition admin_addr (p : Plane) : option bytes := ob_admin_addr (cp_observability (pn_captured p)).
Definition access_log_enabled (p : Plane) : bool := ob_access_log (cp_observability (pn_captured p)).
Definition otlp_endpoint (p : Plane) : option bytes := ob_otlp_endpoint (cp_observability (pn_captured p)).
Definition otlp_buffer (p : Plane) : option OtlpBuffer := bh_otlp (pn_host p).
Definition listen_addr (p : Plane) : option bytes := ln_addr (cp_listen (pn_captured p)).
Definition advertised_port (p : Plane) : option Z := ln_advertised_port (cp_listen (pn_captured p)).
End startup.

Example manifest_dir_cases :
  map (fun p => manifest_dir (bs p))
    ["/etc/plecto/m.toml"; "m.toml"; "./m.toml"; "/m.toml"; "a/./b/"; "/"; ""]%string
  = map bs ["/etc/plecto"; ""; "."; "/"; "a"; "."; "."]%string.
Proof. reflexivity. Qed.

Example restart_only_lists :
  restart_only_fields
    (mkManifest [] (mkState BackendMemory None) [] [] [] [] [] None None None (Some [bs "10.0.0.0/8"]))
    (mkCaptured (mkObservability None true None) (mkListen (Some (bs ":8080")) None None))
  = [bs "[observability]"; bs "[listen].addr"; bs "[listen].trusted_proxy"].
Proof. reflexivity. Qed.

(** ** Lemmas *)

Section preflight.
Context {M : Type} `{HeaderMap M} {F C SN T Artifact : Type} `{Platform M F C SN T Artifact}.
Context {Key World DB : Type} `{TL : TrustLib Key World} `{SU : StartupLib DB}.
Context (disk : Disk) (base_dir : bytes).
Notation Groups := (gmap bytes (Group C SN)).
Notation files := (join_path base_dir).

Definition file_there (r : FileRef) : Prop := is_Some (disk (files (fr_path r))).

Lemma mix_refs_ok (sha256 : bytes -> bytes) refs :
  Forall file_there refs -> exists mixed, mix_refs sha256 disk base_dir refs = Ok mixed.
Proof.
  induction 1 as [|r refs [content Hr] _ [mixed IH]]; cbn [mix_refs]; [by eexists|].
  rewrite Hr, IH. by eexists.
Qed.

(** Resolving every entry's configuration is what the load and the fingerprint do too. *)
Lemma load_filters_configs entries fs0 fs :
  load_filters (M := M) disk base_dir entries fs0 = Ok fs -> check_configs disk base_dir entries = Ok tt.
Proof.
  revert fs0. induction entries as [|entry entries IH]; intros fs0; cbn [load_filters check_configs]; [done|].
  destruct (pf_resolve _ _ _) as [artifact|]; [|done]. rewrite res_bind_ok.
  intros (merged & ->%map_err_ok & E). destruct (pf_load _ _ _) as [f|]; [|done].
  cbn [map_err res_bind]. by eapply IH.
Qed.

Lemma mix_filters_ok (sha256 : bytes -> bytes) entries :
  check_configs disk base_dir entries = Ok tt -> exists mixed, mix_filters sha256 disk base_dir entries = Ok mixed.
Proof.
  induction entries as [|entry entries IH]; cbn [check_configs mix_filters]; [by eexists|].
  rewrite res_bind_ok. intros (merged & ->%map_err_ok & E). destruct (IH E) as [mixed ->].
  destruct merged; by eexists.
Qed.

(** A running registry only makes the client configurations easier to come by. *)
Lemma tls_all_reuses (build : bytes -> UpstreamTls -> option C) (sni : bytes -> bytes -> option SN)
    (groups : Groups) (ups : list Upstream) ts :
  tls_all build sni ∅ ups = Ok ts -> exists ts', tls_all build sni groups ups = Ok ts'.
Proof.
  revert ts. induction ups as [|up ups IH]; intros ts; cbn [tls_all]; [by eexists|].
  destruct (tls_for build sni ∅ up) as [t|] eqn:Et; [|done].
  destruct (tls_all build sni ∅ ups) as [ts0|]; [|done]. intros _.
  destruct (IH ts0 eq_refl) as [ts' ->].
  enough (exists t', tls_for build sni groups up = Ok t') as [t' ->] by by eexists.
  revert Et. unfold tls_for. rewrite lookup_empty.
  destruct (up_tls up) as [tls|]; [|by destruct (up_tls up); eauto].
  destruct (build (up_name up) tls) as [c|]; [|done].
  destruct (match groups !! up_name up with Some _ => _ | None => _ end) as [c'|];
    destruct (tls_sni_name tls) as [name|]; [destruct (sni _ name); [eauto|done]|eauto|
    destruct (sni _ name); [eauto|done]|eauto].
Qed.

Lemma reconcile_ok (build : bytes -> UpstreamTls -> option C) (sni : bytes -> bytes -> option SN)
    (ups : list Upstream) (groups : Groups) (s : Store) :
  (reconcile build sni ups ∅ (mkStore ∅ 0)).1.1 = Ok tt -> (reconcile build sni ups groups s).1.1 = Ok tt.
Proof.
  unfold reconcile. destruct (validate_all ∅ ups); [|done].
  destruct (tls_all build sni ∅ ups) as [ts|] eqn:Et; [|done]. intros _.
  destruct (tls_all_reuses build sni groups ups ts Et) as [ts' ->]. by destruct (build_all _ _ _ _).
Qed.

(** ** What the static half of a build decides *)

(** The checks [validate_manifest] and [build_active] share, with the version they arrive at. *)
Definition checked (m : ManifestDoc) (version : bytes) : Prop :=
  exists ids vs ca t,
    validate_filters_and_chain m = Ok ids /\
    check_configs disk base_dir (mf_filters m) = Ok tt /\
    validate_routes (M := M) pf_value_from_str ids (upstream_names m) (mf_routes m) = Ok vs /\
    read_client_auth_ca disk base_dir m = Ok ca /\
    pf_build_tls disk m ca = Some t /\
    (reconcile (pf_build_client disk) pf_parse_sni (mf_upstreams m) ∅ (mkStore ∅ 0)).1.1 = Ok tt /\
    content_hash_with_ca_at pf_sha256 pf_hex_encode pf_to_json disk base_dir m ca = Ok version.

(** The checks [validate_manifest] shares with the construction of the host. *)
Definition host_checked (m : ManifestDoc) (c : Captured) (pems : list bytes) (keys : TrustPolicy (Key := Key)) : Prop :=
  read_pems disk base_dir (mf_trust m) = Ok pems /\ from_pem_keys pems = Some keys /\
  state_validate (mf_state m) = true /\ observability_validate (cp_observability c) = Ok tt.

Lemma ensure_ok b e : ensure b e = Ok tt <-> b = true.
Proof. by destruct b. Qed.

Lemma of_option_ok {A E : Type} (o : option A) (e : E) a :
  match o with Some x => Ok x | None => Err e end = Ok a <-> o = Some a.
Proof. destruct o; naive_solver. Qed.

Lemma validate_ok m c o :
  validate_manifest (M := M) disk base_dir m c = Ok o <->
  exists pems keys, host_checked m c pems keys /\
    listen_validate parse_net (mf_proxy_protocol m) (mf_trusted_proxy m) = true /\
    checked m (vo_config_version o) /\ vo_warnings o = dev_key_warnings pems.
Proof.
  unfold validate_manifest, host_checked, checked. split.
  - intros (pems & ? & E)%res_bind_ok. apply res_bind_ok in E as (keys & ?%of_option_ok & E).
    apply res_bind_ok in E as ([] & ?%ensure_ok & E). apply res_bind_ok in E as ([] & ?%ensure_ok & E).
    apply res_bind_ok in E as ([] & ? & E). apply res_bind_ok in E as (ids & ?%map_err_ok & E).
    apply res_bind_ok in E as ([] & ? & E). apply res_bind_ok in E as (vs & ?%map_err_ok & E).
    apply res_bind_ok in E as (ca & ?%map_err_ok & E). apply res_bind_ok in E as (t & ?%of_option_ok & E).
    apply res_bind_ok in E as ([] & ?%map_err_ok & E). apply res_bind_ok in E as (v & ?%map_err_ok & [= <-]).
    exists pems, keys. split_and!; [done..| |done]. by exists ids, vs, ca, t.
  - intros (pems & keys & (E1 & E2 & E3 & E4) & E5 & (ids & vs & ca & t & E6 & E7 & E8 & E9 & Ea & Eb & Ec) & Hw).
    rewrite E1. cbn [res_bind]. rewrite E2. cbn [res_bind]. rewrite E3, E5, E4, E6. cbn [ensure res_bind map_err].
    rewrite E7. cbn [res_bind]. rewrite E8, E9. cbn [res_bind map_err].
    rewrite Ea. cbn [res_bind]. rewrite Eb. cbn [res_bind map_err]. rewrite Ec. cbn [res_bind map_err].
    rewrite <- Hw. by destruct o.
Qed.

Lemma build_active_checked m active groups s :
  build_active (M := M) disk base_dir m ∅ (mkStore ∅ 0) = (Ok active, groups, s) ->
  checked m (ac_hash active) /\ load_filters (M := M) disk base_dir (mf_filters m) ∅ = Ok (ac_filters active).
Proof.
  unfold build_active, prepare. intros E.
  destruct (validate_filters_and_chain m) as [ids|] eqn:E1; [|done]. cbn [res_bind] in E.
  destruct (load_filters disk base_dir _ ∅) as [fs|] eqn:E2; [|done]. cbn [res_bind] in E.
  destruct (validate_routes _ ids _ _) as [vs|] eqn:E3; [|done]. cbn [res_bind map_err] in E.
  destruct (read_client_auth_ca disk base_dir m) as [ca|] eqn:E4; [|done]. cbn [res_bind map_err] in E.
  destruct (pf_build_tls disk m ca) as [t|] eqn:E5; [|done]. cbn [res_bind] in E.
  destruct (content_hash_with_ca_at _ _ _ disk base_dir m ca) as [v|] eqn:E6; [|done]. cbn [res_bind map_err] in E.
  destruct (reload_fingerprint _ _ disk base_dir m v) as [fp|]; [|done]. cbn [res_bind map_err pr_filters pr_routes pr_tls pr_hash] in E.
  destruct (reconcile _ _ _ ∅ _) as [[[[]|e] groups'] s'] eqn:E7; [|done].
  destruct (compile_all _ _ _ _ _) as [routes|]; [|done]. cbn in E. injection E as <- <- <-.
  split; [|done]. exists ids, vs, ca, t. cbn [ac_hash]. rewrite E7. split_and!; try done.
  by eapply load_filters_configs.
Qed.

(** ** Building what was checked *)

(** What building the TLS configurations is known to read: every private key and key file. *)
Definition secrets_read (m : ManifestDoc) : Prop :=
  (forall ca t, pf_build_tls disk m ca = Some t ->
     Forall file_there (tls_refs (bs "tls.key") tc_key_path (mf_tls m)) /\
     Forall file_there (opt_ref (bs "resumption.stek") [] (rs_stek_file <$> mf_resumption m))) /\
  (forall up tls client, up ∈ mf_upstreams m -> up_tls up = Some tls ->
     pf_build_client disk (up_name up) tls = Some client -> Forall file_there (upstream_secret up)).

Lemma tls_all_builds (build : bytes -> UpstreamTls -> option C) (sni : bytes -> bytes -> option SN)
    (ups : list Upstream) ts up tls :
  tls_all build sni ∅ ups = Ok ts -> up ∈ ups -> up_tls up = Some tls -> is_Some (build (up_name up) tls).
Proof.
  revert ts. induction ups as [|x ups IH]; intros ts; cbn [tls_all]; [by intros _ ?%not_elem_of_nil|].
  destruct (tls_for build sni ∅ x) as [t|] eqn:Et; [|done].
  destruct (tls_all build sni ∅ ups) as [ts0|]; [|done].
  intros _ [<-|Hin]%elem_of_cons Htls; [|by eapply IH].
  revert Et. unfold tls_for. rewrite lookup_empty, Htls.
  by destruct (build (up_name up) tls) as [c|]; [exists c|].
Qed.

Lemma secrets_there (m : ManifestDoc) (v : bytes) : secrets_read m -> checked m v -> Forall file_there (secret_refs m).
Proof.
  intros [Htls Hup] (ids & vs & ca & t & _ & _ & _ & _ & Hb & Hr & _).
  destruct (Htls ca t Hb) as [Hkeys Hstek]. unfold secret_refs. rewrite !Forall_app. split_and!; [done| |done].
  rewrite flat_map_concat_map, Forall_concat, Forall_map, Forall_forall. intros up Hin.
  destruct (up_tls up) as [tls|] eqn:Et; [|by unfold upstream_secret; rewrite Et].
  revert Hr. unfold reconcile. destruct (validate_all ∅ _); [|done].
  destruct (tls_all _ _ ∅ _) as [ts|] eqn:Ets; [|done]. intros _.
  destruct (tls_all_builds _ _ _ _ _ _ Ets Hin Et) as [client Hc]. by eapply Hup.
Qed.

Lemma checked_builds (m : ManifestDoc) (v : bytes) (fs : gmap bytes F) (groups : Groups) (s : Store) :
  Forall weights_u32 (mf_routes m) -> secrets_read m ->
  checked m v -> load_filters (M := M) disk base_dir (mf_filters m) ∅ = Ok fs ->
  exists active groups' s', build_active (M := M) disk base_dir m groups s = (Ok active, groups', s') /\
    ac_hash active = v /\ ac_filters active = fs.
Proof.
  intros Hw Hsec Hck Hfs. pose proof (secrets_there m v Hsec Hck) as Hsecrets.
  destruct Hck as (ids & vs & ca & t & E1 & Ecf & E2 & E3 & E4 & E5 & E6).
  destruct (mix_refs_ok pf_sha256 (secret_refs m) Hsecrets) as [mixed Hmix].
  destruct (mix_filters_ok pf_sha256 (mf_filters m) Ecf) as [mixed' Hmix'].
  assert (exists fp, prepare (M := M) disk base_dir m = Ok (mkPrepared fs vs t v fp)) as [fp Ep].
  { unfold prepare, reload_fingerprint. rewrite E1. cbn [res_bind]. rewrite Hfs. cbn [res_bind].
    rewrite E2. cbn [res_bind map_err]. rewrite E3. cbn [res_bind map_err]. rewrite E4. cbn [res_bind].
    rewrite E6. cbn [res_bind map_err]. rewrite Hmix. cbn [res_bind]. rewrite Hmix'. by eexists. }
  pose proof (reconcile_ok _ _ _ groups s E5) as Hr.
  pose proof (reconcile_outcome disk (mf_upstreams m) groups s) as Hdom.
  destruct (prepare_ok _ _ _ _ Ep) as (_ & _ & Hd & Hv). cbn [pr_filters pr_routes] in Hd, Hv.
  unfold build_active. rewrite Ep.
  destruct (reconcile _ _ _ groups s) as [[[[]|e] groups'] s']; [|done].
  apply validate_from_ok in Hv as (H2 & _ & _); [|done].
  destruct (compile_all_ok (M := M) pf_value_from_str _ _ pf_body_hooks fs groups'
    ltac:(intros id Hid; by rewrite <- elem_of_dom, Hd)
    ltac:(intros n Hn; apply Hdom; by apply elem_of_list_to_set in Hn)
    (mf_routes m) vs Hw H2) as (cs & E & _).
  cbn [pr_filters pr_routes]. rewrite E. cbn. by eexists _, _, _.
Qed.

Lemma listen_checked m : listen_validate parse_net (mf_proxy_protocol m) (mf_trusted_proxy m) = true <->
  is_Some (section_trust parse_net (mf_proxy_protocol m)) /\ is_Some (section_trust parse_net (mf_trusted_proxy m)).
Proof. unfold listen_validate. by rewrite andb_true_iff, !bool_decide_eq_true. Qed.

Lemma assemble_checked path m ctl : assemble (M := M) disk base_dir path m = Ok ctl ->
  listen_validate parse_net (mf_proxy_protocol m) (mf_trusted_proxy m) = true /\
  checked m (ac_hash (ctl_active ctl)) /\
  load_filters (M := M) disk base_dir (mf_filters m) ∅ = Ok (ac_filters (ctl_active ctl)).
Proof.
  unfold assemble. destruct (build_active _ _ m ∅ _) as [[[active|] groups] s] eqn:Eb; [|done].
  rewrite listen_checked. destruct (section_trust _ (mf_proxy_protocol m)); [|done].
  destruct (section_trust _ (mf_trusted_proxy m)); [|done]. intros [= <-]. cbn [ctl_active].
  by apply build_active_checked in Eb as [? ?].
Qed.

Lemma assemble_ok (path : option bytes) (m : ManifestDoc) (v : bytes) (fs : gmap bytes F) :
  Forall weights_u32 (mf_routes m) -> secrets_read m ->
  listen_validate parse_net (mf_proxy_protocol m) (mf_trusted_proxy m) = true -> checked m v ->
  load_filters (M := M) disk base_dir (mf_filters m) ∅ = Ok fs ->
  exists ctl, assemble (M := M) disk base_dir path m = Ok ctl /\
    ac_hash (ctl_active ctl) = v /\ ac_filters (ctl_active ctl) = fs.
Proof.
  intros Hw Hs [[a Ha] [b Hb]]%listen_checked Hck Hfs.
  destruct (checked_builds m v fs ∅ (mkStore ∅ 0) Hw Hs Hck Hfs) as (active & groups & s & E & <- & <-).
  unfold assemble. rewrite E, Ha, Hb. by eexists.
Qed.

Lemma host_ok m c host : build_host_and_store disk base_dir m c = Ok host <->
  exists pems kv, host_checked m c pems (bh_trust host) /\
    build_state_backend base_dir (mf_state m) = Ok kv /\ su_host_ok = true /\
    bh_state host = kv /\ add_otlp_buffer c = Ok (bh_otlp host).
Proof.
  unfold build_host_and_store, host_checked. split.
  - intros (pems & ? & E)%res_bind_ok. apply res_bind_ok in E as (keys & ?%of_option_ok & E).
    apply res_bind_ok in E as (kv & Hk & E). apply res_bind_ok in E as ([] & ?%ensure_ok & E).
    apply res_bind_ok in E as (otlp & Ho & [= <-]). exists pems, kv. split_and!; try done.
    + by apply res_bind_ok in Hk as ([] & ?%ensure_ok & _).
    + by apply res_bind_ok in Ho as ([] & ? & _).
  - intros (pems & kv & (-> & E2 & _) & E3 & E4 & <- & E5). cbn [res_bind]. rewrite E2. cbn [res_bind].
    rewrite E3. cbn [res_bind]. rewrite E4. cbn [res_bind ensure]. rewrite E5. cbn [res_bind]. by destruct host.
Qed.

Lemma checked_hash (m : ManifestDoc) (v : bytes) : checked m v ->
  content_hash_at pf_sha256 pf_hex_encode pf_to_json disk base_dir m = Ok v.
Proof.
  intros (ids & vs & ca & t & _ & _ & _ & Hca & _ & _ & Hh). unfold content_hash_at. by rewrite Hca.
Qed.

Lemma checked_reloads (m : ManifestDoc) (v : bytes) (fs : gmap bytes F) (path : bytes) (ctl : Control F C SN T) :
  Forall weights_u32 (mf_routes m) -> secrets_read m -> checked m v ->
  load_filters (M := M) disk base_dir (mf_filters m) ∅ = Ok fs ->
  ctl_manifest_path ctl = Some path -> pf_read_manifest disk path = Some m -> ctl_base_dir ctl = base_dir ->
  mf_trust m = ctl_trust ctl -> mf_state m = ctl_state ctl ->
  let '(r, ctl') := reload_from_disk (M := M) disk disk ctl in
  (r = Ok Unchanged \/ r = Ok (Reloaded v)) /\ ac_hash (ctl_active ctl') = v.
Proof.
  intros Hw Hs Hck Hfs Hp Hm Hb Ht Hst. unfold reload_from_disk. rewrite Hp, Hm.
  rewrite (proj2 (ensured ctl m)) by done.
  destruct (gate_unchanged disk ctl m) eqn:Eg.
  - apply gate_unchanged_true in Eg as [Eh _]. rewrite Hb, (checked_hash m v Hck) in Eh.
    injection Eh as ->. split; [by left|done].
  - unfold build_and_swap. rewrite Hb.
    destruct (checked_builds m v fs (ctl_groups ctl) (ctl_store ctl) Hw Hs Hck Hfs)
      as (active & groups & s & E & <- & _).
    rewrite E. cbn. split; [by right|done].
Qed.

(** ** What the pre-flight leaves to the start *)

(** Every filter's artifact resolves, and loads under whatever configuration its entry has. *)
Definition artifacts_load (m : ManifestDoc) : Prop :=
  Forall (fun entry => exists artifact,
    pf_resolve disk (fe_source entry) (fe_digest entry) = Some artifact /\
    forall merged, resolved_config disk base_dir entry = Ok merged ->
      is_Some (pf_load entry artifact merged)) (mf_filters m).

(** The named state database, if one is, lies in a directory and opens. *)
Definition database_opens (state : State) : Prop :=
  st_backend state = BackendRedb ->
  exists parent db, path_parent (join_path base_dir (default [] (st_path state))) = Some parent /\
    su_is_dir parent = true /\
    su_redb_open (join_path base_dir (default [] (st_path state))) = Some db.

Lemma load_filters_ok entries : forall fs0,
  check_configs disk base_dir entries = Ok tt ->
  Forall (fun entry => exists artifact,
    pf_resolve disk (fe_source entry) (fe_digest entry) = Some artifact /\
    forall merged, resolved_config disk base_dir entry = Ok merged ->
      is_Some (pf_load entry artifact merged)) entries ->
  exists fs, load_filters (M := M) disk base_dir entries fs0 = Ok fs.
Proof.
  induction entries as [|entry entries IH]; intros fs0; cbn [check_configs load_filters]; [by eexists|].
  intros Hc [(artifact & Hr & Hl) Hall]%Forall_cons. rewrite Hr.
  apply res_bind_ok in Hc as (merged & Hm%map_err_ok & Hc). rewrite Hm.
  destruct (Hl merged Hm) as [f Hf]. cbn [map_err res_bind]. rewrite Hf. by apply IH.
Qed.

Lemma state_backend_ok state : state_validate state = true -> database_opens state ->
  exists kv, build_state_backend base_dir state = Ok kv.
Proof.
  unfold build_state_backend, database_opens. intros -> Hdb. cbn [ensure res_bind].
  destruct (st_backend state); [by eexists|].
  destruct (Hdb eq_refl) as (parent & db & Hp & Hd & Ho). cbv zeta. rewrite Hp, Hd, Ho. by eexists.
Qed.

(** C28: the pre-flight decides the configuration half of a start and of a reload.  A manifest
    that a plane starts from validates, and to the version the plane runs.  Conversely, where
    what the pre-flight does not look at is in order (each filter's artifact resolves and loads
    under its configuration, the state database opens, the host initialises), a manifest that
    validates starts, and the plane runs the version reported; so a bad [trust], [state],
    [listen], [observability], filter, value file, route, TLS or upstream section is found.  A
    running plane under the same trust roots and state backend reloads a validated manifest,
    whatever upstreams it already runs, and afterwards runs the version reported. *)
Theorem validate_decides_startup (m : ManifestDoc) (c : Captured) :
  Forall weights_u32 (mf_routes m) -> secrets_read m ->
  (forall path plane, from_manifest_at (M := M) disk base_dir path m c = Ok plane ->
     exists warnings, validate_manifest (M := M) disk base_dir m c
       = Ok (mkOutcome (ac_hash (ctl_active (pn_control plane))) warnings)) /\
  (forall o, validate_manifest (M := M) disk base_dir m c = Ok o -> artifacts_load m ->
     (forall path, database_opens (mf_state m) -> su_host_ok = true ->
        exists plane, from_manifest_at (M := M) disk base_dir path m c = Ok plane /\
          ac_hash (ctl_active (pn_control plane)) = vo_config_version o /\
          load_filters (M := M) disk base_dir (mf_filters m) ∅
            = Ok (ac_filters (ctl_active (pn_control plane)))) /\
     (forall path (ctl : Control F C SN T), ctl_manifest_path ctl = Some path ->
        pf_read_manifest disk path = Some m -> ctl_base_dir ctl = base_dir ->
        mf_trust m = ctl_trust ctl -> mf_state m = ctl_state ctl ->
        let '(r, ctl') := reload_from_disk (M := M) disk disk ctl in
        (r = Ok Unchanged \/ r = Ok (Reloaded (vo_config_version o))) /\
        ac_hash (ctl_active ctl') = vo_config_version o)).
Proof.
  intros Hw Hs. split.
  - unfold from_manifest_at. intros path plane (host & Hh & E)%res_bind_ok.
    apply res_bind_ok in E as (ctl & Hc%map_err_ok & [= <-]).
    apply host_ok in Hh as (pems & kv & Hhost & _). apply assemble_checked in Hc as (Hl & Hck & _).
    exists (dev_key_warnings pems). apply validate_ok. by exists pems, (bh_trust host).
  - intros o (pems & keys & Hhost & Hl & Hck & _)%validate_ok Hart.
    destruct (load_filters_ok (mf_filters m) ∅) as [fs Hfs]; [by destruct Hck as (?&?&?&?&_&?&_)|done|].
    split.
    + intros path Hdb Hok. destruct (assemble_ok path m _ fs Hw Hs Hl Hck Hfs) as (ctl & E & Hv & Hf).
      destruct (state_backend_ok (mf_state m)) as [kv Hkv]; [by destruct Hhost as (_&_&?&_)|done|].
      assert (exists otlp, add_otlp_buffer c = Ok otlp) as [otlp Ho].
      { unfold add_otlp_buffer. destruct Hhost as (_ & _ & _ & ->). cbn [res_bind].
        destruct (ob_otlp_endpoint _); by eexists. }
      exists (mkPlane (mkBuiltHost keys kv otlp) ctl c). split_and!; [|done|by rewrite Hfs, <- Hf].
      unfold from_manifest_at. rewrite (proj2 (host_ok m c (mkBuiltHost keys kv otlp))) by (by exists pems, kv).
      cbn [res_bind]. by rewrite E.
    + intros path ctl. by apply (checked_reloads m _ fs path).
Qed.
End preflight.

(** ** The TLS builder reads what it must *)

Section tls_reads.
Context {Cert Key SignKey : Type} `{TlsLib Cert Key SignKey} `{StekCrypto}.
Context (disk : Disk) (base_dir : bytes) (mode : bytes -> option Z) (key_mode : bytes -> Z) (mtime : bytes -> option Z).

(** A disk seen from the manifest's directory. *)
Definition disk_view : FileView :=
  let read p := disk (join_path base_dir p) in
  mkFileView read mode (fun p => content ← read p; Some (mkKeyFile (key_mode p) (mtime p) (Some content))).

Definition result_option {A E : Type} (r : result A E) : option A :=
  match r with Ok a => Some a | Err _ => None end.

(** The configured client authentication beside the anchors read for it. *)
Definition auth_of (m : ManifestDoc) (ca : option bytes) : option (ClientAuth * bytes) :=
  path ← mf_client_auth m; content ← ca; Some (mkClientAuth path, content).

Definition tls_builder (now : Z) (creates : bool) (p : Producers) (m : ManifestDoc) (ca : option bytes)
    : option (option (TlsConfigs (Cert := Cert) (SignKey := SignKey))) :=
  result_option (build_server_configs now creates disk_view (mf_tls m) (mf_resumption m) (auth_of m ca) p).1.

Definition client_builder (name : bytes) (tls : UpstreamTls) : option (ClientConfig (Cert := Cert) (Key := Key)) :=
  result_option (build_upstream_client_config disk_view name tls).

Lemma load_entries_read entries r all ok : load_entries disk_view entries r all = Ok ok ->
  Forall (fun e => is_Some (disk (join_path base_dir (tc_key_path e)))) entries.
Proof.
  revert r all. induction entries as [|e entries IH]; intros r all; cbn [load_entries]; [constructor|].
  intros (k & Hk & E)%res_bind_ok. constructor.
  - unfold load_certified_key in Hk. apply res_bind_ok in Hk as (chain & _ & Hk). destruct chain; [done|].
    apply res_bind_ok in Hk as (key & Hk & _). unfold read_key in Hk.
    change (fv_read disk_view ?p) with (disk (join_path base_dir p)) in Hk. by destruct (disk _).
  - destruct (tc_host e); [destruct (sr_by_host r !! _)|destruct (sr_default r)]; try done; by eapply IH.
Qed.

Lemma tls_refs_there label path entries :
  Forall (fun e => is_Some (disk (join_path base_dir (path e)))) entries ->
  Forall (file_there disk base_dir) (tls_refs label path entries).
Proof.
  intros Hall. unfold tls_refs. rewrite Forall_forall. intros r (i & e & -> & He)%elem_of_lookup_imap.
  rewrite Forall_lookup in Hall. exact (Hall i e He).
Qed.

Lemma build_none now creates (fs : FileView) entries resumption client_auth p :
  result_option (build_server_configs now creates fs entries resumption client_auth p).1 = Some None ->
  entries = [] /\ resumption = None.
Proof.
  unfold build_server_configs. destruct entries as [|e rest]; [by destruct resumption, client_auth|].
  intros E. exfalso. destruct resumption as [r|], client_auth as [[auth ca]|]; [done|..].
  all: destruct (load_entries fs (e :: rest) _ []) as [[resolver all]|]; [|done].
  all: destruct (select_ticketer _ _ _ _ _ _ _) as [[source|err] p1]; [|done]; cbn [res_bind fst] in E; [|done..].
  all: destruct (build_client_verifier _ _) || idtac; done.
Qed.

Lemma tls_builder_reads now creates p m ca t : producers_ok p -> tls_builder now creates p m ca = Some t ->
  Forall (file_there disk base_dir) (tls_refs (bs "tls.key") tc_key_path (mf_tls m)) /\
  Forall (file_there disk base_dir) (opt_ref (bs "resumption.stek") [] (rs_stek_file <$> mf_resumption m)).
Proof.
  unfold tls_builder. intros Hok E. destruct t as [c|].
  - destruct (build_server_configs _ _ _ _ _ _ p) as [[[c'|]|] p'] eqn:Eb; try done. clear E.
    destruct (build_ok _ _ _ _ _ _ _ _ _ Hok Eb) as (_ & r & all & source & v & El & Es & _ & _). split.
    + apply tls_refs_there. by eapply load_entries_read.
    + destruct (select_ticketer_ok _ _ _ _ _ _ _ _ _ Hok Es) as (_ & _ & Hs).
      destruct (mf_resumption m) as [rs|] eqn:Er; cbn; [|constructor].
      destruct source as [id|tk]; [by destruct Hs|]. destruct Hs as (r' & b & [= <-] & _ & Hf).
      apply Forall_singleton. unfold file_there. cbn [fr_path]. revert Hf. unfold Stek.from_manifest. cbn [disk_view fv_key_file].
      destruct (disk (join_path base_dir (rs_stek_file rs))) as [content|]; [by eexists|]. cbn.
      by destruct (resumption_validate rs).
  - apply build_none in E as [-> ->]. by split.
Qed.

Lemma client_builder_reads up tls client : up_tls up = Some tls ->
  client_builder (up_name up) tls = Some client -> Forall (file_there disk base_dir) (upstream_secret up).
Proof.
  intros Et. unfold upstream_secret, client_builder, build_upstream_client_config. rewrite Et.
  destruct (tls_client_key_path tls) as [key|]; cbn [opt_ref]; [|constructor]. intros E.
  apply Forall_singleton. unfold file_there. cbn [fr_path].
  destruct (res_bind _ _) as [cfg|] eqn:Er; [|done]. apply res_bind_ok in Er as (roots & _ & Er).
  destruct (tls_client_cert_path tls) as [cert|]; [|done].
  destruct (fv_read disk_view cert); [|done]. destruct (pem_certs _) as [[|? ?]|]; try done.
  destruct (owner_only disk_view key); [|done].
  change (fv_read disk_view key) with (disk (join_path base_dir key)) in Er. by destruct (disk _).
Qed.
End tls_reads.

(** ** Witnesses *)

#[local] Existing Instance alist_headers.
#[local] Existing Instance text_tls.
#[local] Existing Instance toy_crypto.
#[local] Existing Instance demo_trust.

Definition pre_platform : Platform (list (bytes * bytes)) BodyHooks (ClientConfig (Cert := bytes) (Key := bytes))
    unit (TlsConfigs (Cert := bytes) (SignKey := bytes)) unit := {|
  pf_features := mkFeatures false false false;
  pf_cidr_ok := fun _ => true;
  pf_value_from_str := Some;
  pf_sha256 := pad32; pf_hex_encode := id; pf_to_json := demo_json;
  pf_read_manifest := fun disk path => None;
  pf_resolve := fun _ _ _ => Some tt;
  pf_load := fun _ _ _ => Some hooks_none;
  pf_body_hooks := id;
  pf_build_tls := fun disk =>
    tls_builder disk (bs "/etc") (fun _ => Some 384) (fun _ => 384) (fun _ => Some 0) 0 true no_producers;
  pf_build_client := fun disk =>
    client_builder disk (bs "/etc") (fun _ => Some 384) (fun _ => 384) (fun _ => Some 0);
  pf_parse_sni := no_sni |}.
#[local] Existing Instance pre_platform.

#[local] Instance pre_startup : StartupLib unit := {|
  su_uri_ok _ := true; su_is_dir := bytes_eqb (bs "/etc/state"); su_redb_open _ := Some tt; su_host_ok := true;
  su_captured _ _ := mkCaptured (mkObservability None false None) (mkListen None None None) |}.

Lemma pre_secrets_read (disk : Disk) (m : ManifestDoc) : secrets_read disk (bs "/etc") m.
Proof.
  split.
  - intros ca t. apply tls_builder_reads, no_producers_ok.
  - intros up tls client _. apply client_builder_reads.
Qed.

(** A filter with one value kept in a file. *)
Definition pre_filter : FilterEntry :=
  mkFilterEntry (bs "auth") (bs "auth") (bs "sha256:00") Trusted None None None DispatchAuto None None None
    None None None WasiNone None (Some [(bs "api_key", bs "auth.key")]).

(** A manifest served over TLS, with a filter, its state in a database, exporting traces, under a development key. *)
Definition pre_manifest : ManifestDoc :=
  mkManifest [bs "dev.pub"] (mkState BackendRedb (Some (bs "state/db"))) [pre_filter] [] [sample_up [Bare (bs "10.0.0.1:80")]]
    [mkRoute None (mkMatch None (bs "/") None [] []) [] (Some (up_name (sample_up []))) [] None None
       None None None None None] [mkTlsCert None (bs "site.pem") (bs "site.pem")] None None None
    (Some [bs "10.0.0.0/8"]).
Definition pre_captured : Captured :=
  mkCaptured (mkObservability None false (Some (bs "http://collector:4318/"))) (mkListen None None None).
Definition pre_disk : Disk := fun path =>
  if bytes_eqb path (bs "/etc/dev.pub") then Some (DEV_KEY_MARKER ++ bs "key")
  else if bytes_eqb path (bs "/etc/site.pem") then Some (bs "pair")
  else if bytes_eqb path (bs "/etc/auth.key") then Some (bs "hunter2") else None.
Definition pre_outcome : result ValidateOutcome StartupError :=
  validate_manifest (M := list (bytes * bytes)) (Artifact := unit) (Key := bytes) (World := list bytes) (DB := unit)
    pre_disk (bs "/etc") pre_manifest pre_captured.

Lemma validate_decides_startup_witness :
  match pre_outcome with
  | Ok o => vo_warnings o = 1%nat /\ exists plane, from_manifest_at (M := list (bytes * bytes)) (Artifact := unit)
      (Key := bytes) (World := list bytes) (DB := unit) pre_disk (bs "/etc") None pre_manifest pre_captured = Ok plane /\
      ac_hash (ctl_active (pn_control plane)) = vo_config_version o
  | Err _ => False
  end.
Proof.
  destruct (validate_decides_startup (M := list (bytes * bytes)) (Artifact := unit) (Key := bytes) (World := list bytes)
    (DB := unit) pre_disk (bs "/etc") pre_manifest pre_captured) as [_ Hd].
  - apply Forall_singleton. cbn. constructor.
  - apply pre_secrets_read.
  - destruct pre_outcome as [o|e] eqn:E; [|vm_compute in E; discriminate E]. split.
    + vm_compute in E. injection E as <-. reflexivity.
    + assert (Hart : artifacts_load (M := list (bytes * bytes)) (Artifact := unit) pre_disk (bs "/etc") pre_manifest).
      { apply Forall_singleton. exists tt. split; [reflexivity|]. intros merged _. exists hooks_none. reflexivity. }
      destruct (Hd o E Hart) as [Hstart _].
      destruct (Hstart None) as (plane & Hp & Hv & _);
        [intros _; exists (bs "/etc/state"), tt; vm_compute; split_and!; reflexivity|reflexivity|].
      exists plane. split; [exact Hp|exact Hv].
Defined.
