(* ===== verification/Cli.v ===== *)
(** * The command line (plecto/src/cli.rs, plecto/src/main.rs, control/src/diagnostic.rs)

    Argument parsing, the commands that check a configuration and probe a running server, what a
    binary reports of itself, and the diagnostics attached to errors.  A command's result is the
    lines it prints and whether it fails; their wording is not represented.  Resolving a socket
    address is a parameter. *)

From S2P Require Import Prelude Bytes Ssrf Headers Manifest Contract ContentHash Control Filesystem Oci Provenance.
From S2P Require Import Chain Pool Filter LoadOptions Load DevSign DevKit.
From S2P Require Import Listener Metrics Admin Otlp OtlpPump Observe Preflight.

(** ** Words: [str::split_whitespace] *)

Fixpoint word_end (s : bytes) : bytes * bytes :=
  match s with
  | [] => ([], [])
  | c :: rest =>
    match strip_any whitespace s with
    | Some _ => ([], s)
    | None => let '(word, after) := word_end rest in (c :: word, after)
    end
  end.

(** A round consumes at least one byte, so the length is enough fuel. *)
Fixpoint words_fuel (fuel : nat) (s : bytes) : list bytes :=
  match trim_start_fuel whitespace (length s) s, fuel with
  | [], _ | _, O => []
  | s, S fuel => let '(word, after) := word_end s in word :: words_fuel fuel after
  end.
Definition split_whitespace (s : bytes) : list bytes := words_fuel (length s) s.

(** ** Arguments *)

(** A flag anywhere, and the first argument that is not it. *)
Definition flag_and_path (flag : bytes) (rest : list bytes) : bool * option bytes :=
  (existsb (bytes_eqb flag) rest, List.find (fun a => negb (bytes_eqb a flag)) rest).

Record HealthzArgs := mkHealthzArgs { hz_live : bool; hz_admin_addr : option bytes; hz_manifest : option bytes }.

Fixpoint healthz_args_loop (args : list bytes) (a : HealthzArgs) : option HealthzArgs :=
  match args with
  | [] => Some a
  | arg :: args =>
    if bytes_eqb arg (bs "--live") then healthz_args_loop args (mkHealthzArgs true (hz_admin_addr a) (hz_manifest a))
    else if bytes_eqb arg (bs "--admin-addr") then
      match args with
      | value :: args => healthz_args_loop args (mkHealthzArgs (hz_live a) (Some value) (hz_manifest a))
      | [] => None
      end
    else
      match hz_manifest a with
      | None =>
        if starts_with_byte "-" arg then None
        else healthz_args_loop args (mkHealthzArgs (hz_live a) (hz_admin_addr a) (Some arg))
      | Some _ => None
      end
  end.
Definition healthz_args (args : list bytes) : option HealthzArgs :=
  healthz_args_loop args (mkHealthzArgs false None None).

(** [arg_position] and the enumerated [find] of [new_filter]: the language follows its flag, the name is
    the first argument that is neither. *)
Fixpoint arg_position (x : bytes) (args : list bytes) : option nat :=
  match args with
  | [] => None
  | a :: args => if bytes_eqb a x then Some O else S <$> arg_position x args
  end.
Fixpoint find_name (i value : nat) (args : list bytes) : option bytes :=
  match args with
  | [] => None
  | a :: args =>
    if negb (bytes_eqb a (bs "--lang")) && negb (Nat.eqb i value) then Some a else find_name (S i) value args
  end.
Definition new_filter_args (rest : list bytes) : option (bytes * bytes) :=
  i ← arg_position (bs "--lang") rest;
  lang ← rest !! S i;
  name ← find_name 0 (S i) rest;
  Some (lang, name).

Inductive Command :=
| CmdVersion | CmdSchema | CmdValidate (rest : list bytes) | CmdConformance (rest : list bytes)
| CmdHealthz (rest : list bytes) | CmdPackage (rest : list bytes) | CmdNewFilter (rest : list bytes)
| CmdDev (filter_dir : bytes) | CmdServe (manifest : bytes) (listen_arg : option bytes).

(** The dispatch of [run]; [None] is a usage error. *)
Definition command (args : list bytes) : option Command :=
  match args with
  | [] => None
  | arg :: rest =>
    if bytes_eqb arg (bs "--version") || bytes_eqb arg (bs "-V") then Some CmdVersion
    else if bytes_eqb arg (bs "schema") then Some CmdSchema
    else if bytes_eqb arg (bs "validate") then Some (CmdValidate rest)
    else if bytes_eqb arg (bs "conformance") then Some (CmdConformance rest)
    else if bytes_eqb arg (bs "healthz") then Some (CmdHealthz rest)
    else if bytes_eqb arg (bs "package") then Some (CmdPackage rest)
    else if bytes_eqb arg (bs "new-filter") then Some (CmdNewFilter rest)
    else if bytes_eqb arg (bs "dev") then CmdDev <$> head rest
    else Some (CmdServe arg (head rest))
  end.

(** ** What the binary reports of itself *)

Definition comma_separated (parts : list bytes) : bytes :=
  match parts with [] => [] | p :: ps => p ++ flat_map (fun q => bs ", " ++ q) ps end.

Definition loadable_contracts : bytes := comma_separated (map Contract.package SUPPORTED_CONTRACT_VERSIONS).

Definition capability_profile (f : Features) : bytes :=
  let compiled := map snd (filter (fun p => p.1 = true)
    [(ft_outbound_http f, bs "outbound-http"); (ft_outbound_tcp f, bs "outbound-tcp"); (ft_fat_guest f, bs "fat-guest")]) in
  match compiled with
  | [] => bs "minimal"
  | [_; _; _] => bs "capabilities (outbound-http, outbound-tcp, fat-guest)"
  | partial => bs "custom (" ++ comma_separated partial ++ bs ")"
  end.

(** Where the data plane binds. *)
Definition listen_on (listen_arg manifest_addr : option bytes) : bytes :=
  match listen_arg with
  | Some addr => addr
  | None => default (bs "127.0.0.1:8080") manifest_addr
  end.

(** ** Diagnostics *)

Record Diagnostic := mkDiagnostic { dg_code : bytes; dg_docs : bytes }.
Definition SIGNATURE_VERIFICATION_FAILED : Diagnostic := mkDiagnostic (bs "PLECTO-E0001") (bs "docs/ADR/000006.md").
Definition DEV_KEY_IN_TRUST : Diagnostic := mkDiagnostic (bs "PLECTO-E0004") (bs "docs/ADR/000065.md").

(** [diagnose] of the error a filter failed to load with. *)
Definition diagnose (err : option LoadError) : option Diagnostic :=
  match err with
  | Some UnverifiedComponentSignature | Some UnverifiedSbomSignature => Some SIGNATURE_VERIFICATION_FAILED
  | _ => None
  end.

(** ** Probing the admin endpoint *)

Definition PROBE_BUFFER : nat := 512.

Fixpoint has_crlf (s : bytes) : bool :=
  match s with
  | c :: rest =>
    (ascii_eqb c "013" && match rest with d :: _ => ascii_eqb d "010" | [] => false end) || has_crlf rest
  | [] => false
  end.

(** The reads of a response, each a non-empty run of bytes the socket has ready or an error; a read
    takes what the buffer has room for, and no more reads means the end of the stream. *)
Fixpoint probe_read (reads : list (option bytes)) (filled : bytes) : option bytes :=
  if (PROBE_BUFFER <=? length filled)%nat then Some filled
  else
    match reads with
    | [] => Some filled
    | None :: _ => None
    | Some chunk :: reads =>
      match take (PROBE_BUFFER - length filled) chunk with
      | [] => Some filled
      | got =>
        let filled := filled ++ got in
        if has_crlf filled then Some filled else probe_read reads filled
      end
    end.

Definition probe_status (filled : bytes) : option Z :=
  let text := if utf8_valid filled then filled else [] in
  code ← split_whitespace text !! 1%nat; parse_u16 code.

Definition CRLF : bytes := ["013"; "010"]%char.
Definition probe_request (path addr : bytes) : bytes :=
  bs "GET " ++ path ++ bs " HTTP/1.1" ++ CRLF ++ bs "Host: " ++ addr ++ CRLF ++ bs "Connection: close" ++ CRLF ++ CRLF.

(** ** The commands *)

Inductive OutputLine :=
| LnManifestOk (path version : bytes) | LnDevKey | LnAdminExposed (admin_addr : bytes) | LnRestartOnly (fields : list bytes)
| LnArtifact (id digest : bytes) | LnContractOk (id : bytes) (versions : list ContractVersion)
| LnContractUnchecked (id : bytes) (imports : list bytes) | LnHealthy (path : bytes) (status : Z).

Inductive CliError :=
| CeUsage | CeManifestInvalid (e : StartupError) | CeArtifactInvalid (e : ResolveError) | CeRead (path : bytes)
| CeNoAdminAddr | CeProbe (addr path : bytes) | CeUnhealthy (path : bytes) (status : Z).

(** The resolver: [str::parse::<SocketAddr>] and [to_socket_addrs]. *)
Class Sockets := {
  so_parse : bytes -> option IpAddr;
  so_resolve : bytes -> list bytes;
}.

Definition ip_is_loopback (ip : IpAddr) : bool :=
  match ip with V4 a _ _ _ => a =? 127 | V6 _ _ _ _ _ _ _ _ => v6_is_loopback ip end.

Section cli.
Context {M : Type} `{HeaderMap M} {F C SN T Artifact : Type} `{Platform M F C SN T Artifact}.
Context {Key World DB : Type} `{L : OciLib} `{TL : TrustLib Key World} `{SU : StartupLib DB} `{SO : Sockets}.

(** The manifest is read once more for the notes, perhaps from another disk. *)
Definition note_restart_only_fields (disk : Disk) (path : bytes) : list OutputLine * result unit CliError :=
  match read_manifest (M := M) disk path with
  | Err _ => ([], Err (CeRead path))
  | Ok (m, c) =>
    let exposed :=
      match ob_admin_addr (cp_observability c) with
      | Some admin_addr =>
        match so_parse admin_addr with
        | Some ip => if negb (ip_is_loopback ip) then [LnAdminExposed admin_addr] else []
        | None => []
        end
      | None => []
      end in
    let fields := restart_only_fields m c in
    (exposed ++ match fields with [] => [] | _ => [LnRestartOnly fields] end, Ok tt)
  end.

Definition check_lines (check : ResolvedFilterCheck) : list OutputLine :=
  [LnArtifact (rc_id check) (rc_digest check);
   match rc_contract check with
   | Satisfied versions => LnContractOk (rc_id check) versions
   | Inconclusive imports => LnContractUnchecked (rc_id check) imports
   end].

(** [disk], [again] and [fs] are the files as the check, the notes and the artifact half find them. *)
Definition validate (cwd : list bytes) (disk again resolving : Disk) (fs : nat -> Fs) (rest : list bytes)
    : list OutputLine * result unit CliError :=
  let '(resolve, path) := flag_and_path (bs "--resolve") rest in
  match path with
  | None => ([], Err CeUsage)
  | Some path =>
    match validate_manifest_path (M := M) disk path with
    | Err e => ([], Err (CeManifestInvalid e))
    | Ok outcome =>
      let lines := LnManifestOk path (vo_config_version outcome) :: replicate (vo_warnings outcome) LnDevKey in
      let '(notes, noted) := note_restart_only_fields again path in
      let lines := lines ++ notes in
      match noted with
      | Err e => (lines, Err e)
      | Ok _ =>
        if negb resolve then (lines, Ok tt)
        else
          match read_manifest (M := M) resolving path with
          | Err e => (lines, Err (CeManifestInvalid e))
          | Ok (m, _) =>
            match (resolve_manifest cwd (manifest_dir path) (mf_trust m) (mf_filters m) fs 0%nat).1 with
            | Err e => (lines, Err (CeArtifactInvalid e))
            | Ok checks => (lines ++ flat_map check_lines checks, Ok tt)
            end
          end
      end
    end
  end.

(** The address a probe goes to, and the path it asks for. *)
Definition healthz_target (disk : Disk) (a : HealthzArgs) : result bytes CliError :=
  match hz_admin_addr a with
  | Some addr => Ok addr
  | None =>
    match hz_manifest a with
    | None => Err CeUsage
    | Some path =>
      match read_manifest (M := M) disk path with
      | Err _ => Err (CeRead path)
      | Ok (_, c) => match ob_admin_addr (cp_observability c) with Some addr => Ok addr | None => Err CeNoAdminAddr end
      end
    end
  end.

(** [connects] is the stream of reads a socket answers a request with, if it connects and the
    request is written. *)
Definition probe (connects : bytes -> bytes -> option (list (option bytes))) (addr path : bytes) : option Z :=
  sock ← head (so_resolve addr);
  reads ← connects sock (probe_request path addr);
  filled ← probe_read reads [];
  probe_status filled.

Definition healthz (disk : Disk) (connects : bytes -> bytes -> option (list (option bytes))) (rest : list bytes)
    : result OutputLine CliError :=
  match healthz_args rest with
  | None => Err CeUsage
  | Some a =>
    let? addr := healthz_target disk a in
    let probe_path := if hz_live a then bs "/healthz" else bs "/readyz" in
    match probe connects addr probe_path with
    | None => Err (CeProbe addr probe_path)
    | Some status =>
      if (200 <=? status) && (status <? 300) then Ok (LnHealthy probe_path status)
      else Err (CeUnhealthy probe_path status)
    end
  end.
End cli.

(** The battery as a command: every check's verdict, in text or as one JSON line with the check's id and
    the overall verdict, and a failure unless all pass. *)
Inductive ReportLine :=
| RlText (verdict name : bytes) (detail : Detail)
| RlJson (conformant : bool) (checks : list ConformanceCheck).

Inductive ConformanceError := CfUsage | CfRead (path : bytes) | CfNotConformant (path : bytes).

Section conformance.
Context {SK Comp IpNet Key WitWorld S : Type}.
Context `{L : OciLib} `{SL : SignerLib SK} `{TL : TrustLib Key WitWorld}.
Context `{WM : Wasm (Component := Comp) (IpNet := IpNet)} `{EN : Engine S} `{GU : Guest nat S}.
Context (host_new_ok : bool) (available_parallelism : option Z).

Definition conformance (read : bytes -> option bytes) (entropy : nat) (rest : list bytes) (w : World S)
    : list ReportLine * result unit ConformanceError * World S :=
  let '(json, path) := flag_and_path (bs "--json") rest in
  match path with
  | None => ([], Err CfUsage, w)
  | Some path =>
    match read path with
    | None => ([], Err (CfRead path), w)
    | Some component =>
      let '(report, w) := check (SK := SK) (Comp := Comp) (IpNet := IpNet) (Key := Key) (WitWorld := WitWorld)
        host_new_ok available_parallelism entropy component w in
      let lines :=
        if json then [RlJson (is_conformant report) report]
        else map (fun c => RlText (verdict_as_str (cf_verdict c)) (cf_name c) (cf_detail c)) report in
      (lines, if is_conformant report then Ok tt else Err (CfNotConformant path), w)
    end
  end.
End conformance.

(** ** Lemmas *)

Definition graphic (c : ascii) : bool := in_range 33 126 c.

(** The decimal digits of a status code. *)
Definition digit_char (d : Z) : ascii := ascii_of_nat (Z.to_nat (48 + d)).
Definition status_text (status : Z) : bytes :=
  [digit_char (status / 100); digit_char (status / 10 mod 10); digit_char (status mod 10)].

Lemma status_text_ok status : 100 <= status < 1000 ->
  parse_u16 (status_text status) = Some status /\ forallb graphic (status_text status) = true.
Proof.
  intros Hs.
  assert (Hall : forallb (fun s => bool_decide (parse_u16 (status_text s) = Some s) && forallb graphic (status_text s))
    (seqZ 100 900) = true) by (vm_compute; reflexivity).
  rewrite forallb_forall in Hall. specialize (Hall status). rewrite andb_true_iff, bool_decide_eq_true in Hall.
  apply Hall, list_elem_of_In, elem_of_seqZ. lia.
Qed.

Lemma graphic_not_space c s : graphic c = true -> strip_any whitespace (c :: s) = None.
Proof.
  intros Hc.
  assert (Hall : forallb (fun n => implb (graphic (ascii_of_nat n))
    (forallb (fun w => match w with d :: _ => negb (ascii_eqb d (ascii_of_nat n)) | [] => false end) whitespace))
    (seq 0 256) = true) by (vm_compute; reflexivity).
  rewrite forallb_forall in Hall. specialize (Hall (nat_of_ascii c)).
  rewrite ascii_nat_embedding, Hc in Hall. cbn [implb] in Hall.
  assert (Hw : forallb (fun w => match w with d :: _ => negb (ascii_eqb d c) | [] => false end) whitespace = true).
  { apply Hall, in_seq. pose proof (nat_ascii_bounded c). lia. }
  clear Hall. unfold strip_any. revert Hw. generalize whitespace. intros l Hw.
  induction l as [|w ws IH]; [done|]. cbn [forallb] in Hw.
  apply andb_true_iff in Hw as [Hw Hws]. cbn [fold_right].
  destruct w as [|d w]; [done|]. cbn [strip_prefix]. rewrite (IH Hws).
  destruct (ascii_eqb d c); [done|]. done.
Qed.

Lemma words_cons n (w s : bytes) : w <> [] -> forallb graphic w = true ->
  words_fuel (S n) (w ++ " "%char :: s) = w :: words_fuel n (" "%char :: s).
Proof.
  intros Hne Hw. destruct w as [|c w]; [done|]. cbn [forallb] in Hw. apply andb_true_iff in Hw as [Hc Hw].
  assert (Hend : forall w, forallb graphic w = true -> word_end (w ++ " "%char :: s) = (w, " "%char :: s)).
  { clear. induction w as [|c w IH]; [done|]. cbn [forallb]. rewrite andb_true_iff. intros [Hc Hw].
    cbn [app word_end]. by rewrite graphic_not_space, IH. }
  cbn [words_fuel app length trim_start_fuel]. rewrite graphic_not_space by done.
  change (c :: w ++ " "%char :: s) with ((c :: w) ++ " "%char :: s).
  rewrite Hend by (cbn [forallb]; by rewrite Hc). done.
Qed.

Lemma words_space n c s : graphic c = true -> words_fuel n (" "%char :: c :: s) = words_fuel n (c :: s).
Proof.
  intros Hc. destruct n as [|n]; cbn [words_fuel length trim_start_fuel].
  all: change (strip_any whitespace (" "%char :: c :: s)) with (Some (c :: s)); cbv iota.
  all: by rewrite (graphic_not_space c s Hc).
Qed.

Lemma utf8_ascii s : forallb (in_range 0 127) s = true -> utf8_valid s = true.
Proof.
  induction s as [|c s IH]; [done|]. cbn [forallb utf8_valid]. rewrite andb_true_iff. intros [-> ?]. by apply IH.
Qed.

(** What a response starts with up to its reason phrase. *)
Definition response_head (status : Z) : bytes := bs "HTTP/1.1 " ++ status_text status ++ bs " ".

Lemma response_head_length status : length (response_head status) = 13%nat.
Proof. done. Qed.

Lemma probe_status_head status rest : 100 <= status < 1000 -> forallb (in_range 0 127) rest = true ->
  probe_status (response_head status ++ rest) = Some status.
Proof.
  intros Hs Hr. destruct (status_text_ok status Hs) as [Hp Hg]. unfold probe_status.
  assert (Hutf : utf8_valid (response_head status ++ rest) = true).
  { apply utf8_ascii. unfold response_head. rewrite !forallb_app, Hr.
    assert (forallb (in_range 0 127) (status_text status) = true) as ->; [|done].
    rewrite forallb_forall in Hg |- *. intros c Hc. specialize (Hg c Hc). unfold graphic, in_range in *.
    rewrite !andb_true_iff, !Z.leb_le in *. lia. }
  rewrite Hutf. unfold split_whitespace.
  assert (exists n, length (response_head status ++ rest) = S (S n)) as [n ->] by (by eexists).
  assert (E : response_head status ++ rest = bs "HTTP/1.1" ++ " "%char :: status_text status ++ " "%char :: rest) by done.
  rewrite E, words_cons by done.
  assert (Eh : exists c t, status_text status = c :: t /\ graphic c = true).
  { unfold status_text in *. cbn [forallb] in Hg. apply andb_true_iff in Hg as [Hg _]. by eexists _, _. }
  destruct Eh as (c & t & Et & Hc). rewrite Et in *. cbn [app]. rewrite words_space by done.
  change (c :: t ++ " "%char :: rest) with ((c :: t) ++ " "%char :: rest). rewrite words_cons by done.
  exact Hp.
Qed.

Lemma has_crlf_in s : has_crlf s = true -> "013"%char ∈ s.
Proof.
  induction s as [|c s IH]; [done|]. cbn [has_crlf]. rewrite orb_true_iff, andb_true_iff.
  intros [[Hc _]|Hs]; [|right; auto]. apply ascii_eqb_eq in Hc as ->. left.
Qed.

Lemma probe_read_prefix wire chunks filled : filled ++ concat chunks = wire -> Forall (fun c => c <> []) chunks ->
  exists got, probe_read (map Some chunks) filled = Some got /\ got `prefix_of` wire /\
    (PROBE_BUFFER <= length got \/ has_crlf got = true \/ got = wire)%nat.
Proof.
  intros Hw Hne. revert filled Hw. induction Hne as [|chunk chunks Hc _ IH]; intros filled Hw; cbn [probe_read map concat] in *.
  - rewrite app_nil_r in Hw. subst. exists wire. by destruct (_ <=? _)%nat; split_and!; auto.
  - destruct (Nat.leb_spec PROBE_BUFFER (length filled)) as [Hf|Hf].
    { exists filled. split_and!; [done|by eexists|by left]. }
    destruct (take (PROBE_BUFFER - length filled) chunk) as [|x got] eqn:Eg.
    { exfalso. destruct chunk; [done|]. destruct (PROBE_BUFFER - length filled)%nat eqn:?; [lia|done]. }
    rewrite <- Eg. clear Eg x got. set (got := take _ chunk).
    assert (Hp : filled ++ got `prefix_of` wire).
    { exists (drop (PROBE_BUFFER - length filled) chunk ++ concat chunks).
      rewrite <- Hw, <- app_assoc. f_equal. rewrite app_assoc. f_equal. symmetry. apply take_drop. }
    destruct (has_crlf (filled ++ got)) eqn:Ec; [by exists (filled ++ got); split_and!; auto|].
    destruct (decide (length chunk <= PROBE_BUFFER - length filled)%nat) as [Hle|Hgt].
    { unfold got in *. rewrite take_ge in * by done. apply IH. by rewrite <- app_assoc. }
    assert (Hfull : (PROBE_BUFFER <= length (filled ++ got))%nat).
    { unfold got. rewrite length_app, length_take. lia. }
    exists (filled ++ got). split_and!; [|done|by left].
    destruct chunks as [|c chunks]; cbn [map probe_read]; by rewrite (proj2 (Nat.leb_le _ _) Hfull).
Qed.

(** However a response is cut into reads, the probe gets its status. *)
Lemma probe_reads_status status rest chunks : 100 <= status < 1000 -> forallb (in_range 0 127) rest = true ->
  Forall (fun c => c <> []) chunks -> concat chunks = response_head status ++ rest ->
  (probe_read (map Some chunks) [] ≫= probe_status) = Some status.
Proof.
  intros Hs Hr Hne Hw.
  destruct (probe_read_prefix (response_head status ++ rest) chunks [] Hw Hne) as (got & -> & Hp & Hend). cbn.
  assert (response_head status `prefix_of` got) as [tail ->].
  { assert (Hh : response_head status `prefix_of` response_head status ++ rest) by (by eexists).
    destruct (prefix_weak_total _ _ _ Hp Hh) as [Hshort|Hlong]; [|done].
    destruct Hend as [Hfull|[Hcr| ->]]; [| |done].
    - exfalso. apply prefix_length in Hshort. rewrite response_head_length in Hshort. unfold PROBE_BUFFER in Hfull. lia.
    - exfalso. apply has_crlf_in in Hcr. destruct Hshort as [k Hk].
      assert (Hin : "013"%char ∈ response_head status) by (rewrite Hk; apply elem_of_app; by left).
      destruct (status_text_ok status Hs) as [_ Hg]. unfold response_head in Hin.
      rewrite !elem_of_app in Hin. destruct Hin as [Hin|[Hin|Hin]].
      + revert Hin. apply (bool_decide_unpack ("013"%char ∉ bs "HTTP/1.1 ")). vm_compute. exact I.
      + rewrite forallb_forall in Hg. apply list_elem_of_In in Hin. by specialize (Hg _ Hin).
      + revert Hin. apply (bool_decide_unpack ("013"%char ∉ bs " ")). vm_compute. exact I. }
  apply probe_status_head; [done|].
  destruct Hp as [k Hk]. rewrite <- app_assoc in Hk. apply app_inv_head in Hk.
  rewrite Hk, forallb_app in Hr. by apply andb_true_iff in Hr as [? _].
Qed.

(** The self-probe agrees with the server.  Whatever cuts the network makes of the admin endpoint's
    response, the command succeeds on a liveness probe, and on a readiness probe exactly while the
    server is ready and not draining; otherwise it reports the 503 it got. *)
Theorem healthz_agrees_with_admin {M : Type} `{HeaderMap M} {F C SN T Artifact DB : Type} `{Platform M F C SN T Artifact}
    `{SU : StartupLib DB} `{SO : Sockets} (disk : Disk) (connects : bytes -> bytes -> option (list (option bytes)))
    (rest : list bytes) (a : HealthzArgs) (addr sock : bytes) (others : list bytes) (chunks : list bytes)
    (ready drain : bool) (sc : Scraped) (m : ServerMetrics) (headers_and_body : bytes) :
  let path := if hz_live a then bs "/healthz" else bs "/readyz" in
  healthz_args rest = Some a -> healthz_target (M := M) disk a = Ok addr -> so_resolve addr = sock :: others ->
  connects sock (probe_request path addr) = Some (map Some chunks) -> Forall (fun c => c <> []) chunks ->
  concat chunks = response_head (ar_status (admin_handle path ready drain sc m).1) ++ headers_and_body ->
  forallb (in_range 0 127) headers_and_body = true ->
  healthz (M := M) disk connects rest =
    if hz_live a then Ok (LnHealthy path 200)
    else if ready && negb drain then Ok (LnHealthy path 200) else Err (CeUnhealthy path 503).
Proof.
  intros path Ha Ht Hs Hc Hne Hw Hr. unfold healthz, probe. rewrite Ha, Ht. cbn [res_bind]. fold path.
  rewrite Hs. cbn [head mbind option_bind]. rewrite Hc. cbn [mbind option_bind].
  change (match (probe_read (map Some chunks) [] ≫= probe_status) with
    | None => Err (CeProbe addr path)
    | Some status => if (200 <=? status) && (status <? 300) then Ok (LnHealthy path status) else Err (CeUnhealthy path status)
    end = if hz_live a then Ok (LnHealthy path 200)
          else if ready && negb drain then Ok (LnHealthy path 200) else Err (CeUnhealthy path 503)).
  assert (Hst : ar_status (admin_handle path ready drain sc m).1
    = if hz_live a then 200 else if ready && negb drain then 200 else 503).
  { unfold path. by destruct (hz_live a), ready, drain. }
  rewrite Hst in Hw. rewrite (probe_reads_status (if hz_live a then 200 else if ready && negb drain then 200 else 503)
    headers_and_body chunks) by first [done | destruct (hz_live a), ready, drain; cbn; lia].
  by destruct (hz_live a), ready, drain.
Qed.

(** [--lang] and the name in either order. *)
Lemma new_filter_either_order (lang name : bytes) : name <> bs "--lang" ->
  new_filter_args [bs "--lang"; lang; name] = Some (lang, name) /\
  new_filter_args [name; bs "--lang"; lang] = Some (lang, name).
Proof.
  intros Hn. assert (E : bytes_eqb name (bs "--lang") = false).
  { destruct (bytes_eqb name (bs "--lang")) eqn:E; [|done]. by apply bytes_eqb_eq in E. }
  assert (Er : bytes_eqb (bs "--lang") (bs "--lang") = true) by (by apply bytes_eqb_eq).
  unfold new_filter_args. split; cbn [arg_position find_name]; rewrite ?Er, ?E; cbn [fmap option_fmap option_map mbind option_bind lookup list_lookup negb andb].
  - destruct (bytes_eqb lang (bs "--lang")); cbn [negb andb Nat.eqb find_name]; by rewrite ?E.
  - by rewrite ?E.
Qed.

(** ** Witness *)

#[local] Existing Instance alist_headers.

#[local] Instance demo_sockets : Sockets := {| so_parse _ := Some (V4 0 0 0 0); so_resolve addr := [addr] |}.

Definition draining_response : list bytes :=
  [bs "HTTP/1."; bs "1 50"; bs "3 Service Unavailable" ++ CRLF ++ bs "content-length: 9" ++ CRLF ++ CRLF; bs "draining"].

Lemma healthz_agrees_with_admin_witness :
  healthz (M := list (bytes * bytes)) (H0 := pre_platform) (SU := pre_startup) (fun _ => None)
    (fun _ _ => Some (map Some draining_response)) [bs "--admin-addr"; bs "127.0.0.1:9090"]
  = Err (CeUnhealthy (bs "/readyz") 503).
Proof.
  apply (healthz_agrees_with_admin (M := list (bytes * bytes)) (H0 := pre_platform) (SU := pre_startup) (fun _ => None)
    (fun _ _ => Some (map Some draining_response)) [bs "--admin-addr"; bs "127.0.0.1:9090"]
    (mkHealthzArgs false (Some (bs "127.0.0.1:9090")) None) (bs "127.0.0.1:9090") (bs "127.0.0.1:9090") [] draining_response
    true true (mkScraped [] (mkMetrics 0 0 0 0) inline_new None None [] ∅ 0) server_metrics_new
    (bs "Service Unavailable" ++ CRLF ++ bs "content-length: 9" ++ CRLF ++ CRLF ++ bs "draining")); try reflexivity.
  repeat constructor; discriminate.
Defined.
