(* ===== verification/Scaffold.v ===== *)
(** * The filter scaffold (plecto/src/new_filter.rs, plecto/src/dev_key.rs)

    [plecto new-filter]: the name check, the crate and manifest written for a name, and the
    rollback of a scaffold that failed half way.  The embedded templates and the contract text are
    parameters; so is whether each file call succeeds. *)

From S2P Require Import Prelude Bytes Manifest Filesystem Oci Provenance DevSign.

(** ** Text *)

(** [str::replacen] of a non-empty pattern: occurrences from the left that do not overlap. *)
Fixpoint replacen (fuel : nat) (limit : nat) (from to s : bytes) : bytes :=
  match fuel, limit with
  | O, _ | _, O => s
  | S fuel, S limit' =>
    match strip_prefix from s with
    | Some rest => to ++ replacen fuel limit' from to rest
    | None => match s with [] => [] | c :: s => c :: replacen fuel limit from to s end
    end
  end.
(** [str::replace]; a text has no more occurrences, and no more rounds, than bytes. *)
Definition str_replace (from to s : bytes) : bytes := replacen (length s) (length s) from to s.

(** A literal with its double quotes written as tildes. *)
Definition quoted (s : string) : bytes := map (fun c => if ascii_eqb c "~" then "034"%char else c) (bs s).

(** ** Names *)

Definition is_lower_ascii (c : ascii) : bool := in_range 97 122 c.
Definition is_digit_ascii (c : ascii) : bool := in_range 48 57 c.
Definition HYPHEN : ascii := "-".

Definition validate_name (name : bytes) : bool :=
  negb (bytes_eqb name [])
  && forallb (fun c => is_lower_ascii c || is_digit_ascii c || ascii_eqb c HYPHEN) name
  && negb (starts_with_byte HYPHEN name)
  && negb (ends_with_byte HYPHEN name).

(** Of ASCII text: the first character of each hyphenated word in upper case. *)
Definition capitalize (word : bytes) : bytes :=
  match word with c :: rest => to_upper_byte c :: rest | [] => [] end.
Definition FILTER : bytes := bs "Filter".
Definition pascal_case (kebab : bytes) : bytes :=
  let out := concat (map capitalize (split_on HYPHEN kebab)) in
  if starts_with (reverse FILTER) (reverse out) then out else out ++ FILTER.

(** ** The files *)

Definition DEV_KEY_DIR : bytes := bs ".plecto".
Definition DEV_KEY_NAME : bytes := bs "dev-key".

(** The dev key's public half, from the filter's directory. *)
Definition dev_key_rel : bytes := bs "../" ++ DEV_KEY_DIR ++ bs "/" ++ public_key_path_for DEV_KEY_NAME.

Definition dev_manifest_toml (name dev_key_rel : bytes) : bytes :=
  quoted "# Generated by `plecto new-filter` (ADR 000065): a dev manifest trusting your project's
# .plecto/dev-key. `plecto dev` rewrites [[filter]].digest below on every rebuild — the rest is
# yours to edit. See docs/writing-a-filter.md for the full field reference.

[trust]
keys = [~" ++ dev_key_rel ++ quoted "~]

[[filter]]
id = ~" ++ name ++ quoted "~
source = ~artifacts/" ++ name ++ quoted "~   # plecto dev writes the built component's OCI layout here
digest = ~sha256:PENDING~     # plecto dev fills this in after the first successful build
isolation = ~untrusted~

[[upstream]]
name = ~app~
addresses = [~127.0.0.1:9000~]
[upstream.health]
path = ~/healthz~

[[route]]
filters = [~" ++ name ++ quoted "~]
upstream = ~app~
[route.match]
path_prefix = ~/~
".

(** A filter's directory: its files by their paths in it. *)
Definition Crate : Type := gmap bytes bytes.

Inductive Entry := EnCrate (files : Crate) | EnOther.

(** The project's directory: its entries, the dev key's directory and the ignore file. *)
Record Project := mkProject {
  pj_entries : gmap bytes Entry;
  pj_key : KeyDir;
  pj_ignore : option bytes;
}.

Inductive ScaffoldError := ScLanguage | ScName | ScExists | ScCall (step : nat) | ScDevKey.

Section scaffold.
Context {SK : Type} `{SL : SignerLib SK}.
Context (TEMPLATE_CARGO_TOML TEMPLATE_LIB_RS FILTER_WIT : bytes).

Definition cargo_toml (name : bytes) : bytes :=
  replacen (length TEMPLATE_CARGO_TOML) 1 (quoted "name = ~my-filter~") (quoted "name = ~" ++ name ++ quoted "~") TEMPLATE_CARGO_TOML.

Definition lib_rs (name : bytes) : bytes :=
  str_replace (bs "blocked by my-filter") (bs "blocked by " ++ name)
    (str_replace (bs "my-filter: on-request") (name ++ bs ": on-request")
      (str_replace (bs "MyFilter") (pascal_case name) TEMPLATE_LIB_RS)).

(** The calls made below the new directory, in order. *)
Inductive Step := StDirs | StWrite (path content : bytes).
Definition crate_steps (name : bytes) : list Step :=
  [StDirs; StWrite (bs "Cargo.toml") (cargo_toml name); StWrite (bs "src/lib.rs") (lib_rs name); StDirs;
   StWrite (bs "wit/world.wit") FILTER_WIT].

(** Run calls until one fails: the files then, and the call that failed. *)
Fixpoint run_steps (calls_ok : nat -> bool) (at_ : nat) (steps : list Step) (files : Crate) : Crate * option nat :=
  match steps with
  | [] => (files, None)
  | step :: steps =>
    if calls_ok at_ then
      run_steps calls_ok (S at_) steps (match step with StDirs => files | StWrite path content => <[path := content]> files end)
    else (files, Some at_)
  end.

(** [scaffold]: the crate as it is left, the key's directory and the ignore file, and the signer. *)
Definition scaffold (umask : Z) (calls_ok key_calls_ok : nat -> bool) (ignore_ok : bool) (entropy : nat) (name : bytes)
    (key : KeyDir) (ignore : option bytes) : Crate * KeyDir * option bytes * result (DevSigner SK) ScaffoldError :=
  match run_steps calls_ok 0 (crate_steps name) ∅ with
  | (files, Some step) => (files, key, ignore, Err (ScCall step))
  | (files, None) =>
    let '(states, ignore, signer) :=
      load_or_create_dev_signer umask key_calls_ok ignore_ok entropy DEV_KEY_NAME key ignore in
    let key := final key states in
    match signer with
    | None => (files, key, ignore, Err ScDevKey)
    | Some signer =>
      match run_steps calls_ok 5 [StWrite (bs "manifest.toml") (dev_manifest_toml name dev_key_rel)] files with
      | (files, Some step) => (files, key, ignore, Err (ScCall step))
      | (files, None) => (files, key, ignore, Ok signer)
      end
    end
  end.

(** [run] of new_filter.rs: the checks, the scaffold, and on a failure the removal of what it left.  [made] tells whether
    a failing first call left the directory behind; a file a failed write leaves is not represented. *)
Definition new_filter_run (umask : Z) (calls_ok key_calls_ok : nat -> bool) (ignore_ok made remove_ok : bool) (entropy : nat)
    (lang name : bytes) (p : Project) : Project * result (DevSigner SK) ScaffoldError :=
  if negb (bytes_eqb lang (bs "rust")) then (p, Err ScLanguage)
  else if negb (validate_name name) then (p, Err ScName)
  else
    match pj_entries p !! name with
    | Some _ => (p, Err ScExists)
    | None =>
      let '(files, key, ignore, r) :=
        scaffold umask calls_ok key_calls_ok ignore_ok entropy name (pj_key p) (pj_ignore p) in
      let with_crate := <[name := EnCrate files]> (pj_entries p) in
      match r with
      | Ok signer => (mkProject with_crate key ignore, Ok signer)
      | Err e =>
        let left := if (calls_ok 0%nat || made) && negb remove_ok then with_crate else pj_entries p in
        (mkProject left key ignore, Err e)
      end
    end.
End scaffold.

(** ** Properties *)

Section properties.
Context {SK : Type} `{SL : SignerLib SK}.
Context (cargo librs wit : bytes).

Lemma run_steps_done calls_ok at_ steps files files' :
  run_steps calls_ok at_ steps files = (files', None) ->
  files' = foldl (fun fs step => match step with StDirs => fs | StWrite path content => <[path := content]> fs end) files steps.
Proof.
  revert at_ files. induction steps as [|step steps IH]; intros at_ files; cbn [run_steps foldl]; [by intros [= <-]|].
  destruct (calls_ok at_); [apply IH|done].
Qed.

(** What a successful scaffold left. *)
Lemma scaffold_done umask calls_ok key_calls_ok ignore_ok entropy name key ignore files key' ignore' (signer : DevSigner SK) :
  scaffold cargo librs wit umask calls_ok key_calls_ok ignore_ok entropy name key ignore = (files, key', ignore', Ok signer) ->
  files = <[bs "manifest.toml" := dev_manifest_toml name dev_key_rel]> (<[bs "wit/world.wit" := wit]>
    (<[bs "src/lib.rs" := lib_rs librs name]> (<[bs "Cargo.toml" := cargo_toml cargo name]> ∅))) /\
  ignore' = gitignore_after ignore.
Proof.
  unfold scaffold. destruct (run_steps calls_ok 0 _ _) as [files1 [step|]] eqn:E1; [done|].
  destruct (load_or_create_dev_signer _ _ _ _ _ _ _) as [[states ig] [s|]] eqn:Ek; [|done].
  destruct (run_steps calls_ok 5 _ _) as [files2 [step|]] eqn:E2; [done|]. intros [= <- <- <- <-].
  apply run_steps_done in E1, E2. apply signer_only_ignored in Ek as [-> _]. split; [|done]. rewrite E2, E1. reflexivity.
Qed.

(** A failing scaffold does not fail in one of the first checks. *)
Lemma scaffold_error umask calls_ok key_calls_ok ignore_ok entropy name key ignore files key' ignore' e :
  scaffold (SK := SK) cargo librs wit umask calls_ok key_calls_ok ignore_ok entropy name key ignore = (files, key', ignore', Err e) ->
  match e with ScCall _ | ScDevKey => True | _ => False end.
Proof. unfold scaffold. intros E. repeat case_match; simplify_eq; done. Qed.

(** A scaffold is whole or gone.  Whatever call fails, the other entries of the project are as they
    were; a success leaves the four files of the name that did not exist before, beside a signer
    whose key is ignored by version control; a failure whose rollback works leaves no directory, so a
    retry is not refused; and a refused language, name or existing entry changes nothing at all. *)
Theorem scaffold_whole_or_gone (umask : Z) (calls_ok key_calls_ok : nat -> bool) (ignore_ok made remove_ok : bool)
    (entropy : nat) (lang name : bytes) (p p' : Project) (r : result (DevSigner SK) ScaffoldError) :
  new_filter_run cargo librs wit umask calls_ok key_calls_ok ignore_ok made remove_ok entropy lang name p = (p', r) ->
  (forall other, other <> name -> pj_entries p' !! other = pj_entries p !! other) /\
  match r with
  | Ok _ =>
    lang = bs "rust" /\ validate_name name = true /\ pj_entries p !! name = None /\
    pj_entries p' !! name = Some (EnCrate (list_to_map
      [(bs "manifest.toml", dev_manifest_toml name dev_key_rel); (bs "wit/world.wit", wit);
       (bs "src/lib.rs", lib_rs librs name); (bs "Cargo.toml", cargo_toml cargo name)])) /\
    exists c, pj_ignore p' = Some c /\ ignored c
  | Err ScLanguage | Err ScName | Err ScExists => p' = p
  | Err _ => remove_ok = true -> pj_entries p' !! name = None
  end.
Proof.
  unfold new_filter_run. destruct (bytes_eqb lang (bs "rust")) eqn:El; cbn [negb]; [|by intros [= <- <-]].
  destruct (validate_name name) eqn:Ev; cbn [negb]; [|by intros [= <- <-]].
  destruct (pj_entries p !! name) as [e|] eqn:Ee; [by intros [= <- <-]|].
  destruct (scaffold _ _ _ _ _ _ _ _ _ _ _) as [[[files key] ignore] [signer|e]] eqn:Es; intros [= <- <-]; cbn [pj_entries pj_ignore].
  - split; [intros other Hne; by rewrite lookup_insert_ne|]. apply bytes_eqb_eq in El.
    apply scaffold_done in Es as [-> ->]. split_and!; [done|done|done|by rewrite lookup_insert_eq|].
    destruct (gitignore_entry_kept (pj_ignore p)) as (c & -> & _ & Hc & _). by exists c.
  - split; [intros other Hne; case_match; [by rewrite lookup_insert_ne|done]|].
    apply scaffold_error in Es. destruct e; try done; intros ->; by rewrite andb_false_r.
Qed.
End properties.

(** ** Names *)

Definition is_upper_ascii (c : ascii) : bool := in_range 65 90 c.
Definition is_alnum_ascii (c : ascii) : bool := is_lower_ascii c || is_digit_ascii c || is_upper_ascii c.
Definition plain (c : ascii) : bool := is_lower_ascii c || is_digit_ascii c || ascii_eqb c HYPHEN.

Lemma byte_case (P : ascii -> bool) : forallb (fun n => P (ascii_of_nat n)) (seq 0 256) = true -> forall c, P c = true.
Proof.
  rewrite forallb_forall. intros H c. rewrite <- (ascii_nat_embedding c). apply H, in_seq.
  pose proof (nat_ascii_bounded c). lia.
Qed.

Lemma plain_upper c : implb (is_lower_ascii c || is_digit_ascii c) (is_alnum_ascii (to_upper_byte c)) = true.
Proof. revert c. apply byte_case. vm_compute. reflexivity. Qed.
Lemma lower_upper c : implb (is_lower_ascii c) (is_upper_ascii (to_upper_byte c)) = true.
Proof. revert c. apply byte_case. vm_compute. reflexivity. Qed.

Lemma split_on_plain (P : ascii -> bool) s : forallb (fun c => P c || ascii_eqb c HYPHEN) s = true ->
  Forall (fun w => forallb P w = true) (split_on HYPHEN s).
Proof.
  induction s as [|c s IH]; [by repeat constructor|]. cbn [forallb split_on]. rewrite andb_true_iff, orb_true_iff.
  intros [Hc Hs]. specialize (IH Hs). destruct (ascii_eqb c HYPHEN) eqn:Eh.
  - by constructor.
  - destruct (split_on HYPHEN s) as [|w ws]; [by repeat constructor; cbn; destruct Hc as [->|]|].
    inversion IH; subst. constructor; [|done]. cbn [forallb]. destruct Hc as [->|]; done.
Qed.

Lemma capitalize_alnum w : forallb (fun c => is_lower_ascii c || is_digit_ascii c) w = true ->
  forallb is_alnum_ascii (capitalize w) = true.
Proof.
  destruct w as [|c w]; [done|]. cbn [forallb capitalize]. rewrite !andb_true_iff. intros [Hc Hw]. split.
  - pose proof (plain_upper c) as Hp. by rewrite Hc in Hp.
  - rewrite forallb_forall in Hw |- *. intros x Hx. unfold is_alnum_ascii. by rewrite (Hw x Hx).
Qed.

(** The struct a name becomes.  An accepted name that starts with a letter gives a Rust identifier: a
    capital, then letters and digits, the suffix appearing once at the end where the name lacked it. *)
Theorem pascal_case_identifier (name : bytes) (c : ascii) (rest : bytes) :
  validate_name name = true -> name = c :: rest -> is_lower_ascii c = true ->
  exists d tail, pascal_case name = d :: tail /\ is_upper_ascii d = true /\
    forallb is_alnum_ascii (d :: tail) = true /\ FILTER `suffix_of` d :: tail.
Proof.
  unfold validate_name. rewrite !andb_true_iff. intros [[[_ Hall] _] _] -> Hc.
  pose proof (split_on_plain (fun c => is_lower_ascii c || is_digit_ascii c) (c :: rest) Hall) as Hw.
  assert (Hout : forallb is_alnum_ascii (concat (map capitalize (split_on HYPHEN (c :: rest)))) = true).
  { clear -Hw. induction Hw as [|w ws Hw _ IH]; [done|]. cbn [map concat]. by rewrite forallb_app, capitalize_alnum, IH. }
  assert (Hhead : exists tail, concat (map capitalize (split_on HYPHEN (c :: rest))) = to_upper_byte c :: tail).
  { cbn [split_on]. assert (ascii_eqb c HYPHEN = false) as ->.
    { destruct (ascii_eqb c HYPHEN) eqn:E; [|done]. apply ascii_eqb_eq in E as ->. done. }
    destruct (split_on HYPHEN rest) as [|w ws]; by eexists. }
  destruct Hhead as [tail Et]. unfold pascal_case. rewrite Et in *.
  pose proof (lower_upper c) as Hu. rewrite Hc in Hu. cbn [implb] in Hu.
  destruct (starts_with (reverse FILTER) (reverse (to_upper_byte c :: tail))) eqn:Es.
  - exists (to_upper_byte c), tail. split_and!; [done|done|done|].
    unfold starts_with in Es. apply bool_decide_eq_true in Es as [k Hk]. apply strip_prefix_Some in Hk.
    exists (reverse k). rewrite <- (reverse_involutive (to_upper_byte c :: tail)), Hk, reverse_app.
    by rewrite reverse_involutive.
  - exists (to_upper_byte c), (tail ++ FILTER). split_and!; [done|done| |by exists (to_upper_byte c :: tail)].
    change (to_upper_byte c :: tail ++ FILTER) with ((to_upper_byte c :: tail) ++ FILTER).
    by rewrite forallb_app, Hout.
Qed.

(** The name check also accepts a leading digit, which neither a Cargo package nor a struct may have. *)
Example leading_digit_accepted :
  validate_name (bs "2fa") = true /\ pascal_case (bs "2fa") = bs "2faFilter".
Proof. by vm_compute. Qed.

(** The manifest's trust path leads from the new directory to the project's public key. *)
Lemma dev_key_rel_resolves (fs : Fs) (root : list bytes) (content : bytes) :
  fs !! (root ++ [DEV_KEY_DIR]) = Some NDir ->
  fs !! (root ++ [DEV_KEY_DIR; public_key_path_for DEV_KEY_NAME]) = Some (NFile content) ->
  forall name, canonicalize (root ++ [name]) fs dev_key_rel = Some (root ++ [DEV_KEY_DIR; public_key_path_for DEV_KEY_NAME]).
Proof.
  intros Hd Hf name. unfold canonicalize.
  change (components dev_key_rel) with [CParent; CNormal DEV_KEY_DIR; CNormal (public_key_path_for DEV_KEY_NAME)].
  rewrite walk_unfold, removelast_last, walk_unfold, Hd, walk_unfold, <- app_assoc. cbn [app]. by rewrite Hf.
Qed.

(** ** Witnesses *)

#[local] Existing Instance demo_signer.

Definition fresh_project : Project := mkProject (<[bs "README.md" := EnOther]> ∅) None None.

(** The name's manifest cannot be written: the directory is removed and the key kept. *)
Lemma scaffold_whole_or_gone_witness :
  let '(p', r) := new_filter_run (bs "name = my-filter") (bs "struct MyFilter;") (bs "package plecto:filter;") 18 (fun n => n <? 5)%nat
    (fun _ => true) true true true 2 (bs "rust") (bs "my-auth") fresh_project in
  pj_entries p' !! bs "my-auth" = None /\ pj_entries p' !! bs "README.md" = Some EnOther.
Proof.
  destruct (new_filter_run _ _ _ _ _ _ _ _ _ _ _ _ _) as [p' r] eqn:E.
  assert (Er : r = Err (ScCall 5%nat)) by (vm_compute in E; injection E as _ <-; reflexivity).
  pose proof (scaffold_whole_or_gone _ _ _ _ _ _ _ _ _ _ _ _ _ _ _ E) as [Hother Hr]. rewrite Er in Hr.
  split; [by apply Hr|]. rewrite Hother by discriminate. vm_compute. reflexivity.
Defined.

Lemma pascal_case_identifier_witness :
  pascal_case (bs "my-auth-filter") = bs "MyAuthFilter" /\
  exists d tail, pascal_case (bs "my-auth-filter") = d :: tail /\ is_upper_ascii d = true.
Proof.
  split; [vm_compute; reflexivity|].
  destruct (pascal_case_identifier (bs "my-auth-filter") "m"%char (bs "y-auth-filter")) as (d & tail & Ep & Hu & _);
    [reflexivity..|]. by exists d, tail.
Defined.
