(* ===== verification/AccessLog.v ===== *)
(** * What a transaction records of itself (server/src/proxy.rs, server/src/access_log.rs)

    The transaction core with its access-log event and its request span.  The fields are captured
    before the core consumes the request and completed from what the client is answered with; both
    records are values here, and the core's own definition is the one of [Transaction]. *)

From S2P Require Import Prelude Bytes Ssrf Paths Weighted RateLimit Chain Headers Manifest Upstream.
From S2P Require Import Balancer Registry Route RouteTable Control Forward Compression Body Respond Transaction.
From S2P Require Import HostApi Contract Filter Observe Otlp Metrics.

(** [Uri::path] of the request target: what precedes the query, ["/"] when that is empty, and nothing for
    a target that has no path. *)
Definition uri_path (path_and_query : option bytes) : bytes :=
  match path_and_query with
  | None => []
  | Some pq =>
    let path := match split_once "?" pq with Some (p, _) => p | None => pq end in
    match path with [] => bs "/" | _ => path end
  end.

(** The fields captured, and the event. *)
Record Access := mkAccess { ac_method : bytes; ac_authority : bytes; ac_path : bytes }.
Record Outcome := mkOutcome { oc_route : bytes; oc_status : Z; oc_elapsed : Z; oc_skipped : option bytes }.
Record AccessEvent := mkEvent {
  ae_client : IpAddr;
  ae_scheme : bytes;
  ae_access : Access;
  ae_route : bytes;
  ae_status : Z;
  ae_duration_ms : Z;
  ae_trace_id : bytes;
  ae_span_id : bytes;
  ae_skipped : option bytes;
}.

(** [record]; durations are nanoseconds. *)
Definition record (scheme : bytes) (client : IpAddr) (access : Access) (outcome : Outcome) (trace : RequestTrace)
    : AccessEvent :=
  mkEvent client scheme access (oc_route outcome) (oc_status outcome) (wrap64 (oc_elapsed outcome / 10 ^ 6))
    (hex_encode (tr_trace_id trace)) (hex_encode (tr_request_span_id trace)) (oc_skipped outcome).

Inductive JournalEntry := JeAccess (e : AccessEvent) | JeSpan (s : SpanRecord).

(** What the process lends a transaction: the identifier seed and counter, the wall clock when it starts
    and the time it takes. *)
Record Timing := mkTiming { ti_seed : Z; ti_next : Z; ti_started : Z; ti_elapsed : Z }.

Section journal.
Context {M : Type} `{HeaderMap M} {A : Type} `{AuthorityLib A}.
Context {T F C SN P W E : Type} `{FilterHost F W} `{Server M T (Group C SN) P W} `{Codec E}.
Context (builder_ok : bytes -> bytes -> bool) (hm_empty : M) (value_from_str : bytes -> option bytes).
Context {IpNet : Type} (contains : IpNet -> IpAddr -> bool).
Context (parse_ip : bytes -> option IpAddr) (show_ip : IpAddr -> bytes).
Context (routes : list (CompiledRoute F (Group C SN))).

(** The head as a normalisation leaves it, a failed one included: the canonical [Host] may already be set
    when the target cannot be rebuilt. *)
Definition parts_after (p : Parts M) (wire_scheme : bytes) : Parts M :=
  match normalize_ingress_authority (A := A) p wire_scheme with
  | Some p => p
  | None =>
    match ingress_authority p wire_scheme with
    | Some (_, _, Some authority) =>
      match parse_value authority with
      | Some value => with_headers p (hm_insert (pt_headers p) H_HOST value)
      | None => p
      end
    | _ => p
    end
  end.

(** The inbound trace continued, or a new root. *)
Definition trace_of (t : Timing) (headers : M) : RequestTrace :=
  let fresh := (root (ti_seed t) (ti_next t)).1 in
  match hm_get headers (bs "traceparent") with
  | Some v =>
    match to_str v with
    | Some s => default fresh (from_traceparent s (ti_next t)).1
    | None => fresh
    end
  | None => fresh
  end.

(** [proxy_core_with_conn_guards]; [access_log] and [otlp] tell whether the log and the exporter are on. *)
Definition proxy_core_logged (access_log otlp : bool) (t : Timing) (trusted : option (list IpNet)) (scheme : bytes)
    (peer : IpAddr) (q : Transaction.Request M T) (s : Tx M T P W)
    : result (Delivered M T E) ServerError * Tx M T P W * list JournalEntry :=
  let '(admitted, w) := sv_admit (tx_world s) in
  let s := mkTx w (tx_attribution s) (tx_attempts s) in
  if negb admitted then
    let '(r, s) := (do! _ <- metric (MRequest UNMATCHED_ROUTE 503);
      ret (Transaction.plain (synth hm_empty 503 (bs "request-overloaded") (bs "server overloaded")))) s in
    (r, s, [])
  else
    let s := (metric (MInFlight 1) s).2 in
    let '(client, headers) := set_forwarded contains parse_ip show_ip (pt_headers (q_parts q)) peer scheme trusted in
    let parts := with_headers (q_parts q) headers in
    let authority_valid := normalize_ingress_authority (A := A) parts scheme in
    let parts := parts_after parts scheme in
    let access := mkAccess (q_method q) (request_authority parts) (uri_path (q_path_and_query q)) in
    let trace := trace_of t (pt_headers parts) in
    let '(result, s) :=
      match authority_valid with
      | Some parts =>
        proxy_core_inner builder_ok hm_empty value_from_str routes (to_traceparent trace) scheme client (with_parts q parts) s
      | None => ret (Transaction.plain (synth hm_empty 400 (bs "bad-authority") (bs "bad request authority"))) s
      end in
    let s := (metric (MInFlight (-1)) s).2 in
    let status := match result with Ok d => re_status (dl_response d) | Err _ => 502 end in
    let route_name := default UNMATCHED_ROUTE (at_route (tx_attribution s)) in
    let outcome := mkOutcome route_name status (ti_elapsed t) (skip_as_str <$> at_skipped (tx_attribution s)) in
    let '(result, s) := report result s in
    (result, s,
     (if access_log then [JeAccess (record scheme client access outcome trace)] else []) ++
     (if otlp && is_sampled trace
      then [JeSpan (request_span trace (q_method q) (uri_path (q_path_and_query q)) scheme status (ti_started t) (ti_elapsed t))]
      else [])).

(** ** The records agree with the transaction *)

Lemma uri_path_no_query pq : "?"%char ∉ uri_path pq.
Proof.
  unfold uri_path. destruct pq as [pq|]; [|apply not_elem_of_nil].
  assert (Hp : "?"%char ∉ match split_once "?" pq with Some (p, _) => p | None => pq end).
  { induction pq as [|c pq IH]; [apply not_elem_of_nil|]. cbn [split_once].
    destruct (ascii_eqb c "?") eqn:Eq; [apply not_elem_of_nil|].
    assert (Hc : "?"%char <> c) by (intros <-; by rewrite (proj2 (ascii_eqb_eq _ _) eq_refl) in Eq).
    destruct (split_once "?" pq) as [[p r]|]; rewrite not_elem_of_cons; by split. }
  destruct (match split_once "?" pq with Some _ => _ | None => _ end); [|done].
  apply (bool_decide_unpack ("?"%char ∉ bs "/")). vm_compute. exact I.
Qed.

(** Recording changes no transaction and agrees with it.  The answer, the world and the attempts are
    those of the core under the trace recorded; a refused request leaves no record; an admitted one
    leaves exactly one event when the log is on and one span when it is exported and sampled.  Both
    name the same trace and span and the status the client receives; the event's route and status
    are those just counted, its client is the attributed one, and its path shows no query. *)
Theorem journal_agrees (access_log otlp : bool) (t : Timing) (trusted : option (list IpNet)) (alt_svc : option bytes)
    (scheme : bytes) (peer : IpAddr) (q : Transaction.Request M T) (w : W) :
  let s0 := mkTx w (mkAttribution None None) [] in
  let '(r, s, journal) := proxy_core_logged access_log otlp t trusted scheme peer q s0 in
  exists trace,
    (r, s) = proxy_core (A := A) builder_ok hm_empty value_from_str contains parse_ip show_ip routes
      (to_traceparent trace) trusted scheme peer q s0 /\
    let d := (handle (A := A) builder_ok hm_empty value_from_str contains parse_ip show_ip routes
      (to_traceparent trace) trusted alt_svc scheme peer q w).1 in
    if (sv_admit w).1 then
      exists e sp,
        journal = (if access_log then [JeAccess e] else []) ++ (if otlp && is_sampled trace then [JeSpan sp] else []) /\
        ae_status e = re_status (dl_response d) /\
        mkKeyValue (bs "http.response.status_code") (VI64 (re_status (dl_response d))) ∈ sr_attributes sp /\
        ae_trace_id e = hex_encode (sr_trace_id sp) /\ ae_span_id e = hex_encode (sr_span_id sp) /\
        (exists w', tx_world s = sv_metric (MRequest (ae_route e) (ae_status e)) w') /\
        ae_client e = (set_forwarded contains parse_ip show_ip (pt_headers (q_parts q)) peer scheme trusted).1 /\
        "?"%char ∉ ac_path (ae_access e)
    else journal = [].
Proof.
  cbv zeta. unfold proxy_core_logged. cbn [tx_world tx_attribution tx_attempts].
  destruct (sv_admit w) as [[] w1] eqn:Ea; cbn [negb fst].
  2: { destruct ((do! _ <- metric _; _) _) as [r s] eqn:Er. exists (root 0 0).1. split; [|done].
    unfold proxy_core. cbn [bind ask step run tx_world]. rewrite Ea. cbn [negb]. rewrite <- Er. reflexivity. }
  destruct (set_forwarded _ _ _ _ _ _ _) as [client headers] eqn:Ef.
  set (parts := with_headers (q_parts q) headers).
  set (trace := trace_of t (pt_headers (parts_after parts scheme))).
  set (s1 := (metric (MInFlight 1) _).2).
  destruct (match normalize_ingress_authority parts scheme with Some _ => _ | None => _ end) as [result s2] eqn:Ei.
  set (s2' := (metric (MInFlight (-1)) s2).2).
  destruct (report result s2') as [r s3] eqn:Er. exists trace.
  assert (Hcore : (r, s3) = proxy_core (A := A) builder_ok hm_empty value_from_str contains parse_ip show_ip routes
    (to_traceparent trace) trusted scheme peer q (mkTx w (mkAttribution None None) [])).
  { unfold proxy_core. cbn [bind ask step run tx_world tx_attribution tx_attempts]. rewrite Ea. cbn [negb bind run].
    change (metric (MInFlight 1) (mkTx w1 (mkAttribution None None) [])) with (@Ok unit ServerError tt, s1).
    cbv iota beta. rewrite Ef. fold parts. cbv zeta. cbn [bind attempt finally run].
    destruct (normalize_ingress_authority parts scheme) as [parts'|]; rewrite Ei; fold s2'; by rewrite Er. }
  split; [done|]. unfold handle. rewrite <- Hcore. cbn [fst dl_response re_status].
  assert (Hst : re_status (dl_response match r with Ok d => d | Err _ => Transaction.plain (upstream_error hm_empty) end)
    = match result with Ok d => re_status (dl_response d) | Err _ => 502 end).
  { unfold report in Er. destruct result; cbn in Er; injection Er as <- _; done. }
  rewrite Hst. eexists _, _. split; [reflexivity|]. cbn [ae_status ae_trace_id ae_span_id ae_route ae_client ae_access
    sr_attributes sr_trace_id sr_span_id record request_span oc_status oc_route ac_path].
  split_and!; [done|set_solver|done|done| |done|apply uri_path_no_query].
  unfold report in Er. destruct result; cbn in Er; injection Er as _ <-; cbn [tx_world]; by eexists.
Qed.
End journal.
