(* ===== verification/Process.v ===== *)
(** * What the process asks of the operating system (server/src/lib.rs)

    The descriptor limit raised and the allocator's arenas capped when the binary starts.  A resource
    limit is a pair of unsigned 64-bit integers, the arena cap a signed 32-bit one. *)

From S2P Require Import Prelude Bytes Headers Listener.

(** ** The arena cap *)

Definition DEFAULT_MALLOC_ARENA_MAX : Z := 32.

(** [str::parse::<i32>]: each digit is added away from zero, so the least value is accepted. *)
Fixpoint parse_signed_digits (sign acc : Z) (s : bytes) : option Z :=
  match s with
  | [] => Some acc
  | c :: s =>
    d ← digit_val c;
    let acc := acc * 10 + sign * d in
    if (- 2 ^ 31 <=? acc) && (acc <? 2 ^ 31) then parse_signed_digits sign acc s else None
  end.

Definition parse_i32 (s : bytes) : option Z :=
  let '(sign, digits) :=
    match s with
    | c :: s' => if ascii_eqb c "+" then (1, s') else if ascii_eqb c "-" then (-1, s') else (1, s)
    | [] => (1, s)
    end in
  match digits with [] => None | _ => parse_signed_digits sign 0 digits end.

Definition parse_malloc_arena_max (raw : option bytes) : Z := default DEFAULT_MALLOC_ARENA_MAX (raw ≫= parse_i32).

(** [apply_arena_cap] off glibc and on it: the cap [mallopt] is called with. *)
Definition apply_arena_cap (glibc : bool) (max : Z) : option Z := if glibc && negb (max <=? 0) then Some max else None.

Definition cap_malloc_arenas (glibc : bool) (env : option bytes) : option Z := apply_arena_cap glibc (parse_malloc_arena_max env).

Lemma parse_signed_digits_bound sign : forall s acc v, - 2 ^ 31 <= acc < 2 ^ 31 ->
  parse_signed_digits sign acc s = Some v -> - 2 ^ 31 <= v < 2 ^ 31.
Proof.
  induction s as [|c s IH]; intros acc v Ha; [by intros [= <-]|]. cbn. destruct (digit_val c) as [d|]; [|done]. cbn.
  destruct (Z.leb_spec (- 2 ^ 31) (acc * 10 + sign * d)); [|done].
  destruct (Z.ltb_spec (acc * 10 + sign * d) (2 ^ 31)); [|done]. by apply IH.
Qed.

(** The cap asked of the allocator is a positive 32-bit integer, and the default unless the environment
    spells another. *)
Theorem arena_cap_sound (glibc : bool) (env : option bytes) (max : Z) :
  cap_malloc_arenas glibc env = Some max ->
  glibc = true /\ 0 < max < 2 ^ 31 /\ (max <> DEFAULT_MALLOC_ARENA_MAX -> exists s, env = Some s /\ parse_i32 s = Some max).
Proof.
  unfold cap_malloc_arenas, apply_arena_cap, parse_malloc_arena_max. destruct glibc; [|done]. cbn [andb].
  destruct (Z.leb_spec (default DEFAULT_MALLOC_ARENA_MAX (env ≫= parse_i32)) 0) as [|Hp]; [discriminate|]. cbn [negb].
  unfold DEFAULT_MALLOC_ARENA_MAX in *. intros [= <-].
  split; [done|]. destruct env as [s|]; cbn in *; [|split; [lia|congruence]].
  destruct (parse_i32 s) as [v|] eqn:Ep; cbn in *; [|split; [lia|congruence]]. split; [|by exists s].
  split; [done|]. unfold parse_i32 in Ep. destruct (match s with [] => _ | _ => _ end) as [sign [|c digits]]; [done|].
  apply parse_signed_digits_bound in Ep; lia.
Qed.

Lemma arena_cap_sound_witness :
  cap_malloc_arenas true (Some (bs "16")) = Some 16 /\ exists s, Some (bs "16") = Some s /\ parse_i32 s = Some 16.
Proof.
  split; [reflexivity|]. exact (proj2 (proj2 (arena_cap_sound true (Some (bs "16")) 16 eq_refl)) ltac:(done)).
Defined.

Example arena_cap_defaults :
  map parse_malloc_arena_max [None; Some []; Some (bs "32x"); Some (bs "9999999999999999999999"); Some (bs "-1"); Some (bs "-2147483648")]
  = [32; 32; 32; 32; -1; - 2 ^ 31] /\ cap_malloc_arenas true (Some (bs "0")) = None.
Proof. split; reflexivity. Qed.

(** ** The descriptor limit *)

Record RLimit := mkRLimit { rlim_cur : Z; rlim_max : Z }.

(** [getrlimit] and [setrlimit]: either may fail, and a set that succeeds is what is read next. *)
Record RLimits := mkRLimits { rl_limit : RLimit; rl_get : bool; rl_set : RLimit -> bool }.

Definition unix_raise_nofile_limit (os : RLimits) : option (Z * Z) * RLimits :=
  if negb (rl_get os) then (None, os)
  else
    let rlim := rl_limit os in
    let hard := rlim_max rlim in
    if rlim_cur rlim <? hard then
      let rlim := mkRLimit hard (rlim_max rlim) in
      if rl_set os rlim then (Some (rlim_cur rlim, hard), mkRLimits rlim (rl_get os) (rl_set os)) else (None, os)
    else (Some (rlim_cur rlim, hard), os).

Inductive NofileReport := NfLow (soft hard wanted : Z) | NfRaised (soft hard : Z) | NfFailed.

Definition raise_nofile_limit (os : RLimits) : NofileReport * RLimits :=
  let '(r, os) := unix_raise_nofile_limit os in
  (match r with
   | Some (soft, hard) =>
     let wanted := MAX_CONNECTIONS * 4 in
     if soft <? wanted then NfLow soft hard wanted else NfRaised soft hard
   | None => NfFailed
   end, os).

(** Raising the limit touches the soft limit only, and never lowers it.  Under a kernel that keeps the
    soft limit within the hard one it reports the limit the process then has, which is the hard one; a
    failure leaves everything as it was; and raising again changes nothing more. *)
Theorem nofile_raised (os : RLimits) : rlim_cur (rl_limit os) <= rlim_max (rl_limit os) ->
  let '(r, os') := unix_raise_nofile_limit os in
  rlim_max (rl_limit os') = rlim_max (rl_limit os) /\ rlim_cur (rl_limit os) <= rlim_cur (rl_limit os') /\
  unix_raise_nofile_limit os' = (r, os') /\
  match r with
  | Some (soft, hard) => rl_limit os' = mkRLimit soft hard /\ soft = hard
  | None => os' = os
  end.
Proof.
  destruct os as [[cur max] get set]. unfold unix_raise_nofile_limit. cbn. intros Hle.
  destruct get; cbn; [|done]. destruct (Z.ltb_spec cur max) as [Hlt|Hge]; cbn.
  - destruct (set (mkRLimit max max)) eqn:Es; cbn.
    + split_and!; try done; try lia; by rewrite Z.ltb_irrefl.
    + split_and!; try done. rewrite (proj2 (Z.ltb_lt _ _) Hlt). by rewrite Es.
  - assert (cur = max) by lia. subst. split_and!; try done; by rewrite Z.ltb_irrefl.
Qed.

(** A soft limit of 1024 under a hard one of 65536. *)
Lemma nofile_raised_witness : let os := mkRLimits (mkRLimit 1024 65536) true (fun _ => true) in
  (unix_raise_nofile_limit os).1 = Some (65536, 65536) /\ (raise_nofile_limit os).1 = NfRaised 65536 65536 /\
  unix_raise_nofile_limit (unix_raise_nofile_limit os).2 = unix_raise_nofile_limit os.
Proof.
  cbv zeta. split_and!; [reflexivity..|].
  exact (proj1 (proj2 (proj2 (nofile_raised (mkRLimits (mkRLimit 1024 65536) true (fun _ => true)) ltac:(done))))).
Defined.
